(* ===== verification/_CoqProject ===== *)
-Q . S2P
Prelude.v
Word.v
Bits.v
BitmapConcept.v
EwahBitmap.v
EwahRange.v
BitmapAlgorithms.v
BitwiseRange.v
WahBitmap.v
Bitvector.v
Bitmap.v
Operator.v
Base.v
Coder.v
MultiLevelCoder.v
BitsliceCoder.v
Order.v
BitmapIndex.v
LruCache.v
RangeMap.v
Coding.v
Strings.v
Data.v
SetOperations.v
Types.v
RecordType.v
KeySuffix.v
Ip.v
DataOps.v
DataRecord.v
Expression.v
ExpressionSpec.v
ExpressionPrune.v
ExpressionResolve.v
Taxonomies.v
Evaluate.v
TableSlice.v
Synopsis.v
PartitionSynopsis.v
ActivePartition.v
Catalog.v
CatalogSpec.v
CatalogComplete.v
ValueIndex.v
ValueIndexSpec.v
ArithmeticIndex.v
EnumerationIndex.v
StringIndex.v
IpIndex.v
SubnetIndex.v
HashIndex.v
ListIndex.v
Evaluator.v
Indexer.v
PartitionQuery.v
BitmapTheorems.v
IndexTheorems.v
NetworkIndexTheorems.v
HashListTheorems.v
PartitionTheorems.v
QueryQueue.v
QueryQueueSpec.v
QueryTheorems.v
QueryLanguageTheorems.v
CatalogTheorems.v
ContainerTheorems.v
CodingTheorems.v
Parser.v
ParserPeg.v
ParserNumeric.v
ParserVast.v
ParserVastSpec.v
Calendar.v
ParserTime.v
ParserData.v
ParserDataSpec.v
ParserType.v
ParserExpression.v
ParserExpressionSpec.v
ParserTheorems.v
