(* ===== verification/Prelude.v ===== *)
(** * VAST: queries, the query language, the catalog, value indexes, bitmaps and query scheduling

    VAST stores events in partitions and answers queries over them. A query is the text of an
    expression, which is parsed, normalized and validated. The catalog has a synopsis of every partition and selects the candidates
    of a query. The index actor schedules queries over these partitions with a priority queue. A
    partition has a value index per column, which answers a predicate with the set of the IDs whose
    value may match; these sets are compressed bitmaps. The events are in table slices; the expression,
    bound to their schema, is evaluated on their rows to select the events that match. This development
    models these parts of [libvast] and proves that they do what they promise. Paths below are relative
    to [libvast/include/vast] ([.hpp]) and [libvast/src] ([.cpp]).

    ** The parts and how they build on each other

    - [word.hpp], [bits.hpp]: operations on one block of 64 bits, and sequences of bits that fit one
      block or repeat one bit. Files [Word], [Bits].
    - [bitmap_base.hpp]: what every bitmap provides. File [BitmapConcept]: the class [BitmapOps] has
      the operations and the class [Bitmap] the laws. A bitmap stands for the list of its bits; the
      algorithms are proved against the laws and the bitmaps discharge them.
    - [ewah_bitmap], [wah_bitmap], [null_bitmap] over [bitvector], and the type-erased [bitmap]: files
      [EwahBitmap] (modifiers, class invariant), [EwahRange] (range, instance), [WahBitmap],
      [Bitvector] and [Bitmap], which also has [ids.cpp]. The state is the block vector with the
      member variables of the class; the mapped operations are one definition each.
    - [bitmap_algorithms.hpp]: evaluation of binary operators run by run, n-ary evaluation with a
      priority queue, rank, select, quantifiers (file [BitmapAlgorithms]); the ranges over single
      positions and what is built from them (file [BitwiseRange]).
    - [operator.hpp], [base.hpp], [coder.hpp], [detail/order.hpp], [binner.hpp]: files [Operator],
      [Base], [Coder] (the coders with one level, and the equality coder's correctness),
      [MultiLevelCoder] (range coder, multi-level coder), [BitsliceCoder], [Order].
    - [bitmap_index.hpp]: file [BitmapIndex]. The class [Coder] states what the index relies on, with
      instances for the multi-level range coder, the singleton, bitslice and equality coders.
    - [value_index.cpp], [container_lookup.hpp], [data.hpp], [error.hpp]: files [Data], [ValueIndex]
      (operations) and [ValueIndexSpec]. The class [ValueIndexImpl] states what a concrete index
      promises to [value_index], with instances in [ArithmeticIndex], [EnumerationIndex],
      [StringIndex], [IpIndex] and [SubnetIndex] for the indexes of the directory [index]. [ListIndex]
      is an index of lists over any index of their elements; [HashIndex] finds values by digests.
    - [query_queue.cpp]: file [QueryQueue] has the operations, [QueryQueueSpec] the invariant, the
      histories of operations and the run to completion.
    - [type.cpp]: files [Types] (names, attributes, congruence, compatibility, type checks, inference),
      [RecordType] (the walks over the fields of a record with an offset and a stack) and [KeySuffix]
      ([resolve_key_suffix]). A type is a tree with names and attributes at its nodes.
    - [ip.cpp], [subnet.cpp]: file [Ip]; an address is the list of its 16 bytes.
    - [data.cpp], [detail/stable_map.hpp]: files [DataOps] (comparison, [evaluate]) and [DataRecord]
      (maps that keep the order of insertion, flatten, merge, depth, [pack] and [unpack]).
    - [expression.cpp], [expression_visitors.cpp], [prune.cpp], [detail/set_operations.hpp]: files
      [Expression] and [SetOperations] have the visitors, each a recursive function; [ExpressionSpec]
      the value of an expression and the normal form, [ExpressionPrune] the termination of [prune] and
      what it finds, [ExpressionResolve] the meaning of extractors for a schema.
    - [taxonomies.cpp]: file [Taxonomies], with what concepts and models stand for as relations.
    - [evaluate.cpp]: file [Evaluate], for any bitmap that has a strict range; [table_slice.cpp]: file
      [TableSlice], for any record batch that satisfies the laws of the class [RecordBatch].
    - [min_max_synopsis.hpp], [bool_synopsis.cpp], [bloom_filter.hpp], [bloom_filter_synopsis.hpp],
      [buffered_synopsis.hpp]: file [Synopsis]; [partition_synopsis.cpp], [qualified_record_field.cpp]:
      file [PartitionSynopsis]; the handler of a slice in [system/active_partition.cpp]: file
      [ActivePartition].
    - [system/catalog.cpp]: file [Catalog]; [CatalogSpec] shows that a lookup is a test of each
      partition, [CatalogComplete] that the test accepts every partition with a matching event.

    - [system/indexer.cpp], [arrow_table_slice.cpp]: file [Indexer], how the index of a column is fed with
      slices and asked; [system/evaluator.cpp]: file [Evaluator], the actor that asks the indexers of
      the predicates of an expression and combines their answers, with a step relation for the order
      in which the answers arrive; [detail/partition_common.hpp], [system/passive_partition.cpp]: file
      [PartitionQuery], how a partition turns an expression into requests and handles queries and
      erasures.
    - [detail/lru_cache.hpp], [detail/range_map.hpp]: files [LruCache] and [RangeMap]; iterators are the
      addresses of nodes, or keys of the map.
    - [detail/coding.hpp], [detail/base64.cpp], [detail/varbyte.hpp]: file [Coding];
      [detail/escapers.hpp], [detail/string.cpp]: file [Strings].
    - [concept/parseable], [concept/printable]: a parser is a function of the rest of the input that
      returns an attribute and what is left, the iterator of a failure, or that it never ends. [Parser] has
      the combinators and the classes of their laws, [ParserPeg] the grammars they stand for,
      [ParserNumeric] integers, booleans and bytes, [ParserVast] addresses, subnets, ports, offsets and
      UUIDs, [Calendar] and [ParserTime] dates, durations and time points, [ParserData] the grammar of
      values and their printer, [ParserType] ([legacy_type.cpp]) the grammar of types with their
      attributes, and [ParserExpression] ([expression.cpp]) the query language and its printer.
      [ParserVastSpec], [ParserDataSpec] and [ParserExpressionSpec] show what the parsers do with the texts of the printers. The class
      [PredicateText] states what the parser of expressions relies on of the parser of predicates.

    A Module has the name of the C++ class, its definitions the names of the members. The properties
    are in [BitmapTheorems], [IndexTheorems], [NetworkIndexTheorems], [HashListTheorems],
    [PartitionTheorems], [QueryTheorems], [QueryLanguageTheorems], [CatalogTheorems],
    [ContainerTheorems], [CodingTheorems] and [ParserTheorems]; the lemmas they rest on are in the files of the components.

    ** How the code is modelled

    Objects are records and a member function takes and returns them. [uint64_t] and [size_t] are [N];
    additions, shifts and complements that can leave 64 bits are reduced as the code reduces them
    ([wrap] and the notations with [u] below); signed values are [Z]; counters of [uint32_t] are
    reduced in the same way, but for the counter of the loop of [ewah_bitmap::flip], which the code
    compares with a size and which would never reach more than [2^32] blocks. A [double] is its 64 bits. Strings are lists of bytes. Errors are
    [expected], a sum with the codes of [ec]; the text of an error is left out. Assertions are not
    executed; what they state is proved where it is needed. [const] lookups that decode through a
    coder return the coder, because the equality and range coders fill up their bitmaps lazily.

    Code outside of the repository is a parameter, with a hypothesis where something is relied on: the
    order in which a priority queue hands out elements of equal priority ([queue_top]), the order of
    equal elements after [std::sort] ([Sort]), the matching and searching of regular expressions, the
    hash functions of Bloom filters and of the hash index, what a moved-from key holds, the contents of
    uninitialised memory, the block cipher of pseudonyms, the conversion of addresses to and from text
    in the C library ([Inet]), the clock, the arithmetic on doubles in durations and times, and the record batches of Arrow.
    Three parts of the repository are parameters as well: the parser and the printer of doubles
    ([RealText], [SecondsText]), the computation of the size of a Bloom filter
    in floating point, and the order of predicates that [predicatizer] sorts by. Each property that
    depends on a hypothesis has a witness with a concrete function. Hash maps are lists of pairs in
    the order of insertion.

    Loops with an index or a range are structural recursions over lists. Recursions that are not
    have fuel: [eval_loop] of the binary evaluation gets the sum of the lengths of both ranges, each
    step consuming at least one sequence; the scans over a bitmap get the number of its blocks, the
    ranges over positions the number of bits and [select_with] the number of elements, and the
    theorems about them show that this reads everything; the n-ary loop gets the number of bitmaps;
    the lookup of a value index gets the nesting depth of the value, and [lookup_terminates] shows that more changes
    nothing; [log10] gets the 20 digits of a 64-bit number; [skip_lookups] gets the number of
    partitions, and [queries_complete] shows that this empties the queue; the walks over a record type
    get the number of its fields and records, and [leaves_tree] shows that this reaches all; [prune]
    gets the number of nodes, and [prune_terminates] shows that this is enough without NaN; [depth]
    gets the size of the record; the power of two of [shrink] takes at most 64 doublings; the cursor
    of a model gets fuel from outside, and [model_cursor] shows that some amount is enough for every
    finite model. The limits on the recursion of the source ([max_recursion]) are kept.
    The rounds of [make_digest] are bounded by the source; [erase] of a range map takes a round per
    entry, [split] a round per character and variable bytes a round per 7 bits, which the theorems
    about them show to be enough; [replace_all] gets fuel from outside, one round per character is
    enough, and none is for an empty search string. The loops of the combinators get one round more
    than characters are left, which is enough if every round consumes one, and the outcome [loops]
    stands for the loops of the source that have no end. The rules of data and expressions get a
    level per character; [data_total] shows that this is enough for data, and [parsers_end] that it is
    for every query where the types behind colons are parsed to an end. The rule of types
    refers to itself without consuming input, so that no fuel is enough: [type_rule_loops].
    The bounds [lenN _ <= max_size] say that a bitmap holds no more bits than an EWAH marker and the
    64-bit size can count.

    ** What the theorems show

    - Bitmaps: every sequence of appends and flips of an EWAH, WAH or type-erased bitmap yields the
      same list of bits as the specification, and reading it back returns that list (refinement);
      the algorithms compute the corresponding functions on lists.
    - Coders: decoding answers every comparison for every stored value, also after skips.
    - Indexes: a lookup on a column that was built by appends has a bit for each row, and the bit is
      the result of the comparison: exactly for integers, bools, enumerations, strings within the
      maximum of the index, addresses and subnets of one family, apart from the queries that [string_index_misses]
      and [network_index_misses] show, and without false negatives for binned times and for hashed values, whose lookups are exact if the digest
      of the value is its own. Lists are found by their elements up to the maximum. Nil values and gaps follow [value_index::lookup].
    - Queue: the counters and lists of the queue are consistent in every reachable state, [next] takes
      the partition of highest priority with an open request and leaves none behind, and queries run
      to completion with one notification each.
    - Expressions: normalizing keeps the value of an expression and establishes the normal form;
      tailoring binds the extractors to the matching columns of a schema; pruning ends without NaN and
      only adds candidates, if a lookup in all strings finds what a lookup in a field finds.
    - Types and values: keys, offsets and flat indices of a record convert into each other, a key finds
      the fields whose path ends with it, values survive packing, subnets keep their invariant, and
      pseudonyms keep prefixes. Concepts and models resolve to what they stand for.
    - Slices: evaluating an expression sets the bits of exactly the rows that satisfy it, and selecting
      and filtering refine the filtering of a list of events.
    - Catalog: a lookup refines a test of each partition, and a partition that was filled from slices is
      among the candidates of every query that one of its events satisfies, if the query has no negations and NaN and
      makes only comparisons that the catalog decides as rows do; [catalog_misses] shows others.
    - Partitions: an indexer that was fed slices answers with the rows that match; the evaluator
      fulfills its promise when the last answer arrives, in any order, with the bits of an
      expression without negations; so a query to a partition delivers every row that satisfies it and that the indexers do not lose.
    - Containers and encodings: the cache refines a list of entries by recency, the range map a
      function on points, unless an interval that is erased shares one end with a longer entry; what is encoded or escaped is read back, and what is split joins again.
    - Parsers and printers: the combinators implement parsing expression grammars; numbers are reduced
      to the width of their type; dates and days convert into each other as in the Gregorian calendar;
      addresses, subnets, ports, offsets, UUIDs, time points since 1900, and the data and expressions that the
      domains [data_ok] and [expr_ok] describe are
      parsed to what was printed, times up to rounding; [&&] binds stronger than [||]; the parser of
      data ends; the parser of types does not on inputs without a name, nor does the parser of
      expressions on such an input behind a colon, while it ends on every query for which [types_end] holds.
    - Deviations: where the code does not do what it means to, a theorem shows a concrete input
      ([bitvector_deviates], [select_last_ignores_bit], [nanoseconds_index_misses],
      [string_index_misses], [network_index_misses], [catalog_misses], [slice_ids_deviate], [list_order_deviates],
      [prune_diverges_on_nan], [type_check_inverted], [flatten_limit], [concepts_lost],
      [range_map_erase_deviates], [escapes_deviate], [hash_list_misses]).

    ** What is not modelled

    Serialisation ([inspect], and [pack] and [unpack] of all classes but [data]); memory usage; iterators
    and block-wise appends of [bitvector]; the decoding of multi-level equality and bitslice coders;
    binning and indexing of doubles beyond their order. Of
    [type.cpp] the FlatBuffers tables, Arrow types and the transformations of records; of [data.cpp] the
    conversions; of the catalog the type registry. Of the parsers those of URIs, HTTP, schemas, pipelines and
    endpoints, and the conversions of attributes between C++ types. The texts of doubles, durations,
    addresses and times inside of data are not covered by the round trip of data, nor are types with
    parameters in the round trip of expressions, because the parser of types does not accept all of
    them. Actors and message passing, formats, plugins and the command line are input, output and glue. *)

From stdpp Require Export prelude.
From stdpp Require Export list numbers.

(** ** Scopes and notation *)

Declare Scope u64_scope.
Delimit Scope u64_scope with u64.

#[global] Open Scope N_scope.

(** [2^64], the modulus of [uint64_t] and [size_t]. *)
Definition u64_modulus : N := 2 ^ 64.

(** Reduction of an unbounded result to [uint64_t]. *)
Definition wrap (x : N) : N := x mod 2 ^ 64.

Notation "x +u y" := (wrap (x + y)) (at level 50, left associativity) : u64_scope.
Notation "x -u y" := (wrap (x + 2 ^ 64 - y)) (at level 50, left associativity) : u64_scope.
Notation "x *u y" := (wrap (x * y)) (at level 40, left associativity) : u64_scope.
Notation "~u x" := (N.lnot x 64) (at level 35, right associativity) : u64_scope.
Notation "x <<u i" := (wrap (N.shiftl x i)) (at level 45, left associativity) : u64_scope.
Notation "x >>u i" := (N.shiftr x i) (at level 45, left associativity) : u64_scope.
Notation "x &u y" := (N.land x y) (at level 46, left associativity) : u64_scope.
Notation "x |u y" := (N.lor x y) (at level 48, left associativity) : u64_scope.
Notation "x ^u y" := (N.lxor x y) (at level 47, left associativity) : u64_scope.

#[global] Open Scope u64_scope.

(** A value that fits a [uint64_t]. *)
Definition is_u64 (x : N) : Prop := x < 2 ^ 64.

(** A run of [n] copies of [b]; [n] is a machine size. *)
Definition reps {A} (n : N) (b : A) : list A := replicate (N.to_nat n) b.

(** The [n] least significant bits of [x], LSB first. *)
Definition bits_of (x : N) (n : N) : list bool :=
  (λ i, N.testbit x (N.of_nat i)) <$> seq 0 (N.to_nat n).

(** The length of a list as a machine size. *)
Definition lenN {A} (l : list A) : N := N.of_nat (length l).

(** ** Tactics *)

Create Rewrite HintDb bitdb.
Create Rewrite HintDb lendb.
Create Rewrite HintDb vecdb.
Create HintDb u64db.

(** Splits every boolean comparison of [N] in the goal or the hypotheses. *)
Ltac cases_N :=
  repeat match goal with
  | |- context [?a <? ?b] => destruct (N.ltb_spec a b)
  | |- context [?a <=? ?b] => destruct (N.leb_spec a b)
  | |- context [?a =? ?b] => destruct (N.eqb_spec a b)
  | H : context [?a <? ?b] |- _ => destruct (N.ltb_spec a b)
  | H : context [?a <=? ?b] |- _ => destruct (N.leb_spec a b)
  | H : context [?a =? ?b] |- _ => destruct (N.eqb_spec a b)
  end.

(** ** Machine words, bit by bit *)

Lemma is_u64_wrap x : is_u64 (wrap x).
Proof. unfold is_u64, wrap. apply N.mod_lt. lia. Qed.

Lemma wrap_small x : x < 2 ^ 64 → wrap x = x.
Proof. intros. unfold wrap. by apply N.mod_small. Qed.

Lemma usub_small x y : y <= x → x < 2 ^ 64 → x -u y = x - y.
Proof.
  intros. unfold wrap.
  replace (x + 2 ^ 64 - y) with ((x - y) + 1 * 2 ^ 64) by lia.
  rewrite N.Div0.mod_add. apply N.mod_small. lia.
Qed.

Lemma testbit_wrap x i : N.testbit (wrap x) i = (i <? 64) && N.testbit x i.
Proof.
  unfold wrap. destruct (N.ltb_spec i 64).
  - by rewrite N.mod_pow2_bits_low.
  - by rewrite N.mod_pow2_bits_high.
Qed.

Lemma testbit_shiftl x n i :
  N.testbit (N.shiftl x n) i = (n <=? i) && N.testbit x (i - n).
Proof.
  destruct (N.leb_spec n i).
  - by rewrite N.shiftl_spec_high'.
  - by rewrite N.shiftl_spec_low.
Qed.

Lemma testbit_ones n i : N.testbit (N.ones n) i = (i <? n).
Proof.
  destruct (N.ltb_spec i n).
  - by rewrite N.ones_spec_low.
  - by rewrite N.ones_spec_high.
Qed.

Lemma testbit_lnot x n i :
  N.testbit (N.lnot x n) i = xorb (N.testbit x i) (i <? n).
Proof. unfold N.lnot. by rewrite N.lxor_spec, testbit_ones. Qed.

Lemma testbit_u64_high x i : is_u64 x → 64 <= i → N.testbit x i = false.
Proof.
  intros Hx Hi. rewrite <- (wrap_small x Hx), testbit_wrap.
  by rewrite (proj2 (N.ltb_ge i 64)).
Qed.

Lemma testbit_pow2 n i : N.testbit (2 ^ n) i = (n =? i).
Proof. apply N.pow2_bits_eqb. Qed.

Lemma testbit_bound_high x n i : x < 2 ^ n → n <= i → N.testbit x i = false.
Proof.
  intros Hx Hi. rewrite <- (N.mod_small x (2 ^ n)) by done.
  by rewrite N.mod_pow2_bits_high.
Qed.

Lemma bound_of_testbit x n : (∀ i, n <= i → N.testbit x i = false) → x < 2 ^ n.
Proof.
  intros H. replace x with (x mod 2 ^ n); [apply N.mod_lt; lia|].
  apply N.bits_inj. intros i. destruct (N.lt_ge_cases i n).
  - by rewrite N.mod_pow2_bits_low.
  - rewrite N.mod_pow2_bits_high by done. by rewrite H.
Qed.

Lemma u64_ext x y :
  is_u64 x → is_u64 y →
  (∀ i, i < 64 → N.testbit x i = N.testbit y i) → x = y.
Proof.
  intros Hx Hy H. apply N.bits_inj. intros i.
  destruct (N.lt_ge_cases i 64); [by apply H|].
  by rewrite !testbit_u64_high.
Qed.

#[export] Hint Rewrite N.land_spec N.lor_spec N.lxor_spec N.ldiff_spec
  N.shiftr_spec' N.bits_0 testbit_wrap testbit_shiftl testbit_ones
  testbit_lnot testbit_pow2 : bitdb.

(** Reduces a goal about [N.testbit] to the bits of its atoms, and splits the
    comparisons between positions that remain. *)
Ltac bitblast :=
  autorewrite with bitdb;
  repeat match goal with
  | |- context [?a <? ?b] => destruct (N.ltb_spec a b); try lia
  | |- context [?a <=? ?b] => destruct (N.leb_spec a b); try lia
  | |- context [?a =? ?b] => destruct (N.eqb_spec a b); try lia
  end; subst;
  repeat match goal with
  | |- context [N.testbit ?x ?i] =>
      rewrite (testbit_u64_high x i) by (assumption || lia)
  | |- context [N.testbit ?x ?i] =>
      match goal with H : x < 2 ^ _ |- _ =>
        rewrite (testbit_bound_high x _ i H) by lia end
  end;
  rewrite ?andb_true_r, ?andb_false_r, ?orb_true_r, ?orb_false_r,
    ?xorb_false_r, ?xorb_true_r;
  cbn [andb orb xorb negb]; try done.

Lemma is_u64_land_l x y : is_u64 x → is_u64 (x &u y).
Proof. intros. apply bound_of_testbit. intros. bitblast. Qed.
Lemma is_u64_land_r x y : is_u64 y → is_u64 (x &u y).
Proof. intros. apply bound_of_testbit. intros. bitblast. Qed.
Lemma is_u64_lor x y : is_u64 x → is_u64 y → is_u64 (x |u y).
Proof. intros. apply bound_of_testbit. intros. bitblast. Qed.
Lemma is_u64_lxor x y : is_u64 x → is_u64 y → is_u64 (x ^u y).
Proof. intros. apply bound_of_testbit. intros. bitblast. Qed.
Lemma is_u64_lnot x : is_u64 x → is_u64 (~u x).
Proof. intros. apply bound_of_testbit. intros. bitblast. Qed.
Lemma is_u64_shiftr x n : is_u64 x → is_u64 (x >>u n).
Proof. intros. apply bound_of_testbit. intros. bitblast. Qed.

#[export] Hint Resolve is_u64_wrap is_u64_land_l is_u64_land_r is_u64_lor
  is_u64_lxor is_u64_lnot is_u64_shiftr : u64db.
#[export] Hint Extern 1 (is_u64 _) => (unfold is_u64; lia) : u64db.

(** ** Runs and bit lists *)

Section lists.
Context {A : Type}.
Implicit Types (l : list A) (n m : N) (b : A).

Lemma reps_0 b : reps 0 b = [].
Proof. done. Qed.

Lemma reps_add n m b : reps (n + m) b = reps n b ++ reps m b.
Proof. unfold reps. by rewrite N2Nat.inj_add, replicate_add. Qed.

Lemma length_reps n b : length (reps n b) = N.to_nat n.
Proof. apply length_replicate. Qed.

Lemma lenN_reps n b : lenN (reps n b) = n.
Proof. unfold lenN. rewrite length_reps. lia. Qed.

Lemma lenN_app l1 l2 : lenN (l1 ++ l2) = lenN l1 + lenN l2.
Proof. unfold lenN. rewrite length_app. lia. Qed.

Lemma lenN_nil : lenN (@nil A) = 0.
Proof. done. Qed.

Lemma lenN_cons b l : lenN (b :: l) = 1 + lenN l.
Proof. unfold lenN. cbn [length]. lia. Qed.

Lemma take_reps n m b : n <= m → take (N.to_nat n) (reps m b) = reps n b.
Proof. intros. unfold reps. by rewrite take_replicate, Nat.min_l by lia. Qed.

Lemma drop_reps n m b : drop (N.to_nat n) (reps m b) = reps (m - n) b.
Proof. unfold reps. rewrite drop_replicate. f_equal. lia. Qed.

Lemma lookup_reps n b i :
  reps n b !! i = if decide (i < N.to_nat n)%nat then Some b else None.
Proof.
  unfold reps. case_decide.
  - by apply lookup_replicate_2.
  - apply lookup_replicate_None. lia.
Qed.

Lemma fmap_reps {B} (f : A → B) n b : f <$> reps n b = reps n (f b).
Proof. apply fmap_replicate. Qed.
End lists.

Lemma zip_with_reps {A B C} (f : A → B → C) n x y :
  zip_with f (reps n x) (reps n y) = reps n (f x y).
Proof. unfold reps. induction (N.to_nat n); [done|]. cbn. by f_equal. Qed.

Lemma length_bits_of x n : length (bits_of x n) = N.to_nat n.
Proof. unfold bits_of. by rewrite length_fmap, length_seq. Qed.

Lemma lenN_bits_of x n : lenN (bits_of x n) = n.
Proof. unfold lenN. rewrite length_bits_of. lia. Qed.

Lemma lookup_bits_of x n i :
  (i < N.to_nat n)%nat → bits_of x n !! i = Some (N.testbit x (N.of_nat i)).
Proof.
  intros. unfold bits_of. rewrite list_lookup_fmap, lookup_seq_lt by done. done.
Qed.

#[export] Hint Rewrite @length_reps @lenN_reps @lenN_app @lenN_nil @lenN_cons
  length_bits_of lenN_bits_of @length_app : lendb.

(** Two bit lists of the same length agree when they agree at every index. *)
Lemma bit_list_ext (l1 l2 : list bool) :
  length l1 = length l2 →
  (∀ i, (i < length l1)%nat → l1 !! i = l2 !! i) → l1 = l2.
Proof.
  intros Hlen H. apply list_eq_same_length with (length l1); [done..|].
  intros i x y Hi Hx Hy. rewrite H in Hx by done. congruence.
Qed.

Lemma bits_of_ext x y n :
  (∀ i, i < n → N.testbit x i = N.testbit y i) → bits_of x n = bits_of y n.
Proof.
  intros H. unfold bits_of. apply list_fmap_ext. intros i j Hj.
  apply lookup_seq in Hj as [-> ?]. apply H. lia.
Qed.

Lemma bits_of_0 x : bits_of x 0 = [].
Proof. done. Qed.

Lemma bits_of_app x n m : bits_of x (n + m) = bits_of x n ++ bits_of (x >>u n) m.
Proof.
  unfold bits_of. rewrite N2Nat.inj_add, seq_app, fmap_app. f_equal.
  cbn [Nat.add]. rewrite <- (Nat.add_0_r (N.to_nat n)) at 1.
  rewrite <- fmap_add_seq, <- list_fmap_compose.
  apply list_fmap_ext. intros i j _. cbn. rewrite N.shiftr_spec'. f_equal. lia.
Qed.

Lemma bits_of_const x n b :
  (∀ i, i < n → N.testbit x i = b) → bits_of x n = reps n b.
Proof.
  intros H. apply bit_list_ext; autorewrite with lendb; [done|].
  intros i Hi. rewrite lookup_bits_of, lookup_reps, decide_True by lia.
  by rewrite H by lia.
Qed.

Lemma bits_of_zero n : bits_of 0 n = reps n false.
Proof. apply bits_of_const. intros. apply N.bits_0. Qed.

Lemma take_bits_of x n m : n <= m → take (N.to_nat n) (bits_of x m) = bits_of x n.
Proof.
  intros. replace m with (n + (m - n)) by lia.
  rewrite bits_of_app. apply take_app_length'. by rewrite length_bits_of.
Qed.

Lemma drop_bits_of x n m :
  n <= m → drop (N.to_nat n) (bits_of x m) = bits_of (x >>u n) (m - n).
Proof.
  intros. replace m with (n + (m - n)) at 1 by lia.
  rewrite bits_of_app. apply drop_app_length'. by rewrite length_bits_of.
Qed.

Lemma fmap_bits_of (f : bool → bool) x y n :
  (∀ i, i < n → N.testbit y i = f (N.testbit x i)) →
  f <$> bits_of x n = bits_of y n.
Proof.
  intros H. unfold bits_of. rewrite <- list_fmap_compose.
  apply list_fmap_ext. intros i j Hj. apply lookup_seq in Hj as [-> ?].
  cbn. by rewrite H by lia.
Qed.

Lemma zip_with_bits_of (f : bool → bool → bool) x y z n :
  (∀ i, i < n → N.testbit z i = f (N.testbit x i) (N.testbit y i)) →
  zip_with f (bits_of x n) (bits_of y n) = bits_of z n.
Proof.
  intros H. apply list_eq. intros i. rewrite lookup_zip_with.
  destruct (decide (i < N.to_nat n)%nat).
  - rewrite !lookup_bits_of by done. cbn. by rewrite H by lia.
  - by rewrite !(lookup_ge_None_2 (bits_of _ _)) by (rewrite length_bits_of; lia).
Qed.

(** ** Reference queries on bit lists *)

(** The number of positions of [l] that hold [b]. *)
Fixpoint count_bit (b : bool) (l : list bool) : N :=
  match l with
  | [] => 0
  | x :: l => (if eqb x b then 1 else 0) + count_bit b l
  end.

(** The first position of [l] that holds [b]. *)
Fixpoint first_bit (b : bool) (l : list bool) : option N :=
  match l with
  | [] => None
  | x :: l => if eqb x b then Some 0 else N.succ <$> first_bit b l
  end.

(** The last position of [l] that holds [b]. *)
Fixpoint last_bit (b : bool) (l : list bool) : option N :=
  match l with
  | [] => None
  | x :: l =>
      match last_bit b l with
      | Some i => Some (N.succ i)
      | None => if eqb x b then Some 0 else None
      end
  end.

(** The position of the [k]-th occurrence of [b] in [l], counting from 1. *)
Fixpoint nth_bit (b : bool) (k : N) (l : list bool) : option N :=
  match l with
  | [] => None
  | x :: l =>
      if eqb x b
      then if k =? 1 then Some 0 else N.succ <$> nth_bit b (k - 1) l
      else N.succ <$> nth_bit b k l
  end.

Section queries.
Implicit Types (l : list bool) (b : bool).

Lemma count_bit_app b l1 l2 :
  count_bit b (l1 ++ l2) = count_bit b l1 + count_bit b l2.
Proof. induction l1 as [|x l1 IH]; cbn; [done|]. rewrite IH. lia. Qed.

Lemma count_bit_le b l : count_bit b l <= lenN l.
Proof.
  induction l as [|x l IH]; cbn; [done|]. rewrite lenN_cons.
  destruct (eqb x b); lia.
Qed.

Lemma count_bit_negb b l : count_bit b l = lenN l - count_bit (negb b) l.
Proof.
  induction l as [|x l IH]; [done|]. cbn [count_bit]. rewrite lenN_cons, IH.
  pose proof (count_bit_le (negb b) l). destruct x, b; cbn in *; lia.
Qed.

Lemma count_bit_fmap_negb b l : count_bit b (negb <$> l) = count_bit (negb b) l.
Proof. induction l as [|[] l IH]; cbn; destruct b; cbn; by rewrite ?IH. Qed.

Lemma count_bit_reps b n x : count_bit b (reps n x) = if eqb x b then n else 0.
Proof.
  unfold reps. rewrite <- (N2Nat.id n) at 2. induction (N.to_nat n) as [|k IH]; cbn [count_bit replicate].
  - by destruct (eqb x b).
  - rewrite IH. destruct (eqb x b); lia.
Qed.

Lemma first_bit_lt b l i : first_bit b l = Some i → i < lenN l.
Proof.
  revert i; induction l as [|x l IH]; cbn; [done|]. intros i. rewrite lenN_cons.
  destruct (eqb x b); [naive_solver lia|].
  destruct (first_bit b l); cbn; intros; simplify_eq.
  specialize (IH _ eq_refl). lia.
Qed.

Lemma first_bit_app b l1 l2 :
  first_bit b (l1 ++ l2) =
  match first_bit b l1 with
  | Some i => Some i
  | None => N.add (lenN l1) <$> first_bit b l2
  end.
Proof.
  induction l1 as [|x l1 IH]; cbn.
  - destruct (first_bit b l2); cbn; f_equal; rewrite lenN_nil; lia.
  - destruct (eqb x b); [done|]. rewrite IH.
    destruct (first_bit b l1), (first_bit b l2); cbn; rewrite ?lenN_cons; auto with f_equal lia.
Qed.

Lemma last_bit_app b l1 l2 :
  last_bit b (l1 ++ l2) =
  match last_bit b l2 with
  | Some i => Some (lenN l1 + i)
  | None => last_bit b l1
  end.
Proof.
  induction l1 as [|x l1 IH]; cbn.
  - destruct (last_bit b l2); [rewrite lenN_nil; f_equal; lia|done].
  - rewrite IH, lenN_cons. destruct (last_bit b l2); [f_equal; lia|done].
Qed.

Lemma first_bit_spec b l i :
  first_bit b l = Some i ↔
  l !! N.to_nat i = Some b ∧ ∀ j, (j < N.to_nat i)%nat → l !! j = Some (negb b).
Proof.
  revert i; induction l as [|x l IH]; intros i; cbn [first_bit].
  { rewrite lookup_nil. naive_solver. }
  destruct (eqb x b) eqn:E.
  - apply eqb_prop in E as ->. split.
    + intros [= <-]. split; [done|lia].
    + intros [Hi Hj]. destruct (N.eq_dec i 0) as [->|]; [done|].
      specialize (Hj 0%nat ltac:(lia)). injection Hj. by destruct b.
  - apply eqb_false_iff in E. split.
    + destruct (first_bit b l) as [k|]; cbn; [|done]. intros [= <-].
      destruct (proj1 (IH k) eq_refl) as [Hk Hj]. rewrite N2Nat.inj_succ. split; [done|].
      intros [|j] ?; [destruct x, b; done|]. apply Hj. lia.
    + intros [Hi Hj]. destruct (N.eq_dec i 0) as [->|]; [by injection Hi as ->|].
      rewrite (proj2 (IH (N.pred i))); [cbn; f_equal; lia|].
      replace (N.to_nat i) with (S (N.to_nat (N.pred i))) in Hi by lia.
      split; [done|]. intros j ?. apply (Hj (S j)). lia.
Qed.

Lemma first_bit_reps b n : first_bit b (reps n (negb b)) = None.
Proof.
  unfold reps. induction (N.to_nat n) as [|k IH]; [done|]. cbn.
  rewrite IH. by destruct b.
Qed.

Lemma last_bit_reps b n : last_bit b (reps n (negb b)) = None.
Proof.
  unfold reps. induction (N.to_nat n) as [|k IH]; [done|]. cbn.
  rewrite IH. by destruct b.
Qed.

(** A list whose position [i] holds [b] with only [negb b] after it. *)
Lemma last_bit_intro b l1 n : last_bit b (l1 ++ b :: reps n (negb b)) = Some (lenN l1).
Proof.
  rewrite last_bit_app. cbn. rewrite last_bit_reps, eqb_reflx. f_equal. lia.
Qed.

Lemma first_bit_reps_eq b n : 0 < n → first_bit b (reps n b) = Some 0.
Proof.
  intros. unfold reps. replace (N.to_nat n) with (S (N.to_nat (N.pred n))) by lia.
  cbn [replicate first_bit]. by rewrite eqb_reflx.
Qed.

Lemma last_bit_reps_eq b n : 0 < n → last_bit b (reps n b) = Some (n - 1).
Proof.
  intros. replace n with ((n - 1) + 1) at 1 by lia. rewrite reps_add, last_bit_app.
  change (reps 1 b) with [b]. cbn [last_bit]. rewrite eqb_reflx, lenN_reps.
  f_equal. lia.
Qed.

Lemma nth_bit_reps b k n :
  0 < k → nth_bit b k (reps n b) = if k <=? n then Some (k - 1) else None.
Proof.
  intros Hk. unfold reps. rewrite <- (N2Nat.id n) at 2. revert k Hk.
  induction (N.to_nat n) as [|m IH]; intros k Hk; cbn [replicate nth_bit].
  { by destruct (N.leb_spec k (N.of_nat 0)); [lia|]. }
  rewrite eqb_reflx, Nat2N.inj_succ. destruct (N.eqb_spec k 1) as [->|].
  - by destruct (N.leb_spec 1 (N.succ (N.of_nat m))); [|lia].
  - rewrite IH by lia. destruct (N.leb_spec (k - 1) (N.of_nat m)),
      (N.leb_spec k (N.succ (N.of_nat m))); try lia; [|done]. cbn. f_equal. lia.
Qed.

Lemma first_bit_fmap_negb b l : first_bit b (negb <$> l) = first_bit (negb b) l.
Proof. induction l as [|[] l IH]; cbn; destruct b; cbn; by rewrite ?IH. Qed.

Lemma last_bit_fmap_negb b l : last_bit b (negb <$> l) = last_bit (negb b) l.
Proof. induction l as [|[] l IH]; cbn; destruct b; cbn; by rewrite ?IH. Qed.

Lemma nth_bit_fmap_negb b k l : nth_bit b k (negb <$> l) = nth_bit (negb b) k l.
Proof. revert k; induction l as [|[] l IH]; intros; cbn; destruct b; cbn; by rewrite ?IH. Qed.

Lemma nth_bit_None b k l : count_bit b l < k → nth_bit b k l = None.
Proof.
  revert k; induction l as [|x l IH]; intros k Hk; cbn in *; [done|].
  destruct (eqb x b); [rewrite (proj2 (N.eqb_neq k 1)) by lia|];
    rewrite IH by lia; done.
Qed.

Lemma nth_bit_None_inv b k l : 0 < k → nth_bit b k l = None → count_bit b l < k.
Proof.
  revert k; induction l as [|x l IH]; intros k Hk; cbn; [done|].
  destruct (eqb x b); [destruct (N.eqb_spec k 1); [done|]|];
    intros E%fmap_None%IH; lia.
Qed.

Lemma nth_bit_lt b k l i : nth_bit b k l = Some i → i < lenN l.
Proof.
  revert k i; induction l as [|x l IH]; intros k i; cbn; [done|]. rewrite lenN_cons.
  assert (∀ k, N.succ <$> nth_bit b k l = Some i → i < 1 + lenN l) as Hs.
  { intros k' (j & E & ->)%fmap_Some. apply IH in E. lia. }
  destruct (eqb x b); [|apply Hs]. destruct (k =? 1); [|apply Hs]. intros [= <-]. lia.
Qed.

Lemma first_last_None b l : first_bit b l = None ↔ last_bit b l = None.
Proof.
  induction l as [|x l IH]; cbn; [done|]. destruct (eqb x b).
  - destruct (last_bit b l); done.
  - rewrite fmap_None, IH. by destruct (last_bit b l).
Qed.

Lemma last_bit_lt b l i : last_bit b l = Some i → i < lenN l.
Proof.
  revert i; induction l as [|x l IH]; cbn; [done|]. intros i. rewrite lenN_cons.
  destruct (last_bit b l) as [j|]; [intros [= <-]; specialize (IH j eq_refl); lia|].
  destruct (eqb x b); [intros [= <-]; lia|done].
Qed.

Lemma nth_bit_reps_neq b k n : 0 < k → nth_bit b k (reps n (negb b)) = None.
Proof.
  intros. apply nth_bit_None. rewrite count_bit_reps. by destruct b; cbn.
Qed.

Lemma nth_bit_app b k l1 l2 :
  0 < k →
  nth_bit b k (l1 ++ l2) =
  if k <=? count_bit b l1 then nth_bit b k l1
  else N.add (lenN l1) <$> nth_bit b (k - count_bit b l1) l2.
Proof.
  revert k; induction l1 as [|x l1 IH]; intros k Hk; cbn.
  - rewrite (proj2 (N.leb_gt k 0)) by lia. rewrite N.sub_0_r, lenN_nil.
    destruct (nth_bit b k l2); cbn; f_equal; lia.
  - rewrite lenN_cons. destruct (eqb x b).
    + destruct (N.eqb_spec k 1) as [->|].
      { destruct (N.leb_spec 1 (1 + count_bit b l1)); [done|lia]. }
      rewrite IH by lia.
      replace (k - (1 + count_bit b l1)) with (k - 1 - count_bit b l1) by lia.
      destruct (N.leb_spec (k - 1) (count_bit b l1)),
        (N.leb_spec k (1 + count_bit b l1)); try lia; [done|].
      destruct (nth_bit _ _ l2); cbn; f_equal; lia.
    + rewrite IH, N.add_0_l by lia. destruct (N.leb_spec k (count_bit b l1)); [done|].
      destruct (nth_bit _ _ l2); cbn; f_equal; lia.
Qed.
End queries.

(** [bits_of] peels the least significant bit. *)
Lemma bits_of_succ x n :
  bits_of x (N.succ n) = N.odd x :: bits_of (N.div2 x) n.
Proof.
  by rewrite <- N.add_1_l, bits_of_app, N.div2_spec, <- N.bit0_odd.
Qed.

(** ** [std::vector] of machine words

    The modifiers the sources use at the end of a vector, and element access by
    a machine index. Access out of range is undefined in C++; the model answers
    0 there and drops the write, and no theorem depends on it. *)

Definition back (v : list N) : N := List.last v 0.
Definition pop_back (v : list N) : list N := take (length v - 1) v.
Definition set_back (x : N) (v : list N) : list N := pop_back v ++ [x].
Definition push_back {A} (v : list A) (x : A) : list A := v ++ [x].
Definition vec_at (v : list N) (i : N) : N := default 0 (v !! N.to_nat i).
Definition vec_set {A} (v : list A) (i : N) (x : A) : list A := <[N.to_nat i := x]> v.

Lemma back_snoc v x : back (v ++ [x]) = x.
Proof. apply List.last_last. Qed.

Lemma pop_back_snoc v x : pop_back (v ++ [x]) = v.
Proof. unfold pop_back. apply take_app_length'. rewrite length_app. cbn. lia. Qed.

Lemma set_back_snoc v x y : set_back y (v ++ [x]) = v ++ [y].
Proof. unfold set_back. by rewrite pop_back_snoc. Qed.

Lemma vec_at_middle v1 v2 x : vec_at (v1 ++ x :: v2) (lenN v1) = x.
Proof. unfold vec_at, lenN. by rewrite Nat2N.id, list_lookup_middle. Qed.

Lemma vec_set_middle {A} (v1 v2 : list A) x y :
  vec_set (v1 ++ x :: v2) (lenN v1) y = v1 ++ y :: v2.
Proof. unfold vec_set, lenN. by rewrite Nat2N.id, insert_app_r_alt, Nat.sub_diag by lia. Qed.

#[export] Hint Rewrite back_snoc pop_back_snoc set_back_snoc vec_at_middle
  @vec_set_middle : vecdb.

(** ** Filters *)

Lemma filter_ext_elem {A} (P Q : A → Prop) `{!∀ x, Decision (P x), !∀ x, Decision (Q x)} (l : list A) :
  (∀ x, x ∈ l → P x ↔ Q x) → filter P l = filter Q l.
Proof.
  induction l as [|x l IH]; intros Hpq; [done|]. rewrite !filter_cons, IH by (intros; apply Hpq; by apply list_elem_of_further).
  specialize (Hpq x (list_elem_of_here _ _)). repeat case_decide; (done || tauto).
Qed.

Lemma filter_all {A} (P : A → Prop) `{!∀ x, Decision (P x)} (l : list A) : Forall P l → filter P l = l.
Proof. induction 1 as [|x l Hx _ IH]; [done|]. by rewrite filter_cons_True, IH. Qed.

Lemma filter_fmap {A B} (f : A → B) (P : B → Prop) `{!∀ y, Decision (P y)} (l : list A) :
  filter P (f <$> l) = f <$> filter (λ x, P (f x)) l.
Proof.
  induction l as [|x l IH]; [done|]. rewrite fmap_cons, !filter_cons. rewrite IH. by destruct (decide (P (f x))).
Qed.

Lemma Forall_filter {A} (P Q : A → Prop) `{!∀ x, Decision (P x)} (l : list A) : Forall Q l → Forall Q (filter P l).
Proof. rewrite !list.Forall_forall. intros Hl x [_ Hx]%list_elem_of_filter. auto. Qed.

(** ** Lists without duplicates *)

Lemma NoDup_fmap_elem {A B} (f : A → B) (l : list A) x y : NoDup (f <$> l) → x ∈ l → y ∈ l → f x = f y → x = y.
Proof.
  intros Hnd (i & Hi)%list_elem_of_lookup (j & Hj)%list_elem_of_lookup Hf.
  assert (i = j) as <-; [|congruence]. eapply (list.NoDup_lookup _ _ _ (f x) Hnd); rewrite list_lookup_fmap; [by rewrite Hi|by rewrite Hj, Hf].
Qed.

(** ** Tests of all and of some elements *)

Lemma existsb_fmap {A B} (f : B → bool) (g : A → B) (xs : list A) : existsb f (g <$> xs) = existsb (λ x, f (g x)) xs.
Proof. induction xs as [|x xs IH]; cbn; [done|]. by rewrite IH. Qed.
Lemma foldr_Forall {A} (P : A → Prop) xs : foldr (λ x Q, P x ∧ Q) True xs ↔ Forall P xs.
Proof. induction xs as [|x xs IH]; cbn; [by split|]. by rewrite list.Forall_cons, IH. Qed.
