(* ===== verification/Word.v ===== *)
(** Machine words: [libvast/include/vast/word.hpp] at [T = uint64_t].

    [word<T>] is a family of constants and bit operations on one block. The
    bitmaps of the program instantiate it with [uint64_t] only, so the module
    fixes [width = 64]; a shift is written with the wrap-around of the type. The
    compiler builtins ([__builtin_ctzll] and its siblings) are modelled by what
    they are documented to return. *)

From S2P Require Import Prelude.

(** ** Compiler builtins *)

Fixpoint pos_popcount (p : positive) : N :=
  match p with
  | xH => 1
  | xO p => pos_popcount p
  | xI p => 1 + pos_popcount p
  end.

(** [__builtin_popcountll] *)
Definition builtin_popcountll (x : N) : N :=
  match x with 0 => 0 | Npos p => pos_popcount p end.

Fixpoint pos_ctz (p : positive) : N :=
  match p with xO p => 1 + pos_ctz p | _ => 0 end.

(** [__builtin_ctzll]; undefined in C for 0, where the model answers 0. *)
Definition builtin_ctzll (x : N) : N :=
  match x with 0 => 0 | Npos p => pos_ctz p end.

(** [__builtin_clzll]; undefined in C for 0. *)
Definition builtin_clzll (x : N) : N := 63 - N.log2 x.

(** [__builtin_ffsll] *)
Definition builtin_ffsll (x : N) : N := if x =? 0 then 0 else 1 + builtin_ctzll x.

(** ** [struct word] *)

Module word.

Definition width : N := 64.
Definition npos : N := ~u 0.
Definition none : N := 0.
Definition all : N := ~u none.
Definition msb0 : N := all >>u 1.
Definition msb1 : N := ~u msb0.
Definition lsb1 : N := 1.
Definition lsb0 : N := ~u lsb1.

Definition mask (i : N) : N := lsb1 <<u i.
Definition lsb_mask (i : N) : N := ~u (all <<u i).
Definition lsb_fill (i : N) : N := all >>u (width - i).
Definition msb_mask (i : N) : N := ~u (all >>u i).
Definition msb_fill (i : N) : N := all <<u (width - i).

Definition test (x i : N) : bool := (x &u mask i) =? mask i.
Definition all_or_none (x : N) : bool := ((x +u 1) &u lsb0) <=? 1.
Definition all_or_none_k (x k : N) : bool := ((x +u 1) &u lsb_mask k) <=? 1.

Definition set (x i : N) (b : bool) : N :=
  if b then x |u mask i else x &u (~u mask i).
Definition flip (x i : N) : N := x ^u mask i.

Definition find_first_set (x : N) : N := builtin_ffsll x.

Definition popcount (x : N) : N := if x =? 0 then 0 else builtin_popcountll x.
Definition count_trailing_zeros (x : N) : N :=
  if x =? 0 then width else builtin_ctzll x.
Definition count_trailing_ones (x : N) : N := count_trailing_zeros (~u x).
Definition count_leading_zeros (x : N) : N :=
  if x =? 0 then width else builtin_clzll x.
Definition count_leading_ones (x : N) : N := count_leading_zeros (~u x).
Definition parity (x : N) : N := builtin_popcountll x mod 2.
Definition log2 (x : N) : N := width - count_leading_zeros x - 1.

(** The free functions of [word.hpp]; [bit] is the template parameter [Bit]. *)

Definition rank (bit : bool) (x : N) : N :=
  if bit then popcount x else popcount (~u x).

Definition rank_upto (bit : bool) (x i : N) : N :=
  let x := if bit then x else ~u x in
  rank true (x &u lsb_fill (i + 1)).

Definition find_first (bit : bool) (x : N) : N :=
  let tzs := count_trailing_zeros (if bit then x else ~u x) in
  if tzs =? width then npos else tzs.

Definition find_last (bit : bool) (x : N) : N :=
  let lzs := count_leading_zeros (if bit then x else ~u x) in
  if lzs =? width then npos else width - lzs - 1.

Definition find_next (x i : N) : N :=
  if i =? width - 1 then npos
  else let top := x &u (all <<u (i + 1)) in
       if top =? 0 then npos else count_trailing_zeros top.

Definition find_prev (x i : N) : N :=
  if i =? 0 then npos
  else let low := x &u (~u (all <<u i)) in
       if low =? 0 then npos else width - count_leading_zeros low - 1.

(** The loop of [select]: [k] iterations are left, [j] and [cum] are the
    source's variables. *)
Fixpoint select_loop (bit : bool) (x i : N) (k : nat) (j cum : N) : N :=
  match k with
  | O => npos
  | S k =>
      if eqb (test x j) bit
      then if cum + 1 =? i then j else select_loop bit x i k (j + 1) (cum + 1)
      else select_loop bit x i k (j + 1) cum
  end.

Definition select (bit : bool) (x i : N) : N := select_loop bit x i 64 0 0.

End word.

(** ** The constants and masks, bit by bit *)

Lemma is_u64_all : is_u64 word.all.
Proof. done. Qed.
Lemma is_u64_none : is_u64 word.none.
Proof. done. Qed.

Lemma testbit_all i : N.testbit word.all i = (i <? 64).
Proof. unfold word.all, word.none. bitblast. Qed.
Lemma testbit_none i : N.testbit word.none i = false.
Proof. apply N.bits_0. Qed.
Lemma testbit_msb1 i : N.testbit word.msb1 i = (i =? 63).
Proof.
  unfold word.msb1, word.msb0. autorewrite with bitdb. rewrite testbit_all. bitblast.
Qed.
Lemma testbit_lsb1 i : N.testbit word.lsb1 i = (i =? 0).
Proof. unfold word.lsb1. change 1 with (2 ^ 0). rewrite testbit_pow2. bitblast. Qed.
#[export] Hint Rewrite testbit_all testbit_none testbit_msb1 testbit_lsb1 : bitdb.

Lemma testbit_mask n i : N.testbit (word.mask n) i = (i <? 64) && (n =? i).
Proof. unfold word.mask. bitblast. Qed.
Lemma testbit_lsb_mask n i :
  N.testbit (word.lsb_mask n) i = (i <? 64) && (i <? n).
Proof. unfold word.lsb_mask. bitblast. Qed.
Lemma testbit_lsb_fill n i :
  N.testbit (word.lsb_fill n) i = (i <? 64) && (i <? n).
Proof. unfold word.lsb_fill, word.width. bitblast. Qed.
Lemma testbit_msb_mask n i :
  N.testbit (word.msb_mask n) i = (i <? 64) && (64 <=? i + n).
Proof. unfold word.msb_mask. bitblast. Qed.
Lemma testbit_msb_fill n i :
  N.testbit (word.msb_fill n) i = (i <? 64) && (64 <=? i + n).
Proof. unfold word.msb_fill, word.width. bitblast. Qed.
Lemma testbit_lsb0 i : N.testbit word.lsb0 i = (i <? 64) && negb (i =? 0).
Proof. unfold word.lsb0. bitblast. Qed.
#[export] Hint Rewrite testbit_mask testbit_lsb_mask testbit_lsb_fill
  testbit_msb_mask testbit_msb_fill testbit_lsb0 : bitdb.

Lemma is_u64_lsb_mask n : is_u64 (word.lsb_mask n).
Proof. apply bound_of_testbit. intros. bitblast. Qed.
Lemma is_u64_lsb_fill n : is_u64 (word.lsb_fill n).
Proof. apply bound_of_testbit. intros. bitblast. Qed.
Lemma is_u64_msb1 : is_u64 word.msb1.
Proof. done. Qed.
Lemma is_u64_msb_mask n : is_u64 (word.msb_mask n).
Proof. apply bound_of_testbit. intros. bitblast. Qed.
Lemma is_u64_mask n : is_u64 (word.mask n).
Proof. apply bound_of_testbit. intros. bitblast. Qed.
#[export] Hint Resolve is_u64_all is_u64_none is_u64_lsb_mask is_u64_lsb_fill
  is_u64_msb1 is_u64_msb_mask is_u64_mask : u64db.

(** [lsb_mask] and [lsb_fill] agree wherever both are defined. *)
Lemma lsb_mask_fill n : word.lsb_mask n = word.lsb_fill n.
Proof. apply u64_ext; auto with u64db. intros. bitblast. Qed.

Lemma bits_of_all n : n <= 64 → bits_of word.all n = reps n true.
Proof. intros. apply bits_of_const. intros. bitblast. Qed.

Lemma bits_of_none n : bits_of word.none n = reps n false.
Proof. apply bits_of_zero. Qed.

(** A word is determined by its 64 bits. *)
Lemma bits_of_inj x y :
  is_u64 x → is_u64 y → bits_of x 64 = bits_of y 64 → x = y.
Proof.
  intros Hx Hy H. apply u64_ext; [done..|]. intros i Hi.
  assert (bits_of x 64 !! N.to_nat i = bits_of y 64 !! N.to_nat i) as Hl by congruence.
  rewrite !lookup_bits_of, N2Nat.id in Hl by lia. congruence.
Qed.

(** ** Tests *)

Lemma word_test_spec x i : i < 64 → word.test x i = N.testbit x i.
Proof.
  intros Hi. unfold word.test.
  destruct (N.testbit x i) eqn:E; [apply N.eqb_eq|apply N.eqb_neq].
  - apply N.bits_inj. intros j. bitblast.
  - intros H. assert (N.testbit (x &u word.mask i) i = N.testbit (word.mask i) i)
      as Hb by congruence. revert Hb. autorewrite with bitdb. rewrite E, N.eqb_refl.
    bitblast.
Qed.

Lemma land_lsb0 y : is_u64 y → y &u word.lsb0 = 2 * (y / 2).
Proof.
  intros. transitivity (N.shiftl (N.shiftr y 1) 1).
  - apply N.bits_inj. intros i. bitblast. f_equal. lia.
  - rewrite N.shiftl_mul_pow2, N.shiftr_div_pow2. change (2 ^ 1) with 2. lia.
Qed.

Lemma all_or_none_spec x :
  is_u64 x → word.all_or_none x = true ↔ x = word.none ∨ x = word.all.
Proof.
  intros Hx. unfold word.all_or_none. rewrite land_lsb0 by apply is_u64_wrap.
  rewrite N.leb_le. change word.all with (2 ^ 64 - 1). change word.none with 0.
  unfold is_u64 in Hx. destruct (N.eq_dec x (2 ^ 64 - 1)) as [->|].
  - split; [by right|done].
  - rewrite wrap_small by lia. split; [|intros [->| ->]; [done|lia]].
    intros. left. pose proof (N.div_mod (x + 1) 2). pose proof (N.mod_lt (x + 1) 2). lia.
Qed.

Lemma land_lsb_mask x n :
  n <= 64 → is_u64 x → x &u word.lsb_mask n = x mod 2 ^ n.
Proof.
  intros. rewrite <- N.land_ones. apply N.bits_inj. intros i. bitblast.
Qed.

(** ** Population count *)

Lemma builtin_popcountll_spec x n :
  x < 2 ^ N.of_nat n →
  builtin_popcountll x = count_bit true (bits_of x (N.of_nat n)).
Proof.
  revert x. induction n as [|n IH]; intros x Hx.
  - assert (x = 0) as -> by (cbn in Hx; lia). done.
  - rewrite Nat2N.inj_succ, bits_of_succ. cbn [count_bit].
    rewrite <- IH.
    + destruct x as [|[p|p|]]; cbn; lia.
    + rewrite N.div2_div. rewrite Nat2N.inj_succ, N.pow_succ_r' in Hx.
      apply N.Div0.div_lt_upper_bound. lia.
Qed.

Lemma popcount_spec x :
  is_u64 x → word.popcount x = count_bit true (bits_of x 64).
Proof.
  intros. unfold word.popcount. transitivity (builtin_popcountll x).
  - by destruct (N.eqb_spec x 0) as [->|].
  - by apply (builtin_popcountll_spec x 64).
Qed.

Lemma fmap_negb_bits_of x n :
  n <= 64 → negb <$> bits_of x n = bits_of (~u x) n.
Proof. intros. apply fmap_bits_of. intros. bitblast. Qed.

Lemma word_rank_spec b x :
  is_u64 x → word.rank b x = count_bit b (bits_of x 64).
Proof.
  intros. destruct b; cbn [word.rank]; rewrite popcount_spec by auto with u64db; [done|].
  by rewrite <- fmap_negb_bits_of, count_bit_fmap_negb by lia.
Qed.

(** The bits past [n] that a mask clears do not count. *)
Lemma count_bit_masked x y n :
  n <= 64 →
  (∀ i, i < n → N.testbit y i = N.testbit x i) →
  (∀ i, n <= i → i < 64 → N.testbit y i = false) →
  count_bit true (bits_of y 64) = count_bit true (bits_of x n).
Proof.
  intros Hn Hlo Hhi. replace 64 with (n + (64 - n)) at 1 by lia.
  rewrite bits_of_app, count_bit_app, (bits_of_ext y x n) by done.
  rewrite (bits_of_const (y >>u n) _ false), count_bit_reps; [cbn; lia|].
  intros. rewrite N.shiftr_spec'. apply Hhi; lia.
Qed.

Lemma word_rank_upto_spec b x i :
  is_u64 x → i < 64 → word.rank_upto b x i = count_bit b (bits_of x (i + 1)).
Proof.
  intros. unfold word.rank_upto. rewrite word_rank_spec by auto with u64db.
  rewrite (count_bit_masked (if b then x else ~u x) _ (i + 1)); [|lia|intros; bitblast..].
  destruct b; [done|]. by rewrite <- fmap_negb_bits_of, count_bit_fmap_negb by lia.
Qed.

(** ** Searching *)

Lemma pos_ctz_spec p :
  N.testbit (Npos p) (pos_ctz p) = true ∧
  ∀ j, j < pos_ctz p → N.testbit (Npos p) j = false.
Proof.
  induction p as [p _|p [IH1 IH2]|]; cbn [pos_ctz]; [split; [done|lia]| |split; [done|lia]].
  change (N.pos p~0) with (2 * N.pos p). split.
  - rewrite N.add_1_l, N.testbit_even_succ by lia. done.
  - intros j Hj. destruct (N.eq_dec j 0) as [->|]; [apply N.testbit_even_0|].
    replace j with (N.succ (N.pred j)) by lia.
    rewrite N.testbit_even_succ by lia. apply IH2. lia.
Qed.

Lemma first_bit_ctz x :
  is_u64 x → x ≠ 0 → first_bit true (bits_of x 64) = Some (builtin_ctzll x).
Proof.
  intros Hx Hnz. destruct x as [|p]; [done|]. cbn [builtin_ctzll].
  destruct (pos_ctz_spec p) as [H1 H2].
  assert (pos_ctz p < 64).
  { apply N.nle_gt. intros ?. by rewrite testbit_u64_high in H1. }
  apply first_bit_spec. split.
  - rewrite lookup_bits_of, N2Nat.id by lia. by rewrite H1.
  - intros j Hj. rewrite lookup_bits_of by lia. by rewrite H2 by lia.
Qed.

Lemma bits_of_log2 x :
  is_u64 x → x ≠ 0 →
  bits_of x 64 = bits_of x (N.log2 x) ++ true :: reps (63 - N.log2 x) false.
Proof.
  intros Hx Hnz.
  assert (N.log2 x < 64) by (apply N.log2_lt_pow2; [lia|done]).
  replace 64 with (N.log2 x + N.succ (63 - N.log2 x)) at 1 by lia.
  rewrite bits_of_app, bits_of_succ. f_equal. f_equal.
  - by rewrite <- N.bit0_odd, N.shiftr_spec', N.add_0_l, N.bit_log2.
  - apply bits_of_const. intros. rewrite N.div2_spec, !N.shiftr_spec'.
    apply N.bits_above_log2. lia.
Qed.

Lemma ctz_width x :
  is_u64 x → (word.count_trailing_zeros x =? word.width) = (x =? 0).
Proof.
  intros. unfold word.count_trailing_zeros, word.width.
  destruct (N.eqb_spec x 0); [done|]. apply N.eqb_neq.
  pose proof (first_bit_lt _ _ _ (first_bit_ctz x ltac:(done) ltac:(done))) as Hlt.
  rewrite lenN_bits_of in Hlt. lia.
Qed.

Lemma clz_width x :
  is_u64 x → (word.count_leading_zeros x =? word.width) = (x =? 0).
Proof.
  intros. unfold word.count_leading_zeros, word.width, builtin_clzll.
  destruct (N.eqb_spec x 0); [done|]. apply N.eqb_neq. lia.
Qed.

(** [npos] stands for "not found". *)
Definition or_npos (o : option N) : N := default word.npos o.

Lemma word_find_first_spec b x :
  is_u64 x → word.find_first b x = or_npos (first_bit b (bits_of x 64)).
Proof.
  intros Hx. unfold word.find_first.
  replace (first_bit b (bits_of x 64))
    with (first_bit true (bits_of (if b then x else ~u x) 64))
    by (destruct b; [done|]; by rewrite <- fmap_negb_bits_of, first_bit_fmap_negb by lia).
  set (y := if b then x else ~u x). assert (is_u64 y) by (subst y; destruct b; auto with u64db).
  rewrite ctz_width by done. unfold word.count_trailing_zeros.
  destruct (N.eqb_spec y 0) as [->|].
  - by rewrite bits_of_zero, (first_bit_reps true).
  - by rewrite first_bit_ctz.
Qed.

Lemma last_bit_clz x :
  is_u64 x → x ≠ 0 →
  last_bit true (bits_of x 64) = Some (word.width - word.count_leading_zeros x - 1).
Proof.
  intros. rewrite bits_of_log2 by done. rewrite (last_bit_intro true).
  rewrite lenN_bits_of. f_equal.
  assert (N.log2 x < 64) by (apply N.log2_lt_pow2; [lia|done]).
  unfold word.count_leading_zeros, word.width, builtin_clzll.
  rewrite (proj2 (N.eqb_neq x 0)) by done. lia.
Qed.

Lemma word_find_last_spec b x :
  is_u64 x → word.find_last b x = or_npos (last_bit b (bits_of x 64)).
Proof.
  intros Hx. unfold word.find_last.
  replace (last_bit b (bits_of x 64))
    with (last_bit true (bits_of (if b then x else ~u x) 64))
    by (destruct b; [done|]; by rewrite <- fmap_negb_bits_of, last_bit_fmap_negb by lia).
  set (y := if b then x else ~u x). assert (is_u64 y) by (subst y; destruct b; auto with u64db).
  rewrite clz_width by done. destruct (N.eqb_spec y 0) as [->|].
  - by rewrite bits_of_zero, (last_bit_reps true).
  - by rewrite last_bit_clz.
Qed.

Lemma word_find_next_spec x i :
  is_u64 x → i < 64 →
  word.find_next x i =
  or_npos (N.add (i + 1) <$> first_bit true (bits_of (x >>u (i + 1)) (64 - (i + 1)))).
Proof.
  intros Hx Hi. unfold word.find_next, word.width.
  destruct (N.eqb_spec i (64 - 1)) as [->|]; [done|].
  set (top := x &u (word.all <<u (i + 1))).
  assert (is_u64 top) by (unfold top; auto with u64db).
  replace (N.add (i + 1) <$> first_bit true (bits_of (x >>u (i + 1)) (64 - (i + 1))))
    with (first_bit true (bits_of top 64)).
  - destruct (N.eqb_spec top 0) as [->|].
    + by rewrite bits_of_zero, (first_bit_reps true).
    + rewrite first_bit_ctz by done. unfold word.count_trailing_zeros.
      by rewrite (proj2 (N.eqb_neq top 0)).
  - replace 64 with ((i + 1) + (64 - (i + 1))) at 1 by lia.
    rewrite bits_of_app, first_bit_app, (bits_of_const top _ false).
    + rewrite (first_bit_reps true), lenN_reps. do 2 f_equal.
      apply bits_of_ext. intros. unfold top. bitblast.
    + intros. unfold top. bitblast.
Qed.

Lemma word_find_prev_spec x i :
  is_u64 x → i < 64 →
  word.find_prev x i = or_npos (last_bit true (bits_of x i)).
Proof.
  intros Hx Hi. unfold word.find_prev.
  destruct (N.eqb_spec i 0) as [->|]; [done|].
  set (low := x &u (~u (word.all <<u i))).
  assert (is_u64 low) by (unfold low; auto with u64db).
  replace (last_bit true (bits_of x i)) with (last_bit true (bits_of low 64)).
  - destruct (N.eqb_spec low 0) as [->|].
    + by rewrite bits_of_zero, (last_bit_reps true).
    + by rewrite last_bit_clz.
  - replace 64 with (i + (64 - i)) by lia.
    rewrite bits_of_app, last_bit_app, (bits_of_const (low >>u i) _ false).
    + rewrite (last_bit_reps true). f_equal. apply bits_of_ext.
      intros. unfold low. bitblast.
    + intros. unfold low. bitblast.
Qed.

Lemma select_loop_spec b x i k j cum :
  j + N.of_nat k = 64 → cum < i →
  word.select_loop b x i k j cum =
  or_npos (N.add j <$> nth_bit b (i - cum) (bits_of (x >>u j) (N.of_nat k))).
Proof.
  revert j cum. induction k as [|k IH]; intros j cum Hj Hcum; [done|].
  cbn [word.select_loop]. rewrite word_test_spec by lia.
  rewrite Nat2N.inj_succ, bits_of_succ. cbn [nth_bit].
  rewrite <- N.bit0_odd, N.shiftr_spec', N.add_0_l, N.div2_spec, N.shiftr_shiftr.
  destruct (eqb (N.testbit x j) b).
  - destruct (N.eqb_spec (cum + 1) i), (N.eqb_spec (i - cum) 1); try lia.
    + cbn. lia.
    + rewrite IH by lia. replace (i - (cum + 1)) with (i - cum - 1) by lia.
      destruct (nth_bit _ _ _); cbn; lia.
  - rewrite IH by lia. destruct (nth_bit _ _ _); cbn; lia.
Qed.

Lemma word_select_spec b x i :
  0 < i → word.select b x i = or_npos (nth_bit b i (bits_of x 64)).
Proof.
  intros. unfold word.select. rewrite select_loop_spec by lia.
  rewrite N.shiftr_0_r, N.sub_0_r. change (N.of_nat 64) with 64.
  by destruct (nth_bit b i (bits_of x 64)).
Qed.

(** ** Appending bits to a word *)

Lemma is_u64_below x k : x < 2 ^ k → k <= 64 → is_u64 x.
Proof.
  intros. unfold is_u64. eapply N.lt_le_trans; [done|]. by apply N.pow_le_mono_r.
Qed.

(** The word whose [n] low bits are [bit]. *)
Lemma fill_word_spec (bit : bool) n :
  n <= 64 →
  (if bit then word.lsb_fill n else word.none) < 2 ^ n ∧
  bits_of (if bit then word.lsb_fill n else word.none) n = reps n bit.
Proof.
  intros Hn. destruct bit; split.
  - apply bound_of_testbit. intros. bitblast.
  - apply bits_of_const. intros. bitblast.
  - apply bound_of_testbit. intros. bitblast.
  - apply bits_of_none.
Qed.

(** Writing [n] bits of [y] behind the [k] bits of [x]. *)
Lemma or_shifted x y k n :
  x < 2 ^ k → y < 2 ^ n → k + n <= 64 →
  x |u (y <<u k) < 2 ^ (k + n) ∧
  bits_of (x |u (y <<u k)) (k + n) = bits_of x k ++ bits_of y n.
Proof.
  intros Hx Hy Hkn. split.
  - apply bound_of_testbit. intros. bitblast.
  - rewrite bits_of_app. f_equal; apply bits_of_ext; intros; bitblast.
    f_equal. lia.
Qed.

Lemma bits_of_mask value n :
  n <= 64 →
  value &u word.lsb_fill n < 2 ^ n ∧ bits_of (value &u word.lsb_fill n) n = bits_of value n.
Proof.
  intros. split; [apply bound_of_testbit|apply bits_of_ext]; intros; bitblast.
Qed.

(** ** Sequences of words *)

Definition words (ds : list N) : list bool := concat ((λ d, bits_of d 64) <$> ds).

Lemma words_app ds ds' : words (ds ++ ds') = words ds ++ words ds'.
Proof. unfold words. by rewrite fmap_app, concat_app. Qed.

Lemma words_snoc ds x : words (ds ++ [x]) = words ds ++ bits_of x 64.
Proof. rewrite words_app. unfold words at 2. cbn [fmap list_fmap concat]. by rewrite app_nil_r. Qed.

Lemma words_len ds : lenN (words ds) = 64 * lenN ds.
Proof.
  induction ds as [|d ds IH]; [done|]. unfold words in *. cbn.
  autorewrite with lendb. rewrite IH. lia.
Qed.

Lemma words_reps n d b : bits_of d 64 = reps 64 b → words (reps n d) = reps (64 * n) b.
Proof.
  intros Hd. induction n as [|n IH] using N.peano_ind; [done|].
  rewrite <- N.add_1_r, reps_add, words_app, IH, N.mul_add_distr_l, reps_add. f_equal.
  change (reps 1 d) with [d]. unfold words. cbn [fmap list_fmap concat].
  by rewrite app_nil_r, Hd.
Qed.

Lemma fmap_negb_words ds : words ((λ d, ~u d) <$> ds) = negb <$> words ds.
Proof.
  induction ds as [|d ds IH]; [done|]. unfold words in *. cbn [fmap list_fmap concat].
  rewrite fmap_app, <- IH. f_equal. symmetry. apply fmap_bits_of. intros. bitblast.
Qed.
