(* ===== verification/Bits.v ===== *)
(** Bit sequences in one word: [libvast/include/vast/bits.hpp].

    A [bits] value stands for a sequence of [size_] bits. Up to 64 bits are held
    literally in the low bits of [data_]; a longer sequence is a {e run}, and
    [data_] is then all 0s or all 1s. [to_list] is the sequence a value stands
    for; each operation is related to the list operation it implements. *)

From S2P Require Import Prelude Word.

Module bits.

Record bits := mk { data_ : N; size_ : N }.

#[export] Instance bits_eq_dec : EqDecision bits.
Proof. solve_decision. Defined.

(** The default constructor, the one-block constructor and
    [bits(value_type x, size_type n)]. *)
Definition nil : bits := mk 0 0.
Definition of_block (x : N) : bits := mk x word.width.
Definition make (x n : N) : bits :=
  mk (if n <? word.width then x &u word.lsb_mask n else x) n.

Definition data (b : bits) : N := data_ b.
Definition size (b : bits) : N := size_ b.
Definition empty (b : bits) : bool := size_ b =? 0.
Definition is_partial_word (b : bits) : bool := size b <? word.width.
Definition is_complete_word (b : bits) : bool := size b =? word.width.
Definition is_run (b : bits) : bool := word.width <? size_ b.

Definition homogeneous (b : bits) : bool :=
  if word.width <=? size_ b then word.all_or_none (data_ b)
  else word.all_or_none_k (data_ b) (size_ b).

(** [operator[]] *)
Definition get (b : bits) (i : N) : bool :=
  if is_run b then negb (data_ b =? 0)
  else negb ((data_ b &u word.mask i) =? 0).

(** [slice(offset, length)] and [slice(offset)] *)
Definition slice (b : bits) (offset length : N) : bits :=
  make (if is_run b then data_ b else data_ b >>u offset) length.
Definition slice_from (b : bits) (offset : N) : bits :=
  slice b offset (size_ b - offset).

(** [operator==] and [operator<] *)
Definition eqb (x y : bits) : bool := (data x =? data y) && (size x =? size y).
Definition ltb (x y : bits) : bool :=
  (data x <? data y) || ((data x =? data y) && (size x <? size y)).

(** Subsetting. *)
Definition drop (xs : bits) (n : N) : bits :=
  if n <? size xs then slice_from xs n else nil.
Definition drop_right (xs : bits) (n : N) : bits :=
  if n <? size xs then slice xs 0 (size xs - n) else nil.
Definition take (xs : bits) (n : N) : bits :=
  if n <? size xs then slice xs 0 n else xs.
Definition take_right (xs : bits) (n : N) : bits :=
  if n <? size xs then slice_from xs (size xs - n) else xs.

(** Searching; [bit] is the template parameter. *)
Definition find_first (bit : bool) (b : bits) : N :=
  if bit then
    if word.width <? size b then if data b =? word.all then 0 else word.npos
    else word.find_first true (data b)
  else
    if word.width <? size b then if data b =? word.none then 0 else word.npos
    else word.find_first false (data b |u word.msb_mask (word.width - size b)).

Definition find_next (bit : bool) (b : bits) (i : N) : N :=
  if size b -u 1 <=? i then word.npos
  else if word.width <? size b then
    if data b =? (if bit then word.all else word.none) then i + 1 else word.npos
  else if bit then word.find_next (data b) i
  else word.find_next ((~u data b) &u word.lsb_fill (size b)) i.

Definition find_last (bit : bool) (b : bits) : N :=
  if word.width <? size b then
    if data b =? (if bit then word.all else word.none) then size b - 1 else word.npos
  else if bit then word.find_last true (data b)
  else word.find_last true ((~u data b) &u word.lsb_fill (size b)).

(** Counting. *)
Definition rank (bit : bool) (b : bits) : N :=
  if word.width <? size b then
    if data b =? (if bit then word.all else word.none) then size b else 0
  else if bit then word.rank true (data b)
  else word.rank true ((~u data b) &u word.lsb_fill (size b)).

Definition rank_upto (bit : bool) (b : bits) (i : N) : N :=
  let data := if bit then data b else ~u data b in
  if word.width <? size b then if data =? word.none then 0 else i + 1
  else if i =? word.width - 1 then word.popcount data
  else word.rank_upto true data i.

Definition select (bit : bool) (b : bits) (i : N) : N :=
  let data := if bit then data b else ~u data b in
  if word.width <? size b then if data =? word.all then i - 1 else word.npos
  else word.select true data i.

(** The sequence a value stands for. *)
Definition to_list (b : bits) : list bool :=
  if word.width <? size_ b then reps (size_ b) (negb (data_ b =? 0))
  else bits_of (data_ b) (size_ b).

(** The class invariant stated above [class bits]. *)
Definition wf (b : bits) : Prop :=
  is_u64 (data_ b) ∧ is_u64 (size_ b) ∧
  (word.width < size_ b → data_ b = word.none ∨ data_ b = word.all) ∧
  (size_ b < word.width → data_ b < 2 ^ size_ b).

End bits.

Arguments bits.data !_ /.
Arguments bits.size !_ /.

(** Arithmetic on the sizes of sequences. *)
Ltac size_lia := unfold bits.size, bits.data, word.width, is_u64 in *; lia.

(** ** Representation *)

Lemma bits_lenN b : lenN (bits.to_list b) = bits.size b.
Proof. unfold bits.to_list. by case_match; autorewrite with lendb. Qed.

Lemma bits_length b : length (bits.to_list b) = N.to_nat (bits.size b).
Proof. rewrite <- bits_lenN. unfold lenN. lia. Qed.
#[export] Hint Rewrite bits_lenN bits_length : lendb.

Lemma bits_to_list_nil b : bits.size b = 0 → bits.to_list b = [].
Proof. intros H. apply nil_length_inv. rewrite bits_length. lia. Qed.

Lemma bits_wf_nil : bits.wf bits.nil.
Proof. repeat split; cbn; lia. Qed.

(** A run, in list form. *)
Lemma bits_to_list_run b :
  bits.wf b → 64 < bits.size b →
  bits.to_list b = reps (bits.size b) (bits.data b =? word.all) ∧
  (bits.data b = word.none ∨ bits.data b = word.all).
Proof.
  intros (_ & _ & H & _) Hs. unfold bits.to_list, bits.data, bits.size, word.width in *.
  rewrite (proj2 (N.ltb_lt _ _)) by done. split; [|auto].
  by destruct (H Hs) as [-> | ->].
Qed.

Lemma bits_to_list_word b :
  bits.size b <= 64 → bits.to_list b = bits_of (bits.data b) (bits.size b).
Proof.
  intros. unfold bits.to_list, bits.data, bits.size, word.width in *.
  by rewrite (proj2 (N.ltb_ge _ _)) by lia.
Qed.

Lemma bits_make_wf x n :
  is_u64 x → is_u64 n → (n <= 64 ∨ x = word.none ∨ x = word.all) →
  bits.wf (bits.make x n).
Proof.
  intros Hx Hn H. unfold bits.make, bits.wf, word.width. cbn.
  destruct (N.ltb_spec n 64); repeat split; auto with u64db; try lia.
  intros. apply bound_of_testbit. intros. bitblast.
Qed.

Lemma bits_make_to_list x n :
  n <= 64 → bits.to_list (bits.make x n) = bits_of x n.
Proof.
  intros. rewrite bits_to_list_word by done. cbn.
  unfold word.width. destruct (N.ltb_spec n 64); [|done].
  apply bits_of_ext. intros. bitblast.
Qed.

Lemma bits_make_run x n :
  x = word.none ∨ x = word.all →
  bits.to_list (bits.make x n) = reps n (x =? word.all).
Proof.
  intros Hx. destruct (N.le_gt_cases n 64).
  - rewrite bits_make_to_list by done.
    destruct Hx as [-> | ->]; [by rewrite bits_of_none|by rewrite bits_of_all].
  - unfold bits.to_list, bits.make, word.width. cbn.
    rewrite (proj2 (N.ltb_lt 64 n)), (proj2 (N.ltb_ge n 64)) by lia.
    by destruct Hx as [-> | ->].
Qed.

(** [operator[]] reads the sequence. *)
Lemma bits_get_spec b i :
  bits.wf b → i < bits.size b →
  bits.to_list b !! N.to_nat i = Some (bits.get b i).
Proof.
  intros Hwf Hi. unfold bits.get, bits.is_run, bits.to_list, word.width.
  unfold bits.size in Hi. destruct (N.ltb_spec 64 (bits.size_ b)).
  - by rewrite lookup_reps, decide_True by lia.
  - rewrite lookup_bits_of, N2Nat.id by lia. f_equal.
    destruct (N.testbit (bits.data_ b) i) eqn:E; symmetry.
    + apply negb_true_iff, N.eqb_neq. intros H0.
      assert (N.testbit (bits.data_ b &u word.mask i) i = false) as Hb
        by (rewrite H0; apply N.bits_0).
      revert Hb. autorewrite with bitdb. rewrite E. bitblast.
    + apply negb_false_iff, N.eqb_eq, N.bits_inj. intros j. bitblast.
Qed.

(** ** Slicing *)

Lemma bits_slice_wf b off len :
  bits.wf b → off + len <= bits.size b → bits.wf (bits.slice b off len).
Proof.
  intros (Hd & Hs & Hrun & _) Hle. unfold bits.slice, bits.is_run, bits.size in *.
  apply bits_make_wf.
  - case_match; auto with u64db.
  - unfold is_u64 in *. lia.
  - destruct (N.ltb_spec word.width (bits.size_ b)); [auto|].
    left. unfold word.width in *. lia.
Qed.

Lemma bits_slice_spec b off len :
  bits.wf b → off + len <= bits.size b →
  bits.to_list (bits.slice b off len) =
  take (N.to_nat len) (drop (N.to_nat off) (bits.to_list b)).
Proof.
  intros Hwf Hle. unfold bits.slice, bits.is_run.
  destruct (N.ltb_spec word.width (bits.size_ b)) as [Hrun|Hlit].
  - destruct (bits_to_list_run b Hwf Hrun) as [-> Hd].
    rewrite bits_make_run by done. rewrite drop_reps, take_reps by lia. done.
  - rewrite bits_make_to_list, bits_to_list_word by size_lia.
    rewrite drop_bits_of, take_bits_of by lia. done.
Qed.

Lemma bits_drop_wf b n : bits.wf b → bits.wf (bits.drop b n).
Proof.
  intros. unfold bits.drop, bits.slice_from. case_match eqn:E; [|apply bits_wf_nil].
  apply N.ltb_lt in E. apply bits_slice_wf; [done|size_lia].
Qed.

Lemma bits_drop_spec b n :
  bits.wf b → bits.to_list (bits.drop b n) = drop (N.to_nat n) (bits.to_list b).
Proof.
  intros. unfold bits.drop, bits.slice_from.
  destruct (N.ltb_spec n (bits.size b)) as [E|E]; unfold bits.size in E.
  - rewrite bits_slice_spec by (done || size_lia).
    apply take_ge. rewrite length_drop, bits_length. size_lia.
  - symmetry. apply drop_ge. rewrite bits_length. size_lia.
Qed.

Lemma bits_take_spec b n :
  bits.wf b → bits.to_list (bits.take b n) = take (N.to_nat n) (bits.to_list b).
Proof.
  intros. unfold bits.take. destruct (N.ltb_spec n (bits.size b)).
  - by rewrite bits_slice_spec by (done || lia).
  - symmetry. apply take_ge. rewrite bits_length. lia.
Qed.

Lemma bits_drop_right_spec b n :
  bits.wf b →
  bits.to_list (bits.drop_right b n) =
  take (N.to_nat (bits.size b) - N.to_nat n) (bits.to_list b).
Proof.
  intros. unfold bits.drop_right. destruct (N.ltb_spec n (bits.size b)).
  - rewrite bits_slice_spec by (done || lia). f_equal. lia.
  - replace (N.to_nat _ - N.to_nat n)%nat with O by lia. done.
Qed.

Lemma bits_take_right_spec b n :
  bits.wf b →
  bits.to_list (bits.take_right b n) =
  drop (N.to_nat (bits.size b) - N.to_nat n) (bits.to_list b).
Proof.
  intros. unfold bits.take_right, bits.slice_from.
  destruct (N.ltb_spec n (bits.size b)) as [E|E]; unfold bits.size in *.
  - rewrite bits_slice_spec by (done || size_lia).
    rewrite take_ge by (rewrite length_drop, bits_length; size_lia).
    f_equal. lia.
  - by replace (N.to_nat _ - N.to_nat n)%nat with O by lia.
Qed.

(** ** Searching and counting *)

(** How a sequence of at most 64 bits sits in its word. *)
Lemma bits_word_pad b :
  bits.wf b → bits.size b <= 64 →
  bits_of (bits.data b) 64 = bits.to_list b ++ reps (64 - bits.size b) false.
Proof.
  intros (_ & _ & _ & Hd) Hs. rewrite bits_to_list_word by done.
  replace 64 with (bits.size b + (64 - bits.size b)) at 1 by lia.
  rewrite bits_of_app. f_equal. apply bits_of_const. intros i Hi.
  rewrite N.shiftr_spec'. apply (testbit_bound_high _ (bits.size b)); [|lia].
  unfold bits.size, bits.data, word.width in *. apply Hd. lia.
Qed.

Lemma bits_word_pad_or b :
  bits.wf b → bits.size b <= 64 →
  bits_of (bits.data b |u word.msb_mask (word.width - bits.size b)) 64 =
  bits.to_list b ++ reps (64 - bits.size b) true.
Proof.
  intros _ Hs. rewrite bits_to_list_word by done. unfold word.width.
  replace 64 with (bits.size b + (64 - bits.size b)) at 2 by lia.
  rewrite bits_of_app. f_equal.
  - apply bits_of_ext. intros. bitblast.
  - apply bits_of_const. intros. bitblast.
Qed.

Lemma bits_word_pad_neg b :
  bits.wf b → bits.size b <= 64 →
  bits_of ((~u bits.data b) &u word.lsb_fill (bits.size b)) 64 =
  (negb <$> bits.to_list b) ++ reps (64 - bits.size b) false.
Proof.
  intros _ Hs. rewrite bits_to_list_word by done.
  rewrite fmap_negb_bits_of by done.
  replace 64 with (bits.size b + (64 - bits.size b)) at 2 by lia.
  rewrite bits_of_app. f_equal.
  - apply bits_of_ext. intros. bitblast.
  - apply bits_of_const. intros. bitblast.
Qed.

Lemma bits_wf_data b : bits.wf b → is_u64 (bits.data b).
Proof. by intros [? _]. Qed.
#[export] Hint Resolve bits_wf_data : u64db.

(** Splits a goal on whether the sequence is a run, and on the run's bit. *)
Ltac bits_cases b Hwf :=
  unfold word.width;
  let Hs := fresh "Hs" in
  destruct (N.ltb_spec 64 (bits.size b)) as [Hs|Hs];
  [ let H1 := fresh "Hl" in let H2 := fresh "Hd" in
    destruct (bits_to_list_run b Hwf Hs) as [H1 H2];
    rewrite H1; clear H1; destruct H2 as [H2|H2]; rewrite H2
  | ].

Lemma bits_find_first_spec bit b :
  bits.wf b →
  bits.find_first bit b = or_npos (first_bit bit (bits.to_list b)).
Proof.
  intros Hwf. unfold bits.find_first. bits_cases b Hwf.
  - destruct bit; cbn; [by rewrite (first_bit_reps true)|by rewrite first_bit_reps_eq by lia].
  - destruct bit; cbn; [by rewrite first_bit_reps_eq by lia|by rewrite (first_bit_reps false)].
  - destruct bit; rewrite word_find_first_spec by auto with u64db.
    + rewrite bits_word_pad, first_bit_app, (first_bit_reps true) by done.
      by case_match.
    + rewrite bits_word_pad_or, first_bit_app, (first_bit_reps false) by done.
      by case_match.
Qed.

Lemma bits_find_last_spec bit b :
  bits.wf b →
  bits.find_last bit b = or_npos (last_bit bit (bits.to_list b)).
Proof.
  intros Hwf. unfold bits.find_last. bits_cases b Hwf.
  - destruct bit; cbn; [by rewrite (last_bit_reps true)|by rewrite last_bit_reps_eq by lia].
  - destruct bit; cbn; [by rewrite last_bit_reps_eq by lia|by rewrite (last_bit_reps false)].
  - destruct bit; rewrite word_find_last_spec by auto with u64db.
    + by rewrite bits_word_pad, last_bit_app, (last_bit_reps true).
    + by rewrite bits_word_pad_neg, last_bit_app, (last_bit_reps true),
        last_bit_fmap_negb.
Qed.

Lemma bits_rank_spec bit b :
  bits.wf b → bits.rank bit b = count_bit bit (bits.to_list b).
Proof.
  intros Hwf. unfold bits.rank. bits_cases b Hwf.
  - rewrite count_bit_reps. by destruct bit.
  - rewrite count_bit_reps. by destruct bit.
  - destruct bit; rewrite word_rank_spec by auto with u64db.
    + rewrite bits_word_pad, count_bit_app, count_bit_reps by done. cbn. lia.
    + rewrite bits_word_pad_neg, count_bit_app, count_bit_reps, count_bit_fmap_negb
        by done. cbn. lia.
Qed.

Lemma bits_rank_upto_spec bit b i :
  bits.wf b → i < bits.size b →
  bits.rank_upto bit b i =
  count_bit bit (take (N.to_nat (i + 1)) (bits.to_list b)).
Proof.
  intros Hwf Hi. unfold bits.rank_upto. bits_cases b Hwf.
  - rewrite take_reps, count_bit_reps by lia. by destruct bit.
  - rewrite take_reps, count_bit_reps by lia. by destruct bit.
  - rewrite bits_to_list_word, take_bits_of by lia.
    transitivity (count_bit true
      (bits_of (if bit then bits.data b else ~u bits.data b) (i + 1))).
    + destruct (N.eqb_spec i (64 - 1)) as [->|].
      * apply popcount_spec. destruct bit; auto with u64db.
      * apply word_rank_upto_spec; [destruct bit; auto with u64db|lia].
    + destruct bit; [done|].
      by rewrite <- fmap_negb_bits_of, count_bit_fmap_negb by lia.
Qed.

(** [find_next] moves past [i]. *)
Lemma bits_find_next_spec bit b i :
  bits.wf b → i < bits.size b →
  bits.find_next bit b i =
  or_npos (N.add (i + 1) <$> first_bit bit (drop (N.to_nat (i + 1)) (bits.to_list b))).
Proof.
  intros Hwf Hi. unfold bits.find_next.
  rewrite usub_small by (destruct Hwf as (? & ? & _); size_lia).
  destruct (N.leb_spec (bits.size b - 1) i).
  { by rewrite drop_ge by (rewrite bits_length; lia). }
  bits_cases b Hwf.
  - rewrite drop_reps. destruct bit; cbn;
      [by rewrite (first_bit_reps true)|rewrite first_bit_reps_eq by lia; cbn; lia].
  - rewrite drop_reps. destruct bit; cbn;
      [rewrite N.eqb_refl, first_bit_reps_eq by lia; cbn; lia|by rewrite (first_bit_reps false)].
  - destruct bit; rewrite word_find_next_spec by (auto with u64db; lia);
      rewrite <- drop_bits_of by lia.
    + rewrite bits_word_pad, drop_app_le by (try done; rewrite bits_length; lia).
      rewrite first_bit_app, (first_bit_reps true). by case_match.
    + rewrite bits_word_pad_neg, drop_app_le
        by (try done; rewrite length_fmap, bits_length; lia).
      rewrite <- fmap_drop, first_bit_app, (first_bit_reps true), first_bit_fmap_negb.
      cbn [negb]. by destruct (first_bit false _).
Qed.

(** [select] finds the [i]-th occurrence, provided that the search cannot run
    into the unused high bits of a partial word. *)
Lemma bits_select_spec bit b i :
  bits.wf b → 0 < i → i <= bits.size b →
  bit = true ∨ word.width <= bits.size b ∨ i <= count_bit bit (bits.to_list b) →
  bits.select bit b i = or_npos (nth_bit bit i (bits.to_list b)).
Proof.
  intros Hwf Hi Hle Hbit. unfold bits.select. bits_cases b Hwf.
  1, 2: destruct bit; cbn; rewrite ?nth_bit_reps, ?(nth_bit_reps_neq true),
    ?(nth_bit_reps_neq false), ?(proj2 (N.leb_le i (bits.size b))) by lia; done.
  rewrite word_select_spec by done. destruct bit.
  - rewrite bits_word_pad, nth_bit_app by done. case_match eqn:E; [done|].
    apply N.leb_gt in E. rewrite (nth_bit_reps_neq true) by lia.
    by rewrite nth_bit_None.
  - rewrite <- fmap_negb_bits_of, nth_bit_fmap_negb by lia.
    rewrite bits_word_pad, nth_bit_app by done. destruct Hbit as [?|[Hw|Hc]]; [done| |].
    + replace (64 - bits.size b) with 0 by size_lia. case_match eqn:E; [done|].
      apply N.leb_gt in E. by rewrite (nth_bit_None false i).
    + by rewrite (proj2 (N.leb_le _ _)) by done.
Qed.
