(* ===== verification/BitmapConcept.v ===== *)
(** The bitmap concept: [libvast/include/vast/bitmap_base.hpp].

    The comment above [class bitmap_base] lists what a concrete bitmap type
    provides; [BitmapOps] is that list, and [Bitmap] states what the algorithms
    rely on: each operation refines an operation on the list of bits the bitmap
    stands for. [bit_range] is the sequence of [bits] that the range object of
    the type yields. *)

From S2P Require Import Prelude Word Bits.

(** [bitmap_base::max_size] *)
Definition max_size : N := 2 ^ 64 - 2.

(** Positions of a bitmap are never [npos]. *)
Ltac npos_lia := unfold max_size in *; change word.npos with (2 ^ 64 - 1) in *; lia.

Class BitmapOps (B : Type) := {
  bm_nil : B;
  bm_size : B → N;
  bm_append_bit : B → bool → B;
  bm_append_bits : B → bool → N → B;
  bm_append_block : B → N → N → B;
  bm_flip : B → B;
  bit_range : B → list bits.bits
}.

(** The sequences of a range are non-empty, the last one excepted. *)
Fixpoint seqs_ok (xs : list bits.bits) : Prop :=
  match xs with
  | [] => True
  | x :: xs => (xs = [] ∨ bits.size x ≠ 0) ∧ seqs_ok xs
  end.

(** The bits of a range. *)
Definition range_bits (xs : list bits.bits) : list bool :=
  concat (bits.to_list <$> xs).

Lemma seqs_ok_nonempty xs : Forall (λ x, bits.size x ≠ 0) xs → seqs_ok xs.
Proof. induction 1; cbn; auto. Qed.

Class Bitmap (B : Type) `{BitmapOps B} := {
  bm_wf : B → Prop;
  bm_list : B → list bool;
  bm_max b : bm_wf b → lenN (bm_list b) <= max_size;
  bm_nil_spec : bm_wf bm_nil ∧ bm_list bm_nil = [];
  bm_size_spec b : bm_wf b → bm_size b = lenN (bm_list b);
  bm_append_bit_spec b x :
    bm_wf b → lenN (bm_list b) + 1 <= max_size →
    bm_wf (bm_append_bit b x) ∧ bm_list (bm_append_bit b x) = bm_list b ++ [x];
  bm_append_bits_spec b x n :
    bm_wf b → lenN (bm_list b) + n <= max_size →
    bm_wf (bm_append_bits b x n) ∧ bm_list (bm_append_bits b x n) = bm_list b ++ reps n x;
  bm_append_block_spec b x n :
    bm_wf b → is_u64 x → 0 < n → n <= 64 → lenN (bm_list b) + n <= max_size →
    bm_wf (bm_append_block b x n) ∧
    bm_list (bm_append_block b x n) = bm_list b ++ bits_of x n;
  bm_flip_spec b :
    bm_wf b → bm_wf (bm_flip b) ∧ bm_list (bm_flip b) = negb <$> bm_list b;
  bm_range_spec b :
    bm_wf b →
    Forall bits.wf (bit_range b) ∧ seqs_ok (bit_range b) ∧
    range_bits (bit_range b) = bm_list b
}.

(** A bitmap whose range yields no empty sequence at all, which the ranges over
    single bits rely on. *)
Class StrictRange (B : Type) `{Bitmap B} :=
  strict_range (b : B) : bm_wf b → Forall (λ x, bits.size x ≠ 0) (bit_range b).

Module bitmap_base.
Section ops.
Context {B : Type} `{BitmapOps B}.

(** [empty()] of every concrete type. *)
Definition empty (b : B) : bool := bm_size b =? 0.

(** The constructor [Bitmap(size_type n, bool bit)] of every concrete type. *)
Definition make (n : N) (bit : bool) : B := bm_append_bits bm_nil bit n.

(** [append(bits_type xs)] *)
Definition append_seq (b : B) (xs : bits.bits) : B :=
  if bits.is_run xs then bm_append_bits b (negb (bits.data xs =? 0)) (bits.size xs)
  else if negb (bits.empty xs) then bm_append_block b (bits.data xs) (bits.size xs)
  else b.

(** [append(const Bitmap& other)] *)
Definition append {C} `{BitmapOps C} (b : B) (other : C) : B :=
  foldl append_seq b (bit_range other).

(** The loop of [operator[]]; running off the range is the call of [die]. *)
Fixpoint get_loop (i n : N) (rng : list bits.bits) : option bool :=
  match rng with
  | [] => None
  | bs :: rng =>
      if (n <=? i) && (i <? n + bits.size bs) then Some (bits.get bs (i - n))
      else get_loop i (n + bits.size bs) rng
  end.

(** [operator[]] *)
Definition get (b : B) (i : N) : option bool := get_loop i 0 (bit_range b).

(** [operator~] *)
Definition complement (b : B) : B := bm_flip b.

End ops.
End bitmap_base.

(** ** The operations every bitmap inherits *)

Create HintDb bmdb.

Lemma range_bits_cons x xs : range_bits (x :: xs) = bits.to_list x ++ range_bits xs.
Proof. done. Qed.

Section laws.
Context {B : Type} `{Bitmap B}.
Implicit Types b : B.

Lemma bm_size_max b : bm_wf b → bm_size b <= max_size.
Proof. intros. rewrite bm_size_spec by done. by apply bm_max. Qed.

Lemma bitmap_empty_spec b : bm_wf b → bitmap_base.empty b = bool_decide (bm_list b = []).
Proof.
  intros. unfold bitmap_base.empty. rewrite bm_size_spec by done.
  case_bool_decide as E; [by rewrite E|].
  apply N.eqb_neq. destruct (bm_list b); [done|]. rewrite lenN_cons. lia.
Qed.

Lemma bitmap_make_spec n x :
  n <= max_size →
  bm_wf (bitmap_base.make (B:=B) n x) ∧ bm_list (bitmap_base.make (B:=B) n x) = reps n x.
Proof.
  intros. destruct bm_nil_spec as [Hwf Hnil]. unfold bitmap_base.make.
  destruct (bm_append_bits_spec bm_nil x n Hwf) as [? Hl]; [by rewrite Hnil|].
  split; [done|]. by rewrite Hl, Hnil.
Qed.

Lemma append_seq_spec b xs :
  bm_wf b → bits.wf xs → lenN (bm_list b) + bits.size xs <= max_size →
  bm_wf (bitmap_base.append_seq b xs) ∧
  bm_list (bitmap_base.append_seq b xs) = bm_list b ++ bits.to_list xs.
Proof.
  intros Hb Hxs Hle. unfold bitmap_base.append_seq, bits.is_run.
  destruct (N.ltb_spec word.width (bits.size_ xs)) as [Hrun|Hlit].
  - destruct (bits_to_list_run xs Hxs Hrun) as [-> Hd].
    replace (negb (bits.data xs =? 0)) with (bits.data xs =? word.all)
      by (by destruct Hd as [-> | ->]).
    by apply bm_append_bits_spec.
  - unfold bits.empty. destruct (N.eqb_spec (bits.size_ xs) 0) as [E|]; cbn [negb].
    + by rewrite bits_to_list_nil, app_nil_r.
    + rewrite bits_to_list_word by done.
      apply bm_append_block_spec; auto with u64db. size_lia.
Qed.

Lemma append_seqs_spec b xs :
  bm_wf b → Forall bits.wf xs → lenN (bm_list b) + lenN (range_bits xs) <= max_size →
  bm_wf (foldl bitmap_base.append_seq b xs) ∧
  bm_list (foldl bitmap_base.append_seq b xs) = bm_list b ++ range_bits xs.
Proof.
  intros Hb Hxs. revert b Hb. induction Hxs as [|x xs Hx _ IH]; intros b Hb Hle.
  { cbn. by rewrite app_nil_r. }
  rewrite range_bits_cons in *. autorewrite with lendb in Hle.
  destruct (append_seq_spec b x) as [Hb' Hl']; [done..|lia|].
  destruct (IH _ Hb') as [Hb'' Hl'']; [rewrite Hl'; autorewrite with lendb; lia|].
  cbn [foldl]. split; [done|]. by rewrite Hl'', Hl', app_assoc.
Qed.

Lemma get_loop_spec i n rng :
  Forall bits.wf rng → n <= i →
  bitmap_base.get_loop i n rng = range_bits rng !! N.to_nat (i - n).
Proof.
  intros Hrng. revert n. induction Hrng as [|x rng Hx _ IH]; intros n Hn; [done|].
  cbn [bitmap_base.get_loop]. rewrite range_bits_cons.
  rewrite (proj2 (N.leb_le n i)) by done. cbn [andb].
  destruct (N.ltb_spec i (n + bits.size x)).
  - rewrite lookup_app_l by (rewrite bits_length; lia).
    by rewrite bits_get_spec by (done || lia).
  - rewrite lookup_app_r by (rewrite bits_length; lia).
    rewrite IH by lia. f_equal. rewrite bits_length. lia.
Qed.

Lemma bitmap_get_spec b i :
  bm_wf b → bitmap_base.get b i = bm_list b !! N.to_nat i.
Proof.
  intros Hb. destruct (bm_range_spec b Hb) as (Hwf & _ & <-).
  unfold bitmap_base.get. rewrite get_loop_spec by (done || lia). f_equal. lia.
Qed.
End laws.

Lemma bitmap_append_spec {B C} `{Bitmap B, Bitmap C} (b : B) (other : C) :
  bm_wf b → bm_wf other →
  lenN (bm_list b) + lenN (bm_list other) <= max_size →
  bm_wf (bitmap_base.append b other) ∧
  bm_list (bitmap_base.append b other) = bm_list b ++ bm_list other.
Proof.
  intros Hb Ho Hle. destruct (bm_range_spec other Ho) as (Hwf & _ & Hl).
  rewrite <- Hl in *. by apply append_seqs_spec.
Qed.

(** ** Histories of modifiers *)

Inductive modifier :=
| m_append_bit (x : bool)
| m_append_bits (x : bool) (n : N)
| m_append_block (x n : N)
| m_flip.

Definition apply_modifier {B} `{BitmapOps B} (b : B) (m : modifier) : B :=
  match m with
  | m_append_bit x => bm_append_bit b x
  | m_append_bits x n => bm_append_bits b x n
  | m_append_block x n => bm_append_block b x n
  | m_flip => bm_flip b
  end.

(** What a modifier does to the list of bits. *)
Definition modify_list (l : list bool) (m : modifier) : list bool :=
  match m with
  | m_append_bit x => l ++ [x]
  | m_append_bits x n => l ++ reps n x
  | m_append_block x n => l ++ bits_of x n
  | m_flip => negb <$> l
  end.

(** The bits a modifier adds, and its preconditions. *)
Definition modifier_size (m : modifier) : N :=
  match m with
  | m_append_bit _ => 1
  | m_append_bits _ n => n
  | m_append_block _ n => n
  | m_flip => 0
  end.
Definition modifier_ok (m : modifier) : bool :=
  match m with
  | m_append_block x n => (x <? 2 ^ 64) && (0 <? n) && (n <=? 64)
  | _ => true
  end.
Definition history_ok (ms : list modifier) : bool :=
  forallb modifier_ok ms && (foldr N.add 0 (modifier_size <$> ms) <=? max_size).

Section histories.
Context {B : Type} `{Bitmap B}.
Implicit Types (b : B) (ms : list modifier).

Lemma modifier_spec b m :
  bm_wf b → modifier_ok m = true → lenN (bm_list b) + modifier_size m <= max_size →
  bm_wf (apply_modifier b m) ∧ bm_list (apply_modifier b m) = modify_list (bm_list b) m ∧
  lenN (bm_list (apply_modifier b m)) = lenN (bm_list b) + modifier_size m.
Proof.
  intros Hb Hok Hle. destruct m as [x|x n|x n|]; cbn [apply_modifier modify_list modifier_size] in *.
  - destruct (bm_append_bit_spec b x Hb Hle) as [? ->]. by autorewrite with lendb.
  - destruct (bm_append_bits_spec b x n Hb Hle) as [? ->]. by autorewrite with lendb.
  - cbn in Hok. apply andb_true_iff in Hok as [[Hx%N.ltb_lt Hn%N.ltb_lt]%andb_true_iff Hn'%N.leb_le].
    destruct (bm_append_block_spec b x n Hb Hx Hn Hn' Hle) as [? ->]. by autorewrite with lendb.
  - destruct (bm_flip_spec b Hb) as [? ->]. split; [done|]. split; [done|].
    unfold lenN. rewrite length_fmap. lia.
Qed.

Lemma modifiers_spec b ms :
  bm_wf b → forallb modifier_ok ms = true →
  lenN (bm_list b) + foldr N.add 0 (modifier_size <$> ms) <= max_size →
  bm_wf (foldl apply_modifier b ms) ∧
  bm_list (foldl apply_modifier b ms) = foldl modify_list (bm_list b) ms.
Proof.
  revert b. induction ms as [|m ms IH]; intros b Hb Hok Hle; [done|].
  cbn in Hok, Hle. apply andb_true_iff in Hok as [Hm Hok].
  destruct (modifier_spec b m Hb Hm) as (Hb' & E & El); [lia|].
  cbn [foldl]. rewrite <- E. apply IH; [done..|lia].
Qed.

(** A bitmap that was built by modifiers stands for the list they build. *)
Lemma history_spec ms :
  history_ok ms = true →
  let b : B := foldl apply_modifier bm_nil ms in let l := foldl modify_list [] ms in
  bm_wf b ∧ bm_list b = l ∧ bm_size b = lenN l ∧ range_bits (bit_range b) = l ∧
  ∀ i, bitmap_base.get b i = l !! N.to_nat i.
Proof.
  intros [Hok Hle%N.leb_le]%andb_true_iff. cbn zeta. destruct (bm_nil_spec (B:=B)) as [Hn En].
  destruct (modifiers_spec bm_nil ms Hn Hok) as [Hb E]; [rewrite En, lenN_nil; lia|].
  rewrite En in E. rewrite <- E. split; [done|]. split; [done|]. split; [by apply bm_size_spec|].
  split; [by apply bm_range_spec|]. intros i. by apply bitmap_get_spec.
Qed.
End histories.
