(* ===== verification/EwahBitmap.v ===== *)
(** The EWAH bitmap: [libvast/include/vast/ewah_bitmap.hpp] and
    [libvast/src/ewah_bitmap.cpp]. *)

From S2P Require Import Prelude Word Bits BitmapConcept.

(** ** [struct ewah_word] *)

Module ewah_word.

Definition clean_dirty_divide : N := word.width / 2 - 1.
Definition marker_dirty_mask : N := ~u (word.all <<u clean_dirty_divide).
Definition marker_dirty_max : N := marker_dirty_mask.
Definition marker_clean_mask : N := ~u (marker_dirty_mask |u word.msb1).
Definition marker_clean_max : N := marker_clean_mask >>u clean_dirty_divide.

Definition marker_type (block : N) : bool := (block &u word.msb1) =? word.msb1.
Definition set_marker_type (block : N) (type : bool) : N :=
  (block &u (~u word.msb1)) |u (if type then word.msb1 else 0).

Definition marker_num_clean (block : N) : N :=
  (block &u marker_clean_mask) >>u clean_dirty_divide.
Definition set_marker_num_clean (block n : N) : N :=
  (block &u (~u marker_clean_mask)) |u (n <<u clean_dirty_divide).

Definition marker_num_dirty (block : N) : N := block &u marker_dirty_mask.
Definition set_marker_num_dirty (block n : N) : N :=
  (block &u (~u marker_dirty_mask)) |u n.

End ewah_word.

(** ** [class ewah_bitmap] *)

Module ewah_bitmap.
Import ewah_word.

Record ewah_bitmap := mk {
  blocks_ : list N;
  last_marker_ : N;
  num_bits_ : N
}.

(** The default constructor. *)
Definition nil : ewah_bitmap := mk [] 0 0.

Definition empty (bm : ewah_bitmap) : bool := num_bits_ bm =? 0.
Definition size (bm : ewah_bitmap) : N := num_bits_ bm.
Definition blocks (bm : ewah_bitmap) : list N := blocks_ bm.

(** [bump_dirty_count] *)
Definition bump_dirty_count (bm : ewah_bitmap) : ewah_bitmap :=
  let marker := vec_at (blocks_ bm) (last_marker_ bm) in
  let num_dirty := marker_num_dirty marker in
  if num_dirty =? marker_dirty_max then
    let dirty_block := back (blocks_ bm) in
    let blocks := set_back (marker_num_dirty 1) (blocks_ bm) in
    mk (push_back blocks dirty_block) (lenN blocks - 1) (num_bits_ bm)
  else
    mk (vec_set (blocks_ bm) (last_marker_ bm)
          (set_marker_num_dirty marker (num_dirty + 1)))
      (last_marker_ bm) (num_bits_ bm).

(** [integrate_last_block] *)
Definition integrate_last_block (bm : ewah_bitmap) : ewah_bitmap :=
  let last_block := back (blocks_ bm) in
  let blocks_after_marker := lenN (blocks_ bm) - last_marker_ bm - 1 in
  if word.all_or_none last_block then
    let marker := vec_at (blocks_ bm) (last_marker_ bm) in
    let clean_length := marker_num_clean marker in
    let last_block_type := negb (last_block =? 0) in
    if (blocks_after_marker =? 1) && (clean_length =? 0) then
      let marker := set_marker_type marker last_block_type in
      let marker := set_marker_num_clean marker 1 in
      mk (pop_back (vec_set (blocks_ bm) (last_marker_ bm) marker))
        (last_marker_ bm) (num_bits_ bm)
    else if (blocks_after_marker =? 1)
            && eqb last_block_type (marker_type marker)
            && negb (clean_length =? marker_clean_max) then
      let marker := set_marker_num_clean marker (clean_length + 1) in
      mk (pop_back (vec_set (blocks_ bm) (last_marker_ bm) marker))
        (last_marker_ bm) (num_bits_ bm)
    else
      let m := set_marker_num_clean (set_marker_type 0 last_block_type) 1 in
      let blocks := set_back m (blocks_ bm) in
      mk blocks (lenN blocks - 1) (num_bits_ bm)
  else bump_dirty_count bm.

(** [append_bit] *)
Definition append_bit (bm : ewah_bitmap) (bit : bool) : ewah_bitmap :=
  let partial := num_bits_ bm mod word.width in
  let bm :=
    match blocks_ bm with
    | [] => mk (push_back (push_back [] 0) word.none) (last_marker_ bm) (num_bits_ bm)
    | _ =>
        if partial =? 0 then
          let bm := integrate_last_block bm in
          mk (push_back (blocks_ bm) word.none) (last_marker_ bm) (num_bits_ bm)
        else bm
    end in
  let blocks :=
    if bit
    then set_back (back (blocks_ bm) |u (word.lsb1 <<u partial)) (blocks_ bm)
    else blocks_ bm in
  mk blocks (last_marker_ bm) (num_bits_ bm +u 1).

(** The part of [append_bits] that reuses the last marker for [clean_blocks]
    words of [bit]: the new marker and the number of words left. *)
Definition extend_marker (bm : ewah_bitmap) (bit : bool) (clean_blocks : N) : N * N :=
  let marker := vec_at (blocks_ bm) (last_marker_ bm) in
  if ((last_marker_ bm =? lenN (blocks_ bm) - 1) && eqb (marker_type marker) bit)
     || ((last_marker_ bm =? 0) && (marker =? 0)) then
    let marker_clean_length := marker_num_clean marker in
    let available := marker_clean_max - marker_clean_length in
    let new_blocks := N.min available clean_blocks in
    let marker := set_marker_num_clean marker (marker_clean_length + new_blocks) in
    (set_marker_type marker bit, clean_blocks - new_blocks)
  else (marker, clean_blocks).

(** The part of [append_bits] that stores [clean_blocks] whole words of [bit]
    in the current marker and, where they do not fit, in new markers. *)
Definition append_clean_blocks (bm : ewah_bitmap) (bit : bool) (clean_blocks : N)
    : ewah_bitmap :=
  let '(marker, clean_blocks) := extend_marker bm bit clean_blocks in
  if 0 <? clean_blocks then
    let marker :=
      if last_marker_ bm =? lenN (blocks_ bm) - 1
      then set_marker_num_dirty marker 0 else marker in
    let blocks := vec_set (blocks_ bm) (last_marker_ bm) marker in
    let markers := clean_blocks / marker_clean_max in
    let last := clean_blocks mod marker_clean_max in
    let blocks := blocks ++ reps markers (set_marker_type marker_clean_mask bit) in
    let blocks :=
      if 0 <? last
      then push_back blocks (set_marker_type (set_marker_num_clean 0 last) bit)
      else blocks in
    mk blocks (lenN blocks - 1) (num_bits_ bm)
  else
    mk (vec_set (blocks_ bm) (last_marker_ bm) marker) (last_marker_ bm) (num_bits_ bm).

(** The part of [append_bits] after the last block has been integrated. *)
Definition append_bits_aligned (bm : ewah_bitmap) (bit : bool) (n : N) : ewah_bitmap :=
  if n <=? word.width then
    mk (push_back (blocks_ bm) (if bit then word.lsb_fill n else word.none))
      (last_marker_ bm) (num_bits_ bm +u n)
  else
    let clean_blocks := n / word.width in
    let remaining_bits := n mod word.width in
    let '(clean_blocks, remaining_bits) :=
      if remaining_bits =? 0 then (clean_blocks - 1, word.width)
      else (clean_blocks, remaining_bits) in
    let bm := mk (blocks_ bm) (last_marker_ bm) (num_bits_ bm +u n) in
    let bm := append_clean_blocks bm bit clean_blocks in
    if 0 <? remaining_bits then
      mk (push_back (blocks_ bm)
            (if bit then word.lsb_fill remaining_bits else word.none))
        (last_marker_ bm) (num_bits_ bm)
    else bm.

(** [append_bits] *)
Definition append_bits (bm : ewah_bitmap) (bit : bool) (n : N) : ewah_bitmap :=
  if n =? 0 then bm
  else
    match blocks_ bm with
    | [] =>
        append_bits_aligned
          (mk (push_back [] 0) (last_marker_ bm) (num_bits_ bm)) bit n
    | _ =>
        let partial := num_bits_ bm mod word.width in
        if 0 <? partial then
          let fill := N.min n (word.width - partial) in
          let blocks :=
            if bit
            then set_back (back (blocks_ bm) |u (word.lsb_mask fill <<u partial))
                   (blocks_ bm)
            else blocks_ bm in
          let bm := mk blocks (last_marker_ bm) (num_bits_ bm +u fill) in
          let n := n - fill in
          if n =? 0 then bm
          else append_bits_aligned (integrate_last_block bm) bit n
        else append_bits_aligned (integrate_last_block bm) bit n
    end.

(** [ewah_bitmap(size_type n, bool bit)] *)
Definition make (n : N) (bit : bool) : ewah_bitmap := append_bits nil bit n.

(** [append_block] *)
Definition append_block (bm : ewah_bitmap) (value bits : N) : ewah_bitmap :=
  let bm :=
    match blocks_ bm with
    | [] => mk (push_back [] 0) (last_marker_ bm) (num_bits_ bm)
    | _ => if num_bits_ bm mod word.width =? 0 then integrate_last_block bm else bm
    end in
  let partial := num_bits_ bm mod word.width in
  if partial =? 0 then
    mk (push_back (blocks_ bm) (value &u word.lsb_fill bits))
      (last_marker_ bm) (num_bits_ bm +u bits)
  else
    let unused := word.width - partial in
    if bits <=? unused then
      mk (set_back (back (blocks_ bm)
            |u ((value &u word.lsb_fill bits) <<u partial)) (blocks_ bm))
        (last_marker_ bm) (num_bits_ bm +u bits)
    else
      let bm :=
        mk (set_back (back (blocks_ bm)
              |u ((value &u word.lsb_fill unused) <<u partial)) (blocks_ bm))
          (last_marker_ bm) (num_bits_ bm +u unused) in
      let bm := integrate_last_block bm in
      let remaining := bits - unused in
      mk (push_back (blocks_ bm) ((value >>u unused) &u word.lsb_fill remaining))
        (last_marker_ bm) (num_bits_ bm +u remaining).

(** The loop of [flip]; it leaves the last block alone. The counter of the source is a 32-bit unsigned
    integer: the source does not end for more than [2^32] blocks, which is 32 GiB, and does the same
    as this loop up to that number. *)
Fixpoint flip_loop (i next_marker : N) (blocks : list N) : list N :=
  match blocks with
  | [] => []
  | [last] => [last]
  | block :: blocks =>
      if i =? next_marker then
        let block :=
          if 0 <? marker_num_clean block then block ^u word.msb1 else block in
        block :: flip_loop (i + 1) (next_marker + (marker_num_dirty block + 1)) blocks
      else (~u block) :: flip_loop (i + 1) next_marker blocks
  end.

(** [flip] *)
Definition flip (bm : ewah_bitmap) : ewah_bitmap :=
  match blocks_ bm with
  | [] => bm
  | _ =>
      let blocks := flip_loop 0 0 (blocks_ bm) in
      let blocks := set_back (~u back blocks) blocks in
      let partial := num_bits_ bm mod word.width in
      let blocks :=
        if 0 <? partial
        then set_back (back blocks &u word.lsb_mask partial) blocks
        else blocks in
      mk blocks (last_marker_ bm) (num_bits_ bm)
  end.

(** [operator==] *)
Definition eqb (x y : ewah_bitmap) : bool :=
  bool_decide (blocks_ x = blocks_ y) && (num_bits_ x =? num_bits_ y).

(** The meaning of a block sequence, after the comment above the class: a
    marker stands for its clean words, [dirty] counts the literal blocks still
    to come, and the last block is always literal with [lastn] bits. *)
Fixpoint decode (dirty : N) (blocks : list N) (lastn : N) : list bool :=
  match blocks with
  | [] => []
  | [block] => bits_of block lastn
  | block :: blocks =>
      if 0 <? dirty then bits_of block 64 ++ decode (dirty - 1) blocks lastn
      else reps (64 * marker_num_clean block) (marker_type block)
             ++ decode (marker_num_dirty block) blocks lastn
  end.

(** The number of bits in the last block. *)
Definition last_size (n : N) : N :=
  if n mod word.width =? 0 then word.width else n mod word.width.

Definition to_list (bm : ewah_bitmap) : list bool :=
  decode 0 (blocks_ bm) (last_size (num_bits_ bm)).

End ewah_bitmap.

(** ** Markers *)

Section markers.
Import ewah_word.

Lemma testbit_dirty_mask i : N.testbit marker_dirty_mask i = (i <? 31).
Proof.
  unfold marker_dirty_mask. change clean_dirty_divide with 31. bitblast.
Qed.
Lemma testbit_clean_mask i :
  N.testbit marker_clean_mask i = (31 <=? i) && (i <? 63).
Proof.
  unfold marker_clean_mask. autorewrite with bitdb. rewrite testbit_dirty_mask. bitblast.
Qed.
End markers.
#[export] Hint Rewrite testbit_dirty_mask testbit_clean_mask : bitdb.

Section marker_fields.
Import ewah_word.
Implicit Types (m n : N) (t : bool).

Lemma marker_clean_max_val : marker_clean_max = 2 ^ 32 - 1.
Proof. done. Qed.
Lemma marker_dirty_max_val : marker_dirty_max = 2 ^ 31 - 1.
Proof. done. Qed.

Lemma marker_type_testbit m : marker_type m = N.testbit m 63.
Proof.
  unfold marker_type. rewrite <- (word_test_spec m 63) by done. done.
Qed.

Lemma testbit_num_clean m i :
  N.testbit (marker_num_clean m) i = (i <? 32) && N.testbit m (i + 31).
Proof.
  unfold marker_num_clean. change clean_dirty_divide with 31. bitblast.
Qed.

Lemma testbit_num_dirty m i :
  N.testbit (marker_num_dirty m) i = (i <? 31) && N.testbit m i.
Proof. unfold marker_num_dirty. bitblast. Qed.

Lemma marker_num_clean_le m : marker_num_clean m <= marker_clean_max.
Proof.
  rewrite marker_clean_max_val. apply N.lt_succ_r. change (marker_num_clean m < 2 ^ 32).
  apply bound_of_testbit. intros. rewrite testbit_num_clean. bitblast.
Qed.

Lemma marker_num_dirty_le m : marker_num_dirty m <= marker_dirty_max.
Proof.
  rewrite marker_dirty_max_val. apply N.lt_succ_r. change (marker_num_dirty m < 2 ^ 31).
  apply bound_of_testbit. intros. rewrite testbit_num_dirty. bitblast.
Qed.

Lemma testbit_set_type m t i :
  is_u64 m → N.testbit (set_marker_type m t) i = if i =? 63 then t else N.testbit m i.
Proof.
  intros. unfold set_marker_type. autorewrite with bitdb.
  destruct t; autorewrite with bitdb; bitblast.
Qed.

Lemma testbit_set_clean m n i :
  is_u64 m → n <= marker_clean_max →
  N.testbit (set_marker_num_clean m n) i =
  if (31 <=? i) && (i <? 63) then N.testbit n (i - 31) else N.testbit m i.
Proof.
  rewrite marker_clean_max_val. intros.
  unfold set_marker_num_clean. change clean_dirty_divide with 31.
  assert (n < 2 ^ 32) by lia. bitblast.
Qed.

Lemma testbit_set_dirty m n i :
  is_u64 m → n <= marker_dirty_max →
  N.testbit (set_marker_num_dirty m n) i =
  if i <? 31 then N.testbit n i else N.testbit m i.
Proof.
  rewrite marker_dirty_max_val. intros.
  unfold set_marker_num_dirty. assert (n < 2 ^ 31) by lia. bitblast.
Qed.
End marker_fields.

(** Closes an equation between fields of markers. *)
Ltac marker_bits :=
  apply N.bits_inj; intros ?i;
  rewrite ?testbit_num_clean, ?testbit_num_dirty, ?testbit_set_type,
    ?testbit_set_clean, ?testbit_set_dirty by (assumption || lia);
  bitblast.

Section marker_algebra.
Import ewah_word.
Implicit Types (m n : N) (t : bool).

Lemma num_clean_set_type m t : is_u64 m → marker_num_clean (set_marker_type m t) = marker_num_clean m.
Proof. intros. marker_bits. Qed.
Lemma num_dirty_set_type m t : is_u64 m → marker_num_dirty (set_marker_type m t) = marker_num_dirty m.
Proof. intros. marker_bits. Qed.
Lemma type_set_type m t : is_u64 m → marker_type (set_marker_type m t) = t.
Proof. intros. by rewrite marker_type_testbit, testbit_set_type. Qed.

Lemma num_clean_set_clean m n :
  is_u64 m → n <= marker_clean_max → marker_num_clean (set_marker_num_clean m n) = n.
Proof.
  intros. apply N.bits_inj. intros i. rewrite testbit_num_clean, testbit_set_clean by done.
  rewrite marker_clean_max_val in *. assert (n < 2 ^ 32) by lia.
  bitblast. by rewrite N.add_sub.
Qed.
Lemma num_dirty_set_clean m n :
  is_u64 m → n <= marker_clean_max →
  marker_num_dirty (set_marker_num_clean m n) = marker_num_dirty m.
Proof. intros. marker_bits. Qed.
Lemma type_set_clean m n :
  is_u64 m → n <= marker_clean_max → marker_type (set_marker_num_clean m n) = marker_type m.
Proof. intros. by rewrite !marker_type_testbit, testbit_set_clean. Qed.

Lemma num_clean_set_dirty m n :
  is_u64 m → n <= marker_dirty_max →
  marker_num_clean (set_marker_num_dirty m n) = marker_num_clean m.
Proof. intros. marker_bits. Qed.
Lemma num_dirty_set_dirty m n :
  is_u64 m → n <= marker_dirty_max → marker_num_dirty (set_marker_num_dirty m n) = n.
Proof.
  intros. apply N.bits_inj. intros i. rewrite testbit_num_dirty, testbit_set_dirty by done.
  rewrite marker_dirty_max_val in *. assert (n < 2 ^ 31) by lia. bitblast.
Qed.
Lemma type_set_dirty m n :
  is_u64 m → n <= marker_dirty_max → marker_type (set_marker_num_dirty m n) = marker_type m.
Proof. intros. by rewrite !marker_type_testbit, testbit_set_dirty. Qed.

Lemma is_u64_set_type m t : is_u64 m → is_u64 (set_marker_type m t).
Proof. intros. unfold set_marker_type. destruct t; auto 6 with u64db. Qed.
Lemma is_u64_set_clean m n : is_u64 m → is_u64 (set_marker_num_clean m n).
Proof. intros. unfold set_marker_num_clean. auto with u64db. Qed.
Lemma is_u64_set_dirty m n :
  is_u64 m → n <= marker_dirty_max → is_u64 (set_marker_num_dirty m n).
Proof.
  intros. unfold set_marker_num_dirty. rewrite marker_dirty_max_val in *.
  auto with u64db.
Qed.
End marker_algebra.

Create Rewrite HintDb markerdb.
#[export] Hint Rewrite num_clean_set_type num_dirty_set_type type_set_type
  num_clean_set_clean num_dirty_set_clean type_set_clean num_clean_set_dirty
  num_dirty_set_dirty type_set_dirty using (lia || auto with u64db) : markerdb.
#[export] Hint Resolve is_u64_set_type is_u64_set_clean is_u64_set_dirty : u64db.

(** ** The block structure

    A block vector without its last block is a sequence of segments, each a
    marker and the literal blocks it announces; [shape blocks last_marker l]
    says so, with [last_marker] the position of the last marker and [l] the bits
    stored. *)

Section structure.
Import ewah_word ewah_bitmap.

Definition seg_ok (s : N * list N) : Prop :=
  is_u64 s.1 ∧ lenN s.2 = marker_num_dirty s.1 ∧ Forall is_u64 s.2.
Definition flat (segs : list (N * list N)) : list N :=
  concat ((λ s, s.1 :: s.2) <$> segs).
Definition seg_bits (s : N * list N) : list bool :=
  reps (64 * marker_num_clean s.1) (marker_type s.1) ++ words s.2.
Definition segs_bits (segs : list (N * list N)) : list bool :=
  concat (seg_bits <$> segs).

Inductive shape : list N → N → list bool → Prop :=
| shape_intro segs m ds :
    Forall seg_ok segs → seg_ok (m, ds) →
    shape (flat segs ++ m :: ds) (lenN (flat segs)) (segs_bits segs ++ seg_bits (m, ds)).

Lemma flat_app xs ys : flat (xs ++ ys) = flat xs ++ flat ys.
Proof. unfold flat. by rewrite fmap_app, concat_app. Qed.
Lemma segs_bits_app xs ys : segs_bits (xs ++ ys) = segs_bits xs ++ segs_bits ys.
Proof. unfold segs_bits. by rewrite fmap_app, concat_app. Qed.
Lemma shape_nil : shape [0] 0 [].
Proof. apply (shape_intro [] 0 []); repeat constructor. Qed.

(** A finished segment followed by a new one. *)
Lemma shape_next bs lm l m ds :
  shape bs lm l → seg_ok (m, ds) →
  shape (bs ++ m :: ds) (lenN bs) (l ++ seg_bits (m, ds)).
Proof.
  intros [segs m0 ds0 Hsegs Hm0] Hm.
  assert (flat segs ++ m0 :: ds0 = flat (segs ++ [(m0, ds0)])) as ->.
  { rewrite flat_app. unfold flat at 3. cbn. by rewrite app_nil_r. }
  replace (segs_bits segs ++ seg_bits (m0, ds0)) with (segs_bits (segs ++ [(m0, ds0)])).
  - apply shape_intro; [|done]. apply Forall_app. auto.
  - rewrite segs_bits_app. unfold segs_bits at 2. cbn. by rewrite app_nil_r.
Qed.

Lemma shape_next_marker bs lm l m :
  shape bs lm l → is_u64 m → marker_num_dirty m = 0 →
  shape (bs ++ [m]) (lenN bs) (l ++ reps (64 * marker_num_clean m) (marker_type m)).
Proof.
  intros Hsh Hm Hd. replace (reps _ _) with (seg_bits (m, [])).
  - apply (shape_next _ lm); [done|]. by repeat split.
  - unfold seg_bits, words. cbn. by rewrite app_nil_r.
Qed.

Lemma shape_next_markers bs lm l m k :
  shape bs lm l → is_u64 m → marker_num_dirty m = 0 → 0 < k →
  shape (bs ++ reps k m) (lenN bs + k - 1)
    (l ++ reps (64 * marker_num_clean m * k) (marker_type m)).
Proof.
  intros Hsh Hm Hd Hk. replace k with (N.succ (N.pred k)) by lia. clear Hk.
  induction (N.pred k) as [|k' IH] using N.peano_ind.
  - rewrite N.mul_1_r. replace (lenN bs + _ - 1) with (lenN bs) by lia.
    by apply (shape_next_marker _ lm).
  - rewrite <- (N.add_1_r (N.succ k')), N.mul_add_distr_l, !reps_add, !app_assoc, N.mul_1_r.
    replace (lenN bs + (N.succ k' + 1) - 1) with (lenN (bs ++ reps (N.succ k') m))
      by (autorewrite with lendb; lia).
    by apply (shape_next_marker _ _ _ m IH).
Qed.

Lemma seg_bits_len s : (64 | lenN (seg_bits s)).
Proof.
  unfold seg_bits. autorewrite with lendb. rewrite words_len.
  apply N.divide_add_r; apply N.divide_factor_l.
Qed.

Lemma shape_aligned bs lm l : shape bs lm l → (64 | lenN l).
Proof.
  intros [segs m ds _ _]. autorewrite with lendb.
  apply N.divide_add_r; [|apply seg_bits_len].
  induction segs as [|s segs IH]; [apply N.divide_0_r|].
  unfold segs_bits in *. cbn. autorewrite with lendb.
  apply N.divide_add_r; [apply seg_bits_len|done].
Qed.

Lemma decode_dirty ds rest n :
  rest ≠ [] → decode (lenN ds) (ds ++ rest) n = words ds ++ decode 0 rest n.
Proof.
  intros Hr. induction ds as [|d ds IH]; [done|].
  rewrite lenN_cons. unfold words in *. cbn [app fmap list_fmap concat].
  rewrite <- app_assoc, <- IH. cbn [decode].
  destruct (ds ++ rest) eqn:E; [by apply app_eq_nil in E as [_ ?]|].
  rewrite (proj2 (N.ltb_lt 0 (1 + lenN ds))) by lia. do 2 f_equal. lia.
Qed.

Lemma decode_seg m ds rest n :
  seg_ok (m, ds) → rest ≠ [] →
  decode 0 (m :: ds ++ rest) n = seg_bits (m, ds) ++ decode 0 rest n.
Proof.
  intros (_ & Hd & _) Hr. cbn in Hd. unfold seg_bits. cbn [fst snd].
  rewrite <- app_assoc, <- decode_dirty, Hd by done. cbn [decode].
  destruct (ds ++ rest) eqn:E; [by apply app_eq_nil in E as [_ ?]|done].
Qed.

Lemma decode_flat segs rest n :
  Forall seg_ok segs → rest ≠ [] →
  decode 0 (flat segs ++ rest) n = segs_bits segs ++ decode 0 rest n.
Proof.
  intros Hs Hr. induction Hs as [|[m ds] segs Hs _ IH]; [done|].
  unfold flat, segs_bits in *. cbn [fmap list_fmap concat fst snd].
  rewrite <- !app_assoc. cbn [app]. rewrite decode_seg by (done || by intros [_ ?]%app_eq_nil).
  by rewrite IH.
Qed.

Lemma decode_shape bs lm l x n :
  shape bs lm l → decode 0 (bs ++ [x]) n = l ++ bits_of x n.
Proof.
  intros [segs m ds Hsegs Hm]. rewrite <- !app_assoc. cbn [app].
  by rewrite decode_flat, decode_seg.
Qed.

End structure.

(** ** Integrating the last block *)

Section integrate.
Import ewah_word ewah_bitmap.

Lemma seg_bits_nil m :
  seg_bits (m, []) = reps (64 * marker_num_clean m) (marker_type m).
Proof. unfold seg_bits, words. cbn. by rewrite app_nil_r. Qed.

(** A last marker without literals takes [k] more clean words. *)
Lemma shape_grow segs m m' k t :
  Forall seg_ok segs → seg_ok (m, []) → is_u64 m' →
  marker_num_dirty m' = marker_num_dirty m →
  marker_num_clean m' = marker_num_clean m + k → marker_type m' = t →
  marker_type m = t ∨ marker_num_clean m = 0 →
  shape (flat segs ++ [m']) (lenN (flat segs))
    ((segs_bits segs ++ seg_bits (m, [])) ++ reps (64 * k) t).
Proof.
  intros Hs (_ & Hd & _) Hm' Hd' Hc Ht Hor. cbn in Hd.
  replace (_ ++ reps _ _) with (segs_bits segs ++ seg_bits (m', [])).
  - apply shape_intro; [done|]. repeat split; cbn; [done|congruence|constructor].
  - rewrite <- app_assoc. f_equal. rewrite !seg_bits_nil, Hc, Ht, N.mul_add_distr_l, reps_add.
    by destruct Hor as [-> | ->].
Qed.

Lemma bits_of_all_or_none x :
  is_u64 x → word.all_or_none x = true →
  bits_of x 64 = reps (64 * 1) (negb (x =? 0)).
Proof.
  intros Hx [-> | ->]%all_or_none_spec; [apply bits_of_none|by apply bits_of_all|done].
Qed.

Lemma shape_u64 bs lm l : shape bs lm l → Forall is_u64 bs.
Proof.
  intros [segs m ds Hs (Hm & _ & Hds)]. apply Forall_app. split; [|by constructor].
  induction Hs as [|[m' ds'] segs (? & _ & ?) _ IH]; [constructor|].
  unfold flat. cbn. constructor; [done|]. by apply Forall_app.
Qed.

Lemma bump_dirty_count_spec bs lm l x nb :
  shape bs lm l → is_u64 x →
  ∃ bs' lm', bump_dirty_count (mk (bs ++ [x]) lm nb) = mk bs' lm' nb ∧
    shape bs' lm' (l ++ bits_of x 64).
Proof.
  intros [segs m ds Hsegs Hseg] Hx. pose proof Hseg as (Hm & Hd & Hds).
  cbn [fst snd] in *. pose proof (marker_num_dirty_le m).
  unfold bump_dirty_count. cbn [blocks_ last_marker_ num_bits_].
  rewrite <- (app_assoc (flat segs)). cbn [app]. rewrite vec_at_middle.
  destruct (N.eqb_spec (marker_num_dirty m) marker_dirty_max) as [Heq|Hne].
  - rewrite app_comm_cons, app_assoc, back_snoc, set_back_snoc.
    eexists _, _. split; [done|]. unfold push_back.
    rewrite <- (app_assoc _ [_]). cbn [app].
    replace (lenN _ - 1) with (lenN (flat segs ++ m :: ds)) by (autorewrite with lendb; lia).
    replace (bits_of x 64) with (seg_bits (1, [x])).
    + apply (shape_next _ _ _ _ _ (shape_intro segs m ds Hsegs Hseg)).
      repeat constructor; cbn; auto with u64db.
    + unfold seg_bits, words. cbn. by rewrite app_nil_r.
  - rewrite vec_set_middle. eexists _, _. split; [done|]. rewrite <- app_assoc.
    replace (seg_bits (m, ds) ++ bits_of x 64)
      with (seg_bits (set_marker_num_dirty m (marker_num_dirty m + 1), ds ++ [x])).
    + apply shape_intro; [done|]. split; [|split]; cbn [fst snd]; auto with u64db lia.
      * autorewrite with lendb markerdb. lia.
      * apply Forall_app. auto.
    + unfold seg_bits. cbn [fst snd]. autorewrite with markerdb.
      by rewrite words_snoc, app_assoc.
Qed.

(** Clean words in a marker of their own. *)
Lemma shape_new_clean bs lm l t c :
  shape bs lm l → c <= marker_clean_max →
  shape (bs ++ [set_marker_type (set_marker_num_clean 0 c) t]) (lenN bs)
    (l ++ reps (64 * c) t).
Proof.
  intros Hsh Hc. set (m' := set_marker_type _ _).
  assert (is_u64 0) by done.
  replace (reps (64 * c) t) with (reps (64 * marker_num_clean m') (marker_type m'))
    by (unfold m'; by autorewrite with markerdb).
  apply (shape_next_marker _ _ _ _ Hsh); [unfold m'; auto with u64db|].
  unfold m'. by autorewrite with markerdb.
Qed.

Lemma set_type_clean_comm t c :
  c <= marker_clean_max →
  set_marker_num_clean (set_marker_type 0 t) c = set_marker_type (set_marker_num_clean 0 c) t.
Proof.
  intros Hc. assert (is_u64 0) by done. apply u64_ext; auto with u64db. intros i Hi.
  rewrite testbit_set_clean, !testbit_set_type, testbit_set_clean by auto with u64db.
  bitblast.
Qed.

Lemma pop_back_marker (bs : list N) y x : pop_back (bs ++ y :: [x]) = bs ++ [y].
Proof. change (y :: [x]) with ([y] ++ [x]). by rewrite app_assoc, pop_back_snoc. Qed.

Lemma integrate_spec bs lm l x nb :
  shape bs lm l → is_u64 x →
  ∃ bs' lm', integrate_last_block (mk (bs ++ [x]) lm nb) = mk bs' lm' nb ∧
    shape bs' lm' (l ++ bits_of x 64).
Proof.
  intros [segs m ds Hsegs Hseg] Hx. pose proof Hseg as (Hm & Hd & Hds).
  cbn [fst snd] in *. pose proof (marker_num_clean_le m) as Hmax.
  unfold integrate_last_block. cbn [blocks_ last_marker_ num_bits_].
  rewrite back_snoc. destruct (word.all_or_none x) eqn:Hclean;
    [|apply bump_dirty_count_spec; [by constructor|done]].
  rewrite bits_of_all_or_none by done. set (t := negb (x =? 0)).
  replace (lenN _ - _ - 1) with (1 + lenN ds) by (autorewrite with lendb; lia).
  rewrite <- (app_assoc (flat segs)). cbn [app]. rewrite vec_at_middle, !vec_set_middle.
  assert (1 <= marker_clean_max) by done.
  assert (1 + lenN ds = 1 → ds = []) as Hnil.
  { intros E. destruct ds; [done|]. rewrite lenN_cons in E. lia. }
  destruct ((1 + lenN ds =? 1) && (marker_num_clean m =? 0)) eqn:Ea;
    [|destruct ((1 + lenN ds =? 1) && _ && _) eqn:Eb].
  - apply andb_true_iff in Ea as [Ed%N.eqb_eq Ec%N.eqb_eq]. assert (ds = []) as -> by auto.
    cbn [app]. rewrite pop_back_marker. eexists _, _. split; [done|].
    apply shape_grow; auto with u64db; autorewrite with markerdb; [done|lia|done].
  - apply andb_true_iff in Eb as [[Ed%N.eqb_eq Et%eqb_prop]%andb_true_iff Ec].
    apply negb_true_iff, N.eqb_neq in Ec. assert (ds = []) as -> by auto.
    cbn [app]. rewrite pop_back_marker. eexists _, _. split; [done|].
    apply shape_grow; auto with u64db; autorewrite with markerdb; done.
  - rewrite app_comm_cons, app_assoc, set_back_snoc. eexists _, _. split; [done|].
    replace (lenN _ - 1) with (lenN (flat segs ++ m :: ds)) by (autorewrite with lendb; lia).
    rewrite set_type_clean_comm by done. 
    by apply (shape_new_clean _ _ _ _ _ (shape_intro segs m ds Hsegs Hseg)).
Qed.

End integrate.

(** ** Appending *)

Section append.
Import ewah_word ewah_bitmap.

(** Clean words that do not fit the current marker. *)
Lemma shape_new_cleans bs lm l t cb :
  shape bs lm l → 0 < cb →
  let markers := cb / marker_clean_max in
  let last := cb mod marker_clean_max in
  let bs' := bs ++ reps markers (set_marker_type marker_clean_mask t) in
  let bs'' :=
    if 0 <? last
    then push_back bs' (set_marker_type (set_marker_num_clean 0 last) t) else bs' in
  shape bs'' (lenN bs'' - 1) (l ++ reps (64 * cb) t).
Proof.
  intros Hsh Hcb markers last bs' bs''.
  pose proof (N.div_mod cb marker_clean_max ltac:(done)) as Hdm. fold markers last in Hdm.
  pose proof (N.mod_lt cb marker_clean_max ltac:(done)) as Hlt. fold last in Hlt.
  assert (is_u64 marker_clean_mask) by done.
  assert (0 < markers → shape bs' (lenN bs' - 1)
    (l ++ reps (64 * marker_clean_max * markers) t)) as Hbs'.
  { intros Hk. replace (lenN bs' - 1) with (lenN bs + markers - 1)
      by (unfold bs'; autorewrite with lendb; lia).
    replace (reps (64 * _ * _) t)
      with (reps (64 * marker_num_clean (set_marker_type marker_clean_mask t) * markers)
              (marker_type (set_marker_type marker_clean_mask t)))
      by (by autorewrite with markerdb).
    apply (shape_next_markers _ _ _ _ _ Hsh); auto with u64db.
    by autorewrite with markerdb. }
  unfold bs''. destruct (N.ltb_spec 0 last).
  - unfold push_back.
    replace (lenN _ - 1) with (lenN bs') by (autorewrite with lendb; lia).
    replace (64 * cb) with (64 * marker_clean_max * markers + 64 * last) by lia.
    rewrite reps_add, app_assoc. destruct (N.eq_dec markers 0) as [E0|].
    + unfold bs'. rewrite E0, N.mul_0_r, !reps_0, !app_nil_r.
      apply (shape_new_clean _ _ _ _ _ Hsh). lia.
    + apply (shape_new_clean _ _ _ _ _ (Hbs' ltac:(lia))). lia.
  - replace (64 * cb) with (64 * marker_clean_max * markers) by lia. apply Hbs'. lia.
Qed.

Lemma extend_marker_spec segs m ds nb t cb :
  Forall seg_ok segs → seg_ok (m, ds) →
  ∃ m' cb', extend_marker (mk (flat segs ++ m :: ds) (lenN (flat segs)) nb) t cb = (m', cb') ∧
    seg_ok (m', ds) ∧ cb' <= cb ∧
    seg_bits (m', ds) = seg_bits (m, ds) ++ reps (64 * (cb - cb')) t.
Proof.
  intros Hsegs Hseg. pose proof Hseg as (Hm & Hd & Hds). cbn [fst snd] in *.
  pose proof (marker_num_clean_le m). unfold extend_marker. cbn [blocks_ last_marker_].
  rewrite vec_at_middle. case_match eqn:E; cycle 1.
  { eexists _, _. split; [done|]. rewrite N.sub_diag, N.mul_0_r, reps_0, app_nil_r. auto. }
  assert (ds = [] ∧ (marker_type m = t ∨ marker_num_clean m = 0)) as [-> Hor].
  { apply orb_true_iff in E as [[El%N.eqb_eq Et%eqb_prop]%andb_true_iff
      |[_ ->%N.eqb_eq]%andb_true_iff]; (split; [destruct ds; [done|exfalso]|auto]).
    - autorewrite with lendb in El. lia.
    - rewrite lenN_cons in Hd. change (marker_num_dirty 0) with 0 in Hd. lia. }
  eexists _, _. split; [done|]. split; [|split; [lia|]].
  - repeat split; cbn [fst snd]; auto with u64db. autorewrite with markerdb. done.
  - rewrite !seg_bits_nil. autorewrite with markerdb.
    rewrite N.mul_add_distr_l, reps_add.
    replace (cb - (cb - _)) with (N.min (marker_clean_max - marker_num_clean m) cb) by lia.
    by destruct Hor as [-> | ->].
Qed.

(** Resetting the dirty counter of a marker that is last changes nothing. *)
Lemma seg_reset_dirty segs m ds :
  seg_ok (m, ds) →
  let m' := if lenN (flat segs) =? lenN (flat segs ++ m :: ds) - 1
            then set_marker_num_dirty m 0 else m in
  seg_ok (m', ds) ∧ seg_bits (m', ds) = seg_bits (m, ds).
Proof.
  intros Hseg m'. pose proof Hseg as (Hm & Hd & Hds). unfold m'.
  destruct (N.eqb_spec (lenN (flat segs)) (lenN (flat segs ++ m :: ds) - 1)) as [E|]; [|done].
  assert (ds = []) as -> by (destruct ds; [done|autorewrite with lendb in E; lia]).
  assert (0 <= marker_dirty_max) by done.
  split; [|rewrite !seg_bits_nil; by autorewrite with markerdb].
  repeat split; cbn [fst snd]; auto with u64db. by autorewrite with markerdb.
Qed.

Lemma append_clean_blocks_spec bs lm l nb t cb :
  shape bs lm l →
  ∃ bs' lm', append_clean_blocks (mk bs lm nb) t cb = mk bs' lm' nb ∧
    shape bs' lm' (l ++ reps (64 * cb) t).
Proof.
  intros [segs m ds Hsegs Hseg]. unfold append_clean_blocks.
  destruct (extend_marker_spec segs m ds nb t cb Hsegs Hseg)
    as (m1 & cb1 & -> & Hseg1 & Hle & Hbits). cbn [blocks_ last_marker_ num_bits_].
  rewrite !vec_set_middle.
  replace (64 * cb) with (64 * (cb - cb1) + 64 * cb1) by lia.
  rewrite reps_add, <- (app_assoc (segs_bits segs)), (app_assoc (seg_bits _)), <- Hbits.
  destruct (N.ltb_spec 0 cb1).
  - destruct (seg_reset_dirty segs m1 ds Hseg1) as [Hok Hsame].
    replace (lenN (flat segs ++ m :: ds)) with (lenN (flat segs ++ m1 :: ds))
      by (by autorewrite with lendb).
    set (m2 := if _ =? _ then _ else m1) in *.
    eexists _, _. split; [done|]. rewrite <- Hsame, app_assoc.
    by apply (shape_new_cleans _ _ _ _ _ (shape_intro segs m2 ds Hsegs Hok)).
  - eexists _, _. split; [done|]. replace cb1 with 0 by lia.
    rewrite N.mul_0_r, reps_0, app_nil_r. by constructor.
Qed.

End append.

(** ** The class invariant

    The first block is a marker and the last block, of which [k] bits are used,
    is literal; the unused bits of the last block are 0. *)

Section invariant.
Import ewah_bitmap.

Inductive ewah_inv : ewah_bitmap → Prop :=
| ewah_inv_nil : ewah_inv nil
| ewah_inv_blocks bs lm l x k :
    shape bs lm l → 0 < k → k <= 64 → x < 2 ^ k → lenN l + k <= max_size →
    ewah_inv (mk (bs ++ [x]) lm (lenN l + k)).

Lemma last_size_spec n k : (64 | n) → 0 < k → k <= 64 → last_size (n + k) = k.
Proof.
  intros [q ->] Hk Hk'. unfold last_size, word.width.
  rewrite N.add_comm, N.Div0.mod_add. destruct (N.eq_dec k 64) as [->|]; [done|].
  rewrite N.mod_small by lia. by rewrite (proj2 (N.eqb_neq k 0)) by lia.
Qed.

Lemma partial_spec n k : (64 | n) → k < 64 → (n + k) mod word.width = k.
Proof.
  intros [q ->] Hk. unfold word.width. rewrite N.add_comm, N.Div0.mod_add.
  by apply N.mod_small.
Qed.

Lemma partial_spec_full n : (64 | n) → (n + 64) mod word.width = 0.
Proof.
  intros [q ->]. unfold word.width. replace (q * 64 + 64) with ((q + 1) * 64) by lia.
  apply N.Div0.mod_mul.
Qed.

Lemma ewah_to_list_blocks bs lm l x k :
  shape bs lm l → 0 < k → k <= 64 →
  to_list (mk (bs ++ [x]) lm (lenN l + k)) = l ++ bits_of x k.
Proof.
  intros Hsh Hk Hk'. unfold to_list. cbn [blocks_ num_bits_].
  rewrite last_size_spec by (done || by eapply shape_aligned). by eapply decode_shape.
Qed.

(** A vector of finished segments gets its last block. *)
Lemma ewah_push bs lm l x k nb :
  shape bs lm l → 0 < k → k <= 64 → x < 2 ^ k → nb = lenN l + k → nb <= max_size →
  ewah_inv (mk (bs ++ [x]) lm nb) ∧ to_list (mk (bs ++ [x]) lm nb) = l ++ bits_of x k.
Proof. intros ? ? ? ? -> ?. split; [by constructor|by apply ewah_to_list_blocks]. Qed.

End invariant.

Section public.
Import ewah_bitmap.

(** How [append_bits] splits a long run into whole words and a last block. *)
Lemma split_words n :
  64 < n →
  let p := if n mod 64 =? 0 then (n / 64 - 1, 64) else (n / 64, n mod 64) in
  64 * p.1 + p.2 = n ∧ 0 < p.2 ∧ p.2 <= 64.
Proof.
  intros Hn p. unfold p. clear p. pose proof (N.div_mod n 64 ltac:(done)).
  pose proof (N.mod_lt n 64 ltac:(done)).
  destruct (N.eqb_spec (n mod 64) 0) as [|Hr%N.neq_0_lt_0]; cbn [fst snd]; lia.
Qed.

Lemma lenN_bits_list l x k nb :
  lenN (l ++ bits_of x k) + nb = lenN l + k + nb.
Proof. autorewrite with lendb. lia. Qed.

Lemma append_bits_aligned_spec bs lm l bit n :
  shape bs lm l → 0 < n → lenN l + n <= max_size →
  ewah_inv (append_bits_aligned (mk bs lm (lenN l)) bit n) ∧
  to_list (append_bits_aligned (mk bs lm (lenN l)) bit n) = l ++ reps n bit.
Proof.
  intros Hsh Hn Hmax. unfold append_bits_aligned, word.width, push_back.
  cbn [blocks_ last_marker_ num_bits_].
  rewrite wrap_small by (unfold max_size in *; lia).
  destruct (N.leb_spec n 64) as [Hsmall|Hbig].
  - destruct (fill_word_spec bit n Hsmall) as [Hlt <-]. by apply ewah_push.
  - destruct (split_words n Hbig) as (Hp & Hr & Hr').
    destruct (if n mod 64 =? 0 then _ else _) as [cb rb]. cbn [fst snd] in *.
    destruct (append_clean_blocks_spec bs lm l (lenN l + n) bit cb Hsh)
      as (bs' & lm' & -> & Hsh'). cbn [blocks_ last_marker_ num_bits_].
    rewrite (proj2 (N.ltb_lt 0 rb)) by done.
    destruct (fill_word_spec bit rb Hr') as [Hlt Hb].
    rewrite <- Hp, reps_add, app_assoc, <- Hb.
    apply (ewah_push _ _ _ _ _ _ Hsh'); try done; autorewrite with lendb; lia.
Qed.

(** A full last block is integrated before the run is appended. *)
Lemma append_integrated_spec bs lm l x bit n :
  shape bs lm l → is_u64 x → 0 < n → lenN l + 64 + n <= max_size →
  let bm := append_bits_aligned
    (integrate_last_block (mk (bs ++ [x]) lm (lenN l + 64))) bit n in
  ewah_inv bm ∧ to_list bm = (l ++ bits_of x 64) ++ reps n bit.
Proof.
  intros Hsh Hx Hn Hmax. cbn zeta.
  destruct (integrate_spec bs lm l x (lenN l + 64) Hsh Hx) as (bs' & lm' & -> & Hsh').
  replace (lenN l + 64) with (lenN (l ++ bits_of x 64)) by (autorewrite with lendb; lia).
  apply append_bits_aligned_spec; [done..|]. autorewrite with lendb. lia.
Qed.

(** The unused bits of the last block are filled first. *)
Lemma append_fill_spec bs x k (bit : bool) fill :
  x < 2 ^ k → k + fill <= 64 →
  ∃ x', (if bit
         then set_back (back (bs ++ [x]) |u (word.lsb_mask fill <<u k)) (bs ++ [x])
         else bs ++ [x]) = bs ++ [x'] ∧
    x' < 2 ^ (k + fill) ∧ bits_of x' (k + fill) = bits_of x k ++ reps fill bit.
Proof.
  intros Hx Hle. destruct (fill_word_spec bit fill ltac:(lia)) as [Hf <-].
  exists (x |u ((if bit then word.lsb_fill fill else word.none) <<u k)).
  split; [|by apply or_shifted]. destruct bit.
  - by rewrite back_snoc, set_back_snoc, lsb_mask_fill.
  - change (word.none <<u k) with (wrap (N.shiftl 0 k)).
    by rewrite N.shiftl_0_l, N.lor_0_r.
Qed.

Lemma ewah_append_bits_spec bm bit n :
  ewah_inv bm → lenN (to_list bm) + n <= max_size →
  ewah_inv (append_bits bm bit n) ∧ to_list (append_bits bm bit n) = to_list bm ++ reps n bit.
Proof.
  intros Hinv Hmax. unfold append_bits.
  destruct (N.eqb_spec n 0) as [->|Hn]; [by rewrite reps_0, app_nil_r|].
  destruct Hinv as [|bs lm l x k Hsh Hk Hk' Hx Hnb].
  { cbn [blocks_ nil last_marker_ num_bits_]. change (push_back [] 0) with [0].
    apply (append_bits_aligned_spec _ _ [] bit n shape_nil); [lia|done]. }
  rewrite ewah_to_list_blocks, lenN_bits_list in * by done.
  cbn [blocks_ last_marker_ num_bits_].
  destruct (bs ++ [x]) eqn:Ebs; [by destruct bs|]. rewrite <- Ebs. clear Ebs.
  pose proof (shape_aligned _ _ _ Hsh) as Hal.
  destruct (N.eq_dec k 64) as [->|Hne].
  { rewrite partial_spec_full by done. apply append_integrated_spec; [done..|lia|lia]. }
  rewrite partial_spec by (done || lia). rewrite (proj2 (N.ltb_lt 0 k)) by done.
  unfold word.width. set (fill := N.min n (64 - k)).
  destruct (append_fill_spec bs x k bit fill Hx ltac:(lia)) as (x' & -> & Hlt & Hb).
  rewrite wrap_small by (unfold max_size in *; lia). rewrite <- N.add_assoc.
  destruct (N.eqb_spec (n - fill) 0).
  - replace n with fill by lia. rewrite <- app_assoc, <- Hb.
    apply ewah_push; try done; lia.
  - replace (k + fill) with 64 in * by lia.
    destruct (append_integrated_spec bs lm l x' bit (n - fill)) as [? ->]; [done..|lia|lia|].
    split; [done|]. rewrite Hb, <- !app_assoc, <- reps_add. do 3 f_equal. lia.
Qed.

Lemma ewah_append_bit_spec bm bit :
  ewah_inv bm → lenN (to_list bm) + 1 <= max_size →
  ewah_inv (append_bit bm bit) ∧ to_list (append_bit bm bit) = to_list bm ++ [bit].
Proof.
  intros Hinv Hmax. unfold append_bit.
  assert (∀ bs lm l k x, shape bs lm l → x < 2 ^ k → k < 64 → lenN l + k + 1 <= max_size →
    let bm := mk (if bit then set_back (back (bs ++ [x]) |u (word.lsb1 <<u k)) (bs ++ [x])
                  else bs ++ [x]) lm (lenN l + k +u 1) in
    ewah_inv bm ∧ to_list bm = l ++ bits_of x k ++ [bit]) as Hstep.
  { intros bs lm l k x Hsh Hx Hk Hnb.
    destruct (append_fill_spec bs x k bit 1 Hx ltac:(lia)) as (x' & Heq & Hlt & Hb).
    change (word.lsb_mask 1) with word.lsb1 in Heq. rewrite Heq.
    rewrite wrap_small by (unfold max_size in *; lia). change [bit] with (reps 1 bit).
    rewrite <- Hb. apply ewah_push; try done; lia. }
  destruct Hinv as [|bs lm l x k Hsh Hk Hk' Hx Hnb].
  { by apply (Hstep [0] 0 [] 0 word.none shape_nil). }
  rewrite ewah_to_list_blocks, lenN_bits_list in * by done.
  cbn [blocks_ last_marker_ num_bits_].
  destruct (bs ++ [x]) eqn:Ebs; [by destruct bs|]. rewrite <- Ebs. clear Ebs.
  pose proof (shape_aligned _ _ _ Hsh) as Hal. destruct (N.eq_dec k 64) as [->|Hne].
  - rewrite partial_spec_full by done. rewrite N.eqb_refl.
    destruct (integrate_spec bs lm l x (lenN l + 64) Hsh Hx) as (bs' & lm' & -> & Hsh').
    cbn [blocks_ last_marker_ num_bits_]. unfold push_back.
    replace (lenN l + 64) with (lenN (l ++ bits_of x 64) + 0) by (autorewrite with lendb; lia).
    apply (Hstep _ _ _ 0 word.none Hsh'); try done. autorewrite with lendb. lia.
  - rewrite partial_spec by (done || lia). rewrite (proj2 (N.eqb_neq k 0)) by lia.
    rewrite <- app_assoc. apply Hstep; try done; lia.
Qed.

(** The bits of a block that fit the last block go there, the others follow. *)
Lemma append_block_partial bs lm l x k value n :
  shape bs lm l → x < 2 ^ k → 0 < k → k < 64 → 0 < n → n <= 64 →
  lenN l + k + n <= max_size →
  let unused := word.width - k in
  let bm :=
    if n <=? unused then
      mk (bs ++ [x |u ((value &u word.lsb_fill n) <<u k)]) lm (lenN l + k +u n)
    else
      let bm := integrate_last_block
        (mk (bs ++ [x |u ((value &u word.lsb_fill unused) <<u k)]) lm
           (lenN l + k +u unused)) in
      mk (push_back (blocks_ bm) ((value >>u unused) &u word.lsb_fill (n - unused)))
        (last_marker_ bm) (num_bits_ bm +u (n - unused)) in
  ewah_inv bm ∧ to_list bm = l ++ bits_of x k ++ bits_of value n.
Proof.
  intros Hsh Hx Hk Hk' Hn Hn' Hmax unused bm. unfold bm, unused, word.width. clear bm unused.
  destruct (N.leb_spec n (64 - k)).
  - destruct (bits_of_mask value n Hn') as [Hlt Hb].
    destruct (or_shifted x (value &u word.lsb_fill n) k n) as [Hlt' Hb']; [done..|lia|].
    rewrite wrap_small with (x := lenN l + k + n) by (unfold max_size in *; lia).
    rewrite <- Hb, <- Hb'. apply ewah_push; try done; lia.
  - destruct (bits_of_mask value (64 - k)) as [Hlt Hb]; [lia|].
    destruct (or_shifted x (value &u word.lsb_fill (64 - k)) k (64 - k))
      as [Hlt' Hb']; [done..|lia|].
    replace (k + (64 - k)) with 64 in * by lia.
    destruct (integrate_spec bs lm l _ (lenN l + k +u (64 - k)) Hsh Hlt')
      as (bs' & lm' & -> & Hsh').
    cbn [blocks_ last_marker_ num_bits_].
    destruct (bits_of_mask (value >>u (64 - k)) (n - (64 - k))) as [Hlt2 Hb2]; [lia|].
    rewrite !wrap_small by (rewrite ?wrap_small; unfold max_size in *; lia).
    replace (bits_of value n) with (bits_of value (64 - k + (n - (64 - k)))) by (f_equal; lia).
    rewrite bits_of_app, <- Hb2, <- Hb, (app_assoc (bits_of x k)), <- Hb', app_assoc.
    apply (ewah_push _ _ _ _ _ _ Hsh'); try done; autorewrite with lendb; lia.
Qed.

Lemma ewah_append_block_spec bm value n :
  ewah_inv bm → 0 < n → n <= 64 → lenN (to_list bm) + n <= max_size →
  ewah_inv (append_block bm value n) ∧
  to_list (append_block bm value n) = to_list bm ++ bits_of value n.
Proof.
  intros Hinv Hn Hn' Hmax. unfold append_block.
  destruct (bits_of_mask value n Hn') as [Hvlt Hvb].
  assert (∀ bs lm l, shape bs lm l → lenN l + n <= max_size →
    let bm := mk (push_back bs (value &u word.lsb_fill n)) lm (lenN l +u n) in
    ewah_inv bm ∧ to_list bm = l ++ bits_of value n) as Hpush.
  { intros bs lm l Hsh Hnb. rewrite wrap_small by (unfold max_size in *; lia).
    rewrite <- Hvb. by apply ewah_push. }
  destruct Hinv as [|bs lm l x k Hsh Hk Hk' Hx Hnb].
  { apply (Hpush [0] 0 [] shape_nil). done. }
  rewrite ewah_to_list_blocks, lenN_bits_list in * by done.
  cbn [blocks_ last_marker_ num_bits_].
  destruct (bs ++ [x]) eqn:Ebs; [by destruct bs|]. rewrite <- Ebs. clear Ebs.
  pose proof (shape_aligned _ _ _ Hsh) as Hal. destruct (N.eq_dec k 64) as [->|Hne].
  { rewrite partial_spec_full, N.eqb_refl by done.
    destruct (integrate_spec bs lm l x (lenN l + 64) Hsh Hx) as (bs' & lm' & -> & Hsh').
    cbn [blocks_ last_marker_ num_bits_]. rewrite partial_spec_full, N.eqb_refl by done.
    replace (lenN l + 64) with (lenN (l ++ bits_of x 64)) by (autorewrite with lendb; lia).
    apply Hpush; [done|]. autorewrite with lendb. lia. }
  rewrite partial_spec by (done || lia). rewrite (proj2 (N.eqb_neq k 0)) by lia.
  cbn [blocks_ last_marker_ num_bits_]. rewrite partial_spec by (done || lia).
  rewrite (proj2 (N.eqb_neq k 0)) by lia. rewrite back_snoc, !set_back_snoc.
  rewrite <- app_assoc. apply append_block_partial; try done; lia.
Qed.

End public.

(** ** Flipping *)

Section flipping.
Import ewah_word ewah_bitmap.

Definition flip_marker (m : N) : N :=
  if 0 <? marker_num_clean m then m ^u word.msb1 else m.
Definition flip_seg (s : N * list N) : N * list N :=
  (flip_marker s.1, (λ d, ~u d) <$> s.2).

Lemma flip_marker_spec m :
  is_u64 m →
  is_u64 (flip_marker m) ∧ marker_num_dirty (flip_marker m) = marker_num_dirty m ∧
  reps (64 * marker_num_clean (flip_marker m)) (marker_type (flip_marker m)) =
  negb <$> reps (64 * marker_num_clean m) (marker_type m).
Proof.
  intros Hm. unfold flip_marker. rewrite fmap_reps.
  destruct (N.ltb_spec 0 (marker_num_clean m)).
  - split; [auto 6 with u64db|]. split; [marker_bits|]. f_equal; [|].
    + f_equal. marker_bits.
    + rewrite !marker_type_testbit. bitblast.
  - by replace (marker_num_clean m) with 0 by lia.
Qed.

Lemma flip_seg_spec s :
  seg_ok s → seg_ok (flip_seg s) ∧ seg_bits (flip_seg s) = negb <$> seg_bits s.
Proof.
  destruct s as [m ds]. intros (Hm & Hd & Hds). cbn [fst snd] in *.
  destruct (flip_marker_spec m Hm) as (Hm' & Hd' & Hc'). split.
  - split; [done|]. cbn [flip_seg fst snd]. split.
    + rewrite Hd', <- Hd. unfold lenN. by rewrite length_fmap.
    + apply Forall_fmap; apply (Forall_impl (P:=is_u64)); [|done]. exact is_u64_lnot.
  - unfold seg_bits, flip_seg. cbn [fst snd].
    by rewrite Hc', fmap_negb_words, fmap_app.
Qed.

Lemma flip_segs_spec segs :
  Forall seg_ok segs →
  Forall seg_ok (flip_seg <$> segs) ∧ segs_bits (flip_seg <$> segs) = negb <$> segs_bits segs.
Proof.
  induction 1 as [|s segs Hs _ [IHok IHb]]; [done|].
  destruct (flip_seg_spec s Hs) as [Hok Hb]. unfold segs_bits in *.
  cbn [fmap list_fmap concat] in *. rewrite fmap_app. split; [by constructor|].
  by rewrite Hb, IHb.
Qed.

Lemma flip_loop_dirty ds rest i nm :
  rest ≠ [] → nm = i + lenN ds →
  flip_loop i nm (ds ++ rest) = ((λ d, ~u d) <$> ds) ++ flip_loop nm nm rest.
Proof.
  intros Hr. revert i nm. induction ds as [|d ds IH]; intros i nm ->.
  { rewrite lenN_nil, N.add_0_r. done. }
  rewrite lenN_cons. cbn [app flip_loop fmap list_fmap].
  destruct (ds ++ rest) eqn:E; [by apply app_eq_nil in E as [_ ?]|].
  rewrite (proj2 (N.eqb_neq i _)) by lia. f_equal. apply IH. lia.
Qed.

Lemma flip_loop_seg s rest i :
  seg_ok s → rest ≠ [] →
  flip_loop i i (s.1 :: s.2 ++ rest) =
  (flip_seg s).1 :: (flip_seg s).2 ++
    flip_loop (i + (1 + lenN s.2)) (i + (1 + lenN s.2)) rest.
Proof.
  destruct s as [m ds]. intros (Hm & Hd & _) Hr. cbn [fst snd flip_seg] in *.
  cbn [flip_loop]. destruct (ds ++ rest) eqn:E; [by apply app_eq_nil in E as [_ ?]|].
  rewrite <- E, N.eqb_refl. fold (flip_marker m).
  destruct (flip_marker_spec m Hm) as (_ & -> & _). f_equal.
  rewrite flip_loop_dirty with (nm := i + (marker_num_dirty m + 1)) by (done || lia).
  rewrite <- Hd. do 2 f_equal; lia.
Qed.

Lemma flip_loop_flat segs rest i :
  Forall seg_ok segs → rest ≠ [] →
  flip_loop i i (flat segs ++ rest) =
  flat (flip_seg <$> segs) ++
    flip_loop (i + lenN (flat segs)) (i + lenN (flat segs)) rest.
Proof.
  intros Hs Hr. revert i. induction Hs as [|s segs Hs _ IH]; intros i.
  { cbn. by rewrite N.add_0_r. }
  unfold flat in *. cbn [fmap list_fmap concat]. rewrite <- !app_assoc. cbn [app].
  rewrite flip_loop_seg by (done || by intros [_ ?]%app_eq_nil).
  rewrite IH. autorewrite with lendb. rewrite <- ?app_assoc. do 3 f_equal. f_equal; lia.
Qed.

Lemma lenN_flat_flip segs : lenN (flat (flip_seg <$> segs)) = lenN (flat segs).
Proof.
  induction segs as [|s segs IH]; [done|]. unfold flat in *. cbn [fmap list_fmap concat].
  autorewrite with lendb. cbn [fst snd flip_seg]. rewrite IH. unfold lenN.
  by rewrite length_fmap.
Qed.

Lemma flip_loop_shape bs lm l x :
  shape bs lm l →
  ∃ bs', flip_loop 0 0 (bs ++ [x]) = bs' ++ [x] ∧ shape bs' lm (negb <$> l).
Proof.
  intros [segs m ds Hsegs Hseg]. rewrite <- app_assoc.
  rewrite flip_loop_flat by done. cbn [app].
  rewrite (flip_loop_seg (m, ds)) by done. eexists. split.
  { cbn [flip_loop]. by rewrite app_comm_cons, app_assoc. }
  rewrite fmap_app. destruct (flip_segs_spec segs Hsegs) as [Hok <-].
  destruct (flip_seg_spec (m, ds) Hseg) as [Hok' <-]. cbn [fst snd].
  rewrite <- lenN_flat_flip. by apply shape_intro.
Qed.

Lemma flip_last x k :
  k <= 64 →
  let x' := if k <? 64 then ~u x &u word.lsb_mask k else ~u x in
  x < 2 ^ k → x' < 2 ^ k ∧ bits_of x' k = negb <$> bits_of x k.
Proof.
  intros Hk x' Hx. unfold x'. split.
  - apply bound_of_testbit. intros. destruct (N.ltb_spec k 64); bitblast.
  - symmetry. apply fmap_bits_of. intros. destruct (N.ltb_spec k 64); bitblast.
Qed.

Lemma ewah_flip_spec bm :
  ewah_inv bm → ewah_inv (flip bm) ∧ to_list (flip bm) = negb <$> to_list bm.
Proof.
  intros [|bs lm l x k Hsh Hk Hk' Hx Hnb]; [by split; [constructor|]|].
  unfold flip. cbn [blocks_ last_marker_ num_bits_].
  destruct (bs ++ [x]) eqn:E; [by destruct bs|]. rewrite <- E. clear E.
  pose proof (shape_aligned _ _ _ Hsh) as Hal.
  destruct (flip_loop_shape bs lm l x Hsh) as (bs' & -> & Hsh').
  destruct (flip_last x k Hk' Hx) as [Hlt Hb].
  rewrite ewah_to_list_blocks, fmap_app, <- Hb, back_snoc, set_back_snoc by done.
  replace (lenN l) with (lenN (negb <$> l)) in * by (unfold lenN; by rewrite length_fmap).
  destruct (N.ltb_spec k 64).
  - rewrite partial_spec, (proj2 (N.ltb_lt 0 k)) by done.
    rewrite back_snoc, set_back_snoc. by apply ewah_push.
  - replace k with 64 in * by lia. rewrite partial_spec_full by done. by apply ewah_push.
Qed.

Lemma ewah_size_spec bm : ewah_inv bm → size bm = lenN (to_list bm) ∧ size bm <= max_size.
Proof.
  intros [|bs lm l x k Hsh Hk Hk' Hx Hnb]; [done|].
  rewrite ewah_to_list_blocks by done. autorewrite with lendb. done.
Qed.

End flipping.
