(* ===== verification/EwahRange.v ===== *)
(** The range over an EWAH bitmap: [class ewah_bitmap_range] of
    [libvast/include/vast/ewah_bitmap.hpp] and [libvast/src/ewah_bitmap.cpp],
    and the proof that the EWAH bitmap implements the bitmap concept. *)

From S2P Require Import Prelude Word Bits BitmapConcept EwahBitmap.

Module ewah_bitmap_range.
Import ewah_word.

Record ewah_bitmap_range := mk {
  bm_ : ewah_bitmap.ewah_bitmap;
  next_ : N;
  num_dirty_ : N;
  bits_ : bits.bits
}.

(** The loop of [scan] that merges the markers behind a marker without literal
    blocks: the length of the run, [num_dirty_] and [next_]. Every iteration
    moves [next_] forward, so the number of blocks is fuel enough. *)
Fixpoint merge_markers (fuel : nat) (blocks : list N) (data length num_dirty next : N)
    : N * N * N :=
  match fuel with
  | O => (length, num_dirty, next)
  | S fuel =>
      if (num_dirty =? 0) && (next + 2 <? lenN blocks) then
        let next_marker := vec_at blocks (next + 1) in
        let next_type := marker_type next_marker in
        if (next_type && (data =? 0)) || (negb next_type && negb (data =? 0))
        then (length, num_dirty, next)
        else merge_markers fuel blocks data
               (length +u (marker_num_clean next_marker *u word.width))
               (marker_num_dirty next_marker) (next + 1)
      else (length, num_dirty, next)
  end.

(** [scan]; it calls itself only behind a marker without clean words. *)
Fixpoint scan_loop (fuel : nat) (rng : ewah_bitmap_range) : ewah_bitmap_range :=
  match fuel with
  | O => rng
  | S fuel =>
      let blocks := ewah_bitmap.blocks (bm_ rng) in
      let block := vec_at blocks (next_ rng) in
      if next_ rng + 1 =? lenN blocks then
        let partial := ewah_bitmap.size (bm_ rng) mod word.width in
        mk (bm_ rng) (next_ rng) (num_dirty_ rng)
          (bits.make block (if partial =? 0 then word.width else partial))
      else if 0 <? num_dirty_ rng then
        mk (bm_ rng) (next_ rng) (num_dirty_ rng - 1) (bits.make block word.width)
      else
        let num_clean := marker_num_clean block in
        let num_dirty := marker_num_dirty block in
        if num_clean =? 0 then
          scan_loop fuel (mk (bm_ rng) (next_ rng + 1) num_dirty (bits_ rng))
        else
          let data := if marker_type block then word.all else word.none in
          let length := num_clean *u word.width in
          let '(length, num_dirty, next) :=
            merge_markers (List.length blocks) blocks data length num_dirty (next_ rng) in
          mk (bm_ rng) next num_dirty (bits.make data length)
  end.
Definition scan (rng : ewah_bitmap_range) : ewah_bitmap_range :=
  scan_loop (length (ewah_bitmap.blocks (bm_ rng))) rng.

(** The constructor. *)
Definition make (bm : ewah_bitmap.ewah_bitmap) : ewah_bitmap_range :=
  let rng := mk bm 0 0 bits.nil in
  if ewah_bitmap.empty bm then rng else scan rng.

Definition done (rng : ewah_bitmap_range) : bool :=
  next_ rng =? lenN (ewah_bitmap.blocks (bm_ rng)).

Definition next (rng : ewah_bitmap_range) : ewah_bitmap_range :=
  let rng := mk (bm_ rng) (next_ rng + 1) (num_dirty_ rng) (bits_ rng) in
  if next_ rng =? lenN (ewah_bitmap.blocks (bm_ rng)) then rng else scan rng.

(** [for (auto xs : rng)] through the iterators of [bit_range_base]. *)
Fixpoint collect (fuel : nat) (rng : ewah_bitmap_range) : list bits.bits :=
  match fuel with
  | O => []
  | S fuel => if done rng then [] else bits_ rng :: collect fuel (next rng)
  end.

(** [bit_range(const ewah_bitmap&)], as the sequence it yields. *)
Definition bit_range (bm : ewah_bitmap.ewah_bitmap) : list bits.bits :=
  collect (length (ewah_bitmap.blocks bm) + 1) (make bm).

End ewah_bitmap_range.

Section range.
Import ewah_word ewah_bitmap_range.
Implicit Types (pre rest : list N).

Lemma decode_marker b c rest n :
  ewah_bitmap.decode 0 (b :: c :: rest) n =
  reps (64 * marker_num_clean b) (marker_type b) ++
    ewah_bitmap.decode (marker_num_dirty b) (c :: rest) n.
Proof. done. Qed.

Lemma clean_length b :
  marker_num_clean b *u word.width = 64 * marker_num_clean b.
Proof.
  pose proof (marker_num_clean_le b). rewrite marker_clean_max_val in *.
  rewrite wrap_small; unfold word.width; lia.
Qed.

Lemma vec_at_next pre b c rest : vec_at (pre ++ b :: c :: rest) (lenN pre + 1) = c.
Proof.
  replace (pre ++ b :: c :: rest) with ((pre ++ [b]) ++ c :: rest)
    by (by rewrite <- app_assoc).
  replace (lenN pre + 1) with (lenN (pre ++ [b])) by (autorewrite with lendb; lia).
  apply vec_at_middle.
Qed.

Definition run_word (t : bool) : N := if t then word.all else word.none.

Lemma incompatible_run (t t' : bool) :
  (t' && (run_word t =? 0)) || (negb t' && negb (run_word t =? 0)) = negb (eqb t' t).
Proof. by destruct t, t'. Qed.

Lemma merge_markers_spec fuel pre b rest t len d n :
  rest ≠ [] → (length rest <= fuel)%nat →
  lenN (reps len t ++ ewah_bitmap.decode d rest n) < 2 ^ 64 →
  ∃ len' d' pre' b' rest',
    merge_markers fuel (pre ++ b :: rest) (run_word t) len d (lenN pre) =
      (len', d', lenN pre') ∧
    pre ++ b :: rest = pre' ++ b' :: rest' ∧ (length rest' <= length rest)%nat ∧ rest' ≠ [] ∧
    len <= len' ∧
    reps len t ++ ewah_bitmap.decode d rest n =
    reps len' t ++ ewah_bitmap.decode d' rest' n.
Proof.
  revert pre b rest len d. induction fuel as [|fuel IH]; intros pre b rest len d Hr Hf Hlen.
  { destruct rest; [done|cbn in Hf; lia]. }
  destruct rest as [|c [|c' rest]]; [done| |].
  - cbn [merge_markers]. rewrite (proj2 (N.ltb_ge _ _)) by (autorewrite with lendb; lia).
    rewrite andb_false_r. by exists len, d, pre, b, [c].
  - cbn [merge_markers]. rewrite (proj2 (N.ltb_lt _ _)) by (autorewrite with lendb; lia).
    rewrite andb_true_r, vec_at_next, incompatible_run.
    destruct (N.eqb_spec d 0) as [->|]; [|by exists len, d, pre, b, (c :: c' :: rest)].
    destruct (eqb_spec (marker_type c) t) as [Ht|]; cbn [negb];
      [|by exists len, 0, pre, b, (c :: c' :: rest)].
    rewrite clean_length. rewrite decode_marker, Ht, app_assoc, <- reps_add in Hlen.
    rewrite wrap_small by (autorewrite with lendb in Hlen; lia).
    destruct (IH (pre ++ [b]) c (c' :: rest) (len + 64 * marker_num_clean c)
      (marker_num_dirty c)) as (len' & d' & pre' & b' & rest' & Heq & Hsplit & Hl & Hne & Hle & Hb);
      [done|cbn in Hf |- *; lia|done|].
    exists len', d', pre', b', rest'.
    rewrite <- app_assoc in Heq, Hsplit. cbn [app] in Heq, Hsplit.
    replace (lenN pre + 1) with (lenN (pre ++ [b])) by (autorewrite with lendb; lia).
    split; [done|]. split; [done|]. split; [cbn in Hl |- *; lia|]. split; [done|].
    split; [lia|]. by rewrite decode_marker, Ht, app_assoc, <- reps_add.
Qed.

Lemma last_size_bounds n : 0 < ewah_bitmap.last_size n ∧ ewah_bitmap.last_size n <= 64.
Proof.
  unfold ewah_bitmap.last_size. change word.width with 64.
  pose proof (N.mod_lt n 64 ltac:(done)).
  destruct (N.eqb_spec (n mod 64) 0) as [|?%N.neq_0_lt_0]; lia.
Qed.

(** A marker with clean words, merged with the compatible ones behind it. *)
Lemma scan_run_spec pre b c rest n :
  marker_num_clean b ≠ 0 →
  lenN (ewah_bitmap.decode 0 (b :: c :: rest) n) < 2 ^ 64 →
  ∃ len' d' pre' b' rest',
    merge_markers (length (pre ++ b :: c :: rest)) (pre ++ b :: c :: rest)
      (run_word (marker_type b)) (marker_num_clean b *u word.width)
      (marker_num_dirty b) (lenN pre) = (len', d', lenN pre') ∧
    pre ++ b :: c :: rest = pre' ++ b' :: rest' ∧
    (length rest' < length (b :: c :: rest))%nat ∧
    let bs' := bits.make (run_word (marker_type b)) len' in
    bits.wf bs' ∧ bits.size bs' ≠ 0 ∧
    ewah_bitmap.decode 0 (b :: c :: rest) n =
      bits.to_list bs' ++ ewah_bitmap.decode d' rest' n.
Proof.
  intros Hc Hlen. rewrite decode_marker in *. rewrite clean_length.
  destruct (merge_markers_spec (length (pre ++ b :: c :: rest)) pre b (c :: rest)
    (marker_type b) (64 * marker_num_clean b) (marker_num_dirty b) n)
    as (len' & d' & pre' & b' & rest' & -> & Hsp & Hl & Hne & Hle & Hbits);
    [done|rewrite length_app; cbn; lia|done|].
  rewrite Hbits in Hlen |- *. autorewrite with lendb in Hlen.
  exists len', d', pre', b', rest'.
  assert (run_word (marker_type b) = word.none ∨ run_word (marker_type b) = word.all)
    as Hrun by (destruct (marker_type b); auto).
  split; [done|]. split; [done|]. split; [cbn in Hl |- *; lia|]. cbn zeta.
  split; [apply bits_make_wf; auto; [by destruct (marker_type b)|unfold is_u64; lia]|].
  split; [cbn; lia|]. rewrite bits_make_run by done. by destruct (marker_type b).
Qed.

(** One [scan]: it consumes blocks and leaves their bits in [bits_]. *)
Lemma scan_loop_spec fuel bm pre rest d bs :
  ewah_bitmap.blocks_ bm = pre ++ rest → rest ≠ [] → (length rest <= fuel)%nat →
  Forall is_u64 rest →
  let n := ewah_bitmap.last_size (ewah_bitmap.num_bits_ bm) in
  lenN (ewah_bitmap.decode d rest n) < 2 ^ 64 →
  ∃ pre' b' rest' d' bs',
    scan_loop fuel (mk bm (lenN pre) d bs) = mk bm (lenN pre') d' bs' ∧
    pre ++ rest = pre' ++ b' :: rest' ∧ (length rest' < length rest)%nat ∧
    bits.wf bs' ∧ bits.size bs' ≠ 0 ∧
    ewah_bitmap.decode d rest n = bits.to_list bs' ++ ewah_bitmap.decode d' rest' n.
Proof.
  intros Hbs Hr Hf Hu n. revert pre rest d bs Hbs Hr Hf Hu.
  induction fuel as [|fuel IH]; intros pre rest d bs Hbs Hr Hf Hu Hlen.
  { destruct rest; [done|cbn in Hf; lia]. }
  destruct (last_size_bounds (ewah_bitmap.num_bits_ bm)) as [Hn Hn']. fold n in Hn, Hn'.
  destruct rest as [|b rest]; [done|]. apply Forall_cons_iff in Hu as [Hb Hu].
  cbn [scan_loop]. unfold ewah_bitmap.blocks. cbn [bm_ next_ num_dirty_ bits_].
  rewrite Hbs, vec_at_middle. destruct rest as [|c rest].
  { rewrite (proj2 (N.eqb_eq _ _)) by (autorewrite with lendb; lia).
    exists pre, b, [], d, (bits.make b n). split; [done|]. split; [done|].
    split; [cbn; lia|]. split; [apply bits_make_wf; auto with u64db|].
    split; [cbn; lia|]. by rewrite bits_make_to_list, app_nil_r. }
  rewrite (proj2 (N.eqb_neq _ _)) by (autorewrite with lendb; lia).
  destruct (N.ltb_spec 0 d) as [Hd|Hd].
  { exists pre, b, (c :: rest), (d - 1), (bits.make b 64). split; [done|]. split; [done|].
    split; [cbn; lia|]. split; [apply bits_make_wf; auto with u64db|]. split; [done|].
    rewrite bits_make_to_list by done. cbn [ewah_bitmap.decode].
    by rewrite (proj2 (N.ltb_lt 0 d)). }
  replace d with 0 in * by lia.
  destruct (N.eqb_spec (marker_num_clean b) 0) as [Hc|Hc].
  - rewrite decode_marker, Hc in Hlen |- *. cbn [N.mul reps N.to_nat replicate app] in *.
    replace (lenN pre + 1) with (lenN (pre ++ [b])) by (autorewrite with lendb; lia).
    destruct (IH (pre ++ [b]) (c :: rest) (marker_num_dirty b) bs)
      as (pre' & b' & rest' & d' & bs' & Heq & Hsp & Hl & Hrest);
      [by rewrite <- app_assoc|done|cbn in Hf |- *; lia|done|done|].
    exists pre', b', rest', d', bs'. rewrite <- app_assoc in Hsp. cbn [app] in Hsp.
    split; [done|]. split; [done|]. split; [cbn in Hl |- *; lia|done].
  - destruct (scan_run_spec pre b c rest n Hc Hlen)
      as (len' & d' & pre' & b' & rest' & Heq & Hsp & Hl & Hrest).
    exists pre', b', rest', d', (bits.make (run_word (marker_type b)) len').
    fold (run_word (marker_type b)). by rewrite Heq.
Qed.

Lemma collect_spec fuel bm pre b rest d bs :
  let n := ewah_bitmap.last_size (ewah_bitmap.num_bits_ bm) in
  ewah_bitmap.blocks_ bm = pre ++ b :: rest → (length rest < fuel)%nat →
  Forall is_u64 (ewah_bitmap.blocks_ bm) → bits.wf bs → bits.size bs ≠ 0 →
  lenN (ewah_bitmap.decode d rest n) < 2 ^ 64 →
  let xs := collect (S fuel) (mk bm (lenN pre) d bs) in
  Forall bits.wf xs ∧ Forall (λ x, bits.size x ≠ 0) xs ∧
  range_bits xs = bits.to_list bs ++ ewah_bitmap.decode d rest n.
Proof.
  intros n. revert pre b rest d bs.
  induction fuel as [|fuel IH]; intros pre b rest d bs Hbs Hf Hu Hwf Hne Hlen; [lia|].
  cbn zeta. remember (S fuel) as f eqn:Ef. cbn [collect]. unfold done, next, ewah_bitmap.blocks.
  cbn [bm_ next_ num_dirty_ bits_]. rewrite Hbs.
  rewrite (proj2 (N.eqb_neq _ _)) by (autorewrite with lendb; lia). rewrite range_bits_cons.
  replace (lenN pre + 1) with (lenN (pre ++ [b])) by (autorewrite with lendb; lia).
  destruct rest as [|c rest].
  - rewrite (proj2 (N.eqb_eq _ _)) by (autorewrite with lendb; lia). subst f.
    cbn [collect]. unfold done, ewah_bitmap.blocks. cbn [bm_ next_]. rewrite Hbs, N.eqb_refl.
    split_and!; [by apply Forall_singleton..|done].
  - rewrite (proj2 (N.eqb_neq _ _)) by (autorewrite with lendb; lia). unfold scan.
    cbn [bm_]. unfold ewah_bitmap.blocks. rewrite Hbs.
    destruct (scan_loop_spec (length (pre ++ b :: c :: rest)) bm (pre ++ [b]) (c :: rest) d bs)
      as (pre' & b' & rest' & d' & bs' & -> & Hsp & Hl & Hwf' & Hne' & Hdec);
      [by rewrite Hbs, <- app_assoc|done|rewrite length_app; cbn; lia| |done|].
    { rewrite Hbs in Hu. apply Forall_app in Hu as [_ Hu]. by apply Forall_cons_iff in Hu as [_ Hu]. }
    rewrite <- app_assoc in Hsp. cbn [app] in Hsp. fold n in Hdec. rewrite Hdec in Hlen |- *.
    autorewrite with lendb in Hlen. subst f.
    destruct (IH pre' b' rest' d' bs') as (Hxs & Hxs' & Hb);
      [congruence|cbn in Hf, Hl; lia|done..|lia|].
    split_and!; [by constructor..|]. by rewrite Hb.
Qed.

Lemma ewah_bit_range_spec bm :
  ewah_inv bm →
  Forall bits.wf (bit_range bm) ∧ Forall (λ x, bits.size x ≠ 0) (bit_range bm) ∧
  range_bits (bit_range bm) = ewah_bitmap.to_list bm.
Proof.
  intros Hinv. pose proof (ewah_size_spec bm Hinv) as [Hsize Hmax].
  destruct Hinv as [|bs lm l x k Hsh Hk Hk' Hx Hnb]; [by cbn|].
  set (bm := ewah_bitmap.mk _ _ _) in *.
  unfold bit_range, make, ewah_bitmap.empty, ewah_bitmap.blocks, scan.
  rewrite (proj2 (N.eqb_neq _ 0)) by (cbn; lia). cbn [bm_].
  assert (Forall is_u64 (ewah_bitmap.blocks_ bm)) as Hu.
  { apply Forall_app. split; [by eapply shape_u64|].
    apply Forall_singleton. by eapply is_u64_below. }
  destruct (scan_loop_spec (length (ewah_bitmap.blocks_ bm)) bm [] (ewah_bitmap.blocks_ bm) 0 bits.nil)
    as (pre' & b' & rest' & d' & bs' & Heq & Hsp & Hl & Hwf' & Hne' & Hdec);
    [done|by destruct bs|done|done|fold (ewah_bitmap.to_list bm); unfold max_size in *; lia|].
  change (lenN []) with 0 in Heq. unfold ewah_bitmap.blocks. rewrite Heq. rewrite Nat.add_1_r.
  fold (ewah_bitmap.to_list bm) in Hdec.
  destruct (collect_spec (length (ewah_bitmap.blocks_ bm)) bm pre' b' rest' d' bs')
    as (? & ? & ->); try done.
  rewrite Hdec in Hsize. autorewrite with lendb in Hsize. unfold max_size in *. lia.
Qed.
End range.

(** ** The EWAH bitmap is a bitmap *)

#[export] Instance ewah_bitmap_ops : BitmapOps ewah_bitmap.ewah_bitmap := {
  bm_nil := ewah_bitmap.nil;
  bm_size := ewah_bitmap.size;
  bm_append_bit := ewah_bitmap.append_bit;
  bm_append_bits := ewah_bitmap.append_bits;
  bm_append_block := ewah_bitmap.append_block;
  bm_flip := ewah_bitmap.flip;
  bit_range := ewah_bitmap_range.bit_range
}.

#[refine, export] Instance ewah_bitmap_bitmap : Bitmap ewah_bitmap.ewah_bitmap := {|
  bm_wf := ewah_inv;
  bm_list := ewah_bitmap.to_list;
  bm_append_bit_spec := ewah_append_bit_spec;
  bm_append_bits_spec := ewah_append_bits_spec;
  bm_flip_spec := ewah_flip_spec
|}.
Proof.
  - abstract (intros b Hb; destruct (ewah_size_spec b Hb) as [<- ?]; done).
  - abstract (split; [constructor|done]).
  - abstract (intros b Hb; by apply ewah_size_spec).
  - abstract (intros; by apply ewah_append_block_spec).
  - abstract (intros b Hb; destruct (ewah_bit_range_spec b Hb) as (? & Hne & ?);
      split; [done|]; split; [by apply seqs_ok_nonempty|done]).
Defined.

#[export] Instance ewah_bitmap_strict : StrictRange ewah_bitmap.ewah_bitmap.
Proof. intros b Hb. by apply ewah_bit_range_spec. Qed.
