(* ===== verification/BitmapAlgorithms.v ===== *)
(** The algorithms over bitmaps that look at whole sequences of bits:
    [libvast/include/vast/bitmap_algorithms.hpp], without the ranges
    [bitwise_range] and [select_range]. *)

From S2P Require Import Prelude Word Bits BitmapConcept.

Module bitmap_algorithms.

(** ** Binary operations *)

Section binary.
Context {R L H : Type} `{BitmapOps R, BitmapOps L, BitmapOps H}.
Implicit Types op : N → N → N.

(** The body of the loop of [binary_eval] up to the refill: the sequence
    appended to the result and what is left of the two current sequences. *)
Definition eval_step op (lhs_bits rhs_bits : bits.bits) : bits.bits * bits.bits * bits.bits :=
  let data := op (bits.data lhs_bits) (bits.data rhs_bits) in
  if bits.is_run lhs_bits && negb (bits.is_run rhs_bits) then
    (bits.make data (bits.size rhs_bits),
     bits.drop lhs_bits (bits.size rhs_bits), bits.nil)
  else if negb (bits.is_run lhs_bits) && bits.is_run rhs_bits then
    (bits.make data (bits.size lhs_bits),
     bits.nil, bits.drop rhs_bits (bits.size lhs_bits))
  else
    let min := N.min (bits.size lhs_bits) (bits.size rhs_bits) in
    (bits.make data min, bits.drop lhs_bits min, bits.drop rhs_bits min).

(** [*begin++] when the current sequence is used up. *)
Definition refill (cur : bits.bits) (rest : list bits.bits) : bits.bits * list bits.bits :=
  if bits.empty cur then
    match rest with
    | [] => (cur, [])
    | next :: rest => (next, rest)
    end
  else (cur, rest).

(** The loop of [binary_eval]. Every iteration uses up one of the current
    sequences, so the sequences of both ranges are fuel enough. *)
Fixpoint eval_loop op (fuel : nat) (result : R) (lhs_bits : bits.bits)
    (lhs : list bits.bits) (rhs_bits : bits.bits) (rhs : list bits.bits)
    : R * (bits.bits * list bits.bits) * (bits.bits * list bits.bits) :=
  match fuel with
  | O => (result, (lhs_bits, lhs), (rhs_bits, rhs))
  | S fuel =>
      if negb (bits.empty lhs_bits) && negb (bits.empty rhs_bits) then
        let '(out, lhs_bits, rhs_bits) := eval_step op lhs_bits rhs_bits in
        let result := bitmap_base.append_seq result out in
        let '(lhs_bits, lhs) := refill lhs_bits lhs in
        let '(rhs_bits, rhs) := refill rhs_bits rhs in
        eval_loop op fuel result lhs_bits lhs rhs_bits rhs
      else (result, (lhs_bits, lhs), (rhs_bits, rhs))
  end.

(** [FillLHS] and [FillRHS]. *)
Definition fill (flag : bool) (result : R) (rest : bits.bits * list bits.bits) : R :=
  if flag then
    let result :=
      if negb (bits.empty rest.1) then bitmap_base.append_seq result rest.1 else result in
    foldl bitmap_base.append_seq result rest.2
  else result.

(** The first sequence of an operand and the iterator behind it. *)
Definition start {B} `{BitmapOps B} (bm : B) : bits.bits * list bits.bits :=
  if bitmap_base.empty bm then (bits.nil, bit_range bm)
  else match bit_range bm with
       | [] => (bits.nil, [])
       | x :: xs => (x, xs)
       end.

(** [binary_eval] *)
Definition binary_eval (fill_lhs fill_rhs : bool) (lhs : L) (rhs : H) op : R :=
  let '(lhs_bits, lhs_rest) := start lhs in
  let '(rhs_bits, rhs_rest) := start rhs in
  let fuel := S (S (length lhs_rest + length rhs_rest)) in
  let '(result, lhs_left, rhs_left) :=
    eval_loop op fuel bm_nil lhs_bits lhs_rest rhs_bits rhs_rest in
  let result := fill fill_lhs result lhs_left in
  let result := fill fill_rhs result rhs_left in
  let max_size := N.max (bm_size lhs) (bm_size rhs) in
  bm_append_bits result false (max_size - bm_size result).

Definition binary_and (lhs : L) (rhs : H) : R :=
  binary_eval false false lhs rhs (λ x y, x &u y).
Definition binary_or (lhs : L) (rhs : H) : R :=
  binary_eval true true lhs rhs (λ x y, x |u y).
Definition binary_xor (lhs : L) (rhs : H) : R :=
  binary_eval true true lhs rhs (λ x y, x ^u y).
Definition binary_nand (lhs : L) (rhs : H) : R :=
  binary_eval true false lhs rhs (λ x y, x &u (~u y)).
Definition binary_nor (lhs : L) (rhs : H) : R :=
  binary_eval true true lhs rhs (λ x y, x |u (~u y)).

End binary.

(** ** Queries *)

Section queries.
Context {B : Type} `{BitmapOps B}.

(** The number of [bit] in one sequence. *)
Definition seq_count (bit : bool) (b : bits.bits) : N :=
  if bit then bits.rank true b else bits.size b - bits.rank true b.

Fixpoint rank_loop (bit : bool) (i n result : N) (rng : list bits.bits) : N :=
  match rng with
  | [] => result
  | b :: rng =>
      if (n <=? i) && (i <? n + bits.size b) then result + bits.rank_upto bit b (i - n)
      else rank_loop bit i (n + bits.size b) (result + seq_count bit b) rng
  end.

(** [rank(bm, i)] *)
Definition rank_upto (bit : bool) (bm : B) (i : N) : N :=
  rank_loop bit i 0 0 (bit_range bm).
(** [rank(bm)] *)
Definition rank (bit : bool) (bm : B) : N :=
  if bitmap_base.empty bm then 0 else rank_upto bit bm (bm_size bm - 1).

(** The loop of [select] for [i == npos]; it always searches for a 1-bit. *)
Fixpoint select_last_loop (n last : N) (rng : list bits.bits) : N :=
  match rng with
  | [] => last
  | b :: rng =>
      let l := bits.find_last true b in
      select_last_loop (n + bits.size b)
        (if negb (l =? word.npos) then n + l else last) rng
  end.

Fixpoint select_loop (bit : bool) (i rnk n : N) (rng : list bits.bits) : N :=
  match rng with
  | [] => word.npos
  | b :: rng =>
      let count := seq_count bit b in
      if i <=? rnk + count then n + bits.select bit b (i - rnk)
      else select_loop bit i (rnk + count) (n + bits.size b) rng
  end.

(** [select(bm, i)] *)
Definition select (bit : bool) (bm : B) (i : N) : N :=
  if i =? word.npos then select_last_loop 0 word.npos (bit_range bm)
  else select_loop bit i 0 0 (bit_range bm).

Fixpoint frame_last (bit : bool) (n : N) (result : N * N) (rng : list bits.bits) : N * N :=
  match rng with
  | [] => result
  | b :: rng' =>
      let last := bits.find_last bit b in
      frame_last bit (n + bits.size b)
        (if negb (last =? word.npos) then (result.1, n + last) else result) rng'
  end.
Fixpoint frame_first (bit : bool) (n : N) (rng : list bits.bits) : N * N :=
  match rng with
  | [] => (word.npos, word.npos)
  | b :: rng' =>
      let first := bits.find_first bit b in
      if negb (first =? word.npos) then frame_last bit n (n + first, n + first) rng
      else frame_first bit (n + bits.size b) rng'
  end.

(** [frame] *)
Definition frame (bit : bool) (bm : B) : N * N := frame_first bit 0 (bit_range bm).

(** Whether one sequence makes [any] return. *)
Definition seq_any (bit : bool) (b : bits.bits) : bool :=
  if bit then negb (bits.data b =? 0)
  else
    let x := bits.data b in
    let x := if bits.size b <? word.width
             then x |u word.msb_fill (word.width - bits.size b) else x in
    negb (x =? word.all).

(** [any] *)
Definition any (bit : bool) (bm : B) : bool :=
  if bitmap_base.empty bm then false else existsb (seq_any bit) (bit_range bm).

(** [all] *)
Definition all (bit : bool) (bm : B) : bool := negb (any (negb bit) bm).
End queries.

(** [is_subset]; the difference has the type [R]. *)
Definition is_subset {R L H} `{BitmapOps R, BitmapOps L, BitmapOps H}
    (xs : L) (ys : H) : bool :=
  all false (binary_nand (R:=R) xs ys).

(** ** [nary_eval]

    [top] takes an element off the priority queue. *)
Section nary.
Context {B : Type} (top : list B → option (B * list B)) (nil : B).
Variable op : B → B → B.

Fixpoint nary_loop (fuel : nat) (queue : list B) : B :=
  match fuel with
  | O => nil
  | S fuel =>
      match top queue with
      | None => nil
      | Some (lhs, queue) =>
          match top queue with
          | None => lhs
          | Some (rhs, queue) => nary_loop fuel (op lhs rhs :: queue)
          end
      end
  end.

(** Every iteration merges two elements. *)
Definition nary_eval (bitmaps : list B) : B := nary_loop (length bitmaps) bitmaps.
End nary.

Section nary_ops.
Context {B : Type} `{BitmapOps B} (top : list B → option (B * list B)).
Definition nary_and : list B → B := nary_eval top bm_nil binary_and.
Definition nary_or : list B → B := nary_eval top bm_nil binary_or.
Definition nary_xor : list B → B := nary_eval top bm_nil binary_xor.
End nary_ops.

End bitmap_algorithms.

(** ** Reference: operations on bit lists *)

(** [l] filled up with 0-bits to the length [n]. *)
Definition pad (n : nat) (l : list bool) : list bool := l ++ replicate (n - length l) false.

(** [binary_eval] on bit lists. *)
Definition eval_list (f : bool → bool → bool) (fl fr : bool) (l r : list bool) : list bool :=
  pad (length l `max` length r)
    (zip_with f l r ++ (if fl then drop (length r) l else []) ++
       (if fr then drop (length l) r else [])).

(** Bit by bit, with the shorter operand filled up with 0-bits. *)
Definition pad_eval (f : bool → bool → bool) (l r : list bool) : list bool :=
  zip_with f (pad (length l `max` length r) l) (pad (length l `max` length r) r).

(** The bit at [i]; 0 behind the end. *)
Definition bit_at (l : list bool) (i : nat) : bool := default false (l !! i).

Section lists.
Implicit Types (f : bool → bool → bool) (l r : list bool).

Lemma length_pad n l : (length l <= n)%nat → length (pad n l) = n.
Proof. intros. unfold pad. rewrite length_app, length_replicate. lia. Qed.

Lemma bit_at_app l r i :
  bit_at (l ++ r) i = if decide (i < length l)%nat then bit_at l i else bit_at r (i - length l).
Proof.
  unfold bit_at. case_decide; [by rewrite lookup_app_l|by rewrite lookup_app_r by lia].
Qed.

Lemma bit_at_ge l i : (length l <= i)%nat → bit_at l i = false.
Proof. intros. unfold bit_at. by rewrite lookup_ge_None_2. Qed.

Lemma lookup_bit_at l i : (i < length l)%nat → l !! i = Some (bit_at l i).
Proof. intros [x Hx]%lookup_lt_is_Some_2. unfold bit_at. by rewrite Hx. Qed.

Lemma bit_at_replicate n i : bit_at (replicate n false) i = false.
Proof.
  unfold bit_at. destruct (replicate n false !! i) eqn:E; [|done].
  by apply lookup_replicate in E as [-> _].
Qed.

Lemma bit_at_pad n l i : bit_at (pad n l) i = bit_at l i.
Proof.
  unfold pad. rewrite bit_at_app. case_decide; [done|].
  by rewrite bit_at_replicate, bit_at_ge by lia.
Qed.

Lemma bit_at_zip_with f l r i :
  (i < length l)%nat → (i < length r)%nat →
  bit_at (zip_with f l r) i = f (bit_at l i) (bit_at r i).
Proof.
  intros [x Hx]%lookup_lt_is_Some_2 [y Hy]%lookup_lt_is_Some_2.
  unfold bit_at. by rewrite lookup_zip_with, Hx, Hy.
Qed.

Lemma bit_list_ext_at l r :
  length l = length r → (∀ i, (i < length l)%nat → bit_at l i = bit_at r i) → l = r.
Proof.
  intros Hlen H. apply bit_list_ext; [done|]. intros i Hi. specialize (H i Hi).
  unfold bit_at in H.
  destruct (lookup_lt_is_Some_2 l i) as [x Hx]; [done|].
  destruct (lookup_lt_is_Some_2 r i) as [y Hy]; [lia|].
  rewrite Hx, Hy in H |- *. cbn in H. congruence.
Qed.

Lemma length_pad_eval f l r : length (pad_eval f l r) = (length l `max` length r)%nat.
Proof. unfold pad_eval. rewrite length_zip_with, !length_pad; lia. Qed.

Lemma bit_at_pad_eval f l r i :
  f false false = false → bit_at (pad_eval f l r) i = f (bit_at l i) (bit_at r i).
Proof.
  intros Hf. destruct (decide (i < length l `max` length r)%nat).
  - unfold pad_eval. rewrite bit_at_zip_with by (rewrite length_pad; lia).
    by rewrite !bit_at_pad.
  - by rewrite !bit_at_ge by (rewrite ?length_pad_eval; lia).
Qed.

Lemma bit_at_drop n l i : bit_at (drop n l) i = bit_at l (n + i).
Proof. unfold bit_at. by rewrite lookup_drop. Qed.

Lemma length_eval_list f fl fr l r :
  length (eval_list f fl fr l r) = (length l `max` length r)%nat.
Proof.
  unfold eval_list. apply length_pad.
  rewrite !length_app, length_zip_with. destruct fl, fr; rewrite ?length_drop; cbn; lia.
Qed.

Lemma fill_nil (b : bool) n l : (length l <= n)%nat → (if b then drop n l else []) = [].
Proof. intros. destruct b; [by apply drop_ge|done]. Qed.

Lemma bit_at_fill (b : bool) n l i :
  bit_at (if b then drop n l else []) i = b && bit_at l (n + i).
Proof. destruct b; [apply bit_at_drop|done]. Qed.

(** Where both operands are filled. *)
Lemma bit_at_eval_filled f l r i :
  bit_at (eval_list f true true l r) i =
  if decide (i < length l `min` length r)%nat then f (bit_at l i) (bit_at r i) else bit_at l i || bit_at r i.
Proof.
  unfold eval_list. rewrite bit_at_pad, !bit_at_app, length_zip_with. case_decide; [by rewrite bit_at_zip_with by lia|].
  rewrite length_drop, !bit_at_drop. case_decide.
  - rewrite (bit_at_ge r i), orb_false_r by lia. f_equal. lia.
  - rewrite (bit_at_ge l i) by lia. cbn [orb]. f_equal. lia.
Qed.

(** The fill flags are right when [f] with a 0-bit is the other operand
    (filled) or 0 (not filled). *)
Lemma eval_list_pad_eval f fl fr l r :
  f false false = false →
  (∀ b, f b false = fl && b) → (∀ b, f false b = fr && b) →
  eval_list f fl fr l r = pad_eval f l r.
Proof.
  intros H0 Hl Hr. apply bit_list_ext_at.
  { by rewrite length_eval_list, length_pad_eval. }
  intros i _. rewrite bit_at_pad_eval by done. unfold eval_list.
  rewrite bit_at_pad, !bit_at_app, length_zip_with. case_decide.
  { by rewrite bit_at_zip_with by lia. }
  destruct (decide (length l <= length r)%nat).
  - rewrite (fill_nil fl _ l) by lia. cbn [length]. rewrite decide_False by lia.
    rewrite bit_at_fill, (bit_at_ge l i), Hr by lia. do 2 f_equal. lia.
  - rewrite (fill_nil fr _ r), <- bit_at_app, app_nil_r by lia.
    rewrite bit_at_fill, (bit_at_ge r i), Hl by lia. do 2 f_equal. lia.
Qed.
End lists.

(** ** [binary_eval] *)

(** [op] on words acts as [f] on every bit. *)
Definition bitwise (op : N → N → N) (f : bool → bool → bool) : Prop :=
  ∀ x y, is_u64 x → is_u64 y →
    is_u64 (op x y) ∧ ∀ i, i < 64 → N.testbit (op x y) i = f (N.testbit x i) (N.testbit y i).

Lemma zip_with_app_drop (f : bool → bool → bool) a b l r :
  zip_with f (a ++ l) (b ++ r) =
  zip_with f a b ++ zip_with f (drop (length b) a ++ l) (drop (length a) b ++ r).
Proof.
  revert b. induction a as [|x a IH]; intros [|y b]; cbn [app drop length zip_with]; try done.
  f_equal. apply IH.
Qed.

Lemma drop_app_drop (a b l r : list bool) :
  drop (length (b ++ r)) (a ++ l) =
  drop (length (drop (length a) b ++ r)) (drop (length b) a ++ l).
Proof.
  rewrite !length_app, !drop_app, !length_drop, drop_drop.
  f_equal; [|f_equal; lia].
  destruct (decide (length b <= length a)%nat).
  - f_equal. lia.
  - rewrite !drop_ge by lia. done.
Qed.

Section eval.
Context (op : N → N → N) (f : bool → bool → bool) (Hop : bitwise op f).
Import bitmap_algorithms.

Lemma bitwise_run x y :
  x = word.none ∨ x = word.all → y = word.none ∨ y = word.all →
  (op x y = word.none ∨ op x y = word.all) ∧
  (op x y =? word.all) = f (x =? word.all) (y =? word.all).
Proof.
  intros Hx Hy.
  assert (is_u64 x) by (by destruct Hx as [-> | ->]).
  assert (is_u64 y) by (by destruct Hy as [-> | ->]).
  destruct (Hop x y) as [Hu Hbit]; [done..|].
  assert (∀ z i, z = word.none ∨ z = word.all → i < 64 → N.testbit z i = (z =? word.all)) as Hconst.
  { intros z i [-> | ->] Hi; [apply N.bits_0|]. rewrite testbit_all. by apply N.ltb_lt. }
  assert (op x y = if f (x =? word.all) (y =? word.all) then word.all else word.none) as ->.
  { apply u64_ext; [done|by destruct (f _ _)|]. intros i Hi. rewrite Hbit, !Hconst by done.
    destruct (f _ _); [|by rewrite N.bits_0]. rewrite testbit_all. symmetry. by apply N.ltb_lt. }
  destruct (f _ _); auto.
Qed.

(** Where both sequences fit a word. *)
Lemma eval_words x y k :
  is_u64 x → is_u64 y → k <= 64 →
  bits.to_list (bits.make (op x y) k) = zip_with f (bits_of x k) (bits_of y k).
Proof.
  intros Hx Hy Hk. rewrite bits_make_to_list by done. symmetry.
  apply zip_with_bits_of. intros i Hi. apply Hop; [done..|lia].
Qed.

Lemma bits_of_run x k : x = word.none ∨ x = word.all → k <= 64 → bits_of x k = reps k (x =? word.all).
Proof. intros [-> | ->] ?; [apply bits_of_none|by apply bits_of_all]. Qed.

(** The first [k] bits of a sequence, read off its data word. *)
Lemma bits_take_data b k :
  bits.wf b → k <= bits.size b → k <= 64 →
  take (N.to_nat k) (bits.to_list b) = bits_of (bits.data b) k.
Proof.
  intros Hwf Hk Hk'. destruct (N.lt_ge_cases 64 (bits.size b)).
  - destruct (bits_to_list_run b Hwf) as [-> Hd]; [done|].
    by rewrite take_reps, bits_of_run.
  - by rewrite bits_to_list_word, take_bits_of.
Qed.

Lemma zip_with_min {A B C} (g : A → B → C) l r :
  zip_with g l r = zip_with g (take (length l `min` length r) l) (take (length l `min` length r) r).
Proof. revert r. induction l as [|x l IH]; intros [|y r]; cbn; [done..|]. f_equal. apply IH. Qed.

Lemma eval_make_spec lb rb :
  bits.wf lb → bits.wf rb →
  let out := bits.make (op (bits.data lb) (bits.data rb)) (N.min (bits.size lb) (bits.size rb)) in
  bits.wf out ∧ bits.to_list out = zip_with f (bits.to_list lb) (bits.to_list rb).
Proof.
  intros Hl Hr out. pose proof (bits_wf_data lb Hl). pose proof (bits_wf_data rb Hr).
  destruct (Hop (bits.data lb) (bits.data rb)) as [Hu _]; [done..|].
  pose proof Hl as (_ & Hls & _). pose proof Hr as (_ & Hrs & _).
  unfold out. destruct (N.le_gt_cases (N.min (bits.size lb) (bits.size rb)) 64) as [Hk|Hk].
  - split; [apply bits_make_wf; auto with u64db|].
    rewrite eval_words by done.
    rewrite (zip_with_min f (bits.to_list lb)), !bits_length, <- N2Nat.inj_min.
    by rewrite !bits_take_data by (done || lia).
  - destruct (bits_to_list_run lb Hl) as [-> Hld]; [lia|].
    destruct (bits_to_list_run rb Hr) as [-> Hrd]; [lia|].
    destruct (bitwise_run _ _ Hld Hrd) as [Hd Hall]. split.
    + apply bits_make_wf; auto. unfold is_u64, bits.size in *. lia.
    + rewrite bits_make_run, Hall, zip_with_min, !length_reps, <- N2Nat.inj_min by done.
      by rewrite !take_reps, zip_with_reps by lia.
Qed.

(** Dropping the common length drops the length of the other sequence. *)
Lemma bits_drop_min lb rb :
  bits.wf lb →
  bits.to_list (bits.drop lb (N.min (bits.size lb) (bits.size rb))) =
  drop (length (bits.to_list rb)) (bits.to_list lb).
Proof.
  intros Hl. rewrite bits_drop_spec, bits_length by done.
  destruct (N.le_gt_cases (bits.size rb) (bits.size lb)).
  - by rewrite N.min_r.
  - rewrite N.min_l by lia. rewrite !drop_ge by (rewrite bits_length; lia). done.
Qed.

Lemma eval_step_spec lb rb out lb' rb' :
  eval_step op lb rb = (out, lb', rb') → bits.wf lb → bits.wf rb →
  (bits.wf out ∧ bits.wf lb' ∧ bits.wf rb') ∧
  bits.to_list out = zip_with f (bits.to_list lb) (bits.to_list rb) ∧
  bits.to_list lb' = drop (length (bits.to_list rb)) (bits.to_list lb) ∧
  bits.to_list rb' = drop (length (bits.to_list lb)) (bits.to_list rb) ∧
  (bits.size lb' = 0 ∨ bits.size rb' = 0).
Proof.
  intros Hst Hl Hr.
  assert (∃ k, k = N.min (bits.size lb) (bits.size rb) ∧
    out = bits.make (op (bits.data lb) (bits.data rb)) k ∧
    lb' = bits.drop lb k ∧ rb' = bits.drop rb k) as (k & -> & -> & -> & ->).
  { unfold eval_step, bits.is_run, word.width in Hst.
    assert (∀ b, bits.drop b (bits.size b) = bits.nil) as Hnil.
    { intros b. unfold bits.drop. by rewrite N.ltb_irrefl. }
    destruct (N.ltb_spec 64 (bits.size_ lb)), (N.ltb_spec 64 (bits.size_ rb));
      cbn [andb negb] in Hst; simplify_eq; unfold bits.size in *;
      (eexists; split; [reflexivity|]);
      rewrite ?N.min_l by lia; rewrite ?N.min_r by lia; rewrite ?Hnil; done. }
  destruct (eval_make_spec lb rb Hl Hr) as [Hwf Hout].
  split; [split_and!; [done|by apply bits_drop_wf..]|]. split; [done|].
  split; [by apply bits_drop_min|]. split.
  { rewrite N.min_comm. by apply bits_drop_min. }
  destruct (N.le_gt_cases (bits.size rb) (bits.size lb)); [right|left];
    unfold bits.drop; rewrite (proj2 (N.ltb_ge _ _)) by lia; done.
Qed.
End eval.

Section eval_loop.
Import bitmap_algorithms.
Implicit Types p : bits.bits * list bits.bits.

(** What a current sequence and its iterator still hold. *)
Definition remaining p : list bool := bits.to_list p.1 ++ range_bits p.2.
Definition live p : Prop := bits.wf p.1 ∧ Forall bits.wf p.2 ∧ seqs_ok p.2.
Definition ready p : Prop := live p ∧ (bits.size p.1 = 0 → range_bits p.2 = []).
Definition seqs_left p : nat := length p.2 + (if bits.size p.1 =? 0 then 0 else 1).

Lemma ready_empty p : ready p → bits.size p.1 = 0 → remaining p = [].
Proof. intros [_ H] Hs. unfold remaining. by rewrite bits_to_list_nil, H. Qed.

Lemma refill_spec cur rest :
  live (cur, rest) →
  let p := refill cur rest in
  ready p ∧ remaining p = remaining (cur, rest) ∧
  (seqs_left p <= length rest + (if (bits.size cur =? 0)%N then 0 else 1))%nat.
Proof.
  intros Hlive. pose proof Hlive as (Hc & Hr & Hok). cbn [fst snd] in *. unfold refill.
  change (bits.empty cur) with (bits.size cur =? 0).
  destruct (N.eqb_spec (bits.size cur) 0) as [E|E].
  - destruct rest as [|x rest].
    + split; [done|]. split; [done|]. unfold seqs_left. cbn [fst snd]. by rewrite E.
    + apply Forall_cons_iff in Hr as [Hx Hr]. destruct Hok as [Hne Hok].
      split; [|split].
      * split; [done|]. cbn. destruct Hne as [-> |Hne]; [done|by intros].
      * unfold remaining. cbn [fst snd]. by rewrite (bits_to_list_nil cur), range_bits_cons.
      * unfold seqs_left. cbn [fst snd length]. destruct (bits.size x =? 0); lia.
  - split; [done|]. split; [done|]. unfold seqs_left. cbn [fst snd].
    by rewrite (proj2 (N.eqb_neq _ _) E).
Qed.

Context (op : N → N → N) (f : bool → bool → bool) (Hop : bitwise op f).
Context {R : Type} `{Bitmap R}.

(** One iteration. *)
Lemma eval_iter_spec (res : R) lb lr rb rr out lb' rb' :
  eval_step op lb rb = (out, lb', rb') →
  live (lb, lr) → live (rb, rr) → bm_wf res →
  bits.size lb ≠ 0 → bits.size rb ≠ 0 → lenN (bm_list res) + bits.size lb <= max_size →
  let res' := bitmap_base.append_seq res out in
  let lp := refill lb' lr in
  let rp := refill rb' rr in
  (bm_wf res' ∧ bm_list res' = bm_list res ++ zip_with f (bits.to_list lb) (bits.to_list rb)) ∧
  (ready lp ∧ remaining lp = drop (length (bits.to_list rb)) (bits.to_list lb) ++ range_bits lr) ∧
  (ready rp ∧ remaining rp = drop (length (bits.to_list lb)) (bits.to_list rb) ++ range_bits rr) ∧
  (seqs_left lp + seqs_left rp < seqs_left (lb, lr) + seqs_left (rb, rr))%nat.
Proof.
  intros Est (Hlb & Hlr & Hlok) (Hrb & Hrr & Hrok) Hres El Er Hmax. cbn zeta. cbn [fst snd] in *.
  destruct (eval_step_spec op f Hop _ _ _ _ _ Est Hlb Hrb)
    as ((Hwo & Hwl & Hwr) & Ho & Hl' & Hr' & Hdone).
  destruct (refill_spec lb' lr) as (Hrl & -> & Hsl); [done|].
  destruct (refill_spec rb' rr) as (Hrr' & -> & Hsr); [done|].
  unfold remaining. cbn [fst snd]. rewrite Hl', Hr', <- Ho. split; [|split_and!; try done].
  - apply append_seq_spec; [done..|]. enough (bits.size out <= bits.size lb) by lia.
    rewrite <- !bits_lenN, Ho. unfold lenN. rewrite length_zip_with. lia.
  - unfold seqs_left in Hsl, Hsr |- *. cbn [fst snd] in *.
    rewrite (proj2 (N.eqb_neq _ _) El), (proj2 (N.eqb_neq _ _) Er).
    destruct Hdone as [E|E]; rewrite E in *; cases_N; lia.
Qed.

(** The loop has nothing to do when an operand is used up. *)
Lemma eval_stop (res : R) lp rp :
  ready lp → ready rp → bm_wf res → bits.size lp.1 = 0 ∨ bits.size rp.1 = 0 →
  bm_wf res ∧ live lp ∧ live rp ∧
  bm_list res = bm_list res ++ zip_with f (remaining lp) (remaining rp) ∧
  remaining lp = drop (length (remaining rp)) (remaining lp) ∧
  remaining rp = drop (length (remaining lp)) (remaining rp).
Proof.
  intros Hl Hr Hres Hor.
  assert (remaining lp = [] ∨ remaining rp = []) as [E|E]
    by (destruct Hor; [left|right]; by apply ready_empty);
    rewrite E, ?zip_with_nil_r; cbn [zip_with length]; rewrite drop_nil, app_nil_r;
    split_and!; try done; (apply Hl || apply Hr).
Qed.

Lemma eval_loop_spec fuel (res : R) lb lr rb rr :
  ready (lb, lr) → ready (rb, rr) → bm_wf res →
  (seqs_left (lb, lr) + seqs_left (rb, rr) <= fuel)%nat →
  lenN (bm_list res) + lenN (remaining (lb, lr)) <= max_size →
  ∃ res' lp rp,
    eval_loop op fuel res lb lr rb rr = (res', lp, rp) ∧
    bm_wf res' ∧ live lp ∧ live rp ∧
    bm_list res' = bm_list res ++ zip_with f (remaining (lb, lr)) (remaining (rb, rr)) ∧
    remaining lp = drop (length (remaining (rb, rr))) (remaining (lb, lr)) ∧
    remaining rp = drop (length (remaining (lb, lr))) (remaining (rb, rr)).
Proof.
  revert res lb lr rb rr.
  induction fuel as [|fuel IH]; intros res lb lr rb rr Hl Hr Hres Hf Hmax.
  { exists res, (lb, lr), (rb, rr). split; [done|]. apply eval_stop; try done.
    unfold seqs_left in Hf. cbn [fst snd] in *. cases_N; lia. }
  cbn [eval_loop]. change (bits.empty ?b) with (bits.size b =? 0).
  destruct (N.eqb_spec (bits.size lb) 0) as [El|El]; cbn [negb andb].
  { exists res, (lb, lr), (rb, rr). split; [done|]. apply eval_stop; auto. }
  destruct (N.eqb_spec (bits.size rb) 0) as [Er|Er]; cbn [negb andb].
  { exists res, (lb, lr), (rb, rr). split; [done|]. apply eval_stop; auto. }
  destruct (eval_step op lb rb) as [[out lb'] rb'] eqn:Est.
  unfold remaining in Hmax. cbn [fst snd] in Hmax. autorewrite with lendb in Hmax.
  destruct (eval_iter_spec res lb lr rb rr out lb' rb' Est)
    as ((Hres' & Hlist') & (Hrl & Hleft) & (Hrr & Hright) & Hless);
    [apply Hl|apply Hr|done..|lia|].
  destruct (refill lb' lr) as [lb1 lr1], (refill rb' rr) as [rb1 rr1].
  destruct (IH (bitmap_base.append_seq res out) lb1 lr1 rb1 rr1)
    as (res' & lp & rp & Heq & Hwf & Hlp & Hrp & Hb & Hlrem & Hrrem); try done; [lia| |].
  { rewrite Hlist', Hleft. autorewrite with lendb. unfold lenN in *.
    rewrite length_zip_with, length_drop, !bits_length in *. lia. }
  exists res', lp, rp. split; [done|]. split; [done|]. split; [done|]. split; [done|].
  rewrite Hb, Hlist', Hlrem, Hrrem, Hleft, Hright, <- app_assoc.
  unfold remaining. cbn [fst snd]. rewrite (zip_with_app_drop f (bits.to_list lb)).
  split; [done|]. by rewrite <- !drop_app_drop.
Qed.
End eval_loop.

Section binary_eval.
Import bitmap_algorithms.

Lemma start_spec {B} `{Bitmap B} (bm : B) :
  bm_wf bm → ready (start bm) ∧ remaining (start bm) = bm_list bm.
Proof.
  intros Hwf. unfold start. destruct (bm_range_spec bm Hwf) as (Hf & Hok & Hl).
  rewrite bitmap_empty_spec by done. case_bool_decide as E.
  - rewrite E in *. split; [|done]. split; [|done]. split; [apply bits_wf_nil|done].
  - destruct (bit_range bm) as [|x xs]; [by rewrite <- Hl in E|].
    apply Forall_cons_iff in Hf as [Hx Hf]. destruct Hok as [Hne Hok]. split; [|done].
    split; [done|]. cbn. destruct Hne as [-> |Hne]; [done|by intros].
Qed.

Context {R L H : Type} `{Bitmap R, Bitmap L, Bitmap H}.

Lemma fill_spec flag (res : R) p :
  bm_wf res → live p → lenN (bm_list res) + lenN (remaining p) <= max_size →
  bm_wf (fill flag res p) ∧
  bm_list (fill flag res p) = bm_list res ++ (if flag then remaining p else []).
Proof.
  destruct p as [cur rest]. intros Hres (Hc & Hr & _) Hmax. cbn [fst snd] in *.
  unfold fill. destruct flag; [|by rewrite app_nil_r]. cbn [fst snd].
  assert (remaining (cur, rest) = range_bits (cur :: rest)) as Hrem by done.
  change (bits.empty cur) with (bits.size cur =? 0).
  destruct (N.eqb_spec (bits.size cur) 0) as [E|E]; cbn [negb].
  - rewrite Hrem, range_bits_cons, bits_to_list_nil in * by done. by apply append_seqs_spec.
  - rewrite Hrem in *. apply (append_seqs_spec res (cur :: rest)); [done| |done].
    by constructor.
Qed.

Lemma fill_length (fl fr : bool) (l r : list bool) :
  (length (if fl then drop (length r) l else []) +
   length (if fr then drop (length l) r else []) +
   length l `min` length r <= length l `max` length r)%nat.
Proof. destruct fl, fr; rewrite ?length_drop; cbn; lia. Qed.

Lemma binary_eval_spec op f fl fr (lhs : L) (rhs : H) :
  bitwise op f → bm_wf lhs → bm_wf rhs →
  bm_wf (binary_eval (R:=R) fl fr lhs rhs op) ∧
  bm_list (binary_eval (R:=R) fl fr lhs rhs op) =
  eval_list f fl fr (bm_list lhs) (bm_list rhs).
Proof.
  intros Hop Hl Hr. unfold binary_eval.
  pose proof (bm_max lhs Hl) as Hml. pose proof (bm_max rhs Hr) as Hmr.
  destruct (start_spec lhs Hl) as [Hsl El], (start_spec rhs Hr) as [Hsr Er].
  destruct (start lhs) as [lb lr], (start rhs) as [rb rr].
  destruct (bm_nil_spec (B:=R)) as [Hnil Enil].
  destruct (eval_loop_spec op f Hop (S (S (length lr + length rr))) (bm_nil : R) lb lr rb rr)
    as (res & lp & rp & -> & Hres & Hlp & Hrp & Hb & Hbl & Hbr); try done.
  { unfold seqs_left. cbn [fst snd]. cases_N; lia. }
  { by rewrite El, Enil. }
  rewrite El, Er, Enil in *. cbn [app] in Hb.
  pose proof (fill_length fl fr (bm_list lhs) (bm_list rhs)) as Hlen.
  pose proof (length_zip_with f (bm_list lhs) (bm_list rhs)) as Hzip.
  unfold lenN in Hml, Hmr.
  destruct (fill_spec fl res lp Hres Hlp) as [Hw1 Hb1].
  { unfold lenN. rewrite Hb, Hbl, length_drop. lia. }
  destruct (fill_spec fr _ rp Hw1 Hrp) as [Hw2 Hb2].
  { unfold lenN. rewrite Hb1, length_app, Hb, Hbr, Hbl, length_drop.
    destruct fl; rewrite ?length_drop; cbn; lia. }
  rewrite Hb1, Hb, Hbl, Hbr, <- app_assoc in Hb2. rewrite !bm_size_spec by done.
  set (res2 := fill fr (fill fl res lp) rp) in *.
  destruct (bm_append_bits_spec res2 false
    (N.max (lenN (bm_list lhs)) (lenN (bm_list rhs)) - lenN (bm_list res2)) Hw2)
    as [Hw3 Hb3]; [rewrite Hb2; unfold lenN; rewrite !length_app; lia|].
  split; [done|]. rewrite Hb3, Hb2. unfold eval_list, pad, reps. do 2 f_equal. unfold lenN. lia.
Qed.

Lemma bitwise_and : bitwise (λ x y, x &u y) andb.
Proof. intros x y Hx Hy. split; [auto with u64db|]. intros. apply N.land_spec. Qed.
Lemma bitwise_or : bitwise (λ x y, x |u y) orb.
Proof. intros x y Hx Hy. split; [auto with u64db|]. intros. apply N.lor_spec. Qed.
Lemma bitwise_xor : bitwise (λ x y, x ^u y) xorb.
Proof. intros x y Hx Hy. split; [auto with u64db|]. intros. apply N.lxor_spec. Qed.
Lemma bitwise_nand : bitwise (λ x y, x &u (~u y)) (λ a b, a && negb b).
Proof. intros x y Hx Hy. split; [auto with u64db|]. intros. bitblast. Qed.
Lemma bitwise_nor : bitwise (λ x y, x |u (~u y)) (λ a b, a || negb b).
Proof. intros x y Hx Hy. split; [auto with u64db|]. intros. bitblast. Qed.

Lemma binary_eval_pad op f fl fr (lhs : L) (rhs : H) :
  bitwise op f → f false false = false →
  (∀ b, f b false = fl && b) → (∀ b, f false b = fr && b) →
  bm_wf lhs → bm_wf rhs →
  bm_wf (binary_eval (R:=R) fl fr lhs rhs op) ∧
  bm_list (binary_eval (R:=R) fl fr lhs rhs op) = pad_eval f (bm_list lhs) (bm_list rhs).
Proof.
  intros Hop Hff Hf0 Hf1 Hl Hr. rewrite <- (eval_list_pad_eval f fl fr) by done.
  by apply binary_eval_spec.
Qed.

Lemma binary_and_spec (lhs : L) (rhs : H) :
  bm_wf lhs → bm_wf rhs →
  bm_wf (binary_and (R:=R) lhs rhs) ∧
  bm_list (binary_and (R:=R) lhs rhs) = pad_eval andb (bm_list lhs) (bm_list rhs).
Proof. apply binary_eval_pad; [apply bitwise_and|done|by intros []..]. Qed.

Lemma binary_or_spec (lhs : L) (rhs : H) :
  bm_wf lhs → bm_wf rhs →
  bm_wf (binary_or (R:=R) lhs rhs) ∧
  bm_list (binary_or (R:=R) lhs rhs) = pad_eval orb (bm_list lhs) (bm_list rhs).
Proof. apply binary_eval_pad; [apply bitwise_or|done|by intros []..]. Qed.

Lemma binary_xor_spec (lhs : L) (rhs : H) :
  bm_wf lhs → bm_wf rhs →
  bm_wf (binary_xor (R:=R) lhs rhs) ∧
  bm_list (binary_xor (R:=R) lhs rhs) = pad_eval xorb (bm_list lhs) (bm_list rhs).
Proof. apply binary_eval_pad; [apply bitwise_xor|done|by intros []..]. Qed.

Lemma binary_nand_spec (lhs : L) (rhs : H) :
  bm_wf lhs → bm_wf rhs →
  bm_wf (binary_nand (R:=R) lhs rhs) ∧
  bm_list (binary_nand (R:=R) lhs rhs) =
  pad_eval (λ a b, a && negb b) (bm_list lhs) (bm_list rhs).
Proof. apply binary_eval_pad; [apply bitwise_nand|done|by intros []..]. Qed.

(** [binary_nor] keeps the bits of the longer operand as they are. *)
Lemma binary_nor_spec (lhs : L) (rhs : H) :
  bm_wf lhs → bm_wf rhs →
  bm_wf (binary_nor (R:=R) lhs rhs) ∧
  bm_list (binary_nor (R:=R) lhs rhs) =
  eval_list (λ a b, a || negb b) true true (bm_list lhs) (bm_list rhs).
Proof. apply binary_eval_spec, bitwise_nor. Qed.

End binary_eval.

(** ** Rank, select and frame *)

Section ranks.
Import bitmap_algorithms.

Lemma seq_count_spec bit b :
  bits.wf b → seq_count bit b = count_bit bit (bits.to_list b).
Proof.
  intros. unfold seq_count. rewrite bits_rank_spec by done. destruct bit; [done|].
  by rewrite (count_bit_negb false), bits_lenN.
Qed.

Lemma rank_loop_spec bit i n res rng :
  Forall bits.wf rng → n <= i → i < n + lenN (range_bits rng) →
  rank_loop bit i n res rng =
  res + count_bit bit (take (N.to_nat (i - n + 1)) (range_bits rng)).
Proof.
  intros Hrng. revert n res. induction Hrng as [|b rng Hb _ IH]; intros n res Hn Hi.
  { change (lenN (range_bits [])) with 0 in Hi. lia. }
  rewrite range_bits_cons in *. autorewrite with lendb in Hi. cbn [rank_loop].
  rewrite (proj2 (N.leb_le n i)) by done. cbn [andb].
  destruct (N.ltb_spec i (n + bits.size b)).
  - rewrite bits_rank_upto_spec by (done || lia).
    by rewrite take_app_le by (rewrite bits_length; lia).
  - rewrite IH, seq_count_spec by (done || lia).
    rewrite take_app_ge, count_bit_app, bits_length by (rewrite bits_length; lia).
    rewrite <- N.add_assoc. do 4 f_equal. lia.
Qed.

Lemma select_last_loop_spec n last rng :
  Forall bits.wf rng → n + lenN (range_bits rng) <= max_size →
  select_last_loop n last rng =
  match last_bit true (range_bits rng) with Some i => n + i | None => last end.
Proof.
  intros Hrng. revert n last. induction Hrng as [|b rng Hb _ IH]; intros n last Hmax; [done|].
  rewrite range_bits_cons in *. autorewrite with lendb in Hmax. cbn [select_last_loop].
  rewrite IH, bits_find_last_spec, last_bit_app, bits_lenN by (done || lia).
  destruct (last_bit true (range_bits rng)); [lia|].
  destruct (last_bit true (bits.to_list b)) as [i|] eqn:E; unfold or_npos; cbn [from_option id]; [|done].
  apply last_bit_lt in E. rewrite bits_lenN in E.
  rewrite (proj2 (N.eqb_neq i word.npos)); [done|]. npos_lia.
Qed.

Lemma bm_select_loop_spec bit i rnk n rng :
  Forall bits.wf rng → rnk < i →
  select_loop bit i rnk n rng =
  or_npos (N.add n <$> nth_bit bit (i - rnk) (range_bits rng)).
Proof.
  intros Hrng. revert rnk n. induction Hrng as [|b rng Hb _ IH]; intros rnk n Hi; [done|].
  rewrite range_bits_cons. cbn [select_loop].
  rewrite seq_count_spec, nth_bit_app by (done || lia).
  destruct (N.leb_spec i (rnk + count_bit bit (bits.to_list b))).
  - rewrite (proj2 (N.leb_le _ _)) by lia.
    pose proof (count_bit_le bit (bits.to_list b)) as Hc. rewrite bits_lenN in Hc.
    rewrite bits_select_spec by (done || lia || right; right; lia).
    destruct (nth_bit bit (i - rnk) (bits.to_list b)) eqn:E; [done|].
    apply nth_bit_None_inv in E; lia.
  - rewrite (proj2 (N.leb_gt _ _)) by lia. rewrite IH by lia.
    replace (i - (rnk + count_bit bit (bits.to_list b)))
      with (i - rnk - count_bit bit (bits.to_list b)) by lia.
    rewrite bits_lenN. destruct (nth_bit _ _ (range_bits rng)); cbn; [lia|done].
Qed.

Lemma frame_last_spec bit n r rng :
  Forall bits.wf rng → n + lenN (range_bits rng) <= max_size →
  frame_last bit n r rng =
  match last_bit bit (range_bits rng) with Some i => (r.1, n + i) | None => r end.
Proof.
  intros Hrng. revert n r. induction Hrng as [|b rng Hb _ IH]; intros n r Hmax; [done|].
  rewrite range_bits_cons in *. autorewrite with lendb in Hmax. cbn [frame_last].
  rewrite IH, bits_find_last_spec, last_bit_app, bits_lenN by (done || lia).
  assert (∀ i, last_bit bit (bits.to_list b) = Some i → (i =? word.npos) = false) as Hne.
  { intros i E%last_bit_lt. rewrite bits_lenN in E. apply N.eqb_neq.
    npos_lia. }
  destruct (last_bit bit (range_bits rng)), (last_bit bit (bits.to_list b)); cbn;
    rewrite ?(Hne _ eq_refl); cbn; try done; f_equal; lia.
Qed.

Lemma frame_first_spec bit n rng :
  Forall bits.wf rng → n + lenN (range_bits rng) <= max_size →
  frame_first bit n rng =
  (or_npos (N.add n <$> first_bit bit (range_bits rng)),
   or_npos (N.add n <$> last_bit bit (range_bits rng))).
Proof.
  intros Hrng. revert n. induction Hrng as [|b rng Hb Hrng IH]; intros n Hmax; [done|].
  cbn [frame_first]. rewrite bits_find_first_spec by done.
  destruct (first_bit bit (bits.to_list b)) as [i|] eqn:E; unfold or_npos; cbn [from_option id].
  - pose proof (first_bit_lt _ _ _ E) as Hi. rewrite bits_lenN in Hi.
    rewrite range_bits_cons in Hmax |- *. autorewrite with lendb in Hmax.
    rewrite (proj2 (N.eqb_neq i word.npos)) by npos_lia.
    cbn [negb]. rewrite frame_last_spec; [|by constructor|].
    + rewrite range_bits_cons, first_bit_app, E. cbn.
      destruct (last_bit bit (bits.to_list b ++ range_bits rng)) eqn:El; [done|].
      rewrite last_bit_app in El. destruct (last_bit bit (range_bits rng)); [done|].
      by apply first_last_None in El; rewrite E in El.
    + rewrite range_bits_cons. autorewrite with lendb. lia.
  - rewrite range_bits_cons in *. autorewrite with lendb in Hmax. cbn.
    rewrite IH, first_bit_app, last_bit_app, E by lia.
    apply first_last_None in E. rewrite E, bits_lenN.
    destruct (first_bit bit (range_bits rng)), (last_bit bit (range_bits rng)); cbn;
      f_equal; lia.
Qed.
End ranks.

(** ** Quantifiers *)

Section quantifiers.
Import bitmap_algorithms.

Lemma not_elem_of_reps (bit : bool) l : bit ∉ l ↔ l = reps (lenN l) (negb bit).
Proof.
  unfold reps, lenN. rewrite Nat2N.id. induction l as [|x l IH]; [by split; [|intros _ ?%elem_of_nil]|].
  rewrite not_elem_of_cons, IH. cbn [length replicate]. split.
  - intros [Hne ->]. rewrite length_replicate. f_equal. by destruct bit, x.
  - intros [= -> E]. split; [by destruct bit|done].
Qed.

(** The word [any] looks at: the unused bits are not the bit searched for. *)
Definition any_word (bit : bool) (b : bits.bits) : N :=
  if bit then bits.data b
  else if bits.size b <? word.width
       then bits.data b |u word.msb_fill (word.width - bits.size b) else bits.data b.

Lemma any_word_spec bit b :
  bits.wf b → bits.size b <= 64 →
  is_u64 (any_word bit b) ∧
  bits_of (any_word bit b) 64 = bits.to_list b ++ reps (64 - bits.size b) (negb bit).
Proof.
  intros Hwf Hs. pose proof (bits_wf_data b Hwf). unfold any_word, word.width.
  destruct bit; [split; [done|by apply bits_word_pad]|].
  destruct (N.ltb_spec (bits.size b) 64).
  - split; [apply bound_of_testbit; intros; bitblast|].
    rewrite <- bits_word_pad_or by done. apply bits_of_ext. unfold word.width. intros. bitblast.
  - split; [done|]. rewrite bits_word_pad by done. by replace (64 - bits.size b) with 0 by lia.
Qed.

Lemma seq_any_word bit b :
  seq_any bit b = negb (any_word bit b =? if bit then word.none else word.all).
Proof. by destruct bit. Qed.

Lemma seq_any_spec bit b :
  bits.wf b → seq_any bit b = bool_decide (bit ∈ bits.to_list b).
Proof.
  intros Hwf. rewrite seq_any_word, <- (negb_involutive (bool_decide _)).
  rewrite <- bool_decide_not. f_equal.
  apply eq_true_iff_eq. rewrite N.eqb_eq, bool_decide_eq_true, not_elem_of_reps, bits_lenN.
  destruct (N.le_gt_cases (bits.size b) 64) as [Hs|Hs].
  - destruct (any_word_spec bit b Hwf Hs) as [Hu Hb].
    assert (bits_of (if bit then word.none else word.all) 64 = reps 64 (negb bit)) as Hrun
      by (by destruct bit).
    replace 64 with (bits.size b + (64 - bits.size b)) in Hrun at 2 by lia.
    rewrite reps_add in Hrun. split; intros E.
    + rewrite E, Hrun in Hb. by apply app_inv_tail in Hb.
    + apply bits_of_inj; [done|by destruct bit|]. by rewrite Hb, Hrun, E.
  - destruct (bits_to_list_run b Hwf Hs) as [-> Hd].
    assert (any_word bit b = bits.data b) as ->.
    { unfold any_word, word.width. rewrite (proj2 (N.ltb_ge _ _)) by lia. by destruct bit. }
    split; [by intros ->; destruct bit|]. unfold reps.
    replace (N.to_nat (bits.size b)) with (S (N.to_nat (N.pred (bits.size b)))) by lia.
    intros [= E _]. destruct bit, Hd as [Hd|Hd]; rewrite Hd in E |- *; done.
Qed.

Context {B : Type} `{Bitmap B}.
Implicit Types bm : B.

Lemma existsb_range bit xs :
  Forall bits.wf xs → existsb (seq_any bit) xs = bool_decide (bit ∈ range_bits xs).
Proof.
  induction 1 as [|x xs Hx _ IH]; [done|]. cbn [existsb].
  rewrite seq_any_spec, IH, range_bits_cons by done.
  apply eq_true_iff_eq. rewrite orb_true_iff, !bool_decide_eq_true, elem_of_app. done.
Qed.

Lemma any_spec bit bm : bm_wf bm → any bit bm = bool_decide (bit ∈ bm_list bm).
Proof.
  intros Hwf. unfold any. destruct (bm_range_spec bm Hwf) as (Hf & _ & Hl).
  rewrite bitmap_empty_spec by done. case_bool_decide as E; [by rewrite E|].
  by rewrite existsb_range, Hl.
Qed.

Lemma all_spec bit bm : bm_wf bm → all bit bm = bool_decide (Forall (eq bit) (bm_list bm)).
Proof.
  intros Hwf. unfold all. rewrite any_spec, <- bool_decide_not by done.
  apply bool_decide_ext. rewrite Forall_forall. setoid_rewrite <- list_elem_of_In. split.
  - intros Hn x Hx. destruct bit, x; try done; destruct (Hn Hx).
  - intros Hall Hin. specialize (Hall _ Hin). by destruct bit.
Qed.

Lemma rank_upto_spec bit bm i :
  bm_wf bm → i < bm_size bm →
  rank_upto bit bm i = count_bit bit (take (N.to_nat (i + 1)) (bm_list bm)).
Proof.
  intros Hwf Hi. rewrite bm_size_spec in Hi by done.
  destruct (bm_range_spec bm Hwf) as (Hf & _ & Hl). unfold rank_upto. rewrite <- Hl in *.
  rewrite rank_loop_spec by (done || lia). by rewrite N.sub_0_r.
Qed.

Lemma rank_spec bit bm : bm_wf bm → rank bit bm = count_bit bit (bm_list bm).
Proof.
  intros Hwf. unfold rank. rewrite bitmap_empty_spec by done.
  case_bool_decide as E; [by rewrite E|].
  assert (0 < bm_size bm).
  { rewrite bm_size_spec by done. destruct (bm_list bm); [done|]. rewrite lenN_cons. lia. }
  rewrite rank_upto_spec by (done || lia). rewrite take_ge; [done|].
  rewrite bm_size_spec by done. unfold lenN. lia.
Qed.

Lemma bm_select_spec bit bm i :
  bm_wf bm → 0 < i → i ≠ word.npos →
  select bit bm i = or_npos (nth_bit bit i (bm_list bm)).
Proof.
  intros Hwf Hi Hne. destruct (bm_range_spec bm Hwf) as (Hf & _ & Hl).
  unfold select. rewrite (proj2 (N.eqb_neq _ _)) by done.
  rewrite bm_select_loop_spec, Hl, N.sub_0_r by done. f_equal.
  by destruct (nth_bit bit i (bm_list bm)).
Qed.

Lemma select_last_spec bit bm :
  bm_wf bm → select bit bm word.npos = or_npos (last_bit true (bm_list bm)).
Proof.
  intros Hwf. destruct (bm_range_spec bm Hwf) as (Hf & _ & Hl). pose proof (bm_max bm Hwf).
  unfold select. rewrite N.eqb_refl, select_last_loop_spec, Hl by (done || by rewrite Hl).
  by destruct (last_bit true (bm_list bm)).
Qed.

Lemma frame_spec bit bm :
  bm_wf bm →
  frame bit bm = (or_npos (first_bit bit (bm_list bm)), or_npos (last_bit bit (bm_list bm))).
Proof.
  intros Hwf. destruct (bm_range_spec bm Hwf) as (Hf & _ & Hl). pose proof (bm_max bm Hwf).
  unfold frame. rewrite frame_first_spec, Hl by (done || by rewrite Hl).
  by destruct (first_bit bit (bm_list bm)), (last_bit bit (bm_list bm)).
Qed.
End quantifiers.

Lemma bit_at_true l i : bit_at l i = true ↔ l !! i = Some true.
Proof. unfold bit_at. destruct (l !! i) as [[]|]; naive_solver. Qed.

Lemma Forall_bit_at l : Forall (eq false) l ↔ ∀ i, bit_at l i = false.
Proof.
  rewrite Forall_lookup. split.
  - intros H i. unfold bit_at. destruct (l !! i) as [x|] eqn:E; [|done]. by rewrite <- (H i x).
  - intros H i x Hx. specialize (H i). unfold bit_at in H. by rewrite Hx in H.
Qed.

Lemma is_subset_spec {R L H} `{Bitmap R, Bitmap L, Bitmap H} (xs : L) (ys : H) :
  bm_wf xs → bm_wf ys →
  bitmap_algorithms.is_subset (R:=R) xs ys = true ↔
  ∀ i, bm_list xs !! i = Some true → bm_list ys !! i = Some true.
Proof.
  intros Hx Hy. unfold bitmap_algorithms.is_subset.
  destruct (binary_nand_spec (R:=R) xs ys Hx Hy) as [Hwf Hl].
  rewrite all_spec, Hl, bool_decide_eq_true, Forall_bit_at by done.
  apply forall_proper. intros i. rewrite bit_at_pad_eval, <- !bit_at_true by done.
  destruct (bit_at (bm_list xs) i), (bit_at (bm_list ys) i); naive_solver.
Qed.

(** ** [nary_eval] *)

(** What [std::priority_queue] promises: an element is taken off a non-empty
    queue. Which one is first (the bitmap of least size) only affects speed. *)
Definition queue_top {B} (top : list B → option (B * list B)) : Prop :=
  ∀ q, match top q with None => q = [] | Some (x, q') => q ≡ₚ x :: q' end.

Section nary.
Import bitmap_algorithms.
Context {B : Type} `{Bitmap B}.
Context (top : list B → option (B * list B)) (Htop : queue_top top).
Context (op : B → B → B) (f : bool → bool → bool) (e : bool).
Hypothesis Hop : ∀ x y, bm_wf x → bm_wf y →
  bm_wf (op x y) ∧ bm_list (op x y) = pad_eval f (bm_list x) (bm_list y).
Hypothesis Hf0 : f false false = false.
Hypothesis Hassoc : Assoc (=) f.
Hypothesis Hcomm : Comm (=) f.
Hypothesis Hunit : RightId (=) e f.

Definition nary_bit (q : list B) (i : nat) : bool :=
  foldr f e ((λ b, bit_at (bm_list b) i) <$> q).
Definition nary_length (q : list B) : nat :=
  foldr Nat.max 0%nat ((λ b, length (bm_list b)) <$> q).

Lemma nary_bit_perm q q' i : q ≡ₚ q' → nary_bit q i = nary_bit q' i.
Proof. intros Hq. unfold nary_bit. apply (foldr_permutation_proper' (=) f e), fmap_Permutation, Hq. Qed.

Lemma nary_length_perm q q' : q ≡ₚ q' → nary_length q = nary_length q'.
Proof.
  intros Hq. unfold nary_length.
  apply (foldr_permutation_proper (=) Nat.max 0%nat); [lia|]. by apply fmap_Permutation.
Qed.

Lemma nary_loop_spec fuel q :
  q ≠ [] → (length q <= fuel)%nat → Forall bm_wf q →
  let r := nary_loop top bm_nil op fuel q in
  bm_wf r ∧ length (bm_list r) = nary_length q ∧ ∀ i, bit_at (bm_list r) i = nary_bit q i.
Proof.
  revert q. induction fuel as [|fuel IH]; intros q Hne Hlen Hwf.
  { destruct q; [done|cbn in Hlen; lia]. }
  cbn [nary_loop]. pose proof (Htop q) as Hq. destruct (top q) as [[x q1]|]; [|done].
  rewrite Hq in Hwf. apply Forall_cons_iff in Hwf as [Hx Hq1].
  pose proof (Permutation_length Hq) as Hl. cbn [length] in Hl.
  pose proof (Htop q1) as Hq'. destruct (top q1) as [[y q2]|].
  - rewrite Hq' in Hq1. apply Forall_cons_iff in Hq1 as [Hy Hq2].
    apply Permutation_length in Hq' as Hl'. cbn [length] in Hl'.
    destruct (Hop x y Hx Hy) as [Hwf Hxy].
    destruct (IH (op x y :: q2)) as (Hr & Hrl & Hrb); [done|cbn; lia|by constructor|].
    split; [done|]. rewrite Hrl. rewrite (nary_length_perm q (x :: y :: q2)) by (by rewrite Hq, Hq').
    split; [|intros i; rewrite Hrb, (nary_bit_perm q (x :: y :: q2)) by (by rewrite Hq, Hq')].
    + unfold nary_length. cbn. rewrite Hxy, length_pad_eval. lia.
    + unfold nary_bit. cbn. by rewrite Hxy, bit_at_pad_eval, Hassoc by done.
  - subst q1. cbn zeta. split; [done|]. rewrite (nary_length_perm _ _ Hq). unfold nary_length.
    split; [cbn; lia|]. intros i. rewrite (nary_bit_perm _ _ i Hq). unfold nary_bit. cbn.
    by rewrite Hunit.
Qed.

Lemma nary_eval_spec q :
  q ≠ [] → Forall bm_wf q →
  let r := nary_eval top bm_nil op q in
  bm_wf r ∧ length (bm_list r) = nary_length q ∧ ∀ i, bit_at (bm_list r) i = nary_bit q i.
Proof. intros. by apply nary_loop_spec. Qed.
End nary.
