(* ===== verification/BitwiseRange.v ===== *)
(** The ranges over single bits: [bitwise_range], [select_range], [select_runs]
    and [select_with] of [libvast/include/vast/bitmap_algorithms.hpp].

    A range object over bit sequences is the list of the sequences it has not
    left yet, the current one first; it is done when the list is empty. *)

From S2P Require Import Prelude Word Bits BitmapConcept BitmapAlgorithms.

Module bitwise_range.

Record bitwise_range := mk { rng_ : list bits.bits; i_ : N; n_ : N }.

(** The constructor. *)
Definition make (rng : list bits.bits) : bitwise_range :=
  mk rng (match rng with [] => word.npos | _ => 0 end) 0.

Definition cur (r : bitwise_range) : bits.bits := List.hd bits.nil (rng_ r).
Definition offset (r : bitwise_range) : N := n_ r + i_ r.
Definition value (r : bitwise_range) : bool := bits.get (cur r) (i_ r).
Definition get (r : bitwise_range) : N := offset r.
Definition done (r : bitwise_range) : bool :=
  match rng_ r with [] => i_ r =? word.npos | _ => false end.

(** [next()] *)
Definition next (r : bitwise_range) : bitwise_range :=
  let i := i_ r +u 1 in
  if i =? bits.size (cur r) then
    let rng := List.tl (rng_ r) in
    mk rng (match rng with [] => word.npos | _ => 0 end) (n_ r + bits.size (cur r))
  else mk (rng_ r) i (n_ r).

(** The loop of [next(k)]. *)
Fixpoint next_loop (k n : N) (rng : list bits.bits) : bitwise_range :=
  match rng with
  | [] => mk [] word.npos n
  | b :: rest =>
      if 0 <? k then
        if k <=? bits.size b then mk rng (k - 1) n
        else next_loop (k - bits.size b) (n + bits.size b) rest
      else mk rng word.npos n
  end.

(** [next(k)] *)
Definition next_k (r : bitwise_range) (k : N) : bitwise_range :=
  let remaining_bits := bits.size (cur r) - i_ r - 1 in
  if k <=? remaining_bits then next (mk (rng_ r) (i_ r + (k - 1)) (n_ r))
  else next_loop (k - remaining_bits) (n_ r + bits.size (cur r)) (List.tl (rng_ r)).

(** The loop of [select<Bit>()]. *)
Fixpoint select_loop (bit : bool) (n : N) (rng : list bits.bits) : bitwise_range :=
  match rng with
  | [] => mk [] word.npos n
  | b :: rest =>
      let i := bits.find_first bit b in
      if i =? word.npos then select_loop bit (n + bits.size b) rest else mk rng i n
  end.

(** [select<Bit>()] *)
Definition select (bit : bool) (r : bitwise_range) : bitwise_range :=
  let i := bits.find_next bit (cur r) (i_ r) in
  if i =? word.npos then select_loop bit (n_ r + bits.size (cur r)) (List.tl (rng_ r))
  else mk (rng_ r) i (n_ r).

(** The loop of [select<Bit>(k)]. *)
Fixpoint select_k_loop (bit : bool) (k n : N) (rng : list bits.bits) : bitwise_range :=
  match rng with
  | [] => mk [] word.npos n
  | b :: rest =>
      let i := if k <=? bits.size b then bits.select bit b k else word.npos in
      if negb (i =? word.npos) then mk rng i n
      else select_k_loop bit (k -u bits.rank bit b) (n + bits.size b) rest
  end.

(** [select<Bit>(k)] *)
Definition select_k (bit : bool) (r : bitwise_range) (k : N) : bitwise_range :=
  let prev := bits.rank_upto bit (cur r) (i_ r) in
  let remaining := bits.rank bit (cur r) -u prev in
  if k <=? remaining then mk (rng_ r) (bits.select bit (cur r) (prev + k)) (n_ r)
  else select_k_loop bit (k - remaining) (n_ r + bits.size (cur r)) (List.tl (rng_ r)).

(** [select_from<Bit>(x)] *)
Definition select_from (bit : bool) (r : bitwise_range) (x : N) : bitwise_range :=
  let r := if offset r <? x then next_k r (x - offset r) else r in
  if done r then r
  else if eqb (value r) bit then r else select bit r.

End bitwise_range.

(** [each] *)
Definition each {B} `{BitmapOps B} (xs : B) : bitwise_range.bitwise_range :=
  bitwise_range.make (bit_range xs).

Module select_range.
Import bitwise_range.

(** The constructor; [bit] is the template parameter. *)
Definition make (bit : bool) (rng : list bits.bits) : bitwise_range :=
  let r := bitwise_range.make rng in
  if negb (done r) && negb (eqb (bits.get (cur r) 0) bit) then bitwise_range.select bit r else r.

Definition get (r : bitwise_range) : N := bitwise_range.get r.
Definition done (r : bitwise_range) : bool := bitwise_range.done r.
Definition next (bit : bool) (r : bitwise_range) : bitwise_range := bitwise_range.select bit r.
Definition next_k (bit : bool) (r : bitwise_range) (k : N) : bitwise_range :=
  bitwise_range.select_k bit r k.
Definition next_from (bit : bool) (r : bitwise_range) (x : N) : bitwise_range :=
  bitwise_range.select_from bit r x.

(** [select<Bit>(ids)] *)
Definition select {B} `{BitmapOps B} (bit : bool) (ids : B) : bitwise_range :=
  make bit (bit_range ids).

(** [for (auto id : select<Bit>(ids))]; a bitmap has no more bits of one value
    than its size. *)
Fixpoint collect (bit : bool) (fuel : nat) (r : bitwise_range) : list N :=
  match fuel with
  | O => []
  | S fuel => if done r then [] else get r :: collect bit fuel (next bit r)
  end.
Definition select_ids {B} `{BitmapOps B} (bit : bool) (ids : B) : list N :=
  collect bit (N.to_nat (bm_size ids)) (select bit ids).

End select_range.

(** [select_runs], as the sequence of [id_range]s it yields; every iteration
    moves forward by a bit or more. *)
Module select_runs.
Import bitwise_range.

Fixpoint runs_loop (bit : bool) (size : N) (fuel : nat) (r : bitwise_range) : list (N * N) :=
  match fuel with
  | O => []
  | S fuel =>
      if done r then []
      else
        let first := get r in
        let r := select (negb bit) r in
        if done r then [(first, size)]
        else
          let last := get r in
          (first, last) :: runs_loop bit size fuel (select bit r)
  end.

Definition select_runs {B} `{BitmapOps B} (bit : bool) (bitmap : B) : list (N * N) :=
  let r := each bitmap in
  let r := if negb (eqb (value r) bit) then select bit r else r in
  runs_loop bit (bm_size bitmap) (N.to_nat (bm_size bitmap)) r.
End select_runs.

(** [select_with]: [f] gives the interval of an element and [g] acts on a state
    and may fail. [std::lower_bound] on a range partitioned by its predicate
    skips the elements that satisfy it. *)
Module select_with.
Import bitwise_range.
Section select_with.
Context {A S E : Type} (f : A → N * N) (g : S → A → S * option E).

Fixpoint lower_bound (xs : list A) (y : N) : list A :=
  match xs with
  | [] => []
  | x :: xs' => if (f x).2 <=? y then lower_bound xs' y else xs
  end.

(** Every iteration leaves an interval behind, so their number is fuel enough. *)
Fixpoint with_loop (fuel : nat) (s : S) (rng : bitwise_range) (begin : list A)
    : S * option E :=
  match fuel with
  | O => (s, None)
  | Datatypes.S fuel =>
      if select_range.done rng then (s, None)
      else match begin with
      | [] => (s, None)
      | x :: _ =>
          let '(first, last) := f x in
          let rng :=
            if select_range.get rng <? first
            then select_range.next_from true rng first else rng in
          if select_range.done rng then (s, None)
          else if (first <=? select_range.get rng) && (select_range.get rng <? last) then
            match g s x with
            | (s, Some error) => (s, Some error)
            | (s, None) =>
                let rng := select_range.next_from true rng last in
                if select_range.done rng then (s, None)
                else with_loop fuel s rng (lower_bound begin (select_range.get rng))
            end
          else with_loop fuel s rng (lower_bound begin (select_range.get rng))
      end
  end.

Definition select_with {B} `{BitmapOps B} (s : S) (bm : B) (xs : list A) : S * option E :=
  with_loop (length xs) s (select_range.select true bm) xs.
End select_with.
End select_with.

(** ** Positions *)

Section positions.
Import bitwise_range.
Implicit Types (l : list bool) (p : N) (r : bitwise_range).

Definition seq_ok (b : bits.bits) : Prop := bits.wf b ∧ bits.size b ≠ 0.

(** The range is at position [p] of the bits [l]. *)
Inductive at_pos l : N → bitwise_range → Prop :=
| at_intro pre b rest i :
    l = pre ++ range_bits (b :: rest) → Forall seq_ok (b :: rest) → i < bits.size b →
    at_pos l (lenN pre + i) (mk (b :: rest) i (lenN pre)).

(** The range is where [o] says; [None] is the end. *)
Definition at_opt l (o : option N) r : Prop :=
  match o with Some p => at_pos l p r | None => rng_ r = [] ∧ i_ r = word.npos end.

(** The first position of [bit] that is not before [p]. *)
Definition next_pos (bit : bool) l p : option N :=
  N.add p <$> first_bit bit (drop (N.to_nat p) l).
(** The position [p], if there is one. *)
Definition in_range l p : option N := if p <? lenN l then Some p else None.

Context l (Hmax : lenN l <= max_size).

Lemma at_pos_lt p r : at_pos l p r → p < lenN l.
Proof.
  intros [pre b rest i -> _ Hi]. rewrite range_bits_cons. autorewrite with lendb. lia.
Qed.

Lemma at_pos_get p r : at_pos l p r → get r = p ∧ done r = false.
Proof. by intros [pre b rest i _ _ _]. Qed.

Lemma at_pos_value p r : at_pos l p r → l !! N.to_nat p = Some (value r).
Proof.
  intros [pre b rest i -> Hok Hi]. apply Forall_cons_iff in Hok as [[Hb _] _].
  rewrite lookup_app_r by (unfold lenN; lia). rewrite range_bits_cons.
  replace (N.to_nat (lenN pre + i) - length pre)%nat with (N.to_nat i) by (unfold lenN; lia).
  rewrite lookup_app_l by (rewrite bits_length; lia). by apply bits_get_spec.
Qed.

Lemma at_opt_done o r : at_opt l o r → done r = bool_decide (o = None).
Proof.
  destruct o as [p|]; cbn.
  - intros Hp. by destruct (at_pos_get p r Hp) as [_ ->].
  - intros [E1 E2]. unfold done. by rewrite E1, E2.
Qed.

(** At the beginning of the sequences [rest] behind [pre]. *)
Lemma at_opt_begin pre rest :
  l = pre ++ range_bits rest → Forall seq_ok rest →
  at_opt l (in_range l (lenN pre))
    (mk rest (match rest with [] => word.npos | _ => 0 end) (lenN pre)).
Proof.
  intros Hl Hok. unfold in_range. rewrite Hl at 2. autorewrite with lendb.
  destruct rest as [|b rest].
  - change (lenN (range_bits [])) with 0. by rewrite (proj2 (N.ltb_ge _ _)) by lia.
  - apply Forall_cons_iff in Hok as [Hb Hok]. rewrite range_bits_cons. autorewrite with lendb.
    destruct Hb as [Hb Hne]. rewrite (proj2 (N.ltb_lt _ _)) by lia.
    rewrite <- (N.add_0_r (lenN pre)) at 1. apply at_intro; [done|by constructor|lia].
Qed.

Lemma split_seq pre b rest :
  l = pre ++ range_bits (b :: rest) →
  l = (pre ++ bits.to_list b) ++ range_bits rest ∧
  lenN pre + bits.size b = lenN (pre ++ bits.to_list b).
Proof.
  intros ->. rewrite range_bits_cons, app_assoc. split; [done|]. by autorewrite with lendb.
Qed.

Lemma next_spec p r : at_pos l p r → at_opt l (in_range l (p + 1)) (next r).
Proof.
  intros Hp. pose proof (at_pos_lt p r Hp). destruct Hp as [pre b rest i Hl Hok Hi].
  unfold next. cbn [rng_ i_ n_ cur List.hd List.tl]. pose proof Hok as [_ Hrest]%Forall_cons_iff.
  destruct (split_seq pre b rest Hl) as [Hl' Hlen].
  rewrite wrap_small by (unfold max_size in *; lia).
  destruct (N.eqb_spec (i + 1) (bits.size b)) as [E|E].
  - rewrite <- N.add_assoc, E, Hlen. by apply at_opt_begin.
  - unfold in_range. rewrite (proj2 (N.ltb_lt _ _)).
    + cbn. rewrite <- N.add_assoc. apply at_intro; [done..|lia].
    + rewrite Hl'. autorewrite with lendb. lia.
Qed.

Lemma next_loop_spec k pre rest :
  0 < k → l = pre ++ range_bits rest → Forall seq_ok rest →
  at_opt l (in_range l (lenN pre + k - 1)) (next_loop k (lenN pre) rest).
Proof.
  intros Hk Hl Hok. revert k Hk pre Hl. induction Hok as [|b rest Hb Hok IH]; intros k Hk pre Hl.
  - unfold in_range. rewrite (proj2 (N.ltb_ge _ _)); [done|].
    rewrite Hl. autorewrite with lendb. change (lenN (range_bits [])) with 0. lia.
  - destruct (split_seq pre b rest Hl) as [Hl' Hlen]. cbn [next_loop].
    rewrite (proj2 (N.ltb_lt 0 k)) by done. destruct (N.leb_spec k (bits.size b)).
    + unfold in_range. rewrite (proj2 (N.ltb_lt _ _)).
      * cbn. rewrite <- N.add_sub_assoc by lia. apply at_intro; [done|by constructor|lia].
      * rewrite Hl'. autorewrite with lendb. lia.
    + rewrite Hlen. replace (lenN pre + k - 1)
        with (lenN (pre ++ bits.to_list b) + (k - bits.size b) - 1) by lia.
      apply IH; [lia|done].
Qed.

Lemma next_k_spec p r k :
  0 < k → at_pos l p r → at_opt l (in_range l (p + k)) (next_k r k).
Proof.
  intros Hk [pre b rest i Hl Hok Hi]. unfold next_k. cbn [rng_ i_ n_ cur List.hd List.tl].
  destruct (split_seq pre b rest Hl) as [Hl' Hlen].
  destruct (N.leb_spec k (bits.size b - i - 1)).
  - replace (lenN pre + i + k) with (lenN pre + (i + (k - 1)) + 1) by lia.
    apply next_spec, at_intro; [done..|lia].
  - rewrite Hlen. apply Forall_cons_iff in Hok as [_ Hok].
    replace (lenN pre + i + k) with
      (lenN (pre ++ bits.to_list b) + (k - (bits.size b - i - 1)) - 1) by lia.
    apply next_loop_spec; [lia|done..].
Qed.

(** The bits behind position [i] of the current sequence. *)
Lemma drop_in_seq pre b rest i :
  l = pre ++ range_bits (b :: rest) → i < bits.size b →
  drop (N.to_nat (lenN pre + i + 1)) l =
  drop (N.to_nat (i + 1)) (bits.to_list b) ++ range_bits rest.
Proof.
  intros Hl Hi. rewrite Hl, range_bits_cons, drop_app_ge by (unfold lenN; lia).
  rewrite drop_app_le by (rewrite bits_length; unfold lenN; lia).
  do 2 f_equal. unfold lenN. lia.
Qed.

Lemma seq_first_lt bit b i :
  first_bit bit (bits.to_list b) = Some i → i < bits.size b.
Proof. intros E%first_bit_lt. by rewrite bits_lenN in E. Qed.

Lemma range_select_loop_spec bit pre rest :
  l = pre ++ range_bits rest → Forall seq_ok rest →
  at_opt l (N.add (lenN pre) <$> first_bit bit (range_bits rest))
    (select_loop bit (lenN pre) rest).
Proof.
  intros Hl Hok. revert pre Hl. induction Hok as [|b rest Hb Hok IH]; intros pre Hl; [done|].
  destruct (split_seq pre b rest Hl) as [Hl' Hlen]. cbn [select_loop].
  rewrite bits_find_first_spec, range_bits_cons, first_bit_app, bits_lenN by apply Hb.
  destruct (first_bit bit (bits.to_list b)) as [i|] eqn:E; unfold or_npos; cbn [from_option id].
  - apply seq_first_lt in E. rewrite (proj2 (N.eqb_neq _ _)).
    + cbn. apply at_intro; [done|by constructor|done].
    + rewrite Hl' in Hmax. autorewrite with lendb in Hmax. npos_lia.
  - rewrite N.eqb_refl, Hlen. specialize (IH _ Hl').
    destruct (first_bit bit (range_bits rest)) as [j|]; [|done]. cbn [fmap option_fmap option_map] in *.
    by replace (lenN pre + (bits.size b + j)) with (lenN (pre ++ bits.to_list b) + j) by lia.
Qed.

Lemma select_spec bit p r : at_pos l p r → at_opt l (next_pos bit l (p + 1)) (select bit r).
Proof.
  intros [pre b rest i Hl Hok Hi]. unfold select. cbn [rng_ i_ n_ cur List.hd List.tl].
  destruct (split_seq pre b rest Hl) as [Hl' Hlen].
  pose proof Hok as [[Hb _] Hrest]%Forall_cons_iff. rewrite bits_find_next_spec by done.
  unfold next_pos. rewrite (drop_in_seq pre b rest i Hl Hi), first_bit_app.
  destruct (first_bit bit (drop _ (bits.to_list b))) as [j|] eqn:E; unfold or_npos;
    cbn [fmap option_fmap option_map from_option id].
  - apply first_bit_lt in E. unfold lenN in E. rewrite length_drop, bits_length in E.
    assert (i + 1 + j < bits.size b) by lia. rewrite (proj2 (N.eqb_neq _ _)).
    + cbn. replace (lenN pre + i + 1 + j) with (lenN pre + (i + 1 + j)) by lia. by apply at_intro.
    + rewrite Hl' in Hmax. autorewrite with lendb in Hmax. npos_lia.
  - rewrite N.eqb_refl, Hlen. pose proof (range_select_loop_spec bit _ _ Hl' Hrest) as IH.
    destruct (first_bit bit (range_bits rest)) as [j|]; [|done].
    cbn [fmap option_fmap option_map at_opt] in *.
    replace (lenN pre + i + 1 + (lenN (drop (N.to_nat (i + 1)) (bits.to_list b)) + j))
      with (lenN (pre ++ bits.to_list b) + j); [done|].
    autorewrite with lendb. unfold lenN. rewrite length_drop, bits_length. lia.
Qed.

Lemma next_pos_here bit p : l !! N.to_nat p = Some bit → next_pos bit l p = Some p.
Proof.
  intros Hp. unfold next_pos. rewrite (drop_S l bit) by done. cbn.
  rewrite eqb_reflx. cbn. f_equal. lia.
Qed.

Lemma next_pos_skip bit p x :
  l !! N.to_nat p = Some x → x ≠ bit → next_pos bit l p = next_pos bit l (p + 1).
Proof.
  intros Hp Hx. unfold next_pos. rewrite (drop_S l x) by done. cbn.
  rewrite (proj2 (eqb_false_iff x bit)) by done.
  replace (S (N.to_nat p)) with (N.to_nat (p + 1)) by lia.
  destruct (first_bit bit (drop (N.to_nat (p + 1)) l)); cbn; f_equal; lia.
Qed.

Lemma next_pos_end bit p : lenN l <= p → next_pos bit l p = None.
Proof. intros. unfold next_pos. rewrite drop_ge by (unfold lenN in *; lia). done. Qed.

(** Moving on unless the range is at [bit] already. *)
Lemma select_unless bit p r :
  at_pos l p r →
  at_opt l (next_pos bit l p) (if eqb (value r) bit then r else select bit r).
Proof.
  intros Hp. pose proof (at_pos_value p r Hp) as Hv.
  destruct (eqb_spec (value r) bit) as [E|E].
  - rewrite next_pos_here by congruence. done.
  - rewrite (next_pos_skip bit p _ Hv E). by apply select_spec.
Qed.

Lemma select_from_spec bit p r x :
  at_pos l p r → p <= x → at_opt l (next_pos bit l x) (select_from bit r x).
Proof.
  intros Hp Hx. unfold select_from. destruct (at_pos_get p r Hp) as [Hg Hd].
  fold (get r). rewrite Hg. destruct (N.ltb_spec p x).
  - pose proof (next_k_spec p r (x - p) ltac:(lia) Hp) as Hr.
    rewrite (at_opt_done _ _ Hr). replace (p + (x - p)) with x in Hr |- * by lia.
    unfold in_range in *. destruct (N.ltb_spec x (lenN l)).
    + rewrite bool_decide_eq_false_2 by done. by apply select_unless.
    + rewrite bool_decide_eq_true_2 by done. by rewrite next_pos_end.
  - replace x with p by lia. rewrite Hd. by apply select_unless.
Qed.
End positions.

(** [select<1>(k)] moves to the [k]-th 1-bit behind the current position. *)
Section select_many.
Import bitwise_range.
Context (l : list bool) (Hmax : lenN l <= max_size).

Lemma select_k_loop_spec k pre rest :
  0 < k → l = pre ++ range_bits rest → Forall seq_ok rest → k <= max_size →
  at_opt l (N.add (lenN pre) <$> nth_bit true k (range_bits rest))
    (select_k_loop true k (lenN pre) rest).
Proof.
  intros Hk Hl Hok. revert k Hk pre Hl.
  induction Hok as [|b rest Hb Hok IH]; intros k Hk pre Hl Hkm; [done|].
  destruct (split_seq l Hmax pre b rest Hl) as [Hl' Hlen]. cbn [select_k_loop].
  rewrite range_bits_cons, nth_bit_app, bits_lenN by done.
  pose proof (count_bit_le true (bits.to_list b)) as Hc. rewrite bits_lenN in Hc.
  assert (bits.size b <= max_size) as Hbs.
  { rewrite Hl' in Hmax. autorewrite with lendb in Hmax. lia. }
  destruct (N.leb_spec k (count_bit true (bits.to_list b))) as [Hin|Hout].
  - rewrite (proj2 (N.leb_le k (bits.size b))) by lia.
    rewrite bits_select_spec by (apply Hb || lia || auto).
    destruct (nth_bit true k (bits.to_list b)) as [i|] eqn:E; unfold or_npos; cbn [from_option id].
    + apply nth_bit_lt in E. rewrite bits_lenN in E.
      rewrite (proj2 (N.eqb_neq i word.npos)) by npos_lia.
      cbn. apply at_intro; [done|by constructor|done].
    + apply nth_bit_None_inv in E; lia.
  - replace (if k <=? bits.size b then bits.select true b k else word.npos) with word.npos.
    + rewrite N.eqb_refl. cbn [negb]. rewrite bits_rank_spec by apply Hb.
      rewrite usub_small by (unfold max_size in *; lia). rewrite Hlen.
      specialize (IH (k - count_bit true (bits.to_list b)) ltac:(lia) _ Hl' ltac:(lia)).
      destruct (nth_bit true _ (range_bits rest)) as [j|]; [|done].
      cbn [fmap option_fmap option_map at_opt] in *.
      by replace (lenN pre + (bits.size b + j)) with (lenN (pre ++ bits.to_list b) + j) by lia.
    + destruct (N.leb_spec k (bits.size b)); [|done].
      rewrite bits_select_spec by (apply Hb || lia || auto). by rewrite nth_bit_None.
Qed.

Lemma select_k_spec p r k :
  at_pos l p r → 0 < k → k <= max_size →
  at_opt l (N.add (p + 1) <$> nth_bit true k (drop (N.to_nat (p + 1)) l)) (select_k true r k).
Proof.
  intros [pre b rest i Hl Hok Hi] Hk Hkm. unfold select_k. cbn [rng_ i_ n_ cur List.hd List.tl].
  destruct (split_seq l Hmax pre b rest Hl) as [Hl' Hlen].
  pose proof Hok as [[Hb _] Hrest]%Forall_cons_iff.
  rewrite bits_rank_spec, bits_rank_upto_spec by done.
  rewrite (drop_in_seq l Hmax pre b rest i Hl Hi).
  set (done := take (N.to_nat (i + 1)) (bits.to_list b)).
  set (todo := drop (N.to_nat (i + 1)) (bits.to_list b)).
  assert (bits.to_list b = done ++ todo) as Hbits by (symmetry; apply take_drop).
  assert (lenN done = i + 1) as Hdone.
  { unfold done, lenN. rewrite length_take, bits_length. lia. }
  pose proof (count_bit_le true (bits.to_list b)) as Hc. rewrite bits_lenN in Hc.
  assert (bits.size b <= max_size) as Hbs.
  { rewrite Hl' in Hmax. autorewrite with lendb in Hmax. lia. }
  assert (bits.size b = i + 1 + lenN todo) as Hsz.
  { rewrite <- bits_lenN, Hbits, lenN_app. lia. }
  rewrite Hbits in Hc |- *. rewrite count_bit_app in Hc |- *.
  rewrite usub_small by (unfold max_size in *; lia).
  replace (count_bit true done + count_bit true todo - count_bit true done)
    with (count_bit true todo) by lia.
  rewrite nth_bit_app by done. destruct (N.leb_spec k (count_bit true todo)) as [Hin|Hout].
  - rewrite bits_select_spec by (done || lia || auto).
    rewrite Hbits, nth_bit_app by lia. rewrite (proj2 (N.leb_gt _ _)) by lia.
    replace (count_bit true done + k - count_bit true done) with k by lia.
    destruct (nth_bit true k todo) as [j|] eqn:E; [|apply nth_bit_None_inv in E; lia].
    apply nth_bit_lt in E. unfold or_npos. cbn [fmap option_fmap option_map from_option id at_opt].
    replace (lenN pre + i + 1 + j) with (lenN pre + (lenN done + j)) by lia.
    apply at_intro; [done..|lia].
  - pose proof (select_k_loop_spec (k - count_bit true todo) _ _ ltac:(lia) Hl' Hrest ltac:(lia)) as IH.
    rewrite Hlen. destruct (nth_bit true _ (range_bits rest)) as [j|]; [|done].
    cbn [fmap option_fmap option_map at_opt] in *.
    replace (lenN pre + i + 1 + (lenN todo + j)) with (lenN (pre ++ bits.to_list b) + j); [done|].
    autorewrite with lendb. lia.
Qed.
End select_many.

(** ** The ranges a client iterates over *)

(** The positions of [bit] in [l], counted from [n]. *)
Fixpoint positions_from (n : N) (bit : bool) (l : list bool) : list N :=
  match l with
  | [] => []
  | x :: l =>
      if eqb x bit then n :: positions_from (n + 1) bit l
      else positions_from (n + 1) bit l
  end.
Definition positions (bit : bool) (l : list bool) : list N := positions_from 0 bit l.

(** The maximal runs of [bit] in [l] as half-open intervals; [cur] is the start
    of a run that reaches up to [n]. *)
Fixpoint runs_from (n : N) (bit : bool) (l : list bool) (cur : option N) : list (N * N) :=
  match l with
  | [] => match cur with Some first => [(first, n)] | None => [] end
  | x :: l =>
      if eqb x bit then runs_from (n + 1) bit l (Some (default n cur))
      else match cur with
           | Some first => (first, n) :: runs_from (n + 1) bit l None
           | None => runs_from (n + 1) bit l None
           end
  end.
Definition runs (bit : bool) (l : list bool) : list (N * N) := runs_from 0 bit l None.

Section references.
Implicit Types (n j : N) (bit : bool) (l : list bool).

Lemma positions_from_None n bit l : first_bit bit l = None → positions_from n bit l = [].
Proof.
  revert n. induction l as [|x l IH]; intros n; cbn; [done|].
  destruct (eqb x bit); [done|]. intros E%fmap_None. by apply IH.
Qed.

Lemma positions_from_Some n bit l j :
  first_bit bit l = Some j →
  positions_from n bit l = (n + j) :: positions_from (n + j + 1) bit (drop (N.to_nat (j + 1)) l).
Proof.
  revert n j. induction l as [|x l IH]; intros n j; cbn; [done|].
  destruct (eqb x bit); [intros [= <-]; by rewrite N.add_0_r|].
  intros (i & E & ->)%fmap_Some. rewrite (IH _ i E).
  replace (N.to_nat (N.succ i + 1)) with (S (N.to_nat (i + 1))) by lia. cbn [drop].
  f_equal; [lia|]. f_equal. lia.
Qed.

Lemma runs_from_none n bit l : first_bit bit l = None → runs_from n bit l None = [].
Proof.
  revert n. induction l as [|x l IH]; intros n; cbn; [done|].
  destruct (eqb x bit); [done|]. intros E%fmap_None. by apply IH.
Qed.

Lemma runs_from_open n bit l j :
  first_bit bit l = Some j →
  runs_from n bit l None =
  runs_from (n + j + 1) bit (drop (N.to_nat (j + 1)) l) (Some (n + j)).
Proof.
  revert n j. induction l as [|x l IH]; intros n j; cbn; [done|].
  destruct (eqb x bit); [intros [= <-]; by rewrite N.add_0_r|].
  intros (i & E & ->)%fmap_Some. rewrite (IH _ i E).
  replace (N.to_nat (N.succ i + 1)) with (S (N.to_nat (i + 1))) by lia. cbn [drop].
  f_equal; [lia|]. f_equal. lia.
Qed.

Lemma eqb_negb_r x bit : eqb x (negb bit) = negb (eqb x bit).
Proof. by destruct x, bit. Qed.

Lemma runs_from_last n bit l first :
  first_bit (negb bit) l = None → runs_from n bit l (Some first) = [(first, n + lenN l)].
Proof.
  revert n. induction l as [|x l IH]; intros n; cbn [first_bit runs_from].
  - intros _. by rewrite lenN_nil, N.add_0_r.
  - rewrite eqb_negb_r. destruct (eqb x bit); cbn [negb]; [|done].
    intros E%fmap_None. cbn. rewrite IH by done. rewrite lenN_cons. do 2 f_equal. lia.
Qed.

Lemma runs_from_close n bit l first j :
  first_bit (negb bit) l = Some j →
  runs_from n bit l (Some first) =
  (first, n + j) :: runs_from (n + j + 1) bit (drop (N.to_nat (j + 1)) l) None.
Proof.
  revert n j. induction l as [|x l IH]; intros n j; cbn [first_bit runs_from]; [done|].
  rewrite eqb_negb_r. destruct (eqb x bit); cbn [negb].
  - intros (i & E & ->)%fmap_Some. cbn [from_option id]. rewrite (IH _ i E).
    replace (N.to_nat (N.succ i + 1)) with (S (N.to_nat (i + 1))) by lia. cbn [drop].
    do 2 f_equal; lia.
  - intros [= <-]. by rewrite N.add_0_r.
Qed.
End references.

Section clients.
Import bitwise_range.
Context (l : list bool) (Hmax : lenN l <= max_size).

Lemma next_pos_inv bit p q :
  next_pos bit l p = Some q →
  ∃ j, q = p + j ∧ first_bit bit (drop (N.to_nat p) l) = Some j ∧
    p <= q ∧ q < lenN l ∧ drop (N.to_nat (j + 1)) (drop (N.to_nat p) l) = drop (N.to_nat (q + 1)) l.
Proof.
  intros (j & E & ->)%fmap_Some. exists j. pose proof (first_bit_lt _ _ _ E) as Hj.
  unfold lenN in *. rewrite length_drop in Hj. rewrite drop_drop.
  split_and!; try done; try lia. f_equal. lia.
Qed.

Lemma range_collect_spec bit fuel p r :
  at_opt l (next_pos bit l p) r → (length l <= fuel + N.to_nat p)%nat →
  select_range.collect bit fuel r = positions_from p bit (drop (N.to_nat p) l).
Proof.
  revert p r. induction fuel as [|fuel IH]; intros p r Hr Hf.
  { rewrite drop_ge by lia. done. }
  cbn [select_range.collect]. unfold select_range.done. rewrite (at_opt_done _ _ _ Hr).
  destruct (next_pos bit l p) as [q|] eqn:E.
  - rewrite bool_decide_eq_false_2 by done. destruct (next_pos_inv bit p q E) as (j & -> & Ej & Hle & Hlt & Hd).
    rewrite (positions_from_Some _ _ _ _ Ej), Hd. destruct (at_pos_get _ _ _ Hr) as [Hg _].
    unfold select_range.get. rewrite Hg. f_equal. apply IH; [|unfold lenN in *; lia].
    by apply select_spec.
  - rewrite bool_decide_eq_true_2 by done. apply fmap_None in E. by rewrite positions_from_None.
Qed.

Lemma runs_loop_spec bit fuel p r :
  at_opt l (next_pos bit l p) r → (length l <= fuel + N.to_nat p)%nat →
  select_runs.runs_loop bit (lenN l) fuel r = runs_from p bit (drop (N.to_nat p) l) None.
Proof.
  revert p r. induction fuel as [|fuel IH]; intros p r Hr Hf.
  { rewrite drop_ge by lia. done. }
  cbn [select_runs.runs_loop]. rewrite (at_opt_done _ _ _ Hr).
  destruct (next_pos bit l p) as [q|] eqn:E;
    [|apply fmap_None in E; by rewrite runs_from_none].
  rewrite bool_decide_eq_false_2 by done.
  destruct (next_pos_inv bit p q E) as (j & -> & Ej & Hle & Hlt & Hd).
  rewrite (runs_from_open _ _ _ _ Ej), Hd. destruct (at_pos_get _ _ _ Hr) as [Hg _].
  rewrite Hg. pose proof (select_spec l Hmax (negb bit) _ _ Hr) as Hr'.
  rewrite (at_opt_done _ _ _ Hr').
  destruct (next_pos (negb bit) l (p + j + 1)) as [m|] eqn:E'.
  - rewrite bool_decide_eq_false_2 by done. destruct (at_pos_get _ _ _ Hr') as [Hg' _].
    destruct (next_pos_inv (negb bit) _ m E') as (k & -> & Ek & Hle' & Hlt' & Hd').
    rewrite (runs_from_close _ _ _ _ _ Ek), Hg', Hd'. f_equal.
    apply IH; [|unfold lenN in *; lia]. by apply select_spec.
  - rewrite bool_decide_eq_true_2 by done. apply fmap_None in E'.
    rewrite runs_from_last by done. do 2 f_equal. unfold lenN in *. rewrite length_drop. lia.
Qed.
End clients.

(** ** [select_with] *)

Section with_loop.
Import bitwise_range select_with.
Context {A S E : Type} (f : A → N * N) (g : S → A → S * option E).
Context (l : list bool) (Hmax : lenN l <= max_size).
Implicit Types (x : A) (xs : list A) (r : bitwise_range).

(** The interval of [x] contains a 1-bit. *)
Definition hit x : bool :=
  match next_pos true l (f x).1 with Some q => q <? (f x).2 | None => false end.

(** [g] on the elements in turn, up to the first error. *)
Fixpoint run_until_error (s : S) xs : S * option E :=
  match xs with
  | [] => (s, None)
  | x :: xs =>
      match g s x with
      | (s, Some error) => (s, Some error)
      | (s, None) => run_until_error s xs
      end
  end.

(** Half-open intervals in ascending order that do not overlap. *)
Fixpoint intervals_from (p : N) xs : Prop :=
  match xs with
  | [] => True
  | x :: xs => p <= (f x).1 ∧ (f x).1 <= (f x).2 ∧ intervals_from (f x).2 xs
  end.

Lemma intervals_from_le p p' xs : p' <= p → intervals_from p xs → intervals_from p' xs.
Proof. destruct xs; cbn; intuition lia. Qed.

(** The next 1-bit does not change when no 1-bit is skipped. *)
Lemma next_pos_between bit p p' :
  p <= p' → (∀ q, next_pos bit l p = Some q → p' <= q) → next_pos bit l p' = next_pos bit l p.
Proof.
  intros Hp. replace p' with (p + (p' - p)) by lia. clear Hp.
  induction (p' - p) as [|d IH] using N.peano_ind; intros Hq; [by rewrite N.add_0_r|].
  assert (next_pos bit l (p + d) = next_pos bit l p) as IH'.
  { apply IH. intros q Hq'. specialize (Hq q Hq'). lia. }
  rewrite <- IH'. replace (p + N.succ d) with (p + d + 1) in * by lia. symmetry.
  destruct (l !! N.to_nat (p + d)) as [x|] eqn:Ex.
  - destruct (decide (x = bit)) as [->|Hx]; [|by apply next_pos_skip with x].
    rewrite next_pos_here in IH' by done. specialize (Hq (p + d) (eq_sym IH')). lia.
  - apply lookup_ge_None in Ex. rewrite !next_pos_end by (unfold lenN in *; lia). done.
Qed.

Lemma next_pos_later bit p p' q :
  next_pos bit l p = Some q → p <= p' → p' <= q → next_pos bit l p' = Some q.
Proof. intros Hq Hp Hle. rewrite <- Hq. apply next_pos_between; [done|]. intros q' E'. congruence. Qed.

Lemma next_pos_ge bit p q : next_pos bit l p = Some q → p <= q.
Proof. intros (j & _ & ->)%fmap_Some. lia. Qed.

(** No interval that ends at or before the next 1-bit is hit. *)
Lemma not_hit p q x :
  next_pos true l p = Some q → p <= (f x).1 → (f x).2 <= q → (f x).1 <= (f x).2 → hit x = false.
Proof.
  intros Hq Hp Hle Hfx. unfold hit. rewrite (next_pos_later true p _ q) by (done || lia).
  by apply N.ltb_ge.
Qed.

Lemma no_hits p xs : next_pos true l p = None → intervals_from p xs → filter hit xs = [].
Proof.
  intros Hn. revert p Hn. induction xs as [|x xs IH]; intros p Hn; [done|].
  cbn [intervals_from]. intros (Hp & Hfx & Hxs).
  rewrite filter_cons_False.
  - apply (IH p Hn). eapply intervals_from_le; [|done]. lia.
  - unfold hit. rewrite (next_pos_between true p), Hn; [tauto|done|]. intros q Hq. congruence.
Qed.

Lemma lower_bound_spec p q xs :
  next_pos true l p = Some q → intervals_from p xs →
  filter hit (lower_bound f xs q) = filter hit xs ∧
  (∃ p', p <= p' ∧ next_pos true l p' = Some q ∧ intervals_from p' (lower_bound f xs q)) ∧
  (length (lower_bound f xs q) <= length xs)%nat.
Proof.
  intros Hq. revert p Hq. induction xs as [|x xs IH]; intros p Hq; cbn [lower_bound intervals_from].
  { intros _. split; [done|]. split; [by exists p|done]. }
  intros (Hp & Hfx & Hxs). destruct (N.leb_spec (f x).2 q).
  - destruct (IH (f x).2) as (Hf & (p' & Hp' & Hq' & Hi) & Hl).
    { apply (next_pos_later true p); done || lia. }
    { done. }
    rewrite Hf, (filter_cons_False _ x) by (rewrite (not_hit p q x Hq Hp) by done; tauto).
    split; [done|]. split; [exists p'; split; [lia|done]|cbn; lia].
  - split; [done|]. split; [by exists p|done].
Qed.

Lemma run_hit s x xs :
  hit x = true →
  run_until_error s (filter hit (x :: xs)) =
  match g s x with
  | (s, Some error) => (s, Some error)
  | (s, None) => run_until_error s (filter hit xs)
  end.
Proof. intros Hx. by rewrite filter_cons_True by (by rewrite Hx). Qed.

Lemma with_loop_done fuel s r xs : done r = true → with_loop f g fuel s r xs = (s, None).
Proof. intros Hr. destruct fuel; cbn; [done|]. unfold select_range.done. by rewrite Hr. Qed.

(** The range catches up with the interval of [x]. *)
Lemma catch_up p q r x :
  at_pos l q r → next_pos true l p = Some q → p <= (f x).1 →
  at_opt l (next_pos true l (f x).1)
    (if select_range.get r <? (f x).1 then select_range.next_from true r (f x).1 else r).
Proof.
  intros Hr Hq Hp. unfold select_range.get. destruct (at_pos_get _ _ _ Hr) as [-> _].
  destruct (N.ltb_spec q (f x).1); [by apply (select_from_spec l Hmax true q); [|lia]|].
  by rewrite (next_pos_later true p _ q).
Qed.

(** The interval of [x] lies behind the range, and so do others maybe. *)
Lemma lower_bound_behind x xs q :
  next_pos true l (f x).2 = Some q → intervals_from (f x).2 xs →
  ∃ p, next_pos true l p = Some q ∧ intervals_from p (lower_bound f (x :: xs) q) ∧
    filter hit (lower_bound f (x :: xs) q) = filter hit xs ∧
    (length (lower_bound f (x :: xs) q) <= length xs)%nat.
Proof.
  intros Hq Hxs. cbn [lower_bound]. rewrite (proj2 (N.leb_le _ _)) by (by eapply next_pos_ge).
  destruct (lower_bound_spec (f x).2 q xs Hq Hxs) as (? & (p & _ & ? & ?) & ?). by exists p.
Qed.

Lemma with_loop_spec fuel s p r xs :
  at_opt l (next_pos true l p) r → intervals_from p xs → (length xs <= fuel)%nat →
  with_loop f g fuel s r xs = run_until_error s (filter hit xs).
Proof.
  revert s p r xs. induction fuel as [|fuel IH]; intros s p r xs Hr Hxs Hf.
  { by destruct xs; [|cbn in Hf; lia]. }
  cbn [with_loop]. unfold select_range.done at 1. rewrite (at_opt_done _ _ _ Hr).
  destruct (next_pos true l p) as [q|] eqn:Eq;
    [rewrite bool_decide_eq_false_2 by done|
     rewrite bool_decide_eq_true_2 by done; by rewrite (no_hits p)].
  destruct xs as [|x xs]; [done|]. destruct Hxs as (Hp & Hfx & Hxs).
  pose proof (catch_up p q r x Hr Eq Hp) as Hr'. rewrite (surjective_pairing (f x)).
  set (r' := if _ <? _ then _ else r) in *. unfold select_range.done at 1.
  rewrite (at_opt_done _ _ _ Hr').
  destruct (next_pos true l (f x).1) as [q'|] eqn:Eq';
    [rewrite bool_decide_eq_false_2 by done|
     rewrite bool_decide_eq_true_2 by done].
  2: { rewrite (no_hits (f x).1); [done|done|]. cbn. split; [lia|done]. }
  unfold select_range.get. destruct (at_pos_get _ _ _ Hr') as [-> _].
  pose proof (next_pos_ge _ _ _ Eq') as Hge. rewrite (proj2 (N.leb_le _ _)) by done. cbn [andb].
  destruct (N.ltb_spec q' (f x).2) as [Hin|Hout].
  - rewrite run_hit by (unfold hit; rewrite Eq'; by apply N.ltb_lt).
    destruct (g s x) as [s' [error|]]; [done|].
    pose proof (select_from_spec l Hmax true q' r' (f x).2 Hr' ltac:(lia)) as Hr2.
    fold (select_range.next_from true r' (f x).2) in Hr2 |- *.
    unfold select_range.done. rewrite (at_opt_done _ _ _ Hr2).
    destruct (next_pos true l (f x).2) as [q2|] eqn:Eq2;
      [rewrite bool_decide_eq_false_2 by done|
       rewrite bool_decide_eq_true_2 by done; by rewrite (no_hits (f x).2)].
    destruct (at_pos_get _ _ _ Hr2) as [-> _].
    destruct (lower_bound_behind x xs q2 Eq2 Hxs) as (p' & Hp' & Hi & <- & Hl).
    apply (IH _ p'); [by rewrite Hp'|done|cbn in Hf; lia].
  - rewrite filter_cons_False by (unfold hit; rewrite Eq', (proj2 (N.ltb_ge _ _)); done || tauto).
    destruct (lower_bound_behind x xs q') as (p' & Hp' & Hi & <- & Hl); [|done|].
    { by apply (next_pos_later true (f x).1). }
    apply (IH _ p'); [by rewrite Hp'|done|cbn in Hf; lia].
Qed.
End with_loop.

(** ** Over a bitmap *)

Section bitmaps.
Import bitwise_range.
Context {B : Type} `{StrictRange B}.
Implicit Types bm : B.

Lemma strict_seqs bm :
  bm_wf bm → Forall seq_ok (bit_range bm) ∧ bm_list bm = [] ++ range_bits (bit_range bm).
Proof.
  intros Hwf. destruct (bm_range_spec bm Hwf) as (Hf & _ & Hl). split; [|done].
  apply Forall_and; [done|by apply strict_range].
Qed.

Lemma at_pos_0 l r : at_pos l 0 r → i_ r = 0.
Proof. inversion 1. cbn. lia. Qed.

Lemma each_spec bm : bm_wf bm → at_opt (bm_list bm) (in_range (bm_list bm) 0) (each bm).
Proof.
  intros Hwf. destruct (strict_seqs bm Hwf) as [Hok Hl].
  apply (at_opt_begin _ (bm_max bm Hwf) [] (bit_range bm)); done.
Qed.

Lemma select_range_spec bit bm :
  bm_wf bm → at_opt (bm_list bm) (next_pos bit (bm_list bm) 0) (select_range.select bit bm).
Proof.
  intros Hwf. pose proof (each_spec bm Hwf) as Hr. pose proof (bm_max bm Hwf) as Hmax.
  unfold select_range.select, select_range.make. fold (each bm).
  rewrite (at_opt_done _ _ _ Hr). unfold in_range in *.
  destruct (N.ltb_spec 0 (lenN (bm_list bm))).
  - rewrite bool_decide_eq_false_2 by done. cbn [negb andb].
    replace (bits.get (cur (each bm)) 0) with (value (each bm)).
    + pose proof (select_unless _ Hmax bit 0 _ Hr) as Hs. by destruct (eqb (value (each bm)) bit).
    + unfold value. by rewrite (at_pos_0 _ _ Hr).
  - rewrite bool_decide_eq_true_2 by done. by rewrite next_pos_end.
Qed.

Lemma select_ids_spec bit bm :
  bm_wf bm → select_range.select_ids bit bm = positions bit (bm_list bm).
Proof.
  intros Hwf. unfold select_range.select_ids.
  rewrite (range_collect_spec _ (bm_max bm Hwf) bit _ 0); [done|by apply select_range_spec|].
  rewrite bm_size_spec by done. unfold lenN. lia.
Qed.

Lemma select_runs_spec bit bm :
  bm_wf bm → bm_list bm ≠ [] → select_runs.select_runs bit bm = runs bit (bm_list bm).
Proof.
  intros Hwf Hne. pose proof (each_spec bm Hwf) as Hr. pose proof (bm_max bm Hwf) as Hmax.
  unfold in_range in Hr. rewrite (proj2 (N.ltb_lt _ _)) in Hr.
  2: { destruct (bm_list bm); [done|]. rewrite lenN_cons. lia. }
  unfold select_runs.select_runs. rewrite bm_size_spec by done.
  rewrite (runs_loop_spec _ Hmax bit _ 0); [done| |unfold lenN; lia].
  pose proof (select_unless _ Hmax bit 0 _ Hr) as Hs. by destruct (eqb (value (each bm)) bit).
Qed.

Lemma select_with_spec {A S E} (f : A → N * N) (g : S → A → S * option E) s bm xs :
  bm_wf bm → intervals_from f 0 xs →
  select_with.select_with f g s bm xs =
  run_until_error g s (filter (hit f (bm_list bm)) xs).
Proof.
  intros Hwf Hxs. unfold select_with.select_with.
  apply (with_loop_spec f g _ (bm_max bm Hwf) _ s 0); [|done..].
  by apply select_range_spec.
Qed.
End bitmaps.
