(* ===== verification/WahBitmap.v ===== *)
(** The WAH bitmap and its range: [libvast/include/vast/wah_bitmap.hpp] and
    [libvast/src/wah_bitmap.cpp]. *)

From S2P Require Import Prelude Word Bits BitmapConcept.

(** ** [struct wah_word] *)

Module wah_word.
Definition literal_word_size : N := word.width - 1.
Definition max_fill_words : N := word.all >>u 2.
Definition fill_mask : N := word.msb1 >>u 1.

Definition fill_type (block : N) : bool := (block &u fill_mask) =? fill_mask.
Definition is_fill (block : N) : bool := negb ((block &u word.msb1) =? 0).
Definition is_fill_of (block : N) (bit : bool) : bool :=
  is_fill block && eqb (fill_type block) bit.
Definition fill_words (block : N) : N := block &u (word.all >>u 2).
Definition make_fill (bit : bool) (n : N) : N :=
  word.msb1 |u ((if bit then 1 else 0) <<u (word.width - 2)) |u n.
End wah_word.

(** ** [class wah_bitmap] *)

Module wah_bitmap.
Import wah_word.

Record wah_bitmap := mk { blocks_ : list N; num_last_ : N; num_bits_ : N }.

Definition nil : wah_bitmap := mk [] 0 0.
Definition empty (bm : wah_bitmap) : bool := num_bits_ bm =? 0.
Definition size (bm : wah_bitmap) : N := num_bits_ bm.

(** [merge_active_word]; the scope guard appends the new active word. *)
Definition merge_active_word (bm : wah_bitmap) : wah_bitmap :=
  let blocks :=
    let last := back (blocks_ bm) in
    if negb (word.all_or_none_k last literal_word_size) then blocks_ bm
    else if lenN (blocks_ bm) =? 1 then set_back (make_fill (negb (last =? 0)) 1) (blocks_ bm)
    else
      let fill_type := negb (last =? word.none) in
      let prev := back (pop_back (blocks_ bm)) in
      if is_fill_of prev fill_type && (fill_words prev <? max_fill_words) then
        set_back (make_fill fill_type (fill_words prev + 1)) (pop_back (blocks_ bm))
      else set_back (make_fill fill_type 1) (blocks_ bm) in
  mk (push_back blocks word.none) 0 (num_bits_ bm).

(** An active word with room. *)
Definition activate (bm : wah_bitmap) : wah_bitmap :=
  match blocks_ bm with
  | [] => mk (push_back [] word.none) (num_last_ bm) (num_bits_ bm)
  | _ => if num_last_ bm =? literal_word_size then merge_active_word bm else bm
  end.

(** [append_bit] *)
Definition append_bit (bm : wah_bitmap) (bit : bool) : wah_bitmap :=
  let bm := activate bm in
  mk (set_back (back (blocks_ bm) |u ((if bit then 1 else 0) <<u num_last_ bm)) (blocks_ bm))
    (num_last_ bm + 1) (num_bits_ bm +u 1).

(** The loop of [append_bits] that adds maximum fills: the blocks and the
    number of words left. *)
Fixpoint max_fills (fuel : nat) (bit : bool) (fills : N) (blocks : list N) : list N * N :=
  match fuel with
  | O => (blocks, fills)
  | S fuel =>
      if max_fill_words <? fills
      then max_fills fuel bit (fills - max_fill_words)
             (push_back blocks (make_fill bit max_fill_words))
      else (blocks, fills)
  end.

(** The part of [append_bits] at a word boundary, without the active word. *)
Definition append_fills (blocks : list N) (bit : bool) (fills : N) : list N :=
  let prev := back blocks in
  let '(blocks, fills) :=
    if is_fill_of prev bit && (fill_words prev + fills <=? max_fill_words)
    then (set_back (make_fill bit (fill_words prev + fills)) blocks, 0)
    else (blocks, fills) in
  let '(blocks, fills) := max_fills (N.to_nat (fills / max_fill_words)) bit fills blocks in
  if 0 <? fills then push_back blocks (make_fill bit fills) else blocks.

(** [append_bits] *)
Definition append_bits (bm : wah_bitmap) (bit : bool) (n : N) : wah_bitmap :=
  if n =? 0 then bm
  else
    let bm := activate bm in
    let unused := literal_word_size - num_last_ bm in
    let inject := N.min unused n in
    let blocks :=
      if bit
      then set_back (back (blocks_ bm) |u (word.lsb_fill inject <<u num_last_ bm)) (blocks_ bm)
      else blocks_ bm in
    let bm := mk blocks (num_last_ bm + inject) (num_bits_ bm +u inject) in
    if n <=? inject then bm
    else
      let bm := merge_active_word bm in
      let n := n - inject in
      let fills := n / literal_word_size in
      let partial := n mod literal_word_size in
      let blocks := append_fills (pop_back (blocks_ bm)) bit fills in
      mk (push_back blocks (if (0 <? partial) && bit then word.lsb_mask partial else word.none))
        partial (num_bits_ bm +u n).

(** [wah_bitmap(size_type n, bool bit)] *)
Definition make (n : N) (bit : bool) : wah_bitmap := append_bits nil bit n.

(** [append_block] *)
Definition append_block (bm : wah_bitmap) (value bits : N) : wah_bitmap :=
  let bm := activate bm in
  let unused := literal_word_size - num_last_ bm in
  let inject := N.min unused bits in
  let bm :=
    mk (set_back (back (blocks_ bm) |u ((value &u word.lsb_fill inject) <<u num_last_ bm))
          (blocks_ bm))
      (num_last_ bm + inject) (num_bits_ bm +u inject) in
  if bits <=? inject then bm
  else
    let bm := merge_active_word bm in
    let value := value >>u inject in
    let remaining := bits - inject in
    mk (set_back (value &u word.lsb_mask remaining) (blocks_ bm)) remaining
      (num_bits_ bm +u remaining).

(** [flip] *)
Definition flip_block (block : N) : N :=
  block ^u ((if is_fill block then word.msb1 else word.all) >>u 1).
Definition flip (bm : wah_bitmap) : wah_bitmap :=
  match blocks_ bm with
  | [] => bm
  | _ =>
      let blocks := flip_block <$> blocks_ bm in
      let mask := word.lsb_mask (literal_word_size - num_last_ bm) <<u num_last_ bm in
      mk (set_back (back blocks ^u mask) blocks) (num_last_ bm) (num_bits_ bm)
  end.

(** [operator==] *)
Definition eqb (x y : wah_bitmap) : bool :=
  bool_decide (blocks_ x = blocks_ y) && (num_bits_ x =? num_bits_ y).

(** The bits of a word and of a bitmap, after the comment above the class. *)
Definition word_bits (w : N) : list bool :=
  if is_fill w then reps (literal_word_size * fill_words w) (fill_type w)
  else bits_of w literal_word_size.
Definition to_list (bm : wah_bitmap) : list bool :=
  concat (word_bits <$> pop_back (blocks_ bm)) ++
  match blocks_ bm with [] => [] | _ => bits_of (back (blocks_ bm)) (num_last_ bm) end.
End wah_bitmap.

(** ** [class wah_bitmap_range] *)

Module wah_bitmap_range.
Import wah_word.

(** The loop of [scan] that merges fills of one type: the length and the blocks
    behind them. *)
Fixpoint merge_fills (value : bool) (n : N) (blocks : list N) : N * list N :=
  match blocks with
  | b :: rest =>
      if is_fill_of b value then merge_fills value (n +u (fill_words b *u literal_word_size)) rest
      else (n, blocks)
  | [] => (n, [])
  end.

(** The sequences from a block on; the fuel is the number of blocks. *)
Fixpoint scan (fuel : nat) (num_last : N) (blocks : list N) : list bits.bits :=
  match fuel, blocks with
  | S fuel, b :: rest =>
      if is_fill b then
        let value := fill_type b in
        let '(n, rest) := merge_fills value (fill_words b *u literal_word_size) rest in
        bits.make (if value then word.all else word.none) n :: scan fuel num_last rest
      else match rest with
      | [] => [bits.make b num_last]
      | _ => bits.make b literal_word_size :: scan fuel num_last rest
      end
  | _, _ => []
  end.

(** [bit_range(const wah_bitmap&)], as the sequence it yields. *)
Definition bit_range (bm : wah_bitmap.wah_bitmap) : list bits.bits :=
  scan (length (wah_bitmap.blocks_ bm)) (wah_bitmap.num_last_ bm) (wah_bitmap.blocks_ bm).
End wah_bitmap_range.

(** ** Words *)

Section words.
Import wah_word wah_bitmap.
Implicit Types (w n : N) (bit : bool).

Lemma max_fill_words_val : max_fill_words = 2 ^ 62 - 1.
Proof. done. Qed.

Lemma is_fill_testbit w : is_fill w = N.testbit w 63.
Proof.
  unfold is_fill. change word.msb1 with (2 ^ 63).
  destruct (N.testbit w 63) eqn:E.
  - apply negb_true_iff, N.eqb_neq. intros H0%(f_equal (λ x, N.testbit x 63)).
    by rewrite N.land_spec, E in H0.
  - apply negb_false_iff, N.eqb_eq. apply N.bits_inj. intros i.
    rewrite N.land_spec, testbit_pow2, N.bits_0.
    destruct (N.eqb_spec 63 i) as [<-|]; [by rewrite E|by rewrite andb_false_r].
Qed.

Lemma fill_type_testbit w : fill_type w = N.testbit w 62.
Proof. unfold fill_type. rewrite <- (word_test_spec w 62) by done. done. Qed.

Lemma testbit_fill_words w i : N.testbit (fill_words w) i = (i <? 62) && N.testbit w i.
Proof. unfold fill_words. bitblast. Qed.

Lemma testbit_make_fill bit n i :
  n <= max_fill_words →
  N.testbit (make_fill bit n) i = (i =? 63) || ((i =? 62) && bit) || N.testbit n i.
Proof.
  rewrite max_fill_words_val. intros Hn. assert (n < 2 ^ 62) by lia. unfold make_fill.
  change (word.width - 2) with 62. destruct bit.
  - change (1 <<u 62) with (2 ^ 62). bitblast.
  - change (0 <<u 62) with 0. bitblast.
Qed.

Lemma make_fill_spec bit n :
  n <= max_fill_words →
  is_u64 (make_fill bit n) ∧ is_fill (make_fill bit n) = true ∧
  fill_type (make_fill bit n) = bit ∧ fill_words (make_fill bit n) = n.
Proof.
  intros Hn. pose proof Hn as Hn'. rewrite max_fill_words_val in Hn'.
  assert (n < 2 ^ 62) as Hlt by lia.
  split; [|split; [|split]].
  - apply bound_of_testbit. intros. rewrite testbit_make_fill by done. bitblast.
  - by rewrite is_fill_testbit, testbit_make_fill.
  - rewrite fill_type_testbit, testbit_make_fill by done. bitblast.
  - apply N.bits_inj. intros i. rewrite testbit_fill_words, testbit_make_fill by done. bitblast.
Qed.

(** A finished word: fills are not empty. *)
Definition word_ok (w : N) : Prop := is_u64 w ∧ (is_fill w = true → 0 < fill_words w).

Lemma make_fill_ok bit n :
  0 < n → n <= max_fill_words →
  word_ok (make_fill bit n) ∧ word_bits (make_fill bit n) = reps (63 * n) bit.
Proof.
  intros Hpos Hn. destruct (make_fill_spec bit n Hn) as (Hu & Hf & Ht & Hw).
  split; [split; [done|by rewrite Hw]|]. unfold word_bits. by rewrite Hf, Ht, Hw.
Qed.

Lemma literal_ok w : w < 2 ^ 63 → word_ok w ∧ word_bits w = bits_of w 63.
Proof.
  intros Hw. assert (is_fill w = false) as Hf.
  { rewrite is_fill_testbit. by apply (testbit_bound_high w 63). }
  unfold word_ok, word_bits. rewrite Hf. split; [|done]. split; [|done].
  unfold is_u64. eapply N.lt_trans; [exact Hw|done].
Qed.

Lemma all_or_none_literal w :
  w < 2 ^ 63 → word.all_or_none_k w 63 = true →
  bits_of w 63 = reps 63 (negb (w =? 0)).
Proof.
  intros Hw. unfold word.all_or_none_k. rewrite wrap_small by lia.
  rewrite land_lsb_mask, N.leb_le by (unfold is_u64; lia). intros H.
  assert (w = 0 ∨ w = 2 ^ 63 - 1) as [-> | ->].
  { destruct (N.eq_dec w (2 ^ 63 - 1)); [by right|]. rewrite N.mod_small in H by lia. left. lia. }
  - apply bits_of_zero.
  - change (2 ^ 63 - 1) with (word.lsb_fill 63). apply bits_of_const. intros. bitblast.
Qed.
End words.

(** ** The class invariant

    The last block is the active word, of which [k] bits are used. *)

Section invariant.
Import wah_word wah_bitmap.
Implicit Types (ws : list N) (bit : bool).

Definition words_bits ws : list bool := concat (word_bits <$> ws).

Inductive wah_inv : wah_bitmap → Prop :=
| wah_inv_nil : wah_inv nil
| wah_inv_blocks ws x k :
    Forall word_ok ws → x < 2 ^ k → k <= 63 → 0 < lenN (words_bits ws) + k →
    lenN (words_bits ws) + k <= max_size →
    wah_inv (mk (ws ++ [x]) k (lenN (words_bits ws) + k)).

Lemma words_bits_snoc ws w : words_bits (ws ++ [w]) = words_bits ws ++ word_bits w.
Proof. unfold words_bits. rewrite fmap_app, concat_app. cbn. by rewrite app_nil_r. Qed.

Lemma wah_to_list_blocks ws x k nb : to_list (mk (ws ++ [x]) k nb) = words_bits ws ++ bits_of x k.
Proof.
  unfold to_list. cbn [blocks_ num_last_]. rewrite pop_back_snoc, back_snoc.
  by destruct (ws ++ [x]) eqn:E; [destruct ws|].
Qed.

(** The result of an operation that leaves [x] as the active word. *)
Lemma wah_push ws x k nb :
  Forall word_ok ws → x < 2 ^ k → k <= 63 → 0 < nb → nb = lenN (words_bits ws) + k →
  nb <= max_size →
  wah_inv (mk (ws ++ [x]) k nb) ∧ to_list (mk (ws ++ [x]) k nb) = words_bits ws ++ bits_of x k.
Proof. intros ? ? ? ? -> ?. split; [by constructor|by apply wah_to_list_blocks]. Qed.

Lemma Forall_snoc {A} (P : A → Prop) l x : Forall P (l ++ [x]) ↔ Forall P l ∧ P x.
Proof. by rewrite Forall_app, Forall_singleton. Qed.

(** A finished word that is a fill of [n] words. *)
Lemma push_fill ws bit n :
  Forall word_ok ws → 0 < n → n <= max_fill_words →
  Forall word_ok (ws ++ [make_fill bit n]) ∧
  words_bits (ws ++ [make_fill bit n]) = words_bits ws ++ reps (63 * n) bit.
Proof.
  intros Hws Hpos Hn. destruct (make_fill_ok bit n Hpos Hn) as [Hok Hb].
  rewrite Forall_snoc, words_bits_snoc, Hb. done.
Qed.

(** A previous fill of the same type that grows by [n] words. *)
Lemma grow_fill ws bit p n :
  Forall word_ok (ws ++ [p]) → is_fill_of p bit = true → fill_words p + n <= max_fill_words →
  Forall word_ok (ws ++ [make_fill bit (fill_words p + n)]) ∧
  words_bits (ws ++ [make_fill bit (fill_words p + n)]) = words_bits (ws ++ [p]) ++ reps (63 * n) bit.
Proof.
  intros [Hws [_ Hp]]%Forall_snoc [Hf Ht%eqb_prop]%andb_true_iff Hn.
  destruct (push_fill ws bit (fill_words p + n) Hws) as [Hok Hb]; [specialize (Hp Hf); lia|done|].
  split; [done|]. rewrite Hb, words_bits_snoc, N.mul_add_distr_l, reps_add, app_assoc.
  unfold word_bits. by rewrite Hf, Ht.
Qed.

Lemma merge_spec ws x nb :
  Forall word_ok ws → x < 2 ^ 63 →
  ∃ ws', merge_active_word (mk (ws ++ [x]) 63 nb) = mk (ws' ++ [word.none]) 0 nb ∧
    Forall word_ok ws' ∧ words_bits ws' = words_bits ws ++ bits_of x 63.
Proof.
  intros Hws Hx. unfold merge_active_word, push_back. cbn [blocks_ num_bits_ num_last_].
  change literal_word_size with 63. rewrite back_snoc.
  destruct (word.all_or_none_k x 63) eqn:E; cbn [negb].
  2: { eexists. split; [done|]. destruct (literal_ok x Hx) as [Hok Hb].
       by rewrite Forall_snoc, words_bits_snoc, Hb. }
  rewrite (all_or_none_literal x Hx E). change word.none with 0 at 1. set (t := negb (x =? 0)).
  change (reps 63 t) with (reps (63 * 1) t). destruct ws as [|p ws] using rev_ind.
  { eexists. split; [cbn; done|]. apply (push_fill [] t 1); done. }
  clear IHws. rewrite (proj2 (N.eqb_neq _ _)) by (autorewrite with lendb; lia).
  rewrite pop_back_snoc, back_snoc, !set_back_snoc.
  destruct (is_fill_of p t && (fill_words p <? max_fill_words)) eqn:Ef.
  - apply andb_true_iff in Ef as [Ef Elt%N.ltb_lt]. eexists. split; [done|].
    apply grow_fill; [done..|lia].
  - eexists. split; [done|]. by apply push_fill.
Qed.

(** Before an append there is an active word with room. *)
Lemma activate_spec bm :
  wah_inv bm →
  ∃ ws x k, activate bm = mk (ws ++ [x]) k (lenN (words_bits ws) + k) ∧
    Forall word_ok ws ∧ x < 2 ^ k ∧ k < 63 ∧
    to_list bm = words_bits ws ++ bits_of x k.
Proof.
  intros [|ws x k Hws Hx Hk _ Hmax].
  { exists [], 0, 0. by repeat split. }
  rewrite wah_to_list_blocks. unfold activate. cbn [blocks_ num_last_].
  destruct (ws ++ [x]) eqn:E; [by destruct ws|]. rewrite <- E.
  change literal_word_size with 63. destruct (N.eqb_spec k 63) as [->|Hne].
  - destruct (merge_spec ws x (lenN (words_bits ws) + 63) Hws Hx) as (ws' & -> & Hok & Hb).
    exists ws', 0, 0. rewrite <- Hb, bits_of_0, app_nil_r.
    replace (lenN (words_bits ws) + 63) with (lenN (words_bits ws') + 0)
      by (rewrite Hb; autorewrite with lendb; lia). by repeat split.
  - exists ws, x, k. split; [done|]. repeat split; done || lia.
Qed.
End invariant.

(** ** The operations *)

Section operations.
Import wah_word wah_bitmap.
Implicit Types (ws : list N) (bit : bool).

(** [n] more bits in the active word. *)
Lemma wah_inject ws x y k n l :
  Forall word_ok ws → x < 2 ^ k → y < 2 ^ n → k + n <= 63 → 0 < n →
  lenN (words_bits ws) + k + n <= max_size → bits_of y n = l →
  let bm := mk (ws ++ [x |u (y <<u k)]) (k + n) (lenN (words_bits ws) + k +u n) in
  wah_inv bm ∧ to_list bm = (words_bits ws ++ bits_of x k) ++ l.
Proof.
  intros Hws Hx Hy Hkn Hn Hmax <-. cbn zeta. destruct (or_shifted x y k n) as [Hlt Hb]; [done..|lia|].
  rewrite (wrap_small (_ + k + n)) by (unfold max_size in *; lia). rewrite <- app_assoc, <- Hb.
  apply wah_push; try done; lia.
Qed.

(** The active word is filled up and merged. *)
Lemma wah_fill_up ws x y k nb :
  Forall word_ok ws → x < 2 ^ k → y < 2 ^ (63 - k) → k <= 63 →
  ∃ ws', merge_active_word (mk (ws ++ [x |u (y <<u k)]) 63 nb) = mk (ws' ++ [word.none]) 0 nb ∧
    Forall word_ok ws' ∧
    words_bits ws' = words_bits ws ++ bits_of x k ++ bits_of y (63 - k).
Proof.
  intros Hws Hx Hy Hk. destruct (or_shifted x y k (63 - k)) as [Hlt Hb]; [done..|lia|].
  replace (k + (63 - k)) with 63 in * by lia. rewrite <- Hb. by apply merge_spec.
Qed.

Lemma wah_lenN bm : wah_inv bm → num_bits_ bm = lenN (to_list bm) ∧ num_bits_ bm <= max_size.
Proof.
  intros [|ws x k]; [done|]. rewrite wah_to_list_blocks. autorewrite with lendb. done.
Qed.

Lemma wah_append_bit_spec bm bit :
  wah_inv bm → lenN (to_list bm) + 1 <= max_size →
  wah_inv (append_bit bm bit) ∧ to_list (append_bit bm bit) = to_list bm ++ [bit].
Proof.
  intros Hinv Hmax. unfold append_bit.
  destruct (activate_spec bm Hinv) as (ws & x & k & -> & Hws & Hx & Hk & Hl).
  cbn [blocks_ num_last_ num_bits_]. rewrite Hl in *. autorewrite with lendb in Hmax.
  rewrite back_snoc, set_back_snoc.
  apply wah_inject; try done; try lia; [by destruct bit|]. by destruct bit.
Qed.

Lemma max_fills_spec fuel bit fills ws :
  Forall word_ok ws → fills <= max_fill_words * (N.of_nat fuel + 1) →
  ∃ ws' fills', max_fills fuel bit fills ws = (ws', fills') ∧
    Forall word_ok ws' ∧ fills' <= max_fill_words ∧ (0 < fills → 0 < fills') ∧
    words_bits ws' ++ reps (63 * fills') bit = words_bits ws ++ reps (63 * fills) bit.
Proof.
  revert fills ws. induction fuel as [|fuel IH]; intros fills ws Hws Hle; cbn [max_fills].
  { exists ws, fills. split; [done|]. split; [done|]. split; [lia|done]. }
  destruct (N.ltb_spec max_fill_words fills) as [Hlt|Hge].
  - destruct (push_fill ws bit max_fill_words Hws) as [Hok Hb]; [done..|].
    destruct (IH (fills - max_fill_words) (ws ++ [make_fill bit max_fill_words]))
      as (ws' & fills' & Heq & Hok' & Hle' & Hpos & Hb'); [done|lia|].
    exists ws', fills'. split; [done|]. split; [done|]. split; [done|]. split; [intros; apply Hpos; lia|].
    rewrite Hb', Hb, <- app_assoc, <- reps_add. do 2 f_equal. lia.
  - exists ws, fills. done.
Qed.

Lemma append_fills_spec ws bit fills :
  ws ≠ [] → Forall word_ok ws → fills <= 2 ^ 64 →
  Forall word_ok (append_fills ws bit fills) ∧
  words_bits (append_fills ws bit fills) = words_bits ws ++ reps (63 * fills) bit.
Proof.
  intros Hne Hws Hf. unfold append_fills.
  destruct ws as [|p ws _] using rev_ind; [done|]. rewrite back_snoc, set_back_snoc.
  destruct (is_fill_of p bit && (fill_words p + fills <=? max_fill_words)) eqn:E.
  - apply andb_true_iff in E as [Ef Ele%N.leb_le]. change (0 / max_fill_words) with 0.
    change (max_fills (N.to_nat 0) bit 0 ?l) with (l, 0). by apply grow_fill.
  - destruct (max_fills_spec (N.to_nat (fills / max_fill_words)) bit fills (ws ++ [p]) Hws)
      as (ws' & fills' & -> & Hok & Hle & _ & Hb).
    { rewrite N2Nat.id, max_fill_words_val.
      pose proof (N.div_mod fills (2 ^ 62 - 1) ltac:(done)).
      pose proof (N.mod_lt fills (2 ^ 62 - 1) ltac:(done)). lia. }
    rewrite <- Hb. destruct (N.ltb_spec 0 fills').
    + unfold push_back. by apply push_fill.
    + replace fills' with 0 by lia. by rewrite N.mul_0_r, app_nil_r.
Qed.

Lemma words_bits_nonempty ws : words_bits ws ≠ [] → ws ≠ [].
Proof. by destruct ws. Qed.

Lemma bit_fill_spec bit k x n ws :
  n + k <= 63 →
  ∃ y, (if bit then set_back (back (ws ++ [x]) |u (word.lsb_fill n <<u k)) (ws ++ [x])
        else ws ++ [x]) = ws ++ [x |u (y <<u k)] ∧ y < 2 ^ n ∧ bits_of y n = reps n bit.
Proof.
  intros Hn. destruct (fill_word_spec bit n ltac:(lia)) as [Hlt Hb].
  exists (if bit then word.lsb_fill n else word.none). split; [|done].
  destruct bit; [by rewrite back_snoc, set_back_snoc|].
  change (word.none <<u k) with (wrap (N.shiftl 0 k)). by rewrite N.shiftl_0_l, N.lor_0_r.
Qed.

(** The whole words and the new active word of a run at a word boundary. *)
Lemma wah_append_run ws bit m nb :
  Forall word_ok ws → ws ≠ [] → 0 < m → nb = lenN (words_bits ws) → nb + m <= max_size →
  let bm := mk (push_back (append_fills ws bit (m / 63))
                  (if (0 <? m mod 63) && bit then word.lsb_mask (m mod 63) else word.none))
              (m mod 63) (nb +u m) in
  wah_inv bm ∧ to_list bm = words_bits ws ++ reps m bit.
Proof.
  intros Hok Hne Hm -> Hmax. cbn zeta.
  pose proof (N.div_mod m 63 ltac:(done)) as Hdm. pose proof (N.mod_lt m 63 ltac:(done)) as Hmod.
  revert Hdm Hmod. generalize (m / 63) (m mod 63). intros q r -> Hr.
  destruct (append_fills_spec ws bit q) as [Hok2 Hb2]; [done..|unfold max_size in *; lia|].
  assert ((if (0 <? r) && bit then word.lsb_mask r else word.none) =
          (if bit then word.lsb_fill r else word.none)) as ->.
  { destruct bit; [|by rewrite andb_false_r]. rewrite andb_true_r, lsb_mask_fill.
    by destruct (N.ltb_spec 0 r); [|replace r with 0 by lia]. }
  destruct (fill_word_spec bit r ltac:(lia)) as [Hlt3 Hb3]. unfold push_back.
  rewrite wrap_small by (unfold max_size in *; lia).
  rewrite reps_add, app_assoc, <- Hb2, <- Hb3.
  apply wah_push; try done; try lia. rewrite Hb2. autorewrite with lendb. lia.
Qed.

Lemma wah_append_bits_spec bm bit n :
  wah_inv bm → lenN (to_list bm) + n <= max_size →
  wah_inv (append_bits bm bit n) ∧ to_list (append_bits bm bit n) = to_list bm ++ reps n bit.
Proof.
  intros Hinv Hmax. unfold append_bits.
  destruct (N.eqb_spec n 0) as [->|Hn]; [by rewrite reps_0, app_nil_r|].
  destruct (activate_spec bm Hinv) as (ws & x & k & -> & Hws & Hx & Hk & Hl).
  cbn [blocks_ num_last_ num_bits_]. rewrite Hl in *. autorewrite with lendb in Hmax.
  change literal_word_size with 63.
  assert (∃ inject, inject = N.min (63 - k) n) as (inject & Hinj) by eauto. rewrite <- Hinj.
  destruct (bit_fill_spec bit k x inject ws ltac:(lia)) as (y & -> & Hy & Hb).
  destruct (N.leb_spec n inject).
  { assert (inject = n) as E by lia. rewrite E in *. apply wah_inject; try done; lia. }
  assert (inject = 63 - k) as E by lia. rewrite E in *. replace (k + (63 - k)) with 63 by lia.
  destruct (wah_fill_up ws x y k (lenN (words_bits ws) + k +u (63 - k)))
    as (ws' & -> & Hok & Hb'); [done..|lia|]. cbn [blocks_ num_bits_]. rewrite pop_back_snoc.
  rewrite Hb, app_assoc in Hb'. rewrite (wrap_small (_ + k + _)) by (unfold max_size in *; lia).
  replace (reps n bit) with (reps (63 - k) bit ++ reps (n - (63 - k)) bit)
    by (rewrite <- reps_add; f_equal; lia).
  rewrite app_assoc, <- Hb'. apply wah_append_run; try done; try lia.
  - apply words_bits_nonempty. rewrite Hb'. intros E'%(f_equal lenN).
    autorewrite with lendb in E'. lia.
  - rewrite Hb'. autorewrite with lendb. lia.
Qed.

Lemma wah_append_block_spec bm value n :
  wah_inv bm → 0 < n → n <= 64 → lenN (to_list bm) + n <= max_size →
  wah_inv (append_block bm value n) ∧
  to_list (append_block bm value n) = to_list bm ++ bits_of value n.
Proof.
  intros Hinv Hn Hn' Hmax. unfold append_block.
  destruct (activate_spec bm Hinv) as (ws & x & k & -> & Hws & Hx & Hk & Hl).
  cbn [blocks_ num_last_ num_bits_]. rewrite Hl in *. autorewrite with lendb in Hmax.
  change literal_word_size with 63. rewrite back_snoc, set_back_snoc.
  assert (∃ inject, inject = N.min (63 - k) n) as (inject & Hinj) by eauto. rewrite <- Hinj.
  destruct (bits_of_mask value inject ltac:(lia)) as [Hy Hb].
  destruct (N.leb_spec n inject).
  { assert (inject = n) as E by lia. rewrite E in *. apply wah_inject; try done; lia. }
  assert (inject = 63 - k) as E by lia. rewrite E in *. replace (k + (63 - k)) with 63 by lia.
  destruct (wah_fill_up ws x (value &u word.lsb_fill (63 - k)) k (lenN (words_bits ws) + k +u (63 - k)))
    as (ws' & -> & Hok & Hb'); [done..|lia|]. cbn [blocks_ num_bits_]. rewrite set_back_snoc.
  rewrite Hb, app_assoc in Hb'.
  destruct (bits_of_mask (value >>u (63 - k)) (n - (63 - k)) ltac:(lia)) as [Hy2 Hb2].
  rewrite <- lsb_mask_fill in Hy2, Hb2.
  replace (bits_of value n) with (bits_of value (63 - k + (n - (63 - k)))) by (f_equal; lia).
  rewrite bits_of_app, <- Hb2, app_assoc, <- Hb'.
  rewrite !wrap_small by (rewrite ?wrap_small; unfold max_size in *; lia).
  apply wah_push; try done; try lia. rewrite Hb'. autorewrite with lendb. lia.
Qed.

(** ** Flipping *)

Lemma flip_word w : word_ok w → word_ok (flip_block w) ∧ word_bits (flip_block w) = negb <$> word_bits w.
Proof.
  intros [Hu Hpos].
  assert (is_fill (flip_block w) = is_fill w) as Hf.
  { unfold flip_block. rewrite !is_fill_testbit. destruct (N.testbit w 63) eqn:E; bitblast. }
  destruct (is_fill w) eqn:E.
  - assert (fill_words (flip_block w) = fill_words w) as Hw.
    { apply N.bits_inj. intros i. rewrite !testbit_fill_words. unfold flip_block. rewrite E. bitblast. }
    assert (fill_type (flip_block w) = negb (fill_type w)) as Ht.
    { rewrite !fill_type_testbit. unfold flip_block. rewrite E. bitblast. }
    split; [split; [unfold flip_block; rewrite E; auto 6 with u64db|by rewrite Hw; intros _; apply Hpos]|].
    unfold word_bits. by rewrite Hf, E, Hw, Ht, fmap_reps.
  - split; [split; [unfold flip_block; rewrite E; auto 6 with u64db|by rewrite Hf]|].
    unfold word_bits. rewrite Hf, E. symmetry. apply fmap_bits_of. intros i Hi.
    change literal_word_size with 63 in Hi. unfold flip_block. rewrite E. bitblast.
Qed.

Lemma flip_words ws :
  Forall word_ok ws →
  Forall word_ok (flip_block <$> ws) ∧ words_bits (flip_block <$> ws) = negb <$> words_bits ws.
Proof.
  induction 1 as [|w ws Hw _ [IHok IHb]]; [done|]. destruct (flip_word w Hw) as [Hok Hb].
  split; [by constructor|]. unfold words_bits in *. cbn. by rewrite fmap_app, Hb, IHb.
Qed.

Lemma flip_active x k :
  x < 2 ^ k → k <= 63 →
  let x' := flip_block x ^u (word.lsb_mask (63 - k) <<u k) in
  x' < 2 ^ k ∧ bits_of x' k = negb <$> bits_of x k.
Proof.
  intros Hx Hk. cbn zeta.
  assert (is_fill x = false) as Hf.
  { rewrite is_fill_testbit. by apply (testbit_bound_high x k). }
  unfold flip_block. rewrite Hf. split.
  - apply bound_of_testbit. intros. bitblast.
  - symmetry. apply fmap_bits_of. intros. bitblast.
Qed.

Lemma wah_flip_spec bm :
  wah_inv bm → wah_inv (flip bm) ∧ to_list (flip bm) = negb <$> to_list bm.
Proof.
  intros [|ws x k Hws Hx Hk Hpos Hmax]; [by split; [constructor|]|].
  unfold flip. cbn [blocks_ num_last_ num_bits_].
  destruct (ws ++ [x]) eqn:E; [by destruct ws|]. rewrite <- E. clear E.
  rewrite fmap_app. cbn [fmap list_fmap]. rewrite back_snoc, set_back_snoc, (wah_to_list_blocks ws x).
  change literal_word_size with 63. destruct (flip_words ws Hws) as [Hok Hb].
  destruct (flip_active x k Hx Hk) as [Hlt Hb']. rewrite fmap_app, <- Hb, <- Hb'.
  apply wah_push; try done. rewrite Hb. unfold lenN. by rewrite length_fmap.
Qed.
End operations.

(** ** The range *)

Section range.
Import wah_word wah_bitmap wah_bitmap_range.
Implicit Types (ws : list N).

Lemma words_bits_cons w ws : words_bits (w :: ws) = word_bits w ++ words_bits ws.
Proof. done. Qed.

Lemma is_fill_of_bits w value :
  is_fill_of w value = true → word_bits w = reps (63 * fill_words w) value.
Proof. intros [Hf Ht%eqb_prop]%andb_true_iff. unfold word_bits. by rewrite Hf, Ht. Qed.

Lemma active_not_fill x k : x < 2 ^ k → k <= 63 → is_fill x = false.
Proof. intros. rewrite is_fill_testbit. by apply (testbit_bound_high x k). Qed.

Lemma merge_fills_spec value n ws x k :
  x < 2 ^ k → k <= 63 → n + lenN (words_bits ws) < 2 ^ 64 →
  ∃ n' ws', merge_fills value n (ws ++ [x]) = (n', ws' ++ [x]) ∧
    (length ws' <= length ws)%nat ∧ n <= n' ∧ ws' `suffix_of` ws ∧
    reps n value ++ words_bits ws = reps n' value ++ words_bits ws'.
Proof.
  intros Hx Hk. revert n. induction ws as [|w ws IH]; intros n Hlen; cbn [app merge_fills].
  { exists n, []. unfold is_fill_of. by rewrite (active_not_fill x k). }
  destruct (is_fill_of w value) eqn:E; [|by exists n, (w :: ws)].
  rewrite words_bits_cons, (is_fill_of_bits w value E) in *. autorewrite with lendb in Hlen.
  change literal_word_size with 63. rewrite (N.mul_comm (fill_words w)).
  rewrite (wrap_small (63 * _)), (wrap_small (n + _)) by lia.
  destruct (IH (n + 63 * fill_words w)) as (n' & ws' & -> & Hl & Hle & Hsuf & Hb); [lia|].
  exists n', ws'. split; [done|]. split; [cbn; lia|]. split; [lia|]. split; [by apply suffix_cons_r|].
  by rewrite <- Hb, reps_add, app_assoc.
Qed.

(** A non-empty sequence in front. *)
Lemma scan_cons b xs l l' :
  bits.wf b → bits.size b ≠ 0 → bits.to_list b = l →
  Forall bits.wf xs ∧ seqs_ok xs ∧ range_bits xs = l' →
  Forall bits.wf (b :: xs) ∧ seqs_ok (b :: xs) ∧ range_bits (b :: xs) = l ++ l'.
Proof.
  intros Hb Hne <- (Hxs & Hok & <-). split; [by constructor|]. split; [|done].
  split; [by right|done].
Qed.

Lemma scan_spec fuel ws x k :
  Forall word_ok ws → x < 2 ^ k → k <= 63 → (length ws < fuel)%nat →
  lenN (words_bits ws) + k <= max_size →
  let s := scan fuel k (ws ++ [x]) in
  Forall bits.wf s ∧ seqs_ok s ∧ range_bits s = words_bits ws ++ bits_of x k.
Proof.
  intros Hws Hx Hk. revert ws Hws. induction fuel as [|fuel IH]; intros ws Hws Hf Hmax; [lia|].
  cbn zeta. destruct ws as [|w ws].
  { cbn [app scan]. rewrite (active_not_fill x k Hx Hk).
    split; [|split; [by split; [left|]|]].
    - apply Forall_singleton, bits_make_wf; [eapply is_u64_below; [done|lia]|auto with u64db|lia].
    - unfold range_bits. cbn [fmap list_fmap concat]. rewrite app_nil_r.
      apply bits_make_to_list. lia. }
  apply Forall_cons_iff in Hws as [[Hu Hpos] Hws]. rewrite words_bits_cons in *.
  autorewrite with lendb in Hmax. cbn [app scan]. rewrite <- app_assoc.
  destruct (is_fill w) eqn:E.
  - unfold word_bits in *. rewrite E in *. change literal_word_size with 63 in *.
    autorewrite with lendb in Hmax. rewrite (N.mul_comm (fill_words w)), wrap_small
      by (unfold max_size in *; lia).
    destruct (merge_fills_spec (fill_type w) (63 * fill_words w) ws x k)
      as (n' & ws' & -> & Hl & Hle & [p Hp] & Hb); [done..|unfold max_size in *; lia|].
    rewrite app_assoc, Hb, <- app_assoc.
    assert (n' + lenN (words_bits ws') + k <= max_size) as Hmax'.
    { apply (f_equal lenN) in Hb. autorewrite with lendb in Hb. lia. }
    assert ((if fill_type w then word.all else word.none) = word.none ∨
            (if fill_type w then word.all else word.none) = word.all) as Hrun
      by (destruct (fill_type w); auto).
    apply scan_cons.
    + apply bits_make_wf; auto; [by destruct (fill_type w)|]. unfold max_size, is_u64 in *. lia.
    + specialize (Hpos eq_refl). cbn. lia.
    + rewrite bits_make_run by done. by destruct (fill_type w).
    + apply IH; [|cbn in Hf; lia|lia]. subst ws. by apply Forall_app in Hws as [_ Hws].
  - destruct (ws ++ [x]) eqn:Ews; [by destruct ws|]. rewrite <- Ews.
    assert (word_bits w = bits_of w 63) as -> by (unfold word_bits; by rewrite E).
    apply scan_cons.
    + apply bits_make_wf; auto with u64db. by left.
    + done.
    + by rewrite bits_make_to_list.
    + apply IH; [done|cbn in Hf; lia|lia].
Qed.

Lemma wah_bit_range_spec bm :
  wah_inv bm →
  Forall bits.wf (bit_range bm) ∧ seqs_ok (bit_range bm) ∧ range_bits (bit_range bm) = to_list bm.
Proof.
  intros [|ws x k Hws Hx Hk Hpos Hmax]; [by repeat constructor|].
  rewrite wah_to_list_blocks. unfold bit_range. cbn [blocks_ num_last_].
  apply scan_spec; try done. rewrite length_app. cbn. lia.
Qed.
End range.

(** ** The WAH bitmap is a bitmap *)

#[export] Instance wah_bitmap_ops : BitmapOps wah_bitmap.wah_bitmap := {
  bm_nil := wah_bitmap.nil;
  bm_size := wah_bitmap.size;
  bm_append_bit := wah_bitmap.append_bit;
  bm_append_bits := wah_bitmap.append_bits;
  bm_append_block := wah_bitmap.append_block;
  bm_flip := wah_bitmap.flip;
  bit_range := wah_bitmap_range.bit_range
}.

#[refine, export] Instance wah_bitmap_bitmap : Bitmap wah_bitmap.wah_bitmap := {|
  bm_wf := wah_inv;
  bm_list := wah_bitmap.to_list;
  bm_append_bit_spec := wah_append_bit_spec;
  bm_append_bits_spec := wah_append_bits_spec;
  bm_flip_spec := wah_flip_spec;
  bm_range_spec := wah_bit_range_spec
|}.
Proof.
  - abstract (intros b Hb; destruct (wah_lenN b Hb) as [<- ?]; done).
  - abstract (split; [constructor|done]).
  - abstract (intros b Hb; by apply wah_lenN).
  - abstract (intros; by apply wah_append_block_spec).
Defined.
