(* ===== verification/Bitvector.v ===== *)
(** The uncompressed bit vector and the bitmap over it:
    [libvast/include/vast/bitvector.hpp], [libvast/include/vast/null_bitmap.hpp]
    and [libvast/src/null_bitmap.cpp]. *)

From S2P Require Import Prelude Word Bits BitmapConcept.

Module bitvector.

Record bitvector := mk { blocks_ : list N; size_ : N }.

Definition bits_to_blocks (n : N) : N := if n =? 0 then 0 else 1 + (n - 1) / word.width.
Definition partial_bits (bv : bitvector) : N := size_ bv mod word.width.
Definition fill_word (value : bool) : N := if value then word.all else word.none.

Definition nil : bitvector := mk [] 0.
(** [bitvector(size_type n, const value_type& value)] *)
Definition make (n : N) (value : bool) : bitvector :=
  mk (reps (bits_to_blocks n) (fill_word value)) n.

Definition empty (bv : bitvector) : bool := size_ bv =? 0.
Definition size (bv : bitvector) : N := size_ bv.

(** [std::vector::resize] *)
Definition vector_resize (v : list N) (n x : N) : list N :=
  take (N.to_nat n) v ++ reps (n - lenN v) x.

(** [resize] *)
Definition resize (bv : bitvector) (n : N) (value : bool) : bitvector :=
  if n <=? size_ bv then mk (vector_resize (blocks_ bv) (bits_to_blocks n) 0) n
  else
    let p := partial_bits bv in
    let m := word.all <<u p in
    let blocks :=
      if 0 <? p then
        set_back (if value then back (blocks_ bv) |u m else back (blocks_ bv) &u (~u m))
          (blocks_ bv)
      else blocks_ bv in
    if (0 <? p) && (n - size_ bv <=? word.width - p) then mk blocks n
    else mk (vector_resize blocks (bits_to_blocks n) (fill_word value)) n.

(** [operator[] const]; [at] throws when [i] is out of range. *)
Definition get (bv : bitvector) (i : N) : bool :=
  negb ((vec_at (blocks_ bv) (i / word.width) &u word.mask (i mod word.width)) =? 0).
Definition at_ (bv : bitvector) (i : N) : option bool :=
  if size_ bv <=? i then None else Some (get bv i).
(** [reference::operator=] *)
Definition set (bv : bitvector) (i : N) (x : bool) : bitvector :=
  let block := vec_at (blocks_ bv) (i / word.width) in
  let mask := word.mask (i mod word.width) in
  mk (vec_set (blocks_ bv) (i / word.width) (if x then block |u mask else block &u (~u mask)))
    (size_ bv).

(** [push_back] *)
Definition push_back (bv : bitvector) (x : bool) : bitvector :=
  let p := partial_bits bv in
  let blocks :=
    if p =? 0 then Prelude.push_back (blocks_ bv) (fill_word x)
    else if x then set_back (back (blocks_ bv) |u (word.all <<u p)) (blocks_ bv)
    else set_back (back (blocks_ bv) &u (~u (word.all <<u p))) (blocks_ bv) in
  mk blocks (size_ bv + 1).

(** [pop_back] *)
Definition pop_back (bv : bitvector) : bitvector :=
  mk (if partial_bits bv =? 1 then Prelude.pop_back (blocks_ bv) else blocks_ bv) (size_ bv - 1).

(** [assign]; the size is not reset. *)
Definition assign (bv : bitvector) (xs : list bool) : bitvector :=
  foldl push_back (mk [] (size_ bv)) xs.

Definition flip (bv : bitvector) : bitvector := mk ((λ b, ~u b) <$> blocks_ bv) (size_ bv).
Definition clear (bv : bitvector) : bitvector := mk [] 0.

(** [operator==] *)
Definition eqb (x y : bitvector) : bool :=
  if negb (size_ x =? size_ y) then false
  else match blocks_ x with
  | [] => true
  | _ =>
      bool_decide (Prelude.pop_back (blocks_ x) = Prelude.pop_back (blocks_ y)) &&
      ((back (blocks_ x) &u word.lsb_mask (partial_bits x)) =?
       (back (blocks_ y) &u word.lsb_mask (partial_bits y)))
  end.

(** [append_block] *)
Definition append_block (bv : bitvector) (x bits : N) : bitvector :=
  let p := partial_bits bv in
  let blocks :=
    if p =? 0 then Prelude.push_back (blocks_ bv) x
    else
      let last := (back (blocks_ bv) &u word.lsb_mask p) |u (x <<u p) in
      let blocks := set_back last (blocks_ bv) in
      let available := word.width - p in
      if available <? bits then Prelude.push_back blocks (x >>u available) else blocks in
  mk blocks (size_ bv + bits).

(** [rank] *)
Fixpoint rank_loop (bit : bool) (n result : N) (blocks : list N) : N :=
  match blocks with
  | [] => result
  | b :: blocks =>
      if word.width <=? n then
        rank_loop bit (n - word.width)
          (result + (if bit then word.popcount b else word.width - word.popcount b)) blocks
      else if 0 <? n then
        let last := word.popcount (b &u word.lsb_mask n) in
        result + (if bit then last else n - last)
      else result
  end.
Definition rank (bit : bool) (bv : bitvector) : N := rank_loop bit (size_ bv) 0 (blocks_ bv).

(** The bits of the vector. *)
Definition to_list (bv : bitvector) : list bool := take (N.to_nat (size_ bv)) (words (blocks_ bv)).
End bitvector.

Module null_bitmap.
Record null_bitmap := mk { bitvector_ : bitvector.bitvector }.

Definition nil : null_bitmap := mk bitvector.nil.
Definition size (bm : null_bitmap) : N := bitvector.size (bitvector_ bm).
Definition append_bit (bm : null_bitmap) (bit : bool) : null_bitmap :=
  mk (bitvector.push_back (bitvector_ bm) bit).
Definition append_bits (bm : null_bitmap) (bit : bool) (n : N) : null_bitmap :=
  mk (bitvector.resize (bitvector_ bm) (bitvector.size (bitvector_ bm) + n) bit).
Definition append_block (bm : null_bitmap) (value bits : N) : null_bitmap :=
  mk (bitvector.append_block (bitvector_ bm) value bits).
Definition flip (bm : null_bitmap) : null_bitmap := mk (bitvector.flip (bitvector_ bm)).
Definition eqb (x y : null_bitmap) : bool := bitvector.eqb (bitvector_ x) (bitvector_ y).
Definition to_list (bm : null_bitmap) : list bool := bitvector.to_list (bitvector_ bm).
End null_bitmap.

Module null_bitmap_range.

(** The loop of [scan] over blocks equal to [data]; it stops at the last block. *)
Fixpoint merge_blocks (data n : N) (blocks : list N) : N * list N :=
  match blocks with
  | [] | [_] => (n, blocks)
  | b :: rest => if b =? data then merge_blocks data (n + word.width) rest else (n, blocks)
  end.

(** The sequences from a block on; the fuel is the number of blocks and [size]
    the size of the bit vector. *)
Fixpoint scan (fuel : nat) (size : N) (blocks : list N) : list bits.bits :=
  match fuel, blocks with
  | S fuel, block :: rest =>
      let partial := size mod word.width in
      match rest with
      | [] => [bits.make block (if partial =? 0 then word.width else partial)]
      | _ =>
          if negb (word.all_or_none block) then bits.make block word.width :: scan fuel size rest
          else
            let '(n, rest) := merge_blocks block word.width rest in
            let '(n, rest) :=
              match rest with
              | [last] =>
                  if 0 <? partial then
                    let mask := word.mask partial in
                    if (last &u mask) =? (block &u mask) then (n + partial, []) else (n, rest)
                  else if last =? block then (n + word.width, []) else (n, rest)
              | _ => (n, rest)
              end in
            bits.make block n :: scan fuel size rest
      end
  | _, _ => []
  end.

Definition bit_range (bm : null_bitmap.null_bitmap) : list bits.bits :=
  let bv := null_bitmap.bitvector_ bm in
  scan (length (bitvector.blocks_ bv)) (bitvector.size_ bv) (bitvector.blocks_ bv).
End null_bitmap_range.

(** ** The class invariant

    Bits of the last block behind the size are arbitrary. *)

Section invariant.
Import bitvector.
Implicit Types (bs : list N) (b : bool).

Inductive bv_inv : bitvector → Prop :=
| bv_inv_nil : bv_inv nil
| bv_inv_blocks bs x k :
    Forall is_u64 bs → is_u64 x → 0 < k → k <= 64 →
    bv_inv (mk (bs ++ [x]) (64 * lenN bs + k)).

Lemma bv_to_list_blocks bs x k :
  k <= 64 → to_list (mk (bs ++ [x]) (64 * lenN bs + k)) = words bs ++ bits_of x k.
Proof.
  intros Hk. unfold to_list. cbn [blocks_ size_]. rewrite words_snoc.
  assert (length (words bs) = N.to_nat (64 * lenN bs)) as Hlen
    by (pose proof (words_len bs) as E; unfold lenN in *; lia).
  rewrite take_app_ge by lia. f_equal. rewrite Hlen.
  rewrite <- (take_bits_of x k 64) by done. f_equal. lia.
Qed.

Lemma bv_make_blocks bs x k n :
  Forall is_u64 bs → is_u64 x → 0 < k → k <= 64 → n = 64 * lenN bs + k →
  bv_inv (mk (bs ++ [x]) n) ∧ to_list (mk (bs ++ [x]) n) = words bs ++ bits_of x k.
Proof. intros ? ? ? ? ->. split; [by constructor|by apply bv_to_list_blocks]. Qed.

Lemma partial_blocks bs k : 0 < k → k <= 64 → (64 * lenN bs + k) mod word.width = if k =? 64 then 0 else k.
Proof.
  intros. unfold word.width. rewrite N.mul_comm, N.add_comm, N.Div0.mod_add.
  destruct (N.eqb_spec k 64) as [->|]; [done|]. apply N.mod_small. lia.
Qed.

Lemma bits_to_blocks_spec n : 0 < n →
  ∃ q k, bits_to_blocks n = q + 1 ∧ n = 64 * q + k ∧ 0 < k ∧ k <= 64.
Proof.
  intros Hn. unfold bits_to_blocks, word.width. rewrite (proj2 (N.eqb_neq n 0)) by lia.
  exists ((n - 1) / 64), ((n - 1) mod 64 + 1).
  pose proof (N.div_mod (n - 1) 64 ltac:(done)). pose proof (N.mod_lt (n - 1) 64 ltac:(done)).
  revert H H0. generalize ((n - 1) / 64) ((n - 1) mod 64). intros. lia.
Qed.

(** Overwriting everything behind the first [k] bits of a word. *)
Lemma fill_above x k b :
  is_u64 x → k <= 64 →
  let x' := if b then x |u (word.all <<u k) else x &u (~u (word.all <<u k)) in
  is_u64 x' ∧ ∀ j, k + j <= 64 → bits_of x' (k + j) = bits_of x k ++ reps j b.
Proof.
  intros Hx Hk. cbn zeta. split; [destruct b; auto with u64db|].
  intros j Hj. rewrite bits_of_app. f_equal.
  - apply bits_of_ext. intros. destruct b; bitblast.
  - apply bits_of_const. intros. destruct b; bitblast.
Qed.

Lemma bv_push_back_spec bv b :
  bv_inv bv → bv_inv (push_back bv b) ∧ to_list (push_back bv b) = to_list bv ++ [b].
Proof.
  intros [|bs x k Hbs Hx Hk Hk'].
  { destruct b;
      [apply (bv_make_blocks [] word.all 1 1)|apply (bv_make_blocks [] word.none 1 1)]; done. }
  rewrite bv_to_list_blocks by done. unfold push_back, partial_bits. cbn [blocks_ size_].
  rewrite partial_blocks by done. destruct (N.eqb_spec k 64) as [->|Hne].
  - cbn [N.eqb]. unfold Prelude.push_back.
    rewrite <- words_snoc. replace [b] with (bits_of (fill_word b) 1) by (by destruct b).
    apply bv_make_blocks; [|by destruct b|done..|].
    + apply Forall_app. by split; [|apply Forall_singleton].
    + autorewrite with lendb. lia.
  - rewrite (proj2 (N.eqb_neq k 0)) by lia. rewrite back_snoc, !set_back_snoc.
    destruct (fill_above x k b Hx) as [Hu Hb]; [done|]. rewrite <- app_assoc.
    change [b] with (reps 1 b). rewrite <- Hb by lia.
    destruct b; apply bv_make_blocks; try done; lia.
Qed.

Lemma bv_flip_spec bv : bv_inv bv → bv_inv (flip bv) ∧ to_list (flip bv) = negb <$> to_list bv.
Proof.
  intros [|bs x k Hbs Hx Hk Hk']; [split; [constructor|done]|].
  rewrite bv_to_list_blocks, fmap_app by done. unfold flip. cbn [blocks_ size_].
  rewrite fmap_app, <- fmap_negb_words. cbn [fmap list_fmap].
  replace (negb <$> bits_of x k) with (bits_of (~u x) k)
    by (symmetry; apply fmap_bits_of; intros; bitblast).
  apply bv_make_blocks; auto with u64db.
  - apply Forall_fmap, (Forall_impl (P:=is_u64)); [exact is_u64_lnot|done].
  - unfold lenN. by rewrite length_fmap.
Qed.

(** Growing by whole words of one bit. *)
Lemma bv_grow bs n b :
  Forall is_u64 bs → 64 * lenN bs < n →
  bv_inv (mk (vector_resize bs (bits_to_blocks n) (fill_word b)) n) ∧
  to_list (mk (vector_resize bs (bits_to_blocks n) (fill_word b)) n) =
  words bs ++ reps (n - 64 * lenN bs) b.
Proof.
  intros Hbs Hn. destruct (bits_to_blocks_spec n) as (q & k & Hq & -> & Hk & Hk'); [lia|].
  unfold vector_resize. rewrite Hq, take_ge by (unfold lenN in *; lia).
  replace (q + 1 - lenN bs) with (q - lenN bs + 1) by lia.
  rewrite reps_add, app_assoc. change (reps 1 ?x) with [x].
  destruct (bv_make_blocks (bs ++ reps (q - lenN bs) (fill_word b)) (fill_word b) k (64 * q + k))
    as [Hinv Hl]; try done; [|by destruct b|autorewrite with lendb; lia|].
  { apply Forall_app. split; [done|]. apply Forall_replicate. by destruct b. }
  split; [done|]. rewrite Hl, words_app, (words_reps _ _ b) by (by destruct b).
  rewrite <- app_assoc. f_equal.
  replace (bits_of (fill_word b) k) with (reps k b)
    by (destruct b; symmetry; [by apply bits_of_all|apply bits_of_none]).
  rewrite <- reps_add. f_equal. lia.
Qed.

Lemma bv_resize_spec bv n b :
  bv_inv bv → size_ bv < n →
  bv_inv (resize bv n b) ∧ to_list (resize bv n b) = to_list bv ++ reps (n - size_ bv) b.
Proof.
  intros Hinv Hn. unfold resize, partial_bits. rewrite (proj2 (N.leb_gt n _)) by done.
  destruct Hinv as [|bs x k Hbs Hx Hk Hk'].
  { destruct (bv_grow [] n b) as [? E]; [done..|]. split; [done|]. exact E. }
  rewrite bv_to_list_blocks by done. cbn [blocks_ size_] in *. rewrite partial_blocks by done.
  destruct (N.eqb_spec k 64) as [->|Hne].
  - cbn [N.ltb N.compare andb]. destruct (bv_grow (bs ++ [x]) n b) as [? E].
    + by apply Forall_app; split; [|apply Forall_singleton].
    + autorewrite with lendb. lia.
    + split; [done|]. rewrite E, words_snoc. do 2 f_equal. autorewrite with lendb. lia.
  - rewrite (proj2 (N.ltb_lt 0 k)) by done. cbn [andb]. unfold word.width.
    rewrite back_snoc, set_back_snoc. destruct (fill_above x k b Hx) as [Hu Hb]; [done|].
    set (x' := if b then _ else _) in *. destruct (N.leb_spec (n - (64 * lenN bs + k)) (64 - k)).
    + rewrite <- app_assoc, <- Hb by lia. apply bv_make_blocks; try done; lia.
    + destruct (bv_grow (bs ++ [x']) n b) as [? E].
      * by apply Forall_app; split; [|apply Forall_singleton].
      * autorewrite with lendb. lia.
      * split; [done|]. rewrite E, words_snoc, <- !app_assoc.
        replace (bits_of x' 64) with (bits_of x k ++ reps (64 - k) b)
          by (rewrite <- Hb by lia; f_equal; lia).
        rewrite <- app_assoc, <- reps_add. do 3 f_equal. autorewrite with lendb. lia.
Qed.

Lemma bv_append_block_spec bv y n :
  bv_inv bv → is_u64 y → 0 < n → n <= 64 →
  bv_inv (append_block bv y n) ∧ to_list (append_block bv y n) = to_list bv ++ bits_of y n.
Proof.
  intros [|bs x k Hbs Hx Hk Hk'] Hy Hn Hn'.
  { apply (bv_make_blocks [] y n n); done. }
  rewrite bv_to_list_blocks by done. unfold append_block, partial_bits, Prelude.push_back.
  cbn [blocks_ size_]. rewrite partial_blocks by done. destruct (N.eqb_spec k 64) as [->|Hne].
  - cbn [N.eqb]. rewrite <- words_snoc. apply bv_make_blocks; try done; [by apply Forall_app; split; [|apply Forall_singleton]|].
    autorewrite with lendb. lia.
  - rewrite (proj2 (N.eqb_neq k 0)) by lia. rewrite back_snoc, set_back_snoc. unfold word.width.
    set (x' := _ |u _). assert (is_u64 x') as Hx' by (unfold x'; auto with u64db).
    assert (∀ j, k + j <= 64 → bits_of x' (k + j) = bits_of x k ++ bits_of y j) as Hb.
    { intros j Hj. rewrite bits_of_app. f_equal; apply bits_of_ext; intros; unfold x'; bitblast.
      f_equal. lia. }
    destruct (N.ltb_spec (64 - k) n).
    + replace (bits_of y n) with (bits_of y (64 - k + (n - (64 - k)))) by (f_equal; lia).
      rewrite bits_of_app, <- (app_assoc (words bs)), (app_assoc (bits_of x k)), <- Hb by lia.
      replace (k + (64 - k)) with 64 by lia. rewrite app_assoc, <- words_snoc.
      apply bv_make_blocks; auto with u64db; try lia; [by apply Forall_app; split; [|apply Forall_singleton]|].
      autorewrite with lendb. lia.
    + rewrite <- app_assoc, <- Hb by lia. apply bv_make_blocks; try done; lia.
Qed.

Lemma bv_size_spec bv : bv_inv bv → size bv = lenN (to_list bv).
Proof.
  intros [|bs x k Hbs Hx Hk Hk']; [done|]. rewrite bv_to_list_blocks by done.
  autorewrite with lendb. by rewrite words_len.
Qed.
End invariant.
