(* ===== verification/Bitmap.v ===== *)
(** The type-erased bitmap and sets of event IDs:
    [libvast/include/vast/bitmap.hpp], [libvast/src/bitmap.cpp] and
    [libvast/src/ids.cpp].

    The operations visit the variant. The alternative [null_bitmap] is part of
    the type, but its range is wrong on some vectors with a partial last block,
    so the laws are proved for bitmaps that hold one of the other two
    alternatives; [bitmap()] holds the first. *)

From S2P Require Import Prelude Word Bits BitmapConcept EwahBitmap EwahRange WahBitmap.
From S2P Require Import Bitvector BitmapAlgorithms.

Module bitmap.

Inductive bitmap :=
| ewah (bm : ewah_bitmap.ewah_bitmap)
| null (bm : null_bitmap.null_bitmap)
| wah (bm : wah_bitmap.wah_bitmap).

Definition nil : bitmap := ewah ewah_bitmap.nil.

Definition size (b : bitmap) : N :=
  match b with
  | ewah bm => ewah_bitmap.size bm
  | null bm => null_bitmap.size bm
  | wah bm => wah_bitmap.size bm
  end.

Definition append_bit (b : bitmap) (bit : bool) : bitmap :=
  match b with
  | ewah bm => ewah (ewah_bitmap.append_bit bm bit)
  | null bm => null (null_bitmap.append_bit bm bit)
  | wah bm => wah (wah_bitmap.append_bit bm bit)
  end.

Definition append_bits (b : bitmap) (bit : bool) (n : N) : bitmap :=
  match b with
  | ewah bm => ewah (ewah_bitmap.append_bits bm bit n)
  | null bm => null (null_bitmap.append_bits bm bit n)
  | wah bm => wah (wah_bitmap.append_bits bm bit n)
  end.

Definition append_block (b : bitmap) (value n : N) : bitmap :=
  match b with
  | ewah bm => ewah (ewah_bitmap.append_block bm value n)
  | null bm => null (null_bitmap.append_block bm value n)
  | wah bm => wah (wah_bitmap.append_block bm value n)
  end.

Definition flip (b : bitmap) : bitmap :=
  match b with
  | ewah bm => ewah (ewah_bitmap.flip bm)
  | null bm => null (null_bitmap.flip bm)
  | wah bm => wah (wah_bitmap.flip bm)
  end.

Definition eqb (x y : bitmap) : bool :=
  match x, y with
  | ewah x, ewah y => ewah_bitmap.eqb x y
  | null x, null y => null_bitmap.eqb x y
  | wah x, wah y => wah_bitmap.eqb x y
  | _, _ => false
  end.

(** [bitmap_bit_range] *)
Definition bit_range (b : bitmap) : list bits.bits :=
  match b with
  | ewah bm => ewah_bitmap_range.bit_range bm
  | null bm => null_bitmap_range.bit_range bm
  | wah bm => wah_bitmap_range.bit_range bm
  end.

(** The bits of the bitmap. *)
Definition to_list (b : bitmap) : list bool :=
  match b with
  | ewah bm => ewah_bitmap.to_list bm
  | null bm => null_bitmap.to_list bm
  | wah bm => wah_bitmap.to_list bm
  end.

Definition wf (b : bitmap) : Prop :=
  match b with ewah bm => ewah_inv bm | null _ => False | wah bm => wah_inv bm end.
End bitmap.

#[export] Instance bitmap_ops : BitmapOps bitmap.bitmap := {
  bm_nil := bitmap.nil;
  bm_size := bitmap.size;
  bm_append_bit := bitmap.append_bit;
  bm_append_bits := bitmap.append_bits;
  bm_append_block := bitmap.append_block;
  bm_flip := bitmap.flip;
  bit_range := bitmap.bit_range
}.

(** Each law is the law of the alternative the bitmap holds. *)
Ltac visit_bitmap ewah_law wah_law :=
  let b := fresh "b" in
  intros b; intros; destruct b; cbn [bitmap.wf] in *;
  [eapply ewah_law; eassumption|done|eapply wah_law; eassumption].

#[refine, export] Instance bitmap_bitmap : Bitmap bitmap.bitmap := {|
  bm_wf := bitmap.wf;
  bm_list := bitmap.to_list
|}.
Proof.
  - abstract visit_bitmap (bm_max (B:=ewah_bitmap.ewah_bitmap)) (bm_max (B:=wah_bitmap.wah_bitmap)).
  - abstract (split; [constructor|done]).
  - abstract visit_bitmap (bm_size_spec (B:=ewah_bitmap.ewah_bitmap))
      (bm_size_spec (B:=wah_bitmap.wah_bitmap)).
  - abstract visit_bitmap (bm_append_bit_spec (B:=ewah_bitmap.ewah_bitmap))
      (bm_append_bit_spec (B:=wah_bitmap.wah_bitmap)).
  - abstract visit_bitmap (bm_append_bits_spec (B:=ewah_bitmap.ewah_bitmap))
      (bm_append_bits_spec (B:=wah_bitmap.wah_bitmap)).
  - abstract visit_bitmap (bm_append_block_spec (B:=ewah_bitmap.ewah_bitmap))
      (bm_append_block_spec (B:=wah_bitmap.wah_bitmap)).
  - abstract visit_bitmap (bm_flip_spec (B:=ewah_bitmap.ewah_bitmap))
      (bm_flip_spec (B:=wah_bitmap.wah_bitmap)).
  - abstract visit_bitmap (bm_range_spec (B:=ewah_bitmap.ewah_bitmap))
      (bm_range_spec (B:=wah_bitmap.wah_bitmap)).
Defined.

Module ids.
Section ids.
Context {B : Type} `{BitmapOps B}.

(** One range of [make_ids]. *)
Definition add_range (result : B) (r : N * N) : B :=
  let '(first, last) := r in
  if bm_size result <=? first then
    bm_append_bits (bm_append_bits result false (first - bm_size result)) true (last - first)
  else
    let tmp := bm_append_bits (bm_append_bits bm_nil false first) true (last - first) in
    bitmap_algorithms.binary_or result tmp.

(** [make_ids(ranges, min_size, default_bit)] *)
Definition make_ids (ranges : list (N * N)) (min_size : N) (default_bit : bool) : B :=
  let result := foldl add_range bm_nil ranges in
  if bm_size result <? min_size
  then bm_append_bits result default_bit (min_size - bm_size result)
  else result.
End ids.
End ids.

(** ** The IDs of a list of ranges *)

Definition id_in (i : N) (r : N * N) : bool := (r.1 <=? i) && (i <? r.2).
Definition covered (ranges : list (N * N)) (i : N) : bool := existsb (id_in i) ranges.
(** The end of the last range. *)
Definition hull (ranges : list (N * N)) : N := foldl (λ n r, N.max n r.2) 0 ranges.
(** The ranges [make_ids] asserts, on positions a bitmap can hold. *)
Definition ranges_ok (ranges : list (N * N)) : Prop := Forall (λ r, r.1 < r.2 ∧ r.2 <= max_size) ranges.

Lemma hull_snoc ranges r : hull (ranges ++ [r]) = N.max (hull ranges) r.2.
Proof. unfold hull. by rewrite foldl_app. Qed.

Lemma covered_snoc ranges r i : covered (ranges ++ [r]) i = covered ranges i || id_in i r.
Proof. unfold covered. rewrite existsb_app. cbn. by rewrite orb_false_r. Qed.

Lemma bit_at_reps n b i : bit_at (reps n b) i = b && (N.of_nat i <? n).
Proof.
  unfold bit_at. rewrite lookup_reps. case_decide; cbn [default].
  - rewrite (proj2 (N.ltb_lt _ _)) by lia. by rewrite andb_true_r.
  - rewrite (proj2 (N.ltb_ge _ _)) by lia. by rewrite andb_false_r.
Qed.

Lemma bit_at_app_reps l n b i :
  bit_at (l ++ reps n b) i = bit_at l i || (b && id_in (N.of_nat i) (lenN l, lenN l + n)).
Proof.
  rewrite bit_at_app, bit_at_reps. unfold id_in, lenN. cbn [fst snd]. case_decide.
  - rewrite (proj2 (N.leb_gt _ _)) by lia. cbn [andb]. by rewrite andb_false_r, orb_false_r.
  - rewrite bit_at_ge, (proj2 (N.leb_le _ _)) by lia. cbn [orb andb]. f_equal.
    apply Bool.eq_iff_eq_true. rewrite !N.ltb_lt. lia.
Qed.

Section make_ids.
Context {B : Type} `{Bitmap B}.
Implicit Types (b : B) (ranges : list (N * N)).

Definition ids_of b ranges : Prop :=
  bm_wf b ∧ lenN (bm_list b) = hull ranges ∧
  ∀ i, bit_at (bm_list b) i = covered ranges (N.of_nat i).

Lemma append_two b x y n m :
  bm_wf b → lenN (bm_list b) + n + m <= max_size →
  bm_wf (bm_append_bits (bm_append_bits b x n) y m) ∧
  bm_list (bm_append_bits (bm_append_bits b x n) y m) = (bm_list b ++ reps n x) ++ reps m y.
Proof.
  intros Hb Hle. destruct (bm_append_bits_spec b x n Hb) as [Hb' E]; [lia|].
  rewrite <- E. apply bm_append_bits_spec; [done|]. rewrite E. autorewrite with lendb. lia.
Qed.

Lemma add_range_spec b ranges r :
  ids_of b ranges → r.1 < r.2 → r.2 <= max_size →
  ids_of (ids.add_range b r) (ranges ++ [r]).
Proof.
  intros (Hb & Hlen & Hbits) Hr Hmax. destruct r as [first last]. cbn [fst snd] in *.
  pose proof (bm_max b Hb). unfold ids.add_range, ids_of. rewrite hull_snoc. cbn [snd].
  rewrite bm_size_spec, Hlen by done. destruct (N.leb_spec (hull ranges) first).
  - destruct (append_two b false true (first - hull ranges) (last - first)) as [Hw E];
      [done|lia|]. split; [done|]. rewrite E. autorewrite with lendb. split; [lia|].
    intros i. rewrite covered_snoc, <- Hbits, !bit_at_app_reps. cbn [andb].
    rewrite orb_false_r. autorewrite with lendb. rewrite Hlen. do 3 f_equal; lia.
  - destruct bm_nil_spec as [Hn En].
    destruct (append_two bm_nil false true first (last - first)) as [Hw E];
      [done|rewrite En, lenN_nil; lia|].
    destruct (binary_or_spec (R:=B) _ _ Hb Hw) as [Ho ->]. split; [done|].
    rewrite E, En. unfold lenN in *. rewrite length_pad_eval, !length_app, !length_reps. cbn [length].
    split; [lia|]. intros i.
    rewrite bit_at_pad_eval, covered_snoc, Hbits, !bit_at_app_reps by done. f_equal.
    cbn [andb]. rewrite orb_false_r. unfold bit_at.
    rewrite app_nil_l, lenN_reps, lookup_nil. cbn [default orb]. do 2 f_equal. lia.
Qed.

Lemma add_ranges_spec ranges : ranges_ok ranges → ids_of (foldl ids.add_range (bm_nil (B:=B)) ranges) ranges.
Proof.
  unfold ranges_ok. induction ranges as [|r ranges IH] using rev_ind; intros Hok.
  - destruct (bm_nil_spec (B:=B)) as [Hn En]. unfold ids_of. cbn [foldl]. rewrite En. by repeat split.
  - apply Forall_app in Hok as [Hok [Hr _]%Forall_cons_iff]. rewrite foldl_app.
    apply add_range_spec; [by apply IH|apply Hr..].
Qed.

(** The IDs of [make_ids]: the ranges, then the default bit up to the minimum size. *)
Lemma make_ids_bits ranges min_size d :
  ranges_ok ranges → min_size <= max_size →
  let b := ids.make_ids (B:=B) ranges min_size d in
  bm_wf b ∧ bm_size b = N.max (hull ranges) min_size ∧
  ∀ i, bit_at (bm_list b) (N.to_nat i) =
       covered ranges i || (d && id_in i (hull ranges, min_size)).
Proof.
  intros Hok Hmin. cbn zeta. destruct (add_ranges_spec ranges Hok) as (Hb & Hlen & Hbits).
  unfold ids.make_ids. set (b := foldl _ _ _) in *. rewrite (bm_size_spec b Hb), Hlen.
  destruct (N.ltb_spec (hull ranges) min_size).
  - destruct (bm_append_bits_spec b d (min_size - hull ranges) Hb) as [Hw E]; [lia|].
    rewrite bm_size_spec, E by done. split; [done|]. autorewrite with lendb. split; [lia|].
    intros i. rewrite bit_at_app_reps, Hbits, N2Nat.id, Hlen. do 4 f_equal. lia.
  - rewrite bm_size_spec, Hlen by done. split; [done|]. split; [lia|].
    intros i. rewrite Hbits, N2Nat.id. unfold id_in. cbn [fst snd].
    destruct (N.leb_spec (hull ranges) i), (N.ltb_spec i min_size);
      cbn [andb]; rewrite ?andb_false_r, ?orb_false_r; try done. lia.
Qed.
End make_ids.
