(* ===== verification/Operator.v ===== *)
(** Relational operators: [libvast/include/vast/operator.hpp] and
    [libvast/src/operator.cpp]. *)

From S2P Require Import Prelude.

(** [enum class relational_operator] *)
Inductive relational_operator :=
| in_ | not_in | ni | not_ni | equal | not_equal
| less | less_equal | greater | greater_equal.

#[export] Instance relational_operator_eq_dec : EqDecision relational_operator.
Proof. solve_decision. Defined.

(** The underlying value of the enumerator. *)
Definition op_index (op : relational_operator) : N :=
  match op with
  | in_ => 0 | not_in => 1 | ni => 2 | not_ni => 3 | equal => 4 | not_equal => 5
  | less => 6 | less_equal => 7 | greater => 8 | greater_equal => 9
  end.

(** Equality of operators as the sources test it. *)
Definition op_eqb (op op' : relational_operator) : bool := op_index op =? op_index op'.
Notation "op ==o op'" := (op_eqb op op') (at level 70, no associativity).

Lemma op_eqb_spec op op' : reflect (op = op') (op ==o op').
Proof.
  unfold op_eqb. destruct (N.eqb_spec (op_index op) (op_index op')) as [E|E]; constructor;
    [by destruct op, op'|by intros ->].
Qed.

Definition is_negated (op : relational_operator) : bool :=
  match op with
  | equal | less | less_equal | greater | greater_equal | in_ | ni => false
  | not_ni | not_in | not_equal => true
  end.

Definition negate (op : relational_operator) : relational_operator :=
  match op with
  | equal => not_equal
  | not_equal => equal
  | less => greater_equal
  | less_equal => greater
  | greater => less_equal
  | greater_equal => less
  | in_ => not_in
  | not_in => in_
  | ni => not_ni
  | not_ni => ni
  end.

Definition flip (op : relational_operator) : relational_operator :=
  match op with
  | equal | not_equal => op
  | less => greater
  | less_equal => greater_equal
  | greater => less
  | greater_equal => less_equal
  | in_ => ni
  | not_in => not_ni
  | ni => in_
  | not_ni => not_in
  end.

(** ** Meaning

    What an operator says of two elements of a decidable total order, given as
    [eqb] and [ltb]; the containment operators have no meaning there. *)
Section meaning.
Context {A : Type} (eqb ltb : A → A → bool).

Definition compare (op : relational_operator) (x y : A) : option bool :=
  match op with
  | equal => Some (eqb x y)
  | not_equal => Some (negb (eqb x y))
  | less => Some (ltb x y)
  | less_equal => Some (negb (ltb y x))
  | greater => Some (ltb y x)
  | greater_equal => Some (negb (ltb x y))
  | in_ | not_in | ni | not_ni => None
  end.
End meaning.

(** The operators an order gives a meaning to. *)
Definition is_comparison (op : relational_operator) : bool :=
  match op with
  | in_ | not_in | ni | not_ni => false
  | _ => true
  end.

(** A comparison of machine integers. *)
Definition cmp (op : relational_operator) (x y : N) : bool :=
  default false (compare N.eqb N.ltb op x y).

Lemma negate_involutive op : negate (negate op) = op.
Proof. by destruct op. Qed.
Lemma flip_involutive op : flip (flip op) = op.
Proof. by destruct op. Qed.
Lemma negate_flip op : negate (flip op) = flip (negate op).
Proof. by destruct op. Qed.

Lemma cmp_negate op x y : is_comparison op = true → cmp (negate op) x y = negb (cmp op x y).
Proof. destruct op; cbn; try done; intros _; by rewrite ?negb_involutive. Qed.

Lemma cmp_flip op x y : is_comparison op = true → cmp (flip op) x y = cmp op y x.
Proof. destruct op; cbn; try done; intros _; by rewrite N.eqb_sym. Qed.
