(* ===== verification/Base.v ===== *)
(** Attribute value decomposition: [libvast/include/vast/base.hpp] and
    [libvast/src/base.cpp]. *)

From S2P Require Import Prelude.

Module base.

(** [class base]; the components, least significant first. *)
Record base := mk { values_ : list N }.

Definition uniform (b : N) (n : N) : base := mk (reps n b).

Definition well_defined (b : base) : bool :=
  match values_ b with [] => false | _ => forallb (λ x, 2 <=? x) (values_ b) end.

Definition size (b : base) : N := lenN (values_ b).
Definition empty (b : base) : bool := match values_ b with [] => true | _ => false end.

(** The loop of [decompose]: the components written and the value left. *)
Fixpoint decompose_loop (values : list N) (x : N) : list N :=
  match values with
  | [] => []
  | b :: values => x mod b :: decompose_loop values (x / b)
  end.
(** [decompose] overwrites the first [size()] elements of [rng]. *)
Definition decompose (b : base) (x : N) (rng : list N) : list N :=
  decompose_loop (values_ b) x ++ drop (length (values_ b)) rng.

(** The loop of [compose], on 64-bit integers. *)
Fixpoint compose_loop (values rng : list N) (result m : N) : N :=
  match values, rng with
  | b :: values, x :: rng => compose_loop values rng (result +u (x *u m)) (m *u b)
  | _, _ => result
  end.
Definition compose (b : base) (rng : list N) : N := compose_loop (values_ b) rng 0 1.

End base.

(** The number of values a base can tell apart. *)
Fixpoint base_product (values : list N) : N :=
  match values with [] => 1 | b :: values => b * base_product values end.

(** The value of a digit sequence, without overflow. *)
Fixpoint digits_value (values ds : list N) : N :=
  match values, ds with
  | b :: values, d :: ds => d + b * digits_value values ds
  | _, _ => 0
  end.

Definition digits_ok (values ds : list N) : Prop := Forall2 (λ b d, d < b) values ds.

Section decomposition.
Import base.
Implicit Types (values ds : list N) (x : N).

Lemma well_defined_Forall b : well_defined b = true → Forall (λ x, 2 <= x) (values_ b) ∧ values_ b ≠ [].
Proof.
  unfold well_defined. destruct (values_ b) as [|v vs] eqn:E; [done|]. intros H.
  split; [|done]. apply Forall_forall. intros x Hx.
  apply N.leb_le. exact (proj1 (forallb_forall _ _) H x Hx).
Qed.

Lemma length_decompose values x : length (decompose_loop values x) = length values.
Proof. revert x. induction values; intros; cbn; [done|]. by f_equal. Qed.

Lemma decompose_digits values x :
  Forall (λ b, 2 <= b) values → digits_ok values (decompose_loop values x).
Proof.
  intros H. revert x. induction H as [|b values Hb _ IH]; intros x; cbn; [constructor|].
  constructor; [apply N.mod_lt; lia|apply IH].
Qed.

Lemma decompose_value values x :
  Forall (λ b, 2 <= b) values →
  digits_value values (decompose_loop values x) = x mod base_product values.
Proof.
  intros H. revert x. induction H as [|b values Hb Hvs IH]; intros x; cbn.
  { by rewrite N.mod_1_r. }
  rewrite IH, N.Div0.mod_mul_r. lia.
Qed.

Lemma digits_value_lt values ds : digits_ok values ds → digits_value values ds < base_product values.
Proof.
  induction 1 as [|b d values ds Hd _ IH]; cbn; [lia|]. nia.
Qed.

Lemma digits_value_inj values ds ds' :
  digits_ok values ds → digits_ok values ds' →
  digits_value values ds = digits_value values ds' → ds = ds'.
Proof.
  intros H. revert ds'. induction H as [|b d values ds Hd _ IH]; intros ds' H' E.
  { by inversion H'. }
  inversion H' as [|? d' ? ds0 Hd' Hds']; subst. cbn in E.
  assert (d = d') as ->.
  { rewrite <- (N.mod_small d b), <- (N.mod_small d' b) by done.
    rewrite <- (N.Div0.mod_add d (digits_value values ds) b).
    rewrite <- (N.Div0.mod_add d' (digits_value values ds0) b). f_equal. lia. }
  f_equal. apply IH; [done|]. nia.
Qed.
End decomposition.

(** ** Composition *)

Section composition.
Import base.
Implicit Types (values ds : list N).

Lemma wrap_add_l x y : wrap (wrap x + y) = wrap (x + y).
Proof. unfold wrap. apply N.Div0.add_mod_idemp_l. Qed.
Lemma wrap_add_r x y : wrap (x + wrap y) = wrap (x + y).
Proof. unfold wrap. apply N.Div0.add_mod_idemp_r. Qed.
Lemma wrap_mul_l x y : wrap (wrap x * y) = wrap (x * y).
Proof. unfold wrap. apply N.Div0.mul_mod_idemp_l. Qed.

Lemma compose_loop_spec values ds result m :
  compose_loop values ds (wrap result) (wrap m) = wrap (result + m * digits_value values ds).
Proof.
  revert ds result m.
  induction values as [|b values IH]; intros [|d ds] result m; cbn [compose_loop digits_value];
    rewrite ?N.mul_0_r, ?N.add_0_r; try done.
  rewrite wrap_mul_l, wrap_add_l, wrap_add_r, (N.mul_comm d), <- (wrap_add_r result).
  rewrite wrap_mul_l, wrap_add_r, IH. f_equal. lia.
Qed.

Lemma compose_spec b ds : compose b ds = wrap (digits_value (values_ b) ds).
Proof.
  unfold compose. pose proof (compose_loop_spec (values_ b) ds 0 1) as E.
  change (wrap 0) with 0 in E. change (wrap 1) with 1 in E. rewrite E. f_equal. lia.
Qed.
End composition.

(** ** Comparing digit by digit *)

(** Whether the value of [vs] is at most the value of [xs], from the least
    significant digit on; [acc] is the answer for the digits before. *)
Fixpoint le_digits (acc : bool) (vs xs : list N) : bool :=
  match vs, xs with
  | v :: vs, x :: xs => le_digits ((v <? x) || ((v <=? x) && acc)) vs xs
  | _, _ => acc
  end.

Lemma le_digits_spec values vs xs acc :
  digits_ok values vs → digits_ok values xs →
  le_digits acc vs xs =
  (digits_value values vs <? digits_value values xs)
  || ((digits_value values vs =? digits_value values xs) && acc).
Proof.
  intros Hvs. revert xs acc. induction Hvs as [|b v values vs Hv _ IH]; intros xs acc Hxs.
  { by inversion Hxs. }
  inversion Hxs as [|? x ? xs' Hx Hxs']; subst. cbn [le_digits digits_value].
  rewrite IH by done. set (V := digits_value values vs). set (X := digits_value values xs').
  destruct (N.lt_trichotomy V X) as [HVX|[HVX|HVX]].
  - rewrite (proj2 (N.ltb_lt V X)) by done. rewrite (proj2 (N.ltb_lt (v + _) _)) by nia. done.
  - rewrite HVX, N.ltb_irrefl, N.eqb_refl. cbn [orb andb].
    destruct (N.ltb_spec v x), (N.leb_spec v x), (N.ltb_spec (v + b * X) (x + b * X)),
      (N.eqb_spec (v + b * X) (x + b * X)); try lia; done.
  - rewrite (proj2 (N.ltb_ge V X)), (proj2 (N.eqb_neq V X)) by lia.
    rewrite (proj2 (N.ltb_ge (v + _) _)), (proj2 (N.eqb_neq (v + _) _)) by nia. done.
Qed.

Lemma decompose_le values v x :
  Forall (λ b, 2 <= b) values → v < base_product values → x < base_product values →
  le_digits true (base.decompose_loop values v) (base.decompose_loop values x) = (v <=? x).
Proof.
  intros Hb Hv Hx. rewrite (le_digits_spec values) by (by apply decompose_digits).
  rewrite !decompose_value, !N.mod_small by done. cases_N; done || lia.
Qed.

Lemma decompose_eq values v x :
  Forall (λ b, 2 <= b) values → v < base_product values → x < base_product values →
  bool_decide (base.decompose_loop values v = base.decompose_loop values x) = (v =? x).
Proof.
  intros Hb Hv Hx. apply eq_true_iff_eq. rewrite bool_decide_eq_true, N.eqb_eq.
  split; [|by intros ->]. intros E%(f_equal (digits_value values)).
  by rewrite !decompose_value, !N.mod_small in E.
Qed.
