(* ===== verification/Coder.v ===== *)
(** The bitmap coders with one level: [singleton_coder], [vector_coder],
    [equality_coder], [range_coder] and [bitslice_coder] of
    [libvast/include/vast/coder.hpp].

    The bitmaps of a vector coder are [mutable] and may be shorter than the
    coder: [bitmap_at] fills them up when it is called, also from [decode], so
    the operations that call it return the coder as well. *)

From S2P Require Import Prelude Word Bits BitmapConcept BitmapAlgorithms Operator.

Module singleton_coder.
Section singleton_coder.
Context {B : Type} `{BitmapOps B}.

Record singleton_coder := mk { bitmap_ : B }.

Definition empty : singleton_coder := mk bm_nil.

Definition encode (c : singleton_coder) (x : bool) (n : N) : singleton_coder :=
  mk (bm_append_bits (bitmap_ c) x n).

Definition decode (c : singleton_coder) (op : relational_operator) (x : bool) : B :=
  let result := bitmap_ c in
  if (x && (op ==o equal)) || (negb x && (op ==o not_equal)) then result
  else bm_flip result.

Definition skip (c : singleton_coder) (n : N) : singleton_coder :=
  mk (bm_append_bits (bitmap_ c) false n).
Definition append (c other : singleton_coder) : singleton_coder :=
  mk (bitmap_base.append (bitmap_ c) (bitmap_ other)).
Definition size (c : singleton_coder) : N := bm_size (bitmap_ c).
End singleton_coder.
Arguments singleton_coder : clear implicits.
Arguments mk {B}.
End singleton_coder.

Module vector_coder.
Section vector_coder.
Context {B : Type} `{BitmapOps B}.

Record vector_coder := mk { size_ : N; bitmaps_ : list B }.

(** [vector_coder(size_t n)] *)
Definition make (n : N) : vector_coder := mk 0 (reps n bm_nil).

Definition bitmap_count (c : vector_coder) : N := lenN (bitmaps_ c).
Definition size (c : vector_coder) : N := size_ c.
Definition nth_bitmap (c : vector_coder) (i : N) : B := default bm_nil (bitmaps_ c !! N.to_nat i).

(** Changing [bitmaps_[i]] in place. *)
Definition update (c : vector_coder) (i : N) (f : B → B) : vector_coder :=
  mk (size_ c) (alter f (N.to_nat i) (bitmaps_ c)).

(** [lazy_bitmap_at(index)]; the coders differ in the bit they fill with. *)
Definition fill (bit : bool) (size : N) (bm : B) : B :=
  bm_append_bits bm bit (size - bm_size bm).
Definition lazy_bitmap_at (bit : bool) (c : vector_coder) (index : N) : vector_coder * B :=
  let c := update c index (fill bit (size_ c)) in (c, nth_bitmap c index).

(** [append(other, bit)] *)
Definition append (c other : vector_coder) (bit : bool) : vector_coder :=
  mk (size_ c + size_ other)
    (zip_with (λ bm bm', bitmap_base.append (fill bit (size c) bm) bm')
       (bitmaps_ c) (bitmaps_ other)).

Definition skip (c : vector_coder) (n : N) : vector_coder := mk (size_ c + n) (bitmaps_ c).

End vector_coder.
Arguments vector_coder : clear implicits.
Arguments mk {B}.
End vector_coder.

Module equality_coder.
Import vector_coder.
Section equality_coder.
Context {B : Type} `{BitmapOps B}.
(** The priority queue of [nary_or]. *)
Context (top : list B → option (B * list B)).

Definition bitmap_at (c : vector_coder B) (index : N) : vector_coder B * B :=
  lazy_bitmap_at false c index.

Definition encode (c : vector_coder B) (x n : N) : vector_coder B :=
  let c := update c x (λ bm, bm_append_bits (fill false (size_ c) bm) true n) in
  mk (size_ c + n) (bitmaps_ c).

(** [nary_or] over some of the bitmaps, filled up. *)
Definition or_bitmaps (c : vector_coder B) (bitmaps : list B) : B :=
  fill false (size_ c) (bitmap_algorithms.nary_or top bitmaps).

Definition decode (c : vector_coder B) (op : relational_operator) (x : N)
    : vector_coder B * B :=
  match op with
  | less =>
      (c, if x =? 0 then bitmap_base.make (size_ c) false
          else or_bitmaps c (take (N.to_nat x) (bitmaps_ c)))
  | less_equal => (c, or_bitmaps c (take (N.to_nat (x + 1)) (bitmaps_ c)))
  | equal => bitmap_at c x
  | not_equal => let '(c, result) := bitmap_at c x in (c, bm_flip result)
  | greater_equal => (c, or_bitmaps c (drop (N.to_nat x) (bitmaps_ c)))
  | greater =>
      (c, if bitmap_count c - 1 <=? x then bitmap_base.make (size_ c) false
          else or_bitmaps c (drop (N.to_nat (x + 1)) (bitmaps_ c)))
  | _ => (c, bitmap_base.make (size_ c) false)
  end.

Definition append (c other : vector_coder B) : vector_coder B :=
  vector_coder.append c other false.
End equality_coder.
End equality_coder.

Module range_coder.
Import vector_coder.
Section range_coder.
Context {B : Type} `{BitmapOps B}.

Definition bitmap_at (c : vector_coder B) (index : N) : vector_coder B * B :=
  lazy_bitmap_at true c index.

(** The loop of [encode] over the bitmaps below [x]. *)
Definition encode (c : vector_coder B) (x n : N) : vector_coder B :=
  let c :=
    foldl (λ c i, update c (N.of_nat i) (λ bm, bm_append_bits (fill true (size_ c) bm) false n))
      c (seq 0 (N.to_nat x)) in
  mk (size_ c + n) (bitmaps_ c).

Definition decode (c : vector_coder B) (op : relational_operator) (x : N)
    : vector_coder B * B :=
  match op with
  | less =>
      if x =? 0 then (c, bitmap_base.make (size_ c) false) else bitmap_at c (x - 1)
  | less_equal => bitmap_at c x
  | equal =>
      let '(c, result) := bitmap_at c x in
      if 0 <? x then
        let '(c, below) := bitmap_at c (x - 1) in
        (c, bitmap_algorithms.binary_and result (bitmap_base.complement below))
      else (c, result)
  | not_equal =>
      let '(c, bm) := bitmap_at c x in
      let result := bitmap_base.complement bm in
      if 0 <? x then
        let '(c, below) := bitmap_at c (x - 1) in
        (c, bitmap_algorithms.binary_or result below)
      else (c, result)
  | greater => let '(c, bm) := bitmap_at c x in (c, bitmap_base.complement bm)
  | greater_equal =>
      if x =? 0 then (c, bitmap_base.make (size_ c) true)
      else let '(c, bm) := bitmap_at c (x - 1) in (c, bitmap_base.complement bm)
  | _ => (c, bitmap_base.make (size_ c) false)
  end.

Definition append (c other : vector_coder B) : vector_coder B :=
  vector_coder.append c other true.
End range_coder.
End range_coder.

Module bitslice_coder.
Import vector_coder.
Section bitslice_coder.
Context {B : Type} `{BitmapOps B}.

(** The loop of [encode] over all bitmaps. *)
Definition encode (c : vector_coder B) (x n : N) : vector_coder B :=
  let c :=
    foldl (λ c i, update c (N.of_nat i)
             (λ bm, bm_append_bits (fill false (size_ c) bm)
                      (((x >>u N.of_nat i) &u 1) =? 0) n))
      c (seq 0 (length (bitmaps_ c))) in
  mk (size_ c + n) (bitmaps_ c).

(** RangeEval-Opt for base 2, up to the final flip. *)
Definition range_eval (c : vector_coder B) (x : N) : B :=
  let result :=
    if (x &u 1) =? 0 then nth_bitmap c 0 else bitmap_base.make (size_ c) true in
  foldl (λ result i,
    if ((x >>u N.of_nat i) &u 1) =? 0
    then bitmap_algorithms.binary_and result (nth_bitmap c (N.of_nat i))
    else bitmap_algorithms.binary_or result (nth_bitmap c (N.of_nat i)))
    result (seq 1 (length (bitmaps_ c) - 1)).

Definition equal_eval (c : vector_coder B) (x : N) : B :=
  foldl (λ result i,
    let bm := nth_bitmap c (N.of_nat i) in
    bitmap_algorithms.binary_and result
      (if ((x >>u N.of_nat i) &u 1) =? 0 then bm else bitmap_base.complement bm))
    (bitmap_base.make (size_ c) true) (seq 0 (length (bitmaps_ c))).

Definition subset_eval (c : vector_coder B) (x : N) : B :=
  foldl (λ result i,
    if (((~u x) >>u N.of_nat i) &u 1) =? 0
    then bitmap_algorithms.binary_or result (nth_bitmap c (N.of_nat i)) else result)
    (bitmap_base.make (size_ c) false) (seq 0 (length (bitmaps_ c))).

Definition decode (c : vector_coder B) (op : relational_operator) (x : N) : B :=
  match op with
  | less => if x =? 0 then bitmap_base.make (size_ c) false else range_eval c (x - 1)
  | less_equal => range_eval c x
  | greater => bm_flip (range_eval c x)
  | greater_equal =>
      if x =? 0 then bitmap_base.make (size_ c) true else bm_flip (range_eval c (x - 1))
  | equal => equal_eval c x
  | not_equal => bm_flip (equal_eval c x)
  | in_ => if x =? 0 then bitmap_base.make (size_ c) false else bm_flip (subset_eval c x)
  | not_in => if x =? 0 then bitmap_base.make (size_ c) false else subset_eval c x
  | _ => bitmap_base.make (size_ c) false
  end.

Definition append (c other : vector_coder B) : vector_coder B :=
  vector_coder.append c other false.
End bitslice_coder.
End bitslice_coder.

(** ** Rows

    A coder stands for a list of rows; a row that was skipped holds [None]. *)

Notation rows := (list (option N)).

(** [res] has the bit [f v] at every row that holds a value [v]. *)
Definition answers (f : N → bool) (rs : rows) (res : list bool) : Prop :=
  (length res <= length rs)%nat ∧
  ∀ j v, rs !! j = Some (Some v) → res !! j = Some (f v).

(** [res] answers [op x]. *)
Definition decoded (op : relational_operator) (x : N) : rows → list bool → Prop :=
  answers (λ v, cmp op v x).

Section answers.
Implicit Types (f g : N → bool) (rs : rows).

Lemma answers_ext f g rs res :
  (∀ v, Some v ∈ rs → f v = g v) → answers f rs res → answers g rs res.
Proof.
  intros Hfg [Hlen Hres]. split; [done|]. intros j v Hj.
  rewrite <- Hfg by (by eapply list_elem_of_lookup_2). by apply Hres.
Qed.

Lemma answers_fmap f rs (h : option N → bool) :
  (∀ v, Some v ∈ rs → h (Some v) = f v) → answers f rs (h <$> rs).
Proof.
  intros Hf. split; [by rewrite length_fmap|]. intros j v Hj.
  rewrite list_lookup_fmap, Hj. cbn. by rewrite Hf by (by eapply list_elem_of_lookup_2).
Qed.

Lemma answers_reps f rs b n :
  n = lenN rs → (∀ v, Some v ∈ rs → b = f v) → answers f rs (reps n b).
Proof.
  intros -> Hb. replace (reps (lenN rs) b) with ((λ _, b) <$> rs); [by apply answers_fmap|].
  unfold reps, lenN. rewrite Nat2N.id. clear Hb. induction rs; cbn; by f_equal.
Qed.

Lemma answers_bit f rs res j v :
  answers f rs res → rs !! j = Some (Some v) → bit_at res j = f v ∧ (j < length res)%nat.
Proof.
  intros [_ Hres] Hj. specialize (Hres _ _ Hj). unfold bit_at. rewrite Hres.
  split; [done|]. by eapply lookup_lt_Some.
Qed.

Lemma answers_pad_eval (op : bool → bool → bool) f g rs res1 res2 :
  op false false = false → answers f rs res1 → answers g rs res2 →
  answers (λ v, op (f v) (g v)) rs (pad_eval op res1 res2).
Proof.
  intros Hop H1 H2. split.
  { rewrite length_pad_eval. destruct H1, H2. lia. }
  intros j v Hj. destruct (answers_bit _ _ _ _ _ H1 Hj) as [<- ?].
  destruct (answers_bit _ _ _ _ _ H2 Hj) as [<- ?].
  rewrite lookup_bit_at by (rewrite length_pad_eval; lia). by rewrite bit_at_pad_eval.
Qed.

Lemma answers_negb f rs res : answers f rs res → answers (λ v, negb (f v)) rs (negb <$> res).
Proof.
  intros [Hlen Hres]. split; [by rewrite length_fmap|]. intros j v Hj.
  by rewrite list_lookup_fmap, (Hres _ _ Hj).
Qed.
End answers.

(** A bitmap that answers. *)
Definition good {B} `{Bitmap B} (f : N → bool) (rs : rows) (bm : B) : Prop :=
  bm_wf bm ∧ answers f rs (bm_list bm).

Section good.
Context {B : Type} `{Bitmap B}.
Implicit Types (f g : N → bool) (rs : rows) (bm : B).

Lemma good_ext f g rs bm : (∀ v, Some v ∈ rs → f v = g v) → good f rs bm → good g rs bm.
Proof. intros Hfg [? ?]. split; [done|]. by eapply answers_ext. Qed.

Lemma good_and f g rs bm bm' :
  good f rs bm → good g rs bm' →
  good (λ v, f v && g v) rs (bitmap_algorithms.binary_and (R:=B) bm bm').
Proof.
  intros [Hwf Ha] [Hwf' Ha']. destruct (binary_and_spec (R:=B) bm bm' Hwf Hwf') as [? Hl].
  split; [done|]. rewrite Hl. by apply answers_pad_eval.
Qed.

Lemma good_or f g rs bm bm' :
  good f rs bm → good g rs bm' →
  good (λ v, f v || g v) rs (bitmap_algorithms.binary_or (R:=B) bm bm').
Proof.
  intros [Hwf Ha] [Hwf' Ha']. destruct (binary_or_spec (R:=B) bm bm' Hwf Hwf') as [? Hl].
  split; [done|]. rewrite Hl. by apply answers_pad_eval.
Qed.

Lemma good_xor f g rs bm bm' :
  good f rs bm → good g rs bm' →
  good (λ v, xorb (f v) (g v)) rs (bitmap_algorithms.binary_xor (R:=B) bm bm').
Proof.
  intros [Hwf Ha] [Hwf' Ha']. destruct (binary_xor_spec (R:=B) bm bm' Hwf Hwf') as [? Hl].
  split; [done|]. rewrite Hl. by apply answers_pad_eval.
Qed.

Lemma good_flip f rs bm : good f rs bm → good (λ v, negb (f v)) rs (bm_flip bm).
Proof.
  intros [Hwf Ha]. destruct (bm_flip_spec bm Hwf) as [? Hl].
  split; [done|]. rewrite Hl. by apply answers_negb.
Qed.

Lemma good_make b rs : lenN rs <= max_size → good (λ _, b) rs (bitmap_base.make (B:=B) (lenN rs) b).
Proof.
  intros Hmax. destruct (bitmap_make_spec (B:=B) (lenN rs) b Hmax) as [? Hl].
  split; [done|]. rewrite Hl. by apply answers_reps.
Qed.
End good.

Create HintDb gooddb.
#[export] Hint Resolve good_and good_or good_xor good_flip good_make : gooddb.

(** ** The bitmaps of a vector coder

    Bitmap [i] holds [code i] of the rows up to some row [k]; the rows behind
    it are ones that [lazy] allows to be left out, and [code] of such a row is
    the bit [d] that the coder fills with. *)

Section vectors.
Import vector_coder.
Context {B : Type} `{Bitmap B}.
Context (d : bool) (code : N → option N → bool) (lazy : N → option N → Prop).
Hypothesis lazy_code : ∀ i o, lazy i o → code i o = d.
Hypothesis lazy_none : ∀ i, lazy i None.
Implicit Types (c : vector_coder B) (rs : rows) (bm : B).

Definition slot (i : N) (rs : rows) bm : Prop :=
  bm_wf bm ∧ ∃ k, (k <= length rs)%nat ∧ bm_list bm = code i <$> take k rs ∧
    Forall (lazy i) (drop k rs).

Definition vec_rep c rs : Prop :=
  size_ c = lenN rs ∧ lenN rs <= max_size ∧
  ∀ i bm, bitmaps_ c !! i = Some bm → slot (N.of_nat i) rs bm.

Lemma lenN_fmap {A C} (f : A → C) (l : list A) : lenN (f <$> l) = lenN l.
Proof. unfold lenN. by rewrite length_fmap. Qed.

Lemma slot_size i rs bm : slot i rs bm → bm_size bm <= lenN rs.
Proof.
  intros (Hwf & k & Hk & Hl & _). rewrite bm_size_spec, Hl, lenN_fmap by done.
  unfold lenN. rewrite length_take. lia.
Qed.

Lemma fmap_lazy i rs : Forall (lazy i) rs → code i <$> rs = reps (lenN rs) d.
Proof.
  unfold reps, lenN. rewrite Nat2N.id. induction 1; cbn; [done|]. f_equal; auto.
Qed.

Lemma slot_fill i rs bm :
  slot i rs bm → lenN rs <= max_size →
  bm_wf (fill d (lenN rs) bm) ∧ bm_list (fill d (lenN rs) bm) = code i <$> rs.
Proof.
  intros Hs Hmax. pose proof (slot_size i rs bm Hs) as Hsz.
  destruct Hs as (Hwf & k & Hk & Hl & Hlazy). rewrite bm_size_spec in Hsz by done.
  unfold fill. rewrite bm_size_spec by done.
  destruct (bm_append_bits_spec bm d (lenN rs - lenN (bm_list bm)) Hwf) as [Hwf' Hl']; [lia|].
  split; [done|]. rewrite Hl', Hl, lenN_fmap. rewrite <- (take_drop k rs) at 4.
  rewrite fmap_app, (fmap_lazy i (drop k rs)) by done. do 2 f_equal.
  unfold lenN. rewrite length_take, length_drop. lia.
Qed.

(** A bitmap that holds all rows. *)
Lemma slot_full i rs bm : bm_wf bm → bm_list bm = code i <$> rs → slot i rs bm.
Proof.
  intros Hwf Hl. split; [done|]. exists (length rs). rewrite take_ge, drop_ge by done. auto.
Qed.

(** Rows that are allowed to be left out. *)
Lemma slot_lazy i rs rs' bm : slot i rs bm → Forall (lazy i) rs' → slot i (rs ++ rs') bm.
Proof.
  intros (Hwf & k & Hk & Hl & Hlazy) Hrs'. split; [done|]. exists k. rewrite length_app.
  rewrite take_app_le, drop_app_le by done. split; [lia|]. split; [done|].
  by apply Forall_app.
Qed.

(** Filling up and appending [n] times the code of [o]. *)
Lemma slot_append i rs bm o n b :
  slot i rs bm → code i o = b → lenN rs + n <= max_size →
  slot i (rs ++ reps n o) (bm_append_bits (fill d (lenN rs) bm) b n).
Proof.
  intros Hs Hb Hmax. destruct (slot_fill i rs bm Hs) as [Hwf Hl]; [lia|].
  destruct (bm_append_bits_spec (fill d (lenN rs) bm) b n Hwf) as [Hwf' Hl'].
  { by rewrite Hl, lenN_fmap. }
  apply slot_full; [done|]. by rewrite Hl', Hl, fmap_app, fmap_reps, Hb.
Qed.

Lemma vec_rep_make n : vec_rep (make n) [].
Proof.
  split; [done|]. split; [done|]. intros i bm Hi. apply lookup_replicate in Hi as [-> _].
  destruct (bm_nil_spec (B:=B)) as [Hwf Hl]. by apply slot_full.
Qed.

Lemma vec_rep_skip c rs n :
  vec_rep c rs → lenN rs + n <= max_size → vec_rep (skip c n) (rs ++ reps n None).
Proof.
  intros (Hsz & Hmax & Hbm) Hn. split; [|split]; cbn [skip size_ bitmaps_].
  - autorewrite with lendb. lia.
  - by autorewrite with lendb.
  - intros i bm Hi. apply slot_lazy; [by apply Hbm|]. apply Forall_replicate, lazy_none.
Qed.

(** [bitmap_at] only fills up the bitmap it returns. *)
Lemma lazy_bitmap_at_spec c rs i c' bm :
  vec_rep c rs → i < lenN (bitmaps_ c) → lazy_bitmap_at d c i = (c', bm) →
  vec_rep c' rs ∧ lenN (bitmaps_ c') = lenN (bitmaps_ c) ∧
  bm_wf bm ∧ bm_list bm = code i <$> rs.
Proof.
  intros (Hsz & Hmax & Hbm) Hi [= <- <-]. unfold nth_bitmap, update. cbn [bitmaps_ size_].
  destruct (lookup_lt_is_Some_2 (bitmaps_ c) (N.to_nat i)) as [b Hb]; [unfold lenN in Hi; lia|].
  rewrite list_lookup_alter_eq, Hb, Hsz. cbn [fmap option_fmap option_map from_option].
  destruct (slot_fill i rs b) as [Hwf Hl]; [rewrite <- (N2Nat.id i); by apply Hbm|done|].
  split; [|split; [unfold lenN; by rewrite length_alter|done]].
  split; [done|]. split; [done|]. intros j bm Hj. cbn [bitmaps_] in Hj.
  rewrite list_lookup_alter in Hj. case_decide; [|by apply Hbm]. subst j.
  apply fmap_Some in Hj as (b' & Hb' & ->). simplify_eq. rewrite N2Nat.id. by apply slot_full.
Qed.

(** The encoding loops: the bitmaps below [m] take [n] more bits. *)
Lemma alter_loop_lookup (f : nat → B → B) m (bms : list B) i :
  foldl (λ bms i, alter (f i) i bms) bms (seq 0 m) !! i =
  if decide (i < m)%nat then f i <$> bms !! i else bms !! i.
Proof.
  induction m as [|m IH]; [by rewrite decide_False by lia|].
  rewrite seq_S, foldl_app. cbn [foldl Nat.add].
  destruct (decide (i = m)) as [->|Hne].
  - rewrite list_lookup_alter_eq, IH, decide_False, decide_True by lia. done.
  - rewrite list_lookup_alter_ne, IH by done. by repeat case_decide; try lia.
Qed.

Lemma lenN_alter_loop (f : nat → B → B) l (bms : list B) :
  lenN (foldl (λ bms i, alter (f i) i bms) bms l) = lenN bms.
Proof.
  revert bms. induction l as [|i l IH]; intros bms; [done|]. cbn [foldl]. rewrite IH.
  unfold lenN. by rewrite length_alter.
Qed.

Lemma update_loop_bitmaps (f : N → nat → B → B) m c :
  foldl (λ c i, update c (N.of_nat i) (f (size_ c) i)) c (seq 0 m) =
  mk (size_ c) (foldl (λ bms i, alter (f (size_ c) i) i bms) (bitmaps_ c) (seq 0 m)).
Proof.
  induction m as [|m IH]; [by destruct c|]. rewrite seq_S, !foldl_app. cbn [foldl Nat.add].
  rewrite IH. unfold update. cbn [size_ bitmaps_]. by rewrite Nat2N.id.
Qed.

Lemma vec_rep_encode (g : nat → bool) c rs m n o :
  vec_rep c rs → lenN rs + n <= max_size →
  (∀ i, (i < m)%nat → code (N.of_nat i) o = g i) →
  (∀ i, (m <= i)%nat → (i < length (bitmaps_ c))%nat → lazy (N.of_nat i) o) →
  let c' := foldl (λ c i, update c (N.of_nat i) (λ bm, bm_append_bits (fill d (size_ c) bm) (g i) n))
              c (seq 0 m) in
  vec_rep (mk (size_ c' + n) (bitmaps_ c')) (rs ++ reps n o) ∧
  lenN (bitmaps_ c') = lenN (bitmaps_ c).
Proof.
  intros (Hsz & Hmax & Hbm) Hn Hlow Hhigh. cbn zeta.
  rewrite (update_loop_bitmaps (λ s i bm, bm_append_bits (fill d s bm) (g i) n)).
  cbn [size_ bitmaps_]. split.
  - split; [|split]; cbn [size_ bitmaps_].
    + autorewrite with lendb. lia.
    + by autorewrite with lendb.
    + intros i bm Hi. rewrite alter_loop_lookup in Hi. case_decide.
      * apply fmap_Some in Hi as (b & Hb & ->). rewrite Hsz. apply slot_append; auto.
      * apply slot_lazy; [by apply Hbm|]. apply Forall_replicate, Hhigh; [lia|].
        by eapply lookup_lt_Some.
  - apply lenN_alter_loop.
Qed.

(** Encoding in a single bitmap. *)
Lemma vec_rep_encode_at b c rs x n o :
  vec_rep c rs → lenN rs + n <= max_size → code x o = b →
  (∀ i, i ≠ x → lazy i o) →
  let c' := update c x (λ bm, bm_append_bits (fill d (size_ c) bm) b n) in
  vec_rep (mk (size_ c' + n) (bitmaps_ c')) (rs ++ reps n o) ∧
  lenN (bitmaps_ c') = lenN (bitmaps_ c).
Proof.
  intros (Hsz & Hmax & Hbm) Hn Hx Hother. cbn [update size_ bitmaps_].
  split; [|unfold lenN; by rewrite length_alter].
  split; [|split]; cbn [size_ bitmaps_].
  - autorewrite with lendb. lia.
  - by autorewrite with lendb.
  - intros i bm Hi. rewrite list_lookup_alter in Hi. case_decide as E.
    + apply fmap_Some in Hi as (b' & Hb' & ->). rewrite Hsz. subst i.
      specialize (Hbm _ _ Hb'). rewrite N2Nat.id in *. by apply slot_append.
    + apply slot_lazy; [by apply Hbm|]. apply Forall_replicate, Hother. lia.
Qed.

Lemma vec_rep_append c other rs rs' :
  vec_rep c rs → vec_rep other rs' → lenN rs + lenN rs' <= max_size →
  vec_rep (append c other d) (rs ++ rs').
Proof.
  intros (Hsz & Hmax & Hbm) (Hsz' & Hmax' & Hbm') Hle. split; [|split]; cbn [append size_ bitmaps_].
  - autorewrite with lendb. lia.
  - by autorewrite with lendb.
  - intros i bm Hi. apply lookup_zip_with_Some in Hi as (b1 & b2 & -> & Hb1 & Hb2).
    specialize (Hbm _ _ Hb1). specialize (Hbm' _ _ Hb2). unfold size. rewrite Hsz.
    destruct (slot_fill _ _ _ Hbm Hmax) as [Hwf Hl].
    destruct Hbm' as (Hwf2 & k & Hk & Hl2 & Hlazy).
    destruct (bitmap_append_spec (fill d (lenN rs) b1) b2 Hwf Hwf2) as [Hwf3 Hl3].
    { rewrite Hl, Hl2, !lenN_fmap. unfold lenN in *. rewrite length_take. lia. }
    split; [done|]. exists (length rs + k)%nat. rewrite length_app. split; [lia|].
    rewrite take_app_add, drop_app_add, Hl3, Hl, Hl2, fmap_app. done.
Qed.
End vectors.

(** ** The equality coder *)

Definition equality_code (i : N) (o : option N) : bool :=
  match o with Some v => v =? i | None => false end.
Definition equality_lazy (i : N) (o : option N) : Prop := equality_code i o = false.

(** [c] holds the rows [rs], whose values are below the number of bitmaps. *)
Definition equality_rep {B} `{Bitmap B} (c : vector_coder.vector_coder B) (rs : rows) : Prop :=
  vec_rep equality_code equality_lazy c rs ∧
  ∀ v, Some v ∈ rs → v < lenN (vector_coder.bitmaps_ c).

Section equality.
Import vector_coder equality_coder.
Context {B : Type} `{Bitmap B}.
Context (top : list B → option (B * list B)) (Htop : queue_top top).
Implicit Types (c : vector_coder B) (rs : rows).

Lemma elem_of_app_reps {A} (o : A) (l : list A) n y : y ∈ l ++ reps n o → y ∈ l ∨ y = o.
Proof.
  rewrite elem_of_app. intros [?|Hy]; [by left|right].
  unfold reps in Hy. by apply elem_of_replicate in Hy as [-> _].
Qed.

Lemma equality_encode_spec c rs x n :
  equality_rep c rs → x < lenN (bitmaps_ c) → lenN rs + n <= max_size →
  equality_rep (encode c x n) (rs ++ reps n (Some x)).
Proof.
  intros [Hrep Hv] Hx Hn.
  destruct (vec_rep_encode_at false equality_code equality_lazy (λ _ _ E, E)
    true c rs x n (Some x)) as [Hrep' Hlen]; [done|done|apply N.eqb_refl| |].
  { intros i Hi. apply N.eqb_neq. congruence. }
  split; [done|]. intros v Hin. unfold encode. cbn [bitmaps_ size_ update] in *. rewrite Hlen.
  apply elem_of_app_reps in Hin as [?|[= ->]]; auto.
Qed.

Lemma equality_skip_spec c rs n :
  equality_rep c rs → lenN rs + n <= max_size → equality_rep (skip c n) (rs ++ reps n None).
Proof.
  intros [Hrep Hv] Hn. split; [by apply vec_rep_skip|].
  intros v [?|?]%elem_of_app_reps; [by apply Hv|done].
Qed.

Lemma equality_append_spec c other rs rs' :
  equality_rep c rs → equality_rep other rs' → lenN (bitmaps_ c) = lenN (bitmaps_ other) →
  lenN rs + lenN rs' <= max_size → equality_rep (append c other) (rs ++ rs').
Proof.
  intros [Hrep Hv] [Hrep' Hv'] Hlen Hle. split; [by apply vec_rep_append|].
  unfold append, vector_coder.append. cbn [bitmaps_]. intros v.
  replace (lenN (zip_with _ _ _)) with (lenN (bitmaps_ c)).
  - rewrite elem_of_app. intros [?|?]; [by apply Hv|rewrite Hlen; by apply Hv'].
  - unfold lenN in *. rewrite length_zip_with. lia.
Qed.

(** The bits of one bitmap, filled up or not. *)
Lemma slot_bit i rs bm j :
  slot equality_code equality_lazy i rs bm →
  bit_at (bm_list bm) j = match rs !! j with Some o => equality_code i o | None => false end.
Proof.
  intros (_ & k & Hk & Hl & Hlazy). unfold bit_at. rewrite Hl, list_lookup_fmap.
  destruct (decide (j < k)%nat).
  - rewrite lookup_take_lt by done. by destruct (rs !! j).
  - rewrite lookup_take_ge by lia. cbn. destruct (rs !! j) as [o|] eqn:Ej; [|done].
    symmetry. apply (Forall_lookup_1 _ _ (j - k)%nat o) in Hlazy; [done|].
    rewrite lookup_drop. rewrite <- Ej. f_equal. lia.
Qed.

Lemma foldr_orb_true bs : foldr orb false bs = true ↔ true ∈ bs.
Proof.
  induction bs as [|b bs IH]; cbn; [by rewrite elem_of_nil|].
  rewrite orb_true_iff, IH, elem_of_cons. naive_solver.
Qed.

(** The bitmaps from [a] up to [b]. *)
Definition slice_bitmaps c (a b : nat) : list B := take (b - a) (drop a (bitmaps_ c)).

Lemma slice_bitmaps_lookup c a b i bm :
  slice_bitmaps c a b !! i = Some bm ↔ bitmaps_ c !! (a + i)%nat = Some bm ∧ (a + i < b)%nat.
Proof.
  unfold slice_bitmaps. rewrite lookup_take_Some, lookup_drop. intuition lia.
Qed.

Lemma slice_bit c rs a b j v :
  equality_rep c rs → (b <= length (bitmaps_ c))%nat → rs !! j = Some (Some v) →
  nary_bit orb false (slice_bitmaps c a b) j = (N.of_nat a <=? v) && (v <? N.of_nat b).
Proof.
  intros [(Hsz & Hmax & Hbm) Hv] Hb Hj. apply eq_true_iff_eq. unfold nary_bit.
  rewrite foldr_orb_true, list_elem_of_fmap, andb_true_iff, N.leb_le, N.ltb_lt. split.
  - intros (bm & Hbit & (i & Hi)%list_elem_of_lookup_1).
    apply slice_bitmaps_lookup in Hi as [Hi Hlt].
    rewrite (slot_bit _ _ _ j (Hbm _ _ Hi)), Hj in Hbit. cbn in Hbit.
    symmetry in Hbit. apply N.eqb_eq in Hbit. lia.
  - intros [Ha Hlt]. destruct (lookup_lt_is_Some_2 (bitmaps_ c) (N.to_nat v)) as [bm Hi]; [lia|].
    exists bm. split.
    + rewrite (slot_bit _ _ _ j (Hbm _ _ Hi)), Hj. cbn. symmetry. apply N.eqb_eq. lia.
    + apply (list_elem_of_lookup_2 _ (N.to_nat v - a)), slice_bitmaps_lookup.
      replace (a + (N.to_nat v - a))%nat with (N.to_nat v) by lia. split; [done|lia].
Qed.

Lemma nary_length_le c rs a b :
  equality_rep c rs → (nary_length (slice_bitmaps c a b) <= length rs)%nat.
Proof.
  intros [(_ & _ & Hbm) _]. unfold nary_length.
  assert (∀ bm, bm ∈ slice_bitmaps c a b → (length (bm_list bm) <= length rs)%nat) as Hle.
  { intros bm (i & Hi)%list_elem_of_lookup_1. apply slice_bitmaps_lookup in Hi as [Hi _].
    pose proof (slot_size _ _ _ _ _ (Hbm _ _ Hi)) as Hs. destruct (Hbm _ _ Hi) as [Hwf _].
    rewrite bm_size_spec in Hs by done. unfold lenN in Hs. lia. }
  induction (slice_bitmaps c a b) as [|bm bms IH]; cbn; [lia|].
  apply Nat.max_lub; [apply Hle; left|]. apply IH. intros bm' Hbm'. apply Hle. by right.
Qed.

(** [nary_or] over the bitmaps from [a] up to [b]. *)
Lemma or_bitmaps_spec c rs a b op x :
  equality_rep c rs → (a < b)%nat → (b <= length (bitmaps_ c))%nat →
  (∀ v, v < lenN (bitmaps_ c) → cmp op v x = (N.of_nat a <=? v) && (v <? N.of_nat b)) →
  let r := or_bitmaps top c (slice_bitmaps c a b) in
  bm_wf r ∧ decoded op x rs (bm_list r).
Proof.
  intros Hrep Hab Hb Hcmp. cbn zeta. unfold or_bitmaps, bitmap_algorithms.nary_or.
  assert (slice_bitmaps c a b ≠ []) as Hne.
  { unfold slice_bitmaps. intros E%(f_equal length). rewrite length_take, length_drop in E. cbn in E. lia. }
  assert (Forall bm_wf (slice_bitmaps c a b)) as Hwfs.
  { apply Forall_lookup. intros i bm Hi. apply slice_bitmaps_lookup in Hi as [Hi _].
    destruct Hrep as [(_ & _ & Hbm) _]. by destruct (Hbm _ _ Hi). }
  destruct (nary_eval_spec top Htop _ orb false (binary_or_spec (R:=B) (L:=B) (H:=B)) eq_refl
    orb_assoc orb_comm orb_false_r (slice_bitmaps c a b) Hne Hwfs) as (Hwf & Hlen & Hbit).
  pose proof (nary_length_le c rs a b Hrep) as Hle. destruct Hrep as [(Hsz & Hmax & Hbm) Hv] eqn:E.
  clear E. set (r := bitmap_algorithms.nary_eval _ _ _ _) in *. unfold fill.
  rewrite Hsz, bm_size_spec by done.
  destruct (bm_append_bits_spec r false (lenN rs - lenN (bm_list r)) Hwf) as [Hwf' Hl'].
  { unfold lenN in *. lia. }
  split; [done|]. rewrite Hl'. unfold lenN. rewrite <- Nat2N.inj_sub. unfold reps. rewrite Nat2N.id.
  fold (pad (length rs) (bm_list r)). split; [rewrite length_pad; lia|].
  intros j v Hj. rewrite lookup_bit_at, bit_at_pad, Hbit.
  - rewrite (slice_bit c rs a b j v) by done. rewrite Hcmp; [done|].
    apply Hv. by eapply list_elem_of_lookup_2.
  - rewrite length_pad by lia. by eapply lookup_lt_Some.
Qed.

Lemma slice_take c n : take n (bitmaps_ c) = slice_bitmaps c 0 n.
Proof. unfold slice_bitmaps. by rewrite Nat.sub_0_r. Qed.
Lemma slice_drop c n : drop n (bitmaps_ c) = slice_bitmaps c n (length (bitmaps_ c)).
Proof. unfold slice_bitmaps. rewrite take_ge; [done|]. rewrite length_drop. lia. Qed.

(** The answer that is the same for every row. *)
Lemma make_decoded c rs op x b :
  equality_rep c rs → (∀ v, v < lenN (bitmaps_ c) → b = cmp op v x) →
  bm_wf (bitmap_base.make (B:=B) (size_ c) b) ∧
  decoded op x rs (bm_list (bitmap_base.make (B:=B) (size_ c) b)).
Proof.
  intros [(Hsz & Hmax & _) Hv] Hb. rewrite Hsz.
  destruct (bitmap_make_spec (B:=B) (lenN rs) b Hmax) as [Hwf ->].
  split; [done|]. apply answers_reps; auto.
Qed.

Lemma equality_decode_spec c rs op x :
  equality_rep c rs → x < lenN (bitmaps_ c) → is_comparison op = true →
  let '(c', r) := decode top c op x in
  equality_rep c' rs ∧ lenN (bitmaps_ c') = lenN (bitmaps_ c) ∧
  bm_wf r ∧ decoded op x rs (bm_list r).
Proof.
  intros Hrep Hx Hop. pose proof Hrep as [Hvec Hv].
  destruct (lazy_bitmap_at false c x) as [c1 bm] eqn:Eat.
  destruct (lazy_bitmap_at_spec false equality_code equality_lazy (λ _ _ E, E) c rs x c1 bm)
    as (Hvec1 & Hlen1 & Hwf1 & Hl1); [done..|].
  assert (equality_rep c1 rs) as Hrep1 by (split; [done|by rewrite Hlen1]).
  unfold lenN in Hx.
  destruct op; try done; unfold decode, bitmap_at; rewrite ?Eat, ?slice_take, ?slice_drop;
    (split; [done|]); (split; [done|]).
  - split; [done|]. rewrite Hl1. by apply answers_fmap.
  - destruct (bm_flip_spec bm Hwf1) as [Hwf2 Hl2]. split; [done|].
    rewrite Hl2, Hl1, <- list_fmap_compose. by apply answers_fmap.
  - destruct (N.eqb_spec x 0) as [->|Hx0].
    + apply make_decoded; [done|]. intros v _. by destruct v.
    + apply or_bitmaps_spec; [done|lia..|]. intros v _. cbn. cases_N; done || lia.
  - apply or_bitmaps_spec; [done|lia..|]. intros v _. cbn. cases_N; done || lia.
  - destruct (N.leb_spec (bitmap_count c - 1) x) as [Hl|Hl]; unfold bitmap_count, lenN in Hl.
    + apply make_decoded; [done|]. intros v Hin. unfold lenN in Hin. cbn.
      symmetry. apply N.ltb_ge. lia.
    + apply or_bitmaps_spec; [done|lia..|]. intros v Hlt. unfold lenN in Hlt. cbn.
      cases_N; done || lia.
  - apply or_bitmaps_spec; [done|lia..|]. intros v Hlt. unfold lenN in Hlt. cbn.
    cases_N; done || lia.
Qed.
End equality.
