(* ===== verification/MultiLevelCoder.v ===== *)
(** The range coder's correctness and the multi-level coder:
    [range_coder] and [multi_level_coder] of
    [libvast/include/vast/coder.hpp]. *)

From S2P Require Import Prelude Word Bits BitmapConcept BitmapAlgorithms Operator Base Coder.

(** The operations [multi_level_coder<Coder>] uses of its coder; [c_init] is the
    initialisation that [init_coders] dispatches to, given the component's base. *)
Record coder_ops (C : Type) := {
  c_init : N → C;
  c_encode : C → N → N → C;
  c_skip : C → N → C;
  c_append : C → C → C;
  c_size : C → N
}.
Arguments c_init {C}.
Arguments c_encode {C}.
Arguments c_skip {C}.
Arguments c_append {C}.
Arguments c_size {C}.

(** A range coder needs no bitmap for the largest value of a component. *)
Definition range_ops {B} `{BitmapOps B} : coder_ops (vector_coder.vector_coder B) := {|
  c_init b := vector_coder.make (b - 1);
  c_encode := range_coder.encode;
  c_skip := vector_coder.skip;
  c_append := range_coder.append;
  c_size := vector_coder.size
|}.
Definition equality_ops {B} `{BitmapOps B} : coder_ops (vector_coder.vector_coder B) := {|
  c_init := vector_coder.make;
  c_encode := equality_coder.encode;
  c_skip := vector_coder.skip;
  c_append := equality_coder.append;
  c_size := vector_coder.size
|}.
Definition bitslice_ops {B} `{BitmapOps B} : coder_ops (vector_coder.vector_coder B) := {|
  c_init := vector_coder.make;
  c_encode := bitslice_coder.encode;
  c_skip := vector_coder.skip;
  c_append := bitslice_coder.append;
  c_size := vector_coder.size
|}.

Module multi_level_coder.

Record multi_level_coder (C : Type) := mk {
  base_ : base.base;
  xs_ : list N;
  coders_ : list C
}.
Arguments mk {C}.
Arguments base_ {C}.
Arguments xs_ {C}.
Arguments coders_ {C}.

Section operations.
Context {C : Type} (ops : coder_ops C).
Implicit Types c : multi_level_coder C.

Definition init (b : base.base) : multi_level_coder C :=
  mk b (reps (base.size b) 0) (c_init ops <$> base.values_ b).

(** [multi_level_coder(base b)] *)
Definition make (b : base.base) : multi_level_coder C := init b.

(** The loop of [encode]. *)
Fixpoint encode_loop (coders : list C) (xs : list N) (n : N) : list C :=
  match coders, xs with
  | coder :: coders, x :: xs => c_encode ops coder x n :: encode_loop coders xs n
  | _, _ => coders
  end.
Definition encode c (x n : N) : multi_level_coder C :=
  let c := match xs_ c with [] => init (base_ c) | _ => c end in
  let xs := base.decompose (base_ c) x (xs_ c) in
  mk (base_ c) xs (encode_loop (coders_ c) xs n).

Definition skip c (n : N) : multi_level_coder C :=
  mk (base_ c) (xs_ c) ((λ coder, c_skip ops coder n) <$> coders_ c).
Definition append c other : multi_level_coder C :=
  mk (base_ c) (xs_ c) (zip_with (c_append ops) (coders_ c) (coders_ other)).
Definition size c : N :=
  match coders_ c with [] => 0 | coder :: _ => c_size ops coder end.
End operations.

(** ** Range-Eval-Opt *)

Section range_eval.
Context {B : Type} `{BitmapOps B}.
Implicit Types c : multi_level_coder (vector_coder.vector_coder B).

(** The first component of [<=]. *)
Definition le_first (coders : list (vector_coder.vector_coder B)) (xs values : list N)
    (result : B) : list (vector_coder.vector_coder B) * B :=
  match coders, xs, values with
  | coder :: coders, x :: _, b :: _ =>
      if x <? b - 1 then
        let '(coder, bm) := range_coder.bitmap_at coder x in (coder :: coders, bm)
      else (coder :: coders, result)
  | _, _, _ => (coders, result)
  end.

(** The other components of [<=]. *)
Fixpoint le_loop (coders : list (vector_coder.vector_coder B)) (xs values : list N)
    (result : B) : list (vector_coder.vector_coder B) * B :=
  match coders, xs, values with
  | coder :: coders, x :: xs, b :: values =>
      let '(coder, result) :=
        if negb (x =? b - 1) then
          let '(coder, bm) := range_coder.bitmap_at coder x in
          (coder, bitmap_algorithms.binary_and result bm)
        else (coder, result) in
      let '(coder, result) :=
        if negb (x =? 0) then
          let '(coder, bm) := range_coder.bitmap_at coder (x - 1) in
          (coder, bitmap_algorithms.binary_or result bm)
        else (coder, result) in
      let '(coders, result) := le_loop coders xs values result in
      (coder :: coders, result)
  | _, _, _ => (coders, result)
  end.

(** The components of [==]. *)
Fixpoint eq_loop (coders : list (vector_coder.vector_coder B)) (xs values : list N)
    (result : B) : list (vector_coder.vector_coder B) * B :=
  match coders, xs, values with
  | coder :: coders, x :: xs, b :: values =>
      let '(coder, result) :=
        if x =? 0 then
          let '(coder, bm) := range_coder.bitmap_at coder 0 in
          (coder, bitmap_algorithms.binary_and result bm)
        else if x =? b - 1 then
          let '(coder, bm) := range_coder.bitmap_at coder (b - 2) in
          (coder, bitmap_algorithms.binary_and result (bitmap_base.complement bm))
        else
          let '(coder, bm) := range_coder.bitmap_at coder x in
          let '(coder, bm') := range_coder.bitmap_at coder (x - 1) in
          (coder, bitmap_algorithms.binary_and result (bitmap_algorithms.binary_xor bm bm')) in
      let '(coders, result) := eq_loop coders xs values result in
      (coder :: coders, result)
  | _, _, _ => (coders, result)
  end.

(** The switch of [decode] and the final flip. *)
Definition range_switch c (op : relational_operator) (x : N)
    : multi_level_coder (vector_coder.vector_coder B) * B :=
  let size := size range_ops c in
  let xs := base.decompose (base_ c) x (xs_ c) in
  let values := base.values_ (base_ c) in
  let result := bitmap_base.make size true in
  match op with
  | less | less_equal | greater | greater_equal =>
      let '(coders, result) := le_first (coders_ c) xs values result in
      let '(rest, result) :=
        le_loop (List.tl coders) (List.tl xs) (List.tl values) result in
      (mk (base_ c) xs (take 1 coders ++ rest),
       match op with greater | greater_equal => bm_flip result | _ => result end)
  | equal | not_equal =>
      let '(coders, result) := eq_loop (coders_ c) xs values result in
      (mk (base_ c) xs coders,
       match op with not_equal => bm_flip result | _ => result end)
  | _ => (mk (base_ c) xs (coders_ c), bitmap_base.make size false)
  end.

(** [decode] over range coders. *)
Definition range_decode c (op : relational_operator) (x : N)
    : multi_level_coder (vector_coder.vector_coder B) * B :=
  match coders_ c with
  | [] => (c, bm_nil)
  | _ =>
      let size := size range_ops c in
      if x =? 0 then
        match op with
        | less => (c, bitmap_base.make size false)
        | greater_equal => (c, bitmap_base.make size true)
        | _ => range_switch c op x
        end
      else
        match op with
        | less | greater_equal => range_switch c op (x - 1)
        | _ => range_switch c op x
        end
  end.
End range_eval.

End multi_level_coder.

(** ** The range coder *)

Definition range_code (i : N) (o : option N) : bool :=
  match o with Some v => v <=? i | None => true end.
Definition range_lazy (i : N) (o : option N) : Prop := range_code i o = true.

(** [c] holds the rows [rs] in [m] bitmaps; the values are at most [m]. *)
Definition range_rep {B} `{Bitmap B} (m : N) (c : vector_coder.vector_coder B) (rs : rows) : Prop :=
  vec_rep range_code range_lazy c rs ∧ lenN (vector_coder.bitmaps_ c) = m ∧
  ∀ v, Some v ∈ rs → v <= m.

Section range.
Import vector_coder range_coder.
Context {B : Type} `{Bitmap B}.
Implicit Types (c : vector_coder B) (rs : rows) (m : N).

Lemma range_make_rep m : range_rep m (make (B:=B) m) [].
Proof.
  split; [apply vec_rep_make; done|]. split; [apply lenN_reps|].
  by intros v ?%not_elem_of_nil.
Qed.

Lemma range_encode_spec m c rs x n :
  range_rep m c rs → x <= m → lenN rs + n <= max_size →
  range_rep m (encode c x n) (rs ++ reps n (Some x)).
Proof.
  intros (Hrep & Hm & Hv) Hx Hn.
  destruct (vec_rep_encode true range_code range_lazy (λ _ _ E, E)
    (λ _, false) c rs (N.to_nat x) n (Some x)) as [Hrep' Hlen]; [done..| | |].
  { intros i Hi. apply N.leb_gt. lia. }
  { intros i Hi _. apply N.leb_le. lia. }
  split; [done|]. split; [by unfold encode; cbn [bitmaps_]; rewrite Hlen|].
  intros v [?|[= ->]]%elem_of_app_reps; auto.
Qed.

Lemma range_skip_spec m c rs n :
  range_rep m c rs → lenN rs + n <= max_size → range_rep m (skip c n) (rs ++ reps n None).
Proof.
  intros (Hrep & Hm & Hv) Hn. split; [by apply vec_rep_skip|]. split; [done|].
  intros v [?|?]%elem_of_app_reps; [by apply Hv|done].
Qed.

Lemma range_append_spec m c other rs rs' :
  range_rep m c rs → range_rep m other rs' → lenN rs + lenN rs' <= max_size →
  range_rep m (append c other) (rs ++ rs').
Proof.
  intros (Hrep & Hm & Hv) (Hrep' & Hm' & Hv') Hle. split; [by apply vec_rep_append|]. split.
  - unfold append, vector_coder.append, lenN in *. cbn [bitmaps_]. rewrite length_zip_with. lia.
  - intros v [?|?]%elem_of_app; auto.
Qed.

Lemma range_bitmap_at_spec m c rs i c' bm :
  range_rep m c rs → i < m → bitmap_at c i = (c', bm) →
  range_rep m c' rs ∧ good (λ v, v <=? i) rs bm.
Proof.
  intros (Hrep & Hm & Hv) Hi Hat.
  destruct (lazy_bitmap_at_spec true range_code range_lazy (λ _ _ E, E) c rs i c' bm)
    as (Hrep' & Hlen & Hwf & Hl); [done|by rewrite Hm|done|].
  split; [split; [done|split; [congruence|done]]|]. split; [done|].
  rewrite Hl. by apply answers_fmap.
Qed.

Lemma range_size m c rs : range_rep m c rs → size_ c = lenN rs ∧ lenN rs <= max_size.
Proof. by intros ((? & ? & _) & _ & _). Qed.

Lemma eq_via_le v x : 0 < x → (v =? x) = (v <=? x) && negb (v <=? x - 1).
Proof. intros. cases_N; done || lia. Qed.

(** Every comparison of a stored value with [x], which has a bitmap. *)
Lemma range_decode_spec m c rs op x :
  range_rep m c rs → x < m → is_comparison op = true →
  let '(c', r) := decode c op x in
  range_rep m c' rs ∧ good (λ v, cmp op v x) rs r.
Proof.
  intros Hrep Hx Hop. destruct (range_size m c rs Hrep) as [Hsz Hmax].
  destruct (bitmap_at c x) as [c1 bm] eqn:E1.
  destruct (range_bitmap_at_spec m c rs x c1 bm Hrep Hx E1) as [Hrep1 Hg1].
  destruct (bitmap_at c (x - 1)) as [c2 bm2] eqn:E2.
  destruct (range_bitmap_at_spec m c rs (x - 1) c2 bm2 Hrep ltac:(lia) E2) as [Hrep2 Hg2].
  destruct (bitmap_at c1 (x - 1)) as [c3 bm3] eqn:E3.
  destruct (range_bitmap_at_spec m c1 rs (x - 1) c3 bm3 Hrep1 ltac:(lia) E3) as [Hrep3 Hg3].
  destruct op; try done; unfold decode, bitmap_base.complement; rewrite ?E1, ?E2, ?E3, ?Hsz;
    try destruct (N.ltb_spec 0 x); try destruct (N.eqb_spec x 0);
    (split; [done|]); (eapply good_ext; [|eauto with gooddb]); intros v _; cbn;
    cases_N; done || lia.
Qed.
End range.

(** ** The components

    The coder of a component holds the digits of the values. *)

Definition map_rows (f : N → N) (rs : rows) : rows := option_map f <$> rs.

Fixpoint coders_rep {B} `{Bitmap B} (values : list N)
    (coders : list (vector_coder.vector_coder B)) (rs : rows) : Prop :=
  match values, coders with
  | [], [] => True
  | b :: values, c :: coders =>
      range_rep (b - 1) c (map_rows (λ v, v mod b) rs) ∧
      coders_rep values coders (map_rows (λ v, v / b) rs)
  | _, _ => False
  end.

Section components.
Import multi_level_coder.
Context {B : Type} `{Bitmap B}.
Implicit Types (coders : list (vector_coder.vector_coder B)) (rs : rows) (f g : N → N).

Lemma map_rows_app f rs rs' : map_rows f (rs ++ rs') = map_rows f rs ++ map_rows f rs'.
Proof. apply fmap_app. Qed.
Lemma map_rows_reps f n o : map_rows f (reps n o) = reps n (option_map f o).
Proof. apply (fmap_reps (option_map f)). Qed.
Lemma map_rows_compose f g rs : map_rows f (map_rows g rs) = map_rows (λ v, f (g v)) rs.
Proof.
  unfold map_rows. rewrite <- list_fmap_compose. apply list_fmap_ext. by intros _ [v|] _.
Qed.
Lemma lenN_map_rows f rs : lenN (map_rows f rs) = lenN rs.
Proof. unfold lenN, map_rows. by rewrite length_fmap. Qed.

Lemma good_map_rows f (h : N → bool) rs (bm : B) :
  good h (map_rows f rs) bm → good (λ v, h (f v)) rs bm.
Proof.
  intros [Hwf [Hlen Ha]]. split; [done|]. unfold map_rows in *. rewrite length_fmap in Hlen.
  split; [done|]. intros j v Hj. apply Ha. by rewrite list_lookup_fmap, Hj.
Qed.

Lemma init_rep values : coders_rep values (c_init (range_ops (B:=B)) <$> values) [].
Proof. induction values; cbn; [done|]. split; [apply range_make_rep|done]. Qed.

Lemma encode_loop_spec values coders rs x n :
  Forall (λ b, 2 <= b) values → coders_rep values coders rs → lenN rs + n <= max_size →
  coders_rep values
    (encode_loop range_ops coders (base.decompose_loop values x) n) (rs ++ reps n (Some x)).
Proof.
  intros Hb. revert coders rs x.
  induction Hb as [|b values Hb _ IH]; intros [|c coders] rs x Hrep Hn; try done.
  destruct Hrep as [Hc Hrep]. cbn [base.decompose_loop encode_loop coders_rep].
  rewrite !map_rows_app, !map_rows_reps. split.
  - apply range_encode_spec; [done| |by rewrite lenN_map_rows].
    pose proof (N.mod_lt x b). lia.
  - apply IH; [done|]. by rewrite lenN_map_rows.
Qed.

Lemma skip_rep values coders rs n :
  coders_rep values coders rs → lenN rs + n <= max_size →
  coders_rep values ((λ c, c_skip range_ops c n) <$> coders) (rs ++ reps n None).
Proof.
  revert coders rs. induction values as [|b values IH]; intros [|c coders] rs Hrep Hn; try done.
  destruct Hrep as [Hc Hrep]. cbn. rewrite !map_rows_app, !map_rows_reps. split.
  - apply range_skip_spec; [done|]. by rewrite lenN_map_rows.
  - apply IH; [done|]. by rewrite lenN_map_rows.
Qed.

Lemma append_rep values coders coders' rs rs' :
  coders_rep values coders rs → coders_rep values coders' rs' →
  lenN rs + lenN rs' <= max_size →
  coders_rep values (zip_with (c_append range_ops) coders coders') (rs ++ rs').
Proof.
  revert coders coders' rs rs'.
  induction values as [|b values IH]; intros [|c coders] [|c' coders'] rs rs' Hrep Hrep' Hn; try done.
  destruct Hrep as [Hc Hrep], Hrep' as [Hc' Hrep']. cbn. rewrite !map_rows_app. split.
  - apply range_append_spec; [done..|]. by rewrite !lenN_map_rows.
  - apply IH; [done..|]. by rewrite !lenN_map_rows.
Qed.

(** One bitmap of a component. *)
Lemma component_bitmap b c rs h i c' bm :
  range_rep (b - 1) c (map_rows (λ v, v mod b) (map_rows h rs)) → i < b - 1 →
  range_coder.bitmap_at c i = (c', bm) →
  range_rep (b - 1) c' (map_rows (λ v, v mod b) (map_rows h rs)) ∧
  good (λ v, h v mod b <=? i) rs bm.
Proof.
  intros Hc Hi Hat. destruct (range_bitmap_at_spec _ _ _ _ _ _ Hc Hi Hat) as [Hc' Hg].
  split; [done|]. rewrite map_rows_compose in Hg. by apply good_map_rows in Hg.
Qed.

(** Splits the comparisons of a digit [d], bounded by [Hd]. *)
Ltac digit_cases Hd b :=
  let H := fresh in pose proof Hd as H; revert H; cbn beta;
  match goal with |- ?d < _ → _ => generalize d end;
  intros ? ?; cases_N; try lia; by destruct b.

(** One iteration of the loop for [<=]. *)
Lemma le_step_spec b c rs h x acc (result : B) :
  2 <= b → x < b → range_rep (b - 1) c (map_rows (λ v, v mod b) (map_rows h rs)) →
  good acc rs result →
  let '(c1, result1) :=
    if negb (x =? b - 1) then
      let '(c, bm) := range_coder.bitmap_at c x in (c, bitmap_algorithms.binary_and result bm)
    else (c, result) in
  let '(c2, result2) :=
    if negb (x =? 0) then
      let '(c, bm) := range_coder.bitmap_at c1 (x - 1) in
      (c, bitmap_algorithms.binary_or result1 bm)
    else (c1, result1) in
  range_rep (b - 1) c2 (map_rows (λ v, v mod b) (map_rows h rs)) ∧
  good (λ v, (h v mod b <? x) || ((h v mod b <=? x) && acc v)) rs result2.
Proof.
  intros Hb Hx Hc Hacc.
  assert (∀ v, h v mod b < b) as Hmod by (intros; apply N.mod_lt; lia).
  destruct (N.eqb_spec x (b - 1)) as [E|E]; cbn [negb].
  - destruct (N.eqb_spec x 0) as [E0|E0]; cbn [negb]; [lia|].
    destruct (range_coder.bitmap_at c (x - 1)) as [c2 bm2] eqn:E2.
    destruct (component_bitmap b c rs h (x - 1) c2 bm2 Hc ltac:(lia) E2) as [Hc2 Hg2].
    split; [done|]. eapply good_ext; [|eauto with gooddb]. intros v _.
    digit_cases (Hmod v) (acc v).
  - destruct (range_coder.bitmap_at c x) as [c1 bm1] eqn:E1.
    destruct (component_bitmap b c rs h x c1 bm1 Hc ltac:(lia) E1) as [Hc1 Hg1].
    destruct (N.eqb_spec x 0) as [E0|E0]; cbn [negb].
    + split; [done|]. eapply good_ext; [|eauto with gooddb]. intros v _. subst x.
      digit_cases (Hmod v) (acc v).
    + destruct (range_coder.bitmap_at c1 (x - 1)) as [c2 bm2] eqn:E2.
      destruct (component_bitmap b c1 rs h (x - 1) c2 bm2 Hc1 ltac:(lia) E2) as [Hc2 Hg2].
      split; [done|]. eapply good_ext; [|eauto with gooddb]. intros v _.
      digit_cases (Hmod v) (acc v).
Qed.

Lemma le_loop_spec values coders rs h xs acc (result : B) :
  Forall (λ b, 2 <= b) values → digits_ok values xs →
  coders_rep values coders (map_rows h rs) → good acc rs result →
  let '(coders', result') := le_loop coders xs values result in
  coders_rep values coders' (map_rows h rs) ∧
  good (λ v, le_digits (acc v) (base.decompose_loop values (h v)) xs) rs result'.
Proof.
  intros Hb Hxs. revert coders h acc result.
  induction Hxs as [|b x values xs Hx _ IH]; intros [|c coders] h acc result Hrep Hacc; try done.
  apply Forall_cons_iff in Hb as [Hb Hbs]. destruct Hrep as [Hc Hrep]. cbn [le_loop].
  pose proof (le_step_spec b c rs h x acc result Hb Hx Hc Hacc) as Hstep. cbn zeta in Hstep.
  destruct (if negb (x =? b - 1) then _ else _) as [c1 result1].
  destruct (if negb (x =? 0) then _ else _) as [c2 result2]. destruct Hstep as [Hc2 Hg2].
  rewrite map_rows_compose in Hrep. specialize (IH Hbs coders (λ v, h v / b) _ result2 Hrep Hg2).
  destruct (le_loop coders xs values result2) as [coders' result'].
  destruct IH as [Hrep' Hg']. split; [|done]. cbn [coders_rep].
  by rewrite (map_rows_compose (λ v, v / b)).
Qed.

(** One iteration of the loop for [==]. *)
Lemma eq_step_spec b c rs h x acc (result : B) :
  2 <= b → x < b → range_rep (b - 1) c (map_rows (λ v, v mod b) (map_rows h rs)) →
  good acc rs result →
  let '(c', result') :=
    if x =? 0 then
      let '(c, bm) := range_coder.bitmap_at c 0 in (c, bitmap_algorithms.binary_and result bm)
    else if x =? b - 1 then
      let '(c, bm) := range_coder.bitmap_at c (b - 2) in
      (c, bitmap_algorithms.binary_and result (bitmap_base.complement bm))
    else
      let '(c, bm) := range_coder.bitmap_at c x in
      let '(c, bm') := range_coder.bitmap_at c (x - 1) in
      (c, bitmap_algorithms.binary_and result (bitmap_algorithms.binary_xor bm bm')) in
  range_rep (b - 1) c' (map_rows (λ v, v mod b) (map_rows h rs)) ∧
  good (λ v, acc v && (h v mod b =? x)) rs result'.
Proof.
  intros Hb Hx Hc Hacc. unfold bitmap_base.complement.
  assert (∀ v, h v mod b < b) as Hmod by (intros; apply N.mod_lt; lia).
  destruct (N.eqb_spec x 0) as [E0|E0]; [|destruct (N.eqb_spec x (b - 1)) as [E|E]].
  - destruct (range_coder.bitmap_at c 0) as [c1 bm1] eqn:E1.
    destruct (component_bitmap b c rs h 0 c1 bm1 Hc ltac:(lia) E1) as [Hc1 Hg1].
    split; [done|]. eapply good_ext; [|eauto with gooddb]. intros v _. subst x.
    digit_cases (Hmod v) (acc v).
  - destruct (range_coder.bitmap_at c (b - 2)) as [c1 bm1] eqn:E1.
    destruct (component_bitmap b c rs h (b - 2) c1 bm1 Hc ltac:(lia) E1) as [Hc1 Hg1].
    split; [done|]. eapply good_ext; [|eauto with gooddb]. intros v _.
    digit_cases (Hmod v) (acc v).
  - destruct (range_coder.bitmap_at c x) as [c1 bm1] eqn:E1.
    destruct (component_bitmap b c rs h x c1 bm1 Hc ltac:(lia) E1) as [Hc1 Hg1].
    destruct (range_coder.bitmap_at c1 (x - 1)) as [c2 bm2] eqn:E2.
    destruct (component_bitmap b c1 rs h (x - 1) c2 bm2 Hc1 ltac:(lia) E2) as [Hc2 Hg2].
    split; [done|]. eapply good_ext; [|eauto with gooddb]. intros v _.
    digit_cases (Hmod v) (acc v).
Qed.

Lemma eq_loop_spec values coders rs h xs acc (result : B) :
  Forall (λ b, 2 <= b) values → digits_ok values xs →
  coders_rep values coders (map_rows h rs) → good acc rs result →
  let '(coders', result') := eq_loop coders xs values result in
  coders_rep values coders' (map_rows h rs) ∧
  good (λ v, acc v && bool_decide (base.decompose_loop values (h v) = xs)) rs result'.
Proof.
  intros Hb Hxs. revert coders h acc result.
  induction Hxs as [|b x values xs Hx _ IH]; intros [|c coders] h acc result Hrep Hacc; try done.
  { split; [done|]. eapply good_ext; [|exact Hacc]. intros v _. cbn. by rewrite andb_true_r. }
  apply Forall_cons_iff in Hb as [Hb Hbs]. destruct Hrep as [Hc Hrep]. cbn [eq_loop].
  pose proof (eq_step_spec b c rs h x acc result Hb Hx Hc Hacc) as Hstep.
  destruct (if x =? 0 then _ else _) as [c1 result1]. destruct Hstep as [Hc1 Hg1].
  rewrite map_rows_compose in Hrep. specialize (IH Hbs coders (λ v, h v / b) _ result1 Hrep Hg1).
  destruct (eq_loop coders xs values result1) as [coders' result'].
  destruct IH as [Hrep' Hg']. split.
  - cbn [coders_rep]. by rewrite (map_rows_compose (λ v, v / b)).
  - eapply good_ext; [|exact Hg']. intros v _. cbn [base.decompose_loop]. rewrite <- andb_assoc.
    f_equal. apply eq_true_iff_eq. rewrite andb_true_iff, N.eqb_eq, !bool_decide_eq_true.
    split; [by intros [-> ->]|by intros [= -> ->]].
Qed.

(** The first component of [<=] is an iteration whose result so far is true. *)
Lemma le_first_spec values coders rs xs (result : B) :
  Forall (λ b, 2 <= b) values → values ≠ [] → digits_ok values xs →
  coders_rep values coders rs → good (λ _, true) rs result →
  let '(coders1, result1) := le_first coders xs values result in
  let '(rest, result') := le_loop (List.tl coders1) (List.tl xs) (List.tl values) result1 in
  coders_rep values (take 1 coders1 ++ rest) rs ∧
  good (λ v, le_digits true (base.decompose_loop values v) xs) rs result'.
Proof.
  intros Hb Hne Hxs Hrep Hres. destruct Hxs as [|b x values xs Hx Hxs]; [done|].
  destruct coders as [|c coders]; [done|]. destruct Hrep as [Hc Hrep].
  apply Forall_cons_iff in Hb as [Hb Hbs]. cbn [le_first].
  assert (∀ v, v mod b < b) as Hmod by (intros; apply N.mod_lt; lia).
  assert (∃ c' result1, (if x <? b - 1
      then let '(c, bm) := range_coder.bitmap_at c x in (c :: coders, bm)
      else (c :: coders, result)) = (c' :: coders, result1) ∧
    range_rep (b - 1) c' (map_rows (λ v, v mod b) rs) ∧
    good (λ v, (v mod b <? x) || ((v mod b <=? x) && true)) rs result1)
    as (c' & result1 & -> & Hc' & Hg1).
  { destruct (N.ltb_spec x (b - 1)).
    - destruct (range_coder.bitmap_at c x) as [c1 bm] eqn:E1.
      destruct (range_bitmap_at_spec _ _ _ _ _ _ Hc H1 E1) as [Hc1 Hg].
      apply good_map_rows in Hg. exists c1, bm. split; [done|]. split; [done|].
      eapply good_ext; [|exact Hg]. intros v _. digit_cases (Hmod v) true.
    - exists c, result. split; [done|]. split; [done|].
      eapply good_ext; [|exact Hres]. intros v _. digit_cases (Hmod v) true. }
  cbn [List.tl].
  pose proof (le_loop_spec values coders rs (λ v, v / b) xs _ result1 Hbs Hxs Hrep Hg1) as Hloop.
  destruct (le_loop coders xs values result1) as [rest result'].
  destruct Hloop as [Hrep' Hg']. by split.
Qed.
End components.

(** ** The multi-level coder *)

(** [c] holds the rows [rs], whose values the base can express. *)
Definition mlc_rep {B} `{Bitmap B}
    (c : multi_level_coder.multi_level_coder (vector_coder.vector_coder B)) (rs : rows) : Prop :=
  let values := base.values_ (multi_level_coder.base_ c) in
  Forall (λ b, 2 <= b) values ∧ values ≠ [] ∧
  length (multi_level_coder.xs_ c) = length values ∧
  coders_rep values (multi_level_coder.coders_ c) rs ∧
  lenN rs <= max_size ∧ ∀ v, Some v ∈ rs → v < base_product values.

Section mlc.
Import multi_level_coder.
Context {B : Type} `{Bitmap B}.
Implicit Types (c : multi_level_coder (vector_coder.vector_coder B)) (rs : rows).

Lemma decompose_exact b x xs :
  length xs = length (base.values_ b) → base.decompose b x xs = base.decompose_loop (base.values_ b) x.
Proof. intros E. unfold base.decompose. rewrite drop_ge by lia. by rewrite app_nil_r. Qed.

Lemma mlc_size c rs : mlc_rep c rs → size range_ops c = lenN rs.
Proof.
  intros (_ & Hne & _ & Hrep & _). unfold size.
  destruct (base.values_ (base_ c)), (coders_ c); try done.
  destruct Hrep as [Hc _]. cbn. unfold vector_coder.size.
  destruct (range_size _ _ _ Hc) as [-> _]. apply lenN_map_rows.
Qed.

Lemma mlc_make_rep b : base.well_defined b = true → mlc_rep (make (range_ops (B:=B)) b) [].
Proof.
  intros [Hb Hne]%well_defined_Forall. split; [done|]. split; [done|].
  split; [cbn; rewrite length_reps; unfold base.size, lenN; lia|].
  split; [apply init_rep|]. split; [done|]. by intros v ?%not_elem_of_nil.
Qed.

Lemma mlc_encode_spec c rs x n :
  mlc_rep c rs → x < base_product (base.values_ (base_ c)) → lenN rs + n <= max_size →
  mlc_rep (encode range_ops c x n) (rs ++ reps n (Some x)) ∧
  base_ (encode range_ops c x n) = base_ c.
Proof.
  intros (Hb & Hne & Hlen & Hrep & Hmax & Hv) Hx Hn. unfold encode.
  destruct (xs_ c) as [|y ys] eqn:Exs; [by destruct (base.values_ (base_ c))|].
  rewrite Exs, decompose_exact by done. split; [|done]. split; [done|]. split; [done|].
  split; [apply length_decompose|]. split; [by apply encode_loop_spec|].
  split; [by autorewrite with lendb|]. cbn [base_].
  intros v [?|[= ->]]%elem_of_app_reps; auto.
Qed.

Lemma mlc_skip_spec c rs n :
  mlc_rep c rs → lenN rs + n <= max_size → mlc_rep (skip range_ops c n) (rs ++ reps n None).
Proof.
  intros (Hb & Hne & Hlen & Hrep & Hmax & Hv) Hn. split; [done|]. split; [done|].
  split; [done|]. split; [by apply skip_rep|]. split; [by autorewrite with lendb|].
  intros v [?|?]%elem_of_app_reps; [by apply Hv|done].
Qed.

Lemma mlc_append_spec c other rs rs' :
  mlc_rep c rs → mlc_rep other rs' → base_ c = base_ other → lenN rs + lenN rs' <= max_size →
  mlc_rep (append range_ops c other) (rs ++ rs').
Proof.
  intros (Hb & Hne & Hlen & Hrep & Hmax & Hv) (_ & _ & _ & Hrep' & _ & Hv') E Hn.
  rewrite <- E in *. split; [done|]. split; [done|]. split; [done|].
  split; [by apply append_rep|]. split; [by autorewrite with lendb|].
  intros v [?|?]%elem_of_app; auto.
Qed.

Lemma mlc_rep_coders c rs x coders :
  mlc_rep c rs → coders_rep (base.values_ (base_ c)) coders rs →
  mlc_rep (mk (base_ c) (base.decompose (base_ c) x (xs_ c)) coders) rs.
Proof.
  intros (Hb & Hne & Hlen & _ & Hmax) Hc. rewrite decompose_exact by done.
  split; [done|]. split; [done|]. split; [apply length_decompose|done].
Qed.

Lemma mlc_le_spec c rs x :
  mlc_rep c rs → x < base_product (base.values_ (base_ c)) →
  let xs := base.decompose (base_ c) x (xs_ c) in
  let values := base.values_ (base_ c) in
  let '(coders1, result1) := le_first (coders_ c) xs values (bitmap_base.make (lenN rs) true) in
  let '(rest, result) := le_loop (List.tl coders1) (List.tl xs) (List.tl values) result1 in
  mlc_rep (mk (base_ c) xs (take 1 coders1 ++ rest)) rs ∧ good (λ v, v <=? x) rs result.
Proof.
  intros Hmlc Hx. cbn zeta. pose proof Hmlc as (Hb & Hne & Hlen & Hrep & Hmax & Hv).
  rewrite decompose_exact by done. pose proof (decompose_digits _ x Hb) as Hdx.
  pose proof (le_first_spec _ (coders_ c) rs _ _ Hb Hne Hdx Hrep (good_make true rs Hmax)) as Hle.
  destruct (le_first (coders_ c) _ _ _) as [coders1 result1].
  destruct (le_loop _ _ _ result1) as [rest result]. destruct Hle as [Hrep1 Hle].
  split; [rewrite <- (decompose_exact _ x (xs_ c)) by done; by apply mlc_rep_coders|].
  eapply good_ext; [|exact Hle]. intros v Hin. cbn beta. apply decompose_le; auto.
Qed.

Lemma mlc_eq_spec c rs x :
  mlc_rep c rs → x < base_product (base.values_ (base_ c)) →
  let xs := base.decompose (base_ c) x (xs_ c) in
  let '(coders, result) :=
    eq_loop (coders_ c) xs (base.values_ (base_ c)) (bitmap_base.make (lenN rs) true) in
  mlc_rep (mk (base_ c) xs coders) rs ∧ good (λ v, v =? x) rs result.
Proof.
  intros Hmlc Hx. cbn zeta. pose proof Hmlc as (Hb & Hne & Hlen & Hrep & Hmax & Hv).
  rewrite decompose_exact by done. pose proof (decompose_digits _ x Hb) as Hdx.
  assert (map_rows id rs = rs) as Hid.
  { unfold map_rows. rewrite <- (list_fmap_id rs) at 2. apply list_fmap_ext. by intros _ [] _. }
  rewrite <- Hid in Hrep.
  pose proof (eq_loop_spec _ _ _ _ _ _ _ Hb Hdx Hrep (good_make true rs Hmax)) as Heq.
  destruct (eq_loop (coders_ c) _ _ _) as [coders result]. destruct Heq as [Hrep2 Heq].
  rewrite Hid in Hrep2.
  split; [rewrite <- (decompose_exact _ x (xs_ c)) by done; by apply mlc_rep_coders|].
  eapply good_ext; [|exact Heq]. intros v Hin. cbn beta. apply decompose_eq; auto.
Qed.

(** What the switch computes before the boundary cases. *)
Lemma range_switch_spec c rs op x g :
  mlc_rep c rs → x < base_product (base.values_ (base_ c)) → is_comparison op = true →
  (∀ v, g v = match op with
              | less | less_equal => v <=? x
              | greater | greater_equal => negb (v <=? x)
              | equal => v =? x
              | _ => negb (v =? x)
              end) →
  let '(c', r) := range_switch c op x in mlc_rep c' rs ∧ base_ c' = base_ c ∧ good g rs r.
Proof.
  intros Hmlc Hx Hop Hg. unfold range_switch. rewrite (mlc_size c rs Hmlc).
  pose proof (mlc_le_spec c rs x Hmlc Hx) as Hle. pose proof (mlc_eq_spec c rs x Hmlc Hx) as Heq.
  cbn zeta in *. destruct (le_first _ _ _ _) as [coders1 result1].
  destruct (le_loop _ _ _ result1) as [rest result]. destruct (eq_loop _ _ _ _) as [coders2 result2].
  destruct Hle as [Hrep1 Hle], Heq as [Hrep2 Heq].
  destruct op; try done; (split; [done|]); (split; [done|]);
    (eapply good_ext; [|eauto with gooddb]); intros v Hin; cbn beta; by rewrite Hg.
Qed.

Lemma mlc_decode_spec c rs op x :
  mlc_rep c rs → x < base_product (base.values_ (base_ c)) → is_comparison op = true →
  let '(c', r) := range_decode c op x in
  mlc_rep c' rs ∧ base_ c' = base_ c ∧ good (λ v, cmp op v x) rs r.
Proof.
  intros Hmlc Hx Hop. pose proof (mlc_size c rs Hmlc) as Hsize.
  pose proof Hmlc as (_ & Hne & _ & Hrep & Hmax & _). unfold range_decode.
  destruct (coders_ c) as [|k ks] eqn:Ec; [by destruct (base.values_ (base_ c))|]. rewrite Hsize.
  destruct (N.eqb_spec x 0) as [->|Hx0]; destruct op; try done;
    try (apply range_switch_spec; [done|lia|done|]; intros v; cbn; cases_N; done || lia).
  - split; [done|]. split; [done|]. eapply good_ext; [|eauto with gooddb]. by intros [].
  - split; [done|]. split; [done|]. eapply good_ext; [|eauto with gooddb]. by intros [].
Qed.
End mlc.
