(* ===== verification/BitsliceCoder.v ===== *)
(** The correctness of the bitslice coder and of the singleton coder:
    [bitslice_coder] and [singleton_coder] of [libvast/include/vast/coder.hpp]. *)

From S2P Require Import Prelude Word Bits BitmapConcept BitmapAlgorithms Operator Coder.

Definition bitslice_code (i : N) (o : option N) : bool :=
  match o with Some v => negb (N.testbit v i) | None => false end.
Definition bitslice_lazy (i : N) (o : option N) : Prop := o = None.

(** [c] holds the rows [rs] in [w] bitmaps; the values have [w] bits. *)
Definition bitslice_rep {B} `{Bitmap B} (w : N) (c : vector_coder.vector_coder B) (rs : rows) : Prop :=
  vec_rep bitslice_code bitslice_lazy c rs ∧ lenN (vector_coder.bitmaps_ c) = w ∧
  0 < w ∧ w <= 64 ∧ ∀ v, Some v ∈ rs → v < 2 ^ w.

Section bitslice.
Import vector_coder bitslice_coder.
Context {B : Type} `{Bitmap B}.
Implicit Types (c : vector_coder B) (rs : rows) (w x v : N).

Lemma lazy_bitslice i o : bitslice_lazy i o → bitslice_code i o = false.
Proof. by intros ->. Qed.

Lemma bit_test x i : (((x >>u i) &u 1) =? 0) = negb (N.testbit x i).
Proof.
  assert ((x >>u i) &u 1 = N.b2n (N.testbit x i)) as ->.
  { change 1 with (N.ones 1). rewrite N.land_ones. change (2 ^ 1) with 2.
    by rewrite <- N.bit0_mod, N.shiftr_spec'. }
  by destruct (N.testbit x i).
Qed.

Lemma bitslice_make_rep w : 0 < w → w <= 64 → bitslice_rep w (make (B:=B) w) [].
Proof.
  intros. split; [apply vec_rep_make; done|]. split; [apply lenN_reps|].
  split; [done|]. split; [done|]. by intros v ?%not_elem_of_nil.
Qed.

Lemma bitslice_encode_spec w c rs x n :
  bitslice_rep w c rs → x < 2 ^ w → lenN rs + n <= max_size →
  bitslice_rep w (encode c x n) (rs ++ reps n (Some x)).
Proof.
  intros (Hrep & Hw & Hpos & Hle & Hv) Hx Hn.
  destruct (vec_rep_encode false bitslice_code bitslice_lazy lazy_bitslice
    (λ i, ((x >>u N.of_nat i) &u 1) =? 0) c rs (length (bitmaps_ c)) n (Some x))
    as [Hrep' Hlen]; [done..| |lia|].
  { intros i _. by rewrite bit_test. }
  split; [done|]. split; [by unfold encode; cbn [bitmaps_]; rewrite Hlen|].
  split; [done|]. split; [done|]. intros v [?|[= ->]]%elem_of_app_reps; auto.
Qed.

Lemma bitslice_skip_spec w c rs n :
  bitslice_rep w c rs → lenN rs + n <= max_size → bitslice_rep w (skip c n) (rs ++ reps n None).
Proof.
  intros (Hrep & Hw & Hpos & Hle & Hv) Hn. split; [by apply vec_rep_skip|]. split; [done|].
  split; [done|]. split; [done|]. intros v [?|?]%elem_of_app_reps; [by apply Hv|done].
Qed.

Lemma bitslice_append_spec w c other rs rs' :
  bitslice_rep w c rs → bitslice_rep w other rs' → lenN rs + lenN rs' <= max_size →
  bitslice_rep w (append c other) (rs ++ rs').
Proof.
  intros (Hrep & Hw & Hpos & Hle & Hv) (Hrep' & Hw' & _ & _ & Hv') Hn. split.
  { by apply vec_rep_append; [apply lazy_bitslice|..]. }
  split; [|split; [done|split; [done|intros v [?|?]%elem_of_app; auto]]].
  unfold append, vector_coder.append, lenN in *. cbn [bitmaps_]. rewrite length_zip_with. lia.
Qed.

(** The bitmaps answer without being filled up. *)
Lemma bitslice_bitmap w c rs i :
  bitslice_rep w c rs → i < w → good (λ v, negb (N.testbit v i)) rs (nth_bitmap c i).
Proof.
  intros ((_ & _ & Hbm) & Hw & _) Hi. unfold nth_bitmap.
  destruct (lookup_lt_is_Some_2 (bitmaps_ c) (N.to_nat i)) as [bm Hbmi].
  { unfold lenN in Hw. lia. }
  rewrite Hbmi. cbn. specialize (Hbm _ _ Hbmi). rewrite N2Nat.id in Hbm.
  destruct Hbm as (Hwf & k & Hk & Hl & Hlazy). split; [done|]. rewrite Hl. split.
  { rewrite length_fmap, length_take. lia. }
  intros j v Hj. rewrite list_lookup_fmap. destruct (decide (j < k)%nat).
  - by rewrite lookup_take_lt, Hj by done.
  - apply (Forall_lookup_1 _ _ (j - k)%nat (Some v)) in Hlazy; [done|].
    rewrite lookup_drop. rewrite <- Hj. f_equal. lia.
Qed.

Lemma bitslice_size w c rs : bitslice_rep w c rs → size_ c = lenN rs ∧ lenN rs <= max_size.
Proof. by intros ((? & ? & _) & _). Qed.

(** [foldl] over the bits from [a] on, with the answer after each step. *)
Lemma good_foldl (P : N → N → bool) (step : B → nat → B) rs a m result :
  (∀ i result, (a <= i)%nat → (i < a + m)%nat →
     good (P (N.of_nat i)) rs result → good (P (N.of_nat i + 1)) rs (step result i)) →
  good (P (N.of_nat a)) rs result →
  good (P (N.of_nat (a + m))) rs (foldl step result (seq a m)).
Proof.
  intros Hstep Hres. induction m as [|m IH]; [by rewrite Nat.add_0_r|].
  rewrite seq_S, foldl_app. cbn [foldl].
  replace (N.of_nat (a + S m)) with (N.of_nat (a + m) + 1) by lia.
  apply Hstep; [lia..|]. apply IH. intros. apply Hstep; [lia..|done].
Qed.

(** The low [i + 1] bits. *)
Lemma mod_pow_succ v i : v mod 2 ^ (i + 1) = v mod 2 ^ i + (if N.testbit v i then 2 ^ i else 0).
Proof.
  rewrite N.pow_add_r. change (2 ^ 1) with 2. rewrite N.Div0.mod_mul_r.
  f_equal. rewrite N.testbit_eqb.
  pose proof (N.mod_lt (v / 2 ^ i) 2 ltac:(done)) as Hlt. revert Hlt.
  generalize ((v / 2 ^ i) mod 2). intros t Ht.
  destruct (N.eqb_spec t 1) as [->|]; [lia|]. replace t with 0 by lia. lia.
Qed.

Lemma range_eval_step v x i :
  (v mod 2 ^ (i + 1) <=? x mod 2 ^ (i + 1)) =
  if N.testbit x i then (v mod 2 ^ i <=? x mod 2 ^ i) || negb (N.testbit v i)
  else (v mod 2 ^ i <=? x mod 2 ^ i) && negb (N.testbit v i).
Proof.
  rewrite !mod_pow_succ. pose proof (N.mod_lt v (2 ^ i) ltac:(lia)).
  pose proof (N.mod_lt x (2 ^ i) ltac:(lia)).
  generalize dependent (v mod 2 ^ i). generalize dependent (x mod 2 ^ i). intros.
  destruct (N.testbit x i), (N.testbit v i); cbn [negb]; cases_N; cbn; done || lia.
Qed.

Lemma equal_eval_step v x i :
  (v mod 2 ^ (i + 1) =? x mod 2 ^ (i + 1)) =
  (v mod 2 ^ i =? x mod 2 ^ i) && eqb (N.testbit v i) (N.testbit x i).
Proof.
  rewrite !mod_pow_succ. pose proof (N.mod_lt v (2 ^ i) ltac:(lia)).
  pose proof (N.mod_lt x (2 ^ i) ltac:(lia)).
  generalize dependent (v mod 2 ^ i). generalize dependent (x mod 2 ^ i). intros.
  destruct (N.testbit x i), (N.testbit v i); cases_N; cbn; done || lia.
Qed.

Lemma range_eval_spec w c rs x :
  bitslice_rep w c rs → x < 2 ^ w → good (λ v, v <=? x) rs (range_eval c x).
Proof.
  intros Hrep Hx. destruct (bitslice_size w c rs Hrep) as [Hsz Hmax].
  pose proof Hrep as (_ & Hw & Hpos & Hle & Hv). unfold range_eval.
  set (P := λ i v, v mod 2 ^ i <=? x mod 2 ^ i).
  assert (good (P (N.of_nat (1 + (length (bitmaps_ c) - 1)))) rs (range_eval c x)) as Hg.
  { apply good_foldl.
    - intros i result Hi Hi' Hres. rewrite bit_test.
      assert (N.of_nat i < w) as Hiw by (unfold lenN in Hw; lia).
      pose proof (bitslice_bitmap w c rs (N.of_nat i) Hrep Hiw) as Hb. unfold P.
      destruct (N.testbit x (N.of_nat i)) eqn:E; cbn [negb].
      + eapply good_ext; [|eauto with gooddb]. intros v _. cbn beta.
        by rewrite range_eval_step, E.
      + eapply good_ext; [|eauto with gooddb]. intros v _. cbn beta.
        by rewrite range_eval_step, E.
    - pose proof (bit_test x 0) as E0. rewrite N.shiftr_0_r in E0. rewrite E0, Hsz.
      pose proof (bitslice_bitmap w c rs 0 Hrep Hpos) as Hb. unfold P. change (N.of_nat 1) with (0 + 1).
      destruct (N.testbit x 0) eqn:E; cbn [negb].
      + eapply good_ext; [|eauto with gooddb]. intros v _. cbn beta.
        rewrite range_eval_step, E. change (2 ^ 0) with 1. by rewrite !N.mod_1_r.
      + eapply good_ext; [|exact Hb]. intros v _. cbn beta.
        rewrite range_eval_step, E. change (2 ^ 0) with 1. by rewrite !N.mod_1_r. }
  eapply good_ext; [|exact Hg]. intros v Hin. unfold P.
  replace (N.of_nat (1 + (length (bitmaps_ c) - 1))) with w by (unfold lenN in *; lia).
  by rewrite !N.mod_small by auto.
Qed.

Lemma equal_eval_spec w c rs x :
  bitslice_rep w c rs → x < 2 ^ w → good (λ v, v =? x) rs (equal_eval c x).
Proof.
  intros Hrep Hx. destruct (bitslice_size w c rs Hrep) as [Hsz Hmax].
  pose proof Hrep as (_ & Hw & Hpos & Hle & Hv). unfold equal_eval.
  set (P := λ i v, v mod 2 ^ i =? x mod 2 ^ i).
  assert (good (P (N.of_nat (0 + length (bitmaps_ c)))) rs (equal_eval c x)) as Hg.
  { apply good_foldl.
    - intros i result Hi Hi' Hres. rewrite bit_test. unfold bitmap_base.complement.
      assert (N.of_nat i < w) as Hiw by (unfold lenN in Hw; lia).
      pose proof (bitslice_bitmap w c rs (N.of_nat i) Hrep Hiw) as Hb.
      unfold P. destruct (N.testbit x (N.of_nat i)) eqn:E; cbn [negb];
        (eapply good_ext; [|eauto with gooddb]); intros v _; cbn beta;
        rewrite equal_eval_step, E; unfold P; f_equal; by destruct (N.testbit v _).
    - rewrite Hsz. eapply good_ext; [|eauto with gooddb]. intros v _. unfold P.
      change (2 ^ N.of_nat 0) with 1. by rewrite !N.mod_1_r. }
  eapply good_ext; [|exact Hg]. intros v Hin. unfold P.
  replace (N.of_nat (0 + length (bitmaps_ c))) with w by (unfold lenN in *; lia).
  by rewrite !N.mod_small by auto.
Qed.

Lemma subset_exists v x w :
  x < 2 ^ w →
  existsb (λ j, N.testbit x (N.of_nat j) && negb (N.testbit v (N.of_nat j))) (seq 0 (N.to_nat w)) =
  negb ((v &u x) =? x).
Proof.
  intros Hx. apply eq_true_iff_eq. rewrite existsb_exists, negb_true_iff, N.eqb_neq. split.
  - intros (j & _ & [Hj Hv]%andb_true_iff) E. apply negb_true_iff in Hv.
    rewrite <- E, N.land_spec, Hv in Hj. done.
  - intros Hne. destruct (existsb (λ j, N.testbit x (N.of_nat j) && negb (N.testbit v (N.of_nat j)))
      (seq 0 (N.to_nat w))) eqn:E; [by apply existsb_exists in E|].
    destruct Hne. apply N.bits_inj. intros i. rewrite N.land_spec.
    destruct (N.testbit x i) eqn:Ei; [|by rewrite andb_false_r]. rewrite andb_true_r.
    destruct (N.lt_ge_cases i w) as [Hi|Hi]; [|by rewrite (testbit_bound_high x w i) in Ei].
    destruct (N.testbit v i) eqn:Ev; [done|]. rewrite <- E. apply existsb_exists.
    exists (N.to_nat i). rewrite in_seq, N2Nat.id, Ei, Ev. split; [lia|done].
Qed.

(** [in]: every bit of [x] is set in the value. *)
Lemma subset_eval_spec w c rs x :
  bitslice_rep w c rs → x < 2 ^ w → good (λ v, negb ((v &u x) =? x)) rs (subset_eval c x).
Proof.
  intros Hrep Hx. destruct (bitslice_size w c rs Hrep) as [Hsz Hmax].
  pose proof Hrep as (_ & Hw & Hpos & Hle & Hv). unfold subset_eval.
  set (P := λ i v, existsb (λ j, N.testbit x (N.of_nat j) && negb (N.testbit v (N.of_nat j)))
                     (seq 0 (N.to_nat i))).
  assert (good (P (N.of_nat (0 + length (bitmaps_ c)))) rs (subset_eval c x)) as Hg.
  { apply good_foldl.
    - intros i result Hi Hi' Hres. rewrite bit_test.
      assert (N.of_nat i < w) as Hiw by (unfold lenN in Hw; lia).
      pose proof (bitslice_bitmap w c rs (N.of_nat i) Hrep Hiw) as Hb.
      rewrite testbit_lnot, (proj2 (N.ltb_lt (N.of_nat i) 64)), xorb_true_r, negb_involutive by lia.
      assert (∀ v, P (N.of_nat i + 1) v = P (N.of_nat i) v ||
        (N.testbit x (N.of_nat i) && negb (N.testbit v (N.of_nat i)))) as HP.
      { intros v. unfold P. replace (N.to_nat (N.of_nat i + 1)) with (S (N.to_nat (N.of_nat i))) by lia.
        rewrite seq_S, existsb_app. cbn. by rewrite Nat2N.id, orb_false_r. }
      destruct (N.testbit x (N.of_nat i)) eqn:E.
      + eapply good_ext; [|eauto with gooddb]. intros v _. cbn beta. by rewrite HP.
      + eapply good_ext; [|exact Hres]. intros v _. by rewrite HP, orb_false_r.
    - rewrite Hsz. eapply good_ext; [|eauto with gooddb]. done. }
  eapply good_ext; [|exact Hg]. intros v Hin. unfold P.
  replace (N.to_nat (N.of_nat (0 + length (bitmaps_ c)))) with (N.to_nat w) by (unfold lenN in *; lia).
  by apply subset_exists.
Qed.

(** *** Skipped rows *)

(** A conjunction over some bitmaps, bit by bit. *)
Lemma foldl_and_bits (t : nat → B) (l : list nat) (res : B) j :
  bm_wf res → Forall (λ i, bm_wf (t i)) l →
  let r := foldl (λ r i, bitmap_algorithms.binary_and r (t i)) res l in
  bm_wf r ∧ bit_at (bm_list r) j = bit_at (bm_list res) j && forallb (λ i, bit_at (bm_list (t i)) j) l.
Proof.
  intros Hres Hl. revert res Hres. induction Hl as [|i l Hi _ IH]; intros res Hres; cbn.
  { by rewrite andb_true_r. }
  destruct (binary_and_spec (R:=B) res (t i) Hres Hi) as [Hw E].
  destruct (IH _ Hw) as [? ->]. split; [done|].
  by rewrite E, bit_at_pad_eval, andb_assoc by done.
Qed.

(** A skipped row has 0-bits in all bitmaps. *)
Lemma bitslice_none w c rs i j :
  bitslice_rep w c rs → i < w → (∀ v, rs !! j ≠ Some (Some v)) →
  bit_at (bm_list (nth_bitmap c i)) j = false.
Proof.
  intros ((_ & _ & Hbm) & Hw & _) Hi Hj. unfold nth_bitmap.
  destruct (lookup_lt_is_Some_2 (bitmaps_ c) (N.to_nat i)) as [bm Hbmi]; [unfold lenN in Hw; lia|].
  rewrite Hbmi. cbn. destruct (Hbm _ _ Hbmi) as (_ & k & _ & Hl & _).
  unfold bit_at. rewrite Hl, list_lookup_fmap. destruct (take k rs !! j) as [[v|]|] eqn:E; [|done..].
  apply lookup_take_Some in E as [E _]. by destruct (Hj v).
Qed.

(** A skipped row is not equal to a value that has a 0-bit. *)
Lemma equal_eval_none w c rs x i j :
  bitslice_rep w c rs → i < w → N.testbit x i = false → (∀ v, rs !! j ≠ Some (Some v)) →
  bit_at (bm_list (equal_eval c x)) j = false.
Proof.
  intros Hrep Hi Hx Hj. pose proof Hrep as (_ & Hw & _). destruct (bitslice_size w c rs Hrep) as [Hsz Hmax].
  unfold equal_eval.
  set (t := λ i : nat, if ((x >>u N.of_nat i) &u 1) =? 0 then nth_bitmap c (N.of_nat i)
                       else bitmap_base.complement (nth_bitmap c (N.of_nat i))).
  destruct (foldl_and_bits t (seq 0 (length (bitmaps_ c))) (bitmap_base.make (size_ c) true) j)
    as [_ E]; [rewrite Hsz; by apply bitmap_make_spec| |].
  - apply Forall_seq. intros i' [_ Hi']. unfold t.
    assert (bm_wf (nth_bitmap c (N.of_nat i'))) as Hb
      by (apply (bitslice_bitmap w c rs); [done|unfold lenN in Hw; lia]).
    destruct (_ =? 0); [done|]. by apply bm_flip_spec.
  - change (foldl _ _ _) with
      (foldl (λ r i, bitmap_algorithms.binary_and r (t i)) (bitmap_base.make (size_ c) true)
         (seq 0 (length (bitmaps_ c)))).
    rewrite E. apply andb_false_iff. right. apply not_true_iff_false. intros Hall.
    rewrite forallb_forall in Hall. specialize (Hall (N.to_nat i)).
    unfold t in Hall. rewrite N2Nat.id, bit_test, Hx in Hall. cbn [negb] in Hall.
    rewrite (bitslice_none w c rs i j Hrep Hi Hj) in Hall.
    assert (In (N.to_nat i) (seq 0 (length (bitmaps_ c)))) as Hin
      by (apply in_seq; unfold lenN in Hw; lia).
    by specialize (Hall Hin).
Qed.

(** Every comparison with a value of [w] bits. *)
Lemma bitslice_decode_spec w c rs op x :
  bitslice_rep w c rs → x < 2 ^ w → is_comparison op = true →
  good (λ v, cmp op v x) rs (decode c op x).
Proof.
  intros Hrep Hx Hop. destruct (bitslice_size w c rs Hrep) as [Hsz Hmax].
  pose proof (range_eval_spec w c rs x Hrep Hx) as Hr.
  pose proof (equal_eval_spec w c rs x Hrep Hx) as He.
  pose proof (range_eval_spec w c rs (x - 1) Hrep ltac:(lia)) as Hr'.
  destruct op; try done; unfold decode; rewrite ?Hsz; try destruct (N.eqb_spec x 0);
    (eapply good_ext; [|eauto with gooddb]); intros v _; cbn; cases_N; cbn; done || lia.
Qed.

(** The containment operators; both are empty for [x = 0]. *)
Lemma bitslice_decode_in_spec w c rs (x : N) :
  bitslice_rep w c rs → x < 2 ^ w → x ≠ 0 →
  good (λ v, (v &u x) =? x) rs (decode c in_ x) ∧
  good (λ v, negb ((v &u x) =? x)) rs (decode c not_in x).
Proof.
  intros Hrep Hx Hne. unfold decode. rewrite (proj2 (N.eqb_neq x 0)) by done.
  pose proof (subset_eval_spec w c rs x Hrep Hx) as Hs. split; [|done].
  eapply good_ext; [|eauto with gooddb]. intros v _. cbn beta. apply negb_involutive.
Qed.
End bitslice.

(** ** The singleton coder *)

(** The rows of a singleton coder; a skipped row reads as false. *)
Definition singleton_rep {B} `{Bitmap B} (c : singleton_coder.singleton_coder B)
    (rs : list (option bool)) : Prop :=
  bm_wf (singleton_coder.bitmap_ c) ∧ bm_list (singleton_coder.bitmap_ c) = default false <$> rs.

Section singleton.
Import singleton_coder.
Context {B : Type} `{Bitmap B}.
Implicit Types (c : singleton_coder B) (rs : list (option bool)).

Lemma singleton_len c rs : singleton_rep c rs → lenN (bm_list (bitmap_ c)) = lenN rs.
Proof. intros [_ ->]. unfold lenN. by rewrite length_fmap. Qed.

Lemma singleton_encode_spec c rs x n :
  singleton_rep c rs → lenN rs + n <= max_size → singleton_rep (encode c x n) (rs ++ reps n (Some x)).
Proof.
  intros Hrep Hn. pose proof (singleton_len c rs Hrep) as Hlen. destruct Hrep as [Hwf Hl].
  destruct (bm_append_bits_spec (bitmap_ c) x n Hwf) as [Hwf' Hl']; [by rewrite Hlen|].
  split; [done|]. cbn [encode bitmap_]. by rewrite Hl', Hl, fmap_app, fmap_reps.
Qed.

Lemma singleton_skip_spec c rs n :
  singleton_rep c rs → lenN rs + n <= max_size → singleton_rep (skip c n) (rs ++ reps n None).
Proof.
  intros Hrep Hn. pose proof (singleton_len c rs Hrep) as Hlen. destruct Hrep as [Hwf Hl].
  destruct (bm_append_bits_spec (bitmap_ c) false n Hwf) as [Hwf' Hl']; [by rewrite Hlen|].
  split; [done|]. cbn [skip bitmap_]. by rewrite Hl', Hl, fmap_app, fmap_reps.
Qed.

Lemma singleton_append_spec c other rs rs' :
  singleton_rep c rs → singleton_rep other rs' → lenN rs + lenN rs' <= max_size →
  singleton_rep (append c other) (rs ++ rs').
Proof.
  intros Hrep Hrep' Hn. pose proof (singleton_len c rs Hrep) as Hlen.
  pose proof (singleton_len other rs' Hrep') as Hlen'. destruct Hrep as [Hwf Hl], Hrep' as [Hwf' Hl'].
  destruct (bitmap_append_spec (bitmap_ c) (bitmap_ other) Hwf Hwf') as [? Hl2]; [by rewrite Hlen, Hlen'|].
  split; [done|]. cbn [append bitmap_]. by rewrite Hl2, Hl, Hl', fmap_app.
Qed.

Lemma singleton_decode_spec c rs op x :
  singleton_rep c rs → op = equal ∨ op = not_equal →
  bm_wf (decode c op x) ∧ length (bm_list (decode c op x)) = length rs ∧
  ∀ j v, rs !! j = Some (Some v) →
    bm_list (decode c op x) !! j = Some (if op ==o equal then eqb v x else negb (eqb v x)).
Proof.
  intros [Hwf Hl] Hop. unfold decode.
  destruct (bm_flip_spec (bitmap_ c) Hwf) as [Hwf' Hl'].
  destruct Hop as [-> | ->], x; cbn; rewrite ?Hl', ?Hl; (split; [done|]);
    rewrite ?length_fmap; (split; [done|]); intros j v Hj;
    rewrite ?list_lookup_fmap, Hj; cbn; by destruct v.
Qed.
End singleton.
