(* ===== verification/Order.v ===== *)
(** The bitwise total order of arithmetic values and the binning policies:
    [libvast/include/vast/detail/order.hpp] and
    [libvast/include/vast/binner.hpp].

    A [uint64_t] is an [N] below 2^64, an [int64_t] a [Z] in its range and a
    [double] its 64-bit pattern. *)

From S2P Require Import Prelude Word.

(** ** Signed integers *)

Definition is_i64 (x : Z) : Prop := (-2 ^ 63 <= x < 2 ^ 63)%Z.

(** The conversions between [int64_t] and [uint64_t]. *)
Definition to_u64 (x : Z) : N := Z.to_N (x mod 2 ^ 64)%Z.
Definition to_i64 (x : N) : Z :=
  if x <? 2 ^ 63 then Z.of_N x else (Z.of_N x - 2 ^ 64)%Z.

Module order.

Definition order_unsigned (x : N) : N := x.

(** [x += std::make_unsigned_t<T>{1} << std::numeric_limits<T>::digits] *)
Definition order_i64 (x : Z) : N :=
  let x := to_i64 (wrap (to_u64 x + (1 <<u 63))) in to_u64 x.

(** *** Doubles *)

Inductive fp_class := FP_ZERO | FP_INFINITE | FP_SUBNORMAL | FP_NAN | FP_NORMAL.

Definition exp_mask : N := ((~u 0) <<u 53) >>u 1.
Definition sig_mask : N := (~u 0) >>u 12.

(** The fields of a pattern and [std::fpclassify]. *)
Definition fp_sign (ux : N) : bool := N.testbit ux 63.
Definition fp_exp (ux : N) : N := (ux &u exp_mask) >>u 52.
Definition fp_sig (ux : N) : N := ux &u sig_mask.

Definition fpclassify (ux : N) : fp_class :=
  if fp_exp ux =? 0 then if fp_sig ux =? 0 then FP_ZERO else FP_SUBNORMAL
  else if fp_exp ux =? 2047 then if fp_sig ux =? 0 then FP_INFINITE else FP_NAN
  else FP_NORMAL.

(** [order(double)]; [None] is the call of [die]. *)
Definition order_double (ux : N) : option N :=
  let negative := fp_sign ux in
  match fpclassify ux with
  | FP_ZERO => Some 0x7fffffffffffffff
  | FP_INFINITE => Some (if negative then 0 else 0xffffffffffffffff)
  | FP_SUBNORMAL => Some (if negative then 0x7ffffffffffffffe else 0x8000000000000000)
  | FP_NAN => None
  | FP_NORMAL =>
      let exp := (ux &u exp_mask) >>u 52 in
      let sig := ux &u sig_mask in
      Some (if negb negative
            then (((ux &u exp_mask) |u (1 <<u 63)) |u sig) +u 1
            else ((((exp_mask >>u 52) -u exp) <<u 52) |u (sig_mask -u sig)) -u 1)
  end.
End order.

Module identity_binner.
Definition bin {T} (x : T) : T := x.
End identity_binner.

Module decimal_binner.
Definition bucket_size (Exp : N) : N := 10 ^ Exp.
Definition bin_unsigned (Exp x : N) : N := x / bucket_size Exp.
(** The division is unsigned: the signed operand is converted. *)
Definition bin_i64 (Exp : N) (x : Z) : Z := to_i64 (to_u64 x / bucket_size Exp).
End decimal_binner.

(** ** The order of signed integers *)

Lemma to_u64_range x : to_u64 x < 2 ^ 64.
Proof. unfold to_u64. pose proof (Z.mod_pos_bound x (2 ^ 64) ltac:(done)). lia. Qed.

Lemma to_u64_nonneg x : (0 <= x < 2 ^ 64)%Z → to_u64 x = Z.to_N x.
Proof. intros. unfold to_u64. by rewrite Z.mod_small. Qed.

Lemma to_u64_neg x : (-2 ^ 64 <= x < 0)%Z → to_u64 x = Z.to_N (x + 2 ^ 64).
Proof.
  intros. unfold to_u64. rewrite <- (Z.mod_add x 1), Z.mul_1_l, Z.mod_small by done || lia. done.
Qed.

Lemma to_u64_to_i64 x : x < 2 ^ 64 → to_u64 (to_i64 x) = x.
Proof.
  intros. unfold to_i64. destruct (N.ltb_spec x (2 ^ 63)).
  - rewrite to_u64_nonneg; lia.
  - rewrite to_u64_neg; lia.
Qed.

Lemma order_i64_spec x : is_i64 x → order.order_i64 x = Z.to_N (x + 2 ^ 63).
Proof.
  intros Hx. unfold order.order_i64, is_i64 in *. change (1 <<u 63) with (2 ^ 63).
  rewrite to_u64_to_i64 by (by apply N.mod_lt). unfold wrap.
  destruct (Z.neg_nonneg_cases x).
  - rewrite to_u64_neg by lia. replace (Z.to_N (x + 2 ^ 64) + 2 ^ 63) with (Z.to_N (x + 2 ^ 63) + 1 * 2 ^ 64) by lia.
    rewrite N.Div0.mod_add. apply N.mod_small. lia.
  - rewrite to_u64_nonneg by lia. rewrite N.mod_small; lia.
Qed.

(** ** The order of doubles

    The value of a pattern in units of 2^-1074, the smallest subnormal; the
    infinities stand behind all finite values. *)

Definition magnitude (e s : N) : N := (if e =? 0 then s else 2 ^ 52 + s) * 2 ^ (N.max e 1 - 1).
Definition fp_value (ux : N) : Z :=
  let m := Z.of_N (magnitude (order.fp_exp ux) (order.fp_sig ux)) in
  if order.fp_sign ux then (- m)%Z else m.

(** Exponent and significand read as one number, with the sign. *)
Definition fp_key (ux : N) : Z :=
  let m := Z.of_N (order.fp_exp ux * 2 ^ 52 + order.fp_sig ux) in
  if order.fp_sign ux then (- m)%Z else m.

Section doubles.
Import order.
Implicit Types (x y e s : N).

Lemma fp_exp_lt x : fp_exp x < 2 ^ 11.
Proof.
  unfold fp_exp, exp_mask. rewrite N.shiftr_land.
  change (N.shiftr _ 52) with (N.ones 11) at 2. rewrite N.land_ones. by apply N.mod_lt.
Qed.

Lemma fp_sig_lt x : fp_sig x < 2 ^ 52.
Proof.
  unfold fp_sig. change sig_mask with (N.ones 52). rewrite N.land_ones. by apply N.mod_lt.
Qed.

Lemma magnitude_lt e s e' s' :
  s < 2 ^ 52 → s' < 2 ^ 52 → e * 2 ^ 52 + s < e' * 2 ^ 52 + s' → magnitude e s < magnitude e' s'.
Proof.
  intros Hs Hs' Hlt. unfold magnitude.
  destruct (N.eq_dec e e') as [->|Hne].
  { apply N.mul_lt_mono_pos_r; [apply N.neq_0_lt_0, N.pow_nonzero; done|]. destruct (e' =? 0); lia. }
  assert (e < e') as He by nia. rewrite (proj2 (N.eqb_neq e' 0)) by lia.
  replace (N.max e' 1 - 1) with (e' - 1) by lia.
  assert (2 ^ N.max 1 e <= 2 ^ (e' - 1) * 2) as Hp.
  { rewrite N.mul_comm, <- N.pow_succ_r'. apply N.pow_le_mono_r; lia. }
  destruct (N.eqb_spec e 0) as [->|].
  - change (N.max 0 1 - 1) with 0. change (2 ^ 0) with 1. change (2 ^ N.max 1 0) with 2 in Hp. nia.
  - replace (N.max 1 e) with (N.succ (e - 1)) in Hp by lia. rewrite N.pow_succ_r' in Hp.
    replace (N.max e 1 - 1) with (e - 1) by lia.
    assert (0 < 2 ^ (e - 1)) by (apply N.neq_0_lt_0, N.pow_nonzero; done).
    assert (2 ^ N.succ (e - 1) <= 2 ^ (e' - 1)) as Hq by (apply N.pow_le_mono_r; lia).
    rewrite N.pow_succ_r' in Hq. nia.
Qed.

Lemma magnitude_le e s e' s' :
  s < 2 ^ 52 → s' < 2 ^ 52 → magnitude e s < magnitude e' s' → e * 2 ^ 52 + s < e' * 2 ^ 52 + s'.
Proof.
  intros Hs Hs' Hlt. destruct (N.lt_trichotomy (e * 2 ^ 52 + s) (e' * 2 ^ 52 + s')) as [?|[E|Hgt]]; [done| |].
  - assert (e = e' ∧ s = s') as [-> ->] by (split; nia). lia.
  - apply magnitude_lt in Hgt; lia.
Qed.

Lemma magnitude_0 e s : magnitude e s = 0 → e * 2 ^ 52 + s = 0.
Proof.
  unfold magnitude. assert (2 ^ (N.max e 1 - 1) ≠ 0) by (apply N.pow_nonzero; done).
  intros [E|?]%N.mul_eq_0; [|done]. destruct (N.eqb_spec e 0); lia.
Qed.

(** Comparing two doubles is comparing their keys. *)
Lemma fp_value_key x y : (fp_value x < fp_value y ↔ fp_key x < fp_key y)%Z.
Proof.
  unfold fp_value, fp_key. pose proof (fp_sig_lt x). pose proof (fp_sig_lt y).
  set (ex := fp_exp x) in *. set (sx := fp_sig x) in *. set (ey := fp_exp y) in *. set (sy := fp_sig y) in *.
  pose proof (magnitude_lt ex sx ey sy). pose proof (magnitude_lt ey sy ex sx).
  pose proof (magnitude_le ex sx ey sy). pose proof (magnitude_le ey sy ex sx).
  pose proof (magnitude_0 ex sx). pose proof (magnitude_0 ey sy).
  assert (ex * 2 ^ 52 + sx = 0 → magnitude ex sx = 0) by (intros; assert (ex = 0 ∧ sx = 0) as [-> ->] by lia; done).
  assert (ey * 2 ^ 52 + sy = 0 → magnitude ey sy = 0) by (intros; assert (ey = 0 ∧ sy = 0) as [-> ->] by lia; done).
  destruct (fp_sign x), (fp_sign y); lia.
Qed.
End doubles.

Section order_double.
Import order.
Implicit Types (x y : N).

Lemma lor_add a b k : b < 2 ^ k → N.lor (N.shiftl a k) b = a * 2 ^ k + b.
Proof.
  intros Hb. assert (N.land (N.shiftl a k) b = 0) as Hd.
  { apply N.bits_inj. intros i. rewrite N.land_spec, N.bits_0. destruct (N.lt_ge_cases i k).
    - by rewrite N.shiftl_spec_low.
    - rewrite (testbit_bound_high b k i) by done. apply andb_false_r. }
  rewrite <- N.shiftl_mul_pow2, N.add_nocarry_lxor by done. symmetry. by apply N.lxor_lor.
Qed.

Lemma fp_masked_exp x : x &u exp_mask = N.shiftl (fp_exp x) 52.
Proof.
  unfold fp_exp. apply N.bits_inj. intros i. destruct (N.lt_ge_cases i 52).
  - rewrite N.shiftl_spec_low, N.land_spec by done. change exp_mask with (N.shiftl (N.ones 11) 52).
    rewrite N.shiftl_spec_low by done. apply andb_false_r.
  - rewrite N.shiftl_spec_high', N.shiftr_spec' by done. f_equal. lia.
Qed.

(** The result for a normal number is its key, moved to the middle of the range. *)
Lemma order_normal x :
  fpclassify x = FP_NORMAL →
  order_double x =
  Some (Z.to_N (if fp_sign x then 2 ^ 63 - 2 + fp_key x else 2 ^ 63 + 1 + fp_key x)%Z).
Proof.
  intros Hc. unfold order_double. rewrite Hc. fold (fp_exp x) (fp_sig x). f_equal.
  assert (fp_exp x ≠ 2047 ∧ fp_exp x ≠ 0) as [Hmax Hmin].
  { unfold fpclassify in Hc. destruct (N.eqb_spec (fp_exp x) 0), (N.eqb_spec (fp_exp x) 2047); try done;
      by destruct (fp_sig x =? 0). }
  pose proof (fp_exp_lt x) as He. pose proof (fp_sig_lt x) as Hs. rewrite fp_masked_exp.
  unfold fp_key. set (e := fp_exp x) in *. set (s := fp_sig x) in *. destruct (fp_sign x); cbn [negb].
  - change (exp_mask >>u 52) with 2047. change sig_mask with (2 ^ 52 - 1). unfold wrap at 3 4.
    replace (2047 + 2 ^ 64 - e) with (2047 - e + 1 * 2 ^ 64) by lia.
    replace (2 ^ 52 - 1 + 2 ^ 64 - s) with (2 ^ 52 - 1 - s + 1 * 2 ^ 64) by lia.
    rewrite !N.Div0.mod_add, (N.mod_small (2047 - e)), (N.mod_small (2 ^ 52 - 1 - s)) by lia.
    rewrite (wrap_small (N.shiftl _ _)) by (rewrite N.shiftl_mul_pow2; lia).
    rewrite lor_add by lia.
    replace (_ + 2 ^ 64 - 1) with ((2047 - e) * 2 ^ 52 + (2 ^ 52 - 1 - s) - 1 + 1 * 2 ^ 64) by lia.
    unfold wrap. rewrite N.Div0.mod_add, N.mod_small by lia. lia.
  - rewrite <- N.lor_assoc, (N.lor_comm (1 <<u 63)), N.lor_assoc, lor_add by done.
    rewrite N.lor_comm. change (1 <<u 63) with (N.shiftl 1 63). rewrite lor_add by lia.
    rewrite wrap_small by lia. lia.
Qed.

(** The result as a function of the key. *)
Lemma order_key x :
  fpclassify x ≠ FP_NAN →
  order_double x = Some (Z.to_N
    (let k := fp_key x in
     if decide (k = 0) then 2 ^ 63 - 1
     else if decide (Z.abs k < 2 ^ 52) then if decide (k < 0) then 2 ^ 63 - 2 else 2 ^ 63
     else if decide (Z.abs k = 2047 * 2 ^ 52) then if decide (k < 0) then 0 else 2 ^ 64 - 1
     else if decide (k < 0) then 2 ^ 63 - 2 + k else 2 ^ 63 + 1 + k)%Z).
Proof.
  intros Hn. cbn zeta. pose proof (fp_exp_lt x) as He. pose proof (fp_sig_lt x) as Hs.
  destruct (fpclassify x) eqn:Hc; try done.
  4: { rewrite order_normal by done. unfold fpclassify in Hc. unfold fp_key.
       destruct (N.eqb_spec (fp_exp x) 0), (N.eqb_spec (fp_exp x) 2047); try (by destruct (fp_sig x =? 0)).
       f_equal. destruct (fp_sign x); repeat (first [rewrite decide_False by lia|rewrite decide_True by lia]); done. }
  all: unfold order_double; rewrite Hc; unfold fpclassify in Hc; unfold fp_key;
    destruct (N.eqb_spec (fp_exp x) 0), (N.eqb_spec (fp_exp x) 2047), (N.eqb_spec (fp_sig x) 0); try done;
    f_equal; destruct (fp_sign x); repeat (first [rewrite decide_False by lia|rewrite decide_True by lia]); done || lia.
Qed.

Lemma order_double_nan x : order_double x = None ↔ fpclassify x = FP_NAN.
Proof. unfold order_double. by destruct (fpclassify x). Qed.

Lemma fp_key_max x : fpclassify x ≠ FP_NAN → (Z.abs (fp_key x) <= 2047 * 2 ^ 52)%Z.
Proof.
  intros Hn. unfold fpclassify, fp_key in *. pose proof (fp_exp_lt x). pose proof (fp_sig_lt x).
  destruct (N.eqb_spec (fp_exp x) 0), (N.eqb_spec (fp_exp x) 2047), (N.eqb_spec (fp_sig x) 0); try done;
    destruct (fp_sign x); lia.
Qed.

Lemma fp_key_subnormal x : (0 < Z.abs (fp_key x) < 2 ^ 52)%Z → fpclassify x = FP_SUBNORMAL.
Proof.
  intros Hk. unfold fpclassify, fp_key in *.
  destruct (N.eqb_spec (fp_exp x) 0), (N.eqb_spec (fp_exp x) 2047), (N.eqb_spec (fp_sig x) 0); try done;
    destruct (fp_sign x); lia.
Qed.

(** The order of the values is the order of the results, where the subnormal
    numbers of one sign count as one. *)
Lemma order_double_lt x y ox oy :
  order_double x = Some ox → order_double y = Some oy → (fp_value x < fp_value y)%Z →
  ox < oy ∨ (ox = oy ∧ fpclassify x = FP_SUBNORMAL ∧ fpclassify y = FP_SUBNORMAL).
Proof.
  intros Ex Ey Hlt%fp_value_key.
  assert (fpclassify x ≠ FP_NAN) as Hx by (intros E%order_double_nan; congruence).
  assert (fpclassify y ≠ FP_NAN) as Hy by (intros E%order_double_nan; congruence).
  rewrite order_key in Ex, Ey by done. apply (inj Some) in Ex as <-, Ey as <-.
  pose proof (fp_key_max x Hx). pose proof (fp_key_max y Hy).
  pose proof (fp_key_subnormal x). pose proof (fp_key_subnormal y). cbn zeta.
  repeat case_decide; try (left; lia); right; (split; [done|]); split; auto with lia.
Qed.
End order_double.

(** ** Decimal bins *)

Section decimal.
Import decimal_binner.
Local Open Scope Z_scope.

(** A non-negative value goes into the bin of its quotient. *)
Lemma bin_i64_nonneg Exp x : 0 <= x < 2 ^ 63 → bin_i64 Exp x = x / 10 ^ Z.of_N Exp.
Proof.
  intros Hx. unfold bin_i64, bucket_size. rewrite to_u64_nonneg by lia.
  assert (10 ^ Exp ≠ 0)%N by (apply N.pow_nonzero; done).
  assert (Z.to_N x / 10 ^ Exp <= Z.to_N x)%N as Hle by (apply N.Div0.div_le_upper_bound; nia).
  unfold to_i64. rewrite (proj2 (N.ltb_lt _ _)) by lia.
  rewrite N2Z.inj_div, N2Z.inj_pow, Z2N.id by lia. done.
Qed.

Lemma bin_i64_range Exp x : 0 <= x < 2 ^ 63 → 0 <= bin_i64 Exp x < 2 ^ 63.
Proof.
  intros Hx. rewrite bin_i64_nonneg by done.
  assert (0 < 10 ^ Z.of_N Exp) by (apply Z.pow_pos_nonneg; lia).
  split; [apply Z.div_pos; lia|]. apply Z.le_lt_trans with x; [|lia].
  apply Z.div_le_upper_bound; nia.
Qed.

Lemma bin_i64_le Exp x y : 0 <= x < 2 ^ 63 → 0 <= y < 2 ^ 63 → x <= y → bin_i64 Exp x <= bin_i64 Exp y.
Proof.
  intros. rewrite !bin_i64_nonneg by done. apply Z.div_le_mono; [|done].
  apply Z.pow_pos_nonneg; lia.
Qed.
End decimal.
