(* ===== verification/BitmapIndex.v ===== *)
(** Bitmap indexes: [libvast/include/vast/bitmap_index.hpp].

    [CoderOps] is what [bitmap_index] calls of its coder and [Coder] what it
    relies on; the coders of [coder.hpp] that the value indexes use are
    instances. A [bool] value is 0 or 1. *)

From S2P Require Import Prelude Word Bits BitmapConcept BitmapAlgorithms Operator Base Coder.
From S2P Require Import MultiLevelCoder BitsliceCoder Order.

(** ** What an index needs of its coder *)

Class CoderOps (C B : Type) := {
  coder_encode : C → N → N → C;
  coder_skip : C → N → C;
  coder_append : C → C → C;
  coder_decode : C → relational_operator → N → C * B;
  coder_size : C → N
}.

Class Coder (C B : Type) `{CoderOps C B, Bitmap B} := {
  (** The coder holds rows. *)
  coder_rep : C → rows → Prop;
  (** The values the coder can hold. *)
  coder_fits : C → N → Prop;
  (** The operators it decodes. *)
  coder_op : relational_operator → bool;
  (** Two coders of the same shape. *)
  coder_same : C → C → Prop;
  coder_same_fits c c' : coder_same c c' → ∀ x, coder_fits c' x ↔ coder_fits c x;
  coder_max c rs : coder_rep c rs → lenN rs <= max_size;
  coder_size_spec c rs : coder_rep c rs → coder_size c = lenN rs;
  coder_encode_spec c rs x n :
    coder_rep c rs → coder_fits c x → lenN rs + n <= max_size →
    coder_rep (coder_encode c x n) (rs ++ reps n (Some x)) ∧ coder_same c (coder_encode c x n);
  coder_skip_spec c rs n :
    coder_rep c rs → lenN rs + n <= max_size →
    coder_rep (coder_skip c n) (rs ++ reps n None) ∧ coder_same c (coder_skip c n);
  coder_append_spec c c' rs rs' :
    coder_rep c rs → coder_rep c' rs' → coder_same c c' → lenN rs + lenN rs' <= max_size →
    coder_rep (coder_append c c') (rs ++ rs') ∧ coder_same c (coder_append c c');
  coder_decode_spec c rs op x :
    coder_rep c rs → coder_fits c x → coder_op op = true →
    let '(c', r) := coder_decode c op x in
    coder_rep c' rs ∧ coder_same c c' ∧ good (λ v, cmp op v x) rs r
}.

Section instances.
Context {B : Type} `{Bitmap B}.

#[export] Instance mlc_coder_ops :
    CoderOps (multi_level_coder.multi_level_coder (vector_coder.vector_coder B)) B := {
  coder_encode := multi_level_coder.encode range_ops;
  coder_skip := multi_level_coder.skip range_ops;
  coder_append := multi_level_coder.append range_ops;
  coder_decode := multi_level_coder.range_decode;
  coder_size := multi_level_coder.size range_ops
}.

#[refine, export] Instance mlc_coder :
    Coder (multi_level_coder.multi_level_coder (vector_coder.vector_coder B)) B := {|
  coder_rep := mlc_rep;
  coder_fits c x := x < base_product (base.values_ (multi_level_coder.base_ c));
  coder_op := is_comparison;
  coder_same c c' := multi_level_coder.base_ c' = multi_level_coder.base_ c;
  coder_size_spec := mlc_size
|}.
Proof.
  - abstract (by intros c c' ->).
  - abstract (intros c rs Hrep; apply Hrep).
  - abstract (intros; by apply mlc_encode_spec).
  - abstract (intros; split; [by apply mlc_skip_spec|done]).
  - abstract (intros; split; [by apply mlc_append_spec|done]).
  - abstract (intros c rs op x Hrep Hx Hop; pose proof (mlc_decode_spec c rs op x Hrep Hx Hop) as Hd;
      cbn; by destruct (multi_level_coder.range_decode c op x)).
Defined.

#[export] Instance singleton_coder_ops : CoderOps (singleton_coder.singleton_coder B) B := {
  coder_encode c x := singleton_coder.encode c (negb (x =? 0));
  coder_skip := singleton_coder.skip;
  coder_append := singleton_coder.append;
  coder_decode c op x := (c, singleton_coder.decode c op (negb (x =? 0)));
  coder_size := singleton_coder.size
}.

(** A row of a singleton coder as a number. *)
Definition bool_rows (rs : rows) : list (option bool) := option_map (λ x, negb (x =? 0)) <$> rs.

Lemma bool_rows_app rs rs' : bool_rows (rs ++ rs') = bool_rows rs ++ bool_rows rs'.
Proof. apply fmap_app. Qed.
Lemma bool_rows_reps n o : bool_rows (reps n o) = reps n (option_map (λ x, negb (x =? 0)) o).
Proof. apply fmap_reps. Qed.
Lemma lenN_bool_rows rs : lenN (bool_rows rs) = lenN rs.
Proof. apply lenN_fmap. Qed.

Definition singleton_rows (c : singleton_coder.singleton_coder B) (rs : rows) : Prop :=
  singleton_rep c (bool_rows rs) ∧ ∀ v, Some v ∈ rs → v < 2.

Lemma singleton_max c rs : singleton_rows c rs → lenN rs <= max_size.
Proof.
  intros [Hrep _]. rewrite <- lenN_bool_rows, <- (singleton_len c) by done.
  apply bm_max, Hrep.
Qed.

Lemma singleton_decode_good c rs op x :
  singleton_rows c rs → x < 2 → (op ==o equal) || (op ==o not_equal) = true →
  good (λ v, cmp op v x) rs (singleton_coder.decode c op (negb (x =? 0))).
Proof.
  intros [Hrep Hv] Hx Hop. assert (op = equal ∨ op = not_equal) as Hop' by (by destruct op; auto).
  destruct (singleton_decode_spec c _ op (negb (x =? 0)) Hrep Hop') as (Hwf & Hlen & Hl).
  split; [done|]. unfold bool_rows in Hlen. rewrite length_fmap in Hlen. split; [lia|].
  intros j v Hj. rewrite (Hl j (negb (v =? 0))) by (unfold bool_rows; by rewrite list_lookup_fmap, Hj).
  assert (v < 2) by (by eapply Hv, list_elem_of_lookup_2). f_equal.
  assert (v = 0 ∨ v = 1) as [-> | ->] by lia; assert (x = 0 ∨ x = 1) as [-> | ->] by lia;
    by destruct Hop' as [-> | ->].
Qed.

#[refine, export] Instance singleton_coder_coder : Coder (singleton_coder.singleton_coder B) B := {|
  coder_rep := singleton_rows;
  coder_fits _ x := x < 2;
  coder_op op := (op ==o equal) || (op ==o not_equal);
  coder_same _ _ := True;
  coder_max := singleton_max
|}.
Proof.
  - abstract done.
  - abstract (intros c rs [Hrep ?]; cbn; unfold singleton_coder.size;
      rewrite bm_size_spec by apply Hrep;
      rewrite (singleton_len _ _ Hrep); apply lenN_bool_rows).
  - abstract (intros c rs x n [Hrep Hv] Hx Hn; split; [|done]; split;
      [rewrite bool_rows_app, bool_rows_reps; apply singleton_encode_spec;
        [done|by rewrite lenN_bool_rows]|intros v [?|[= ->]]%elem_of_app_reps; auto]).
  - abstract (intros c rs n [Hrep Hv] Hn; split; [|done]; split;
      [rewrite bool_rows_app, bool_rows_reps; apply singleton_skip_spec;
        [done|by rewrite lenN_bool_rows]|intros v [?|?]%elem_of_app_reps; [by apply Hv|done]]).
  - abstract (intros c c' rs rs' [Hrep Hv] [Hrep' Hv'] _ Hn; split; [|done]; split;
      [rewrite bool_rows_app; apply singleton_append_spec; [done..|by rewrite !lenN_bool_rows]
      |intros v [?|?]%elem_of_app; auto]).
  - abstract (intros; cbn; split; [done|]; split; [done|]; by apply singleton_decode_good).
Defined.

(** [bitslice_coder], a class of its own over the bitmaps of a [vector_coder]. *)
Record bitslice := bitslice_mk { bitslice_vector : vector_coder.vector_coder B }.

#[export] Instance bitslice_coder_ops : CoderOps bitslice B := {
  coder_encode c x n := bitslice_mk (bitslice_coder.encode (bitslice_vector c) x n);
  coder_skip c n := bitslice_mk (vector_coder.skip (bitslice_vector c) n);
  coder_append c c' := bitslice_mk (bitslice_coder.append (bitslice_vector c) (bitslice_vector c'));
  coder_decode c op x := (c, bitslice_coder.decode (bitslice_vector c) op x);
  coder_size c := vector_coder.size (bitslice_vector c)
}.

(** The number of bits of a value. *)
Definition bitslice_width (c : bitslice) : N := vector_coder.bitmap_count (bitslice_vector c).

Lemma bitslice_rep_width w c rs : bitslice_rep w (bitslice_vector c) rs → bitslice_width c = w.
Proof. by intros (_ & ? & _). Qed.

#[refine, export] Instance bitslice_coder_coder : Coder bitslice B := {|
  coder_rep c rs := bitslice_rep (bitslice_width c) (bitslice_vector c) rs;
  coder_fits c x := x < 2 ^ bitslice_width c;
  coder_op := is_comparison;
  coder_same c c' := bitslice_width c' = bitslice_width c
|}.
Proof.
  - abstract (by intros c c' ->).
  - abstract (intros c rs Hrep; by apply bitslice_size in Hrep as [_ ?]).
  - abstract (intros c rs Hrep; by apply bitslice_size in Hrep as [? _]).
  - abstract (intros c rs x n Hrep Hx Hn; cbn;
      pose proof (bitslice_encode_spec _ _ _ x n Hrep Hx Hn) as Hrep';
      pose proof (bitslice_rep_width _ (bitslice_mk _) _ Hrep') as E; by rewrite E).
  - abstract (intros c rs n Hrep Hn; cbn;
      pose proof (bitslice_skip_spec _ _ _ n Hrep Hn) as Hrep';
      pose proof (bitslice_rep_width _ (bitslice_mk _) _ Hrep') as E; by rewrite E).
  - abstract (intros c c' rs rs' Hrep Hrep' E Hn; cbn in *; rewrite E in Hrep';
      pose proof (bitslice_append_spec _ _ _ _ _ Hrep Hrep' Hn) as Hrep2;
      pose proof (bitslice_rep_width _ (bitslice_mk _) _ Hrep2) as E2; by rewrite E2).
  - abstract (intros; cbn; split; [done|]; split; [done|]; by eapply bitslice_decode_spec).
Defined.
End instances.

(** [equality_coder]; the queue that [nary_or] uses is a parameter. *)
Record equality {B} (top : list B → option (B * list B)) :=
  equality_mk { equality_vector : vector_coder.vector_coder B }.
Arguments equality_mk {B top}.
Arguments equality_vector {B top}.

(** What the queue does. *)
Class Queue {B} (top : list B → option (B * list B)) : Prop := queue_law : queue_top top.

Section equality_instance.
Context {B : Type} `{Bitmap B} (top : list B → option (B * list B)) `{!Queue top}.

#[export] Instance equality_coder_ops : CoderOps (equality top) B := {
  coder_encode c x n := equality_mk (equality_coder.encode (equality_vector c) x n);
  coder_skip c n := equality_mk (vector_coder.skip (equality_vector c) n);
  coder_append c c' := equality_mk (equality_coder.append (equality_vector c) (equality_vector c'));
  coder_decode c op x :=
    let '(v, r) := equality_coder.decode top (equality_vector c) op x in (equality_mk v, r);
  coder_size c := vector_coder.size (equality_vector c)
}.

Definition equality_count (c : equality top) : N := vector_coder.bitmap_count (equality_vector c).

Lemma equality_encode_count c (x n : N) :
  equality_count (coder_encode c x n) = equality_count c.
Proof. unfold equality_count, vector_coder.bitmap_count, lenN. cbn. by rewrite length_alter. Qed.

Lemma equality_append_count (c c' : equality top) :
  equality_count c' = equality_count c → equality_count (coder_append c c') = equality_count c.
Proof.
  unfold equality_count, vector_coder.bitmap_count, lenN. cbn. rewrite length_zip_with. lia.
Qed.

#[refine, export] Instance equality_coder_coder : Coder (equality top) B := {|
  coder_rep c rs := equality_rep (equality_vector c) rs;
  coder_fits c x := x < equality_count c;
  coder_op := is_comparison;
  coder_same c c' := equality_count c' = equality_count c
|}.
Proof.
  - abstract (by intros c c' ->).
  - abstract (by intros c rs [(_ & ? & _) _]).
  - abstract (by intros c rs [(? & _) _]).
  - abstract (intros; split; [by apply equality_encode_spec|by apply equality_encode_count]).
  - abstract (intros; split; [by apply equality_skip_spec|done]).
  - abstract (intros; split; [by apply equality_append_spec|by apply equality_append_count]).
  - abstract (intros c rs op x Hrep Hx Hop;
      pose proof (equality_decode_spec top queue_law _ _ op x Hrep Hx Hop) as Hd; cbn;
      destruct (equality_coder.decode _ _ op x); by destruct Hd as (? & ? & ? & ?)).
Defined.
End equality_instance.

Module bitmap_index.

(** The template parameters [T] and [Binner]: the binner with the steps [--] and
    [++] of [T] and the order the values are encoded by. *)
Record policy (T : Type) := {
  bin : T → T;
  (** [std::is_same_v<binner_type, identity_binner>] *)
  is_identity : bool;
  decr : T → T;
  incr : T → T;
  transform : T → N
}.
Arguments bin {T}.
Arguments is_identity {T}.
Arguments decr {T}.
Arguments incr {T}.
Arguments transform {T}.

Record bitmap_index (C : Type) := mk { coder_ : C }.
Arguments mk {C}.
Arguments coder_ {C}.

Section operations.
Context {T C B : Type} `{CoderOps C B} (p : policy T).
Implicit Types bmi : bitmap_index C.

(** [append(x, n)]; [append(x)] appends one. *)
Definition append_n bmi (x : T) (n : N) : bitmap_index C :=
  mk (coder_encode (coder_ bmi) (transform p (bin p x)) n).
Definition append bmi (x : T) : bitmap_index C := append_n bmi x 1.
Definition append_other bmi (other : bitmap_index C) : bitmap_index C :=
  mk (coder_append (coder_ bmi) (coder_ other)).
Definition skip bmi (n : N) : bitmap_index C := mk (coder_skip (coder_ bmi) n).

(** The value [lookup] decodes. *)
Definition adjusted (op : relational_operator) (x : T) : T :=
  let binned := bin p x in
  if is_identity p then binned
  else
    let binned := if op ==o greater then decr p binned else binned in
    if op ==o less then incr p binned else binned.

Definition lookup bmi (op : relational_operator) (x : T) : bitmap_index C * B :=
  let '(c, r) := coder_decode (coder_ bmi) op (transform p (adjusted op x)) in (mk c, r).

Definition size bmi : N := coder_size (coder_ bmi).
Definition empty bmi : bool := size bmi =? 0.
End operations.

(** The policies the value indexes use. *)
Definition unsigned_policy : policy N := {|
  bin := identity_binner.bin; is_identity := true;
  decr x := x -u 1; incr x := x +u 1; transform := order.order_unsigned |}.
Definition bool_policy : policy bool := {|
  bin := identity_binner.bin; is_identity := true;
  decr x := x; incr x := x; transform x := order.order_unsigned (N.b2n x) |}.
Definition i64_policy : policy Z := {|
  bin := identity_binner.bin; is_identity := true;
  decr x := (x - 1)%Z; incr x := (x + 1)%Z; transform := order.order_i64 |}.
(** [decimal_binner<9>] on the nanoseconds of a time or a duration. *)
Definition nanoseconds_policy : policy Z := {|
  bin := decimal_binner.bin_i64 9; is_identity := false;
  decr x := (x - 1)%Z; incr x := (x + 1)%Z; transform := order.order_i64 |}.
End bitmap_index.

(** ** The rows of an index *)

Definition code {T} (p : bitmap_index.policy T) (x : T) : N :=
  bitmap_index.transform p (bitmap_index.bin p x).
Definition coded {T} (p : bitmap_index.policy T) (rs : list (option T)) : rows :=
  option_map (code p) <$> rs.

Section index.
Import bitmap_index.
Context {T C B : Type} `{Coder C B} (p : policy T).
Implicit Types (bmi : bitmap_index C) (rs : list (option T)) (x : T).

Definition bmi_rep bmi rs : Prop := coder_rep (coder_ bmi) (coded p rs).
Definition bmi_fits bmi x : Prop := coder_fits (coder_ bmi) (code p x).
Definition bmi_same bmi bmi' : Prop := coder_same (coder_ bmi) (coder_ bmi').

Lemma coded_app rs rs' : coded p (rs ++ rs') = coded p rs ++ coded p rs'.
Proof. apply fmap_app. Qed.
Lemma coded_reps n o : coded p (reps n o) = reps n (option_map (code p) o).
Proof. apply fmap_reps. Qed.
Lemma lenN_coded rs : lenN (coded p rs) = lenN rs.
Proof. apply lenN_fmap. Qed.

Lemma bmi_append_spec bmi rs x n :
  bmi_rep bmi rs → bmi_fits bmi x → lenN rs + n <= max_size →
  bmi_rep (append_n p bmi x n) (rs ++ reps n (Some x)) ∧ bmi_same bmi (append_n p bmi x n).
Proof.
  intros Hrep Hx Hn. unfold bmi_rep, bmi_same. rewrite coded_app, coded_reps.
  apply coder_encode_spec; [done..|]. by rewrite lenN_coded.
Qed.

Lemma bmi_skip_spec bmi rs n :
  bmi_rep bmi rs → lenN rs + n <= max_size →
  bmi_rep (skip bmi n) (rs ++ reps n None) ∧ bmi_same bmi (skip bmi n).
Proof.
  intros Hrep Hn. unfold bmi_rep, bmi_same. rewrite coded_app, coded_reps.
  apply coder_skip_spec; [done|]. by rewrite lenN_coded.
Qed.

Lemma bmi_append_other_spec bmi other rs rs' :
  bmi_rep bmi rs → bmi_rep other rs' → bmi_same bmi other → lenN rs + lenN rs' <= max_size →
  bmi_rep (append_other bmi other) (rs ++ rs') ∧ bmi_same bmi (append_other bmi other).
Proof.
  intros Hrep Hrep' Hs Hn. unfold bmi_rep, bmi_same. rewrite coded_app.
  apply coder_append_spec; [done..|]. by rewrite !lenN_coded.
Qed.

Lemma bmi_size_spec bmi rs : bmi_rep bmi rs → size bmi = lenN rs ∧ lenN rs <= max_size.
Proof.
  intros Hrep. unfold size. rewrite (coder_size_spec _ _ Hrep), lenN_coded. split; [done|].
  rewrite <- lenN_coded. by eapply coder_max.
Qed.

(** A lookup compares the codes of the rows with the code of the adjusted value. *)
Lemma bmi_lookup_spec bmi rs op x :
  bmi_rep bmi rs → coder_fits (coder_ bmi) (transform p (adjusted p op x)) → coder_op op = true →
  let '(bmi', r) := lookup p bmi op x in
  bmi_rep bmi' rs ∧ bmi_same bmi bmi' ∧ bm_wf r ∧ (length (bm_list r) <= length rs)%nat ∧
  ∀ j v, rs !! j = Some (Some v) →
    bm_list r !! j = Some (cmp op (code p v) (transform p (adjusted p op x))).
Proof.
  intros Hrep Hx Hop. unfold lookup.
  pose proof (coder_decode_spec _ _ op _ Hrep Hx Hop) as Hd.
  destruct (coder_decode _ op _) as [c r]. destruct Hd as (? & ? & ? & Hlen & Hb).
  split; [done|]. split; [done|]. split; [done|]. unfold coded in Hlen.
  rewrite length_fmap in Hlen. split; [done|].
  intros j v Hj. apply Hb. unfold coded. by rewrite list_lookup_fmap, Hj.
Qed.
End index.

(** ** What the codes say of the values *)

(** A comparison of signed integers. *)
Definition zcmp (op : relational_operator) (x y : Z) : bool :=
  default false (compare Z.eqb Z.ltb op x y).

Lemma cmp_order_i64 op x y :
  is_i64 x → is_i64 y → cmp op (order.order_i64 x) (order.order_i64 y) = zcmp op x y.
Proof.
  intros Hx Hy. rewrite !order_i64_spec by done. unfold is_i64 in *.
  assert ((Z.to_N (x + 2 ^ 63) =? Z.to_N (y + 2 ^ 63)) = (x =? y)%Z) as He.
  { apply Bool.eq_iff_eq_true. rewrite N.eqb_eq, Z.eqb_eq. lia. }
  assert (∀ x y, (-2 ^ 63 <= x < 2 ^ 63)%Z → (-2 ^ 63 <= y < 2 ^ 63)%Z →
    (Z.to_N (x + 2 ^ 63) <? Z.to_N (y + 2 ^ 63)) = (x <? y)%Z) as Hl.
  { intros. apply Bool.eq_iff_eq_true. rewrite N.ltb_lt, Z.ltb_lt. lia. }
  unfold cmp, zcmp, compare. destruct op; cbn [default]; rewrite ?He, ?Hl by done; done.
Qed.

(** A nanosecond index finds every row for which a comparison other than [!=]
    holds, when the values are not negative. *)
Lemma nanoseconds_complete op v x :
  (0 <= v < 2 ^ 63)%Z → (0 <= x < 2 ^ 63)%Z → op ≠ not_equal → zcmp op v x = true →
  cmp op (code bitmap_index.nanoseconds_policy v)
    (bitmap_index.transform bitmap_index.nanoseconds_policy
       (bitmap_index.adjusted bitmap_index.nanoseconds_policy op x)) = true.
Proof.
  intros Hv Hx Hop Hc. unfold code, bitmap_index.adjusted.
  cbn [bitmap_index.transform bitmap_index.bin bitmap_index.nanoseconds_policy
       bitmap_index.is_identity bitmap_index.decr bitmap_index.incr].
  assert (∀ y, (0 <= y < 2 ^ 63)%Z → (0 <= decimal_binner.bin_i64 9 y < 2 ^ 62)%Z) as Hr.
  { intros y Hy. rewrite bin_i64_nonneg by done. change (10 ^ Z.of_N 9)%Z with 1000000000%Z.
    split; [apply Z.div_pos; lia|apply Z.div_lt_upper_bound; lia]. }
  pose proof (Hr v Hv). pose proof (Hr x Hx). pose proof (bin_i64_le 9 v x Hv Hx).
  pose proof (bin_i64_le 9 x v Hx Hv).
  rewrite cmp_order_i64 by (unfold is_i64; destruct op; cbn; lia).
  destruct op; cbn in *; try done; lia.
Qed.
