(* ===== verification/LruCache.v ===== *)
(** The cache of partitions that are loaded: [libvast/include/vast/detail/lru_cache.hpp].

    A cache is a list of entries, the most recently used one first, and a map from keys to
    iterators of the list. Nodes of the list have addresses, so that an iterator is the address
    of its node and stays valid while the node moves within the list. *)

From stdpp Require Import gmap.
From S2P Require Import Prelude.

Module lru_cache.
Section lru_cache.
Context {Key Value : Type} `{Countable Key}.

Record node := mk_node { addr : N; first : Key; second : Value }.

Record lru_cache := mk {
  cache_items_list_ : list node;
  cache_items_map_ : gmap Key N;
  max_size_ : N;
  (** The address of the next node that is allocated. *)
  next : N
}.

(** What a move leaves of a key, and the factory. *)
Context (moved : Key → Key) (factory_ : Key → Value).
Implicit Types (c : lru_cache) (l : list node) (key : Key).

Definition make (max_size : N) : lru_cache := mk [] ∅ max_size 0.
Definition clear c : lru_cache := mk [] ∅ (max_size_ c) (next c).

(** [std::list::erase], and the node an iterator points to; [None] if the iterator dangles. *)
Definition erase (it : N) l : list node := filter (λ n, addr n ≠ it) l.
Definition deref (it : N) l : option node := find (λ n, addr n =? it) l.

(** The loop of [resize] over the nodes from [new_end]. *)
Fixpoint resize_loop (new_end : list node) (st : list node * gmap Key N) : list node * gmap Key N :=
  match new_end with
  | [] => st
  | n :: new_end => resize_loop new_end (erase (addr n) st.1, delete (first n) st.2)
  end.
Definition resize c (max_size : N) : lru_cache :=
  let st :=
    if max_size <? lenN (cache_items_list_ c)
    then resize_loop (drop (N.to_nat max_size) (cache_items_list_ c)) (cache_items_list_ c, cache_items_map_ c)
    else (cache_items_list_ c, cache_items_map_ c) in
  mk st.1 st.2 max_size (next c).

(** The value a returned reference refers to. *)
Definition read c (it : N) : option Value := second <$> deref it (cache_items_list_ c).

(** The reference that [put] returns is the address of a node. *)
Definition put c key (value : Value) : lru_cache * N :=
  let it := cache_items_map_ c !! key in
  let l := mk_node (next c) key value :: cache_items_list_ c in
  let '(l, m) :=
    match it with
    | Some i => (erase i l, delete key (cache_items_map_ c))
    | None => (l, cache_items_map_ c)
    end in
  let m := <[moved key := next c]> m in
  let '(l, m) :=
    if max_size_ c <? N.of_nat (size m)
    then (removelast l, match list.last l with Some n => delete (first n) m | None => m end)
    else (l, m) in
  (mk l m (max_size_ c) (next c + 1), next c).

Definition get_or_load c key : lru_cache * N :=
  match cache_items_map_ c !! key with
  | Some i =>
      (mk (match deref i (cache_items_list_ c) with
           | Some n => n :: erase i (cache_items_list_ c)
           | None => cache_items_list_ c
           end) (cache_items_map_ c) (max_size_ c) (next c), i)
  | None => put c key (factory_ key)
  end.

Definition drop c key : lru_cache :=
  match cache_items_map_ c !! key with
  | Some i => mk (erase i (cache_items_list_ c)) (delete key (cache_items_map_ c)) (max_size_ c) (next c)
  | None => c
  end.

Definition eject c key : lru_cache * option Value :=
  match cache_items_map_ c !! key with
  | Some i =>
      (mk (erase i (cache_items_list_ c)) (delete key (cache_items_map_ c)) (max_size_ c) (next c),
       second <$> deref i (cache_items_list_ c))
  | None => (c, Some (factory_ key))
  end.

Definition contains c key : bool := bool_decide (is_Some (cache_items_map_ c !! key)).
Definition size c : N := N.of_nat (base.size (cache_items_map_ c)).

(** ** The contents of a cache *)

Definition entry (n : node) : Key * Value := (first n, second n).
Definition entries c : list (Key * Value) := entry <$> cache_items_list_ c.
Definition without key (r : list (Key * Value)) : list (Key * Value) := filter (λ p, p.1 ≠ key) r.

(** List and map agree. *)
Record linked l (m : gmap Key N) (fresh : N) : Prop := {
  linked_addr : NoDup (addr <$> l);
  linked_fresh : Forall (λ n, addr n < fresh) l;
  linked_keys : NoDup (first <$> l);
  linked_map key i : m !! key = Some i ↔ ∃ n, n ∈ l ∧ first n = key ∧ addr n = i
}.
Definition wf c : Prop :=
  linked (cache_items_list_ c) (cache_items_map_ c) (next c) ∧ lenN (cache_items_list_ c) <= max_size_ c.

(** *** Nodes *)

Lemma deref_elem l n : NoDup (addr <$> l) → n ∈ l → deref (addr n) l = Some n.
Proof.
  unfold deref. induction l as [|x l IH]; intros Hnd Hn; [by apply elem_of_nil in Hn|]. cbn in Hnd |- *.
  apply list.NoDup_cons in Hnd as [Hx Hnd]. apply elem_of_cons in Hn as [->|Hn]; [by rewrite N.eqb_refl|].
  destruct (N.eqb_spec (addr x) (addr n)) as [E|]; [|by apply IH]. destruct Hx. rewrite E. by apply list_elem_of_fmap_2.
Qed.

Lemma deref_None l i : Forall (λ n, addr n ≠ i) l → deref i l = None.
Proof. unfold deref. induction 1 as [|n l Hn _ IH]; cbn; [done|]. by apply N.eqb_neq in Hn as ->. Qed.

Lemma erase_fresh l i : Forall (λ n, addr n ≠ i) l → erase i l = l.
Proof. intros Hl. unfold erase. by apply filter_all. Qed.

(** *** List and map *)

Lemma linked_lookup l m fresh n : linked l m fresh → n ∈ l → m !! first n = Some (addr n).
Proof. intros Hl Hn. apply (linked_map _ _ _ Hl). eauto. Qed.

Lemma linked_None l m fresh key : linked l m fresh → m !! key = None → Forall (λ n, first n ≠ key) l.
Proof.
  intros Hl Hk. apply list.Forall_forall. intros n Hn <-. by rewrite (linked_lookup _ _ _ _ Hl Hn) in Hk.
Qed.

Lemma linked_size l m fresh : linked l m fresh → N.of_nat (base.size m) = lenN l.
Proof.
  intros Hl. unfold lenN. f_equal. rewrite <- size_dom.
  assert (dom m = list_to_set (first <$> l)) as ->.
  { apply set_eq. intros k. rewrite elem_of_dom, elem_of_list_to_set, list_elem_of_fmap. split.
    - intros [i (n & Hn & <- & _)%(linked_map _ _ _ Hl)]. eauto.
    - intros (n & -> & Hn). exists (addr n). by eapply linked_lookup. }
  rewrite size_list_to_set by apply Hl. by rewrite length_fmap.
Qed.

Lemma linked_push l m fresh key v : linked l m fresh → m !! key = None →
  linked (mk_node fresh key v :: l) (<[key := fresh]> m) (fresh + 1).
Proof.
  intros Hl Hk. pose proof (linked_None _ _ _ _ Hl Hk) as Hn. pose proof (linked_fresh _ _ _ Hl) as Hf.
  rewrite list.Forall_forall in Hn, Hf. split; cbn.
  - apply list.NoDup_cons. split; [|apply Hl]. intros (n & E & Hin)%list_elem_of_fmap. specialize (Hf n Hin). lia.
  - apply list.Forall_cons. split; [cbn; lia|]. apply list.Forall_forall. intros n Hin. specialize (Hf n Hin). lia.
  - apply list.NoDup_cons. split; [|apply Hl]. intros (n & E & Hin)%list_elem_of_fmap. by apply (Hn n Hin).
  - intros k i. destruct (decide (k = key)) as [->|Hne].
    + rewrite lookup_insert_eq. split.
      * intros [= <-]. eexists. split; [left|done].
      * intros (n & [->|Hin]%elem_of_cons & Hk' & <-); [done|]. by destruct (Hn n Hin).
    + rewrite lookup_insert_ne by done. rewrite (linked_map _ _ _ Hl). split.
      * intros (n & Hin & ?). exists n. split; [by right|done].
      * intros (n & [->|Hin]%elem_of_cons & Hk' & Ha); [done|]. eauto.
Qed.

Lemma linked_erase l m fresh n : linked l m fresh → n ∈ l →
  linked (erase (addr n) l) (delete (first n) m) fresh ∧ entry <$> erase (addr n) l = without (first n) (entry <$> l).
Proof.
  intros Hl Hn.
  assert (∀ n', n' ∈ l → addr n' = addr n ↔ first n' = first n) as Heq.
  { intros n' Hn'. split; intros E; f_equal; (eapply NoDup_fmap_elem; [|exact Hn'|exact Hn|exact E]); apply Hl. }
  split; [split|].
  - eapply sublist_NoDup; [apply Hl|]. apply fmap_sublist, sublist_filter.
  - apply Forall_filter, Hl.
  - eapply sublist_NoDup; [apply Hl|]. apply fmap_sublist, sublist_filter.
  - intros k i. unfold erase. setoid_rewrite list_elem_of_filter. rewrite lookup_delete_Some, (linked_map _ _ _ Hl). split.
    + intros (Hk & n' & Hin & <- & <-). exists n'. split_and!; try done. rewrite Heq by done. congruence.
    + intros (n' & (Hne & Hin) & <- & <-). split; [|eauto]. rewrite Heq in Hne by done. congruence.
  - unfold erase, without. rewrite filter_fmap. f_equal. apply filter_ext_elem. intros n' Hn'. cbn. by rewrite Heq.
Qed.

Lemma linked_delete l m fresh key i : linked l m fresh → m !! key = Some i →
  linked (erase i l) (delete key m) fresh ∧ entry <$> erase i l = without key (entry <$> l).
Proof. intros Hl (n & Hn & <- & <-)%(linked_map _ _ _ Hl). by eapply linked_erase. Qed.

#[global] Instance linked_proper : Proper ((≡ₚ) ==> eq ==> eq ==> iff) linked.
Proof.
  assert (∀ l l' m fresh, l ≡ₚ l' → linked l m fresh → linked l' m fresh) as Hp.
  { intros l l' m fresh Hl [Ha Hf Hk Hm]. split; [by rewrite <- Hl..|]. intros key i. rewrite Hm. by setoid_rewrite Hl. }
  intros l l' Hl m ? <- fresh ? <-. split; by apply Hp.
Qed.

Lemma erase_perm l n : NoDup (addr <$> l) → n ∈ l → n :: erase (addr n) l ≡ₚ l.
Proof.
  unfold erase. induction l as [|x l IH]; intros Hnd Hn; [by apply elem_of_nil in Hn|]. cbn in Hnd.
  apply list.NoDup_cons in Hnd as [Hx Hnd]. apply elem_of_cons in Hn as [->|Hn].
  - rewrite filter_cons_False by auto. rewrite filter_all; [done|]. apply list.Forall_forall. intros y Hy E. destruct Hx. rewrite <- E.
    by apply list_elem_of_fmap_2.
  - rewrite filter_cons_True; [|intros E; destruct Hx; rewrite E; by apply list_elem_of_fmap_2].
    rewrite <- (IH Hnd Hn) at 2. apply Permutation_swap.
Qed.

(** A node that moves to the front. *)
Lemma linked_splice l m fresh key i : linked l m fresh → m !! key = Some i → ∃ n, deref i l = Some n ∧ n ∈ l ∧ first n = key ∧ addr n = i ∧
  linked (n :: erase i l) m fresh ∧ entry <$> (n :: erase i l) = entry n :: without key (entry <$> l).
Proof.
  intros Hl (n & Hn & <- & <-)%(linked_map _ _ _ Hl). exists n. pose proof (linked_addr _ _ _ Hl) as Ha. split_and!; try done.
  - by apply deref_elem.
  - by rewrite erase_perm.
  - cbn. f_equal. by apply (linked_erase _ _ _ _ Hl Hn).
Qed.

(** The last node is dropped when the cache is full. *)
Lemma linked_evict l m fresh (max : N) : linked l m fresh → lenN l <= max + 1 →
  let '(l', m') := if max <? N.of_nat (base.size m)
    then (removelast l, match list.last l with Some n => delete (first n) m | None => m end) else (l, m) in
  linked l' m' fresh ∧ l' = take (N.to_nat max) l.
Proof.
  intros Hl Hlen. rewrite (linked_size _ _ _ Hl). destruct (N.ltb_spec max (lenN l)) as [Hlt|Hge].
  - destruct l as [|n l _] using rev_ind; [by apply N.nlt_0_r in Hlt|]. rewrite removelast_last, last_snoc.
    assert (erase (addr n) (l ++ [n]) = l) as He.
    { pose proof (linked_addr _ _ _ Hl) as Ha. rewrite fmap_app in Ha. apply list.NoDup_app in Ha as (_ & Ha & _).
      unfold erase. rewrite list.filter_app, filter_cons_False, filter_nil, app_nil_r by auto. apply filter_all.
      apply list.Forall_forall. intros x Hx E. apply (Ha (addr x)); [by apply list_elem_of_fmap_2|]. rewrite E. by left. }
    autorewrite with lendb in *. rewrite take_app_le, take_ge by (unfold lenN in *; lia). split; [|done].
    rewrite <- He at 1. apply (linked_erase _ _ _ n Hl). set_solver.
  - split; [done|]. by rewrite take_ge by (unfold lenN in *; lia).
Qed.

(** *** Operations *)

Lemma lenN_without key r : lenN (without key r) <= lenN r.
Proof. unfold lenN, without. pose proof (length_filter (λ p : Key * Value, p.1 ≠ key) r). lia. Qed.

Lemma without_absent l m fresh key : linked l m fresh → m !! key = None → without key (entry <$> l) = entry <$> l.
Proof. intros Hl Hk. apply filter_all, list.Forall_fmap. exact (linked_None _ _ _ _ Hl Hk). Qed.

Lemma put_spec c key v : wf c → moved key = key →
  wf (put c key v).1 ∧ entries (put c key v).1 = take (N.to_nat (max_size_ c)) ((key, v) :: without key (entries c)) ∧
  max_size_ (put c key v).1 = max_size_ c ∧
  read (put c key v).1 (put c key v).2 = if max_size_ c =? 0 then None else Some v.
Proof.
  intros [Hl Hs] Hmoved. unfold put. rewrite Hmoved.
  set (n := mk_node (next c) key v).
  assert (∃ l m, (match cache_items_map_ c !! key with
      | Some i => (erase i (n :: cache_items_list_ c), delete key (cache_items_map_ c))
      | None => (n :: cache_items_list_ c, cache_items_map_ c) end) = (n :: l, m) ∧
    linked l m (next c) ∧ m !! key = None ∧ entry <$> l = without key (entries c)) as (l & m & -> & Hlm & Hk & Hr).
  { destruct (cache_items_map_ c !! key) as [i|] eqn:Hi.
    - destruct (linked_delete _ _ _ _ _ Hl Hi) as [Hd He]. exists (erase i (cache_items_list_ c)), (delete key (cache_items_map_ c)).
      split_and!; [|done|by rewrite lookup_delete_eq|done]. unfold erase. rewrite filter_cons_True; [done|].
      apply (linked_map _ _ _ Hl) in Hi as (n' & Hn' & _ & <-). pose proof (linked_fresh _ _ _ Hl) as Hf.
      rewrite list.Forall_forall in Hf. specialize (Hf n' Hn'). cbn. lia.
    - exists (cache_items_list_ c), (cache_items_map_ c). split_and!; try done. symmetry. by eapply without_absent. }
  assert (lenN (n :: l) <= max_size_ c + 1) as Hlen.
  { pose proof (lenN_without key (entries c)) as Hw. rewrite <- Hr in Hw. unfold lenN, entries in *. cbn. rewrite !length_fmap in Hw. lia. }
  pose proof (linked_evict _ _ _ (max_size_ c) (linked_push l m (next c) key v Hlm Hk) Hlen) as He. fold n in He.
  destruct (if max_size_ c <? _ then _ else _) as [l' m']. destruct He as [He ->]. cbn [fst snd]. split_and!; [split|..]; cbn.
  - done.
  - unfold lenN. rewrite length_take. lia.
  - unfold entries. cbn. rewrite fmap_take. cbn. by rewrite Hr.
  - done.
  - unfold read, deref. cbn. destruct (N.eqb_spec (max_size_ c) 0) as [->|Hmax]; [done|].
    destruct (N.to_nat (max_size_ c)) as [|k] eqn:E; [lia|]. cbn. by rewrite N.eqb_refl.
Qed.

(** The value of a key in a list of entries. *)
Fixpoint assoc key (r : list (Key * Value)) : option Value :=
  match r with
  | [] => None
  | (k, v) :: r => if decide (k = key) then Some v else assoc key r
  end.

Lemma assoc_elem r key v : NoDup r.*1 → (key, v) ∈ r → assoc key r = Some v.
Proof.
  induction r as [|[k w] r IH]; intros Hnd Hin; [by apply elem_of_nil in Hin|]. cbn in Hnd |- *. apply list.NoDup_cons in Hnd as [Hk Hnd].
  apply elem_of_cons in Hin as [[= <- <-]|Hin]; [by rewrite decide_True|]. rewrite decide_False; [by apply IH|].
  intros ->. apply Hk. exact (list_elem_of_fmap_2 fst _ _ Hin).
Qed.
Lemma assoc_None r key : Forall (λ p, p.1 ≠ key) r → assoc key r = None.
Proof. induction 1 as [|[k w] r Hk _ IH]; cbn; [done|]. by rewrite decide_False. Qed.

Lemma entries_keys c : wf c → NoDup (entries c).*1.
Proof. intros [Hl _]. unfold entries. rewrite <- list_fmap_compose. apply Hl. Qed.

Lemma lookup_assoc c key : wf c →
  match cache_items_map_ c !! key with
  | Some i => ∃ n, deref i (cache_items_list_ c) = Some n ∧ n ∈ cache_items_list_ c ∧ first n = key ∧ assoc key (entries c) = Some (second n)
  | None => assoc key (entries c) = None
  end.
Proof.
  intros Hw. pose proof (entries_keys c Hw) as Hnd. destruct Hw as [Hl Hs]. destruct (cache_items_map_ c !! key) as [i|] eqn:Hi.
  - destruct (linked_splice _ _ _ _ _ Hl Hi) as (n & Hd & Hn & <- & _ & _). exists n. split_and!; try done.
    apply assoc_elem; [done|]. by apply (list_elem_of_fmap_2 entry).
  - apply assoc_None, list.Forall_fmap. exact (linked_None _ _ _ _ Hl Hi).
Qed.

Lemma contains_spec c key : wf c → contains c key = bool_decide (is_Some (assoc key (entries c))).
Proof.
  intros Hw. pose proof (lookup_assoc c key Hw) as Ha. apply bool_decide_ext. destruct (cache_items_map_ c !! key) as [i|].
  - destruct Ha as (n & _ & _ & _ & ->). by split; eauto.
  - by rewrite Ha.
Qed.

Lemma size_spec c : wf c → size c = lenN (entries c).
Proof. intros [Hl _]. unfold size. rewrite (linked_size _ _ _ Hl). unfold lenN, entries. by rewrite length_fmap. Qed.

Lemma size_bound c : wf c → size c <= max_size_ c.
Proof. intros [Hl Hs]. unfold size. by rewrite (linked_size _ _ _ Hl). Qed.

Lemma contains_keys c key : wf c → contains c key = bool_decide (key ∈ (entries c).*1).
Proof.
  intros [Hl _]. apply bool_decide_ext. unfold entries. rewrite <- list_fmap_compose, list_elem_of_fmap. split.
  - intros [i (n & Hn & <- & _)%(linked_map _ _ _ Hl)]. by exists n.
  - intros (n & -> & Hn). exists (addr n). by eapply linked_lookup.
Qed.

Lemma remove_spec c key i : wf c → cache_items_map_ c !! key = Some i →
  let c' := mk (erase i (cache_items_list_ c)) (delete key (cache_items_map_ c)) (max_size_ c) (next c) in
  wf c' ∧ entries c' = without key (entries c).
Proof.
  intros [Hl Hs] Hi. destruct (linked_delete _ _ _ _ _ Hl Hi) as [Hd He]. split; [split|]; cbn; [done| |done].
  unfold lenN, erase in *. pose proof (length_filter (λ n, addr n ≠ i) (cache_items_list_ c)). lia.
Qed.

Lemma drop_spec c key : wf c → wf (drop c key) ∧ entries (drop c key) = without key (entries c) ∧ max_size_ (drop c key) = max_size_ c.
Proof.
  intros Hw. unfold drop. destruct (cache_items_map_ c !! key) as [i|] eqn:Hi.
  - destruct (remove_spec c key i Hw Hi) as [? ?]. done.
  - split_and!; try done. destruct Hw. symmetry. by eapply without_absent.
Qed.

Lemma eject_spec c key : wf c →
  wf (eject c key).1 ∧ entries (eject c key).1 = without key (entries c) ∧ max_size_ (eject c key).1 = max_size_ c ∧
  (eject c key).2 = Some (default (factory_ key) (assoc key (entries c))).
Proof.
  intros Hw. unfold eject. pose proof (lookup_assoc c key Hw) as Ha. destruct (cache_items_map_ c !! key) as [i|] eqn:Hi.
  - destruct (remove_spec c key i Hw Hi) as [? ?]. destruct Ha as (n & Hd & _ & _ & ->). split_and!; try done. cbn. by rewrite Hd.
  - split_and!; try done; [|by rewrite Ha]. destruct Hw. symmetry. by eapply without_absent.
Qed.

Lemma get_or_load_spec c key : wf c → moved key = key →
  let v := default (factory_ key) (assoc key (entries c)) in
  wf (get_or_load c key).1 ∧
  entries (get_or_load c key).1 = take (N.to_nat (max_size_ c)) ((key, v) :: without key (entries c)) ∧
  max_size_ (get_or_load c key).1 = max_size_ c ∧
  read (get_or_load c key).1 (get_or_load c key).2 = if max_size_ c =? 0 then None else Some v.
Proof.
  intros Hw Hm. unfold get_or_load. pose proof (lookup_assoc c key Hw) as Ha.
  destruct (cache_items_map_ c !! key) as [i|] eqn:Hi; [|rewrite Ha; by apply put_spec].
  destruct Hw as [Hl Hs]. destruct (linked_splice _ _ _ _ _ Hl Hi) as (n & Hd & Hn & Hk & <- & Hl' & He).
  destruct Ha as (n' & Hd' & _ & _ & ->). rewrite Hd in Hd'. injection Hd' as <-. rewrite Hd.
  assert (lenN (n :: erase (addr n) (cache_items_list_ c)) = lenN (cache_items_list_ c)) as Hlen.
  { unfold lenN. f_equal. apply Permutation_length, erase_perm; [apply Hl|done]. }
  cbn [fst snd max_size_ default]. split_and!; [split|..]; cbn [cache_items_list_ cache_items_map_ max_size_ next].
  - done.
  - lia.
  - unfold entries at 1. cbn [cache_items_list_]. rewrite take_ge; [rewrite He; unfold entry; by rewrite Hk|].
    apply (f_equal length) in He. rewrite length_fmap in He. cbn in He |- *. unfold entries. unfold lenN in *. cbn in Hlen. lia.
  - done.
  - unfold read. cbn [cache_items_list_]. destruct (N.eqb_spec (max_size_ c) 0) as [E|_]; [rewrite E in Hs; unfold lenN in *; cbn in Hlen; lia|].
    unfold deref. cbn. by rewrite N.eqb_refl.
Qed.

Lemma resize_loop_spec new_end kept m fresh : linked (kept ++ new_end) m fresh →
  let st := resize_loop new_end (kept ++ new_end, m) in st.1 = kept ∧ linked kept st.2 fresh.
Proof.
  revert m. induction new_end as [|n new_end IH]; intros m Hl; cbn [resize_loop]; [by rewrite app_nil_r in *|].
  assert (erase (addr n) (kept ++ n :: new_end) = kept ++ new_end) as E; cbn [fst snd].
  { pose proof (linked_addr _ _ _ Hl) as Ha. rewrite fmap_app in Ha. cbn in Ha. apply list.NoDup_app in Ha as (_ & Hk & [Hn _]%list.NoDup_cons).
    unfold erase. rewrite list.filter_app, filter_cons_False by auto. f_equal; apply filter_all, list.Forall_forall; intros x Hx Ex.
    - apply (Hk (addr x)); [by apply list_elem_of_fmap_2|]. rewrite Ex. by left.
    - apply Hn. rewrite <- Ex. by apply list_elem_of_fmap_2. }
  rewrite E. apply IH. rewrite <- E. apply (linked_erase _ _ _ n Hl). set_solver.
Qed.

Lemma resize_spec c max : wf c →
  wf (resize c max) ∧ entries (resize c max) = take (N.to_nat max) (entries c) ∧ max_size_ (resize c max) = max.
Proof.
  intros [Hl Hs]. unfold resize. destruct (N.ltb_spec max (lenN (cache_items_list_ c))) as [Hlt|Hge].
  - rewrite <- (take_drop (N.to_nat max) (cache_items_list_ c)) in Hl. destruct (resize_loop_spec _ _ _ _ Hl) as [E Hk].
    rewrite take_drop in E, Hk. split_and!; [split|..]; cbn; [by rewrite E| |by unfold entries; cbn; rewrite E, fmap_take|done].
    rewrite E. unfold lenN. rewrite length_take. lia.
  - split_and!; [by split|..]; cbn; [|done]. unfold entries. cbn. rewrite take_ge; [done|]. rewrite length_fmap. unfold lenN in Hge. lia.
Qed.

End lru_cache.
Arguments node : clear implicits.
Arguments lru_cache _ _ {_ _}.
End lru_cache.
