(* ===== verification/RangeMap.v ===== *)
(** Maps from disjoint intervals to values: [libvast/include/vast/detail/range_map.hpp].

    The ordered map from left endpoints is the list of its entries in the order of the keys. Its
    iterators stay valid while other entries come and go: an iterator is the key of its entry, or
    [None] for the end. Points are compared only, so that their width does not matter. *)

From stdpp Require Import sorting.
From S2P Require Import Prelude.

Module range_map.
Section range_map.
Context {Value : Type} `{EqDecision Value}.

Record entry := mk_entry { left : Z; right : Z; value : Value }.
Definition range_map : Type := list entry.
Implicit Types (m : list entry) (e : entry) (l r p : Z) (v : Value).

(** ** [std::map] *)

#[local] Abbreviation iterator := (option Z).
Definition begin m : iterator := left <$> list.head m.
Definition deref m (it : iterator) : option entry := k ← it; find (λ e, left e =? k)%Z m.
Definition lower_bound m p : iterator := left <$> find (λ e, p <=? left e)%Z m.
(** [++] and [--]; the latter is defined for all iterators but the first. *)
Definition next m (it : iterator) : iterator := k ← it; left <$> find (λ e, k <? left e)%Z m.
Definition precedes (it : iterator) e : bool := match it with Some k => (left e <? k)%Z | None => true end.
Definition prev m (it : iterator) : iterator := left <$> list.last (filter (precedes it) m).
Definition map_emplace m e : list entry * bool :=
  if existsb (λ x, left x =? left e)%Z m then (m, false)
  else (filter (λ x, (left x < left e)%Z) m ++ e :: filter (λ x, (left e < left x)%Z) m, true).
Definition map_erase m (it : iterator) : list entry := filter (λ e, Some (left e) ≠ it) m.
(** [right(it) = r] *)
Definition set_right m (it : iterator) r : list entry :=
  (λ e, if decide (Some (left e) = it) then mk_entry (left e) r (value e) else e) <$> m.

(** ** Operations *)

Definition emplace m l r v : list entry * bool := map_emplace m (mk_entry l r v).

Definition locate m p (lb : iterator) : iterator :=
  if match lb with Some k => (p =? k)%Z | None => false end then lb
  else if decide (lb = begin m) then None
  else match deref m (prev m lb) with Some e => if (p <? right e)%Z then Some (left e) else None | None => None end.

(** [None] is a failed assertion. *)
Definition insert m l r v : option (list entry * bool) :=
  if (l <? r)%Z then
    let lb := lower_bound m l in
    Some (if bool_decide (locate m l lb = None) && match lb with None => true | Some k => (r <=? k)%Z end
          then emplace m l r v else (m, false))
  else None.

(** The entry that is compared with the interval, and its neighbours. *)
Definition inject_position m l : iterator :=
  let i := lower_bound m l in
  if bool_decide (i = None) || (bool_decide (i ≠ begin m) && bool_decide (i ≠ Some l)) then prev m i else i.
Definition inject_at m l r v (i : iterator) : option (list entry * bool) :=
  let n := next m i in
  let p := if bool_decide (i ≠ begin m) then prev m i else None in
  ei ← deref m i;
  let en := deref m n in
  let ep := deref m p in
  let fits_left := (r <=? left ei)%Z && match ep with None => true | Some ep => (right ep <=? l)%Z end in
  let fits_right := (right ei <=? l)%Z && match en with None => true | Some en => (r <=? left en)%Z end in
  if fits_left then
    let right_merge := (r =? left ei)%Z && bool_decide (v = value ei) in
    let left_merge := match ep with None => false | Some ep => (l =? right ep)%Z && bool_decide (v = value ep) end in
    Some (if left_merge && right_merge then map_erase (set_right m p (right ei)) i
          else if left_merge then set_right m p r
          else if right_merge then map_erase (emplace m l (right ei) v).1 i
          else (emplace m l r v).1, true)
  else if fits_right then
    let right_merge := match en with None => false | Some en => (r =? left en)%Z && bool_decide (v = value en) end in
    let left_merge := (l =? right ei)%Z && bool_decide (v = value ei) in
    Some (if left_merge && right_merge then map_erase (set_right m i (default 0%Z (right <$> en))) n
          else if left_merge then set_right m i r
          else if right_merge then map_erase (emplace m l (default 0%Z (right <$> en)) v).1 n
          else (emplace m l r v).1, true)
  else Some (m, false).
Definition inject m l r v : option (list entry * bool) :=
  if (l <? r)%Z then
    if bool_decide (m = []) then Some (emplace m l r v) else inject_at m l r v (inject_position m l)
  else None.

Definition erase_point m p : list entry * bool :=
  match locate m p (lower_bound m p) with
  | None => (m, false)
  | i => (map_erase m i, true)
  end.

(** The loop of [erase] for an interval; every round but the last passes over an entry. *)
Fixpoint erase_loop (fuel : nat) l r (next_left : Z) m : option (list entry) :=
  match fuel with
  | O => Some m
  | S fuel =>
      let lb := lower_bound m next_left in
      let i := match locate m next_left lb with None => lb | i => i end in
      match deref m i with
      | None => Some m
      | Some e =>
          if (r <=? left e)%Z then Some m
          else if (l <=? left e)%Z && (right e <=? r)%Z then erase_loop fuel l r (right e) (map_erase m i)
          else if (left e <=? l)%Z && (r <=? right e)%Z then fst <$> inject (set_right m i l) r (right e) (value e)
          else if (l <=? left e)%Z && (left e <? r)%Z then Some (map_erase (emplace m r (right e) (value e)).1 i)
          else if (l <? right e)%Z && (right e <=? r)%Z then erase_loop fuel l r (right e) (set_right m i l)
          else erase_loop fuel l r (right e) m
      end
  end.
Definition erase m l r : option (list entry) := if (r <? l)%Z then Some m else erase_loop (S (length m)) l r l m.

Definition erase_value m v : list entry := filter (λ e, value e ≠ v) m.

Definition lookup m p : option Value := value <$> deref m (locate m p (lower_bound m p)).
Definition find m p : Z * Z * option Value :=
  match deref m (locate m p (lower_bound m p)) with
  | None => (0%Z, 0%Z, None)
  | Some e => (left e, right e, Some (value e))
  end.

(** ** The map as a function on points *)

Definition covers e p : bool := (left e <=? p)%Z && (p <? right e)%Z.
Definition at_point m p : option Value := value <$> List.find (λ e, covers e p) m.

(** Entries in order, none of them empty. *)
Definition below (a b : entry) : Prop := (right a <= left b)%Z.
Definition disjoint m : Prop := StronglySorted below m ∧ Forall (λ e, left e < right e)%Z m.
(** No point of the interval has a value. *)
Definition free m l r : bool := forallb (λ e, (right e <=? l)%Z || (r <=? left e)%Z) m.

Definition sorted m : Prop := StronglySorted (λ a b, left a < left b)%Z m.

Lemma StronglySorted_app_iff {A} (R : A → A → Prop) (xs ys : list A) :
  StronglySorted R (xs ++ ys) ↔ StronglySorted R xs ∧ StronglySorted R ys ∧ Forall (λ x, Forall (R x) ys) xs.
Proof.
  induction xs as [|x xs IH]; cbn; [split; [intros Hy; split_and!; [constructor|done|constructor]|tauto]|]. split.
  - intros [Hs Hx]%StronglySorted_inv. apply IH in Hs as (? & ? & ?). apply list.Forall_app in Hx as [? ?].
    split_and!; [by constructor|done|by constructor].
  - intros (Hs & Hy & [Hx Hxs]%list.Forall_cons). apply StronglySorted_inv in Hs as [Hs Hx']. constructor; [by apply IH|by apply list.Forall_app].
Qed.

Lemma disjoint_app m1 m2 : disjoint (m1 ++ m2) ↔ disjoint m1 ∧ disjoint m2 ∧ Forall (λ a, Forall (below a) m2) m1.
Proof. unfold disjoint. rewrite StronglySorted_app_iff, list.Forall_app. tauto. Qed.

Lemma disjoint_cons e m : disjoint (e :: m) ↔ (left e < right e)%Z ∧ Forall (below e) m ∧ disjoint m.
Proof.
  unfold disjoint. rewrite list.Forall_cons. split; [intros [[? ?]%StronglySorted_inv ?]; tauto|].
  intros (? & ? & ? & ?). split; [by constructor|done].
Qed.

Lemma disjoint_sorted m : disjoint m → sorted m.
Proof.
  intros Hd. induction m as [|e m IH]; [constructor|]. apply disjoint_cons in Hd as (He & Hm & Hd). constructor; [by apply IH|].
  eapply list.Forall_impl; [exact Hm|]. unfold below. lia.
Qed.

Lemma sorted_mid m1 e m2 : sorted (m1 ++ e :: m2) →
  Forall (λ x, left x < left e)%Z m1 ∧ Forall (λ x, left e < left x)%Z m2.
Proof.
  intros (_ & [_ H2]%StronglySorted_inv & H1)%StronglySorted_app_iff. split; [|done].
  eapply list.Forall_impl; [exact H1|]. by intros x [? ?]%list.Forall_cons.
Qed.

(** The entries on both sides of a point. *)
Lemma sorted_split m p : sorted m →
  ∃ m1 m2, m = m1 ++ m2 ∧ Forall (λ x, left x < p)%Z m1 ∧ Forall (λ x, p <= left x)%Z m2.
Proof.
  induction m as [|e m IH]; intros Hs; [by exists [], []|]. apply StronglySorted_inv in Hs as [Hs He].
  destruct (Z.ltb_spec (left e) p).
  - destruct (IH Hs) as (m1 & m2 & -> & H1 & H2). exists (e :: m1), m2. split_and!; [done|by constructor|done].
  - exists [], (e :: m). split_and!; [done|done|]. constructor; [done|]. eapply list.Forall_impl; [exact He|]. cbn. lia.
Qed.

(** *** [std::map] *)

Lemma find_app {A} (f : A → bool) xs ys : List.find f (xs ++ ys) = match List.find f xs with Some x => Some x | None => List.find f ys end.
Proof. induction xs as [|x xs IH]; cbn; [done|]. by destruct (f x). Qed.
Lemma find_none_Forall {A} (f : A → bool) xs : Forall (λ x, f x = false) xs → List.find f xs = None.
Proof. induction 1 as [|x xs Hx _ IH]; cbn; [done|]. by rewrite Hx. Qed.
Lemma find_head {A} (f : A → bool) xs : Forall (λ x, f x = true) xs → List.find f xs = list.head xs.
Proof. destruct 1 as [|x xs Hx _]; cbn; [done|]. by rewrite Hx. Qed.
Lemma filter_none {A} (P : A → Prop) `{!∀ x, Decision (P x)} xs : Forall (λ x, ¬ P x) xs → filter P xs = [].
Proof. induction 1 as [|x xs Hx _ IH]; [done|]. by rewrite filter_cons_False. Qed.

Lemma lower_bound_split m1 m2 p : Forall (λ x, left x < p)%Z m1 → Forall (λ x, p <= left x)%Z m2 →
  lower_bound (m1 ++ m2) p = left <$> list.head m2.
Proof.
  intros H1 H2. unfold lower_bound. rewrite find_app, find_none_Forall, find_head; [done|..].
  - eapply list.Forall_impl; [exact H2|]. intros x Hx; cbn in Hx. by apply Z.leb_le.
  - eapply list.Forall_impl; [exact H1|]. intros x Hx; cbn in Hx. by apply Z.leb_gt.
Qed.

Lemma deref_mid m1 e m2 : sorted (m1 ++ e :: m2) → deref (m1 ++ e :: m2) (Some (left e)) = Some e.
Proof.
  intros [H1 _]%sorted_mid. unfold deref. cbn. rewrite find_app, find_none_Forall; [cbn; by rewrite Z.eqb_refl|].
  eapply list.Forall_impl; [exact H1|]. intros x Hx; cbn in Hx. apply Z.eqb_neq. lia.
Qed.

Lemma next_mid m1 e m2 : sorted (m1 ++ e :: m2) → next (m1 ++ e :: m2) (Some (left e)) = left <$> list.head m2.
Proof.
  intros [H1 H2]%sorted_mid. unfold next. cbn. rewrite find_app, find_none_Forall.
  - cbn. rewrite Z.ltb_irrefl, find_head; [done|]. eapply list.Forall_impl; [exact H2|]. intros x Hx; cbn in Hx. by apply Z.ltb_lt.
  - eapply list.Forall_impl; [exact H1|]. intros x Hx; cbn in Hx. apply Z.ltb_ge. lia.
Qed.

Lemma prev_mid m1 e m2 : sorted (m1 ++ e :: m2) → prev (m1 ++ e :: m2) (Some (left e)) = left <$> list.last m1.
Proof.
  intros [H1 H2]%sorted_mid. unfold prev. rewrite list.filter_app, filter_all, filter_none, app_nil_r; [done|..].
  - constructor; cbn; [rewrite Z.ltb_irrefl; tauto|]. eapply list.Forall_impl; [exact H2|]. intros x Hx; cbn in Hx. cbn.
    assert ((left x <? left e)%Z = false) as -> by (apply Z.ltb_ge; lia). tauto.
  - eapply list.Forall_impl; [exact H1|]. intros x Hx; cbn in Hx. cbn. by apply Z.ltb_lt in Hx as ->.
Qed.
Lemma prev_end m : prev m None = left <$> list.last m.
Proof. unfold prev. rewrite filter_all; [done|]. by apply list.Forall_forall. Qed.

Lemma erase_mid m1 e m2 : sorted (m1 ++ e :: m2) → map_erase (m1 ++ e :: m2) (Some (left e)) = m1 ++ m2.
Proof.
  intros [H1 H2]%sorted_mid. unfold map_erase. rewrite list.filter_app, filter_cons_False by auto.
  f_equal; apply filter_all; (eapply list.Forall_impl; [eassumption|]); intros x Hx [= E]; cbn in Hx; lia.
Qed.

Lemma fmap_id_Forall {A} (f : A → A) xs : Forall (λ x, f x = x) xs → f <$> xs = xs.
Proof. induction 1 as [|x xs Hx _ IH]; [done|]. rewrite fmap_cons. by rewrite Hx, IH. Qed.

Lemma set_right_mid m1 e m2 r : sorted (m1 ++ e :: m2) →
  set_right (m1 ++ e :: m2) (Some (left e)) r = m1 ++ mk_entry (left e) r (value e) :: m2.
Proof.
  intros [H1 H2]%sorted_mid. unfold set_right. rewrite fmap_app. cbn. rewrite decide_True by done.
  f_equal; [|f_equal]; apply fmap_id_Forall; (eapply list.Forall_impl; [eassumption|]); intros x Hx; cbn in *;
    (rewrite decide_False; [done|intros [= E]; lia]).
Qed.

Lemma emplace_mid m1 m2 l r v : Forall (λ x, left x < l)%Z m1 → Forall (λ x, l < left x)%Z m2 →
  emplace (m1 ++ m2) l r v = (m1 ++ mk_entry l r v :: m2, true).
Proof.
  intros H1 H2. unfold emplace, map_emplace. cbn.
  assert (existsb (λ x, left x =? l)%Z (m1 ++ m2) = false) as ->.
  { apply not_true_iff_false. rewrite existsb_exists. intros (x & Hx & E%Z.eqb_eq). apply list_elem_of_In, elem_of_app in Hx.
    rewrite list.Forall_forall in H1, H2. destruct Hx as [Hx|Hx]; [specialize (H1 x Hx)|specialize (H2 x Hx)]; lia. }
  rewrite !list.filter_app, (filter_all _ m1 H1), (filter_all _ m2 H2), (filter_none _ m2), (filter_none _ m1), app_nil_r; [done|..];
    (eapply list.Forall_impl; [eassumption|]); cbn; lia.
Qed.

(** *** Finding a point *)

Lemma prev_split m1 m2 : sorted (m1 ++ m2) → prev (m1 ++ m2) (left <$> list.head m2) = left <$> list.last m1.
Proof. destruct m2 as [|y m2]; intros Hs; cbn; [by rewrite prev_end, app_nil_r|by apply prev_mid]. Qed.

Lemma begin_split m1 m2 : sorted (m1 ++ m2) → (left <$> list.head m2) = begin (m1 ++ m2) ↔ m1 = [].
Proof.
  intros Hs. destruct m1 as [|x m1]; [done|]. split; [|done]. destruct m2 as [|y m2]; [done|]. intros [= E].
  apply sorted_mid in Hs as [[Hx _]%list.Forall_cons _]. lia.
Qed.

Lemma find_covers_left m1 p : Forall (λ x, right x <= p)%Z m1 → List.find (λ e, covers e p) m1 = None.
Proof.
  intros H1. apply find_none_Forall. eapply list.Forall_impl; [exact H1|]. intros x Hx; cbn in Hx. unfold covers.
  apply andb_false_intro2, Z.ltb_ge. lia.
Qed.
Lemma find_covers_right m2 p : Forall (λ x, p < left x)%Z m2 → List.find (λ e, covers e p) m2 = None.
Proof.
  intros H2. apply find_none_Forall. eapply list.Forall_impl; [exact H2|]. intros x Hx; cbn in Hx. unfold covers.
  apply andb_false_intro1, Z.leb_gt. lia.
Qed.

Lemma disjoint_mid m1 e m2 : disjoint (m1 ++ e :: m2) →
  (left e < right e)%Z ∧ Forall (λ x, right x <= left e)%Z m1 ∧ Forall (λ x, right e <= left x)%Z m2.
Proof.
  intros (_ & (He & H2 & _)%disjoint_cons & H1)%disjoint_app. split_and!; [done| |done].
  eapply list.Forall_impl; [exact H1|]. by intros x [? ?]%list.Forall_cons.
Qed.

Lemma Forall_le_trans (f : entry → Z) m p q : Forall (λ x, f x <= p)%Z m → (p <= q)%Z → Forall (λ x, f x <= q)%Z m.
Proof. intros Hm Hp. eapply list.Forall_impl; [exact Hm|]. cbn. lia. Qed.
Lemma Forall_lt_trans (f : entry → Z) m p q : Forall (λ x, q <= f x)%Z m → (p < q)%Z → Forall (λ x, p < f x)%Z m.
Proof. intros Hm Hp. eapply list.Forall_impl; [exact Hm|]. cbn. lia. Qed.

Lemma find_covers_mid m1 e m2 p : disjoint (m1 ++ e :: m2) → covers e p = true →
  List.find (λ e, covers e p) (m1 ++ e :: m2) = Some e.
Proof.
  intros (He & H1 & _)%disjoint_mid Hc. rewrite find_app, find_covers_left; cbn; [by rewrite Hc|].
  apply andb_prop in Hc as [?%Z.leb_le _]. by eapply Forall_le_trans.
Qed.

Lemma find_covers_gap m1 m2 p : Forall (λ x, right x <= p)%Z m1 → Forall (λ x, p < left x)%Z m2 →
  List.find (λ e, covers e p) (m1 ++ m2) = None.
Proof. intros H1 H2. by rewrite find_app, find_covers_left, find_covers_right. Qed.

Lemma locate_spec m p : disjoint m → locate m p (lower_bound m p) = left <$> List.find (λ e, covers e p) m.
Proof.
  intros Hd. pose proof (disjoint_sorted m Hd) as Hs. destruct (sorted_split m p Hs) as (m1 & m2 & -> & H1 & H2).
  rewrite (lower_bound_split m1 m2 p H1 H2). unfold locate.
  destruct (match left <$> list.head m2 with Some k => (p =? k)%Z | None => false end) eqn:E.
  - destruct m2 as [|y m2]; [done|]. cbn in E. apply Z.eqb_eq in E. pose proof (disjoint_mid _ _ _ Hd) as (Hy & _).
    rewrite find_covers_mid; [done|done|]. unfold covers. apply andb_true_iff. rewrite Z.leb_le, Z.ltb_lt. lia.
  - assert (Forall (λ x, p < left x)%Z m2) as H2'.
    { destruct m2 as [|y m2]; [constructor|]. cbn in E. apply Z.eqb_neq in E. apply list.Forall_cons in H2 as [Hy H2].
      pose proof (sorted_mid _ _ _ Hs) as [_ Hm]. constructor; [lia|]. eapply list.Forall_impl; [exact Hm|]. cbn. lia. }
    case_decide as Hb; [apply begin_split in Hb as ->; [|done]; cbn; by rewrite find_covers_right|].
    rewrite prev_split by done. destruct m1 as [|x m1 _] using rev_ind; [by rewrite begin_split in Hb|].
    rewrite last_snoc. rewrite <- app_assoc in *. cbn [app] in *. change (left <$> Some x) with (Some (left x)). rewrite deref_mid by done. apply list.Forall_app in H1 as [H1 [Hx _]%list.Forall_cons].
    pose proof (disjoint_mid _ _ _ Hd) as (_ & Hl & _). destruct (Z.ltb_spec p (right x)).
    + rewrite find_covers_mid; [done|done|]. unfold covers. apply andb_true_iff. rewrite Z.leb_le, Z.ltb_lt. lia.
    + change (x :: m2) with ([x] ++ m2). rewrite app_assoc, find_covers_gap; [done| |done].
      apply list.Forall_app. split; [eapply Forall_le_trans; [done|lia]|by constructor].
Qed.

Lemma deref_find m (f : entry → bool) : sorted m → deref m (left <$> List.find f m) = List.find f m.
Proof.
  intros Hs. destruct (List.find f m) as [e|] eqn:E; [|done]. apply List.find_some in E as [Hin _].
  apply list_elem_of_In, list_elem_of_split in Hin as (m1 & m2 & ->). by apply deref_mid.
Qed.

Lemma lookup_spec m p : disjoint m → lookup m p = at_point m p.
Proof. intros Hd. unfold lookup, at_point. by rewrite locate_spec, deref_find by (done || by apply disjoint_sorted). Qed.

Lemma find_spec m p : disjoint m →
  find m p = match List.find (λ e, covers e p) m with Some e => (left e, right e, Some (value e)) | None => (0%Z, 0%Z, None) end.
Proof. intros Hd. unfold find. by rewrite locate_spec, deref_find by (done || by apply disjoint_sorted). Qed.

(** *** Changing the map *)

Lemma disjoint_mid_iff m1 e m2 : disjoint (m1 ++ e :: m2) ↔
  disjoint (m1 ++ m2) ∧ (left e < right e)%Z ∧ Forall (λ x, right x <= left e)%Z m1 ∧ Forall (λ x, right e <= left x)%Z m2.
Proof.
  rewrite !disjoint_app, disjoint_cons. split.
  - intros (H1 & (He & H2 & Hd) & Hx). rewrite !list.Forall_forall in *. split_and!; try done; intros x Hin; specialize (Hx x Hin);
      by apply list.Forall_cons in Hx as [? ?].
  - intros ((H1 & H2 & Hx) & He & Hl & Hr). split_and!; try done. rewrite !list.Forall_forall in *. intros x Hin. constructor; [by apply Hl|by apply Hx].
Qed.

Lemma at_mid m1 e m2 p : disjoint (m1 ++ e :: m2) →
  at_point (m1 ++ e :: m2) p = if covers e p then Some (value e) else at_point (m1 ++ m2) p.
Proof.
  intros Hd. unfold at_point. destruct (covers e p) eqn:E; [by rewrite find_covers_mid|]. rewrite !find_app. cbn. by rewrite E.
Qed.

(** What a successful and a failed insertion do. *)
Definition updated m m' l r v (b : bool) : Prop :=
  disjoint m' ∧ if b then ∀ p, at_point m' p = if (l <=? p)%Z && (p <? r)%Z then Some v else at_point m p else m' = m.

Lemma free_split m1 m2 l r : (l < r)%Z → disjoint (m1 ++ m2) → Forall (λ x, left x < l)%Z m1 → Forall (λ x, l <= left x)%Z m2 →
  free (m1 ++ m2) l r = true ↔ Forall (λ x, right x <= l)%Z m1 ∧ Forall (λ x, r <= left x)%Z m2.
Proof.
  intros Hlr [_ Hne] H1 H2. apply list.Forall_app in Hne as [N1 N2]. unfold free. rewrite forallb_app, andb_true_iff, !forallb_forall.
  setoid_rewrite orb_true_iff. setoid_rewrite Z.leb_le. setoid_rewrite <- list_elem_of_In. rewrite !list.Forall_forall in *.
  split; intros [F1 F2]; split; intros x Hx.
  - specialize (F1 x Hx). specialize (H1 x Hx). lia.
  - specialize (F2 x Hx). specialize (H2 x Hx). specialize (N2 x Hx). lia.
  - left. by apply F1.
  - right. by apply F2.
Qed.

Lemma head_bound m1 m2 r : disjoint (m1 ++ m2) →
  Forall (λ x, r <= left x)%Z m2 ↔ match list.head m2 with None => true | Some y => (r <=? left y)%Z end = true.
Proof.
  intros Hd. destruct m2 as [|y m2]; [split; [done|constructor]|]. cbn. rewrite Z.leb_le. apply disjoint_mid_iff in Hd as (_ & Hy & _ & H2).
  split; [by intros [? ?]%list.Forall_cons|]. intros Hr. constructor; [done|]. eapply list.Forall_impl; [exact H2|]. cbn. lia.
Qed.

Lemma emplace_updated m1 m2 l r v : (l < r)%Z → disjoint (m1 ++ m2) → Forall (λ x, left x < l)%Z m1 →
  Forall (λ x, right x <= l)%Z m1 → Forall (λ x, r <= left x)%Z m2 →
  emplace (m1 ++ m2) l r v = (m1 ++ mk_entry l r v :: m2, true) ∧ updated (m1 ++ m2) (m1 ++ mk_entry l r v :: m2) l r v true.
Proof.
  intros Hlr Hd H1 R1 R2. split; [apply emplace_mid; [done|]; by eapply Forall_lt_trans|].
  assert (disjoint (m1 ++ mk_entry l r v :: m2)) as Hd' by (by apply disjoint_mid_iff).
  split; [done|]. intros p. by rewrite at_mid by done.
Qed.

Lemma insert_spec m l r v : disjoint m → (l < r)%Z → ∃ m', insert m l r v = Some (m', free m l r) ∧ updated m m' l r v (free m l r).
Proof.
  intros Hd Hlr. pose proof (disjoint_sorted m Hd) as Hs. unfold insert. rewrite (proj2 (Z.ltb_lt l r) Hlr), locate_spec by done.
  destruct (sorted_split m l Hs) as (m1 & m2 & -> & H1 & H2). rewrite (lower_bound_split m1 m2 l H1 H2).
  pose proof (free_split m1 m2 l r Hlr Hd H1 H2) as Hf. rewrite (head_bound _ _ r Hd) in Hf.
  replace (match left <$> list.head m2 with None => true | Some k => (r <=? k)%Z end)
    with (match list.head m2 with None => true | Some y => (r <=? left y)%Z end) by (by destruct m2).
  destruct (free (m1 ++ m2) l r) eqn:E.
  - destruct (proj1 Hf eq_refl) as [R1 Hh]. rewrite Hh. apply (head_bound _ _ r Hd) in Hh.
    rewrite find_covers_gap by (done || by eapply Forall_lt_trans). cbn.
    destruct (emplace_updated m1 m2 l r v) as [-> ?]; [done..|]. eauto.
  - exists (m1 ++ m2). split; [|by split]. destruct (match list.head m2 with None => true | Some y => (r <=? left y)%Z end);
      [|by rewrite andb_false_r]. rewrite bool_decide_eq_false_2; [done|]. intros Hn%fmap_None. cut (false = true); [done|].
    apply Hf. split; [|done]. apply list.Forall_forall. intros x Hx.
    assert (covers x l = false) as Hc by (apply (List.find_none _ _ Hn), list_elem_of_In; set_solver).
    rewrite list.Forall_forall in H1. specialize (H1 x Hx). unfold covers in Hc. apply andb_false_iff in Hc as [?%Z.leb_gt|?%Z.ltb_ge]; lia.
Qed.

(** *** [inject] *)

Lemma inject_position_spec m1 m2 l : sorted (m1 ++ m2) → Forall (λ x, left x < l)%Z m1 → Forall (λ x, l <= left x)%Z m2 →
  inject_position (m1 ++ m2) l =
    if bool_decide (m1 = []) || bool_decide ((left <$> list.head m2) = Some l) then left <$> list.head m2 else left <$> list.last m1.
Proof.
  intros Hs H1 H2. unfold inject_position. rewrite (lower_bound_split m1 m2 l H1 H2), prev_split by done.
  rewrite (bool_decide_ext (_ ≠ begin _) (m1 ≠ [])) by (by rewrite begin_split).
  destruct (decide (m1 = [])) as [->|Hne].
  - rewrite (bool_decide_eq_false_2 ([] ≠ [])) by auto. destruct m2; done.
  - rewrite (bool_decide_eq_true_2 (m1 ≠ [])), (bool_decide_eq_false_2 (m1 = [])) by done. cbn.
    destruct m2 as [|y m2]; cbn; [done|]. repeat case_bool_decide; done.
Qed.

Lemma inject_neighbours m1 e m2 : sorted (m1 ++ e :: m2) →
  let m := m1 ++ e :: m2 in
  deref m (next m (Some (left e))) = list.head m2 ∧
  (if bool_decide (Some (left e) ≠ begin m) then prev m (Some (left e)) else None) = left <$> list.last m1 ∧
  deref m (left <$> list.last m1) = list.last m1.
Proof.
  intros Hs m. subst m. rewrite next_mid, prev_mid by done. split_and!.
  - destruct m2 as [|y m2]; [done|]. change (m1 ++ e :: y :: m2) with (m1 ++ [e] ++ y :: m2) in *. rewrite app_assoc in *. by apply deref_mid.
  - pose proof (begin_split m1 (e :: m2) Hs) as Hb. cbn in Hb. case_bool_decide as E; [done|]. by apply Hb in E as ->.
  - destruct m1 as [|x m1 _] using rev_ind; [done|]. rewrite last_snoc. rewrite <- app_assoc in *. by apply deref_mid.
Qed.

#[local] Ltac points :=
  unfold covers; cbn [left right value];
  repeat match goal with
  | |- context [(?a <=? ?b)%Z] => destruct (Z.leb_spec a b)
  | |- context [(?a <? ?b)%Z] => destruct (Z.ltb_spec a b)
  end; cbn; intros; first [done|congruence|lia|match goal with H : _ → _ = None |- _ => (rewrite H by lia; done) end].

Lemma sorted_mid_2 m1 e m2 : sorted (m1 ++ m2) → Forall (λ x, left x < left e)%Z m1 → Forall (λ x, left e < left x)%Z m2 →
  sorted (m1 ++ e :: m2).
Proof.
  intros (H1 & H2 & Hx)%StronglySorted_app_iff L R. apply StronglySorted_app_iff. split_and!; [done|by constructor|].
  rewrite !list.Forall_forall in *. intros x Hin. constructor; [by apply L|by apply Hx].
Qed.

(** An interval that ends where an entry with its value begins. *)
Lemma merge_right m1 y m2 l v : disjoint (m1 ++ y :: m2) → Forall (λ x, left x < l)%Z m1 → Forall (λ x, right x <= l)%Z m1 →
  (l < left y)%Z → v = value y →
  map_erase (emplace (m1 ++ y :: m2) l (right y) v).1 (Some (left y)) = m1 ++ mk_entry l (right y) v :: m2 ∧
  updated (m1 ++ y :: m2) (m1 ++ mk_entry l (right y) v :: m2) l (left y) v true.
Proof.
  intros Hd L1 R1 Hl ->. pose proof Hd as (Hd' & Hy & _ & R2)%disjoint_mid_iff.
  assert (Forall (λ x, l < left x)%Z (y :: m2)) as L2 by (constructor; [done|]; eapply Forall_lt_trans; [exact R2|lia]).
  rewrite emplace_mid by done. cbn [fst]. split.
  - change (m1 ++ mk_entry l (right y) (value y) :: y :: m2) with (m1 ++ [mk_entry l (right y) (value y)] ++ y :: m2).
    rewrite app_assoc, erase_mid, <- app_assoc; [done|]. rewrite <- app_assoc. apply sorted_mid_2; try done. by apply disjoint_sorted.
  - assert (disjoint (m1 ++ mk_entry l (right y) (value y) :: m2)) as Hm by (apply disjoint_mid_iff; cbn; split_and!; (done || lia)).
    split; [done|]. intros p. rewrite !at_mid by done. points.
Qed.

(** An interval that begins where an entry with its value ends. *)
Lemma merge_left m1 x m2 r : disjoint (m1 ++ x :: m2) → (right x < r)%Z → Forall (λ y, r <= left y)%Z m2 →
  set_right (m1 ++ x :: m2) (Some (left x)) r = m1 ++ mk_entry (left x) r (value x) :: m2 ∧
  updated (m1 ++ x :: m2) (m1 ++ mk_entry (left x) r (value x) :: m2) (right x) r (value x) true.
Proof.
  intros Hd Hr R2. pose proof Hd as (Hd' & Hx & R1 & _)%disjoint_mid_iff. split; [by apply set_right_mid, disjoint_sorted|].
  assert (disjoint (m1 ++ mk_entry (left x) r (value x) :: m2)) as Hm by (apply disjoint_mid_iff; cbn; split_and!; (done || lia)).
  split; [done|]. intros p. rewrite !at_mid by done. points.
Qed.

(** An interval between two entries with its value. *)
Lemma merge_both m1 x y m2 : disjoint (m1 ++ x :: y :: m2) → (right x < left y)%Z → value x = value y →
  map_erase (set_right (m1 ++ x :: y :: m2) (Some (left x)) (right y)) (Some (left y)) =
    m1 ++ mk_entry (left x) (right y) (value x) :: m2 ∧
  updated (m1 ++ x :: y :: m2) (m1 ++ mk_entry (left x) (right y) (value x) :: m2) (right x) (left y) (value x) true.
Proof.
  intros Hd Hxy Hv. pose proof (disjoint_sorted _ Hd) as Hs. rewrite set_right_mid by done.
  pose proof Hd as (Hd1 & Hx & R1 & R2)%disjoint_mid_iff. pose proof Hd1 as (Hd2 & Hy & R1' & R2')%disjoint_mid_iff. split.
  - change (m1 ++ ?z :: y :: m2) with (m1 ++ [z] ++ y :: m2). rewrite app_assoc, erase_mid, <- app_assoc; [done|].
    rewrite <- app_assoc. pose proof (sorted_mid m1 x (y :: m2) Hs) as [? ?]. apply sorted_mid_2; try done. by apply disjoint_sorted.
  - assert (disjoint (m1 ++ mk_entry (left x) (right y) (value x) :: m2)) as Hm.
    { apply disjoint_mid_iff. cbn. split_and!; (done || lia). }
    split; [done|]. intros p. rewrite !at_mid by done. points.
Qed.

(** The entry comes after the interval. *)
Lemma inject_before y m2 l r v : disjoint (y :: m2) → (l < r)%Z → (r <= left y)%Z →
  ∃ m', inject_at (y :: m2) l r v (Some (left y)) = Some (m', true) ∧ updated (y :: m2) m' l r v true.
Proof.
  intros Hd Hlr Hr. pose proof (disjoint_sorted _ Hd) as Hs. unfold inject_at. cbv zeta.
  destruct (inject_neighbours [] y m2 Hs) as (_ & Hp & Hep). cbn [app] in Hp, Hep. rewrite Hp, Hep.
  pose proof (deref_mid [] y m2 Hs) as Hy. cbn [app] in Hy. rewrite Hy. cbn [mbind option_bind list.last fmap option_fmap option_map].
  clear Hp Hep. rewrite (proj2 (Z.leb_le r (left y)) Hr). cbn [andb].
  pose proof (Forall_nil_2 (λ x, left x < l)%Z) as L1. pose proof (Forall_nil_2 (λ x, right x <= l)%Z) as R1.
  destruct (Z.eqb_spec r (left y)) as [->|]; [case_bool_decide as Ev|]; cbn [andb].
  1: destruct (merge_right [] y m2 l v Hd L1 R1) as [Em ?]; [lia|done|]; cbn [app] in Em; rewrite Em; eauto.
  all: destruct (emplace_updated [] (y :: m2) l _ v Hlr Hd L1 R1) as [Em ?];
    [by apply (head_bound [] (y :: m2)), Z.leb_le|]; cbn [app] in Em; rewrite Em; eauto.
Qed.

(** It comes before it or overlaps with it. *)
Lemma inject_after m1 x m2 l r v : disjoint (m1 ++ x :: m2) → (left x < l < r)%Z → Forall (λ x, l <= left x)%Z m2 →
  ∃ m', inject_at (m1 ++ x :: m2) l r v (Some (left x)) = Some (m', free (m1 ++ x :: m2) l r) ∧
    updated (m1 ++ x :: m2) m' l r v (free (m1 ++ x :: m2) l r).
Proof.
  intros Hd Hlr H2. pose proof (disjoint_sorted _ Hd) as Hs. pose proof Hd as (_ & Hx & R1 & _)%disjoint_mid_iff.
  pose proof (sorted_mid _ _ _ Hs) as [L1 _].
  assert (Forall (λ x, left x < l)%Z (m1 ++ [x])) as L.
  { apply list.Forall_app. split; [|apply list.Forall_singleton; lia]. eapply list.Forall_impl; [exact L1|]. cbn. lia. }
  unfold inject_at. cbv zeta. destruct (inject_neighbours m1 x m2 Hs) as (Hn & Hp & Hep). rewrite Hn, Hp, Hep, next_mid, deref_mid by done.
  cbn [mbind option_bind]. assert ((r <=? left x)%Z = false) as -> by (apply Z.leb_gt; lia). cbn [andb].
  change (x :: m2) with ([x] ++ m2) in Hd. rewrite app_assoc in Hd. pose proof (head_bound _ _ r Hd) as Hh.
  assert (free (m1 ++ x :: m2) l r = (right x <=? l)%Z && match list.head m2 with None => true | Some en => (r <=? left en)%Z end) as Hf.
  { change (x :: m2) with ([x] ++ m2). rewrite app_assoc. apply eq_true_iff_eq. rewrite free_split by (done || lia). rewrite andb_true_iff, Hh, list.Forall_app.
    rewrite Z.leb_le, list.Forall_cons. split; [by intros [(_ & ? & _) ?]|]. intros [? ?]. split; [|done]. split; [|done].
    eapply Forall_le_trans; [exact R1|lia]. }
  rewrite <- app_assoc in Hd. cbn [app] in Hd. rewrite <- Hf. destruct (free (m1 ++ x :: m2) l r) eqn:F; [|by exists (m1 ++ x :: m2)].
  symmetry in Hf. apply andb_true_iff in Hf as [Hxl%Z.leb_le R2%Hh]. clear Hn Hp Hep Hh F H2.
  destruct ((l =? right x)%Z && bool_decide (v = value x)) eqn:Hl; cbn [andb].
  - apply andb_true_iff in Hl as [->%Z.eqb_eq ->%bool_decide_eq_true].
    destruct m2 as [|y m2]; cbn [list.head]; [destruct (merge_left m1 x [] r Hd) as [-> ?]; [lia|done|eauto]|].
    destruct (Z.eqb_spec r (left y)) as [->|]; [case_bool_decide as Ev|]; cbn [andb fmap option_fmap option_map default id];
      [destruct (merge_both m1 x y m2 Hd) as [-> ?]; [lia|done|eauto]|..];
      (destruct (merge_left m1 x (y :: m2) _ Hd (proj2 Hlr) R2) as [-> ?]; eauto).
  - clear Hl. change (x :: m2) with ([x] ++ m2) in Hd |- *. rewrite app_assoc in Hd |- *.
    assert (Forall (λ z, right z <= l)%Z (m1 ++ [x])) as R by (apply list.Forall_app; split; [eapply Forall_le_trans; [exact R1|lia]|apply list.Forall_singleton; lia]).
    destruct m2 as [|y m2]; cbn [list.head]; [destruct (emplace_updated _ [] l r v (proj2 Hlr) Hd L R R2) as [-> ?]; eauto|].
    destruct (Z.eqb_spec r (left y)) as [->|]; [case_bool_decide as Ev|]; cbn [andb fmap option_fmap option_map default id];
      [destruct (merge_right _ y m2 l v Hd L R (proj2 Hlr) Ev) as [-> ?]; eauto|..];
      (destruct (emplace_updated _ _ l _ v (proj2 Hlr) Hd L R R2) as [-> ?]; eauto).
Qed.

(** It begins within the interval. *)
Lemma inject_inside m1 y m2 l r v : disjoint (m1 ++ y :: m2) → (l <= left y < r)%Z →
  inject_at (m1 ++ y :: m2) l r v (Some (left y)) = Some (m1 ++ y :: m2, false) ∧ free (m1 ++ y :: m2) l r = false.
Proof.
  intros Hd Hy. pose proof (disjoint_sorted _ Hd) as Hs. pose proof Hd as (_ & He & _)%disjoint_mid_iff.
  unfold inject_at. cbv zeta. rewrite deref_mid by done. cbn [mbind option_bind].
  assert ((r <=? left y)%Z = false) as E1 by (apply Z.leb_gt; lia). assert ((right y <=? l)%Z = false) as E2 by (apply Z.leb_gt; lia).
  rewrite E1, E2. split; [done|]. unfold free. rewrite forallb_app. cbn. rewrite E1, E2. by rewrite andb_false_r.
Qed.

Lemma inject_spec m l r v : disjoint m → (l < r)%Z → ∃ m', inject m l r v = Some (m', free m l r) ∧ updated m m' l r v (free m l r).
Proof.
  intros Hd Hlr. pose proof (disjoint_sorted m Hd) as Hs. unfold inject. rewrite (proj2 (Z.ltb_lt l r) Hlr).
  case_bool_decide as Hm.
  { subst m. pose proof (Forall_nil_2 (λ x, left x < l)%Z) as L1. pose proof (Forall_nil_2 (λ x, right x <= l)%Z) as R1.
    destruct (emplace_updated [] [] l r v Hlr Hd L1 R1) as [E ?]; [constructor|]. cbn [app] in E. rewrite E. eauto. }
  destruct (sorted_split m l Hs) as (m1 & m2 & -> & H1 & H2). rewrite inject_position_spec by done.
  destruct m1 as [|x m1 _] using rev_ind.
  - destruct m2 as [|y m2]; [done|]. cbn [app] in *. rewrite (bool_decide_eq_true_2 ([] = [])) by done. cbn [orb list.head fmap option_fmap option_map].
    apply list.Forall_cons in H2 as [Hy _]. destruct (Z.leb_spec r (left y)) as [Hr|Hr].
    + assert (free (y :: m2) l r = true) as ->; [|by apply inject_before].
      apply (free_split [] (y :: m2)); [done|done|constructor| |].
      * apply (head_bound [] (y :: m2)); [done|]. by apply Z.leb_le.
      * split; [constructor|]. apply (head_bound [] (y :: m2)); [done|]. by apply Z.leb_le.
    + destruct (inject_inside [] y m2 l r v Hd) as [Ei Ef]; [lia|]. cbn [app] in Ei, Ef. rewrite Ei, Ef. by exists (y :: m2).
  - rewrite (bool_decide_eq_false_2 (m1 ++ [x] = [])) by (by destruct m1). cbn [orb]. rewrite last_snoc, <- app_assoc in *. cbn [app] in *.
    case_bool_decide as E.
    + destruct m2 as [|y m2]; [done|]. injection E as E. change (m1 ++ x :: y :: m2) with (m1 ++ [x] ++ y :: m2) in *. rewrite app_assoc in *.
      destruct (inject_inside (m1 ++ [x]) y m2 l r v Hd) as [Ei ->]; [lia|]. cbn [list.head fmap option_fmap option_map]. rewrite Ei. by exists ((m1 ++ [x]) ++ y :: m2).
    + apply list.Forall_app in H1 as [_ [Hx _]%list.Forall_cons]. apply inject_after; (done || lia).
Qed.

(** *** Erasing *)

Lemma at_without m1 e m2 q : disjoint (m1 ++ e :: m2) →
  at_point (m1 ++ m2) q = if covers e q then None else at_point (m1 ++ e :: m2) q.
Proof.
  intros Hd. rewrite (at_mid m1 e m2 q Hd). destruct (covers e q) eqn:E; [|done]. apply disjoint_mid_iff in Hd as (_ & He & R1 & R2).
  apply andb_true_iff in E as [?%Z.leb_le ?%Z.ltb_lt]. unfold at_point.
  rewrite find_covers_gap; [done|by eapply Forall_le_trans|by eapply Forall_lt_trans].
Qed.

Lemma at_inside m1 e m2 q : disjoint (m1 ++ e :: m2) → (left e <= q < right e)%Z → at_point (m1 ++ m2) q = None.
Proof.
  intros Hd Hq. rewrite (at_without m1 e m2 q Hd). unfold covers. by rewrite (proj2 (Z.leb_le _ _) (proj1 Hq)), (proj2 (Z.ltb_lt _ _) (proj2 Hq)).
Qed.

Lemma erase_point_spec m p : disjoint m →
  match List.find (λ e, covers e p) m with
  | None => erase_point m p = (m, false)
  | Some e => ∃ m', erase_point m p = (m', true) ∧ disjoint m' ∧ ∀ q, at_point m' q = if covers e q then None else at_point m q
  end.
Proof.
  intros Hd. unfold erase_point. rewrite locate_spec by done. destruct (List.find (λ e, covers e p) m) as [e|] eqn:E; cbn; [|done].
  apply List.find_some in E as [Hin _]. apply list_elem_of_In, list_elem_of_split in Hin as (m1 & m2 & ->).
  rewrite erase_mid by (by apply disjoint_sorted). exists (m1 ++ m2). split_and!; [done|by apply disjoint_mid_iff in Hd as [? _]|].
  intros q. by apply at_without.
Qed.

Lemma erase_value_spec m v : disjoint m →
  disjoint (erase_value m v) ∧ ∀ q, at_point (erase_value m v) q = match at_point m q with Some w => if decide (w = v) then None else Some w | None => None end.
Proof.
  unfold erase_value. induction m as [|e m IH]; intros Hd; [done|]. pose proof Hd as (He & Hm & Hd')%disjoint_cons.
  destruct (IH Hd') as [Hf Hat]. pose proof (at_without [] e m) as Hw. cbn [app] in Hw.
  pose proof (at_mid [] e m) as Ha. cbn [app] in Ha. destruct (decide (value e = v)) as [E|E].
  - rewrite filter_cons_False by auto. split; [done|]. intros q. rewrite Hat, Hw, (Ha q Hd) by done.
    destruct (covers e q); [by rewrite decide_True|done].
  - rewrite filter_cons_True by done. assert (disjoint (e :: filter (λ e, value e ≠ v) m)) as Hd2.
    { apply disjoint_cons. split_and!; [done| |done]. by apply Forall_filter. }
    split; [done|]. intros q. pose proof (at_mid [] e (filter (λ e, value e ≠ v) m) q) as Ha2. cbn [app] in Ha2. rewrite Ha2, Ha, Hat by done.
    destruct (covers e q); [by rewrite decide_False|done].
Qed.

(** The entry with which a round of the loop starts. *)
Lemma erase_position A B x : disjoint (A ++ B) → Forall (λ e, right e <= x)%Z A → Forall (λ e, x < right e)%Z B →
  (match locate (A ++ B) x (lower_bound (A ++ B) x) with None => lower_bound (A ++ B) x | i => i end) = left <$> list.head B.
Proof.
  intros Hd RA RB. rewrite locate_spec by done.
  assert (Forall (λ e, left e < x)%Z A) as LA.
  { apply disjoint_app in Hd as ([_ Hne] & _). rewrite !list.Forall_forall in *. intros e He. specialize (RA e He). specialize (Hne e He). lia. }
  assert (∀ m2, m2 = B → Forall (λ e, x < left e)%Z m2 →
    match left <$> List.find (λ e, covers e x) (A ++ B) with None => lower_bound (A ++ B) x | i => i end = left <$> list.head B) as Hgap.
  { intros m2 -> LB. rewrite find_covers_gap by done. cbn. apply lower_bound_split; [done|]. eapply list.Forall_impl; [exact LB|]. cbn. lia. }
  destruct B as [|e B]; [by apply (Hgap [])|]. apply list.Forall_cons in RB as [He _]. destruct (Z.leb_spec (left e) x).
  - rewrite find_covers_mid; [done|done|]. unfold covers. apply andb_true_iff. rewrite Z.leb_le, Z.ltb_lt. lia.
  - apply (Hgap (e :: B)); [done|]. apply disjoint_mid_iff in Hd as (_ & Hlt & _ & R2). constructor; [done|]. eapply list.Forall_impl; [exact R2|]. cbn. lia.
Qed.

(** An entry that the interval does not cut at one of its own ends only. *)
Definition cuts_well l r e : Prop :=
  (left e <= l)%Z → (r <= right e)%Z → (left e < l ∧ r < right e)%Z ∨ (left e = l ∧ right e = r).

Definition erased m m' l r : Prop :=
  disjoint m' ∧ ∀ p, at_point m' p = if (l <=? p)%Z && (p <? r)%Z then None else at_point m p.

Lemma erased_gap A B l r : disjoint (A ++ B) → Forall (λ e, right e <= l)%Z A → Forall (λ e, r <= left e)%Z B → erased (A ++ B) (A ++ B) l r.
Proof.
  intros Hd RA LB. split; [done|]. intros p. destruct ((l <=? p)%Z && (p <? r)%Z) eqn:E; [|done].
  apply andb_true_iff in E as [?%Z.leb_le ?%Z.ltb_lt]. unfold at_point.
  rewrite find_covers_gap; [done|by eapply Forall_le_trans|by eapply Forall_lt_trans].
Qed.

(** A round changes nothing outside of the interval. *)
Lemma erased_trans m1 m2 m3 l r :
  (∀ p, (l <=? p)%Z && (p <? r)%Z = false → at_point m2 p = at_point m1 p) → erased m2 m3 l r → erased m1 m3 l r.
Proof. intros H12 [Hd H23]. split; [done|]. intros p. rewrite H23. destruct ((l <=? p)%Z && (p <? r)%Z) eqn:E; [done|by apply H12]. Qed.

(** The interval lies within an entry. *)
Lemma erase_inner A e B l r : disjoint (A ++ e :: B) → (left e < l)%Z → (l < r)%Z → (r < right e)%Z →
  ∃ m', fst <$> inject (set_right (A ++ e :: B) (Some (left e)) l) r (right e) (value e) = Some m' ∧ erased (A ++ e :: B) m' l r.
Proof.
  intros Hd Hl Hlr Hr. rewrite set_right_mid by (by apply disjoint_sorted). pose proof Hd as (Hd' & He & RA & LB)%disjoint_mid_iff.
  assert (disjoint (A ++ mk_entry (left e) l (value e) :: B)) as Hd2.
  { apply disjoint_mid_iff. cbn. split_and!; try done. eapply list.Forall_impl; [exact LB|]. cbn. lia. }
  destruct (inject_spec _ r (right e) (value e) Hd2 Hr) as (m' & -> & Hu).
  assert (free (A ++ mk_entry (left e) l (value e) :: B) r (right e) = true) as Hf.
  { unfold free. apply forallb_forall. intros x Hx%list_elem_of_In. apply orb_true_iff. rewrite !Z.leb_le.
    rewrite list.Forall_forall in RA, LB. apply elem_of_app in Hx as [Hx|[->|Hx]%elem_of_cons]; [specialize (RA x Hx)|cbn|specialize (LB x Hx)]; lia. }
  rewrite Hf in Hu. destruct Hu as [Hm Hat]. exists m'. split; [done|]. split; [done|]. intros p. rewrite Hat, !at_mid by done.
  pose proof (at_inside A e B p Hd) as Hg. revert Hg. points.
Qed.

(** An entry reaches beyond the end of the interval. *)
Lemma erase_front A e B l r : disjoint (A ++ e :: B) → (l <= left e < r)%Z → (r < right e)%Z → Forall (λ x, right x <= l)%Z A →
  ∃ m', map_erase (emplace (A ++ e :: B) r (right e) (value e)).1 (Some (left e)) = m' ∧ erased (A ++ e :: B) m' l r.
Proof.
  intros Hd Hl Hr RA'. pose proof (disjoint_sorted _ Hd) as Hs. pose proof (sorted_mid _ _ _ Hs) as [LA _].
  pose proof Hd as (Hd' & He & RA & LB)%disjoint_mid_iff. set (n := mk_entry r (right e) (value e)).
  assert (Forall (λ x, left x < r)%Z (A ++ [e])) as L1.
  { apply list.Forall_app. split; [|apply list.Forall_singleton; lia]. eapply list.Forall_impl; [exact LA|]. cbn. lia. }
  assert (Forall (λ x, r < left x)%Z B) as L2 by (by eapply Forall_lt_trans).
  assert (disjoint (A ++ n :: B)) as Hn.
  { apply disjoint_mid_iff. subst n. cbn. split_and!; try done. eapply Forall_le_trans; [exact RA|lia]. }
  exists (A ++ n :: B). split.
  - change (e :: B) with ([e] ++ B). rewrite app_assoc, emplace_mid by done. cbn [fst]. rewrite <- app_assoc.
    change ([e] ++ mk_entry r (right e) (value e) :: B) with (e :: n :: B). rewrite erase_mid; [done|].
    change (e :: n :: B) with ([e] ++ n :: B). rewrite app_assoc. apply sorted_mid_2; try done. by rewrite <- app_assoc.
  - split; [done|]. intros p. rewrite !at_mid by done. assert (l <= p < left e → at_point (A ++ B) p = None)%Z as Hg.
    { intros Hp. unfold at_point. rewrite find_covers_gap; [done|eapply Forall_le_trans; [exact RA'|lia]|eapply Forall_lt_trans; [exact LB|lia]]. }
    pose proof (at_inside A e B p Hd) as Hg'. subst n. unfold covers. cbn [left right value].
    destruct (Z.leb_spec r p), (Z.ltb_spec p (right e)), (Z.leb_spec l p), (Z.ltb_spec p r), (Z.leb_spec (left e) p); cbn;
      first [done|lia|apply Hg; lia|apply Hg'; lia].
Qed.

Lemma range_erase_loop_spec fuel A B l r x : disjoint (A ++ B) → (l < r)%Z → (l <= x)%Z → Forall (λ e, right e <= l)%Z A →
  Forall (λ e, x < right e)%Z B → (length B < fuel)%nat → Forall (cuts_well l r) B →
  ∃ m', erase_loop fuel l r x (A ++ B) = Some m' ∧ erased (A ++ B) m' l r.
Proof.
  revert A B x. induction fuel as [|fuel IH]; intros A B x Hd Hlr Hx RA RB Hfuel Hc; [lia|].
  cbn [erase_loop]. rewrite erase_position; [|done|by eapply Forall_le_trans|done].
  destruct B as [|e B]; cbn [list.head fmap option_fmap option_map]; [exists (A ++ []); split; [done|by apply erased_gap]|].
  pose proof (disjoint_sorted _ Hd) as Hs. rewrite deref_mid by done. pose proof Hd as (Hd' & He & RA' & LB)%disjoint_mid_iff.
  apply list.Forall_cons in RB as [Hxe RB], Hc as [Hce Hc].
  assert (Forall (λ y, right e < right y)%Z B) as RB'.
  { destruct Hd' as [_ [_ Hne]%list.Forall_app]. rewrite !list.Forall_forall in *. intros y Hy. specialize (LB y Hy). specialize (Hne y Hy). lia. }
  assert ((r <= left e)%Z → Forall (λ y, r <= left y)%Z (e :: B)) as Hbreak by (intros ?; constructor; [done|]; eapply list.Forall_impl; [exact LB|]; cbn; lia).
  destruct (Z.leb_spec r (left e)) as [Hr|Hr]; [exists (A ++ e :: B); split; [done|apply erased_gap; auto]|].
  destruct ((l <=? left e)%Z && (right e <=? r)%Z) eqn:E1.
  { apply andb_true_iff in E1 as [?%Z.leb_le ?%Z.leb_le]. rewrite erase_mid by done.
    destruct (IH A B (right e)) as (m' & -> & Hm); try done; [lia|cbn in Hfuel; lia|]. exists m'. split; [done|].
    eapply erased_trans; [|exact Hm]. intros p Hp. rewrite (at_without A e B p Hd). revert Hp. points. }
  destruct ((left e <=? l)%Z && (r <=? right e)%Z) eqn:E2.
  { apply andb_true_iff in E2 as [?%Z.leb_le ?%Z.leb_le]. destruct (Hce ltac:(done) ltac:(done)) as [[? ?]|[? ?]]; [by apply erase_inner|].
    apply andb_false_iff in E1 as [?%Z.leb_gt|?%Z.leb_gt]; lia. }
  destruct ((l <=? left e)%Z && (left e <? r)%Z) eqn:E3.
  { apply andb_true_iff in E3 as [Hle%Z.leb_le _]. rewrite (proj2 (Z.leb_le _ _) Hle) in E1. apply Z.leb_gt in E1.
    destruct (erase_front A e B l r) as (m' & -> & ?); eauto with lia. }
  rewrite (proj2 (Z.ltb_lt _ _) Hr), andb_true_r in E3. apply Z.leb_gt in E3.
  assert ((right e < r)%Z) as Hre by (apply andb_false_iff in E2 as [?%Z.leb_gt|?%Z.leb_gt]; lia).
  assert ((l <? right e)%Z && (right e <=? r)%Z = true) as -> by (apply andb_true_iff; rewrite Z.ltb_lt, Z.leb_le; lia).
  rewrite set_right_mid by done. set (e' := mk_entry (left e) l (value e)).
  assert (disjoint (A ++ e' :: B)) as Hd2.
  { apply disjoint_mid_iff. subst e'. cbn. split_and!; try done. eapply list.Forall_impl; [exact LB|]. cbn. lia. }
  destruct (IH (A ++ [e']) B (right e)) as (m' & Hm' & Hm); try rewrite <- app_assoc; try done; [lia| |cbn in Hfuel; lia|].
  { apply list.Forall_app. split; [done|]. apply list.Forall_singleton. subst e'. cbn. lia. }
  rewrite <- app_assoc in Hm', Hm. cbn [app] in Hm', Hm. exists m'. split; [done|]. eapply erased_trans; [|exact Hm].
  intros p Hp. rewrite !at_mid by done. revert Hp. subst e'. points.
Qed.

Lemma disjoint_rights m l : disjoint m → ∃ A B, m = A ++ B ∧ Forall (λ e, right e <= l)%Z A ∧ Forall (λ e, l < right e)%Z B.
Proof.
  induction m as [|e m IH]; intros Hd; [by exists [], []|]. apply disjoint_cons in Hd as (He & Hm & Hd).
  destruct (Z.leb_spec (right e) l).
  - destruct (IH Hd) as (A & B & -> & HA & HB). exists (e :: A), B. split_and!; [done|by constructor|done].
  - exists [], (e :: m). split_and!; [done|constructor|]. constructor; [done|]. destruct Hd as [_ Hne]. rewrite !list.Forall_forall in *.
    intros x Hx. specialize (Hm x Hx). specialize (Hne x Hx). unfold below in Hm. lia.
Qed.

Lemma range_erase_spec m l r : disjoint m → (l < r)%Z → Forall (cuts_well l r) m → ∃ m', erase m l r = Some m' ∧ erased m m' l r.
Proof.
  intros Hd Hlr Hc. unfold erase. assert ((r <? l)%Z = false) as -> by (apply Z.ltb_ge; lia).
  destruct (disjoint_rights m l Hd) as (A & B & -> & HA & HB). apply list.Forall_app in Hc as [_ Hc].
  apply range_erase_loop_spec; try done. rewrite length_app. lia.
Qed.
End range_map.
Arguments entry : clear implicits.
Arguments range_map : clear implicits.
End range_map.
