(* ===== verification/Coding.v ===== *)
(** Encodings of bytes: [libvast/include/vast/detail/coding.hpp] (hexadecimal),
    [libvast/include/vast/detail/base64.hpp] with [libvast/src/detail/base64.cpp], and
    [libvast/include/vast/detail/varbyte.hpp].

    A byte is a number below 256 and a buffer a list of bytes; a [char] is its byte. *)

From Stdlib Require Import Ascii String.
From S2P Require Import Prelude.

Definition is_byte (x : N) : Prop := x < 256.
Definition byte_of (x : N) : N := x mod 256.

(** All bytes. *)
Definition all_bytes : list N := N.of_nat <$> seq 0 256.

(** A test that succeeds on all bytes. *)
Lemma all_bytes_spec (f : N → bool) x : forallb f all_bytes = true → is_byte x → f x = true.
Proof.
  intros Hf Hx. rewrite forallb_forall in Hf. apply Hf, list_elem_of_In. unfold all_bytes. apply list_elem_of_fmap.
  exists (N.to_nat x). split; [by rewrite N2Nat.id|]. apply elem_of_seq. unfold is_byte in Hx. lia.
Qed.

(** The code of a character. *)
Definition code (c : ascii) : N := N_of_ascii c.
Definition codes (s : string) : list N := code <$> list_ascii_of_string s.

Module hex.

Inductive policy := uppercase | lowercase.

Definition byte_to_char (b : N) : N := byte_of (if (b <? 10) || (128 <=? b) then 48 + b else 97 + b - 10).

Definition alphabet (p : policy) : list N :=
  match p with
  | uppercase => codes "0123456789ABCDEF"%string
  | lowercase => codes "0123456789abcdef"%string
  end.
Definition byte_to_hex_with (xs : list N) (x : N) : N * N :=
  let hi := N.land (N.shiftr x 4) 15 in
  let lo := N.land x 15 in
  (vec_at xs hi, vec_at xs lo).
Definition byte_to_hex (p : policy) (x : N) : N * N := byte_to_hex_with (alphabet p) x.

Definition hexify_append (p : policy) (xs : list N) (result : list N) : list N :=
  foldl (λ result x, let '(hi, lo) := byte_to_hex p x in result ++ [hi] ++ [lo]) result xs.
Definition hexify (p : policy) (xs : list N) : list N := hexify_append p xs [].

Definition nibble (c : N) : N :=
  if (48 <=? c) && (c <=? 57) then c - 48
  else if (65 <=? c) && (c <=? 70) then c - 65 + 10
  else if (97 <=? c) && (c <=? 102) then c - 97 + 10
  else 0.
Definition hex_to_byte (hi lo : N) : N := byte_of (N.lor (N.shiftl (nibble hi) 4) (nibble lo)).

Definition isxdigit (c : N) : bool := ((48 <=? c) && (c <=? 57)) || ((65 <=? c) && (c <=? 70)) || ((97 <=? c) && (c <=? 102)).

(** Reads the digits of [hexify]. *)
Fixpoint unhexify (s : list N) : list N :=
  match s with
  | hi :: lo :: s => hex_to_byte hi lo :: unhexify s
  | _ => []
  end.

Lemma byte_to_hex_spec p x : is_byte x →
  let '(hi, lo) := byte_to_hex p x in isxdigit hi = true ∧ isxdigit lo = true ∧ hex_to_byte hi lo = x ∧ is_byte hi ∧ is_byte lo.
Proof.
  intros Hx. pose proof (all_bytes_spec (λ x, let '(hi, lo) := byte_to_hex p x in
    isxdigit hi && isxdigit lo && (hex_to_byte hi lo =? x) && (hi <? 256) && (lo <? 256)) x) as Ha.
  specialize (Ha ltac:(by destruct p; vm_compute) Hx). cbv beta in Ha. destruct (byte_to_hex p x) as [hi lo].
  rewrite !andb_true_iff, N.eqb_eq, !N.ltb_lt in Ha. tauto.
Qed.

Lemma hexify_append_app p xs r : hexify_append p xs r = r ++ hexify p xs.
Proof.
  unfold hexify, hexify_append. revert r. induction xs as [|x xs IH]; intros r; cbn [foldl]; [by rewrite app_nil_r|].
  destruct (byte_to_hex p x) as [hi lo]. rewrite (IH (r ++ _)), (IH ([] ++ _)). by rewrite <- !app_assoc.
Qed.

Lemma unhexify_hexify p xs : Forall is_byte xs → unhexify (hexify p xs) = xs ∧ lenN (hexify p xs) = 2 * lenN xs.
Proof.
  induction 1 as [|x xs Hx _ [IH Hl]]; [done|]. unfold hexify, hexify_append. cbn [foldl].
  pose proof (byte_to_hex_spec p x Hx) as Hh. destruct (byte_to_hex p x) as [hi lo]. destruct Hh as (_ & _ & Hh & _).
  fold (hexify_append p xs ([] ++ [hi] ++ [lo])). rewrite hexify_append_app. cbn [app unhexify]. rewrite Hh, IH. split; [done|].
  autorewrite with lendb. lia.
Qed.
End hex.

Module base64.

Definition alphabet : list N := codes "ABCDEFGHIJKLMNOPQRSTUVWXYZabcdefghijklmnopqrstuvwxyz0123456789+/"%string.
Definition padding : N := code "="%char.

(** [inverse]: the position of a character in the alphabet; [None] is -1. *)
Definition inverse (c : N) : option N :=
  if c =? 43 then Some 62
  else if c =? 47 then Some 63
  else if (48 <=? c) && (c <=? 57) then Some (c - 48 + 52)
  else if (65 <=? c) && (c <=? 90) then Some (c - 65)
  else if (97 <=? c) && (c <=? 122) then Some (c - 97 + 26)
  else None.

Definition encoded_size (n : N) : N := 4 * ((n + 2) / 3).
Definition decoded_size (n : N) : N := n / 4 * 3.

Definition char_at (x : N) : N := vec_at alphabet x.

(** The six bits of each of the characters for three bytes. *)
Definition sextet0 (x : N) : N := N.shiftr (N.land x 0xfc) 2.
Definition sextet1 (x y : N) : N := N.shiftl (N.land x 0x03) 4 + N.shiftr (N.land y 0xf0) 4.
Definition sextet2 (y z : N) : N := N.shiftr (N.land z 0xc0) 6 + N.shiftl (N.land y 0x0f) 2.
Definition sextet3 (z : N) : N := N.land z 0x3f.

(** The loop over three bytes at a time, and the rest. *)
Fixpoint encode (s : list N) : list N :=
  match s with
  | x :: y :: z :: s => char_at (sextet0 x) :: char_at (sextet1 x y) :: char_at (sextet2 y z) :: char_at (sextet3 z) :: encode s
  | [x; y] => [char_at (sextet0 x); char_at (sextet1 x y); char_at (N.shiftl (N.land y 0x0f) 2); padding]
  | [x] => [char_at (sextet0 x); char_at (N.shiftl (N.land x 0x03) 4); padding; padding]
  | [] => []
  end.

(** The array [c4], and the bytes that it encodes. *)
Definition c4 : Type := N * N * N * N.
Definition c4_set (c : c4) (i v : N) : c4 :=
  let '(a0, a1, a2, a3) := c in
  match i with 0 => (v, a1, a2, a3) | 1 => (a0, v, a2, a3) | 2 => (a0, a1, v, a3) | _ => (a0, a1, a2, v) end.
Definition c3 (c : c4) : list N :=
  let '(a0, a1, a2, a3) := c in
  [byte_of (N.shiftl a0 2 + N.shiftr (N.land a1 0x30) 4);
   byte_of (N.shiftl (N.land a1 0xf) 4 + N.shiftr (N.land a2 0x3c) 2);
   byte_of (N.shiftl (N.land a2 0x3) 6 + a3)].

(** The loop of [decode]: it returns the bytes written and the number of characters read. *)
Fixpoint decode_loop (c : c4) (i : N) (s : list N) (out : list N) (read : N) : list N * N :=
  let finish := (out ++ (if i =? 0 then [] else take (N.to_nat (i - 1)) (c3 c)), read) in
  match s with
  | [] => finish
  | x :: s =>
      if x =? padding then finish
      else
        match inverse x with
        | None => finish
        | Some v =>
            let c := c4_set c i v in
            if i + 1 =? 4 then decode_loop c 0 s (out ++ c3 c) (read + 1)
            else decode_loop c (i + 1) s out (read + 1)
        end
  end.

(** [c] is what the array holds before. *)
Definition decode_bytes (c : c4) (s : list N) : list N * N := decode_loop c 0 s [] 0.
(** [decode] of a string writes to a buffer of [decoded_size] bytes; [None] is a write beyond it. *)
Definition decode (c : c4) (s : list N) : option (list N) :=
  let r := decode_bytes c s in
  if lenN r.1 <=? decoded_size (lenN s) then Some r.1 else None.

(** *** Six bits *)

Lemma shiftr_mask x m k j : N.shiftr m k = N.ones j → N.shiftr (N.land x m) k = x / 2 ^ k mod 2 ^ j.
Proof. intros Hm. by rewrite N.shiftr_land, Hm, N.land_ones, N.shiftr_div_pow2. Qed.
Lemma shiftl_mask x k j : N.shiftl (N.land x (N.ones j)) k = x mod 2 ^ j * 2 ^ k.
Proof. by rewrite N.land_ones, N.shiftl_mul_pow2. Qed.

Lemma sextet0_eq x : sextet0 x = x / 4 mod 64.
Proof. by apply (shiftr_mask x 0xfc 2 6). Qed.
Lemma sextet1_eq x y : sextet1 x y = x mod 4 * 16 + y / 16 mod 16.
Proof. unfold sextet1. by rewrite (shiftl_mask x 4 2 : N.shiftl (N.land x 3) 4 = _), (shiftr_mask y 0xf0 4 4). Qed.
Lemma sextet2_eq y z : sextet2 y z = z / 64 mod 4 + y mod 16 * 4.
Proof. unfold sextet2. by rewrite (shiftl_mask y 2 4 : N.shiftl (N.land y 15) 2 = _), (shiftr_mask z 0xc0 6 2). Qed.
Lemma sextet3_eq z : sextet3 z = z mod 64.
Proof. exact (N.land_ones z 6). Qed.

Lemma c3_eq a0 a1 a2 a3 :
  c3 (a0, a1, a2, a3) = [byte_of (a0 * 4 + a1 / 16 mod 4); byte_of (a1 mod 16 * 16 + a2 / 4 mod 16); byte_of (a2 mod 4 * 64 + a3)].
Proof.
  unfold c3. rewrite (shiftr_mask a1 0x30 4 2), (shiftr_mask a2 0x3c 2 4), N.shiftl_mul_pow2 by done.
  by rewrite (shiftl_mask a1 4 4 : N.shiftl (N.land a1 15) 4 = _), (shiftl_mask a2 6 2 : N.shiftl (N.land a2 3) 6 = _).
Qed.

#[local] Ltac Zify.zify_post_hook ::= Z.to_euclidean_division_equations.

Lemma sextet_bounds x y : sextet0 x < 64 ∧ sextet1 x y < 64 ∧ sextet2 x y < 64 ∧ sextet3 y < 64.
Proof. rewrite sextet0_eq, sextet1_eq, sextet2_eq, sextet3_eq. lia. Qed.

(** The first byte, the first two bytes, and all three, whatever the other entries are. *)
Lemma c3_take1 x y a2 a3 : is_byte x → take 1 (c3 (sextet0 x, sextet1 x y, a2, a3)) = [x].
Proof. unfold is_byte. intros Hx. rewrite c3_eq, sextet0_eq, sextet1_eq. cbn. unfold byte_of. f_equal. lia. Qed.
Lemma c3_take2 x y z a3 : is_byte x → is_byte y → take 2 (c3 (sextet0 x, sextet1 x y, sextet2 y z, a3)) = [x; y].
Proof. unfold is_byte. intros Hx Hy. rewrite c3_eq, sextet0_eq, sextet1_eq, sextet2_eq. cbn. unfold byte_of. f_equal; [lia|f_equal; lia]. Qed.
Lemma c3_sextets x y z : is_byte x → is_byte y → is_byte z → c3 (sextet0 x, sextet1 x y, sextet2 y z, sextet3 z) = [x; y; z].
Proof.
  unfold is_byte. intros Hx Hy Hz. rewrite c3_eq, sextet0_eq, sextet1_eq, sextet2_eq, sextet3_eq. unfold byte_of.
  f_equal; [lia|f_equal; [lia|f_equal; lia]].
Qed.

Lemma inverse_char_at v : v < 64 → inverse (char_at v) = Some v ∧ char_at v ≠ padding.
Proof.
  intros Hv. pose proof (all_bytes_spec (λ v, implb (v <? 64) (bool_decide (inverse (char_at v) = Some v) && negb (char_at v =? padding))) v) as Ha.
  specialize (Ha ltac:(by vm_compute) ltac:(unfold is_byte; lia)). cbv beta in Ha. apply N.ltb_lt in Hv. rewrite Hv in Ha. cbn [implb] in Ha.
  apply andb_true_iff in Ha as [?%bool_decide_eq_true ?%negb_true_iff%N.eqb_neq]. done.
Qed.

(** *** Reading a character *)

Lemma decode_char c i v s out read : v < 64 →
  decode_loop c i (char_at v :: s) out read =
    let c := c4_set c i v in
    if i + 1 =? 4 then decode_loop c 0 s (out ++ c3 c) (read + 1) else decode_loop c (i + 1) s out (read + 1).
Proof. intros Hv. destruct (inverse_char_at v Hv) as [E Hp]. cbn [decode_loop]. apply N.eqb_neq in Hp. by rewrite Hp, E. Qed.
Lemma decode_char0 a0 a1 a2 a3 v s out read : v < 64 →
  decode_loop (a0, a1, a2, a3) 0 (char_at v :: s) out read = decode_loop (v, a1, a2, a3) 1 s out (read + 1).
Proof. intros Hv. by rewrite decode_char. Qed.
Lemma decode_char1 a0 a1 a2 a3 v s out read : v < 64 →
  decode_loop (a0, a1, a2, a3) 1 (char_at v :: s) out read = decode_loop (a0, v, a2, a3) 2 s out (read + 1).
Proof. intros Hv. by rewrite decode_char. Qed.
Lemma decode_char2 a0 a1 a2 a3 v s out read : v < 64 →
  decode_loop (a0, a1, a2, a3) 2 (char_at v :: s) out read = decode_loop (a0, a1, v, a3) 3 s out (read + 1).
Proof. intros Hv. by rewrite decode_char. Qed.
Lemma decode_char3 a0 a1 a2 a3 v s out read : v < 64 →
  decode_loop (a0, a1, a2, a3) 3 (char_at v :: s) out read = decode_loop (a0, a1, a2, v) 0 s (out ++ c3 (a0, a1, a2, v)) (read + 1).
Proof. intros Hv. by rewrite decode_char. Qed.
Lemma decode_padding c i s out read :
  decode_loop c i (padding :: s) out read = (out ++ (if i =? 0 then [] else take (N.to_nat (i - 1)) (c3 c)), read).
Proof. done. Qed.

(** *** Round trip *)

Lemma sextet1_0 x : N.shiftl (N.land x 3) 4 = sextet1 x 0.
Proof. unfold sextet1. cbn -[N.shiftl N.land]. by rewrite N.add_0_r. Qed.
Lemma sextet2_0 y : N.shiftl (N.land y 15) 2 = sextet2 y 0.
Proof. done. Qed.

Lemma decode_encode k s c out read : (List.length s <= k)%nat → Forall is_byte s → ∃ n, decode_loop c 0 (encode s) out read = (out ++ s, n).
Proof.
  revert s c out read. induction k as [|k IH]; intros s [[[a0 a1] a2] a3] out read Hk Hs.
  { destruct s; [|cbn in Hk; lia]. exists read. cbn. by rewrite app_nil_r. }
  destruct s as [|x [|y [|z s]]]; cbn [encode]; rewrite ?sextet1_0, ?sextet2_0.
  - exists read. cbn. by rewrite app_nil_r.
  - apply list.Forall_cons in Hs as [Hx _]. pose proof (sextet_bounds x 0) as (S0 & S1 & _).
    rewrite decode_char0, decode_char1, decode_padding by done. exists (read + 1 + 1). change (2 =? 0) with false. cbn [N.to_nat].
    change (N.to_nat (2 - 1)) with 1%nat. by rewrite c3_take1.
  - apply list.Forall_cons in Hs as [Hx [Hy _]%list.Forall_cons]. pose proof (sextet_bounds x y) as (S0 & S1 & _). pose proof (sextet_bounds y 0) as (_ & _ & S2 & _).
    rewrite decode_char0, decode_char1, decode_char2, decode_padding by done. exists (read + 1 + 1 + 1). change (3 =? 0) with false.
    change (N.to_nat (3 - 1)) with 2%nat. by rewrite c3_take2.
  - apply list.Forall_cons in Hs as [Hx [Hy [Hz Hs]%list.Forall_cons]%list.Forall_cons].
    pose proof (sextet_bounds x y) as (S0 & S1 & _). pose proof (sextet_bounds y z) as (_ & _ & S2 & S3).
    rewrite decode_char0, decode_char1, decode_char2, decode_char3, c3_sextets by done.
    destruct (IH s (sextet0 x, sextet1 x y, sextet2 y z, sextet3 z) (out ++ [x; y; z]) (read + 1 + 1 + 1 + 1)) as [n ->]; [cbn in Hk; lia|done|].
    exists n. by rewrite <- app_assoc.
Qed.

Lemma lenN_encode k s : (List.length s <= k)%nat → lenN (encode s) = encoded_size (lenN s).
Proof.
  revert s. induction k as [|k IH]; intros s Hk; [destruct s; [done|cbn in Hk; lia]|].
  destruct s as [|x [|y [|z s]]]; try done. cbn [encode]. autorewrite with lendb. rewrite IH by (cbn in Hk; lia).
  unfold encoded_size. lia.
Qed.

Lemma decode_string s c : Forall is_byte s → decode c (encode s) = Some s.
Proof.
  intros Hs. unfold decode, decode_bytes. destruct (decode_encode _ s c [] 0 (Nat.le_refl _) Hs) as [n ->]. cbn [fst app].
  rewrite (lenN_encode _ s (Nat.le_refl _)). assert ((lenN s <=? decoded_size (encoded_size (lenN s))) = true) as ->; [|done].
  apply N.leb_le. unfold decoded_size, encoded_size. lia.
Qed.

(** *** The size of the output *)

(** What is written for a number of characters. *)
Definition written (n : N) : N := n / 4 * 3 + (n mod 4 - 1).

Lemma decode_written c i s out read : i < 4 → lenN (decode_loop c i s out read).1 <= lenN out + written (i + lenN s).
Proof.
  assert (∀ c i out read, i < 4 → ∀ n, lenN (out ++ (if i =? 0 then [] else take (N.to_nat (i - 1)) (c3 c)), read : N).1 <= lenN out + written (i + n)) as Hfin.
  { intros c' i' out' read' Hi n. cbn [fst]. autorewrite with lendb. apply N.add_le_mono_l. unfold written. destruct (N.eqb_spec i' 0); [apply N.le_0_l|].
    unfold lenN. rewrite length_take. lia. }
  revert c i out read. induction s as [|x s IH]; intros c i out read Hi; cbn [decode_loop]; [by apply (Hfin c i out read Hi 0)|].
  destruct (x =? padding); [by apply (Hfin c i out read Hi)|]. destruct (inverse x) as [v|]; [|by apply (Hfin c i out read Hi)].
  autorewrite with lendb. destruct (N.eqb_spec (i + 1) 4) as [E|E].
  - etrans; [apply IH; lia|]. autorewrite with lendb. destruct (c4_set c i v) as [[[b0 b1] b2] b3]. rewrite c3_eq. unfold written.
    change (lenN [_; _; _]) with 3. lia.
  - etrans; [apply IH; lia|]. unfold written. lia.
Qed.

Lemma decode_fits s c : lenN s mod 4 = 0 → decode c s = Some (decode_bytes c s).1.
Proof.
  intros Hs. unfold decode. assert ((lenN (decode_bytes c s).1 <=? decoded_size (lenN s)) = true) as ->; [|done].
  apply N.leb_le. etrans; [by apply decode_written|]. unfold written, decoded_size. rewrite lenN_nil, N.add_0_l. lia.
Qed.
End base64.

Module varbyte.

(** [T] is the unsigned type of [w] bits. *)
Section varbyte.
Context (w : N).

Definition size (x : N) : N :=
  let ge n := 2 ^ n <=? x in
  if w =? 64 then
    if ge 63 then 10 else if ge 56 then 9 else if ge 49 then 8 else if ge 42 then 7 else if ge 35 then 6
    else if ge 28 then 5 else if ge 21 then 4 else if ge 14 then 3 else if ge 7 then 2 else 1
  else if w =? 32 then
    if ge 28 then 5 else if ge 21 then 4 else if ge 14 then 3 else if ge 7 then 2 else 1
  else if w =? 16 then
    if ge 14 then 3 else if ge 7 then 2 else 1
  else if ge 7 then 2 else 1.

Definition max_size : N := if w mod 7 =? 0 then w / 7 else w / 7 + 1.

(** The loop of [encode] takes at most [max_size] rounds. *)
Fixpoint encode_loop (fuel : nat) (x : N) : list N :=
  match fuel with
  | O => []
  | S fuel =>
      if 0x7f <? x then N.lor (N.land (byte_of x) 0x7f) 0x80 :: encode_loop fuel (N.shiftr x 7)
      else [N.land (byte_of x) 0x7f]
  end.
Definition encode (x : N) : list N := encode_loop (N.to_nat max_size) x.

(** The loop of [decode]; [None] reads beyond the buffer. *)
Fixpoint decode_loop (i x : N) (source : list N) : option (N * N) :=
  match source with
  | [] => None
  | low7 :: source =>
      let x := N.lor x (N.shiftl (N.land low7 0x7f) (7 * i) mod 2 ^ w) in
      if N.land low7 0x80 =? 0 then Some (x, i + 1) else decode_loop (i + 1) x source
  end.
(** The value and the number of bytes read. *)
Definition decode (source : list N) : option (N * N) := decode_loop 0 0 source.

(** *** Round trip *)

#[local] Ltac Zify.zify_post_hook ::= Z.to_euclidean_division_equations.

Lemma land_0x7f x : N.land x 0x7f = x mod 128.
Proof. exact (N.land_ones x 7). Qed.

Lemma low_bits x : N.land (byte_of x) 0x7f = x mod 128.
Proof. rewrite land_0x7f. unfold byte_of. lia. Qed.

Lemma more_byte x : N.land (N.lor (N.land (byte_of x) 0x7f) 0x80) 0x7f = x mod 128 ∧
  N.land (N.lor (N.land (byte_of x) 0x7f) 0x80) 0x80 = 0x80.
Proof.
  rewrite low_bits. split.
  - rewrite N.land_lor_distr_l. change (N.land 128 127) with 0. rewrite N.lor_0_r, land_0x7f. lia.
  - apply N.bits_inj. intros k. rewrite N.land_spec, N.lor_spec. change 128 with (2 ^ 7). rewrite N.pow2_bits_eqb.
    destruct (7 =? k); [by rewrite orb_true_r|by rewrite andb_false_r].
Qed.

Lemma last_byte x : x <= 0x7f → N.land (N.land (byte_of x) 0x7f) 0x7f = x ∧ N.land (N.land (byte_of x) 0x7f) 0x80 = 0.
Proof.
  intros Hx. split; [rewrite low_bits, land_0x7f; lia|]. rewrite <- N.land_assoc. change (N.land 127 128) with 0. apply N.land_0_r.
Qed.

(** The low seven bits next to the others. *)
Lemma lor_split x i : N.lor (N.shiftl (x mod 128) (7 * i)) (N.shiftl (N.shiftr x 7) (7 * (i + 1))) = N.shiftl x (7 * i).
Proof.
  apply N.bits_inj. intros k. rewrite N.lor_spec. change 128 with (2 ^ 7).
  destruct (N.ltb_spec k (7 * i)) as [?|Hk]; [by rewrite !N.shiftl_spec_low by lia|]. rewrite !(N.shiftl_spec_high' _ (7 * i)) by lia.
  destruct (N.ltb_spec (k - 7 * i) 7).
  - rewrite N.mod_pow2_bits_low, N.shiftl_spec_low by lia. by rewrite orb_false_r.
  - rewrite N.mod_pow2_bits_high, N.shiftl_spec_high', N.shiftr_spec' by lia. cbn [orb]. f_equal. lia.
Qed.

Lemma decode_loop_encode fuel x i acc rest : x < 2 ^ (7 * N.of_nat fuel) → (0 < fuel)%nat → N.shiftl x (7 * i) < 2 ^ w →
  decode_loop i acc (encode_loop fuel x ++ rest) = Some (N.lor acc (N.shiftl x (7 * i)), i + lenN (encode_loop fuel x)).
Proof.
  revert x i acc. induction fuel as [|fuel IH]; intros x i acc Hx Hf Hw; [lia|]. cbn [encode_loop].
  destruct (N.ltb_spec 0x7f x) as [Hlt|Hge]; cbn [app decode_loop].
  - destruct (more_byte x) as [-> ->]. change (128 =? 0) with false. cbv iota.
    assert (N.shiftl (x mod 128) (7 * i) < 2 ^ w) as Hlow.
    { eapply N.le_lt_trans; [|exact Hw]. rewrite !N.shiftl_mul_pow2. apply N.mul_le_mono_r. lia. }
    assert (N.shiftl (N.shiftr x 7) (7 * (i + 1)) < 2 ^ w) as Hhigh.
    { eapply N.le_lt_trans; [|exact Hw]. rewrite !N.shiftl_mul_pow2, N.shiftr_div_pow2. rewrite N.mul_add_distr_l, N.pow_add_r.
      change (7 * 1) with 7. change (2 ^ 7) with 128. lia. }
    assert (N.shiftr x 7 < 2 ^ (7 * N.of_nat fuel)) as Hx'.
    { rewrite N.shiftr_div_pow2. apply N.Div0.div_lt_upper_bound. rewrite <- N.pow_add_r. eapply N.lt_le_trans; [exact Hx|]. apply N.pow_le_mono_r; lia. }
    assert (0 < fuel)%nat as Hf' by (destruct fuel; [change (2 ^ (7 * N.of_nat 1)) with 128 in Hx; lia|lia]).
    rewrite IH by done. rewrite (N.mod_small _ _ Hlow), <- N.lor_assoc, lor_split. f_equal. f_equal. autorewrite with lendb. lia.
  - destruct (last_byte x Hge) as [-> ->]. cbn [N.eqb]. by rewrite (N.mod_small _ _ Hw).
Qed.

Lemma max_size_bound : 2 ^ w <= 2 ^ (7 * max_size).
Proof. apply N.pow_le_mono_r; [done|]. unfold max_size. destruct (N.eqb_spec (w mod 7) 0); lia. Qed.

Lemma varbyte_decode_encode x rest : 0 < w → x < 2 ^ w → decode (encode x ++ rest) = Some (x, lenN (encode x)).
Proof.
  intros Hw Hx. unfold decode, encode. pose proof max_size_bound as Hm.
  assert (0 < max_size) as Hs by (unfold max_size; destruct (N.eqb_spec (w mod 7) 0); lia).
  rewrite decode_loop_encode; [|rewrite N2Nat.id; lia|lia|by rewrite N.mul_0_r, N.shiftl_0_r].
  by rewrite N.mul_0_r, N.shiftl_0_r, N.lor_0_l.
Qed.

(** *** Size *)

Lemma encode_loop_length fuel x : x < 2 ^ (7 * N.of_nat fuel) → (0 < fuel)%nat →
  let n := lenN (encode_loop fuel x) in 1 <= n <= N.of_nat fuel ∧ x < 2 ^ (7 * n) ∧ (1 < n → 2 ^ (7 * (n - 1)) <= x).
Proof.
  revert x. induction fuel as [|fuel IH]; intros x Hx Hf; [lia|]. cbn [encode_loop]. destruct (N.ltb_spec 0x7f x) as [Hlt|Hge]; cbv zeta; autorewrite with lendb.
  - assert (0 < fuel)%nat as Hf' by (destruct fuel; [change (2 ^ (7 * N.of_nat 1)) with 128 in Hx; lia|lia]).
    assert (N.shiftr x 7 < 2 ^ (7 * N.of_nat fuel)) as Hx'.
    { rewrite N.shiftr_div_pow2. apply N.Div0.div_lt_upper_bound. rewrite <- N.pow_add_r. eapply N.lt_le_trans; [exact Hx|]. apply N.pow_le_mono_r; lia. }
    destruct (IH (N.shiftr x 7) Hx' Hf') as (Hn & Hu & Hl). set (n := lenN (encode_loop fuel (N.shiftr x 7))) in *.
    rewrite N.shiftr_div_pow2 in Hu, Hl. change (2 ^ 7) with 128 in Hu, Hl. split_and!; [lia|lia| |].
    + replace (7 * (1 + n)) with (7 + 7 * n) by lia. rewrite N.pow_add_r. change (2 ^ 7) with 128. lia.
    + intros _. replace (1 + n - 1) with n by lia. destruct (N.eqb_spec n 1) as [->|]; [change (2 ^ (7 * 1)) with 128; lia|].
      specialize (Hl ltac:(lia)). replace (7 * n) with (7 + 7 * (n - 1)) by lia. rewrite N.pow_add_r. change (2 ^ 7) with 128. lia.
  - change (lenN [N.land (byte_of x) 127]) with 1. split_and!; [lia|lia|change (2 ^ (7 * 1)) with 128; lia|lia].
Qed.

Lemma threshold n x : 1 <= n → x < 2 ^ (7 * n) → (1 < n → 2 ^ (7 * (n - 1)) <= x) → ∀ k, 0 < k → (2 ^ (7 * k) <=? x) = (k <? n).
Proof.
  intros Hn Hu Hl k Hk. apply eq_true_iff_eq. rewrite N.leb_le, N.ltb_lt. split; intros H.
  - destruct (N.lt_ge_cases k n) as [|Hge]; [done|].
    assert (2 ^ (7 * n) <= 2 ^ (7 * k)) by (apply N.pow_le_mono_r; lia). lia.
  - etrans; [|apply Hl; lia]. apply N.pow_le_mono_r; lia.
Qed.

Lemma encode_length x : w ∈ [8; 16; 32; 64] → x < 2 ^ w → lenN (encode x) = size x ∧ size x <= max_size.
Proof.
  intros Hw Hx. pose proof max_size_bound as Hm.
  assert (0 < max_size ∧ (w = 64 ∧ max_size = 10 ∨ w = 32 ∧ max_size = 5 ∨ w = 16 ∧ max_size = 3 ∨ w = 8 ∧ max_size = 2)) as [Hs Hcase].
  { unfold max_size. rewrite !elem_of_cons, elem_of_nil in Hw. destruct Hw as [->|[->|[->|[->|[]]]]]; (split; [done|tauto]). }
  destruct (encode_loop_length (N.to_nat max_size) x) as (Hn & Hu & Hl); [rewrite N2Nat.id; lia|lia|]. rewrite N2Nat.id in Hn.
  fold (encode x) in Hn, Hu, Hl. generalize dependent (lenN (encode x)). intros n Hn Hu Hl.
  pose proof (threshold n x (proj1 Hn) Hu Hl) as Ht. clear Hm Hx Hw Hu Hl.
  assert (n = size x) as <-; [|lia]. unfold size.
  change 63 with (7 * 9). change 56 with (7 * 8). change 49 with (7 * 7). change 42 with (7 * 6). change 35 with (7 * 5).
  change 28 with (7 * 4). change 21 with (7 * 3). change 14 with (7 * 2). change (2 ^ 7) with (2 ^ (7 * 1)). rewrite !Ht by done.
  destruct Hcase as [[-> E]|[[-> E]|[[-> E]|[-> E]]]]; cbn [N.eqb Pos.eqb];
    repeat match goal with |- context [?k <? n] => destruct (N.ltb_spec k n); [lia|] end; lia.
Qed.
End varbyte.
End varbyte.
