(* ===== verification/Strings.v ===== *)
(** Strings: [libvast/include/vast/detail/string.hpp] with [libvast/src/detail/string.cpp], and
    [libvast/include/vast/detail/escapers.hpp].

    A string is the list of its bytes; the character classes are those of the C locale. *)

From Stdlib Require Import Ascii String.
From S2P Require Import Prelude Coding.

Definition isprint (c : N) : bool := (32 <=? c) && (c <=? 126).
Definition iscntrl (c : N) : bool := (c <? 32) || (c =? 127).
Definition isalnum (c : N) : bool :=
  ((48 <=? c) && (c <=? 57)) || ((65 <=? c) && (c <=? 90)) || ((97 <=? c) && (c <=? 122)).
(** [std::string_view::find] of a character. *)
Definition contains (c : N) (s : list N) : bool := existsb (N.eqb c) s.

Definition backslash : N := 92.
Definition quote : N := 34.
Definition percent : N := code "%"%char.

(** ** Escapers *)

(** Every call of an escaper takes one character; what it writes. *)
Definition hex_escaper (c : N) : list N :=
  let '(hi, lo) := hex.byte_to_hex hex.uppercase c in [backslash; code "x"%char; hi; lo].
Definition print_escaper (c : N) : list N := if isprint c then [c] else hex_escaper c.
Definition json_print_escaper (c : N) : list N :=
  if negb (iscntrl c) then [c]
  else let '(hi, lo) := hex.byte_to_hex hex.uppercase c in [backslash; code "u"%char; code "0"%char; code "0"%char; hi; lo].
Definition json_escaper (c : N) : list N :=
  match c with
  | 34 | 92 => [backslash; c]
  | 8 => [backslash; code "b"%char]
  | 12 => [backslash; code "f"%char]
  | 13 => [backslash; code "r"%char]
  | 10 => [backslash; code "n"%char]
  | 9 => [backslash; code "t"%char]
  | _ => json_print_escaper c
  end.
Definition is_unreserved (c : N) : bool :=
  isalnum c || (c =? code "-"%char) || (c =? code "_"%char) || (c =? code "."%char) || (c =? code "~"%char).
Definition percent_escaper (c : N) : list N :=
  if is_unreserved c then [c] else let '(hi, lo) := hex.byte_to_hex hex.uppercase c in [percent; hi; lo].
Definition make_extra_print_escaper (extra : list N) (c : N) : list N :=
  if contains c extra then [backslash; c] else print_escaper c.
Definition make_double_escaper (esc : list N) (c : N) : list N := if contains c esc then [c; c] else [c].

(** The loop over a string. *)
Definition escape (str : list N) (escaper : N → list N) : list N := foldl (λ result c, result ++ escaper c) [] str.

(** ** Unescapers *)

(** What a call does with the rest of a string: it writes characters and continues, fails, or
    moves beyond the end. *)
Inductive unescaped :=
| wrote (out rest : list N)
| invalid
| overrun.

Definition hex_unescaper (f : list N) : unescaped :=
  match f with
  | [] => overrun
  | [_] => invalid
  | hi :: lo :: f => if negb (hex.isxdigit hi) || negb (hex.isxdigit lo) then invalid else wrote [hex.hex_to_byte hi lo] f
  end.

Definition byte_unescaper (f : list N) : unescaped :=
  match f with
  | [] => overrun
  | c :: f' =>
      if negb (c =? backslash) then wrote [c] f'
      else if lenN f <? 4 then invalid
      else
        match f' with
        | [] => overrun
        | c :: f' => if negb (c =? code "x"%char) then wrote [c] f' else hex_unescaper f'
        end
  end.

(** In [json_unescape], the character behind the end is a quote, which the check of the length of
    an escape sequence lets through. *)
Definition json_unescaper (f : list N) : unescaped :=
  match f with
  | [] => overrun
  | c :: f' =>
      if c =? quote then invalid
      else if negb (c =? backslash) then wrote [c] f'
      else
        match f' with
        | [] => invalid
        | c :: rest =>
            match c with
            | 92 | 34 | 47 => wrote [c] rest
            | 98 => wrote [8] rest
            | 102 => wrote [12] rest
            | 114 => wrote [13] rest
            | 110 => wrote [10] rest
            | 116 => wrote [9] rest
            | 117 =>
                if lenN f' <? 4 then invalid
                else
                  match rest with
                  | b0 :: b1 :: b2 :: b3 :: rest =>
                      if negb (b0 =? code "0"%char) || negb (b1 =? code "0"%char)
                      then wrote [backslash; code "u"%char; b0; b1; b2; b3] rest
                      else if negb (hex.isxdigit b2) || negb (hex.isxdigit b3) then invalid
                      else wrote [hex.hex_to_byte b2 b3] rest
                  | b0 :: b1 :: _ =>
                      if negb (b0 =? code "0"%char) || negb (b1 =? code "0"%char) then overrun else invalid
                  | _ => overrun
                  end
            | _ => invalid
            end
        end
  end.

Definition percent_unescaper (f : list N) : unescaped :=
  match f with
  | [] => overrun
  | c :: f' => if negb (c =? percent) then wrote [c] f' else if lenN f <? 3 then invalid else hex_unescaper f'
  end.

Definition make_double_unescaper (esc : list N) (f : list N) : unescaped :=
  match f with
  | [] => overrun
  | [x] => wrote [x] []
  | x :: y :: f => wrote (x :: (if (x =? y) && negb (contains x esc) then [y] else [])) f
  end.

(** The loop over a string; every round takes a character. A failure gives the empty string, and
    [None] is a read beyond the end. *)
Fixpoint unescape_loop (fuel : nat) (unescaper : list N → unescaped) (f result : list N) : option (list N) :=
  match fuel, f with
  | _, [] => Some result
  | O, _ => None
  | S fuel, _ =>
      match unescaper f with
      | wrote out f => unescape_loop fuel unescaper f (result ++ out)
      | invalid => Some []
      | overrun => None
      end
  end.
Definition unescape (str : list N) (unescaper : list N → unescaped) : option (list N) :=
  unescape_loop (List.length str) unescaper str [].

(** ** Functions on strings *)

Definition byte_escape (str : list N) : list N := escape str print_escaper.
Definition byte_escape_extra (str extra : list N) : list N := escape str (make_extra_print_escaper extra).
Definition byte_escape_all (str : list N) : list N := escape str hex_escaper.
Definition byte_unescape (str : list N) : option (list N) := unescape str byte_unescaper.
Definition json_escape (str : list N) : list N :=
  match str with
  | [] => [quote; quote]
  | _ => [quote] ++ escape str json_escaper ++ [quote]
  end.
Definition json_unescape (str : list N) : option (list N) :=
  if lenN str <? 2 then Some []
  else if negb ((vec_at str 0 =? quote) && (vec_at str (lenN str - 1) =? quote)) then Some []
  else unescape (take (N.to_nat (lenN str - 2)) (drop 1 str)) json_unescaper.
Definition percent_escape (str : list N) : list N := escape str percent_escaper.
Definition percent_unescape (str : list N) : option (list N) := unescape str percent_unescaper.
Definition double_escape (str esc : list N) : list N := escape str (make_double_escaper esc).
Definition double_unescape (str esc : list N) : option (list N) := unescape str (make_double_unescaper esc).

(** *** Escaping and back *)

Lemma escape_concat str e : escape str e = concat (e <$> str).
Proof.
  unfold escape. assert (∀ acc, foldl (λ result c, result ++ e c) acc str = acc ++ concat (e <$> str)) as Hacc; [|by rewrite Hacc].
  induction str as [|c str IH]; intros acc; cbn; [by rewrite app_nil_r|]. rewrite IH. by rewrite <- app_assoc.
Qed.

(** An unescaper that takes back what an escaper writes for a character. *)
Definition inverts (u : list N → unescaped) (e : N → list N) (c : N) : Prop := e c ≠ [] ∧ ∀ rest, u (e c ++ rest) = wrote [c] rest.

Lemma unescape_loop_inverts u e str fuel acc : Forall (inverts u e) str → (List.length str <= fuel)%nat →
  unescape_loop fuel u (concat (e <$> str)) acc = Some (acc ++ str).
Proof.
  revert fuel acc. induction str as [|c str IH]; intros fuel acc Hs Hf; cbn; [destruct fuel; by rewrite app_nil_r|].
  apply list.Forall_cons in Hs as [[Hne Hc] Hs]. destruct fuel as [|fuel]; [cbn in Hf; lia|].
  destruct (e c ++ concat (e <$> str)) as [|d r] eqn:E; [apply app_eq_nil in E as [? _]; done|]. cbn. rewrite <- E, Hc.
  rewrite IH; [by rewrite <- app_assoc|done|cbn in Hf; lia].
Qed.

Lemma length_escape (e : N → list N) (str : list N) : Forall (λ c, e c ≠ []) str → (List.length str <= List.length (concat (e <$> str)))%nat.
Proof.
  induction 1 as [|c str Hc _ IH]; cbn; [lia|]. rewrite length_app. destruct (e c); [done|]. cbn in *. lia.
Qed.

Lemma unescape_escape u e str : Forall (inverts u e) str → unescape (escape str e) u = Some str.
Proof.
  intros Hs. unfold unescape. rewrite escape_concat. apply unescape_loop_inverts; [done|]. apply length_escape.
  eapply list.Forall_impl; [exact Hs|]. by intros c [? _].
Qed.

Lemma hex_unescaper_hex c rest : is_byte c → let '(hi, lo) := hex.byte_to_hex hex.uppercase c in hex_unescaper (hi :: lo :: rest) = wrote [c] rest.
Proof.
  intros Hc. pose proof (hex.byte_to_hex_spec hex.uppercase c Hc) as Hh. destruct (hex.byte_to_hex hex.uppercase c) as [hi lo].
  destruct Hh as (E1 & E2 & E3 & _). cbn. by rewrite E1, E2, E3.
Qed.

Lemma lenN_ge {A} (n : nat) (l r : list A) : List.length l = n → (lenN (l ++ r) <? N.of_nat n) = false.
Proof. intros Hl. apply N.ltb_ge. unfold lenN. rewrite length_app. lia. Qed.

Lemma hex_inverts c : is_byte c → inverts byte_unescaper hex_escaper c.
Proof.
  intros Hc. pose proof (hex_unescaper_hex c) as Hh. unfold inverts, hex_escaper. destruct (hex.byte_to_hex hex.uppercase c) as [hi lo].
  split; [done|]. intros rest. cbn [app byte_unescaper]. rewrite N.eqb_refl. cbn [negb].
  rewrite (lenN_ge 4 [_; _; _; _] rest eq_refl : (lenN (_ :: _ :: _ :: _ :: rest) <? 4) = false). rewrite N.eqb_refl. cbn [negb]. by apply Hh.
Qed.

Lemma print_inverts c : is_byte c → c ≠ backslash → inverts byte_unescaper print_escaper c.
Proof.
  intros Hc Hb. unfold inverts, print_escaper. destruct (isprint c); [|by apply hex_inverts]. split; [done|]. intros rest. cbn.
  by apply N.eqb_neq in Hb as ->.
Qed.

Lemma percent_inverts c : is_byte c → inverts percent_unescaper percent_escaper c.
Proof.
  intros Hc. pose proof (hex_unescaper_hex c) as Hh. unfold inverts, percent_escaper.
  assert (is_unreserved c = true → c ≠ percent) as Hp by (intros Hu ->; by vm_compute in Hu).
  destruct (is_unreserved c).
  - split; [done|]. intros rest. cbn [app percent_unescaper]. by rewrite (proj2 (N.eqb_neq _ _) (Hp eq_refl)).
  - destruct (hex.byte_to_hex hex.uppercase c) as [hi lo]. split; [done|]. intros rest. cbn [app percent_unescaper]. rewrite N.eqb_refl. cbn [negb].
    rewrite (lenN_ge 3 [_; _; _] rest eq_refl : (lenN (_ :: _ :: _ :: rest) <? 3) = false). by apply Hh.
Qed.

(** The characters with an escape sequence of their own. *)
Definition json_special : list N := [34; 92; 8; 12; 13; 10; 9].

Lemma json_escaper_other c : is_byte c → c ∉ json_special → json_escaper c = json_print_escaper c.
Proof.
  intros Hc Hs. pose proof (all_bytes_spec (λ c, contains c json_special || bool_decide (json_escaper c = json_print_escaper c)) c) as Ha.
  specialize (Ha ltac:(by vm_compute) Hc). apply orb_true_iff in Ha as [Ha|Ha%bool_decide_eq_true]; [|done].
  apply existsb_exists in Ha as (d & Hd & ->%N.eqb_eq). by apply list_elem_of_In in Hd.
Qed.

Lemma json_inverts c : is_byte c → inverts json_unescaper json_escaper c.
Proof.
  intros Hc. destruct (decide (c ∈ json_special)) as [Hs|Hs].
  { unfold json_special in Hs. set_unfold. repeat destruct Hs as [->|Hs]; (done || by split). }
  unfold inverts. rewrite json_escaper_other by done. unfold json_print_escaper. destruct (iscntrl c); cbn [negb].
  - pose proof (hex.byte_to_hex_spec hex.uppercase c Hc) as Hh. destruct (hex.byte_to_hex hex.uppercase c) as [hi lo].
    destruct Hh as (E1 & E2 & E3 & _). split; [done|]. intros rest. cbn [app].
    unfold json_unescaper. cbn [N.eqb Pos.eqb backslash quote negb code].
    change (code "u"%char) with 117. cbv iota. rewrite (lenN_ge 4 [_; _; _; _] (lo :: rest) eq_refl : (lenN (_ :: _ :: _ :: _ :: lo :: rest) <? 4) = false).
    rewrite N.eqb_refl, E1, E2, E3. done.
  - split; [done|]. intros rest. cbn. unfold json_special in Hs. set_unfold.
    assert ((c =? quote) = false) as -> by (apply N.eqb_neq; unfold quote; tauto).
    by assert ((c =? backslash) = false) as -> by (apply N.eqb_neq; unfold backslash; tauto).
Qed.

Lemma json_roundtrip str : Forall is_byte str → json_unescape (json_escape str) = Some str.
Proof.
  intros Hs. unfold json_escape, json_unescape. destruct str as [|c str]; [done|]. set (body := escape (c :: str) json_escaper).
  assert (lenN ([quote] ++ body ++ [quote]) = lenN body + 2) as Hlen by (autorewrite with lendb; lia). rewrite Hlen.
  assert ((lenN body + 2 <? 2) = false) as -> by (apply N.ltb_ge; lia).
  assert (vec_at ([quote] ++ body ++ [quote]) (lenN body + 2 - 1) = quote) as ->.
  { unfold vec_at. replace (N.to_nat (lenN body + 2 - 1)) with (List.length ([quote] ++ body) + 0)%nat by (unfold lenN; cbn; lia).
    rewrite app_assoc, lookup_app_r by lia. by rewrite Nat.add_comm, Nat.add_sub. }
  change (vec_at ([quote] ++ body ++ [quote]) 0) with quote. rewrite N.eqb_refl. cbn [negb andb drop app].
  replace (N.to_nat (lenN body + 2 - 2)) with (List.length body + 0)%nat by (unfold lenN; lia).
  rewrite drop_0, take_app_add, take_0, app_nil_r. apply unescape_escape. eapply list.Forall_impl; [exact Hs|]. apply json_inverts.
Qed.

Lemma json_no_control str : Forall is_byte str → Forall (λ c, iscntrl c = false) (json_escape str).
Proof.
  intros Hs. assert (Forall (λ c, iscntrl c = false) (escape str json_escaper)) as Hb.
  { rewrite escape_concat. apply list.Forall_forall. intros d Hd. apply list_elem_of_In, in_concat in Hd as (l & Hl & Hd).
    apply list_elem_of_In, list_elem_of_fmap in Hl as (c & -> & Hc). rewrite list.Forall_forall in Hs.
    pose proof (all_bytes_spec (λ c, forallb (λ d, negb (iscntrl d)) (json_escaper c)) c ltac:(by vm_compute) (Hs c Hc)) as Ha.
    cbv beta in Ha. rewrite forallb_forall in Ha. by apply negb_true_iff, Ha. }
  unfold json_escape. destruct str; [by repeat constructor|]. apply list.Forall_cons. split; [done|]. apply list.Forall_app. split; [done|by repeat constructor].
Qed.

(** ** Splitting and joining *)

(** The comparison with the separator from a position on. *)
Fixpoint starts_with (s sep : list N) : bool :=
  match sep, s with
  | [], _ => true
  | _, [] => false
  | y :: sep, x :: s => (x =? y) && starts_with s sep
  end.

(** [push]: the characters from one position to another. *)
Definition substr (str : list N) (first last : nat) : list N := take (last - first) (drop first str).

Definition escaped (str esc : list N) (i : nat) : bool :=
  negb (bool_decide (esc = [])) && bool_decide (List.length esc < i)%nat && starts_with (drop (i - List.length esc) str) esc.

(** The loop of [split] at the position [i]; [max_splits] is a [size_t]. *)
Fixpoint split_loop (fuel : nat) (str sep esc : list N) (max_splits : N) (include_sep : bool) (i prev : nat) (splits : N)
    (pos : list (list N)) : list (list N) * nat :=
  match fuel with
  | O => (pos, prev)
  | S fuel =>
      if bool_decide (i = List.length str) then (pos, prev)
      else if negb (starts_with (drop i str) sep) || escaped str esc i
      then split_loop fuel str sep esc max_splits include_sep (S i) prev splits pos
      else if splits =? max_splits then (pos, prev)
      else
        let pos := pos ++ [substr str prev i] in
        let pos := if include_sep then pos ++ [substr str i (i + List.length sep)] else pos in
        split_loop fuel str sep esc max_splits include_sep (i + List.length sep) (i + List.length sep) (splits + 1) pos
  end.
(** [None] is the assertion. *)
Definition split (str sep esc : list N) (max_splits : N) (include_sep : bool) : option (list (list N)) :=
  match sep with
  | [] => None
  | _ =>
      let r := split_loop (S (List.length str)) str sep esc max_splits include_sep 0 0 0 [] in
      Some (if bool_decide (r.2 = List.length str) then r.1 else r.1 ++ [substr str r.2 (List.length str)])
  end.

Definition join (v : list (list N)) (sep : list N) : list N :=
  match v with
  | [] => []
  | x :: v => foldl (λ result x, result ++ sep ++ x) x v
  end.

(** [std::string::find] from a position on. *)
Fixpoint find_from (fuel : nat) (str search : list N) (pos : nat) : option nat :=
  if starts_with (drop pos str) search then Some pos
  else match fuel with O => None | S fuel => find_from fuel str search (S pos) end.
Definition find (str search : list N) (pos : nat) : option nat :=
  if bool_decide (pos <= List.length str)%nat then find_from (List.length str - pos) str search pos else None.

(** The loop of [replace_all]; every round moves towards the end if the search string has
    characters. *)
Fixpoint replace_loop (fuel : nat) (str search replace : list N) (pos : nat) : option (list N) :=
  match find str search pos with
  | None => Some str
  | Some pos =>
      match fuel with
      | O => None
      | S fuel =>
          replace_loop fuel (take pos str ++ replace ++ drop (pos + List.length search) str) search replace (pos + List.length replace)
      end
  end.
Definition replace_all (fuel : nat) (str search replace : list N) : option (list N) := replace_loop fuel str search replace 0.

(** *** What [split] returns *)

Lemma starts_with_spec s sep : starts_with s sep = true ↔ ∃ r, s = sep ++ r.
Proof.
  revert s. induction sep as [|y sep IH]; intros s; [split; [by exists s|by destruct s]|].
  destruct s as [|x s]; [split; [done|by intros [r ?]]|]. cbn. rewrite andb_true_iff, N.eqb_eq, IH. split.
  - intros [-> [r ->]]. by exists r.
  - intros [r [= -> ->]]. eauto.
Qed.

Lemma take_substr str prev i : (prev <= i)%nat → take i str = take prev str ++ substr str prev i.
Proof.
  intros Hi. unfold substr. rewrite <- (take_drop prev str) at 1. rewrite take_app. f_equal.
  - rewrite take_take. f_equal. lia.
  - destruct (Nat.le_gt_cases prev (List.length str)); [rewrite length_take; f_equal; lia|].
    rewrite (drop_ge str prev) by lia. by rewrite !take_nil.
Qed.

Lemma take_match str sep i : starts_with (drop i str) sep = true → (i <= List.length str)%nat →
  take (i + List.length sep) str = take i str ++ sep ∧ (i + List.length sep <= List.length str)%nat ∧
  substr str i (i + List.length sep) = sep.
Proof.
  intros [r Hr]%starts_with_spec Hi. assert (substr str i (i + List.length sep) = sep) as Hs.
  { unfold substr. rewrite Hr. replace (i + List.length sep - i)%nat with (List.length sep + 0)%nat by lia.
    by rewrite take_app_add, take_0, app_nil_r. }
  apply (f_equal List.length) in Hr as Hl. rewrite length_drop, length_app in Hl. split_and!; [|lia|done].
  rewrite (take_substr str i) by lia. by rewrite Hs.
Qed.

Section split.
Context (str sep esc : list N) (max_splits : N) (include_sep : bool) (Hsep : sep ≠ []).

(** The part of the string that the pieces cover. *)
Definition glue (pos : list (list N)) : list N := if include_sep then concat pos else concat ((λ p, p ++ sep) <$> pos).

Lemma split_loop_spec fuel i prev splits pos : (prev <= i <= List.length str)%nat → (List.length str - i < fuel)%nat →
  take prev str = glue pos → (include_sep = false → lenN pos = splits) → splits <= max_splits →
  let r := split_loop fuel str sep esc max_splits include_sep i prev splits pos in
  take r.2 str = glue r.1 ∧ (r.2 <= List.length str)%nat ∧ (include_sep = false → lenN r.1 <= max_splits).
Proof.
  revert i prev splits pos. induction fuel as [|fuel IH]; intros i prev splits pos Hi Hf Hg Hn Hm; [lia|]. cbn [split_loop].
  case_bool_decide; [cbn; split_and!; [done|lia|intros E; specialize (Hn E); lia]|].
  destruct (negb (starts_with (drop i str) sep) || escaped str esc i) eqn:E; [apply IH; (done || lia)|].
  apply orb_false_iff in E as [Hs%negb_false_iff _]. destruct (take_match str sep i Hs) as (Ht & Hl & Hsub); [lia|].
  destruct (N.eqb_spec splits max_splits) as [->|Hne]; [cbn; split_and!; [done|lia|intros E; specialize (Hn E); lia]|].
  assert (0 < List.length sep)%nat as Hpos by (destruct sep; [done|cbn; lia]).
  apply IH; [lia|lia| |..].
  - rewrite Ht, (take_substr str prev i), Hg, Hsub by lia. unfold glue. destruct include_sep.
    + rewrite !concat_app. cbn. by rewrite !app_nil_r, <- app_assoc.
    + rewrite fmap_app, concat_app. cbn. by rewrite app_nil_r, <- app_assoc.
  - intros ->. autorewrite with lendb. rewrite (Hn eq_refl). done.
  - lia.
Qed.

Lemma join_pieces_app v x : join (v ++ [x]) sep = concat ((λ p, p ++ sep) <$> v) ++ x.
Proof.
  destruct v as [|y v]; cbn; [done|]. assert (∀ acc, foldl (λ result x, result ++ sep ++ x) acc (v ++ [x]) = acc ++ sep ++ concat ((λ p, p ++ sep) <$> v) ++ x) as Hacc.
  { induction v as [|z v IH]; intros acc; cbn; [done|]. rewrite IH. by rewrite <- !app_assoc. }
  rewrite Hacc. by rewrite <- !app_assoc.
Qed.
End split.

Lemma split_spec str sep esc max_splits : sep ≠ [] →
  (∃ pieces, split str sep esc max_splits false = Some pieces ∧
    (str = join pieces sep ∨ str = join pieces sep ++ sep) ∧ lenN pieces <= max_splits + 1) ∧
  (∃ pieces, split str sep esc max_splits true = Some pieces ∧ str = concat pieces).
Proof.
  intros Hsep. split.
  - pose proof (split_loop_spec str sep esc max_splits false Hsep (S (List.length str)) 0 0 0 []) as Hl. cbv zeta in Hl.
    unfold split. destruct sep as [|y sep']; [done|]. set (sep := y :: sep') in *.
    destruct (split_loop _ _ _ _ _ _ _ _ _ _) as [pos prev]. cbn [fst snd] in *. destruct Hl as (Ht & Hp & Hn); [lia|lia|done|done|lia|].
    eexists. split; [done|]. specialize (Hn eq_refl). unfold glue in Ht. case_bool_decide as E.
    + subst prev. rewrite take_ge in Ht by lia. split; [|lia]. destruct pos as [|p pos _] using rev_ind; [by left|]. right. rewrite join_pieces_app.
      rewrite Ht, fmap_app, concat_app. cbn. by rewrite app_nil_r, <- app_assoc.
    + split; [left|autorewrite with lendb; lia]. rewrite join_pieces_app, <- Ht, <- take_substr, take_ge by lia. done.
  - pose proof (split_loop_spec str sep esc max_splits true Hsep (S (List.length str)) 0 0 0 []) as Hl. cbv zeta in Hl.
    unfold split. destruct sep as [|y sep']; [done|]. set (sep := y :: sep') in *.
    destruct (split_loop _ _ _ _ _ _ _ _ _ _) as [pos prev]. cbn [fst snd] in *. destruct Hl as (Ht & Hp & _); [lia|lia|done|done|lia|].
    eexists. split; [done|]. unfold glue in Ht. case_bool_decide as E.
    + subst prev. by rewrite take_ge in Ht by lia.
    + rewrite concat_app. cbn. rewrite app_nil_r, <- Ht, <- take_substr, take_ge by lia. done.
Qed.

(** *** Pieces without separators *)

Definition sep_free (sep p : list N) : Prop := ∀ k, starts_with (drop k p) sep = false.

Lemma starts_with_take n s sep : starts_with (take n s) sep = true → starts_with s sep = true.
Proof. rewrite !starts_with_spec. intros [r Hr]. exists (r ++ drop n s). by rewrite app_assoc, <- Hr, take_drop. Qed.

Lemma starts_with_nil sep : sep ≠ [] → starts_with [] sep = false.
Proof. by destruct sep. Qed.

Lemma substr_free str sep prev i : sep ≠ [] → (∀ k, (prev <= k < i)%nat → starts_with (drop k str) sep = false) → sep_free sep (substr str prev i).
Proof.
  intros Hsep Hk k. apply not_true_iff_false. intros Hs. unfold substr in Hs. rewrite skipn_firstn_comm, drop_drop in Hs.
  destruct (i - prev - k)%nat eqn:E; [cbn in Hs; by rewrite starts_with_nil in Hs|]. apply starts_with_take in Hs.
  rewrite Hk in Hs; [done|lia].
Qed.

Lemma split_loop_free str sep max_splits fuel i prev splits pos : sep ≠ [] → (prev <= i <= List.length str)%nat → (List.length str - i < fuel)%nat →
  (∀ k, (prev <= k < i)%nat → starts_with (drop k str) sep = false) → Forall (sep_free sep) pos →
  splits <= N.of_nat i → lenN str <= max_splits →
  let r := split_loop fuel str sep [] max_splits false i prev splits pos in
  Forall (sep_free sep) r.1 ∧ sep_free sep (drop r.2 str).
Proof.
  intros Hsep. revert i prev splits pos. induction fuel as [|fuel IH]; intros i prev splits pos Hi Hf Hk Hp Hs Hm; [lia|]. cbn [split_loop].
  case_bool_decide as E.
  { cbn. split; [done|]. rewrite <- (take_ge (drop prev str) (List.length str - prev)) by (rewrite length_drop; lia). subst i. by apply substr_free. }
  unfold escaped. rewrite (bool_decide_eq_true_2 ([] = [])) by done. cbn [negb andb]. rewrite orb_false_r.
  destruct (starts_with (drop i str) sep) eqn:Em; cbn [negb].
  - destruct (take_match str sep i Em) as (_ & Hl & _); [lia|].
    assert (0 < List.length sep)%nat as Hpos by (destruct sep; [done|cbn; lia]).
    destruct (N.eqb_spec splits max_splits) as [->|Hne]; [unfold lenN in Hm; lia|].
    apply IH; [lia|lia|intros; lia| |lia|done]. apply list.Forall_app. split; [done|]. apply list.Forall_singleton. by apply substr_free.
  - apply IH; [lia|lia| |done|lia|done]. intros k Hk'. destruct (decide (k = i)) as [->|]; [done|]. apply Hk. lia.
Qed.

Lemma split_free str sep max_splits pieces : sep ≠ [] → lenN str <= max_splits → split str sep [] max_splits false = Some pieces →
  Forall (sep_free sep) pieces.
Proof.
  intros Hsep Hm. unfold split. pose proof (split_loop_free str sep max_splits (S (List.length str)) 0 0 0 [] Hsep) as Hl. cbv zeta in Hl.
  destruct sep as [|y sep']; [done|]. set (sep := y :: sep') in *. destruct (split_loop _ _ _ _ _ _ _ _ _ _) as [pos prev]. cbn [fst snd] in *.
  destruct Hl as [Hp Hr]; [lia|lia|intros; lia|constructor|lia|done|]. intros [= <-]. case_bool_decide; [done|].
  apply list.Forall_app. split; [done|]. apply list.Forall_singleton. unfold substr. by rewrite take_ge by (rewrite length_drop; lia).
Qed.

(** *** What [replace_all] returns *)

Lemma find_from_spec fuel str search pos : search ≠ [] → (pos + fuel = List.length str)%nat →
  match find_from fuel str search pos with
  | Some p => (pos <= p)%nat ∧ starts_with (drop p str) search = true ∧ ∀ k, (pos <= k < p)%nat → starts_with (drop k str) search = false
  | None => ∀ k, (pos <= k)%nat → starts_with (drop k str) search = false
  end.
Proof.
  intros Hs. revert pos. induction fuel as [|fuel IH]; intros pos Hp; cbn; destruct (starts_with (drop pos str) search) eqn:E.
  - split_and!; [lia|done|intros; lia].
  - intros k Hk. by rewrite drop_ge, starts_with_nil by (done || lia).
  - split_and!; [lia|done|intros; lia].
  - specialize (IH (S pos) ltac:(lia)). destruct (find_from fuel str search (S pos)) as [p|].
    + destruct IH as (Hle & Hm & Hk). split_and!; [lia|done|]. intros k Hk'. destruct (decide (k = pos)) as [->|]; [done|]. apply Hk. lia.
    + intros k Hk. destruct (decide (k = pos)) as [->|]; [done|]. apply IH. lia.
Qed.

Lemma join_cons x v sep : v ≠ [] → join (x :: v) sep = x ++ sep ++ join v sep.
Proof.
  intros Hv. destruct v as [|y v _] using rev_ind; [done|]. rewrite app_comm_cons, !join_pieces_app. cbn. by rewrite <- !app_assoc.
Qed.

Lemma replace_loop_spec fuel front rest search replace : search ≠ [] → (List.length rest < fuel)%nat →
  ∃ pieces, pieces ≠ [] ∧ rest = join pieces search ∧ Forall (sep_free search) pieces ∧
    replace_loop fuel (front ++ rest) search replace (List.length front) = Some (front ++ join pieces replace).
Proof.
  intros Hs. revert front rest. induction fuel as [|fuel IH]; intros front rest Hf; [lia|]. cbn [replace_loop].
  unfold find. rewrite bool_decide_eq_true_2 by (rewrite length_app; lia).
  pose proof (find_from_spec (List.length (front ++ rest) - List.length front) (front ++ rest) search (List.length front) Hs) as Hfind.
  specialize (Hfind ltac:(rewrite length_app; lia)). destruct (find_from _ _ _ _) as [p|].
  - destruct Hfind as (Hp & Hm & Hk). set (piece := take (p - List.length front) rest).
    rewrite drop_app_ge in Hm by lia. apply starts_with_spec in Hm as [rest' Hr].
    assert (rest = piece ++ search ++ rest') as Hrest by (rewrite <- Hr; symmetry; apply take_drop).
    assert (p = List.length front + List.length piece)%nat as Hpl.
    { subst piece. rewrite length_take. apply (f_equal List.length) in Hr. rewrite length_drop, length_app in Hr. destruct search; [done|]. cbn in Hr. lia. }
    clearbody piece. destruct (IH (front ++ piece ++ replace) rest') as (pieces & Hne & Hj & Hfree & Hl).
    { rewrite Hrest in Hf. rewrite !length_app in Hf. destruct search; [done|]. cbn in Hf. lia. }
    exists (piece :: pieces). split_and!; [done|by rewrite join_cons, <- Hj by done| |].
    + constructor; [|done]. intros k. apply not_true_iff_false. intros Hkm.
      destruct (Nat.le_gt_cases (List.length piece) k); [by rewrite drop_ge, starts_with_nil in Hkm by done|].
      assert (starts_with (drop (List.length front + k) (front ++ rest)) search = true) as Hc; [|rewrite Hk in Hc; [done|lia]].
      rewrite drop_app_ge by lia. replace (List.length front + k - List.length front)%nat with k by lia. rewrite Hrest, drop_app_le by lia.
      apply starts_with_spec in Hkm as [r' ->]. apply starts_with_spec. exists (r' ++ search ++ rest'). by rewrite <- app_assoc.
    + rewrite join_cons by done. rewrite <- !app_assoc in Hl. rewrite !length_app in Hl. subst p. rewrite Hrest.
      replace (take (List.length front + List.length piece) (front ++ piece ++ search ++ rest')) with (front ++ piece)
        by (rewrite take_app_add; f_equal; rewrite <- (Nat.add_0_r (List.length piece)), take_app_add; cbn; by rewrite app_nil_r).
      replace (drop (List.length front + List.length piece + List.length search) (front ++ piece ++ search ++ rest')) with rest'
        by (rewrite <- Nat.add_assoc, drop_app_add, drop_app_add; by rewrite drop_app_length).
      rewrite <- !app_assoc. rewrite Nat.add_assoc in Hl. exact Hl.
  - exists [rest]. split_and!; [done|done| |done]. constructor; [|constructor]. intros k. specialize (Hfind (List.length front + k)%nat ltac:(lia)).
    rewrite drop_app_ge in Hfind by lia. by replace (List.length front + k - List.length front)%nat with k in Hfind by lia.
Qed.

Lemma replace_diverges fuel str replace pos : (pos <= List.length str)%nat → replace_loop fuel str [] replace pos = None.
Proof.
  revert str pos. induction fuel as [|fuel IH]; intros str pos Hp; cbn [replace_loop]; unfold find; rewrite bool_decide_eq_true_2 by done;
    destruct (List.length str - pos)%nat; cbn; rewrite ?(proj2 (starts_with_spec (drop pos str) []) (ex_intro _ _ eq_refl)); try done;
    apply IH; rewrite !length_app, length_take, length_drop; lia.
Qed.
