(* ===== verification/Data.v ===== *)
(** The data model and the results of fallible operations:
    [libvast/include/vast/data.hpp] and [libvast/include/vast/error.hpp]. *)

From S2P Require Import Prelude.

#[local] Set Warnings "-register-all".

(** [data::variant]. Durations and times are nanoseconds, a double is its 64-bit
    pattern, strings, patterns and addresses are bytes. *)
Inductive data :=
| d_none
| d_bool (x : bool)
| d_int64 (x : Z)
| d_uint64 (x : N)
| d_double (x : N)
| d_duration (x : Z)
| d_time (x : Z)
| d_string (x : list N)
| d_pattern (x : list N)
| d_ip (x : list N)
| d_subnet (x : list N) (length : N)
| d_enumeration (x : N)
| d_list (xs : list data)
| d_map (xs : list (data * data))
| d_record (xs : list (list N * data)).

(** How deep lists nest. *)
Fixpoint data_depth (d : data) : nat :=
  match d with
  | d_list xs => S (foldr (λ x n, data_depth x `max` n) 0 xs)%nat
  | _ => 0%nat
  end.

Definition is_none (d : data) : bool := match d with d_none => true | _ => false end.

(** The error codes. *)
Inductive ec :=
  | no_error | unspecified | no_such_file | filesystem_error | type_clash
  | unsupported_operator | parse_error | print_error | convert_error | invalid_query
  | format_error | end_of_input | timeout | stalled | incomplete | version_error
  | syntax_error | lookup_error | logic_error | invalid_table_slice_type
  | invalid_synopsis_type | remote_node_down | invalid_argument | invalid_result
  | invalid_configuration | unrecognized_option | invalid_subcommand | missing_subcommand
  | missing_component | unimplemented | recursion_limit_reached | silent | out_of_memory
  | system_error | breaking_change | serialization_error | ec_count.

(** [caf::expected<A>] *)
Inductive expected (A : Type) := value (x : A) | error (e : ec).
Arguments value {A}.
Arguments error {A}.

Lemma data_depth_elem x xs : x ∈ xs → (data_depth x < data_depth (d_list xs))%nat.
Proof.
  intros Hx. cbn. induction xs as [|y ys IH]; [by apply not_elem_of_nil in Hx|].
  cbn [foldr]. apply elem_of_cons in Hx as [->|Hx]; [lia|]. specialize (IH Hx). lia.
Qed.
