(* ===== verification/SetOperations.v ===== *)
(** Set operations on sorted vectors: [libvast/include/vast/detail/set_operations.hpp], and the
    algorithms of the standard library they rest on. *)

From S2P Require Import Prelude.

Section set_operations.
Context {A : Type} (ltb eqb : A → A → bool).

(** [std::inplace_merge]: a stable merge of two sorted ranges. *)
Fixpoint merge_sorted (xs ys : list A) {struct xs} : list A :=
  let fix go ys :=
    match xs, ys with
    | [], ys => ys
    | xs, [] => xs
    | x :: xs', y :: ys' => if ltb y x then y :: go ys' else x :: merge_sorted xs' ys
    end in
  go ys.

(** [std::unique] *)
Fixpoint unique_from (x : A) (xs : list A) : list A :=
  match xs with
  | [] => []
  | y :: ys => if eqb x y then unique_from x ys else y :: unique_from y ys
  end.
Definition unique (xs : list A) : list A :=
  match xs with [] => [] | x :: xs => x :: unique_from x xs end.

(** [inplace_unify] *)
Definition inplace_unify (result xs : list A) : list A := unique (merge_sorted result xs).

(** [inplace_intersect] *)
Fixpoint inplace_intersect (result xs : list A) {struct result} : list A :=
  let fix go xs :=
    match result, xs with
    | [], _ | _, [] => []
    | a :: result', b :: xs' =>
        if ltb a b then inplace_intersect result' xs
        else if ltb b a then go xs'
        else a :: inplace_intersect result' xs'
    end in
  go xs.

Lemma merge_sorted_perm xs ys : merge_sorted xs ys ≡ₚ xs ++ ys.
Proof.
  revert ys. induction xs as [|x xs IHx]; [by intros []|].
  induction ys as [|y ys IHy]; [by cbn; rewrite app_nil_r|].
  cbn [merge_sorted]. destruct (ltb y x).
  - change (y :: merge_sorted (x :: xs) ys ≡ₚ (x :: xs) ++ y :: ys). rewrite IHy. by rewrite Permutation_middle.
  - change (x :: merge_sorted xs (y :: ys) ≡ₚ x :: (xs ++ y :: ys)). by rewrite IHx.
Qed.

(** An equal element, or the element itself, is in the list. *)
Definition covered (p : A) (xs : list A) : Prop := ∃ q, q ∈ xs ∧ (q = p ∨ eqb q p = true).

Lemma unique_from_spec x xs :
  (∀ p, p ∈ unique_from x xs → p ∈ xs) ∧ ∀ p, p ∈ xs → covered p (x :: unique_from x xs).
Proof.
  revert x. induction xs as [|y xs IH]; intros x; cbn [unique_from]; [by split; intros p Hp%not_elem_of_nil|].
  destruct (eqb x y) eqn:E.
  - destruct (IH x) as [IH1 IH2]. split; [intros p Hp; right; by apply IH1|].
    intros p [->|Hp]%elem_of_cons; [exists x; split; [by left|by right]|by apply IH2].
  - destruct (IH y) as [IH1 IH2]. split.
    + intros p [->|Hp]%elem_of_cons; [by left|right; by apply IH1].
    + intros p [->|Hp]%elem_of_cons; [exists y; split; [right; by left|by left]|].
      destruct (IH2 p Hp) as (q & Hq & H). exists q. split; [by right|done].
Qed.

Lemma inplace_unify_covered xs ys :
  (∀ p, p ∈ inplace_unify xs ys → p ∈ xs ++ ys) ∧ ∀ p, p ∈ xs ++ ys → covered p (inplace_unify xs ys).
Proof.
  unfold inplace_unify. pose proof (merge_sorted_perm xs ys) as Hp. destruct (merge_sorted xs ys) as [|z zs].
  - apply Permutation_nil in Hp. rewrite Hp. by split; intros p Hp'%not_elem_of_nil.
  - destruct (unique_from_spec z zs) as [H1 H2]. setoid_rewrite <- Hp. split.
    + intros p [->|Hp']%elem_of_cons; [by left|right; by apply H1].
    + intros p [->|Hp']%elem_of_cons; [exists z; split; [by left|by left]|by apply H2].
Qed.
End set_operations.

(** ** Vectors that are sorted by a key

    Two vectors that select from one sorted vector combine to the selection by both conditions. *)

Section by_key.
Context {A : Type} (key : A → N).
#[local] Abbreviation key_ltb := (λ x y : A, key x <? key y).
#[local] Abbreviation key_eqb := (λ x y : A, key x =? key y).

(** Strictly increasing keys. *)
Fixpoint increasing (xs : list A) : Prop :=
  match xs with
  | [] => True
  | x :: xs => Forall (λ y, key x < key y) xs ∧ increasing xs
  end.

Lemma increasing_filter (P : A → Prop) `{!∀ x, Decision (P x)} xs : increasing xs → increasing (filter P xs).
Proof.
  induction xs as [|x xs IH]; [done|]. intros [Hx Hxs]. rewrite filter_cons. case_decide; [|by apply IH].
  split; [|by apply IH]. rewrite list.Forall_forall in *. intros y [_ Hy]%list_elem_of_filter. by apply Hx.
Qed.

(** All elements are behind [x]. *)
Lemma Forall_filter_key (P : A → Prop) `{!∀ x, Decision (P x)} n xs :
  Forall (λ y, n < key y) xs → Forall (λ y, n < key y) (filter P xs).
Proof. rewrite !list.Forall_forall. intros Hf y [_ Hy]%list_elem_of_filter. by apply Hf. Qed.

Lemma merge_sorted_nil_r xs : merge_sorted key_ltb xs [] = xs.
Proof. by destruct xs. Qed.

Lemma intersect_skip_l x xs ys : Forall (λ y, key x < key y) ys →
  inplace_intersect key_ltb (x :: xs) ys = inplace_intersect key_ltb xs ys.
Proof.
  destruct ys as [|y ys]; intros H; [by destruct xs|]. cbn [inplace_intersect]. inversion_clear H as [|? ? Hy _].
  by rewrite (proj2 (N.ltb_lt _ _) Hy).
Qed.

Lemma intersect_skip_r x xs ys : Forall (λ y, key x < key y) xs →
  inplace_intersect key_ltb xs (x :: ys) = inplace_intersect key_ltb xs ys.
Proof.
  destruct xs as [|y xs]; intros H; [by destruct ys|]. cbn [inplace_intersect]. inversion_clear H as [|? ? Hy _].
  rewrite (proj2 (N.ltb_ge _ _)) by lia. by rewrite (proj2 (N.ltb_lt _ _) Hy).
Qed.

Lemma merge_skip_l x xs ys : Forall (λ y, key x < key y) ys →
  merge_sorted key_ltb (x :: xs) ys = x :: merge_sorted key_ltb xs ys.
Proof.
  destruct ys as [|y ys]; intros H; [by rewrite !merge_sorted_nil_r|]. cbn [merge_sorted]. inversion_clear H as [|? ? Hy _].
  by rewrite (proj2 (N.ltb_ge _ _)) by lia.
Qed.

Lemma merge_skip_r x xs ys : Forall (λ y, key x < key y) xs →
  merge_sorted key_ltb xs (x :: ys) = x :: merge_sorted key_ltb xs ys.
Proof.
  destruct xs as [|y xs]; intros H; [by destruct ys|]. cbn [merge_sorted]. inversion_clear H as [|? ? Hy _].
  by rewrite (proj2 (N.ltb_lt _ _) Hy).
Qed.

Lemma intersect_same x xs ys : inplace_intersect key_ltb (x :: xs) (x :: ys) = x :: inplace_intersect key_ltb xs ys.
Proof. cbn [inplace_intersect]. by rewrite N.ltb_irrefl. Qed.

(** The intersection of two selections. *)
Lemma intersect_filter (f g : A → bool) xs : increasing xs →
  inplace_intersect key_ltb (filter (λ x, f x = true) xs) (filter (λ x, g x = true) xs) =
  filter (λ x, f x && g x = true) xs.
Proof.
  induction xs as [|x xs IH]; [done|]. intros [Hx Hxs]. rewrite !filter_cons. specialize (IH Hxs).
  destruct (f x), (g x); cbn [andb]; rewrite ?(decide_True (P := true = true)), ?(decide_False (P := false = true)) by done.
  - by rewrite intersect_same, IH.
  - by rewrite intersect_skip_l, IH by (by apply Forall_filter_key).
  - by rewrite intersect_skip_r, IH by (by apply Forall_filter_key).
  - done.
Qed.

Lemma unique_from_skip x xs : Forall (λ y, key x < key y) xs → increasing xs →
  unique_from key_eqb x xs = xs.
Proof.
  revert x. induction xs as [|y xs IH]; intros x Hx Hxs; [done|]. cbn [unique_from]. inversion_clear Hx as [|? ? Hy _].
  rewrite (proj2 (N.eqb_neq _ _)) by lia. f_equal. destruct Hxs as [Hys Hxs]. by apply IH.
Qed.

(** The union of two selections. *)
Lemma unify_filter (f g : A → bool) xs : increasing xs →
  inplace_unify key_ltb key_eqb (filter (λ x, f x = true) xs) (filter (λ x, g x = true) xs) =
  filter (λ x, f x || g x = true) xs.
Proof.
  intros Hinc. unfold inplace_unify.
  assert (∀ x xs', increasing xs' → Forall (λ y, key x < key y) xs' →
    unique_from key_eqb x (merge_sorted key_ltb (filter (λ x, f x = true) xs') (filter (λ x, g x = true) xs')) =
    filter (λ x, f x || g x = true) xs') as Hfrom.
  { intros z xs'. revert z. induction xs' as [|x xs' IH]; intros z; [done|]. intros [Hx Hxs] Hz.
    inversion_clear Hz as [|? ? Hzx Hz']. rewrite !filter_cons.
    destruct (f x), (g x); cbn [orb]; rewrite ?(decide_True (P := true = true)), ?(decide_False (P := false = true)) by done.
    - assert (∀ a b, merge_sorted key_ltb (x :: a) (x :: b) = x :: merge_sorted key_ltb a (x :: b)) as Hm.
      { intros a b. cbn [merge_sorted]. by rewrite N.ltb_irrefl. }
      rewrite Hm, merge_skip_r by (by apply Forall_filter_key). cbn [unique_from].
      rewrite (proj2 (N.eqb_neq _ _)) by lia. rewrite N.eqb_refl. f_equal. by apply IH.
    - rewrite merge_skip_l by (by apply Forall_filter_key). cbn [unique_from].
      rewrite (proj2 (N.eqb_neq _ _)) by lia. f_equal. by apply IH.
    - rewrite merge_skip_r by (by apply Forall_filter_key). cbn [unique_from].
      rewrite (proj2 (N.eqb_neq _ _)) by lia. f_equal. by apply IH.
    - by apply IH. }
  induction xs as [|x xs IH]; [done|]. destruct Hinc as [Hx Hxs]. specialize (IH Hxs). rewrite !filter_cons.
  destruct (f x), (g x); cbn [orb]; rewrite ?(decide_True (P := true = true)), ?(decide_False (P := false = true)) by done.
  - assert (∀ a b, merge_sorted key_ltb (x :: a) (x :: b) = x :: merge_sorted key_ltb a (x :: b)) as Hm.
    { intros a b. cbn [merge_sorted]. by rewrite N.ltb_irrefl. }
    rewrite Hm, merge_skip_r by (by apply Forall_filter_key). cbn [unique unique_from]. rewrite N.eqb_refl. f_equal. by apply Hfrom.
  - rewrite merge_skip_l by (by apply Forall_filter_key). cbn [unique]. f_equal. by apply Hfrom.
  - rewrite merge_skip_r by (by apply Forall_filter_key). cbn [unique]. f_equal. by apply Hfrom.
  - done.
Qed.
End by_key.
