(* ===== verification/Types.v ===== *)
(** Types and record types: [libvast/src/type.cpp].

    A [type] is a FlatBuffers table; the model is the tree such a table holds. Names, keys and
    strings are lists of bytes. *)

From S2P Require Import Prelude Operator Data.

#[local] Set Warnings "-register-all".

(** The union [fbs::type::Type]. The nested type of an [enriched_type] may be enriched again; a
    missing name is [None] and a missing value of an attribute is empty. *)
Inductive type :=
| t_none
| t_bool
| t_int64
| t_uint64
| t_double
| t_duration
| t_time
| t_string
| t_ip
| t_subnet
| t_enumeration (fields : list (list N * N))
| t_list (value_type : type)
| t_map (key_type value_type : type)
| t_record (fields : list (list N * type))
| t_enriched (name : option (list N)) (attributes : list (list N * list N)) (nested : type).

(** A field of a record type. *)
Notation field := (list N * type)%type.

(** Induction that reaches the fields of records. *)
Lemma type_ind' (P : type → Prop) :
  P t_none → P t_bool → P t_int64 → P t_uint64 → P t_double → P t_duration → P t_time → P t_string →
  P t_ip → P t_subnet → (∀ fs, P (t_enumeration fs)) → (∀ t, P t → P (t_list t)) →
  (∀ k v, P k → P v → P (t_map k v)) → (∀ fs, Forall (λ f, P f.2) fs → P (t_record fs)) →
  (∀ n a t, P t → P (t_enriched n a t)) → ∀ t, P t.
Proof.
  intros Hn Hb Hi Hu Hd Hdu Ht Hs Hip Hsub Hen Hl Hm Hr He. fix IH 1. intros t.
  destruct t as [| | | | | | | | | |fs|t|k v|fs|n a t];
    [assumption..|apply Hen|apply Hl, IH|apply Hm; apply IH| |apply He, IH].
  apply Hr. induction fs as [|[n t] fs IHfs]; constructor; [exact (IH t)|apply IHfs].
Qed.

Module type.

(** [resolve_transparent]: the type below all names and attributes. *)
Fixpoint resolve_transparent (t : type) : type :=
  match t with t_enriched _ _ t => resolve_transparent t | _ => t end.

(** [operator bool] *)
Definition is_some (t : type) : bool := match resolve_transparent t with t_none => false | _ => true end.

(** *** Metadata *)

Fixpoint name (t : type) : list N :=
  match t with
  | t_enriched (Some n) _ _ => n
  | t_enriched None _ t => name t
  | _ => []
  end.

Fixpoint names (t : type) : list (list N) :=
  match t with
  | t_enriched n _ t => match n with Some n => n :: names t | None => names t end
  | _ => []
  end.

(** [LookupByKey] on the attributes of one layer. *)
Definition lookup_by_key (key : list N) (attributes : list (list N * list N)) : option (list N) :=
  snd <$> (snd <$> list_find (λ a, a.1 = key) attributes).

Fixpoint attribute (key : list N) (t : type) : option (list N) :=
  match t with
  | t_enriched _ attributes t =>
      match lookup_by_key key attributes with Some v => Some v | None => attribute key t end
  | _ => None
  end.

Fixpoint has_attributes (t : type) : bool :=
  match t with
  | t_enriched _ [] t => has_attributes t
  | t_enriched _ _ _ => true
  | _ => false
  end.

Fixpoint aliases (t : type) : list type :=
  match t with
  | t_enriched n _ t => match n with Some _ => t :: aliases t | None => aliases t end
  | _ => []
  end.

(** Attributes that are not in the list yet are added behind it. *)
Definition merge_attributes (attributes stripped : list (list N * list N)) : list (list N * list N) :=
  foldl (λ acc a, if existsb (λ b, bool_decide (b.1 = a.1)) acc then acc else acc ++ [a]) attributes stripped.

(** The loop of the constructor over the layers without a name. *)
Fixpoint strip_unnamed (attributes : list (list N * list N)) (nested : type) : list (list N * list N) * type :=
  match nested with
  | t_enriched None stripped nested => strip_unnamed (merge_attributes attributes stripped) nested
  | _ => (attributes, nested)
  end.

(** [type(name, nested, attributes)], where [sort] is [std::sort] by key. *)
Definition make (sort : list (list N * list N) → list (list N * list N)) (n : list N) (nested : type)
    (attributes : list (list N * list N)) : type :=
  match n, attributes with
  | [], [] => nested
  | _, _ =>
      let '(attributes, nested) := strip_unnamed attributes nested in
      t_enriched (match n with [] => None | _ => Some n end) (sort attributes) nested
  end.

(** *** Comparison with types and data *)

Definition is_container (t : type) : bool :=
  match resolve_transparent t with
  | t_list _ | t_map _ _ | t_record _ => true
  | _ => false
  end.

(** [std::is_same_v] for two basic types. *)
Definition same_basic (x y : type) : bool :=
  match x, y with
  | t_bool, t_bool | t_int64, t_int64 | t_uint64, t_uint64 | t_double, t_double | t_duration, t_duration
  | t_time, t_time | t_string, t_string | t_ip, t_ip | t_subnet, t_subnet => true
  | _, _ => false
  end.

Fixpoint congruent (x y : type) {struct x} : bool :=
  match x with
  | t_enriched _ _ x => congruent x y
  | t_none => true
  | _ =>
      match resolve_transparent y with
      | t_none => true
      | t_enumeration yf =>
          match x with
          | t_enumeration xf => bool_decide (xf.*2 = yf.*2)
          | _ => false
          end
      | t_list y => match x with t_list x => congruent x y | _ => false end
      | t_map yk yv => match x with t_map xk xv => congruent xk yk && congruent xv yv | _ => false end
      | t_record yf =>
          match x with
          | t_record xf =>
              (fix go xf yf :=
                match xf, yf with
                | [], [] => true
                | x :: xf, y :: yf => congruent x.2 y.2 && go xf yf
                | _, _ => false
                end) xf yf
          | _ => false
          end
      | y => same_basic x y
      end
  end.

(** [enumeration_type::resolve] *)
Definition resolve (fields : list (list N * N)) (key : list N) : option N :=
  snd <$> (snd <$> list_find (λ f, f.1 = key) fields).

(** [congruent(type, data)] *)
Fixpoint congruent_data (x : type) (y : data) : bool :=
  match x, y with
  | t_enriched _ _ x, _ => congruent_data x y
  | t_bool, d_bool _ | t_int64, d_int64 _ | t_uint64, d_uint64 _ | t_double, d_double _
  | t_duration, d_duration _ | t_time, d_time _ | t_string, d_string _ | t_string, d_pattern _
  | t_ip, d_ip _ | t_subnet, d_subnet _ _ | t_list _, d_list _ | t_map _ _, d_map _ => true
  | t_enumeration fields, d_string y => match resolve fields y with Some _ => true | None => false end
  | t_record fields, d_list ys =>
      (fix go (fs : list field) ys :=
        match fs, ys with
        | [], [] => true
        | f :: fs, y :: ys => congruent_data f.2 y && go fs ys
        | _, _ => false
        end) fields ys
  | t_record fields, d_record ys =>
      (lenN fields =? lenN ys) &&
      forallb (λ f, match list_find (λ y, y.1 = f.1) ys with
                    | Some (_, y) => congruent_data f.2 y.2
                    | None => false
                    end) fields
  | _, _ => false
  end.

(** [is_container] of data, and whether it holds a string. *)
Definition is_container_data (d : data) : bool :=
  match d with d_list _ | d_map _ | d_record _ => true | _ => false end.
Definition is_string (d : data) : bool := match d with d_string _ => true | _ => false end.

(** [compatible(type, op, data)] *)
Definition compatible (lhs : type) (op : relational_operator) (rhs : data) : bool :=
  match op with
  | equal | not_equal =>
      negb (is_some lhs) || is_none rhs
      || (match resolve_transparent lhs, rhs with t_string, d_pattern _ => true | _, _ => false end)
      || congruent_data lhs rhs
  | less | less_equal | greater | greater_equal => congruent_data lhs rhs
  | in_ | not_in =>
      match resolve_transparent lhs with
      | t_string => is_string rhs || is_container_data rhs
      | t_ip | t_subnet => (match rhs with d_subnet _ _ => true | _ => false end) || is_container_data rhs
      | _ => is_container_data rhs
      end
  | ni | not_ni =>
      match rhs with
      | d_string _ => (match resolve_transparent lhs with t_string => true | _ => false end) || is_container lhs
      | d_ip _ | d_subnet _ _ =>
          (match resolve_transparent lhs with t_subnet => true | _ => false end) || is_container lhs
      | _ => is_container lhs
      end
  end.

(** [compatible(data, op, type)] *)
Definition compatible_data (lhs : data) (op : relational_operator) (rhs : type) : bool :=
  compatible rhs (flip op) lhs.

(** [is_subset]: every field of one record exists in another. *)
Fixpoint is_subset (x y : type) {struct x} : bool :=
  match x, resolve_transparent y with
  | t_enriched _ _ x, _ => is_subset x y
  | t_record sub, t_record super =>
      forallb (λ f : field,
        existsb (λ g : field, bool_decide (f.1 = g.1)) super &&
        forallb (λ g : field, negb (bool_decide (f.1 = g.1)) || is_subset f.2 g.2) super) sub
  | _, _ => congruent x y
  end.

(** [type_check(type, data)]; of a list or map only the first element is looked at. *)
Fixpoint type_check (x : type) (y : data) {struct x} : bool :=
  match x, y with
  | t_enriched _ _ x, _ => type_check x y
  | _, d_none => true
  | t_enumeration fields, d_enumeration u =>
      match list_find (λ f, f.2 = u) fields with Some (_, (n, _)) => negb (bool_decide (n = [])) | None => false end
  | t_list t, d_list u => match u with [] => true | d :: _ => type_check t d end
  | t_map kt vt, d_map u => match u with [] => true | d :: _ => type_check kt d.1 && type_check vt d.2 end
  | t_record fields, d_record u =>
      (lenN u =? lenN fields) &&
      (fix go (fs : list field) (u : list (list N * data)) :=
        match fs, u with
        | f :: fs, d :: u => if negb (bool_decide (f.1 = d.1)) || type_check f.2 d.2 then false else go fs u
        | _, _ => true
        end) fields u
  | t_bool, d_bool _ | t_int64, d_int64 _ | t_uint64, d_uint64 _ | t_double, d_double _
  | t_duration, d_duration _ | t_time, d_time _ | t_string, d_string _ | t_ip, d_ip _
  | t_subnet, d_subnet _ _ => true
  | _, _ => false
  end.

(** [type::infer] *)
Fixpoint infer (value : data) : type :=
  match value with
  | d_none | d_enumeration _ => t_none
  | d_bool _ => t_bool
  | d_int64 _ => t_int64
  | d_uint64 _ => t_uint64
  | d_double _ => t_double
  | d_duration _ => t_duration
  | d_time _ => t_time
  | d_string _ | d_pattern _ => t_string
  | d_ip _ => t_ip
  | d_subnet _ _ => t_subnet
  | d_list [] => t_list t_none
  | d_list (d :: _) => t_list (infer d)
  | d_map [] => t_map t_none t_none
  | d_map (d :: _) => t_map (infer d.1) (infer d.2)
  | d_record [] => t_none
  | d_record ds => t_record ((λ d, (d.1, infer d.2)) <$> ds)
  end.
End type.

(** ** Metadata *)

Section metadata.
Import type.
Implicit Types (attributes : list (list N * list N)) (k n : list N) (t nested : type).

Lemma lookup_by_key_Some k v attributes :
  NoDup attributes.*1 → lookup_by_key k attributes = Some v ↔ (k, v) ∈ attributes.
Proof.
  intros Hd. unfold lookup_by_key. split.
  - intros (a & (p & Hp & ->)%fmap_Some & ->)%fmap_Some. destruct p as [i [k' v']].
    apply list_find_Some in Hp as (Hi & <- & _). by eapply list_elem_of_lookup_2.
  - intros [i Hi]%list_elem_of_lookup_1. rewrite (proj2 (list_find_Some (λ a : list N * list N, a.1 = k) _ i (k, v))); [done|].
    split_and!; [done..|]. intros j [k' v'] Hj Hlt Heq. cbn in Heq. subst k'.
    assert (i = j); [|lia]. eapply NoDup_lookup; [exact Hd|..]; rewrite list_lookup_fmap; [by rewrite Hi|by rewrite Hj].
Qed.

Lemma lookup_by_key_perm k attributes attributes' :
  NoDup attributes.*1 → attributes ≡ₚ attributes' → lookup_by_key k attributes = lookup_by_key k attributes'.
Proof.
  intros Hd Hp. assert (NoDup attributes'.*1) as Hd' by (by rewrite <- Hp).
  apply option_eq. intros v. by rewrite !lookup_by_key_Some, Hp.
Qed.

Lemma lookup_by_key_None k attributes : lookup_by_key k attributes = None ↔ k ∉ attributes.*1.
Proof.
  unfold lookup_by_key. rewrite !fmap_None, list_find_None, list.Forall_forall, list_elem_of_fmap.
  split; [intros H (a & -> & Ha); by apply (H a)|]. intros H a Ha <-. apply H. by exists a.
Qed.

Lemma lookup_by_key_app k attributes attributes' :
  lookup_by_key k (attributes ++ attributes') =
  match lookup_by_key k attributes with Some v => Some v | None => lookup_by_key k attributes' end.
Proof.
  unfold lookup_by_key. destruct (list_find (λ a, a.1 = k) attributes) as [[i a]|] eqn:E.
  - by rewrite (list_find_app_l _ _ _ _ _ E).
  - rewrite list_find_app_r by done. cbn. by destruct (list_find _ attributes') as [[]|].
Qed.

(** Merging keeps the attributes at hand and adds the others. *)
Lemma merge_attributes_spec attributes stripped :
  NoDup attributes.*1 → NoDup (merge_attributes attributes stripped).*1 ∧
  ∀ k, lookup_by_key k (merge_attributes attributes stripped) =
    match lookup_by_key k attributes with Some v => Some v | None => lookup_by_key k stripped end.
Proof.
  unfold merge_attributes. revert attributes. induction stripped as [|a stripped IH]; intros attributes Hd; cbn [foldl].
  { split; [done|]. intros k. by destruct (lookup_by_key k attributes). }
  assert (existsb (λ b, bool_decide (b.1 = a.1)) attributes = bool_decide (a.1 ∈ attributes.*1)) as ->.
  { apply eq_true_iff_eq. rewrite existsb_exists, bool_decide_eq_true, list_elem_of_fmap.
    setoid_rewrite bool_decide_eq_true. setoid_rewrite <- list_elem_of_In. split; intros (b & H1 & H2); exists b; auto. }
  case_bool_decide as Ha.
  - destruct (IH attributes Hd) as [? Hl]. split; [done|]. intros k. rewrite Hl.
    destruct (lookup_by_key k attributes) eqn:E; [done|]. apply lookup_by_key_None in E.
    unfold lookup_by_key at 2. cbn [list_find]. rewrite decide_False by (intros <-; done).
    cbn. unfold lookup_by_key. by destruct (list_find _ stripped) as [[]|].
  - destruct (IH (attributes ++ [a])) as [? Hl].
    { rewrite fmap_app. apply list.NoDup_app. split_and!; [done| |apply NoDup_singleton].
      intros k Hk ->%list_elem_of_singleton. done. }
    split; [done|]. intros k. rewrite Hl, lookup_by_key_app. destruct (lookup_by_key k attributes); [done|].
    unfold lookup_by_key. cbn. case_decide; [done|]. cbn. by destruct (list_find _ stripped) as [[]|].
Qed.

Lemma strip_unnamed_spec attributes nested :
  NoDup attributes.*1 →
  let '(attributes', nested') := strip_unnamed attributes nested in
  NoDup attributes'.*1 ∧ names nested' = names nested ∧ name nested' = name nested ∧
  resolve_transparent nested' = resolve_transparent nested ∧
  ∀ k, match lookup_by_key k attributes' with Some v => Some v | None => attribute k nested' end =
       match lookup_by_key k attributes with Some v => Some v | None => attribute k nested end.
Proof.
  revert attributes. induction nested as [| | | | | | | | | | | | |fs _|n stripped nested IH] using type_ind';
    intros attributes Hd; try done.
  destruct n as [n|]; [done|]. cbn [strip_unnamed].
  destruct (merge_attributes_spec attributes stripped Hd) as [Hd' Hl].
  specialize (IH _ Hd'). destruct (strip_unnamed _ nested) as [attributes' nested'].
  destruct IH as (? & ? & ? & ? & Ha). split_and!; try done. intros k. rewrite Ha, Hl. cbn [attribute].
  by destruct (lookup_by_key k attributes).
Qed.

(** A type with new metadata: the name is the new one if there is one, new attributes hide those of
    the nested type, and the type below is the same. *)
Lemma make_spec sort n nested attributes :
  (∀ l, sort l ≡ₚ l) → NoDup attributes.*1 →
  name (make sort n nested attributes) = (if bool_decide (n = []) then name nested else n) ∧
  names (make sort n nested attributes) = (if bool_decide (n = []) then [] else [n]) ++ names nested ∧
  resolve_transparent (make sort n nested attributes) = resolve_transparent nested ∧
  ∀ k, attribute k (make sort n nested attributes) =
       match lookup_by_key k attributes with Some v => Some v | None => attribute k nested end.
Proof.
  intros Hsort Hd. unfold make. pose proof (strip_unnamed_spec attributes nested Hd) as Hs.
  destruct (strip_unnamed attributes nested) as [attributes' nested']. destruct Hs as (Hd' & Hns & Hn & Hr & Ha).
  assert (∀ k, lookup_by_key k (sort attributes') = lookup_by_key k attributes') as Hsk.
  { intros k. symmetry. by apply lookup_by_key_perm. }
  destruct n as [|c n]; [destruct attributes as [|a attributes]|]; [done|..]; cbn [name names resolve_transparent attribute];
    (split_and!; [try done..|]); try (by rewrite Hns); intros k; by rewrite Hsk, Ha.
Qed.
End metadata.

(** ** Checks *)

Section checks.
Import type.

(** [type_check] of a record accepts what it should reject: each value must fail the check of its
    field. *)
Lemma type_check_record fields u :
  type_check (t_record fields) (d_record u) =
  (lenN u =? lenN fields) &&
  forallb (λ p, bool_decide (p.1.1 = p.2.1) && negb (type_check p.1.2 p.2.2)) (zip fields u).
Proof.
  cbn [type_check]. destruct (lenN u =? lenN fields); [|done]. cbn [andb].
  revert u. induction fields as [|f fields IH]; intros [|d u]; try done. cbn [zip zip_with forallb fst snd].
  case_bool_decide; cbn [negb orb andb]; [|done]. destruct (type_check f.2 d.2); [done|]. apply IH.
Qed.

Lemma congruent_transparent_l x y : congruent (resolve_transparent x) y = congruent x y.
Proof. induction x using type_ind'; cbn; auto. Qed.

Lemma resolve_transparent_idemp t : resolve_transparent (resolve_transparent t) = resolve_transparent t.
Proof. induction t using type_ind'; cbn; auto. Qed.

Lemma congruent_transparent_r x y : congruent x (resolve_transparent y) = congruent x y.
Proof.
  induction x using type_ind'; cbn; try done; by rewrite ?resolve_transparent_idemp.
Qed.

Lemma resolve_transparent_concrete t n a t' : resolve_transparent t ≠ t_enriched n a t'.
Proof. induction t using type_ind'; cbn; auto; done. Qed.

Lemma congruent_sym x y : congruent x y = congruent y x.
Proof.
  revert y. induction x as [| | | | | | | | | |fs|x IH|xk xv IHk IHv|fs IH|n a x IH] using type_ind'; intros y;
    rewrite <- (congruent_transparent_l y), <- (congruent_transparent_r _ y);
    pose proof (resolve_transparent_concrete y) as Hy; destruct (resolve_transparent y) as [| | | | | | | | | |gs|y'|yk yv|gs|? ? ?];
    try (exfalso; by eapply Hy); clear Hy; try done; cbn [congruent resolve_transparent]; try (by rewrite IH).
  - apply bool_decide_ext. done.
  - by rewrite IHk, IHv.
  - revert gs. induction IH as [|f fs Hf Hfs IHfs]; intros [|g gs]; try done. by rewrite Hf, IHfs.
Qed.
End checks.

(** ** Equality of types

    Two types are equal if their tables are, byte for byte; here, if they are the same tree. *)
Fixpoint type_eqb (x y : type) {struct x} : bool :=
  match x, y with
  | t_none, t_none | t_bool, t_bool | t_int64, t_int64 | t_uint64, t_uint64 | t_double, t_double
  | t_duration, t_duration | t_time, t_time | t_string, t_string | t_ip, t_ip | t_subnet, t_subnet => true
  | t_enumeration xf, t_enumeration yf => bool_decide (xf = yf)
  | t_list x, t_list y => type_eqb x y
  | t_map xk xv, t_map yk yv => type_eqb xk yk && type_eqb xv yv
  | t_record xf, t_record yf =>
      (fix go (xf yf : list field) :=
        match xf, yf with
        | [], [] => true
        | x :: xf, y :: yf => bool_decide (x.1 = y.1) && type_eqb x.2 y.2 && go xf yf
        | _, _ => false
        end) xf yf
  | t_enriched xn xa x, t_enriched yn ya y => bool_decide (xn = yn) && bool_decide (xa = ya) && type_eqb x y
  | _, _ => false
  end.

Lemma type_eqb_spec x y : type_eqb x y = true ↔ x = y.
Proof.
  revert y. induction x as [| | | | | | | | | |fs|t IH|k v IHk IHv|fs IH|n a t IH] using type_ind';
    intros [| | | | | | | | | |gs|w|k' v'|gs|n' a' w]; cbn [type_eqb]; try (split; done).
  - rewrite bool_decide_eq_true. split; congruence.
  - rewrite IH. split; congruence.
  - rewrite andb_true_iff, IHk, IHv. split; [by intros [-> ->]|by intros [= -> ->]].
  - assert (∀ gs, (fix go (xf yf : list field) :=
        match xf, yf with
        | [], [] => true
        | x :: xf, y :: yf => bool_decide (x.1 = y.1) && type_eqb x.2 y.2 && go xf yf
        | _, _ => false
        end) fs gs = true ↔ fs = gs) as H; [|rewrite H; split; congruence].
    clear gs. induction IH as [|[n t] fs Ht _ IHfs]; intros [|[m u] gs]; try (split; done).
    cbn [fst snd] in *. rewrite !andb_true_iff, Ht, IHfs. rewrite bool_decide_eq_true.
    split; [by intros [[-> ->] ->]|by intros [= -> -> ->]].
  - rewrite !andb_true_iff, !bool_decide_eq_true, IH. split; [by intros [[-> ->] ->]|by intros [= -> -> ->]].
Qed.

#[export] Instance type_eq_dec : EqDecision type.
Proof.
  intros x y. destruct (type_eqb x y) eqn:E; [left|right].
  - by apply type_eqb_spec.
  - intros H%type_eqb_spec. congruence.
Defined.
