(* ===== verification/RecordType.v ===== *)
(** Walking over record types: [record_type] of [libvast/src/type.cpp].

    The functions of the source share one loop: a stack of records and an [offset] that counts the
    position in each of them. Both are lists here whose head is the top of the stack; the offsets
    that are handed out have the root first, as in the source. *)

From S2P Require Import Prelude Operator Data Types.

Module record_type.

(** The fields when a type is a record below its metadata. *)
Definition as_record (t : type) : option (list field) :=
  match type.resolve_transparent t with t_record fields => Some fields | _ => None end.

(** A leaf: a field that is not a record, with its offset. *)
Notation leaf_view := (list nat * field)%type.

(** [++index.back()] unless the offset is empty. *)
Definition bump (index : list nat) : list nat :=
  match index with [] => [] | i :: index => S i :: index end.

(** One round of the loop: step out at the end of a record, report a leaf, or step into a nested
    record. *)
Definition step (index : list nat) (history : list (list field))
    : option leaf_view * (list nat * list (list field)) :=
  match index, history with
  | i :: outer, fields :: below =>
      match fields !! i with
      | None => (None, (bump outer, below))
      | Some f =>
          match as_record f.2 with
          | None => (Some (reverse index, f), (bump index, history))
          | Some nested => (None, (0%nat :: index, nested :: history))
          end
      end
  | _, _ => (None, ([], []))
  end.

(** The rounds a record takes, its end included. *)
Fixpoint rounds (t : type) : nat :=
  match t with
  | t_enriched _ _ t => rounds t
  | t_record fields => (fix go (fs : list field) := match fs with [] => 1 | f :: fs => 1 + rounds f.2 + go fs end) fields
  | _ => 0
  end%nat.

Definition fields_rounds (fields : list field) : nat := rounds (t_record fields).

(** [leaves] *)
Fixpoint leaves_loop (fuel : nat) (index : list nat) (history : list (list field)) : list leaf_view :=
  match fuel, index with
  | S fuel, _ :: _ =>
      match step index history with
      | (Some leaf, (index, history)) => leaf :: leaves_loop fuel index history
      | (None, (index, history)) => leaves_loop fuel index history
      end
  | _, _ => []
  end.

Definition leaves (fields : list field) : list leaf_view :=
  leaves_loop (fields_rounds fields) [0%nat] [fields].

(** [num_leaves] *)
Fixpoint num_leaves_loop (fuel : nat) (num_leaves : N) (index : list nat) (history : list (list field)) : N :=
  match fuel, index with
  | S fuel, _ :: _ =>
      match step index history with
      | (Some _, (index, history)) => num_leaves_loop fuel (num_leaves + 1) index history
      | (None, (index, history)) => num_leaves_loop fuel num_leaves index history
      end
  | _, _ => num_leaves
  end.

Definition num_leaves (fields : list field) : N :=
  num_leaves_loop (fields_rounds fields) 0 [0%nat] [fields].

(** [resolve_flat_index]; [None] is [die]. *)
Fixpoint resolve_flat_index_loop (fuel : nat) (current_flat_index flat_index : N) (index : list nat)
    (history : list (list field)) : option (list nat) :=
  match fuel, index with
  | S fuel, _ :: _ =>
      match step index history with
      | (Some leaf, (index, history)) =>
          if current_flat_index =? flat_index then Some leaf.1
          else resolve_flat_index_loop fuel (current_flat_index + 1) flat_index index history
      | (None, (index, history)) => resolve_flat_index_loop fuel current_flat_index flat_index index history
      end
  | _, _ => None
  end.

Definition resolve_flat_index (fields : list field) (flat_index : N) : option (list nat) :=
  resolve_flat_index_loop (fields_rounds fields) 0 flat_index [0%nat] [fields].

(** [flat_index]; [None] where the assertions of the source fail. *)
Fixpoint flat_index_loop (fuel : nat) (flat_index : N) (target : list nat) (current_index : list nat)
    (history : list (list field)) : option N :=
  match fuel with
  | S fuel =>
      match step current_index history with
      | (Some leaf, (current_index, history)) =>
          if bool_decide (target = leaf.1) then Some flat_index
          else flat_index_loop fuel (flat_index + 1) target current_index history
      | (None, (current_index, history)) => flat_index_loop fuel flat_index target current_index history
      end
  | O => None
  end.

Definition flat_index (fields : list field) (index : list nat) : option N :=
  flat_index_loop (fields_rounds fields) 0 index [0%nat] [fields].

(** [field(offset)]; [None] where the assertions of the source fail. *)
Fixpoint field_at (fields : list field) (index : list nat) : option field :=
  match index with
  | [] => None
  | i :: index =>
      f ← fields !! i;
      match index with
      | [] => Some f
      | _ => nested ← as_record f.2; field_at nested index
      end
  end.

(** The separator of nested names. *)
Definition dot : N := 46.

(** [key(offset)] *)
Fixpoint key (fields : list field) (index : list nat) : option (list N) :=
  match index with
  | [] => None
  | i :: index =>
      f ← fields !! i;
      match index with
      | [] => Some f.1
      | _ => nested ← as_record f.2; rest ← key nested index; Some (f.1 ++ [dot] ++ rest)
      end
  end.

(** [std::mismatch] of a key and a name: what is left of the key when the name is a prefix. *)
Fixpoint strip_prefix (name key : list N) : option (list N) :=
  match name, key with
  | [], _ => Some key
  | x :: name, y :: key => if x =? y then strip_prefix name key else None
  | _ :: _, [] => None
  end.

(** [resolve_key]: the stack also has what is left of the key for each record. *)
Fixpoint resolve_key_loop (fuel : nat) (index : list nat) (history : list (list field * list N))
    : option (list nat) :=
  match fuel, index, history with
  | S fuel, i :: outer, (fields, remaining_key) :: below =>
      match fields !! i, remaining_key with
      | None, _ | _, [] => resolve_key_loop fuel (bump outer) below
      | Some f, _ =>
          match as_record f.2 with
          | None =>
              if bool_decide (remaining_key = f.1) then Some (reverse index)
              else resolve_key_loop fuel (bump index) history
          | Some nested =>
              match strip_prefix f.1 remaining_key with
              | Some [] => Some (reverse index)
              | Some (c :: rest) =>
                  if c =? dot then resolve_key_loop fuel (0%nat :: index) ((nested, rest) :: history)
                  else resolve_key_loop fuel (bump index) history
              | None => resolve_key_loop fuel (bump index) history
              end
          end
      end
  | _, _, _ => None
  end.

Definition resolve_key (fields : list field) (k : list N) : option (list nat) :=
  resolve_key_loop (fields_rounds fields) [0%nat] [(fields, k)].

(** [flatten(record_type)] *)
Definition flatten (fields : list field) : list field :=
  (λ l, (default [] (key fields l.1), l.2.2)) <$> leaves fields.
End record_type.

(** ** The leaves of a record, by recursion on its tree *)

Import record_type.

Definition below (i : nat) (l : leaf_view) : leaf_view := (i :: l.1, l.2).

Fixpoint tree_leaves (t : type) : list leaf_view :=
  match t with
  | t_enriched _ _ t => tree_leaves t
  | t_record fields =>
      (fix go (i : nat) (fs : list field) :=
        match fs with
        | [] => []
        | f :: fs =>
            (match as_record f.2 with None => [([i], f)] | Some _ => below i <$> tree_leaves f.2 end)
              ++ go (S i) fs
        end) 0%nat fields
  | _ => []
  end.

Fixpoint fields_leaves (i : nat) (fs : list field) : list leaf_view :=
  match fs with
  | [] => []
  | f :: fs =>
      (match as_record f.2 with None => [([i], f)] | Some _ => below i <$> tree_leaves f.2 end)
        ++ fields_leaves (S i) fs
  end.

Lemma tree_leaves_record fs : tree_leaves (t_record fs) = fields_leaves 0 fs.
Proof. done. Qed.

Lemma fields_rounds_cons f fs : fields_rounds (f :: fs) = (1 + rounds f.2 + fields_rounds fs)%nat.
Proof. done. Qed.

Lemma as_record_rounds t fs : as_record t = Some fs → rounds t = fields_rounds fs.
Proof. induction t using type_ind'; cbn; intros Ht; try done; [by injection Ht as <-|auto]. Qed.

Lemma as_record_leaves t fs : as_record t = Some fs → tree_leaves t = fields_leaves 0 fs.
Proof. induction t using type_ind'; cbn; intros Ht; try done; [by injection Ht as <-|auto]. Qed.

Lemma no_record_rounds t : as_record t = None → rounds t = 0%nat.
Proof. induction t using type_ind'; cbn; intros Ht; try done; auto. Qed.

Lemma as_record_ind (P : list field → Prop) :
  (∀ fs, (∀ f nested, f ∈ fs → as_record f.2 = Some nested → P nested) → P fs) → ∀ fs, P fs.
Proof.
  intros Hstep fs. enough (∀ t fs, as_record t = Some fs → P fs) as H by (by apply (H (t_record fs))).
  clear fs. intros t. induction t as [| | | | | | | | | | | | |fs IH|n a t IH] using type_ind';
    intros fs' Ht; try done; [|by apply IH].
  cbn in Ht. injection Ht as <-. apply Hstep. intros f nested Hf Hn.
  rewrite list.Forall_forall in IH. exact (IH f Hf nested Hn).
Qed.

(** The loop reports the leaves of a record and then goes on behind it. *)
Definition prefixed (outer : list nat) (l : leaf_view) : leaf_view := (reverse outer ++ l.1, l.2).

Lemma prefixed_below outer i (ls : list leaf_view) :
  prefixed outer <$> (below i <$> ls) = prefixed (i :: outer) <$> ls.
Proof.
  rewrite <- list_fmap_compose. apply list_fmap_ext. intros _ [o f] _. unfold prefixed, below. cbn [compose fst snd].
  by rewrite reverse_cons, <- app_assoc.
Qed.

Lemma leaves_loop_fields fs outer history k :
  leaves_loop (fields_rounds fs + k) (0%nat :: outer) (fs :: history) =
  (prefixed outer <$> fields_leaves 0 fs) ++ leaves_loop k (bump outer) history.
Proof.
  revert outer history k. induction fs as [fs IH] using as_record_ind. intros outer history k.
  assert (∀ rest done : list field, fs = done ++ rest →
    leaves_loop (fields_rounds rest + k) (length done :: outer) (fs :: history) =
    (prefixed outer <$> fields_leaves (length done) rest) ++ leaves_loop k (bump outer) history) as H;
    [|by apply (H fs [])].
  induction rest as [|f rest IHr]; intros done_ Hfs.
  - cbn [fields_rounds rounds plus leaves_loop step]. unfold step.
    rewrite Hfs, app_nil_r, lookup_ge_None_2 by lia. done.
  - assert (fs !! length done_ = Some f) as Hf by (by rewrite Hfs, list_lookup_middle).
    assert (∀ k', k' = (fields_rounds rest + k)%nat →
      leaves_loop k' (S (length done_) :: outer) (fs :: history) =
      (prefixed outer <$> fields_leaves (S (length done_)) rest) ++ leaves_loop k (bump outer) history) as Hnext.
    { intros k' ->. specialize (IHr (done_ ++ [f])). rewrite length_app, Nat.add_1_r in IHr. apply IHr.
      by rewrite <- app_assoc. }
    rewrite fields_rounds_cons. cbn [plus leaves_loop]. unfold step. rewrite Hf. cbn [fields_leaves].
    destruct (as_record f.2) as [nested|] eqn:En.
    + rewrite (as_record_rounds _ _ En), (as_record_leaves _ _ En), <- Nat.add_assoc, (IH f nested);
        [|rewrite Hfs; apply elem_of_app; right; by left|done].
      cbn [bump]. by rewrite Hnext, fmap_app, prefixed_below, app_assoc.
    + rewrite no_record_rounds by done. cbn [bump]. rewrite Hnext by lia.
      rewrite fmap_app. cbn [fmap list_fmap app]. unfold prefixed at 2. cbn [fst snd]. by rewrite reverse_cons.
Qed.

Lemma leaves_tree fs : leaves fs = fields_leaves 0 fs.
Proof.
  unfold leaves. rewrite <- (Nat.add_0_r (fields_rounds fs)), leaves_loop_fields. cbn. rewrite app_nil_r.
  rewrite <- (list_fmap_id (fields_leaves 0 fs)) at 2. apply list_fmap_ext. intros ? [] ?; done.
Qed.

(** The other loops see the same leaves. *)
Lemma num_leaves_loop_spec fuel n index history :
  num_leaves_loop fuel n index history = n + lenN (leaves_loop fuel index history).
Proof.
  revert n index history. induction fuel as [|fuel IH]; intros n [|i outer] history; cbn [num_leaves_loop leaves_loop];
    try (rewrite lenN_nil; lia).
  destruct (step (i :: outer) history) as [[leaf|] [index' history']]; rewrite IH, ?lenN_cons; lia.
Qed.

Lemma num_leaves_spec fs : num_leaves fs = lenN (leaves fs).
Proof. unfold num_leaves. by rewrite num_leaves_loop_spec. Qed.

Lemma resolve_flat_index_loop_spec fuel c target index history :
  c <= target → resolve_flat_index_loop fuel c target index history =
  fst <$> leaves_loop fuel index history !! N.to_nat (target - c).
Proof.
  revert c index history. induction fuel as [|fuel IH]; intros c [|i outer] history Hc;
    cbn [resolve_flat_index_loop leaves_loop]; try done.
  destruct (step (i :: outer) history) as [[leaf|] [index' history']]; [|by apply IH].
  destruct (N.eqb_spec c target) as [->|Hne]; [by rewrite N.sub_diag|].
  rewrite IH by lia. by replace (N.to_nat (target - c)) with (S (N.to_nat (target - (c + 1)))) by lia.
Qed.

Lemma flat_index_loop_spec fuel n target index history :
  flat_index_loop fuel n target index history =
  (λ p, n + N.of_nat p.1) <$> list_find (λ l : leaf_view, target = l.1) (leaves_loop fuel index history).
Proof.
  revert n index history. induction fuel as [|fuel IH]; intros n index history; cbn [flat_index_loop leaves_loop]; [done|].
  destruct index as [|i outer].
  { cbn. rewrite IH. by destruct fuel. }
  destruct (step (i :: outer) history) as [[leaf|] [index' history']]; [|by apply IH]. cbn [list_find].
  case_bool_decide; [rewrite decide_True by done; cbn; f_equal; lia|]. rewrite decide_False by done.
  rewrite IH. destruct (list_find _ _) as [[]|]; cbn; [f_equal; lia|done].
Qed.

(** ** Offsets *)

Lemma fields_leaves_head i fs l : l ∈ fields_leaves i fs → ∃ j o, (i <= j)%nat ∧ l.1 = j :: o.
Proof.
  revert i. induction fs as [|f fs IH]; intros i Hl; cbn in Hl; [by apply not_elem_of_nil in Hl|].
  apply elem_of_app in Hl as [Hl|Hl].
  - destruct (as_record f.2); [apply list_elem_of_fmap in Hl as (l' & -> & _)|apply list_elem_of_singleton in Hl as ->];
      eexists i, _; split; done.
  - destruct (IH _ Hl) as (j & o & ? & ?). exists j, o. split; [lia|done].
Qed.

Lemma fields_leaves_NoDup i fs : NoDup (fields_leaves i fs).*1.
Proof.
  revert i. induction fs as [fs IH] using as_record_ind.
  assert (∀ rest i, rest ⊆ fs → NoDup (fields_leaves i rest).*1) as H; [|intros i; by apply H].
  induction rest as [|f rest IHr]; intros i Hsub; cbn [fields_leaves]; [apply NoDup_nil_2|].
  rewrite fmap_app. apply list.NoDup_app. split_and!.
  - destruct (as_record f.2) as [nested|] eqn:En; [|apply NoDup_singleton].
    rewrite (as_record_leaves _ _ En), <- list_fmap_compose.
    change (fst ∘ below i) with (cons i ∘ (fst (A:=list nat) (B:=field))). rewrite list_fmap_compose. apply NoDup_fmap_2; [by intros ? ? [= ?]|].
    apply (IH f nested); [apply Hsub; by left|done].
  - intros o (l & -> & Hl)%list_elem_of_fmap (l' & Heq & Hl')%list_elem_of_fmap.
    apply fields_leaves_head in Hl' as (j & o' & Hj & Ho'). rewrite Ho' in Heq.
    assert (∃ o, l.1 = i :: o) as [o Ho]; [|rewrite Ho in Heq; injection Heq; lia].
    destruct (as_record f.2); [apply list_elem_of_fmap in Hl as (l2 & -> & _)|apply list_elem_of_singleton in Hl as ->];
      by eexists.
  - apply IHr. intros x Hx. apply Hsub. by right.
Qed.

Lemma leaves_NoDup fs : NoDup (leaves fs).*1.
Proof. rewrite leaves_tree. apply fields_leaves_NoDup. Qed.

(** The leaf is the field at its offset. *)
Lemma fields_leaves_field fs l :
  l ∈ fields_leaves 0 fs → field_at fs l.1 = Some l.2 ∧ as_record l.2.2 = None ∧ is_Some (key fs l.1).
Proof.
  revert l. induction fs as [fs IH] using as_record_ind.
  assert (∀ rest done_ l, fs = done_ ++ rest → l ∈ fields_leaves (length done_) rest →
    field_at fs l.1 = Some l.2 ∧ as_record l.2.2 = None ∧ is_Some (key fs l.1)) as H; [|intros l; by apply (H fs [])].
  induction rest as [|f rest IHr]; intros done_ l Hfs Hl; cbn in Hl; [by apply not_elem_of_nil in Hl|].
  assert (fs !! length done_ = Some f) as Hf by (by rewrite Hfs, list_lookup_middle).
  apply elem_of_app in Hl as [Hl|Hl].
  - destruct (as_record f.2) as [nested|] eqn:En.
    + rewrite (as_record_leaves _ _ En) in Hl. apply list_elem_of_fmap in Hl as (l' & -> & Hl').
      destruct (IH f nested) with (l := l') as (H1 & H2 & k & H3); [rewrite Hfs; apply elem_of_app; right; by left|done..|].
      pose proof (fields_leaves_head _ _ _ Hl') as (j & o & _ & Ho). unfold below. cbn [fst snd field_at key].
      rewrite Hf. cbn [mbind option_bind]. rewrite En. cbn [mbind option_bind].
      rewrite H1, H3. rewrite Ho. cbn. split_and!; [done..|by eexists].
    + apply list_elem_of_singleton in Hl as ->. cbn. rewrite Hf. cbn. split_and!; [done..|by eexists].
  - apply (IHr (done_ ++ [f])); [by rewrite <- app_assoc|]. by rewrite length_app, Nat.add_1_r.
Qed.

Lemma leaves_field fs l :
  l ∈ leaves fs → field_at fs l.1 = Some l.2 ∧ as_record l.2.2 = None ∧ is_Some (key fs l.1).
Proof. rewrite leaves_tree. apply fields_leaves_field. Qed.

(** *** Flat indexes *)

Lemma list_find_NoDup (ls : list leaf_view) i l :
  NoDup ls.*1 → ls !! i = Some l → list_find (λ l', l.1 = l'.1) ls = Some (i, l).
Proof.
  intros Hd Hi. apply list_find_Some. split_and!; [done..|]. intros j l' Hj Hlt Heq.
  assert (i = j) as ->; [|lia]. eapply NoDup_lookup; [exact Hd|..]; rewrite list_lookup_fmap.
  - by rewrite Hi.
  - rewrite Hj. cbn. by rewrite Heq.
Qed.

Lemma resolve_flat_index_spec fs n :
  resolve_flat_index fs n = fst <$> leaves fs !! N.to_nat n.
Proof. unfold resolve_flat_index. rewrite resolve_flat_index_loop_spec by lia. by rewrite N.sub_0_r. Qed.

Lemma flat_index_spec fs o :
  flat_index fs o = (λ p, N.of_nat p.1) <$> list_find (λ l : leaf_view, o = l.1) (leaves fs).
Proof. unfold flat_index. rewrite flat_index_loop_spec. done. Qed.

Lemma flat_index_resolve fs n o : resolve_flat_index fs n = Some o ↔ flat_index fs o = Some n.
Proof.
  rewrite resolve_flat_index_spec, flat_index_spec. split.
  - intros (l & Hl & ->)%fmap_Some. rewrite (list_find_NoDup _ _ _ (leaves_NoDup fs) Hl). cbn. f_equal. lia.
  - intros ([i l] & Hl & ->)%fmap_Some. apply list_find_Some in Hl as (Hi & -> & _). cbn [fst].
    rewrite Nat2N.id. rewrite Hi. done.
Qed.

(** *** Keys *)

(** Names are distinct within a record, not empty, and have no dot. *)
Fixpoint well_named (t : type) : Prop :=
  match t with
  | t_enriched _ _ t => well_named t
  | t_record fields =>
      NoDup fields.*1 ∧
      (fix go (fs : list field) :=
        match fs with [] => True | f :: fs => (f.1 ≠ []) ∧ (dot ∉ f.1) ∧ well_named f.2 ∧ go fs end) fields
  | _ => True
  end.

Lemma well_named_fields fs f :
  well_named (t_record fs) → f ∈ fs → (f.1 ≠ []) ∧ (dot ∉ f.1) ∧ well_named f.2.
Proof.
  intros [_ Hgo]. induction fs as [|g fs IH]; [by intros ?%not_elem_of_nil|].
  destruct Hgo as (? & ? & ? & Hgo). intros [->|Hf]%elem_of_cons; auto.
Qed.

Lemma well_named_record t fs : as_record t = Some fs → well_named t → well_named (t_record fs).
Proof.
  induction t as [| | | | | | | | | | | | |fs' _|n a t IH] using type_ind'; intros Ht Hw; try done; [|by apply IH].
  by injection Ht as <-.
Qed.

Lemma strip_prefix_spec n k rest : strip_prefix n k = Some rest ↔ k = n ++ rest.
Proof.
  revert k. induction n as [|x n IH]; intros k; cbn; [split; congruence|].
  destruct k as [|y k]; [done|]. destruct (N.eqb_spec x y) as [->|Hne]; [rewrite IH; split; congruence|].
  split; [done|congruence].
Qed.

Lemma app_dot_inj (n m : list N) r r' :
  dot ∉ n → dot ∉ m → n ++ dot :: r = m ++ dot :: r' → n = m ∧ r = r'.
Proof.
  revert m. induction n as [|x n IH]; intros [|y m] Hn Hm Heq; cbn in Heq.
  - by injection Heq.
  - injection Heq as <- _. destruct Hm. by left.
  - injection Heq as -> _. destruct Hn. by left.
  - injection Heq as -> Heq. rewrite not_elem_of_cons in Hn, Hm. destruct (IH m) as [-> ->]; tauto.
Qed.

(** A field with another name is passed over. *)
Lemma resolve_key_skip fuel i outer fs history f n k :
  fs !! i = Some f → f.1 ≠ n → dot ∉ f.1 → dot ∉ n → n ≠ [] → (k = n ∨ ∃ r, k = n ++ dot :: r) →
  resolve_key_loop (S fuel) (i :: outer) ((fs, k) :: history) =
  resolve_key_loop fuel (S i :: outer) ((fs, k) :: history).
Proof.
  intros Hf Hne Hfd Hnd Hn Hk. cbn [resolve_key_loop]. rewrite Hf.
  assert (k ≠ []) as Hk0 by (destruct Hk as [->|[r ->]]; [done|by destruct n]).
  assert (k ≠ f.1) as Hkf.
  { destruct Hk as [->|[r ->]]; [congruence|]. intros E. apply Hfd. rewrite <- E. apply elem_of_app. right. by left. }
  destruct k as [|c k]; [done|]. destruct (as_record f.2) as [nested|].
  - destruct (strip_prefix f.1 (c :: k)) as [[|c' rest]|] eqn:E; [..|done].
    { apply strip_prefix_spec in E. by rewrite app_nil_r in E. }
    apply strip_prefix_spec in E. destruct (N.eqb_spec c' dot) as [->|]; [|done]. exfalso. apply Hne.
    destruct Hk as [Hk|[r Hk]]; rewrite Hk in E.
    + destruct Hnd. rewrite E. apply elem_of_app. right. by left.
    + by apply app_dot_inj in E as [-> _].
  - by rewrite bool_decide_eq_false_2.
Qed.

Lemma fields_rounds_drop fs i f :
  fs !! i = Some f → fields_rounds (drop i fs) = (1 + rounds f.2 + fields_rounds (drop (S i) fs))%nat.
Proof. intros Hf. by rewrite (drop_S _ _ _ Hf), fields_rounds_cons. Qed.

Lemma fields_rounds_pos fs : (0 < fields_rounds fs)%nat.
Proof. destruct fs; [cbn; lia|]. rewrite fields_rounds_cons. lia. Qed.

Lemma resolve_key_loop_spec o fs k outer history fuel :
  well_named (t_record fs) → key fs o = Some k → (fields_rounds fs <= fuel)%nat →
  resolve_key_loop fuel (0%nat :: outer) ((fs, k) :: history) = Some (reverse outer ++ o).
Proof.
  revert fs k outer history fuel. induction o as [|i o IH]; intros fs k outer history fuel Hw Hk Hfuel; [done|].
  cbn [key] in Hk. destruct (fs !! i) as [f|] eqn:Hf; [|done]. cbn [mbind option_bind] in Hk.
  destruct (well_named_fields fs f Hw) as (Hne & Hnd & Hwf); [by eapply list_elem_of_lookup_2|].
  assert (k = f.1 ∨ ∃ r, k = f.1 ++ dot :: r) as Hk'.
  { destruct o as [|i' o]; [injection Hk; auto|]. destruct (as_record f.2) as [nested|]; [|done].
    cbn [mbind option_bind] in Hk. destruct (key nested (i' :: o)) as [r|]; [|done]. injection Hk as <-.
    right. by exists r. }
  assert (∀ d j fuel, (j + d = i)%nat → (fields_rounds (drop j fs) <= fuel)%nat →
    ∃ fuel', (fields_rounds (drop i fs) <= fuel')%nat ∧
    resolve_key_loop fuel (j :: outer) ((fs, k) :: history) =
    resolve_key_loop fuel' (i :: outer) ((fs, k) :: history)) as Hskip.
  { induction d as [|d IHd]; intros j fuel' Hj Hfuel'; [rewrite Nat.add_0_r in Hj; subst; by exists fuel'|].
    assert (is_Some (fs !! j)) as [g Hg] by (apply lookup_lt_is_Some; apply lookup_lt_Some in Hf; lia).
    rewrite (fields_rounds_drop _ _ _ Hg) in Hfuel'. destruct fuel' as [|fuel']; [lia|].
    destruct (well_named_fields fs g Hw) as (_ & Hgd & _); [by eapply list_elem_of_lookup_2|].
    assert (g.1 ≠ f.1) as Hgf.
    { intros Heq. assert (i = j); [|lia]. destruct Hw as [Hd _]. eapply NoDup_lookup; [exact Hd|..];
        rewrite list_lookup_fmap; [by rewrite Hf|rewrite Hg; cbn; congruence]. }
    rewrite (resolve_key_skip _ _ _ _ _ g f.1) by done.
    apply IHd; lia. }
  destruct (Hskip i 0%nat fuel) as (fuel' & Hf' & ->); [lia|by rewrite drop_0|].
  rewrite (fields_rounds_drop _ _ _ Hf) in Hf'. destruct fuel' as [|fuel']; [lia|]. cbn [resolve_key_loop]. rewrite Hf.
  assert (k ≠ []) as Hk0 by (destruct Hk' as [->|[r ->]]; [done|by destruct f.1]).
  destruct k as [|c k]; [done|]. destruct (as_record f.2) as [nested|] eqn:En.
  - destruct o as [|i' o].
    + injection Hk as Hk. assert (strip_prefix f.1 (c :: k) = Some []) as -> by (apply strip_prefix_spec; by rewrite app_nil_r).
      by rewrite reverse_cons.
    + cbn [mbind option_bind] in Hk. destruct (key nested (i' :: o)) as [r|] eqn:Er; [|done]. cbn in Hk. injection Hk as Hk.
      assert (strip_prefix f.1 (c :: k) = Some (dot :: r)) as -> by (by apply strip_prefix_spec).
      rewrite N.eqb_refl, (IH nested r); [|by eapply well_named_record|done|rewrite (as_record_rounds _ _ En) in Hf'; lia].
      by rewrite reverse_cons, <- app_assoc.
  - destruct o; [|done]. injection Hk as Hk. rewrite bool_decide_eq_true_2 by done. by rewrite reverse_cons.
Qed.

Lemma resolve_key_key fs o k : well_named (t_record fs) → key fs o = Some k → resolve_key fs k = Some o.
Proof. intros Hw Hk. unfold resolve_key. by rewrite (resolve_key_loop_spec o fs k). Qed.

(** *** Flattening *)

Lemma flat_leaves fs i :
  (∀ f, f ∈ fs → as_record f.2 = None) → (fields_leaves i fs).*2 = fs.
Proof.
  revert i. induction fs as [|f fs IH]; intros i Hfs; [done|]. cbn [fields_leaves].
  rewrite (Hfs f) by (by left). cbn. f_equal. apply IH. intros g Hg. apply Hfs. by right.
Qed.

Lemma flatten_leaves fs : (leaves (flatten fs)).*2 = flatten fs ∧ ∀ f, f ∈ flatten fs → as_record f.2 = None.
Proof.
  assert (∀ f, f ∈ flatten fs → as_record f.2 = None) as H.
  { intros f (l & -> & Hl)%list_elem_of_fmap. cbn. by apply (leaves_field fs l). }
  split; [|done]. rewrite leaves_tree. by apply flat_leaves.
Qed.
