(* ===== verification/KeySuffix.v ===== *)
(** Resolving a key by its suffix: [record_type::resolve_key_suffix] of [libvast/src/type.cpp]. *)

From S2P Require Import Prelude Operator Data Types RecordType.

Module key_suffix.
Import record_type.

(** What is left of a key behind a name and a dot. *)
Definition strip_name (name key : list N) : option (list N) :=
  match strip_prefix name key with
  | Some (c :: rest) => if c =? dot then Some rest else None
  | _ => None
  end.

(** The loop over the prefix: the keys without the prefix, or without the part of it that follows
    one of its dots. [start] tells that the position is the first or behind a dot. *)
Fixpoint prefix_keys (start : bool) (prefix key : list N) : list (list N) :=
  match prefix with
  | [] => []
  | c :: rest =>
      (if start then match strip_name prefix key with Some k => [k] | None => [] end else []) ++
      prefix_keys (c =? dot) rest key
  end.

(** A name that ends with the key, and has a dot in front of it if it is longer. *)
Definition name_matches (field_name remaining_key : list N) : bool :=
  match strip_prefix (reverse remaining_key) (reverse field_name) with
  | Some [] => true
  | Some (c :: _) => c =? dot
  | None => false
  end.

(** The keys for a nested record: those of the root, and the keys that go on behind its name. *)
Definition next_keys (keys0 remaining_keys : list (list N)) (field_name : list N) : list (list N) :=
  keys0 ++ omap (strip_name field_name) remaining_keys.

(** The main loop; [keys0] is [history[0].second]. *)
Fixpoint loop (fuel : nat) (keys0 : list (list N)) (index : list nat)
    (history : list (list field * list (list N))) : list (list nat) :=
  match fuel, index, history with
  | S fuel, i :: outer, (fields, remaining_keys) :: below =>
      match fields !! i with
      | None => loop fuel keys0 (bump outer) below
      | Some f =>
          match as_record f.2 with
          | None =>
              (if existsb (name_matches f.1) remaining_keys then [reverse index] else []) ++
              loop fuel keys0 (bump index) history
          | Some nested => loop fuel keys0 (0%nat :: index) ((nested, next_keys keys0 remaining_keys f.1) :: history)
          end
      end
  | _, _, _ => []
  end.

Definition resolve_key_suffix (fields : list field) (key prefix : list N) : list (list nat) :=
  match key with
  | [] => []
  | _ =>
      let keys0 := key :: prefix_keys true prefix key in
      loop (fields_rounds fields) keys0 [0%nat] [(fields, keys0)]
  end.
End key_suffix.

(** ** The leaves that are found *)

Import record_type key_suffix.

Section suffix.
Context (keys0 : list (list N)).

(** Whether a leaf is found from a record on. *)
Fixpoint found (keys : list (list N)) (fs : list field) (o : list nat) : bool :=
  match o with
  | [] => false
  | i :: o =>
      match fs !! i with
      | None => false
      | Some f =>
          match o with
          | [] => existsb (name_matches f.1) keys
          | _ => match as_record f.2 with Some nested => found (next_keys keys0 keys f.1) nested o | None => false end
          end
      end
  end.

(** The rest of the record from field [i] on, found by the loop. *)
Definition found_from keys fs i rest : list leaf_view := filter (λ l, found keys fs l.1 = true) (fields_leaves i rest).

Lemma filter_below keys fs i f nested (ls : list leaf_view) : fs !! i = Some f → as_record f.2 = Some nested →
  (∀ l, l ∈ ls → l.1 ≠ []) →
  filter (λ l : leaf_view, found keys fs l.1 = true) (below i <$> ls) =
  below i <$> filter (λ l : leaf_view, found (next_keys keys0 keys f.1) nested l.1 = true) ls.
Proof.
  intros Hf Hn Hne. induction ls as [|[o g] ls IH]; [done|]. cbn [fmap list_fmap]. rewrite !filter_cons.
  rewrite IH by (intros l Hl; apply Hne; by apply list_elem_of_further).
  specialize (Hne (o, g) (list_elem_of_here _ _)). cbn [below fst found] in *. rewrite Hf.
  destruct o as [|j o]; [done|]. rewrite Hn. by repeat case_decide.
Qed.

Lemma fields_leaves_ne fs l : l ∈ fields_leaves 0 fs → l.1 ≠ [].
Proof. intros (j & o & _ & ->)%fields_leaves_head. done. Qed.

Lemma loop_fields fs keys outer history k :
  loop (fields_rounds fs + k) keys0 (0%nat :: outer) ((fs, keys) :: history) =
  (prefixed outer <$> found_from keys fs 0 fs).*1 ++ loop k keys0 (bump outer) history.
Proof.
  revert keys outer history k. induction fs as [fs IH] using as_record_ind. intros keys outer history k.
  assert (∀ rest done : list field, fs = done ++ rest →
    loop (fields_rounds rest + k) keys0 (length done :: outer) ((fs, keys) :: history) =
    (prefixed outer <$> found_from keys fs (length done) rest).*1 ++ loop k keys0 (bump outer) history) as H;
    [|by apply (H fs [])].
  induction rest as [|f rest IHr]; intros done_ Hfs.
  - cbn [fields_rounds rounds plus loop]. by rewrite Hfs, app_nil_r, lookup_ge_None_2 by lia.
  - assert (fs !! length done_ = Some f) as Hf by (by rewrite Hfs, list_lookup_middle).
    assert (∀ k', k' = (fields_rounds rest + k)%nat →
      loop k' keys0 (S (length done_) :: outer) ((fs, keys) :: history) =
      (prefixed outer <$> found_from keys fs (S (length done_)) rest).*1 ++ loop k keys0 (bump outer) history) as Hnext.
    { intros k' ->. specialize (IHr (done_ ++ [f])). rewrite length_app, Nat.add_1_r in IHr. apply IHr.
      by rewrite <- app_assoc. }
    rewrite fields_rounds_cons. cbn [plus loop]. rewrite Hf. unfold found_from. cbn [fields_leaves].
    destruct (as_record f.2) as [nested|] eqn:En.
    + rewrite (as_record_rounds _ _ En), (as_record_leaves _ _ En), <- Nat.add_assoc, (IH f nested);
        [|rewrite Hfs; apply elem_of_app; right; by left|done].
      cbn [bump]. rewrite Hnext by done. rewrite list.filter_app, !fmap_app, (filter_below _ _ _ f nested), prefixed_below, app_assoc;
        [done..|apply fields_leaves_ne].
    + rewrite no_record_rounds by done. cbn [bump]. rewrite Hnext by lia. cbn [app].
      rewrite filter_cons. cbn [fst found]. rewrite Hf.
      destruct (existsb (name_matches f.1) keys); [rewrite decide_True by done|rewrite decide_False by done]; [|done].
      cbn [fmap list_fmap app]. unfold prefixed at 2. cbn [fst snd]. by rewrite reverse_cons.
Qed.

(** The names on the way to a leaf. *)
Fixpoint path (fs : list field) (o : list nat) : option (list (list N)) :=
  match o with
  | [] => None
  | i :: o =>
      f ← fs !! i;
      match o with
      | [] => Some [f.1]
      | _ => nested ← as_record f.2; rest ← path nested o; Some (f.1 :: rest)
      end
  end.

(** Names joined by dots. *)
Fixpoint join (ns : list (list N)) : list N :=
  match ns with [] => [] | [n] => n | n :: ns => n ++ dot :: join ns end.

Lemma name_matches_spec n r : n ≠ [] → dot ∉ n → name_matches n r = true ↔ r = n.
Proof.
  intros Hn Hd. unfold name_matches. destruct (strip_prefix _ _) as [rest|] eqn:E.
  - apply strip_prefix_spec in E. apply (f_equal reverse) in E. rewrite reverse_app, !reverse_involutive in E.
    destruct rest as [|c rest]; [cbn in E; rewrite E; by split|]. split.
    + intros ->%N.eqb_eq. destruct Hd. rewrite E, reverse_cons, !elem_of_app, list_elem_of_singleton. auto.
    + intros ->. exfalso. apply (f_equal length) in E. rewrite length_app, length_reverse in E. cbn in E. lia.
  - split; [done|]. intros ->. rewrite (proj2 (strip_prefix_spec _ _ [])) in E; [done|]. by rewrite app_nil_r.
Qed.

Lemma strip_name_spec n k r : strip_name n k = Some r ↔ k = n ++ dot :: r.
Proof.
  unfold strip_name. destruct (strip_prefix n k) as [[|c rest]|] eqn:E.
  - split; [done|]. intros ->. apply strip_prefix_spec in E. apply app_inv_head in E. done.
  - apply strip_prefix_spec in E as ->. destruct (N.eqb_spec c dot) as [->|Hc].
    + split; [congruence|]. intros H%app_inv_head. congruence.
    + split; [done|]. intros H%app_inv_head. congruence.
  - split; [done|]. intros ->. by rewrite (proj2 (strip_prefix_spec _ _ (dot :: r))) in E.
Qed.

(** A leaf is found if a key is its full path from here on, or a key of the root is a later part
    of its path. *)
Lemma found_spec keys fs o ns :
  well_named (t_record fs) → path fs o = Some ns →
  found keys fs o = true ↔
  join ns ∈ keys ∨ ∃ a b, ns = a ++ b ∧ a ≠ [] ∧ b ≠ [] ∧ join b ∈ keys0.
Proof.
  revert keys fs ns. induction o as [|i o IH]; intros keys fs ns Hw Hp; [done|]. cbn [path] in Hp.
  apply bind_Some in Hp as (f & Hf & Hp). cbn [found]. rewrite Hf.
  destruct (well_named_fields fs f Hw ltac:(by eapply list_elem_of_lookup_2)) as (Hn & Hd & Hwf). destruct o as [|j o].
  - injection Hp as <-. cbn [join]. rewrite existsb_exists. setoid_rewrite name_matches_spec; [|done..].
    setoid_rewrite <- list_elem_of_In. split.
    + intros (r & Hr & ->). auto.
    + intros [H|(a & b & Hab & Ha & Hb & _)]; [by exists f.1|].
      destruct a as [|? [|? ?]], b; done.
  - apply bind_Some in Hp as (nested & Hnr & (rest & Hr & [= <-])%bind_Some). rewrite Hnr.
    rewrite (IH _ nested rest) by (done || by eapply well_named_record).
    assert (rest ≠ []) as Hne.
    { intros ->. cbn [path] in Hr. apply bind_Some in Hr as (g & _ & Hr). destruct o; [done|].
      by apply bind_Some in Hr as (? & _ & (? & _ & ?)%bind_Some). }
    assert (join (f.1 :: rest) = f.1 ++ dot :: join rest) as -> by (by destruct rest).
    unfold next_keys. rewrite elem_of_app, list_elem_of_omap. setoid_rewrite strip_name_spec. split.
    + intros [[H|(k & Hk & ->)]|(a & b & -> & Ha & Hb & H)].
      * right. by exists [f.1], rest.
      * by left.
      * right. by exists (f.1 :: a), b.
    + intros [H|(a & b & Hab & Ha & Hb & H)]; [left; right; by eexists|].
      destruct a as [|n a]; [done|]. injection Hab as <- ->. destruct a as [|m a]; [left; by left|].
      right. by exists (m :: a), b.
Qed.
End suffix.

(** *** Prefixes *)

(** The keys without the prefix: what follows the prefix, or a part of it behind a dot. *)
Lemma prefix_keys_spec start prefix key k :
  k ∈ prefix_keys start prefix key ↔
  ∃ a b, prefix = a ++ b ∧ b ≠ [] ∧ key = b ++ dot :: k ∧ ((start = true ∧ a = []) ∨ ∃ a', a = a' ++ [dot]).
Proof.
  revert start. induction prefix as [|c prefix IH]; intros start; cbn [prefix_keys].
  { split; [by intros ?%not_elem_of_nil|]. intros (a & b & Hab & Hb & _). by destruct a, b. }
  rewrite elem_of_app, IH. split.
  - intros [H|(a & b & -> & Hb & -> & Ha)].
    + destruct start; [|by apply not_elem_of_nil in H]. destruct (strip_name _ key) as [r|] eqn:E; [|by apply not_elem_of_nil in H].
      apply list_elem_of_singleton in H as ->. apply strip_name_spec in E as ->. exists [], (c :: prefix). split_and!; [done..|by left].
    + exists (c :: a), b. split_and!; [done..|]. right.
      destruct Ha as [[->%N.eqb_eq ->]|[a' ->]]; [by exists []|by exists (c :: a')].
  - intros (a & b & Hab & Hb & -> & Ha). destruct a as [|c' a].
    + destruct Ha as [[-> _]|[a' Ha']]; [|by destruct a']. left. cbn in Hab. subst b.
      rewrite (proj2 (strip_name_spec _ _ k)) by done. by apply list_elem_of_singleton.
    + injection Hab as <- ->. right. exists a, b. split_and!; [done..|]. destruct Ha as [[_ [=]]|[a' Ha']].
      destruct a' as [|c' a']; cbn in Ha'; injection Ha' as -> ->; [left; by rewrite N.eqb_refl|right; by exists a'].
Qed.

(** The key is a number of the last names of a path, joined by dots. *)
Definition suffix_of (key : list N) (ns : list (list N)) : Prop := ∃ a b, ns = a ++ b ∧ b ≠ [] ∧ key = join b.

(** Which leaves a key finds: those whose path ends with the key, or with what is left of it when
    it starts with the prefix or with a part of the prefix that follows a dot. *)
Lemma resolve_key_suffix_spec fs key prefix o ns f :
  well_named (t_record fs) → key ≠ [] → (o, f) ∈ leaves fs → path fs o = Some ns →
  o ∈ resolve_key_suffix fs key prefix ↔
  suffix_of key ns ∨
  ∃ a b rest, prefix = a ++ b ∧ b ≠ [] ∧ (a = [] ∨ ∃ a', a = a' ++ [dot]) ∧ key = b ++ dot :: rest ∧ suffix_of rest ns.
Proof.
  intros Hw Hk Hl Hp. unfold resolve_key_suffix. destruct key as [|c key]; [done|]. set (k := c :: key) in *. clearbody k.
  set (keys0 := k :: prefix_keys true prefix k). rewrite <- (Nat.add_0_r (fields_rounds fs)), loop_fields. cbn [loop].
  rewrite app_nil_r. rewrite leaves_tree in Hl.
  transitivity (found keys0 keys0 fs o = true).
  { unfold found_from. rewrite list_elem_of_fmap. setoid_rewrite list_elem_of_fmap. setoid_rewrite list_elem_of_filter. split.
    - intros ([o' f'] & -> & [o'' f''] & [= -> ->] & Hfd & _). done.
    - intros Hfd. exists (o, f). split; [done|]. by exists (o, f). }
  rewrite (found_spec keys0 keys0 fs o ns) by done.
  transitivity (∃ k', k' ∈ keys0 ∧ suffix_of k' ns).
  { assert (ns ≠ []) as Hns.
    { intros ->. destruct o as [|i o]; cbn [path] in Hp; [done|]. apply bind_Some in Hp as (g & _ & Hp). destruct o; [done|].
      by apply bind_Some in Hp as (? & _ & (? & _ & ?)%bind_Some). }
    split.
    - intros [H|(a & b & -> & Ha & Hb & H)]; [exists (join ns); split; [done|]; by exists [], ns|].
      exists (join b). split; [done|]. by exists a, b.
    - intros (k' & Hk' & a & b & -> & Hb & ->). destruct a as [|n a]; [by left|]. right. by exists (n :: a), b. }
  unfold keys0. setoid_rewrite elem_of_cons. setoid_rewrite prefix_keys_spec. split.
  - intros (k' & [->|(a & b & -> & Hb & -> & Ha)] & Hs); [by left|]. right. exists a, b, k'. split_and!; try done.
    destruct Ha as [[_ ->]|Ha]; auto.
  - intros [Hs|(a & b & rest & -> & Hb & Ha & -> & Hs)]; [exists k; auto|]. exists rest. split; [|done].
    right. exists a, b. split_and!; try done. destruct Ha as [->|Ha]; auto.
Qed.
