(* ===== verification/Ip.v ===== *)
(** IP addresses, subnets and the pseudonymization of addresses: [libvast/src/ip.cpp],
    [libvast/include/vast/ip.hpp] and [libvast/src/subnet.cpp].

    An address is the list of its 16 bytes in network byte order. *)

From S2P Require Import Prelude.

#[local] Set Warnings "-register-all".

(** Lets [lia] reason about quotients and remainders. *)
#[local] Ltac Zify.zify_post_hook ::= Z.to_euclidean_division_equations.

Module ip.

(** Sixteen bytes. *)
Definition wf (x : list N) : Prop := length x = 16%nat ∧ Forall (λ b, b < 256) x.

Definition v4_mapped_prefix : list N := [0; 0; 0; 0; 0; 0; 0; 0; 0; 0; 255; 255].

(** The constructors [ip()] and [ip::v4] from four bytes. *)
Definition default : list N := replicate 16 0.
Definition v4 (bytes : list N) : list N := v4_mapped_prefix ++ bytes.

Definition is_v4 (x : list N) : bool := bool_decide (take 12 x = v4_mapped_prefix).
Definition is_v6 (x : list N) : bool := negb (is_v4 x).
Definition is_loopback (x : list N) : bool :=
  if is_v4 x then vec_at x 12 =? 127
  else forallb (λ i, vec_at x (N.of_nat i) =? 0) (seq 0 15) && (vec_at x 15 =? 1).
Definition is_broadcast (x : list N) : bool :=
  is_v4 x && (vec_at x 12 =? 255) && (vec_at x 13 =? 255) && (vec_at x 14 =? 255) && (vec_at x 15 =? 255).
Definition is_multicast (x : list N) : bool :=
  if is_v4 x then vec_at x 12 =? 224 else vec_at x 0 =? 255.

Definition bitmask32 (bottom_bits : N) : N :=
  if 32 <=? bottom_bits then 2 ^ 32 - 1 else 2 ^ bottom_bits - 1.

(** The bytes that a [uint32_t] in network order has in memory. *)
Definition to_network_order (w : N) : list N :=
  [N.shiftr w 24 mod 256; N.shiftr w 16 mod 256; N.shiftr w 8 mod 256; w mod 256].

(** The four words of the mask, most significant bit first. *)
Definition mask_words (top_bits_to_keep : N) : list N :=
  let quot := top_bits_to_keep / 32 in
  let rem := top_bits_to_keep mod 32 in
  (λ i, if N.of_nat i <? quot then 2 ^ 32 - 1
        else if N.of_nat i =? quot then N.land (2 ^ 32 - 1) (N.lnot (bitmask32 (32 - rem)) 32)
        else 0) <$> seq 0 4.

(** [mask]: the return value and the address afterwards. *)
Definition mask (top_bits_to_keep : N) (x : list N) : bool * list N :=
  if 128 <? top_bits_to_keep then (false, x)
  else (true, zip_with N.land x (concat (to_network_order <$> mask_words top_bits_to_keep))).

Definition and_eq (x y : list N) : list N := zip_with N.land x y.
Definition or_eq (x y : list N) : list N := zip_with N.lor x y.
Definition xor_eq (x y : list N) : list N :=
  if is_v4 x || is_v4 y then take 12 x ++ zip_with N.lxor (drop 12 x) (drop 12 y)
  else zip_with N.lxor x y.

(** [word<uint8_t>::msb_fill] *)
Definition msb_fill8 (i : N) : N := N.shiftl 255 (8 - i) mod 256.

(** [compare]: whole bytes while more than eight bits are left, then the top bits of one byte. *)
Fixpoint compare_loop (x y : list N) (k : N) : bool :=
  match x, y with
  | a :: x, b :: y =>
      if 8 <? k then if negb (a =? b) then false else compare_loop x y (k - 8)
      else N.land a (msb_fill8 k) =? N.land b (msb_fill8 k)
  | _, _ => true
  end.
Definition compare (x other : list N) (k : N) : bool := compare_loop x other k.

(** *** Pseudonymization *)

Section address_encryptor.
(** One block of AES-128 in ECB mode under the key of the context. *)
Variable cipher : list N → list N.

Definition msb_of_byte_mask : N := 128.

(** The input of the cipher after the prefix has grown to [i + 1] bits. *)
Definition grow (pad bytes : list N) (i : N) (cipher_input : list N) : list N :=
  let padding_mask := N.shiftr 255 (i mod 8 + 1) in
  vec_set cipher_input (i / 8)
    (N.lor (N.ldiff (vec_at bytes (i / 8)) padding_mask) (N.land (vec_at pad (i / 8)) padding_mask)).

(** Adds the bit of the output of the cipher. *)
Definition add_bit (cipher_output : list N) (i : N) (one_time_pad : list N) : list N :=
  vec_set one_time_pad (i / 8)
    (N.lor (vec_at one_time_pad (i / 8)) (N.shiftr (N.land (vec_at cipher_output 0) msb_of_byte_mask) (i mod 8))).

Fixpoint one_time_pad_loop (pad bytes : list N) (n : nat) (i : N) (cipher_input one_time_pad : list N) : list N :=
  match n with
  | O => one_time_pad
  | S n =>
      let cipher_input := grow pad bytes i cipher_input in
      one_time_pad_loop pad bytes n (i + 1) cipher_input (add_bit (cipher cipher_input) (i + 1) one_time_pad)
  end.

Definition generate_one_time_pad (pad bytes : list N) : list N :=
  one_time_pad_loop pad bytes (8 * length bytes - 1) 0 pad
    (add_bit (cipher pad) 0 (replicate (length bytes) 0)).

(** [operator()] of [address_encryptor] *)
Definition encrypt (pad bytes : list N) (byte_offset : nat) : list N :=
  take byte_offset bytes ++
  zip_with N.lxor (drop byte_offset bytes) (generate_one_time_pad pad (drop byte_offset bytes)).
End address_encryptor.

(** [pseudonymize]: the first half of the seed is the key, the second is encrypted into the pad. *)
Definition pseudonymize (aes : list N → list N → list N) (original seed : list N) : list N :=
  let cipher := aes (take 16 seed) in
  encrypt cipher (cipher (drop 16 seed)) original (if is_v4 original then 12 else 0)%nat.
End ip.

Module subnet.

Record t := mk { network_ : list N; length_ : N }.

Definition default : t := mk ip.default 0.

(** The constructor with [initialize]. *)
Definition make (addr : list N) (length : N) : t :=
  if ip.is_v4 addr then
    if 32 <? length then default else mk (ip.mask (length + 96) addr).2 (length + 96)
  else if 128 <? length then default else mk (ip.mask length addr).2 length.

Definition contains_ip (s : t) (addr : list N) : bool := ip.compare addr (network_ s) (length_ s).
Definition contains (s other : t) : bool := (length_ s <=? length_ other) && contains_ip s (network_ other).
Definition network (s : t) : list N := network_ s.
Definition length (s : t) : N := if ip.is_v4 (network_ s) then length_ s - 96 else length_ s.
End subnet.

(** ** Bits of addresses *)

(** Bit [i] of a string of bytes, counted from the most significant bit of the first byte. *)
Definition bit (x : list N) (i : N) : bool := N.testbit (vec_at x (i / 8)) (7 - i mod 8).

(** Agreement on the first [k] bits. *)
Definition same_prefix (k : N) (x y : list N) : Prop := ∀ i, i < k → bit x i = bit y i.

Lemma bytes_ext x y :
  length x = length y → Forall (λ b, b < 256) x → Forall (λ b, b < 256) y →
  same_prefix (8 * lenN x) x y → x = y.
Proof.
  intros Hl Hx Hy Hp. apply list_eq_same_length with (length x); [done..|].
  intros i a b Hi Ha Hb. apply N.bits_inj. intros j. destruct (N.le_gt_cases 8 j) as [Hj|Hj].
  - eapply Forall_lookup_1 in Hx, Hy; [|done..]. cbn in Hx, Hy.
    by rewrite (testbit_bound_high a 8), (testbit_bound_high b 8).
  - specialize (Hp (8 * N.of_nat i + (7 - j))). unfold bit, vec_at in Hp.
    replace ((8 * N.of_nat i + (7 - j)) / 8) with (N.of_nat i) in Hp by lia.
    replace ((8 * N.of_nat i + (7 - j)) mod 8) with (7 - j) in Hp by lia.
    rewrite Nat2N.id, Ha, Hb in Hp. cbn in Hp. replace (7 - (7 - j)) with j in Hp by lia.
    apply Hp. unfold lenN. lia.
Qed.

Lemma bit_zip_with f x y i :
  (∀ a b n, N.testbit (f a b) n = true → N.testbit a n = true ∨ N.testbit b n = true) →
  length x = length y →
  bit (zip_with f x y) i = N.testbit (f (vec_at x (i / 8)) (vec_at y (i / 8))) (7 - i mod 8).
Proof.
  intros Hf Hl. unfold bit, vec_at. rewrite lookup_zip_with.
  destruct (x !! N.to_nat (i / 8)) as [a|] eqn:Ex, (y !! N.to_nat (i / 8)) as [b|] eqn:Ey; cbn; try done.
  - apply lookup_lt_Some in Ex. apply lookup_ge_None in Ey. lia.
  - apply lookup_ge_None in Ex. apply lookup_lt_Some in Ey. lia.
  - symmetry. apply not_true_is_false. intros [?|?]%Hf; by rewrite N.bits_0 in *.
Qed.

Lemma bit_lxor x y i :
  length x = length y → bit (zip_with N.lxor x y) i = xorb (bit x i) (bit y i).
Proof.
  intros Hl. rewrite bit_zip_with by (done || intros a b n; rewrite N.lxor_spec; by destruct (N.testbit a n), (N.testbit b n); auto).
  apply N.lxor_spec.
Qed.

Lemma bit_land x y i :
  length x = length y → bit (zip_with N.land x y) i = bit x i && bit y i.
Proof.
  intros Hl. rewrite bit_zip_with by (done || intros a b n; rewrite N.land_spec, andb_true_iff; tauto).
  apply N.land_spec.
Qed.

(** ** Masks *)

(** The bytes of a mask have exactly the top bits set; there are 129 masks. *)
Lemma mask_words_bits k i : k <= 128 → i < 128 →
  bit (concat (ip.to_network_order <$> ip.mask_words k)) i = (i <? k).
Proof.
  intros Hk Hi.
  assert (forallb (λ k, forallb (λ i, eqb (bit (concat (ip.to_network_order <$> ip.mask_words (N.of_nat k))) (N.of_nat i))
    (N.of_nat i <? N.of_nat k)) (seq 0 128)) (seq 0 129) = true) as H by (vm_compute; reflexivity).
  rewrite forallb_forall in H. specialize (H (N.to_nat k)). rewrite forallb_forall in H.
  specialize (H ltac:(apply in_seq; lia) (N.to_nat i) ltac:(apply in_seq; lia)).
  by rewrite !N2Nat.id, eqb_true_iff in H.
Qed.

Lemma length_mask_words k : length (concat (ip.to_network_order <$> ip.mask_words k)) = 16%nat.
Proof. done. Qed.

(** [mask] keeps the top bits and clears the others. *)
Lemma mask_spec k x : ip.wf x → k <= 128 →
  (ip.mask k x).1 = true ∧ ip.wf (ip.mask k x).2 ∧
  ∀ i, i < 128 → bit (ip.mask k x).2 i = (i <? k) && bit x i.
Proof.
  intros [Hl Hb] Hk. unfold ip.mask. rewrite (proj2 (N.ltb_ge _ _) Hk). cbn [fst snd].
  split_and!; [done|split|].
  - rewrite length_zip_with, length_mask_words. lia.
  - apply Forall_lookup. intros i c Hc. rewrite lookup_zip_with in Hc.
    apply bind_Some in Hc as (a & Ha & (b & _ & [= <-])%bind_Some).
    eapply Forall_lookup_1 in Hb; [|done]. cbn in Hb.
    eapply N.le_lt_trans; [apply N.land_le_l|done].
  - intros i Hi. rewrite bit_land, mask_words_bits by (done || by rewrite Hl, length_mask_words). apply andb_comm.
Qed.

(** ** Comparison of prefixes *)

Lemma land_msb_fill8 a b k : a < 256 → b < 256 → k <= 8 →
  N.land a (ip.msb_fill8 k) = N.land b (ip.msb_fill8 k) ↔ ∀ i, i < k → N.testbit a (7 - i) = N.testbit b (7 - i).
Proof.
  intros Ha Hb Hk.
  assert (∀ j, N.testbit (ip.msb_fill8 k) j = (j <? 8) && (8 <=? j + k)) as Hm.
  { intros j. unfold ip.msb_fill8. change 256 with (2 ^ 8). destruct (N.le_gt_cases 8 j) as [Hj|Hj].
    - rewrite N.mod_pow2_bits_high by done. by rewrite (proj2 (N.ltb_ge _ _) Hj).
    - rewrite N.mod_pow2_bits_low by done. change 255 with (N.ones 8). destruct (N.le_gt_cases (8 - k) j).
      + rewrite N.shiftl_spec_high', N.ones_spec_low by lia.
        symmetry. apply andb_true_iff. split; [apply N.ltb_lt|apply N.leb_le]; lia.
      + rewrite N.shiftl_spec_low by lia. symmetry. apply andb_false_iff. right. apply N.leb_gt. lia. }
  split.
  - intros H i Hi. apply (f_equal (λ c, N.testbit c (7 - i))) in H. rewrite !N.land_spec, Hm in H.
    rewrite (proj2 (N.ltb_lt (7 - i) 8)), (proj2 (N.leb_le 8 (7 - i + k))), !andb_true_r in H by lia. done.
  - intros H. apply N.bits_inj. intros j. rewrite !N.land_spec, Hm. destruct (N.ltb_spec j 8); [|by rewrite !andb_false_r].
    destruct (N.leb_spec 8 (j + k)); [|by rewrite !andb_false_r].
    specialize (H (7 - j) ltac:(lia)). replace (7 - (7 - j)) with j in H by lia. by rewrite H.
Qed.

Lemma bit_cons a x i : bit (a :: x) i = if i <? 8 then N.testbit a (7 - i) else bit x (i - 8).
Proof.
  unfold bit, vec_at. destruct (N.ltb_spec i 8).
  - rewrite N.div_small, N.mod_small by done. done.
  - replace (N.to_nat (i / 8)) with (S (N.to_nat ((i - 8) / 8))) by lia. cbn. do 2 f_equal. lia.
Qed.

Lemma same_prefix_cons k a x b y : 8 <= k → a < 256 → b < 256 →
  same_prefix k (a :: x) (b :: y) ↔ a = b ∧ same_prefix (k - 8) x y.
Proof.
  intros Hk Ha Hb. unfold same_prefix. setoid_rewrite bit_cons. split.
  - intros H. split.
    + apply N.bits_inj. intros j. destruct (N.le_gt_cases 8 j); [by rewrite !(testbit_bound_high _ 8)|].
      specialize (H (7 - j) ltac:(lia)). rewrite (proj2 (N.ltb_lt _ _)) in H by lia.
      by replace (7 - (7 - j)) with j in H by lia.
    + intros i Hi. specialize (H (i + 8) ltac:(lia)). rewrite (proj2 (N.ltb_ge _ _)) in H by lia.
      by replace (i + 8 - 8) with i in H by lia.
  - intros [-> H] i Hi. destruct (N.ltb_spec i 8); [done|]. apply H. lia.
Qed.

Lemma compare_loop_spec x y k :
  length x = length y → Forall (λ b, b < 256) x → Forall (λ b, b < 256) y → k <= 8 * lenN x →
  ip.compare_loop x y k = true ↔ same_prefix k x y.
Proof.
  revert y k. induction x as [|a x IH]; intros [|b y] k Hl Hx Hy Hk; [|done..|].
  { unfold lenN in Hk. cbn in Hk. split; [|intros _; reflexivity]. intros _ i Hi. lia. }
  apply list.Forall_cons in Hx as [Ha Hx]. apply list.Forall_cons in Hy as [Hb Hy]. cbn [ip.compare_loop].
  rewrite lenN_cons in Hk. injection Hl as Hl. destruct (N.ltb_spec 8 k) as [H8|H8].
  - rewrite same_prefix_cons by (done || lia). destruct (N.eqb_spec a b) as [->|Hab]; cbn [negb].
    + rewrite IH by (done || lia). tauto.
    + split; [done|]. by intros [? _].
  - rewrite N.eqb_eq, land_msb_fill8 by done. unfold same_prefix. split; intros H i Hi; specialize (H i Hi).
    + rewrite !bit_cons. by destruct (N.ltb_spec i 8); [|lia].
    + rewrite !bit_cons in H. by destruct (N.ltb_spec i 8); [|lia].
Qed.

Lemma compare_spec x y k : ip.wf x → ip.wf y → k <= 128 → ip.compare x y k = true ↔ same_prefix k x y.
Proof. intros [Hlx Hx] [Hly Hy] Hk. apply compare_loop_spec; [congruence|done..|]. unfold lenN. rewrite Hlx. lia. Qed.

(** Addresses share a prefix exactly if they are the same below its mask. *)
Lemma same_prefix_mask x y k : ip.wf x → ip.wf y → k <= 128 → same_prefix k x y ↔ (ip.mask k x).2 = (ip.mask k y).2.
Proof.
  intros Hx Hy Hk. destruct (mask_spec k x Hx Hk) as (_ & [Hlx Hwx] & Hbx), (mask_spec k y Hy Hk) as (_ & [Hly Hwy] & Hby). split.
  - intros Hp. apply bytes_ext; [congruence|done..|]. unfold lenN. rewrite Hlx. intros i Hi. rewrite Hbx, Hby by lia.
    destruct (N.ltb_spec i k); [|done]. by rewrite Hp.
  - intros Heq i Hi. specialize (Hbx i ltac:(lia)). specialize (Hby i ltac:(lia)). rewrite Heq in Hbx.
    rewrite Hbx in Hby. by rewrite (proj2 (N.ltb_lt _ _) Hi) in Hby.
Qed.

(** ** Subnets *)

(** The invariant of the class: the network has no bits behind its length, and a v4 network is
    at least as long as the prefix of mapped addresses. *)
Definition subnet_wf (s : subnet.t) : Prop :=
  ip.wf (subnet.network_ s) ∧ subnet.length_ s <= 128 ∧
  (ip.is_v4 (subnet.network_ s) = true → 96 <= subnet.length_ s) ∧
  ∀ i, subnet.length_ s <= i < 128 → bit (subnet.network_ s) i = false.

Lemma bit_take n x i : i < 8 * N.of_nat n → bit (take n x) i = bit x i.
Proof. intros Hi. unfold bit, vec_at. rewrite lookup_take_lt by lia. done. Qed.

Lemma is_v4_prefix x : ip.wf x → ip.is_v4 x = true ↔ same_prefix 96 x (ip.v4 [0; 0; 0; 0]).
Proof.
  intros [Hl Hb]. unfold ip.is_v4. rewrite bool_decide_eq_true. split.
  - intros H i Hi. rewrite <- (bit_take 12 x i), H by lia. unfold ip.v4.
    by rewrite <- (bit_take 12 (ip.v4_mapped_prefix ++ _) i) by lia.
  - intros H. apply bytes_ext; [by rewrite length_take, Hl|by apply Forall_take|by repeat constructor|].
    intros i Hi. unfold lenN in Hi. rewrite length_take, Hl in Hi. rewrite bit_take by lia.
    rewrite H by lia. by rewrite <- (bit_take 12 (ip.v4 _) i) by lia.
Qed.

Lemma is_v4_same x y : ip.wf x → ip.wf y → same_prefix 96 x y → ip.is_v4 x = ip.is_v4 y.
Proof.
  intros Hx Hy H. apply eq_true_iff_eq. rewrite !is_v4_prefix by done.
  split; intros H' i Hi; [rewrite <- H|rewrite H]; auto.
Qed.

(** A mask cannot turn a v6 address into a v4 address. *)
Lemma is_v4_mask k x : ip.wf x → k <= 128 → ip.is_v4 (ip.mask k x).2 = true → ip.is_v4 x = true ∧ 96 <= k.
Proof.
  intros Hx Hk H. destruct (mask_spec k x Hx Hk) as (_ & Hw & Hb).
  apply is_v4_prefix in H; [|done]. assert (96 <= k) as H96.
  { destruct (N.le_gt_cases 96 k); [done|]. specialize (H 95 ltac:(done)). rewrite Hb in H by done.
    by rewrite (proj2 (N.ltb_ge 95 k)) in H by lia. }
  split; [|done]. apply is_v4_prefix; [done|]. intros i Hi. rewrite <- H, Hb by lia.
  by rewrite (proj2 (N.ltb_lt i k)) by lia.
Qed.

Lemma ip_wf_default : ip.wf ip.default.
Proof. split; [done|]. by apply Forall_replicate. Qed.

Lemma bit_default i : bit ip.default i = false.
Proof.
  unfold bit, vec_at, ip.default. destruct (replicate 16 0 !! _) as [c|] eqn:E; cbn; [|done].
  by apply lookup_replicate in E as [-> _].
Qed.

Lemma subnet_wf_default : subnet_wf subnet.default.
Proof. split_and!; [apply ip_wf_default|done..|]. intros i _. apply bit_default. Qed.

Lemma subnet_wf_mask k x : ip.wf x → k <= 128 → (ip.is_v4 x = true → 96 <= k) →
  subnet_wf (subnet.mk (ip.mask k x).2 k).
Proof.
  intros Hx Hk H4. destruct (mask_spec k x Hx Hk) as (_ & Hw & Hb). split_and!; [done..|cbn|].
  - by intros [_ ?]%is_v4_mask.
  - cbn. intros i [Hi Hi']. rewrite Hb by done. by rewrite (proj2 (N.ltb_ge i k)).
Qed.

(** Every subnet that is constructed is well-formed. *)
Lemma subnet_make_wf addr length : ip.wf addr → subnet_wf (subnet.make addr length).
Proof.
  intros Hx. unfold subnet.make. destruct (ip.is_v4 addr) eqn:E4.
  - destruct (N.ltb_spec 32 length); [apply subnet_wf_default|]. apply subnet_wf_mask; [done|lia|]. lia.
  - destruct (N.ltb_spec 128 length); [apply subnet_wf_default|]. apply subnet_wf_mask; [done|lia|congruence].
Qed.

(** The mask of a well-formed network is the network. *)
Lemma mask_network s : subnet_wf s → (ip.mask (subnet.length_ s) (subnet.network_ s)).2 = subnet.network_ s.
Proof.
  intros (Hw & Hl & _ & Hb). destruct (mask_spec _ _ Hw Hl) as (_ & [Hl' Hw'] & Hb'). destruct Hw as [Hln Hw].
  apply bytes_ext; [congruence|done..|]. intros i Hi. unfold lenN in Hi. rewrite Hl' in Hi. rewrite Hb' by lia.
  destruct (N.ltb_spec i (subnet.length_ s)); [done|]. by rewrite Hb by lia.
Qed.

(** A subnet is constructed again from its network and length. *)
Lemma subnet_make_length s : subnet_wf s → subnet.make (subnet.network s) (subnet.length s) = s.
Proof.
  intros Hs. pose proof (mask_network s Hs) as Hm. destruct s as [x n], Hs as (Hw & Hl & H4 & _). cbn in *.
  unfold subnet.make, subnet.length. cbn. destruct (ip.is_v4 x).
  - specialize (H4 eq_refl). rewrite (proj2 (N.ltb_ge 32 _)) by lia.
    replace (n - 96 + 96) with n by lia. by rewrite Hm.
  - rewrite (proj2 (N.ltb_ge 128 _)) by lia. by rewrite Hm.
Qed.

Lemma contains_ip_spec s addr : subnet_wf s → ip.wf addr →
  subnet.contains_ip s addr = true ↔ same_prefix (subnet.length_ s) addr (subnet.network_ s).
Proof. intros (Hw & Hl & _) Ha. by apply compare_spec. Qed.

(** The address with bit [i] flipped. *)
Lemma flip_bit x i : ip.wf x → i < 128 →
  ∃ y, ip.wf y ∧ same_prefix i x y ∧ bit y i = negb (bit x i).
Proof.
  intros [Hl Hb] Hi. set (m := 2 ^ (7 - i mod 8)).
  assert (is_Some (x !! N.to_nat (i / 8))) as [c Hc] by (apply lookup_lt_is_Some; lia).
  assert (m < 256) as Hm by (apply (N.pow_lt_mono_r 2 _ 8); lia).
  exists (vec_set x (i / 8) (N.lxor c m)). unfold vec_set. split_and!.
  - split; [by rewrite length_insert|]. apply Forall_insert; [done|].
    eapply Forall_lookup_1 in Hb; [|done]. cbn in Hb. change 256 with (2 ^ 8) in *.
    apply bound_of_testbit. intros j Hj. by rewrite N.lxor_spec, !(testbit_bound_high _ 8).
  - intros j Hj. unfold bit, vec_at. destruct (decide (i / 8 = j / 8)) as [He|Hne].
    + rewrite He in Hc |- *. rewrite list_lookup_insert_eq, Hc by lia. cbn. unfold m. rewrite N.lxor_spec, testbit_pow2. destruct (N.eqb_spec (7 - i mod 8) (7 - j mod 8)); [lia|].
      by rewrite xorb_false_r.
    + by rewrite list_lookup_insert_ne by lia.
  - unfold bit, vec_at. rewrite list_lookup_insert_eq by lia. cbn. rewrite Hc. cbn. unfold m.
    by rewrite N.lxor_spec, testbit_pow2, N.eqb_refl, xorb_true_r.
Qed.

(** A subnet contains another exactly if it contains all its addresses. *)
Lemma subnet_contains_spec s t : subnet_wf s → subnet_wf t →
  subnet.contains s t = true ↔
  ∀ addr, ip.wf addr → subnet.contains_ip t addr = true → subnet.contains_ip s addr = true.
Proof.
  intros Hs Ht. unfold subnet.contains. rewrite andb_true_iff, N.leb_le. split.
  - intros [Hl Hc] addr Ha. rewrite !contains_ip_spec in * by (done || apply Ht). intros Hp i Hi.
    rewrite Hp by lia. by apply Hc.
  - intros H. assert (subnet.contains_ip s (subnet.network_ t) = true) as Hc.
    { apply H; [apply Ht|]. by apply contains_ip_spec; [|apply Ht|]. }
    split; [|done]. destruct (N.le_gt_cases (subnet.length_ s) (subnet.length_ t)) as [|Hlt]; [done|].
    destruct (flip_bit (subnet.network_ t) (subnet.length_ t)) as (y & Hy & Hp & Hb);
      [apply Ht|destruct Hs as (_ & ? & _); lia|].
    specialize (H y Hy). rewrite contains_ip_spec in H, Hc by (done || apply Ht). rewrite contains_ip_spec in H by done.
    specialize (Hc _ Hlt). rewrite <- H in Hc; [|by intros i Hi; rewrite Hp|done]. rewrite Hb in Hc.
    by destruct (bit _ _).
Qed.

(** ** Pseudonymization preserves prefixes *)

Lemma bit_vec_set x k c i : (N.to_nat k < length x)%nat →
  bit (vec_set x k c) i = if i / 8 =? k then N.testbit c (7 - i mod 8) else bit x i.
Proof.
  intros Hk. unfold bit, vec_at, vec_set. destruct (N.eqb_spec (i / 8) k) as [<-|Hne].
  - by rewrite list_lookup_insert_eq.
  - by rewrite list_lookup_insert_ne by lia.
Qed.

Lemma Forall_vec_set (P : N → Prop) x k c : Forall P x → P c → Forall P (vec_set x k c).
Proof. intros. by apply Forall_insert. Qed.

Section prefix.
Import ip.
Context (cipher : list N → list N) (pad : list N) (Hpad : length pad = 16%nat) (Hpadb : Forall (λ b, b < 256) pad).

(** The input of the cipher for a prefix of [i] bits. *)
Fixpoint input (bytes : list N) (i : nat) : list N :=
  match i with O => pad | S i => grow pad bytes (N.of_nat i) (input bytes i) end.

Lemma length_input bytes i : length (input bytes i) = 16%nat.
Proof. induction i as [|i IH]; [done|]. cbn [input]. unfold grow, vec_set. by rewrite length_insert. Qed.

Lemma byte_or_mask a b m : a < 256 → b < 256 → N.lor (N.ldiff a m) (N.land b m) < 256.
Proof.
  intros Ha Hb. change 256 with (2 ^ 8) in *. apply bound_of_testbit. intros j Hj.
  by rewrite N.lor_spec, N.ldiff_spec, N.land_spec, (testbit_bound_high a 8), (testbit_bound_high b 8).
Qed.

Lemma vec_at_byte x i : Forall (λ b, b < 256) x → vec_at x i < 256.
Proof.
  intros Hx. unfold vec_at. destruct (x !! _) eqn:E; cbn; [|lia]. exact (Forall_lookup_1 _ _ _ _ Hx E).
Qed.

Lemma input_bytes bytes i : Forall (λ b, b < 256) bytes → Forall (λ b, b < 256) (input bytes i).
Proof.
  intros Hb. induction i as [|i IH]; [done|]. cbn [input]. unfold grow. apply Forall_vec_set; [done|].
  by apply byte_or_mask; apply vec_at_byte.
Qed.

(** It has the prefix of the address, followed by the padding. *)
Lemma input_bits bytes i j : (i <= 128)%nat → j < 128 →
  bit (input bytes i) j = bit (if j <? N.of_nat i then bytes else pad) j.
Proof.
  revert j. induction i as [|i IH]; intros j Hi Hj; [by rewrite (proj2 (N.ltb_ge j _)) by lia|].
  cbn [input]. unfold grow. rewrite bit_vec_set by (rewrite length_input; lia).
  destruct (N.eqb_spec (j / 8) (N.of_nat i / 8)) as [He|Hne].
  - rewrite N.lor_spec, N.ldiff_spec, N.land_spec. change 255 with (N.ones 8).
    rewrite N.shiftr_spec', testbit_ones. unfold bit. rewrite He.
    destruct (N.ltb_spec (7 - j mod 8 + (N.of_nat i mod 8 + 1)) 8) as [Hb|Hb];
      destruct (N.ltb_spec j (N.of_nat (S i))) as [Hc|Hc]; cbn [negb]; rewrite ?He;
      rewrite ?andb_false_r, ?andb_true_r, ?orb_false_r; cbn [orb]; (done || lia).
  - rewrite IH by lia. destruct (N.ltb_spec j (N.of_nat i)), (N.ltb_spec j (N.of_nat (S i))); (done || lia).
Qed.

Lemma input_ext bytes bytes' i :
  Forall (λ b, b < 256) bytes → Forall (λ b, b < 256) bytes' → (i <= 128)%nat →
  same_prefix (N.of_nat i) bytes bytes' → input bytes i = input bytes' i.
Proof.
  intros Hb Hb' Hi Hp. apply bytes_ext; [by rewrite !length_input|by apply input_bytes..|].
  intros j Hj. unfold lenN in Hj. rewrite length_input in Hj. rewrite !input_bits by lia.
  destruct (N.ltb_spec j (N.of_nat i)); [by apply Hp|done].
Qed.

Lemma length_add_bit out i p : length (add_bit out i p) = length p.
Proof. apply length_insert. Qed.

Lemma bit_add_bit out i p j : (N.to_nat (i / 8) < length p)%nat →
  bit (add_bit out i p) j = bit p j || ((j =? i) && N.testbit (vec_at out 0) 7).
Proof.
  intros Hi. unfold add_bit. rewrite bit_vec_set by done. destruct (N.eqb_spec (j / 8) (i / 8)) as [He|Hne].
  - rewrite N.lor_spec, N.shiftr_spec', N.land_spec. unfold bit. rewrite He. f_equal.
    change msb_of_byte_mask with (2 ^ 7). rewrite testbit_pow2.
    destruct (N.eqb_spec j i) as [->|Hne].
    + replace (7 - i mod 8 + i mod 8) with 7 by lia. apply andb_true_r.
    + rewrite (proj2 (N.eqb_neq 7 _)) by lia. apply andb_false_r.
  - destruct (N.eqb_spec j i) as [->|_]; [done|]. by rewrite orb_false_r.
Qed.

Lemma one_time_pad_loop_bits bytes n i p j :
  (N.of_nat (i + n) < 8 * lenN p) →
  bit (one_time_pad_loop cipher pad bytes n (N.of_nat i) (input bytes i) p) j =
  bit p j || ((N.of_nat i <? j) && (j <=? N.of_nat (i + n)) && N.testbit (vec_at (cipher (input bytes (N.to_nat j))) 0) 7).
Proof.
  revert i p. induction n as [|n IH]; intros i p Hn; cbn [one_time_pad_loop].
  { destruct (N.ltb_spec (N.of_nat i) j), (N.leb_spec j (N.of_nat (i + 0))); cbn; rewrite ?orb_false_r; (done || lia). }
  change (grow pad bytes (N.of_nat i) (input bytes i)) with (input bytes (S i)).
  replace (N.of_nat i + 1) with (N.of_nat (S i)) by lia. unfold lenN in *.
  rewrite IH by (unfold lenN; rewrite length_add_bit; lia). rewrite bit_add_bit by lia.
  rewrite <- orb_assoc. f_equal. replace (S i + n)%nat with (i + S n)%nat by lia.
  destruct (N.eqb_spec j (N.of_nat (S i))) as [->|Hne].
  - rewrite Nat2N.id, (proj2 (N.ltb_ge (N.of_nat (S i)) _)) by lia. rewrite (proj2 (N.ltb_lt (N.of_nat i) _)) by lia.
    rewrite (proj2 (N.leb_le _ _)) by lia. cbn. apply orb_false_r.
  - destruct (N.ltb_spec (N.of_nat (S i)) j), (N.ltb_spec (N.of_nat i) j); (done || lia).
Qed.

Lemma length_one_time_pad_loop bytes n i inp p : length (one_time_pad_loop cipher pad bytes n i inp p) = length p.
Proof. revert i inp p. induction n as [|n IH]; intros i inp p; [done|]. cbn. by rewrite IH, length_add_bit. Qed.

Lemma length_generate bytes : length (generate_one_time_pad cipher pad bytes) = length bytes.
Proof. unfold generate_one_time_pad. by rewrite length_one_time_pad_loop, length_add_bit, length_replicate. Qed.

(** Bit [j] of the one-time pad is the first bit of the block for the prefix of [j] bits. *)
Lemma generate_bits bytes j : j < 8 * lenN bytes →
  bit (generate_one_time_pad cipher pad bytes) j = N.testbit (vec_at (cipher (input bytes (N.to_nat j))) 0) 7.
Proof.
  intros Hj. unfold generate_one_time_pad. unfold lenN in Hj.
  rewrite (one_time_pad_loop_bits bytes _ 0) by (unfold lenN; rewrite length_add_bit, length_replicate; lia).
  rewrite bit_add_bit by (rewrite length_replicate; cbn; lia).
  assert (bit (replicate (length bytes) 0) j = false) as ->.
  { unfold bit, vec_at. rewrite lookup_replicate_2 by lia. done. }
  destruct (N.eqb_spec j 0) as [->|Hne]; cbn [orb andb].
  - rewrite N.ltb_irrefl. cbn. by rewrite orb_false_r.
  - by rewrite (proj2 (N.ltb_lt (N.of_nat 0) j)), (proj2 (N.leb_le j _)) by lia.
Qed.

(** What [encrypt] adds to the bytes behind the offset. *)
Definition encrypted (bytes : list N) : list N := zip_with N.lxor bytes (generate_one_time_pad cipher pad bytes).

(** Two encrypted strings agree on a prefix exactly if the originals do. *)
Lemma encrypted_prefix bytes bytes' k :
  length bytes = length bytes' → (length bytes <= 16)%nat → Forall (λ b, b < 256) bytes →
  Forall (λ b, b < 256) bytes' → k <= 8 * lenN bytes →
  same_prefix k (encrypted bytes) (encrypted bytes') ↔ same_prefix k bytes bytes'.
Proof.
  intros Hl H16 Hb Hb' Hk. unfold encrypted. unfold lenN in Hk.
  assert (∀ j, j < k → same_prefix j bytes bytes' →
    bit (generate_one_time_pad cipher pad bytes) j = bit (generate_one_time_pad cipher pad bytes') j) as Hg.
  { intros j Hj Hp. rewrite !generate_bits by (unfold lenN; lia). by rewrite (input_ext bytes bytes') by (done || lia || by rewrite N2Nat.id). }
  split; intros H.
  - intros j. induction (N.lt_wf_0 j) as [j _ IH]. intros Hj. specialize (H j Hj).
    rewrite !bit_lxor in H by (by rewrite length_generate). rewrite Hg in H; [|done|intros i Hi; apply IH; lia].
    by destruct (bit bytes j), (bit bytes' j), (bit (generate_one_time_pad cipher pad bytes') j).
  - intros j Hj. rewrite !bit_lxor by (by rewrite length_generate). rewrite H, Hg by (done || intros i Hi; apply H; lia). done.
Qed.

Lemma length_encrypted bytes : length (encrypted bytes) = length bytes.
Proof. unfold encrypted. rewrite length_zip_with, length_generate. lia. Qed.
End prefix.

Lemma bit_app x y i : bit (x ++ y) i = if i <? 8 * lenN x then bit x i else bit y (i - 8 * lenN x).
Proof.
  unfold bit, vec_at, lenN. destruct (N.ltb_spec i (8 * N.of_nat (length x))).
  - by rewrite lookup_app_l by lia.
  - rewrite lookup_app_r by lia.
    replace (N.to_nat ((i - 8 * N.of_nat (length x)) / 8)) with (N.to_nat (i / 8) - length x)%nat by lia.
    do 2 f_equal. lia.
Qed.

Lemma same_prefix_app k a x y : 8 * lenN a <= k →
  same_prefix k (a ++ x) (a ++ y) ↔ same_prefix (k - 8 * lenN a) x y.
Proof.
  intros Hk. unfold same_prefix. setoid_rewrite bit_app. split; intros H i Hi.
  - specialize (H (i + 8 * lenN a) ltac:(lia)). rewrite (proj2 (N.ltb_ge _ _)) in H by lia.
    by replace (i + 8 * lenN a - 8 * lenN a) with i in H by lia.
  - destruct (N.ltb_spec i (8 * lenN a)); [done|]. apply H. lia.
Qed.

(** Pseudonyms of addresses of one family share exactly the prefixes the addresses share, and the
    pseudonym of a v4 address is a v4 address. *)
Lemma pseudonymize_prefix_spec aes seed x y k :
  (∀ key block, length (aes key block) = 16%nat ∧ Forall (λ b, b < 256) (aes key block)) →
  ip.wf x → ip.wf y → ip.is_v4 x = ip.is_v4 y → k <= 128 →
  same_prefix k (ip.pseudonymize aes x seed) (ip.pseudonymize aes y seed) ↔ same_prefix k x y.
Proof.
  intros Haes [Hlx Hx] [Hly Hy] H4 Hk. destruct (Haes (take 16 seed) (drop 16 seed)) as [Hl Hb].
  unfold ip.pseudonymize, ip.encrypt. rewrite <- H4. destruct (ip.is_v4 x) eqn:E.
  - symmetry in H4. unfold ip.is_v4 in E, H4. rewrite bool_decide_eq_true in E, H4. rewrite E, H4.
    rewrite <- (take_drop 12 x), <- (take_drop 12 y), E, H4. rewrite !drop_app_length' by done.
    destruct (N.le_gt_cases (8 * 12) k) as [H12|H12].
    + rewrite !(same_prefix_app k ip.v4_mapped_prefix) by done.
      rewrite <- (encrypted_prefix (aes (take 16 seed)) _ Hl Hb (drop 12 x) (drop 12 y));
        [done|by rewrite !length_drop, Hlx, Hly|rewrite length_drop; lia|by apply Forall_drop..|].
      unfold lenN. rewrite length_drop, Hlx. change (length ip.v4_mapped_prefix) with 12%nat. lia.
    + split; intros _ i Hi; rewrite !bit_app, (proj2 (N.ltb_lt i _)); [done| |done|];
        unfold lenN; change (length ip.v4_mapped_prefix) with 12%nat; lia.
  - rewrite !drop_0, !take_0. cbn [app]. apply (encrypted_prefix _ _ Hl Hb); [congruence|lia|done..|].
    unfold lenN. rewrite Hlx. lia.
Qed.

Lemma pseudonymize_v4 aes seed x : ip.wf x → ip.is_v4 x = true → ip.is_v4 (ip.pseudonymize aes x seed) = true.
Proof.
  intros [Hl _] E. unfold ip.pseudonymize, ip.encrypt. rewrite E. unfold ip.is_v4 in *.
  rewrite bool_decide_eq_true in *. rewrite E. by rewrite take_app_length' .
Qed.
