(* ===== verification/DataOps.v ===== *)
(** Operations on data: comparison, evaluation of a relational operator, serialisation, flattening
    and merging of records ([libvast/src/data.cpp], [libvast/include/vast/detail/operators.hpp],
    [libvast/include/vast/detail/stable_map.hpp] and [libvast/include/vast/detail/vector_map.hpp]).

    A subnet [d_subnet x n] holds the members [network_] and [length_] of the class. *)

From S2P Require Import Prelude Operator Order Data Ip.

#[local] Set Warnings "-register-all".

(** Induction that reaches the elements of containers. *)
Lemma data_ind' (P : data → Prop) :
  P d_none → (∀ x, P (d_bool x)) → (∀ x, P (d_int64 x)) → (∀ x, P (d_uint64 x)) → (∀ x, P (d_double x)) →
  (∀ x, P (d_duration x)) → (∀ x, P (d_time x)) → (∀ x, P (d_string x)) → (∀ x, P (d_pattern x)) →
  (∀ x, P (d_ip x)) → (∀ x n, P (d_subnet x n)) → (∀ x, P (d_enumeration x)) →
  (∀ xs, Forall P xs → P (d_list xs)) →
  (∀ xs, Forall (λ x, P x.1 ∧ P x.2) xs → P (d_map xs)) →
  (∀ xs, Forall (λ x, P x.2) xs → P (d_record xs)) → ∀ d, P d.
Proof.
  intros H1 H2 H3 H4 H5 H6 H7 H8 H9 H10 H11 H12 Hl Hm Hr. fix IH 1. intros d.
  destruct d as [| | | | | | | | | | | |xs|xs|xs];
    [exact H1|apply H2|apply H3|apply H4|apply H5|apply H6|apply H7|apply H8|apply H9|apply H10|apply H11|apply H12|..].
  - apply Hl. induction xs as [|x xs IHxs]; constructor; [apply IH|apply IHxs].
  - apply Hm. induction xs as [|[x y] xs IHxs]; constructor; [split; [exact (IH x)|exact (IH y)]|apply IHxs].
  - apply Hr. induction xs as [|[k x] xs IHxs]; constructor; [exact (IH x)|apply IHxs].
Qed.

(** ** Comparison *)

(** [==] and [<] of [double]; both are false for NaN. *)
Definition is_nan (x : N) : bool := match order.fpclassify x with order.FP_NAN => true | _ => false end.
Definition double_eqb (x y : N) : bool := negb (is_nan x) && negb (is_nan y) && (fp_value x =? fp_value y)%Z.
Definition double_ltb (x y : N) : bool := negb (is_nan x) && negb (is_nan y) && (fp_value x <? fp_value y)%Z.

(** [<] of strings and byte arrays. *)
Fixpoint bytes_ltb (x y : list N) : bool :=
  match x, y with
  | [], _ :: _ => true
  | a :: x, b :: y => (a <? b) || ((a =? b) && bytes_ltb x y)
  | _, [] => false
  end.
Definition bytes_eqb (x y : list N) : bool := bool_decide (x = y).

(** The position of the alternative in [data::types]. *)
Definition data_index (d : data) : N :=
  match d with
  | d_none => 0 | d_bool _ => 1 | d_int64 _ => 2 | d_uint64 _ => 3 | d_double _ => 4 | d_duration _ => 5
  | d_time _ => 6 | d_string _ => 7 | d_pattern _ => 8 | d_ip _ => 9 | d_subnet _ _ => 10
  | d_enumeration _ => 11 | d_list _ => 12 | d_map _ => 13 | d_record _ => 14
  end.

(** [operator==(data, data)] *)
Fixpoint data_eqb (x y : data) {struct x} : bool :=
  match x, y with
  | d_none, d_none => true
  | d_bool x, d_bool y => eqb x y
  | d_int64 x, d_int64 y | d_duration x, d_duration y | d_time x, d_time y => (x =? y)%Z
  | d_uint64 x, d_uint64 y | d_enumeration x, d_enumeration y => x =? y
  | d_double x, d_double y => double_eqb x y
  | d_string x, d_string y | d_pattern x, d_pattern y | d_ip x, d_ip y => bytes_eqb x y
  | d_subnet x n, d_subnet y m => bytes_eqb x y && (n =? m)
  | d_list xs, d_list ys =>
      (fix go xs ys :=
        match xs, ys with
        | [], [] => true
        | x :: xs, y :: ys => data_eqb x y && go xs ys
        | _, _ => false
        end) xs ys
  | d_map xs, d_map ys =>
      (fix go (xs ys : list (data * data)) :=
        match xs, ys with
        | [], [] => true
        | (k, x) :: xs, (l, y) :: ys => data_eqb k l && data_eqb x y && go xs ys
        | _, _ => false
        end) xs ys
  | d_record xs, d_record ys =>
      (fix go (xs ys : list (list N * data)) :=
        match xs, ys with
        | [], [] => true
        | (k, x) :: xs, (l, y) :: ys => bytes_eqb k l && data_eqb x y && go xs ys
        | _, _ => false
        end) xs ys
  | _, _ => false
  end.

(** [operator<(data, data)]: the alternatives first, then the values; pairs and containers
    lexicographically, where neither smaller nor greater means go on. Both directions are computed
    at once. *)
Fixpoint data_cmp (x y : data) {struct x} : bool * bool :=
  let lex (c d : bool * bool) := if c.1 || c.2 then c else d in
  let both {A} (lt : A → A → bool) (a b : A) := (lt a b, lt b a) in
  match x, y with
  | d_none, d_none => (false, false)
  | d_bool x, d_bool y => both (λ a b, negb a && b) x y
  | d_int64 x, d_int64 y | d_duration x, d_duration y | d_time x, d_time y => both Z.ltb x y
  | d_uint64 x, d_uint64 y | d_enumeration x, d_enumeration y => both N.ltb x y
  | d_double x, d_double y => both double_ltb x y
  | d_string x, d_string y | d_pattern x, d_pattern y | d_ip x, d_ip y => both bytes_ltb x y
  | d_subnet x n, d_subnet y m => lex (both bytes_ltb x y) (both N.ltb n m)
  | d_list xs, d_list ys =>
      (fix go xs ys :=
        match xs, ys with
        | [], [] => (false, false)
        | [], _ => (true, false)
        | _, [] => (false, true)
        | x :: xs, y :: ys => lex (data_cmp x y) (go xs ys)
        end) xs ys
  | d_map xs, d_map ys =>
      (fix go (xs ys : list (data * data)) :=
        match xs, ys with
        | [], [] => (false, false)
        | [], _ => (true, false)
        | _, [] => (false, true)
        | (k, x) :: xs, (l, y) :: ys => lex (lex (data_cmp k l) (data_cmp x y)) (go xs ys)
        end) xs ys
  | d_record xs, d_record ys =>
      (fix go (xs ys : list (list N * data)) :=
        match xs, ys with
        | [], [] => (false, false)
        | [], _ => (true, false)
        | _, [] => (false, true)
        | (k, x) :: xs, (l, y) :: ys => lex (lex (both bytes_ltb k l) (data_cmp x y)) (go xs ys)
        end) xs ys
  | _, _ => both N.ltb (data_index x) (data_index y)
  end.
Definition data_ltb (x y : data) : bool := (data_cmp x y).1.

(** [totally_ordered]: the other comparisons. *)
Definition data_neb (x y : data) : bool := negb (data_eqb x y).
Definition data_gtb (x y : data) : bool := data_ltb y x.
Definition data_leb (x y : data) : bool := negb (data_ltb y x).
Definition data_geb (x y : data) : bool := negb (data_ltb x y).

(** ** Evaluation *)

(** [std::string::find(needle) != npos]: the needle occurs in the string. *)
Fixpoint occurs_in (needle hay : list N) : bool :=
  bool_decide (take (length needle) hay = needle) ||
  match hay with [] => false | _ :: hay => occurs_in needle hay end.

Section evaluate.
(** [pattern::match] and [pattern::search] of a string: [std::regex]. *)
Context (regex_match regex_search : list N → list N → bool).

Definition eval_string_and_pattern (x y : data) : option bool :=
  match x, y with
  | d_string lhs, d_pattern rhs => Some (regex_match rhs lhs)
  | d_pattern lhs, d_string rhs => Some (regex_match lhs rhs)
  | _, _ => None
  end.

Definition eval_in (x y : data) : bool :=
  match x, y with
  | d_string lhs, d_string rhs => occurs_in lhs rhs
  | d_string lhs, d_pattern rhs => regex_search rhs lhs
  | d_ip lhs, d_subnet rhs n => subnet.contains_ip (subnet.mk rhs n) lhs
  | d_subnet lhs m, d_subnet rhs n => subnet.contains (subnet.mk rhs n) (subnet.mk lhs m)
  | _, d_list rhs => existsb (λ y, data_eqb y x) rhs
  | _, _ => false
  end.

Definition evaluate (lhs : data) (op : relational_operator) (rhs : data) : bool :=
  match op with
  | in_ => eval_in lhs rhs
  | not_in => negb (eval_in lhs rhs)
  | ni => eval_in rhs lhs
  | not_ni => negb (eval_in rhs lhs)
  | equal => match eval_string_and_pattern lhs rhs with Some x => x | None => data_eqb lhs rhs end
  | not_equal => match eval_string_and_pattern lhs rhs with Some x => negb x | None => data_neb lhs rhs end
  | less => data_ltb lhs rhs
  | less_equal => data_leb lhs rhs
  | greater => data_gtb lhs rhs
  | greater_equal => data_geb lhs rhs
  end.
End evaluate.

Definition is_basic (d : data) : bool := match d with d_list _ | d_map _ | d_record _ => false | _ => true end.
Definition is_complex (d : data) : bool := negb (is_basic d).
Definition is_recursive (d : data) : bool := match d with d_list _ | d_map _ | d_record _ => true | _ => false end.

(** ** Comparisons are consistent *)

Lemma fp_eqb_refl x : is_nan x = false → double_eqb x x = true.
Proof. intros H. unfold double_eqb. by rewrite H, Z.eqb_refl. Qed.

Lemma double_eqb_sym x y : double_eqb x y = double_eqb y x.
Proof. unfold double_eqb. by rewrite Z.eqb_sym, (andb_comm (negb (is_nan x))). Qed.

Lemma bytes_eqb_sym x y : bytes_eqb x y = bytes_eqb y x.
Proof. unfold bytes_eqb. apply bool_decide_ext. by split. Qed.

(** A structural comparison of lists is symmetric if it is for the elements. *)
Lemma list_eqb_sym {A} (f : A → A → bool) (go : list A → list A → bool) xs ys :
  (∀ xs ys, go xs ys = match xs, ys with [], [] => true | x :: xs, y :: ys => f x y && go xs ys | _, _ => false end) →
  Forall (λ x, ∀ y, f x y = f y x) xs → go xs ys = go ys xs.
Proof.
  intros Hgo Hf. revert ys. induction Hf as [|x xs Hx _ IH]; intros [|y ys]; rewrite (Hgo _ _), (Hgo (_ :: _) _) || rewrite !Hgo; try done.
  by rewrite Hx, IH.
Qed.

Lemma data_eqb_sym x y : data_eqb x y = data_eqb y x.
Proof.
  revert y. induction x as [|x|x|x|x|x|x|x|x|x|x n|x|xs IH|xs IH|xs IH] using data_ind';
    intros [|y|y|y|y|y|y|y|y|y|y m|y|ys|ys|ys]; cbn [data_eqb];
    rewrite ?(Z.eqb_sym x), ?(N.eqb_sym x), ?(double_eqb_sym x), ?(bytes_eqb_sym x); try done.
  - by destruct x, y.
  - by rewrite (N.eqb_sym n).
  - apply (list_eqb_sym data_eqb); [by intros [|? ?] [|? ?]|done].
  - apply (list_eqb_sym (λ p q : data * data, data_eqb p.1 q.1 && data_eqb p.2 q.2)).
    + by intros [|[k a] xs'] [|[l b] ys'].
    + eapply list.Forall_impl; [exact IH|]. intros [k a] [Hk Ha] [l b]. cbn in *. by rewrite Hk, Ha.
  - apply (list_eqb_sym (λ p q : list N * data, bytes_eqb p.1 q.1 && data_eqb p.2 q.2)).
    + by intros [|[k a] xs'] [|[l b] ys'].
    + eapply list.Forall_impl; [exact IH|]. intros [k a] Ha [l b]. cbn in *. by rewrite Ha, bytes_eqb_sym.
Qed.

(** Data that holds no NaN. *)
Fixpoint no_nan (d : data) : bool :=
  match d with
  | d_double x => negb (is_nan x)
  | d_list xs => forallb no_nan xs
  | d_map xs => forallb (λ x, no_nan x.1 && no_nan x.2) xs
  | d_record xs => forallb (λ x, no_nan x.2) xs
  | _ => true
  end.

Lemma list_eqb_refl {A} (f : A → A → bool) (go : list A → list A → bool) xs :
  (∀ xs ys, go xs ys = match xs, ys with [], [] => true | x :: xs, y :: ys => f x y && go xs ys | _, _ => false end) →
  go xs xs = forallb (λ x, f x x) xs.
Proof. intros Hgo. induction xs as [|x xs IH]; rewrite Hgo; [done|]. cbn. by rewrite IH. Qed.

(** Data equals itself exactly if it holds no NaN. *)
Lemma data_eqb_refl x : data_eqb x x = no_nan x.
Proof.
  assert (∀ {A} (f g : A → bool) xs, Forall (λ x, f x = g x) xs → forallb f xs = forallb g xs) as Hext.
  { intros A f g xs. induction 1 as [|? ? H _ IH]; cbn; [done|]. by rewrite H, IH. }
  induction x as [|x|x|x|x|x|x|x|x|x|x n|x|xs IH|xs IH|xs IH] using data_ind'; cbn [data_eqb no_nan];
    unfold bytes_eqb; rewrite ?Z.eqb_refl, ?N.eqb_refl, ?bool_decide_eq_true_2 by done; try done.
  - by destruct x.
  - unfold double_eqb. rewrite Z.eqb_refl. by destruct (is_nan x).
  - rewrite (list_eqb_refl data_eqb) by (by intros [|? ?] [|? ?]). by apply Hext.
  - rewrite (list_eqb_refl (λ p q : data * data, data_eqb p.1 q.1 && data_eqb p.2 q.2)) by (by intros [|[k a] xs'] [|[l b] ys']).
    apply Hext. eapply list.Forall_impl; [exact IH|]. intros [k a] [Hk Ha]. cbn in *. by rewrite Hk, Ha.
  - rewrite (list_eqb_refl (λ p q : list N * data, bytes_eqb p.1 q.1 && data_eqb p.2 q.2)) by (by intros [|[k a] xs'] [|[l b] ys']).
    apply Hext. eapply list.Forall_impl; [exact IH|]. intros [k a] Ha. cbn in *. unfold bytes_eqb.
    by rewrite Ha, bool_decide_eq_true_2.
Qed.

(** ** Equal data compares alike *)

Lemma double_eqb_cong x y z : double_eqb x y = true →
  double_eqb x z = double_eqb y z ∧ double_ltb x z = double_ltb y z ∧ double_ltb z x = double_ltb z y.
Proof.
  unfold double_eqb, double_ltb. rewrite !andb_true_iff, !negb_true_iff, Z.eqb_eq. intros [[Hx Hy] Hv].
  by rewrite Hx, Hy, Hv.
Qed.

Definition swap (c : bool * bool) : bool * bool := (c.2, c.1).

(** Lexicographic comparison of lists, from a comparison of elements. *)
Definition cmp_list {A} (f : A → A → bool * bool) : list A → list A → bool * bool :=
  fix go xs ys :=
    match xs, ys with
    | [], [] => (false, false)
    | [], _ => (true, false)
    | _, [] => (false, true)
    | x :: xs, y :: ys => if (f x y).1 || (f x y).2 then f x y else go xs ys
    end.
Definition eqb_list {A} (f : A → A → bool) : list A → list A → bool :=
  fix go xs ys :=
    match xs, ys with
    | [], [] => true
    | x :: xs, y :: ys => f x y && go xs ys
    | _, _ => false
    end.
Definition lex (c d : bool * bool) : bool * bool := if c.1 || c.2 then c else d.
Definition both_ltb (x y : list N) : bool * bool := (bytes_ltb x y, bytes_ltb y x).

Definition pair_eqb (p q : data * data) : bool := data_eqb p.1 q.1 && data_eqb p.2 q.2.
Definition pair_cmp (p q : data * data) : bool * bool := lex (data_cmp p.1 q.1) (data_cmp p.2 q.2).
Definition field_eqb (p q : list N * data) : bool := bytes_eqb p.1 q.1 && data_eqb p.2 q.2.
Definition field_cmp (p q : list N * data) : bool * bool := lex (both_ltb p.1 q.1) (data_cmp p.2 q.2).

Lemma data_eqb_list xs ys : data_eqb (d_list xs) (d_list ys) = eqb_list data_eqb xs ys.
Proof. done. Qed.
Lemma data_eqb_map xs ys : data_eqb (d_map xs) (d_map ys) = eqb_list pair_eqb xs ys.
Proof. revert ys. induction xs as [|[k x] xs IH]; intros [|[l y] ys]; try done. cbn. f_equal. apply IH. Qed.
Lemma data_eqb_record xs ys : data_eqb (d_record xs) (d_record ys) = eqb_list field_eqb xs ys.
Proof. revert ys. induction xs as [|[k x] xs IH]; intros [|[l y] ys]; try done. cbn. f_equal. apply IH. Qed.
Lemma data_cmp_list xs ys : data_cmp (d_list xs) (d_list ys) = cmp_list data_cmp xs ys.
Proof. done. Qed.
Lemma data_cmp_map xs ys : data_cmp (d_map xs) (d_map ys) = cmp_list pair_cmp xs ys.
Proof.
  revert ys. induction xs as [|[k x] xs IH]; intros [|[l y] ys]; try done. cbn [cmp_list]. fold (cmp_list pair_cmp).
  rewrite <- IH. done.
Qed.
Lemma data_cmp_record xs ys : data_cmp (d_record xs) (d_record ys) = cmp_list field_cmp xs ys.
Proof.
  revert ys. induction xs as [|[k x] xs IH]; intros [|[l y] ys]; try done. cbn [cmp_list]. fold (cmp_list field_cmp).
  rewrite <- IH. done.
Qed.

Lemma cmp_list_swap {A} (f : A → A → bool * bool) xs ys :
  Forall (λ x, ∀ y, f y x = swap (f x y)) xs → cmp_list f ys xs = swap (cmp_list f xs ys).
Proof.
  intros H. revert ys. induction H as [|x xs Hx _ IH]; intros [|y ys]; try done. cbn [cmp_list].
  fold (cmp_list f). rewrite Hx, IH. cbn [swap fst snd]. rewrite orb_comm. by destruct ((f x y).1 || (f x y).2).
Qed.

Lemma lex_swap c d : lex (swap c) (swap d) = swap (lex c d).
Proof. by destruct c as [[] []], d. Qed.

Lemma data_cmp_swap x y : data_cmp y x = swap (data_cmp x y).
Proof.
  revert y. induction x as [|x|x|x|x|x|x|x|x|x|x n|x|xs IH|xs IH|xs IH] using data_ind';
    intros [|y|y|y|y|y|y|y|y|y|y m|y|ys|ys|ys]; try done.
  - change (lex (both_ltb y x) (m <? n, n <? m) = swap (lex (both_ltb x y) (n <? m, m <? n))). by rewrite <- lex_swap.
  - rewrite !data_cmp_list. by apply cmp_list_swap.
  - rewrite !data_cmp_map. apply cmp_list_swap. eapply list.Forall_impl; [exact IH|]. intros [k a] [Hk Ha] [l b].
    cbn in Hk, Ha. unfold pair_cmp. cbn [fst snd]. by rewrite Hk, Ha, lex_swap.
  - rewrite !data_cmp_record. apply cmp_list_swap. eapply list.Forall_impl; [exact IH|]. intros [k a] Ha [l b].
    cbn in Ha. unfold field_cmp. cbn [fst snd]. by rewrite Ha, <- lex_swap.
Qed.

Lemma eqb_list_cong {A} (e : A → A → bool) (f : A → A → bool * bool) xs ys zs :
  Forall (λ x, ∀ y z, e x y = true → e x z = e y z ∧ f x z = f y z) xs → eqb_list e xs ys = true →
  eqb_list e xs zs = eqb_list e ys zs ∧ cmp_list f xs zs = cmp_list f ys zs.
Proof.
  intros H. revert ys zs. induction H as [|x xs Hx _ IH]; intros [|y ys] zs E; try done.
  cbn in E. apply andb_true_iff in E as [E1 E2]. destruct zs as [|z zs]; [done|].
  cbn. fold (cmp_list f) (eqb_list e) in *. destruct (Hx y z E1) as [-> ->]. by destruct (IH ys zs E2) as [-> ->].
Qed.

(** Data that is equal compares alike with all other data. *)
Lemma data_eqb_cong x y z : data_eqb x y = true → data_eqb x z = data_eqb y z ∧ data_cmp x z = data_cmp y z.
Proof.
  revert y z. induction x as [|x|x|x|x|x|x|x|x|x|x n|x|xs IH|xs IH|xs IH] using data_ind';
    intros [|y|y|y|y|y|y|y|y|y|y m|y|ys|ys|ys] z H; try done.
  4: { destruct z as [| | | |z| | | | | | | | | |]; try done. cbn in *. by destruct (double_eqb_cong x y z H) as (-> & -> & ->). }
  all: try (cbn in H; unfold bytes_eqb in H; first [apply eqb_prop in H|apply Z.eqb_eq in H|apply N.eqb_eq in H|
    apply bool_decide_eq_true in H|apply andb_true_iff in H as [->%bool_decide_eq_true ->%N.eqb_eq]]; by subst).
  - destruct z as [| | | | | | | | | | | |zs| |]; try done. rewrite !data_eqb_list, !data_cmp_list. by apply eqb_list_cong.
  - destruct z as [| | | | | | | | | | | | |zs|]; try done. rewrite data_eqb_map in H. rewrite !data_eqb_map, !data_cmp_map.
    apply eqb_list_cong; [|done]. eapply list.Forall_impl; [exact IH|]. intros [k a] [Hk Ha] [l b] [o c] E.
    unfold pair_eqb, pair_cmp in *. cbn [fst snd] in *. apply andb_true_iff in E as [E1 E2].
    destruct (Hk l o E1) as [-> ->], (Ha b c E2) as [-> ->]. done.
  - destruct z as [| | | | | | | | | | | | | |zs]; try done. rewrite data_eqb_record in H. rewrite !data_eqb_record, !data_cmp_record.
    apply eqb_list_cong; [|done]. eapply list.Forall_impl; [exact IH|]. intros [k a] Ha [l b] [o c] E.
    unfold field_eqb, field_cmp in *. cbn [fst snd] in *. apply andb_true_iff in E as [E1%bool_decide_eq_true E2]. subst l.
    destruct (Ha b c E2) as [-> ->]. done.
Qed.

Section evaluate_laws.
Context (regex_match regex_search : list N → list N → bool).
#[local] Notation evaluate := (evaluate regex_match regex_search).

(** The negated operator is the complement, for all data. *)
Lemma evaluate_negate x op y : evaluate x (negate op) y = negb (evaluate x op y).
Proof.
  destruct op; cbn; unfold data_gtb, data_leb, data_geb, data_neb; rewrite ?negb_involutive; try done.
  all: by destruct (eval_string_and_pattern regex_match x y); rewrite ?negb_involutive.
Qed.

Lemma eval_string_and_pattern_sym x y : eval_string_and_pattern regex_match x y = eval_string_and_pattern regex_match y x.
Proof. by destruct x, y. Qed.

(** The flipped operator swaps the operands. *)
Lemma evaluate_flip x op y : evaluate x (flip op) y = evaluate y op x.
Proof.
  destruct op; cbn; try done; rewrite eval_string_and_pattern_sym; unfold data_neb; by rewrite data_eqb_sym.
Qed.

(** Equal data is interchangeable. *)
Lemma evaluate_cong x y op z : data_eqb x y = true → evaluate x op z = evaluate y op z.
Proof.
  intros H. destruct (data_eqb_cong x y z H) as [He Hc].
  assert (eval_string_and_pattern regex_match x z = eval_string_and_pattern regex_match y z) as Hs.
  { destruct x, y; try done; cbn in H; unfold bytes_eqb in H; apply bool_decide_eq_true in H; by subst. }
  assert (∀ zs, existsb (λ a, data_eqb a x) zs = existsb (λ a, data_eqb a y) zs) as Hl.
  { intros zs. induction zs as [|a zs IH]; [done|]. cbn. rewrite IH, (data_eqb_sym a x), (data_eqb_sym a y).
    by destruct (data_eqb_cong x y a H) as [-> _]. }
  assert (eval_in regex_search x z = eval_in regex_search y z) as Hi.
  { destruct x, y; try done; cbn in H |- *; try (by destruct z; try done; apply Hl).
    all: unfold bytes_eqb in H; first [apply bool_decide_eq_true in H|apply andb_true_iff in H as [->%bool_decide_eq_true ->%N.eqb_eq]]; by subst. }
  assert (eval_in regex_search z x = eval_in regex_search z y) as Hn.
  { destruct x as [| | | | | | | | | | | |xs| |], y as [| | | | | | | | | | | |ys| |]; try done; try (by destruct z).
    4: { assert (existsb (λ a, data_eqb a z) xs = existsb (λ a, data_eqb a z) ys) as E; [|by destruct z].
      clear He Hc Hs Hl Hi. rewrite data_eqb_list in H. revert ys H.
      induction xs as [|a xs IH]; intros [|b ys] H; try done. cbn in H. apply andb_true_iff in H as [H1 H2].
      cbn. rewrite (IH ys H2). by destruct (data_eqb_cong a b z H1) as [-> _]. }
    all: cbn in H |- *; try (unfold bytes_eqb in H; first [apply bool_decide_eq_true in H|apply andb_true_iff in H as [->%bool_decide_eq_true ->%N.eqb_eq]]; by subst). }
  destruct op; cbn; unfold data_neb, data_gtb, data_leb, data_geb, data_ltb; rewrite ?(data_cmp_swap x z), ?(data_cmp_swap y z);
    rewrite ?Hs, ?He, ?Hc, ?Hi, ?Hn; done.
Qed.
End evaluate_laws.
