(* ===== verification/DataRecord.v ===== *)
(** Records of data and their serialisation: flattening and merging ([libvast/src/data.cpp]), the
    stable map that holds the fields ([libvast/include/vast/detail/stable_map.hpp],
    [libvast/include/vast/detail/vector_map.hpp]), and [pack] and [unpack] over the table of
    [libvast/fbs/data.fbs]. *)

From S2P Require Import Prelude Data Ip DataOps.

#[local] Set Warnings "-register-all".

(** ** The stable map *)

Module stable_map.
Section stable_map.
Context {K V : Type} `{EqDecision K}.
Implicit Types (xs : list (K * V)).

(** [lookup] of the policy, which finds the first entry with the key. *)
Definition lookup (k : K) xs : option V := snd <$> (snd <$> list_find (λ p, p.1 = k) xs).
Definition contains (k : K) xs : bool := bool_decide (is_Some (lookup k xs)).
(** [add] of the policy, [emplace]: a key that exists keeps its value. *)
Definition emplace (k : K) (v : V) xs : list (K * V) := if contains k xs then xs else xs ++ [(k, v)].
(** Assignment to [operator[](key)]. *)
Fixpoint assign (k : K) (v : V) xs : list (K * V) :=
  match xs with
  | [] => [(k, v)]
  | p :: xs => if decide (p.1 = k) then (p.1, v) :: xs else p :: assign k v xs
  end.
End stable_map.
End stable_map.

(** ** Flattening and merging *)

Module record.
Import stable_map.
#[local] Abbreviation fields := (list (list N * data)).

Definition max_recursion : N := 100.

(** The code of the dot. *)
Definition dot : N := 46.

(** Adds the fields of a nested record behind the key. *)
Definition hoist (k : list N) (nested result : fields) : fields :=
  foldl (λ result n, emplace (k ++ dot :: n.1) n.2 result) result nested.

(** The loop of [flatten(record, size_t)] over the fields; the limit is a variable of the loop. *)
Definition flatten_loop (flatten_rec : data → N → fields) : fields → N → fields → fields :=
  fix loop r max_recursion result :=
    match r with
    | [] => result
    | (k, v) :: r =>
        match v with
        | d_record _ =>
            let max_recursion := max_recursion -u 1 in
            loop r max_recursion (hoist k (flatten_rec v max_recursion) result)
        | _ => loop r max_recursion (emplace k v result)
        end
    end.
Fixpoint flatten_rec (r : data) (max_recursion : N) {struct r} : fields :=
  match r with
  | d_record r => if max_recursion =? 0 then [] else flatten_loop flatten_rec r max_recursion []
  | _ => []
  end.
Definition flatten (r : fields) : fields := flatten_rec (d_record r) max_recursion.

Definition fields_of (d : data) : fields := match d with d_record r => r | _ => [] end.

(** What a field of the source makes of the value of the destination; a missing one is nil. *)
Definition merge_value (merge_rec : data → fields → fields) (merge_lists : bool) (v old : data) : data :=
  match v with
  | d_record _ => d_record (merge_rec v (fields_of old))
  | d_list src_list =>
      if merge_lists then
        d_list match old with
               | d_list dst_list => dst_list ++ src_list
               | d_none => src_list
               | _ => old :: src_list
               end
      else v
  | _ => v
  end.
(** The loop of [merge] over the fields of the source. *)
Definition merge_loop (merge_rec : data → fields → fields) (merge_lists : bool) : fields → fields → fields :=
  fix loop src dst :=
    match src with
    | [] => dst
    | (k, v) :: src => loop src (assign k (merge_value merge_rec merge_lists v (default d_none (lookup k dst))) dst)
    end.
Fixpoint merge_rec (merge_lists : bool) (max_recursion : N) (src : data) (dst : fields) {struct src} : fields :=
  match src with
  | d_record src =>
      if max_recursion =? 0 then dst
      else merge_loop (merge_rec merge_lists (max_recursion - 1)) merge_lists src dst
  | _ => dst
  end.
Definition merge (src dst : fields) (merge_lists : bool) : fields :=
  merge_rec merge_lists max_recursion (d_record src) dst.

(** [depth(record)]: a stack of records with their depth. *)
Fixpoint depth_loop (fuel : nat) (stack : list (fields * N)) (result : N) : N :=
  match fuel, stack with
  | S fuel, (r, depth) :: stack =>
      let nested := omap (λ f, match f.2 with d_record n => Some (n, depth + 1) | _ => None end) r in
      depth_loop fuel (reverse nested ++ stack) (N.max result depth)
  | _, _ => result
  end.
Fixpoint data_size (d : data) : nat :=
  match d with
  | d_record r => S (foldr (λ f n, data_size f.2 + n) 0 r)%nat
  | _ => 1%nat
  end.
Definition depth (r : fields) : N :=
  match r with [] => 0 | _ => depth_loop (data_size (d_record r)) [(r, 1)] 0 end.
End record.

(** ** Serialisation *)

Module fbs.
(** The union [fbs::data::Data] with the value of its table or struct. *)
Inductive Data :=
| NONE
| boolean (value : bool)
| int64 (value : Z)
| uint64 (value : N)
| double_ (value : N)
| duration (ns : Z)
| time (ns : Z)
| string (value : list N)
| pattern (value : list N)
| ip (bytes : list N)
| subnet (ip : list N) (length : N)
| enumeration (value : N)
| list_ (values : list Data)
| map (entries : list (Data * Data))
| record (fields : list (list N * Data)).
End fbs.

Fixpoint pack (value : data) : fbs.Data :=
  match value with
  | d_none => fbs.NONE
  | d_bool x => fbs.boolean x
  | d_int64 x => fbs.int64 x
  | d_uint64 x => fbs.uint64 x
  | d_double x => fbs.double_ x
  | d_duration x => fbs.duration x
  | d_time x => fbs.time x
  | d_string x => fbs.string x
  | d_pattern x => fbs.pattern x
  | d_ip x => fbs.ip x
  | d_subnet x n => fbs.subnet (subnet.network (subnet.mk x n)) (subnet.length (subnet.mk x n))
  | d_enumeration x => fbs.enumeration x
  | d_list xs => fbs.list_ (pack <$> xs)
  | d_map xs => fbs.map ((λ x, (pack x.1, pack x.2)) <$> xs)
  | d_record xs => fbs.record ((λ x, (x.1, pack x.2)) <$> xs)
  end.

(** [unpack]; an enumeration has eight bits. *)
Fixpoint unpack (from : fbs.Data) : data :=
  match from with
  | fbs.NONE => d_none
  | fbs.boolean x => d_bool x
  | fbs.int64 x => d_int64 x
  | fbs.uint64 x => d_uint64 x
  | fbs.double_ x => d_double x
  | fbs.duration x => d_duration x
  | fbs.time x => d_time x
  | fbs.string x => d_string x
  | fbs.pattern x => d_pattern x
  | fbs.ip x => d_ip x
  | fbs.subnet x n => let s := subnet.make x n in d_subnet (subnet.network_ s) (subnet.length_ s)
  | fbs.enumeration x => d_enumeration (x mod 256)
  | fbs.list_ xs => d_list (unpack <$> xs)
  | fbs.map xs => d_map ((λ x, (unpack x.1, unpack x.2)) <$> xs)
  | fbs.record xs => d_record ((λ x, (x.1, unpack x.2)) <$> xs)
  end.

(** The invariants of the classes: subnets are constructed ones, an enumeration is a byte. *)
Fixpoint data_wf (d : data) : Prop :=
  match d with
  | d_subnet x n => subnet_wf (subnet.mk x n)
  | d_enumeration x => x < 256
  | d_list xs => foldr (λ x P, data_wf x ∧ P) True xs
  | d_map xs => foldr (λ x P, data_wf x.1 ∧ data_wf x.2 ∧ P) True xs
  | d_record xs => foldr (λ x P, data_wf x.2 ∧ P) True xs
  | _ => True
  end.

(** What is packed can be unpacked. *)
Lemma unpack_pack d : data_wf d → unpack (pack d) = d.
Proof.
  induction d as [|x|x|x|x|x|x|x|x|x|x n|x|xs IH|xs IH|xs IH] using data_ind'; cbn [pack unpack data_wf]; intros Hw; try done.
  - by rewrite subnet_make_length.
  - by rewrite N.mod_small.
  - f_equal. induction IH as [|x xs Hx _ IHxs]; [done|]. destruct Hw as [Hw1 Hw2]. cbn. f_equal; auto.
  - f_equal. induction IH as [|[k x] xs [Hk Hx] _ IHxs]; [done|]. destruct Hw as (Hw1 & Hw2 & Hw3). cbn in *.
    rewrite Hk, Hx by done. f_equal. auto.
  - f_equal. induction IH as [|[k x] xs Hx _ IHxs]; [done|]. destruct Hw as (Hw1 & Hw2). cbn in *.
    rewrite Hx by done. f_equal. auto.
Qed.

(** ** What lookups see *)

(** The first of two results. *)
#[local] Notation "x <|> y" := (match x with Some v => Some v | None => y end) (at level 60, right associativity).

Section stable_map_lemmas.
Context {K V : Type} `{EqDecision K}.
Implicit Types (xs ys : list (K * V)).
Import stable_map.

Lemma lookup_map_cons k p xs : lookup k (p :: xs) = if decide (p.1 = k) then Some p.2 else lookup k xs.
Proof.
  unfold lookup. cbn. case_decide; [done|]. by destruct (list_find _ xs) as [[]|].
Qed.

Lemma lookup_map_app k xs ys : lookup k (xs ++ ys) = lookup k xs <|> lookup k ys.
Proof. induction xs as [|p xs IH]; [done|]. cbn [app]. rewrite !lookup_map_cons, IH. by case_decide. Qed.

Lemma lookup_map_None k xs : lookup k xs = None ↔ k ∉ xs.*1.
Proof.
  induction xs as [|p xs IH]; [split; [|done]; intros _; apply not_elem_of_nil|].
  rewrite lookup_map_cons. cbn. rewrite not_elem_of_cons, <- IH.
  case_decide; [subst; split; [done|by intros [? _]]|]. split; [by split|by intros [_ ?]].
Qed.

Lemma lookup_emplace k v xs l : lookup l (emplace k v xs) = lookup l xs <|> (if decide (k = l) then Some v else None).
Proof.
  unfold emplace, contains. case_bool_decide as H.
  - destruct H as [w H]. case_decide as E; [subst; by rewrite H|]. by destruct (lookup l xs).
  - rewrite lookup_map_app. rewrite lookup_map_cons. cbn. done.
Qed.

Lemma emplace_NoDup k v xs : NoDup xs.*1 → NoDup (emplace k v xs).*1.
Proof.
  intros Hd. unfold emplace, contains. case_bool_decide as H; [done|]. rewrite fmap_app. apply list.NoDup_app.
  split_and!; [done| |apply NoDup_singleton]. intros l Hl ->%list_elem_of_singleton. apply H.
  destruct (lookup k xs) eqn:E; [done|]. by apply lookup_map_None in E.
Qed.

Lemma lookup_assign k v xs l : lookup l (assign k v xs) = if decide (k = l) then Some v else lookup l xs.
Proof.
  induction xs as [|p xs IH]; cbn [assign]; [by rewrite lookup_map_cons|].
  destruct (decide (p.1 = k)) as [Hk|Hk].
  - rewrite !lookup_map_cons. cbn. repeat case_decide; congruence.
  - rewrite !lookup_map_cons, IH. repeat case_decide; congruence.
Qed.

Lemma assign_keys k v xs : (assign k v xs).*1 = xs.*1 ++ (if contains k xs then [] else [k]).
Proof.
  unfold contains. induction xs as [|p xs IH]; cbn [assign]; [done|].
  rewrite lookup_map_cons. case_decide as Hk; [cbn; by rewrite app_nil_r|]. cbn. by rewrite IH.
Qed.

Lemma assign_same k v xs : lookup k xs = Some v → assign k v xs = xs.
Proof.
  induction xs as [|[l w] xs IH]; [done|]. rewrite lookup_map_cons. cbn.
  case_decide as Hk; [by intros [= ->]|]. intros H. by rewrite IH.
Qed.
End stable_map_lemmas.

(** ** Flattening *)

Section flatten.
Import stable_map record.
#[local] Abbreviation fields := (list (list N * data)).

(** The fields below all nested records, with the keys on the way joined by dots. *)
Definition leaf (leaves : data → fields) (f : list N * data) : fields :=
  match f.2 with
  | d_record _ => prod_map (λ n, f.1 ++ dot :: n) id <$> leaves f.2
  | _ => [f]
  end.
Fixpoint leaves (d : data) : fields := match d with d_record r => concat (leaf leaves <$> r) | _ => [] end.

(** The limit a record needs: each nested record takes one from itself and all that follow. *)
Definition need_rest (need : data → N) : fields → N :=
  foldr (λ f n, match f.2 with d_record _ => 1 + N.max (need f.2) n | _ => n end) 0.
Fixpoint need (d : data) : N := match d with d_record r => N.max 1 (need_rest need r) | _ => 0 end.

Lemma lookup_hoist k nested result l :
  lookup l (hoist k nested result) = lookup l result <|> lookup l (prod_map (λ n, k ++ dot :: n) id <$> nested).
Proof.
  unfold hoist. revert result. induction nested as [|[n v] nested IH]; intros result; cbn [foldl fmap list_fmap].
  { by destruct (lookup l result). }
  rewrite IH, lookup_emplace. rewrite lookup_map_cons. cbn. by destruct (lookup l result); [|case_decide].
Qed.

Lemma hoist_NoDup k nested result : NoDup result.*1 → NoDup (hoist k nested result).*1.
Proof.
  unfold hoist. revert result. induction nested as [|p nested IH]; intros result Hd; [done|].
  cbn [foldl]. by apply IH, emplace_NoDup.
Qed.

(** Looking up behind a prefix only depends on lookups without it. *)
Lemma lookup_prefix k (xs ys : fields) : (∀ l, lookup l xs = lookup l ys) →
  ∀ l, lookup l (prod_map (λ n, k ++ dot :: n) id <$> xs) = lookup l (prod_map (λ n, k ++ dot :: n) id <$> ys).
Proof.
  assert (∀ (zs : fields) l, (∃ n, l = k ++ dot :: n ∧ lookup l (prod_map (λ n, k ++ dot :: n) id <$> zs) = lookup n zs) ∨
    ((∀ n, l ≠ k ++ dot :: n) ∧ lookup l (prod_map (λ n, k ++ dot :: n) id <$> zs) = None)) as Hz.
  { intros zs l. assert ((∃ n, l = k ++ dot :: n) ∨ ∀ n, l ≠ k ++ dot :: n) as [[n ->]|Hn].
    { destruct (decide (take (S (length k)) l = k ++ [dot])) as [E|E].
      - left. exists (drop (S (length k)) l). rewrite <- (take_drop (S (length k)) l) at 1. by rewrite E, <- app_assoc.
      - right. intros n ->. apply E. rewrite cons_middle, app_assoc, take_app_length'; [done|]. rewrite length_app. cbn. lia. }
    - left. exists n. split; [done|]. induction zs as [|[m v] zs IH]; [done|]. cbn [fmap list_fmap].
      rewrite !lookup_map_cons. cbn. rewrite IH. destruct (decide (m = n)) as [->|Hne].
      + by rewrite decide_True.
      + by rewrite decide_False by (intros [= ?]%app_inv_head; done).
    - right. split; [done|]. apply lookup_map_None. rewrite <- list_fmap_compose.
      intros ((m & v) & -> & _)%list_elem_of_fmap. by apply (Hn m). }
  intros Hxy l. destruct (Hz xs l) as [(n & -> & ->)|[Hn ->]].
  - destruct (Hz ys (k ++ dot :: n)) as [(m & Hm%app_inv_head & ->)|[Hn _]]; [injection Hm as ->; apply Hxy|by destruct (Hn n)].
  - destruct (Hz ys l) as [(m & -> & _)|[_ ->]]; [by destruct (Hn m)|done].
Qed.

Lemma flatten_loop_spec r m result :
  Forall (λ f, ∀ m, need f.2 <= m → m < 2 ^ 64 → ∀ l, lookup l (flatten_rec f.2 m) = lookup l (leaves f.2)) r →
  need_rest need r <= m → m < 2 ^ 64 → NoDup result.*1 →
  NoDup (flatten_loop flatten_rec r m result).*1 ∧
  ∀ l, lookup l (flatten_loop flatten_rec r m result) = lookup l result <|> lookup l (concat (leaf leaves <$> r)).
Proof.
  intros Hr. revert m result. induction Hr as [|[k v] r Hv _ IH]; intros m result Hn Hm Hd.
  { change (flatten_loop flatten_rec [] m result) with result. split; [done|]. intros l. by destruct (lookup l result). }
  assert (∀ m' result' leaf', flatten_loop flatten_rec ((k, v) :: r) m result = flatten_loop flatten_rec r m' result' →
    NoDup result'.*1 → need_rest need r <= m' → m' < 2 ^ 64 →
    leaf leaves (k, v) = leaf' → (∀ l, lookup l result' = lookup l result <|> lookup l leaf') →
    NoDup (flatten_loop flatten_rec ((k, v) :: r) m result).*1 ∧
    ∀ l, lookup l (flatten_loop flatten_rec ((k, v) :: r) m result) = lookup l result <|> lookup l (concat (leaf leaves <$> ((k, v) :: r)))) as Hgen.
  { intros m' result' leaf' -> Hd' Hn' Hm' Hleaf Hl. destruct (IH m' result' Hn' Hm' Hd') as [IH1 IH2]. split; [done|].
    intros l. cbn [fmap list_fmap concat]. rewrite IH2, Hl, lookup_map_app, Hleaf. by destruct (lookup l result). }
  destruct v as [| | | | | | | | | | | | | |nested];
    [eapply Hgen; [reflexivity|by apply emplace_NoDup|exact Hn|exact Hm|reflexivity|intros l; rewrite lookup_emplace; unfold leaf; cbn [snd]; by rewrite lookup_map_cons]..|].
  change (need_rest need ((k, d_record nested) :: r)) with (1 + N.max (need (d_record nested)) (need_rest need r)) in Hn.
  assert (m -u 1 = m - 1) as Hm1 by (apply usub_small; lia).
  eapply Hgen; [reflexivity|by apply hoist_NoDup|lia|lia|reflexivity|].
  intros l. rewrite lookup_hoist. destruct (lookup l result); [done|].
  apply lookup_prefix. intros l'. apply Hv; cbn [snd]; lia.
Qed.

(** With a limit that is enough, a flattened record holds exactly the leaves. *)
Lemma flatten_rec_spec d m : need d <= m → m < 2 ^ 64 →
  NoDup (flatten_rec d m).*1 ∧ ∀ l, lookup l (flatten_rec d m) = lookup l (leaves d).
Proof.
  revert m. induction d as [| | | | | | | | | | | | | |r IH] using data_ind'; try (intros; split; [apply NoDup_nil_2|done]).
  intros m Hn Hm. cbn [need flatten_rec leaves] in *. destruct (N.eqb_spec m 0) as [|_]; [lia|].
  destruct (flatten_loop_spec r m []) as [H1 H2]; [|lia|done|apply NoDup_nil_2|by split].
  eapply list.Forall_impl; [exact IH|]. intros f Hf m' Hn' Hm'. by apply Hf.
Qed.
End flatten.

(** ** Merging *)

Section merge.
Import stable_map record.
#[local] Abbreviation fields := (list (list N * data)).
Implicit Types (src dst : fields).

(** No record has a key twice. *)
Fixpoint keys_unique (d : data) : Prop :=
  match d with d_record r => NoDup r.*1 ∧ foldr (λ f P, keys_unique f.2 ∧ P) True r | _ => True end.

Lemma keys_unique_fields (r : fields) : foldr (λ f P, keys_unique f.2 ∧ P) True r ↔ Forall (λ f, keys_unique f.2) r.
Proof. induction r as [|f r IH]; cbn; [by split|]. by rewrite list.Forall_cons, IH. Qed.

(** The value of every key after a merge. *)
Lemma lookup_merge_loop f ml src dst l : NoDup src.*1 →
  lookup l (merge_loop f ml src dst) =
  match lookup l src with
  | Some v => Some (merge_value f ml v (default d_none (lookup l dst)))
  | None => lookup l dst
  end.
Proof.
  revert dst. induction src as [|[k v] src IH]; intros dst Hd; [done|].
  cbn in Hd. apply list.NoDup_cons in Hd as [Hk Hd]. cbn [merge_loop].
  rewrite IH, lookup_map_cons, lookup_assign by done. cbn. case_decide as Hl; [subst l|done].
  by rewrite (proj2 (lookup_map_None k src)).
Qed.

(** A merge keeps the order of the keys and adds new ones behind them. *)
Lemma merge_loop_keys f ml src dst : NoDup src.*1 →
  (merge_loop f ml src dst).*1 = dst.*1 ++ filter (λ k, k ∉ dst.*1) src.*1.
Proof.
  revert dst. induction src as [|[k v] src IH]; intros dst Hd; [by cbn; rewrite app_nil_r|].
  cbn in Hd. apply list.NoDup_cons in Hd as [Hk Hd]. cbn [merge_loop fmap list_fmap]. rewrite IH by done.
  rewrite assign_keys. cbn [fst]. rewrite filter_cons. unfold contains. case_bool_decide as Hc.
  - rewrite app_nil_r. rewrite decide_False; [done|]. intros Hn%lookup_map_None. rewrite Hn in Hc. by destruct Hc.
  - rewrite decide_True; [|by apply lookup_map_None, eq_None_not_Some]. rewrite <- app_assoc. cbn. do 2 f_equal.
    apply filter_ext_elem. intros x Hx. rewrite not_elem_of_app, not_elem_of_cons.
    split; [by intros [? _]|]. intros ?. split_and!; [done| |apply not_elem_of_nil]. by intros ->.
Qed.

Lemma merge_loop_same f ml src dst :
  (∀ k v, (k, v) ∈ src → ∃ w, lookup k dst = Some w ∧ merge_value f ml v w = w) → merge_loop f ml src dst = dst.
Proof.
  induction src as [|[k v] src IH]; intros H; [done|]. cbn [merge_loop].
  destruct (H k v (list_elem_of_here _ _)) as (w & Hw & Hv). rewrite Hw. cbn. rewrite Hv, assign_same by done.
  apply IH. intros k' v' Hk'. apply H. by apply list_elem_of_further.
Qed.

Lemma lookup_map_Some k v (xs : fields) : NoDup xs.*1 → (k, v) ∈ xs → lookup k xs = Some v.
Proof.
  induction xs as [|[l w] xs IH]; cbn [fmap list_fmap fst]; [by intros _ ?%not_elem_of_nil|].
  intros [Hl Hd]%list.NoDup_cons [[= -> ->]|Hk]%elem_of_cons; rewrite lookup_map_cons; cbn; [by rewrite decide_True|].
  rewrite decide_False; [by apply IH|]. intros ->. apply Hl. by apply (list_elem_of_fmap_2 fst _ (k, v)).
Qed.

(** Merging the same record again changes nothing. *)
Lemma merge_rec_idemp (src : data) m dst : keys_unique src →
  merge_rec false m src (merge_rec false m src dst) = merge_rec false m src dst.
Proof.
  revert m dst. induction src as [| | | | | | | | | | | | | |src IH] using data_ind'; intros m dst Hu; try done.
  destruct Hu as [Hd Hu%keys_unique_fields]. cbn [merge_rec]. destruct (m =? 0); [done|].
  apply merge_loop_same. intros k v Hk. rewrite lookup_merge_loop, (lookup_map_Some k v src) by done.
  eexists. split; [done|]. rewrite list.Forall_forall in IH, Hu. specialize (IH _ Hk). specialize (Hu _ Hk). cbn in IH, Hu.
  destruct v; try done. cbn [merge_value fields_of]. f_equal. by apply IH.
Qed.
End merge.

(** ** Depth *)

Section depth.
Import record.
#[local] Abbreviation fields := (list (list N * data)).

(** How deep records nest. *)
Fixpoint record_depth (d : data) : N :=
  match d with d_record r => 1 + foldr (λ f n, N.max (record_depth f.2) n) 0 r | _ => 0 end.

Definition stack_size (stack : list (fields * N)) : nat := foldr (λ p n, data_size (d_record p.1) + n)%nat 0%nat stack.
Definition stack_depth (stack : list (fields * N)) : N :=
  foldr (λ p n, N.max (p.2 + record_depth (d_record p.1) - 1) n) 0 stack.

Lemma stack_size_app s t : stack_size (s ++ t) = (stack_size s + stack_size t)%nat.
Proof. unfold stack_size. induction s as [|p s IH]; cbn [app foldr]; [done|]. rewrite IH. lia. Qed.
Lemma stack_depth_app s t : stack_depth (s ++ t) = N.max (stack_depth s) (stack_depth t).
Proof. unfold stack_depth. induction s as [|p s IH]; cbn [app foldr]; [lia|]. rewrite IH. lia. Qed.
Lemma stack_size_perm s t : s ≡ₚ t → stack_size s = stack_size t.
Proof. induction 1; unfold stack_size in *; cbn [foldr]; lia. Qed.
Lemma stack_depth_perm s t : s ≡ₚ t → stack_depth s = stack_depth t.
Proof. induction 1; unfold stack_depth in *; cbn [foldr]; lia. Qed.

Definition nested (depth : N) (r : fields) : list (fields * N) :=
  omap (λ f, match f.2 with d_record n => Some (n, depth + 1) | _ => None end) r.

Lemma nested_size depth r : (stack_size (nested depth r) < data_size (d_record r))%nat.
Proof.
  unfold nested, stack_size. induction r as [|[k v] r IH]; cbn [omap list_omap snd foldr data_size] in *; [lia|].
  destruct v; cbn [foldr fst data_size] in *; lia.
Qed.

Lemma nested_depth depth r : 1 <= depth →
  N.max depth (stack_depth (nested depth r)) = depth + record_depth (d_record r) - 1.
Proof.
  intros Hd. unfold nested, stack_depth. cbn [record_depth].
  induction r as [|[k v] r IH]; cbn [omap list_omap snd foldr] in *; [lia|].
  destruct v; cbn [foldr fst snd record_depth] in *; lia.
Qed.

Lemma depth_loop_spec fuel stack result :
  (stack_size stack <= fuel)%nat → Forall (λ p, 1 <= p.2) stack →
  depth_loop fuel stack result = N.max result (stack_depth stack).
Proof.
  revert stack result. induction fuel as [|fuel IH]; intros [|[r d] stack] result Hs Hd; try (cbn; lia).
  { exfalso. unfold stack_size in Hs. cbn [foldr fst data_size] in Hs. lia. }
  apply list.Forall_cons in Hd as [Hd Hds]. cbn in Hd. cbn [depth_loop]. fold (nested d r).
  pose proof (nested_size d r) as Hn. pose proof (nested_depth d r Hd) as Hnd.
  assert (stack_size ((r, d) :: stack) = (data_size (d_record r) + stack_size stack)%nat) as E by done.
  rewrite IH.
  - rewrite stack_depth_app, (stack_depth_perm _ _ (reverse_Permutation (nested d r))).
    change (stack_depth ((r, d) :: stack)) with (N.max (d + record_depth (d_record r) - 1) (stack_depth stack)). lia.
  - rewrite stack_size_app, (stack_size_perm _ _ (reverse_Permutation (nested d r))). lia.
  - apply list.Forall_app. split; [|done]. apply Forall_reverse. unfold nested. apply list.Forall_forall.
    intros p (f & _ & Hf)%list_elem_of_omap. destruct f.2; try done. injection Hf as <-. cbn. lia.
Qed.

(** The traversal with a stack finds the nesting depth. *)
Lemma depth_spec r : depth r = if bool_decide (r = []) then 0 else record_depth (d_record r).
Proof.
  destruct r as [|f r]; [done|]. rewrite bool_decide_eq_false_2 by done. unfold depth.
  rewrite depth_loop_spec; [|unfold stack_size; cbn [foldr fst]; lia|by repeat constructor].
  unfold stack_depth. cbn [foldr fst snd]. lia.
Qed.
End depth.
