(* ===== verification/Expression.v ===== *)
(** The query language: [libvast/include/vast/expression.hpp], [libvast/src/expression.cpp],
    [libvast/src/expression_visitors.cpp], [libvast/include/vast/expression_visitors.hpp] and
    [libvast/src/prune.cpp].

    A visitor is a recursive function; its member [op_] is an argument of what it calls. *)

From S2P Require Import Prelude SetOperations Operator Data Types RecordType KeySuffix Ip DataOps.

#[local] Set Warnings "-register-all".

(** ** The tree *)

(** [enum meta_extractor::kind] *)
Inductive meta_kind := meta_type | meta_import_time.
Definition meta_kind_eqb (x y : meta_kind) : bool :=
  match x, y with meta_type, meta_type | meta_import_time, meta_import_time => true | _, _ => false end.

(** [predicate::operand] *)
Inductive operand :=
| meta_extractor (kind : meta_kind)
| field_extractor (field : list N)
| type_extractor (t : type)
| data_extractor (t : type) (column : N)
| o_data (d : data).

Record predicate := mk_predicate { lhs : operand; op : relational_operator; rhs : operand }.

Inductive expression :=
| e_none
| conjunction (xs : list expression)
| disjunction (xs : list expression)
| negation (x : expression)
| e_predicate (p : predicate).

(** [operator==] *)
Definition operand_eqb (x y : operand) : bool :=
  match x, y with
  | meta_extractor x, meta_extractor y => meta_kind_eqb x y
  | field_extractor x, field_extractor y => bytes_eqb x y
  | type_extractor x, type_extractor y => type_eqb x y
  | data_extractor x c, data_extractor y d => type_eqb x y && (c =? d)
  | o_data x, o_data y => data_eqb x y
  | _, _ => false
  end.
Definition predicate_eqb (x y : predicate) : bool :=
  operand_eqb (lhs x) (lhs y) && (op x ==o op y) && operand_eqb (rhs x) (rhs y).
Fixpoint expression_eqb (x y : expression) {struct x} : bool :=
  let list_eqb := fix go xs ys :=
    match xs, ys with
    | [], [] => true
    | x :: xs, y :: ys => expression_eqb x y && go xs ys
    | _, _ => false
    end in
  match x, y with
  | e_none, e_none => true
  | conjunction xs, conjunction ys | disjunction xs, disjunction ys => list_eqb xs ys
  | negation x, negation y => expression_eqb x y
  | e_predicate x, e_predicate y => predicate_eqb x y
  | _, _ => false
  end.

(** [curried]: the operator and the value; a precondition says that there is a value. *)
Definition curried (p : predicate) : option (relational_operator * data) :=
  match rhs p with o_data d => Some (op p, d) | _ => None end.

(** ** Visitors that rewrite *)

Definition is_e_none (e : expression) : bool := match e with e_none => true | _ => false end.

(** A connective of one operand is that operand. *)
Definition unwrap (connective : list expression → expression) (xs : list expression) : expression :=
  match xs with [x] => x | _ => connective xs end.
(** The same, and nil for a connective of no operands. *)
Definition unwrap_none (connective : list expression → expression) (xs : list expression) : expression :=
  match xs with [] => e_none | _ => unwrap connective xs end.

Fixpoint meta_pruner (e : expression) : expression :=
  match e with
  | e_none => e_none
  | conjunction c => unwrap_none conjunction (filter (λ x, is_e_none x = false) (meta_pruner <$> c))
  | disjunction d => unwrap_none disjunction (filter (λ x, is_e_none x = false) (meta_pruner <$> d))
  | negation x => match meta_pruner x with e_none => e_none | x => negation x end
  | e_predicate p =>
      match lhs p, rhs p with
      | meta_extractor _, _ | _, meta_extractor _ => e_none
      | _, _ => e_predicate p
      end
  end.

Fixpoint hoister (e : expression) : expression :=
  match e with
  | e_none => e_none
  | conjunction c =>
      unwrap conjunction (concat ((λ op, match op with conjunction inner => hoister <$> inner | _ => [hoister op] end) <$> c))
  | disjunction d =>
      unwrap disjunction (concat ((λ op, match op with disjunction inner => hoister <$> inner | _ => [hoister op] end) <$> d))
  | negation x => negation (hoister x)
  | e_predicate p => e_predicate p
  end.

Definition is_extractor (o : operand) : bool := match o with o_data _ => false | _ => true end.

Definition align (p : predicate) : predicate :=
  if is_extractor (lhs p) || negb (is_extractor (rhs p)) then p
  else mk_predicate (rhs p) (flip (op p)) (lhs p).
Fixpoint aligner (e : expression) : expression :=
  match e with
  | e_none => e_none
  | conjunction c => conjunction (aligner <$> c)
  | disjunction d => disjunction (aligner <$> d)
  | negation x => negation (aligner x)
  | e_predicate p => e_predicate (align p)
  end.

Fixpoint denegator (negate_ : bool) (e : expression) : expression :=
  match e with
  | e_none => e_none
  | conjunction c => (if negate_ then disjunction else conjunction) (denegator negate_ <$> c)
  | disjunction d => (if negate_ then conjunction else disjunction) (denegator negate_ <$> d)
  | negation (negation x) => denegator negate_ x
  | negation x => denegator (negb negate_) x
  | e_predicate p => e_predicate (mk_predicate (lhs p) (if negate_ then negate (op p) else op p) (rhs p))
  end.

(** Adds an operand unless an equal one is there. *)
Definition push_unique (result : list expression) (p : expression) : list expression :=
  if existsb (λ x, expression_eqb x p) result then result else result ++ [p].
Fixpoint deduplicator (e : expression) : expression :=
  match e with
  | e_none => e_none
  | conjunction c => conjunction (foldl push_unique [] (deduplicator <$> c))
  | disjunction d => disjunction (foldl push_unique [] (deduplicator <$> d))
  | negation x => deduplicator x
  | e_predicate p => e_predicate p
  end.

(** [hoist], [prune_meta_predicates], [normalize] *)
Definition hoist (e : expression) : expression := hoister e.
Definition prune_meta_predicates (e : expression) : expression := meta_pruner e.
Definition normalize (e : expression) : expression :=
  hoister (deduplicator (denegator false (aligner (hoister e)))).

(** ** [predicatizer] *)

Section predicatizer.
(** [operator<] of predicates, which compares the tables of types. *)
Context (predicate_ltb : predicate → predicate → bool).

Definition inplace_union (xs ys : list predicate) : list predicate := inplace_unify predicate_ltb predicate_eqb xs ys.

Fixpoint predicatizer (e : expression) : list predicate :=
  match e with
  | e_none => []
  | conjunction c | disjunction c => foldl inplace_union [] (predicatizer <$> c)
  | negation x => predicatizer x
  | e_predicate p => [p]
  end.
End predicatizer.

(** ** [validator] *)

Section validator.
(** Whether [std::regex] accepts a pattern. *)
Context (regex_valid : list N → bool).

Definition valid : expected unit := value ().

Definition validate_meta (kind : meta_kind) (op : relational_operator) (d : data) : expected unit :=
  match kind with
  | meta_type => match d with d_string _ | d_pattern _ => valid | _ => error syntax_error end
  | meta_import_time =>
      match d, op with
      | d_time _, less | d_time _, less_equal | d_time _, greater | d_time _, greater_equal => valid
      | _, _ => error syntax_error
      end
  end.
Definition validate_type (t : type) (op : relational_operator) (d : data) : expected unit :=
  if negb (type.is_some t) then valid else if type.compatible t op d then valid else error syntax_error.
Definition validate_predicate (p : predicate) : expected unit :=
  match rhs p with
  | o_data (d_pattern pat) =>
      if negb (regex_valid pat) then error syntax_error
      else match lhs p with
           | meta_extractor kind => validate_meta kind (op p) (d_pattern pat)
           | type_extractor t => validate_type t (op p) (d_pattern pat)
           | field_extractor _ => valid
           | _ => error syntax_error
           end
  | o_data d =>
      match lhs p with
      | meta_extractor kind => validate_meta kind (op p) d
      | type_extractor t => validate_type t (op p) d
      | field_extractor _ => valid
      | _ => error syntax_error
      end
  | _ => error syntax_error
  end.

Fixpoint validator (e : expression) : expected unit :=
  match e with
  | e_none => error syntax_error
  | conjunction c | disjunction c =>
      foldr (λ m rest, match m with error e => error e | value _ => rest end) valid (validator <$> c)
  | negation x => validator x
  | e_predicate p => validate_predicate p
  end.

Definition normalize_and_validate (e : expression) : expected expression :=
  let e := normalize e in
  match validator e with error err => error err | value _ => value e end.
End validator.

(** ** [type_resolver] *)

Module type_resolver.
Section type_resolver.
Context (schema : list field) (schema_name : list N).

(** ["timestamp"] *)
Definition timestamp : list N := [116; 105; 109; 101; 115; 116; 97; 109; 112].

(** What several predicates for one extractor amount to. *)
Definition connect (op : relational_operator) (connective : list expression) : expression :=
  match connective with
  | [] => e_none
  | [x] => x
  | _ => (if is_negated op then conjunction else disjunction) connective
  end.

(** The loop over the leaves, which counts them. *)
Fixpoint matching_leaves (f : type → bool) (flat_index : N) (leaves : list record_type.leaf_view) : list (type * N) :=
  match leaves with
  | [] => []
  | l :: leaves =>
      (if f l.2.2 then [(l.2.2, flat_index)] else []) ++ matching_leaves f (flat_index + 1) leaves
  end.
Definition resolve_extractor (op : relational_operator) (f : type → bool) (x : data) : expression :=
  connect op ((λ m, e_predicate (mk_predicate (data_extractor m.1 m.2) op (o_data x))) <$>
              matching_leaves f 0 (record_type.leaves schema)).

(** A type extractor without a type stands for the name of a type. *)
Definition name_matches (name : list N) (op : relational_operator) (d : data) (t : type) : bool :=
  existsb (bytes_eqb name) (type.names t) && type.compatible t op d.
Definition has_timestamp_attribute (t : type) : bool := bool_decide (is_Some (type.attribute timestamp t)).

Definition resolve_type_extractor (t : type) (op : relational_operator) (d : data) : expected expression :=
  if negb (type.is_some t) then
    if bytes_eqb (type.name t) timestamp then
      match d with
      | d_time _ =>
          value (disjunction [resolve_extractor op (name_matches (type.name t) op d) d;
                              resolve_extractor op has_timestamp_attribute d])
      | _ => error type_clash
      end
    else value (resolve_extractor op (name_matches (type.name t) op d) d)
  else value (resolve_extractor op (λ t', type.congruent t' t) d).

(** [data_extractor(record_type, offset)] *)
Definition make_data_extractor (o : list nat) : option (type * N) :=
  f ← record_type.field_at schema o; c ← record_type.flat_index schema o; Some (f.2, c).

Definition resolve_field_extractor (field : list N) (op : relational_operator) (d : data) : expected expression :=
  value (connect op (omap (λ o,
    x ← make_data_extractor o;
    if type.compatible x.1 op d then Some (e_predicate (mk_predicate (data_extractor x.1 x.2) op (o_data d))) else None)
    (key_suffix.resolve_key_suffix schema field schema_name))).

Definition resolve_predicate (p : predicate) : expected expression :=
  match lhs p, rhs p with
  | type_extractor t, o_data d | o_data d, type_extractor t => resolve_type_extractor t (op p) d
  | field_extractor f, o_data d | o_data d, field_extractor f => resolve_field_extractor f (op p) d
  | _, _ => value (e_predicate p)
  end.

(** The operands of a conjunction; [None] tells that one did not resolve. *)
Fixpoint resolve_conjuncts (xs : list (expected expression)) : expected (option (list expression)) :=
  match xs with
  | [] => value (Some [])
  | error e :: _ => error e
  | value e_none :: _ => value None
  | value x :: xs =>
      match resolve_conjuncts xs with
      | error e => error e
      | value None => value None
      | value (Some xs) => value (Some (x :: xs))
      end
  end.
(** The operands of a disjunction, without those that did not resolve. *)
Fixpoint resolve_disjuncts (xs : list (expected expression)) : expected (list expression) :=
  match xs with
  | [] => value []
  | error e :: _ => error e
  | value x :: xs =>
      match resolve_disjuncts xs with
      | error e => error e
      | value xs => value (if is_e_none x then xs else x :: xs)
      end
  end.

Fixpoint visit (e : expression) : expected expression :=
  match e with
  | e_none => value e_none
  | conjunction c =>
      match resolve_conjuncts (visit <$> c) with
      | error e => error e
      | value None => value e_none
      | value (Some xs) => value (unwrap_none conjunction xs)
      end
  | disjunction d =>
      match resolve_disjuncts (visit <$> d) with
      | error e => error e
      | value xs => value (unwrap_none disjunction xs)
      end
  | negation x =>
      match visit x with
      | error e => error e
      | value e_none => value e_none
      | value x => value (negation x)
      end
  | e_predicate p => resolve_predicate p
  end.
End type_resolver.
End type_resolver.

(** [tailor] to a schema that is a record. *)
Definition tailor (e : expression) (schema : list field) (schema_name : list N) : expected expression :=
  match e with
  | e_none => error unspecified
  | _ => type_resolver.visit schema schema_name e
  end.

(** ** [matcher] *)

Section matcher.
Context (regex_match regex_search : list N → list N → bool) (type_name : list N).

Definition match_operands (op : relational_operator) (x y : operand) : bool :=
  match x, y with
  | meta_extractor meta_type, o_data d | o_data d, meta_extractor meta_type =>
      evaluate regex_match regex_search d op (d_string type_name)
  | data_extractor _ _, o_data _ | o_data _, data_extractor _ _ => true
  | _, _ => false
  end.
Fixpoint matcher (e : expression) : bool :=
  match e with
  | e_none => false
  | conjunction c => forallb matcher c
  | disjunction d => existsb matcher d
  | negation x => matcher x
  | e_predicate p => match_operands (op p) (lhs p) (rhs p)
  end.
End matcher.

(** ** Positions in the tree *)

(** The child of a node. *)
Definition child (e : expression) (i : nat) : option expression :=
  match e with
  | conjunction xs | disjunction xs => xs !! i
  | negation x => match i with O => Some x | _ => None end
  | _ => None
  end.
Fixpoint walk (e : expression) (o : list nat) : option expression :=
  match o with
  | [] => Some e
  | i :: o => match child e i with Some e => walk e o | None => None end
  end.
(** [at]: the root has offset [0]. *)
Definition at_ (e : expression) (o : list nat) : option expression :=
  match o with
  | [] => None
  | [i] => match i with O => Some e | _ => None end
  | _ :: o => walk e o
  end.

(** [labeler]: the nodes with their offsets, depth first. *)
Fixpoint labeler (o : list nat) (e : expression) : list (expression * list nat) :=
  (e, o) ::
  match e with
  | conjunction xs | disjunction xs =>
      (fix go i xs := match xs with [] => [] | x :: xs => labeler (o ++ [i]) x ++ go (S i) xs end) 0%nat xs
  | negation x => labeler (o ++ [0%nat]) x
  | _ => []
  end.
Definition label (e : expression) : list (expression * list nat) := labeler [0%nat] e.

Section resolve.
Context (predicate_ltb : predicate → predicate → bool) (schema : list field) (schema_name : list N).

(** [resolve_impl]: the predicates of an expression, resolved, with the offset of the predicate. *)
Fixpoint resolve_impl (o : list nat) (e : expression) : option (list (list nat * predicate)) :=
  match e with
  | conjunction xs | disjunction xs =>
      (fix go i xs :=
        match xs with
        | [] => Some []
        | x :: xs => ys ← resolve_impl (o ++ [i]) x; zs ← go (S i) xs; Some (ys ++ zs)
        end) 0%nat xs
  | negation x => resolve_impl (o ++ [0%nat]) x
  | e_predicate p =>
      match type_resolver.resolve_predicate schema schema_name p with
      | error _ => None
      | value r => Some ((λ p, (o, p)) <$> predicatizer predicate_ltb r)
      end
  | e_none => None
  end.
Definition resolve (e : expression) : list (list nat * predicate) := default [] (resolve_impl [0%nat] e).
End resolve.

(** ** [pruner] *)

Section pruner.
Context (unprunable : list N → bool).

(** A predicate on a field or on all strings whose value is a string. *)
Definition prunable (p : predicate) : bool :=
  match lhs p, rhs p with
  | field_extractor f, o_data (d_string _) => negb (unprunable f)
  | type_extractor t, o_data (d_string _) => type_eqb t t_string
  | _, _ => false
  end.

Definition generalize (p : predicate) : predicate := mk_predicate (type_extractor t_string) (op p) (rhs p).
Definition same_lookup (p q : predicate) : bool := (op p ==o op q) && operand_eqb (rhs p) (rhs q).

(** The operand that was pushed for a lookup of the same value becomes a lookup in all strings.
    Each element has whether it is in the memo. *)
Fixpoint generalize_first (pred : predicate) (result : list (bool * expression)) : option (list (bool * expression)) :=
  match result with
  | [] => None
  | (true, e_predicate p) :: result' =>
      if same_lookup p pred then Some ((true, e_predicate (generalize p)) :: result')
      else cons (true, e_predicate p) <$> generalize_first pred result'
  | x :: result' => cons x <$> generalize_first pred result'
  end.

(** [run] *)
Definition run_step (visit : expression → expression) (result : list (bool * expression)) (operand : expression)
    : list (bool * expression) :=
  match operand with
  | e_predicate pred =>
      if prunable pred then
        match generalize_first pred result with
        | Some result => result
        | None => result ++ [(true, operand)]
        end
      else result ++ [(false, visit operand)]
  | _ => result ++ [(false, visit operand)]
  end.
Fixpoint pruner (e : expression) : expression :=
  match e with
  | e_none => e_none
  | conjunction c => conjunction (snd <$> foldl (run_step pruner) [] c)
  | disjunction d => disjunction (snd <$> foldl (run_step pruner) [] d)
  | negation x => negation (pruner x)
  | e_predicate p => e_predicate p
  end.

(** The loop of [prune]: [None] when it does not end within the fuel. *)
Fixpoint prune_loop (fuel : nat) (result e : expression) : option expression :=
  if expression_eqb result e then Some result
  else match fuel with
       | O => None
       | S fuel => prune_loop fuel (hoist (pruner result)) result
       end.
Fixpoint nodes (e : expression) : nat :=
  match e with
  | conjunction xs | disjunction xs => S (foldr (λ x n, nodes x + n)%nat 0%nat xs)
  | negation x => S (nodes x)
  | _ => 1%nat
  end.
Definition prune (e : expression) : option expression := prune_loop (nodes e) (pruner e) e.
End pruner.
