(* ===== verification/ExpressionSpec.v ===== *)
(** What rewriting an expression preserves: the truth value of [normalize], the normal form it
    establishes, the termination of [prune] and the candidates it keeps. *)

From S2P Require Import Prelude SetOperations Operator Data Types RecordType KeySuffix Ip DataOps Expression.

(** Induction that reaches the operands of connectives. *)
Lemma expression_ind' (P : expression → Prop) :
  P e_none → (∀ xs, Forall P xs → P (conjunction xs)) → (∀ xs, Forall P xs → P (disjunction xs)) →
  (∀ x, P x → P (negation x)) → (∀ p, P (e_predicate p)) → ∀ e, P e.
Proof.
  intros H0 Hc Hd Hn Hp. fix IH 1. intros [|xs|xs|x|p]; [exact H0| | |apply Hn, IH|apply Hp].
  - apply Hc. induction xs as [|x xs IHxs]; constructor; [apply IH|apply IHxs].
  - apply Hd. induction xs as [|x xs IHxs]; constructor; [apply IH|apply IHxs].
Qed.

(** Induction where an operand of a connective or a negation below a node of the same kind is as
    good as an operand. *)
Lemma expression_ind2 (P : expression → Prop) :
  P e_none → (∀ xs, Forall P xs → (∀ ys, conjunction ys ∈ xs → Forall P ys) → P (conjunction xs)) →
  (∀ xs, Forall P xs → (∀ ys, disjunction ys ∈ xs → Forall P ys) → P (disjunction xs)) →
  (∀ x, P x → (∀ y, x = negation y → P y) → P (negation x)) → (∀ p, P (e_predicate p)) → ∀ e, P e.
Proof.
  intros H0 Hc Hd Hn Hp e.
  cut (P e ∧ match e with conjunction xs | disjunction xs => Forall P xs | negation x => P x | _ => True end);
    [by intros [? _]|].
  induction e as [|xs IH|xs IH|x IH|p] using expression_ind'; [done| | |destruct IH as [IH1 IH2]; split; [|done]|done].
  - assert (Forall P xs) as Hxs by (eapply list.Forall_impl; [exact IH|]; by intros ? [? _]). split; [|done].
    apply Hc; [done|]. intros ys Hy. rewrite list.Forall_forall in IH. by destruct (IH _ Hy).
  - assert (Forall P xs) as Hxs by (eapply list.Forall_impl; [exact IH|]; by intros ? [? _]). split; [|done].
    apply Hd; [done|]. intros ys Hy. rewrite list.Forall_forall in IH. by destruct (IH _ Hy).
  - apply Hn; [done|]. by intros y ->.
Qed.

(** ** Truth values *)

Section eval.
Context (v : predicate → bool).

Fixpoint eval (e : expression) : bool :=
  match e with
  | e_none => false
  | conjunction xs => forallb eval xs
  | disjunction xs => existsb eval xs
  | negation x => negb (eval x)
  | e_predicate p => v p
  end.

Lemma forallb_ext_Forall {A} (f g : A → bool) xs : Forall (λ x, f x = g x) xs → forallb f xs = forallb g xs.
Proof. induction 1 as [|x xs Hx _ IH]; cbn; [done|]. by rewrite Hx, IH. Qed.
Lemma existsb_ext_Forall {A} (f g : A → bool) xs : Forall (λ x, f x = g x) xs → existsb f xs = existsb g xs.
Proof. induction 1 as [|x xs Hx _ IH]; cbn; [done|]. by rewrite Hx, IH. Qed.
Lemma forallb_fmap {A B} (f : B → bool) (g : A → B) xs : forallb f (g <$> xs) = forallb (λ x, f (g x)) xs.
Proof. induction xs as [|x xs IH]; cbn; [done|]. by rewrite IH. Qed.

Lemma eval_unwrap_conj xs : eval (unwrap conjunction xs) = forallb eval xs.
Proof. destruct xs as [|x [|y xs]]; cbn; [done|by rewrite andb_true_r|done]. Qed.
Lemma eval_unwrap_disj xs : eval (unwrap disjunction xs) = existsb eval xs.
Proof. destruct xs as [|x [|y xs]]; cbn; [done|by rewrite orb_false_r|done]. Qed.

Lemma forallb_concat {A} (f : A → bool) xss : forallb f (concat xss) = forallb (forallb f) xss.
Proof. induction xss as [|xs xss IH]; cbn; [done|]. by rewrite forallb_app, IH. Qed.
Lemma existsb_concat {A} (f : A → bool) xss : existsb f (concat xss) = existsb (existsb f) xss.
Proof. induction xss as [|xs xss IH]; cbn; [done|]. by rewrite existsb_app, IH. Qed.

(** Hoisting never changes the value. *)
Lemma eval_hoister e : eval (hoister e) = eval e.
Proof.
  induction e as [|xs IH Hin|xs IH Hin|x IH _|p] using expression_ind2; cbn [hoister eval]; [done| | |by rewrite IH|done].
  - rewrite eval_unwrap_conj, forallb_concat, forallb_fmap. apply forallb_ext_Forall.
    rewrite list.Forall_forall in IH |- *. intros x Hx. destruct x; cbn [forallb]; rewrite ?IH, ?andb_true_r by done; try done.
    cbn [eval]. rewrite forallb_fmap. apply forallb_ext_Forall. by apply Hin.
  - rewrite eval_unwrap_disj, existsb_concat, existsb_fmap. apply existsb_ext_Forall.
    rewrite list.Forall_forall in IH |- *. intros x Hx. destruct x; cbn [existsb]; rewrite ?IH, ?orb_false_r by done; try done.
    cbn [eval]. rewrite existsb_fmap. apply existsb_ext_Forall. by apply Hin.
Qed.

Lemma eval_aligner e : (∀ p, v (align p) = v p) → eval (aligner e) = eval e.
Proof.
  intros Hv. induction e as [|xs IH|xs IH|x IH|p] using expression_ind'; cbn [aligner eval]; [done| | |by rewrite IH|by rewrite Hv].
  - rewrite forallb_fmap. by apply forallb_ext_Forall.
  - rewrite existsb_fmap. by apply existsb_ext_Forall.
Qed.
End eval.

(** No node is nil. *)
Fixpoint no_none (e : expression) : Prop :=
  match e with
  | e_none => False
  | conjunction xs | disjunction xs => foldr (λ x P, no_none x ∧ P) True xs
  | negation x => no_none x
  | e_predicate _ => True
  end.

(** No node is a negation. *)
Fixpoint no_negation (e : expression) : Prop :=
  match e with
  | conjunction xs | disjunction xs => foldr (λ x P, no_negation x ∧ P) True xs
  | negation _ => False
  | _ => True
  end.

Lemma negb_forallb {A} (f : A → bool) xs : existsb (λ x, negb (f x)) xs = negb (forallb f xs).
Proof. induction xs as [|x xs IH]; cbn; [done|]. by rewrite IH, negb_andb. Qed.
Lemma negb_existsb {A} (f : A → bool) xs : forallb (λ x, negb (f x)) xs = negb (existsb f xs).
Proof. induction xs as [|x xs IH]; cbn; [done|]. by rewrite IH, negb_orb. Qed.

Definition negate_pred (p : predicate) : predicate := mk_predicate (lhs p) (negate (op p)) (rhs p).

(** Pushing negations inwards keeps the value if the negated operator is the complement. *)
Lemma eval_denegator v b e : (∀ p, v (negate_pred p) = negb (v p)) → no_none e →
  eval v (denegator b e) = xorb b (eval v e).
Proof.
  intros Hv. revert b. induction e as [|xs IH _|xs IH _|x IH Hin|p] using expression_ind2; intros b Hn; [done|..].
  - cbn [denegator eval no_none] in *. apply foldr_Forall in Hn.
    assert (Forall (λ x, ∀ b, eval v (denegator b x) = xorb b (eval v x)) xs) as H.
    { rewrite list.Forall_forall in *. intros x Hx b'. apply IH; auto. }
    destruct b; cbn [eval]; rewrite ?xorb_true_l, ?xorb_false_l.
    + rewrite existsb_fmap, <- negb_forallb. apply existsb_ext_Forall. eapply list.Forall_impl; [exact H|]. intros x Hx. by rewrite Hx, xorb_true_l.
    + rewrite forallb_fmap. apply forallb_ext_Forall. eapply list.Forall_impl; [exact H|]. intros x Hx. by rewrite Hx, xorb_false_l.
  - cbn [denegator eval no_none] in *. apply foldr_Forall in Hn.
    assert (Forall (λ x, ∀ b, eval v (denegator b x) = xorb b (eval v x)) xs) as H.
    { rewrite list.Forall_forall in *. intros x Hx b'. apply IH; auto. }
    destruct b; cbn [eval]; rewrite ?xorb_true_l, ?xorb_false_l.
    + rewrite forallb_fmap, <- negb_existsb. apply forallb_ext_Forall. eapply list.Forall_impl; [exact H|]. intros x Hx. by rewrite Hx, xorb_true_l.
    + rewrite existsb_fmap. apply existsb_ext_Forall. eapply list.Forall_impl; [exact H|]. intros x Hx. by rewrite Hx, xorb_false_l.
  - assert (denegator b (negation x) = match x with negation y => denegator b y | _ => denegator (negb b) x end) as -> by done.
    cbn [no_none] in Hn. change (eval v (negation x)) with (negb (eval v x)).
    assert (∀ c, xorb (negb b) c = xorb b (negb c)) as Hx by (by destruct b; intros []).
    destruct x as [|xs|xs|y|q]; [by rewrite IH..| |by rewrite IH].
    rewrite (Hin y) by done. cbn [eval]. by rewrite negb_involutive.
  - cbn [denegator eval]. destruct b; [apply Hv|]. destruct p as [l o r]. cbn. by destruct (v _).
Qed.

Lemma no_negation_denegator b e : no_negation (denegator b e).
Proof.
  revert b. induction e as [|xs IH _|xs IH _|x IH Hin|p] using expression_ind2; intros b; [done|..|done].
  1,2: assert (∀ b, foldr (λ x P, no_negation x ∧ P) True (denegator b <$> xs)) as H;
    [intros b'; apply foldr_Forall, Forall_fmap; eapply list.Forall_impl; [exact IH|]; intros x Hx; apply Hx|];
    by destruct b; apply H.
  assert (denegator b (negation x) = match x with negation y => denegator b y | _ => denegator (negb b) x end) as -> by done.
  destruct x; try apply IH. by apply Hin.
Qed.

(** ** Equality *)

(** The data in a predicate holds no NaN. *)
Definition operand_no_nan (o : operand) : bool := match o with o_data d => no_nan d | _ => true end.
Fixpoint expression_no_nan (e : expression) : bool :=
  match e with
  | e_none => true
  | conjunction xs | disjunction xs => forallb expression_no_nan xs
  | negation x => expression_no_nan x
  | e_predicate p => operand_no_nan (lhs p) && operand_no_nan (rhs p)
  end.

Lemma operand_eqb_refl o : operand_eqb o o = operand_no_nan o.
Proof.
  destruct o as [k|f|t|t c|d]; cbn; unfold bytes_eqb.
  - by destruct k.
  - by apply bool_decide_eq_true_2.
  - by apply type_eqb_spec.
  - by rewrite (proj2 (type_eqb_spec t t)), N.eqb_refl.
  - apply data_eqb_refl.
Qed.

Lemma expression_eqb_refl e : expression_eqb e e = expression_no_nan e.
Proof.
  induction e as [|xs IH|xs IH|x IH|p] using expression_ind'; cbn [expression_eqb expression_no_nan]; [done|..|done|].
  - rewrite (list_eqb_refl expression_eqb) by (by intros [|? ?] [|? ?]). by apply forallb_ext_Forall.
  - rewrite (list_eqb_refl expression_eqb) by (by intros [|? ?] [|? ?]). by apply forallb_ext_Forall.
  - unfold predicate_eqb, op_eqb. by rewrite !operand_eqb_refl, N.eqb_refl, andb_true_r.
Qed.

(** Equal expressions have equal values. *)
Lemma eval_eqb v x y : (∀ p q, predicate_eqb p q = true → v p = v q) → expression_eqb x y = true → eval v x = eval v y.
Proof.
  intros Hv. revert y. induction x as [|xs IH|xs IH|x IH|p] using expression_ind'; intros [|ys|ys|y|q] H; try done.
  - revert ys H. induction IH as [|x xs Hx _ IHxs]; intros [|y ys] H; try done.
    change (expression_eqb x y && expression_eqb (conjunction xs) (conjunction ys) = true) in H.
    apply andb_true_iff in H as [H1 H2]. cbn. rewrite (Hx y) by done. f_equal. by apply (IHxs ys).
  - revert ys H. induction IH as [|x xs Hx _ IHxs]; intros [|y ys] H; try done.
    change (expression_eqb x y && expression_eqb (disjunction xs) (disjunction ys) = true) in H.
    apply andb_true_iff in H as [H1 H2]. cbn. rewrite (Hx y) by done. f_equal. by apply (IHxs ys).
  - cbn in *. by rewrite (IH y).
  - by apply Hv.
Qed.

Lemma forallb_push_unique f acc xs : (∀ x y, expression_eqb x y = true → f x = f y) →
  forallb f (foldl push_unique acc xs) = forallb f acc && forallb f xs.
Proof.
  intros Hf. revert acc. induction xs as [|x xs IH]; intros acc; cbn [foldl forallb]; [by rewrite andb_true_r|].
  rewrite IH, andb_assoc. f_equal. unfold push_unique. destruct (existsb _ acc) eqn:E.
  - apply existsb_exists in E as (y & Hy & Heq). destruct (forallb f acc) eqn:Ha; [|done].
    rewrite forallb_forall in Ha. by rewrite <- (Hf y x), Ha.
  - rewrite forallb_app. cbn. by rewrite andb_true_r.
Qed.

Lemma existsb_push_unique f acc xs : (∀ x y, expression_eqb x y = true → f x = f y) →
  existsb f (foldl push_unique acc xs) = existsb f acc || existsb f xs.
Proof.
  intros Hf. revert acc. induction xs as [|x xs IH]; intros acc; cbn [foldl existsb]; [by rewrite orb_false_r|].
  rewrite IH, orb_assoc. f_equal. unfold push_unique. destruct (existsb (λ y, expression_eqb y x) acc) eqn:E.
  - apply existsb_exists in E as (y & Hy & Heq). destruct (f x) eqn:Hx; [|by rewrite orb_false_r].
    rewrite orb_true_r. apply existsb_exists. exists y. split; [done|]. by rewrite (Hf y x).
  - rewrite existsb_app. cbn. by rewrite orb_false_r.
Qed.

(** Removing duplicates keeps the value, where no negation is left. *)
Lemma eval_deduplicator v e : (∀ p q, predicate_eqb p q = true → v p = v q) → no_negation e →
  eval v (deduplicator e) = eval v e.
Proof.
  intros Hv. pose proof (λ x y, eval_eqb v x y Hv) as Hf.
  induction e as [|xs IH|xs IH|x IH|p] using expression_ind'; intros Hn; cbn [deduplicator eval no_negation] in *; try done.
  - rewrite forallb_push_unique, forallb_fmap by done. apply forallb_ext_Forall. apply foldr_Forall in Hn.
    rewrite list.Forall_forall in *. auto.
  - rewrite existsb_push_unique, existsb_fmap by done. apply existsb_ext_Forall. apply foldr_Forall in Hn.
    rewrite list.Forall_forall in *. auto.
Qed.

(** ** Normal forms *)

(** What the constructor of an expression requires: connectives have operands; all predicates
    satisfy [Q]. *)
Fixpoint proper (Q : predicate → Prop) (e : expression) : Prop :=
  match e with
  | e_none => False
  | conjunction xs | disjunction xs => (xs ≠ []) ∧ foldr (λ x P, proper Q x ∧ P) True xs
  | negation x => proper Q x
  | e_predicate p => Q p
  end.

Lemma proper_no_none Q e : proper Q e → no_none e.
Proof.
  induction e as [|xs IH|xs IH|x IH|p] using expression_ind'; cbn; try done.
  all: intros [_ H]; apply foldr_Forall; apply foldr_Forall in H; rewrite list.Forall_forall in *; auto.
Qed.

Lemma proper_connective Q xs : proper Q (conjunction xs) ↔ (xs ≠ []) ∧ Forall (proper Q) xs.
Proof. cbn. by rewrite foldr_Forall. Qed.

Lemma proper_disjunction Q xs : proper Q (disjunction xs) ↔ proper Q (conjunction xs).
Proof. done. Qed.

(** What [hoister] collects from the operands of one connective. *)
Lemma hoisted_Forall (P : expression → Prop) (hoisted : expression → list expression) xs :
  xs ≠ [] → (∀ x, x ∈ xs → hoisted x ≠ [] ∧ Forall P (hoisted x)) →
  concat (hoisted <$> xs) ≠ [] ∧ Forall P (concat (hoisted <$> xs)).
Proof.
  intros Hne H. split.
  - destruct xs as [|x xs]; [done|]. destruct (H x (list_elem_of_here _ _)) as [Hx _]. cbn.
    by destruct (hoisted x).
  - apply Forall_concat, Forall_fmap, list.Forall_forall. intros x Hx. by apply H.
Qed.

Lemma proper_unwrap Q xs : xs ≠ [] ∧ Forall (proper Q) xs → proper Q (unwrap conjunction xs) ∧ proper Q (unwrap disjunction xs).
Proof.
  intros [Hne H]. destruct xs as [|x [|y xs]]; [done|by inversion H|]. cbn [unwrap].
  rewrite proper_disjunction, proper_connective. by split.
Qed.

Lemma proper_hoister Q e : proper Q e → proper Q (hoister e).
Proof.
  induction e as [|xs IH Hin|xs IH Hin|x IH _|p] using expression_ind2; try done.
  - rewrite proper_connective. intros [Hne H]. cbn [hoister]. rewrite list.Forall_forall in IH, H.
    apply proper_unwrap; apply hoisted_Forall; try done; intros x Hx; destruct x as [|ys|ys|y|q];
      try (split; [done|]; constructor; [by apply (IH _ Hx), (H _ Hx)|done]).
    all: destruct (proj1 (proper_connective Q ys) (H _ Hx)) as [Hys Hy]; split; [by destruct ys|];
      apply Forall_fmap; specialize (Hin ys Hx); rewrite list.Forall_forall in *; intros y Hy'; apply Hin; auto.
  - rewrite proper_disjunction, proper_connective. intros [Hne H]. cbn [hoister]. rewrite list.Forall_forall in IH, H.
    apply proper_unwrap; apply hoisted_Forall; try done; intros x Hx; destruct x as [|ys|ys|y|q];
      try (split; [done|]; constructor; [by apply (IH _ Hx), (H _ Hx)|done]).
    all: destruct (proj1 (proper_connective Q ys) (H _ Hx)) as [Hys Hy]; split; [by destruct ys|];
      apply Forall_fmap; specialize (Hin ys Hx); rewrite list.Forall_forall in *; intros y Hy'; apply Hin; auto.
Qed.

Lemma proper_fmap Q Q' (f : expression → expression) xs : xs ≠ [] → Forall (λ x, proper Q x → proper Q' (f x)) xs →
  Forall (proper Q) xs → proper Q' (conjunction (f <$> xs)).
Proof.
  intros Hne H Hq. apply proper_connective. split; [by destruct xs|]. apply Forall_fmap.
  rewrite list.Forall_forall in *. intros x Hx. apply H; auto.
Qed.

Lemma proper_aligner Q Q' e : (∀ p, Q p → Q' (align p)) → proper Q e → proper Q' (aligner e).
Proof.
  intros HQ. induction e as [|xs IH|xs IH|x IH|p] using expression_ind'; try done; [..|apply HQ].
  all: rewrite ?proper_disjunction, proper_connective; intros [Hne H]; by eapply proper_fmap.
Qed.

Lemma proper_denegator Q b e : (∀ p, Q p → Q (negate_pred p)) → proper Q e → proper Q (denegator b e).
Proof.
  intros HQ. revert b. induction e as [|xs IH _|xs IH _|x IH Hin|p] using expression_ind2; intros b; try done.
  1,2: rewrite ?proper_disjunction, proper_connective; intros [Hne H];
    assert (proper Q (conjunction (denegator b <$> xs))) as H'
      by (eapply proper_fmap; [done| |done]; eapply list.Forall_impl; [exact IH|]; auto);
    by destruct b.
  - assert (denegator b (negation x) = match x with negation y => denegator b y | _ => denegator (negb b) x end) as -> by done.
    intros Hx. destruct x; try by apply IH. by apply Hin.
  - destruct p as [l o r]. cbn. destruct b; [apply HQ|done].
Qed.

Lemma push_unique_Forall (P : expression → Prop) acc xs :
  Forall P acc → Forall P xs → Forall P (foldl push_unique acc xs) ∧ (acc ≠ [] ∨ xs ≠ [] → foldl push_unique acc xs ≠ []).
Proof.
  revert acc. induction xs as [|x xs IH]; intros acc Ha Hx; cbn [foldl]; [by split; [|intros [?|?]]|].
  apply list.Forall_cons in Hx as [Hx Hxs]. destruct (IH (push_unique acc x)) as [H1 H2]; [|done|].
  - unfold push_unique. destruct (existsb _ acc); [done|]. apply list.Forall_app. by repeat constructor.
  - split; [done|]. intros _. apply H2. left. unfold push_unique. destruct (existsb _ acc) eqn:E; [|by destruct acc].
    by destruct acc.
Qed.

Lemma proper_deduplicator Q e : proper Q e → proper Q (deduplicator e).
Proof.
  induction e as [|xs IH|xs IH|x IH|p] using expression_ind'; try done.
  all: rewrite ?proper_disjunction, proper_connective; intros [Hne H]; cbn [deduplicator];
    rewrite ?proper_disjunction, proper_connective;
    destruct (push_unique_Forall (proper Q) [] (deduplicator <$> xs)) as [H1 H2]; [constructor| |];
    [apply Forall_fmap; rewrite list.Forall_forall in *; intros x Hx; apply IH; auto|];
    split; [apply H2; right; by destruct xs|done].
Qed.

Lemma no_negation_deduplicator e : no_negation (deduplicator e).
Proof.
  induction e as [|xs IH|xs IH|x IH|p] using expression_ind'; try done.
  all: cbn [deduplicator no_negation]; apply foldr_Forall; apply push_unique_Forall; [constructor|]; by apply Forall_fmap.
Qed.

(** The normal form: no negation, extractors on the left, connectives of two operands at least. *)
Definition aligned (p : predicate) : Prop := is_extractor (lhs p) = true ∨ is_extractor (rhs p) = false.
Fixpoint normal (e : expression) : Prop :=
  match e with
  | e_none | negation _ => False
  | conjunction xs | disjunction xs => (2 <= length xs)%nat ∧ foldr (λ x P, normal x ∧ P) True xs
  | e_predicate p => aligned p
  end.

Lemma normal_unwrap xs : xs ≠ [] ∧ Forall normal xs → normal (unwrap conjunction xs) ∧ normal (unwrap disjunction xs).
Proof.
  intros [Hne H]. destruct xs as [|x [|y xs]]; [done|by inversion H|]. cbn [unwrap normal]. rewrite foldr_Forall.
  cbn [length]. split; (split; [lia|done]).
Qed.

Lemma normal_hoister e : proper aligned e → no_negation e → normal (hoister e).
Proof.
  induction e as [|xs IH Hin|xs IH Hin|x IH _|p] using expression_ind2; try done.
  1,2: rewrite ?proper_disjunction, proper_connective; intros [Hne H]; cbn [hoister no_negation]; rewrite foldr_Forall; intros Hn;
    rewrite list.Forall_forall in IH, H, Hn;
    apply normal_unwrap; apply hoisted_Forall; try done; intros x Hx; destruct x as [|ys|ys|y|q];
      try (split; [done|]; constructor; [by apply (IH _ Hx); [apply (H _ Hx)|apply (Hn _ Hx)]|done]).
  all: destruct (proj1 (proper_connective aligned ys) (H _ Hx)) as [Hys Hy]; split; [by destruct ys|];
      pose proof (Hn _ Hx) as Hny; cbn in Hny; apply foldr_Forall in Hny;
      apply Forall_fmap; specialize (Hin ys Hx); rewrite list.Forall_forall in *; intros y Hy'; apply Hin; auto.
Qed.

Lemma align_aligned p : aligned (align p).
Proof.
  unfold aligned, align. destruct (is_extractor (lhs p)) eqn:El, (is_extractor (rhs p)) eqn:Er; cbn; rewrite ?El, ?Er; auto.
Qed.

(** [normalize] establishes the normal form. *)
Lemma normalize_normal e : proper (λ _, True) e → normal (normalize e).
Proof.
  intros H. unfold normalize. apply normal_hoister; [|apply no_negation_deduplicator].
  apply proper_deduplicator, proper_denegator; [by intros [l o r]|].
  eapply proper_aligner; [|by apply proper_hoister]. intros p _. apply align_aligned.
Qed.

Lemma normal_no_negation e : normal e → no_negation e.
Proof.
  induction e as [|xs IH|xs IH|x IH|p] using expression_ind'; try done; cbn [normal no_negation]; rewrite !foldr_Forall;
    intros [_ H]; rewrite list.Forall_forall in *; auto.
Qed.

(** [normalize] keeps the value. *)
Lemma eval_normalize v e :
  (∀ p, v (negate_pred p) = negb (v p)) → (∀ p, v (align p) = v p) →
  (∀ p q, predicate_eqb p q = true → v p = v q) →
  proper (λ _, True) e → eval v (normalize e) = eval v e.
Proof.
  intros Hn Ha He Hp. unfold normalize.
  rewrite eval_hoister, eval_deduplicator by (done || apply no_negation_denegator).
  rewrite eval_denegator by (try done; eapply proper_no_none, (proper_aligner _ (λ _, True)), proper_hoister; done).
  rewrite xorb_false_l, eval_aligner, eval_hoister by done. done.
Qed.

(** ** The value of predicates *)

Section holds.
Context (regex_match regex_search : list N → list N → bool).
(** The value an extractor has, for one event. *)
Context (x : operand → data).

Definition operand_value (o : operand) : data := match o with o_data d => d | _ => x o end.
Definition holds (p : predicate) : bool :=
  evaluate regex_match regex_search (operand_value (lhs p)) (op p) (operand_value (rhs p)).

Lemma operand_eqb_value o o' : operand_eqb o o' = true → o = o' ∨ data_eqb (operand_value o) (operand_value o') = true.
Proof.
  destruct o as [k|f|t|t c|d], o' as [k'|f'|t'|t' c'|d']; try done; cbn; unfold bytes_eqb.
  - left. by destruct k, k'.
  - rewrite bool_decide_eq_true. intros ->. by left.
  - rewrite type_eqb_spec. intros ->. by left.
  - rewrite andb_true_iff, type_eqb_spec, N.eqb_eq. intros [-> ->]. by left.
  - intros H. by right.
Qed.

Lemma evaluate_cong_r d o y z : data_eqb y z = true →
  evaluate regex_match regex_search d o y = evaluate regex_match regex_search d o z.
Proof.
  intros H. assert (o = flip (flip o)) as -> by (by destruct o). rewrite !(evaluate_flip _ _ d). by apply evaluate_cong.
Qed.

Lemma holds_eqb p q : predicate_eqb p q = true → holds p = holds q.
Proof.
  destruct p as [l o r], q as [l' o' r']. unfold predicate_eqb, holds. cbn [lhs op rhs].
  rewrite !andb_true_iff. intros [[Hl Ho] Hr]. destruct (op_eqb_spec o o') as [->|]; [|done].
  destruct (operand_eqb_value _ _ Hl) as [->|Hl'], (operand_eqb_value _ _ Hr) as [->|Hr']; [done|..].
  - by apply evaluate_cong_r.
  - by apply evaluate_cong.
  - rewrite (evaluate_cong _ _ _ _ _ _ Hl'). by apply evaluate_cong_r.
Qed.

Lemma holds_negate p : holds (negate_pred p) = negb (holds p).
Proof. destruct p as [l o r]. unfold holds. cbn. apply evaluate_negate. Qed.

Lemma holds_align p : holds (align p) = holds p.
Proof.
  unfold align. destruct (_ || _); [done|]. destruct p as [l o r]. unfold holds. cbn [lhs op rhs]. apply evaluate_flip.
Qed.

Lemma normalize_holds e : proper (λ _, True) e → eval holds (normalize e) = eval holds e.
Proof. apply eval_normalize; [apply holds_negate|apply holds_align|apply holds_eqb]. Qed.
End holds.

(** ** [predicatizer] *)

Section predicatizer.
Context (predicate_ltb : predicate → predicate → bool).

(** All predicates of an expression. *)
Fixpoint predicates (e : expression) : list predicate :=
  match e with
  | e_none => []
  | conjunction xs | disjunction xs => concat (predicates <$> xs)
  | negation x => predicates x
  | e_predicate p => [p]
  end.

Lemma operand_eqb_trans a b c : operand_eqb a b = true → operand_eqb b c = true → operand_eqb a c = true.
Proof.
  intros Hab Hbc. destruct a as [k|f|t|t n|d], b as [k'|f'|t'|t' n'|d'], c as [k''|f''|t''|t'' n''|d'']; try done; cbn in *;
    unfold bytes_eqb in *.
  - by destruct k, k', k''.
  - rewrite bool_decide_eq_true in *. congruence.
  - rewrite type_eqb_spec in *. congruence.
  - rewrite andb_true_iff, type_eqb_spec, N.eqb_eq in *. intuition congruence.
  - by destruct (data_eqb_cong d d' d'' Hab) as [-> _].
Qed.

Lemma predicate_eqb_trans p q r : predicate_eqb p q = true → predicate_eqb q r = true → predicate_eqb p r = true.
Proof.
  unfold predicate_eqb, op_eqb. rewrite !andb_true_iff, !N.eqb_eq. intros [[H1 H2] H3] [[H4 H5] H6].
  split_and!; [by eapply operand_eqb_trans|congruence|by eapply operand_eqb_trans].
Qed.

Lemma covered_trans p xs ys : covered predicate_eqb p xs → (∀ q, q ∈ xs → covered predicate_eqb q ys) → covered predicate_eqb p ys.
Proof.
  intros (q & Hq & Hp) H. destruct (H q Hq) as (r & Hr & Hrq). exists r. split; [done|].
  destruct Hp as [->|Hp]; [done|]. destruct Hrq as [->|Hrq]; right; [done|by eapply predicate_eqb_trans].
Qed.

Lemma inplace_union_spec xs ys :
  (∀ p, p ∈ inplace_union predicate_ltb xs ys → p ∈ xs ++ ys) ∧
  ∀ p, p ∈ xs ++ ys → covered predicate_eqb p (inplace_union predicate_ltb xs ys).
Proof. apply inplace_unify_covered. Qed.

(** The result has predicates of the expression only, and for each of them an equal one. *)
Lemma predicatizer_spec e :
  (∀ p, p ∈ predicatizer predicate_ltb e → p ∈ predicates e) ∧
  ∀ p, p ∈ predicates e → covered predicate_eqb p (predicatizer predicate_ltb e).
Proof.
  assert (∀ xs acc, Forall (λ e, (∀ p, p ∈ predicatizer predicate_ltb e → p ∈ predicates e) ∧
      ∀ p, p ∈ predicates e → covered predicate_eqb p (predicatizer predicate_ltb e)) xs →
    (∀ p, p ∈ foldl (inplace_union predicate_ltb) acc (predicatizer predicate_ltb <$> xs) → p ∈ acc ++ concat (predicates <$> xs)) ∧
    ∀ p, p ∈ acc ++ concat (predicates <$> xs) → covered predicate_eqb p (foldl (inplace_union predicate_ltb) acc (predicatizer predicate_ltb <$> xs))) as Hl.
  { intros xs acc H. revert acc. induction H as [|x xs [Hx1 Hx2] _ IH]; intros acc; cbn [fmap list_fmap foldl concat].
    { rewrite app_nil_r. split; [done|]. intros p Hp. exists p. auto. }
    destruct (IH (inplace_union predicate_ltb acc (predicatizer predicate_ltb x))) as [IH1 IH2].
    destruct (inplace_union_spec acc (predicatizer predicate_ltb x)) as [U1 U2]. split.
    - intros p [Hp|Hp]%IH1%elem_of_app; [apply U1, elem_of_app in Hp as [Hp|Hp%Hx1]|]; rewrite !elem_of_app; auto.
    - intros p Hp. rewrite app_assoc, elem_of_app in Hp. destruct Hp as [Hp|Hp];
        [|apply IH2; rewrite elem_of_app; auto].
      assert (covered predicate_eqb p (acc ++ predicatizer predicate_ltb x)) as Hc.
      { apply elem_of_app in Hp as [Hp|Hp]; [exists p; rewrite elem_of_app; auto|].
        destruct (Hx2 p Hp) as (q & Hq & Hqp). exists q. rewrite elem_of_app. auto. }
      eapply covered_trans; [exact Hc|]. intros q Hq. eapply covered_trans; [by apply U2|].
      intros r Hr. apply IH2. rewrite elem_of_app. auto. }
  induction e as [|xs IH|xs IH|x IH|p] using expression_ind'; cbn [predicatizer predicates]; [|apply (Hl xs []); done..|done|].
  - by split; intros p Hp%not_elem_of_nil.
  - split; [done|]. intros q Hq. exists q. auto.
Qed.
End predicatizer.

(** ** Offsets *)

Lemma labeler_connective o xs (e : expression) x o' :
  (∀ k, (x, o') ∈ (fix go i ys := match ys with [] => [] | y :: ys => labeler (o ++ [i]) y ++ go (S i) ys end) k xs ↔
    ∃ i y, xs !! i = Some y ∧ (x, o') ∈ labeler (o ++ [(k + i)%nat]) y).
Proof.
  induction xs as [|y xs IH]; intros k.
  { split; [by intros ?%not_elem_of_nil|]. intros (i & y & Hi & _). done. }
  rewrite elem_of_app, IH. split.
  - intros [H|(i & z & Hi & H)]; [exists 0%nat, y; by rewrite Nat.add_0_r|]. exists (S i), z. by rewrite Nat.add_succ_r.
  - intros ([|i] & z & Hi & H); [left; rewrite Nat.add_0_r in H; by injection Hi as <-|].
    right. exists i, z. by rewrite Nat.add_succ_r in H.
Qed.

Lemma labeler_spec e o x o' : (x, o') ∈ labeler o e ↔ ∃ r, o' = o ++ r ∧ walk e r = Some x.
Proof.
  revert o. induction e as [|xs IH|xs IH|y IH|p] using expression_ind'; intros o; cbn [labeler]; rewrite elem_of_cons.
  1,5: rewrite elem_of_nil; split; [intros [[= -> ->]|[]]; exists []; by rewrite app_nil_r|];
    intros ([|i r] & -> & H); [injection H as <-; rewrite app_nil_r; by left|done].
  1,2: rewrite labeler_connective by (exact e_none); split;
    [intros [[= -> ->]|(i & y & Hi & H)]; [exists []; by rewrite app_nil_r|];
      rewrite list.Forall_forall in IH; apply (IH y) in H as (r & -> & Hr); [|by eapply list_elem_of_lookup_2];
      exists (i :: r); rewrite <- app_assoc; split; [done|]; cbn; by rewrite Hi
    |intros ([|i r] & -> & H); [injection H as <-; rewrite app_nil_r; by left|]; right; cbn in H;
      destruct (xs !! i) as [y|] eqn:Hi; [|done]; exists i, y; split; [done|];
      rewrite list.Forall_forall in IH; apply (IH y); [by eapply list_elem_of_lookup_2|]; exists r; by rewrite <- app_assoc].
  rewrite IH. split.
  - intros [[= -> ->]|(r & -> & Hr)]; [exists []; by rewrite app_nil_r|]. exists (0%nat :: r). by rewrite <- app_assoc.
  - intros ([|i r] & -> & H); [injection H as <-; rewrite app_nil_r; by left|]. right. destruct i as [|i]; [|done].
    exists r. by rewrite <- app_assoc.
Qed.

(** The labels are the offsets that [at] resolves, each to its node. *)
Lemma label_at e x o : (x, o) ∈ label e ↔ at_ e o = Some x ∧ head o = Some 0%nat.
Proof.
  unfold label. rewrite labeler_spec. split.
  - intros (r & -> & H). split; [|done]. by destruct r.
  - intros [H Hh]. destruct o as [|i o]; [done|]. injection Hh as ->. exists o. split; [done|].
    destruct o; [cbn in H; by injection H as <-|done].
Qed.
