(* ===== verification/ExpressionPrune.v ===== *)
(** [prune] ends, and what it returns matches wherever the expression does. *)

From S2P Require Import Prelude Operator Data Types RecordType KeySuffix Ip DataOps Expression ExpressionSpec.

(** ** Each round removes a node or changes nothing *)

Definition nodes_list (xs : list expression) : nat := foldr (λ x n, nodes x + n)%nat 0%nat xs.

Lemma nodes_list_app xs ys : nodes_list (xs ++ ys) = (nodes_list xs + nodes_list ys)%nat.
Proof. unfold nodes_list. induction xs as [|x xs IH]; cbn [app foldr]; [done|]. rewrite IH. lia. Qed.

Lemma nodes_pos e : (0 < nodes e)%nat.
Proof. destruct e; cbn; lia. Qed.

(** [y] is [x], or smaller. *)
Definition shrinks (x y : expression) : Prop := y = x ∨ (nodes y < nodes x)%nat.
Definition shrinks_list (xs ys : list expression) : Prop := ys = xs ∨ (nodes_list ys < nodes_list xs)%nat.

Lemma shrinks_trans x y z : shrinks x y → shrinks y z → shrinks x z.
Proof. intros [->|H1] [->|H2]; unfold shrinks; [by left|by right..|right; lia]. Qed.

Lemma shrinks_le x y : shrinks x y → (nodes y <= nodes x)%nat.
Proof. intros [->|?]; lia. Qed.

Lemma shrinks_app xs ys xs' ys' : shrinks_list xs xs' → shrinks_list ys ys' → shrinks_list (xs ++ ys) (xs' ++ ys').
Proof. intros [->|H1] [->|H2]; unfold shrinks_list; rewrite ?nodes_list_app; [by left|right; lia..]. Qed.

Lemma shrinks_fmap f xs : Forall (λ x, shrinks x (f x)) xs → shrinks_list xs (f <$> xs).
Proof.
  induction 1 as [|x xs Hx _ IH]; [by left|]. cbn [fmap list_fmap].
  apply (shrinks_app [x] xs [f x] (f <$> xs)); [|done]. destruct Hx as [->|Hx]; [by left|]. right. cbn. lia.
Qed.

Lemma shrinks_unwrap xs ys : shrinks_list xs ys → ys ≠ [] →
  shrinks (conjunction xs) (unwrap conjunction ys) ∧ shrinks (disjunction xs) (unwrap disjunction ys).
Proof.
  intros Hs Hne. assert (nodes_list ys <= nodes_list xs)%nat as Hle by (destruct Hs as [->|?]; lia).
  destruct ys as [|y [|z ys]]; [done|..].
  - cbn [unwrap]. cbn in Hle. unfold shrinks. cbn [nodes]. fold (nodes_list xs). split; right; lia.
  - cbn [unwrap]. destruct Hs as [->|Hlt]; [by split; left|]. split; right; cbn [nodes];
      change (S (nodes_list (y :: z :: ys)) < S (nodes_list xs))%nat; lia.
Qed.

Lemma shrinks_hoister e : proper (λ _, True) e → shrinks e (hoister e).
Proof.
  assert (∀ xs (hoisted : expression → list expression),
    (∀ x, x ∈ xs → shrinks_list [x] (hoisted x)) → shrinks_list xs (concat (hoisted <$> xs))) as Hl.
  { intros xs hoisted. induction xs as [|x xs IH]; intros H; [by left|]. cbn [fmap list_fmap concat].
    apply (shrinks_app [x] xs); [apply H; by left|]. apply IH. intros y Hy. apply H. by right. }
  assert (∀ x, shrinks x (hoister x) → shrinks_list [x] [hoister x]) as Hone.
  { intros x [->|Hx]; [by left|]. right. cbn. lia. }
  induction e as [|xs IH Hin|xs IH Hin|x IH _|p] using expression_ind2; try (by left).
  - rewrite proper_connective. intros [Hne Hp]. cbn [hoister]. rewrite list.Forall_forall in IH, Hp.
    pose proof (proper_hoister (λ _, True) (conjunction xs)) as Hph. rewrite proper_connective, list.Forall_forall in Hph.
    apply shrinks_unwrap.
    + apply Hl. intros x Hx. destruct x as [|ys|ys|y|q]; try (apply Hone, IH, Hp; done).
      right. destruct (proj1 (proper_connective _ ys) (Hp _ Hx)) as [_ Hy]. cbn [nodes_list foldr nodes].
      assert (shrinks_list ys (hoister <$> ys)) as [->|?]; [|unfold nodes_list; lia|unfold nodes_list in *; lia].
      apply shrinks_fmap. specialize (Hin ys Hx). rewrite list.Forall_forall in *. auto.
    + intros E. apply (f_equal (λ l, unwrap conjunction l)) in E. specialize (Hph (conj Hne Hp)). cbn [hoister] in Hph.
      rewrite E in Hph. cbn in Hph. by destruct Hph.
  - rewrite proper_disjunction, proper_connective. intros [Hne Hp]. cbn [hoister]. rewrite list.Forall_forall in IH, Hp.
    pose proof (proper_hoister (λ _, True) (disjunction xs)) as Hph.
    rewrite proper_disjunction, proper_connective, list.Forall_forall in Hph.
    apply shrinks_unwrap.
    + apply Hl. intros x Hx. destruct x as [|ys|ys|y|q]; try (apply Hone, IH, Hp; done).
      right. destruct (proj1 (proper_connective _ ys) (Hp _ Hx)) as [_ Hy]. cbn [nodes_list foldr nodes].
      assert (shrinks_list ys (hoister <$> ys)) as [->|?]; [|unfold nodes_list; lia|unfold nodes_list in *; lia].
      apply shrinks_fmap. specialize (Hin ys Hx). rewrite list.Forall_forall in *. auto.
    + intros E. apply (f_equal (λ l, unwrap disjunction l)) in E. specialize (Hph (conj Hne Hp)). cbn [hoister] in Hph.
      rewrite E in Hph. cbn in Hph. by destruct Hph.
  - intros Hp. cbn [hoister]. destruct (IH Hp) as [->|?]; [by left|]. right. cbn. lia.
Qed.

Section pruner.
Context (unprunable : list N → bool).
#[local] Abbreviation pruner := (pruner unprunable).
#[local] Abbreviation prunable := (prunable unprunable).
#[local] Abbreviation run_step := (run_step unprunable).

(** Which element is generalized. *)
Lemma generalize_first_spec pred result result' : generalize_first pred result = Some result' →
  ∃ l1 p l2, result = l1 ++ (true, e_predicate p) :: l2 ∧
    result' = l1 ++ (true, e_predicate (generalize p)) :: l2 ∧ same_lookup p pred = true.
Proof.
  revert result'. induction result as [|[b x] result IH]; intros result' H; [done|]. cbn [generalize_first] in H.
  assert ((cons (b, x) <$> generalize_first pred result) = Some result' →
    ∃ l1 p l2, (b, x) :: result = l1 ++ (true, e_predicate p) :: l2 ∧
    result' = l1 ++ (true, e_predicate (generalize p)) :: l2 ∧ same_lookup p pred = true) as Hr.
  { intros (r & Hr & ->)%fmap_Some. destruct (IH r Hr) as (l1 & p & l2 & -> & -> & ?). by exists ((b, x) :: l1), p, l2. }
  destruct b, x as [| | | |p]; try (by apply Hr). destruct (same_lookup p pred) eqn:E; [|by apply Hr].
  injection H as <-. by exists [], p, result.
Qed.

(** The elements of the memo are predicates that may be generalized. *)
Definition memo_ok (r : bool * expression) : Prop := r.1 = true → ∃ p, r.2 = e_predicate p ∧ prunable p = true.

Lemma prunable_generalize p : prunable p = true → prunable (generalize p) = true.
Proof.
  destruct p as [l o r]. unfold Expression.prunable, generalize. cbn [lhs rhs op].
  destruct l, r as [| | | |[]]; try done.
Qed.

Lemma run_step_memo visit result x : Forall memo_ok result → Forall memo_ok (run_step visit result x).
Proof.
  intros H. unfold Expression.run_step.
  assert (∀ y, Forall memo_ok (result ++ [(false, y)])) as Hpush.
  { intros y. apply list.Forall_app. split; [done|]. constructor; [done|constructor]. }
  destruct x as [| | | |p]; try apply Hpush. destruct (prunable p) eqn:Ep; [|apply Hpush].
  destruct (generalize_first p result) as [result'|] eqn:E.
  - apply generalize_first_spec in E as (l1 & q & l2 & -> & -> & _). rewrite list.Forall_app, list.Forall_cons in *.
    destruct H as (H1 & Hq & H2). split_and!; [done| |done]. destruct (Hq eq_refl) as (q' & [= <-] & Hq').
    intros _. exists (generalize q). split; [done|]. by apply prunable_generalize.
  - apply list.Forall_app. split; [done|]. constructor; [|constructor]. intros _. by exists p.
Qed.

(** *** Size *)

Lemma run_shrinks (visit : expression → expression) xs acc : Forall (λ x, shrinks x (visit x)) xs →
  shrinks_list ((snd <$> acc) ++ xs) (snd <$> foldl (run_step visit) acc xs).
Proof.
  intros H. revert acc. induction H as [|x xs Hx _ IH]; intros acc; cbn [foldl]; [left; by rewrite app_nil_r|].
  assert (∀ y b, shrinks x y → run_step visit acc x = acc ++ [(b, y)] →
    shrinks_list ((snd <$> acc) ++ x :: xs) (snd <$> foldl (run_step visit) (run_step visit acc x) xs)) as Hpush.
  { intros y b Hy ->. specialize (IH (acc ++ [(b, y)])). rewrite fmap_app, <- app_assoc in IH. cbn [fmap list_fmap snd app] in IH.
    destruct Hy as [->|Hy]; [done|]. right. rewrite nodes_list_app. cbn [nodes_list foldr]. fold (nodes_list xs).
    assert (nodes_list ((snd <$> acc) ++ y :: xs) = (nodes_list (snd <$> acc) + nodes y + nodes_list xs)%nat) as En
      by (rewrite nodes_list_app; cbn; unfold nodes_list; lia).
    destruct IH as [->|IH]; lia. }
  destruct x as [|ys|ys|y|p]; try (by eapply Hpush; [exact Hx|reflexivity]).
  destruct (prunable p) eqn:Ep; [|by eapply (Hpush _ false); [exact Hx|cbn; by rewrite Ep]].
  cbn [Expression.run_step]. rewrite Ep.
  destruct (generalize_first p acc) as [result'|] eqn:E.
  - apply generalize_first_spec in E as (l1 & q & l2 & -> & -> & _).
    specialize (IH (l1 ++ (true, e_predicate (generalize q)) :: l2)). rewrite !fmap_app in *. cbn [fmap list_fmap snd] in *.
    right. assert (∀ y, nodes_list (((snd <$> l1) ++ e_predicate y :: (snd <$> l2)) ++ xs) =
      (nodes_list (snd <$> l1) + 1 + nodes_list (snd <$> l2) + nodes_list xs)%nat) as En.
    { intros y. rewrite !nodes_list_app. cbn. unfold nodes_list. lia. }
    assert (nodes_list (((snd <$> l1) ++ e_predicate q :: (snd <$> l2)) ++ e_predicate p :: xs) =
      (nodes_list (snd <$> l1) + 1 + nodes_list (snd <$> l2) + 1 + nodes_list xs)%nat) as ->.
    { rewrite !nodes_list_app. cbn. unfold nodes_list. lia. }
    destruct IH as [->|IH]; [rewrite En|rewrite En in IH]; lia.
  - specialize (IH (acc ++ [(true, e_predicate p)])). rewrite fmap_app, <- app_assoc in IH. exact IH.
Qed.

Lemma shrinks_pruner e : shrinks e (pruner e).
Proof.
  induction e as [|xs IH|xs IH|x IH|p] using expression_ind'; try (by left); cbn [Expression.pruner].
  1,2: destruct (run_shrinks pruner xs [] IH) as [E|E]; [left; f_equal; exact E|right; cbn [nodes]; unfold nodes_list in E; cbn in E; lia].
  destruct IH as [->|?]; [by left|]. right. cbn. lia.
Qed.

(** *** What is preserved *)

Lemma pruner_list_Forall (P : expression → Prop) (visit : expression → expression) xs acc :
  (∀ p, P (e_predicate p) → P (e_predicate (generalize p))) →
  Forall (λ x, P x → P (visit x)) xs → Forall P xs → Forall (λ r, P r.2) acc →
  Forall P (snd <$> foldl (run_step visit) acc xs) ∧ (xs ≠ [] ∨ acc ≠ [] → (snd <$> foldl (run_step visit) acc xs) ≠ []).
Proof.
  intros HP H Hxs. revert acc. induction H as [|x xs Hx _ IH]; intros acc Ha; cbn [foldl].
  { split; [by apply Forall_fmap|]. intros [?|?]; [done|]. by destruct acc. }
  apply list.Forall_cons in Hxs as [Hpx Hxs]. specialize (IH Hxs).
  assert (Forall (λ r, P r.2) (run_step visit acc x) ∧ run_step visit acc x ≠ []) as [Hs Hne].
  { assert (∀ b y, P y → Forall (λ r, P r.2) (acc ++ [(b, y)]) ∧ acc ++ [(b, y)] ≠ []) as Hpush.
    { intros b y Hy. split; [|by destruct acc]. apply list.Forall_app. split; [done|]. by repeat constructor. }
    destruct x as [|ys|ys|y|p]; try (apply Hpush; auto). cbn [Expression.run_step].
    destruct (prunable p); [|apply Hpush; auto]. destruct (generalize_first p acc) as [result'|] eqn:E; [|by apply Hpush].
    apply generalize_first_spec in E as (l1 & q & l2 & -> & -> & _). split; [|by destruct l1].
    rewrite list.Forall_app, list.Forall_cons in *. destruct Ha as (? & ? & ?). split_and!; [done| |done]. by apply HP. }
  destruct (IH _ Hs) as [IH1 IH2]. split; [done|]. intros _. apply IH2. by right.
Qed.

Lemma proper_pruner Q e : (∀ p, Q p → Q (generalize p)) → proper Q e → proper Q (pruner e).
Proof.
  intros HQ. induction e as [|xs IH|xs IH|x IH|p] using expression_ind'; try done.
  1,2: rewrite ?proper_disjunction, proper_connective; intros [Hne H]; cbn [Expression.pruner];
    rewrite ?proper_disjunction, proper_connective;
    destruct (pruner_list_Forall (proper Q) pruner xs []) as [H1 H2]; [done..|constructor|]; split; [apply H2; by left|done].
Qed.

Lemma no_negation_pruner e : no_negation e → no_negation (pruner e).
Proof.
  induction e as [|xs IH|xs IH|x IH|p] using expression_ind'; try done.
  1,2: cbn [Expression.pruner no_negation]; rewrite !foldr_Forall; intros H; by apply pruner_list_Forall.
Qed.

Lemma no_nan_hoister e : expression_no_nan e = true → expression_no_nan (hoister e) = true.
Proof.
  assert (∀ xs, expression_no_nan (unwrap conjunction xs) = forallb expression_no_nan xs) as Hc
    by (intros [|x [|y xs]]; cbn; by rewrite ?andb_true_r).
  assert (∀ xs, expression_no_nan (unwrap disjunction xs) = forallb expression_no_nan xs) as Hd
    by (intros [|x [|y xs]]; cbn; by rewrite ?andb_true_r).
  induction e as [|xs IH Hin|xs IH Hin|x IH _|p] using expression_ind2; try done; cbn [hoister expression_no_nan].
  1: rewrite Hc. 2: rewrite Hd.
  all: rewrite forallb_concat, forallb_fmap, !forallb_forall; setoid_rewrite <- list_elem_of_In; intros H x Hx;
    rewrite list.Forall_forall in IH; specialize (H x Hx); destruct x as [|ys|ys|y|q]; cbn [forallb];
    try (rewrite IH by done; done).
  all: cbn in H; rewrite forallb_fmap; rewrite forallb_forall in *; intros y Hy; specialize (Hin ys Hx);
    rewrite list.Forall_forall in Hin; apply Hin; [by apply list_elem_of_In|by apply H].
Qed.

Lemma no_nan_pruner e : expression_no_nan e = true → expression_no_nan (pruner e) = true.
Proof.
  assert (∀ xs, forallb expression_no_nan xs = true ↔ Forall (λ x, expression_no_nan x = true) xs) as Hf.
  { intros xs. rewrite forallb_forall, list.Forall_forall. by setoid_rewrite list_elem_of_In. }
  induction e as [|xs IH|xs IH|x IH|p] using expression_ind'; try done.
  1,2: cbn [Expression.pruner expression_no_nan]; rewrite !Hf; intros H; apply pruner_list_Forall; try done;
    intros [l o r]; cbn; by rewrite andb_true_iff; intros [_ ?].
Qed.

Lemma no_negation_hoister e : no_negation e → no_negation (hoister e).
Proof.
  assert (∀ xs, Forall no_negation xs → no_negation (unwrap conjunction xs) ∧ no_negation (unwrap disjunction xs)) as Hu.
  { intros [|x [|y xs]] H; [done|by inversion H|]. cbn [unwrap no_negation]. by rewrite foldr_Forall. }
  induction e as [|xs IH Hin|xs IH Hin|x IH _|p] using expression_ind2; try done; cbn [hoister no_negation];
    rewrite foldr_Forall; intros H; apply Hu; apply Forall_concat, Forall_fmap, list.Forall_forall; intros x Hx; rewrite list.Forall_forall in IH, H;
    pose proof (H x Hx) as Hn; destruct x as [|ys|ys|y|q]; cbn [compose]; try (repeat constructor; by apply IH).
  all: cbn in Hn; apply foldr_Forall in Hn; apply Forall_fmap; specialize (Hin ys Hx);
    rewrite list.Forall_forall in *; intros y Hy; apply Hin; auto.
Qed.

(** ** Termination *)

Lemma prune_loop_ends fuel e (f : expression → expression) :
  (nodes e <= fuel)%nat → proper (λ _, True) e → expression_no_nan e = true →
  (f = pruner ∨ f = λ e, hoister (pruner e)) →
  ∃ r, prune_loop unprunable fuel (f e) e = Some r.
Proof.
  revert e f. induction fuel as [|fuel IH]; intros e f Hn Hp Hnan Hf; [pose proof (nodes_pos e); lia|].
  cbn [prune_loop]. destruct (expression_eqb (f e) e) eqn:E; [by eexists|].
  assert (proper (λ _, True) (pruner e)) as Hpp by (by apply proper_pruner).
  assert (shrinks e (f e) ∧ proper (λ _, True) (f e) ∧ expression_no_nan (f e) = true) as (Hs & Hp' & Hnan').
  { pose proof (shrinks_pruner e) as Hs. pose proof (no_nan_pruner e Hnan) as Hnp. destruct Hf as [->| ->]; [done|].
    split_and!; [|by apply proper_hoister|by apply no_nan_hoister].
    eapply shrinks_trans; [exact Hs|by apply shrinks_hoister]. }
  destruct Hs as [Hs|Hs]; [rewrite Hs, expression_eqb_refl, Hnan in E; done|].
  apply (IH (f e) (λ e, hoister (pruner e))); [lia|done|done|by right].
Qed.

(** [prune] ends for every expression without NaN. *)
Lemma prune_ends e : proper (λ _, True) e → expression_no_nan e = true → ∃ r, prune unprunable e = Some r.
Proof. intros Hp Hn. apply (prune_loop_ends (nodes e) e pruner); auto. Qed.

(** What holds of all predicates and of generalized ones holds of the result. *)
Lemma prune_proper Q e r : (∀ p, Q p → Q (generalize p)) → prune unprunable e = Some r → proper Q e → proper Q r.
Proof.
  intros HQ. unfold prune. generalize (nodes e) as fuel. intros fuel Hr Hp.
  assert (proper Q (pruner e)) as Hp' by (by apply proper_pruner). revert Hr Hp'. generalize (pruner e) as x. revert e Hp.
  induction fuel as [|fuel IH]; intros e Hp x; cbn [prune_loop]; destruct (expression_eqb x e); intros Hr Hx; try done; try (by injection Hr as <-).
  eapply (IH x Hx); [exact Hr|]. by apply proper_hoister, proper_pruner.
Qed.

(** The result is no larger. *)
Lemma prune_nodes e r : prune unprunable e = Some r → proper (λ _, True) e → (nodes r <= nodes e)%nat.
Proof.
  unfold prune. intros Hr Hp. assert (proper (λ _, True) (pruner e)) as Hp' by (by apply proper_pruner).
  pose proof (shrinks_le _ _ (shrinks_pruner e)) as Hn. revert Hr Hp' Hn. generalize (nodes e) at 1 as fuel.
  generalize (pruner e) as x. generalize e at 1 as y. intros y x fuel. revert x y.
  induction fuel as [|fuel IH]; intros x y; cbn [prune_loop]; destruct (expression_eqb x y); intros Hr Hx Hn; try done; try (by injection Hr as <-).
  assert (proper (λ _, True) (pruner x)) as Hpx by (by apply proper_pruner).
  eapply (IH _ x); [exact Hr|by apply proper_hoister|].
  pose proof (shrinks_le _ _ (shrinks_hoister _ Hpx)). pose proof (shrinks_le _ _ (shrinks_pruner x)). unfold hoist. lia.
Qed.

(** ** Candidates *)

Section over.
Context (v : predicate → bool).
(** A lookup in all strings finds what a lookup in one field finds. *)
Context (Hgen : ∀ p, prunable p = true → v p = true → v (generalize p) = true).

Lemma same_lookup_generalize p q : prunable p = true → prunable q = true → same_lookup p q = true → generalize p = generalize q.
Proof.
  destruct p as [l o r], q as [l' o' r']. unfold Expression.prunable, same_lookup, generalize. cbn [lhs op rhs].
  rewrite andb_true_iff. intros Hp Hq [Ho Hr]. destruct (op_eqb_spec o o') as [->|]; [|done]. f_equal.
  destruct r as [| | | |[]]; try (by destruct l). destruct r' as [| | | |[]]; try (by destruct l').
  cbn in Hr. apply bool_decide_eq_true in Hr. by subst.
Qed.

(** What one operand adds to the result. *)
Lemma run_step_over (visit : expression → expression) acc x :
  Forall memo_ok acc → (eval v x = true → eval v (visit x) = true) →
  (forallb (eval v) (snd <$> acc) = true → eval v x = true → forallb (eval v) (snd <$> run_step visit acc x) = true) ∧
  (existsb (eval v) (snd <$> acc) = true ∨ eval v x = true → existsb (eval v) (snd <$> run_step visit acc x) = true).
Proof.
  intros Hm Hx.
  assert (∀ b y, (eval v x = true → eval v y = true) →
    (forallb (eval v) (snd <$> acc) = true → eval v x = true → forallb (eval v) (snd <$> acc ++ [(b, y)]) = true) ∧
    (existsb (eval v) (snd <$> acc) = true ∨ eval v x = true → existsb (eval v) (snd <$> acc ++ [(b, y)]) = true)) as Hpush.
  { intros b y Hy. rewrite fmap_app, forallb_app, existsb_app. cbn. rewrite andb_true_r, orb_false_r, andb_true_iff, orb_true_iff. tauto. }
  destruct x as [|ys|ys|y|p]; try (by apply Hpush). cbn [Expression.run_step]. destruct (prunable p) eqn:Ep; [|by apply Hpush].
  destruct (generalize_first p acc) as [result'|] eqn:E; [|by apply Hpush].
  apply generalize_first_spec in E as (l1 & q & l2 & -> & -> & Hs). rewrite list.Forall_app, list.Forall_cons in Hm.
  destruct Hm as (_ & Hq & _). destruct (Hq eq_refl) as (q' & [= <-] & Hq'). rewrite !fmap_app. cbn [fmap list_fmap snd].
  rewrite !forallb_app, !existsb_app. cbn [forallb existsb eval]. rewrite !andb_true_iff, !orb_true_iff.
  rewrite (same_lookup_generalize q p) by done. pose proof (Hgen p Ep). pose proof (Hgen q Hq') as Hg.
  rewrite (same_lookup_generalize q p) in Hg by done. tauto.
Qed.

Lemma run_over (visit : expression → expression) xs acc :
  Forall memo_ok acc → Forall (λ x, eval v x = true → eval v (visit x) = true) xs →
  (forallb (eval v) (snd <$> acc) = true → forallb (eval v) xs = true → forallb (eval v) (snd <$> foldl (run_step visit) acc xs) = true) ∧
  (existsb (eval v) (snd <$> acc) = true ∨ existsb (eval v) xs = true → existsb (eval v) (snd <$> foldl (run_step visit) acc xs) = true).
Proof.
  intros Hm H. revert acc Hm. induction H as [|x xs Hx _ IH]; intros acc Hm; cbn [foldl forallb existsb]; [split; [by intros|by intros [?|?]]|].
  destruct (run_step_over visit acc x Hm Hx) as [S1 S2].
  destruct (IH (run_step visit acc x)) as [IH1 IH2]; [by apply run_step_memo|].
  rewrite andb_true_iff, orb_true_iff. split; [tauto|]. intros [?|[?|?]]; apply IH2; auto.
Qed.

Lemma pruner_over e : no_negation e → eval v e = true → eval v (pruner e) = true.
Proof.
  induction e as [|xs IH|xs IH|x IH|p] using expression_ind'; try done; cbn [Expression.pruner eval no_negation];
    rewrite foldr_Forall; intros Hn He.
  all: apply run_over; [constructor|rewrite list.Forall_forall in *; auto|auto..].
Qed.

Lemma prune_loop_over fuel result e r : prune_loop unprunable fuel result e = Some r →
  no_negation result → eval v result = true → eval v r = true ∧ no_negation r.
Proof.
  revert result e. induction fuel as [|fuel IH]; intros result e H Hn He; cbn [prune_loop] in H;
    destruct (expression_eqb result e); try done; try (by injection H as <-).
  eapply IH; [exact H|by apply no_negation_hoister, no_negation_pruner|]. unfold hoist. rewrite eval_hoister. by apply pruner_over.
Qed.

(** [prune] finds at least what the expression finds. *)
Lemma prune_over e r : prune unprunable e = Some r → no_negation e → eval v e = true → eval v r = true.
Proof.
  unfold prune. intros H Hn He. eapply prune_loop_over; [exact H|by apply no_negation_pruner|by apply pruner_over].
Qed.

(** Negations do not appear. *)
Lemma prune_no_negation e r : prune unprunable e = Some r → no_negation e → no_negation r.
Proof.
  unfold prune. generalize (nodes e) as fuel. intros fuel Hr Hn. assert (no_negation (pruner e)) as Hn' by (by apply no_negation_pruner).
  revert Hr Hn'. generalize (pruner e) as x. clear Hn. revert e. induction fuel as [|fuel IH]; intros e x; cbn [prune_loop];
    destruct (expression_eqb x e); intros Hr Hx; try done; try (by injection Hr as <-).
  eapply IH; [exact Hr|]. by apply no_negation_hoister, no_negation_pruner.
Qed.
End over.
End pruner.
