(* ===== verification/ExpressionResolve.v ===== *)
(** Tailoring an expression to a schema: every extractor becomes a column of the right type, and the
    value is that of the matching columns. *)

From S2P Require Import Prelude Operator Data Types RecordType KeySuffix Ip DataOps Expression ExpressionSpec.

Section resolver.
Import type_resolver.
Context (schema : list field) (schema_name : list N).

(** Column [c] of the schema has type [t]. *)
Definition column_of (t : type) (c : N) : Prop :=
  ∃ l, record_type.leaves schema !! N.to_nat c = Some l ∧ l.2.2 = t.

(** A predicate that a table can answer: on metadata, or on a column of that type. *)
Definition resolved (p : predicate) : Prop :=
  match lhs p, rhs p with
  | meta_extractor _, o_data _ => True
  | data_extractor t c, o_data _ => column_of t c
  | _, _ => False
  end.

Lemma matching_leaves_spec f n ls m :
  m ∈ matching_leaves f n ls ↔ ∃ i l, ls !! i = Some l ∧ f l.2.2 = true ∧ m = (l.2.2, n + N.of_nat i).
Proof.
  revert n. induction ls as [|l ls IH]; intros n; cbn [matching_leaves].
  { split; [by intros ?%not_elem_of_nil|]. by intros (i & l & Hi & _). }
  rewrite elem_of_app, IH. split.
  - intros [H|(i & l' & Hi & Hf & ->)].
    + destruct (f l.2.2) eqn:E; [|by apply not_elem_of_nil in H]. apply list_elem_of_singleton in H as ->.
      exists 0%nat, l. split_and!; [done..|]. f_equal. lia.
    + exists (S i), l'. split_and!; [done..|]. f_equal. lia.
  - intros ([|i] & l' & Hi & Hf & ->).
    + injection Hi as <-. left. rewrite Hf. apply list_elem_of_singleton. f_equal. lia.
    + right. exists i, l'. split_and!; [done..|]. f_equal. lia.
Qed.

(** The columns an extractor stands for. *)
Definition type_columns (f : type → bool) : list (type * N) := matching_leaves f 0 (record_type.leaves schema).
Definition field_columns (field : list N) (op : relational_operator) (d : data) : list (type * N) :=
  filter (λ x, type.compatible x.1 op d = true)
    (omap (make_data_extractor schema) (key_suffix.resolve_key_suffix schema field schema_name)).

Lemma type_columns_of f t c : (t, c) ∈ type_columns f → column_of t c ∧ f t = true.
Proof.
  unfold type_columns. rewrite matching_leaves_spec. intros (i & l & Hi & Hf & [= -> ->]). split; [|done].
  exists l. split; [|done]. by replace (N.to_nat (0 + N.of_nat i)) with i by lia.
Qed.

Lemma field_columns_of field op d t c : (t, c) ∈ field_columns field op d → column_of t c ∧ type.compatible t op d = true.
Proof.
  unfold field_columns. rewrite list_elem_of_filter, list_elem_of_omap. intros (Hc & o & _ & Ho). split; [|done].
  unfold make_data_extractor in Ho. apply bind_Some in Ho as (f & Hf & (n & Hn & [= <- <-])%bind_Some).
  rewrite flat_index_spec in Hn. apply fmap_Some in Hn as ([i l] & Hi & ->).
  apply list_find_Some in Hi as (Hi & Ho & _). exists l. cbn [fst]. rewrite Nat2N.id. split; [done|].
  pose proof (leaves_field schema l ltac:(by eapply list_elem_of_lookup_2)) as [Hl _].
  rewrite Ho, Hl in Hf. by injection Hf as ->.
Qed.

(** *** Meaning *)

Section meaning.
Context (v : predicate → bool).

(** Several columns are a disjunction, and a conjunction for a negated operator; no column is false. *)
Definition any_column (op : relational_operator) (d : data) (columns : list (type * N)) : bool :=
  let holds c := v (mk_predicate (data_extractor c.1 c.2) op (o_data d)) in
  match columns with
  | [] => false
  | _ => if is_negated op then forallb holds columns else existsb holds columns
  end.

(** The value of a predicate for events of the schema. *)
Definition meaning (p : predicate) : bool :=
  match lhs p, rhs p with
  | type_extractor t, o_data d =>
      if type.is_some t then any_column (op p) d (type_columns (λ t', type.congruent t' t))
      else any_column (op p) d (type_columns (name_matches (type.name t) (op p) d)) ||
           (bytes_eqb (type.name t) timestamp && any_column (op p) d (type_columns has_timestamp_attribute))
  | field_extractor f, o_data d => any_column (op p) d (field_columns f (op p) d)
  | _, _ => v p
  end.

Definition column_predicate (op : relational_operator) (d : data) (c : type * N) : expression :=
  e_predicate (mk_predicate (data_extractor c.1 c.2) op (o_data d)).

Lemma eval_connect op d columns : eval v (connect op (column_predicate op d <$> columns)) = any_column op d columns.
Proof.
  unfold connect, any_column. destruct columns as [|c [|c' columns]]; [done| |].
  - cbn. destruct (is_negated op); [by rewrite andb_true_r|by rewrite orb_false_r].
  - cbn [fmap list_fmap]. destruct (is_negated op); cbn [eval forallb existsb column_predicate];
      [rewrite forallb_fmap|rewrite existsb_fmap]; done.
Qed.

Lemma omap_field_columns f op d :
  omap (λ o, x ← make_data_extractor schema o;
    if type.compatible x.1 op d then Some (e_predicate (mk_predicate (data_extractor x.1 x.2) op (o_data d))) else None)
    (key_suffix.resolve_key_suffix schema f schema_name) = column_predicate op d <$> field_columns f op d.
Proof.
  unfold field_columns. induction (key_suffix.resolve_key_suffix schema f schema_name) as [|o os IH]; [done|].
  cbn [omap list_omap]. destruct (make_data_extractor schema o) as [x|]; cbn [mbind option_bind]; [|done].
  rewrite filter_cons. destruct (type.compatible x.1 op d); [rewrite decide_True by done|rewrite decide_False by done]; [|done].
  cbn [fmap list_fmap]. by rewrite <- IH.
Qed.
End meaning.

(** The predicates of a result are resolved. *)
Fixpoint all_resolved (e : expression) : Prop :=
  match e with
  | e_none => True
  | conjunction xs | disjunction xs => foldr (λ x P, all_resolved x ∧ P) True xs
  | negation x => all_resolved x
  | e_predicate p => resolved p
  end.

Lemma connect_resolved op d columns : (∀ t c, (t, c) ∈ columns → column_of t c) →
  all_resolved (connect op (column_predicate op d <$> columns)).
Proof.
  intros H. assert (Forall all_resolved (column_predicate op d <$> columns)) as Hf.
  { apply Forall_fmap, list.Forall_forall. intros [t c] Hc. cbn. by apply H. }
  unfold connect. destruct (column_predicate op d <$> columns) as [|x [|y ys]]; [done|by inversion Hf|].
  destruct (is_negated op); by apply foldr_Forall.
Qed.

(** What the expression has to be: its predicates have an extractor on the left and data on the
    right, and columns only if they are known. *)
Definition extracts (p : predicate) : Prop :=
  match lhs p, rhs p with
  | meta_extractor _, o_data _ | field_extractor _, o_data _ | type_extractor _, o_data _ => True
  | _, _ => False
  end.

Lemma resolve_predicate_spec p r : extracts p → resolve_predicate schema schema_name p = value r →
  all_resolved r ∧ ∀ v, eval v r = meaning v p.
Proof.
  destruct p as [l o rh]. unfold extracts, resolve_predicate, meaning. cbn [lhs op rhs].
  destruct l as [k|f|t|t c|d0], rh as [| | | |d]; try done; intros _.
  - intros [= <-]. by split.
  - unfold resolve_field_extractor. rewrite omap_field_columns. intros [= <-]. split.
    + apply connect_resolved. intros t c Hc. by apply field_columns_of in Hc as [? _].
    + intros v. apply eval_connect.
  - assert (∀ f, all_resolved (resolve_extractor schema o f d) ∧
      ∀ v, eval v (resolve_extractor schema o f d) = any_column v o d (type_columns f)) as Hr.
    { intros f. split; [|intros v; apply eval_connect].
      apply (connect_resolved o d (type_columns f)). intros t' c Hc. by apply type_columns_of in Hc as [? _]. }
    unfold resolve_type_extractor. destruct (type.is_some t); cbn [negb].
    { intros [= <-]. split; [apply Hr|]. intros v. apply Hr. }
    destruct (bytes_eqb (type.name t) timestamp); cbn [andb].
    + destruct d; try done. intros [= <-]. split; [cbn [all_resolved foldr]; split_and!; [apply Hr..|exact I]|].
      intros v. cbn [eval existsb]. rewrite orb_false_r. f_equal; apply Hr.
    + intros [= <-]. split; [apply Hr|]. intros v. rewrite orb_false_r. apply Hr.
Qed.

(** The operands of a conjunction: all of them, or one that did not resolve and is false. *)
Lemma resolve_conjuncts_spec (ev : (predicate → bool) → expression → bool) xs :
  Forall (λ x, ∀ r, visit schema schema_name x = value r → all_resolved r ∧ ∀ v, eval v r = ev v x) xs →
  match resolve_conjuncts (visit schema schema_name <$> xs) with
  | value (Some ys) => Forall all_resolved ys ∧ length ys = length xs ∧ ∀ v, forallb (eval v) ys = forallb (ev v) xs
  | value None => ∀ v, forallb (ev v) xs = false
  | error _ => True
  end.
Proof.
  induction 1 as [|x xs Hx _ IH]; cbn [fmap list_fmap resolve_conjuncts]; [by split_and!; [constructor|..]|].
  destruct (visit schema schema_name x) as [y|]; [|done]. destruct (Hx y eq_refl) as [Hy Hv].
  destruct y as [|ys|ys|y|q]; [intros v; cbn; by rewrite <- Hv|..];
    (destruct (resolve_conjuncts _) as [[zs|]|]; [|intros v; cbn [forallb]; by rewrite IH, andb_false_r|done];
     destruct IH as (Hz & Hl & Hzv); split_and!; [by constructor|cbn; lia|]; intros v; cbn [forallb]; by rewrite Hv, Hzv).
Qed.

Lemma resolve_disjuncts_spec (ev : (predicate → bool) → expression → bool) xs :
  Forall (λ x, ∀ r, visit schema schema_name x = value r → all_resolved r ∧ ∀ v, eval v r = ev v x) xs →
  match resolve_disjuncts (visit schema schema_name <$> xs) with
  | value ys => Forall all_resolved ys ∧ ∀ v, existsb (eval v) ys = existsb (ev v) xs
  | error _ => True
  end.
Proof.
  induction 1 as [|x xs Hx _ IH]; cbn [fmap list_fmap resolve_disjuncts]; [by split; [constructor|]|].
  destruct (visit schema schema_name x) as [y|]; [|done]. destruct (Hx y eq_refl) as [Hy Hv].
  destruct (resolve_disjuncts _) as [zs|]; [|done]. destruct IH as [Hz Hzv]. destruct (is_e_none y) eqn:E.
  - split; [done|]. intros v. cbn [existsb]. rewrite <- Hv, Hzv. by destruct y.
  - split; [by constructor|]. intros v. cbn [existsb]. by rewrite Hv, Hzv.
Qed.

Lemma unwrap_none_resolved c ys : (c = conjunction ∨ c = disjunction) → Forall all_resolved ys → all_resolved (unwrap_none c ys).
Proof.
  intros Hc Hy. destruct ys as [|y [|z ys]]; [done|by inversion Hy|]. cbn [unwrap_none unwrap].
  destruct Hc as [->| ->]; by apply foldr_Forall.
Qed.

(** Tailoring resolves all predicates and keeps the value, for expressions without negation. *)
Lemma visit_spec e r : proper extracts e → no_negation e → visit schema schema_name e = value r →
  all_resolved r ∧ ∀ v, eval v r = eval (meaning v) e.
Proof.
  revert r. induction e as [|xs IH|xs IH|x IH|p] using expression_ind'; intros r Hp Hn; try done.
  1,2: rewrite ?proper_disjunction, proper_connective in Hp; destruct Hp as [Hne Hp]; cbn in Hn; apply foldr_Forall in Hn;
    assert (Forall (λ x, ∀ r, visit schema schema_name x = value r → all_resolved r ∧ ∀ v, eval v r = eval (meaning v) x) xs) as H
      by (rewrite list.Forall_forall in *; intros x Hx r'; apply IH; auto); cbn [visit eval].
  - apply (resolve_conjuncts_spec (λ v, eval (meaning v))) in H.
    destruct (resolve_conjuncts _) as [[ys|]|]; [|intros [= <-]; split; [done|]; intros v; by rewrite H|done].
    intros [= <-]. destruct H as (Hy & Hl & Hv). split; [apply unwrap_none_resolved; auto|]. intros v. rewrite <- Hv.
    destruct ys as [|y ys]; [by destruct xs|]. apply eval_unwrap_conj.
  - apply (resolve_disjuncts_spec (λ v, eval (meaning v))) in H.
    destruct (resolve_disjuncts _) as [ys|]; [|done]. intros [= <-]. destruct H as (Hy & Hv).
    split; [apply unwrap_none_resolved; auto|]. intros v. rewrite <- Hv. destruct ys as [|y ys]; [done|]. apply eval_unwrap_disj.
  - cbn [visit]. intros H. by apply resolve_predicate_spec.
Qed.

(** *** Validation *)

Lemma validator_extracts regex_valid e : proper (λ _, True) e → validator regex_valid e = value () → proper extracts e.
Proof.
  induction e as [|xs IH|xs IH|x IH|p] using expression_ind'; try done.
  1,2: rewrite ?proper_disjunction, !proper_connective; intros [Hne Hp] Hv; split; [done|]; cbn in Hv;
    clear Hne; induction IH as [|x xs Hx _ IHxs]; [constructor|]; rewrite list.Forall_cons in Hp; destruct Hp as [Hp Hps];
    cbn in Hv; destruct (validator regex_valid x) as [[]|] eqn:E; [|done]; constructor; auto.
  intros _. cbn. destruct p as [l o r]. unfold validate_predicate, extracts. cbn [lhs op rhs].
  destruct r as [| | | |d]; try done. by destruct d as [| | | | | | | |pat| | | | | |]; [..|destruct (regex_valid pat)| | | | | |];
    destruct l.
Qed.

Lemma normal_proper e : normal e → proper aligned e ∧ no_negation e.
Proof.
  induction e as [|xs IH|xs IH|x IH|p] using expression_ind'; try done.
  all: cbn [normal no_negation]; rewrite ?proper_disjunction, proper_connective, !foldr_Forall; intros [Hl H].
  all: split_and!; [by destruct xs; [cbn in Hl; lia|]|..]; rewrite list.Forall_forall in *; intros x Hx; apply IH; auto.
Qed.

Lemma proper_weaken Q Q' e : (∀ p, Q p → Q' p) → proper Q e → proper Q' e.
Proof.
  intros HQ. induction e as [|xs IH|xs IH|x IH|p] using expression_ind'; try done; [..|apply HQ].
  all: rewrite ?proper_disjunction, !proper_connective; intros [Hne H]; split; [done|]; rewrite list.Forall_forall in *; auto.
Qed.

(** The pipeline: what is normalized, validated and tailored has columns of the schema only, and the
    value of the matching columns. *)
Lemma tailor_spec regex_valid e e' r :
  proper (λ _, True) e → normalize_and_validate regex_valid e = value e' → tailor e' schema schema_name = value r →
  all_resolved r ∧ ∀ v, eval v r = eval (meaning v) e'.
Proof.
  intros Hp Hv Ht. unfold normalize_and_validate in Hv. destruct (validator regex_valid (normalize e)) as [[]|] eqn:E; [|done].
  injection Hv as <-. destruct (normal_proper _ (normalize_normal e Hp)) as [Hpn Hn].
  apply visit_spec; [|done|].
  - eapply validator_extracts; [|exact E]. by eapply proper_weaken.
  - unfold tailor in Ht. by destruct (normalize e).
Qed.
End resolver.
