(* ===== verification/Taxonomies.v ===== *)
(** Concepts and models: [libvast/src/taxonomies.cpp] and the transformation of predicates of
    [libvast/include/vast/expression.hpp].

    A range-based loop takes the end of its range before the first round; the loop over the log of
    concepts, which grows in its body, is modelled with that end. *)

From S2P Require Import Prelude Operator Data Types RecordType KeySuffix Ip DataOps DataRecord Expression ExpressionSpec ExpressionResolve.

#[local] Set Warnings "-register-all".

(** ** Definitions *)

Record concept_ := mk_concept { description : list N; c_fields : list (list N); c_concepts : list (list N) }.
Record taxonomies := mk_taxonomies {
  concepts : list (list N * concept_);
  models : list (list N * list (list N))
}.

(** The loops of [mappend]. *)
Definition append_new (lhs rhs : list (list N)) : list (list N) :=
  foldl (λ xs x, if existsb (bytes_eqb x) xs then xs else xs ++ [x]) lhs rhs.
Definition mappend (lhs rhs : concept_) : concept_ :=
  mk_concept (match description lhs with [] => description rhs | d => d end)
    (append_new (c_fields lhs) (c_fields rhs)) (append_new (c_concepts lhs) (c_concepts rhs)).

(** [operator==] *)
Definition concept_eqb (lhs rhs : concept_) : bool :=
  bool_decide (c_concepts lhs = c_concepts rhs) && bool_decide (c_fields lhs = c_fields rhs).

(** ** [resolve_concepts] *)

(** [defaults::max_recursion] *)
Definition max_recursion : nat := 100.

Section resolve_concepts.
Context (cs : list (list N * concept_)).

(** [try_resolve_concept]: the concepts that were resolved, and the result. *)
Fixpoint try_resolve_concept (recursion_limit : nat) (x : list N) (st : list (list N) * list (list N))
    : list (list N) * list (list N) :=
  match recursion_limit with
  | O => st
  | S recursion_limit =>
      match stable_map.lookup x cs with
      | Some c =>
          if existsb (bytes_eqb x) st.1 then st
          else foldl (λ st y, try_resolve_concept recursion_limit y st) (x :: st.1, st.2 ++ c_fields c) (c_concepts c)
      | None => (st.1, st.2 ++ [x])
      end
  end.
Definition resolve_concepts (xs : list (list N)) : list (list N) :=
  (foldl (λ st x, try_resolve_concept max_recursion x st) ([], []) xs).2.
End resolve_concepts.

(** ** Transforming predicates *)

(** [make_result]: the operands up to the first error. *)
Fixpoint make_result (xs : list (option (expected expression))) : option (expected (list expression)) :=
  match xs with
  | [] => Some (value [])
  | x :: xs =>
      r ← x;
      match r with
      | error e => Some (error e)
      | value y => rs ← make_result xs; Some (match rs with error e => error e | value ys => value (y :: ys) end)
      end
  end.

(** [for_each_predicate]; [None] is an access to the value of an error, which happens below a
    negation. *)
Fixpoint for_each_predicate (f : predicate → option (expected expression)) (e : expression) : option (expected expression) :=
  match e with
  | e_none => Some (value e_none)
  | conjunction xs =>
      r ← make_result (for_each_predicate f <$> xs);
      Some (match r with error e => error e | value ys => value (conjunction ys) end)
  | disjunction xs =>
      r ← make_result (for_each_predicate f <$> xs);
      Some (match r with error e => error e | value ys => value (disjunction ys) end)
  | negation x => r ← for_each_predicate f x; match r with value y => Some (value (negation y)) | error _ => None end
  | e_predicate p => f p
  end.

(** ** [resolve] *)

Section resolve.
Context (ts : taxonomies).

(** [contains]: the first prefix of the name that is the name of a schema decides. *)
Fixpoint contains_from (seen : list (list N * list type)) (prefix rest : list N) (op : relational_operator) (d : data) : bool :=
  match rest with
  | [] => false
  | c :: rest =>
      if (c =? record_type.dot) then
        match stable_map.lookup prefix seen with
        | Some types =>
            existsb (λ t, match record_type.as_record t with
                          | Some fields =>
                              match record_type.resolve_key fields rest with
                              | Some o =>
                                  match record_type.field_at fields o with
                                  | Some f => type.compatible f.2 op d
                                  | None => false
                                  end
                              | None => false
                              end
                          | None => false
                          end) types
        | None => contains_from seen (prefix ++ [c]) rest op d
        end
      else contains_from seen (prefix ++ [c]) rest op d
  end.
Definition contains (seen : list (list N * list type)) (x : list N) : relational_operator → data → bool :=
  contains_from seen [] x.

(** The lambda [load_definition]: fields and log. *)
Definition load_definition (st : list (list N) * list (list N)) (def : concept_) : list (list N) * list (list N) :=
  (append_new st.1 (c_fields def), append_new st.2 (c_concepts def)).

(** The fields of a concept: its own and those of the concepts it refers to. *)
Definition target_fields (c : concept_) : list (list N) :=
  let st := load_definition ([], []) c in
  (foldl (λ st x, match stable_map.lookup x (concepts ts) with Some ref => load_definition st ref | None => st end) st st.2).1.

Section predicate.
Context (seen : option (list (list N * list type))) (pred : predicate).

(** The lambda [resolve_concepts]; [make_pred] builds a predicate for a field. *)
Definition substitute (field_name : list N) (op : relational_operator) (d : data) (make_pred : list N → predicate) : expression :=
  match stable_map.lookup field_name (concepts ts) with
  | None => e_predicate pred
  | Some c =>
      let keep x := match seen with None => true | Some seen => contains seen x op d end in
      match (λ x, e_predicate (make_pred x)) <$> filter (λ x, keep x = true) (target_fields c) with
      | [] => e_predicate pred
      | [x] => x
      | xs => disjunction xs
      end
  end.

(** The cursor in the tree of a model: for each level what is left of it. *)
Fixpoint descend (fuel : nat) (levels : list (list (list N))) : option (list (list (list N))) :=
  match fuel, levels with
  | S fuel, (x :: _) :: _ =>
      match stable_map.lookup x (models ts) with
      | Some child => descend fuel (child :: levels)
      | None => Some levels
      end
  | _, _ => None
  end.
Fixpoint advance (levels : list (list (list N))) : list (list (list N)) :=
  match levels with
  | (_ :: (x :: rest)) :: levels => (x :: rest) :: levels
  | _ :: levels => advance levels
  | [] => []
  end.
Definition next_leaf (fuel : nat) (levels : list (list (list N))) : option (list (list (list N))) :=
  match advance levels with
  | [] => Some []
  | levels => descend fuel levels
  end.

(** The leaves that the cursor visits; [None] without enough fuel, or for an empty model. *)
Fixpoint model_leaves (fuel : nat) (levels : list (list (list N))) : option (list (list N)) :=
  match fuel, levels with
  | _, [] => Some []
  | S fuel, (x :: _) :: _ => levels ← next_leaf (S fuel) levels; cons x <$> model_leaves fuel levels
  | _, _ => None
  end.

(** The operands of the two conjunctions for the leaves of a model: a leaf without a value must
    exist. *)
Definition meta_field_predicate (leaf : list N) : expression :=
  substitute leaf equal d_none (λ item, mk_predicate (field_extractor item) not_equal (o_data d_none)).
Definition leaf_operands (op : relational_operator) (make_predicate : relational_operator → data → list N → predicate)
    (leaves : list (list N * option data)) : list expression * list expression :=
  (omap (λ l : list N * option data, match l.2 with Some d => Some (substitute l.1 op d (make_predicate op d)) | None => None end) leaves,
   omap (λ l : list N * option data, match l.2 with None => Some (meta_field_predicate l.1) | Some _ => None end) leaves).

(** The values of the leaves: by name, or by position, where nil means any value. *)
Definition named_values (r : list (list N * data)) (leaves : list (list N)) : list (list N * option data) :=
  (λ l, (l, stable_map.lookup l r)) <$> leaves.
Definition positional_values (r : list (list N * data)) (leaves : list (list N)) : expected (list (list N * option data)) :=
  if (length r =? length leaves)%nat
  then value (zip leaves ((λ x : list N * data, if is_none x.2 then None else Some x.2) <$> r))
  else error invalid_query.

Definition combine_operands (op : relational_operator) (restricted unrestricted : list expression) : expression :=
  let expr :=
    match restricted with
    | [x] => x
    | xs => conjunction xs
    end in
  let expr := if is_negated op then negation expr else expr in
  match restricted, unrestricted with
  | [], _ => conjunction unrestricted
  | _, [] => expr
  | _, _ => conjunction (unrestricted ++ [expr])
  end.

(** The lambda [resolve_models]. *)
Definition resolve_models (fuel : nat) (field_name : list N) (op : relational_operator) (d : data)
    (make_predicate : relational_operator → data → list N → predicate) : option (expected expression) :=
  let concept := Some (value (substitute field_name op d (make_predicate op d))) in
  match d with
  | d_record [] => Some (value e_none)
  | d_record r =>
      match stable_map.lookup field_name (models ts) with
      | None => concept
      | Some definition =>
          leaves ← (levels ← descend fuel [definition]; model_leaves fuel levels);
          let abs_op := if is_negated op then negate op else op in
          let finish values :=
            let '(restricted, unrestricted) := leaf_operands abs_op make_predicate values in
            value (combine_operands op restricted unrestricted) in
          Some (match r with
                | ([], _) :: _ => match positional_values r leaves with error e => error e | value vs => finish vs end
                | _ => finish (named_values r leaves)
                end)
      end
  | _ => concept
  end.
End predicate.

(** [resolve_impl] *)
Definition resolve_predicate (seen : option (list (list N * list type))) (fuel : nat) (pred : predicate)
    : option (expected expression) :=
  match lhs pred, rhs pred with
  | field_extractor f, o_data d =>
      resolve_models seen pred fuel f (op pred) d (λ op o item, mk_predicate (field_extractor item) op (o_data o))
  | o_data d, field_extractor f =>
      resolve_models seen pred fuel f (op pred) d (λ op o item, mk_predicate (o_data o) op (field_extractor item))
  | _, _ => Some (value (e_predicate pred))
  end.
Definition resolve_impl (fuel : nat) (e : expression) (seen : option (list (list N * list type))) : option (expected expression) :=
  for_each_predicate (resolve_predicate seen fuel) e.

(** The three overloads of [resolve]. *)
Definition resolve_all (fuel : nat) (e : expression) : option (expected expression) := resolve_impl fuel e None.
Definition resolve_seen (fuel : nat) (e : expression) (seen : list (list N * list type)) : option (expected expression) :=
  resolve_impl fuel e (Some seen).
Definition resolve_type (fuel : nat) (e : expression) (t : type) : option (expected expression) :=
  resolve_impl fuel e (Some [(type.name t, [t])]).
End resolve.

(** ** [resolve_concepts] finds what is reachable *)

Section reachable.
Context (cs : list (list N * concept_)).
Implicit Types (x y : list N) (st : list (list N) * list (list N)).

(** A name stands for itself unless it is a concept, which stands for its fields and what its
    concepts stand for. *)
Inductive stands_for : list N → list N → Prop :=
| stands_for_self x : stable_map.lookup x cs = None → stands_for x x
| stands_for_field x c y : stable_map.lookup x cs = Some c → y ∈ c_fields c → stands_for x y
| stands_for_nested x c n y : stable_map.lookup x cs = Some c → n ∈ c_concepts c → stands_for n y → stands_for x y.

Definition handled st x : Prop := match stable_map.lookup x cs with Some _ => x ∈ st.1 | None => x ∈ st.2 end.
Definition closed_at st x : Prop :=
  ∀ c, stable_map.lookup x cs = Some c → (∀ y, y ∈ c_fields c → y ∈ st.2) ∧ ∀ n, n ∈ c_concepts c → handled st n.
Definition extends st st' : Prop := st.1 ⊆ st'.1 ∧ st.2 ⊆ st'.2.
(** The state after a call for [xs]. *)
Definition resolves st (xs : list (list N)) st' : Prop :=
  extends st st' ∧ (∀ x, x ∈ xs → handled st' x) ∧ ∀ c, c ∈ st'.1 → c ∈ st.1 ∨ closed_at st' c.

Definition unvisited (cache : list (list N)) : nat := length (filter (λ k, k ∉ cache) cs.*1).

Lemma unvisited_cons x cache : x ∈ cs.*1 → x ∉ cache → (unvisited (x :: cache) < unvisited cache)%nat.
Proof.
  unfold unvisited. intros Hx Hn. induction cs.*1 as [|k ks IH]; [by apply not_elem_of_nil in Hx|]. rewrite !filter_cons.
  assert (length (filter (λ k, k ∉ x :: cache) ks) <= length (filter (λ k, k ∉ cache) ks))%nat as Hle.
  { clear. induction ks as [|k ks IH]; [done|]. rewrite !filter_cons. destruct (decide (k ∉ x :: cache)) as [H1|H1], (decide (k ∉ cache)) as [H2|H2]; cbn; try lia.
    exfalso. apply H2. intros H3. apply H1. by apply list_elem_of_further. }
  destruct (decide (k = x)) as [->|Hk].
  - rewrite decide_False by (intros H; apply H, list_elem_of_here). rewrite decide_True by done. cbn. lia.
  - apply elem_of_cons in Hx as [->|Hx]; [done|]. specialize (IH Hx).
    destruct (decide (k ∉ x :: cache)) as [H1|H1], (decide (k ∉ cache)) as [H2|H2]; cbn; try lia.
    exfalso. apply H2. intros H3. apply H1. by apply list_elem_of_further.
Qed.

Lemma handled_mono st st' x : extends st st' → handled st x → handled st' x.
Proof. intros [H1 H2]. unfold handled. destruct (stable_map.lookup x cs); [apply H1|apply H2]. Qed.

Lemma closed_mono st st' x : extends st st' → closed_at st x → closed_at st' x.
Proof.
  intros He Hc c Hl. destruct (Hc c Hl) as [Hf Hn]. split; [intros y Hy; apply He; auto|]. intros n Hin. eapply handled_mono; eauto.
Qed.

Lemma extends_trans st1 st2 st3 : extends st1 st2 → extends st2 st3 → extends st1 st3.
Proof. intros [? ?] [? ?]. split; by etrans. Qed.

Lemma unvisited_mono st st' : extends st st' → (unvisited st'.1 <= unvisited st.1)%nat.
Proof.
  intros [H1 _]. unfold unvisited. induction cs.*1 as [|k ks IH]; [done|]. rewrite !filter_cons.
  destruct (decide (k ∉ st'.1)) as [Ha|Ha], (decide (k ∉ st.1)) as [Hb|Hb]; cbn; try lia.
  exfalso. apply Hb. intros Hc. apply Ha. by apply H1.
Qed.

(** A loop of calls, each of which resolves its name. *)
Lemma resolves_foldl (f : list N → list (list N) * list (list N) → list (list N) * list (list N)) n xs st :
  (∀ x st, (unvisited st.1 < n)%nat → resolves st [x] (f x st)) → (unvisited st.1 < n)%nat →
  resolves st xs (foldl (λ st x, f x st) st xs).
Proof.
  intros Hf. revert st. induction xs as [|x xs IH]; intros st Hn; cbn [foldl].
  { split_and!; [done|by intros x ?%not_elem_of_nil|by left]. }
  destruct (Hf x st Hn) as (He & Hx & Hc). destruct (IH (f x st)) as (He' & Hxs & Hc'); [apply unvisited_mono in He; lia|].
  split_and!; [by eapply extends_trans| |].
  - intros y [->|Hy]%elem_of_cons; [|by apply Hxs]. eapply handled_mono; [done|]. apply Hx, list_elem_of_here.
  - intros c Hin. destruct (Hc' c Hin) as [Hin'|?]; [|by right]. destruct (Hc c Hin') as [?|?]; [by left|right; by eapply closed_mono].
Qed.

Lemma try_resolve_spec limit x st : (unvisited st.1 < limit)%nat → resolves st [x] (try_resolve_concept cs limit x st).
Proof.
  revert x st. induction limit as [|limit IH]; intros x st Hl; [lia|]. cbn [try_resolve_concept].
  destruct (stable_map.lookup x cs) as [c|] eqn:Ex.
  - destruct (existsb (bytes_eqb x) st.1) eqn:Ei.
    { split_and!; [done| |by left]. intros y ->%list_elem_of_singleton. unfold handled. rewrite Ex.
      apply existsb_exists in Ei as (z & Hz & ->%bool_decide_eq_true). by apply list_elem_of_In. }
    assert (x ∉ st.1) as Hx.
    { intros Hin. assert (existsb (bytes_eqb x) st.1 = true); [|congruence]. apply existsb_exists. exists x.
      split; [by apply list_elem_of_In|by apply bool_decide_eq_true]. }
    set (st0 := (x :: st.1, st.2 ++ c_fields c)).
    assert (x ∈ cs.*1) as Hkey by (destruct (decide (x ∈ cs.*1)) as [?|Hn]; [done|]; apply lookup_map_None in Hn; congruence).
    assert (extends st st0) as He0.
    { split; cbn; [intros y Hy; by apply list_elem_of_further|intros y Hy; apply elem_of_app; by left]. }
    destruct (resolves_foldl (λ y st, try_resolve_concept cs limit y st) limit (c_concepts c) st0) as (He & Hn & Hc).
    { intros y st1 Hy. by apply IH. } { pose proof (unvisited_cons x st.1 Hkey Hx). cbn. lia. }
    split_and!; [by eapply extends_trans| |].
    + intros y ->%list_elem_of_singleton. unfold handled. rewrite Ex. apply He. apply list_elem_of_here.
    + intros z Hz. destruct (Hc z Hz) as [[->|?]%elem_of_cons|?]; [|by left|by right]. right. intros c' Hc'. rewrite Ex in Hc'. injection Hc' as <-.
      split; [|done]. intros y Hy. apply He. cbn. apply elem_of_app. by right.
  - split_and!; [split; cbn; [done|intros y Hy; apply elem_of_app; by left]| |by left].
    intros y ->%list_elem_of_singleton. unfold handled. rewrite Ex. cbn. apply elem_of_app. right. apply list_elem_of_here.
Qed.

(** Nothing else is found. *)
Definition justified (P : list N → Prop) st : Prop := ∀ y, y ∈ st.2 → P y.

Lemma justified_foldl (P : list N → Prop) (f : list N → list (list N) * list (list N) → list (list N) * list (list N)) (xs : list (list N)) st :
  (∀ x st, x ∈ xs → justified P st → justified P (f x st)) → justified P st → justified P (foldl (λ st x, f x st) st xs).
Proof.
  revert st. induction xs as [|x xs IH]; intros st Hf Hst; [done|]. cbn [foldl].
  apply IH; [intros; apply Hf; [by apply list_elem_of_further|done]|apply Hf; [apply list_elem_of_here|done]].
Qed.

Lemma try_resolve_sound (P : list N → Prop) limit x st :
  (∀ y, stands_for x y → P y) → justified P st → justified P (try_resolve_concept cs limit x st).
Proof.
  revert x st. induction limit as [|limit IH]; intros x st Hx Hst; [done|]. cbn [try_resolve_concept].
  destruct (stable_map.lookup x cs) as [c|] eqn:Ex.
  - destruct (existsb _ _); [done|].
    apply (justified_foldl P (λ y st, try_resolve_concept cs limit y st)).
    + intros n st' Hn Hst'. apply IH; [|done]. intros y Hy. apply Hx. by eapply stands_for_nested.
    + intros y [Hy|Hy]%elem_of_app; [by apply Hst|]. apply Hx. by eapply stands_for_field.
  - intros y [Hy|Hy%list_elem_of_singleton]%elem_of_app; [by apply Hst|]. subst y. apply Hx. by apply stands_for_self.
Qed.

Lemma closed_stands_for st x y : (∀ c, c ∈ st.1 → closed_at st c) → handled st x → stands_for x y → y ∈ st.2.
Proof.
  intros Hc Hh Hs. induction Hs as [x Hx|x c y Hx Hy|x c n y Hx Hn _ IH].
  - unfold handled in Hh. by rewrite Hx in Hh.
  - unfold handled in Hh. rewrite Hx in Hh. by apply (Hc x Hh c Hx).
  - apply IH. unfold handled in Hh. rewrite Hx in Hh. by apply (Hc x Hh c Hx).
Qed.

(** The result has exactly what the names stand for. *)
Lemma resolve_concepts_spec xs y : (length cs < max_recursion)%nat →
  y ∈ resolve_concepts cs xs ↔ ∃ x, x ∈ xs ∧ stands_for x y.
Proof.
  intros Hlen. unfold resolve_concepts.
  assert (∀ st, (unvisited st.1 < max_recursion)%nat) as Hu.
  { intros st. unfold unvisited. pose proof (length_filter (λ k, k ∉ st.1) cs.*1) as Hle. rewrite length_fmap in Hle. lia. }
  split.
  - assert (justified (λ y, ∃ x, x ∈ xs ∧ stands_for x y) (foldl (λ st x, try_resolve_concept cs max_recursion x st) ([], []) xs)) as Hj.
    { apply (justified_foldl _ (λ x st, try_resolve_concept cs max_recursion x st)); [|by intros z ?%not_elem_of_nil].
      intros x st Hx Hst. apply try_resolve_sound; [|done]. intros z Hz. by exists x. }
    apply Hj.
  - intros (x & Hx & Hs).
    destruct (resolves_foldl (λ x st, try_resolve_concept cs max_recursion x st) max_recursion xs ([], [])) as (_ & Hh & Hc); [intros; by apply try_resolve_spec|apply Hu|].
    eapply closed_stands_for; [|by apply Hh|done]. intros c Hin. by destruct (Hc c Hin) as [?%not_elem_of_nil|?].
Qed.
End reachable.

(** ** The cursor visits the leaves of a model from left to right *)

Section model.
Context (ts : taxonomies).

(** The leaves below a name, and below the names of a definition. *)
Inductive flattens : list N → list (list N) → Prop :=
| flattens_leaf x : stable_map.lookup x (models ts) = None → flattens x [x]
| flattens_model x d out : stable_map.lookup x (models ts) = Some d → d ≠ [] → flattens_all d out → flattens x out
with flattens_all : list (list N) → list (list N) → Prop :=
| flattens_nil : flattens_all [] []
| flattens_cons x xs out outs : flattens x out → flattens_all xs outs → flattens_all (x :: xs) (out ++ outs).
Scheme flattens_mut := Induction for flattens Sort Prop
with flattens_all_mut := Induction for flattens_all Sort Prop.

(** The run of the cursor from a position, and from behind one. *)
Inductive enters : list (list (list N)) → list (list N) → Prop :=
| enters_model x r ls d out : stable_map.lookup x (models ts) = Some d → enters (d :: (x :: r) :: ls) out → enters ((x :: r) :: ls) out
| enters_leaf x r ls out : stable_map.lookup x (models ts) = None → leaves_behind ((x :: r) :: ls) out → enters ((x :: r) :: ls) (x :: out)
with leaves_behind : list (list (list N)) → list (list N) → Prop :=
| behind_done ls : advance ls = [] → leaves_behind ls []
| behind_next ls l out : advance ls = l → l ≠ [] → enters l out → leaves_behind ls out.
Scheme enters_mut := Induction for enters Sort Prop
with leaves_behind_mut := Induction for leaves_behind Sort Prop.

Lemma enters_flattens_all ds out : flattens_all ds out → ds ≠ [] →
  ∀ ls rest, leaves_behind ls rest → enters (ds :: ls) (out ++ rest).
Proof.
  intros H. pattern ds, out, H. apply (flattens_all_mut
    (λ x out _, ∀ r ls rest, leaves_behind ((x :: r) :: ls) rest → enters ((x :: r) :: ls) (out ++ rest))).
  - intros x Hx r ls rest Hb. by apply enters_leaf.
  - intros x d o Hx Hd _ IH r ls rest Hb. eapply enters_model; [done|]. by apply IH.
  - done.
  - intros x xs o os _ IH1 Hf IH2 _ ls rest Hb. rewrite <- app_assoc. apply IH1. destruct xs as [|y ys].
    + inversion Hf. destruct Hb as [ls Hb|ls l out' Hb Hl He]; [by apply behind_done|by eapply behind_next].
    + eapply behind_next; [done|done|]. by apply IH2.
Qed.

(** Enough fuel gives the leaves. *)
Lemma enters_runs ls out : enters ls out →
  ∃ n, ∀ f g, (n <= f)%nat → (n <= g)%nat → (levels ← descend ts f ls; model_leaves ts g levels) = Some out.
Proof.
  intros H. pattern ls, out, H. apply (enters_mut _ (λ ls out _, ∃ n, ∀ f g, (n <= f)%nat → (n <= g)%nat →
    (levels ← next_leaf ts f ls; model_leaves ts g levels) = Some out)).
  - intros x r l d o Hx _ [n IH]. exists (S n). intros [|f] g Hf Hg; [lia|]. cbn [descend]. rewrite Hx. apply IH; lia.
  - intros x r l o Hx _ [n IH]. exists (S n). intros [|f] [|g] Hf Hg; [lia..|]. cbn [descend]. rewrite Hx. cbn [mbind option_bind model_leaves].
    specialize (IH (S g) g ltac:(lia) ltac:(lia)). apply bind_Some in IH as (levels & Hd & Hl). rewrite Hd. cbn [mbind option_bind]. by rewrite Hl.
  - intros l Hl. exists 0%nat. intros f g _ _. unfold next_leaf. rewrite Hl. cbn. by destruct g.
  - intros l l' o Hl Hne _ [n IH]. exists n. intros f g Hf Hg. unfold next_leaf. rewrite Hl. destruct l' as [|y l']; [done|]. by apply IH.
Qed.

Lemma model_leaves_spec d out : d ≠ [] → flattens_all d out →
  ∃ n, ∀ fuel, (n <= fuel)%nat → (levels ← descend ts fuel [d]; model_leaves ts fuel levels) = Some out.
Proof.
  intros Hd Hf. destruct (enters_runs [d] out) as [n Hn]; [|exists n; auto].
  rewrite <- (app_nil_r out). apply enters_flattens_all; [done|done|]. by apply behind_done.
Qed.
End model.

(** ** Expressions without concepts and models stay as they are *)

(** A predicate on no name of the taxonomy. *)
Definition plain (ts : taxonomies) (p : predicate) : Prop :=
  match lhs p, rhs p with
  | field_extractor f, o_data d | o_data d, field_extractor f =>
      stable_map.lookup f (concepts ts) = None ∧ stable_map.lookup f (models ts) = None ∧ d ≠ d_record []
  | _, _ => True
  end.

Lemma for_each_predicate_id (f : predicate → option (expected expression)) e :
  proper (λ p, f p = Some (value (e_predicate p))) e → for_each_predicate f e = Some (value e).
Proof.
  assert (∀ xs, Forall (λ x, for_each_predicate f x = Some (value x)) xs → make_result (for_each_predicate f <$> xs) = Some (value xs)) as Hm.
  { induction 1 as [|x xs Hx _ IH]; [done|]. cbn [fmap list_fmap make_result]. rewrite Hx. cbn. by rewrite IH. }
  induction e as [|xs IH|xs IH|x IH|p] using expression_ind'; try done.
  1,2: rewrite ?proper_disjunction, proper_connective; intros [_ H]; cbn [for_each_predicate];
    rewrite Hm by (rewrite list.Forall_forall in *; auto); done.
  intros H. cbn [for_each_predicate]. by rewrite IH.
Qed.

Lemma resolve_plain ts fuel e seen : proper (plain ts) e → resolve_impl ts fuel e seen = Some (value e).
Proof.
  intros He. apply for_each_predicate_id. eapply proper_weaken; [|exact He]. intros [l o r]. unfold plain, resolve_predicate. cbn [lhs rhs op].
  destruct l as [k|f|t|t c|d], r as [k'|f'|t'|t' c'|d']; try done; intros (Hc & Hm & Hd); unfold resolve_models, substitute; rewrite Hc;
    [destruct d' as [| | | | | | | | | | | | | |r]|destruct d as [| | | | | | | | | | | | | |r]]; try done; destruct r; try done; by rewrite Hm.
Qed.
