(* ===== verification/Evaluate.v ===== *)
(** Evaluation of an expression on the rows of a table slice: [libvast/src/evaluate.cpp], and the
    comparison of views of [libvast/include/vast/view.hpp].

    A column is the list of its values, nil where the array has a null. *)

From S2P Require Import Prelude Word Bits BitmapConcept BitmapAlgorithms BitwiseRange Bitmap Operator Order Data Types RecordType KeySuffix Ip DataOps Expression ExpressionSpec ExpressionResolve.

#[local] Set Warnings "-register-all".

(** ** Views *)

(** [operator<] of views, in both directions: containers of different size compare by it, others are
    smaller if some element is smaller than that at its place. *)
Fixpoint view_cmp (x y : data) {struct x} : bool * bool :=
  let lex (c d : bool * bool) := if c.1 || c.2 then c else d in
  let container {A} (xs ys : list A) (some : bool * bool) :=
    if (length xs =? length ys)%nat then some
    else ((length xs <? length ys)%nat, (length ys <? length xs)%nat) in
  match x, y with
  | d_list xs, d_list ys =>
      container xs ys
        ((fix go (xs ys : list data) :=
          match xs, ys with
          | x :: xs, y :: ys => let c := view_cmp x y in let r := go xs ys in (c.1 || r.1, c.2 || r.2)
          | _, _ => (false, false)
          end) xs ys)
  | d_map xs, d_map ys =>
      container xs ys
        ((fix go (xs ys : list (data * data)) :=
          match xs, ys with
          | (k, x) :: xs, (l, y) :: ys =>
              let c := lex (view_cmp k l) (view_cmp x y) in let r := go xs ys in (c.1 || r.1, c.2 || r.2)
          | _, _ => (false, false)
          end) xs ys)
  | d_record xs, d_record ys =>
      container xs ys
        ((fix go (xs ys : list (list N * data)) :=
          match xs, ys with
          | (k, x) :: xs, (l, y) :: ys =>
              let c := lex (bytes_ltb k l, bytes_ltb l k) (view_cmp x y) in let r := go xs ys in (c.1 || r.1, c.2 || r.2)
          | _, _ => (false, false)
          end) xs ys)
  | _, _ => data_cmp x y
  end.
Definition view_ltb (x y : data) : bool := (view_cmp x y).1.

(** ** Numbers *)

(** The types whose values C++ compares after conversion to a common type. *)
Inductive number := n_int (x : Z) | n_double (x : N).
Definition to_number (d : data) : option number :=
  match d with
  | d_bool b => Some (n_int (if b then 1 else 0))
  | d_int64 x => Some (n_int x)
  | d_uint64 x | d_enumeration x => Some (n_int (Z.of_N x))
  | d_double x => Some (n_double x)
  | _ => None
  end.

(** The conversion of an integer to [double], rounded to 53 bits, ties to even; in the unit of
    [fp_value], the smallest subnormal number. *)
Definition round_to_double (x : Z) : Z :=
  let m := Z.abs x in
  let k := (Z.log2 m - 52)%Z in
  if (k <=? 0)%Z then x
  else
    let q := (m / 2 ^ k)%Z in
    let r := (m mod 2 ^ k)%Z in
    let half := (2 ^ (k - 1))%Z in
    let q := if (half <? r)%Z || ((r =? half)%Z && Z.odd q) then (q + 1)%Z else q in
    (Z.sgn x * (q * 2 ^ k))%Z.
Definition int_fp_value (x : Z) : Z := (round_to_double x * 2 ^ 1074)%Z.

Definition compare_numbers (int : Z → Z → bool) (x y : number) : bool :=
  match x, y with
  | n_int x, n_int y => int x y
  | n_int x, n_double y => negb (is_nan y) && int (int_fp_value x) (fp_value y)
  | n_double x, n_int y => negb (is_nan x) && int (fp_value x) (int_fp_value y)
  | n_double x, n_double y => negb (is_nan x) && negb (is_nan y) && int (fp_value x) (fp_value y)
  end.

(** ** [cell_evaluator] *)

Module cell_evaluator.
Section cell_evaluator.
Context (regex_match regex_search : list N → list N → bool).

(** A comparison: of numbers, else of two views of one type. *)
Definition compare (numbers : Z → Z → bool) (views : data → data → bool) (lhs rhs : data) : bool :=
  match to_number lhs, to_number rhs with
  | Some x, Some y => compare_numbers numbers x y
  | _, _ => (data_index lhs =? data_index rhs) && views lhs rhs
  end.

Definition equal (lhs rhs : data) : bool :=
  match lhs, rhs with
  | d_string s, d_pattern p | d_pattern p, d_string s => regex_match p s
  | _, _ => compare Z.eqb data_eqb lhs rhs
  end.
Definition less : data → data → bool := compare Z.ltb view_ltb.
Definition less_equal : data → data → bool := compare Z.leb (λ x y, negb (view_ltb y x)).
Definition greater : data → data → bool := compare Z.gtb (λ x y, view_ltb y x).
Definition greater_equal : data → data → bool := compare Z.geb (λ x y, negb (view_ltb x y)).

Definition in_ (lhs rhs : data) : bool :=
  match lhs, rhs with
  | d_string lhs, d_string rhs => occurs_in lhs rhs
  | d_string lhs, d_pattern rhs => regex_search rhs lhs
  | d_ip lhs, d_subnet rhs n => subnet.contains_ip (subnet.mk rhs n) lhs
  | d_subnet lhs m, d_subnet rhs n => subnet.contains (subnet.mk rhs n) (subnet.mk lhs m)
  | _, d_list rhs => existsb (equal lhs) rhs
  | _, _ => false
  end.

Definition evaluate (op : relational_operator) (lhs rhs : data) : bool :=
  match op with
  | Operator.equal => equal lhs rhs
  | not_equal => negb (equal lhs rhs)
  | Operator.less => less lhs rhs
  | Operator.less_equal => less_equal lhs rhs
  | Operator.greater => greater lhs rhs
  | Operator.greater_equal => greater_equal lhs rhs
  | Operator.in_ => in_ lhs rhs
  | not_in => negb (in_ lhs rhs)
  | ni => in_ rhs lhs
  | not_ni => negb (in_ rhs lhs)
  end.
End cell_evaluator.
End cell_evaluator.

(** ** [column_evaluator] *)

Section evaluate.
Context {ids : Type} `{StrictRange ids}.
Context (regex_match regex_search : list N → list N → bool).
#[local] Abbreviation cell_evaluate := (cell_evaluator.evaluate regex_match regex_search).

Definition cell (array : list data) (row : N) : data := default d_none (array !! N.to_nat row).

(** The loop over the selection: a row is skipped, or zeros are appended up to the row and then its bit,
    if it has one. *)
Definition evaluate_rows (bit : data → option (option bool)) (offset : N) (array : list data) (selection : ids) : ids :=
  let result := foldl (λ result id,
      match bit (cell array (id -u offset)) with
      | None => result
      | Some b =>
          let result := bm_append_bits result false (id -u bm_size result) in
          match b with Some b => bm_append_bit result b | None => result end
      end) bm_nil (select_range.select_ids true selection) in
  bm_append_bits result false ((offset + lenN array) -u bm_size result).

Definition evaluate_cells (test : data → bool) : N → list data → ids → ids :=
  evaluate_rows (λ x, if is_none x then None else Some (Some (test x))).

(** The specialisations by operator, type and value. *)
Definition column_evaluate (op : relational_operator) (t : type) (rhs : data)
    (offset : N) (array : list data) (selection : ids) : ids :=
  match op, type.resolve_transparent t, rhs with
  | equal, _, d_none => evaluate_rows (λ x, if is_none x then Some (Some true) else None) offset array selection
  | not_equal, _, d_none => evaluate_rows (λ x, if is_none x then None else Some (Some true)) offset array selection
  | _, _, d_none => bitmap_base.make (offset + lenN array) false
  | equal, t_string, d_pattern p =>
      evaluate_rows (λ x, match x with d_string s => Some (if regex_match p s then Some true else None) | _ => None end)
        offset array selection
  | not_equal, t_string, d_pattern p =>
      evaluate_rows (λ x, match x with d_string s => Some (if regex_match p s then None else Some true) | _ => None end)
        offset array selection
  | _, t_enumeration fields, d_string s =>
      match type.resolve fields s with
      | Some key => evaluate_cells (λ x, cell_evaluate op x (d_enumeration key)) offset array selection
      | None => bitmap_base.make (offset + lenN array) false
      end
  | _, _, _ => evaluate_cells (λ x, cell_evaluate op x rhs) offset array selection
  end.

(** ** [evaluate] *)

(** The parts of a table slice that are read: its schema, values, metadata and number of rows. *)
Context (schema : list field) (schema_name : list N) (columns : list (list data)) (import_time : Z).
Context (offset num_rows : N).

Definition evaluate_meta_extractor (kind : meta_kind) (op : relational_operator) (rhs : data) : bool :=
  match kind with
  | meta_type => cell_evaluate op (d_string schema_name) rhs
  | meta_import_time => cell_evaluate op (d_time import_time) rhs
  end.

(** [evaluate_predicate]; [None] is the call of [die] for a predicate that is not bound, and an access
    to a column that does not exist. *)
Definition evaluate_predicate (p : predicate) (selection : ids) : option ids :=
  match lhs p, rhs p with
  | meta_extractor kind, o_data rhs =>
      Some (if negb (bitmap_algorithms.any true selection) then selection
            else if evaluate_meta_extractor kind (op p) rhs then selection
            else bitmap_base.make (offset + num_rows) false)
  | data_extractor _ column, o_data rhs =>
      if negb (bitmap_algorithms.any true selection) then Some (bitmap_base.make (offset + num_rows) false)
      else
        index ← record_type.resolve_flat_index schema column;
        f ← record_type.field_at schema index;
        array ← columns !! N.to_nat column;
        Some (column_evaluate (op p) f.2 rhs offset array selection)
  | _, _ => None
  end.

Fixpoint evaluate_expression (e : expression) (selection : ids) {struct e} : option ids :=
  match e with
  | e_none => Some (bitmap_base.make (offset + num_rows) false)
  | negation x =>
      r ← evaluate_expression x selection; Some (bitmap_algorithms.binary_xor selection r)
  | conjunction xs =>
      (fix go xs selection :=
        match xs with
        | [] => Some selection
        | x :: xs =>
            if negb (bitmap_algorithms.any true selection) then Some selection
            else r ← evaluate_expression x selection; go xs r
        end) xs selection
  | disjunction xs =>
      (fix go xs (mask : ids) :=
        match xs with
        | [] => Some (bitmap_algorithms.binary_and selection (bitmap_base.complement mask))
        | x :: xs =>
            if negb (bitmap_algorithms.any true mask) then Some selection
            else r ← evaluate_expression x mask; go xs (bitmap_algorithms.binary_and mask (bitmap_base.complement r))
        end) xs selection
  | e_predicate p => evaluate_predicate p selection
  end.

(** The loop over the hints. *)
Fixpoint select_hints (hints : list N) (selection : ids) : ids :=
  match hints with
  | [] => selection
  | hint :: hints =>
      if hint <? offset then select_hints hints selection
      else if offset + num_rows <=? hint then selection
      else select_hints hints (bm_append_bit (bm_append_bits selection false (hint -u bm_size selection)) true)
  end.
Definition initial_selection (hints : ids) : ids :=
  let selection := bm_append_bits bm_nil false offset in
  if bitmap_base.empty hints then bm_append_bits selection true num_rows
  else
    let selection := select_hints (select_range.select_ids true hints) selection in
    bm_append_bits selection false ((offset + num_rows) -u bm_size selection).
Definition evaluate (e : expression) (hints : ids) : option ids := evaluate_expression e (initial_selection hints).
End evaluate.

(** ** What a bitmap of IDs stands for *)

Section represents.
Context {ids : Type} `{StrictRange ids}.
Implicit Types (r : ids) (n : N) (f : N → bool).

(** A bitmap of [n] bits, where [f] tells which are set. *)
Definition represents r n f : Prop :=
  bm_wf r ∧ lenN (bm_list r) = n ∧ ∀ i, bit_at (bm_list r) (N.to_nat i) = (i <? n) && f i.

Lemma represents_ext r n f g : represents r n f → (∀ i, i < n → f i = g i) → represents r n g.
Proof.
  intros (Hw & Hn & Hf) Hfg. split_and!; [done..|]. intros i. rewrite Hf. destruct (N.ltb_spec i n); [|done]. cbn. auto.
Qed.

Lemma represents_max r n f : represents r n f → n <= max_size.
Proof. intros (Hw & <- & _). by apply bm_max. Qed.

Lemma represents_size r n f : represents r n f → bm_size r = n.
Proof. intros (Hw & <- & _). by apply bm_size_spec. Qed.

Lemma make_represents n b : n <= max_size → represents (bitmap_base.make (B:=ids) n b) n (λ _, b).
Proof.
  intros Hn. destruct (bitmap_make_spec (B:=ids) n b Hn) as [Hw Hl]. split_and!; [done|by rewrite Hl, lenN_reps|].
  intros i. rewrite Hl, bit_at_reps, N2Nat.id. apply andb_comm.
Qed.

Lemma append_bits_represents r n f b k : represents r n f → n + k <= max_size →
  represents (bm_append_bits r b k) (n + k) (λ i, if i <? n then f i else b).
Proof.
  intros (Hw & Hn & Hf) Hk. destruct (bm_append_bits_spec r b k Hw) as [Hw' Hl]; [by rewrite Hn|].
  split_and!; [done|rewrite Hl; autorewrite with lendb; lia|]. intros i. rewrite Hl, bit_at_app, bit_at_reps, Hf.
  assert (length (bm_list r) = N.to_nat n) as Hlen by (unfold lenN in Hn; lia). rewrite Hlen.
  destruct (N.ltb_spec i n); [rewrite decide_True by lia|rewrite decide_False by lia].
  - by rewrite (proj2 (N.ltb_lt _ _)) by lia.
  - rewrite andb_comm. f_equal. destruct (N.ltb_spec (N.of_nat (N.to_nat i - N.to_nat n)) k), (N.ltb_spec i (n + k)); lia.
Qed.

Lemma append_bit_represents r n f b : represents r n f → n + 1 <= max_size →
  represents (bm_append_bit r b) (n + 1) (λ i, if i <? n then f i else b).
Proof.
  intros Hr Hk. pose proof Hr as (Hw & Hn & _). destruct (append_bits_represents r n f b 1 Hr Hk) as (_ & Hn' & Hf').
  destruct (bm_append_bits_spec r b 1 Hw) as [_ Hl]; [by rewrite Hn|].
  destruct (bm_append_bit_spec r b Hw) as [Hw' Hl']; [by rewrite Hn|]. unfold represents.
  assert (bm_list (bm_append_bit r b) = bm_list (bm_append_bits r b 1)) as E by (by rewrite Hl, Hl'). by rewrite E.
Qed.

(** Appends the bit of one ID behind zeros. *)
Lemma append_id_represents r n f id b : represents r n f → n <= id → id + 1 <= max_size →
  represents (bm_append_bit (bm_append_bits r false (id -u bm_size r)) b) (id + 1)
    (λ i, if i <? n then f i else (i =? id) && b).
Proof.
  intros Hr Hn Hid. pose proof (represents_size _ _ _ Hr) as ->. rewrite usub_small by (unfold max_size in Hid; lia).
  pose proof (append_bits_represents r n f false (id - n) Hr ltac:(lia)) as K1. replace (n + (id - n)) with id in K1 by lia.
  eapply represents_ext; [exact (append_bit_represents _ _ _ b K1 Hid)|]. intros i Hi. cbn.
  destruct (N.ltb_spec i id), (N.eqb_spec i id); try lia; [done|]. by rewrite (proj2 (N.ltb_ge _ _)) by lia.
Qed.

Lemma represents_any r n f : represents r n f → bitmap_algorithms.any true r = true ↔ ∃ i, i < n ∧ f i = true.
Proof.
  intros (Hw & Hn & Hf). rewrite any_spec by done. rewrite bool_decide_eq_true, list_elem_of_lookup. split.
  - intros [i Hi]. exists (N.of_nat i). specialize (Hf (N.of_nat i)). rewrite Nat2N.id in Hf. unfold bit_at in Hf. rewrite Hi in Hf. cbn in Hf.
    symmetry in Hf. apply andb_true_iff in Hf as [Hi'%N.ltb_lt ?]. auto.
  - intros (i & Hi & Hfi). exists (N.to_nat i). rewrite lookup_bit_at by (unfold lenN in Hn; lia). rewrite Hf, Hfi.
    by rewrite (proj2 (N.ltb_lt _ _)).
Qed.

Lemma represents_none r n f : represents r n f → bitmap_algorithms.any true r = false → ∀ i, i < n → f i = false.
Proof.
  intros Hr Ha i Hi. apply not_true_is_false. intros Hfi.
  assert (bitmap_algorithms.any true r = true) by (rewrite represents_any by done; by exists i). congruence.
Qed.

Lemma represents_pad_eval r1 r2 r n f g h : bm_wf r → bm_list r = pad_eval h (bm_list r1) (bm_list r2) → h false false = false →
  represents r1 n f → represents r2 n g → represents r n (λ i, h (f i) (g i)).
Proof.
  intros Hw Hl Hh (_ & Hn1 & Hf) (_ & Hn2 & Hg). split_and!; [done| |].
  - unfold lenN in *. rewrite Hl, length_pad_eval. lia.
  - intros i. rewrite Hl, bit_at_pad_eval, Hf, Hg by done. by destruct (i <? n).
Qed.

Lemma represents_and r1 r2 n f g : represents r1 n f → represents r2 n g →
  represents (bitmap_algorithms.binary_and (R:=ids) r1 r2) n (λ i, f i && g i).
Proof.
  intros K1 K2. destruct (binary_and_spec (R:=ids) r1 r2) as [Hw Hl]; [apply K1|apply K2|]. by eapply (represents_pad_eval _ _ _ _ _ _ andb).
Qed.

Lemma represents_xor r1 r2 n f g : represents r1 n f → represents r2 n g →
  represents (bitmap_algorithms.binary_xor (R:=ids) r1 r2) n (λ i, xorb (f i) (g i)).
Proof.
  intros K1 K2. destruct (binary_xor_spec (R:=ids) r1 r2) as [Hw Hl]; [apply K1|apply K2|]. by eapply (represents_pad_eval _ _ _ _ _ _ xorb).
Qed.

Lemma represents_complement r n f : represents r n f → represents (bitmap_base.complement r) n (λ i, negb (f i)).
Proof.
  intros (Hw & Hn & Hf). unfold bitmap_base.complement. destruct (bm_flip_spec r Hw) as [Hw' Hl]. split_and!; [done| |].
  - rewrite Hl. unfold lenN in *. by rewrite length_fmap.
  - intros i. specialize (Hf i). unfold bit_at in *. rewrite Hl, list_lookup_fmap. destruct (N.ltb_spec i n) as [Hi|Hi].
    + destruct (lookup_lt_is_Some_2 (bm_list r) (N.to_nat i)) as [b Hb]; [unfold lenN in Hn; lia|]. rewrite Hb in Hf |- *.
      cbn in *. by rewrite Hf.
    + by rewrite lookup_ge_None_2 by (unfold lenN in Hn; lia).
Qed.

(** ** Loops over the IDs of a bitmap *)

(** The bit of a row. *)
Definition row_bit (b : option (option bool)) : bool := match b with Some (Some b) => b | _ => false end.

(** A loop that appends zeros and a bit, only zeros, or nothing, for the IDs of a bitmap. *)
Definition append_ids (bit : N → option (option bool)) r (xs : list N) : ids :=
  foldl (λ r id, match bit id with
                 | None => r
                 | Some b => let r := bm_append_bits r false (id -u bm_size r) in match b with Some b => bm_append_bit r b | None => r end
                 end) r xs.

(** Zeros up to a size. *)
Lemma fill_represents r m f n : represents r m f → m <= n → n <= max_size →
  represents (bm_append_bits r false (n -u bm_size r)) n (λ i, (i <? m) && f i).
Proof.
  intros Hr Hm Hn. pose proof (represents_size _ _ _ Hr) as ->. rewrite usub_small by (unfold max_size in Hn; lia).
  pose proof (append_bits_represents r m f false (n - m) Hr ltac:(lia)) as K1. replace (m + (n - m)) with n in K1 by lia.
  eapply represents_ext; [exact K1|]. intros i _. cbn. by destruct (i <? m).
Qed.

Lemma append_ids_represents bit l p r m f : represents r m f → m <= p → p + lenN l <= max_size →
  ∃ m', m' <= p + lenN l ∧ m <= m' ∧
  represents (append_ids bit r (positions_from p true l)) m'
    (λ i, if i <? m then f i else (p <=? i) && bit_at l (N.to_nat (i - p)) && row_bit (bit i)) ∧
  ∀ i, m' <= i → (p <=? i) && bit_at l (N.to_nat (i - p)) && row_bit (bit i) = false.
Proof.
  revert p r m f. induction l as [|x l IH]; intros p r m f Hr Hm Hmax; cbn [positions_from].
  { exists m. rewrite lenN_nil. split_and!; [lia|lia| |intros i _; by rewrite andb_false_r].
    eapply represents_ext; [exact Hr|]. intros i Hi. by rewrite (proj2 (N.ltb_lt _ _)). }
  rewrite lenN_cons in Hmax |- *.
  assert (∀ i, p + 1 <= i → bit_at (x :: l) (N.to_nat (i - p)) = bit_at l (N.to_nat (i - (p + 1)))) as Hsh.
  { intros i Hi. replace (N.to_nat (i - p)) with (S (N.to_nat (i - (p + 1)))) by lia. done. }
  assert (∀ i, i ≠ p → (p <=? i) && bit_at (x :: l) (N.to_nat (i - p)) && row_bit (bit i) =
    (p + 1 <=? i) && bit_at l (N.to_nat (i - (p + 1))) && row_bit (bit i)) as Hne.
  { intros i Hi. destruct (N.leb_spec p i), (N.leb_spec (p + 1) i); try lia; try done. by rewrite Hsh. }
  assert ((p <=? p) && bit_at (x :: l) (N.to_nat (p - p)) && row_bit (bit p) = x && row_bit (bit p)) as Heq.
  { rewrite N.leb_refl, N.sub_diag. done. }
  assert ((p + 1 <=? p) = false) as Hp1 by (apply N.leb_gt; lia).
  destruct (eqb x true && match bit p with Some _ => true | None => false end) eqn:Eb.
  - apply andb_true_iff in Eb as [->%eqb_prop Eb]. cbn [eqb append_ids foldl]. destruct (bit p) as [[b|]|] eqn:Ep; [| |done].
    2: { pose proof (fill_represents r m f p Hr Hm ltac:(lia)) as Hr'.
      destruct (IH (p + 1) _ _ _ Hr' ltac:(lia) ltac:(lia)) as (m' & K1 & K2 & K3 & K4). exists m'. split_and!; [lia|lia| |].
      + eapply represents_ext; [exact K3|]. intros i Hi. cbv beta. destruct (N.ltb_spec i p), (N.ltb_spec i m); try lia; [done|..].
        * by rewrite (proj2 (N.leb_gt _ _)) by lia.
        * destruct (N.eq_dec i p) as [->|Hip]; [by rewrite Ep, Heq, Hp1|by rewrite Hne].
      + intros i Hi. destruct (N.eq_dec i p) as [->|Hip]; [by rewrite Ep, Heq|]. rewrite Hne by done. by apply K4. }
    pose proof (append_id_represents r m f p b Hr Hm ltac:(lia)) as Hr'.
    destruct (IH (p + 1) _ _ _ Hr' ltac:(lia) ltac:(lia)) as (m' & K1 & K2 & K3 & K4). exists m'. split_and!; [lia|lia| |].
    + eapply represents_ext; [exact K3|]. intros i Hi. cbn. destruct (N.ltb_spec i (p + 1)), (N.ltb_spec i m); try lia; [done|..].
      * destruct (N.eqb_spec i p) as [->|Hip]; [by rewrite Ep, Heq|]. rewrite Hne by done. by rewrite (proj2 (N.leb_gt _ _)) by lia.
      * by rewrite Hne by lia.
    + intros i Hi. rewrite Hne by lia. by apply K4.
  - assert (append_ids bit r (if eqb x true then p :: positions_from (p + 1) true l else positions_from (p + 1) true l) =
      append_ids bit r (positions_from (p + 1) true l)) as ->.
    { destruct (eqb x true); [|done]. cbn [append_ids foldl]. by destruct (bit p) as [[]|]. }
    assert (x && row_bit (bit p) = false) as Hx by (destruct x, (bit p) as [[]|]; done).
    destruct (IH (p + 1) _ _ _ Hr ltac:(lia) ltac:(lia)) as (m' & K1 & K2 & K3 & K4). exists m'. split_and!; [lia|lia| |].
    + eapply represents_ext; [exact K3|]. intros i Hi. cbn. destruct (N.ltb_spec i m); [done|].
      destruct (decide (i = p)) as [->|Hip]; [by rewrite Heq, Hx, Hp1|by rewrite Hne].
    + intros i Hi. destruct (decide (i = p)) as [->|Hip]; [by rewrite Heq, Hx|]. rewrite Hne by done. by apply K4.
Qed.

Lemma nil_represents f : represents bm_nil 0 f.
Proof.
  destruct (bm_nil_spec (B:=ids)) as [Hw Hl]. split_and!; [done|by rewrite Hl|]. intros i. rewrite Hl.
  rewrite bit_at_ge by (cbn; lia). by rewrite (proj2 (N.ltb_ge _ _)) by lia.
Qed.
End represents.

(** ** What evaluation computes *)

Section evaluate_spec.
Context {ids : Type} `{StrictRange ids}.
Context (regex_match regex_search : list N → list N → bool).
#[local] Abbreviation cell_evaluate := (cell_evaluator.evaluate regex_match regex_search).
#[local] Abbreviation column_evaluate := (column_evaluate regex_match regex_search).
Implicit Types (selection : ids).

(** Whether the value of a row satisfies a predicate on its column. *)
Definition cell_holds (op : relational_operator) (t : type) (rhs x : data) : bool :=
  match rhs with
  | d_none => match op with equal => is_none x | not_equal => negb (is_none x) | _ => false end
  | _ =>
      negb (is_none x) &&
      match type.resolve_transparent t, rhs with
      | t_enumeration fields, d_string s =>
          match type.resolve fields s with Some key => cell_evaluate op x (d_enumeration key) | None => false end
      | _, _ => cell_evaluate op x rhs
      end
  end.

(** A column of type string holds strings. *)
Definition string_cell (t : type) (x : data) : Prop :=
  is_none x = false → type.resolve_transparent t = t_string → ∃ s, x = d_string s.

(** A selection of rows of the slice. *)
Definition selects_rows selection (offset n : N) (f : N → bool) : Prop :=
  represents selection n f ∧ ∀ i, i < n → f i = true → offset <= i.

Lemma evaluate_rows_spec bit offset array selection f : selects_rows selection offset (offset + lenN array) f →
  represents (evaluate_rows bit offset array selection) (offset + lenN array)
    (λ i, f i && row_bit (bit (cell array (i - offset)))).
Proof.
  intros [Hs Ho]. pose proof (represents_max _ _ _ Hs) as Hmax. pose proof Hs as (Hw & Hn & Hf). unfold evaluate_rows. rewrite select_ids_spec by done.
  destruct (append_ids_represents (λ id, bit (cell array (id -u offset))) (bm_list selection) 0 bm_nil 0 (λ _, false)
    (nil_represents _) ltac:(lia) ltac:(lia)) as (m & Hm & _ & Hr & Hrest). rewrite Hn in Hm.
  unfold append_ids in Hr. eapply represents_ext; [exact (fill_represents _ m _ (offset + lenN array) Hr ltac:(lia) Hmax)|].
  intros i Hi. cbv beta. specialize (Hrest i). rewrite (proj2 (N.ltb_ge i 0)) by lia.
  rewrite N.sub_0_r, Hf, (proj2 (N.ltb_lt _ _) Hi), (proj2 (N.leb_le 0 i)) in * by lia. cbn [andb] in *.
  destruct (f i) eqn:E; [|by rewrite andb_false_r]. specialize (Ho i Hi E). unfold max_size in Hmax.
  rewrite usub_small in * by lia. cbn [andb] in *. destruct (N.ltb_spec i m); [done|]. by rewrite Hrest by lia.
Qed.

Lemma evaluate_cells_spec test offset array selection f : selects_rows selection offset (offset + lenN array) f →
  represents (evaluate_cells test offset array selection) (offset + lenN array)
    (λ i, f i && (negb (is_none (cell array (i - offset))) && test (cell array (i - offset)))).
Proof.
  intros Hs. eapply represents_ext; [by apply evaluate_rows_spec|]. intros i _. cbn. by destruct (is_none _).
Qed.

Lemma no_rows_represents n f : n <= max_size → represents (bitmap_base.make (B:=ids) n false) n (λ i, f i && false).
Proof. intros Hn. eapply represents_ext; [by apply make_represents|]. intros i _. by rewrite andb_false_r. Qed.

(** All specialisations agree with the general rule. *)
Lemma column_evaluate_spec op t rhs offset array selection f :
  selects_rows selection offset (offset + lenN array) f → Forall (string_cell t) array →
  represents (column_evaluate op t rhs offset array selection) (offset + lenN array)
    (λ i, f i && cell_holds op t rhs (cell array (i - offset))).
Proof.
  intros Hs Harr. pose proof (represents_max _ _ _ (proj1 Hs)) as Hmax.
  assert (∀ i, string_cell t (cell array i)) as Hstr.
  { intros i. unfold cell. destruct (array !! N.to_nat i) as [x|] eqn:E; [by eapply Forall_lookup_1 in E|]. by cbn. }
  assert (∀ test, represents (evaluate_cells test offset array selection) (offset + lenN array)
    (λ i, f i && (negb (is_none (cell array (i - offset))) && test (cell array (i - offset))))) as Hcells by (intros; by apply evaluate_cells_spec).
  unfold Evaluate.column_evaluate, cell_holds.
  destruct rhs as [| | | | | | | | | | | | | |]; try (destruct op; try exact (Hcells _);
    destruct (type.resolve_transparent t) eqn:Et; exact (Hcells _)).
  - destruct op, (type.resolve_transparent t); try (by apply no_rows_represents);
      (eapply represents_ext; [by apply evaluate_rows_spec|]; intros i _; cbn; by destruct (is_none _)).
  - destruct op, (type.resolve_transparent t) eqn:Et; try exact (Hcells _);
      (destruct (type.resolve _ _); [exact (Hcells _)|]; eapply represents_ext; [by apply make_represents|];
       intros i _; by rewrite !andb_false_r).
  - destruct op; try exact (Hcells _); try (destruct (type.resolve_transparent t); exact (Hcells _)).
    all: destruct (type.resolve_transparent t) eqn:Et; try exact (Hcells _).
    all: eapply represents_ext; [by apply evaluate_rows_spec|]; intros i _; cbn; f_equal.
    all: specialize (Hstr (i - offset)); unfold string_cell in Hstr; destruct (cell array (i - offset)); try done.
    all: try (by destruct (Hstr eq_refl Et)). all: cbn; by destruct (regex_match _ _).
Qed.
End evaluate_spec.

Section expression_spec.
Context {ids : Type} `{StrictRange ids}.
Context (regex_match regex_search : list N → list N → bool).
Context (schema : list field) (schema_name : list N) (columns : list (list data)) (import_time : Z).
Context (offset num_rows : N).
#[local] Abbreviation evaluate_predicate :=
  (evaluate_predicate regex_match regex_search schema schema_name columns import_time offset num_rows).
#[local] Abbreviation evaluate_expression :=
  (evaluate_expression regex_match regex_search schema schema_name columns import_time offset num_rows).
#[local] Abbreviation evaluate := (evaluate regex_match regex_search schema schema_name columns import_time offset num_rows).
#[local] Abbreviation selects_rows s f := (selects_rows s offset (offset + num_rows) f).

(** A slice has a column of its size for every leaf of the schema. *)
Definition slice_wf : Prop :=
  offset + num_rows <= max_size ∧
  ∀ c l, record_type.leaves schema !! c = Some l →
    ∃ array, columns !! c = Some array ∧ lenN array = num_rows ∧ Forall (string_cell l.2.2) array.

(** Whether the row with an ID satisfies a predicate that is bound. *)
Definition row_holds (id : N) (p : predicate) : bool :=
  match lhs p, rhs p with
  | meta_extractor kind, o_data d =>
      evaluate_meta_extractor regex_match regex_search schema_name import_time kind (op p) d
  | data_extractor t c, o_data d =>
      cell_holds regex_match regex_search (op p) t d (cell (default [] (columns !! N.to_nat c)) (id - offset))
  | _, _ => false
  end.

Context (Hslice : slice_wf).

Lemma evaluate_predicate_spec p selection f : resolved schema p → selects_rows selection f →
  ∃ r, evaluate_predicate p selection = Some r ∧ represents (ids:=ids) r (offset + num_rows) (λ i, f i && row_holds i p).
Proof.
  destruct Hslice as [Hmax Hcols]. intros Hp Hs. destruct p as [l o rh]. unfold Evaluate.evaluate_predicate, row_holds, resolved in *.
  cbn [lhs op rhs] in *. destruct l as [kind|fl|t|t c|d0], rh as [| | | |d]; try done.
  - eexists. split; [done|]. destruct (bitmap_algorithms.any true selection) eqn:Ea; cbn [negb].
    + destruct (evaluate_meta_extractor _ _ _ _ _ _ _); [|by apply no_rows_represents].
      eapply represents_ext; [apply Hs|]. intros i _. by rewrite andb_true_r.
    + eapply represents_ext; [apply Hs|]. intros i Hi. by rewrite (represents_none _ _ _ (proj1 Hs) Ea i Hi).
  - destruct Hp as (l & Hl & Ht). destruct (Hcols _ _ Hl) as (array & Harr & Hlen & Hstr). rewrite Ht in Hstr.
    destruct (bitmap_algorithms.any true selection) eqn:Ea; cbn [negb].
    + rewrite resolve_flat_index_spec, Hl. cbn. destruct (leaves_field schema l) as [Hf _]; [by eapply list_elem_of_lookup_2|].
      rewrite Hf, Harr. cbn. eexists. split; [done|]. rewrite Ht, <- Hlen. apply column_evaluate_spec; [|done]. by rewrite Hlen.
    + eexists. split; [done|]. eapply represents_ext; [by apply make_represents|]. intros i Hi.
      by rewrite (represents_none _ _ _ (proj1 Hs) Ea i Hi).
Qed.

Lemma selects_rows_sub selection r f g : selects_rows selection f → represents (ids:=ids) r (offset + num_rows) (λ i, f i && g i) →
  selects_rows r (λ i, f i && g i).
Proof. intros [_ Ho] Hr. split; [done|]. intros i Hi [Hf _]%andb_true_iff. auto. Qed.

(** Rows are selected that were selected before and satisfy the expression. *)
Lemma evaluate_expression_spec e selection f : all_resolved schema e → selects_rows selection f →
  ∃ r, evaluate_expression e selection = Some r ∧
  represents (ids:=ids) r (offset + num_rows) (λ i, f i && eval (row_holds i) e).
Proof.
  pose proof (proj1 Hslice) as Hmax. revert selection f.
  induction e as [|xs IH|xs IH|x IH|p] using expression_ind'; intros selection f Hr Hs; cbn [Evaluate.evaluate_expression eval].
  - eexists. split; [done|]. by apply no_rows_represents.
  - cbn [all_resolved] in Hr. apply foldr_Forall in Hr. revert selection f Hs.
    induction IH as [|x xs Hx _ IHxs]; intros selection f Hs; cbn [forallb].
    { exists selection. split; [done|]. eapply represents_ext; [apply Hs|]. intros i _. by rewrite andb_true_r. }
    apply list.Forall_cons in Hr as [Hrx Hrs]. destruct (bitmap_algorithms.any true selection) eqn:Ea; cbn [negb].
    + destruct (Hx selection f Hrx Hs) as (r & -> & Hr). cbn [mbind option_bind].
      destruct (IHxs Hrs r _ (selects_rows_sub _ _ _ _ Hs Hr)) as (r' & -> & Hr'). exists r'. split; [done|].
      eapply represents_ext; [exact Hr'|]. intros i _. cbn. by rewrite andb_assoc.
    + exists selection. split; [done|]. eapply represents_ext; [apply Hs|]. intros i Hi.
      by rewrite (represents_none _ _ _ (proj1 Hs) Ea i Hi).
  - cbn [all_resolved] in Hr. apply foldr_Forall in Hr.
    assert (∀ mask g, selects_rows mask (λ i, f i && negb (g i)) → ∃ r,
      (fix go xs (mask : ids) :=
        match xs with
        | [] => Some (bitmap_algorithms.binary_and selection (bitmap_base.complement mask))
        | x :: xs =>
            if negb (bitmap_algorithms.any true mask) then Some selection
            else r ← evaluate_expression x mask; go xs (bitmap_algorithms.binary_and mask (bitmap_base.complement r))
        end) xs mask = Some r ∧
      represents (ids:=ids) r (offset + num_rows) (λ i, f i && (g i || existsb (eval (row_holds i)) xs))) as Hgo.
    { induction IH as [|x xs Hx _ IHxs]; intros mask g Hm; cbn [existsb].
      { eexists. split; [done|]. eapply represents_ext; [apply represents_and; [apply Hs|apply represents_complement, Hm]|].
        intros i _. cbn. by destruct (f i), (g i). }
      apply list.Forall_cons in Hr as [Hrx Hrs]. destruct (bitmap_algorithms.any true mask) eqn:Ea; cbn [negb].
      - destruct (Hx mask _ Hrx Hm) as (r & -> & Hr). cbn [mbind option_bind].
        destruct (IHxs Hrs (bitmap_algorithms.binary_and mask (bitmap_base.complement r)) (λ i, g i || eval (row_holds i) x)) as (r' & -> & Hr').
        { split; [|intros i Hi [Hf _]%andb_true_iff; by apply Hs]. eapply represents_ext; [apply represents_and; [apply Hm|apply represents_complement, Hr]|].
          intros i _. cbn. by destruct (f i), (g i), (eval (row_holds i) x). }
        exists r'. split; [done|]. eapply represents_ext; [exact Hr'|]. intros i _. cbn. by rewrite orb_assoc.
      - exists selection. split; [done|]. eapply represents_ext; [apply Hs|]. intros i Hi. cbn.
        pose proof (represents_none _ _ _ (proj1 Hm) Ea i Hi) as Hn. cbn in Hn. by destruct (f i), (g i). }
    destruct (Hgo selection (λ _, false)) as (r & -> & Hr'); [|by exists r].
    split; [|intros i Hi [Hf _]%andb_true_iff; by apply Hs]. eapply represents_ext; [apply Hs|]. intros i _. cbn. by rewrite andb_true_r.
  - destruct (IH selection f Hr Hs) as (r & -> & Hr'). cbn [mbind option_bind]. eexists. split; [done|].
    eapply represents_ext; [apply represents_xor; [apply Hs|exact Hr']|]. intros i _. cbn. by destruct (f i), (eval _ x).
  - by apply evaluate_predicate_spec.
Qed.

(** ** Hints *)

Lemma select_hints_spec l p selection m f : represents (ids:=ids) selection m f → m <= N.max p offset →
  m <= offset + num_rows → offset <= m →
  ∃ m', m' <= offset + num_rows ∧ m <= m' ∧
  represents (select_hints offset num_rows (positions_from p true l) selection) m'
    (λ i, if i <? m then f i else (p <=? i) && (offset <=? i) && bit_at l (N.to_nat (i - p))) ∧
  ∀ i, m' <= i → i < offset + num_rows → (p <=? i) && (offset <=? i) && bit_at l (N.to_nat (i - p)) = false.
Proof.
  pose proof (proj1 Hslice) as Hmax.
  revert p selection m f. induction l as [|x l IH]; intros p selection m f Hr Hm Hm' Ho; cbn [positions_from].
  { exists m. split_and!; [done|done| |intros i _ _; by rewrite andb_false_r]. cbn [select_hints].
    eapply represents_ext; [exact Hr|]. intros i Hi. cbv beta. by rewrite (proj2 (N.ltb_lt _ _)). }
  assert (∀ i, i ≠ p → (p <=? i) && (offset <=? i) && bit_at (x :: l) (N.to_nat (i - p)) =
    (p + 1 <=? i) && (offset <=? i) && bit_at l (N.to_nat (i - (p + 1)))) as Hne.
  { intros i Hi. destruct (N.leb_spec p i), (N.leb_spec (p + 1) i); try lia; try done.
    replace (N.to_nat (i - p)) with (S (N.to_nat (i - (p + 1)))) by lia. done. }
  assert ((p <=? p) && (offset <=? p) && bit_at (x :: l) (N.to_nat (p - p)) = (offset <=? p) && x) as Heq by (by rewrite N.leb_refl, N.sub_diag).
  assert ((p + 1 <=? p) = false) as Hp1 by (apply N.leb_gt; lia).
  assert (x = true ∧ offset <= p ∨ (x = false ∨ p < offset)) as [[-> Hp]|Hx] by (destruct x, (N.le_gt_cases offset p); auto).
  - cbn [eqb select_hints]. rewrite (proj2 (N.ltb_ge _ _)) by lia. destruct (N.leb_spec (offset + num_rows) p) as [Hend|Hend].
    + exists m. split_and!; [done|done| |].
      * eapply represents_ext; [exact Hr|]. intros i Hi. cbv beta. by rewrite (proj2 (N.ltb_lt _ _)).
      * intros i _ Hi. by rewrite (proj2 (N.leb_gt p i)) by lia.
    + pose proof (append_id_represents selection m f p true Hr ltac:(lia) ltac:(lia)) as Hr'.
      destruct (IH (p + 1) _ _ _ Hr' ltac:(lia) ltac:(lia) ltac:(lia)) as (m' & K1 & K2 & K3 & K4). exists m'. split_and!; [lia|lia| |].
      * eapply represents_ext; [exact K3|]. intros i Hi. cbv beta. destruct (N.ltb_spec i (p + 1)), (N.ltb_spec i m); try lia; [done|..].
        -- destruct (N.eqb_spec i p) as [->|Hip]; [rewrite Heq, (proj2 (N.leb_le _ _)) by lia; done|].
           rewrite Hne by done. by rewrite (proj2 (N.leb_gt (p + 1) i)) by lia.
        -- by rewrite Hne by lia.
      * intros i Hi Hi'. rewrite Hne by lia. by apply K4.
  - assert (select_hints offset num_rows (if eqb x true then p :: positions_from (p + 1) true l else positions_from (p + 1) true l) selection =
      select_hints offset num_rows (positions_from (p + 1) true l) selection) as ->.
    { destruct x; [|done]. destruct Hx as [?|Hx]; [done|]. cbn [eqb select_hints]. by rewrite (proj2 (N.ltb_lt _ _) Hx). }
    assert ((offset <=? p) && x = false) as Hx' by (destruct Hx as [->|Hx]; [by rewrite andb_false_r|by rewrite (proj2 (N.leb_gt _ _) Hx)]).
    destruct (IH (p + 1) _ _ _ Hr ltac:(lia) ltac:(lia) ltac:(lia)) as (m' & K1 & K2 & K3 & K4). exists m'. split_and!; [lia|lia| |].
    + eapply represents_ext; [exact K3|]. intros i Hi. cbv beta. destruct (N.ltb_spec i m); [done|].
      destruct (decide (i = p)) as [->|Hip]; [by rewrite Heq, Hx', Hp1|by rewrite Hne].
    + intros i Hi Hi'. destruct (decide (i = p)) as [->|Hip]; [by rewrite Heq, Hx'|]. rewrite Hne by done. by apply K4.
Qed.
(** The rows that hints leave. *)
Definition hinted (hints : ids) (id : N) : bool :=
  (offset <=? id) && (bool_decide (bm_list hints = []) || bit_at (bm_list hints) (N.to_nat id)).

Lemma initial_selection_spec hints : bm_wf hints → selects_rows (initial_selection offset num_rows hints) (hinted hints).
Proof.
  pose proof (proj1 Hslice) as Hmax. intros Hw. split; [|intros i _ [Hi%N.leb_le _]%andb_true_iff; done].
  unfold initial_selection, hinted. rewrite bitmap_empty_spec by done.
  pose proof (append_bits_represents (ids:=ids) bm_nil 0 (λ _, false) false offset (nil_represents _) ltac:(lia)) as Hr. rewrite N.add_0_l in Hr.
  assert (represents (ids:=ids) (bm_append_bits bm_nil false offset) offset (λ _, false)) as Hr0.
  { eapply represents_ext; [exact Hr|]. intros i _. cbv beta. by destruct (i <? 0). }
  clear Hr. case_bool_decide as He.
  - eapply represents_ext; [apply append_bits_represents; [exact Hr0|done]|]. intros i _. cbv beta.
    destruct (N.ltb_spec i offset), (N.leb_spec offset i); try lia; done.
  - rewrite select_ids_spec by done. unfold positions.
    destruct (select_hints_spec (bm_list hints) 0 _ offset _ Hr0 ltac:(lia) ltac:(lia) ltac:(lia)) as (m & Hm & Hom & Hs & Hrest).
    eapply represents_ext; [exact (fill_represents _ m _ (offset + num_rows) Hs ltac:(lia) Hmax)|]. intros i Hi. cbv beta.
    specialize (Hrest i). rewrite N.sub_0_r, (proj2 (N.leb_le 0 i)) in * by lia. cbn [andb orb] in *.
    destruct (N.ltb_spec i offset), (N.leb_spec offset i); try lia; try (by rewrite andb_false_r).
    destruct (N.ltb_spec i m); [done|]. by rewrite Hrest by lia.
Qed.

(** Evaluation returns the rows of the slice that are hinted at and satisfy the expression. *)
Lemma evaluate_spec e (hints : ids) : all_resolved schema e → bm_wf hints →
  ∃ r, evaluate e hints = Some r ∧ represents r (offset + num_rows) (λ i, hinted hints i && eval (row_holds i) e).
Proof. intros Hr Hw. apply evaluate_expression_spec; [done|]. by apply initial_selection_spec. Qed.
End expression_spec.
