(* ===== verification/TableSlice.v ===== *)
(** Operations on table slices: [libvast/src/table_slice.cpp].

    The record batch of a slice belongs to Arrow: [RecordBatch] states what its documentation says
    about the values of a batch, of a slice of it and of a batch made of columns. *)

From S2P Require Import Prelude Word Bits BitmapConcept BitmapAlgorithms BitwiseRange Bitmap Operator Data Types RecordType KeySuffix Ip DataOps Expression ExpressionSpec ExpressionResolve Evaluate.

#[local] Set Warnings "-register-all".

(** ** Record batches *)

Class RecordBatchOps (batch : Type) := {
  num_rows : batch → N;
  batch_columns : batch → list (list data);
  Slice : batch → N → N → batch;
  Make : N → list (list data) → batch
}.

Class RecordBatch (batch : Type) `{RecordBatchOps batch} := {
  batch_columns_rows b : Forall (λ c, lenN c = num_rows b) (batch_columns b);
  Slice_spec b first n : first + n <= num_rows b →
    num_rows (Slice b first n) = n ∧
    batch_columns (Slice b first n) = (λ c, take (N.to_nat n) (drop (N.to_nat first) c)) <$> batch_columns b;
  Make_spec n columns : Forall (λ c, lenN c = n) columns →
    num_rows (Make n columns) = n ∧ batch_columns (Make n columns) = columns
}.

(** [invalid_id] *)
Definition invalid_id : N := 2 ^ 64 - 1.

Record table_slice (batch : Type) := mk_table_slice {
  valid : bool;
  slice_schema : type;
  to_record_batch : batch;
  offset : N;
  import_time : Z
}.
Arguments mk_table_slice {batch}.
Arguments valid {batch}.
Arguments slice_schema {batch}.
Arguments to_record_batch {batch}.
Arguments offset {batch}.
Arguments import_time {batch}.

Section operations.
Context {batch : Type} `{RecordBatchOps batch}.
Context {ids : Type} `{BitmapOps ids}.
Context (regex_match regex_search : list N → list N → bool).
#[local] Abbreviation table_slice := (table_slice batch).

(** The default constructor. *)
Definition invalid_slice : table_slice := mk_table_slice false t_none (Make 0 []) invalid_id 0.
Definition slice_rows (s : table_slice) : N := if valid s then num_rows (to_record_batch s) else 0.
Definition slice_fields (s : table_slice) : list field := default [] (record_type.as_record (slice_schema s)).

(** [offset() == invalid_id ? 0 : offset()] *)
Definition first_id (s : table_slice) : N := if offset s =? invalid_id then 0 else offset s.

(** A slice made of a part of a batch, with an offset and the import time of another slice. *)
Definition part (s : table_slice) (b : batch) (offset : N) : table_slice :=
  mk_table_slice true (slice_schema s) b offset (import_time s).

(** [evaluate(expr, slice, hints)] *)
Definition evaluate_slice (e : expression) (s : table_slice) (hints : ids) : option ids :=
  evaluate regex_match regex_search (slice_fields s) (type.name (slice_schema s)) (batch_columns (to_record_batch s))
    (import_time s) (first_id s) (slice_rows s) e hints.

(** [select]; [None] if evaluation calls [die]. *)
Definition select_part (s : table_slice) (r : N * N) : table_slice :=
  let '(first, last) := r in
  part s (Slice (to_record_batch s) (first -u first_id s) (last -u first)) (first_id s +u first).
Definition select (s : table_slice) (e : expression) (hints : ids) : option (list table_slice) :=
  let slice_ids := ids.make_ids [(first_id s, first_id s +u slice_rows s)] 0 false in
  let selection := if bitmap_base.empty hints then slice_ids else bitmap_algorithms.binary_and slice_ids hints in
  let yield (selection : ids) :=
    if bitmap_algorithms.rank true selection =? slice_rows s then [s]
    else select_part s <$> select_runs.select_runs true selection in
  if negb (bitmap_algorithms.any true selection) then Some []
  else if is_e_none e then Some (yield selection)
  else
    match tailor e (slice_fields s) (type.name (slice_schema s)) with
    | error _ => Some []
    | value tailored =>
        selection ← evaluate_slice tailored s selection;
        Some (if negb (bitmap_algorithms.any true selection) then [] else yield selection)
    end.

Definition head (s : table_slice) (n : N) : table_slice :=
  if negb (valid s) then invalid_slice
  else if slice_rows s <=? n then s
  else part s (Slice (to_record_batch s) 0 n) (offset s).

Definition tail (s : table_slice) (n : N) : table_slice :=
  if negb (valid s) then invalid_slice
  else if slice_rows s <=? n then s
  else part s (Slice (to_record_batch s) (slice_rows s - n) n) (offset s).

Definition split (s : table_slice) (partition_point : N) : table_slice * table_slice :=
  if partition_point =? 0 then (invalid_slice, s)
  else if slice_rows s <=? partition_point then (s, invalid_slice)
  else (head s partition_point, tail s (slice_rows s - partition_point)).

(** [rows] of several slices. *)
Definition rows (slices : list table_slice) : N := foldl (λ n s, n +u slice_rows s) 0 slices.

(** [concatenate]: the builder has a column for every leaf of the schema. *)
Definition append_columns (builder : list (list data)) (s : table_slice) : list (list data) :=
  zip_with app builder (batch_columns (to_record_batch s)).
Definition concatenate (slices : list table_slice) : table_slice :=
  match filter (λ s, valid s = true) slices with
  | [] => invalid_slice
  | [s] => s
  | s :: slices =>
      let builder := foldl append_columns ((λ _, []) <$> record_type.leaves (slice_fields s)) (s :: slices) in
      let n := rows (s :: slices) in
      if n =? 0 then invalid_slice else part s (Make n builder) (offset s)
  end.

Definition filter_slice (s : table_slice) (e : expression) (hints : ids) : option (option table_slice) :=
  selected ← select s e hints;
  Some (match selected with [] => None | _ => Some (concatenate selected) end).

(** [count_matching] *)
Fixpoint count_hints (s : table_slice) (xs : list N) (result : N) : N :=
  match xs with
  | [] => result
  | id :: xs =>
      if id <? first_id s then count_hints s xs result
      else if first_id s + slice_rows s <=? id then result
      else count_hints s xs (result +u 1)
  end.
Definition count_matching (s : table_slice) (e : expression) (hints : ids) : option N :=
  if expression_eqb e e_none then Some (count_hints s (select_range.select_ids true hints) 0)
  else
    match tailor e (slice_fields s) (type.name (slice_schema s)) with
    | error _ => Some 0
    | value _ => r ← evaluate_slice e s hints; Some (bitmap_algorithms.rank true r)
    end.
End operations.

(** ** IDs and rows *)

(** [n] IDs from [first]. *)
Definition ids_from (first n : N) : list N := (λ k, first + N.of_nat k) <$> seq 0 (N.to_nat n).

Lemma ids_from_0 first : ids_from first 0 = [].
Proof. done. Qed.

Lemma ids_from_succ first n : ids_from first (n + 1) = first :: ids_from (first + 1) n.
Proof.
  unfold ids_from. replace (N.to_nat (n + 1)) with (S (N.to_nat n)) by lia. cbn [seq fmap list_fmap].
  f_equal; [lia|]. rewrite <- fmap_S_seq, <- list_fmap_compose. apply list_fmap_ext. intros i k _. cbn. lia.
Qed.

Lemma ids_from_app first n m : ids_from first (n + m) = ids_from first n ++ ids_from (first + n) m.
Proof.
  revert first. induction n as [|n IH] using N.peano_ind; intros first.
  - by rewrite N.add_0_l, N.add_0_r.
  - replace (N.succ n + m) with (n + m + 1) by lia. replace (N.succ n) with (n + 1) by lia. rewrite !ids_from_succ, IH.
    cbn. do 3 f_equal. lia.
Qed.

Lemma elem_of_ids_from first n i : i ∈ ids_from first n ↔ first <= i < first + n.
Proof.
  unfold ids_from. rewrite list_elem_of_fmap. split.
  - intros (k & -> & Hk%elem_of_seq). lia.
  - intros Hi. exists (N.to_nat (i - first)). split; [lia|]. apply elem_of_seq. lia.
Qed.

Lemma length_ids_from first n : length (ids_from first n) = N.to_nat n.
Proof. unfold ids_from. by rewrite length_fmap, length_seq. Qed.

(** The IDs of the runs of a bitmap are its IDs. *)
Lemma runs_from_positions n l cur : (∀ first, cur = Some first → first <= n) →
  concat ((λ r : N * N, ids_from r.1 (r.2 - r.1)) <$> runs_from n true l cur) =
  match cur with Some first => ids_from first (n - first) | None => [] end ++ positions_from n true l.
Proof.
  revert n cur. induction l as [|x l IH]; intros n cur Hcur; cbn [runs_from positions_from].
  { destruct cur; cbn; by rewrite ?app_nil_r. }
  destruct x; cbn [eqb].
  - rewrite IH; [|intros first [= <-]; destruct cur as [f|]; cbn; [specialize (Hcur f eq_refl)|]; lia].
    destruct cur as [f|]; cbn [from_option id].
    + specialize (Hcur f eq_refl). replace (n + 1 - f) with (n - f + 1) by lia. rewrite ids_from_app, <- app_assoc. cbn [app].
      replace (f + (n - f)) with n by lia. change 1 with (0 + 1) at 1. by rewrite ids_from_succ, ids_from_0.
    + replace (n + 1 - n) with (0 + 1) by lia. by rewrite ids_from_succ, ids_from_0.
  - destruct cur as [f|]; cbn [fmap list_fmap concat fst snd]; rewrite IH by done; done.
Qed.

Lemma runs_positions l : concat ((λ r : N * N, ids_from r.1 (r.2 - r.1)) <$> runs true l) = positions true l.
Proof. unfold runs. by rewrite runs_from_positions. Qed.

Lemma runs_from_lt n bit l cur : (∀ first, cur = Some first → first < n) → Forall (λ r : N * N, r.1 < r.2) (runs_from n bit l cur).
Proof.
  revert n cur. induction l as [|x l IH]; intros n cur Hcur; cbn [runs_from].
  { destruct cur as [f|]; constructor; [by apply Hcur|constructor]. }
  destruct (eqb x bit).
  - apply IH. intros first [= <-]. destruct cur as [f|]; cbn; [specialize (Hcur f eq_refl)|]; lia.
  - destruct cur as [f|]; [constructor; [by apply Hcur|]|]; apply IH; done.
Qed.

Lemma positions_from_filter n l : positions_from n true l = filter (λ i, bit_at l (N.to_nat (i - n)) = true) (ids_from n (lenN l)).
Proof.
  revert n. induction l as [|x l IH]; intros n; [done|]. cbn [positions_from]. rewrite lenN_cons, (N.add_comm 1), ids_from_succ, IH, filter_cons.
  assert (bit_at (x :: l) (N.to_nat (n - n)) = x) as -> by (by rewrite N.sub_diag).
  assert (filter (λ i, bit_at (x :: l) (N.to_nat (i - n)) = true) (ids_from (n + 1) (lenN l)) =
    filter (λ i, bit_at l (N.to_nat (i - (n + 1))) = true) (ids_from (n + 1) (lenN l))) as ->.
  { apply filter_ext_elem. intros i Hi%elem_of_ids_from.
    replace (N.to_nat (i - n)) with (S (N.to_nat (i - (n + 1)))) by lia. done. }
  by destruct x.
Qed.

Lemma represents_positions {ids} `{StrictRange ids} (r : ids) n f : represents r n f →
  positions true (bm_list r) = filter (λ i, f i = true) (ids_from 0 n).
Proof.
  intros (_ & <- & Hf). unfold positions. rewrite positions_from_filter. apply filter_ext_elem.
  intros i Hi%elem_of_ids_from. rewrite N.sub_0_r, Hf, (proj2 (N.ltb_lt _ _)) by lia. done.
Qed.

Lemma filter_ids_from (f : N → bool) first n m : first + n <= m → (∀ i, i < m → f i = true → first <= i < first + n) →
  filter (λ i, f i = true) (ids_from 0 m) = filter (λ i, f i = true) (ids_from first n).
Proof.
  intros Hm Hf. replace m with (first + n + (m - (first + n))) by lia. rewrite !ids_from_app, !list.filter_app, !N.add_0_l.
  assert (∀ k l, k + l <= m → (first + n <= k ∨ k + l <= first) → filter (λ i, f i = true) (ids_from k l) = []) as Hnil.
  { intros k l Hl Hk. apply elem_of_nil_inv. intros i [Hi Hin%elem_of_ids_from]%list_elem_of_filter.
    specialize (Hf i ltac:(lia) Hi). lia. }
  rewrite (Hnil 0 first), (Hnil (first + n) (m - (first + n))) by lia. by rewrite app_nil_r.
Qed.

Lemma filter_full {A} (P : A → Prop) `{∀ x, Decision (P x)} xs : length (filter P xs) = length xs → filter P xs = xs.
Proof.
  induction xs as [|x xs IH]; [done|]. rewrite filter_cons. pose proof (length_filter P xs). case_decide; cbn; intros; [f_equal; apply IH; lia|lia].
Qed.

Lemma length_positions l n : lenN (positions_from n true l) = count_bit true l.
Proof.
  revert n. induction l as [|x l IH]; intros n; [done|]. cbn [positions_from]. destruct x; cbn [eqb]; rewrite ?lenN_cons, IH; done.
Qed.

(** ** What the operations select *)

Section operations_spec.
Context {batch : Type} `{RecordBatch batch}.
Context {ids : Type} `{StrictRange ids}.
Context (regex_match regex_search : list N → list N → bool).
#[local] Abbreviation table_slice := (table_slice batch).
#[local] Abbreviation select := (select (ids:=ids) regex_match regex_search).
Implicit Types (s : table_slice).

(** The events of a slice: a value for every column. *)
Definition event (b : batch) (row : N) : list data := (λ c, cell c row) <$> batch_columns b.
Definition events s : list (list data) := event (to_record_batch s) <$> ids_from 0 (slice_rows s).

Lemma cell_slice (c : list data) first n row : row < n → cell (take (N.to_nat n) (drop (N.to_nat first) c)) row = cell c (first + row).
Proof.
  intros Hr. unfold cell. rewrite lookup_take_lt, lookup_drop by lia. do 2 f_equal. lia.
Qed.

Lemma ids_from_shift k first n : ids_from (k + first) n = N.add k <$> ids_from first n.
Proof. unfold ids_from. rewrite <- list_fmap_compose. apply list_fmap_ext. intros i x _. cbn. lia. Qed.

Lemma sub_ids_from {A} (g : N → A) first k n : (λ id, g (id - first)) <$> ids_from (first + k) n = g <$> ids_from k n.
Proof. rewrite ids_from_shift, <- list_fmap_compose. apply list_fmap_ext. intros i x _. cbn. f_equal. lia. Qed.

(** The events of a part. *)
Lemma events_part s first n o : first + n <= num_rows (to_record_batch s) →
  events (part s (Slice (to_record_batch s) first n) o) = event (to_record_batch s) <$> ids_from first n.
Proof.
  intros Hn. destruct (Slice_spec (to_record_batch s) first n Hn) as [Hr Hc]. unfold events, slice_rows. cbn [part valid to_record_batch].
  rewrite Hr. replace first with (first + 0) at 2 by lia. rewrite ids_from_shift, <- list_fmap_compose.
  apply list_fmap_ext. intros i row Hi. assert (row < n) as Hrow.
  { apply list_elem_of_lookup_2, elem_of_ids_from in Hi. lia. }
  unfold event. rewrite Hc, <- list_fmap_compose. apply list_fmap_ext. intros j c _. cbn. by apply cell_slice.
Qed.

(** [head], [tail] and [split] cut a slice without losing or reordering events. *)
Lemma split_events s p : valid s = true →
  events (split s p).1 = take (N.to_nat p) (events s) ∧ events (split s p).2 = drop (N.to_nat p) (events s) ∧
  slice_schema (split s p).1 = (if p =? 0 then t_none else slice_schema s).
Proof.
  intros Hv. assert (events invalid_slice = []) as Hi by done.
  assert (length (events s) = N.to_nat (slice_rows s)) as Hl by (unfold events; by rewrite length_fmap, length_ids_from).
  unfold split. destruct (N.eqb_spec p 0) as [->|Hp]; [by rewrite take_0, drop_0|].
  destruct (N.leb_spec (slice_rows s) p) as [Hle|Hgt].
  { rewrite take_ge, drop_ge by lia. done. }
  unfold head, tail. cbn [fst snd]. rewrite Hv. cbn [negb].
  rewrite (proj2 (N.leb_gt (slice_rows s) p)), (proj2 (N.leb_gt (slice_rows s) (slice_rows s - p))) by lia.
  assert (slice_rows s = num_rows (to_record_batch s)) as Hr by (unfold slice_rows; by rewrite Hv).
  rewrite !events_part by lia. replace (slice_rows s - (slice_rows s - p)) with p by lia.
  assert (events s = (event (to_record_batch s) <$> ids_from 0 p) ++ (event (to_record_batch s) <$> ids_from p (slice_rows s - p))) as ->.
  { unfold events. rewrite <- fmap_app. change (ids_from p (slice_rows s - p)) with (ids_from (0 + p) (slice_rows s - p)).
    rewrite <- ids_from_app. do 2 f_equal. lia. }
  rewrite take_app_length', drop_app_length' by (by rewrite length_fmap, length_ids_from). done.
Qed.

(** What a slice has to be: a column of the right type for every leaf of its schema. *)
Definition table_slice_wf s : Prop :=
  valid s = true ∧ 0 < slice_rows s ∧
  slice_wf (slice_fields s) (batch_columns (to_record_batch s)) (first_id s) (slice_rows s) ∧
  length (batch_columns (to_record_batch s)) = length (record_type.leaves (slice_fields s)).

(** A slice with the schema and import time of another. *)
Definition part_of s s' : Prop :=
  valid s' = true ∧ slice_schema s' = slice_schema s ∧ import_time s' = import_time s ∧
  length (batch_columns (to_record_batch s')) = length (batch_columns (to_record_batch s)).

(** Whether an event of a slice satisfies an expression; all do if there is none. *)
Definition event_holds s (e : expression) (id : N) : bool :=
  is_e_none e ||
  match tailor e (slice_fields s) (type.name (slice_schema s)) with
  | value t => eval (row_holds regex_match regex_search (type.name (slice_schema s)) (batch_columns (to_record_batch s))
      (import_time s) (first_id s) id) t
  | error _ => false
  end.

(** Tailoring binds all predicates, as it does for expressions that are normalized and validated. *)
Definition bound s (e : expression) : Prop :=
  ∀ t, tailor e (slice_fields s) (type.name (slice_schema s)) = value t → all_resolved (slice_fields s) t.

(** The events that a selection of IDs stands for. *)
Definition selected_events s (f : N → bool) : list (list data) :=
  (λ id, event (to_record_batch s) (id - first_id s)) <$> filter (λ id, f id = true) (ids_from (first_id s) (slice_rows s)).

Lemma slice_ids_spec s : table_slice_wf s →
  selects_rows (ids.make_ids (B:=ids) [(first_id s, first_id s +u slice_rows s)] 0 false) (first_id s)
    (first_id s + slice_rows s) (N.leb (first_id s)).
Proof.
  intros (_ & Hpos & [Hmax _] & _). split; [|intros i _ Hi; by apply N.leb_le]. unfold max_size in Hmax. rewrite wrap_small by lia.
  set (n := first_id s + slice_rows s) in *.
  destruct (make_ids_bits (B:=ids) [(first_id s, n)] 0 false) as (Hw & Hn & Hb).
  { apply Forall_singleton. cbn. unfold max_size. lia. } { unfold max_size. lia. }
  rewrite bm_size_spec in Hn by done. cbn in Hn. split_and!; [done|lia|]. intros i. rewrite Hb, orb_false_r.
  unfold covered. cbn [existsb]. unfold id_in. cbn [fst snd]. rewrite orb_false_r. apply andb_comm.
Qed.

(** The slices that are yielded for a selection. *)
Lemma yield_events s (selection : ids) m f : table_slice_wf s → represents selection m f → first_id s + slice_rows s <= m →
  (∀ i, i < m → f i = true → first_id s <= i < first_id s + slice_rows s) →
  let slices := if bitmap_algorithms.rank true selection =? slice_rows s then [s]
                else select_part s <$> select_runs.select_runs true selection in
  concat (events <$> slices) = selected_events s f ∧ Forall (part_of s) slices.
Proof.
  intros (Hv & Hpos & [Hmax _] & _) Hr Hm Ho. cbv zeta. pose proof Hr as (Hw & Hn & _). unfold max_size in Hmax.
  assert (slice_rows s = num_rows (to_record_batch s)) as Hrows by (unfold slice_rows; by rewrite Hv).
  pose proof (represents_positions selection _ f Hr) as Hp. rewrite (filter_ids_from f (first_id s) (slice_rows s) m) in Hp by done.
  unfold selected_events. rewrite rank_spec by done. destruct (N.eqb_spec (count_bit true (bm_list selection)) (slice_rows s)) as [E|E].
  - rewrite <- (length_positions _ 0) in E. fold (positions true (bm_list selection)) in E. rewrite Hp in E. unfold lenN in E.
    rewrite filter_full by (rewrite length_ids_from; lia). cbn. rewrite app_nil_r. unfold events. split; [|by repeat constructor].
    by rewrite <- (sub_ids_from _ (first_id s)), N.add_0_r.
  - rewrite select_runs_spec; [|done|].
    2:{ intros Hnil. rewrite Hnil in Hn. unfold lenN in Hn. cbn in Hn. lia. }
    rewrite <- Hp, <- runs_positions. rewrite <- list_fmap_compose.
    assert (∀ r, r ∈ runs true (bm_list selection) → first_id s <= r.1 ∧ r.1 < r.2 ∧ r.2 <= first_id s + slice_rows s) as Hbound.
    { intros [a b] Hab. assert (a < b ∧ ∀ i, a <= i < b → i ∈ positions true (bm_list selection)) as [Hlt Hin].
      { split; [exact (proj1 (list.Forall_forall _ _) (runs_from_lt 0 true (bm_list selection) None ltac:(done)) (a, b) Hab)|]. intros i Hi. rewrite <- runs_positions. apply list_elem_of_In, in_concat. exists (ids_from a (b - a)).
        rewrite <- !list_elem_of_In. split; [apply list_elem_of_fmap; by exists (a, b)|apply elem_of_ids_from; lia]. }
      rewrite Hp in Hin. cbn. pose proof (Hin a ltac:(lia)) as [_ Ha%elem_of_ids_from]%list_elem_of_filter.
      pose proof (Hin (b - 1) ltac:(lia)) as [_ Hb%elem_of_ids_from]%list_elem_of_filter. lia. }
    induction (runs true (bm_list selection)) as [|[a b] rs IH]; [by split; [|constructor]|]. cbn [fmap list_fmap concat]. rewrite fmap_app.
    destruct IH as [<- IH]; [intros r Hin; apply Hbound; by apply list_elem_of_further|].
    destruct (Hbound (a, b) (list_elem_of_here _ _)) as (Ha & Hab & Hb). cbn [fst snd compose select_part] in *.
    rewrite !usub_small by lia. destruct (Slice_spec (to_record_batch s) (a - first_id s) (b - a)) as [_ Hc]; [lia|]. split.
    + f_equal. rewrite events_part by lia. rewrite <- (sub_ids_from _ (first_id s)). do 2 f_equal. lia.
    + constructor; [|done]. split_and!; try done. cbn. rewrite Hc. by rewrite length_fmap.
Qed.

(** Hints as [select] and [evaluate] read them: an empty bitmap is no hint. *)
Definition allowed (hints : ids) (id : N) : bool :=
  bool_decide (bm_list hints = []) || bit_at (bm_list hints) (N.to_nat id).

Lemma initial_ids_spec s (hints : ids) : table_slice_wf s → bm_wf hints →
  let slice_ids := ids.make_ids [(first_id s, first_id s +u slice_rows s)] 0 false in
  let selection := if bitmap_base.empty hints then slice_ids else bitmap_algorithms.binary_and slice_ids hints in
  bm_wf selection ∧ first_id s + slice_rows s <= lenN (bm_list selection) ∧
  ∀ i, bit_at (bm_list selection) (N.to_nat i) = (first_id s <=? i) && (i <? first_id s + slice_rows s) && allowed hints i.
Proof.
  intros Hs Hw. pose proof (slice_ids_spec s Hs) as [(Hw1 & Hn1 & Hf1) _]. destruct Hs as (_ & Hpos & _). cbn zeta.
  set (slice_ids := ids.make_ids _ _ _) in *. unfold allowed. rewrite bitmap_empty_spec by done.
  case_bool_decide as He; cbn [orb].
  - split_and!; [done|lia|]. intros i. rewrite Hf1, andb_true_r. apply andb_comm.
  - destruct (binary_and_spec (R:=ids) slice_ids hints Hw1 Hw) as [Hw2 Hl2]. split_and!; [done| |].
    + rewrite Hl2. unfold lenN in *. rewrite length_pad_eval. lia.
    + intros i. rewrite Hl2, bit_at_pad_eval, Hf1 by done. by rewrite (andb_comm (i <? _)).
Qed.

(** A selection that has no ID selects no event. *)
Lemma selected_none s f : (∀ i, first_id s <= i < first_id s + slice_rows s → f i = false) → selected_events s f = [].
Proof.
  intros Hf. unfold selected_events. assert (filter (λ id, f id = true) (ids_from (first_id s) (slice_rows s)) = []) as ->; [|done].
  apply elem_of_nil_inv. intros i [Hi Hin%elem_of_ids_from]%list_elem_of_filter. rewrite Hf in Hi by lia. done.
Qed.

Lemma selected_ext s f g : (∀ i, first_id s <= i < first_id s + slice_rows s → f i = g i) → selected_events s f = selected_events s g.
Proof. intros Hfg. unfold selected_events. f_equal. apply filter_ext_elem. intros i Hi%elem_of_ids_from. by rewrite Hfg. Qed.

(** [select] yields the events that the hints allow and that satisfy the expression, in order. *)
Lemma select_slices_spec s e (hints : ids) : table_slice_wf s → bm_wf hints → bound s e →
  ∃ slices, select s e hints = Some slices ∧
  concat (events <$> slices) = selected_events s (λ id, allowed hints id && event_holds s e id) ∧ Forall (part_of s) slices.
Proof.
  intros Hs Hw Hb. destruct (initial_ids_spec s hints Hs Hw) as (Hw0 & Hlen & Hf0). unfold TableSlice.select. cbn zeta in *.
  set (selection := if bitmap_base.empty hints then _ else _) in *.
  pose proof Hs as (_ & Hpos & [Hmax _] & _).
  assert (bm_list selection ≠ []) as Hne by (intros E; rewrite E in Hlen; unfold lenN in Hlen; cbn in Hlen; lia).
  assert (∀ i, first_id s <= i < first_id s + slice_rows s → bit_at (bm_list selection) (N.to_nat i) = allowed hints i) as Hin.
  { intros i Hi. rewrite Hf0, (proj2 (N.leb_le _ _)), (proj2 (N.ltb_lt _ _)) by lia. done. }
  rewrite any_spec by done. destruct (bool_decide (true ∈ bm_list selection)) eqn:Ea; cbn [negb].
  2:{ apply bool_decide_eq_false in Ea. eexists. split; [done|]. split; [|constructor]. cbn. symmetry. apply selected_none. intros i Hi.
    rewrite <- Hin by done. unfold bit_at. destruct (bm_list selection !! N.to_nat i) as [[]|] eqn:E; [|done..].
    exfalso. apply Ea. by eapply list_elem_of_lookup_2. }
  destruct (is_e_none e) eqn:En.
  { eexists. split; [done|].
    destruct (yield_events s selection (lenN (bm_list selection)) (λ i, bit_at (bm_list selection) (N.to_nat i)) Hs) as [Hy Hpart].
    4:{ split; [|done]. rewrite Hy. apply selected_ext. intros i Hi. unfold event_holds. rewrite En, Hin by done. cbn. by rewrite andb_true_r. }
    - split_and!; [done..|]. intros i. destruct (N.ltb_spec i (lenN (bm_list selection))); [done|]. apply bit_at_ge. unfold lenN in *. lia.
    - done.
    - intros i _. rewrite Hf0, !andb_true_iff, N.leb_le, N.ltb_lt. by intros [[? ?] _]. }
  unfold bound in Hb. destruct (tailor e _ _) as [t|er] eqn:Et.
  2:{ eexists. split; [done|]. split; [|constructor]. cbn. symmetry. apply selected_none. intros i Hi. unfold event_holds. rewrite En, Et. by rewrite andb_false_r. }
  destruct (evaluate_spec regex_match regex_search (slice_fields s) (type.name (slice_schema s)) (batch_columns (to_record_batch s))
    (import_time s) (first_id s) (slice_rows s) (proj1 (proj2 (proj2 Hs))) t selection (Hb t eq_refl) Hw0) as (r & Hr & Hrep).
  unfold evaluate_slice. rewrite Hr. cbn [mbind option_bind]. eexists. split; [done|].
  assert (selected_events s (λ id, allowed hints id && event_holds s e id) = selected_events s (λ i, hinted (first_id s) selection i &&
    eval (row_holds regex_match regex_search (type.name (slice_schema s)) (batch_columns (to_record_batch s)) (import_time s) (first_id s) i) t)) as ->.
  { apply selected_ext. intros i Hi. unfold hinted, event_holds. rewrite En, Et, Hin by done. cbn [orb].
    rewrite (proj2 (N.leb_le _ _)), bool_decide_eq_false_2 by (done || lia). done. }
  destruct (bitmap_algorithms.any true r) eqn:Er; cbn [negb].
  { eapply yield_events; [done|exact Hrep|done|]. intros i Hi [[Hi'%N.leb_le _]%andb_true_iff _]%andb_true_iff. done. }
  split; [|constructor]. symmetry. apply selected_none. intros i Hi. by rewrite (represents_none _ _ _ Hrep Er i) by lia.
Qed.

(** ** Concatenation *)

(** The rows of columns. *)
Definition rows_of (columns : list (list data)) (n : N) : list (list data) := (λ r, (λ c, cell c r) <$> columns) <$> ids_from 0 n.

Lemma rows_of_app cs ds n m : length cs = length ds → Forall (λ c, lenN c = n) cs → Forall (λ c, lenN c = m) ds →
  rows_of (zip_with app cs ds) (n + m) = rows_of cs n ++ rows_of ds m.
Proof.
  intros Hl Hn Hm. unfold rows_of. rewrite ids_from_app, fmap_app, N.add_0_l. f_equal.
  - apply list_fmap_ext. intros k r Hr%list_elem_of_lookup_2%elem_of_ids_from. revert ds Hl Hm. induction Hn as [|c cs Hc _ IH]; intros [|d ds] Hl Hm; try done.
    apply list.Forall_cons in Hm as [_ Hm]. cbn [zip_with fmap list_fmap]. f_equal; [|apply IH; [by injection Hl|done]].
    unfold cell. unfold lenN in Hc. by rewrite lookup_app_l by lia.
  - replace n with (n + 0) at 1 by lia. rewrite ids_from_shift, <- list_fmap_compose. apply list_fmap_ext. intros k r _. cbn.
    revert ds Hl Hm. induction Hn as [|c cs Hc _ IH]; intros [|d ds] Hl Hm; try done.
    apply list.Forall_cons in Hm as [_ Hm]. cbn [zip_with fmap list_fmap]. f_equal; [|apply IH; [by injection Hl|done]].
    unfold cell. unfold lenN in Hc. rewrite lookup_app_r by lia. do 2 f_equal. lia.
Qed.

Lemma append_columns_spec slices builder n : Forall (λ s, valid s = true ∧ length (batch_columns (to_record_batch s)) = length builder) slices →
  Forall (λ c, lenN c = n) builder → (n + foldr (λ s m, slice_rows s + m) 0 slices < 2 ^ 64)%N →
  let columns := foldl append_columns builder slices in
  let total := foldl (λ n s, n +u slice_rows s) n slices in
  total = n + foldr (λ s m, slice_rows s + m) 0 slices ∧ Forall (λ c, lenN c = total) columns ∧
  rows_of columns total = rows_of builder n ++ concat (events <$> slices).
Proof.
  intros Hs. revert builder n Hs. induction slices as [|s slices IH]; intros builder n Hs Hb Hn; cbn [foldl foldr] in *.
  { rewrite N.add_0_r. cbn. by rewrite app_nil_r. }
  apply list.Forall_cons in Hs as [[Hv Hl] Hs].
  assert (Forall (λ c, lenN c = slice_rows s) (batch_columns (to_record_batch s))) as Hc.
  { unfold slice_rows. rewrite Hv. apply batch_columns_rows. }
  rewrite wrap_small by lia. assert (length (append_columns builder s) = length builder) as Hlen.
  { unfold append_columns. rewrite length_zip_with. lia. }
  destruct (IH (append_columns builder s) (n + slice_rows s)) as (I1 & I2 & I3); [by rewrite Hlen| |lia|].
  { unfold append_columns. clear -Hb Hc Hl. revert Hl Hc. generalize (batch_columns (to_record_batch s)) as ds. induction Hb as [|c cs Hc _ IH]; intros [|d ds] Hl Hd; try done; [constructor..|].
    apply list.Forall_cons in Hd as [Hd Hds]. cbn [zip_with]. constructor; [rewrite lenN_app; lia|apply IH; [by injection Hl|done]]. }
  split_and!; [lia|done|]. rewrite I3. unfold append_columns. rewrite rows_of_app by done. by rewrite <- app_assoc.
Qed.

(** Concatenation puts the events of the slices one behind the other. *)
Lemma concatenate_events s slices : length (batch_columns (to_record_batch s)) = length (record_type.leaves (slice_fields s)) →
  Forall (part_of s) slices → foldr (λ s m, slice_rows s + m) 0 slices < 2 ^ 64 →
  events (concatenate slices) = concat (events <$> slices).
Proof.
  intros Hs Hp Hn. unfold concatenate.
  assert (filter (λ s, valid s = true) slices = slices) as ->.
  { clear -Hp. induction Hp as [|x xs [Hx _] _ IH]; [done|]. rewrite filter_cons, decide_True, IH by done. done. }
  destruct slices as [|s1 [|s2 rest]]; [done|cbn; by rewrite app_nil_r|].
  assert (slice_fields s1 = slice_fields s) as Hf by (apply list.Forall_cons in Hp as [(_ & Hsc & _) _]; unfold slice_fields; by rewrite Hsc).
  set (builder := (λ _, []) <$> record_type.leaves (slice_fields s1)).
  destruct (append_columns_spec (s1 :: s2 :: rest) builder 0) as (H1' & H2' & H3').
  { eapply list.Forall_impl; [exact Hp|]. intros x (Hx & _ & _ & Hl). split; [done|]. unfold builder. rewrite length_fmap, Hf. lia. }
  { apply Forall_fmap, Forall_true. done. } { done. }
  unfold rows. set (n := foldl _ 0 _) in *. set (cols := foldl append_columns _ _) in *.
  destruct (N.eqb_spec n 0) as [E|E].
  - rewrite E in H3'. unfold rows_of in H3'. rewrite !ids_from_0, app_nil_l in H3'. by rewrite <- H3'.
  - destruct (Make_spec n cols H2') as [Hr Hc]. unfold events at 1. unfold slice_rows. cbn [part valid to_record_batch]. unfold event.
    rewrite Hr, Hc. fold (rows_of cols n). rewrite H3'. done.
Qed.

(** [filter] makes one slice of the events that match, or none. *)
Lemma filter_spec s e (hints : ids) : table_slice_wf s → bm_wf hints → bound s e →
  ∃ r, filter_slice regex_match regex_search s e hints = Some r ∧
  from_option events [] r = selected_events s (λ id, allowed hints id && event_holds s e id).
Proof.
  intros Hs Hw Hb. destruct (select_slices_spec s e hints Hs Hw Hb) as (slices & Hsel & He & Hp). unfold filter_slice. rewrite Hsel. cbn [mbind option_bind].
  destruct slices as [|s1 slices]; [by eexists|]. eexists. split; [done|]. cbn [from_option].
  rewrite (concatenate_events s); [done|apply Hs|done|].
  assert (∀ xs : list table_slice, N.of_nat (length (concat (events <$> xs))) = foldr (λ s m, slice_rows s + m) 0 xs) as Hlen.
  { induction xs as [|x xs IH]; [done|]. cbn [fmap list_fmap concat foldr]. rewrite length_app. unfold events at 1.
    rewrite length_fmap, length_ids_from. lia. }
  rewrite <- Hlen, He. unfold selected_events. rewrite length_fmap.
  pose proof (length_filter (λ id, allowed hints id && event_holds s e id = true) (ids_from (first_id s) (slice_rows s))) as Hle.
  rewrite length_ids_from in Hle. destruct Hs as (_ & _ & [Hmax _] & _). unfold max_size in Hmax. lia.
Qed.
End operations_spec.
