(* ===== verification/Synopsis.v ===== *)
(** Synopses, which tell whether a column can have a match: [libvast/include/vast/min_max_synopsis.hpp],
    [libvast/src/time_synopsis.cpp], [libvast/src/bool_synopsis.cpp],
    [libvast/include/vast/bloom_filter.hpp], [libvast/include/vast/hash/hasher.hpp],
    [libvast/include/vast/bloom_filter_synopsis.hpp] and [libvast/include/vast/buffered_synopsis.hpp].

    The bits of a Bloom filter are the list of bits that its [bitvector] stands for. *)

From S2P Require Import Prelude Operator Data Types Ip DataOps.

#[local] Set Warnings "-register-all".

(** The element type of a Bloom filter synopsis. *)
Inductive element := el_string | el_ip.
Definition is_element (el : element) (d : data) : bool :=
  match el, d with el_string, d_string _ | el_ip, d_ip _ => true | _, _ => false end.

(** ** Bloom filters *)

Module bloom_filter.
Section bloom_filter.
(** [seeded_hash]: the 64-bit digest for a seed. *)
Context (hash : N → data → N).

Record t := mk { k_ : N; bits_ : list bool }.

(** [bloom_filter(size, hasher)] *)
Definition make (k size : N) : t := mk k (reps size false).

(** [double_hasher] with the seeds 0 and 1. *)
Definition digests (k : N) (x : data) : list N :=
  let d1 := hash 0 x in
  let d2 := hash 1 x in
  (λ i, d1 +u (N.of_nat i *u d2)) <$> seq 0 (N.to_nat k).
Definition position (f : t) (digest : N) : N := digest mod lenN (bits_ f).

Definition test (bits : list bool) (i : N) : bool := default false (bits !! N.to_nat i).

(** [add]: whether a bit was not set, and the filter afterwards. *)
Definition add (f : t) (x : data) : bool * t :=
  let '(unique, bits) :=
    foldl (λ '(unique, bits) d, let i := position f d in (unique || negb (test bits i), vec_set bits i true))
      (false, bits_ f) (digests (k_ f) x) in
  (unique, mk (k_ f) bits).

Definition lookup (f : t) (x : data) : bool := forallb (λ d, test (bits_ f) (position f d)) (digests (k_ f) x).
End bloom_filter.
End bloom_filter.

(** ** Synopses *)

Inductive synopsis :=
| bool_synopsis (true_ false_ : bool)
| time_synopsis (min max : Z)
| bloom_filter_synopsis (el : element) (f : bloom_filter.t)
| buffered_synopsis (el : element) (xs : list data).

Definition time_max : Z := 2 ^ 63 - 1.
Definition time_min : Z := - 2 ^ 63.

Section synopsis.
Context (hash : N → data → N).

Definition bool_add (true_ false_ : bool) (x : data) : synopsis :=
  match x with
  | d_bool b => if b then bool_synopsis true false_ else bool_synopsis true_ true
  | _ => bool_synopsis true_ false_
  end.
Definition min_max_add (min max : Z) (x : data) : synopsis :=
  match x with
  | d_time y => time_synopsis (if (y <? min)%Z then y else min) (if (max <? y)%Z then y else max)
  | _ => time_synopsis min max
  end.
Definition buffered_add (el : element) (xs : list data) (x : data) : synopsis :=
  buffered_synopsis el (if existsb (data_eqb x) xs then xs else x :: xs).
(** [synopsis::add]; values of another type, which the assertions exclude, change nothing. *)
Definition add (s : synopsis) (x : data) : synopsis :=
  match s with
  | bool_synopsis t f => bool_add t f x
  | time_synopsis min max => min_max_add min max x
  | bloom_filter_synopsis el f => bloom_filter_synopsis el (bloom_filter.add hash f x).2
  | buffered_synopsis el xs => buffered_add el xs x
  end.

(** [lookup_impl] of [min_max_synopsis]. *)
Definition min_max_lookup_impl (min max : Z) (op : relational_operator) (x : Z) : bool :=
  match op with
  | equal => (min <=? x)%Z && (x <=? max)%Z
  | not_equal => negb ((min <=? x)%Z && (x <=? max)%Z)
  | less => (min <? x)%Z
  | less_equal => (min <=? x)%Z
  | greater => (x <? max)%Z
  | greater_equal => (x <=? max)%Z
  | _ => false
  end.
Definition do_lookup (min max : Z) (op : relational_operator) (rhs : data) : option bool :=
  match rhs with d_time x => Some (min_max_lookup_impl min max op x) | _ => None end.
Definition membership (min max : Z) (rhs : data) : option bool :=
  match rhs with
  | d_list xs => Some (existsb (λ x, match do_lookup min max equal x with Some r => r | None => false end) xs)
  | _ => None
  end.
Definition min_max_lookup (min max : Z) (op : relational_operator) (rhs : data) : option bool :=
  match op with
  | in_ => membership min max rhs
  | not_in => negb <$> membership min max rhs
  | equal | not_equal | less | less_equal | greater | greater_equal => do_lookup min max op rhs
  | _ => None
  end.

Definition bool_lookup (true_ false_ : bool) (op : relational_operator) (rhs : data) : option bool :=
  match rhs, op with
  | d_bool b, equal => Some (if b then true_ else false_)
  | d_bool b, not_equal => Some (if b then false_ else true_)
  | _, _ => None
  end.

(** The loop over a list: nil makes the answer unknown, other types are passed over. *)
Fixpoint bloom_in (el : element) (f : bloom_filter.t) (xs : list data) : option bool :=
  match xs with
  | [] => Some false
  | d_none :: _ => None
  | x :: xs =>
      if negb (is_element el x) then bloom_in el f xs
      else if bloom_filter.lookup hash f x then Some true else bloom_in el f xs
  end.
Definition bloom_lookup (el : element) (f : bloom_filter.t) (op : relational_operator) (rhs : data) : option bool :=
  match op with
  | equal =>
      match rhs, el with
      | d_none, _ => None
      | d_pattern _, el_string => None
      | _, _ => if negb (is_element el rhs) then Some false else Some (bloom_filter.lookup hash f rhs)
      end
  | in_ => match rhs with d_list xs => bloom_in el f xs | _ => None end
  | _ => None
  end.

(** [buffered_synopsis::lookup]; an access to another alternative of the value is an exception, which
    the outer [None] stands for. *)
Definition buffered_count (el : element) (xs : list data) (x : data) : option bool :=
  if is_element el x then Some (existsb (data_eqb x) xs) else None.
Fixpoint buffered_in (el : element) (data_ : list data) (xs : list data) : option (option bool) :=
  match xs with
  | [] => Some (Some false)
  | x :: xs =>
      match buffered_count el data_ x with
      | None => None
      | Some true => Some (Some true)
      | Some false => buffered_in el data_ xs
      end
  end.
Definition buffered_lookup (el : element) (data_ : list data) (op : relational_operator) (rhs : data)
    : option (option bool) :=
  match op with
  | equal =>
      match rhs, el with
      | d_pattern _, el_string => Some None
      | _, _ => Some <$> buffered_count el data_ rhs
      end
  | in_ => match rhs with d_list xs => buffered_in el data_ xs | _ => Some None end
  | _ => Some None
  end.

(** [synopsis::lookup] *)
Definition lookup (s : synopsis) (op : relational_operator) (rhs : data) : option (option bool) :=
  match s with
  | bool_synopsis t f => Some (bool_lookup t f op rhs)
  | time_synopsis min max => Some (min_max_lookup min max op rhs)
  | bloom_filter_synopsis el f => Some (bloom_lookup el f op rhs)
  | buffered_synopsis el xs => buffered_lookup el xs op rhs
  end.

(** The size for which [shrink] makes a filter. *)
Fixpoint power_of_two (fuel : nat) (size n : N) : N :=
  match fuel with
  | O => n
  | S fuel => if n <? size then power_of_two fuel size (n *u 2) else n
  end.
(** [make_bloom_filter] of the evaluated parameters. *)
Definition make_bloom_filter (mk : N * N) : option bloom_filter.t :=
  if (mk.1 =? 0) || (mk.2 =? 0) then None else Some (bloom_filter.make mk.2 mk.1).
(** [shrink]; the computation of cells and hash functions from the number of elements is in
    floating point. *)
Definition shrink (evaluate : N → option (N * N)) (s : synopsis) : option synopsis :=
  match s with
  | buffered_synopsis el xs =>
      mk ← evaluate (power_of_two 64 (lenN xs) 1);
      f ← make_bloom_filter mk;
      Some (foldl add (bloom_filter_synopsis el f) xs)
  | _ => None
  end.
End synopsis.

(** [factory<synopsis>::make] with ["buffer-input-data"]: what is registered for a type. Parameters
    in the attributes of the type, evaluated, make a Bloom filter at once. *)
Definition make_synopsis (attributes : type → option (option (N * N))) (t : type) : option synopsis :=
  let make el :=
    match attributes t with
    | Some mk => f ← (mk ≫= make_bloom_filter); Some (bloom_filter_synopsis el f)
    | None => Some (buffered_synopsis el [])
    end in
  match type.resolve_transparent t with
  | t_bool => Some (bool_synopsis false false)
  | t_time => Some (time_synopsis time_max time_min)
  | t_string => make el_string
  | t_ip => make el_ip
  | _ => None
  end.

(** ** Soundness *)

(** Bits that were set stay set. *)
Lemma bloom_test_set bits i j : bloom_filter.test bits j = true → bloom_filter.test (vec_set bits i true) j = true.
Proof.
  unfold bloom_filter.test, vec_set. destruct (decide (N.to_nat i = N.to_nat j)) as [->|Hne].
  - destruct (decide (N.to_nat j < length bits)%nat); [by rewrite list_lookup_insert_eq|].
    rewrite list_insert_ge by lia. done.
  - by rewrite list_lookup_insert_ne.
Qed.

Lemma bloom_test_self bits i : i < lenN bits → bloom_filter.test (vec_set bits i true) i = true.
Proof. intros Hi. unfold bloom_filter.test, vec_set. rewrite list_lookup_insert_eq; [done|]. unfold lenN in Hi. lia. Qed.

Section bloom.
Context (hash : N → data → N).

(** Adding sets the positions of the element and keeps the others. *)
Lemma bloom_add_spec f x : let f' := (bloom_filter.add hash f x).2 in
  bloom_filter.k_ f' = bloom_filter.k_ f ∧ lenN (bloom_filter.bits_ f') = lenN (bloom_filter.bits_ f) ∧
  (∀ y, bloom_filter.lookup hash f y = true → bloom_filter.lookup hash f' y = true) ∧
  (bloom_filter.bits_ f ≠ [] → bloom_filter.lookup hash f' x = true).
Proof.
  unfold bloom_filter.add, bloom_filter.lookup, bloom_filter.position. cbn zeta.
  assert (∀ ds unique bits, lenN bits = lenN (bloom_filter.bits_ f) →
    let r := foldl (λ '(unique, bits) d, (unique || negb (bloom_filter.test bits (d mod lenN (bloom_filter.bits_ f))),
      vec_set bits (d mod lenN (bloom_filter.bits_ f)) true)) (unique, bits) ds in
    lenN r.2 = lenN bits ∧ (∀ j, bloom_filter.test bits j = true → bloom_filter.test r.2 j = true) ∧
    (bloom_filter.bits_ f ≠ [] → Forall (λ d, bloom_filter.test r.2 (d mod lenN (bloom_filter.bits_ f)) = true) ds)) as Hl.
  { induction ds as [|d ds IH]; intros unique bits Hlen; cbn [foldl]; [done|].
    set (i := d mod lenN (bloom_filter.bits_ f)).
    destruct (IH (unique || negb (bloom_filter.test bits i)) (vec_set bits i true)) as (H1 & H2 & H3).
    { unfold lenN, vec_set in *. by rewrite length_insert. }
    split_and!; [rewrite H1; unfold lenN, vec_set; by rewrite length_insert|intros j Hj; by apply H2, bloom_test_set|].
    intros Hne. constructor; [|by apply H3]. apply H2, bloom_test_self. rewrite Hlen. apply N.mod_lt.
    unfold lenN. destruct (bloom_filter.bits_ f); [done|cbn; lia]. }
  specialize (Hl (bloom_filter.digests hash (bloom_filter.k_ f) x) false (bloom_filter.bits_ f) eq_refl).
  destruct (foldl _ _ _) as [u bits]. cbn [fst snd] in *. destruct Hl as (H1 & H2 & H3).
  cbn [bloom_filter.k_ bloom_filter.bits_]. rewrite H1. split_and!; [done..| |].
  - intros y. rewrite !forallb_forall. intros Hy d Hd. by apply H2, Hy.
  - intros Hne. rewrite forallb_forall. intros d Hd. specialize (H3 Hne). rewrite list.Forall_forall in H3.
    apply H3. by apply list_elem_of_In.
Qed.
End bloom.

(** What a synopsis knows about the values that were added. *)
Section covers.
Context (hash : N → data → N).

Definition covers (s : synopsis) (v : data) : Prop :=
  match s with
  | bool_synopsis t f => ∃ b, v = d_bool b ∧ (if b then t else f) = true
  | time_synopsis min max => ∃ x, v = d_time x ∧ (min <= x <= max)%Z
  | bloom_filter_synopsis el f => is_element el v = true ∧ bloom_filter.lookup hash f v = true
  | buffered_synopsis el xs => is_element el v = true ∧ existsb (data_eqb v) xs = true
  end.

(** The values a synopsis is made for. *)
Definition accepts (s : synopsis) (v : data) : Prop :=
  match s with
  | bool_synopsis _ _ => ∃ b, v = d_bool b
  | time_synopsis min max => ∃ x, v = d_time x ∧ (time_min <= x <= time_max)%Z
  | bloom_filter_synopsis el f => is_element el v = true ∧ bloom_filter.bits_ f ≠ []
  | buffered_synopsis el _ => is_element el v = true
  end.

Lemma is_element_refl el v : is_element el v = true → data_eqb v v = true.
Proof. rewrite data_eqb_refl. by destruct el, v. Qed.

Lemma add_covers s x : accepts s x → covers (add hash s x) x.
Proof.
  destruct s as [t f|mn mx|el f|el xs]; cbn [accepts].
  - intros (b & ->). cbn. by destruct b; eexists.
  - intros (y & -> & _). cbn. exists y. split; [done|]. destruct (Z.ltb_spec y mn), (Z.ltb_spec mx y); lia.
  - intros [He Hne]. cbn. split; [done|]. by apply bloom_add_spec.
  - intros He. cbn. split; [done|]. destruct (existsb (data_eqb x) xs) eqn:E; [done|].
    cbn. by rewrite (is_element_refl el x He).
Qed.

Lemma add_keeps s x v : covers s v → covers (add hash s x) v.
Proof.
  destruct s as [t f|mn mx|el f|el xs]; cbn [covers].
  - intros (b & -> & Hb). destruct x as [|c| | | | | | | | | | | | |]; cbn; try (by exists b).
    destruct c; exists b; split; by destruct b.
  - intros (y & -> & Hy). destruct x as [| | | | | |z| | | | | | | |]; cbn; try (by exists y). exists y. split; [done|].
    destruct (Z.ltb_spec z mn), (Z.ltb_spec mx z); lia.
  - intros [He Hv]. cbn. split; [done|]. by apply bloom_add_spec.
  - intros [He Hv]. cbn. split; [done|]. destruct (existsb (data_eqb x) xs); [done|]. cbn. by rewrite Hv, orb_true_r.
Qed.

Lemma add_accepts s x v : accepts s v → accepts (add hash s x) v.
Proof.
  destruct s as [t f|mn mx|el f|el xs]; cbn [accepts].
  - intros (b & ->). destruct x as [|c| | | | | | | | | | | | |]; try (by exists b). destruct c; by exists b.
  - intros (y & -> & Hy). destruct x; by exists y.
  - intros [He Hne]. cbn. split; [done|]. destruct (bloom_add_spec hash f x) as (_ & Hl & _).
    intros E. rewrite E in Hl. destruct (bloom_filter.bits_ f); [done|]. unfold lenN in Hl. cbn in Hl. lia.
  - done.
Qed.

(** What a synopsis can rule out: the minimum and maximum say nothing about negated operators. *)
Definition supports (op : relational_operator) (rhs : data) : Prop :=
  match op, rhs with not_equal, d_time _ | not_in, d_list _ => False | _, _ => True end.

Context (regex_match regex_search : list N → list N → bool).
#[local] Abbreviation evaluate := (evaluate regex_match regex_search).

Lemma bloom_in_sound el f xs v : is_element el v = true → bloom_filter.lookup hash f v = true →
  bloom_in hash el f xs = Some false → existsb (λ y, data_eqb y v) xs = false.
Proof.
  intros He Hv. induction xs as [|x xs IH]; [done|]. intros H. cbn [existsb].
  assert (data_eqb x v = true → x = v ∧ is_element el x = true) as Heq.
  { destruct el, v, x; try done; cbn; intros ->%bool_decide_eq_true; done. }
  destruct (data_eqb x v) eqn:E; [exfalso|].
  - destruct (Heq eq_refl) as [-> He']. cbn [bloom_in] in H. rewrite He', Hv in H. by destruct v.
  - apply IH. clear -H. revert H. destruct x; cbn [bloom_in]; repeat case_match; congruence.
Qed.

Lemma buffered_in_sound el data_ xs v : existsb (data_eqb v) data_ = true → is_element el v = true →
  buffered_in el data_ xs = Some (Some false) → existsb (λ y, data_eqb y v) xs = false.
Proof.
  intros Hv He. induction xs as [|x xs IH]; [done|]. cbn [buffered_in existsb]. unfold buffered_count.
  destruct (is_element el x) eqn:Ex; [|done]. destruct (existsb (data_eqb x) data_) eqn:E; [done|]. intros H.
  rewrite IH, orb_false_r by done. destruct (data_eqb x v) eqn:Exv; [|done].
  assert (x = v) as ->; [|congruence]. destruct el, v, x; try done; by apply bool_decide_eq_true in Exv as ->.
Qed.

(** A synopsis that rules a predicate out is right about every value it covers. *)
Lemma lookup_sound s op rhs v : supports op rhs → covers s v → lookup hash s op rhs = Some (Some false) →
  evaluate v op rhs = false.
Proof.
  destruct s as [t f|mn mx|el f|el xs]; cbn [covers lookup].
  - intros _ (b & -> & Hb) H. injection H as H. destruct rhs as [|c| | | | | | | | | | | | |]; try done.
    destruct op; try done; injection H as H; destruct b, c; cbn in *; congruence.
  - intros Hsup (x & -> & Hx) H. injection H as H. destruct op; try done; cbn in H.
    2,4: destruct rhs; done.
    + destruct rhs as [| | | | | | | | | | | |ys| |]; try done. injection H as H. cbn.
      induction ys as [|y ys IH]; [done|]. cbn in H |- *. apply orb_false_iff in H as [H1 H2]. rewrite IH by done.
      destruct y; try done. cbn in H1 |- *. destruct (Z.eqb_spec x0 x) as [->|]; [|done]. exfalso.
      apply andb_false_iff in H1 as [H1|H1]; apply Z.leb_gt in H1; lia.
    + destruct rhs as [| | | | | |y| | | | | | | |]; try done. injection H as H. cbn. apply Z.eqb_neq. intros ->.
      apply andb_false_iff in H as [H|H]; apply Z.leb_gt in H; lia.
    + destruct rhs as [| | | | | |y| | | | | | | |]; try done. injection H as H%Z.ltb_ge. cbn. apply Z.ltb_ge. lia.
    + destruct rhs as [| | | | | |y| | | | | | | |]; try done. injection H as H%Z.leb_gt. cbn.
      unfold data_leb, data_ltb. cbn. apply negb_false_iff, Z.ltb_lt. lia.
    + destruct rhs as [| | | | | |y| | | | | | | |]; try done. injection H as H%Z.ltb_ge. cbn.
      unfold data_gtb, data_ltb. cbn. apply Z.ltb_ge. lia.
    + destruct rhs as [| | | | | |y| | | | | | | |]; try done. injection H as H%Z.leb_gt. cbn.
      unfold data_geb, data_ltb. cbn. apply negb_false_iff, Z.ltb_lt. lia.
  - intros _ [He Hv] H. injection H as H. destruct op; try done; cbn [bloom_lookup] in H.
    + destruct rhs as [| | | | | | | | | | | |ys| |]; try done. apply (bloom_in_sound el f ys v) in H; [|done..].
      cbn. destruct el, v; done.
    + destruct (is_element el rhs) eqn:Er.
      * assert (bloom_filter.lookup hash f rhs = false) as Hr by (destruct el, rhs; try done; by injection H as ->).
        destruct el, v, rhs; try done; cbn; apply bool_decide_eq_false; intros ->; congruence.
      * destruct el, v; try done; destruct rhs; done.
  - intros _ [He Hv] H. destruct op; try done; cbn [buffered_lookup] in H.
    + destruct rhs as [| | | | | | | | | | | |ys| |]; try done. apply (buffered_in_sound el xs ys v) in H; [|done..].
      cbn. destruct el, v; done.
    + destruct (is_element el rhs) eqn:Er.
      * assert (existsb (data_eqb rhs) xs = false) as Hr.
        { unfold buffered_count in H. rewrite Er in H. destruct el, rhs; try done; injection H as H; exact H. }
        destruct el, v, rhs; try done; cbn; apply bool_decide_eq_false; intros ->; congruence.
      * unfold buffered_count in H. rewrite Er in H. destruct el, rhs; done.
Qed.
End covers.

(** No synopsis rules out a comparison with nil, and only a buffer raises an exception. *)
Lemma lookup_nil hash s op : lookup hash s op d_none ≠ Some (Some false).
Proof. destruct s as [| |el f|el xs], op; try done; by destruct el. Qed.

Definition is_buffered (s : synopsis) : bool := match s with buffered_synopsis _ _ => true | _ => false end.

Lemma lookup_total hash s op rhs : is_buffered s = false → is_Some (lookup hash s op rhs).
Proof. by destruct s. Qed.

(** ** Shrinking *)

Section shrink.
Context (hash : N → data → N).

Lemma foldl_add_keeps s xs v : covers hash s v → covers hash (foldl (add hash) s xs) v.
Proof. revert s. induction xs as [|x xs IH]; intros s Hs; [done|]. apply IH. by apply add_keeps. Qed.

Lemma foldl_add_covers s xs v : accepts s v → v ∈ xs → covers hash (foldl (add hash) s xs) v.
Proof.
  revert s. induction xs as [|x xs IH]; intros s Hs; [by intros ?%not_elem_of_nil|]. intros [->|Hv]%elem_of_cons; cbn [foldl].
  - by apply foldl_add_keeps, add_covers.
  - apply IH; [by apply add_accepts|done].
Qed.

Lemma element_eqb el v w : is_element el v = true → data_eqb v w = true → w = v.
Proof. destruct el, v, w; try done; cbn; by intros _ ->%bool_decide_eq_true. Qed.

(** The filter that replaces a buffer knows all its values. *)
Lemma shrink_covers evaluate s s' v : shrink hash evaluate s = Some s' → covers hash s v → covers hash s' v.
Proof.
  destruct s as [| | |el xs]; try done. cbn [shrink covers].
  intros (mk & _ & (f & Hf & [= <-])%bind_Some)%bind_Some [He Hx].
  apply foldl_add_covers.
  - split; [done|]. unfold make_bloom_filter in Hf. destruct (_ || _) eqn:E; [done|]. injection Hf as <-.
    apply orb_false_iff in E as [E _]. apply N.eqb_neq in E. cbn. unfold reps. by destruct (N.to_nat mk.1) eqn:En; [lia|].
  - apply existsb_exists in Hx as (w & Hw & Hvw). apply list_elem_of_In in Hw. by apply (element_eqb el) in Hvw as ->.
Qed.
End shrink.

(** ** Synopses for a type *)

(** Values of a column: those the type admits. *)
Definition typed_value (t : type) (v : data) : Prop :=
  match type.resolve_transparent t with
  | t_bool => ∃ b, v = d_bool b
  | t_time => ∃ x, v = d_time x ∧ (time_min <= x <= time_max)%Z
  | t_string => is_element el_string v = true
  | t_ip => is_element el_ip v = true
  | _ => True
  end.

Definition synopsis_for (t : type) (s : synopsis) : Prop := ∀ v, typed_value t v → accepts s v.

Lemma make_synopsis_for attributes t s : make_synopsis attributes t = Some s → synopsis_for t s.
Proof.
  unfold make_synopsis, synopsis_for, typed_value. destruct (type.resolve_transparent t); try done.
  1,2: by intros [= <-].
  all: destruct (attributes t) as [mk|]; [|by intros [= <-]];
    intros (f & (mk' & _ & Hf)%bind_Some & [= <-])%bind_Some; intros v Hv; split; [done|];
    unfold make_bloom_filter in Hf; destruct (_ || _) eqn:E; [done|]; injection Hf as <-;
    apply orb_false_iff in E as [E _]; apply N.eqb_neq in E; cbn; unfold reps; by destruct (N.to_nat mk'.1) eqn:En; [lia|].
Qed.

Lemma synopsis_for_clean t t' s : type.resolve_transparent t = type.resolve_transparent t' → synopsis_for t s → synopsis_for t' s.
Proof. intros Ht Hs v Hv. apply Hs. unfold typed_value in *. by rewrite Ht. Qed.

Lemma add_synopsis_for hash t s x : synopsis_for t s → synopsis_for t (add hash s x).
Proof. intros Hs v Hv. apply add_accepts. auto. Qed.
