(* ===== verification/PartitionSynopsis.v ===== *)
(** The synopsis of a partition: [libvast/src/partition_synopsis.cpp] and
    [libvast/src/qualified_record_field.cpp].

    The maps from types and fields to synopses are association lists; a missing synopsis, [nullptr] in
    the source, is [None]. *)

From S2P Require Import Prelude Operator Data Types RecordType Ip DataOps DataRecord Synopsis.

#[local] Set Warnings "-register-all".

(** ** Fields *)

Module qualified_record_field.
Record t := mk { schema_name : list N; field_name : list N; field_type : type }.

(** The constructor from a schema and an offset. *)
Definition make (name : list N) (schema : list field) (index : list nat) : t :=
  mk name (default [] (record_type.key schema index))
    (match record_type.field_at schema index with Some f => f.2 | None => t_none end).

Definition name (x : t) : list N :=
  match schema_name x, field_name x with
  | [], f => f
  | s, [] => s
  | s, f => s ++ [record_type.dot] ++ f
  end.
Definition is_standalone_type (x : t) : bool := bool_decide (field_name x = []).
End qualified_record_field.
Import qualified_record_field(schema_name, field_name, field_type).

#[export] Instance qualified_record_field_eq_dec : EqDecision qualified_record_field.t.
Proof. solve_decision. Defined.

(** ** The synopsis of a partition *)

Record partition_synopsis := mk_partition_synopsis {
  events : N;
  min_import_time : Z;
  max_import_time : Z;
  version : N;
  schema : type;
  type_synopses_ : list (type * option synopsis);
  field_synopses_ : list (qualified_record_field.t * option synopsis)
}.

(** Updates of the maps. *)
Definition set_type_synopses (ps : partition_synopsis) ts :=
  mk_partition_synopsis (events ps) (min_import_time ps) (max_import_time ps) (version ps) (schema ps) ts (field_synopses_ ps).
Definition set_field_synopses (ps : partition_synopsis) fs :=
  mk_partition_synopsis (events ps) (min_import_time ps) (max_import_time ps) (version ps) (schema ps) (type_synopses_ ps) fs.
Definition set_schema (ps : partition_synopsis) t :=
  mk_partition_synopsis (events ps) (min_import_time ps) (max_import_time ps) (version ps) t (type_synopses_ ps) (field_synopses_ ps).

(** ["skip"] *)
Definition skip : list N := [115; 107; 105; 112].

Section partition_synopsis.
Context (hash : N → data → N) (attributes : type → option (option (N * N))).

(** The function [make_synopsis] of [add]. *)
Definition make_column_synopsis (t : type) : option synopsis :=
  match type.attribute skip t with Some _ => None | None => make_synopsis attributes t end.

(** [add_column]: all values of a column but nil. *)
Definition add_column (s : synopsis) (column : list data) : synopsis :=
  foldl (λ s v, if is_none v then s else add hash s v) s column.
(** The same for the entry of a map that may have no synopsis. *)
Definition add_entry (entry : option synopsis) (column : list data) : option synopsis :=
  (λ s, add_column s column) <$> entry.

(** [get_field_fprate]: whether a rule names the field. *)
Definition get_field_fprate (rules : list (list (list N))) (f : qualified_record_field.t) : bool :=
  existsb (existsb (λ name : list N,
    bool_decide (length name = length (field_name f) + length (schema_name f) + 1)%nat &&
    bool_decide (take (length (schema_name f)) name = schema_name f) &&
    bool_decide (drop (length name - length (field_name f)) name = field_name f))) rules.

(** Finds the entry of a key, or adds one; then adds the column to it. *)
Definition update_entry {K} `{EqDecision K} (k : K) (make : option synopsis) (column : list data)
    (m : list (K * option synopsis)) : list (K * option synopsis) :=
  let m := stable_map.emplace k make m in
  stable_map.assign k (add_entry (default None (stable_map.lookup k m)) column) m.

(** One column of [add]. *)
Definition add_leaf (rules : list (list (list N))) (key : qualified_record_field.t) (t : type) (column : list data)
    (ps : partition_synopsis) : partition_synopsis :=
  let ps :=
    if get_field_fprate rules key
    then set_field_synopses ps (update_entry key (make_column_synopsis t) column (field_synopses_ ps))
    else set_field_synopses ps (stable_map.emplace key None (field_synopses_ ps)) in
  set_type_synopses ps
    (update_entry (type.resolve_transparent t) (make_column_synopsis t) column (type_synopses_ ps)).

(** [add]: the columns of a slice, in the order of the leaves of its schema. *)
Definition add_slice (rules : list (list (list N))) (slice_schema : type) (columns : list (list data))
    (ps : partition_synopsis) : partition_synopsis :=
  let ps := if negb (type.is_some (schema ps)) then set_schema ps slice_schema else ps in
  let fields := default [] (record_type.as_record (schema ps)) in
  foldl (λ ps lc, add_leaf rules (qualified_record_field.make (type.name (schema ps)) fields lc.1.1) lc.1.2.2 lc.2 ps)
    ps (zip (record_type.leaves fields) columns).

(** [shrink] *)
Definition shrink_entry (evaluate : N → option (N * N)) (entry : option synopsis) : option synopsis :=
  match entry with
  | None => None
  | Some s => match shrink hash evaluate s with Some s' => Some s' | None => Some s end
  end.
Definition shrink_partition (evaluate : N → option (N * N)) (ps : partition_synopsis) : partition_synopsis :=
  set_type_synopses (set_field_synopses ps (prod_map id (shrink_entry evaluate) <$> field_synopses_ ps))
    (prod_map id (shrink_entry evaluate) <$> type_synopses_ ps).
End partition_synopsis.

(** ** What a partition synopsis knows *)

Section known.
Context (hash : N → data → N) (attributes : type → option (option (N * N))) (rules : list (list (list N))).
Import stable_map(assign, emplace).
#[local] Abbreviation lookup := stable_map.lookup.

(** Synopses are those of their type, and a field has its own only if it is configured. *)
Definition synopses_wf (ps : partition_synopsis) : Prop :=
  (∀ k s, lookup k (field_synopses_ ps) = Some (Some s) →
     synopsis_for (field_type k) s ∧ get_field_fprate rules k = true) ∧
  (∀ t s, lookup t (type_synopses_ ps) = Some (Some s) → synopsis_for t s).

(** The synopsis that answers for a field covers the value, unless it is nil: its own synopsis, else
    that of its type. *)
Definition known_by (ps : partition_synopsis) (k : qualified_record_field.t) (e : option synopsis) (v : data) : Prop :=
  match e with
  | Some s => covers hash s v
  | None => ∃ te, lookup (type.resolve_transparent (field_type k)) (type_synopses_ ps) = Some te ∧
                  ∀ s, te = Some s → covers hash s v
  end.
Definition known (ps : partition_synopsis) (k : qualified_record_field.t) (v : data) : Prop :=
  ∃ e, lookup k (field_synopses_ ps) = Some e ∧ (is_none v = false → known_by ps k e v).

Lemma add_column_keeps s column v : covers hash s v → covers hash (add_column hash s column) v.
Proof.
  unfold add_column. revert s. induction column as [|x column IH]; intros s Hs; [done|]. cbn [foldl]. apply IH.
  destruct (is_none x); [done|]. by apply add_keeps.
Qed.

Lemma add_column_covers s column v : accepts s v → v ∈ column → is_none v = false → covers hash (add_column hash s column) v.
Proof.
  unfold add_column. revert s. induction column as [|x column IH]; intros s Hs; [by intros ?%not_elem_of_nil|].
  intros [->|Hv]%elem_of_cons Hn; cbn [foldl].
  - rewrite Hn. by apply add_column_keeps, add_covers.
  - apply IH; [|done..]. destruct (is_none x); [done|]. by apply add_accepts.
Qed.

Lemma add_column_for t s column : synopsis_for t s → synopsis_for t (add_column hash s column).
Proof.
  unfold add_column. revert s. induction column as [|x column IH]; intros s Hs; [done|]. cbn [foldl]. apply IH.
  destruct (is_none x); [done|]. by apply add_synopsis_for.
Qed.

Lemma lookup_update_entry {K} `{EqDecision K} (k l : K) make column m :
  lookup l (update_entry hash k make column m) =
  if decide (k = l) then Some (add_entry hash (default make (lookup k m)) column) else lookup l m.
Proof.
  unfold update_entry. rewrite lookup_assign, !lookup_emplace. destruct (decide (k = l)) as [<-|Hne].
  - do 2 f_equal. rewrite decide_True by done. by destruct (lookup k m).
  - by destruct (lookup l m).
Qed.

Lemma make_column_synopsis_for t s : make_column_synopsis attributes t = Some s → synopsis_for t s.
Proof. unfold make_column_synopsis. destruct (type.attribute skip t); [done|]. apply make_synopsis_for. Qed.

(** One column. *)
Lemma add_leaf_spec k column ps : synopses_wf ps →
  Forall (λ v, is_none v = false → typed_value (field_type k) v) column →
  let ps' := add_leaf hash attributes rules k (field_type k) column ps in
  synopses_wf ps' ∧ (∀ k' v, known ps k' v → known ps' k' v) ∧
  ∀ v, v ∈ column → known ps' k v.
Proof.
  intros [Hwf Hwt] Hcol ps'. set (ct := type.resolve_transparent (field_type k)).
  assert (∀ e s, (∀ s', e = Some s' → synopsis_for (field_type k) s') →
    add_entry hash e column = Some s → synopsis_for (field_type k) s) as Hfor.
  { intros e s He (s' & -> & ->)%fmap_Some. apply add_column_for. by apply He. }
  assert (∀ e s v, (∀ s', e = Some s' → synopsis_for (field_type k) s') → v ∈ column → is_none v = false →
    add_entry hash e column = Some s → covers hash s v) as Hcov.
  { intros e s v He Hv Hn (s' & -> & ->)%fmap_Some. apply add_column_covers; [|done..].
    apply (He s' eq_refl). rewrite list.Forall_forall in Hcol. by apply Hcol. }
  assert (∀ s', default (make_column_synopsis attributes (field_type k)) (lookup ct (type_synopses_ ps)) = Some s' →
    synopsis_for (field_type k) s') as Htype.
  { intros s'. destruct (lookup ct (type_synopses_ ps)) as [e|] eqn:E; cbn; [intros ->|apply make_column_synopsis_for].
    apply (synopsis_for_clean ct); [|by apply Hwt]. apply resolve_transparent_idemp. }
  assert (∀ t, lookup t (type_synopses_ ps') = if decide (ct = t) then
      Some (add_entry hash (default (make_column_synopsis attributes (field_type k)) (lookup ct (type_synopses_ ps))) column)
      else lookup t (type_synopses_ ps)) as Ht.
  { intros t. unfold ps', add_leaf. destruct (get_field_fprate rules k); cbn [type_synopses_ set_type_synopses set_field_synopses];
      apply lookup_update_entry. }
  assert (∀ s', default (make_column_synopsis attributes (field_type k)) (lookup k (field_synopses_ ps)) = Some s' →
    synopsis_for (field_type k) s') as Hfield.
  { intros s'. destruct (lookup k (field_synopses_ ps)) as [e|] eqn:E; cbn; [intros ->; by apply Hwf|apply make_column_synopsis_for]. }
  assert (∀ k', lookup k' (field_synopses_ ps') = if decide (k = k') then
      (if get_field_fprate rules k
       then Some (add_entry hash (default (make_column_synopsis attributes (field_type k)) (lookup k (field_synopses_ ps))) column)
       else Some (default None (lookup k (field_synopses_ ps))))
      else lookup k' (field_synopses_ ps)) as Hf.
  { intros k'. unfold ps', add_leaf. destruct (get_field_fprate rules k); cbn [field_synopses_ set_type_synopses set_field_synopses];
      [apply lookup_update_entry|]. rewrite lookup_emplace. destruct (decide (k = k')) as [<-|]; [by destruct (lookup k (field_synopses_ ps))|by destruct (lookup k' (field_synopses_ ps))]. }
  clearbody ps'. split_and!.
  - split.
    + intros k' s. rewrite Hf. case_decide as E; [subst k'|apply Hwf]. destruct (get_field_fprate rules k) eqn:Eg.
      * intros [= H]. split; [by eapply Hfor|done].
      * destruct (lookup k (field_synopses_ ps)) as [e|] eqn:Ek; cbn; [intros [= ->]; apply Hwf in Ek as [_ Ek]; congruence|done].
    + intros t s. rewrite Ht. case_decide as E; [|apply Hwt]. intros [= H]. subst t.
      apply (synopsis_for_clean (field_type k)); [symmetry; apply resolve_transparent_idemp|]. exact (Hfor _ _ Htype H).
  - intros k' v (e & He & Hk). unfold known, known_by in *. rewrite Hf. destruct (decide (k = k')) as [<-|Hne].
    + rewrite He. cbn [default]. destruct e as [s|].
      * destruct (get_field_fprate rules k); eexists; (split; [done|]); [intros Hn; by apply add_column_keeps, Hk|done].
      * exists None. split; [by destruct (get_field_fprate rules k)|]. intros Hn. destruct (Hk Hn) as (te & Hte & Hk'). rewrite Ht.
        rewrite decide_True by done. fold ct in Hte. rewrite Hte. eexists. split; [done|]. cbn.
        intros s (s' & -> & ->)%fmap_Some. by apply add_column_keeps, Hk'.
    + exists e. split; [done|]. intros Hn. destruct e as [s|]; [by apply Hk|]. destruct (Hk Hn) as (te & Hte & Hk'). rewrite Ht.
      case_decide as E; [|by exists te]. rewrite E, Hte. eexists. split; [done|]. cbn.
      intros s (s' & -> & ->)%fmap_Some. by apply add_column_keeps, Hk'.
  - intros v Hv. unfold known, known_by. rewrite Hf, decide_True by done.
    set (te := add_entry hash (default (make_column_synopsis attributes (field_type k)) (lookup ct (type_synopses_ ps))) column).
    assert (lookup ct (type_synopses_ ps') = Some te ∧ ∀ s, is_none v = false → te = Some s → covers hash s v) as [Hte1 Hte2].
    { rewrite Ht, decide_True by done. split; [done|]. intros s Hn Hs. exact (Hcov _ s v Htype Hv Hn Hs). }
    clearbody te. destruct (get_field_fprate rules k) eqn:Eg.
    + eexists. split; [done|]. intros Hn.
      destruct (add_entry hash (default (make_column_synopsis attributes (field_type k)) (lookup k (field_synopses_ ps))) column) as [s|] eqn:E;
        [exact (Hcov _ s v Hfield Hv Hn E)|exists te; auto].
    + exists (default None (lookup k (field_synopses_ ps))). split; [done|]. intros Hn.
      destruct (lookup k (field_synopses_ ps)) as [[s|]|] eqn:E; cbn; [|exists te; auto..].
      apply Hwf in E as [_ E]. congruence.
Qed.

(** The columns of one slice. *)
Lemma add_leaves_spec name fields (lcs : list (record_type.leaf_view * list data)) ps : synopses_wf ps →
  (∀ l c, (l, c) ∈ lcs → record_type.field_at fields l.1 = Some l.2 ∧
     Forall (λ v, is_none v = false → typed_value l.2.2 v) c) →
  let add ps (lc : record_type.leaf_view * list data) :=
    add_leaf hash attributes rules (qualified_record_field.make name fields lc.1.1) lc.1.2.2 lc.2 ps in
  let ps' := foldl add ps lcs in
  synopses_wf ps' ∧ (∀ k v, known ps k v → known ps' k v) ∧
  ∀ l c v, (l, c) ∈ lcs → v ∈ c → known ps' (qualified_record_field.make name fields l.1) v.
Proof.
  intros Hwf Hl add. revert ps Hwf. induction lcs as [|[l c] lcs IH]; intros ps Hwf ps'.
  { split_and!; [done..|]. by intros l c v ?%not_elem_of_nil. }
  destruct (Hl l c (list_elem_of_here _ _)) as [Hf Hc].
  set (k := qualified_record_field.make name fields l.1). assert (field_type k = l.2.2) as Hk by (unfold k; cbn; by rewrite Hf).
  destruct (add_leaf_spec k c ps Hwf) as (H1 & H2 & H3); [by rewrite Hk|]. rewrite Hk in H1, H2, H3.
  destruct (IH (λ l' c' Hlc, Hl l' c' (list_elem_of_further _ _ _ Hlc)) (add ps (l, c)) H1) as (I1 & I2 & I3).
  change ps' with (foldl add (add ps (l, c)) lcs). split_and!; [done|intros k' v Hv; by apply I2, H2|].
  intros l' c' v [[= -> ->]|Hlc]%elem_of_cons Hv; [by apply I2, H3|by eapply I3].
Qed.

Lemma add_leaves_schema name fields (lcs : list (record_type.leaf_view * list data)) ps :
  schema (foldl (λ ps lc, add_leaf hash attributes rules (qualified_record_field.make name fields lc.1.1) lc.1.2.2 lc.2 ps) ps lcs) =
  schema ps.
Proof.
  revert ps. induction lcs as [|lc lcs IH]; intros ps; [done|]. cbn [foldl]. rewrite IH. unfold add_leaf.
  by destruct (get_field_fprate _ _).
Qed.

(** The values of a slice have the types of their columns. *)
Definition slice_ok (fields : list field) (columns : list (list data)) : Prop :=
  ∀ i l c, record_type.leaves fields !! i = Some l → columns !! i = Some c →
  Forall (λ v, is_none v = false → typed_value l.2.2 v) c.

(** A slice of the schema of the partition. *)
Lemma add_slice_spec t fields columns ps : record_type.as_record t = Some fields →
  (schema ps = t ∨ type.is_some (schema ps) = false) → slice_ok fields columns → synopses_wf ps →
  let ps' := add_slice hash attributes rules t columns ps in
  schema ps' = t ∧ synopses_wf ps' ∧ (∀ k v, known ps k v → known ps' k v) ∧
  ∀ i l c v, record_type.leaves fields !! i = Some l → columns !! i = Some c → v ∈ c →
    known ps' (qualified_record_field.make (type.name t) fields l.1) v.
Proof.
  intros Hr Hs Hok Hwf ps'. set (ps0 := if negb (type.is_some (schema ps)) then set_schema ps t else ps).
  assert (schema ps0 = t ∧ type_synopses_ ps0 = type_synopses_ ps ∧ field_synopses_ ps0 = field_synopses_ ps) as (H0 & Ht & Hf).
  { unfold ps0. destruct (negb (type.is_some (schema ps))) eqn:E; [done|]. destruct Hs as [Hs|Hs]; [done|]. by rewrite Hs in E. }
  assert (∀ lcs qs, schema qs = t → foldl (λ ps (lc : record_type.leaf_view * list data), add_leaf hash attributes rules
      (qualified_record_field.make (type.name (schema ps)) fields lc.1.1) lc.1.2.2 lc.2 ps) qs lcs =
    foldl (λ ps (lc : record_type.leaf_view * list data), add_leaf hash attributes rules (qualified_record_field.make (type.name t) fields lc.1.1) lc.1.2.2 lc.2 ps) qs lcs) as Hfold.
  { induction lcs as [|lc lcs IH]; intros qs Hq; [done|]. cbn [foldl]. rewrite IH by (unfold add_leaf; by destruct (get_field_fprate _ _)).
    by rewrite Hq. }
  assert (ps' = foldl (λ ps (lc : record_type.leaf_view * list data), add_leaf hash attributes rules (qualified_record_field.make (type.name t) fields lc.1.1) lc.1.2.2 lc.2 ps)
    ps0 (zip (record_type.leaves fields) columns)) as ->.
  { unfold ps', add_slice. fold ps0. rewrite H0, Hr. by apply Hfold. }
  assert (synopses_wf ps0) as Hwf0 by (unfold synopses_wf in *; by rewrite Ht, Hf).
  destruct (add_leaves_spec (type.name t) fields (zip (record_type.leaves fields) columns) ps0 Hwf0) as (H1 & H2 & H3).
  { intros l c (i & (Hi & Hc)%lookup_zip_Some)%list_elem_of_lookup. cbn in Hi, Hc. split.
    - by apply leaves_field; eapply list_elem_of_lookup_2.
    - by eapply Hok. }
  rewrite add_leaves_schema. split_and!; [done..| |].
  - intros k v Hk. apply H2. unfold known, known_by in *. by rewrite Ht, Hf.
  - intros i l c v Hi Hc Hv. eapply H3; [|done..]. apply list_elem_of_lookup. exists i. by apply lookup_zip_Some.
Qed.

(** A partition that was filled with slices of one schema knows all their values. *)
Lemma add_slices_spec t fields slices ps : record_type.as_record t = Some fields →
  (schema ps = t ∨ type.is_some (schema ps) = false) → Forall (slice_ok fields) slices → synopses_wf ps →
  let ps' := foldl (λ ps columns, add_slice hash attributes rules t columns ps) ps slices in
  synopses_wf ps' ∧ (∀ k v, known ps k v → known ps' k v) ∧
  ∀ columns i l c v, columns ∈ slices → record_type.leaves fields !! i = Some l → columns !! i = Some c →
    v ∈ c → known ps' (qualified_record_field.make (type.name t) fields l.1) v.
Proof.
  intros Hr. revert ps. induction slices as [|columns slices IH]; intros ps Hs Hok Hwf ps'.
  { split_and!; [done..|]. by intros columns i l c v ?%not_elem_of_nil. }
  apply list.Forall_cons in Hok as [Hok Hoks]. destruct (add_slice_spec t fields columns ps Hr Hs Hok Hwf) as (S1 & S2 & S3 & S4).
  destruct (IH (add_slice hash attributes rules t columns ps) (or_introl S1) Hoks S2) as (I1 & I2 & I3).
  change ps' with (foldl (λ ps columns, add_slice hash attributes rules t columns ps) (add_slice hash attributes rules t columns ps) slices).
  split_and!; [done|intros k v Hk; by apply I2, S3|].
  intros columns' i l c v [->|Hc]%elem_of_cons Hi Hcol Hv; [by eapply I2, S4|by eapply I3].
Qed.

(** Shrinking forgets nothing. *)
Lemma shrink_entry_covers evaluate s v : covers hash s v →
  ∃ s', shrink_entry hash evaluate (Some s) = Some s' ∧ covers hash s' v.
Proof.
  intros Hs. cbn. destruct (shrink hash evaluate s) as [s'|] eqn:E; eexists; (split; [done|]); [|done].
  by eapply shrink_covers.
Qed.

Lemma lookup_prod_map {K} `{EqDecision K} (f : option synopsis → option synopsis) (k : K) m :
  lookup k (prod_map id f <$> m) = f <$> lookup k m.
Proof.
  induction m as [|[l e] m IH]; [done|]. cbn [fmap list_fmap]. rewrite !lookup_map_cons. cbn. by case_decide.
Qed.

Lemma shrink_known evaluate ps k v : known ps k v → known (shrink_partition hash evaluate ps) k v.
Proof.
  intros (e & He & Hk). unfold known, known_by in *. cbn [shrink_partition field_synopses_ type_synopses_ set_type_synopses set_field_synopses].
  rewrite !lookup_prod_map, He. eexists. split; [done|]. intros Hn. specialize (Hk Hn). destruct e as [s|].
  - destruct (shrink_entry_covers evaluate s v Hk) as (s' & -> & Hs'). done.
  - cbn. destruct Hk as (te & Hte & Hk). rewrite Hte. eexists. split; [done|]. intros s Hs. destruct te as [s0|]; [|done].
    destruct (shrink_entry_covers evaluate s0 v (Hk s0 eq_refl)) as (s' & Hs' & Hc). rewrite Hs' in Hs. by injection Hs as <-.
Qed.
End known.
