(* ===== verification/ActivePartition.v ===== *)
(** The partition that is filled: the handler of a table slice in [libvast/src/system/active_partition.cpp].

    The streams to the indexers are messages between actors and left out. An assertion that fails is
    [None]. *)

From S2P Require Import Prelude Word Bits BitmapConcept BitmapAlgorithms BitwiseRange Bitmap Operator Data Types RecordType KeySuffix Ip DataOps DataRecord Expression ExpressionSpec ExpressionResolve Evaluate TableSlice Synopsis PartitionSynopsis.

#[local] Set Warnings "-register-all".

Section active_partition.
Context {batch : Type} `{RecordBatchOps batch} {ids : Type} `{BitmapOps ids}.
Context (hash : N → data → N) (attributes : type → option (option (N * N))) (rules : list (list (list N))).
#[local] Abbreviation table_slice := (table_slice batch).

Record active_partition := mk_active_partition {
  data_events : N;
  data_synopsis : partition_synopsis;
  type_ids : list (list N * ids)
}.

(** A new partition; [version] is that of partitions that are written now. *)
Definition new_partition (version : N) : active_partition :=
  mk_active_partition 0 (mk_partition_synopsis 0 time_max time_min version t_none [] []) [].

(** The import times are adjusted. *)
Definition adjust_import_time (ps : partition_synopsis) (t : Z) : partition_synopsis :=
  mk_partition_synopsis (PartitionSynopsis.events ps) (Z.min (min_import_time ps) t) (Z.max (max_import_time ps) t)
    (version ps) (schema ps) (type_synopses_ ps) (field_synopses_ ps).

(** Marks the IDs of a slice for its type. *)
Definition mark_ids (first last : N) (m : ids) : ids :=
  bm_append_bits (bm_append_bits m false (first -u bm_size m)) true (last -u first).

Definition set_offset (x : table_slice) (n : N) : table_slice :=
  mk_table_slice (valid x) (slice_schema x) (to_record_batch x) n (TableSlice.import_time x).

Definition ingest (st : active_partition) (x : table_slice) : option active_partition :=
  let x := if TableSlice.offset x =? invalid_id then set_offset x (data_events st) else x in
  let ps := adjust_import_time (data_synopsis st) (TableSlice.import_time x) in
  let first := TableSlice.offset x in
  let last := TableSlice.offset x +u slice_rows x in
  let name := type.name (slice_schema x) in
  let known := default bm_nil (stable_map.lookup name (type_ids st)) in
  if negb (TableSlice.offset x =? data_events st) then None
  else if bytes_eqb name [] then None
  else if first <? bm_size known then None
  else if negb (negb (type.is_some (schema ps)) || type_eqb (schema ps) (slice_schema x)) then None
  else
    Some (mk_active_partition (data_events st +u slice_rows x)
      (add_slice hash attributes rules (slice_schema x) (batch_columns (to_record_batch x)) ps)
      (stable_map.assign name (mark_ids first last known) (stable_map.emplace name bm_nil (type_ids st)))).

Definition ingest_all (st : active_partition) (xs : list table_slice) : option active_partition :=
  foldl (λ st x, st ← st; ingest st x) (Some st) xs.
End active_partition.
Arguments active_partition : clear implicits.

(** ** What a filled partition knows *)

Section filled.
Context {batch : Type} `{RecordBatch batch} {ids : Type} `{StrictRange ids}.
Context (hash : N → data → N) (attributes : type → option (option (N * N))) (rules : list (list (list N))).
#[local] Abbreviation table_slice := (table_slice batch).
#[local] Abbreviation active_partition := (active_partition ids).
#[local] Abbreviation ingest := (ingest hash attributes rules).
#[local] Abbreviation ingest_all := (ingest_all hash attributes rules).
#[local] Abbreviation known := (known hash).
Context (t : type) (fields : list field) (Hrec : record_type.as_record t = Some fields).
Implicit Types (st : active_partition) (x : table_slice).

(** Slices of one schema with values of the right types and rows that the partition can count. *)
Definition slice_of_type x : Prop :=
  slice_schema x = t ∧ valid x = true ∧ slice_ok fields (batch_columns (to_record_batch x)).

Definition knows_slice (ps : partition_synopsis) x : Prop :=
  (min_import_time ps <= TableSlice.import_time x <= max_import_time ps)%Z ∧
  ∀ i l c v, record_type.leaves fields !! i = Some l → batch_columns (to_record_batch x) !! i = Some c → v ∈ c →
    known ps (qualified_record_field.make (type.name t) fields l.1) v.

Lemma add_slice_import_time ts cols ps :
  min_import_time (add_slice hash attributes rules ts cols ps) = min_import_time ps ∧
  max_import_time (add_slice hash attributes rules ts cols ps) = max_import_time ps.
Proof.
  unfold add_slice. set (ps0 := if negb (type.is_some (schema ps)) then set_schema ps ts else ps).
  assert (min_import_time ps0 = min_import_time ps ∧ max_import_time ps0 = max_import_time ps) as [<- <-] by (unfold ps0; by destruct (negb _)).
  generalize (zip (record_type.leaves (default [] (record_type.as_record (schema ps0)))) cols) as lcs.
  generalize (default [] (record_type.as_record (schema ps0))) as fs. clearbody ps0. intros fs lcs. revert ps0.
  induction lcs as [|lc lcs IH]; intros ps0; [done|]. cbn [foldl]. destruct (IH (add_leaf hash attributes rules
    (qualified_record_field.make (type.name (schema ps0)) fs lc.1.1) lc.1.2.2 lc.2 ps0)) as [-> ->].
  unfold add_leaf. by destruct (get_field_fprate _ _).
Qed.

Definition partition_wf st : Prop :=
  synopses_wf rules (data_synopsis st) ∧ (schema (data_synopsis st) = t ∨ type.is_some (schema (data_synopsis st)) = false).

Lemma ingest_spec st x st' : slice_of_type x → partition_wf st → ingest st x = Some st' →
  partition_wf st' ∧ schema (data_synopsis st') = t ∧ knows_slice (data_synopsis st') x ∧
  ∀ y, knows_slice (data_synopsis st) y → knows_slice (data_synopsis st') y.
Proof.
  intros (Hs & Hv & Hok) [Hwf Hsch] Hin. unfold ActivePartition.ingest in Hin.
  set (x' := if TableSlice.offset x =? invalid_id then set_offset x (data_events st) else x) in Hin.
  assert (slice_schema x' = t ∧ batch_columns (to_record_batch x') = batch_columns (to_record_batch x) ∧
    TableSlice.import_time x' = TableSlice.import_time x) as (Hs' & Hc' & Ht') by (unfold x'; by destruct (_ =? _)).
  repeat (destruct (_ : bool) in Hin; [done|]). injection Hin as <-. cbn [data_synopsis]. rewrite Hs', Hc', Ht'.
  set (ps := adjust_import_time (data_synopsis st) (TableSlice.import_time x)).
  destruct (add_slice_spec hash attributes rules t fields (batch_columns (to_record_batch x)) ps Hrec Hsch Hok Hwf) as (S1 & S2 & S3 & S4).
  destruct (add_slice_import_time t (batch_columns (to_record_batch x)) ps) as [Hmin Hmax]. unfold knows_slice. rewrite Hmin, Hmax.
  split; [split; auto|]. split; [done|]. split.
  - split; [cbn; lia|]. intros i l c v Hl Hc Hv'. by eapply S4.
  - intros y [Hy Hk]. split; [cbn; lia|]. intros i l c v Hl Hc Hv'. apply S3. exact (Hk i l c v Hl Hc Hv').
Qed.

Lemma ingest_all_spec xs st st' : Forall slice_of_type xs → partition_wf st → ingest_all st xs = Some st' →
  partition_wf st' ∧ (xs ≠ [] → schema (data_synopsis st') = t) ∧ Forall (knows_slice (data_synopsis st')) xs ∧
  ∀ y, knows_slice (data_synopsis st) y → knows_slice (data_synopsis st') y.
Proof.
  unfold ActivePartition.ingest_all. revert st. induction xs as [|x xs IH]; intros st Hx Hwf Hi.
  { injection Hi as <-. split; [done|]. split; [done|]. split; [constructor|done]. }
  apply list.Forall_cons in Hx as [Hx Hxs]. cbn [foldl mbind option_bind] in Hi.
  destruct (ingest st x) as [st1|] eqn:E.
  - destruct (ingest_spec st x st1 Hx Hwf E) as (H1' & Hsch & H2' & H3'). destruct (IH st1 Hxs H1' Hi) as (I1 & I0 & I2 & I3).
    split; [done|]. split; [|split; [by constructor; [apply I3|]|auto]]. intros _. destruct xs; [by injection Hi as <-|by apply I0].
  - exfalso. clear -Hi. induction xs as [|y ys IH]; [done|]. apply IH. exact Hi.
Qed.

(** The IDs of a partition: [n] events, all of the type. *)
Definition counts st (n : N) : Prop :=
  data_events st = n ∧
  match stable_map.lookup (type.name t) (type_ids st) with
  | Some m => represents m n (λ _, true)
  | None => n = 0
  end.

Lemma ingest_counts st x n : slice_of_type x → partition_wf st → TableSlice.offset x = invalid_id → type.name t ≠ [] →
  counts st n → n + slice_rows x <= max_size → ∃ st', ingest st x = Some st' ∧ counts st' (n + slice_rows x).
Proof.
  intros (Hs & Hv & _) [_ Hsch] Ho Hname [Hn Hids] Hmax. unfold ActivePartition.ingest.
  set (x' := if TableSlice.offset x =? invalid_id then set_offset x (data_events st) else x).
  assert (x' = set_offset x (data_events st)) as -> by (unfold x'; by rewrite Ho, N.eqb_refl). cbv zeta. change (TableSlice.offset (set_offset x (data_events st))) with (data_events st).
  change (slice_schema (set_offset x (data_events st))) with (slice_schema x).
  unfold bytes_eqb. rewrite Hs, N.eqb_refl, bool_decide_eq_false_2 by done. cbn [negb].
  set (known := default bm_nil (stable_map.lookup (type.name t) (type_ids st))).
  assert (represents known n (λ _, true)) as Hk.
  { unfold known. destruct (stable_map.lookup _ _); [done|]. cbn. subst n. rewrite Hids. apply nil_represents. }
  rewrite (represents_size _ _ _ Hk), Hn. assert ((n <? n) = false) as -> by (apply N.ltb_ge; lia).
  assert (negb (type.is_some (schema (data_synopsis st))) || type_eqb (schema (data_synopsis st)) t = true) as Hsc.
  { destruct Hsch as [-> | ->]; [|done]. by rewrite (proj2 (type_eqb_spec t t) eq_refl), orb_true_r. }
  cbn [adjust_import_time schema]. rewrite Hsc. cbn [negb]. eexists. split; [done|].
  change (slice_rows (set_offset x n)) with (slice_rows x). unfold max_size in Hmax.
  rewrite !(wrap_small (n + slice_rows x)) by lia. split; [done|]. cbn [type_ids]. rewrite lookup_assign.
  rewrite decide_True by done. unfold mark_ids. rewrite (represents_size _ _ _ Hk).
  replace (n -u n) with 0 by (rewrite usub_small; lia). replace (n + slice_rows x -u n) with (slice_rows x) by (rewrite usub_small; lia).
  pose proof (append_bits_represents _ _ _ false 0 Hk ltac:(unfold max_size; lia)) as Hk0. rewrite N.add_0_r in Hk0.
  eapply represents_ext; [apply (append_bits_represents _ _ _ true (slice_rows x) Hk0); unfold max_size; lia|].
  intros i Hi. cbv beta. by destruct (i <? n).
Qed.

(** Slices without an offset, as the partition gets them, are counted one behind the other. *)
Lemma ingest_all_counts xs st n : Forall (λ x, slice_of_type x ∧ TableSlice.offset x = invalid_id) xs → partition_wf st →
  type.name t ≠ [] → counts st n → n + foldr (λ x m, slice_rows x + m) 0 xs <= max_size →
  ∃ st', ingest_all st xs = Some st' ∧ counts st' (n + foldr (λ x m, slice_rows x + m) 0 xs).
Proof.
  unfold ActivePartition.ingest_all. revert st n. induction xs as [|x xs IH]; intros st n Hx Hwf Hname Hc Hmax.
  { exists st. rewrite N.add_0_r. done. }
  apply list.Forall_cons in Hx as [[Hx Ho] Hxs]. cbn [foldr foldl mbind option_bind] in *.
  destruct (ingest_counts st x n Hx Hwf Ho Hname Hc ltac:(lia)) as (st1 & E & Hc1). rewrite E.
  destruct (ingest_spec st x st1 Hx Hwf E) as (Hwf1 & _). rewrite N.add_assoc in *. by apply IH.
Qed.

(** The type of the slices has IDs. *)
Lemma ingest_all_marks xs st st' : xs ≠ [] → Forall (λ x, slice_schema x = t) xs → ingest_all st xs = Some st' →
  ∃ m, stable_map.lookup (type.name t) (type_ids st') = Some m.
Proof.
  unfold ActivePartition.ingest_all.
  assert (∀ st x st', slice_schema x = t → ingest st x = Some st' → ∃ m, stable_map.lookup (type.name t) (type_ids st') = Some m) as Hone.
  { intros st0 x st1 Hs Hin. unfold ActivePartition.ingest in Hin.
    set (x' := if TableSlice.offset x =? invalid_id then set_offset x (data_events st0) else x) in Hin.
    assert (slice_schema x' = t) as Hs' by (unfold x'; by destruct (_ =? _)).
    repeat (destruct (_ : bool) in Hin; [done|]). injection Hin as <-. cbn [type_ids]. rewrite Hs', lookup_assign, decide_True by done. by eexists. }
  intros Hne Hx. revert st Hne. induction Hx as [|x xs Hx Hxs IH]; intros st Hne Hi; [done|]. cbn [foldl mbind option_bind] in Hi.
  destruct (ingest st x) as [st1|] eqn:E.
  - destruct xs as [|y ys]; [injection Hi as <-; by eapply Hone|]. by apply (IH st1).
  - exfalso. clear -Hi. induction xs as [|y ys IH]; [done|]. apply IH. exact Hi.
Qed.
End filled.
