(* ===== verification/Catalog.v ===== *)
(** The catalog, which selects the partitions that can have matches: [libvast/src/system/catalog.cpp]
    and [partition_info] of [libvast/include/vast/partition_synopsis.hpp].

    A UUID is a number. The map from types to partitions is an association list, the partitions of a
    type are a list sorted by UUID, as the [flat_map] of the source is. Where a lookup in a synopsis
    raises an exception the result is [None]. *)

From S2P Require Import Prelude SetOperations Operator Data Types RecordType KeySuffix Ip DataOps DataRecord Expression Taxonomies Synopsis PartitionSynopsis.
Import qualified_record_field(schema_name, field_name, field_type).

#[local] Set Warnings "-register-all".

Record partition_info := mk_partition_info {
  uuid : N;
  info_events : N;
  info_max_import_time : Z;
  info_schema : type;
  info_version : N
}.
Definition make_info (p : N * partition_synopsis) : partition_info :=
  mk_partition_info p.1 (events p.2) (max_import_time p.2) (schema p.2) (version p.2).

(** The comparisons of [partition_info]. *)
Definition info_ltb (x y : partition_info) : bool := uuid x <? uuid y.
Definition info_eqb (x y : partition_info) : bool := uuid x =? uuid y.

Section lookup.
Context (hash : N → data → N) (regex_match regex_search : list N → list N → bool).

(** The partitions of one type. *)
Context (partition_synopses : list (N * partition_synopsis)).

Definition all_partitions : list partition_info := make_info <$> partition_synopses.

(** Whether a key names a field: it ends the name of the field, or is the name of the field behind the
    end of the name of the schema. *)
Definition match_name (key : list N) (field : qualified_record_field.t) : bool :=
  let field_name := field_name field in
  let schema_name := schema_name field in
  if (length key <=? length field_name)%nat then
    let pos := (length field_name - length key)%nat in
    bool_decide (drop pos field_name = key) &&
    ((pos =? 0)%nat || bool_decide (field_name !! (pos - 1)%nat = Some record_type.dot))
  else if (length schema_name + 1 + length field_name <? length key)%nat then false
  else
    let pos := (length key - length field_name)%nat in
    if negb (bool_decide (drop pos key = field_name)) then false
    else if negb (bool_decide (key !! (pos - 1)%nat = Some record_type.dot)) then false
    else
      let fpos := (length schema_name - (pos - 1))%nat in
      bool_decide (take (pos - 1) key = drop fpos schema_name) &&
      ((fpos =? 0)%nat || bool_decide (schema_name !! (fpos - 1)%nat = Some record_type.dot)).

(** Whether a synopsis cannot rule out the predicate. *)
Definition may_match (s : synopsis) (op : relational_operator) (rhs : data) : option bool :=
  (λ opt, match opt with Some false => false | _ => true end) <$> lookup hash s op rhs.

(** The loop over the fields of one partition, up to the [break]. *)
Fixpoint search_fields (matches : qualified_record_field.t → bool) (op : relational_operator) (rhs : data)
    (ps : partition_synopsis) (fields : list (qualified_record_field.t * option synopsis)) : option bool :=
  match fields with
  | [] => Some false
  | (field, syn) :: fields =>
      if matches field then
        let cleaned_type := type.resolve_transparent (field_type field) in
        let try s :=
          match may_match s op rhs with
          | None => None
          | Some true => Some true
          | Some false => search_fields matches op rhs ps fields
          end in
        match syn with
        | Some s => try s
        | None =>
            match stable_map.lookup cleaned_type (type_synopses_ ps) with
            | Some (Some s) => try s
            | _ => Some true
            end
        end
      else search_fields matches op rhs ps fields
  end.

(** The partitions for which a test succeeds; an exception of one test is one of the lookup. *)
Fixpoint select (test : N * partition_synopsis → option bool) (parts : list (N * partition_synopsis))
    : option (list partition_info) :=
  match parts with
  | [] => Some []
  | p :: parts =>
      match test p with
      | None => None
      | Some b => (λ r, if b then make_info p :: r else r) <$> select test parts
      end
  end.
Definition search (matches : qualified_record_field.t → bool) (op : relational_operator) (rhs : data)
    : option (list partition_info) :=
  select (λ p, search_fields matches op rhs p.2 (field_synopses_ p.2)) partition_synopses.

(** What [search] asks of a field. *)
Definition field_matches (key : list N) (op : relational_operator) (d : data) (field : qualified_record_field.t) : bool :=
  match_name key field && type.compatible (field_type field) op d.
Definition named_type_matches (name : list N) (op : relational_operator) (d : data) (field : qualified_record_field.t) : bool :=
  existsb (bytes_eqb name) (type.names (field_type field)) && type.compatible (field_type field) op d.
Definition type_matches (t : type) (field : qualified_record_field.t) : bool := type.congruent (field_type field) t.
Definition timestamp_matches (field : qualified_record_field.t) : bool :=
  type_resolver.has_timestamp_attribute (field_type field).

(** A lookup by a predicate. *)
Definition lookup_predicate (p : predicate) : option (list partition_info) :=
  match lhs p, rhs p with
  | meta_extractor meta_type, o_data d =>
      select (λ q, Some (existsb (λ f, evaluate regex_match regex_search (d_string (schema_name f.1)) (op p) d)
                           (field_synopses_ q.2))) partition_synopses
  | meta_extractor meta_import_time, o_data d =>
      select (λ q, match d with
                   | d_time _ => may_match (time_synopsis (min_import_time q.2) (max_import_time q.2)) (op p) d
                   | _ => None
                   end) partition_synopses
  | field_extractor key, o_data d => search (field_matches key (op p) d) (op p) d
  | type_extractor t, o_data d =>
      match (if negb (type.is_some t) then search (named_type_matches (type.name t) (op p) d) (op p) d
             else search (type_matches t) (op p) d) with
      | None => None
      | Some result =>
          if bytes_eqb (type.name t) type_resolver.timestamp
          then inplace_unify info_ltb info_eqb result <$> search timestamp_matches (op p) d
          else Some result
      end
  | _, _ => Some all_partitions
  end.

(** The loop of a conjunction behind its first operand. *)
Fixpoint lookup_conjuncts (result : list partition_info) (xs : list (option (list partition_info)))
    : option (list partition_info) :=
  match xs with
  | [] => Some result
  | None :: _ => None
  | Some [] :: _ => Some []
  | Some x :: xs => lookup_conjuncts (inplace_intersect info_ltb result x) xs
  end.
(** The loop of a disjunction. *)
Fixpoint lookup_disjuncts (result : list partition_info) (xs : list (option (list partition_info)))
    : option (list partition_info) :=
  match xs with
  | [] => Some result
  | None :: _ => None
  | Some x :: xs =>
      if (length x =? length partition_synopses)%nat then Some x
      else lookup_disjuncts (inplace_unify info_ltb info_eqb result x) xs
  end.

(** [lookup_impl]; a conjunction without operands is excluded by an assertion. *)
Fixpoint lookup_impl (e : expression) : option (list partition_info) :=
  match e with
  | conjunction xs =>
      match lookup_impl <$> xs with
      | [] | None :: _ => None
      | Some [] :: _ => Some []
      | Some result :: xs => lookup_conjuncts result xs
      end
  | disjunction xs => lookup_disjuncts [] (lookup_impl <$> xs)
  | negation _ => Some all_partitions
  | e_predicate p => lookup_predicate p
  | e_none => Some all_partitions
  end.
End lookup.

(** ** The state *)

Module catalog_state.
Record t := mk {
  synopses_per_type : list (type * list (N * partition_synopsis));
  unprunable_fields : list (list N)
}.
Definition empty : t := mk [] [].

(** Assignment to the element of a [flat_map]. *)
Fixpoint insert_sorted (id : N) (ps : partition_synopsis) (m : list (N * partition_synopsis)) : list (N * partition_synopsis) :=
  match m with
  | [] => [(id, ps)]
  | p :: m' =>
      if id <? p.1 then (id, ps) :: m
      else if id =? p.1 then (id, ps) :: m'
      else p :: insert_sorted id ps m'
  end.

(** [update_unprunable_fields]: fields of type string with their own synopsis. *)
Definition update_unprunable_fields (ps : partition_synopsis) (unprunable : list (list N)) : list (list N) :=
  foldl (λ u f, match f.2 with
                | Some _ =>
                    if type_eqb (field_type f.1) t_string && negb (existsb (bytes_eqb (qualified_record_field.name f.1)) u)
                    then u ++ [qualified_record_field.name f.1] else u
                | None => u
                end) unprunable (field_synopses_ ps).

(** [merge] *)
Definition merge (id : N) (ps : partition_synopsis) (s : t) : t :=
  mk (stable_map.assign (schema ps)
        (insert_sorted id ps (default [] (stable_map.lookup (schema ps) (synopses_per_type s))))
        (synopses_per_type s))
     (update_unprunable_fields ps (unprunable_fields s)).

(** [erase]: the first type that has the partition loses it, and is removed if it has no other. *)
Fixpoint erase_loop (id : N) (m : list (type * list (N * partition_synopsis))) : list (type * list (N * partition_synopsis)) :=
  match m with
  | [] => []
  | (t, parts) :: m' =>
      if existsb (λ p, p.1 =? id) parts then
        match filter (λ p, p.1 ≠ id) parts with
        | [] => m'
        | parts => (t, parts) :: m'
        end
      else (t, parts) :: erase_loop id m'
  end.
Definition erase (id : N) (s : t) : t := mk (erase_loop id (synopses_per_type s)) (unprunable_fields s).

(** [create_from]: groups the partitions by their schema and sorts each group. *)
Definition create_from (ps : list (N * partition_synopsis)) (s : t) : t :=
  let flat := foldl (λ m p, stable_map.assign (schema p.2)
      (insert_sorted p.1 p.2 (default [] (stable_map.lookup (schema p.2) m))) m) [] ps in
  mk (foldl (λ m g, stable_map.assign g.1 g.2 m) (synopses_per_type s) flat)
     (foldl (λ u p, update_unprunable_fields p.2 u) (unprunable_fields s) ps).

(** [lookup]: the candidates of each type, the most recent first. [std::sort] leaves the order of equal
    elements open. *)
Section lookup.
Context (hash : N → data → N) (regex_match regex_search : list N → list N → bool).
Context (sort : list partition_info → list partition_info) (ts : taxonomies) (fuel : nat).

Fixpoint lookup_types (pruned : expression) (groups : list (type * list (N * partition_synopsis)))
    (total_candidates : list (type * list partition_info)) : option (expected (list (type * list partition_info))) :=
  match groups with
  | [] => Some (value total_candidates)
  | (ty, parts) :: groups =>
      resolved ← resolve_type ts fuel pruned ty;
      match resolved with
      | error e => Some (error e)
      | value e =>
          candidates_per_type ← lookup_impl hash regex_match regex_search parts e;
          lookup_types pruned groups (stable_map.assign ty (sort candidates_per_type) total_candidates)
      end
  end.
Definition lookup (s : t) (e : expression) : option (expected (list (type * list partition_info))) :=
  pruned ← prune (λ f, existsb (bytes_eqb f) (unprunable_fields s)) e;
  lookup_types pruned (synopses_per_type s) [].
End lookup.
End catalog_state.
