(* ===== verification/CatalogSpec.v ===== *)
(** What the catalog finds: a lookup is the boolean combination of the tests of its predicates, and no
    partition with a match is missed. *)

From S2P Require Import Prelude SetOperations Operator Data Types RecordType KeySuffix Ip DataOps DataRecord Expression ExpressionSpec ExpressionResolve ExpressionPrune Synopsis PartitionSynopsis Catalog.
Import qualified_record_field(schema_name, field_name, field_type).

(** ** Lookups are selections *)

Lemma intersect_fmap {A B} (f : A → B) (lt : B → B → bool) xs ys :
  inplace_intersect lt (f <$> xs) (f <$> ys) = f <$> inplace_intersect (λ x y, lt (f x) (f y)) xs ys.
Proof.
  revert ys. induction xs as [|x xs IHx]; [by intros []|]. induction ys as [|y ys IHy]; [done|].
  cbn [fmap list_fmap inplace_intersect]. destruct (lt (f x) (f y)); [apply (IHx (y :: ys))|].
  destruct (lt (f y) (f x)); [exact IHy|]. cbn [fmap list_fmap]. f_equal. apply IHx.
Qed.

Lemma merge_fmap {A B} (f : A → B) (lt : B → B → bool) xs ys :
  merge_sorted lt (f <$> xs) (f <$> ys) = f <$> merge_sorted (λ x y, lt (f x) (f y)) xs ys.
Proof.
  revert ys. induction xs as [|x xs IHx]; [by intros []|]. induction ys as [|y ys IHy]; [done|].
  cbn [fmap list_fmap merge_sorted]. destruct (lt (f y) (f x)).
  - cbn [fmap list_fmap]. f_equal. exact IHy.
  - cbn [fmap list_fmap]. f_equal. apply (IHx (y :: ys)).
Qed.

Lemma unify_fmap {A B} (f : A → B) (lt eq : B → B → bool) xs ys :
  inplace_unify lt eq (f <$> xs) (f <$> ys) = f <$> inplace_unify (λ x y, lt (f x) (f y)) (λ x y, eq (f x) (f y)) xs ys.
Proof.
  unfold inplace_unify. rewrite merge_fmap. destruct (merge_sorted _ xs ys) as [|z zs]; [done|].
  cbn [fmap list_fmap unique]. f_equal. revert z. induction zs as [|y zs IH]; intros z; [done|].
  cbn [fmap list_fmap unique_from]. destruct (eq (f z) (f y)); [apply IH|]. cbn [fmap list_fmap]. f_equal. apply IH.
Qed.

(** Synopses of a partition that is not filled any more. *)
Definition passive (ps : partition_synopsis) : Prop :=
  Forall (λ e, ∀ s, e.2 = Some s → is_buffered s = false) (field_synopses_ ps) ∧
  Forall (λ e, ∀ s, e.2 = Some s → is_buffered s = false) (type_synopses_ ps).

Section lookup.
Context (hash : N → data → N) (regex_match regex_search : list N → list N → bool).
Context (parts : list (N * partition_synopsis)).
Context (Hinc : increasing fst parts) (Hpas : Forall (λ q, passive q.2) parts).

#[local] Abbreviation lookup_impl := (lookup_impl hash regex_match regex_search parts).
#[local] Abbreviation lookup_predicate := (lookup_predicate hash regex_match regex_search parts).

(** The partitions that satisfy a test. *)
Definition selection (test : N * partition_synopsis → bool) : list partition_info :=
  make_info <$> filter (λ q, test q = true) parts.

(** The test of one partition. *)
Definition search_one (matches : qualified_record_field.t → bool) (op : relational_operator) (rhs : data)
    (q : N * partition_synopsis) : bool :=
  default false (search_fields hash matches op rhs q.2 (field_synopses_ q.2)).
Definition predicate_selects (p : predicate) (q : N * partition_synopsis) : bool :=
  match lhs p, rhs p with
  | meta_extractor meta_type, o_data d =>
      existsb (λ f, evaluate regex_match regex_search (d_string (schema_name f.1)) (op p) d) (field_synopses_ q.2)
  | meta_extractor meta_import_time, o_data d =>
      default false (may_match hash (time_synopsis (min_import_time q.2) (max_import_time q.2)) (op p) d)
  | field_extractor key, o_data d => search_one (field_matches key (op p) d) (op p) d q
  | type_extractor t, o_data d =>
      (if negb (type.is_some t) then search_one (named_type_matches (type.name t) (op p) d) (op p) d q
       else search_one (type_matches t) (op p) d q)
      || (bytes_eqb (type.name t) type_resolver.timestamp && search_one timestamp_matches (op p) d q)
  | _, _ => true
  end.

(** The test of an expression: negations and nil are not decided. *)
Fixpoint selects (e : expression) (q : N * partition_synopsis) : bool :=
  match e with
  | conjunction xs => forallb (λ x, selects x q) xs
  | disjunction xs => existsb (λ x, selects x q) xs
  | negation _ | e_none => true
  | e_predicate p => predicate_selects p q
  end.

Lemma search_fields_total matches op rhs ps fields : passive ps →
  Forall (λ e, ∀ s, e.2 = Some s → is_buffered s = false) fields → is_Some (search_fields hash matches op rhs ps fields).
Proof.
  intros [_ Ht]. induction 1 as [|[f e] fields He _ IH]; cbn [search_fields]; [by eexists|].
  destruct (matches f); [|done].
  assert (∀ s, is_buffered s = false → is_Some match may_match hash s op rhs with
    | None => None | Some true => Some true | Some false => search_fields hash matches op rhs ps fields end) as Htry.
  { intros s Hs. unfold may_match. destruct (lookup_total hash s op rhs Hs) as [r ->]. cbn. by destruct r as [[]|]; eauto. }
  destruct e as [s|]; [apply Htry; by apply He|].
  destruct (stable_map.lookup _ (type_synopses_ ps)) as [[s|]|] eqn:E; [|by eexists..]. apply Htry.
  unfold stable_map.lookup in E. apply fmap_Some in E as ([t e] & (p & Hp & ->)%fmap_Some & He'). destruct p as [i p]. cbn in He'.
  apply list_find_Some in Hp as (Hi & _ & _). eapply Forall_lookup_1 in Ht; [|done]. by apply Ht.
Qed.

Lemma select_partitions_spec test b : (∀ q, q ∈ parts → test q = Some (b q)) → select test parts = Some (selection b).
Proof.
  unfold selection. clear Hinc Hpas. induction parts as [|q qs IH]; intros H; [done|]. cbn [select].
  rewrite (H q (list_elem_of_here _ _)), IH by (intros q' Hq'; apply H; by apply list_elem_of_further).
  rewrite filter_cons. cbn. by destruct (b q).
Qed.

Lemma search_spec matches op rhs : search hash parts matches op rhs = Some (selection (search_one matches op rhs)).
Proof.
  apply select_partitions_spec. intros q Hq. unfold search_one. rewrite list.Forall_forall in Hpas.
  destruct (search_fields_total matches op rhs q.2 (field_synopses_ q.2) (Hpas q Hq)) as [b ->]; [apply (Hpas q Hq)|done].
Qed.

Lemma selection_unify f g :
  inplace_unify info_ltb info_eqb (selection f) (selection g) = selection (λ q, f q || g q).
Proof. unfold selection. rewrite unify_fmap. f_equal. by apply (unify_filter fst). Qed.

Lemma selection_intersect f g : inplace_intersect info_ltb (selection f) (selection g) = selection (λ q, f q && g q).
Proof. unfold selection. rewrite intersect_fmap. f_equal. by apply (intersect_filter fst). Qed.

Lemma selection_ext f g : (∀ q, q ∈ parts → f q = g q) → selection f = selection g.
Proof. intros H. unfold selection. f_equal. apply filter_ext_elem. intros q Hq. by rewrite H. Qed.

Lemma selection_all : selection (λ _, true) = all_partitions parts.
Proof.
  unfold selection, all_partitions. f_equal. clear Hinc Hpas. induction parts as [|q qs IH]; [done|].
  rewrite filter_cons. cbn. by rewrite IH.
Qed.

(** Import times are compared with times, which validation ensures. *)
Definition time_rhs (p : predicate) : Prop :=
  match lhs p, rhs p with meta_extractor meta_import_time, o_data d => ∃ x, d = d_time x | _, _ => True end.

(** A lookup by a predicate tests each partition. *)
Lemma lookup_predicate_spec p : time_rhs p → lookup_predicate p = Some (selection (predicate_selects p)).
Proof.
  destruct p as [l o r]. unfold time_rhs, Catalog.lookup_predicate, predicate_selects. cbn [lhs op rhs]. intros Ht.
  destruct l as [[]|key|t|t c|d0], r as [k'|f'|t'|t' c'|d]; try (f_equal; symmetry; apply selection_all).
  - by apply select_partitions_spec.
  - destruct Ht as [x ->]. apply select_partitions_spec. intros q _. unfold may_match. destruct (lookup_total hash (time_synopsis (min_import_time q.2) (max_import_time q.2)) o (d_time x)) as [r ->]; done.
  - apply search_spec.
  - rewrite !search_spec. destruct (type.is_some t); cbn [negb]; destruct (bytes_eqb _ _); cbn [fmap option_fmap option_map andb];
      rewrite ?selection_unify; try done; f_equal; apply selection_ext; intros q _; by rewrite orb_false_r.
Qed.

Lemma length_selection f : length (selection f) = length parts → ∀ q, q ∈ parts → f q = true.
Proof.
  unfold selection. rewrite length_fmap. clear Hinc Hpas. induction parts as [|q qs IH]; intros Hl q' Hq'; [by apply not_elem_of_nil in Hq'|].
  rewrite filter_cons in Hl. pose proof (length_filter (λ q, f q = true) qs) as Hle. destruct (decide (f q = true)) as [Hf|Hf]; cbn in Hl; [|lia].
  apply elem_of_cons in Hq' as [->|Hq']; [done|]. apply IH; [lia|done].
Qed.

Lemma selection_nil f : selection f = [] → ∀ q, q ∈ parts → f q = false.
Proof.
  unfold selection. intros H%fmap_nil_inv q Hq. destruct (f q) eqn:E; [|done].
  assert (q ∈ filter (λ q, f q = true) parts) as Hin by (by apply list_elem_of_filter). rewrite H in Hin. by apply not_elem_of_nil in Hin.
Qed.

Lemma lookup_conjuncts_spec f xs : 
  lookup_conjuncts (selection f) ((λ x, Some (selection (selects x))) <$> xs) = Some (selection (λ q, f q && forallb (λ x, selects x q) xs)).
Proof.
  revert f. induction xs as [|x xs IH]; intros f; cbn [fmap list_fmap lookup_conjuncts].
  { f_equal. apply selection_ext. intros q _. cbn. by rewrite andb_true_r. }
  destruct (selection (selects x)) as [|i rest] eqn:E.
  - f_equal. rewrite <- E. apply selection_ext. intros q Hq. cbn. rewrite (selection_nil _ E q Hq). cbn. by rewrite andb_false_r.
  - rewrite <- E, selection_intersect, IH. f_equal. apply selection_ext. intros q _. cbn. by rewrite andb_assoc.
Qed.

Lemma lookup_disjuncts_spec f xs :
  lookup_disjuncts parts (selection f) ((λ x, Some (selection (selects x))) <$> xs) =
  Some (selection (λ q, f q || existsb (λ x, selects x q) xs)).
Proof.
  revert f. induction xs as [|x xs IH]; intros f; cbn [fmap list_fmap lookup_disjuncts].
  { f_equal. apply selection_ext. intros q _. cbn. by rewrite orb_false_r. }
  destruct (length (selection (selects x)) =? length parts)%nat eqn:E.
  - apply Nat.eqb_eq in E. f_equal. apply selection_ext. intros q Hq. cbn. rewrite (length_selection _ E q Hq). by rewrite orb_true_r.
  - rewrite selection_unify, IH. f_equal. apply selection_ext. intros q _. cbn. by rewrite orb_assoc.
Qed.

(** A lookup selects the partitions that pass the test of the expression. *)
Lemma lookup_impl_spec e : proper time_rhs e → lookup_impl e = Some (selection (selects e)).
Proof.
  induction e as [|xs IH|xs IH|x IH|p] using expression_ind'; try done.
  1,2: rewrite ?proper_disjunction, proper_connective; intros [Hne Hp];
    assert (lookup_impl <$> xs = (λ x, Some (selection (selects x))) <$> xs) as E
      by (apply Forall_fmap_ext; rewrite list.Forall_forall in *; auto).
  - cbn [Catalog.lookup_impl]. rewrite E. destruct xs as [|x xs]; [done|]. cbn [fmap list_fmap].
    destruct (selection (selects x)) as [|i rest] eqn:Ex.
    + f_equal. rewrite <- Ex. apply selection_ext. intros q Hq. cbn. by rewrite (selection_nil _ Ex q Hq).
    + rewrite <- Ex. apply lookup_conjuncts_spec.
  - cbn [Catalog.lookup_impl]. rewrite E. assert ([] = selection (λ _, false)) as ->.
    { unfold selection. clear. induction parts as [|q qs IH]; [done|]. by rewrite filter_cons. }
    rewrite lookup_disjuncts_spec. done.
  - intros _. cbn. by rewrite <- selection_all.
  - apply lookup_predicate_spec.
Qed.
End lookup.

(** ** Names *)

Lemma match_name_suffix key f pre : field_name f = pre ++ key → (pre = [] ∨ ∃ p, pre = p ++ [record_type.dot]) →
  match_name key f = true.
Proof.
  intros Hf Hpre. unfold match_name. rewrite Hf, length_app.
  rewrite (proj2 (Nat.leb_le _ _)) by lia. replace (length pre + length key - length key)%nat with (length pre) by lia.
  rewrite drop_app_length, bool_decide_eq_true_2 by done. cbn [andb]. destruct Hpre as [->|[p ->]]; [done|].
  apply orb_true_iff. right. apply bool_decide_eq_true. rewrite length_app. cbn [length].
  replace (length p + 1 - 1)%nat with (length p) by lia. rewrite <- app_assoc. cbn [app]. by rewrite list_lookup_middle.
Qed.

Lemma match_name_prefix key f a b : key = b ++ record_type.dot :: field_name f → schema_name f = a ++ b →
  (a = [] ∨ ∃ p, a = p ++ [record_type.dot]) → match_name key f = true.
Proof.
  intros -> Hs Ha. unfold match_name. rewrite Hs, !length_app. cbn [length].
  rewrite (proj2 (Nat.leb_gt _ _)) by lia. rewrite (proj2 (Nat.ltb_ge _ _)) by lia.
  replace (length b + S (length (field_name f)) - length (field_name f))%nat with (S (length b)) by lia.
  assert (drop (S (length b)) (b ++ record_type.dot :: field_name f) = field_name f) as ->.
  { rewrite cons_middle, app_assoc, drop_app_length'; [done|]. rewrite length_app. cbn. lia. }
  rewrite bool_decide_eq_true_2 by done. cbn [negb].
  replace (S (length b) - 1)%nat with (length b) by lia. rewrite list_lookup_middle, bool_decide_eq_true_2 by done. cbn [negb].
  replace (length a + length b - length b)%nat with (length a) by lia.
  rewrite take_app_length, drop_app_length, bool_decide_eq_true_2 by done. cbn [andb]. destruct Ha as [->|[p ->]]; [done|].
  apply orb_true_iff. right. apply bool_decide_eq_true. rewrite length_app. cbn [length].
  replace (length p + 1 - 1)%nat with (length p) by lia. rewrite <- app_assoc. cbn [app]. by rewrite list_lookup_middle.
Qed.

Lemma key_path fs o : record_type.key fs o = join <$> path fs o.
Proof.
  revert fs. induction o as [|i o IH]; intros fs; [done|]. cbn [record_type.key path].
  destruct (fs !! i) as [f|]; [|done]. cbn. destruct o as [|j o]; [done|].
  destruct (record_type.as_record f.2) as [nested|]; [|done]. cbn [mbind option_bind]. rewrite IH.
  destruct (path nested (j :: o)) as [ns|] eqn:E; [|done]. cbn. f_equal.
  destruct ns; [|done]. exfalso. cbn [path] in E. apply bind_Some in E as (g & _ & E). destruct o; [done|].
  by apply bind_Some in E as (? & _ & (? & _ & ?)%bind_Some).
Qed.

Lemma join_app a b : a ≠ [] → b ≠ [] → join (a ++ b) = join a ++ record_type.dot :: join b.
Proof.
  induction a as [|n a IH]; intros Ha Hb; [done|]. destruct a as [|m a].
  - cbn. by destruct b.
  - change (join ((n :: m :: a) ++ b)) with (n ++ record_type.dot :: join ((m :: a) ++ b)). rewrite IH by done.
    change (join (n :: m :: a)) with (n ++ record_type.dot :: join (m :: a)). by rewrite <- app_assoc.
Qed.

(** A leaf of a schema as a field of the catalog. *)
Lemma make_field name fields l : l ∈ record_type.leaves fields →
  ∃ ns, path fields l.1 = Some ns ∧
  qualified_record_field.make name fields l.1 = qualified_record_field.mk name (join ns) l.2.2.
Proof.
  intros Hl. destruct (leaves_field fields l Hl) as (Hf & _ & k & Hk). rewrite key_path in Hk. apply fmap_Some in Hk as (ns & Hp & ->).
  exists ns. split; [done|]. unfold qualified_record_field.make. by rewrite key_path, Hp, Hf.
Qed.

(** A key that the resolver finds is one the catalog matches, if what is left of it without the prefix
    can only be a whole path. *)
Definition unambiguous (name : list N) (fields : list field) (key : list N) : Prop :=
  ∀ rest l ns, rest ∈ key_suffix.prefix_keys true name key → l ∈ record_type.leaves fields →
  path fields l.1 = Some ns → suffix_of rest ns → rest = join ns.

Lemma resolved_key_matches name fields key l : well_named (t_record fields) → l ∈ record_type.leaves fields →
  l.1 ∈ key_suffix.resolve_key_suffix fields key name → unambiguous name fields key →
  match_name key (qualified_record_field.make name fields l.1) = true.
Proof.
  intros Hw Hl Hr Hu. destruct (make_field name fields l Hl) as (ns & Hp & ->).
  assert (key ≠ []) as Hk by (intros ->; by apply not_elem_of_nil in Hr).
  rewrite (resolve_key_suffix_spec fields key name l.1 ns l.2) in Hr by (done || by destruct l).
  destruct Hr as [(a & b & -> & Hb & ->)|(a & b & rest & -> & Hb & Ha & -> & Hs)].
  - destruct a as [|n a]; [apply (match_name_suffix _ _ []); auto|].
    apply (match_name_suffix _ _ (join (n :: a) ++ [record_type.dot])); [|right; by eexists].
    cbn [field_name]. by rewrite join_app, <- app_assoc.
  - assert (rest = join ns) as ->.
    { eapply Hu; [|done..]. apply prefix_keys_spec. exists a, b. split_and!; try done. destruct Ha; auto. }
    by eapply (match_name_prefix _ _ a b).
Qed.
