(* ===== verification/CatalogComplete.v ===== *)
(** The catalog misses no partition with a matching event: from the slices that fill a partition to
    the lookup. *)

From S2P Require Import Prelude SetOperations Word Bits BitmapConcept BitmapAlgorithms BitwiseRange Bitmap Operator Data Types RecordType KeySuffix Ip DataOps DataRecord Expression ExpressionSpec ExpressionResolve ExpressionPrune Taxonomies Evaluate TableSlice Synopsis PartitionSynopsis ActivePartition Catalog CatalogSpec.
Import qualified_record_field(schema_name, field_name, field_type).

(** ** Synopses and the evaluation of rows *)

Section synopses.
Context (hash : N → data → N) (regex_match regex_search : list N → list N → bool).
#[local] Abbreviation cell_evaluate := (cell_evaluator.evaluate regex_match regex_search).
#[local] Abbreviation evaluate := (DataOps.evaluate regex_match regex_search).

(** Values without patterns in a list: those are compared by matching in rows only. *)
Definition no_patterns (rhs : data) : bool :=
  match rhs with
  | d_list xs => forallb (λ x, match x with d_pattern _ => false | _ => true end) xs
  | _ => true
  end.
(** What the catalog decides as rows do. *)
Definition decidable_by_catalog (op : relational_operator) (rhs : data) : Prop := supports op rhs ∧ no_patterns rhs = true.

(** Types with a synopsis other than that of booleans. *)
Definition comparable (v : data) : bool := match v with d_time _ | d_string _ | d_ip _ => true | _ => false end.

Lemma cell_equal_data v y : comparable v = true → (match y with d_pattern _ => false | _ => true end) = true →
  cell_evaluator.equal regex_match v y = data_eqb y v.
Proof.
  intros Hv Hy. rewrite (data_eqb_sym y). destruct v, y; try done; by unfold cell_evaluator.equal, cell_evaluator.compare.
Qed.

Lemma cell_in_data v rhs : comparable v = true → no_patterns rhs = true →
  cell_evaluator.in_ regex_match regex_search v rhs = eval_in regex_search v rhs.
Proof.
  intros Hv Hp. assert (∀ ys, forallb (λ x, match x with d_pattern _ => false | _ => true end) ys = true →
    existsb (cell_evaluator.equal regex_match v) ys = existsb (λ y, data_eqb y v) ys) as Hl.
  { induction ys as [|y ys IH]; [done|]. cbn [forallb existsb]. intros [Hy Hys]%andb_true_iff. by rewrite IH, cell_equal_data. }
  destruct v; try done; destruct rhs; try done; by apply Hl.
Qed.

Lemma cell_evaluate_data v op rhs : comparable v = true → no_patterns rhs = true →
  cell_evaluate op v rhs = true → evaluate v op rhs = true.
Proof.
  intros Hv Hp. destruct op; cbn [cell_evaluator.evaluate DataOps.evaluate]; rewrite ?cell_in_data by done.
  1,2: done.
  1,2: by destruct v, rhs.
  all: destruct v; try done; destruct rhs; try done; unfold cell_evaluator.equal, cell_evaluator.less, cell_evaluator.less_equal, cell_evaluator.greater,
    cell_evaluator.greater_equal, cell_evaluator.compare; cbn [to_number data_index N.eqb andb]; try done.
Qed.

(** What a synopsis rules out, no row of a value it covers satisfies. *)
Lemma lookup_sound_cell s op rhs v : decidable_by_catalog op rhs → covers hash s v → lookup hash s op rhs = Some (Some false) →
  cell_evaluate op v rhs = false.
Proof.
  intros [Hs Hp] Hc Hl. destruct s as [t f|mn mx|el f|el xs].
  - destruct Hc as (b & -> & Hb). injection Hl as Hl. destruct rhs as [|c| | | | | | | | | | | | |]; try done.
    destruct op; try done; injection Hl as Hl; destruct b, c; cbn in *; congruence.
  - apply not_true_is_false. intros He. pose proof (lookup_sound hash regex_match regex_search _ op rhs v Hs Hc Hl) as Hf.
    apply cell_evaluate_data in He; [congruence|by destruct Hc as (x & -> & _)|done].
  - apply not_true_is_false. intros He. pose proof (lookup_sound hash regex_match regex_search _ op rhs v Hs Hc Hl) as Hf.
    apply cell_evaluate_data in He; [congruence|by destruct Hc as [Hc _], el, v|done].
  - apply not_true_is_false. intros He. pose proof (lookup_sound hash regex_match regex_search _ op rhs v Hs Hc Hl) as Hf.
    apply cell_evaluate_data in He; [congruence|by destruct Hc as [Hc _], el, v|done].
Qed.

(** No synopsis is made for enumerations and other types whose values it cannot hold. *)
Lemma synopsis_for_none t s : (∀ v, typed_value t v) → ¬ synopsis_for t s.
Proof. intros Ht Hs. pose proof (Hs d_none (Ht d_none)) as Ha. destruct s as [| |el f|el xs]; cbn in Ha; [by destruct Ha|by destruct Ha as (x & ? & _)|by destruct el, Ha|by destruct el]. Qed.

(** A synopsis cannot rule out a predicate that a row with a covered value satisfies. *)
Lemma may_match_cell t s op rhs v : decidable_by_catalog op rhs → is_buffered s = false → synopsis_for t s →
  (is_none v = false → covers hash s v) → cell_holds regex_match regex_search op t rhs v = true →
  may_match hash s op rhs = Some true.
Proof.
  intros Hd Hb Hfor Hc Hh. unfold may_match. destruct (lookup_total hash s op rhs Hb) as [r Hr]. rewrite Hr. cbn. f_equal.
  destruct r as [[]|]; try done. exfalso. unfold cell_holds in Hh. destruct (is_none rhs) eqn:Hn.
  { destruct rhs; try done. by apply (lookup_nil hash s op). }
  assert (is_none v = false) as Hv by (destruct (is_none v) eqn:E; [|done]; destruct rhs; try done; cbn in Hh; by destruct v).
  pose proof (lookup_sound_cell s op rhs v Hd (Hc Hv) Hr) as Hf.
  destruct (type.resolve_transparent t) eqn:Et; try (destruct rhs; try done; rewrite Hv, Hf in Hh; done).
  apply (synopsis_for_none t s); [|done]. intros w. unfold typed_value. by rewrite Et.
Qed.
End synopses.

(** ** Finding a partition *)

Section find.
Context (hash : N → data → N) (attributes : type → option (option (N * N))) (rules : list (list (list N))).
Context (regex_match regex_search : list N → list N → bool).

Lemma shrink_synopsis_for evaluate t s s' : shrink hash evaluate s = Some s' → synopsis_for t s → synopsis_for t s'.
Proof.
  destruct s as [| | |el xs]; try done. cbn [shrink]. intros (mk & _ & (f & Hf & [= <-])%bind_Some)%bind_Some Hs v Hv.
  specialize (Hs v Hv). cbn in Hs. assert (accepts (bloom_filter_synopsis el f) v) as Ha.
  { split; [done|]. unfold make_bloom_filter in Hf. destruct (_ || _) eqn:E; [done|]. injection Hf as <-.
    apply orb_false_iff in E as [E _]. apply N.eqb_neq in E. cbn. unfold reps. by destruct (N.to_nat mk.1) eqn:En; [lia|]. }
  clear -Ha. revert Ha. generalize (bloom_filter_synopsis el f) as s. induction xs as [|x xs IH]; intros s Ha; [done|].
  cbn [foldl]. apply IH. by apply add_accepts.
Qed.

Lemma shrink_entry_for evaluate t e s : (∀ s', e = Some s' → synopsis_for t s') → shrink_entry hash evaluate e = Some s → synopsis_for t s.
Proof.
  destruct e as [s0|]; [|done]. intros He. cbn. destruct (shrink hash evaluate s0) as [s1|] eqn:E; intros [= <-]; [|by apply He].
  eapply shrink_synopsis_for; [done|by apply He].
Qed.

Lemma shrink_wf evaluate ps : synopses_wf rules ps → synopses_wf rules (shrink_partition hash evaluate ps).
Proof.
  intros [Hf Ht]. split; cbn [shrink_partition field_synopses_ type_synopses_ set_type_synopses set_field_synopses];
    [intros k s|intros t s]; rewrite lookup_prod_map; intros (e & He & Hs)%fmap_Some.
  - destruct e as [s0|]; [|done]. apply Hf in He as [He Hr]. split; [|done]. eapply shrink_entry_for; [|by symmetry].
    intros s' [= <-]. done.
  - destruct e as [s0|]; [|done]. apply Ht in He. eapply shrink_entry_for; [|by symmetry]. intros s' [= <-]. done.
Qed.

Lemma map_lookup_elem {K} `{EqDecision K} {V} (k : K) (v : V) m : stable_map.lookup k m = Some v → (k, v) ∈ m.
Proof.
  unfold stable_map.lookup. intros ([k' v'] & ([i p] & Hp & Hkp)%fmap_Some & Hv)%fmap_Some. apply list_find_Some in Hp as (Hi & Hk & _).
  cbn in *. subst. by apply list_elem_of_lookup_2 in Hi.
Qed.

(** One entry that matches and is not ruled out suffices. *)
Lemma search_fields_hit matches op rhs ps fields k e : passive ps →
  Forall (λ e, ∀ s, e.2 = Some s → is_buffered s = false) fields → (k, e) ∈ fields → matches k = true →
  (∀ s, e = Some s → may_match hash s op rhs = Some true) →
  (∀ s, e = None → stable_map.lookup (type.resolve_transparent (field_type k)) (type_synopses_ ps) = Some (Some s) →
     may_match hash s op rhs = Some true) →
  search_fields hash matches op rhs ps fields = Some true.
Proof.
  intros Hpas Hf Hin Hm H1 H2. induction Hf as [|[k' e'] fields He' Hfs IH]; [by apply not_elem_of_nil in Hin|].
  cbn [search_fields]. apply elem_of_cons in Hin as [[= <- <-]|Hin].
  - rewrite Hm. destruct e as [s|]; [by rewrite H1|].
    destruct (stable_map.lookup _ (type_synopses_ ps)) as [[s|]|] eqn:E; [|done..]. by rewrite H2.
  - specialize (IH Hin). destruct (matches k'); [|done].
    assert (∀ s, is_buffered s = false → match may_match hash s op rhs with
      | None => None | Some true => Some true | Some false => search_fields hash matches op rhs ps fields end = Some true) as Htry.
    { intros s Hs. unfold may_match. destruct (lookup_total hash s op rhs Hs) as [r ->]. cbn. by destruct r as [[]|]. }
    destruct e' as [s|]; [apply Htry; by apply He'|].
    destruct (stable_map.lookup (type.resolve_transparent (field_type k')) (type_synopses_ ps)) as [[s|]|] eqn:E; [|done..]. apply Htry.
    apply map_lookup_elem in E. destruct Hpas as [_ Ht]. rewrite list.Forall_forall in Ht. by apply (Ht _ E).
Qed.

Lemma search_known matches op rhs ps k v : passive ps → synopses_wf rules ps → known hash ps k v → matches k = true →
  decidable_by_catalog op rhs → cell_holds regex_match regex_search op (field_type k) rhs v = true →
  search_fields hash matches op rhs ps (field_synopses_ ps) = Some true.
Proof.
  intros Hpas [Hwf Hwt] (e & He & Hk) Hm Hd Hh. pose proof Hpas as [Hpf Hpt].
  eapply search_fields_hit; [done|done|by apply map_lookup_elem|done|..].
  - intros s ->. destruct (Hwf k s He) as [Hfor _]. eapply may_match_cell; [done| |done|done|done].
    apply map_lookup_elem in He. rewrite list.Forall_forall in Hpf. by apply (Hpf _ He).
  - intros s -> Hs. eapply may_match_cell; [done| | | |exact Hh].
    + apply map_lookup_elem in Hs. rewrite list.Forall_forall in Hpt. by apply (Hpt _ Hs).
    + eapply synopsis_for_clean; [|exact (Hwt _ _ Hs)]. apply resolve_transparent_idemp.
    + intros Hn. destruct (Hk Hn) as (te & Hte & Hc). rewrite Hs in Hte. injection Hte as <-. by apply Hc.
Qed.
End find.

(** ** No false negatives *)

Section complete.
Context {batch : Type} `{RecordBatch batch} {ids : Type} `{StrictRange ids}.
Context (hash : N → data → N) (attributes : type → option (option (N * N))) (rules : list (list (list N))).
Context (regex_match regex_search : list N → list N → bool).
Context (t : type) (fields : list field) (Hrec : record_type.as_record t = Some fields) (Hnamed : well_named (t_record fields)).
Context (Hleaves : record_type.leaves fields ≠ []).
#[local] Abbreviation table_slice := (table_slice batch).
Implicit Types (x : table_slice).

(** What a predicate has to be: on an extractor, decided by synopses as by rows, and with a key that
    means one path. *)
Definition answerable (p : predicate) : Prop :=
  extracts p ∧ time_rhs p ∧
  match lhs p, rhs p with
  | field_extractor key, o_data d => decidable_by_catalog (op p) d ∧ unambiguous (type.name t) fields key
  | _, o_data d => decidable_by_catalog (op p) d
  | _, _ => False
  end.

(** What the catalog has for a partition that holds a slice. *)
Definition holds_slice (ps : partition_synopsis) x : Prop :=
  slice_schema x = t ∧ table_slice_wf x ∧ passive ps ∧ synopses_wf rules ps ∧ knows_slice hash t fields ps x.

Section partition.
Context (u : N) (ps : partition_synopsis) (x : table_slice) (Hx : holds_slice ps x) (id : N).
Context (Hid : first_id x <= id < first_id x + slice_rows x).
#[local] Abbreviation row :=
  (row_holds regex_match regex_search (type.name t) (batch_columns (to_record_batch x)) (TableSlice.import_time x) (first_id x) id).

Lemma slice_fields_type : slice_fields x = fields.
Proof. destruct Hx as (Ht & _). unfold slice_fields. by rewrite Ht, Hrec. Qed.

Lemma column_found matches tt c o d : column_of fields tt c →
  row (mk_predicate (data_extractor tt c) o (o_data d)) = true → decidable_by_catalog o d →
  (∀ l, record_type.leaves fields !! N.to_nat c = Some l → l.2.2 = tt →
     matches (qualified_record_field.make (type.name t) fields l.1) = true) →
  search_one hash matches o d (u, ps) = true.
Proof.
  intros (l & Hl & Ht) Hr Hd Hm. destruct Hx as (_ & (_ & _ & [_ Hcols] & _) & Hpas & Hwf & Himp & Hk).
  rewrite slice_fields_type in Hcols. destruct (Hcols _ _ Hl) as (array & Harr & Hlen & _).
  unfold row_holds in Hr. cbn [lhs op rhs] in Hr. rewrite Harr in Hr. cbn [from_option Datatypes.id] in Hr.
  destruct (leaves_field fields l) as (Hf & _); [by eapply list_elem_of_lookup_2|].
  assert (field_type (qualified_record_field.make (type.name t) fields l.1) = tt) as Htype by (cbn; by rewrite Hf).
  unfold search_one. cbn [snd].
  erewrite (search_known hash rules regex_match regex_search); [done|done|done| |by apply Hm|done|rewrite Htype; exact Hr].
  apply (Hk _ _ _ _ Hl Harr). unfold cell.
  destruct (lookup_lt_is_Some_2 array (N.to_nat (id - first_id x))) as [v Hv]; [unfold lenN in Hlen; lia|].
  rewrite Hv. by eapply list_elem_of_lookup_2.
Qed.

Lemma any_column_some v op d columns : any_column v op d columns = true →
  ∃ tc, tc ∈ columns ∧ v (mk_predicate (data_extractor tc.1 tc.2) op (o_data d)) = true.
Proof.
  unfold any_column. destruct columns as [|tc columns]; [done|]. destruct (is_negated op).
  - cbn [forallb]. intros [Htc _]%andb_true_iff. exists tc. split; [apply list_elem_of_here|done].
  - intros (tc' & Hin & Htc)%existsb_exists. exists tc'. split; [by apply list_elem_of_In|done].
Qed.

Lemma type_columns_found f matches op d : any_column row op d (type_columns fields f) = true → decidable_by_catalog op d →
  (∀ l, l ∈ record_type.leaves fields → f l.2.2 = true → matches (qualified_record_field.make (type.name t) fields l.1) = true) →
  search_one hash matches op d (u, ps) = true.
Proof.
  intros ([tt c] & Hin & Hr)%any_column_some Hd Hm. cbn [fst snd] in Hr. apply type_columns_of in Hin as [Hcol Hf].
  eapply column_found; [done..|]. intros l Hl Ht. apply Hm; [by eapply list_elem_of_lookup_2|by rewrite Ht].
Qed.

Lemma field_columns_key key o d tt c l : (tt, c) ∈ field_columns fields (type.name t) key o d →
  record_type.leaves fields !! N.to_nat c = Some l → l.1 ∈ key_suffix.resolve_key_suffix fields key (type.name t).
Proof.
  unfold field_columns. rewrite list_elem_of_filter, list_elem_of_omap. intros (_ & idx & Hidx & Hd) Hl.
  unfold type_resolver.make_data_extractor in Hd. apply bind_Some in Hd as (f & _ & (n & Hn & [= _ <-])%bind_Some).
  rewrite <- flat_index_resolve, resolve_flat_index_spec, Hl in Hn. by injection Hn as ->.
Qed.

Lemma predicate_found p : answerable p → meaning fields (type.name t) row p = true →
  predicate_selects hash regex_match regex_search p (u, ps) = true.
Proof.
  destruct p as [l o r]. unfold answerable, extracts, time_rhs, meaning, predicate_selects. cbn [lhs op rhs].
  assert (∀ lf, lf ∈ record_type.leaves fields → field_type (qualified_record_field.make (type.name t) fields lf.1) = lf.2.2) as Hft.
  { intros lf Hlf. destruct (leaves_field fields lf Hlf) as [Hf _]. cbn. by rewrite Hf. }
  destruct l as [[]|key|tt|tt c|d0], r as [| | | |d]; try (by intros [? _]); intros (_ & Ht & Hd) Hm.
  - unfold row_holds in Hm. cbn [lhs op rhs evaluate_meta_extractor] in Hm.
    apply cell_evaluate_data in Hm; [|done|apply Hd].
    destruct (record_type.leaves fields) as [|lf rest] eqn:El; [done|].
    destruct Hx as (_ & (_ & Hpos & [_ Hcols] & _) & _ & _ & _ & Hk). rewrite slice_fields_type, El in Hcols. rewrite El in Hk.
    destruct (Hcols 0%nat lf eq_refl) as (array & Harr & Hlen & _). destruct array as [|v array]; [unfold lenN in Hlen; cbn in Hlen; lia|].
    destruct (Hk 0%nat lf _ v eq_refl Harr (list_elem_of_here _ _)) as (e & He & _). apply map_lookup_elem in He.
    apply existsb_exists. eexists. split; [by apply list_elem_of_In|]. done.
  - destruct Ht as [z ->]. unfold row_holds in Hm. cbn [lhs op rhs evaluate_meta_extractor] in Hm. cbn [snd].
    rewrite (may_match_cell hash regex_match regex_search t_time _ o (d_time z) (d_time (TableSlice.import_time x))); [done|done|done| | |].
    + intros v Hv. done.
    + intros _. exists (TableSlice.import_time x). split; [done|]. apply Hx.
    + unfold cell_holds. cbn. exact Hm.
  - destruct Hd as [Hd Hu]. apply any_column_some in Hm as ([tt c] & Hin & Hr). cbn [fst snd] in Hr.
    pose proof (field_columns_of _ _ _ _ _ _ _ Hin) as [Hcol Hcomp]. eapply column_found; [done..|]. intros lf Hlf Htt.
    assert (lf ∈ record_type.leaves fields) as Helem by (by eapply list_elem_of_lookup_2).
    unfold field_matches. rewrite Hft, Htt, Hcomp, andb_true_r by done. apply resolved_key_matches; try done.
    by eapply field_columns_key.
  - assert (∀ f matches, (∀ lf, lf ∈ record_type.leaves fields → f lf.2.2 = true → matches (qualified_record_field.make (type.name t) fields lf.1) = true) →
      any_column row o d (type_columns fields f) = true → search_one hash matches o d (u, ps) = true) as Hfind.
    { intros f matches Hfm Ha. by eapply type_columns_found. }
    destruct (type.is_some tt); cbn [negb].
    + apply orb_true_iff. left. eapply Hfind; [|exact Hm]. intros lf Hlf Hcong. unfold type_matches. by rewrite Hft.
    + apply orb_true_iff in Hm as [Hm|[Hts Hm]%andb_true_iff]; apply orb_true_iff; [left|right].
      * eapply Hfind; [|exact Hm]. intros lf Hlf Hn. unfold named_type_matches. by rewrite Hft.
      * rewrite Hts. eapply Hfind; [|exact Hm]. intros lf Hlf Hn. unfold timestamp_matches. by rewrite Hft.
Qed.

Lemma selects_complete e : proper answerable e → no_negation e → eval (meaning fields (type.name t) row) e = true →
  selects hash regex_match regex_search e (u, ps) = true.
Proof.
  induction e as [|xs IH|xs IH|y IH|p] using expression_ind'; try done.
  1,2: rewrite ?proper_disjunction, proper_connective; intros [_ Hp] Hn; cbn in Hn; apply foldr_Forall in Hn; cbn [eval selects];
    rewrite list.Forall_forall in *.
  - rewrite !forallb_forall. intros He y Hy. pose proof Hy as Hy'%list_elem_of_In. apply IH; auto.
  - rewrite !existsb_exists. intros (y & Hy & He). exists y. split; [done|]. pose proof Hy as Hy'%list_elem_of_In. apply IH; auto.
  - intros Hp _ He. by apply predicate_found.
Qed.
End partition.

(** A partition with an event that satisfies the expression passes the test of the catalog. *)
Lemma event_selects u ps x id e : holds_slice ps x → first_id x <= id < first_id x + slice_rows x →
  proper answerable e → no_negation e → event_holds regex_match regex_search x e id = true →
  selects hash regex_match regex_search e (u, ps) = true.
Proof.
  intros Hx Hid Hp Hn He. eapply selects_complete; [exact Hx|exact Hid|done..|].
  unfold event_holds in He. rewrite (slice_fields_type ps x Hx) in He.
  assert (slice_schema x = t) as Hst by apply Hx. rewrite Hst in He.
  destruct e as [|xs|xs|y|p]; [done|..]; cbn [is_e_none orb tailor] in He;
    (destruct (type_resolver.visit fields (type.name t) _) as [r|] eqn:Et; [|done];
     apply visit_spec in Et as [_ Hv]; [by rewrite Hv in He|eapply proper_weaken; [|exact Hp]; by intros q (? & _)|done]).
Qed.

(** A partition that was filled with slices and shrunk holds them. *)
Lemma filled_holds version evaluate xs st x : Forall (slice_of_type t fields) xs → Forall table_slice_wf xs →
  ingest_all (ids:=ids) hash attributes rules (new_partition version) xs = Some st → x ∈ xs →
  passive (shrink_partition hash evaluate (data_synopsis st)) → holds_slice (shrink_partition hash evaluate (data_synopsis st)) x.
Proof.
  intros Ht Hw Hi Hx Hpas. destruct (ingest_all_spec hash attributes rules t fields Hrec xs (new_partition version) st Ht) as ((Hwf & _) & _ & Hk & _); [|done|].
  { split; [|by right]. split; done. }
  rewrite list.Forall_forall in *. destruct (Hk x Hx) as [Himp Hvals]. split; [by apply Ht|]. split; [by apply Hw|]. split; [done|]. split; [by apply shrink_wf|]. split; [done|].
  intros i l c v Hl Hc Hv. apply shrink_known. exact (Hvals i l c v Hl Hc Hv).
Qed.
End complete.

(** ** The state of the catalog *)

Section state.
Import catalog_state.

(** Every type has partitions, sorted and of its schema. *)
Definition group_wf (g : type * list (N * partition_synopsis)) : Prop :=
  g.2 ≠ [] ∧ increasing fst g.2 ∧ Forall (λ q, schema q.2 = g.1) g.2.
Definition catalog_wf (s : catalog_state.t) : Prop :=
  NoDup (synopses_per_type s).*1 ∧ Forall group_wf (synopses_per_type s).

(** The partitions the catalog has for a type. *)
Definition partitions_of (s : catalog_state.t) (ty : type) : list (N * partition_synopsis) :=
  default [] (stable_map.lookup ty (synopses_per_type s)).

Lemma insert_sorted_elem id ps m q : increasing fst m → q ∈ insert_sorted id ps m ↔ q = (id, ps) ∨ (q ∈ m ∧ q.1 ≠ id).
Proof.
  induction m as [|p m IH]; intros Hi; cbn [insert_sorted].
  { rewrite list_elem_of_singleton. split; [by left|]. by intros [?|[?%not_elem_of_nil _]]. }
  destruct Hi as [Hp Hi]. rewrite list.Forall_forall in Hp.
  destruct (N.ltb_spec id p.1) as [Hlt|Hge]; [|destruct (N.eqb_spec id p.1) as [E|Hne]].
  - rewrite elem_of_cons. split; [|tauto]. intros [?|Hq]; [by left|right]. split; [done|].
    apply elem_of_cons in Hq as [->|Hq]; [lia|]. specialize (Hp q Hq). cbn in Hp. lia.
  - rewrite !elem_of_cons. split.
    + intros [?|Hq]; [by left|right]. split; [by right|]. specialize (Hp q Hq). cbn in Hp. lia.
    + intros [?|[[->|Hq] Hn]]; [by left|congruence|by right].
  - rewrite !elem_of_cons, IH by done. split.
    + intros [->|[?|[Hq Hn]]]; [right; split; [by left|congruence]|by left|right; split; [by right|done]].
    + intros [?|[[->|Hq] Hn]]; auto.
Qed.

Lemma insert_sorted_increasing id ps m : increasing fst m → increasing fst (insert_sorted id ps m).
Proof.
  induction m as [|p m IH]; intros Hi; cbn [insert_sorted]; [by repeat constructor|]. pose proof Hi as [Hp Hi'].
  destruct (N.ltb_spec id p.1) as [Hlt|Hge]; [|destruct (N.eqb_spec id p.1) as [E|Hne]].
  - split; [|done]. constructor; [done|]. eapply list.Forall_impl; [exact Hp|]. cbn. intros q Hq. lia.
  - split; [|done]. by rewrite <- E in Hp.
  - split; [|by apply IH]. rewrite list.Forall_forall in *. intros q Hq. apply insert_sorted_elem in Hq as [->|[Hq _]]; [cbn; lia|by apply Hp|done].
Qed.

Lemma assign_NoDup {K V} `{EqDecision K} (k : K) (v : V) m : NoDup m.*1 → NoDup (stable_map.assign k v m).*1.
Proof.
  intros Hd. rewrite assign_keys. unfold stable_map.contains. case_bool_decide as Hc; [by rewrite app_nil_r|].
  apply list.NoDup_app. split_and!; [done| |apply NoDup_singleton]. intros x Hx ->%list_elem_of_singleton. apply Hc.
  destruct (stable_map.lookup k m) eqn:E; [done|]. by apply lookup_map_None in E.
Qed.

Lemma assign_Forall {K V} `{EqDecision K} (P : K * V → Prop) k v m : P (k, v) → Forall P m → Forall P (stable_map.assign k v m).
Proof.
  intros Hk. induction 1 as [|[l w] m Hp Hm IH]; cbn [stable_map.assign]; [by constructor|].
  destruct (decide _) as [E|E]; constructor; try done. cbn in *. by subst.
Qed.

Lemma group_of s ty : catalog_wf s → increasing fst (partitions_of s ty) ∧ Forall (λ q, schema q.2 = ty) (partitions_of s ty).
Proof.
  intros [_ Hg]. unfold partitions_of. destruct (stable_map.lookup ty (synopses_per_type s)) as [parts|] eqn:E; [|by split; [|constructor]].
  apply map_lookup_elem in E. rewrite list.Forall_forall in Hg. destruct (Hg _ E) as (_ & ? & ?). done.
Qed.

(** [merge] adds or replaces one partition of its schema. *)
Lemma catalog_merge_spec id ps s : catalog_wf s →
  catalog_wf (merge id ps s) ∧
  ∀ ty q, q ∈ partitions_of (merge id ps s) ty ↔
    (ty = schema ps ∧ q = (id, ps)) ∨ (q ∈ partitions_of s ty ∧ (ty = schema ps → q.1 ≠ id)).
Proof.
  intros Hs. destruct (group_of s (schema ps) Hs) as [Hi Hsch]. pose proof Hs as [Hd Hg]. split.
  - split; [by apply assign_NoDup|]. apply assign_Forall; [|done]. fold (partitions_of s (schema ps)). split_and!; cbn.
    + destruct (partitions_of s (schema ps)) as [|p m]; [done|]. cbn. by destruct (id <? p.1), (id =? p.1).
    + by apply insert_sorted_increasing.
    + rewrite list.Forall_forall in *. intros q Hq. apply insert_sorted_elem in Hq as [->|[Hq _]]; [done|by apply Hsch|done].
  - intros ty q. unfold partitions_of at 1, merge. cbn [synopses_per_type]. rewrite lookup_assign. fold (partitions_of s (schema ps)).
    destruct (decide (schema ps = ty)) as [<-|Hne].
    + cbn [from_option Datatypes.id]. rewrite insert_sorted_elem by done. split; [intros [?|[? ?]]; [by left|by right]|intros [[_ ?]|[? Hn]]; [by left|right; auto]].
    + fold (partitions_of s ty). split; [intros Hq; right; split; [done|congruence]|intros [[? _]|[? _]]; congruence].
Qed.

(** [erase] keeps the invariant and the other partitions, and removes the partition from the type that
    has it. *)
Lemma erase_loop_spec id m : Forall group_wf m → Forall group_wf (erase_loop id m) ∧
  sublist (erase_loop id m).*1 m.*1 ∧
  (∀ g, g ∈ erase_loop id m → ∃ parts, (g.1, parts) ∈ m ∧ sublist g.2 parts) ∧
  (∀ ty parts q, (ty, parts) ∈ m → q ∈ parts → q.1 ≠ id → ∃ parts', (ty, parts') ∈ erase_loop id m ∧ q ∈ parts').
Proof.
  induction 1 as [|[ty parts] m (Hne & Hi & Hsch) Hm IH]; cbn [erase_loop].
  { split_and!; [constructor|done|by intros g ?%not_elem_of_nil|by intros ? ? ? ?%not_elem_of_nil]. }
  destruct IH as (I1 & I2 & I3 & I4). cbn [fst snd] in *. destruct (existsb (λ p, p.1 =? id) parts) eqn:E.
  - assert (∀ q, q ∈ parts → q.1 ≠ id → q ∈ filter (λ p, p.1 ≠ id) parts) as Hkeep by (intros; by apply list_elem_of_filter).
    destruct (filter (λ p, p.1 ≠ id) parts) as [|p rest] eqn:Ef.
    + split_and!; [done|by apply sublist_cons| |].
      * intros g Hg. exists g.2. split; [apply list_elem_of_further; by destruct g|done].
      * intros ty' parts' q [[= -> ->]|Hin]%elem_of_cons Hq Hn; [by destruct (not_elem_of_nil q (Hkeep q Hq Hn))|by exists parts'].
    + assert (sublist (p :: rest) parts) as Hsub by (rewrite <- Ef; apply sublist_filter).
      split_and!.
      * constructor; [|done]. split_and!; cbn; [done| |].
        -- change (increasing fst (p :: rest)). rewrite <- Ef. by apply increasing_filter.
        -- rewrite list.Forall_forall in *. intros q Hq. apply Hsch. by eapply elem_of_sublist.
      * by apply sublist_skip.
      * intros g [->|Hg]%elem_of_cons; [exists parts; split; [apply list_elem_of_here|done]|].
        exists g.2. split; [apply list_elem_of_further; by destruct g|done].
      * intros ty' parts' q [[= -> ->]|Hin]%elem_of_cons Hq Hn.
        -- exists (p :: rest). split; [apply list_elem_of_here|]. by apply Hkeep.
        -- exists parts'. split; [by apply list_elem_of_further|done].
  - split_and!.
    + by constructor.
    + by apply sublist_skip.
    + intros g [->|Hg]%elem_of_cons; [exists parts; split; [apply list_elem_of_here|done]|].
      destruct (I3 g Hg) as (ps & ? & ?). exists ps. split; [by apply list_elem_of_further|done].
    + intros ty' parts' q [[= -> ->]|Hin]%elem_of_cons Hq Hn; [exists parts; split; [apply list_elem_of_here|done]|].
      destruct (I4 ty' parts' q Hin Hq Hn) as (ps & ? & ?). exists ps. split; [by apply list_elem_of_further|done].
Qed.

Lemma erase_loop_gone id m : NoDup (concat (snd <$> m)).*1 → ∀ g q, g ∈ erase_loop id m → q ∈ g.2 → q.1 ≠ id.
Proof.
  induction m as [|[ty parts] m IH]; intros Hd g q; [by intros ?%not_elem_of_nil|]. cbn [erase_loop].
  cbn [fmap list_fmap concat snd] in Hd. rewrite fmap_app in Hd. apply list.NoDup_app in Hd as (_ & Hdis & Hd).
  destruct (existsb (λ p, p.1 =? id) parts) eqn:E.
  - apply existsb_exists in E as (p & Hp & Hid%N.eqb_eq). apply list_elem_of_In in Hp.
    assert (∀ g, g ∈ m → q ∈ g.2 → q.1 ≠ id) as Hrest.
    { intros g' Hg' Hq Hqid. apply (Hdis id); [rewrite <- Hid; by apply list_elem_of_fmap_2|]. rewrite <- Hqid. apply list_elem_of_fmap_2.
      apply list_elem_of_In, in_concat. exists g'.2. rewrite <- !list_elem_of_In. split; [by apply list_elem_of_fmap_2|done]. }
    destruct (filter (λ p, p.1 ≠ id) parts) as [|p' rest] eqn:Ef; [apply Hrest|]. intros [->|Hg]%elem_of_cons; [|by apply Hrest].
    cbn. rewrite <- Ef. by intros [? _]%list_elem_of_filter.
  - intros [->|Hg]%elem_of_cons Hq; [|by eapply IH]. cbn in Hq. intros Hid.
    assert (existsb (λ p, p.1 =? id) parts = true); [|congruence]. apply existsb_exists. exists q. split; [by apply list_elem_of_In|by apply N.eqb_eq].
Qed.

Lemma erase_spec id s : catalog_wf s → NoDup (concat (snd <$> synopses_per_type s)).*1 →
  catalog_wf (erase id s) ∧ ∀ ty q, q ∈ partitions_of (erase id s) ty ↔ q ∈ partitions_of s ty ∧ q.1 ≠ id.
Proof.
  intros [Hd Hg] Hu. destruct (erase_loop_spec id (synopses_per_type s) Hg) as (H1 & H2 & H3 & H4).
  assert (NoDup (erase_loop id (synopses_per_type s)).*1) as Hd' by (by eapply sublist_NoDup).
  split; [by split|]. intros ty q.
  assert (∀ (m : list (type * list (N * partition_synopsis))), NoDup m.*1 → q ∈ default [] (stable_map.lookup ty m) ↔ ∃ parts, (ty, parts) ∈ m ∧ q ∈ parts) as Hp.
  { clear. intros m Hm. split.
    - destruct (stable_map.lookup ty m) as [parts|] eqn:E; [|by intros ?%not_elem_of_nil]. intros Hq. exists parts. split; [by apply map_lookup_elem|done].
    - intros (parts & Hin & Hq). assert (stable_map.lookup ty m = Some parts) as ->; [|done].
      induction m as [|[k v] m IH]; [by apply not_elem_of_nil in Hin|]. cbn in Hm. apply list.NoDup_cons in Hm as [Hk Hm].
      rewrite lookup_map_cons. cbn. apply elem_of_cons in Hin as [[= <- <-]|Hin]; [by rewrite decide_True|].
      rewrite decide_False; [by apply IH|]. intros ->. apply Hk. apply list_elem_of_fmap. by exists (ty, parts). }
  unfold partitions_of. cbn [erase synopses_per_type]. rewrite !Hp by done. split.
  - intros (parts & Hin & Hq). destruct (H3 _ Hin) as (parts0 & Hin0 & Hsub). split; [exists parts0; split; [done|by eapply elem_of_sublist]|].
    exact (erase_loop_gone id _ Hu _ q Hin Hq).
  - intros [(parts & Hin & Hq) Hn]. exact (H4 ty parts q Hin Hq Hn).
Qed.

(** [create_from] first groups the partitions as [merge] does, *)
Lemma create_from_groups ps m : catalog_wf (mk m []) → NoDup ps.*1 → (∀ ty q, q ∈ partitions_of (mk m []) ty → q.1 ∉ ps.*1) →
  let flat := foldl (λ m p, stable_map.assign (schema p.2) (insert_sorted p.1 p.2 (default [] (stable_map.lookup (schema p.2) m))) m) m ps in
  catalog_wf (mk flat []) ∧ ∀ ty q, q ∈ partitions_of (mk flat []) ty ↔ (q ∈ ps ∧ schema q.2 = ty) ∨ q ∈ partitions_of (mk m []) ty.
Proof.
  cbn zeta. revert m. induction ps as [|[id p] ps IH]; intros m Hm Hd Hn; cbn [foldl fst snd].
  { split; [done|]. intros ty q. split; [by right|]. by intros [[?%not_elem_of_nil _]|?]. }
  destruct (catalog_merge_spec id p (mk m []) Hm) as [[Hk Hg] Hin]. cbn [fmap list_fmap fst] in Hd, Hn. apply list.NoDup_cons in Hd as [Hid Hd].
  set (m1 := stable_map.assign _ _ m). pose proof (λ ty q, Hin ty q : q ∈ partitions_of (mk m1 []) ty ↔ _) as Hin1. clear Hin.
  destruct (IH m1 (conj Hk Hg) Hd) as [Hwf Hp].
  { intros ty q Hq. apply Hin1 in Hq as [[_ ->]|[Hq _]]; [done|]. specialize (Hn ty q Hq). by apply not_elem_of_cons in Hn as [_ ?]. }
  split; [exact Hwf|]. intros ty q. rewrite Hp, Hin1, elem_of_cons. split.
  - intros [[? ?]|[[-> ->]|[? _]]]; [left; auto|left; split; [by left|done]|by right].
  - intros [[[->|?] <-]|Hq]; [right; by left|by left|right; right]. split; [done|]. intros _ E. apply (Hn ty q Hq). rewrite E. by left.
Qed.
(** and then the groups take the place of what the catalog had for their types. *)
Lemma foldl_assign {V} (flat m : list (type * V)) : NoDup flat.*1 → NoDup m.*1 →
  NoDup (foldl (λ m g, stable_map.assign g.1 g.2 m) m flat).*1 ∧
  ∀ ty, stable_map.lookup ty (foldl (λ m g, stable_map.assign g.1 g.2 m) m flat) = match stable_map.lookup ty flat with Some v => Some v | None => stable_map.lookup ty m end.
Proof.
  revert m. induction flat as [|[k v] flat IH]; intros m Hf Hm; [done|]. cbn [foldl fst snd]. apply list.NoDup_cons in Hf as [Hk Hf].
  destruct (IH (stable_map.assign k v m) Hf (assign_NoDup _ _ _ Hm)) as [Hd Hl]. split; [done|]. intros ty. rewrite Hl, lookup_assign. rewrite lookup_map_cons. cbn [fst snd].
  destruct (decide (k = ty)) as [->|Hne]; [|done]. destruct (stable_map.lookup ty flat) as [w|] eqn:E; [|done].
  exfalso. apply Hk. apply map_lookup_elem in E. apply list_elem_of_fmap. by exists (ty, w).
Qed.
Lemma create_from_spec ps s : catalog_wf s → NoDup ps.*1 →
  catalog_wf (create_from ps s) ∧
  ∀ ty q, q ∈ partitions_of (create_from ps s) ty ↔ (q ∈ ps ∧ schema q.2 = ty) ∨ (q ∈ partitions_of s ty ∧ ty ∉ (λ p, schema p.2) <$> ps).
Proof.
  intros [Hd Hg] Hps. destruct (create_from_groups ps [] (conj (NoDup_nil_2) (Forall_nil_2 _)) Hps) as [[Hfd Hfg] Hin].
  { intros ty q Hq. by apply not_elem_of_nil in Hq. }
  unfold create_from. set (flat := foldl _ [] ps) in *. cbn [synopses_per_type] in *. destruct (foldl_assign flat (synopses_per_type s) Hfd Hd) as [Hk Hl].
  split.
  { split; [done|]. cbn [synopses_per_type]. clear -Hfg Hg. revert Hg. generalize (synopses_per_type s) as m. induction Hfg as [|[ty parts] flat Hgr _ IH]; intros m Hm; [done|].
    apply IH. by apply assign_Forall. }
  intros ty q. unfold partitions_of at 1. cbn [synopses_per_type]. rewrite Hl. pose proof (Hin ty) as Ht. unfold partitions_of at 1 in Ht. cbn [synopses_per_type] in Ht.
  assert (∀ q, q ∈ ps ∧ schema q.2 = ty → ty ∈ (λ p, schema p.2) <$> ps) as Hty by (intros p [Hp <-]; apply list_elem_of_fmap; by exists p).
  destruct (stable_map.lookup ty flat) as [parts|] eqn:E; cbn [default from_option] in *.
  - rewrite Ht. split; [intros [?|?%not_elem_of_nil]; [by left|done]|]. intros [?|[_ Hn]]; [by left|]. exfalso. apply Hn.
    apply map_lookup_elem in E. rewrite list.Forall_forall in Hfg. destruct (Hfg _ E) as [Hne _]. destruct parts as [|p parts]; [done|].
    apply (Hty p). destruct (proj1 (Ht p)) as [?|?%not_elem_of_nil]; [by left|done..].
  - fold (partitions_of s ty). split; [intros Hq; right; split; [done|]|intros [Hq|[? _]]; [exfalso|done]].
    + intros (p & -> & Hp)%list_elem_of_fmap. pose proof (proj2 (Ht p) (or_introl (conj Hp eq_refl))) as H. by apply not_elem_of_nil in H.
    + pose proof (proj2 (Ht q) (or_introl Hq)) as H. by apply not_elem_of_nil in H.
Qed.
(** Partitions that are not filled any more. *)
Definition all_passive (s : catalog_state.t) : Prop := Forall (λ g, Forall (λ q, passive q.2) g.2) (synopses_per_type s).

Lemma merge_passive id ps s : catalog_wf s → all_passive s → passive ps → all_passive (merge id ps s).
Proof.
  intros Hs Hp Hps. apply assign_Forall; [|done]. cbn [snd]. fold (partitions_of s (schema ps)). destruct (group_of s (schema ps) Hs) as [Hi _].
  rewrite list.Forall_forall. intros q Hq. apply insert_sorted_elem in Hq as [->|[Hq _]]; [done| |done].
  unfold partitions_of in Hq. destruct (stable_map.lookup _ _) as [parts|] eqn:E; [|by apply not_elem_of_nil in Hq].
  apply map_lookup_elem in E. unfold all_passive in Hp. rewrite list.Forall_forall in Hp. specialize (Hp _ E). rewrite list.Forall_forall in Hp. by apply Hp.
Qed.
End state.

(** ** Lookups in the catalog *)

Section lookup.
Context {batch : Type} `{RecordBatch batch} {ids : Type} `{StrictRange ids}.
Context (hash : N → data → N) (rules : list (list (list N))) (regex_match regex_search : list N → list N → bool).
Context (sort : list partition_info → list partition_info) (Hsort : ∀ xs, sort xs ≡ₚ xs).
Context (ts : taxonomies) (fuel : nat).
#[local] Abbreviation selects := (selects hash regex_match regex_search).
#[local] Abbreviation predicate_selects := (predicate_selects hash regex_match regex_search).
#[local] Abbreviation lookup := (catalog_state.lookup hash regex_match regex_search sort ts fuel).

(** The fields that a comparison with a string is about are of type string, so that it is one of the
    comparisons with all strings. *)
Definition on_strings (ps : partition_synopsis) (p : predicate) : bool :=
  match lhs p, rhs p with
  | field_extractor key, o_data (d_string s) =>
      forallb (λ f : qualified_record_field.t * option synopsis, negb (field_matches key (op p) (d_string s) f.1)
                    || type.congruent (field_type f.1) t_string) (field_synopses_ ps)
  | _, _ => true
  end.

Lemma search_one_weaken (m m' : qualified_record_field.t → bool) o d (q : N * partition_synopsis) : passive q.2 →
  (∀ f, f ∈ field_synopses_ q.2 → m f.1 = true → m' f.1 = true) →
  search_one hash m o d q = true → search_one hash m' o d q = true.
Proof.
  intros Hpas Hm. unfold search_one. pose proof Hpas as [Hpf _].
  assert (∀ fields, Forall (λ e, ∀ s, e.2 = Some s → is_buffered s = false) fields → (∀ f, f ∈ fields → f ∈ field_synopses_ q.2) →
    search_fields hash m o d q.2 fields = Some true → search_fields hash m' o d q.2 fields = Some true) as Hs.
  { induction 1 as [|[f e] fields He Hfs IH]; intros Hin; [done|]. cbn [search_fields].
    assert (∀ s, is_buffered s = false → may_match hash s o d = Some true ∨ may_match hash s o d = Some false) as Hmm.
    { intros s Hs. unfold may_match. destruct (lookup_total hash s o d Hs) as [r ->]. cbn. destruct r as [[]|]; auto. }
    assert (search_fields hash m o d q.2 fields = Some true → search_fields hash m' o d q.2 fields = Some true) as IH'.
    { apply IH. intros f' Hf'. apply Hin. by apply list_elem_of_further. }
    assert (∀ s, stable_map.lookup (type.resolve_transparent (field_type f)) (type_synopses_ q.2) = Some (Some s) → is_buffered s = false) as Hty.
    { intros s E%map_lookup_elem. destruct Hpas as [_ Ht]. rewrite list.Forall_forall in Ht. by apply (Ht _ E). }
    destruct (m f) eqn:E1.
    - pose proof (Hm _ (Hin _ (list_elem_of_here _ _)) E1) as E2. cbn in E2. rewrite E2. destruct e as [s|].
      + destruct (Hmm s (He s eq_refl)) as [-> | ->]; [done|exact IH'].
      + destruct (stable_map.lookup _ (type_synopses_ q.2)) as [[s|]|]; [|done..].
        destruct (Hmm s (Hty s eq_refl)) as [-> | ->]; [done|exact IH'].
    - intros Hr. specialize (IH' Hr). destruct (m' f); [|done]. destruct e as [s|].
      + destruct (Hmm s (He s eq_refl)) as [-> | ->]; done.
      + destruct (stable_map.lookup _ (type_synopses_ q.2)) as [[s|]|]; [|done..].
        destruct (Hmm s (Hty s eq_refl)) as [-> | ->]; done. }
  destruct (search_fields hash m o d q.2 (field_synopses_ q.2)) as [[]|] eqn:E; [|done..]. intros _.
  by rewrite (Hs (field_synopses_ q.2)).
Qed.

(** A lookup in all strings finds what one in a field of strings finds. *)
Lemma generalize_selects p q unprunable : passive q.2 → prunable unprunable p = true → on_strings q.2 p = true →
  predicate_selects p q = true → predicate_selects (generalize p) q = true.
Proof.
  intros Hpas. destruct p as [l o r]. unfold prunable, on_strings, CatalogSpec.predicate_selects, generalize. cbn [lhs op rhs].
  destruct l as [|key|tt| |], r as [| | | |[]]; try done.
  - intros _ Hs. cbn [type.is_some negb]. change (bytes_eqb (type.name t_string) type_resolver.timestamp) with false. rewrite andb_false_l, orb_false_r.
    apply search_one_weaken; [done|]. intros f Hf Hm. rewrite forallb_forall in Hs. specialize (Hs f (proj1 (list_elem_of_In _ _) Hf)).
    rewrite Hm in Hs. exact Hs.
  - intros ->%type_eqb_spec _. done.
Qed.

Lemma eval_selects e q : proper (λ _, True) e → no_negation e → eval (λ p, predicate_selects p q) e = selects e q.
Proof.
  induction e as [|xs IH|xs IH|y IH|p] using expression_ind'; try done.
  all: rewrite ?proper_disjunction, proper_connective; intros [_ Hp] Hn; cbn in Hn; apply foldr_Forall in Hn; cbn [eval CatalogSpec.selects];
    rewrite list.Forall_forall in *.
  - apply forallb_ext_Forall, list.Forall_forall. auto.
  - apply existsb_ext_Forall, list.Forall_forall. auto.
Qed.

Lemma eval_mono (v w : predicate → bool) e : no_negation e → (∀ p, v p = true → w p = true) → eval v e = true → eval w e = true.
Proof.
  intros Hn Hvw. induction e as [|xs IH|xs IH|y IH|p] using expression_ind'; try done; [..|by apply Hvw].
  all: cbn in Hn; apply foldr_Forall in Hn; cbn [eval]; rewrite list.Forall_forall in *.
  - rewrite !forallb_forall. intros He y Hy. pose proof Hy as Hy'%list_elem_of_In. apply IH; auto.
  - rewrite !existsb_exists. intros (y & Hy & He). exists y. split; [done|]. pose proof Hy as Hy'%list_elem_of_In. apply IH; auto.
Qed.

Lemma eval_proper (v w : predicate → bool) Q e : proper Q e → (∀ p, Q p → v p = w p) → eval v e = eval w e.
Proof.
  intros He Hvw. induction e as [|xs IH|xs IH|y IH|p] using expression_ind'; try done; cbn [eval]; [..|by rewrite IH|by apply Hvw].
  - apply proper_connective in He as [_ He]. apply forallb_ext_Forall. rewrite list.Forall_forall in *. auto.
  - apply proper_connective in He as [_ He]. apply existsb_ext_Forall. rewrite list.Forall_forall in *. auto.
Qed.

(** Pruning keeps the partitions. *)
Lemma prune_selects e r q unprunable : passive q.2 → proper (λ p, on_strings q.2 p = true) e → no_negation e →
  prune unprunable e = Some r → selects e q = true → selects r q = true.
Proof.
  intros Hpas Hs Hn Hr. assert (proper (λ _, True) e) as Ht by (by eapply proper_weaken; [|exact Hs]).
  assert (proper (λ _, True) r) as Htr by (by eapply prune_proper; [|exact Hr|exact Ht]).
  assert (no_negation r) as Hnr by (by eapply prune_no_negation).
  rewrite <- (eval_selects e), <- (eval_selects r) by done. intros He.
  set (v := λ p, on_strings q.2 p && predicate_selects p q).
  assert (eval v e = true) as Hv.
  { rewrite <- He. eapply eval_proper; [exact Hs|]. intros p Hp. unfold v. by rewrite Hp. }
  eapply (prune_over unprunable v) in Hv; [|intros p Hp [Hon Hsel]%andb_true_iff|exact Hr|exact Hn].
  - eapply eval_mono; [done| |exact Hv]. by intros p [_ ?]%andb_true_iff.
  - apply andb_true_iff. split; [|by eapply generalize_selects]. by destruct p as [l o [| | | |[]]].
Qed.

(** The candidates of every type are those of its partitions that pass the test. *)
Lemma lookup_types_spec e groups total : proper time_rhs e → proper (plain ts) e → NoDup groups.*1 →
  Forall (λ g, increasing fst g.2 ∧ Forall (λ q, passive q.2) g.2) groups →
  ∃ result, catalog_state.lookup_types hash regex_match regex_search sort ts fuel e groups total = Some (value result) ∧
  (∀ ty parts, (ty, parts) ∈ groups → stable_map.lookup ty result = Some (sort (selection parts (selects e)))) ∧
  (∀ ty, ty ∉ groups.*1 → stable_map.lookup ty result = stable_map.lookup ty total).
Proof.
  intros He Hpl Hd Hg. revert total Hd. induction Hg as [|[ty parts] groups [Hi Hpas] _ IH]; intros total Hd; cbn [catalog_state.lookup_types].
  { exists total. split_and!; [done|by intros ? ? ?%not_elem_of_nil|done]. }
  unfold resolve_type. rewrite resolve_plain by done. cbn [mbind option_bind]. cbn [snd] in *. rewrite lookup_impl_spec by done. cbn [option_bind].
  cbn in Hd. apply list.NoDup_cons in Hd as [Hty Hd]. destruct (IH (stable_map.assign ty (sort (selection parts (selects e))) total) Hd) as (result & Hr & Hfind & Hrest).
  exists result. split_and!; [done| |].
  - intros ty' parts' [[= -> ->]|Hin]%elem_of_cons; [|by apply Hfind]. rewrite Hrest by done. rewrite lookup_assign, decide_True by done. done.
  - intros ty' Hn. cbn in Hn. apply not_elem_of_cons in Hn as [Hne Hn]. rewrite Hrest by done. rewrite lookup_assign, decide_False by done. done.
Qed.

(** No partition with a matching event is missed. *)
Lemma catalog_lookup_complete s ty fields u ps (x : table_slice batch) id e :
  record_type.as_record ty = Some fields → well_named (t_record fields) → record_type.leaves fields ≠ [] →
  catalog_wf s → all_passive s → (u, ps) ∈ partitions_of s ty →
  holds_slice hash rules ty fields ps x → first_id x <= id < first_id x + slice_rows x →
  proper (answerable ty fields) e → proper (plain ts) e → proper (λ p, on_strings ps p = true) e → no_negation e →
  expression_no_nan e = true → event_holds regex_match regex_search x e id = true →
  ∃ result infos, lookup s e = Some (value result) ∧ stable_map.lookup ty result = Some infos ∧ make_info (u, ps) ∈ infos.
Proof.
  intros Hrec Hnamed Hleaves [Hd Hg] Hpas Hin Hx Hid Ha Hpl Hstr Hn Hnan He.
  assert (∃ parts, (ty, parts) ∈ catalog_state.synopses_per_type s ∧ (u, ps) ∈ parts) as (parts & Hparts & Hups).
  { unfold partitions_of in Hin. destruct (stable_map.lookup ty _) as [parts|] eqn:E; [|by apply not_elem_of_nil in Hin].
    exists parts. split; [by apply map_lookup_elem|done]. }
  assert (proper time_rhs e) as Ht by (eapply proper_weaken; [|exact Ha]; by intros p (_ & ? & _)).
  unfold catalog_state.lookup. set (unprunable := λ f, existsb _ _).
  destruct (prune_ends unprunable e) as [r Hr]; [by eapply proper_weaken; [|exact Ht]|done|]. rewrite Hr. cbn [mbind option_bind].
  destruct (lookup_types_spec r (catalog_state.synopses_per_type s) []) as (result & Hl & Hfind & _).
  - eapply prune_proper; [|exact Hr|exact Ht]. by intros [l o d].
  - eapply prune_proper; [|exact Hr|exact Hpl]. by intros [l o [| | | |]].
  - done.
  - unfold all_passive in Hpas. rewrite list.Forall_forall in *. intros g Hg'. split; [by apply Hg|by apply Hpas].
  - exists result, (sort (selection parts (selects r))). split_and!; [done|by apply Hfind|]. rewrite Hsort.
    unfold selection. apply list_elem_of_fmap. exists (u, ps). split; [done|]. apply list_elem_of_filter. split; [|done].
    apply (prune_selects e r (u, ps) unprunable); try done; [apply Hx|].
    by eapply event_selects.
Qed.
End lookup.
