(* ===== verification/ValueIndex.v ===== *)
(** Value indexes: [libvast/include/vast/value_index.hpp],
    [libvast/src/value_index.cpp] and
    [libvast/include/vast/index/container_lookup.hpp].

    A concrete index derives from [value_index] and overrides [append_impl] and
    [lookup_impl]; [ValueIndexOps] is that pair. [lookup_impl] may call
    [lookup] of the same object for the elements of a list, so it is given the
    virtual function as an argument. Looking up may fill up bitmaps that the
    coders declare [mutable], so [lookup] returns the index as well. *)

From S2P Require Import Prelude Word Bits BitmapConcept EwahBitmap EwahRange BitmapAlgorithms.
From S2P Require Import Bitmap Operator Data.

Notation ids := bitmap.bitmap.

(** The lookup a value index offers to its implementation. *)
Notation lookup_fn I := (I → relational_operator → data → I * expected ids).

Class ValueIndexOps (I : Type) := {
  append_impl : I → data → N → I * bool;
  (** The arguments: [lookup()], [offset()], the object, operator and value. *)
  lookup_impl : lookup_fn I → N → lookup_fn I
}.

Module value_index.
Record value_index (I : Type) := mk {
  impl : I;
  mask_ : ewah_bitmap.ewah_bitmap;
  none_ : ewah_bitmap.ewah_bitmap
}.
Arguments mk {I}.
Arguments impl {I}.
Arguments mask_ {I}.
Arguments none_ {I}.

Section operations.
Context {I : Type} `{ValueIndexOps I}.
Implicit Types vi : value_index I.

Definition make (i : I) : value_index I := mk i ewah_bitmap.nil ewah_bitmap.nil.

Definition offset vi : N := N.max (ewah_bitmap.size (none_ vi)) (ewah_bitmap.size (mask_ vi)).

(** [bm.append_bits(false, pos - bm.size()); bm.append_bit(true)] *)
Definition set_at (bm : ewah_bitmap.ewah_bitmap) (pos : N) : ewah_bitmap.ewah_bitmap :=
  ewah_bitmap.append_bit (ewah_bitmap.append_bits bm false (pos - ewah_bitmap.size bm)) true.

(** [append(x, pos)]; [append(x)] appends at the offset. *)
Definition append_at vi (x : data) (pos : N) : value_index I * expected unit :=
  let off := offset vi in
  if pos <? off then (vi, error unspecified)
  else if is_none x then (mk (impl vi) (mask_ vi) (set_at (none_ vi) pos), value tt)
  else
    let '(i, ok) := append_impl (impl vi) x pos in
    if negb ok then (mk i (mask_ vi) (none_ vi), error unspecified)
    else (mk i (set_at (mask_ vi) pos) (none_ vi), value tt).
Definition append vi (x : data) : value_index I * expected unit := append_at vi x (offset vi).

(** The branch of [lookup] for nil. *)
Definition lookup_none vi (op : relational_operator) : expected ids :=
  if negb ((op ==o equal) || (op ==o not_equal)) then error unsupported_operator
  else
    let is_equal := op ==o equal in
    let result := if is_equal then none_ vi else bitmap_base.complement (none_ vi) in
    value (bitmap.ewah
      (if ewah_bitmap.size result <? ewah_bitmap.size (mask_ vi)
       then ewah_bitmap.append_bits result (negb is_equal)
              (ewah_bitmap.size (mask_ vi) - ewah_bitmap.size result)
       else result)).

(** What [lookup] does with the result of [lookup_impl]. *)
Definition finish vi (op : relational_operator) (result : ids) : ids :=
  let result := bitmap_algorithms.binary_and result (bitmap.ewah (mask_ vi)) in
  let is_negation := op ==o not_equal in
  let result :=
    if is_negation then bitmap_algorithms.binary_or result (bitmap.ewah (none_ vi)) else result in
  if bitmap.size result <? offset vi
  then bitmap.append_bits result is_negation (offset vi - bitmap.size result)
  else result.

(** [lookup]; the calls nest at most as deep as the lists of [x], which is the fuel. *)
Fixpoint lookup_fuel (fuel : nat) (mask_ none_ : ewah_bitmap.ewah_bitmap) : lookup_fn I :=
  λ i op x,
  match fuel with
  | O => (i, error unspecified)
  | S fuel =>
      let vi := mk i mask_ none_ in
      if is_none x then (i, lookup_none vi op)
      else
        let '(i, result) := lookup_impl (lookup_fuel fuel mask_ none_) (offset vi) i op x in
        match result with
        | error e => (i, error e)
        | value result => (i, value (finish vi op result))
        end
  end.

Definition lookup vi (op : relational_operator) (x : data) : value_index I * expected ids :=
  let '(i, r) := lookup_fuel (S (data_depth x)) (mask_ vi) (none_ vi) (impl vi) op x in
  (mk i (mask_ vi) (none_ vi), r).
End operations.
End value_index.

Module container_lookup.
Section container_lookup.
Context {I : Type} (lookup : lookup_fn I).

(** The loop of the two operators: [update] adds an element's result and [stop]
    is the short circuit. *)
Fixpoint loop (update : ids → ids → ids) (stop : ids → bool) (i : I) (result : ids)
    (xs : list data) : I * expected ids :=
  match xs with
  | [] => (i, value result)
  | x :: xs =>
      let '(i, r) := lookup i equal x in
      match r with
      | error e => (i, error e)
      | value r =>
          let result := update result r in
          if stop result then (i, value result) else loop update stop i result xs
      end
  end.

(** [container_lookup_impl]; [offset] is [idx.offset()]. *)
Definition container_lookup_impl (offset : N) (i : I) (op : relational_operator) (xs : list data)
    : I * expected ids :=
  if op ==o in_ then
    loop bitmap_algorithms.binary_or (bitmap_algorithms.all true) i (bitmap_base.make offset false) xs
  else if op ==o not_in then
    loop bitmap_algorithms.binary_nand (bitmap_algorithms.all false) i (bitmap_base.make offset true) xs
  else (i, error unsupported_operator).
End container_lookup.
End container_lookup.
