(* ===== verification/ValueIndexSpec.v ===== *)
(** What a value index promises: [libvast/src/value_index.cpp].

    A value index stands for a list of entries, one per ID: no value ([None]),
    nil ([Some d_none]) or a value. [ValueIndexImpl] states what a concrete
    index has to provide, and the theorems about [append] and [lookup] are
    proved against it. *)

From S2P Require Import Prelude Word Bits BitmapConcept EwahBitmap EwahRange BitmapAlgorithms.
From S2P Require Import Bitmap Operator Data ValueIndex.

Notation entries := (list (option data)).

Class ValueIndexImpl (I : Type) `{ValueIndexOps I} := {
  (** The implementation holds values at some IDs; it never sees nil. *)
  impl_rep : I → entries → Prop;
  (** The values it stores. *)
  impl_accepts : data → Prop;
  (** The lookups it answers, lists apart. *)
  impl_supports : relational_operator → data → Prop;
  (** Whether a stored value is part of the result. *)
  impl_matches : relational_operator → data → data → bool;
  append_impl_spec i rs d pos :
    impl_rep i rs → impl_accepts d → lenN rs <= pos → pos + 1 <= max_size →
    ∃ i', append_impl i d pos = (i', true) ∧
          impl_rep i' (rs ++ reps (pos - lenN rs) None ++ [Some d]);
  lookup_impl_spec self off i rs op x :
    impl_rep i rs → impl_supports op x → lenN rs <= off → off <= max_size →
    ∃ i' bm, lookup_impl self off i op x = (i', value bm) ∧ impl_rep i' rs ∧ bm_wf bm ∧
      lenN (bm_list bm) <= off ∧
      ∀ j v, rs !! j = Some (Some v) → bit_at (bm_list bm) j = impl_matches op v x;
  lookup_impl_list self off i op xs :
    lookup_impl self off i op (d_list xs) =
    container_lookup.container_lookup_impl self off i op xs;
  lookup_impl_self self self' off i op x :
    (∀ xs, x ≠ d_list xs) → lookup_impl self off i op x = lookup_impl self' off i op x
}.

(** The values among the entries. *)
Definition proper (o : option data) : option data :=
  match o with Some d => if is_none d then None else Some d | None => None end.
Definition vals (es : entries) : entries := proper <$> es.
Definition is_value (o : option data) : bool := match proper o with Some _ => true | None => false end.
Definition is_nil (o : option data) : bool := match o with Some d => is_none d | None => false end.

(** The result of [op x] at an entry. *)
Definition entry_bit (m : data → bool) (nil_bit : bool) (o : option data) : bool :=
  match o with None => false | Some d => if is_none d then nil_bit else m d end.

Lemma bit_at_fmap {A} (f : A → bool) (l : list A) j :
  bit_at (f <$> l) j = match l !! j with Some x => f x | None => false end.
Proof. unfold bit_at. rewrite list_lookup_fmap. by destruct (l !! j). Qed.

(** A bitmap of the IDs with a property, without the tail of 0-bits. *)
Definition marks (bm : ewah_bitmap.ewah_bitmap) (f : option data → bool) (es : entries) : Prop :=
  ewah_inv bm ∧ lenN (ewah_bitmap.to_list bm) <= lenN es ∧
  ∀ j, bit_at (ewah_bitmap.to_list bm) j = bit_at (f <$> es) j.

Section rep.
Import value_index.
Context {I : Type} `{ValueIndexImpl I}.
Implicit Types (vi : value_index I) (es : entries).

Definition vi_rep vi es : Prop :=
  marks (mask_ vi) is_value es ∧ marks (none_ vi) is_nil es ∧
  offset vi = lenN es ∧ lenN es <= max_size ∧
  impl_rep (impl vi) (take (N.to_nat (ewah_bitmap.size (mask_ vi))) (vals es)).

Lemma vi_make_rep (i : I) : impl_rep i [] → vi_rep (make i) [].
Proof.
  intros Hi. assert (∀ f, marks ewah_bitmap.nil f []) as Hm.
  { intros f. split; [constructor|]. by split. }
  split; [apply Hm|]. split; [apply Hm|]. by repeat split.
Qed.

Lemma ewah_to_list_size bm : ewah_inv bm → lenN (ewah_bitmap.to_list bm) = ewah_bitmap.size bm.
Proof. intros Hb. by destruct (ewah_size_spec bm Hb) as [-> _]. Qed.

Lemma set_at_spec bm pos :
  ewah_inv bm → ewah_bitmap.size bm <= pos → pos + 1 <= max_size →
  ewah_inv (set_at bm pos) ∧
  ewah_bitmap.to_list (set_at bm pos) =
  ewah_bitmap.to_list bm ++ reps (pos - ewah_bitmap.size bm) false ++ [true].
Proof.
  intros Hb Hle Hmax. pose proof (ewah_to_list_size bm Hb) as Hs. unfold set_at.
  destruct (ewah_append_bits_spec bm false (pos - ewah_bitmap.size bm) Hb) as [Hb1 E1]; [lia|].
  destruct (ewah_append_bit_spec _ true Hb1) as [Hb2 E2].
  { rewrite E1. autorewrite with lendb. lia. }
  split; [done|]. by rewrite E2, E1, app_assoc.
Qed.

(** Extending the entries by a gap and one more entry. *)
Definition extend es (pos : N) (d : data) : entries := es ++ reps (pos - lenN es) None ++ [Some d].

Lemma lenN_extend es pos d : lenN es <= pos → lenN (extend es pos d) = pos + 1.
Proof. intros. unfold extend. autorewrite with lendb. lia. Qed.

Lemma bit_at_gap l n b j :
  bit_at (l ++ reps n false ++ [b]) j = bit_at l j || (b && (N.of_nat j =? lenN l + n)).
Proof.
  rewrite app_assoc. change [b] with (reps 1 b). rewrite !bit_at_app_reps. cbn [andb].
  rewrite orb_false_r. do 2 f_equal. autorewrite with lendb. unfold id_in. cbn [fst snd].
  apply Bool.eq_iff_eq_true. rewrite andb_true_iff, N.leb_le, N.ltb_lt, N.eqb_eq. lia.
Qed.

Lemma bit_at_extend (f : option data → bool) es pos d j :
  f None = false → lenN es <= pos →
  bit_at (f <$> extend es pos d) j = bit_at (f <$> es) j || (f (Some d) && (N.of_nat j =? pos)).
Proof.
  intros Hf Hle. unfold extend. rewrite !fmap_app, fmap_reps, Hf. cbn [fmap list_fmap].
  rewrite bit_at_gap. do 3 f_equal. unfold lenN in *. rewrite length_fmap. lia.
Qed.

(** The marks after an append, where the bit is set. *)
Lemma marks_set bm f es pos d :
  marks bm f es → f None = false → f (Some d) = true → lenN es <= pos → pos + 1 <= max_size →
  marks (set_at bm pos) f (extend es pos d).
Proof.
  intros (Hb & Hlen & Hbits) Hf Hd Hle Hmax. pose proof (ewah_to_list_size bm Hb) as Hs.
  destruct (set_at_spec bm pos Hb) as [Hb' E]; [lia|done|]. split; [done|].
  rewrite E, lenN_extend by done. autorewrite with lendb. split; [lia|].
  intros j. rewrite bit_at_gap, bit_at_extend, Hbits, Hd by done. do 3 f_equal. lia.
Qed.

(** ... and where it is not. *)
Lemma marks_keep bm f es pos d :
  marks bm f es → f None = false → f (Some d) = false → lenN es <= pos →
  marks bm f (extend es pos d).
Proof.
  intros (Hb & Hlen & Hbits) Hf Hd Hle. split; [done|]. rewrite lenN_extend by done.
  split; [lia|]. intros j. by rewrite bit_at_extend, Hbits, Hd, orb_false_r by done.
Qed.

Lemma size_set_at bm es f pos d :
  marks bm f es → lenN es <= pos → pos + 1 <= max_size → marks (set_at bm pos) f (extend es pos d) →
  ewah_bitmap.size (set_at bm pos) = pos + 1.
Proof.
  intros (Hb & Hlen & _) Hle Hmax (Hb' & _). pose proof (ewah_to_list_size bm Hb).
  rewrite <- ewah_to_list_size by done. destruct (set_at_spec bm pos Hb) as [_ ->]; [lia|done|].
  autorewrite with lendb. lia.
Qed.

Lemma marks_size bm f es : marks bm f es → ewah_bitmap.size bm <= lenN es.
Proof. intros (Hb & Hlen & _). by rewrite <- ewah_to_list_size. Qed.

(** Behind the mask there are no values. *)
Lemma vals_tail bm es :
  marks bm is_value es →
  vals es = take (N.to_nat (ewah_bitmap.size bm)) (vals es) ++ reps (lenN es - ewah_bitmap.size bm) None.
Proof.
  intros Hm. pose proof (marks_size _ _ _ Hm) as Hle. destruct Hm as (Hb & Hlen & Hbits).
  pose proof (ewah_to_list_size bm Hb) as Hs. unfold lenN in *.
  rewrite <- (take_drop (N.to_nat (ewah_bitmap.size bm)) (vals es)) at 1. f_equal.
  apply list_eq. intros j. rewrite lookup_drop, lookup_reps. unfold vals. rewrite list_lookup_fmap.
  specialize (Hbits (N.to_nat (ewah_bitmap.size bm) + j)%nat).
  rewrite bit_at_ge, bit_at_fmap in Hbits by lia. case_decide as Hj.
  - destruct (lookup_lt_is_Some_2 es (N.to_nat (ewah_bitmap.size bm) + j)) as [o Ho]; [lia|].
    rewrite Ho in Hbits |- *. cbn. unfold is_value in Hbits. by destruct (proper o).
  - by rewrite lookup_ge_None_2 by lia.
Qed.

Lemma vals_extend es pos d :
  is_none d = false → vals (extend es pos d) = vals es ++ reps (pos - lenN es) None ++ [Some d].
Proof.
  intros Hd. unfold vals, extend. rewrite !fmap_app, fmap_reps. cbn. by rewrite Hd.
Qed.

Lemma take_vals_extend m es pos d :
  m <= lenN es → take (N.to_nat m) (vals (extend es pos d)) = take (N.to_nat m) (vals es).
Proof.
  intros. unfold vals, extend. rewrite fmap_app, take_app_le; [done|].
  rewrite length_fmap. unfold lenN in *. lia.
Qed.

Lemma vi_append_none vi es pos :
  vi_rep vi es → lenN es <= pos → pos + 1 <= max_size →
  ∃ vi', append_at vi d_none pos = (vi', value tt) ∧ vi_rep vi' (extend es pos d_none).
Proof.
  intros (Hm & Hn & Ho & Hmax & Hi) Hle Hpos. unfold append_at.
  rewrite Ho, (proj2 (N.ltb_ge _ _)) by done. cbn [is_none]. eexists. split; [done|].
  pose proof (marks_set _ _ _ pos d_none Hn eq_refl eq_refl Hle Hpos) as Hn'.
  pose proof (size_set_at _ _ _ pos d_none Hn Hle Hpos Hn') as Hs.
  pose proof (marks_size _ _ _ Hm).
  split; [by apply marks_keep|]. split; [done|]. cbn [mask_ none_ impl].
  rewrite lenN_extend by done. split; [unfold offset; cbn [mask_ none_]; rewrite Hs; lia|].
  split; [done|]. by rewrite take_vals_extend.
Qed.

Lemma vi_append_value vi es d pos :
  vi_rep vi es → is_none d = false → impl_accepts d → lenN es <= pos → pos + 1 <= max_size →
  ∃ vi', append_at vi d pos = (vi', value tt) ∧ vi_rep vi' (extend es pos d).
Proof.
  intros (Hm & Hn & Ho & Hmax & Hi) Hd Hacc Hle Hpos. unfold append_at.
  rewrite Ho, (proj2 (N.ltb_ge _ _)), Hd by done.
  pose proof (marks_size _ _ _ Hm). pose proof (marks_size _ _ _ Hn).
  set (rs := take _ (vals es)) in *.
  assert (lenN rs = ewah_bitmap.size (mask_ vi)) as Hrs.
  { unfold rs, vals, lenN in *. rewrite length_take, length_fmap. lia. }
  destruct (append_impl_spec (impl vi) rs d pos Hi Hacc) as (i' & -> & Hi'); [lia|done|].
  cbn [negb]. eexists. split; [done|].
  assert (is_value (Some d) = true) as Hv by (unfold is_value; cbn; by rewrite Hd).
  pose proof (marks_set _ _ _ pos d Hm eq_refl Hv Hle Hpos) as Hm'.
  pose proof (size_set_at _ _ _ pos d Hm Hle Hpos Hm') as Hs.
  split; [done|]. split; [by apply marks_keep|]. cbn [mask_ none_ impl].
  rewrite lenN_extend by done. split; [unfold offset; cbn [mask_ none_]; rewrite Hs; lia|].
  split; [done|]. rewrite Hs, take_ge.
  2: { unfold vals. rewrite length_fmap. pose proof (lenN_extend es pos d Hle). unfold lenN in *. lia. }
  rewrite vals_extend, (vals_tail _ _ Hm), <- app_assoc by done. fold rs.
  rewrite (app_assoc (reps _ None)), <- reps_add.
  replace (_ + (pos - lenN es)) with (pos - lenN rs) by lia. done.
Qed.

(** An ID below the offset is refused. *)
Lemma vi_append_below vi es d pos :
  vi_rep vi es → pos < lenN es → append_at vi d pos = (vi, error unspecified).
Proof.
  intros (_ & _ & Ho & _) Hlt. unfold append_at. by rewrite Ho, (proj2 (N.ltb_lt _ _)).
Qed.
End rep.

(** ** Lookups *)

Section lookup.
Import value_index.
Context {I : Type} `{ValueIndexImpl I}.
Implicit Types (vi : value_index I) (es : entries) (m : data → bool).

(** A bitmap that is right at the values. *)
Definition right_at_values m es (bm : ids) : Prop :=
  bm_wf bm ∧ lenN (bm_list bm) <= lenN es ∧
  ∀ j v, vals es !! j = Some (Some v) → bit_at (bm_list bm) j = m v.

Lemma marks_bitmap bm f es :
  marks bm f es → bm_wf (bitmap.ewah bm) ∧ bm_list (bitmap.ewah bm) = ewah_bitmap.to_list bm.
Proof. by intros [Hb _]. Qed.

Lemma lookup_vals es j :
  vals es !! j = match es !! j with Some o => Some (proper o) | None => None end.
Proof. unfold vals. rewrite list_lookup_fmap. by destruct (es !! j). Qed.

(** The bits of [finish] before it fills up. *)
Lemma masked_bit m es (b : bool) bm j :
  (∀ v, vals es !! j = Some (Some v) → bit_at (bm_list bm) j = m v) →
  (bit_at (bm_list (B:=ids) bm) j && bit_at (is_value <$> es) j) || (b && bit_at (is_nil <$> es) j) =
  bit_at (entry_bit m b <$> es) j.
Proof.
  intros Hm. rewrite !bit_at_fmap. rewrite lookup_vals in Hm.
  destruct (es !! j) as [[d|]|]; cbn; rewrite ?andb_false_r; [|done..].
  unfold is_value. cbn in *. destruct (is_none d); cbn.
  - by rewrite andb_false_r, andb_true_r.
  - by rewrite (Hm d), andb_true_r, andb_false_r, orb_false_r.
Qed.

(** Filling up to the number of entries. *)
Lemma fill_bits (bm : ids) es b (f : option data → bool) :
  bm_wf bm → lenN (bm_list bm) <= lenN es → lenN es <= max_size →
  (∀ j, bit_at (bm_list bm) j = bit_at (f <$> es) j) →
  (b = true → lenN (bm_list bm) = lenN es) →
  let r := if bitmap.size bm <? lenN es
           then bitmap.append_bits bm b (lenN es - bitmap.size bm) else bm in
  bm_wf r ∧ bm_list r = f <$> es.
Proof.
  intros Hwf Hle Hmax Hbits Hb. cbn zeta. change (bitmap.size bm) with (bm_size bm).
  change (bitmap.append_bits bm b) with (bm_append_bits bm b). rewrite bm_size_spec by done.
  destruct (N.ltb_spec (lenN (bm_list bm)) (lenN es)).
  - destruct (bm_append_bits_spec bm b (lenN es - lenN (bm_list bm)) Hwf) as [Hwf' E]; [lia|].
    split; [done|]. assert (b = false) as -> by (destruct b; [rewrite Hb in *; by lia|done]).
    apply bit_list_ext_at; rewrite E.
    + rewrite length_app, length_reps, length_fmap. unfold lenN in *. lia.
    + intros j _. rewrite bit_at_app_reps, <- Hbits. apply orb_false_r.
  - split; [done|]. apply bit_list_ext_at; [|done]. rewrite length_fmap. unfold lenN in *. lia.
Qed.

Lemma lenN_pad_eval f l r : lenN (pad_eval f l r) = N.max (lenN l) (lenN r).
Proof. unfold lenN. rewrite length_pad_eval. lia. Qed.

(** What the bitmaps of the base say of the entries. *)
Definition base_rep vi es : Prop :=
  marks (mask_ vi) is_value es ∧ marks (none_ vi) is_nil es ∧ offset vi = lenN es ∧ lenN es <= max_size.

Lemma finish_base vi es op m (bm : ids) :
  base_rep vi es → right_at_values m es bm →
  bm_wf (finish vi op bm) ∧ bm_list (finish vi op bm) = entry_bit m (op ==o not_equal) <$> es.
Proof.
  intros (Hm & Hn & Ho & Hmax) (Hwf & Hlen & Hbits). unfold finish. rewrite Ho.
  destruct (marks_bitmap _ _ _ Hm) as [Hwm Em], (marks_bitmap _ _ _ Hn) as [Hwn En].
  destruct Hm as (Hbm & Hlm & Hm), Hn as (Hbn & Hln & Hn).
  destruct (binary_and_spec (R:=ids) bm _ Hwf Hwm) as [Hw1 E1]. rewrite Em in E1.
  destruct (op ==o not_equal) eqn:Eop.
  - destruct (binary_or_spec (R:=ids) _ _ Hw1 Hwn) as [Hw2 E2]. rewrite E1, En in E2.
    assert (lenN es = N.max (lenN (ewah_bitmap.to_list (none_ vi))) (lenN (ewah_bitmap.to_list (mask_ vi)))) as Hes.
    { by rewrite !ewah_to_list_size, <- Ho. }
    apply fill_bits; rewrite ?E2, ?lenN_pad_eval; try done; try lia.
    intros j. rewrite !bit_at_pad_eval, Hm, Hn by done. apply (masked_bit m es true), (Hbits j).
  - apply fill_bits; rewrite ?E1, ?lenN_pad_eval; try done; try lia.
    intros j. rewrite bit_at_pad_eval, Hm by done.
    rewrite <- (masked_bit m es false bm) by auto. by rewrite orb_false_r.
Qed.

Lemma finish_spec vi es op m (bm : ids) :
  vi_rep vi es → right_at_values m es bm →
  bm_wf (finish vi op bm) ∧ bm_list (finish vi op bm) = entry_bit m (op ==o not_equal) <$> es.
Proof. intros (Hm & Hn & Ho & Hmax & _). by apply finish_base. Qed.

Lemma base_append_none vi es pos : base_rep vi es → lenN es <= pos → pos + 1 <= max_size →
  base_rep (mk (impl vi) (mask_ vi) (set_at (none_ vi) pos)) (extend es pos d_none).
Proof.
  intros (Hm & Hn & Ho & Hmax) Hle Hpos. pose proof (marks_set _ _ _ pos d_none Hn eq_refl eq_refl Hle Hpos) as Hn'.
  pose proof (size_set_at _ _ _ pos d_none Hn Hle Hpos Hn') as Hs. pose proof (marks_size _ _ _ Hm).
  split_and!; [by apply marks_keep|done| |]; rewrite lenN_extend by done; [|done]. unfold offset. cbn [mask_ none_]. rewrite Hs. lia.
Qed.
Lemma base_append_value vi i es pos d : base_rep vi es → is_none d = false → lenN es <= pos → pos + 1 <= max_size →
  base_rep (mk i (set_at (mask_ vi) pos) (none_ vi)) (extend es pos d).
Proof.
  intros (Hm & Hn & Ho & Hmax) Hd Hle Hpos. assert (is_value (Some d) = true) as Hv by (unfold is_value; cbn; by rewrite Hd).
  pose proof (marks_set _ _ _ pos d Hm eq_refl Hv Hle Hpos) as Hm'. pose proof (size_set_at _ _ _ pos d Hm Hle Hpos Hm') as Hs. pose proof (marks_size _ _ _ Hn).
  split_and!; [done|by apply marks_keep| |]; rewrite lenN_extend by done; [|done]. unfold offset. cbn [mask_ none_]. rewrite Hs. lia.
Qed.

Lemma lookup_none_spec vi es op :
  vi_rep vi es → op = equal ∨ op = not_equal →
  ∃ r, lookup_none vi op = value r ∧ bm_wf r ∧
       bm_list r = (λ o, if op ==o equal then is_nil o else negb (is_nil o)) <$> es.
Proof.
  intros (Hm & Hn & Ho & Hmax & _) Hop. unfold lookup_none.
  pose proof (marks_size _ _ _ Hm) as Hsm. destruct Hn as (Hb & Hlen & Hbits).
  pose proof (ewah_to_list_size _ Hb) as Hs.
  assert (∀ es', (negb <$> ((λ o, is_nil o) <$> es')) = (λ o, negb (is_nil o)) <$> es') as Hneg.
  { intros. by rewrite <- list_fmap_compose. }
  assert (ewah_bitmap.to_list (none_ vi) ++ reps (lenN es - ewah_bitmap.size (none_ vi)) false
          = is_nil <$> es) as Hfull.
  { apply bit_list_ext_at.
    - rewrite length_app, length_reps, length_fmap. unfold lenN in *. lia.
    - intros j _. by rewrite bit_at_app_reps, orb_false_r. }
  assert (negb ((op ==o equal) || (op ==o not_equal)) = false) as -> by (by destruct Hop as [-> | ->]).
  set (b := op ==o equal).
  set (r0 := if b then _ else _).
  assert (ewah_inv r0 ∧ ewah_bitmap.to_list r0 =
    (if b then ewah_bitmap.to_list (none_ vi) else negb <$> ewah_bitmap.to_list (none_ vi))) as [Hb0 E0].
  { unfold r0. destruct b; [done|]. by apply ewah_flip_spec. }
  assert (ewah_bitmap.size r0 = ewah_bitmap.size (none_ vi)) as Hs0.
  { rewrite <- !ewah_to_list_size, E0 by done. unfold lenN. destruct b; by rewrite ?length_fmap. }
  eexists. split; [done|]. rewrite Hs0. unfold offset in Ho.
  assert ((λ o, if b then is_nil o else negb (is_nil o)) <$> es =
    ewah_bitmap.to_list r0 ++ reps (lenN es - ewah_bitmap.size (none_ vi)) (negb b)) as ->.
  { rewrite E0. destruct b; [by symmetry|].
    rewrite <- Hneg. change (λ o, is_nil o) with is_nil. by rewrite <- Hfull, fmap_app, fmap_reps. }
  destruct (N.ltb_spec (ewah_bitmap.size (none_ vi)) (ewah_bitmap.size (mask_ vi))).
  - replace (lenN es) with (ewah_bitmap.size (mask_ vi)) by lia.
    apply (ewah_append_bits_spec r0); [done|]. rewrite ewah_to_list_size by done. lia.
  - replace (lenN es - _) with 0 by lia. rewrite reps_0, app_nil_r. done.
Qed.

Lemma vi_rep_impl vi es i :
  vi_rep vi es → impl_rep i (take (N.to_nat (ewah_bitmap.size (mask_ vi))) (vals es)) →
  vi_rep (mk i (mask_ vi) (none_ vi)) es.
Proof. intros (Hm & Hn & Ho & Hmax & _) Hi. exact (conj Hm (conj Hn (conj Ho (conj Hmax Hi)))). Qed.

(** The values the implementation holds are the values of the entries. *)
Lemma rows_at_values bm es j v :
  marks bm is_value es → vals es !! j = Some (Some v) →
  take (N.to_nat (ewah_bitmap.size bm)) (vals es) !! j = Some (Some v).
Proof.
  intros Hm Hj. rewrite (vals_tail bm es Hm) in Hj.
  apply lookup_app_Some in Hj as [Hj|[_ Hj]]; [done|].
  rewrite lookup_reps in Hj. by case_decide.
Qed.

Lemma lookup_value_fuel n vi es op x :
  vi_rep vi es → is_none x = false → impl_supports op x →
  ∃ i r, lookup_fuel (S n) (mask_ vi) (none_ vi) (impl vi) op x = (i, value r) ∧
    vi_rep (mk i (mask_ vi) (none_ vi)) es ∧ bm_wf r ∧
    bm_list r = entry_bit (λ v, impl_matches op v x) (op ==o not_equal) <$> es.
Proof.
  intros Hrep Hx Hs. pose proof Hrep as (Hm & Hn & Ho & Hmax & Hi). cbn [lookup_fuel]. rewrite Hx.
  pose proof (marks_size _ _ _ Hm) as Hsm.
  set (rs := take _ (vals es)) in *. assert (lenN rs <= lenN es) as Hrs.
  { unfold rs, lenN, vals. rewrite length_take, length_fmap. lia. }
  destruct (lookup_impl_spec (lookup_fuel n (mask_ vi) (none_ vi)) (lenN es) (impl vi) rs op x Hi Hs)
    as (i' & bm & E & Hi' & Hwf & Hlen & Hbits); [done..|].
  replace (offset _) with (lenN es) by (by symmetry; exact Ho). rewrite E.
  destruct (finish_spec (mk (impl vi) (mask_ vi) (none_ vi)) es op (λ v, impl_matches op v x) bm)
    as [Hwf' E']; [by destruct vi| |].
  { split; [done|]. split; [done|]. intros j v Hj. by apply Hbits, rows_at_values. }
  eexists _, _. split; [done|]. split; [by apply vi_rep_impl|done].
Qed.

Lemma lookup_none_fuel n vi op : 
  lookup_fuel (S n) (mask_ vi) (none_ vi) (impl vi) op d_none = (impl vi, lookup_none vi op).
Proof. by destruct vi. Qed.

(** *** Lists *)

(** An element of a list: nil or a value that can be looked up by [==]. *)
Definition element (x : data) : Prop := x = d_none ∨ (is_none x = false ∧ impl_supports equal x).
Definition elem_matches (v x : data) : bool := negb (is_none x) && impl_matches equal v x.

Lemma lookup_element n vi es x :
  vi_rep vi es → element x →
  ∃ i r, lookup_fuel (S n) (mask_ vi) (none_ vi) (impl vi) equal x = (i, value r) ∧
    vi_rep (mk i (mask_ vi) (none_ vi)) es ∧ right_at_values (λ v, elem_matches v x) es r ∧
    lenN (bm_list r) = lenN es.
Proof.
  intros Hrep [->|[Hx Hs]].
  - rewrite lookup_none_fuel. destruct (lookup_none_spec vi es equal Hrep) as (r & -> & Hwf & E); [by left|].
    eexists _, _. split; [done|]. split; [by destruct vi|]. unfold right_at_values. rewrite E.
    unfold lenN. rewrite length_fmap. split; [|done]. split; [done|]. split; [done|].
    intros j v Hj. rewrite bit_at_fmap. rewrite lookup_vals in Hj.
    destruct (es !! j) as [[d|]|]; [|done..]. cbn in *. by destruct (is_none d).
  - destruct (lookup_value_fuel n vi es equal x Hrep Hx Hs) as (i & r & E & Hrep' & Hwf & El).
    eexists _, _. split; [done|]. split; [done|]. unfold right_at_values. rewrite El.
    unfold lenN. rewrite length_fmap. split; [|done]. split; [done|]. split; [done|].
    intros j v Hj. rewrite bit_at_fmap. rewrite lookup_vals in Hj. unfold elem_matches. rewrite Hx.
    destruct (es !! j) as [[d|]|]; [|done..]. cbn in *. destruct (is_none d); by simplify_eq.
Qed.

(** [update] of the two loops, on bits. *)
Definition updates (neg : bool) (update : ids → ids → ids) : Prop :=
  ∀ x y : ids, bm_wf x → bm_wf y → lenN (bm_list x) = lenN (bm_list y) →
  bm_wf (update x y) ∧ lenN (bm_list (update x y)) = lenN (bm_list x) ∧
  ∀ j, bit_at (bm_list (update x y)) j =
       if neg then bit_at (bm_list x) j && negb (bit_at (bm_list y) j)
       else bit_at (bm_list x) j || bit_at (bm_list y) j.

Lemma updates_or : updates false bitmap_algorithms.binary_or.
Proof.
  intros x y Hx Hy Hlen. destruct (binary_or_spec (R:=ids) x y Hx Hy) as [? ->].
  split; [done|]. rewrite lenN_pad_eval. split; [lia|]. intros j. by rewrite bit_at_pad_eval.
Qed.

Lemma updates_nand : updates true bitmap_algorithms.binary_nand.
Proof.
  intros x y Hx Hy Hlen. destruct (binary_nand_spec (R:=ids) x y Hx Hy) as [? ->].
  split; [done|]. rewrite lenN_pad_eval. split; [lia|]. intros j. by rewrite bit_at_pad_eval.
Qed.

Lemma all_bit_at b (r : ids) j :
  bm_wf r → bitmap_algorithms.all b r = true → (j < length (bm_list r))%nat → bit_at (bm_list r) j = b.
Proof.
  intros Hr Hall [x Hx]%lookup_lt_is_Some_2. rewrite all_spec in Hall by done.
  apply bool_decide_eq_true in Hall. rewrite Forall_lookup in Hall. unfold bit_at. rewrite Hx.
  by rewrite (Hall _ _ Hx).
Qed.

Lemma loop_spec neg update n vi es (result : ids) m xs :
  updates neg update → vi_rep vi es → Forall element xs →
  right_at_values m es result → lenN (bm_list result) = lenN es →
  ∃ i r, container_lookup.loop (lookup_fuel (S n) (mask_ vi) (none_ vi)) update
           (bitmap_algorithms.all (negb neg)) (impl vi) result xs = (i, value r) ∧
    vi_rep (mk i (mask_ vi) (none_ vi)) es ∧
    right_at_values (λ v, let found := existsb (elem_matches v) xs in
                          if neg then m v && negb found else m v || found) es r.
Proof.
  intros Hup. revert vi result m. induction xs as [|x xs IH]; intros vi result m Hrep Hxs Hr Hlen.
  { cbn [container_lookup.loop existsb]. eexists _, _. split; [done|]. split; [by destruct vi|].
    destruct Hr as (Hw & Hl & Hb). split; [done|]. split; [done|]. intros j v Hj. rewrite (Hb j v Hj).
    cbn. destruct neg; [by rewrite andb_true_r|by rewrite orb_false_r]. }
  apply Forall_cons_iff in Hxs as [Hx Hxs]. cbn [container_lookup.loop existsb].
  destruct (lookup_element n vi es x Hrep Hx) as (i & r & -> & Hrep' & (Hwr & _ & Hbr) & Hlr).
  destruct Hr as (Hw & Hl & Hb).
  destruct (Hup result r Hw Hwr) as (Hw' & Hl' & Hb'); [lia|].
  assert (right_at_values (λ v, if neg then m v && negb (elem_matches v x) else m v || elem_matches v x)
    es (update result r)) as Hr'.
  { split; [done|]. split; [lia|]. intros j v Hj. by rewrite Hb', (Hb j v Hj), (Hbr j v Hj). }
  destruct (bitmap_algorithms.all (negb neg) (update result r)) eqn:Hall.
  - eexists _, _. split; [done|]. split; [done|]. split; [done|]. split; [lia|]. intros j v Hj.
    destruct Hr' as (_ & _ & Hr'). specialize (Hr' j v Hj).
    assert (j < length (bm_list (update result r)))%nat as Hjl.
    { apply lookup_lt_Some in Hj. unfold vals in Hj. rewrite length_fmap in Hj. unfold lenN in *. lia. }
    rewrite (all_bit_at _ _ j Hw' Hall Hjl) in Hr' |- *.
    destruct neg, (m v), (elem_matches v x); done.
  - destruct (IH (mk i (mask_ vi) (none_ vi)) (update result r) _ Hrep' Hxs Hr') as (i' & r' & E & ? & Hr2);
      [lia|].
    eexists _, _. split; [exact E|]. split; [done|]. destruct Hr2 as (? & ? & Hr2).
    split; [done|]. split; [done|]. intros j v Hj. rewrite (Hr2 j v Hj). cbn zeta.
    destruct neg, (m v), (elem_matches v x); done.
Qed.

Lemma make_right es b : lenN es <= max_size → 
  right_at_values (λ _, b) es (bitmap_base.make (lenN es) b) ∧
  lenN (bm_list (bitmap_base.make (B:=ids) (lenN es) b)) = lenN es.
Proof.
  intros Hmax. destruct (bitmap_make_spec (B:=ids) (lenN es) b Hmax) as [Hw E].
  unfold right_at_values. rewrite E, lenN_reps. split; [|done]. split; [done|]. split; [done|].
  intros j v Hj%lookup_lt_Some. unfold vals in Hj. rewrite length_fmap in Hj.
  unfold bit_at. rewrite lookup_reps, decide_True; [done|]. unfold lenN. lia.
Qed.

(** ** The promises of [lookup] *)

Lemma vi_lookup_value vi es op x :
  vi_rep vi es → is_none x = false → impl_supports op x →
  ∃ vi' r, lookup vi op x = (vi', value r) ∧ vi_rep vi' es ∧ bm_wf r ∧
    bm_list r = entry_bit (λ v, impl_matches op v x) (op ==o not_equal) <$> es.
Proof.
  intros Hrep Hx Hs. unfold lookup.
  destruct (lookup_value_fuel (data_depth x) vi es op x Hrep Hx Hs) as (i & r & -> & ? & ? & ?).
  by eexists _, _.
Qed.

Lemma vi_lookup_none vi es op :
  vi_rep vi es → op = equal ∨ op = not_equal →
  ∃ r, lookup vi op d_none = (vi, value r) ∧ bm_wf r ∧
       bm_list r = (λ o, if op ==o equal then is_nil o else negb (is_nil o)) <$> es.
Proof.
  intros Hrep Hop. destruct (lookup_none_spec vi es op Hrep Hop) as (r & E & ? & ?).
  exists r. unfold lookup. cbn [data_depth]. rewrite lookup_none_fuel, E. by destruct vi.
Qed.

Lemma vi_lookup_none_error vi op :
  op ≠ equal → op ≠ not_equal → lookup vi op d_none = (vi, error unsupported_operator).
Proof. intros ? ?. destruct vi, op; done. Qed.

Lemma vi_lookup_list vi es (neg : bool) xs :
  vi_rep vi es → Forall element xs →
  ∃ vi' r, lookup vi (if neg then not_in else in_) (d_list xs) = (vi', value r) ∧ vi_rep vi' es ∧
    bm_wf r ∧ bm_list r = entry_bit (λ v, xorb neg (existsb (elem_matches v) xs)) false <$> es.
Proof.
  intros Hrep Hxs. pose proof Hrep as (_ & _ & Ho & Hmax & _). unfold lookup. cbn [data_depth].
  set (k := foldr _ _ _). set (op := if neg then not_in else in_).
  remember (S k) as fuel eqn:Ek. cbn [lookup_fuel is_none]. rewrite lookup_impl_list.
  replace (offset _) with (lenN es) by (by destruct vi; symmetry).
  assert (∃ i r, container_lookup.container_lookup_impl (lookup_fuel fuel (mask_ vi) (none_ vi))
    (lenN es) (impl vi) op xs = (i, value r) ∧ vi_rep (mk i (mask_ vi) (none_ vi)) es ∧
    right_at_values (λ v, xorb neg (existsb (elem_matches v) xs)) es r) as (i & r & -> & Hrep' & Hr).
  { subst fuel op. unfold container_lookup.container_lookup_impl. destruct neg; cbn [op_eqb op_index N.eqb Pos.eqb].
    - destruct (make_right es true Hmax).
      apply (loop_spec true _ k vi es _ (λ _, true)); auto using updates_nand.
    - destruct (make_right es false Hmax).
      destruct (loop_spec false bitmap_algorithms.binary_or k vi es (bitmap_base.make (lenN es) false)
        (λ _, false) xs) as (i & r & ? & ? & Hr); auto using updates_or. eexists _, _. split; [done|].
      split; [done|]. cbn [xorb]. destruct Hr as (? & ? & Hr). split; [done|]. split; [done|].
      intros j v Hj. rewrite (Hr j v Hj). by destruct (existsb _ _). }
  destruct (finish_spec (mk (impl vi) (mask_ vi) (none_ vi)) es op _ r
    ltac:(by destruct vi) Hr) as [Hwf E].
  eexists _, _. split; [done|]. split; [done|]. split; [done|]. rewrite E. by destruct neg.
Qed.

(** Any other operator with a list is refused. *)
Lemma vi_lookup_list_error vi op xs :
  op ≠ in_ → op ≠ not_in → lookup vi op (d_list xs) = (vi, error unsupported_operator).
Proof.
  intros ? ?. unfold lookup. cbn [data_depth lookup_fuel is_none]. rewrite lookup_impl_list.
  destruct vi, op; done.
Qed.

(** The fuel of [lookup] is enough. *)
Lemma loop_ext (self self' : lookup_fn I) update stop i r xs :
  (∀ i x, x ∈ xs → self i equal x = self' i equal x) →
  container_lookup.loop self update stop i r xs = container_lookup.loop self' update stop i r xs.
Proof.
  revert i r. induction xs as [|x xs IH]; intros i r Hself; [done|]. cbn [container_lookup.loop].
  rewrite Hself by (apply elem_of_cons; by left). destruct (self' i equal x) as [i' [r'|]]; [|done].
  destruct (stop _); [done|]. apply IH. intros. apply Hself, elem_of_cons. by right.
Qed.

Lemma lookup_fuel_enough n mask none (i : I) op x :
  (data_depth x < n)%nat → lookup_fuel n mask none i op x = lookup_fuel (S (data_depth x)) mask none i op x.
Proof.
  revert i op x. induction n as [n IH] using lt_wf_ind. intros i op x Hn.
  destruct n as [|n]; [lia|]. cbn [lookup_fuel]. destruct (is_none x); [done|].
  enough (∀ off, lookup_impl (lookup_fuel n mask none) off i op x =
    lookup_impl (lookup_fuel (data_depth x) mask none) off i op x) as E by (by rewrite E).
  intros off. destruct x; try (apply lookup_impl_self; by intros).
  rewrite !lookup_impl_list. unfold container_lookup.container_lookup_impl.
  assert (∀ i x, x ∈ xs → lookup_fuel n mask none i equal x =
    lookup_fuel (data_depth (d_list xs)) mask none i equal x) as E.
  { intros i' x Hx%data_depth_elem. destruct (decide (n = data_depth (d_list xs))) as [->|]; [done|].
    rewrite (IH n), (IH (data_depth (d_list xs))) by lia. done. }
  destruct (op ==o in_); [by apply loop_ext|]. destruct (op ==o not_in); [by apply loop_ext|done].
Qed.
End lookup.
