(* ===== verification/ArithmeticIndex.v ===== *)
(** Arithmetic indexes: [libvast/include/vast/index/arithmetic_index.hpp], for
    [bool], [int64_t], [uint64_t], [duration] and [time].

    The template takes any arithmetic view and converts it to the value type of
    the index; the conversion of a double outside the range of the integer type,
    which is undefined in the language, wraps around here. *)

From S2P Require Import Prelude Word Bits BitmapConcept EwahBitmap EwahRange BitmapAlgorithms.
From S2P Require Import Bitmap Operator Base Coder MultiLevelCoder BitsliceCoder Order.
From S2P Require Import BitmapIndex Data ValueIndex ValueIndexSpec.

Module arithmetic_index.

(** The conversions of a view to the value type; [None] for the views that are
    not arithmetic. *)
Definition double_trunc (x : N) : Z := Z.quot (fp_value x) (2 ^ 1074).
Definition convert_i64 (d : data) : option Z :=
  match d with
  | d_bool x => Some (Z.b2z x)
  | d_int64 x => Some x
  | d_uint64 x => Some (to_i64 x)
  | d_double x => Some (to_i64 (to_u64 (double_trunc x)))
  | d_duration x => Some x
  | d_time x => Some x
  | _ => None
  end.
Definition convert_u64 (d : data) : option N :=
  match d with
  | d_bool x => Some (N.b2n x)
  | d_int64 x => Some (to_u64 x)
  | d_uint64 x => Some x
  | d_double x => Some (to_u64 (double_trunc x))
  | d_duration x => Some (to_u64 x)
  | d_time x => Some (to_u64 x)
  | _ => None
  end.
Definition convert_bool (d : data) : option bool :=
  match d with
  | d_bool x => Some x
  | d_int64 x => Some (negb (x =? 0)%Z)
  | d_uint64 x => Some (negb (x =? 0))
  | d_double x => Some (negb (fp_value x =? 0)%Z)
  | d_duration x => Some (negb (x =? 0)%Z)
  | d_time x => Some (negb (x =? 0)%Z)
  | _ => None
  end.

(** The index of a value type [T] with its coder. *)
Record arithmetic_index {T} (C : Type) (p : bitmap_index.policy T) (convert : data → option T) :=
  mk { bmi_ : bitmap_index.bitmap_index C }.
Arguments mk {T C p convert}.
Arguments bmi_ {T C p convert}.

Section operations.
Context {T C : Type} `{CoderOps C ids} {p : bitmap_index.policy T} {convert : data → option T}.

Definition append_impl (idx : arithmetic_index C p convert) (d : data) (pos : N)
    : arithmetic_index C p convert * bool :=
  match convert d with
  | None => (idx, false)
  | Some x =>
      let bmi := bitmap_index.skip (bmi_ idx) (pos - bitmap_index.size (bmi_ idx)) in
      (mk (bitmap_index.append p bmi x), true)
  end.

Definition lookup_impl (lookup : lookup_fn (arithmetic_index C p convert)) (offset : N)
    : lookup_fn (arithmetic_index C p convert) :=
  λ idx op d,
  match d with
  | d_list xs => container_lookup.container_lookup_impl lookup offset idx op xs
  | _ =>
      match convert d with
      | None => (idx, error type_clash)
      | Some x => let '(bmi, r) := bitmap_index.lookup p (bmi_ idx) op x in (mk bmi, value r)
      end
  end.

#[export] Instance ops : ValueIndexOps (arithmetic_index C p convert) := {
  append_impl := append_impl;
  lookup_impl := lookup_impl
}.
End operations.

(** The constructor: the multi-level coder has the base of the options, 64
    digits of base 8 by default; the one bitmap of the singleton coder is empty. *)
Notation mlc := (multi_level_coder.multi_level_coder (vector_coder.vector_coder ids)).
Definition default_base : base.base := base.uniform 8 64.
Definition make_mlc {T} {p : bitmap_index.policy T} {convert} (base_option : option base.base)
    : arithmetic_index mlc p convert :=
  mk (bitmap_index.mk (multi_level_coder.make range_ops (default default_base base_option))).
Definition make_bool : arithmetic_index (singleton_coder.singleton_coder ids)
    bitmap_index.bool_policy convert_bool :=
  mk (bitmap_index.mk singleton_coder.empty).

Notation bool_index := (arithmetic_index (singleton_coder.singleton_coder ids)
  bitmap_index.bool_policy convert_bool).
Notation int64_index := (arithmetic_index mlc bitmap_index.i64_policy convert_i64).
Notation uint64_index := (arithmetic_index mlc bitmap_index.unsigned_policy convert_u64).
(** [duration] and [time] *)
Notation nanoseconds_index := (arithmetic_index mlc bitmap_index.nanoseconds_policy convert_i64).
End arithmetic_index.

(** ** Arithmetic indexes are value indexes *)

(** The values of the type: they fit into a coder that holds all codes below
    the bound. *)
Class ArithmeticType {T} (p : bitmap_index.policy T) (convert : data → option T) := {
  arith_dom : T → Prop;
  arith_bound : N;
  arith_code x : arith_dom x → code p x < arith_bound;
  arith_adjusted op x :
    arith_dom x → bitmap_index.transform p (bitmap_index.adjusted p op x) < arith_bound;
  arith_not_none : convert d_none = None;
  arith_not_list xs : convert (d_list xs) = None
}.

Section arithmetic.
Import arithmetic_index.
Context {T C : Type} `{CoderOps C ids} `{!Coder C ids} {p : bitmap_index.policy T} {convert : data → option T}.
Context `{!ArithmeticType p convert}.
Implicit Types idx : arithmetic_index C p convert.

Definition converted (rs : entries) : list (option T) := (λ o, o ≫= convert) <$> rs.

Definition arith_value (d : data) (x : T) : Prop := convert d = Some x ∧ arith_dom x.

Definition arith_rep idx (rs : entries) : Prop :=
  bmi_rep p (bmi_ idx) (converted rs) ∧
  (∀ c, c < arith_bound → coder_fits (bitmap_index.coder_ (bmi_ idx)) c) ∧
  ∀ d, Some d ∈ rs → ∃ x, arith_value d x.

Definition arith_matches (op : relational_operator) (v x : data) : bool :=
  match convert v, convert x with
  | Some v, Some x =>
      cmp op (code p v) (bitmap_index.transform p (bitmap_index.adjusted p op x))
  | _, _ => false
  end.

Lemma lenN_converted rs : lenN (converted rs) = lenN rs.
Proof. apply lenN_fmap. Qed.

Lemma arith_append_spec idx rs d pos :
  arith_rep idx rs → (∃ x, arith_value d x) → lenN rs <= pos → pos + 1 <= max_size →
  ∃ idx', append_impl idx d pos = (idx', true) ∧
          arith_rep idx' (rs ++ reps (pos - lenN rs) None ++ [Some d]).
Proof.
  intros (Hrep & Hfit & Hv) [x [Hx Hd]] Hle Hmax. unfold append_impl. rewrite Hx.
  destruct (bmi_size_spec p _ _ Hrep) as [-> _]. rewrite lenN_converted.
  destruct (bmi_skip_spec p _ _ (pos - lenN rs) Hrep) as [Hrep1 Hs1]; [rewrite lenN_converted; lia|].
  unfold bmi_same in *.
  destruct (bmi_append_spec p _ _ x 1 Hrep1) as [Hrep2 Hs2].
  { unfold bmi_fits. rewrite (coder_same_fits _ _ Hs1). by apply Hfit, arith_code. }
  { autorewrite with lendb. rewrite lenN_converted. lia. }
  eexists. split; [done|]. split; [|split].
  - unfold converted. rewrite !fmap_app, fmap_reps. cbn. rewrite Hx, app_assoc. exact Hrep2.
  - intros c Hc. cbn [bmi_]. unfold bitmap_index.append. unfold bmi_same in Hs2.
    rewrite (coder_same_fits _ _ Hs2), (coder_same_fits _ _ Hs1). by apply Hfit.
  - intros d' [?|[Hin|Hin]%elem_of_app]%elem_of_app; [by apply Hv|unfold reps in Hin|].
    + by apply elem_of_replicate in Hin as [? _].
    + apply list_elem_of_singleton in Hin as [= ->]. by exists x.
Qed.

Lemma arith_lookup_spec self off idx rs op d x :
  arith_rep idx rs → arith_value d x → coder_op op = true → lenN rs <= off →
  ∃ idx' bm, lookup_impl self off idx op d = (idx', value bm) ∧ arith_rep idx' rs ∧
    bm_wf bm ∧ lenN (bm_list bm) <= off ∧
    ∀ j v, rs !! j = Some (Some v) → bit_at (bm_list bm) j = arith_matches op v d.
Proof.
  intros (Hrep & Hfit & Hv) [Hx Hdom] Hop Hoff.
  pose proof (bmi_lookup_spec p _ _ op x Hrep (Hfit _ (arith_adjusted op x Hdom)) Hop) as Hl.
  destruct (bitmap_index.lookup p (bmi_ idx) op x) as [bmi r] eqn:E.
  destruct Hl as (Hrep' & Hs & Hwf & Hlen & Hbits). exists (mk bmi), r. split.
  { unfold lookup_impl. destruct d; rewrite ?Hx, ?E; try done. by rewrite arith_not_list in Hx. }
  split; [|split; [done|split]].
  - split; [done|]. split; [|done]. intros c Hc. unfold bmi_same in Hs. cbn [bmi_].
    rewrite (coder_same_fits _ _ Hs). by apply Hfit.
  - unfold converted in Hlen. rewrite length_fmap in Hlen. unfold lenN in *. lia.
  - intros j v Hj. destruct (Hv v) as [y [Hy _]]; [by eapply list_elem_of_lookup_2|].
    unfold bit_at, arith_matches. rewrite (Hbits j y), Hx, Hy; [done|].
    unfold converted. by rewrite list_lookup_fmap, Hj; cbn; rewrite Hy.
Qed.

#[refine, export] Instance arithmetic_impl : ValueIndexImpl (arithmetic_index C p convert) := {|
  impl_rep := arith_rep;
  impl_accepts d := ∃ x, arith_value d x;
  impl_supports op d := coder_op op = true ∧ ∃ x, arith_value d x;
  impl_matches := arith_matches;
  append_impl_spec := arith_append_spec
|}.
Proof.
  - abstract (intros self off i rs op x Hrep [Hop [y Hy]] ? _; by eapply arith_lookup_spec).
  - abstract done.
  - abstract (intros self self' off i op x Hl; destruct x; try done; by destruct (Hl xs)).
Defined.
End arithmetic.

(** ** The arithmetic types *)

#[refine, export] Instance int64_type :
    ArithmeticType bitmap_index.i64_policy arithmetic_index.convert_i64 := {|
  arith_dom := is_i64;
  arith_bound := 2 ^ 64
|}.
Proof.
  - abstract (intros x Hx; apply to_u64_range).
  - abstract (intros op x Hx; apply to_u64_range).
  - abstract done.
  - abstract done.
Defined.

#[refine, export] Instance uint64_type :
    ArithmeticType bitmap_index.unsigned_policy arithmetic_index.convert_u64 := {|
  arith_dom x := x < 2 ^ 64;
  arith_bound := 2 ^ 64
|}.
Proof.
  - abstract done.
  - abstract done.
  - abstract done.
  - abstract done.
Defined.

(** Times before the epoch and negative durations are binned out of order. *)
#[refine, export] Instance nanoseconds_type :
    ArithmeticType bitmap_index.nanoseconds_policy arithmetic_index.convert_i64 := {|
  arith_dom x := (0 <= x < 2 ^ 63)%Z;
  arith_bound := 2 ^ 64
|}.
Proof.
  - abstract (intros x Hx; apply to_u64_range).
  - abstract (intros op x Hx; apply to_u64_range).
  - abstract done.
  - abstract done.
Defined.

#[refine, export] Instance bool_type :
    ArithmeticType bitmap_index.bool_policy arithmetic_index.convert_bool := {|
  arith_dom _ := True;
  arith_bound := 2
|}.
Proof.
  - abstract (by intros []).
  - abstract (by intros ? []).
  - abstract done.
  - abstract done.
Defined.

(** ** New indexes *)

(** A base that expresses all 64-bit numbers. *)
Definition wide (b : base.base) : Prop :=
  base.well_defined b = true ∧ 2 ^ 64 <= base_product (base.values_ b).

Lemma default_base_wide : wide arithmetic_index.default_base.
Proof. by split; vm_compute. Qed.

Lemma make_mlc_rep {T} {p : bitmap_index.policy T} {convert} `{!ArithmeticType p convert} o :
  arith_bound (p:=p) (convert:=convert) <= 2 ^ 64 → wide (default arithmetic_index.default_base o) →
  arith_rep (arithmetic_index.make_mlc (p:=p) (convert:=convert) o) [].
Proof.
  intros Hb [Hw Hp]. split; [by apply mlc_make_rep|]. split; [|by intros d ?%not_elem_of_nil].
  intros c Hc. cbn. lia.
Qed.

Lemma make_bool_rep : arith_rep arithmetic_index.make_bool [].
Proof.
  split; [|split; [done|by intros d ?%not_elem_of_nil]]. split; [|by intros v ?%not_elem_of_nil].
  split; [constructor|done].
Qed.
