(* ===== verification/EnumerationIndex.v ===== *)
(** Enumeration indexes: [libvast/src/index/enumeration_index.cpp]. *)

From S2P Require Import Prelude Word Bits BitmapConcept EwahBitmap EwahRange BitmapAlgorithms.
From S2P Require Import Bitmap Operator Coder BitmapIndex Data ValueIndex ValueIndexSpec.

Module enumeration_index.
Section enumeration_index.
(** The queue of the equality coder. *)
Context (top : list ewah_bitmap.ewah_bitmap → option (ewah_bitmap.ewah_bitmap * list ewah_bitmap.ewah_bitmap)).

Record enumeration_index := mk { index_ : bitmap_index.bitmap_index (equality top) }.

(** The constructor: one bitmap for each of the 256 values of [enumeration]. *)
Definition make : enumeration_index :=
  mk (bitmap_index.mk (equality_mk (vector_coder.make 256))).

Definition append_impl (idx : enumeration_index) (x : data) (pos : N) : enumeration_index * bool :=
  match x with
  | d_enumeration e =>
      let index := bitmap_index.skip (index_ idx) (pos - bitmap_index.size (index_ idx)) in
      (mk (bitmap_index.append bitmap_index.unsigned_policy index e), true)
  | _ => (idx, false)
  end.

Definition lookup_impl (lookup : lookup_fn enumeration_index) (offset : N) : lookup_fn enumeration_index :=
  λ idx op d,
  match d with
  | d_enumeration x =>
      if (op ==o in_) || (op ==o not_in) then (idx, error unsupported_operator)
      else
        let '(index, r) := bitmap_index.lookup bitmap_index.unsigned_policy (index_ idx) op x in
        (mk index, value (bitmap.ewah r))
  | d_list xs => container_lookup.container_lookup_impl lookup offset idx op xs
  | _ => (idx, error type_clash)
  end.

#[export] Instance ops : ValueIndexOps enumeration_index := {
  append_impl := append_impl;
  lookup_impl := lookup_impl
}.
End enumeration_index.
End enumeration_index.

(** ** Enumeration indexes are value indexes *)

Section enumeration.
Import enumeration_index.
Context (top : list ewah_bitmap.ewah_bitmap → option (ewah_bitmap.ewah_bitmap * list ewah_bitmap.ewah_bitmap)).
Context `{!Queue top}.
Implicit Types idx : enumeration_index top.

Definition enum_value (d : data) : option N := match d with d_enumeration x => Some x | _ => None end.
Definition enum_ok (d : data) : Prop := ∃ x, d = d_enumeration x ∧ x < 256.
Definition enum_rows (rs : entries) : list (option N) := (λ o, o ≫= enum_value) <$> rs.

Definition enum_rep idx (rs : entries) : Prop :=
  bmi_rep bitmap_index.unsigned_policy (index_ top idx) (enum_rows rs) ∧
  equality_count top (bitmap_index.coder_ (index_ top idx)) = 256 ∧
  ∀ d, Some d ∈ rs → enum_ok d.

Definition enum_matches (op : relational_operator) (v x : data) : bool :=
  match enum_value v, enum_value x with Some v, Some x => cmp op v x | _, _ => false end.

Lemma lenN_enum_rows rs : lenN (enum_rows rs) = lenN rs.
Proof. apply lenN_fmap. Qed.

Lemma enum_make_rep : enum_rep (make top) [].
Proof.
  split; [|split; [done|by intros d ?%not_elem_of_nil]].
  split; [by apply vec_rep_make|by intros v ?%not_elem_of_nil].
Qed.

Lemma enum_append_spec idx rs d pos :
  enum_rep idx rs → enum_ok d → lenN rs <= pos → pos + 1 <= max_size →
  ∃ idx', append_impl top idx d pos = (idx', true) ∧
          enum_rep idx' (rs ++ reps (pos - lenN rs) None ++ [Some d]).
Proof.
  intros (Hrep & Hc & Hv) (x & -> & Hx) Hle Hmax. unfold append_impl.
  destruct (bmi_size_spec _ _ _ Hrep) as [-> _]. rewrite lenN_enum_rows.
  destruct (bmi_skip_spec _ _ _ (pos - lenN rs) Hrep) as [Hrep1 Hs1]; [rewrite lenN_enum_rows; lia|].
  unfold bmi_same in Hs1. cbn in Hs1.
  destruct (bmi_append_spec _ _ _ x 1 Hrep1) as [Hrep2 Hs2].
  { unfold bmi_fits. cbn. by rewrite Hs1, Hc. }
  { autorewrite with lendb. rewrite lenN_enum_rows. lia. }
  eexists. split; [done|]. split; [|split].
  - unfold enum_rows. rewrite !fmap_app, fmap_reps. cbn. rewrite app_assoc. exact Hrep2.
  - unfold bmi_same in Hs2. cbn in Hs2 |- *. by rewrite Hs2, Hs1.
  - intros d' [?|[Hin|Hin]%elem_of_app]%elem_of_app; [by apply Hv|unfold reps in Hin|].
    + by apply elem_of_replicate in Hin as [? _].
    + apply list_elem_of_singleton in Hin as [= ->]. by exists x.
Qed.

Lemma enum_lookup_spec self off idx rs op d :
  enum_rep idx rs → is_comparison op = true → enum_ok d → lenN rs <= off →
  ∃ idx' bm, lookup_impl top self off idx op d = (idx', value bm) ∧ enum_rep idx' rs ∧
    bm_wf bm ∧ lenN (bm_list bm) <= off ∧
    ∀ j v, rs !! j = Some (Some v) → bit_at (bm_list bm) j = enum_matches op v d.
Proof.
  intros (Hrep & Hc & Hv) Hop (x & -> & Hx) Hoff.
  assert (x < equality_count top (bitmap_index.coder_ (index_ top idx))) as Hfit by (by rewrite Hc).
  pose proof (bmi_lookup_spec bitmap_index.unsigned_policy _ _ op x Hrep Hfit Hop) as Hl.
  unfold lookup_impl. replace ((op ==o in_) || (op ==o not_in)) with false by (by destruct op).
  destruct (bitmap_index.lookup _ _ op x) as [index r]. destruct Hl as (Hrep' & Hs & Hwf & Hlen & Hbits).
  exists (mk top index), (bitmap.ewah r). split; [done|]. split; [|split; [done|split]].
  - split; [done|]. split; [|done]. unfold bmi_same in Hs. cbn in Hs |- *. by rewrite Hs.
  - change (bm_list (bitmap.ewah r)) with (bm_list r). unfold enum_rows in Hlen.
    rewrite length_fmap in Hlen. unfold lenN in *. lia.
  - intros j v Hj. destruct (Hv v) as (y & -> & _); [by eapply list_elem_of_lookup_2|].
    change (bm_list (bitmap.ewah r)) with (bm_list r). unfold bit_at, enum_matches. cbn [enum_value].
    rewrite (Hbits j y); [done|]. unfold enum_rows. by rewrite list_lookup_fmap, Hj.
Qed.

#[refine, export] Instance enumeration_impl : ValueIndexImpl (enumeration_index top) := {|
  impl_rep := enum_rep;
  impl_accepts := enum_ok;
  impl_supports op d := is_comparison op = true ∧ enum_ok d;
  impl_matches := enum_matches;
  append_impl_spec := enum_append_spec
|}.
Proof.
  - abstract (intros self off i rs op x Hrep [Hop Hx] ? _; by apply enum_lookup_spec).
  - abstract done.
  - abstract (intros self self' off i op x Hl; destruct x; try done; by destruct (Hl xs)).
Defined.
End enumeration.
