(* ===== verification/StringIndex.v ===== *)
(** String indexes: [libvast/src/index/string_index.cpp].

    The index keeps the lengths of the strings and one index of bytes per
    position, both up to a maximum length that the constructor sets. *)

From S2P Require Import Prelude Word Bits BitmapConcept EwahBitmap EwahRange BitmapAlgorithms.
From S2P Require Import Bitmap Operator Base Coder MultiLevelCoder BitsliceCoder BitmapIndex.
From S2P Require Import Data ValueIndex ValueIndexSpec.

Module string_index.

Notation char_bitmap_index := (bitmap_index.bitmap_index (bitslice (B:=ewah_bitmap.ewah_bitmap))).
Notation length_bitmap_index :=
  (bitmap_index.bitmap_index (multi_level_coder.multi_level_coder (vector_coder.vector_coder ids))).

(** [max_length_] is fixed by the constructor. *)
Record string_index (max_length_ : N) := mk {
  length_ : length_bitmap_index;
  chars_ : list char_bitmap_index
}.
Arguments mk {max_length_}.
Arguments length_ {max_length_}.
Arguments chars_ {max_length_}.

(** [std::log10] of a positive integer, rounded down. *)
Fixpoint log10_loop (fuel : nat) (n : N) : N :=
  match fuel with
  | O => 0
  | S fuel => if n <? 10 then 0 else 1 + log10_loop fuel (n / 10)
  end.
Definition log10 (n : N) : N := log10_loop 20 n.

(** The number of digits of the base of [length_]. *)
Definition num_digits (max_length_ : N) : N :=
  log10 max_length_ + (if max_length_ mod 10 =? 0 then 0 else 1).

(** The lengths are kept as [uint32_t]. *)
Definition to_u32 (n : N) : N := n mod 2 ^ 32.

Section string_index.
Context {max_length_ : N}.
Implicit Types (idx : string_index max_length_) (chars : list char_bitmap_index).

Notation policy := bitmap_index.unsigned_policy.

Definition make : string_index max_length_ :=
  mk (bitmap_index.mk (multi_level_coder.make range_ops (base.uniform 10 (num_digits max_length_)))) [].

(** A new index of bytes. *)
Definition new_char : char_bitmap_index := bitmap_index.mk (bitslice_mk (vector_coder.make 8)).

(** The loop of [append_impl] over the bytes; [str] has at most as many as there are indexes. *)
Fixpoint append_chars (pos : N) chars (str : list N) : list char_bitmap_index :=
  match chars, str with
  | c :: chars, x :: str =>
      bitmap_index.append policy (bitmap_index.skip c (pos - bitmap_index.size c)) x
        :: append_chars pos chars str
  | _, _ => chars
  end.

Definition append_impl idx (x : data) (pos : N) : string_index max_length_ * bool :=
  match x with
  | d_string str =>
      let length := if max_length_ <? lenN str then max_length_ else lenN str in
      let chars :=
        if lenN (chars_ idx) <? length
        then chars_ idx ++ reps (length - lenN (chars_ idx)) new_char else chars_ idx in
      let chars := append_chars pos chars (take (N.to_nat length) str) in
      let lengths := bitmap_index.skip (length_ idx) (pos - bitmap_index.size (length_ idx)) in
      (mk (bitmap_index.append policy lengths (to_u32 length)) chars, true)
  | _ => (idx, false)
  end.

(** The lookup of a byte; a bitslice coder does not change when it decodes. *)
Definition lookup_char (c : char_bitmap_index) (x : N) : ids :=
  bitmap.ewah (bitmap_index.lookup policy c equal x).2.

(** The loop of [==] and [!=]; [None] is the early return when no row is left. *)
Fixpoint match_chars (result : ids) chars (str : list N) : option ids :=
  match chars, str with
  | c :: chars, x :: str =>
      let result := bitmap_algorithms.binary_and result (lookup_char c x) in
      if bitmap_algorithms.all false result then None else match_chars result chars str
  | _, _ => Some result
  end.

(** The inner loop of [ni] and [not_ni]; [None] is [skip]. *)
Fixpoint match_substr (substr : ids) chars (str : list N) : option ids :=
  match chars, str with
  | c :: chars, x :: str =>
      let bm := lookup_char c x in
      if bitmap_algorithms.all false bm then None
      else match_substr (bitmap_algorithms.binary_and substr bm) chars str
  | _, _ => Some substr
  end.

(** One step of the outer loop, at the position [i]. *)
Definition ni_step (offset : N) chars (str : list N) (result : ids) (i : nat) : ids :=
  match match_substr (bitmap_base.make offset true) (drop i chars) str with
  | Some substr => bitmap_algorithms.binary_or result substr
  | None => result
  end.

Definition lookup_equal (offset : N) idx (negated : bool) (str : list N)
    : string_index max_length_ * ids :=
  let str_size := lenN str in
  if str_size =? 0 then
    let '(lengths, result) := bitmap_index.lookup policy (length_ idx) equal 0 in
    (mk lengths (chars_ idx), if negated then bm_flip result else result)
  else if lenN (chars_ idx) <? str_size then (idx, bitmap_base.make offset negated)
  else
    let '(lengths, result) := bitmap_index.lookup policy (length_ idx) less_equal (to_u32 str_size) in
    let idx := mk lengths (chars_ idx) in
    if bitmap_algorithms.all false result then (idx, bitmap_base.make offset negated)
    else
      match match_chars result (chars_ idx) str with
      | None => (idx, bitmap_base.make offset negated)
      | Some result => (idx, if negated then bm_flip result else result)
      end.

Definition lookup_ni (offset : N) idx (negated : bool) (str : list N) : ids :=
  let str_size := lenN str in
  if str_size =? 0 then bitmap_base.make offset (negb negated)
  else if lenN (chars_ idx) <? str_size then bitmap_base.make offset negated
  else
    let result :=
      foldl (ni_step offset (chars_ idx) str) (bitmap_base.make offset false)
        (seq 0 (length (chars_ idx) - length str + 1)) in
    if negated then bm_flip result else result.

Definition lookup_impl (lookup : lookup_fn (string_index max_length_)) (offset : N)
    : lookup_fn (string_index max_length_) :=
  λ idx op d,
  match d with
  | d_pattern _ =>
      match op with
      | equal | not_equal => (idx, value (bitmap_base.make offset true))
      | _ => (idx, error unsupported_operator)
      end
  | d_string str =>
      let str := take (N.to_nat max_length_) str in
      match op with
      | equal | not_equal =>
          let '(idx, r) := lookup_equal offset idx (op ==o not_equal) str in (idx, value r)
      | ni | not_ni => (idx, value (lookup_ni offset idx (op ==o not_ni) str))
      | _ => (idx, error unsupported_operator)
      end
  | d_list xs => container_lookup.container_lookup_impl lookup offset idx op xs
  | _ => (idx, error type_clash)
  end.

#[export] Instance ops : ValueIndexOps (string_index max_length_) := {
  append_impl := append_impl;
  lookup_impl := lookup_impl
}.
End string_index.
End string_index.

(** ** The rows of a string index *)

Section strings.
Import string_index.
Context {max_length_ : N}.
Implicit Types (idx : string_index max_length_) (rs : entries) (t s : list N) (j : nat).
Notation policy := bitmap_index.unsigned_policy.

(** What the index sees of a string. *)
Definition truncate s : list N := take (N.to_nat max_length_) s.
Definition string_of (d : data) : list N := match d with d_string s => truncate s | _ => [] end.
Definition is_string (d : data) : Prop := ∃ s, d = d_string s ∧ Forall (λ x, x < 256) s.

Definition char_row (i : nat) (o : option data) : option N := o ≫= λ d, string_of d !! i.
Definition char_rows (i : nat) rs : list (option N) := char_row i <$> rs.
Definition length_rows rs : list (option N) := option_map (λ d, lenN (string_of d)) <$> rs.

(** Index [i] of the bytes; rows of shorter strings at the end are not there yet. *)
Definition char_rep (i : nat) (c : char_bitmap_index) rs : Prop :=
  ∃ k, (k <= length rs)%nat ∧ bmi_rep policy c (take k (char_rows i rs)) ∧
       bitslice_width (bitmap_index.coder_ c) = 8 ∧ Forall (eq None) (drop k (char_rows i rs)).

Definition string_rep idx rs : Prop :=
  (∀ d, Some d ∈ rs → is_string d ∧ (length (string_of d) <= length (chars_ idx))%nat) ∧
  bmi_rep policy (length_ idx) (length_rows rs) ∧
  (∀ n, n <= max_length_ → n < 2 ^ 32 ∧ coder_fits (bitmap_index.coder_ (length_ idx)) n) ∧
  ∀ i c, chars_ idx !! i = Some c → char_rep i c rs.

Lemma to_u32_length idx rs n : string_rep idx rs → n <= max_length_ → to_u32 n = n.
Proof. intros (_ & _ & Hfit & _) Hn. apply N.mod_small. by apply Hfit. Qed.

Lemma length_string_of d : lenN (string_of d) <= max_length_.
Proof.
  unfold string_of, truncate, lenN. destruct d; cbn; try lia. rewrite length_take. lia.
Qed.

Lemma string_of_bytes d i x : is_string d → string_of d !! i = Some x → x < 256.
Proof.
  intros (s & -> & Hs) Hx. cbn in Hx. apply lookup_take_Some in Hx as [Hx _].
  rewrite Forall_lookup in Hs. eauto.
Qed.

Lemma lenN_length_rows rs : lenN (length_rows rs) = lenN rs.
Proof. apply lenN_fmap. Qed.

(** *** Looking up a byte *)

Lemma testbit_below_255 x : x < 255 → ∃ i, i < 8 ∧ N.testbit x i = false.
Proof.
  intros Hx. destruct (existsb (λ i, negb (N.testbit x i)) (N.of_nat <$> seq 0 8)) eqn:E.
  { apply existsb_exists in E as (i & Hi & E%negb_true_iff). exists i. split; [|done].
    apply list_elem_of_In, list_elem_of_fmap in Hi as (k & -> & Hk). apply elem_of_seq in Hk. lia. }
  exfalso. assert (x = 255) as ->; [|lia]. change 255 with (N.ones 8). apply N.bits_inj. intros i.
  destruct (N.lt_ge_cases i 8).
  - rewrite N.ones_spec_low by done. destruct (N.testbit x i) eqn:Ei; [done|].
    apply not_true_iff_false in E. destruct E. apply existsb_exists. exists i.
    split; [|by rewrite Ei]. apply list_elem_of_In, list_elem_of_fmap. exists (N.to_nat i).
    split; [lia|]. apply elem_of_seq. lia.
  - rewrite N.ones_spec_high by done. apply (testbit_bound_high x 8); [|done]. cbn. lia.
Qed.

Lemma lookup_char_spec i (c : char_bitmap_index) rs x :
  char_rep i c rs → x < 255 →
  bm_wf (lookup_char c x) ∧ lenN (bm_list (lookup_char c x)) <= lenN rs ∧
  ∀ j, bit_at (bm_list (lookup_char c x)) j =
       match rs !! j with
       | Some o => match char_row i o with Some y => y =? x | None => false end
       | None => false
       end.
Proof.
  intros (k & Hk & Hrep & Hw & Hlazy) Hx. unfold lookup_char.
  assert (coder_fits (bitmap_index.coder_ c) x) as Hfit by (cbn; rewrite Hw; change (2 ^ 8) with 256; lia).
  pose proof (bmi_lookup_spec policy c _ equal x Hrep Hfit eq_refl) as Hl.
  destruct (bitmap_index.lookup policy c equal x) as [c' r] eqn:E. cbn [snd].
  destruct Hl as (_ & _ & Hwf & Hlen & Hbits). change (bm_list (bitmap.ewah r)) with (bm_list r).
  assert (length (bm_list r) <= k)%nat as Hlk by (rewrite length_take in Hlen; lia).
  split; [done|]. split; [unfold lenN; lia|]. intros j.
  destruct (decide (j < k)%nat) as [Hj|Hj].
  - destruct (lookup_lt_is_Some_2 rs j) as [o Ho]; [lia|]. rewrite Ho.
    assert (take k (char_rows i rs) !! j = Some (char_row i o)) as Hr
      by (unfold char_rows; by rewrite lookup_take_lt, list_lookup_fmap, Ho by done).
    destruct (char_row i o) as [y|].
    + unfold bit_at. by rewrite (Hbits j y Hr).
    + destruct (testbit_below_255 x Hx) as (b & Hb & Hxb).
      assert (r = bitslice_coder.equal_eval (bitslice_vector (bitmap_index.coder_ c)) x) as -> by (by injection E).
      unfold bmi_rep in Hrep. cbn in Hrep. rewrite Hw in Hrep.
      apply (equal_eval_none 8 _ _ x b j Hrep Hb Hxb). intros v.
      unfold coded. rewrite list_lookup_fmap, Hr. done.
  - rewrite bit_at_ge by lia. destruct (rs !! j) as [o|] eqn:Ho; [|done].
    apply (Forall_lookup_1 _ _ (j - k)%nat (char_row i o)) in Hlazy; [by rewrite <- Hlazy|].
    unfold char_rows. rewrite lookup_drop, list_lookup_fmap.
    replace (k + (j - k))%nat with j by lia. by rewrite Ho.
Qed.

(** *** Looking up several bytes *)

Definition row_string rs j : list N := match rs !! j with Some (Some d) => string_of d | _ => [] end.
(** The string of the row has [s] at position [i]. *)
Definition occurs_at (i : nat) s t : bool := bool_decide (take (length s) (drop i t) = s).

Lemma occurs_at_cons i x s t :
  occurs_at i (x :: s) t = match t !! i with Some y => y =? x | None => false end && occurs_at (S i) s t.
Proof.
  unfold occurs_at. cbn [length]. destruct (t !! i) as [y|] eqn:E.
  - rewrite (drop_S t y i E). cbn [take]. destruct (N.eqb_spec y x) as [->|Hne]; cbn [andb].
    + apply bool_decide_ext. split; [by intros [= ?]|by intros ->].
    + apply bool_decide_eq_false. by intros [= ?].
  - rewrite drop_ge by (by apply lookup_ge_None). done.
Qed.

Lemma char_bit i (c : char_bitmap_index) rs x j :
  char_rep i c rs → x < 255 →
  bit_at (bm_list (lookup_char c x)) j =
  match row_string rs j !! i with Some y => y =? x | None => false end.
Proof.
  intros Hc Hx. destruct (lookup_char_spec i c rs x Hc Hx) as (_ & _ & ->). unfold row_string, char_row.
  by destruct (rs !! j) as [[d|]|].
Qed.

(** The indexes of the bytes from position [i] on. *)
Definition chars_from (i : nat) (chars : list char_bitmap_index) rs : Prop :=
  ∀ k c, chars !! k = Some c → char_rep (i + k) c rs.

Lemma chars_from_cons i c chars rs :
  chars_from i (c :: chars) rs → char_rep i c rs ∧ chars_from (S i) chars rs.
Proof.
  intros Hc. split; [specialize (Hc 0%nat c eq_refl); by rewrite Nat.add_0_r in Hc|].
  intros k c' Hk. specialize (Hc (S k) c' Hk). by replace (S i + k)%nat with (i + S k)%nat by lia.
Qed.

Lemma chars_from_drop i k chars rs : chars_from i chars rs → chars_from (i + k) (drop k chars) rs.
Proof.
  intros Hc k' c Hk. rewrite lookup_drop in Hk. specialize (Hc _ _ Hk).
  by replace (i + k + k')%nat with (i + (k + k'))%nat by lia.
Qed.

Lemma and_char i c rs x (r : ids) :
  char_rep i c rs → x < 255 → bm_wf r →
  let r' := bitmap_algorithms.binary_and r (lookup_char c x) in
  bm_wf r' ∧ lenN (bm_list r') <= N.max (lenN (bm_list r)) (lenN rs) ∧
  lenN (bm_list r) <= lenN (bm_list r') ∧
  ∀ j, bit_at (bm_list r') j =
       bit_at (bm_list r) j && match row_string rs j !! i with Some y => y =? x | None => false end.
Proof.
  intros Hc Hx Hr. cbn zeta. destruct (lookup_char_spec i c rs x Hc Hx) as (Hw & Hl & _).
  destruct (binary_and_spec (R:=ids) r _ Hr Hw) as [Hw' ->]. split; [done|].
  rewrite lenN_pad_eval. split; [lia|]. split; [lia|].
  intros j. by rewrite bit_at_pad_eval, (char_bit i c rs).
Qed.

Lemma all_false (r : ids) j : bm_wf r → bitmap_algorithms.all false r = true → bit_at (bm_list r) j = false.
Proof.
  intros Hr Hall. destruct (decide (j < length (bm_list r))%nat); [by apply all_bit_at|].
  apply bit_at_ge. lia.
Qed.

Lemma match_chars_spec i chars s rs (result : ids) n :
  chars_from i chars rs → (length s <= length chars)%nat → Forall (λ x, x < 255) s →
  bm_wf result → lenN (bm_list result) <= n → lenN rs <= n →
  match match_chars result chars s with
  | Some r => bm_wf r ∧ lenN (bm_list r) <= n ∧ lenN (bm_list result) <= lenN (bm_list r) ∧
      ∀ j, bit_at (bm_list r) j = bit_at (bm_list result) j && occurs_at i s (row_string rs j)
  | None => ∀ j, bit_at (bm_list result) j && occurs_at i s (row_string rs j) = false
  end.
Proof.
  revert i chars result. induction s as [|x s IH]; intros i chars result Hc Hlen Hs Hw Hl Hn.
  { destruct chars; cbn; (split; [done|]); (split; [done|]); (split; [done|]); intros j; by rewrite andb_true_r. }
  destruct chars as [|c chars]; [cbn in Hlen; lia|]. apply chars_from_cons in Hc as [Hc Hcs].
  apply Forall_cons_iff in Hs as [Hx Hs]. cbn [match_chars].
  destruct (and_char i c rs x result Hc Hx Hw) as (Hw' & Hl' & Hm & Hb). cbn zeta in *.
  destruct (bitmap_algorithms.all false _) eqn:Hall.
  - intros j. pose proof (all_false _ j Hw' Hall) as Hf. rewrite Hb in Hf.
    by rewrite occurs_at_cons, andb_assoc, Hf.
  - specialize (IH (S i) chars _ Hcs ltac:(cbn in Hlen; lia) Hs Hw' ltac:(lia) Hn).
    destruct (match_chars _ chars s) as [r|].
    + destruct IH as (? & ? & ? & Hr). split; [done|]. split; [done|]. split; [lia|]. intros j.
      by rewrite Hr, Hb, occurs_at_cons, andb_assoc.
    + intros j. specialize (IH j). by rewrite Hb in IH; rewrite occurs_at_cons, andb_assoc.
Qed.

Lemma match_substr_spec i chars s rs (substr : ids) n :
  chars_from i chars rs → (length s <= length chars)%nat → Forall (λ x, x < 255) s →
  bm_wf substr → lenN (bm_list substr) <= n → lenN rs <= n →
  match match_substr substr chars s with
  | Some r => bm_wf r ∧ lenN (bm_list r) <= n ∧
      ∀ j, bit_at (bm_list r) j = bit_at (bm_list substr) j && occurs_at i s (row_string rs j)
  | None => ∀ j, occurs_at i s (row_string rs j) = false
  end.
Proof.
  revert i chars substr. induction s as [|x s IH]; intros i chars substr Hc Hlen Hs Hw Hl Hn.
  { destruct chars; cbn; (split; [done|]); (split; [done|]); intros j; by rewrite andb_true_r. }
  destruct chars as [|c chars]; [cbn in Hlen; lia|]. apply chars_from_cons in Hc as [Hc Hcs].
  apply Forall_cons_iff in Hs as [Hx Hs]. cbn [match_substr].
  destruct (and_char i c rs x substr Hc Hx Hw) as (Hw' & Hl' & Hm & Hb). cbn zeta in *.
  destruct (lookup_char_spec i c rs x Hc Hx) as (Hwc & _).
  destruct (bitmap_algorithms.all false (lookup_char c x)) eqn:Hall.
  - intros j. pose proof (all_false _ j Hwc Hall) as Hf. rewrite (char_bit i c rs) in Hf by done.
    by rewrite occurs_at_cons, Hf.
  - specialize (IH (S i) chars _ Hcs ltac:(cbn in Hlen; lia) Hs Hw' ltac:(lia) Hn).
    destruct (match_substr _ chars s) as [r|].
    + destruct IH as (? & ? & Hr). split; [done|]. split; [done|]. intros j.
      by rewrite Hr, Hb, occurs_at_cons, andb_assoc.
    + intros j. by rewrite occurs_at_cons, (IH j), andb_false_r.
Qed.

(** *** [==], [!=], [ni] and [not_ni] *)

Definition contains s t : bool := existsb (λ i, occurs_at i s t) (seq 0 (S (length t))).

Definition string_matches (op : relational_operator) (v x : data) : bool :=
  match op with
  | equal => bool_decide (string_of v = string_of x)
  | not_equal => negb (bool_decide (string_of v = string_of x))
  | ni => contains (string_of x) (string_of v)
  | not_ni => negb (contains (string_of x) (string_of v))
  | _ => false
  end.

Lemma occurs_at_length i s t : s ≠ [] → occurs_at i s t = true → (i + length s <= length t)%nat.
Proof.
  intros Hs E%bool_decide_eq_true. apply (f_equal length) in E.
  rewrite length_take, length_drop in E. assert (length s ≠ 0)%nat by (by destruct s). lia.
Qed.

Lemma occurs_at_equal s t : (lenN t <=? lenN s) && occurs_at 0 s t = bool_decide (t = s).
Proof.
  unfold occurs_at, lenN. rewrite drop_0. destruct (N.leb_spec (N.of_nat (length t)) (N.of_nat (length s))); cbn [andb].
  - by rewrite take_ge by lia.
  - symmetry. apply bool_decide_eq_false. intros ->. lia.
Qed.

Lemma contains_bound s t m :
  s ≠ [] → (length t < length s + m)%nat → existsb (λ i, occurs_at i s t) (seq 0 m) = contains s t.
Proof.
  intros Hs Hm. apply Bool.eq_iff_eq_true. unfold contains. rewrite !existsb_exists.
  split; intros (i & [_ Hi]%in_seq & E); exists i; (split; [|done]); apply in_seq;
    pose proof (occurs_at_length i s t Hs E); lia.
Qed.

Lemma bit_at_flip (r : ids) j :
  bm_wf r → (j < length (bm_list r))%nat →
  bit_at (bm_list (bm_flip r)) j = negb (bit_at (bm_list r) j).
Proof.
  intros Hr Hj. destruct (bm_flip_spec r Hr) as [_ ->]. rewrite bit_at_fmap.
  by rewrite (lookup_bit_at _ _ Hj).
Qed.

(** A bitmap with the right bit at every value. *)
Definition answer rs (off : N) (r : ids) (f : data → bool) : Prop :=
  bm_wf r ∧ lenN (bm_list r) <= off ∧
  ∀ j v, rs !! j = Some (Some v) → (j < length (bm_list r))%nat ∧ bit_at (bm_list r) j = f v.

Lemma answer_flip (b : bool) rs off r f :
  answer rs off r f → answer rs off (if b then bm_flip r else r) (λ v, xorb b (f v)).
Proof.
  intros (Hw & Hl & Hb). destruct b; [|done]. destruct (bm_flip_spec r Hw) as [? E].
  split; [done|]. split; [rewrite E; unfold lenN in *; by rewrite length_fmap|].
  intros j v Hj. destruct (Hb j v Hj) as [Hlt Hbit]. split; [by rewrite E, length_fmap|].
  by rewrite bit_at_flip, Hbit.
Qed.

Lemma answer_make rs off b f :
  lenN rs <= off → off <= max_size → (∀ v, Some v ∈ rs → f v = b) →
  answer rs off (bitmap_base.make off b) f.
Proof.
  intros Hrs Hmax Hf. destruct (bitmap_make_spec (B:=ids) off b Hmax) as [? E].
  unfold answer. rewrite E. split; [done|]. split; [by rewrite lenN_reps|]. intros j v Hj.
  pose proof (lookup_lt_Some _ _ _ Hj). rewrite length_reps. unfold lenN in *. split; [lia|].
  unfold bit_at. rewrite lookup_reps, decide_True by lia. cbn. symmetry.
  apply Hf. by eapply list_elem_of_lookup_2.
Qed.

(** The lookup of a length. *)
Lemma lookup_length_spec idx rs op n off :
  string_rep idx rs → n <= max_length_ → is_comparison op = true → lenN rs <= off →
  let '(lengths, r) := bitmap_index.lookup policy (length_ idx) op n in
  string_rep (mk lengths (chars_ idx)) rs ∧ answer rs off r (λ v, cmp op (lenN (string_of v)) n).
Proof.
  intros (Hv & Hl & Hfit & Hc) Hn Hop Hoff.
  pose proof (bmi_lookup_spec policy _ _ op n Hl (proj2 (Hfit n Hn)) Hop) as Hd.
  destruct (bitmap_index.lookup policy (length_ idx) op n) as [lengths r].
  destruct Hd as (Hl' & Hs & Hw & Hlen & Hb). split.
  - split; [done|]. split; [done|]. split; [|done]. intros n' Hn'. unfold bmi_same in Hs.
    rewrite (coder_same_fits _ _ Hs). by apply Hfit.
  - unfold length_rows in Hlen. rewrite length_fmap in Hlen.
    split; [done|]. split; [unfold lenN in *; lia|]. intros j v Hj.
    assert (bm_list r !! j = Some (cmp op (lenN (string_of v)) n)) as E.
    { apply Hb. unfold length_rows. by rewrite list_lookup_fmap, Hj. }
    split; [by eapply lookup_lt_Some|]. unfold bit_at. by rewrite E.
Qed.

Lemma row_string_value rs j v : rs !! j = Some (Some v) → row_string rs j = string_of v.
Proof. unfold row_string. by intros ->. Qed.

Lemma string_length idx rs v : string_rep idx rs → Some v ∈ rs → (length (string_of v) <= length (chars_ idx))%nat.
Proof. intros (Hv & _) Hin. by apply Hv. Qed.

Lemma string_chars idx rs : string_rep idx rs → chars_from 0 (chars_ idx) rs.
Proof. by intros (_ & _ & _ & Hc). Qed.

Lemma answer_ext rs off r f g :
  (∀ v, Some v ∈ rs → f v = g v) → answer rs off r f → answer rs off r g.
Proof.
  intros Hfg (? & ? & Hb). split; [done|]. split; [done|]. intros j v Hj.
  rewrite <- Hfg by (by eapply list_elem_of_lookup_2). by apply Hb.
Qed.

(** No row is left. *)
Lemma answer_none rs (f : data → bool) (negated : bool) off :
  lenN rs <= off → off <= max_size → (∀ v, Some v ∈ rs → f v = false) →
  answer rs off (bitmap_base.make off negated) (λ v, xorb negated (f v)).
Proof. intros ? ? Hf. apply answer_make; [done..|]. intros v Hv. rewrite Hf by done. apply xorb_false_r. Qed.

Lemma lookup_equal_spec idx rs off (negated : bool) s :
  string_rep idx rs → Forall (λ x, x < 255) s → lenN s <= max_length_ →
  lenN rs <= off → off <= max_size →
  let '(idx', r) := lookup_equal off idx negated s in
  string_rep idx' rs ∧ answer rs off r (λ v, xorb negated (bool_decide (string_of v = s))).
Proof.
  intros Hrep Hs Hsl Hoff Hmax. unfold lookup_equal.
  destruct (N.eqb_spec (lenN s) 0) as [E|E].
  { pose proof (lookup_length_spec idx rs equal 0 off Hrep ltac:(lia) eq_refl Hoff) as Hl.
    destruct (bitmap_index.lookup _ _ equal 0) as [lengths r]. destruct Hl as [? Hl]. split; [done|].
    apply answer_flip. eapply answer_ext; [|exact Hl]. intros v _. destruct s; [|done].
    cbn. by destruct (string_of v). }
  destruct (N.ltb_spec (lenN (chars_ idx)) (lenN s)) as [Hlt|Hge].
  { split; [done|]. apply answer_none; [done..|]. intros v Hv. apply bool_decide_eq_false.
    pose proof (string_length idx rs v Hrep Hv). intros Ev. rewrite Ev in *. unfold lenN in *. lia. }
  pose proof (lookup_length_spec idx rs less_equal (lenN s) off Hrep Hsl eq_refl Hoff) as Hl.
  rewrite (to_u32_length idx rs) by done.
  destruct (bitmap_index.lookup _ _ less_equal (lenN s)) as [lengths result].
  destruct Hl as [Hrep' (Hw & Hl & Hb)]. cbn [chars_].
  assert (∀ v, cmp less_equal (lenN (string_of v)) (lenN s) = (lenN (string_of v) <=? lenN s)) as Hle
    by (intros v; cbn; by rewrite <- N.leb_antisym).
  destruct (bitmap_algorithms.all false result) eqn:Hall.
  { split; [done|]. apply answer_none; [done..|]. intros v [j Hj]%list_elem_of_lookup_1.
    destruct (Hb j v Hj) as [_ Hbit]. rewrite (all_false result j Hw Hall), Hle in Hbit.
    by rewrite <- occurs_at_equal, <- Hbit. }
  pose proof (match_chars_spec 0 (chars_ idx) s rs result off) as Hm.
  destruct (match_chars result (chars_ idx) s) as [r|]; (split; [done|]).
  - destruct Hm as (? & ? & Hlr & Hr); try done; [by apply string_chars|unfold lenN in *; lia|].
    apply answer_flip. split; [done|]. split; [done|]. intros j v Hj. destruct (Hb j v Hj) as [Hlt Hbit].
    split; [unfold lenN in *; lia|].
    by rewrite Hr, Hbit, Hle, (row_string_value rs j v Hj), occurs_at_equal.
  - apply answer_none; [done..|]. intros v [j Hj]%list_elem_of_lookup_1.
    destruct (Hb j v Hj) as [_ Hbit].
    rewrite <- occurs_at_equal, <- Hle, <- Hbit, <- (row_string_value rs j v Hj).
    apply Hm; try done; [by apply string_chars|unfold lenN in *; lia].
Qed.

(** The outer loop of [ni]. *)
Lemma ni_loop_spec chars s rs off m :
  chars_from 0 chars rs → (m + length s <= length chars + 1)%nat → Forall (λ x, x < 255) s →
  lenN rs <= off → off <= max_size →
  let r := foldl (ni_step off chars s) (bitmap_base.make off false) (seq 0 m) in
  bm_wf r ∧ lenN (bm_list r) = off ∧
  ∀ j, (j < N.to_nat off)%nat →
    bit_at (bm_list r) j = existsb (λ i, occurs_at i s (row_string rs j)) (seq 0 m).
Proof.
  intros Hc Hm Hs Hrs Hmax. cbn zeta. induction m as [|m IH].
  { destruct (bitmap_make_spec (B:=ids) off false Hmax) as [? E]. cbn [foldl seq existsb]. rewrite E.
    split; [done|]. split; [apply lenN_reps|]. intros j _. by rewrite bit_at_reps. }
  rewrite seq_S, foldl_app. cbn [foldl Nat.add]. destruct IH as (Hw & Hl & Hb); [lia|].
  set (r := foldl _ _ _) in *. unfold ni_step.
  destruct (bitmap_make_spec (B:=ids) off true Hmax) as [Hwt Et].
  pose proof (match_substr_spec m (drop m chars) s rs (bitmap_base.make off true) off) as Hsub.
  assert (chars_from m (drop m chars) rs) as Hcm by (by apply (chars_from_drop 0)).
  assert (length s <= length (drop m chars))%nat as Hlen by (rewrite length_drop; lia).
  assert (lenN (bm_list (bitmap_base.make (B:=ids) off true)) <= off) as Hlt by (by rewrite Et, lenN_reps).
  specialize (Hsub Hcm Hlen Hs Hwt Hlt Hrs).
  destruct (match_substr _ (drop m chars) s) as [r'|].
  - destruct Hsub as (Hw' & Hl' & Hb'). destruct (binary_or_spec (R:=ids) r r' Hw Hw') as [Hwo Eo].
    split; [done|]. rewrite Eo, lenN_pad_eval. split; [lia|]. intros j Hj.
    rewrite bit_at_pad_eval, Hb, Hb', Et, bit_at_reps, existsb_app by done.
    rewrite (proj2 (N.ltb_lt _ _)) by lia. cbn [existsb andb]. by rewrite orb_false_r.
  - split; [done|]. split; [done|]. intros j Hj. rewrite Hb, existsb_app by done.
    cbn [existsb]. by rewrite (Hsub j), !orb_false_r.
Qed.

Lemma lookup_ni_spec idx rs off (negated : bool) s :
  string_rep idx rs → Forall (λ x, x < 255) s → lenN rs <= off → off <= max_size →
  answer rs off (lookup_ni off idx negated s) (λ v, xorb negated (contains s (string_of v))).
Proof.
  intros Hrep Hs Hoff Hmax. unfold lookup_ni. destruct (N.eqb_spec (lenN s) 0) as [E|E].
  { apply answer_make; [done..|]. intros v _. destruct s; [|done]. by destruct negated. }
  assert (s ≠ []) as Hne by (by intros ->).
  destruct (N.ltb_spec (lenN (chars_ idx)) (lenN s)) as [Hlt|Hge].
  { apply answer_none; [done..|]. intros v Hv. pose proof (string_length idx rs v Hrep Hv).
    apply not_true_iff_false. intros (i & _ & Ho)%existsb_exists.
    pose proof (occurs_at_length i s _ Hne Ho). unfold lenN in *. lia. }
  apply answer_flip.
  destruct (ni_loop_spec (chars_ idx) s rs off (length (chars_ idx) - length s + 1)) as (Hw & Hl & Hb);
    [by apply string_chars|unfold lenN in *; lia|done..|].
  split; [done|]. split; [lia|]. intros j v Hj. pose proof (lookup_lt_Some _ _ _ Hj).
  split; [unfold lenN in *; lia|]. rewrite Hb by (unfold lenN in *; lia).
  rewrite (row_string_value rs j v Hj). apply contains_bound; [done|].
  pose proof (string_length idx rs v Hrep ltac:(by eapply list_elem_of_lookup_2)).
  unfold lenN in *. lia.
Qed.

(** *** Appending *)

Lemma char_rows_app i rs rs' : char_rows i (rs ++ rs') = char_rows i rs ++ char_rows i rs'.
Proof. apply fmap_app. Qed.

Lemma length_char_rows i rs : length (char_rows i rs) = length rs.
Proof. apply length_fmap. Qed.

(** A new index of bytes, when no string had that position. *)
Lemma new_char_rep i rs : Forall (eq None) (char_rows i rs) → char_rep i new_char rs.
Proof.
  intros Hn. exists 0%nat. split; [lia|]. split; [by apply (bitslice_make_rep 8)|]. done.
Qed.

(** The rows behind a string that is too short stay away. *)
Lemma char_rep_keep i c rs rs' :
  char_rep i c rs → Forall (eq None) (char_rows i rs') → char_rep i c (rs ++ rs').
Proof.
  intros (k & Hk & Hrep & Hw & Hl) Hn. exists k. rewrite length_app. split; [lia|].
  rewrite char_rows_app, take_app_le, drop_app_le by (rewrite length_char_rows; lia).
  split; [done|]. split; [done|]. by apply Forall_app.
Qed.

(** Appending a byte. *)
Lemma char_rep_append i c rs pos d x :
  char_rep i c rs → lenN rs <= pos → pos + 1 <= max_size → string_of d !! i = Some x → x < 256 →
  char_rep i (bitmap_index.append policy (bitmap_index.skip c (pos - bitmap_index.size c)) x)
    (rs ++ reps (pos - lenN rs) None ++ [Some d]).
Proof.
  intros (k & Hk & Hrep & Hw & Hl) Hle Hmax Hd Hx. set (rs' := rs ++ _).
  assert (lenN (take k (char_rows i rs)) = N.of_nat k) as Hlk
    by (unfold lenN; rewrite length_take, length_char_rows; lia).
  destruct (bmi_size_spec _ _ _ Hrep) as [-> _]. rewrite Hlk. unfold lenN in Hle.
  destruct (bmi_skip_spec _ _ _ (pos - N.of_nat k) Hrep) as [Hrep1 Hs1]; [lia|]. unfold bmi_same in Hs1. cbn in Hs1.
  destruct (bmi_append_spec _ _ _ x 1 Hrep1) as [Hrep2 Hs2].
  { unfold bmi_fits. cbn. rewrite Hs1, Hw. done. }
  { autorewrite with lendb. rewrite Hlk. lia. }
  exists (length rs'). split; [done|].
  rewrite take_ge, drop_ge by (by rewrite length_char_rows). split; [|split; [|done]].
  - assert (char_rows i rs' = (take k (char_rows i rs) ++ reps (pos - N.of_nat k) None) ++ reps 1 (Some x)) as ->;
      [|exact Hrep2].
    unfold rs'. rewrite !char_rows_app, app_assoc. f_equal; [|cbn; by rewrite Hd].
    rewrite <- (take_drop k (char_rows i rs)) at 1. rewrite <- app_assoc. f_equal.
    unfold char_rows at 2. rewrite fmap_reps. cbn.
    assert (drop k (char_rows i rs) = reps (lenN rs - N.of_nat k) None) as ->.
    { apply list_eq. intros j. rewrite lookup_reps. case_decide as Hj.
      - destruct (lookup_lt_is_Some_2 (drop k (char_rows i rs)) j) as [o Ho];
          [rewrite length_drop, length_char_rows; unfold lenN in Hj; lia|].
        rewrite Ho. by rewrite (Forall_lookup_1 _ _ _ _ Hl Ho).
      - apply lookup_ge_None_2. rewrite length_drop, length_char_rows. unfold lenN in Hj. lia. }
    rewrite <- reps_add. f_equal. unfold lenN. lia.
  - unfold bmi_same in Hs2. cbn in Hs2 |- *. by rewrite Hs2, Hs1.
Qed.

Lemma append_chars_lookup pos chars s i :
  append_chars pos chars s !! i =
  (λ c, match s !! i with
        | Some x => bitmap_index.append policy (bitmap_index.skip c (pos - bitmap_index.size c)) x
        | None => c
        end) <$> chars !! i.
Proof.
  revert s i. induction chars as [|c chars IH]; intros [|x s] [|i]; cbn; try done;
    first [by destruct (chars !! i)|apply IH].
Qed.

Lemma length_append_chars pos chars s : length (append_chars pos chars s) = length chars.
Proof. revert s. induction chars; intros []; cbn; auto. Qed.

Lemma truncate_length s :
  lenN (truncate s) = if max_length_ <? lenN s then max_length_ else lenN s.
Proof. unfold truncate, lenN. rewrite length_take. destruct (N.ltb_spec max_length_ (N.of_nat (length s))); lia. Qed.

Lemma take_truncate s : take (N.to_nat (lenN (truncate s))) s = truncate s.
Proof.
  unfold truncate, lenN. rewrite length_take. rewrite Nat2N.id.
  destruct (decide (N.to_nat max_length_ <= length s)%nat); [by rewrite Nat.min_l|].
  by rewrite !take_ge by lia.
Qed.

(** The indexes of the bytes after new ones were added. *)
Lemma chars_extended idx rs n :
  string_rep idx rs → chars_from 0 (chars_ idx ++ reps n new_char) rs.
Proof.
  intros Hrep i c Hi. apply lookup_app_Some in Hi as [Hi|[Hge Hi]]; [by apply (string_chars idx)|].
  rewrite lookup_reps in Hi. case_decide; [|done]. injection Hi as <-. cbn [Nat.add]. apply new_char_rep.
  apply Forall_fmap, Forall_forall. intros [d|] Hin%list_elem_of_In; [|done]. cbn.
  pose proof (string_length idx rs d Hrep Hin). by rewrite lookup_ge_None_2 by lia.
Qed.

Lemma gap_chars i n d : string_of d !! i = None → Forall (eq None) (char_rows i (reps n None ++ [Some d])).
Proof.
  intros Hd. rewrite char_rows_app. apply Forall_app. split.
  - unfold char_rows. rewrite fmap_reps. by apply Forall_replicate.
  - apply Forall_cons; [by cbn; rewrite Hd|apply Forall_nil].
Qed.

Lemma string_append_spec idx rs d pos :
  string_rep idx rs → is_string d → lenN rs <= pos → pos + 1 <= max_size →
  ∃ idx', append_impl idx d pos = (idx', true) ∧
          string_rep idx' (rs ++ reps (pos - lenN rs) None ++ [Some d]).
Proof.
  intros Hrep Hd Hle Hmax. pose proof Hd as (s & -> & Hs). unfold append_impl.
  rewrite <- truncate_length, take_truncate. set (t := truncate s) in *.
  set (chars := if lenN (chars_ idx) <? lenN t then _ else _).
  assert (chars_from 0 chars rs ∧ (length t <= length chars)%nat ∧ (length (chars_ idx) <= length chars)%nat)
    as (Hc & Ht & Hgrow).
  { unfold chars. destruct (N.ltb_spec (lenN (chars_ idx)) (lenN t)); unfold lenN in *.
    - split; [by apply chars_extended|]. rewrite length_app, length_reps. lia.
    - split; [by apply string_chars|]. lia. }
  pose proof Hrep as (Hv & Hl & Hfit & _). eexists. split; [done|].
  destruct (bmi_size_spec _ _ _ Hl) as [-> _]. rewrite lenN_length_rows.
  destruct (bmi_skip_spec _ _ _ (pos - lenN rs) Hl) as [Hl1 Hs1]; [rewrite lenN_length_rows; lia|].
  unfold bmi_same in Hs1. assert (lenN t <= max_length_) as Htm by apply (length_string_of (d_string s)).
  rewrite (to_u32_length idx rs) by done. destruct (bmi_append_spec _ _ _ (lenN t) 1 Hl1) as [Hl2 Hs2].
  { unfold bmi_fits. rewrite (coder_same_fits _ _ Hs1). by apply Hfit. }
  { autorewrite with lendb. rewrite lenN_length_rows. lia. }
  unfold bmi_same in Hs2. split; [|split; [|split]]; cbn [chars_ length_].
  - intros d' Hin. rewrite length_append_chars. apply elem_of_app in Hin as [Hin|Hin].
    + destruct (Hv d' Hin). split; [done|lia].
    + apply elem_of_app in Hin as [Hin|Hin]; [unfold reps in Hin; by apply elem_of_replicate in Hin as [? _]|].
      apply list_elem_of_singleton in Hin as [= ->]. by split.
  - unfold length_rows. rewrite !fmap_app, fmap_reps, app_assoc. exact Hl2.
  - intros n Hn. unfold bitmap_index.append. rewrite (coder_same_fits _ _ Hs2), (coder_same_fits _ _ Hs1). by apply Hfit.
  - intros i c Hi. rewrite append_chars_lookup in Hi. apply fmap_Some in Hi as (c0 & Hc0 & ->).
    specialize (Hc i c0 Hc0). cbn [Nat.add] in Hc. destruct (t !! i) as [x|] eqn:Ex.
    + apply (char_rep_append i c0 rs pos (d_string s)); try done. by apply (string_of_bytes (d_string s) i).
    + apply char_rep_keep; [done|]. by apply gap_chars.
Qed.

(** ** String indexes are value indexes *)

(** A string a lookup can ask for: 0xff, which is no byte of UTF-8, stands for a missing byte. *)
Definition is_query (d : data) : Prop := ∃ s, d = d_string s ∧ Forall (λ x, x < 255) s.
Definition string_op (op : relational_operator) : bool :=
  match op with equal | not_equal | ni | not_ni => true | _ => false end.

Lemma string_lookup_spec self off idx rs op d :
  string_rep idx rs → string_op op = true → is_query d → lenN rs <= off → off <= max_size →
  ∃ idx' bm, lookup_impl self off idx op d = (idx', value bm) ∧ string_rep idx' rs ∧
    answer rs off bm (λ v, string_matches op v d).
Proof.
  intros Hrep Hop (s & -> & Hs) Hoff Hmax. unfold lookup_impl, string_matches. cbn [string_of]. fold (truncate s).
  assert (Forall (λ x, x < 255) (truncate s)) as Ht by (by apply Forall_take).
  assert (lenN (truncate s) <= max_length_) as Hl by apply (length_string_of (d_string s)).
  pose proof (λ b, lookup_equal_spec idx rs off b (truncate s) Hrep Ht Hl Hoff Hmax) as He.
  pose proof (λ b, lookup_ni_spec idx rs off b (truncate s) Hrep Ht Hoff Hmax) as Hn.
  destruct op; try done; cbn [op_eqb op_index N.eqb Pos.eqb].
  - eexists _, _. split; [done|]. split; [done|]. eapply answer_ext; [|exact (Hn false)].
    intros v _. apply xorb_false_l.
  - eexists _, _. split; [done|]. split; [done|]. eapply answer_ext; [|exact (Hn true)].
    intros v _. apply xorb_true_l.
  - specialize (He false). destruct (lookup_equal off idx false (truncate s)) as [idx' r].
    destruct He as [? He]. eexists _, _. split; [done|]. split; [done|].
    eapply answer_ext; [|exact He]. intros v _. apply xorb_false_l.
  - specialize (He true). destruct (lookup_equal off idx true (truncate s)) as [idx' r].
    destruct He as [? He]. eexists _, _. split; [done|]. split; [done|].
    eapply answer_ext; [|exact He]. intros v _. apply xorb_true_l.
Qed.

#[refine, export] Instance string_impl : ValueIndexImpl (string_index max_length_) := {|
  impl_rep := string_rep;
  impl_accepts := is_string;
  impl_supports op d := string_op op = true ∧ is_query d;
  impl_matches := string_matches;
  append_impl_spec := string_append_spec
|}.
Proof.
  - abstract (intros self off i rs op x Hrep [Hop Hx] ? ?;
      destruct (string_lookup_spec self off i rs op x) as (i' & bm & ? & ? & ? & ? & Hb); try done;
      exists i', bm; split; [done|]; split; [done|]; split; [done|]; split; [done|];
      intros j v Hj; by apply Hb).
  - abstract done.
  - abstract (intros self self' off i op x Hl; destruct x; try done; by destruct (Hl xs)).
Defined.

(** A new index, when the base can express all lengths. *)
Lemma string_make_rep :
  0 < num_digits max_length_ → max_length_ < 10 ^ num_digits max_length_ → max_length_ < 2 ^ 32 →
  string_rep (make (max_length_:=max_length_)) [].
Proof.
  intros Hpos Hmax H32. assert (∀ n, base_product (reps n 10) = 10 ^ n) as Hp.
  { intros n. unfold reps. rewrite <- (N2Nat.id n) at 2. induction (N.to_nat n) as [|k IH]; [done|].
    cbn [replicate base_product]. by rewrite IH, Nat2N.inj_succ, N.pow_succ_r'. }
  split; [by intros d ?%not_elem_of_nil|]. split; [|split; [|done]].
  - apply mlc_make_rep. unfold base.well_defined. cbn. destruct (reps (num_digits max_length_) 10) eqn:E.
    { apply (f_equal length) in E. rewrite length_reps in E. cbn in E. lia. }
    rewrite <- E. apply forallb_forall. intros x Hx. apply list_elem_of_In, elem_of_replicate in Hx as [-> _]. done.
  - intros n Hn. split; [lia|]. cbn. rewrite Hp. lia.
Qed.
End strings.
