(* ===== verification/IpIndex.v ===== *)
(** Indexes of addresses: [libvast/src/index/ip_index.cpp].

    The index keeps one index of bytes for each of the 16 bytes of an address, and whether the
    address is a v4 address. Looking up changes neither: bitslice and singleton coders answer
    without being filled up. *)

From S2P Require Import Prelude Word Bits BitmapConcept EwahBitmap EwahRange BitmapAlgorithms.
From S2P Require Import Bitmap Operator Coder BitsliceCoder BitmapIndex Data ValueIndex ValueIndexSpec Types Ip DataOps.

Module ip_index.

#[local] Abbreviation ewah := ewah_bitmap.ewah_bitmap.
#[local] Abbreviation policy := bitmap_index.unsigned_policy.
Abbreviation byte_index := (bitmap_index.bitmap_index (bitslice (B:=ewah_bitmap.ewah_bitmap))).
Abbreviation type_index := (bitmap_index.bitmap_index (singleton_coder.singleton_coder ewah_bitmap.ewah_bitmap)).

Record ip_index := mk { bytes_ : list byte_index; v4_ : type_index }.

Definition make : ip_index :=
  mk (replicate 16 (bitmap_index.mk (bitslice_mk (vector_coder.make 8)))) (bitmap_index.mk singleton_coder.empty).

(** One byte of an address is appended at [pos]. *)
Definition append_byte (pos : N) (c : byte_index) (b : N) : byte_index :=
  bitmap_index.append policy (bitmap_index.skip c (pos - bitmap_index.size c)) b.

Definition append_impl (idx : ip_index) (x : data) (pos : N) : ip_index * bool :=
  match x with
  | d_ip addr =>
      let v4 := bitmap_index.skip (v4_ idx) (pos - bitmap_index.size (v4_ idx)) in
      (mk (zip_with (append_byte pos) (bytes_ idx) addr)
          (bitmap_index.append bitmap_index.bool_policy v4 (ip.is_v4 addr)), true)
  | _ => (idx, false)
  end.

Definition lookup_byte (c : byte_index) (b : N) : ids := bitmap.ewah (bitmap_index.lookup policy c equal b).2.

(** Where a lookup starts: [v4_.coder().storage()] for v4 addresses, else all IDs; and the first byte
    that is compared. *)
Definition start (offset : N) (idx : ip_index) (is_v4 : bool) : ids :=
  if is_v4 then bitmap.ewah (singleton_coder.bitmap_ (bitmap_index.coder_ (v4_ idx))) else bitmap_base.make offset true.
Definition first_byte (is_v4 : bool) : nat := if is_v4 then 12%nat else 0%nat.

(** The loop of [==] and [!=]; [None] is the early return when no row is left. *)
Fixpoint match_bytes (result : ids) (bytes : list byte_index) (x : list N) : option ids :=
  match bytes, x with
  | c :: bytes, b :: x =>
      let result := bitmap_algorithms.binary_and result (lookup_byte c b) in
      if bitmap_algorithms.all false result then None else match_bytes result bytes x
  | _, _ => Some result
  end.

Definition lookup_equal (offset : N) (idx : ip_index) (negated : bool) (x : list N) : ids :=
  let i := first_byte (ip.is_v4 x) in
  match match_bytes (start offset idx (ip.is_v4 x)) (drop i (bytes_ idx)) (drop i x) with
  | None => bitmap_base.make offset negated
  | Some result => if negated then bm_flip result else result
  end.

(** The loop over the bits of a byte. *)
Definition match_bit (c : byte_index) (b : N) (result : ids) (j : nat) : ids :=
  let bit := 7 - N.of_nat j in
  let bm := vector_coder.nth_bitmap (bitslice_vector (bitmap_index.coder_ c)) bit in
  bitmap_algorithms.binary_and result
    (bitmap.ewah (if negb (((b >>u bit) &u 1) =? 0) then bitmap_base.complement bm else bm)).

(** The loops over bytes and, for the byte that is left, over bits. *)
Fixpoint match_prefix (result : ids) (bytes : list byte_index) (network : list N) (topk : N) : ids :=
  match bytes, network with
  | c :: bytes, b :: network =>
      if 8 <=? topk then match_prefix (bitmap_algorithms.binary_and result (lookup_byte c b)) bytes network (topk - 8)
      else foldl (match_bit c b) result (seq 0 (N.to_nat topk))
  | _, _ => result
  end.

Definition lookup_subnet (offset : N) (idx : ip_index) (negated : bool) (x : subnet.t) : expected ids :=
  let topk := subnet.length x in
  let is_v4 := ip.is_v4 (subnet.network x) in
  let i := first_byte is_v4 in
  if topk =? 0 then error unspecified
  else if (if is_v4 then topk + 96 else topk) =? 128 then value (lookup_equal offset idx negated (subnet.network x))
  else
    let result := match_prefix (start offset idx is_v4) (drop i (bytes_ idx)) (drop i (subnet.network x)) topk in
    value (if negated then bm_flip result else result).

Definition lookup_impl (lookup : lookup_fn ip_index) (offset : N) : lookup_fn ip_index :=
  λ idx op d,
  match d with
  | d_ip x =>
      match op with
      | equal | not_equal => (idx, value (lookup_equal offset idx (op ==o not_equal) x))
      | _ => (idx, error unsupported_operator)
      end
  | d_subnet network length =>
      match op with
      | in_ | not_in => (idx, lookup_subnet offset idx (op ==o not_in) (subnet.mk network length))
      | _ => (idx, error unsupported_operator)
      end
  | d_list xs => container_lookup.container_lookup_impl lookup offset idx op xs
  | _ => (idx, error type_clash)
  end.

#[export] Instance ops : ValueIndexOps ip_index := {
  append_impl := append_impl;
  lookup_impl := lookup_impl
}.
End ip_index.

(** ** The rows of an index of addresses *)

Section addresses.
Import ip_index.
Implicit Types (idx : ip_index) (rs : entries) (x : list N) (P : data → bool).
#[local] Abbreviation policy := bitmap_index.unsigned_policy.

Definition ip_of (d : data) : list N := match d with d_ip x => x | _ => [] end.
Definition is_ip (d : data) : Prop := ∃ x, d = d_ip x ∧ ip.wf x.
Definition byte_rows (i : nat) rs : list (option N) := (λ o, o ≫= λ d, ip_of d !! i) <$> rs.
Definition v4_rows rs : list (option bool) := option_map (λ d, ip.is_v4 (ip_of d)) <$> rs.

Definition byte_rep (i : nat) (c : byte_index) rs : Prop :=
  bmi_rep policy c (byte_rows i rs) ∧ bitslice_width (bitmap_index.coder_ c) = 8.
Definition ip_rep idx rs : Prop :=
  (∀ d, Some d ∈ rs → is_ip d) ∧ length (bytes_ idx) = 16%nat ∧
  bmi_rep bitmap_index.bool_policy (v4_ idx) (v4_rows rs) ∧
  ∀ i c, bytes_ idx !! i = Some c → byte_rep i c rs.

(** A bitmap that has the answer for every value, and not more than [off] bits. *)
Definition tells (off : N) rs P (bm : ids) : Prop :=
  bm_wf bm ∧ lenN (bm_list bm) <= off ∧ ∀ j v, rs !! j = Some (Some v) → bm_list bm !! j = Some (P v).

Lemma tells_bit off rs P bm j v : tells off rs P bm → rs !! j = Some (Some v) →
  bit_at (bm_list bm) j = P v ∧ (j < length (bm_list bm))%nat.
Proof. intros (_ & _ & H) Hj. specialize (H j v Hj). unfold bit_at. rewrite H. split; [done|]. by eapply lookup_lt_Some. Qed.

Lemma tells_ext off rs P Q bm : (∀ v, Some v ∈ rs → P v = Q v) → tells off rs P bm → tells off rs Q bm.
Proof.
  intros HPQ (? & ? & H). split_and!; [done..|]. intros j v Hj. rewrite (H j v Hj), HPQ; [done|].
  by eapply list_elem_of_lookup_2.
Qed.

Lemma tells_and off rs P Q (a b : ids) : tells off rs P a → tells off rs Q b →
  tells off rs (λ v, P v && Q v) (bitmap_algorithms.binary_and a b).
Proof.
  intros Ha Hb. pose proof Ha as (Hwa & Hla & _). pose proof Hb as (Hwb & Hlb & _).
  destruct (binary_and_spec (R:=ids) a b Hwa Hwb) as [Hw Hl]. split; [done|]. rewrite Hl, lenN_pad_eval. split; [lia|].
  intros j v Hj. destruct (tells_bit _ _ _ _ _ _ Ha Hj) as [<- ?], (tells_bit _ _ _ _ _ _ Hb Hj) as [<- ?].
  rewrite lookup_bit_at by (rewrite length_pad_eval; lia). by rewrite bit_at_pad_eval.
Qed.

Lemma tells_flip off rs P (a : ids) : tells off rs P a → tells off rs (λ v, negb (P v)) (bm_flip a).
Proof.
  intros (Hw & Hl & H). destruct (bm_flip_spec a Hw) as [Hw' Hl']. split; [done|]. rewrite Hl'. split; [by rewrite lenN_fmap|].
  intros j v Hj. by rewrite list_lookup_fmap, (H j v Hj).
Qed.

Lemma tells_make off rs b : lenN rs <= off → off <= max_size → tells off rs (λ _, b) (bitmap_base.make off b).
Proof.
  intros Hle Hmax. destruct (bitmap_make_spec (B:=ids) off b Hmax) as [Hw Hl]. split; [done|]. rewrite Hl, lenN_reps. split; [lia|].
  intros j v Hj. apply lookup_lt_Some in Hj. unfold reps. rewrite lookup_replicate_2; [done|]. unfold lenN in Hle. lia.
Qed.

Lemma tells_all_false off rs P (a : ids) v : tells off rs P a → bitmap_algorithms.all false a = true →
  Some v ∈ rs → P v = false.
Proof.
  intros Ha Hall [j Hj]%list_elem_of_lookup. destruct (tells_bit _ _ _ _ _ _ Ha Hj) as [<- Hlt]. destruct Ha as [Hw _].
  by apply all_bit_at.
Qed.

(** The answers of a bitmap of one byte. *)
Lemma tells_good i (bm : ewah_bitmap.ewah_bitmap) rs f :
  (∀ d, Some d ∈ rs → is_ip d) → (i < 16)%nat → good f (coded policy (byte_rows i rs)) bm → ∀ off, lenN rs <= off →
  tells off rs (λ v, f (default 0 (ip_of v !! i))) (bitmap.ewah bm).
Proof.
  intros Hrs Hi [Hw [Hlen H]] off Hoff. split; [done|]. change (bm_list (bitmap.ewah bm)) with (bm_list bm). split.
  { unfold coded, byte_rows in Hlen. rewrite !length_fmap in Hlen. unfold lenN in *. lia. }
  intros j v Hj. destruct (Hrs v) as (x & -> & Hx & _); [by eapply list_elem_of_lookup_2|]. cbn [ip_of].
  destruct (lookup_lt_is_Some_2 x i) as [b Hb]; [lia|]. rewrite Hb. cbn [default]. apply H.
  unfold coded, byte_rows. rewrite !list_lookup_fmap, Hj. cbn. by rewrite Hb.
Qed.

Lemma lookup_byte_tells i c rs b off : (∀ d, Some d ∈ rs → is_ip d) → (i < 16)%nat → byte_rep i c rs → b < 256 → lenN rs <= off →
  tells off rs (λ v, default 0 (ip_of v !! i) =? b) (lookup_byte c b).
Proof.
  intros Hrs Hi [Hrep Hw] Hb Hoff. unfold lookup_byte.
  assert (coder_fits (bitmap_index.coder_ c) b) as Hfit by (cbn; rewrite Hw; change (2 ^ 8) with 256; lia).
  pose proof (bmi_lookup_spec policy c _ equal b Hrep Hfit eq_refl) as Hl.
  destruct (bitmap_index.lookup policy c equal b) as [c' r]. cbn [snd]. destruct Hl as (_ & _ & Hwf & Hlen & Hbits).
  apply (tells_good i r rs (λ y, y =? b)); try done. split; [done|]. split; [unfold coded; by rewrite length_fmap|].
  intros j y Hj. unfold coded in Hj. rewrite list_lookup_fmap in Hj. apply fmap_Some in Hj as (o & Ho & Hy).
  destruct o as [z|]; [|done]. injection Hy as ->. by rewrite (Hbits j z Ho).
Qed.

(** *** Comparing bytes *)

Definition bytes_from (i : nat) (bytes : list byte_index) rs : Prop :=
  (i + length bytes = 16)%nat ∧ ∀ k c, bytes !! k = Some c → byte_rep (i + k) c rs.

Lemma bytes_from_cons i c bytes rs : bytes_from i (c :: bytes) rs → (i < 16)%nat ∧ byte_rep i c rs ∧ bytes_from (S i) bytes rs.
Proof.
  intros [Hl H]. cbn in Hl. split; [lia|]. split; [rewrite <- (Nat.add_0_r i); by apply (H 0%nat)|]. split; [lia|].
  intros k c' Hk. replace (S i + k)%nat with (i + S k)%nat by lia. by apply H.
Qed.

Lemma drop_ip i d : is_ip d → (i < 16)%nat → drop i (ip_of d) = default 0 (ip_of d !! i) :: drop (S i) (ip_of d).
Proof.
  intros (x & -> & Hx & _) Hi. cbn [ip_of]. destruct (lookup_lt_is_Some_2 x i) as [b Hb]; [lia|].
  by rewrite (drop_S x b i Hb), Hb.
Qed.

Lemma match_bytes_spec i bytes x rs (result : ids) off P :
  (∀ d, Some d ∈ rs → is_ip d) → bytes_from i bytes rs → length x = length bytes → Forall (λ b, b < 256) x →
  lenN rs <= off → tells off rs P result →
  match match_bytes result bytes x with
  | Some r => tells off rs (λ v, P v && bool_decide (drop i (ip_of v) = x)) r
  | None => ∀ v, Some v ∈ rs → P v && bool_decide (drop i (ip_of v) = x) = false
  end.
Proof.
  intros Hrs Hb Hl Hx Hoff. revert i bytes result P Hb Hl. induction x as [|b x IH]; intros i [|c bytes] result P Hb Hl Ht; try done.
  { cbn [match_bytes]. eapply tells_ext; [|exact Ht]. intros v Hv. destruct (Hrs v Hv) as (y & -> & Hy & _). cbn [ip_of].
    rewrite drop_ge by (destruct Hb as [Hb _]; cbn in Hb; lia). by rewrite bool_decide_eq_true_2, andb_true_r. }
  apply bytes_from_cons in Hb as (Hi & Hc & Hb). apply list.Forall_cons in Hx as [Hbb Hx]. cbn [match_bytes].
  assert (∀ v, Some v ∈ rs → P v && bool_decide (drop i (ip_of v) = b :: x) =
    P v && (default 0 (ip_of v !! i) =? b) && bool_decide (drop (S i) (ip_of v) = x)) as Hstep.
  { intros v Hv. rewrite (drop_ip i v) by auto. rewrite <- andb_assoc. f_equal.
    destruct (N.eqb_spec (default 0 (ip_of v !! i)) b) as [->|Hne]; cbn [andb].
    - apply bool_decide_ext. split; [by intros [=]|by intros ->].
    - apply bool_decide_eq_false. by intros [= ? _]. }
  pose proof (tells_and off rs _ _ _ _ Ht (lookup_byte_tells i c rs b off Hrs Hi Hc Hbb Hoff)) as Ht'.
  destruct (bitmap_algorithms.all false _) eqn:Hall.
  - intros v Hv. rewrite Hstep by done. by rewrite (tells_all_false _ _ _ _ v Ht' Hall Hv).
  - specialize (IH Hx (S i) bytes _ _ Hb ltac:(cbn in Hl; lia) Ht'). destruct (match_bytes _ bytes x) as [r|].
    + eapply tells_ext; [|exact IH]. intros v Hv. by rewrite Hstep.
    + intros v Hv. rewrite Hstep by done. by apply IH.
Qed.

(** *** Comparing bits *)

Definition bit_eqb (a b : N) (j : nat) : bool := Bool.eqb (N.testbit a (7 - N.of_nat j)) (N.testbit b (7 - N.of_nat j)).
(** The two lists agree on their first [k] bits. *)
Fixpoint prefix_eqb (k : N) (x y : list N) : bool :=
  match x, y with
  | a :: x, b :: y => if 8 <=? k then (a =? b) && prefix_eqb (k - 8) x y else forallb (bit_eqb a b) (seq 0 (N.to_nat k))
  | _, _ => true
  end.

Lemma prefix_eqb_spec k x y : length x = length y → Forall (λ b, b < 256) x → Forall (λ b, b < 256) y → k <= 8 * lenN x →
  prefix_eqb k x y = true ↔ same_prefix k x y.
Proof.
  intros Hl Hx. revert k y Hl. induction Hx as [|a x Ha Hx IH]; intros k [|b y] Hl Hy Hk; try done.
  apply list.Forall_cons in Hy as [Hb Hy]. rewrite lenN_cons in Hk. cbn [prefix_eqb]. injection Hl as Hl.
  destruct (N.leb_spec 8 k) as [H8|H8].
  - rewrite same_prefix_cons, andb_true_iff, N.eqb_eq, IH by (done || lia). done.
  - rewrite forallb_forall. unfold same_prefix, bit_eqb. setoid_rewrite bit_cons. setoid_rewrite Bool.eqb_true_iff. split.
    + intros H i Hi. rewrite (proj2 (N.ltb_lt i 8)) by lia. specialize (H (N.to_nat i)). rewrite N2Nat.id in H. apply H, in_seq. lia.
    + intros H j Hj%in_seq. specialize (H (N.of_nat j) ltac:(lia)). by rewrite (proj2 (N.ltb_lt (N.of_nat j) 8)) in H by lia.
Qed.

Lemma match_bit_tells i c b rs (result : ids) j off P :
  (∀ d, Some d ∈ rs → is_ip d) → (i < 16)%nat → byte_rep i c rs → (j < 8)%nat → lenN rs <= off → tells off rs P result →
  tells off rs (λ v, P v && bit_eqb (default 0 (ip_of v !! i)) b j) (match_bit c b result j).
Proof.
  intros Hrs Hi [Hrep Hw] Hj Hoff Ht. unfold match_bit. rewrite bit_test. set (bit := 7 - N.of_nat j).
  unfold bmi_rep in Hrep. cbn in Hrep. rewrite Hw in Hrep.
  pose proof (bitslice_bitmap 8 _ _ bit Hrep ltac:(lia)) as Hg.
  apply tells_and; [done|]. unfold bit_eqb. fold bit. destruct (N.testbit b bit); cbn [negb].
  - eapply tells_ext; [|apply (tells_good i); [done|done|apply good_flip, Hg|done]]. intros v _. cbn. by destruct (N.testbit _ bit).
  - eapply tells_ext; [|apply (tells_good i); [done|done|exact Hg|done]]. intros v _. cbn. by destruct (N.testbit _ bit).
Qed.

Lemma match_bits_tells i c b rs (result : ids) k off P :
  (∀ d, Some d ∈ rs → is_ip d) → (i < 16)%nat → byte_rep i c rs → (k <= 8)%nat → lenN rs <= off → tells off rs P result →
  tells off rs (λ v, P v && forallb (bit_eqb (default 0 (ip_of v !! i)) b) (seq 0 k)) (foldl (match_bit c b) result (seq 0 k)).
Proof.
  intros Hrs Hi Hc Hk Hoff Ht. induction k as [|k IH].
  { eapply tells_ext; [|exact Ht]. intros v _. cbn. by rewrite andb_true_r. }
  rewrite seq_S, foldl_app. cbn [foldl]. eapply tells_ext; [|apply (match_bit_tells i); [done|done|done|lia|done|apply IH; lia]].
  intros v _. cbn [Nat.add]. rewrite forallb_app. cbn [forallb]. by rewrite andb_true_r, andb_assoc.
Qed.

Lemma match_prefix_spec i bytes x rs (result : ids) k off P :
  (∀ d, Some d ∈ rs → is_ip d) → bytes_from i bytes rs → length x = length bytes → Forall (λ b, b < 256) x →
  lenN rs <= off → tells off rs P result →
  tells off rs (λ v, P v && prefix_eqb k (drop i (ip_of v)) x) (match_prefix result bytes x k).
Proof.
  intros Hrs Hb Hl Hx Hoff. revert i bytes result P k Hb Hl. induction x as [|b x IH]; intros i [|c bytes] result P k Hb Hl Ht; try done.
  { eapply tells_ext; [|exact Ht]. intros v _. by destruct (drop i _); rewrite andb_true_r. }
  apply bytes_from_cons in Hb as (Hi & Hc & Hb). apply list.Forall_cons in Hx as [Hbb Hx]. cbn [match_prefix].
  destruct (N.leb_spec 8 k) as [H8|H8].
  - eapply tells_ext; [|apply (IH Hx (S i)); [done|cbn in Hl; lia|apply tells_and; [exact Ht|by apply (lookup_byte_tells i)]]].
    intros v Hv. cbn. rewrite (drop_ip i v) by auto. cbn [prefix_eqb]. by rewrite (proj2 (N.leb_le _ _)), andb_assoc by lia.
  - eapply tells_ext; [|apply (match_bits_tells i); [done|done|done|lia|done|exact Ht]].
    intros v Hv. cbn. rewrite (drop_ip i v) by auto. cbn [prefix_eqb]. by rewrite (proj2 (N.leb_gt _ _)) by lia.
Qed.

(** *** Lookups *)

Lemma start_tells idx rs off is_v4 : ip_rep idx rs → lenN rs <= off → off <= max_size →
  tells off rs (λ v, implb is_v4 (ip.is_v4 (ip_of v))) (start off idx is_v4).
Proof.
  intros (_ & _ & [[Hw Hl] _] & _) Hoff Hmax. destruct is_v4; [|by apply tells_make]. cbn [start].
  split; [done|]. change (bm_list (bitmap.ewah ?b)) with (bm_list b). rewrite Hl. split.
  { unfold lenN, bool_rows, coded, v4_rows in *. rewrite !length_fmap. lia. }
  intros j v Hj. unfold bool_rows, coded, v4_rows. rewrite !list_lookup_fmap, Hj. cbn. f_equal. by destruct (ip.is_v4 _).
Qed.

Lemma bytes_from_drop idx rs i : ip_rep idx rs → (i <= 16)%nat → bytes_from i (drop i (bytes_ idx)) rs.
Proof.
  intros (_ & Hl & _ & Hb) Hi. split; [rewrite length_drop; lia|]. intros k c Hk. rewrite lookup_drop in Hk. by apply Hb.
Qed.

Lemma v4_split x : ip.is_v4 x = true → x = ip.v4_mapped_prefix ++ drop 12 x.
Proof. unfold ip.is_v4. rewrite bool_decide_eq_true. intros <-. by rewrite take_drop. Qed.

Lemma lookup_equal_tells idx rs off negated x : ip_rep idx rs → ip.wf x → lenN rs <= off → off <= max_size →
  tells off rs (λ v, xorb negated (bool_decide (ip_of v = x))) (lookup_equal off idx negated x).
Proof.
  intros Hrep [Hlx Hx] Hoff Hmax. unfold lookup_equal. set (i := first_byte (ip.is_v4 x)).
  assert (i <= 16)%nat as Hi by (unfold i; destruct (ip.is_v4 x); cbn; lia). pose proof Hrep as (Hrs & Hl & _ & _).
  assert (∀ v, Some v ∈ rs → implb (ip.is_v4 x) (ip.is_v4 (ip_of v)) && bool_decide (drop i (ip_of v) = drop i x) =
    bool_decide (ip_of v = x)) as Hv.
  { intros v _. unfold i. destruct (ip.is_v4 x) eqn:E; cbn [implb first_byte]; [|done].
    destruct (ip.is_v4 (ip_of v)) eqn:Ev; cbn [andb].
    - apply bool_decide_ext. split; [|by intros ->]. intros Hd. by rewrite (v4_split x E), (v4_split (ip_of v) Ev), Hd.
    - symmetry. apply bool_decide_eq_false. intros Heq. rewrite Heq in Ev. congruence. }
  pose proof (match_bytes_spec i (drop i (bytes_ idx)) (drop i x) rs _ off _ Hrs (bytes_from_drop idx rs i Hrep Hi)
    ltac:(rewrite !length_drop; lia) ltac:(by apply Forall_drop) Hoff (start_tells idx rs off (ip.is_v4 x) Hrep Hoff Hmax)) as Hm.
  destruct (match_bytes _ _ _) as [r|].
  - destruct negated; [eapply tells_ext; [|apply tells_flip, Hm]|eapply tells_ext; [|exact Hm]];
      intros v Hin; cbn; rewrite Hv by done; by destruct (bool_decide _).
  - eapply tells_ext; [|by apply tells_make]. intros v Hin. cbn. specialize (Hm v Hin). rewrite Hv in Hm by done. rewrite Hm.
    by destruct negated.
Qed.

(** The addresses of a subnet, in the terms of the lookup. *)
Lemma contains_prefix s v : subnet_wf s → ip.wf v →
  subnet.contains_ip s v =
  implb (ip.is_v4 (subnet.network s)) (ip.is_v4 v) &&
  prefix_eqb (subnet.length s) (drop (first_byte (ip.is_v4 (subnet.network s))) v)
    (drop (first_byte (ip.is_v4 (subnet.network s))) (subnet.network s)).
Proof.
  intros (Hn & Hk & H96 & _) Hv. destruct s as [n k]. unfold subnet.contains_ip, subnet.length, subnet.network in *. cbn [subnet.network_ subnet.length_] in *.
  apply eq_iff_eq_true. rewrite compare_spec by done. destruct (ip.is_v4 n) eqn:En; cbn [first_byte implb].
  - specialize (H96 eq_refl). rewrite andb_true_iff. destruct (ip.is_v4 v) eqn:Ev.
    + rewrite prefix_eqb_spec; [|rewrite !length_drop; destruct Hn, Hv; lia|apply Forall_drop, Hv|apply Forall_drop, Hn|].
      2: { unfold lenN. rewrite length_drop. destruct Hv. lia. }
      assert (same_prefix k v n ↔ same_prefix (k - 96) (drop 12 v) (drop 12 n)) as ->; [|tauto].
      rewrite (v4_split n En) at 1. rewrite (v4_split v Ev) at 1. apply (same_prefix_app k ip.v4_mapped_prefix).
      change (8 * lenN ip.v4_mapped_prefix) with 96. lia.
    + split; [|by intros [? _]]. intros Hp. rewrite (is_v4_same v n) in Ev; [congruence|done..|]. intros i Hi. apply Hp. lia.
  - rewrite !drop_0. cbn [andb]. rewrite prefix_eqb_spec; [done|destruct Hn, Hv; congruence|apply Hv|apply Hn|].
    unfold lenN. destruct Hv. lia.
Qed.

Lemma contains_full s v : subnet_wf s → ip.wf v → subnet.length_ s = 128 → subnet.contains_ip s v = bool_decide (v = subnet.network s).
Proof.
  intros (Hn & _) Hv Hk. unfold subnet.contains_ip. rewrite Hk. apply eq_iff_eq_true. rewrite compare_spec by (done || lia).
  rewrite bool_decide_eq_true. unfold subnet.network. split; [|by intros ->]. intros Hp.
  destruct Hv, Hn. apply bytes_ext; [congruence|done..|]. unfold lenN. by replace (length v) with 16%nat.
Qed.

Lemma lookup_subnet_tells idx rs off negated s : ip_rep idx rs → subnet_wf s → 0 < subnet.length s → lenN rs <= off → off <= max_size →
  ∃ bm, lookup_subnet off idx negated s = value bm ∧
  tells off rs (λ v, xorb negated (subnet.contains_ip s (ip_of v))) bm.
Proof.
  intros Hrep Hs Hpos Hoff Hmax. unfold lookup_subnet. destruct (N.eqb_spec (subnet.length s) 0) as [|_]; [lia|].
  pose proof Hrep as (Hrs & Hl & _ & _). pose proof Hs as ([Hln Hn] & Hk & H96 & _).
  assert ((if ip.is_v4 (subnet.network s) then subnet.length s + 96 else subnet.length s) = subnet.length_ s) as Hlen.
  { unfold subnet.length, subnet.network. destruct (ip.is_v4 _); [specialize (H96 eq_refl)|]; lia. }
  rewrite Hlen. destruct (N.eqb_spec (subnet.length_ s) 128) as [H128|H128].
  - eexists. split; [done|]. eapply tells_ext; [|by apply lookup_equal_tells]. intros v Hin. cbn.
    destruct (Hrs v Hin) as (y & -> & Hy). cbn [ip_of]. by rewrite (contains_full s y).
  - set (i := first_byte (ip.is_v4 (subnet.network s))).
    assert (i <= 16)%nat as Hi by (unfold i; destruct (ip.is_v4 _); cbn; lia).
    pose proof (match_prefix_spec i (drop i (bytes_ idx)) (drop i (subnet.network s)) rs _ (subnet.length s) off _ Hrs
      (bytes_from_drop idx rs i Hrep Hi) ltac:(unfold subnet.network; rewrite !length_drop; lia) ltac:(by apply Forall_drop) Hoff
      (start_tells idx rs off (ip.is_v4 (subnet.network s)) Hrep Hoff Hmax)) as Hm.
    eexists. split; [done|]. destruct negated; [eapply tells_ext; [|apply tells_flip, Hm]|eapply tells_ext; [|exact Hm]];
      intros v Hin; cbn; destruct (Hrs v Hin) as (y & -> & Hy); cbn [ip_of]; rewrite (contains_prefix s y) by done; fold i;
      by destruct (_ && _).
Qed.

(** *** Appending *)

Lemma byte_rows_app i rs rs' : byte_rows i (rs ++ rs') = byte_rows i rs ++ byte_rows i rs'.
Proof. apply fmap_app. Qed.

Lemma append_byte_rep i c rs x b pos : byte_rep i c rs → x !! i = Some b → b < 256 → lenN rs <= pos → pos + 1 <= max_size →
  byte_rep i (append_byte pos c b) (rs ++ reps (pos - lenN rs) None ++ [Some (d_ip x)]).
Proof.
  intros [Hrep Hw] Hb Hlt Hle Hmax. unfold append_byte. destruct (bmi_size_spec _ _ _ Hrep) as [-> _].
  assert (lenN (byte_rows i rs) = lenN rs) as Hlen by apply lenN_fmap. rewrite Hlen.
  destruct (bmi_skip_spec _ _ _ (pos - lenN rs) Hrep) as [Hrep1 Hs1]; [rewrite Hlen; lia|].
  unfold bmi_same in Hs1. cbn in Hs1.
  destruct (bmi_append_spec _ _ _ b 1 Hrep1) as [Hrep2 Hs2].
  { unfold bmi_fits. cbn. rewrite Hs1, Hw. exact Hlt. }
  { autorewrite with lendb. rewrite Hlen. lia. }
  unfold bmi_same in Hs2. cbn in Hs2. split.
  - rewrite !byte_rows_app. unfold byte_rows at 2 3. rewrite fmap_reps. cbn. rewrite Hb, app_assoc. exact Hrep2.
  - cbn. by rewrite Hs2, Hs1.
Qed.

Lemma ip_append_spec idx rs d pos : ip_rep idx rs → is_ip d → lenN rs <= pos → pos + 1 <= max_size →
  ∃ idx', append_impl idx d pos = (idx', true) ∧ ip_rep idx' (rs ++ reps (pos - lenN rs) None ++ [Some d]).
Proof.
  intros (Hrs & Hl & Hv4 & Hb) (x & -> & Hlx & Hx) Hle Hmax. eexists. split; [done|]. split_and!.
  - intros d [?|[Hin|Hin]%elem_of_app]%elem_of_app; [by apply Hrs|unfold reps in Hin|].
    + by apply elem_of_replicate in Hin as [? _].
    + apply list_elem_of_singleton in Hin as [= ->]. by exists x.
  - cbn [bytes_]. rewrite length_zip_with. lia.
  - cbn [v4_]. destruct (bmi_size_spec _ _ _ Hv4) as [-> _].
    assert (lenN (v4_rows rs) = lenN rs) as Hlen by apply lenN_fmap. rewrite Hlen.
    destruct (bmi_skip_spec _ _ _ (pos - lenN rs) Hv4) as [Hrep1 Hs1]; [rewrite Hlen; lia|].
    destruct (bmi_append_spec _ _ _ (ip.is_v4 x) 1 Hrep1) as [Hrep2 _]; [by destruct (ip.is_v4 x)|autorewrite with lendb; rewrite Hlen; lia|].
    unfold v4_rows. rewrite !fmap_app, fmap_reps. cbn. rewrite app_assoc. exact Hrep2.
  - intros i c Hc. cbn [bytes_] in Hc. apply lookup_zip_with_Some in Hc as (c' & b & -> & Hc' & Hb').
    eapply append_byte_rep; eauto. rewrite Forall_lookup in Hx. eauto.
Qed.

Lemma ip_make_rep : ip_rep make [].
Proof.
  split_and!; [by intros d ?%not_elem_of_nil|done| |].
  - split; [|by intros v ?%not_elem_of_nil]. by apply bm_nil_spec.
  - intros i c Hc. apply lookup_replicate in Hc as [-> _]. split; [|done]. apply bitslice_make_rep; done.
Qed.

(** ** Indexes of addresses are value indexes *)

Definition ip_supports (op : relational_operator) (d : data) : Prop :=
  match d with
  | d_ip x => (op = equal ∨ op = not_equal) ∧ ip.wf x
  | d_subnet n k => (op = in_ ∨ op = not_in) ∧ subnet_wf (subnet.mk n k) ∧ 0 < subnet.length (subnet.mk n k)
  | _ => False
  end.
(** The answer is that of [evaluate] for values. *)
Definition ip_matches (op : relational_operator) (v x : data) : bool :=
  DataOps.evaluate (λ _ _, false) (λ _ _, false) v op x.

Lemma ip_lookup_spec self off idx rs op d :
  ip_rep idx rs → ip_supports op d → lenN rs <= off → off <= max_size →
  ∃ idx' bm, lookup_impl self off idx op d = (idx', value bm) ∧ ip_rep idx' rs ∧ bm_wf bm ∧ lenN (bm_list bm) <= off ∧
    ∀ j v, rs !! j = Some (Some v) → bit_at (bm_list bm) j = ip_matches op v d.
Proof.
  intros Hrep Hs Hoff Hmax. pose proof Hrep as (Hrs & _).
  enough (∃ bm, lookup_impl self off idx op d = (idx, value bm) ∧ tells off rs (λ v, ip_matches op v d) bm) as (bm & E & Ht).
  { exists idx, bm. split_and!; [done|done|apply Ht|apply Ht|]. intros j v Hj. by destruct (tells_bit _ _ _ _ _ _ Ht Hj). }
  destruct d as [| | | | | | | | |x|n k| | | |]; try done.
  - destruct Hs as [Hop Hx]. destruct Hop as [-> | ->]; (eexists; split; [reflexivity|]);
      (eapply tells_ext; [|by apply lookup_equal_tells]); intros v Hv; destruct (Hrs v Hv) as (y & -> & _); cbn; done.
  - destruct Hs as (Hop & Hw & Hpos). destruct Hop as [-> | ->];
      [destruct (lookup_subnet_tells idx rs off false (subnet.mk n k) Hrep Hw Hpos Hoff Hmax) as (bm & E & Ht)|
       destruct (lookup_subnet_tells idx rs off true (subnet.mk n k) Hrep Hw Hpos Hoff Hmax) as (bm & E & Ht)];
      (exists bm; split; [cbn; by rewrite E|]); (eapply tells_ext; [|exact Ht]); intros v Hv; destruct (Hrs v Hv) as (y & -> & _); cbn;
      done.
Qed.

#[refine, export] Instance ip_impl : ValueIndexImpl ip_index := {|
  impl_rep := ip_rep;
  impl_accepts := is_ip;
  impl_supports := ip_supports;
  impl_matches := ip_matches;
  append_impl_spec := ip_append_spec;
  lookup_impl_spec := ip_lookup_spec
|}.
Proof.
  - abstract done.
  - abstract (intros self self' off i op x Hl; destruct x; try done; by destruct (Hl xs)).
Defined.
End addresses.
