(* ===== verification/SubnetIndex.v ===== *)
(** Indexes of subnets: [libvast/src/index/subnet_index.cpp].

    The index keeps the networks in an index of addresses and the lengths, as [subnet::length] returns
    them, in a bitmap index. Looking up a length fills up bitmaps of its coder, so the loops hand the
    index on. *)

From S2P Require Import Prelude Word Bits BitmapConcept EwahBitmap EwahRange BitmapAlgorithms.
From S2P Require Import Bitmap Operator Coder BitsliceCoder BitmapIndex Data ValueIndex ValueIndexSpec Types Ip DataOps IpIndex.

#[local] Existing Instance ip_index.ops.

Module subnet_index.
Section subnet_index.
#[local] Abbreviation ewah := ewah_bitmap.ewah_bitmap.
#[local] Abbreviation policy := bitmap_index.unsigned_policy.
(** The queue of the equality coder. *)
Context (top : list ewah → option (ewah * list ewah)).

Record subnet_index := mk {
  network_ : value_index.value_index ip_index.ip_index;
  length_ : bitmap_index.bitmap_index (equality top)
}.

Definition make : subnet_index :=
  mk (value_index.make ip_index.make) (bitmap_index.mk (equality_mk (vector_coder.make (128 + 1)))).

Definition append_impl (idx : subnet_index) (x : data) (pos : N) : subnet_index * bool :=
  match x with
  | d_subnet n k =>
      let sn := subnet.mk n k in
      let length := bitmap_index.skip (length_ idx) (pos - bitmap_index.size (length_ idx)) in
      let length := bitmap_index.append policy length (subnet.length sn) in
      let '(network, r) := value_index.append_at (network_ idx) (d_ip (subnet.network sn)) pos in
      (mk network length, match r with value _ => true | error _ => false end)
  | _ => (idx, false)
  end.

(** The rows with a network that [network_] finds and a length that [length_] finds. *)
Definition lookup_both (idx : subnet_index) (op : relational_operator) (x : data) (length_op : relational_operator) (length : N)
    : subnet_index * expected ids :=
  let '(network, r) := value_index.lookup (network_ idx) op x in
  match r with
  | error e => (mk network (length_ idx), error e)
  | value r =>
      let '(lengths, n) := bitmap_index.lookup policy (length_ idx) length_op length in
      (mk network lengths, value (bitmap_algorithms.binary_and r (bitmap.ewah n)))
  end.

(** The loops over prefix lengths: the union of what [step] finds for each of them. *)
Fixpoint lengths_loop (step : subnet_index → N → subnet_index * expected ids) (idx : subnet_index) (result : ids) (lengths : list N)
    : subnet_index * expected ids :=
  match lengths with
  | [] => (idx, value result)
  | i :: lengths =>
      let '(idx, r) := step idx i in
      match r with
      | error e => (idx, error e)
      | value r => lengths_loop step idx (bitmap_algorithms.binary_or result r) lengths
      end
  end.

Definition flip_if (negated : bool) (r : subnet_index * expected ids) : subnet_index * expected ids :=
  (r.1, match r.2 with error e => error e | value bm => value (if negated then bm_flip bm else bm) end).

(** [ni] with an address: its prefixes of all lengths. *)
Definition lookup_masked (bits : N) (x : list N) (idx : subnet_index) (i : N) : subnet_index * expected ids :=
  let masked := (ip.mask (128 - bits + i) x).2 in
  let '(lengths, len) := bitmap_index.lookup policy (length_ idx) equal i in
  let '(network, net) := value_index.lookup (network_ idx) equal (d_ip masked) in
  (mk network lengths,
   match net with error e => error e | value net => value (bitmap_algorithms.binary_and (bitmap.ewah len) net) end).
Definition lookup_ni_ip (offset : N) (idx : subnet_index) (x : list N) : subnet_index * expected ids :=
  let bits := if ip.is_v4 x then 32 else 128 in
  lengths_loop (lookup_masked bits x) idx (bitmap_base.make offset false) (N.of_nat <$> seq 0 (N.to_nat bits + 1)).
(** [ni] with a subnet. *)
Definition lookup_ni_subnet (idx : subnet_index) (x : subnet.t) : subnet_index * expected ids :=
  lengths_loop (λ idx i,
      let s := subnet.make (subnet.network x) i in
      lookup_both idx in_ (d_subnet (subnet.network_ s) (subnet.length_ s)) equal i)
    idx bm_nil (N.of_nat <$> seq 1 (N.to_nat (subnet.length x))).

Definition lookup_impl (lookup : lookup_fn subnet_index) (offset : N) : lookup_fn subnet_index :=
  λ idx op d,
  match d with
  | d_ip x =>
      match op with
      | ni | not_ni => flip_if (op ==o not_ni) (lookup_ni_ip offset idx x)
      | _ => (idx, error unsupported_operator)
      end
  | d_subnet n k =>
      let x := subnet.mk n k in
      match op with
      | equal | not_equal =>
          flip_if (op ==o not_equal) (lookup_both idx equal (d_ip (subnet.network x)) equal (subnet.length x))
      | in_ | not_in => flip_if (op ==o not_in) (lookup_both idx in_ d greater_equal (subnet.length x))
      | ni | not_ni => flip_if (op ==o not_ni) (lookup_ni_subnet idx x)
      | _ => (idx, error unsupported_operator)
      end
  | d_list xs => container_lookup.container_lookup_impl lookup offset idx op xs
  | _ => (idx, error type_clash)
  end.

#[export] Instance ops : ValueIndexOps subnet_index := {
  append_impl := append_impl;
  lookup_impl := lookup_impl
}.
End subnet_index.
End subnet_index.

(** ** The rows of an index of subnets *)

Section subnets.
Import subnet_index.
#[local] Abbreviation policy := bitmap_index.unsigned_policy.
Context (top : list ewah_bitmap.ewah_bitmap → option (ewah_bitmap.ewah_bitmap * list ewah_bitmap.ewah_bitmap)).
Context `{!Queue top}.
(** The family of the addresses. *)
Context (v4 : bool).
Implicit Types (idx : subnet_index top) (rs : entries) (P : data → bool).

Definition subnet_of (d : data) : subnet.t := match d with d_subnet n k => subnet.mk n k | _ => subnet.default end.
Definition network_row (o : option data) : option data := option_map (λ d, d_ip (subnet.network (subnet_of d))) o.
Definition length_row (o : option data) : option N := option_map (λ d, subnet.length (subnet_of d)) o.
(** A subnet of the family with a length other than 0. *)
Definition is_subnet (d : data) : Prop :=
  ∃ n k, d = d_subnet n k ∧ subnet_wf (subnet.mk n k) ∧ ip.is_v4 n = v4 ∧ 0 < subnet.length (subnet.mk n k).

Definition subnet_rep idx rs : Prop :=
  (∀ d, Some d ∈ rs → is_subnet d) ∧ vi_rep (network_ top idx) (network_row <$> rs) ∧
  bmi_rep policy (length_ top idx) (length_row <$> rs) ∧ equality_count top (bitmap_index.coder_ (length_ top idx)) = 129.

Lemma length_bound s : subnet_wf s → subnet.length s <= 128.
Proof. intros (_ & ? & _). unfold subnet.length. destruct (ip.is_v4 _); lia. Qed.

Lemma subnet_append_spec idx rs d pos : subnet_rep idx rs → is_subnet d → lenN rs <= pos → pos + 1 <= max_size →
  ∃ idx', append_impl top idx d pos = (idx', true) ∧ subnet_rep idx' (rs ++ reps (pos - lenN rs) None ++ [Some d]).
Proof.
  intros (Hrs & Hn & Hl & Hc) Hd Hle Hmax. pose proof Hd as (n & k & -> & Hw & Hf & Hpos). cbn [append_impl].
  destruct (vi_append_value (network_ top idx) _ (d_ip n) pos Hn eq_refl) as (vi' & E & Hn'); [by exists n; split; [|apply Hw]|by rewrite lenN_fmap|done|].
  cbn [subnet.network subnet.network_]. change (subnet.network (subnet.mk n k)) with n. rewrite E. eexists. split; [done|].
  destruct (bmi_size_spec _ _ _ Hl) as [-> _]. rewrite lenN_fmap.
  destruct (bmi_skip_spec _ _ _ (pos - lenN rs) Hl) as [Hrep1 Hs1]; [rewrite lenN_fmap; lia|].
  unfold bmi_same in Hs1. cbn in Hs1.
  destruct (bmi_append_spec _ _ _ (subnet.length (subnet.mk n k)) 1 Hrep1) as [Hrep2 Hs2].
  { unfold bmi_fits. cbn -[subnet.length]. rewrite Hs1, Hc. apply (N.le_lt_trans _ 128); [|done]. exact (length_bound _ Hw). }
  { autorewrite with lendb. rewrite lenN_fmap. lia. }
  split_and!.
  - intros d [?|[Hin|Hin]%elem_of_app]%elem_of_app; [by apply Hrs|unfold reps in Hin|].
    + by apply elem_of_replicate in Hin as [? _].
    + apply list_elem_of_singleton in Hin as [= ->]. exact Hd.
  - unfold extend in Hn'. rewrite lenN_fmap in Hn'. rewrite !fmap_app, fmap_reps. exact Hn'.
  - rewrite !fmap_app, fmap_reps, app_assoc. exact Hrep2.
  - unfold bmi_same in Hs2. cbn -[subnet.length] in Hs2 |- *. by rewrite Hs2, Hs1.
Qed.

Lemma subnet_make_rep : subnet_rep (make top) [].
Proof.
  split; [by intros d ?%not_elem_of_nil|]. split; [apply (vi_make_rep ip_index.make), ip_make_rep|].
  split; [|done]. split; [by apply vec_rep_make|by intros v ?%not_elem_of_nil].
Qed.

(** *** Networks and lengths *)

Lemma tells_or off rs P Q (a b : ids) : tells off rs P a → tells off rs Q b →
  tells off rs (λ v, P v || Q v) (bitmap_algorithms.binary_or a b).
Proof.
  intros Ha Hb. pose proof Ha as (Hwa & Hla & _). pose proof Hb as (Hwb & Hlb & _).
  destruct (binary_or_spec (R:=ids) a b Hwa Hwb) as [Hw Hl]. split; [done|]. rewrite Hl, lenN_pad_eval. split; [lia|].
  intros j v Hj. destruct (tells_bit _ _ _ _ _ _ Ha Hj) as [<- ?], (tells_bit _ _ _ _ _ _ Hb Hj) as [<- ?].
  rewrite lookup_bit_at by (rewrite length_pad_eval; lia). by rewrite bit_at_pad_eval.
Qed.

Lemma tells_or_nil off rs P (b : ids) : tells off rs P b → tells off rs P (bitmap_algorithms.binary_or (bm_nil : ids) b).
Proof.
  intros Hb. pose proof Hb as (Hwb & Hlb & _). destruct (bm_nil_spec (B:=ids)) as [Hwn Hn].
  destruct (binary_or_spec (R:=ids) bm_nil b Hwn Hwb) as [Hw Hl]. split; [done|]. rewrite Hl, lenN_pad_eval, Hn. split; [rewrite lenN_nil; lia|].
  intros j v Hj. destruct (tells_bit _ _ _ _ _ _ Hb Hj) as [<- ?].
  rewrite lookup_bit_at by (rewrite length_pad_eval; lia). by rewrite bit_at_pad_eval.
Qed.

Lemma network_tells idx rs off op x : subnet_rep idx rs → ip_supports op x → lenN rs <= off →
  ∃ vi r, value_index.lookup (network_ top idx) op x = (vi, value r) ∧ vi_rep vi (network_row <$> rs) ∧
    tells off rs (λ v, ip_matches op (d_ip (subnet.network (subnet_of v))) x) r.
Proof.
  intros (Hrs & Hn & _) Hs Hoff.
  destruct (vi_lookup_value (network_ top idx) _ op x Hn) as (vi & r & E & Hvi & Hw & Hl); [by destruct x|done|].
  exists vi, r. split; [done|]. split; [done|]. split; [done|]. rewrite Hl, !lenN_fmap. split; [done|].
  intros j v Hj. by rewrite !list_lookup_fmap, Hj.
Qed.

Lemma length_tells idx rs off op k : subnet_rep idx rs → is_comparison op = true → k <= 128 → lenN rs <= off →
  let '(bmi, r) := bitmap_index.lookup policy (length_ top idx) op k in
  bmi_rep policy bmi (length_row <$> rs) ∧ equality_count top (bitmap_index.coder_ bmi) = 129 ∧
  tells off rs (λ v, cmp op (subnet.length (subnet_of v)) k) (bitmap.ewah r).
Proof.
  intros (Hrs & _ & Hl & Hc) Hop Hk Hoff.
  assert (coder_fits (bitmap_index.coder_ (length_ top idx)) k) as Hfit by (cbn; rewrite Hc; lia).
  pose proof (bmi_lookup_spec policy (length_ top idx) _ op k Hl Hfit Hop) as H.
  destruct (bitmap_index.lookup _ _ _ _) as [bmi r]. destruct H as (Hr & Hsame & Hw & Hlen & Hb).
  unfold bmi_same in Hsame. cbn in Hsame. split; [done|]. split; [by rewrite Hsame|].
  split; [done|]. change (bm_list (bitmap.ewah r)) with (bm_list r). rewrite length_fmap in Hlen. split; [unfold lenN in *; lia|].
  intros j v Hj. apply (Hb j (subnet.length (subnet_of v))). by rewrite list_lookup_fmap, Hj.
Qed.

Lemma lookup_both_tells idx rs off op x lop k :
  subnet_rep idx rs → ip_supports op x → is_comparison lop = true → k <= 128 → lenN rs <= off →
  ∃ idx' bm, lookup_both top idx op x lop k = (idx', value bm) ∧ subnet_rep idx' rs ∧
    tells off rs (λ v, ip_matches op (d_ip (subnet.network (subnet_of v))) x && cmp lop (subnet.length (subnet_of v)) k) bm.
Proof.
  intros Hrep Hs Hop Hk Hoff. unfold lookup_both. destruct (network_tells idx rs off op x Hrep Hs Hoff) as (vi & r & -> & Hvi & Ht).
  pose proof (length_tells idx rs off lop k Hrep Hop Hk Hoff) as H. destruct (bitmap_index.lookup _ _ _ _) as [bmi n].
  destruct H as (Hb & Hc & Ht'). eexists _, _. split; [done|]. split; [|by apply tells_and].
  destruct Hrep as (Hrs & _). exact (conj Hrs (conj Hvi (conj Hb Hc))).
Qed.

Lemma lookup_masked_tells idx rs off bits x i :
  subnet_rep idx rs → ip.wf x → bits <= 128 → i <= bits → lenN rs <= off →
  ∃ idx' bm, lookup_masked top bits x idx i = (idx', value bm) ∧ subnet_rep idx' rs ∧
    tells off rs (λ v, (subnet.length (subnet_of v) =? i) &&
      ip_matches equal (d_ip (subnet.network (subnet_of v))) (d_ip (ip.mask (128 - bits + i) x).2)) bm.
Proof.
  intros Hrep Hx Hbits Hi Hoff. unfold lookup_masked. pose proof (length_tells idx rs off equal i Hrep eq_refl ltac:(lia) Hoff) as H.
  destruct (bitmap_index.lookup _ _ _ _) as [bmi n]. destruct H as (Hb & Hc & Ht').
  destruct (network_tells idx rs off equal (d_ip (ip.mask (128 - bits + i) x).2) Hrep) as (vi & r & -> & Hvi & Ht); [|done|].
  { split; [by left|]. destruct (mask_spec (128 - bits + i) x Hx) as (_ & ? & _); [lia|done]. }
  eexists _, _. split; [done|]. split; [|by apply tells_and].
  destruct Hrep as (Hrs & _). exact (conj Hrs (conj Hvi (conj Hb Hc))).
Qed.

(** The loops compute the union of the steps. *)
Lemma lengths_loop_tells (step : subnet_index top → N → subnet_index top * expected ids) (found : N → data → bool) rs off P idx result ks :
  (∀ idx i, i ∈ ks → subnet_rep idx rs → ∃ idx' bm, step idx i = (idx', value bm) ∧ subnet_rep idx' rs ∧ tells off rs (found i) bm) →
  subnet_rep idx rs → tells off rs P result →
  ∃ idx' bm, lengths_loop top step idx result ks = (idx', value bm) ∧ subnet_rep idx' rs ∧
    tells off rs (λ v, P v || existsb (λ i, found i v) ks) bm.
Proof.
  revert idx result P. induction ks as [|i ks IH]; intros idx result P Hstep Hrep Ht; cbn [lengths_loop existsb].
  - eexists _, _. split; [done|]. split; [done|]. eapply tells_ext; [|exact Ht]. intros v _. by rewrite orb_false_r.
  - destruct (Hstep idx i) as (idx1 & bm & -> & Hrep1 & Ht1); [by left|done|].
    destruct (IH idx1 (bitmap_algorithms.binary_or result bm) (λ v, P v || found i v)) as (idx2 & bm2 & -> & Hrep2 & Ht2);
      [intros; apply Hstep; [by right|done]|done|by apply tells_or|].
    eexists _, _. split; [done|]. split; [done|]. eapply tells_ext; [|exact Ht2]. intros v _. cbn. by rewrite orb_assoc.
Qed.

(** *** Containment *)

(** The length of the class, which counts the prefix of mapped addresses. *)
Definition mapped : N := if v4 then 96 else 0.

Lemma length_mapped s : subnet_wf s → ip.is_v4 (subnet.network s) = v4 → subnet.length_ s = subnet.length s + mapped.
Proof.
  intros (_ & _ & H96 & _) Hf. unfold subnet.length, mapped. unfold subnet.network in Hf. rewrite Hf in *.
  destruct v4; [specialize (H96 eq_refl)|]; lia.
Qed.

(** A subnet contains an address exactly if the address has the network as its prefix. *)
Lemma contains_ip_mask s x : subnet_wf s → ip.wf x →
  subnet.contains_ip s x = true ↔ subnet.network s = (ip.mask (subnet.length_ s) x).2.
Proof.
  intros Hs Hx. pose proof Hs as (Hn & Hl & _). rewrite contains_ip_spec by done.
  rewrite same_prefix_mask by done. rewrite mask_network by done. done.
Qed.

Lemma make_family x i : ip.wf x → ip.is_v4 x = v4 → i + mapped <= 128 →
  subnet.make x i = subnet.mk (ip.mask (i + mapped) x).2 (i + mapped) ∧
  ip.is_v4 (ip.mask (i + mapped) x).2 = v4.
Proof.
  intros Hx Hf Hi. unfold subnet.make, mapped in *. rewrite Hf.
  destruct (mask_spec (i + if v4 then 96 else 0) x Hx Hi) as (_ & Hw & Hb). split.
  - destruct v4; [rewrite (proj2 (N.ltb_ge 32 i)) by lia|rewrite (proj2 (N.ltb_ge 128 i)) by lia; rewrite N.add_0_r]; done.
  - destruct (ip.is_v4 (ip.mask _ x).2) eqn:E.
    + apply is_v4_mask in E as [E _]; [congruence|done..].
    + destruct v4 eqn:E4; [|done]. rewrite <- E. rewrite <- Hf. symmetry. apply is_v4_same; [done..|].
      intros j Hj. rewrite Hb by lia. by rewrite (proj2 (N.ltb_lt _ _)) by lia.
Qed.

Lemma existsb_length (a n : nat) (k : N) (Q : N → bool) : N.of_nat a <= k → k < N.of_nat (a + n) →
  existsb (λ i, (k =? i) && Q i) (N.of_nat <$> seq a n) = Q k.
Proof.
  intros Ha Hn. apply eq_iff_eq_true. rewrite existsb_exists. split.
  - intros (i & _ & [->%N.eqb_eq ?]%andb_true_iff). done.
  - intros Hq. exists k. rewrite N.eqb_refl. split; [|done]. apply list_elem_of_In, list_elem_of_fmap. exists (N.to_nat k).
    rewrite N2Nat.id. split; [done|]. apply elem_of_seq. lia.
Qed.

Lemma ni_ip_tells idx rs off x : subnet_rep idx rs → ip.wf x → ip.is_v4 x = v4 → lenN rs <= off → off <= max_size →
  ∃ idx' bm, lookup_ni_ip top off idx x = (idx', value bm) ∧ subnet_rep idx' rs ∧
    tells off rs (λ v, subnet.contains_ip (subnet_of v) x) bm.
Proof.
  intros Hrep Hx Hf Hoff Hmax. unfold lookup_ni_ip. rewrite Hf. set (bits := if v4 then 32 else 128).
  assert (bits + mapped = 128) as Hbits by (unfold bits, mapped; by destruct v4).
  destruct (lengths_loop_tells (lookup_masked top bits x) (λ i v, (subnet.length (subnet_of v) =? i) &&
      ip_matches equal (d_ip (subnet.network (subnet_of v))) (d_ip (ip.mask (128 - bits + i) x).2)) rs off (λ _, false) idx
      (bitmap_base.make off false) (N.of_nat <$> seq 0 (N.to_nat bits + 1))) as (idx' & bm & E & Hrep' & Ht); [|done|by apply tells_make|].
  { intros idx0 i [k [-> Hk%elem_of_seq]]%list_elem_of_fmap Hrep0. apply lookup_masked_tells; [done..| |lia|done]. lia. }
  exists idx', bm. split; [done|]. split; [done|]. eapply tells_ext; [|exact Ht]. intros v Hv. cbn beta.
  destruct Hrep as (Hrs & _). destruct (Hrs v Hv) as (n & k & -> & Hw & Hn & _). cbn [subnet_of orb].
  pose proof (length_mapped _ Hw Hn) as Hlen. pose proof Hw as (_ & Hk & _).
  rewrite existsb_length by lia. replace (128 - bits + subnet.length (subnet.mk n k)) with (subnet.length_ (subnet.mk n k)) by lia.
  apply eq_iff_eq_true. rewrite contains_ip_mask by done. unfold ip_matches. cbn. unfold bytes_eqb. by rewrite bool_decide_eq_true.
Qed.

Lemma existsb_no_length (a n : nat) (k : N) (Q : N → bool) : N.of_nat (a + n) <= k →
  existsb (λ i, (k =? i) && Q i) (N.of_nat <$> seq a n) = false.
Proof.
  intros Hk. apply not_true_iff_false. rewrite existsb_exists. intros (i & Hi & [<-%N.eqb_eq _]%andb_true_iff).
  apply list_elem_of_In, list_elem_of_fmap in Hi as (j & -> & Hj%elem_of_seq). lia.
Qed.

(** A subnet with the length of [t] around [s] contains the network of [t] exactly if [t] contains that of [s]. *)
Lemma contains_ip_make s t : subnet_wf s → subnet_wf t → ip.is_v4 (subnet.network s) = v4 → ip.is_v4 (subnet.network t) = v4 →
  subnet.contains_ip (subnet.make (subnet.network s) (subnet.length t)) (subnet.network t) = subnet.contains_ip t (subnet.network s).
Proof.
  intros Hs Ht Hfs Hft. pose proof Hs as (Hws & _). pose proof Ht as (Hwt & Hk & _). pose proof (length_mapped t Ht Hft) as Hlen.
  destruct (make_family (subnet.network s) (subnet.length t)) as [Em _]; [done..|lia|].
  pose proof (subnet_make_wf (subnet.network s) (subnet.length t) Hws) as Hwm. apply eq_iff_eq_true.
  rewrite (contains_ip_mask _ (subnet.network t)), (contains_ip_mask t (subnet.network s)) by done. rewrite Em. cbn [subnet.network subnet.network_ subnet.length_].
  rewrite <- Hlen. change (subnet.network (subnet.mk ?a ?b)) with a. unfold subnet.network. rewrite (mask_network t Ht). split; congruence.
Qed.

Lemma ni_subnet_tells idx rs off s : subnet_rep idx rs → subnet_wf s → ip.is_v4 (subnet.network s) = v4 → 0 < subnet.length s →
  lenN rs <= off →
  ∃ idx' bm, lookup_ni_subnet top idx s = (idx', value bm) ∧ subnet_rep idx' rs ∧
    tells off rs (λ v, subnet.contains (subnet_of v) s) bm.
Proof.
  intros Hrep Hs Hf Hpos Hoff. unfold lookup_ni_subnet.
  set (step := λ (idx : subnet_index top) i, _).
  set (found := λ i v, (subnet.length (subnet_of v) =? i) &&
      ip_matches in_ (d_ip (subnet.network (subnet_of v)))
        (d_subnet (subnet.network_ (subnet.make (subnet.network s) i)) (subnet.length_ (subnet.make (subnet.network s) i)))).
  pose proof (length_mapped s Hs Hf) as Hlen. pose proof Hs as (Hws & Hk & _).
  assert (∀ idx i, 1 <= i <= subnet.length s → subnet_rep idx rs →
    ∃ idx' bm, step idx i = (idx', value bm) ∧ subnet_rep idx' rs ∧ tells off rs (found i) bm) as Hstep.
  { intros idx0 i Hi Hrep0. destruct (make_family (subnet.network s) i) as [Em Ef]; [done..|lia|].
    destruct (lookup_both_tells idx0 rs off in_ (d_subnet (subnet.network_ (subnet.make (subnet.network s) i))
      (subnet.length_ (subnet.make (subnet.network s) i))) equal i) as (idx1 & bm & E & Hr & Ht); [done| |done|lia|done|].
    - split; [by left|]. pose proof (subnet_make_wf (subnet.network s) i Hws) as Hwm.
      split; [by destruct (subnet.make _ i)|]. rewrite Em. cbn [subnet.network_ subnet.length_].
      unfold subnet.length. cbn [subnet.network_ subnet.length_]. rewrite Ef. unfold mapped. destruct v4; lia.
    - exists idx1, bm. split; [exact E|]. split; [done|]. eapply tells_ext; [|exact Ht]. intros v _. apply andb_comm. }
  destruct (N.to_nat (subnet.length s)) as [|m] eqn:Em; [lia|]. cbn [seq fmap list_fmap lengths_loop].
  destruct (Hstep idx (N.of_nat 1)) as (idx1 & bm1 & -> & Hrep1 & Ht1); [lia|done|].
  destruct (lengths_loop_tells step found rs off (found (N.of_nat 1)) idx1 (bitmap_algorithms.binary_or bm_nil bm1)
    (N.of_nat <$> seq 2 m)) as (idx' & bm & E & Hrep' & Ht); [|done|by apply tells_or_nil|].
  { intros idx0 i [k [-> Hin%elem_of_seq]]%list_elem_of_fmap. apply Hstep. lia. }
  exists idx', bm. split; [done|]. split; [done|]. eapply tells_ext; [|exact Ht]. intros v Hv. cbn beta.
  change (existsb (λ i, found i v) (N.of_nat <$> seq 1 (S m)) = subnet.contains (subnet_of v) s).
  destruct Hrep as (Hrs & _). destruct (Hrs v Hv) as (n & k & -> & Hw & Hn & Hp). set (t := subnet.mk n k) in *.
  pose proof (length_mapped t Hw Hn) as Hlt. unfold subnet.contains, found. cbn [subnet_of]. fold t.
  destruct (N.leb_spec (subnet.length_ t) (subnet.length_ s)) as [Hle|Hgt].
  - rewrite existsb_length by lia. change (subnet.network_ s) with (subnet.network s). rewrite <- (contains_ip_make s t) by done. unfold ip_matches. cbn. by destruct (subnet.make _ _).
  - by rewrite existsb_no_length by lia.
Qed.

(** ** Indexes of subnets are value indexes *)

(** Lookups of the family; of subnets other than with [==] and [!=], only if their length is not 0. *)
Definition subnet_supports (op : relational_operator) (d : data) : Prop :=
  match d with
  | d_ip x => (op = ni ∨ op = not_ni) ∧ ip.wf x ∧ ip.is_v4 x = v4
  | d_subnet n k =>
      subnet_wf (subnet.mk n k) ∧ ip.is_v4 n = v4 ∧
      (op = equal ∨ op = not_equal ∨ ((op = in_ ∨ op = not_in ∨ op = ni ∨ op = not_ni) ∧ 0 < subnet.length (subnet.mk n k)))
  | _ => False
  end.

(** What the branches of [lookup_impl] return, without [flip]. *)
Definition finds off rs P (r : subnet_index top * expected ids) : Prop :=
  ∃ idx' bm, r = (idx', value bm) ∧ subnet_rep idx' rs ∧ tells off rs P bm.

Lemma finds_flip off rs P (b : bool) r : finds off rs P r → finds off rs (λ v, xorb b (P v)) (flip_if top b r).
Proof.
  intros (idx' & bm & -> & Hr & Ht). eexists _, _. split; [done|]. split; [done|]. destruct b; cbn; [by apply tells_flip|].
  eapply tells_ext; [|exact Ht]. intros v _. by destruct (P v).
Qed.

Lemma finds_ext off rs P Q r : (∀ v, Some v ∈ rs → P v = Q v) → finds off rs P r → finds off rs Q r.
Proof. intros Hpq (idx' & bm & -> & Hr & Ht). eexists _, _. split; [done|]. split; [done|]. by eapply tells_ext. Qed.

Lemma equal_finds idx rs off s : subnet_rep idx rs → subnet_wf s → ip.is_v4 (subnet.network s) = v4 → lenN rs <= off →
  finds off rs (λ v, DataOps.data_eqb v (d_subnet (subnet.network_ s) (subnet.length_ s)))
    (lookup_both top idx equal (d_ip (subnet.network s)) equal (subnet.length s)).
Proof.
  intros Hrep Hs Hf Hoff.
  destruct (lookup_both_tells idx rs off equal (d_ip (subnet.network s)) equal (subnet.length s)) as (idx' & bm & E & Hr & Ht);
    [done|split; [by left|apply Hs]|done|by apply length_bound|done|].
  exists idx', bm. split; [done|]. split; [done|]. eapply tells_ext; [|exact Ht]. intros v Hv. cbn beta.
  destruct Hrep as (Hrs & _). destruct (Hrs v Hv) as (n & k & -> & Hw & Hn & _). cbn [subnet_of].
  pose proof (length_mapped _ Hs Hf) as Hls. pose proof (length_mapped _ Hw Hn) as Hlw. cbn [subnet.length_] in Hlw.
  unfold ip_matches. cbn -[subnet.length]. f_equal. apply eq_iff_eq_true. rewrite !N.eqb_eq. lia.
Qed.

Lemma in_finds idx rs off s : subnet_rep idx rs → subnet_wf s → ip.is_v4 (subnet.network s) = v4 → 0 < subnet.length s → lenN rs <= off →
  finds off rs (λ v, subnet.contains s (subnet_of v))
    (lookup_both top idx in_ (d_subnet (subnet.network_ s) (subnet.length_ s)) greater_equal (subnet.length s)).
Proof.
  intros Hrep Hs Hf Hpos Hoff.
  destruct (lookup_both_tells idx rs off in_ (d_subnet (subnet.network_ s) (subnet.length_ s)) greater_equal (subnet.length s))
    as (idx' & bm & E & Hr & Ht); [done|split; [by left|by destruct s]|done|by apply length_bound|done|].
  exists idx', bm. split; [done|]. split; [done|]. eapply tells_ext; [|exact Ht]. intros v Hv. cbn beta.
  destruct Hrep as (Hrs & _). destruct (Hrs v Hv) as (n & k & -> & Hw & Hn & _). cbn [subnet_of].
  pose proof (length_mapped _ Hs Hf) as Hls. pose proof (length_mapped _ Hw Hn) as Hlw.
  unfold ip_matches, subnet.contains. cbn -[subnet.length subnet.length_ subnet.contains_ip]. rewrite andb_comm. destruct s as [sn sk]. f_equal.
  apply eq_iff_eq_true. rewrite N.leb_le, negb_true_iff, N.ltb_ge. cbn [subnet.length_] in *. lia.
Qed.

Lemma subnet_lookup_finds self off idx rs op d : subnet_rep idx rs → subnet_supports op d → lenN rs <= off → off <= max_size →
  finds off rs (λ v, ip_matches op v d) (lookup_impl top self off idx op d).
Proof.
  intros Hrep Hs Hoff Hmax. pose proof Hrep as (Hrs & _).
  assert (∀ (P : data → bool) (Q : data → bool) b r, finds off rs P r →
    (∀ n k, P (d_subnet n k) = xorb b (Q (d_subnet n k))) → finds off rs Q (flip_if top b r)) as Hflip.
  { intros P Q b r Hr Heq. eapply finds_ext; [|by apply finds_flip]. intros v Hv. cbn.
    destruct (Hrs v Hv) as (n & k & -> & _). rewrite Heq. by destruct b, (Q _). }
  destruct d as [| | | | | | | | |x|n k| | | |]; try done.
  - destruct Hs as (Hop & Hx & Hf). pose proof (ni_ip_tells idx rs off x Hrep Hx Hf Hoff Hmax) as Hni.
    destruct Hop as [-> | ->]; (eapply Hflip; [exact Hni|]); intros n k; unfold ip_matches; cbn -[subnet.contains_ip]; by destruct (subnet.contains_ip _ x).
  - destruct Hs as (Hw & Hf & Hop). set (s := subnet.mk n k) in *.
    pose proof (equal_finds idx rs off s Hrep Hw Hf Hoff) as Heq. destruct Hop as [-> |[-> |[Hop Hpos]]].
    1,2: eapply Hflip; [exact Heq|]; intros n' k'; unfold ip_matches; cbn; unfold data_neb; cbn; by destruct (bytes_eqb _ _ && _).
    pose proof (in_finds idx rs off s Hrep Hw Hf Hpos Hoff) as Hin. pose proof (ni_subnet_tells idx rs off s Hrep Hw Hf Hpos Hoff) as Hni.
    destruct Hop as [-> |[-> |[-> | ->]]]; (eapply Hflip; [exact Hin||exact Hni|]); intros n' k'; unfold ip_matches;
      cbn -[subnet.contains]; by destruct (subnet.contains _ _).
Qed.

Lemma subnet_lookup_spec self off idx rs op d :
  subnet_rep idx rs → subnet_supports op d → lenN rs <= off → off <= max_size →
  ∃ idx' bm, lookup_impl top self off idx op d = (idx', value bm) ∧ subnet_rep idx' rs ∧ bm_wf bm ∧ lenN (bm_list bm) <= off ∧
    ∀ j v, rs !! j = Some (Some v) → bit_at (bm_list bm) j = ip_matches op v d.
Proof.
  intros Hrep Hs Hoff Hmax. destruct (subnet_lookup_finds self off idx rs op d Hrep Hs Hoff Hmax) as (idx' & bm & E & Hr & Ht).
  exists idx', bm. split; [done|]. split; [done|]. split; [apply Ht|]. split; [apply Ht|].
  intros j v Hj. by destruct (tells_bit _ _ _ _ _ _ Ht Hj).
Qed.

#[refine] Instance subnet_impl : ValueIndexImpl (subnet_index top) := {|
  impl_rep := subnet_rep;
  impl_accepts := is_subnet;
  impl_supports := subnet_supports;
  impl_matches := ip_matches;
  append_impl_spec := subnet_append_spec;
  lookup_impl_spec := subnet_lookup_spec
|}.
Proof.
  - abstract done.
  - abstract (intros self self' off i op x Hl; destruct x; try done; by destruct (Hl xs)).
Defined.
End subnets.
