(* ===== verification/HashIndex.v ===== *)
(** The hash index: [libvast/include/vast/index/hash_index.hpp].

    The index stores a digest per value and looks for the digest of the value of a query. Values
    whose digest is taken are hashed again with another seed, which the index remembers. The hash
    function is a parameter. *)

From stdpp Require Import gmap.
From S2P Require Import Prelude Word Bits BitmapConcept EwahBitmap EwahRange BitmapAlgorithms BitwiseRange.
From S2P Require Import Bitmap Operator Data ValueIndex ValueIndexSpec Ip DataOps.

Module hash_index.

Definition max_hash_rounds : nat := 32.

(** [mask] is the mask of the base, which sets the same bits: [lookup_impl] reads it. *)
Record hash_index := mk {
  digests_ : list N;
  unique_digests_ : gset N;
  seeds_ : list (data * N);
  mask : ewah_bitmap.ewah_bitmap
}.

Definition make : hash_index := mk [] ∅ [] ewah_bitmap.nil.

Section hash_index.
(** [seeded_hash] and the number of bytes of a digest. *)
Context (seeded_hash : N → data → N) (Bytes : N).
Implicit Types (i : hash_index) (x : data).

Definition hash x (seed : N) : N := seeded_hash seed x mod 2 ^ (8 * Bytes).

Definition find_seed i x : option N := snd <$> find (λ p, data_eqb p.1 x) (seeds_ i).

(** The rounds of [make_digest] from [seed] on. *)
Fixpoint make_digest_loop (rounds : nat) (seed : N) i x : hash_index * option N :=
  match rounds with
  | O => (i, None)
  | S rounds =>
      let k := hash x seed in
      if decide (k ∉ unique_digests_ i) then
        let seeds := match find_seed i x with None => seeds_ i ++ [(x, seed)] | Some _ => seeds_ i end in
        (mk (digests_ i) ({[k]} ∪ unique_digests_ i) seeds (mask i), Some k)
      else
        match find_seed i x with
        | Some s => (i, Some (hash x s))
        | None => make_digest_loop rounds (seed + 1) i x
        end
  end.
Definition make_digest i x : hash_index * option N := make_digest_loop max_hash_rounds 0 i x.

Definition find_digest i x : N := match find_seed i x with Some s => hash x s | None => hash x 0 end.

Definition immutable i : bool := bool_decide (unique_digests_ i = ∅) && negb (bool_decide (digests_ i = [])).

Definition append_impl i x (pos : N) : hash_index * bool :=
  if immutable i then (i, false)
  else
    let '(i, digest) := make_digest i x in
    match digest with
    | None => (i, false)
    | Some d => (mk (digests_ i ++ [d]) (unique_digests_ i) (seeds_ i) (value_index.set_at (mask i) pos), true)
    end.

(** The loop of [scan] over the digests from [i] on. *)
Fixpoint scan_loop (predicate : N → bool) (digests : list N) (i last_match : N) (rng : bitwise_range.bitwise_range)
    (result : ewah_bitmap.ewah_bitmap) : ewah_bitmap.ewah_bitmap :=
  match digests with
  | [] => result
  | d :: digests =>
      if predicate d then
        let digests_since_last_match := i - last_match in
        let rng := if 0 <? digests_since_last_match then select_range.next_k true rng digests_since_last_match else rng in
        let result := ewah_bitmap.append_bits result false (select_range.get rng - ewah_bitmap.size result) in
        scan_loop predicate digests (i + 1) i rng (ewah_bitmap.append_bit result true)
      else scan_loop predicate digests (i + 1) last_match rng result
  end.
Definition scan i (predicate : N → bool) : ids :=
  let rng := select_range.select true (mask i) in
  bitmap.ewah (if select_range.done rng then ewah_bitmap.nil else scan_loop predicate (digests_ i) 0 0 rng ewah_bitmap.nil).

(** [ewah_bitmap{digests_.size(), true}] *)
Definition all_digests i : ids := bitmap.ewah (bitmap_base.make (lenN (digests_ i)) true).

Definition lookup_impl i (op : relational_operator) x : expected ids :=
  match x, op with
  | d_pattern _, (equal | not_equal) => value (all_digests i)
  | d_string _, (in_ | not_in | ni | not_ni) => value (all_digests i)
  | _, equal => value (scan i (λ d, find_digest i x =? d))
  | _, not_equal => value (scan i (λ d, negb (find_digest i x =? d)))
  | d_list xs, in_ => value (scan i (λ d, existsb (λ k, k =? d) (find_digest i <$> xs)))
  | d_list xs, not_in => value (scan i (λ d, negb (existsb (λ k, k =? d) (find_digest i <$> xs))))
  | _, (in_ | not_in) => error type_clash
  | _, _ => error unsupported_operator
  end.
End hash_index.
End hash_index.
Export (hints) hash_index.

#[export] Instance hash_index_ops seeded_hash Bytes : ValueIndexOps hash_index.hash_index := {
  append_impl := hash_index.append_impl seeded_hash Bytes;
  lookup_impl := λ _ _ i op x, (i, hash_index.lookup_impl seeded_hash Bytes i op x)
}.

(** ** Scanning the digests *)

Section scan.
Implicit Types (l : list bool) (n p q : N).

Lemma positions_from_bound n l p : p ∈ positions_from n true l → n <= p < n + lenN l.
Proof.
  revert n. induction l as [|b l IH]; intros n Hp; cbn in Hp; [by apply elem_of_nil in Hp|]. rewrite lenN_cons.
  destruct (eqb b true); [apply elem_of_cons in Hp as [->|Hp]; [lia|]|]; specialize (IH _ Hp); lia.
Qed.

(** The positions behind one of them. *)
Lemma positions_from_drop n l a p : positions_from n true l !! a = Some p →
  n <= p ∧ drop (S a) (positions_from n true l) = positions_from (p + 1) true (drop (N.to_nat (p + 1 - n)) l).
Proof.
  revert n a. induction l as [|b l IH]; intros n a Ha; cbn in Ha; [done|]. cbn [positions_from]. destruct (eqb b true).
  - destruct a as [|a]; [injection Ha as <-|].
    + split; [lia|]. replace (N.to_nat (n + 1 - n)) with 1%nat by lia. done.
    + destruct (IH (n + 1) a Ha) as [Hle E]. split; [lia|]. change (drop (S (S a)) (n :: ?x)) with (drop (S a) x). rewrite E.
      replace (N.to_nat (p + 1 - n)) with (S (N.to_nat (p + 1 - (n + 1)))) by lia. done.
  - destruct (IH (n + 1) a Ha) as [Hle E]. split; [lia|]. rewrite E. replace (N.to_nat (p + 1 - n)) with (S (N.to_nat (p + 1 - (n + 1)))) by lia. done.
Qed.

Lemma nth_bit_positions n k l : 0 < k → positions_from n true l !! N.to_nat (k - 1) = N.add n <$> nth_bit true k l.
Proof.
  revert n k. induction l as [|b l IH]; intros n k Hk; [done|]. cbn [positions_from nth_bit]. destruct (eqb b true).
  - destruct (N.eqb_spec k 1) as [->|Hne]; [cbn; by rewrite N.add_0_r|]. replace (N.to_nat (k - 1)) with (S (N.to_nat (k - 1 - 1))) by lia.
    cbn. rewrite IH by lia. destruct (nth_bit true (k - 1) l); cbn; [|done]. f_equal. lia.
  - rewrite IH by done. destruct (nth_bit true k l); cbn; [|done]. f_equal. lia.
Qed.

(** Moving from one position to a later one. *)
Lemma next_k_positions l r a b p q : lenN l <= max_size → at_pos l p r → (a < b)%nat →
  positions true l !! a = Some p → positions true l !! b = Some q → at_pos l q (select_range.next_k true r (N.of_nat (b - a))).
Proof.
  intros Hmax Hr Hab Ha Hb. unfold positions in *. assert (lenN (positions_from 0 true l) <= lenN l) as Hlen.
  { clear. unfold lenN. generalize 0 as n. induction l as [|c l IH]; intros n; cbn; [lia|]. specialize (IH (n + 1)). destruct (eqb c true); cbn; lia. }
  pose proof (lookup_lt_Some _ _ _ Hb) as Hlt.
  destruct (positions_from_drop 0 l a p Ha) as [_ Hd].
  pose proof (select_k_spec l Hmax p r (N.of_nat (b - a)) Hr ltac:(lia) ltac:(unfold lenN in *; lia)) as Hs.
  assert (positions_from (p + 1) true (drop (N.to_nat (p + 1)) l) !! N.to_nat (N.of_nat (b - a) - 1) = Some q) as Hq.
  { rewrite N.sub_0_r in Hd. rewrite <- Hd, lookup_drop. by replace (S a + N.to_nat (N.of_nat (b - a) - 1))%nat with b by lia. }
  rewrite nth_bit_positions in Hq by lia. unfold select_range.next_k. rewrite Hq in Hs. exact Hs.
Qed.

Lemma positions_increasing l a b p q : (a < b)%nat → positions true l !! a = Some p → positions true l !! b = Some q → p < q.
Proof.
  intros Hab Ha Hb. unfold positions in *. destruct (positions_from_drop 0 l a p Ha) as [_ Hd].
  assert (q ∈ drop (S a) (positions_from 0 true l)) as Hq.
  { apply list_elem_of_lookup. exists (b - S a)%nat. rewrite lookup_drop. by replace (S a + (b - S a))%nat with b by lia. }
  rewrite Hd in Hq. apply positions_from_bound in Hq. lia.
Qed.

Context (predicate : N → bool) (l : list bool) (Hmax : lenN l <= max_size).

(** The bits that the rest of the loop sets. *)
Definition scan_bit (digests : list N) (i : nat) (j : N) : bool :=
  existsb (λ kd : nat * N, predicate kd.2 && bool_decide (positions true l !! kd.1 = Some j)) (zip (seq i (length digests)) digests).

Lemma hash_scan_loop_spec digests (i last : nat) p r result :
  (i + length digests <= length (positions true l))%nat → (last <= i)%nat → positions true l !! last = Some p → at_pos l p r →
  ewah_inv result → (∀ q, positions true l !! i = Some q → lenN (ewah_bitmap.to_list result) <= q) → lenN (ewah_bitmap.to_list result) <= lenN l →
  let bm := hash_index.scan_loop predicate digests (N.of_nat i) (N.of_nat last) r result in
  ewah_inv bm ∧ lenN (ewah_bitmap.to_list bm) <= lenN l ∧
  ∀ j, bit_at (ewah_bitmap.to_list bm) (N.to_nat j) = bit_at (ewah_bitmap.to_list result) (N.to_nat j) || scan_bit digests i j.
Proof.
  revert i last p r result. induction digests as [|d digests IH]; intros i last p r result Hi Hlast Hp Hr Hinv Hle Hll; cbn [hash_index.scan_loop].
  { split_and!; [done|done|]. intros j. unfold scan_bit. cbn. by rewrite orb_false_r. }
  cbn in Hi. destruct (lookup_lt_is_Some_2 (positions true l) i ltac:(lia)) as [q Hq]. pose proof (Hle q Hq) as Hlq.
  assert (q < lenN l) as Hql by (apply list_elem_of_lookup_2, positions_from_bound in Hq; lia).
  assert (∀ j, scan_bit (d :: digests) i j = predicate d && bool_decide (q = j) || scan_bit digests (S i) j) as Hbit.
  { intros j. unfold scan_bit. cbn [length seq zip existsb fst snd]. rewrite Hq. f_equal. f_equal. apply bool_decide_ext. naive_solver. }
  assert (∀ q', positions true l !! S i = Some q' → q < q') as Hnext by (intros q' Hq'; eapply (positions_increasing l i (S i)); [lia|done|done]).
  replace (N.of_nat i + 1) with (N.of_nat (S i)) by lia. destruct (predicate d) eqn:Ep.
  - set (r' := if 0 <? N.of_nat i - N.of_nat last then _ else r).
    assert (at_pos l q r') as Hr'.
    { subst r'. destruct (N.ltb_spec 0 (N.of_nat i - N.of_nat last)).
      - replace (N.of_nat i - N.of_nat last) with (N.of_nat (i - last)) by lia. eapply next_k_positions; (done || lia || eauto).
      - assert (i = last) as -> by lia. rewrite Hp in Hq. by injection Hq as ->. }
    destruct (at_pos_get l q r' Hr') as [Hg _]. unfold select_range.get. rewrite Hg.
    pose proof (ewah_to_list_size result Hinv) as Hsz.
    destruct (set_at_spec result q Hinv) as [Hb E]; [lia|lia|]. unfold value_index.set_at in Hb, E.
    destruct (IH (S i) i q r' _ ltac:(lia) ltac:(lia) Hq Hr' Hb) as (H1 & H2 & H3).
    { intros q' Hq'. specialize (Hnext q' Hq'). rewrite E. autorewrite with lendb. lia. }
    { rewrite E. autorewrite with lendb. lia. }
    split_and!; [done|done|]. intros j. rewrite H3, E, bit_at_gap, Hbit. cbn [andb]. rewrite orb_assoc. f_equal. f_equal.
    apply Bool.eq_iff_eq_true. rewrite N.eqb_eq, bool_decide_eq_true. lia.
  - destruct (IH (S i) last p r result ltac:(lia) ltac:(lia) Hp Hr Hinv) as (H1 & H2 & H3); [|done|].
    { intros q' Hq'. specialize (Hnext q' Hq'). lia. }
    split_and!; [done|done|]. intros j. by rewrite H3, Hbit.
Qed.
End scan.

(** ** The values behind the digests *)

Definition values (es : entries) : list data := omap proper es.

Lemma positions_app_false n l k : positions_from n true (l ++ reps k false) = positions_from n true l.
Proof.
  revert n. induction l as [|b l IH]; intros n; cbn; [|by rewrite !IH]. unfold reps. generalize (N.to_nat k) as m. intros m. revert n.
  induction m as [|m IHm]; intros n; cbn; [done|by apply IHm].
Qed.

Lemma positions_marks bm es : marks bm is_value es → positions true (ewah_bitmap.to_list bm) = positions true (is_value <$> es).
Proof.
  intros (_ & Hlen & Hbits). assert (is_value <$> es = ewah_bitmap.to_list bm ++ reps (lenN es - lenN (ewah_bitmap.to_list bm)) false) as ->.
  { apply bit_list_ext_at; [rewrite length_app, length_reps, length_fmap; unfold lenN in *; lia|]. intros j _. by rewrite <- Hbits, bit_at_app_reps, orb_false_r. }
  unfold positions. by rewrite positions_app_false.
Qed.

(** The values and their positions. *)
Lemma length_values es n : length (positions_from n true (is_value <$> es)) = length (values es).
Proof.
  unfold values. revert n. induction es as [|o es IH]; intros n; [done|]. cbn. unfold is_value at 1. destruct (proper o); cbn; by rewrite IH.
Qed.

Lemma values_lookup es j v n : vals es !! j = Some (Some v) →
  ∃ k, positions_from n true (is_value <$> es) !! k = Some (n + N.of_nat j) ∧ values es !! k = Some v.
Proof.
  unfold values, vals. revert j n. induction es as [|o es IH]; intros j n Hj; [done|]. cbn. unfold is_value at 1. destruct j as [|j]; cbn in Hj.
  - injection Hj as ->. exists 0%nat. split; [cbn; by rewrite N.add_0_r|done].
  - destruct (IH j (n + 1) Hj) as (k & Hp & Hv). destruct (proper o) as [w|]; cbn; [exists (S k)|exists k]; (split; [etrans; [exact Hp|f_equal; lia]|done]).
Qed.

Lemma scan_right (D : data → N) predicate i es : marks (hash_index.mask i) is_value es → lenN es <= max_size →
  hash_index.digests_ i = D <$> values es → right_at_values (λ v, predicate (D v)) es (hash_index.scan i predicate).
Proof.
  intros Hm Hmax Hd. pose proof (positions_marks _ _ Hm) as Hpos. pose proof Hm as (Hinv & Hlen & _).
  set (l := ewah_bitmap.to_list (hash_index.mask i)) in *. pose proof (length_values es 0) as Hlv. fold (positions true (is_value <$> es)) in Hlv. rewrite <- Hpos in Hlv.
  unfold hash_index.scan. pose proof (select_range_spec true (hash_index.mask i) Hinv) as Hr.
  change (bm_list (hash_index.mask i)) with l in Hr. unfold select_range.done. rewrite (at_opt_done _ _ _ Hr).
  assert (∀ j v, vals es !! j = Some (Some v) → ∃ k, positions true l !! k = Some (N.of_nat j) ∧ values es !! k = Some v) as Hval.
  { intros j v Hj. rewrite Hpos. destruct (values_lookup es j v 0 Hj) as (k & Hp & Hv). eauto. }
  destruct (next_pos true l 0) as [p|] eqn:Ep.
  - rewrite bool_decide_eq_false_2 by done. cbn [at_opt] in Hr. assert (positions true l !! 0%nat = Some p) as Hp0.
    { apply fmap_Some in Ep as (j & Ej & ->). cbn [N.to_nat drop] in Ej. unfold positions. by rewrite (positions_from_Some _ _ _ _ Ej). }
    destruct (hash_scan_loop_spec predicate l ltac:(lia) (hash_index.digests_ i) 0 0 p (select_range.select true (hash_index.mask i)) ewah_bitmap.nil)
      as (Hb & Hl & Hbits); try done; [rewrite Hd, length_fmap; lia|exact ewah_inv_nil|intros; apply N.le_0_l|apply N.le_0_l|].
    change (N.of_nat 0) with 0 in *. split_and!; [done|cbn; lia|]. intros j v Hj. destruct (Hval j v Hj) as (k & Hk & Hv).
    specialize (Hbits (N.of_nat j)). rewrite Nat2N.id in Hbits.
    change (bm_list (bitmap.ewah ?b)) with (ewah_bitmap.to_list b). rewrite Hbits. change (bit_at (ewah_bitmap.to_list ewah_bitmap.nil) j) with (bit_at [] j).
    unfold bit_at at 1. rewrite lookup_nil. cbn [from_option default]. apply Bool.eq_iff_eq_true. unfold scan_bit. cbn [orb]. rewrite existsb_exists. split.
    + intros ([k' d] & Hin & [Hpd Hk']%andb_true_iff). cbn in Hpd, Hk'. apply bool_decide_eq_true in Hk'.
      apply list_elem_of_In, list_elem_of_lookup in Hin as [m Hin]. apply lookup_zip_with_Some in Hin as (a & b & [= <- <-] & Ha & Hb').
      apply lookup_seq in Ha as [-> _]. rewrite Nat.add_0_l in Hk'.
      assert (m = k) as ->. { destruct (Nat.lt_trichotomy m k) as [H|[H|H]]; [|done|]; pose proof (positions_increasing l _ _ _ _ H ltac:(eassumption) ltac:(eassumption)); lia. }
      rewrite Hd, list_lookup_fmap, Hv in Hb'. by injection Hb' as <-.
    + intros Hpd. exists (k, D v). split; [|cbn; rewrite Hpd, bool_decide_eq_true_2; done].
      apply list_elem_of_In, list_elem_of_lookup. exists k. apply lookup_zip_with_Some. exists k, (D v). split_and!; [done| |by rewrite Hd, list_lookup_fmap, Hv].
      apply lookup_seq. split; [lia|]. rewrite Hd, length_fmap. by eapply lookup_lt_Some.
  - rewrite bool_decide_eq_true_2 by done. split_and!; [exact ewah_inv_nil|apply N.le_0_l|]. intros j v Hj. destruct (Hval j v Hj) as (k & Hk & _).
    apply fmap_None in Ep. cbn [N.to_nat drop] in Ep. unfold positions in Hk. by rewrite (positions_from_None _ _ _ Ep) in Hk.
Qed.

(** ** Digests *)

Section digests.
Import hash_index.
Context (seeded_hash : N → data → N) (Bytes : N).
(** Equal values have equal hashes. *)
Context (Hhash : ∀ seed x y, data_eqb x y = true → seeded_hash seed x = seeded_hash seed y).
#[local] Abbreviation hash := (hash seeded_hash Bytes).
#[local] Abbreviation find_digest := (find_digest seeded_hash Bytes).
Implicit Types (i : hash_index) (x v w : data) (vs : list data).

Definition stored vs x : Prop := ∃ v, v ∈ vs ∧ data_eqb v x = true.

(** What the index knows of the values that were appended. *)
Record hashed i vs : Prop := {
  hashed_nan : Forall (λ v, no_nan v = true) vs;
  hashed_digests : digests_ i = find_digest i <$> vs;
  hashed_unique d : d ∈ unique_digests_ i ↔ d ∈ digests_ i;
  hashed_seeds x : is_Some (find_seed i x) ↔ stored vs x;
  hashed_first x : stored vs x → hash x 0 ∈ unique_digests_ i;
  hashed_inj v w : v ∈ vs → w ∈ vs → find_digest i v = find_digest i w → data_eqb v w = true
}.

Lemma hash_cong x y seed : data_eqb x y = true → hash x seed = hash y seed.
Proof. intros E. unfold hash_index.hash. by rewrite (Hhash seed x y E). Qed.

Lemma find_seed_cong i x y : data_eqb x y = true → find_seed i x = find_seed i y.
Proof.
  intros E. unfold find_seed. f_equal. induction (seeds_ i) as [|p ps IH]; [done|]. cbn.
  rewrite (data_eqb_sym p.1 x), (data_eqb_sym p.1 y). destruct (data_eqb_cong x y p.1 E) as [-> _]. by rewrite IH.
Qed.
Lemma find_digest_cong i x y : data_eqb x y = true → find_digest i x = find_digest i y.
Proof. intros E. unfold hash_index.find_digest. rewrite (find_seed_cong i x y E). destruct (find_seed i y); by apply hash_cong. Qed.

Lemma stored_self vs v : Forall (λ v, no_nan v = true) vs → v ∈ vs → stored vs v.
Proof. intros Hn Hv. exists v. split; [done|]. rewrite data_eqb_refl. rewrite list.Forall_forall in Hn. by apply Hn. Qed.

(** Stored values are told apart. *)
Lemma stored_digest i vs v x : hashed i vs → v ∈ vs → stored vs x → (find_digest i x =? find_digest i v) = data_eqb v x.
Proof.
  intros Hi Hv (w & Hw & E). rewrite <- (find_digest_cong i w x E). destruct (N.eqb_spec (find_digest i w) (find_digest i v)) as [Ed|Ed].
  - symmetry. pose proof (hashed_inj _ _ Hi v w Hv Hw (eq_sym Ed)) as Ev. destruct (data_eqb_cong v w x Ev) as [-> _]. done.
  - destruct (data_eqb v x) eqn:Ex; [|done]. destruct Ed. apply find_digest_cong. destruct (data_eqb_cong w x v E) as [-> _]. by rewrite data_eqb_sym.
Qed.

(** The rounds for a value that is not stored. *)
Lemma make_digest_loop_new rounds seed i x : find_seed i x = None →
  let '(i', d) := make_digest_loop seeded_hash Bytes rounds seed i x in
  match d with
  | Some k => ∃ s, k = hash x s ∧ ¬ (k ∈ unique_digests_ i) ∧ (s ≠ seed → hash x seed ∈ unique_digests_ i) ∧
      i' = mk (digests_ i) ({[k]} ∪ unique_digests_ i) (seeds_ i ++ [(x, s)]) (mask i)
  | None => i' = i ∧ ∀ s, seed <= s < seed + N.of_nat rounds → hash x s ∈ unique_digests_ i
  end.
Proof.
  intros Hx. revert seed. induction rounds as [|rounds IH]; intros seed; cbn [make_digest_loop]; [split; [done|intros; lia]|].
  case_decide as Hk; [rewrite Hx; by exists seed|]. rewrite Hx. specialize (IH (seed + 1)).
  destruct (make_digest_loop _ _ rounds (seed + 1) i x) as [i' [k|]].
  - destruct IH as (s & Hks & Hn & Hs & ->). exists s. split_and!; done.
  - destruct IH as [-> Hs]. split; [done|]. intros s Hs'. destruct (decide (s = seed)) as [->|]; [done|]. apply Hs. lia.
Qed.

Lemma find_seed_app i ds u bm x s y : find_seed (mk ds u (seeds_ i ++ [(x, s)]) bm) y =
  match find_seed i y with Some t => Some t | None => if data_eqb x y then Some s else None end.
Proof.
  unfold find_seed. cbn [seeds_]. induction (seeds_ i) as [|p ps IH]; cbn; [by destruct (data_eqb x y)|]. by destruct (data_eqb p.1 y).
Qed.

Lemma stored_app vs x y : stored (vs ++ [x]) y ↔ stored vs y ∨ data_eqb x y = true.
Proof.
  split.
  - intros (v & [Hv| ->%list_elem_of_singleton]%elem_of_app & E); [left; by exists v|by right].
  - intros [(v & Hv & E)|E]; [exists v|exists x]; set_solver.
Qed.

(** A value that is stored already. *)
Lemma hashed_again i vs x bm : hashed i vs → no_nan x = true → stored vs x →
  hashed (mk (digests_ i ++ [find_digest i x]) (unique_digests_ i) (seeds_ i) bm) (vs ++ [x]).
Proof.
  intros [Hn Hd Hu Hs Hf Hj] Hx Hst. pose proof Hst as (u & Hu' & Eu).
  assert (∀ y, stored (vs ++ [x]) y ↔ stored vs y) as Hst'.
  { intros y. rewrite stored_app. split; [intros [?|E]; [done|]|by left]. exists u. split; [done|]. by destruct (data_eqb_cong u x y Eu) as [-> _]. }
  split; cbn [digests_ unique_digests_].
  - apply list.Forall_app. split; [done|by apply list.Forall_singleton].
  - rewrite fmap_app, Hd. done.
  - intros d. rewrite Hu, elem_of_app, list_elem_of_singleton. split; [by left|]. intros [?| ->]; [done|].
    rewrite Hd, <- (find_digest_cong i u x Eu). by apply list_elem_of_fmap_2.
  - intros y. rewrite Hst'. apply Hs.
  - intros y. rewrite Hst'. apply Hf.
  - intros v w Hv Hw E. change (find_digest i v = find_digest i w) in E.
    assert (∀ z, z ∈ vs ++ [x] → ∃ z', z' ∈ vs ∧ data_eqb z' z = true) as Hrep.
    { intros z [Hz| ->%list_elem_of_singleton]%elem_of_app; [by apply stored_self|by exists u]. }
    destruct (Hrep v Hv) as (v' & Hv' & Ev), (Hrep w Hw) as (w' & Hw' & Ew).
    rewrite <- (find_digest_cong i _ _ Ev), <- (find_digest_cong i _ _ Ew) in E. specialize (Hj v' w' Hv' Hw' E).
    destruct (data_eqb_cong v' v w Ev) as [<- _]. rewrite data_eqb_sym. destruct (data_eqb_cong w' w v' Ew) as [<- _]. by rewrite data_eqb_sym.
Qed.

(** A new value with a digest that is not taken. *)
Lemma hashed_new i vs x s bm : hashed i vs → no_nan x = true → find_seed i x = None → hash x s ∉ unique_digests_ i →
  (s ≠ 0 → hash x 0 ∈ unique_digests_ i) →
  hashed (mk (digests_ i ++ [hash x s]) ({[hash x s]} ∪ unique_digests_ i) (seeds_ i ++ [(x, s)]) bm) (vs ++ [x]).
Proof.
  intros [Hn Hd Hu Hs Hf Hj] Hx Es Hk H0. set (i' := mk _ _ _ _).
  assert (∀ y, stored vs y → find_digest i' y = find_digest i y) as Hold.
  { intros y [t Hy]%Hs. unfold hash_index.find_digest, i'. rewrite find_seed_app, Hy. done. }
  assert (find_digest i' x = hash x s) as Hnew.
  { unfold hash_index.find_digest, i'. by rewrite find_seed_app, Es, data_eqb_refl, Hx. }
  assert (∀ v, v ∈ vs → find_digest i v ∈ unique_digests_ i) as Hin by (intros v Hv; apply Hu; rewrite Hd; by apply list_elem_of_fmap_2).
  split; cbn [digests_ unique_digests_ i'].
  - apply list.Forall_app. split; [done|by apply list.Forall_singleton].
  - rewrite fmap_app, Hd. cbn. rewrite Hnew. f_equal. apply list_fmap_ext. intros k v Hv%list_elem_of_lookup_2. symmetry. by apply Hold, stored_self.
  - intros d. rewrite elem_of_union, elem_of_singleton, Hu, elem_of_app, list_elem_of_singleton. tauto.
  - intros y. unfold i'. rewrite find_seed_app, stored_app, <- Hs. destruct (find_seed i y); [split; eauto|].
    destruct (data_eqb x y); split; (by eauto || intros [[? ?]|?]; done || by intros [? ?]).
  - intros y [Hy|E]%stored_app; apply elem_of_union; [right; by apply Hf|]. rewrite <- (hash_cong x y 0 E).
    destruct (decide (s = 0)) as [->|Hs0]; [left; by apply elem_of_singleton|right; by apply H0].
  - intros v w [Hv| ->%list_elem_of_singleton]%elem_of_app [Hw| ->%list_elem_of_singleton]%elem_of_app; rewrite ?Hnew, ?Hold by (by apply stored_self).
    + by apply Hj.
    + intros E. destruct Hk. rewrite <- E. by apply Hin.
    + intros E. destruct Hk. rewrite E. by apply Hin.
    + by rewrite data_eqb_refl.
Qed.

(** Appending a value: the index stores it, or all rounds hit digests of other values. *)
Lemma hash_append i vs x pos : hashed i vs → no_nan x = true →
  match append_impl seeded_hash Bytes i x pos with
  | (i', true) => hashed i' (vs ++ [x]) ∧ mask i' = value_index.set_at (mask i) pos
  | (i', false) => i' = i ∧ ¬ stored vs x ∧ ∀ s, s < 32 → hash x s ∈ unique_digests_ i
  end.
Proof.
  intros Hi Hx. unfold append_impl.
  assert (immutable i = false) as ->.
  { unfold immutable. apply andb_false_iff. destruct (digests_ i) as [|d ds] eqn:E; [by right|]. left. apply bool_decide_eq_false. intros Hu.
    assert (d ∈ unique_digests_ i) as Hd by (apply (hashed_unique _ _ Hi); rewrite E; by left). by rewrite Hu in Hd. }
  destruct (find_seed i x) as [s|] eqn:Es.
  - assert (stored vs x) as Hst by (apply (hashed_seeds _ _ Hi); eauto).
    assert (make_digest seeded_hash Bytes i x = (i, Some (find_digest i x))) as ->.
    { unfold make_digest. change max_hash_rounds with (S 31). cbn [make_digest_loop]. pose proof (hashed_first _ _ Hi x Hst) as H0.
      case_decide; [done|]. unfold hash_index.find_digest. by rewrite Es. }
    split; [|done]. by apply hashed_again.
  - pose proof (make_digest_loop_new max_hash_rounds 0 i x Es) as Hl. fold (make_digest seeded_hash Bytes i x) in Hl.
    destruct (make_digest seeded_hash Bytes i x) as [i' [k|]].
    + destruct Hl as (s & -> & Hk & H0 & ->). split; [|done]. cbn [digests_ unique_digests_ seeds_ mask]. by apply hashed_new.
    + destruct Hl as [-> Hs]. split_and!; [done| |intros s Hs'; apply Hs; unfold max_hash_rounds; lia].
      rewrite <- (hashed_seeds _ _ Hi). rewrite Es. by intros [? ?].
Qed.
End digests.

(** ** The index of a column *)

Section rep.
Import hash_index.
Context (seeded_hash : N → data → N) (Bytes : N).
Context (Hhash : ∀ seed x y, data_eqb x y = true → seeded_hash seed x = seeded_hash seed y).
#[local] Instance hash_ops : ValueIndexOps hash_index := hash_index_ops seeded_hash Bytes.
#[local] Abbreviation find_digest := (find_digest seeded_hash Bytes).
Implicit Types (vi : value_index.value_index hash_index) (es : entries) (x v : data).

Definition hash_rep vi es : Prop :=
  base_rep vi es ∧ hashed seeded_hash Bytes (value_index.impl vi) (values es) ∧ mask (value_index.impl vi) = value_index.mask_ vi.

Lemma hash_make : hash_rep (value_index.make make) [].
Proof.
  assert (∀ f, marks ewah_bitmap.nil f []) as Hm by (intros f; split; [exact ewah_inv_nil|by split]).
  split; [split_and!; [apply Hm|apply Hm|done|done]|]. split; [|done]. split; cbn; try done; [set_solver| | |].
  - intros x. split; [by intros [? ?]|]. by intros (v & Hv%elem_of_nil & _).
  - by intros x (v & Hv%elem_of_nil & _).
  - by intros v w Hv%elem_of_nil.
Qed.

Lemma values_extend es pos d : is_none d = false → values (extend es pos d) = values es ++ [d].
Proof.
  intros Hd. unfold values, extend. rewrite !omap_app. cbn. rewrite Hd. f_equal. unfold reps. generalize (N.to_nat (pos - lenN es)) as n.
  intros n. induction n as [|n IH]; cbn; [done|]. exact IH.
Qed.
Lemma values_extend_none es pos : values (extend es pos d_none) = values es.
Proof.
  unfold values, extend. rewrite !omap_app. cbn. rewrite app_nil_r. unfold reps. generalize (N.to_nat (pos - lenN es)) as n. intros n.
  induction n as [|n IH]; cbn; [by rewrite app_nil_r|]. exact IH.
Qed.

Lemma hash_append_at vi es x pos : hash_rep vi es → no_nan x = true → lenN es <= pos → pos + 1 <= max_size →
  match value_index.append_at vi x pos with
  | (vi', value _) => hash_rep vi' (extend es pos x)
  | (vi', error _) => vi' = vi ∧ ¬ stored (values es) x ∧ ∀ s, s < 32 → hash seeded_hash Bytes x s ∈ unique_digests_ (value_index.impl vi)
  end.
Proof.
  intros (Hb & Hh & Hm) Hx Hpos Hmax. pose proof Hb as (_ & _ & Ho & _). unfold value_index.append_at. rewrite Ho, (proj2 (N.ltb_ge _ _)) by done.
  destruct (is_none x) eqn:En.
  - assert (x = d_none) as -> by (by destruct x). split; [by apply base_append_none|]. cbn [value_index.impl value_index.mask_]. by rewrite values_extend_none.
  - pose proof (hash_append seeded_hash Bytes Hhash (value_index.impl vi) (values es) x pos Hh Hx) as Ha.
    change (ValueIndex.append_impl (value_index.impl vi) x pos) with (append_impl seeded_hash Bytes (value_index.impl vi) x pos).
    destruct (append_impl seeded_hash Bytes (value_index.impl vi) x pos) as [i' []]; cbn [negb].
    + destruct Ha as [Hh' Hm']. split; [by apply base_append_value|]. cbn [value_index.impl value_index.mask_]. rewrite values_extend by done. split; [done|].
      by rewrite Hm', Hm.
    + destruct Ha as [-> Ha]. split; [by destruct vi|done].
Qed.

(** The predicate that decides whether a value is part of the result. *)
Definition hash_matches i (op : relational_operator) x v : bool :=
  let eq y := find_digest i y =? find_digest i v in
  match op, x with
  | not_equal, _ => negb (eq x)
  | in_, d_list xs => existsb eq xs
  | not_in, d_list xs => negb (existsb eq xs)
  | _, _ => eq x
  end.

(** The lookups that the index answers by scanning its digests. *)
Definition scans (op : relational_operator) x : Prop :=
  is_none x = false ∧
  ((op = equal ∨ op = not_equal) ∧ (∀ s, x ≠ d_pattern s) ∨ (op = in_ ∨ op = not_in) ∧ ∃ xs, x = d_list xs).

Lemma hash_lookup vi es op x : hash_rep vi es → scans op x →
  ∃ r, value_index.lookup vi op x = (vi, value r) ∧ bm_wf r ∧
    bm_list r = entry_bit (hash_matches (value_index.impl vi) op x) (op ==o not_equal) <$> es.
Proof.
  intros (Hb & Hh & Hm) [Hx Hop]. pose proof Hb as (Hmask & _ & _ & Hmax). set (i := value_index.impl vi) in *.
  assert (∃ p r, lookup_impl seeded_hash Bytes i op x = value (scan i p) ∧ r = scan i p ∧ ∀ v, p (find_digest i v) = hash_matches i op x v) as (p & r & Hl & -> & Hp).
  { destruct Hop as [[[-> | ->] Hpat]|[[-> | ->] [xs ->]]]; (eexists _, _; split; [|split; [reflexivity|]]).
    1: by destruct x; try done; destruct (Hpat x). 1: done.
    1: by destruct x; try done; destruct (Hpat x). 1: done.
    1: reflexivity. 1: intros v; cbn; by rewrite existsb_fmap. 1: reflexivity. intros v; cbn; by rewrite existsb_fmap. }
  rewrite <- Hm in Hmask. pose proof (scan_right (find_digest i) p i es Hmask Hmax (hashed_digests _ _ _ _ Hh)) as Hr.
  assert (right_at_values (hash_matches i op x) es (scan i p)) as Hr'.
  { destruct Hr as (H1 & H2 & H3). split_and!; [done|done|]. intros j v Hj. rewrite (H3 j v Hj). apply Hp. }
  unfold value_index.lookup. cbn [value_index.lookup_fuel]. rewrite Hx.
  change (ValueIndex.lookup_impl ?f ?o (value_index.impl vi) op x) with (i, lookup_impl seeded_hash Bytes i op x). rewrite Hl.
  destruct (finish_base (value_index.mk i (value_index.mask_ vi) (value_index.none_ vi)) es op _ (scan i p) Hb Hr') as [Hw Hlist].
  eexists. split; [by destruct vi|]. done.
Qed.

(** Values that are stored, or whose digest is not taken, are told apart exactly; no value is missed. *)
Definition distinct i es x : Prop := stored (values es) x ∨ hash seeded_hash Bytes x 0 ∉ unique_digests_ i.

Lemma hash_equal i es x v : hashed seeded_hash Bytes i (values es) → v ∈ values es →
  (data_eqb v x = true → (find_digest i x =? find_digest i v) = true) ∧
  (distinct i es x → (find_digest i x =? find_digest i v) = data_eqb v x).
Proof.
  intros Hh Hv. assert (stored (values es) x → (find_digest i x =? find_digest i v) = data_eqb v x) as Hst by (by apply (stored_digest _ _ Hhash)).
  split; [intros E; rewrite Hst; [done|by exists v]|]. intros [?|Hd]; [by apply Hst|].
  destruct (data_eqb v x) eqn:E; [rewrite Hst; [done|by exists v]|]. apply N.eqb_neq. intros Ed. destruct (find_seed i x) as [s|] eqn:Es.
  - assert (stored (values es) x) as Hs by (apply (hashed_seeds _ _ _ _ Hh); eauto). specialize (Hst Hs). by rewrite Ed, N.eqb_refl in Hst.
  - apply Hd. unfold hash_index.find_digest at 1 in Ed. rewrite Es in Ed. rewrite Ed. apply (hashed_unique _ _ _ _ Hh).
    rewrite (hashed_digests _ _ _ _ Hh). by apply list_elem_of_fmap_2.
Qed.
End rep.
