(* ===== verification/ListIndex.v ===== *)
(** The index of lists: [libvast/src/index/list_index.cpp].

    Every position within a list has an index of its own for the elements, up to a number of
    elements that the constructor sets. *)

From S2P Require Import Prelude Word Bits BitmapConcept EwahBitmap EwahRange BitmapAlgorithms.
From S2P Require Import Bitmap Operator Base Coder MultiLevelCoder BitmapIndex Data ValueIndex ValueIndexSpec StringIndex.

Module list_index.

Notation size_bitmap_index :=
  (bitmap_index.bitmap_index (multi_level_coder.multi_level_coder (vector_coder.vector_coder ids))).

(** An element is null if there is no index for the type of the elements. *)
Record list_index (E : Type) := mk {
  elements_ : list (option (value_index.value_index E));
  size_ : size_bitmap_index
}.
Arguments mk {E}.
Arguments elements_ {E}.
Arguments size_ {E}.

Section list_index.
(** [factory<value_index>::make] for the type of the elements. *)
Context {E : Type} `{ValueIndexOps E} (max_size_ : N) (make_element : option (value_index.value_index E)).
Implicit Types (idx : list_index E) (elements : list (option (value_index.value_index E))).

Definition make : list_index E :=
  mk [] (bitmap_index.mk (multi_level_coder.make range_ops (base.uniform 10 (string_index.num_digits max_size_)))).

(** The loop of [append_impl] over [n] elements. *)
Fixpoint append_elements (n : nat) (pos : N) elements (xs : list data) : list (option (value_index.value_index E)) :=
  match n, elements with
  | S n, Some e :: elements =>
      match xs with
      | x :: xs => Some (value_index.append_at e x pos).1 :: append_elements n pos elements xs
      | [] => Some e :: elements
      end
  | S n, None :: elements => None :: append_elements n pos elements xs
  | _, _ => elements
  end.

Definition append_impl idx (x : data) (pos : N) : list_index E * bool :=
  match x with
  | d_list v =>
      let seq_size := N.min (lenN v) max_size_ in
      let elements :=
        if lenN (elements_ idx) <? seq_size
        then elements_ idx ++ reps (seq_size - lenN (elements_ idx)) make_element else elements_ idx in
      let sizes := bitmap_index.skip (size_ idx) (pos - bitmap_index.size (size_ idx)) in
      (mk (append_elements (N.to_nat seq_size) pos elements v)
         (bitmap_index.append bitmap_index.unsigned_policy sizes (string_index.to_u32 seq_size)), true)
  | _ => (idx, false)
  end.

(** The loop of [lookup_impl]; looking up may change the elements. *)
Fixpoint lookup_elements elements (x : data) (result : ids) : list (option (value_index.value_index E)) * expected ids :=
  match elements with
  | [] => ([], value result)
  | None :: elements => let r := lookup_elements elements x result in (None :: r.1, r.2)
  | Some e :: elements =>
      let '(e, mbm) := value_index.lookup e equal x in
      match mbm with
      | value bm => let r := lookup_elements elements x (bitmap_algorithms.binary_or result bm) in (Some e :: r.1, r.2)
      | error err => (Some e :: elements, error err)
      end
  end.

Definition lookup_impl idx (op : relational_operator) (x : data) : list_index E * expected ids :=
  if negb ((op ==o ni) || (op ==o not_ni)) then (idx, error unsupported_operator)
  else if bool_decide (lenN (elements_ idx) = 0) then (idx, value (bitmap.nil))
  else
    let r := lookup_elements (elements_ idx) x (bitmap.nil) in
    (mk r.1 (size_ idx),
     match r.2 with
     | value result => value (if op ==o not_ni then bitmap.flip result else result)
     | error err => error err
     end).
End list_index.
End list_index.

#[export] Instance list_index_ops {E} `{ValueIndexOps E} max_size_ make_element : ValueIndexOps (list_index.list_index E) := {
  append_impl := list_index.append_impl max_size_ make_element;
  lookup_impl := λ _ _ i op x, list_index.lookup_impl i op x
}.

(** ** The columns of the elements *)

Section columns.
Import list_index.
Context {E : Type} `{ValueIndexImpl E} (max_size_ : N) (e0 : value_index.value_index E) (He0 : vi_rep e0 []).
#[local] Abbreviation elements_t := (list (option (value_index.value_index E))).
Implicit Types (rows : list (option (list data))) (k j : nat).

(** The elements of a row that are stored. *)
Definition prefix (xs : list data) : list data := take (N.to_nat max_size_) xs.
Definition column k rows : entries := (λ o, xs ← o; prefix xs !! k) <$> rows.

(** An index of elements has the entries of its column, but for the gaps at its end. *)
Definition element_rep e k rows : Prop := ∃ es n, vi_rep e es ∧ column k rows = es ++ reps n None.

(** The indexes of the elements from position [k] on. *)
Fixpoint elements_rep (elements : elements_t) k rows : Prop :=
  match elements with
  | [] => Forall (λ o, ∀ xs, o = Some xs → (length (prefix xs) <= k)%nat) rows
  | o :: elements => (∃ e, o = Some e ∧ element_rep e k rows) ∧ elements_rep elements (S k) rows
  end.

Definition element_ok (x : data) : Prop := x = d_none ∨ (is_none x = false ∧ impl_accepts x).

Lemma column_extend k rows n xs : column k (rows ++ reps n None ++ [Some xs]) = column k rows ++ reps n None ++ [prefix xs !! k].
Proof. unfold column. rewrite !fmap_app, fmap_reps. done. Qed.

Lemma element_append e k rows pos xs x : element_rep e k rows → lenN rows <= pos → pos + 1 <= max_size → prefix xs !! k = Some x → element_ok x →
  element_rep (value_index.append_at e x pos).1 k (rows ++ reps (pos - lenN rows) None ++ [Some xs]).
Proof.
  intros (es & n & Hv & Hc) Hpos Hmax Hx Hok.
  assert (lenN rows = lenN es + n) as Hlen.
  { apply (f_equal lenN) in Hc. unfold column in Hc. rewrite lenN_fmap in Hc. autorewrite with lendb in Hc. done. }
  assert (column k (rows ++ reps (pos - lenN rows) None ++ [Some xs]) = extend es pos x) as E'.
  { rewrite column_extend, Hc, Hx. unfold extend. rewrite <- app_assoc. f_equal. rewrite app_assoc, <- reps_add. do 2 f_equal. lia. }
  destruct Hok as [->|[Hn Ha]].
  - destruct (vi_append_none e es pos Hv) as (e' & -> & Hv'); [lia|done|]. exists (extend es pos d_none), 0. split; [done|]. by rewrite reps_0, app_nil_r.
  - destruct (vi_append_value e es x pos Hv Hn Ha) as (e' & -> & Hv'); [lia|done|]. exists (extend es pos x), 0. split; [done|]. by rewrite reps_0, app_nil_r.
Qed.

(** A row that has no element at the position. *)
Lemma element_skip e k rows n xs : element_rep e k rows → prefix xs !! k = None → element_rep e k (rows ++ reps n None ++ [Some xs]).
Proof.
  intros (es & m & Hv & Hc) Hx. exists es, (m + n + 1). split; [done|]. rewrite column_extend, Hc, Hx, !reps_add, <- !app_assoc. done.
Qed.

Lemma elements_skip elements k rows n xs : elements_rep elements k rows → (length (prefix xs) <= k)%nat →
  elements_rep elements k (rows ++ reps n None ++ [Some xs]).
Proof.
  revert k. induction elements as [|o elements IH]; intros k Hr Hx; cbn in *.
  - apply list.Forall_app. split; [done|]. apply list.Forall_app. split; [|apply list.Forall_singleton; by intros ? [= <-]].
    apply list.Forall_forall. intros o Ho ys ->. unfold reps in Ho. by apply elem_of_replicate in Ho as [? _].
  - destruct Hr as [(e & -> & He) Hr]. split; [exists e; split; [done|]|apply IH; [done|lia]]. apply element_skip; [done|]. by apply lookup_ge_None_2.
Qed.

Lemma append_elements_rep elements k rows pos xs : elements_rep elements k rows → lenN rows <= pos → pos + 1 <= max_size →
  Forall element_ok (prefix xs) → (length (prefix xs) <= k + length elements)%nat →
  elements_rep (append_elements (length (prefix xs) - k) pos elements (drop k xs)) k (rows ++ reps (pos - lenN rows) None ++ [Some xs]).
Proof.
  intros Hr Hpos Hmax Hok. revert k Hr. induction elements as [|o elements IH]; intros k Hr Hlen.
  { cbn in Hlen. replace (length (prefix xs) - k)%nat with 0%nat by lia. apply (elements_skip []); [done|lia]. }
  destruct Hr as [(e & -> & He) Hr]. destruct (length (prefix xs) - k)%nat as [|n] eqn:En.
  { change (append_elements 0 pos (Some e :: elements) (drop k xs)) with (Some e :: elements). apply (elements_skip (Some e :: elements)); [|lia]. split; [by exists e|done]. }
  destruct (lookup_lt_is_Some_2 (prefix xs) k ltac:(lia)) as [x Hx].
  assert (xs !! k = Some x) as Hxk by (unfold prefix in Hx; by apply lookup_take_Some in Hx as [? _]).
  rewrite (drop_S _ _ _ Hxk). cbn [append_elements elements_rep]. split.
  - eexists. split; [done|]. apply element_append; try done. rewrite list.Forall_lookup in Hok. by eapply Hok.
  - replace n with (length (prefix xs) - S k)%nat by lia. apply IH; [done|cbn in Hlen; lia].
Qed.

(** New indexes for lists that are longer than all before. *)
Lemma elements_grow elements k rows n : elements_rep elements k rows → elements_rep (elements ++ reps n (Some e0)) k rows.
Proof.
  revert k. induction elements as [|o elements IH]; intros k Hr; [|destruct Hr as [? Hr]; split; [done|by apply IH]].
  cbn [app]. unfold reps. revert k Hr. induction (N.to_nat n) as [|m IHm]; intros k Hr; [done|]. cbn. cbn in Hr. split.
  - exists e0. split; [done|]. exists [], (lenN rows). split; [done|]. cbn. unfold column. clear IHm. induction Hr as [|o rows Ho _ IHr]; [done|].
    rewrite fmap_cons, IHr, lenN_cons. rewrite reps_add. change (reps 1 None) with [@None data]. cbn [app]. f_equal.
    destruct o as [xs|]; [|done]. cbn. apply lookup_ge_None_2. by apply Ho.
  - apply IHm. cbn. eapply list.Forall_impl; [exact Hr|]. intros o Ho xs Hxs. specialize (Ho xs Hxs). lia.
Qed.

Lemma length_prefix xs : length (prefix xs) = N.to_nat (N.min (lenN xs) max_size_).
Proof. unfold prefix, lenN. rewrite length_take. lia. Qed.

Lemma list_append idx rows pos xs : elements_rep (elements_ idx) 0 rows → lenN rows <= pos → pos + 1 <= max_size → Forall element_ok (prefix xs) →
  ∃ idx', append_impl max_size_ (Some e0) idx (d_list xs) pos = (idx', true) ∧
    elements_rep (elements_ idx') 0 (rows ++ reps (pos - lenN rows) None ++ [Some xs]).
Proof.
  intros Hr Hpos Hmax Hok. cbn [append_impl]. eexists. split; [done|]. cbn [elements_].
  set (elements := if lenN (elements_ idx) <? N.min (lenN xs) max_size_ then _ else _).
  assert (elements_rep elements 0 rows ∧ (length (prefix xs) <= length elements)%nat) as [He Hl].
  { subst elements. rewrite length_prefix. destruct (N.ltb_spec (lenN (elements_ idx)) (N.min (lenN xs) max_size_)).
    - split; [by apply elements_grow|]. rewrite length_app, length_reps. unfold lenN in *. lia.
    - split; [done|]. unfold lenN in *. lia. }
  pose proof (append_elements_rep elements 0 rows pos xs He Hpos Hmax Hok) as Ha.
  rewrite Nat.sub_0_r, length_prefix in Ha. apply Ha. rewrite <- length_prefix. lia.
Qed.

Lemma elements_gap elements k rows n : elements_rep elements k rows → elements_rep elements k (rows ++ reps n None).
Proof.
  revert k. induction elements as [|o elements IH]; intros k Hr; cbn in *.
  - apply list.Forall_app. split; [done|]. apply list.Forall_forall. intros o Ho ys ->. unfold reps in Ho. by apply elem_of_replicate in Ho as [? _].
  - destruct Hr as [(e & -> & es & m & Hv & Hc) Hr]. split; [exists e; split; [done|]|by apply IH]. exists es, (m + n). split; [done|].
    unfold column in *. by rewrite fmap_app, fmap_reps, Hc, reps_add, <- app_assoc.
Qed.

(** Whether one of some elements matches. *)
Definition any_match (x : data) (vs : list data) : bool := existsb (λ v, negb (is_none v) && impl_matches equal v x) vs.
Definition row_matches (x : data) k (o : option (list data)) : bool := match o with Some xs => any_match x (drop k (prefix xs)) | None => false end.

Lemma any_match_step x xs k : any_match x (drop k (prefix xs)) =
  match prefix xs !! k with Some v => negb (is_none v) && impl_matches equal v x | None => false end || any_match x (drop (S k) (prefix xs)).
Proof.
  destruct (prefix xs !! k) as [v|] eqn:Ek; [by rewrite (drop_S _ _ _ Ek)|]. apply lookup_ge_None_1 in Ek. by rewrite !drop_ge by lia.
Qed.

Lemma element_lookup e k rows x : element_rep e k rows → is_none x = false → impl_supports equal x →
  ∃ e' r, value_index.lookup e equal x = (e', value r) ∧ element_rep e' k rows ∧ bm_wf r ∧ lenN (bm_list r) <= lenN rows ∧
    (∀ o, list.last (column k rows) = Some (Some o) → lenN (bm_list r) = lenN rows) ∧
    ∀ j, bit_at (bm_list r) j = match column k rows !! j with Some (Some v) => negb (is_none v) && impl_matches equal v x | _ => false end.
Proof.
  intros (es & n & Hv & Hc) Hx Hs. destruct (vi_lookup_value e es equal x Hv Hx Hs) as (e' & r & E' & Hv' & Hw & Hl).
  assert (lenN rows = lenN es + n) as Hlen.
  { apply (f_equal lenN) in Hc. unfold column in Hc. rewrite lenN_fmap in Hc. autorewrite with lendb in Hc. done. }
  exists e', r. split_and!; [done|by exists es, n|done|rewrite Hl, lenN_fmap; lia| |].
  - intros o Ho. rewrite Hl, lenN_fmap. rewrite Hc in Ho. destruct (N.eq_dec n 0) as [->|Hn]; [lia|]. exfalso.
    unfold reps in Ho. destruct (N.to_nat n) as [|m] eqn:En; [lia|]. rewrite <- (Nat.add_1_r m), replicate_add, app_assoc in Ho. cbn in Ho. by rewrite last_snoc in Ho.
  - intros j. rewrite Hl, bit_at_fmap, Hc. destruct (Nat.lt_ge_cases j (length es)).
    + rewrite lookup_app_l by done. destruct (es !! j) as [[v|]|]; cbn; [|done..]. by destruct (is_none v).
    + rewrite (lookup_ge_None_2 es) by lia. rewrite lookup_app_r, lookup_reps by lia. by case_decide.
Qed.

Lemma lookup_elements_spec elements k rows x (result : ids) : elements_rep elements k rows → is_none x = false → impl_supports equal x →
  lenN rows <= max_size → bm_wf result → lenN (bm_list result) <= lenN rows →
  ∃ elements' r, lookup_elements elements x result = (elements', value r) ∧ elements_rep elements' k rows ∧ bm_wf r ∧
    lenN (bm_list result) <= lenN (bm_list r) <= lenN rows ∧
    (∀ o, elements ≠ [] → list.last (column k rows) = Some (Some o) → lenN (bm_list r) = lenN rows) ∧
    ∀ j, bit_at (bm_list r) j = bit_at (bm_list result) j || match rows !! j with Some o => row_matches x k o | None => false end.
Proof.
  revert k result. induction elements as [|o elements IH]; intros k result Hr Hx Hs Hmax Hw Hlen; cbn [lookup_elements].
  { exists [], result. split_and!; try done. intros j. destruct (rows !! j) as [[xs|]|] eqn:Ej; cbn; rewrite ?orb_false_r; try done.
    cbn in Hr. rewrite list.Forall_lookup in Hr. specialize (Hr j _ Ej xs eq_refl). rewrite drop_ge by done. cbn. by rewrite orb_false_r. }
  destruct Hr as [(e & -> & He) Hr]. destruct (element_lookup e k rows x He Hx Hs) as (e' & bm & -> & He' & Hwb & Hlb & Hlast & Hbits).
  destruct (binary_or_spec (R:=ids) result bm Hw Hwb) as [Hw' El].
  assert (lenN (bm_list (bitmap_algorithms.binary_or result bm)) = N.max (lenN (bm_list result)) (lenN (bm_list bm))) as Hl' by (rewrite El; apply lenN_pad_eval).
  destruct (IH (S k) _ Hr Hx Hs Hmax Hw') as (elements' & r & E' & Hr' & Hwr & Hlr & _ & Hbr); [lia|].
  rewrite E'. exists (Some e' :: elements'), r. split_and!; try done; [split; [by exists e'|done]|lia|lia| |].
  - intros o _ Ho. specialize (Hlast o Ho). lia.
  - intros j. rewrite Hbr, El, bit_at_pad_eval, Hbits by done. rewrite <- orb_assoc. f_equal. unfold column. rewrite list_lookup_fmap.
    destruct (rows !! j) as [[xs|]|]; cbn; [|done..]. rewrite (any_match_step x xs k). by destruct (prefix xs !! k).
Qed.
End columns.

(** ** The index of a column of lists *)

Section rep.
Import list_index.
Context {E : Type} `{ValueIndexImpl E} (max_size_ : N) (e0 : value_index.value_index E) (He0 : vi_rep e0 []).
Existing Instance list_index_ops.
Implicit Types (vi : value_index.value_index (list_index E)) (es : entries).

Definition list_row (o : option data) : option (list data) := match o with Some (d_list xs) => Some xs | _ => None end.
Definition list_rep vi es : Prop := base_rep vi es ∧ elements_rep max_size_ (elements_ (value_index.impl vi)) 0 (list_row <$> es).
(** The cells of a column of lists: nil or a list of nils and of values that an element stores. *)
Definition list_ok (x : data) : Prop := x = d_none ∨ ∃ xs, x = d_list xs ∧ Forall element_ok (prefix max_size_ xs).

Lemma list_make : list_rep (value_index.make (make max_size_)) [].
Proof.
  split; [|constructor]. assert (∀ f, marks ewah_bitmap.nil f []) as Hm by (intros f; split; [exact ewah_inv_nil|by split]). split_and!; [apply Hm|apply Hm|done|done].
Qed.

#[local] Instance list_ops : ValueIndexOps (list_index E) := list_index_ops max_size_ (Some e0).

Lemma list_append_at vi es x pos : list_rep vi es → list_ok x → lenN es <= pos → pos + 1 <= max_size →
  ∃ vi', value_index.append_at vi x pos = (vi', value tt) ∧ list_rep vi' (extend es pos x).
Proof.
  intros [Hb Hr] Hx Hpos Hmax. pose proof Hb as (_ & _ & Ho & _). unfold value_index.append_at. rewrite Ho, (proj2 (N.ltb_ge _ _)) by done.
  destruct Hx as [->|(xs & -> & Hxs)]; cbn [is_none].
  - eexists. split; [done|]. split; [by apply base_append_none|]. cbn [value_index.impl]. unfold extend. rewrite !fmap_app, fmap_reps. cbn.
    rewrite app_assoc. apply (elements_gap _ _ _ _ 1). by apply elements_gap.
  - destruct (list_append max_size_ e0 He0 (value_index.impl vi) (list_row <$> es) pos xs Hr) as (i' & Hi & Hr'); [by rewrite lenN_fmap|done|done|].
    change (ValueIndex.append_impl (value_index.impl vi) (d_list xs) pos) with (append_impl max_size_ (Some e0) (value_index.impl vi) (d_list xs) pos).
    rewrite Hi. cbn [negb]. eexists. split; [done|]. split; [by apply base_append_value|]. cbn [value_index.impl]. unfold extend.
    rewrite lenN_fmap in Hr'. rewrite !fmap_app, fmap_reps. done.
Qed.

(** Whether one of the elements of a list that are stored matches. *)
Definition list_matches (x v : data) : bool := match v with d_list xs => any_match x (prefix max_size_ xs) | _ => false end.

(** The last entry is a list with an element that is stored. *)
Definition ends_with_element es : Prop := ∃ es' xs x, es = es' ++ [Some (d_list xs)] ∧ head (prefix max_size_ xs) = Some x.

Lemma lookup_impl_right idx es op x : elements_rep max_size_ (elements_ idx) 0 (list_row <$> es) → lenN es <= max_size → is_none x = false → impl_supports equal x →
  op = ni ∨ (op = not_ni ∧ ends_with_element es) →
  ∃ idx' r, list_index.lookup_impl idx op x = (idx', value r) ∧ elements_rep max_size_ (elements_ idx') 0 (list_row <$> es) ∧
    right_at_values (λ v, if op ==o not_ni then negb (list_matches x v) else list_matches x v) es r.
Proof.
  intros Hr Hmax Hx Hs Hop. unfold list_index.lookup_impl. assert (negb ((op ==o ni) || (op ==o not_ni)) = false) as -> by (by destruct Hop as [->|[-> _]]).
  assert (∀ j v, vals es !! j = Some (Some v) → (list_row <$> es) !! j = Some (list_row (Some v))) as Hrow.
  { intros j v Hj. rewrite lookup_vals in Hj. rewrite list_lookup_fmap. destruct (es !! j) as [[w|]|]; cbn in *; try done. destruct (is_none w); [done|]. by injection Hj as ->. }
  assert (ends_with_element es → elements_ idx ≠ [] ∧ ∃ o, list.last (column max_size_ 0 (list_row <$> es)) = Some (Some o)) as Hends.
  { intros (es' & xs & y & -> & Hy). rewrite fmap_app in Hr |- *. cbn [fmap list_fmap list_row] in *. split.
    - intros E0. rewrite E0 in Hr. cbn in Hr. apply list.Forall_app in Hr as [_ Hr]. apply list.Forall_cons in Hr as [Hr _]. specialize (Hr xs eq_refl). destruct (prefix max_size_ xs); [done|cbn in Hr; lia].
    - exists y. unfold column. rewrite fmap_app. cbn. rewrite last_snoc. destruct (prefix max_size_ xs); [done|]. by injection Hy as ->. }
  case_bool_decide as E0.
  { exists idx, bitmap.nil. split; [done|]. split; [done|]. unfold lenN in E0. destruct (elements_ idx) eqn:E1; [|cbn in E0; lia].
    destruct Hop as [->|[-> He]]; [|by destruct (Hends He)]. split_and!; [exact ewah_inv_nil|apply N.le_0_l|]. intros j v Hj. specialize (Hrow j v Hj).
    cbn in Hr. rewrite list.Forall_lookup in Hr. specialize (Hr j _ Hrow). change (bit_at (bm_list bitmap.nil) j) with (bit_at [] j). unfold bit_at. rewrite lookup_nil. cbn.
    destruct v; try done. cbn in Hr. specialize (Hr _ eq_refl). unfold list_matches. destruct (prefix max_size_ xs); [done|cbn in Hr; lia]. }
  destruct (lookup_elements_spec max_size_ (elements_ idx) 0 (list_row <$> es) x bitmap.nil Hr Hx Hs) as (el & r & -> & Hr' & Hw & Hl & Hlast & Hbits);
    [by rewrite lenN_fmap|exact ewah_inv_nil|apply N.le_0_l|]. rewrite lenN_fmap in Hl, Hlast.
  assert (∀ j v, vals es !! j = Some (Some v) → bit_at (bm_list r) j = list_matches x v) as Hb.
  { intros j v Hj. rewrite Hbits, (Hrow j v Hj). change (bit_at (bm_list bitmap.nil) j) with (bit_at [] j). unfold bit_at at 1. rewrite lookup_nil. cbn. by destruct v. }
  eexists _, _. split; [done|]. split; [done|]. cbn [snd]. destruct Hop as [->|[-> He]].
  - change (ni ==o not_ni) with false. split_and!; [done|lia|]. intros j v Hj. by apply Hb.
  - change (not_ni ==o not_ni) with true. cbv iota. destruct (Hends He) as [Hne [o Ho]]. specialize (Hlast o Hne Ho). destruct (bm_flip_spec r Hw) as [Hw' Hf].
    split_and!; [done| |].
    + change (bm_list (bitmap.flip r)) with (bm_list (bm_flip r)). rewrite Hf, lenN_fmap. lia.
    + intros j v Hj. change (bm_list (bitmap.flip r)) with (bm_list (bm_flip r)). rewrite Hf, <- (Hb j v Hj). unfold bit_at. rewrite list_lookup_fmap.
      apply lookup_lt_Some in Hj. unfold vals in Hj. rewrite length_fmap in Hj. destruct (lookup_lt_is_Some_2 (bm_list r) j) as [b ->]; [unfold lenN in Hlast; lia|done].
Qed.

Lemma list_lookup vi es op x : list_rep vi es → is_none x = false → impl_supports equal x → op = ni ∨ (op = not_ni ∧ ends_with_element es) →
  ∃ vi' r, value_index.lookup vi op x = (vi', value r) ∧ list_rep vi' es ∧ bm_wf r ∧
    bm_list r = entry_bit (λ v, if op ==o not_ni then negb (list_matches x v) else list_matches x v) false <$> es.
Proof.
  intros [Hb Hr] Hx Hs Hop. pose proof Hb as (_ & _ & _ & Hmax).
  destruct (lookup_impl_right (value_index.impl vi) es op x Hr Hmax Hx Hs Hop) as (i' & r & Hi & Hr' & Hright).
  unfold value_index.lookup. cbn [value_index.lookup_fuel]. rewrite Hx.
  change (ValueIndex.lookup_impl ?f ?o (value_index.impl vi) op x) with (list_index.lookup_impl (value_index.impl vi) op x). rewrite Hi.
  destruct (finish_base (value_index.mk (value_index.impl vi) (value_index.mask_ vi) (value_index.none_ vi)) es op _ r Hb Hright) as [Hw Hl].
  eexists _, _. split; [done|]. split; [by split|]. split; [done|]. rewrite Hl. by destruct Hop as [->|[-> _]].
Qed.
End rep.
