(* ===== verification/Evaluator.v ===== *)
(** The evaluator of a partition: [libvast/src/system/evaluator.cpp].

    An evaluator asks the indexers of the predicates of an expression and combines their answers,
    which arrive in any order. A handler is a function on the state of the actor; the requests that
    are under way are a list, and a step takes the answer to any of them. Dereferencing a position
    that has no entry is [None]. *)

From stdpp Require Import gmap.
From S2P Require Import Prelude Word Bits BitmapConcept BitmapAlgorithms Operator Data Types Ip DataOps Expression ExpressionSpec.

(** [curried_predicate] and [curried] *)
Record curried_predicate := mk_curried { curried_op : relational_operator; curried_rhs : data }.
Definition curried (p : predicate) : option curried_predicate :=
  match rhs p with o_data d => Some (mk_curried (op p) d) | _ => None end.

Section evaluator.
Context {ids : Type} `{BitmapOps ids}.

(** The actor handle of an indexer, by what it answers. *)
Definition indexer : Type := curried_predicate → expected ids.
Record evaluation_triple := mk_triple {
  position : list nat;
  curried_pred : curried_predicate;
  handle : option indexer
}.

Abbreviation predicate_hits_map := (gmap (list nat) (N * ids)).

(** ** [ids_evaluator] *)

(** The operator for a connective; [result] is [None] before the first operand. *)
Definition connective (op : ids → ids → ids) (visit : nat → expression → ids) : nat → option ids → list expression → ids :=
  fix go index result xs :=
    match xs with
    | [] => default bm_nil result
    | x :: xs =>
        let y := visit index x in
        go (S index) (Some match result with None => y | Some r => op r y end) xs
    end.

Section ids_evaluator.
Context (hits_ : predicate_hits_map).

Fixpoint ids_evaluator (position_ : list nat) (e : expression) : ids :=
  match e with
  | e_none => bm_nil
  | conjunction xs =>
      connective bitmap_algorithms.binary_and (λ index x, ids_evaluator (position_ ++ [index]) x) 0%nat None xs
  | disjunction xs =>
      connective bitmap_algorithms.binary_or (λ index x, ids_evaluator (position_ ++ [index]) x) 0%nat None xs
  | negation x => bm_flip (ids_evaluator (position_ ++ [0%nat]) x)
  | e_predicate _ => match hits_ !! position_ with Some x => x.2 | None => bm_nil end
  end.
End ids_evaluator.

(** ** [evaluator_state] *)

Record evaluator_state := mk_state {
  pending_responses : N;
  predicate_hits : predicate_hits_map;
  hits : ids;
  ids_to_use_for_no_indexer : ids;
  expr : expression;
  (** What the promise was fulfilled with. *)
  promise : option ids
}.

Definition set_predicate_hits (st : evaluator_state) (m : predicate_hits_map) : evaluator_state :=
  mk_state (pending_responses st) m (hits st) (ids_to_use_for_no_indexer st) (expr st) (promise st).

(** [promise.deliver], which does nothing for a promise that is fulfilled. *)
Definition deliver (st : evaluator_state) (x : ids) : evaluator_state :=
  mk_state (pending_responses st) (predicate_hits st) (hits st) (ids_to_use_for_no_indexer st) (expr st)
    (match promise st with Some y => Some y | None => Some x end).

Definition evaluate (st : evaluator_state) : evaluator_state :=
  let expr_hits := ids_evaluator (predicate_hits st) [0%nat] (expr st) in
  mk_state (pending_responses st) (predicate_hits st) (bitmap_algorithms.binary_or (hits st) expr_hits)
    (ids_to_use_for_no_indexer st) (expr st) (promise st).

Definition decrement_pending (st : evaluator_state) : evaluator_state :=
  let pending := pending_responses st -u 1 in
  let st := mk_state pending (predicate_hits st) (hits st) (ids_to_use_for_no_indexer st) (expr st) (promise st) in
  if pending =? 0 then deliver st (hits st) else st.

(** What both handlers of an answer do with the hits at its position. *)
Definition handle_hits (st : evaluator_state) (pos : list nat) (accumulate : ids → ids) : option evaluator_state :=
  entry ← predicate_hits st !! pos;
  let missing := entry.1 -u 1 in
  let st := set_predicate_hits st (<[pos := (missing, accumulate entry.2)]> (predicate_hits st)) in
  Some (decrement_pending (if missing =? 0 then evaluate st else st)).
Definition handle_result (st : evaluator_state) (pos : list nat) (result : ids) : option evaluator_state :=
  handle_hits st pos (λ accumulated_hits, bitmap_algorithms.binary_or accumulated_hits result).
Definition handle_missing_result (st : evaluator_state) (pos : list nat) : option evaluator_state :=
  handle_hits st pos (λ accumulated_hits, accumulated_hits).
Definition handle_no_indexer (st : evaluator_state) (pos : list nat) : option evaluator_state :=
  handle_result st pos (ids_to_use_for_no_indexer st).

(** ** The handler of [atom::run] and the answers *)

(** [++predicate_hits[pos].first] *)
Definition expect (st : evaluator_state) (pos : list nat) : evaluator_state :=
  let entry := default (0, bm_nil) (predicate_hits st !! pos) in
  set_predicate_hits st (<[pos := (entry.1 +u 1, entry.2)]> (predicate_hits st)).

(** The loop over the triples; it returns the requests that are sent. *)
Fixpoint run_loop (st : evaluator_state) (eval : list evaluation_triple) : option (evaluator_state * list evaluation_triple) :=
  match eval with
  | [] => Some (st, [])
  | t :: eval =>
      let st := expect st (position t) in
      match handle t with
      | None => st ← handle_no_indexer st (position t); run_loop st eval
      | Some _ => r ← run_loop st eval; Some (r.1, t :: r.2)
      end
  end.

Definition initial (e : expression) (no_indexer : ids) : evaluator_state := mk_state 0 ∅ bm_nil no_indexer e None.

Definition run (st : evaluator_state) (eval : list evaluation_triple) : option (evaluator_state * list evaluation_triple) :=
  let st := mk_state (pending_responses st +u lenN eval) (predicate_hits st) (hits st) (ids_to_use_for_no_indexer st)
    (expr st) (promise st) in
  r ← run_loop st eval;
  Some (if pending_responses r.1 =? 0 then deliver r.1 bm_nil else r.1, r.2).

(** The answer to a request, handled by one of the two continuations. *)
Definition respond (st : evaluator_state) (pos : list nat) (answer : expected ids) : option evaluator_state :=
  match answer with
  | value r => handle_result st pos r
  | error _ => handle_missing_result st pos
  end.

(** What the indexer of a triple answers; a triple without an indexer stands for all IDs. *)
Definition answer (no_indexer : ids) (t : evaluation_triple) : expected ids :=
  match handle t with None => value no_indexer | Some ix => ix (curried_pred t) end.

(** One of the requests under way is answered. *)
Inductive step (no_indexer : ids) : evaluator_state * list evaluation_triple → evaluator_state * list evaluation_triple → Prop :=
| step_answer st st' l t r :
    respond st (position t) (answer no_indexer t) = Some st' →
    step no_indexer (st, l ++ t :: r) (st', l ++ r).
End evaluator.
Arguments evaluation_triple : clear implicits.
Arguments evaluator_state : clear implicits.
Arguments indexer : clear implicits.

(** ** What the evaluator computes *)

(** The operands of a connective with their indexes, combined by [op]. *)
Definition fold_index (op : bool → bool → bool) (unit : bool) (f : nat → expression → bool) : nat → list expression → bool :=
  fix go i xs := match xs with [] => unit | x :: xs => op (f i x) (go (S i) xs) end.

(** The value of an expression, given the values at the positions of its predicates. *)
Fixpoint eval_at (f : list nat → bool) (o : list nat) (e : expression) : bool :=
  match e with
  | e_none => false
  | conjunction xs => fold_index andb true (λ i x, eval_at f (o ++ [i]) x) 0%nat xs
  | disjunction xs => fold_index orb false (λ i x, eval_at f (o ++ [i]) x) 0%nat xs
  | negation x => negb (eval_at f (o ++ [0%nat]) x)
  | e_predicate _ => f o
  end.

Lemma fold_index_ext op unit (f g : nat → expression → bool) xs i :
  Forall (λ x, ∀ i, f i x = g i x) xs → fold_index op unit f i xs = fold_index op unit g i xs.
Proof. intros Hx. revert i. induction Hx as [|x xs Hx _ IH]; intros i; cbn; [done|]. by rewrite Hx, IH. Qed.

Lemma fold_index_mono op unit (f g : nat → expression → bool) xs i :
  (∀ a b c d, implb a c → implb b d → implb (op a b) (op c d)) →
  Forall (λ x, ∀ i, implb (f i x) (g i x)) xs → implb (fold_index op unit f i xs) (fold_index op unit g i xs).
Proof. intros Hop Hx. revert i. induction Hx as [|x xs Hx _ IH]; intros i; cbn; [by destruct unit|]. by apply Hop. Qed.

Lemma eval_at_ext f g o e : (∀ pos, f pos = g pos) → eval_at f o e = eval_at g o e.
Proof.
  intros Hfg. revert o. induction e as [|xs IH|xs IH|x IH|p] using expression_ind'; intros o; cbn [eval_at]; [done| | |by rewrite IH|done];
    apply fold_index_ext; eapply list.Forall_impl; eauto.
Qed.

Lemma eval_at_mono f g o e : no_negation e → (∀ pos, implb (f pos) (g pos)) → implb (eval_at f o e) (eval_at g o e).
Proof.
  intros Hn Hfg. revert o Hn. induction e as [|xs IH|xs IH|x IH|p] using expression_ind'; intros o Hn; cbn [eval_at]; [done| | |done|by apply Hfg];
    cbn in Hn; rewrite foldr_Forall in Hn; (apply fold_index_mono; [intros [] [] [] []; cbn; tauto|]);
    rewrite list.Forall_forall in *; intros x Hx i; apply IH; auto.
Qed.

(** Without a predicate that holds, the value is false. *)
Lemma eval_at_false o e : proper (λ _, True) e → no_negation e → eval_at (λ _, false) o e = false.
Proof.
  revert o. induction e as [|xs IH|xs IH|x IH|p] using expression_ind'; intros o Hp Hn; try done.
  - apply proper_connective in Hp as [Hne Hp]. cbn in Hn. rewrite foldr_Forall in Hn. destruct xs as [|x xs]; [done|].
    apply list.Forall_cons in IH as [IH _], Hp as [Hx _], Hn as [Hn _]. cbn. by rewrite IH.
  - apply proper_disjunction, proper_connective in Hp as [_ Hp]. cbn in Hn. rewrite foldr_Forall in Hn. cbn.
    generalize 0%nat as i. induction IH as [|x xs Hx _ IHx]; intros i; [done|].
    apply list.Forall_cons in Hp as [Hpx Hp], Hn as [Hnx Hn]. cbn. by rewrite Hx, IHx.
Qed.

Section spec.
Context {ids : Type} `{Bitmap ids}.
#[local] Abbreviation triple := (evaluation_triple ids).
#[local] Abbreviation state := (evaluator_state ids).
Context (no_indexer : ids) (e : expression).
Context (Hproper : proper (λ _, True) e) (Hneg : no_negation e).
Implicit Types (st : state) (t : triple) (ts ans out todo : list triple) (m : gmap (list nat) (N * ids)).

(** The bit of the hits at a position, and of the answers for it. *)
Definition hits_bit m (j : nat) (pos : list nat) : bool := match m !! pos with Some x => bit_at (bm_list x.2) j | None => false end.
Definition answer_bit (j : nat) t : bool :=
  match answer no_indexer t with value r => bit_at (bm_list r) j | error _ => false end.
Definition position_bit ts (j : nat) (pos : list nat) : bool :=
  existsb (λ t, bool_decide (position t = pos) && answer_bit j t) ts.
Definition at_position (pos : list nat) ts : N := lenN (filter (λ t, position t = pos) ts).

Definition hits_wf m : Prop := ∀ pos x, m !! pos = Some x → bm_wf x.2.
Definition answered_wf ts : Prop := ∀ t r, t ∈ ts → answer no_indexer t = value r → bm_wf r.

Lemma binary_or_bit (a b : ids) : bm_wf a → bm_wf b →
  bm_wf (bitmap_algorithms.binary_or (R:=ids) a b) ∧
  ∀ j, bit_at (bm_list (bitmap_algorithms.binary_or (R:=ids) a b)) j = bit_at (bm_list a) j || bit_at (bm_list b) j.
Proof. intros Ha Hb. destruct (binary_or_spec (R:=ids) a b Ha Hb) as [? ->]. split; [done|]. intros j. by rewrite bit_at_pad_eval. Qed.
Lemma binary_and_bit (a b : ids) : bm_wf a → bm_wf b →
  bm_wf (bitmap_algorithms.binary_and (R:=ids) a b) ∧
  ∀ j, bit_at (bm_list (bitmap_algorithms.binary_and (R:=ids) a b)) j = bit_at (bm_list a) j && bit_at (bm_list b) j.
Proof. intros Ha Hb. destruct (binary_and_spec (R:=ids) a b Ha Hb) as [? ->]. split; [done|]. intros j. by rewrite bit_at_pad_eval. Qed.
Lemma nil_bit j : bit_at (bm_list (bm_nil : ids)) j = false.
Proof. by rewrite (proj2 bm_nil_spec). Qed.

(** A connective combines its operands bit by bit. *)
Lemma connective_bits (op : ids → ids → ids) (bop : bool → bool → bool) (unit : bool) (visit : nat → expression → ids)
    (f : nat → nat → expression → bool) xs :
  (∀ a b, bm_wf a → bm_wf b → bm_wf (op a b) ∧ ∀ j, bit_at (bm_list (op a b)) j = bop (bit_at (bm_list a) j) (bit_at (bm_list b) j)) →
  (∀ a b c, bop a (bop b c) = bop (bop a b) c) → (∀ a, bop a unit = a) →
  Forall (λ x, ∀ i, bm_wf (visit i x) ∧ ∀ j, bit_at (bm_list (visit i x)) j = f j i x) xs → xs ≠ [] →
  bm_wf (connective op visit 0 None xs) ∧
  ∀ j, bit_at (bm_list (connective op visit 0 None xs)) j = fold_index bop unit (f j) 0 xs.
Proof.
  intros Hop Hassoc Hunit Hxs Hne.
  destruct Hxs as [|x xs Hx Hxs]; [done|]. cbn [connective fold_index]. clear Hne.
  assert (∀ i a (b0 : nat → bool), bm_wf a → (∀ j, bit_at (bm_list a) j = b0 j) → bm_wf (connective op visit i (Some a) xs) ∧
    ∀ j, bit_at (bm_list (connective op visit i (Some a) xs)) j = bop (b0 j) (fold_index bop unit (f j) i xs)) as Hgo.
  { induction Hxs as [|y ys Hy _ IH]; intros i a b0 Hw Hb; cbn; [split; [done|]; intros j; by rewrite Hunit|].
    destruct (Hy i) as [Hwy Hby], (Hop a (visit i y) Hw Hwy) as [Hw' Hb'].
    destruct (IH (S i) (op a (visit i y)) (λ j, bop (b0 j) (f j i y)) Hw') as [? Hr]; [intros j; by rewrite Hb', Hb, Hby|].
    split; [done|]. intros j. by rewrite Hr, Hassoc. }
  destruct (Hx 0%nat) as [Hw Hb]. by apply Hgo.
Qed.

Lemma ids_evaluator_bits m o x : hits_wf m → proper (λ _, True) x → no_negation x →
  bm_wf (ids_evaluator m o x) ∧ ∀ j, bit_at (bm_list (ids_evaluator m o x)) j = eval_at (hits_bit m j) o x.
Proof.
  intros Hm. revert o. induction x as [|xs IH|xs IH|x IH|p] using expression_ind'; intros o Hp Hn; [done| | |done|].
  - apply proper_connective in Hp as [Hne Hp]. cbn in Hn. rewrite foldr_Forall in Hn.
    apply (connective_bits _ andb true _ (λ j i x, eval_at (hits_bit m j) (o ++ [i]) x));
      [apply binary_and_bit|apply andb_assoc|apply andb_true_r| |done].
    rewrite list.Forall_forall in *. intros y Hy i. apply IH; auto.
  - apply proper_disjunction, proper_connective in Hp as [Hne Hp]. cbn in Hn. rewrite foldr_Forall in Hn.
    apply (connective_bits _ orb false _ (λ j i x, eval_at (hits_bit m j) (o ++ [i]) x));
      [apply binary_or_bit|apply orb_assoc|apply orb_false_r| |done].
    rewrite list.Forall_forall in *. intros y Hy i. apply IH; auto.
  - cbn [ids_evaluator eval_at]. unfold hits_bit. destruct (m !! o) as [y|] eqn:E; [by split; [eapply Hm|]|].
    split; [apply bm_nil_spec|apply nil_bit].
Qed.

(** *** The invariant *)

(** [ans] was answered, [out] is under way, and [todo] is still ahead of the loop. *)
Record evaluator_inv st ans out todo : Prop := {
  inv_pending : pending_responses st = lenN out + lenN todo;
  inv_expr : expr st = e;
  inv_no_indexer : ids_to_use_for_no_indexer st = no_indexer;
  inv_wf : bm_wf (hits st);
  inv_hits_wf : hits_wf (predicate_hits st);
  inv_answered_wf : answered_wf (ans ++ out ++ todo);
  inv_missing pos : match predicate_hits st !! pos with
    | Some x => x.1 = at_position pos out
    | None => ∀ t, t ∈ ans ++ out → position t ≠ pos
    end;
  inv_bits j pos : hits_bit (predicate_hits st) j pos = position_bit ans j pos;
  inv_sound j : implb (bit_at (bm_list (hits st)) j) (eval_at (position_bit (ans ++ out ++ todo) j) [0%nat] e);
  inv_complete : out = [] → ans ≠ [] → ∀ j, implb (eval_at (position_bit ans j) [0%nat] e) (bit_at (bm_list (hits st)) j);
  inv_promise : promise st = if pending_responses st =? 0 then Some (hits st) else None
}.

Lemma at_position_app pos ts ts' : at_position pos (ts ++ ts') = at_position pos ts + at_position pos ts'.
Proof. unfold at_position. by rewrite list.filter_app, lenN_app. Qed.
Lemma at_position_cons pos t ts : at_position pos (t :: ts) = (if decide (position t = pos) then 1 else 0) + at_position pos ts.
Proof. unfold at_position. rewrite filter_cons. destruct (decide _); rewrite ?lenN_cons; lia. Qed.
Lemma at_position_none pos ts : (∀ t, t ∈ ts → position t ≠ pos) → at_position pos ts = 0.
Proof.
  induction ts as [|t ts IH]; intros Ht; [done|]. rewrite at_position_cons, decide_False, IH by (intros; apply Ht; by constructor). done.
Qed.
Lemma at_position_le pos ts : at_position pos ts <= lenN ts.
Proof. unfold at_position, lenN. pose proof (length_filter (λ t, position t = pos) ts). lia. Qed.
Lemma position_bit_app ts ts' j pos : position_bit (ts ++ ts') j pos = position_bit ts j pos || position_bit ts' j pos.
Proof. apply existsb_app. Qed.
Lemma position_bit_perm ts ts' j pos : ts ≡ₚ ts' → position_bit ts j pos = position_bit ts' j pos.
Proof.
  intros Hp. apply eq_iff_eq_true. unfold position_bit. rewrite !existsb_exists.
  setoid_rewrite <- list_elem_of_In. by setoid_rewrite Hp.
Qed.

Lemma evaluator_inv_perm st ans out out' todo : out ≡ₚ out' → evaluator_inv st ans out todo → evaluator_inv st ans out' todo.
Proof.
  intros Hp []. split; try done.
  - rewrite inv_pending0. unfold lenN. by rewrite Hp.
  - intros t r Ht. apply inv_answered_wf0. by rewrite Hp.
  - intros pos. specialize (inv_missing0 pos). unfold at_position, lenN in *. destruct (predicate_hits st !! pos); [by rewrite <- Hp|].
    intros t Ht. apply inv_missing0. by rewrite Hp.
  - intros j. rewrite (eval_at_ext _ (position_bit (ans ++ out ++ todo) j)); [done|]. intros pos. apply position_bit_perm. by rewrite Hp.
  - intros ->. apply inv_complete0. by apply Permutation_nil_r.
Qed.

(** The answer to a request that is under way. *)
Definition accumulate t (h : ids) : ids :=
  match answer no_indexer t with value r => bitmap_algorithms.binary_or h r | error _ => h end.

Lemma respond_handle st t : respond st (position t) (answer no_indexer t) = handle_hits st (position t) (accumulate t).
Proof. unfold accumulate, respond. by destruct (answer no_indexer t). Qed.

Lemma accumulate_bits t h ts : answered_wf ts → t ∈ ts → bm_wf h →
  bm_wf (accumulate t h) ∧ ∀ j, bit_at (bm_list (accumulate t h)) j = bit_at (bm_list h) j || answer_bit j t.
Proof.
  intros Hts Ht Hh. unfold accumulate, answer_bit. destruct (answer no_indexer t) as [r|] eqn:E.
  - apply binary_or_bit; eauto.
  - split; [done|]. intros j. by rewrite orb_false_r.
Qed.

Lemma hits_for_out st ans l t r todo : evaluator_inv st ans (l ++ t :: r) todo →
  ∃ x, predicate_hits st !! position t = Some x ∧ x.1 = at_position (position t) (l ++ r) + 1.
Proof.
  intros Hinv. pose proof (inv_missing _ _ _ _ Hinv (position t)) as Hm. destruct (predicate_hits st !! position t) as [x|].
  - exists x. split; [done|]. rewrite Hm, !at_position_app, at_position_cons, decide_True by done. lia.
  - exfalso. apply (Hm t); [|done]. set_solver.
Qed.

(** The hits after an answer: what [handle_hits] stores, evaluated or not. *)
Lemma answered_hits st ans l t r todo x : evaluator_inv st ans (l ++ t :: r) todo → predicate_hits st !! position t = Some x →
  let m := <[position t := (at_position (position t) (l ++ r), accumulate t x.2)]> (predicate_hits st) in
  hits_wf m ∧ ∀ j pos, hits_bit m j pos = position_bit (t :: ans) j pos.
Proof.
  intros Hinv Hx. cbn zeta. destruct (accumulate_bits t x.2 _ (inv_answered_wf _ _ _ _ Hinv)) as [Hw Hb];
    [set_solver|by eapply (inv_hits_wf _ _ _ _ Hinv)|]. split.
  - intros pos y [[<- <-]|[_ Hy]]%lookup_insert_Some; [done|]. by eapply (inv_hits_wf _ _ _ _ Hinv).
  - intros j pos. unfold position_bit. cbn [existsb]. fold (position_bit ans j pos). rewrite <- (inv_bits _ _ _ _ Hinv).
    unfold hits_bit. destruct (decide (position t = pos)) as [<-|Hne].
    + rewrite lookup_insert_eq, Hx, bool_decide_eq_true_2 by done. cbn [snd]. rewrite Hb. apply orb_comm.
    + by rewrite lookup_insert_ne, bool_decide_eq_false_2.
Qed.

Lemma respond_inv st ans l t r todo : evaluator_inv st ans (l ++ t :: r) todo → lenN (l ++ t :: r) + lenN todo < 2 ^ 64 →
  ∃ st', respond st (position t) (answer no_indexer t) = Some st' ∧ evaluator_inv st' (t :: ans) (l ++ r) todo.
Proof.
  intros Hinv Hlen. destruct (hits_for_out _ _ _ _ _ _ Hinv) as (x & Hx & Hx1).
  destruct (answered_hits _ _ _ _ _ _ x Hinv Hx) as [Hmw Hmb]. pose proof (inv_pending _ _ _ _ Hinv) as Hpend.
  autorewrite with lendb in Hlen, Hpend.
  assert (lenN (l ++ r) = lenN l + lenN r) as Hlr by apply lenN_app. pose proof (at_position_le (position t) (l ++ r)) as Hle.
  rewrite respond_handle. unfold handle_hits. rewrite Hx. cbn [mbind option_bind].
  replace (x.1 -u 1) with (at_position (position t) (l ++ r)) by (rewrite Hx1, usub_small; lia).
  set (m := <[position t := _]> (predicate_hits st)) in *.
  eexists. split; [done|]. destruct (ids_evaluator_bits m [0%nat] e Hmw Hproper Hneg) as [Hew Heb].
  destruct (binary_or_bit (hits st) (ids_evaluator m [0%nat] e) (inv_wf _ _ _ _ Hinv) Hew) as [Hhw Hhb].
  set (st1 := if _ =? 0 then _ else _).
  assert (t :: ans ++ l ++ r ++ todo ≡ₚ ans ++ (l ++ t :: r) ++ todo) as Hperm by (rewrite <- !app_assoc; cbn; solve_Permutation).
  assert (∀ j, implb (bit_at (bm_list (hits st1)) j) (eval_at (position_bit ((t :: ans) ++ (l ++ r) ++ todo) j) [0%nat] e)) as Hsound.
  { intros j. rewrite (eval_at_ext _ (position_bit (ans ++ (l ++ t :: r) ++ todo) j)).
    2: { intros pos. apply position_bit_perm. rewrite <- Hperm. cbn. by rewrite <- app_assoc. }
    pose proof (inv_sound _ _ _ _ Hinv j) as Hs. unfold st1. destruct (_ =? 0); [|done]. cbn [evaluate hits set_predicate_hits predicate_hits expr].
    rewrite (inv_expr _ _ _ _ Hinv), Hhb, Heb. destruct (bit_at _ j); [done|]. cbn [orb].
    apply eval_at_mono; [done|]. intros pos. rewrite Hmb. rewrite <- (position_bit_perm _ _ j pos Hperm).
    unfold position_bit. rewrite app_comm_cons, existsb_app. by destruct (existsb _ (t :: ans)). }
  assert (pending_responses st1 = pending_responses st ∧ expr st1 = expr st ∧ predicate_hits st1 = m ∧ promise st1 = promise st ∧
    ids_to_use_for_no_indexer st1 = ids_to_use_for_no_indexer st ∧ bm_wf (hits st1)) as (E1 & E2 & E3 & E4 & E5 & Hw1).
  { unfold st1. destruct (_ =? 0); cbn; split_and!; try done; [by rewrite (inv_expr _ _ _ _ Hinv)|apply (inv_wf _ _ _ _ Hinv)]. }
  assert (l ++ r = [] → ∀ j, implb (eval_at (position_bit (t :: ans) j) [0%nat] e) (bit_at (bm_list (hits st1)) j)) as Hcomplete.
  { intros Hnil j. unfold st1. rewrite Hnil. cbn [at_position]. change (at_position (position t) ([] : list triple) =? 0) with true.
    cbn [evaluate hits set_predicate_hits predicate_hits expr]. cbv iota. rewrite (inv_expr _ _ _ _ Hinv), Hhb, Heb.
    rewrite (eval_at_ext _ _ _ _ (Hmb j)). by destruct (bit_at _ j), (eval_at _ _ _). }
  clearbody st1. unfold decrement_pending. rewrite E1, Hpend.
  replace (lenN l + (1 + lenN r) + lenN todo -u 1) with (lenN (l ++ r) + lenN todo) by (rewrite usub_small; lia).
  set (st2 := if _ =? 0 then _ else _).
  assert (pending_responses st2 = lenN (l ++ r) + lenN todo ∧ predicate_hits st2 = m ∧ hits st2 = hits st1 ∧ expr st2 = e ∧
    ids_to_use_for_no_indexer st2 = no_indexer ∧
    promise st2 = if lenN (l ++ r) + lenN todo =? 0 then Some (hits st1) else None) as (F1 & F2 & F3 & F4 & F5 & F6).
  { pose proof (inv_promise _ _ _ _ Hinv) as Hp. rewrite Hpend, (proj2 (N.eqb_neq _ 0)) in Hp by lia.
    rewrite <- (inv_expr _ _ _ _ Hinv), <- (inv_no_indexer _ _ _ _ Hinv), <- E2, <- E5, <- E3.
    unfold st2. destruct (_ =? 0); cbn; rewrite ?E4, ?Hp; done. }
  clearbody st2. split; rewrite ?F1, ?F2, ?F3, ?F4, ?F5, ?F6; try done.
  - intros u y Hu. apply (inv_answered_wf _ _ _ _ Hinv). rewrite <- Hperm. rewrite <- app_assoc in Hu. exact Hu.
  - intros pos. pose proof (inv_missing _ _ _ _ Hinv pos) as Hm. unfold m. destruct (decide (position t = pos)) as [<-|Hne].
    + by rewrite lookup_insert_eq.
    + rewrite lookup_insert_ne by done. destruct (predicate_hits st !! pos) as [y|].
      * rewrite Hm, !at_position_app, at_position_cons, decide_False by done. lia.
      * intros u [->|Hu]%elem_of_cons; [done|]. apply Hm. rewrite !elem_of_app, ?elem_of_cons in *. tauto.
  - intros Hnil _. by apply Hcomplete.
Qed.

Lemma expect_inv st ans out t todo : evaluator_inv st ans out (t :: todo) → lenN out + lenN (t :: todo) < 2 ^ 64 →
  evaluator_inv (expect st (position t)) ans (t :: out) todo.
Proof.
  intros Hinv Hlen. pose proof (inv_pending _ _ _ _ Hinv) as Hpend. autorewrite with lendb in Hlen, Hpend.
  assert (t :: out ++ todo ≡ₚ out ++ t :: todo) as Hperm by solve_Permutation.
  set (x := default (0, bm_nil) (predicate_hits st !! position t)).
  pose proof (inv_missing _ _ _ _ Hinv (position t)) as Hmt.
  assert (x.1 = at_position (position t) out ∧ bm_wf x.2 ∧ ∀ j, bit_at (bm_list x.2) j = hits_bit (predicate_hits st) j (position t))
    as (Hx1 & Hx2 & Hxb).
  { unfold x, hits_bit. destruct (predicate_hits st !! position t) as [y|] eqn:E; cbn.
    - split; [done|]. split; [|done]. by eapply (inv_hits_wf _ _ _ _ Hinv).
    - split; [|split; [apply bm_nil_spec|apply nil_bit]]. symmetry. apply at_position_none. intros u Hu. apply Hmt. set_solver. }
  pose proof (at_position_le (position t) out) as Hle.
  split; unfold expect; fold x; cbn [pending_responses expr ids_to_use_for_no_indexer hits predicate_hits promise set_predicate_hits].
  - rewrite Hpend. autorewrite with lendb. lia.
  - apply (inv_expr _ _ _ _ Hinv).
  - apply (inv_no_indexer _ _ _ _ Hinv).
  - apply (inv_wf _ _ _ _ Hinv).
  - intros pos y [[<- <-]|[_ Hy]]%lookup_insert_Some; [done|]. by eapply (inv_hits_wf _ _ _ _ Hinv).
  - intros u y Hu. apply (inv_answered_wf _ _ _ _ Hinv). cbn in Hu. by rewrite Hperm in Hu.
  - intros pos. pose proof (inv_missing _ _ _ _ Hinv pos) as Hm. rewrite at_position_cons. destruct (decide (position t = pos)) as [<-|Hne].
    + rewrite lookup_insert_eq. cbn. rewrite Hx1, wrap_small; lia.
    + rewrite lookup_insert_ne by done. destruct (predicate_hits st !! pos); [rewrite Hm; lia|]. intros u Hu. 
      assert (u = t ∨ u ∈ ans ++ out) as [->|Hu'] by (rewrite !elem_of_app, elem_of_cons in *; tauto); [done|by apply Hm].
  - intros j pos. rewrite <- (inv_bits _ _ _ _ Hinv). unfold hits_bit at 1. destruct (decide (position t = pos)) as [<-|Hne].
    + rewrite lookup_insert_eq. apply Hxb.
    + by rewrite lookup_insert_ne.
  - intros j. rewrite (eval_at_ext _ (position_bit (ans ++ out ++ t :: todo) j)); [apply (inv_sound _ _ _ _ Hinv)|].
    intros pos. apply position_bit_perm. cbn. by rewrite Hperm.
  - done.
  - apply (inv_promise _ _ _ _ Hinv).
Qed.

Lemma run_loop_inv todo st ans out : evaluator_inv st ans out todo → lenN out + lenN todo < 2 ^ 64 →
  ∃ st' sent ans', run_loop st todo = Some (st', sent) ∧ evaluator_inv st' ans' (out ++ sent) [] ∧ ans' ++ sent ≡ₚ ans ++ todo.
Proof.
  revert st ans out. induction todo as [|t todo IH]; intros st ans out Hinv Hlen.
  { exists st, [], ans. by rewrite app_nil_r. }
  pose proof (expect_inv _ _ _ _ _ Hinv Hlen) as Hinv'. rewrite lenN_cons in Hlen. cbn [run_loop]. destruct (handle t) as [ix|] eqn:Et.
  - destruct (IH _ _ _ Hinv') as (st' & sent & ans' & -> & Hi & Hp); [rewrite lenN_cons; lia|]. cbn [mbind option_bind fst snd].
    exists st', (t :: sent), ans'. split; [done|]. split.
    + eapply evaluator_inv_perm; [|exact Hi]. solve_Permutation.
    + rewrite <- !Permutation_middle. by constructor.
  - destruct (respond_inv _ _ [] t out todo Hinv') as (st1 & Hr & Hi1); [cbn; rewrite lenN_cons; lia|].
    unfold answer in Hr. rewrite Et in Hr. unfold handle_no_indexer. rewrite (inv_no_indexer _ _ _ _ Hinv').
    cbn [respond] in Hr. rewrite Hr. cbn [mbind option_bind].
    destruct (IH _ _ _ Hi1) as (st' & sent & ans' & -> & Hi & Hp); [cbn; lia|].
    exists st', sent, ans'. split; [done|]. split; [done|]. rewrite Hp. cbn. apply Permutation_middle.
Qed.

Lemma initial_inv todo st : answered_wf todo → st = mk_state (lenN todo) ∅ bm_nil no_indexer e None → todo ≠ [] → evaluator_inv st [] [] todo.
Proof.
  intros Hwf -> Hne. split; cbn [pending_responses expr ids_to_use_for_no_indexer hits predicate_hits promise app]; try done.
  - apply bm_nil_spec.
  - intros pos. rewrite lookup_empty. by intros t ?%not_elem_of_nil.
  - intros j. by rewrite nil_bit.
  - rewrite (proj2 (N.eqb_neq _ 0)); [done|]. destruct todo; [done|]. rewrite lenN_cons. lia.
Qed.

(** The states that the answers lead to, in any order. *)
Lemma run_inv eval : eval ≠ [] → answered_wf eval → lenN eval < 2 ^ 64 →
  ∃ st sent ans, run (initial e no_indexer) eval = Some (st, sent) ∧ evaluator_inv st ans sent [] ∧ ans ++ sent ≡ₚ eval.
Proof.
  intros Hne Hwf Hlen. unfold run. cbn [initial pending_responses predicate_hits hits ids_to_use_for_no_indexer expr promise].
  rewrite N.add_0_l, wrap_small by done. set (st0 := mk_state _ _ _ _ _ _).
  destruct (run_loop_inv eval st0 [] [] (initial_inv eval st0 Hwf eq_refl Hne)) as (st & sent & ans & -> & Hinv & Hp); [by rewrite lenN_nil|].
  cbn [mbind option_bind fst snd]. eexists _, sent, ans. split; [done|]. split; [|exact Hp].
  destruct (N.eqb_spec (pending_responses st) 0) as [Hz|]; [|exact Hinv].
  pose proof (inv_promise _ _ _ _ Hinv) as Hpr. rewrite Hz in Hpr. cbn in Hpr.
  replace (deliver st bm_nil) with st; [done|]. unfold deliver. rewrite Hpr. destruct st. cbn in *. by subst.
Qed.

Lemma step_inv cfg cfg' ans : evaluator_inv cfg.1 ans cfg.2 [] → lenN cfg.2 < 2 ^ 64 → step no_indexer cfg cfg' →
  ∃ ans', evaluator_inv cfg'.1 ans' cfg'.2 [] ∧ ans' ++ cfg'.2 ≡ₚ ans ++ cfg.2.
Proof.
  intros Hinv Hlen Hs. destruct Hs as [st st' l t r Hr]. cbn [fst snd] in *.
  destruct (respond_inv _ _ _ _ _ _ Hinv) as (st1 & Hr' & Hi); [rewrite lenN_nil; lia|]. rewrite Hr in Hr'. injection Hr' as ->.
  exists (t :: ans). split; [done|]. solve_Permutation.
Qed.

(** Whatever the order of the answers, the last one fulfills the promise. *)
Lemma evaluator_runs ts : ts ≠ [] → answered_wf ts → lenN ts < 2 ^ 64 →
  ∃ st sent, run (initial e no_indexer) ts = Some (st, sent) ∧
    ∀ cfg, rtc (step no_indexer) (st, sent) cfg →
      (cfg.2 ≠ [] → promise cfg.1 = None ∧ ∃ cfg', step no_indexer cfg cfg') ∧
      (cfg.2 = [] → ∃ h, promise cfg.1 = Some h ∧ bm_wf h ∧
        ∀ j, bit_at (bm_list h) j = eval_at (position_bit ts j) [0%nat] e).
Proof.
  intros Hne Hwf Hlen. destruct (run_inv ts Hne Hwf Hlen) as (st & sent & ans & Hrun & Hinv & Hperm).
  exists st, sent. split; [done|]. intros cfg Hsteps.
  assert (∃ ans', evaluator_inv cfg.1 ans' cfg.2 [] ∧ ans' ++ cfg.2 ≡ₚ ts) as (ans' & Hinv' & Hperm').
  { remember (st, sent) as start eqn:Hstart. assert (evaluator_inv start.1 ans start.2 [] ∧ ans ++ start.2 ≡ₚ ts) as Hs by (by subst).
    clear Hinv Hperm Hstart Hrun. revert ans Hs. induction Hsteps as [cfg|cfg cfg1 cfg2 Hs Hrtc IH]; intros ans [Hinv Hperm]; [by exists ans|].
    destruct (step_inv cfg cfg1 ans Hinv) as (ans1 & Hi1 & Hp1); [|done|].
    - eapply N.le_lt_trans; [|exact Hlen]. unfold lenN. rewrite <- Hperm, length_app. lia.
    - apply (IH ans1). split; [done|]. by rewrite Hp1. }
  pose proof (inv_promise _ _ _ _ Hinv') as Hpr. pose proof (inv_pending _ _ _ _ Hinv') as Hpend. rewrite lenN_nil, N.add_0_r in Hpend.
  rewrite Hpend in Hpr. split.
  - intros Hout. destruct cfg as [st' [|t out]]; [done|]. cbn [fst snd] in *. rewrite (proj2 (N.eqb_neq _ 0)) in Hpr by (rewrite lenN_cons; lia).
    split; [done|]. destruct (respond_inv st' ans' [] t out [] Hinv') as (st1 & Hr & _).
    + cbn [app]. rewrite lenN_nil, N.add_0_r. eapply N.le_lt_trans; [|exact Hlen]. unfold lenN. rewrite <- Hperm', length_app. lia.
    + exists (st1, out). by apply (step_answer no_indexer st' st1 [] t out).
  - intros Hout. rewrite Hout in *. exists (hits cfg.1). split; [done|]. split; [apply (inv_wf _ _ _ _ Hinv')|]. intros j.
    rewrite app_nil_r in Hperm'. assert (ans' ≠ []) as Hans by (intros ->; by apply Permutation_nil_l in Hperm').
    pose proof (inv_complete _ _ _ _ Hinv' eq_refl Hans j) as Hc. pose proof (inv_sound _ _ _ _ Hinv' j) as Hs.
    rewrite !app_nil_r in Hs. rewrite <- (eval_at_ext _ _ [0%nat] e (λ pos, position_bit_perm _ _ j pos Hperm')).
    by destruct (bit_at _ j), (eval_at _ _ _).
Qed.
End spec.
