(* ===== verification/Indexer.v ===== *)
(** Indexers: [libvast/src/system/indexer.cpp], with the loop over a column in
    [libvast/src/arrow_table_slice.cpp] and [to_internal] of [libvast/src/view.cpp].

    An indexer appends the values of a column to a value index; cells without a value are passed
    over and become gaps. *)

From S2P Require Import Prelude Word Bits BitmapConcept EwahBitmap EwahRange BitmapAlgorithms.
From S2P Require Import Bitmap Operator Coder Data ValueIndex ValueIndexSpec Types Expression Evaluator.

Definition to_internal (t : type) (x : data) : data :=
  match x, type.resolve_transparent t with
  | d_string s, t_enumeration fields =>
      match type.resolve fields s with
      | Some key => d_enumeration (key mod 2 ^ 8)
      | None => d_none
      end
  | _, _ => x
  end.

Section indexer.
Context {I : Type} `{ValueIndexOps I}.

(** The loop of [append_column_to_index]. *)
Fixpoint append_cells (offset row : N) (vi : value_index.value_index I) (cells : list data) : value_index.value_index I :=
  match cells with
  | [] => vi
  | x :: cells =>
      append_cells offset (row + 1) (if is_none x then vi else (value_index.append_at vi x (offset + row)).1) cells
  end.
Definition append_column_to_index (vi : value_index.value_index I) (offset : N) (cells : list data) : value_index.value_index I :=
  append_cells offset 0 vi cells.

(** The slices of a stream, each with its offset. *)
Definition append_slices (vi : value_index.value_index I) (slices : list (N * list data)) : value_index.value_index I :=
  foldl (λ vi s, append_column_to_index vi s.1 s.2) vi slices.

(** The handler of [atom::evaluate]. *)
Definition evaluate (t : type) (vi : value_index.value_index I) (p : curried_predicate) : value_index.value_index I * expected ids :=
  value_index.lookup vi (curried_op p) (to_internal t (curried_rhs p)).
(** What the indexer answers. *)
Definition make_indexer (t : type) (vi : value_index.value_index I) : indexer ids := λ p, (evaluate t vi p).2.
End indexer.

(** ** The cells of a column *)

Section column.
Context {I : Type} `{ValueIndexImpl I}.
Implicit Types (vi : value_index.value_index I) (cells : list data).

(** Cells without a value are gaps. *)
Definition cell_entry (x : data) : option data := if is_none x then None else Some x.
Definition column_rep vi cells : Prop := ∃ es k, vi_rep vi es ∧ cell_entry <$> cells = es ++ reps k None.

Definition cell_ok (x : data) : Prop := is_none x = true ∨ impl_accepts x.

Lemma column_make_rep (i : I) : impl_rep i [] → column_rep (value_index.make i) [].
Proof. intros Hi. exists [], 0. split; [by apply vi_make_rep|done]. Qed.

Lemma append_cell_rep vi cells x : column_rep vi cells → cell_ok x → lenN cells + 1 <= max_size →
  column_rep (if is_none x then vi else (value_index.append_at vi x (lenN cells)).1) (cells ++ [x]).
Proof.
  intros (es & k & Hrep & Hc) Hx Hmax. unfold column_rep. rewrite fmap_app, Hc. cbn. unfold cell_entry at 1.
  assert (lenN cells = lenN es + k) as Hlen by (rewrite <- (lenN_fmap cell_entry cells), Hc; autorewrite with lendb; done).
  destruct (is_none x) eqn:E.
  - exists es, (k + 1). split; [done|]. rewrite <- app_assoc. f_equal. unfold reps.
    rewrite N2Nat.inj_add, replicate_add. done.
  - destruct Hx as [?|Hx]; [congruence|]. destruct (vi_append_value vi es x (lenN cells) Hrep E Hx) as (vi' & -> & Hvi); [lia..|].
    exists (extend es (lenN cells) x), 0. split; [done|]. unfold extend. rewrite app_nil_r, <- app_assoc.
    by replace (lenN cells - lenN es) with k by lia.
Qed.

Lemma append_cells_rep more vi cells offset row : column_rep vi cells → Forall cell_ok more → offset + row = lenN cells →
  lenN cells + lenN more <= max_size → column_rep (append_cells offset row vi more) (cells ++ more).
Proof.
  revert vi cells row. induction more as [|x more IH]; intros vi cells row Hrep Hok Hoff Hmax; cbn [append_cells].
  { by rewrite app_nil_r. }
  apply list.Forall_cons in Hok as [Hx Hok]. rewrite lenN_cons in Hmax. rewrite (cons_middle x cells more), app_assoc.
  rewrite Hoff. apply IH; [|done|autorewrite with lendb; lia..]. apply append_cell_rep; [done..|lia].
Qed.

(** Slices that follow each other. *)
Fixpoint consecutive (n : N) (slices : list (N * list data)) : Prop :=
  match slices with
  | [] => True
  | s :: slices => s.1 = n ∧ consecutive (n + lenN s.2) slices
  end.

Lemma append_slices_rep slices vi cells : column_rep vi cells → Forall (λ s, Forall cell_ok s.2) slices → consecutive (lenN cells) slices →
  lenN cells + lenN (concat slices.*2) <= max_size → column_rep (append_slices vi slices) (cells ++ concat slices.*2).
Proof.
  revert vi cells. induction slices as [|s slices IH]; intros vi cells Hrep Hok Hcon Hmax; cbn.
  { by rewrite app_nil_r. }
  apply list.Forall_cons in Hok as [Hs Hok]. destruct Hcon as [Hs1 Hcon]. cbn in Hmax. rewrite lenN_app in Hmax. rewrite app_assoc. apply IH; [|done|..].
  - apply append_cells_rep; [done|done|lia|lia].
  - by rewrite lenN_app.
  - rewrite lenN_app. lia.
Qed.

(** What a lookup finds in a column. *)
Lemma column_lookup vi cells op x : column_rep vi cells → is_none x = false → impl_supports op x →
  ∃ vi' r, value_index.lookup vi op x = (vi', value r) ∧ column_rep vi' cells ∧ bm_wf r ∧
    ∀ j, bit_at (bm_list r) j = match cells !! j with Some v => negb (is_none v) && impl_matches op v x | None => false end.
Proof.
  intros (es & k & Hrep & Hc) Hx Hs. destruct (vi_lookup_value vi es op x Hrep Hx Hs) as (vi' & r & E & Hvi & Hw & Hl).
  exists vi', r. split; [done|]. split; [by exists es, k|]. split; [done|]. intros j. rewrite Hl, bit_at_fmap.
  assert (es !! j = if decide (j < length es)%nat then cell_entry <$> cells !! j else None) as ->.
  { destruct (decide _).
    - by rewrite <- list_lookup_fmap, Hc, lookup_app_l.
    - apply lookup_ge_None. lia. }
  destruct (decide (j < length es)%nat) as [Hj|Hj].
  - destruct (cells !! j) as [v|]; cbn; [|done]. unfold cell_entry. destruct (is_none v) eqn:Ev; cbn; [done|]. by rewrite Ev.
  - destruct (cells !! j) as [v|] eqn:Ej; [|done]. assert ((cell_entry <$> cells) !! j = Some (cell_entry v)) as Hv by (by rewrite list_lookup_fmap, Ej).
    rewrite Hc, lookup_app_r in Hv by lia. unfold reps in Hv. apply lookup_replicate in Hv as [Hv _]. unfold cell_entry in Hv.
    by destruct (is_none v).
Qed.

(** Looking for cells without a value finds none of them. *)
Lemma column_lookup_none vi cells : column_rep vi cells →
  ∃ r, value_index.lookup vi equal d_none = (vi, value r) ∧ bm_wf r ∧ ∀ j, bit_at (bm_list r) j = false.
Proof.
  intros (es & k & Hrep & Hc). destruct (vi_lookup_none vi es equal Hrep (or_introl eq_refl)) as (r & E & Hw & Hl).
  exists r. split; [done|]. split; [done|]. intros j. rewrite Hl, bit_at_fmap. destruct (es !! j) as [o|] eqn:Ej; [|done].
  assert ((cell_entry <$> cells) !! j = Some o) as Hv by (rewrite Hc; by apply lookup_app_l_Some).
  rewrite list_lookup_fmap in Hv. apply fmap_Some in Hv as (v & _ & ->). unfold cell_entry. destruct (is_none v) eqn:Ev; [done|]. cbn. by rewrite Ev.
Qed.
End column.
