(* ===== verification/PartitionQuery.v ===== *)
(** How a partition answers a query: [libvast/include/vast/detail/partition_common.hpp],
    [libvast/src/detail/partition_common.cpp], and the handlers of queries in
    [libvast/src/system/passive_partition.cpp] and [libvast/src/system/active_partition.cpp].

    A partition resolves the predicates of an expression to columns of its schema, looks up the
    indexer of each, and spawns an evaluator. An indexer is what it answers; a column without an
    index has none. *)

From stdpp Require Import gmap.
From S2P Require Import Prelude Word Bits BitmapConcept BitmapAlgorithms Operator Data Types RecordType KeySuffix Ip DataOps Expression ExpressionSpec ExpressionResolve Synopsis Evaluator.

Section partition.
Context {ids : Type} `{BitmapOps ids}.
Context (regex_match regex_search : list N → list N → bool) (predicate_ltb : predicate → predicate → bool).

(** What both kinds of partitions provide. [import_times] are the bounds that an active partition
    knows. *)
Record partition_state := mk_partition {
  indexers : list (option (indexer ids));
  combined_schema : option (list field);
  type_ids : list (list N * ids);
  import_times : option (Z * Z)
}.
Implicit Types (st : partition_state).

(** [fetch_indexer] for a column *)
Definition indexer_at st (c : N) : option (indexer ids) := default None (indexers st !! N.to_nat c).

(** The union of the IDs of some types. *)
Definition collect_ids (keep : list N → bool) (m : list (list N * ids)) : ids :=
  foldl (λ row_ids nv, if keep nv.1 then bitmap_algorithms.binary_or row_ids nv.2 else row_ids) bm_nil m.

(** [fetch_indexer] for metadata: an indexer that always answers the same. *)
Definition import_time_may_match st (op : relational_operator) (x : data) : bool :=
  match import_times st with
  | None => true
  | Some (min, max) =>
      match x with
      | d_time t => match min_max_lookup min max op (d_time t) with Some add => add | None => true end
      | _ => false
      end
  end.
Definition fetch_meta_indexer st (kind : meta_kind) (op : relational_operator) (x : data) : indexer ids :=
  let row_ids :=
    match kind with
    | meta_type => collect_ids (λ name, DataOps.evaluate regex_match regex_search (d_string name) op x) (type_ids st)
    | meta_import_time => collect_ids (λ _, import_time_may_match st op x) (type_ids st)
    end in
  λ _, value row_ids.

Definition make_triple st (op : list nat * predicate) : option (evaluation_triple ids) :=
  let p := op.2 in
  c ← curried p;
  let hdl :=
    match lhs p, rhs p with
    | meta_extractor kind, o_data x => Some (fetch_meta_indexer st kind (Expression.op p) x)
    | data_extractor _ column, o_data x => indexer_at st column
    | _, _ => None
    end in
  Some (mk_triple op.1 c hdl).

(** [evaluate]: [None] is the assertion of [curried]. *)
Definition evaluate st (e : expression) : option (list (evaluation_triple ids)) :=
  match combined_schema st with
  | None => Some []
  | Some fields => mapM (make_triple st) (resolve predicate_ltb fields [] e)
  end.

Definition needs_evaluation_without_indexer (ts : list (evaluation_triple ids)) : bool :=
  existsb (λ t, match handle t with None => true | Some _ => false end) ts.
Definition get_ids_for_evaluation (m : list (list N * ids)) (ts : list (evaluation_triple ids)) : ids :=
  if needs_evaluation_without_indexer ts then collect_ids (λ _, true) m else bm_nil.

(** ** The handler of a query in a passive partition *)

Record query_context := mk_query { query_ids : ids; query_expr : expression; estimate : bool }.

(** What the handler does: it waits for the state, fails, asks the store, answers, or spawns an
    evaluator and continues with its result. *)
Inductive action :=
| wait
| fail (e : ec)
| ask_store (q : query_context)
| deliver_count (n : N)
| spawn_evaluator (ts : list (evaluation_triple ids)) (no_indexer : ids).

Record passive_partition := mk_passive {
  (** [None] before the chunk arrives; no indexers after the exit message. *)
  loaded : option partition_state;
  deferred_evaluations : list query_context;
  (** The number of promises that wait. *)
  deferred_erasures : N
}.

Definition no_ids (x : ids) : bool := bitmap_base.empty x.

Definition handle_query (p : passive_partition) (q : query_context) : passive_partition * option action :=
  match loaded p with
  | None => (mk_passive None (deferred_evaluations p ++ [q]) (deferred_erasures p), Some wait)
  | Some st =>
      (p, match indexers st with
          | [] => Some (fail system_error)
          | _ =>
              if negb (no_ids (query_ids q)) then
                Some (if negb (expression_eqb (query_expr q) e_none) then fail invalid_argument else ask_store q)
              else
                triples ← evaluate st (query_expr q);
                Some match triples with
                     | [] => deliver_count 0
                     | _ => spawn_evaluator triples (get_ids_for_evaluation (type_ids st) triples)
                     end
          end)
  end.

(** The continuation with the result of the evaluator. *)
Definition handle_hits (rank : ids → N) (q : query_context) (hits : ids) : action :=
  if estimate q then deliver_count (rank hits) else ask_store (mk_query hits (query_expr q) (estimate q)).

(** The handler of [atom::erase]: the store is asked to erase all IDs of the partition; [None] waits
    for the state. *)
Definition handle_erase (p : passive_partition) : passive_partition * option ids :=
  match loaded p with
  | None => (mk_passive None (deferred_evaluations p) (deferred_erasures p + 1), None)
  | Some st => (p, Some (collect_ids (λ _, true) (type_ids st)))
  end.

(** The state arrives: the requests that waited are sent again, in order. *)
Definition delegate_deferred_requests (p : passive_partition) (st : partition_state) :
    passive_partition * list (query_context * option action) * list (option ids) :=
  let p' := mk_passive (Some st) [] 0 in
  (p', (λ q, (q, (handle_query p' q).2)) <$> deferred_evaluations p, reps (deferred_erasures p) (handle_erase p').2).
(** It does not: all of them fail. *)
Definition deliver_error_to_deferred_requests (p : passive_partition) (e : ec) :
    passive_partition * list (query_context * action) * list ec :=
  (mk_passive None [] 0, (λ q, (q, fail e)) <$> deferred_evaluations p, reps (deferred_erasures p) e).
End partition.
Arguments partition_state : clear implicits.
Arguments query_context : clear implicits.
Arguments passive_partition : clear implicits.
Arguments action : clear implicits.

(** ** A partition finds the rows that satisfy a query *)

(** *** Positions of predicates *)

Lemma forallb_fold_index (g : expression → bool) (f : nat → expression → bool) xs k :
  (∀ i x, xs !! i = Some x → implb (g x) (f (k + i)%nat x)) → implb (forallb g xs) (fold_index andb true f k xs).
Proof.
  revert k. induction xs as [|x xs IH]; intros k Hx; [done|]. cbn.
  pose proof (Hx 0%nat x eq_refl) as H0. rewrite Nat.add_0_r in H0.
  specialize (IH (S k) ltac:(intros i y Hy; rewrite Nat.add_succ_comm; by apply Hx)).
  destruct (g x), (f k x), (forallb g xs); cbn in *; done.
Qed.
Lemma existsb_fold_index (g : expression → bool) (f : nat → expression → bool) xs k :
  (∀ i x, xs !! i = Some x → implb (g x) (f (k + i)%nat x)) → implb (existsb g xs) (fold_index orb false f k xs).
Proof.
  revert k. induction xs as [|x xs IH]; intros k Hx; [done|]. cbn.
  pose proof (Hx 0%nat x eq_refl) as H0. rewrite Nat.add_0_r in H0.
  specialize (IH (S k) ltac:(intros i y Hy; rewrite Nat.add_succ_comm; by apply Hx)).
  destruct (g x), (f k x), (existsb g xs); cbn in *; done.
Qed.

(** The value of an expression is at most that of its positions. *)
Lemma eval_walk (v : predicate → bool) f o e : no_negation e →
  (∀ r p, walk e r = Some (e_predicate p) → implb (v p) (f (o ++ r))) → implb (eval v e) (eval_at f o e).
Proof.
  revert o. induction e as [|xs IH|xs IH|x IH|p] using expression_ind'; intros o Hn Hf; [done| | |done|].
  3: { cbn. rewrite <- (app_nil_r o) at 1. by apply Hf. }
  all: cbn in Hn; rewrite foldr_Forall in Hn; cbn [eval eval_at]; first [apply forallb_fold_index|apply existsb_fold_index];
    intros i x Hx; rewrite Forall_lookup in IH, Hn; eapply IH; eauto; intros r p Hr; rewrite <- app_assoc; apply Hf; cbn; by rewrite Hx.
Qed.

Section resolve.
Context (predicate_ltb : predicate → predicate → bool) (fields : list field) (name : list N).

Lemma resolve_connective o xs i y k l : xs !! i = Some y →
  (fix go i xs := match xs with [] => Some []
    | x :: xs => ys ← resolve_impl predicate_ltb fields name (o ++ [i]) x; zs ← go (S i) xs; Some (ys ++ zs) end) k xs = Some l →
  ∃ ys, resolve_impl predicate_ltb fields name (o ++ [(k + i)%nat]) y = Some ys ∧ ∀ z, z ∈ ys → z ∈ l.
Proof.
  revert i k l. induction xs as [|x xs IH]; intros i k l Hi Hl; [done|].
  apply bind_Some in Hl as (ys & Hys & (zs & Hzs & [= <-])%bind_Some). destruct i as [|i].
  - injection Hi as ->. exists ys. rewrite Nat.add_0_r. split; [done|]. set_solver.
  - destruct (IH i (S k) zs Hi Hzs) as (ws & Hws & Hin). exists ws. rewrite <- Nat.add_succ_comm. split; [done|]. set_solver.
Qed.

(** [resolve] lists the predicates that an operand resolves to at its position. *)
Lemma resolve_impl_walk o e l r p : resolve_impl predicate_ltb fields name o e = Some l → walk e r = Some (e_predicate p) →
  ∃ x, type_resolver.resolve_predicate fields name p = value x ∧ ∀ q, q ∈ predicatizer predicate_ltb x → (o ++ r, q) ∈ l.
Proof.
  revert o l r. induction e as [|xs IH|xs IH|x IH|p'] using expression_ind'; intros o l r Hl Hw; [by destruct r| | | |].
  1,2: destruct r as [|i r]; [done|]; cbn in Hw; destruct (xs !! i) as [y|] eqn:Hi; [|done];
    destruct (resolve_connective o xs i y 0 l Hi Hl) as (ys & Hys & Hin); rewrite Forall_lookup in IH;
    destruct (IH i y Hi _ _ r Hys Hw) as (x & Hx & Hq); exists x; (split; [done|]); intros q Hq'; apply Hin;
    specialize (Hq q Hq'); by rewrite <- app_assoc in Hq.
  - destruct r as [|[|i] r]; [done| |done]. cbn in Hw, Hl. destruct (IH _ _ r Hl Hw) as (y & Hy & Hq). exists y. split; [done|].
    intros q Hq'. specialize (Hq q Hq'). by rewrite <- app_assoc in Hq.
  - destruct r as [|i r]; [|done]. injection Hw as ->. cbn in Hl. destruct (type_resolver.resolve_predicate _ _ p) as [x|]; [|done].
    injection Hl as <-. exists x. split; [done|]. intros q Hq. rewrite app_nil_r. by apply list_elem_of_fmap_2.
Qed.

Lemma resolve_connective_elem o xs k l z :
  (fix go i xs := match xs with [] => Some []
    | x :: xs => ys ← resolve_impl predicate_ltb fields name (o ++ [i]) x; zs ← go (S i) xs; Some (ys ++ zs) end) k xs = Some l →
  z ∈ l → ∃ i y ys, xs !! i = Some y ∧ resolve_impl predicate_ltb fields name (o ++ [(k + i)%nat]) y = Some ys ∧ z ∈ ys.
Proof.
  revert k l. induction xs as [|x xs IH]; intros k l Hl Hz; [injection Hl as <-; by apply not_elem_of_nil in Hz|].
  apply bind_Some in Hl as (ys & Hys & (zs & Hzs & [= <-])%bind_Some). apply elem_of_app in Hz as [Hz|Hz].
  - exists 0%nat, x, ys. by rewrite Nat.add_0_r.
  - destruct (IH (S k) zs Hzs Hz) as (i & y & ws & Hi & Hws & Hin). exists (S i), y, ws. by rewrite <- Nat.add_succ_comm.
Qed.

Lemma resolve_impl_elem o e l z : resolve_impl predicate_ltb fields name o e = Some l → z ∈ l →
  ∃ r p x, walk e r = Some (e_predicate p) ∧ type_resolver.resolve_predicate fields name p = value x ∧ z.2 ∈ predicatizer predicate_ltb x.
Proof.
  revert o l. induction e as [|xs IH|xs IH|x IH|p'] using expression_ind'; intros o l Hl Hz; [done| | | |].
  1,2: destruct (resolve_connective_elem o xs 0 l z Hl Hz) as (i & y & ys & Hi & Hys & Hin); rewrite Forall_lookup in IH;
    destruct (IH i y Hi _ _ Hys Hin) as (r & p & x & Hw & Hr & Hx); exists (i :: r), p, x; split_and!; [cbn; by rewrite Hi|done..].
  - destruct (IH _ _ Hl Hz) as (r & p & y & Hw & Hr & Hy). by exists (0%nat :: r), p, y.
  - cbn in Hl. destruct (type_resolver.resolve_predicate _ _ p') as [x|] eqn:E; [|done]. injection Hl as <-.
    apply list_elem_of_fmap in Hz as (q & -> & Hq). by exists [], p', x.
Qed.

(** Expressions that are false if none of their predicates holds. *)
Fixpoint solid (e : expression) : Prop :=
  match e with
  | conjunction xs => xs ≠ [] ∧ foldr (λ x Q, solid x ∧ Q) True xs
  | disjunction xs => foldr (λ x Q, solid x ∧ Q) True xs
  | negation _ => False
  | _ => True
  end.

Lemma eval_solid (v : predicate → bool) e : solid e → eval v e = true → ∃ q, q ∈ predicates e ∧ v q = true.
Proof.
  induction e as [|xs IH|xs IH|x IH|p] using expression_ind'; cbn [solid eval predicates]; [done| | |done|].
  - intros [Hne Hs%foldr_Forall] Hv. destruct xs as [|x xs]; [done|]. apply list.Forall_cons in IH as [IH _], Hs as [Hs _].
    cbn in Hv. apply andb_true_iff in Hv as [Hv _]. destruct (IH Hs Hv) as (q & Hq & Hvq). exists q. split; [|done].
    cbn. apply elem_of_app. by left.
  - intros Hs%foldr_Forall (x & Hx%list_elem_of_In & Hv)%existsb_exists. rewrite list.Forall_forall in IH, Hs.
    destruct (IH x Hx (Hs x Hx) Hv) as (q & Hq & Hvq). exists q. split; [|done].
    apply list_elem_of_In, in_concat. exists (predicates x). split; apply list_elem_of_In; [by apply list_elem_of_fmap_2|done].
  - intros _ Hv. exists p. split; [by left|done].
Qed.

Lemma connect_solid op xs : Forall solid xs → solid (type_resolver.connect op xs).
Proof.
  intros Hs. unfold type_resolver.connect. destruct xs as [|x [|y xs]]; [done|by apply list.Forall_cons in Hs as [? _]|].
  destruct (is_negated op); cbn [solid]; [split; [done|]|]; by apply foldr_Forall.
Qed.

Lemma resolve_predicate_solid p x : type_resolver.resolve_predicate fields name p = value x → solid x.
Proof.
  assert (∀ op f d, solid (type_resolver.resolve_extractor fields op f d)) as He.
  { intros op f d. apply connect_solid, list.Forall_forall. intros y (m & -> & _)%list_elem_of_fmap. done. }
  assert (∀ t op d x, type_resolver.resolve_type_extractor fields t op d = value x → solid x) as Ht.
  { intros t op d y. unfold type_resolver.resolve_type_extractor. repeat case_match; intros [= <-]; try apply He.
    cbn [solid foldr]. split; [apply He|]. split; [apply He|done]. }
  assert (∀ f op d x, type_resolver.resolve_field_extractor fields name f op d = value x → solid x) as Hf.
  { intros f op d y [= <-]. apply connect_solid, list.Forall_forall. intros z (o & _ & Hz)%list_elem_of_omap.
    apply bind_Some in Hz as (c & _ & Hz). by destruct (type.compatible _ _ _); [injection Hz as <-|]. }
  unfold type_resolver.resolve_predicate. destruct (lhs p), (rhs p); eauto; by intros [= <-].
Qed.

Lemma all_resolved_elem x q : all_resolved fields x → q ∈ predicates x → resolved fields q.
Proof.
  intros Hres Hq. induction x as [|xs IH|xs IH|x IH|p'] using expression_ind'; cbn in Hres, Hq; [by apply not_elem_of_nil in Hq| | | |].
  1,2: apply list_elem_of_In, in_concat in Hq as (ps & Hps%list_elem_of_In & Hq%list_elem_of_In); apply list_elem_of_fmap in Hps as (y & -> & Hy);
    apply foldr_Forall in Hres; rewrite list.Forall_forall in IH, Hres; eauto.
  - by apply IH.
  - by apply list_elem_of_singleton in Hq as ->.
Qed.

(** A predicate that holds has a resolved predicate that holds, at its position. *)
Lemma resolve_holds (v : predicate → bool) e l r p :
  (∀ p q, predicate_eqb p q = true → v p = v q) → resolve_impl predicate_ltb fields name [0%nat] e = Some l →
  walk e r = Some (e_predicate p) → extracts p → meaning fields name v p = true →
  ∃ q, ([0%nat] ++ r, q) ∈ l ∧ v q = true ∧ resolved fields q.
Proof.
  intros Hv Hl Hw Hp Hm. destruct (resolve_impl_walk _ _ _ _ _ Hl Hw) as (x & Hx & Hq).
  destruct (resolve_predicate_spec fields name p x Hp Hx) as [Hres Hev]. rewrite <- Hev in Hm.
  destruct (eval_solid v x (resolve_predicate_solid p x Hx) Hm) as (q & Hqx & Hvq).
  destruct (predicatizer_spec predicate_ltb x) as [Hin Hcov]. destruct (Hcov q Hqx) as (q' & Hq' & Heq).
  exists q'. split; [by apply Hq|]. split; [destruct Heq as [->|Heq]; [done|]; by rewrite (Hv _ _ Heq)|].
  apply Hin in Hq'. by eapply all_resolved_elem.
Qed.
End resolve.

Section completeness.
Context {ids : Type} `{Bitmap ids}.
Context (regex_match regex_search : list N → list N → bool) (predicate_ltb : predicate → predicate → bool).
Context (st : partition_state ids) (fields : list field) (Hschema : combined_schema st = Some fields).
(** A row [j] with the value [v] of every predicate on a column or on metadata. *)
Context (v : predicate → bool) (j : nat).
Implicit Types (r : ids) (t : evaluation_triple ids).

Definition in_ids (m : list (list N * ids)) (name : list N) : Prop := ∃ r, (name, r) ∈ m ∧ bit_at (bm_list r) j = true.

(** The indexers answer the predicates that hold for the row, and with the row; the metadata are
    those of the row. *)
Definition row_indexed : Prop :=
  (∀ name r, (name, r) ∈ type_ids st → bm_wf r) ∧
  (∃ name, in_ids (type_ids st) name ∧
    ∀ op d, v (mk_predicate (meta_extractor meta_type) op (o_data d)) = true →
      DataOps.evaluate regex_match regex_search (d_string name) op d = true) ∧
  (∀ op d, v (mk_predicate (meta_extractor meta_import_time) op (o_data d)) = true → import_time_may_match st op d = true) ∧
  ∀ c ix ty op d, indexers st !! N.to_nat c = Some (Some ix) → v (mk_predicate (data_extractor ty c) op (o_data d)) = true →
    ∃ r, ix (mk_curried op d) = value r ∧ bit_at (bm_list r) j = true.

(** The answers to some predicates are bitmaps. *)
Definition answers_wf (ps : list predicate) : Prop :=
  ∀ ty c op d ix r, mk_predicate (data_extractor ty c) op (o_data d) ∈ ps → indexers st !! N.to_nat c = Some (Some ix) →
    ix (mk_curried op d) = value r → bm_wf r.

Lemma collect_ids_spec keep m : (∀ name r, (name, r) ∈ m → bm_wf r) →
  bm_wf (collect_ids keep m) ∧ ∀ name, in_ids m name → keep name = true → bit_at (bm_list (collect_ids keep m)) j = true.
Proof.
  unfold collect_ids. intros Hm.
  assert (∀ acc : ids, bm_wf acc → bm_wf (foldl (λ r nv, if keep nv.1 then bitmap_algorithms.binary_or r nv.2 else r) acc m) ∧
    ((bit_at (bm_list acc) j = true ∨ ∃ name, in_ids m name ∧ keep name = true) →
     bit_at (bm_list (foldl (λ r nv, if keep nv.1 then bitmap_algorithms.binary_or r nv.2 else r) acc m)) j = true)) as Hf.
  { induction m as [|[n r] m IH]; intros acc Ha; cbn [foldl fst snd].
    { split; [done|]. intros [?|(n & (r & Hr%not_elem_of_nil & _) & _)]; done. }
    assert (bm_wf (if keep n then bitmap_algorithms.binary_or acc r else acc)) as Hw.
    { destruct (keep n); [|done]. apply binary_or_bit; [done|]. apply (Hm n). by left. }
    destruct (IH ltac:(intros; eapply Hm; by right) _ Hw) as [Hw' Hb]. split; [done|]. intros Hor. apply Hb.
    destruct (binary_or_bit acc r Ha) as [_ Hbit]; [apply (Hm n); by left|].
    destruct Hor as [Hacc|(n' & (r' & Hin & Hr') & Hk)].
    - left. destruct (keep n); [|done]. by rewrite Hbit, Hacc.
    - apply elem_of_cons in Hin as [[= -> ->]|Hin].
      + left. rewrite Hk, Hbit, Hr'. apply orb_true_r.
      + right. exists n'. split; [by exists r'|done]. }
  destruct (Hf bm_nil (proj1 bm_nil_spec)) as [Hw Hb]. split; [done|]. intros name Hn Hk. apply Hb. right. eauto.
Qed.

Lemma make_triple_spec pos q t no_indexer : row_indexed → resolved fields q → v q = true →
  make_triple regex_match regex_search st (pos, q) = Some t →
  (handle t = None → bit_at (bm_list no_indexer) j = true) →
  position t = pos ∧ answer_bit no_indexer j t = true.
Proof.
  intros (Hm & (name & Hn & Hty) & Hit & Hcol) Hres Hv Ht Hno. unfold make_triple in Ht. destruct q as [l o r]. cbn [lhs rhs op snd fst] in *.
  apply bind_Some in Ht as (c & Hc & [= <-]). split; [done|]. unfold answer_bit, answer. cbn [handle curried_pred] in *.
  unfold resolved in Hres. cbn [lhs rhs] in Hres. destruct l as [k|f|ty|ty cl|d0], r as [k'|f'|ty'|ty' cl'|d]; try done.
  - unfold fetch_meta_indexer. destruct k; (apply collect_ids_spec with name; [done|done|]); auto.
  - unfold curried in Hc. cbn in Hc. injection Hc as <-. unfold indexer_at in *.
    destruct (indexers st !! N.to_nat cl) as [[ix|]|] eqn:E; cbn [default] in *; unfold id in *; [|by rewrite Hno..].
    by destruct (Hcol _ _ _ _ _ E Hv) as (r & -> & Hr).
Qed.

Lemma make_triple_total pos q : resolved fields q → ∃ t, make_triple regex_match regex_search st (pos, q) = Some t.
Proof. unfold resolved, make_triple, curried. destruct q as [l o r]. cbn. destruct l, r; try done; cbn; eauto. Qed.

Lemma triple_answer_wf ps pos q t no_indexer r : row_indexed → answers_wf ps → q ∈ ps → bm_wf no_indexer → make_triple regex_match regex_search st (pos, q) = Some t →
  answer no_indexer t = value r → bm_wf r.
Proof.
  intros (Hm & _) Hps Hq Hno Ht Hr. unfold make_triple in Ht. apply bind_Some in Ht as (c & Hc & [= <-]).
  unfold answer in Hr. cbn [handle curried_pred] in Hr. destruct q as [l o rh]. cbn in *.
  destruct l as [k|f|ty|ty cl|d0], rh as [k'|f'|ty'|ty' cl'|d]; try (by injection Hr as <-).
  - destruct k; injection Hr as <-; by apply collect_ids_spec.
  - unfold indexer_at in Hr. destruct (indexers st !! N.to_nat cl) as [[ix|]|] eqn:E; cbn in Hr; [|by injection Hr as <-..].
    injection Hc as <-. by eapply Hps.
Qed.

Lemma get_ids_spec ts : row_indexed → bm_wf (get_ids_for_evaluation (type_ids st) ts) ∧
  ∀ t, t ∈ ts → handle t = None → bit_at (bm_list (get_ids_for_evaluation (type_ids st) ts)) j = true.
Proof.
  intros (Hm & (name & Hn & _) & _). unfold get_ids_for_evaluation, needs_evaluation_without_indexer.
  destruct (collect_ids_spec (λ _, true) (type_ids st) Hm) as [Hw Hb]. destruct (existsb _ ts) eqn:E.
  - split; [done|]. intros t _ _. by apply (Hb name).
  - split; [apply bm_nil_spec|]. intros t Ht Hh. exfalso. apply not_true_iff_false in E. apply E, existsb_exists.
    exists t. split; [by apply list_elem_of_In|]. by rewrite Hh.
Qed.

Lemma proper_walk (Q : predicate → Prop) e (r : list nat) p : proper Q e → walk e r = Some (e_predicate p) → Q p.
Proof.
  revert r. induction e as [|xs IH|xs IH|x IH|p'] using expression_ind'; intros r Hp Hw; [done| | | |].
  1,2: destruct r as [|i r]; [done|]; cbn in Hw; destruct (xs !! i) as [y|] eqn:Hi; [|done];
    (apply proper_disjunction, proper_connective in Hp as [_ Hp] || apply proper_connective in Hp as [_ Hp]);
    rewrite Forall_lookup in IH, Hp; eauto.
  - destruct r as [|[|i] r]; [done| |done]. by apply (IH r).
  - destruct r; [|done]. by injection Hw as <-.
Qed.

(** The positions of the predicates that hold for the row have an answer with the row. *)
Lemma evaluate_positions e l ts : row_indexed → (∀ p q, predicate_eqb p q = true → v p = v q) →
  proper extracts e → no_negation e → resolve_impl predicate_ltb fields [] [0%nat] e = Some l →
  evaluate regex_match regex_search predicate_ltb st e = Some ts → eval (meaning fields [] v) e = true →
  eval_at (position_bit (get_ids_for_evaluation (type_ids st) ts) ts j) [0%nat] e = true.
Proof.
  intros Hrow Hv Hp Hn Hl Hts Hev. unfold evaluate in Hts. rewrite Hschema in Hts. unfold resolve in Hts. rewrite Hl in Hts. cbn [default] in Hts.
  unfold id in Hts. apply mapM_Some_1 in Hts. destruct (get_ids_spec ts Hrow) as [_ Hno].
  assert (implb (eval (meaning fields [] v) e) (eval_at (position_bit (get_ids_for_evaluation (type_ids st) ts) ts j) [0%nat] e)) as Hi.
  { apply eval_walk; [done|]. intros r p Hw. destruct (meaning fields [] v p) eqn:Hm; [|done].
    destruct (resolve_holds predicate_ltb fields [] v e l r p Hv Hl Hw (proper_walk _ _ _ _ Hp Hw) Hm) as (q & Hq & Hvq & Hres).
    apply list_elem_of_lookup in Hq as [i Hi]. destruct (Forall2_lookup_l _ _ _ _ _ Hts Hi) as (t & Hti & Ht).
    assert (t ∈ ts) as Hin by (by eapply list_elem_of_lookup_2).
    destruct (make_triple_spec _ _ t (get_ids_for_evaluation (type_ids st) ts) Hrow Hres Hvq Ht) as [Hpos Ha]; [by apply Hno|].
    cbn [implb]. assert (position_bit (get_ids_for_evaluation (type_ids st) ts) ts j ([0%nat] ++ r) = true) as ->; [|done].
    apply existsb_exists. exists t. split; [by apply list_elem_of_In|]. by rewrite bool_decide_eq_true_2, Ha. }
  rewrite Hev in Hi. by destruct (eval_at _ _ _).
Qed.

Lemma evaluate_total e l : proper extracts e → resolve_impl predicate_ltb fields [] [0%nat] e = Some l →
  ∃ ts, evaluate regex_match regex_search predicate_ltb st e = Some ts ∧ length ts = length l.
Proof.
  intros Hp Hl. unfold evaluate. rewrite Hschema. unfold resolve. rewrite Hl. cbn [default]. unfold id.
  assert (Forall (λ x, is_Some (make_triple regex_match regex_search st x)) l) as Hf.
  { apply list.Forall_forall. intros [pos q] Hq. destruct (resolve_impl_elem _ _ _ _ _ _ _ Hl Hq) as (r & p & x & Hw & Hr & Hx).
    apply (make_triple_total pos q). eapply all_resolved_elem.
    - by apply (resolve_predicate_spec fields [] p x (proper_walk _ _ _ _ Hp Hw) Hr).
    - by apply (predicatizer_spec predicate_ltb x). }
  apply mapM_is_Some_2 in Hf as [ts Hts]. exists ts. split; [done|]. by apply length_mapM in Hts.
Qed.

Lemma evaluate_wf e ts : row_indexed → answers_wf (resolve predicate_ltb fields [] e).*2 → evaluate regex_match regex_search predicate_ltb st e = Some ts →
  answered_wf (get_ids_for_evaluation (type_ids st) ts) ts.
Proof.
  intros Hrow Hps Hts t r Ht Hr. unfold evaluate in Hts. rewrite Hschema in Hts. apply mapM_Some_1 in Hts.
  apply list_elem_of_lookup in Ht as [i Hi]. destruct (Forall2_lookup_r _ _ _ _ _ Hts Hi) as ([pos q] & Hin & Hq).
  eapply triple_answer_wf; [done|exact Hps| | |exact Hq|exact Hr]; [|by apply get_ids_spec].
  apply list_elem_of_fmap. exists (pos, q). split; [done|]. by eapply list_elem_of_lookup_2.
Qed.
End completeness.
