(* ===== verification/BitmapTheorems.v ===== *)
(** The properties of the bitmaps, each with a witness where it has hypotheses. *)

From S2P Require Import Prelude Word Bits BitmapConcept EwahBitmap EwahRange BitmapAlgorithms.
From S2P Require Import BitwiseRange WahBitmap Bitvector Bitmap.

(** ** Concrete bitmaps for the witnesses *)

(** 70 zeros, 3 ones, a flip, a block of 5 bits and a single bit. *)
Definition sample_history : list modifier :=
  [m_append_bits false 70; m_append_bits true 3; m_flip; m_append_block 21 5; m_append_bit true].
Definition sample : ewah_bitmap.ewah_bitmap := foldl apply_modifier bm_nil sample_history.
Definition sample_small : ewah_bitmap.ewah_bitmap :=
  foldl apply_modifier bm_nil [m_append_block 6 4; m_append_bit true].
Definition sample_bitmap : bitmap.bitmap := bitmap.ewah sample.

Lemma sample_wf : bm_wf sample.
Proof. exact (proj1 (history_spec (B:=ewah_bitmap.ewah_bitmap) sample_history eq_refl)). Defined.
Lemma sample_small_wf : bm_wf sample_small.
Proof.
  exact (proj1 (history_spec (B:=ewah_bitmap.ewah_bitmap) [m_append_block 6 4; m_append_bit true] eq_refl)).
Defined.

(** ** Representations *)

(** C6: Whatever sequence of [append_bit], [append_bits], [append_block] and [flip] is applied to
    an empty EWAH bitmap, within the maximum size, the bitmap satisfies its class invariant, has
    the size, and iterates over the bits, of the list the same operations build. *)
Theorem ewah_refinement ms :
  history_ok ms = true →
  let bm : ewah_bitmap.ewah_bitmap := foldl apply_modifier bm_nil ms in
  let l := foldl modify_list [] ms in
  ewah_inv bm ∧ ewah_bitmap.size bm = lenN l ∧
  Forall (λ s, bits.size s ≠ 0) (ewah_bitmap_range.bit_range bm) ∧
  range_bits (ewah_bitmap_range.bit_range bm) = l.
Proof.
  intros Hok. destruct (history_spec (B:=ewah_bitmap.ewah_bitmap) ms Hok) as (Hb & _ & Hs & Hr & _).
  split; [done|]. split; [done|]. split; [exact (ewah_bitmap_strict _ Hb)|done].
Qed.

Lemma ewah_refinement_witness :
  ewah_bitmap.size sample = 79 ∧
  range_bits (ewah_bitmap_range.bit_range sample) = foldl modify_list [] sample_history.
Proof.
  destruct (ewah_refinement sample_history eq_refl) as (_ & Hs & _ & Hr).
  exact (conj Hs Hr).
Defined.

(** C37: The same for WAH bitmaps: any history of modifiers within the maximum size yields the
    invariant, the size and the bits of the list. *)
Theorem wah_refinement ms :
  history_ok ms = true →
  let bm : wah_bitmap.wah_bitmap := foldl apply_modifier bm_nil ms in
  let l := foldl modify_list [] ms in
  wah_inv bm ∧ wah_bitmap.size bm = lenN l ∧ range_bits (wah_bitmap_range.bit_range bm) = l.
Proof.
  intros Hok. destruct (history_spec (B:=wah_bitmap.wah_bitmap) ms Hok) as (Hb & _ & Hs & Hr & _). done.
Qed.

Lemma wah_refinement_witness :
  let bm : wah_bitmap.wah_bitmap := foldl apply_modifier bm_nil sample_history in
  wah_bitmap.size bm = 79 ∧
  range_bits (wah_bitmap_range.bit_range bm) = foldl modify_list [] sample_history.
Proof. destruct (wah_refinement sample_history eq_refl) as (_ & Hs & Hr). exact (conj Hs Hr). Defined.

(** The type-erased bitmap refines the list of bits as well, and random access by
    [operator[]] reads the list: it dies exactly behind the end. *)
Theorem bitmap_refinement ms i :
  history_ok ms = true →
  let bm : bitmap.bitmap := foldl apply_modifier bm_nil ms in
  let l := foldl modify_list [] ms in
  bitmap.size bm = lenN l ∧ range_bits (bitmap.bit_range bm) = l ∧
  bitmap_base.get bm i = l !! N.to_nat i.
Proof.
  intros Hok. destruct (history_spec (B:=bitmap.bitmap) ms Hok) as (_ & _ & Hs & Hr & Hg). auto.
Qed.

Lemma bitmap_refinement_witness :
  bitmap_base.get (foldl apply_modifier (bm_nil (B:=bitmap.bitmap)) sample_history) 72 = Some false.
Proof. by destruct (bitmap_refinement sample_history 72 eq_refl) as (_ & _ & ->). Defined.

(** Appending one bitmap to another, of any two types, concatenates their bits. *)
Theorem bitmap_concatenation {B C} `{Bitmap B, Bitmap C} (b : B) (other : C) :
  bm_wf b → bm_wf other → lenN (bm_list b) + lenN (bm_list other) <= max_size →
  bm_wf (bitmap_base.append b other) ∧
  bm_list (bitmap_base.append b other) = bm_list b ++ bm_list other.
Proof. apply bitmap_append_spec. Qed.

Lemma bitmap_concatenation_witness :
  bm_list (bitmap_base.append sample sample_small) = bm_list sample ++ bm_list sample_small.
Proof.
  apply (bitmap_concatenation sample sample_small sample_wf sample_small_wf). by vm_compute.
Defined.

(** The operations of a bit vector on a valid vector: [push_back], a growing [resize],
    [append_block] and [flip] keep it valid and change the bits as their names say. *)
Theorem bitvector_operations bv b n x k :
  bv_inv bv → bitvector.size bv < n → is_u64 x → 0 < k → k <= 64 →
  (bv_inv (bitvector.push_back bv b) ∧
   bitvector.to_list (bitvector.push_back bv b) = bitvector.to_list bv ++ [b]) ∧
  (bv_inv (bitvector.resize bv n b) ∧
   bitvector.to_list (bitvector.resize bv n b) =
   bitvector.to_list bv ++ reps (n - bitvector.size bv) b) ∧
  (bv_inv (bitvector.append_block bv x k) ∧
   bitvector.to_list (bitvector.append_block bv x k) = bitvector.to_list bv ++ bits_of x k) ∧
  (bv_inv (bitvector.flip bv) ∧
   bitvector.to_list (bitvector.flip bv) = negb <$> bitvector.to_list bv).
Proof.
  intros. split; [by apply bv_push_back_spec|]. split; [by apply bv_resize_spec|].
  split; [by apply bv_append_block_spec|by apply bv_flip_spec].
Qed.

Lemma bitvector_operations_witness :
  bitvector.to_list (bitvector.resize (bitvector.push_back bitvector.nil true) 3 false) =
  [true; false; false].
Proof.
  assert (bv_inv (bitvector.push_back bitvector.nil true)) as Hi
    by (by apply bv_push_back_spec; constructor).
  destruct (bitvector_operations _ false 3 5 4 Hi) as (_ & [_ E] & _); [by vm_compute..|].
  rewrite E. by vm_compute.
Defined.

(** Two operations that deviate. The range over a null bitmap reports 66 zeros for a vector of
    64 zeros followed by the bits 1 and 0, because the partial last block is compared at one bit. And
    two bit vectors of 64 bits compare equal although they differ: the last block is masked with no
    bits when the size is a multiple of the word size. *)
Theorem bitvector_deviates :
  (∃ bm : null_bitmap.null_bitmap,
    bm = null_bitmap.append_bit (null_bitmap.append_bit
           (null_bitmap.append_bits null_bitmap.nil false 64) true) false ∧
    null_bitmap.to_list bm = reps 64 false ++ [true; false] ∧
    range_bits (null_bitmap_range.bit_range bm) = reps 66 false) ∧
  bitvector.eqb (bitvector.make 64 false) (bitvector.make 64 true) = true ∧
  bitvector.to_list (bitvector.make 64 false) ≠ bitvector.to_list (bitvector.make 64 true).
Proof. split; [eexists; split; [done|]; by vm_compute|]. split; [done|]. by vm_compute. Qed.

(** ** Algorithms *)

(** C15: The binary operators on well-formed bitmaps of any types make well-formed bitmaps of the size
    of the longer operand. AND, OR, XOR and the difference, which is named NAND, combine the operands
    bit by bit, the shorter one filled up with zeros. NOR is the disjunction with the complement of the
    right operand as far as both reach, and behind that the rest of the longer one. *)
Theorem binary_operators {R L H} `{Bitmap R, Bitmap L, Bitmap H} (x : L) (y : H) :
  bm_wf x → bm_wf y →
  let combines (r : R) f := bm_wf r ∧ bm_size r = N.max (bm_size x) (bm_size y) ∧
    ∀ i, bit_at (bm_list r) i = f i (bit_at (bm_list x) i) (bit_at (bm_list y) i) in
  combines (bitmap_algorithms.binary_and x y) (λ _ a b, a && b) ∧
  combines (bitmap_algorithms.binary_or x y) (λ _ a b, a || b) ∧
  combines (bitmap_algorithms.binary_xor x y) (λ _ a b, xorb a b) ∧
  combines (bitmap_algorithms.binary_nand x y) (λ _ a b, a && negb b) ∧
  combines (bitmap_algorithms.binary_nor x y) (λ i a b, if N.of_nat i <? N.min (bm_size x) (bm_size y) then a || negb b else a || b).
Proof.
  intros Hx Hy. cbn zeta. destruct (binary_and_spec (R:=R) x y Hx Hy) as [Ha Ea], (binary_or_spec (R:=R) x y Hx Hy) as [Ho Eo],
    (binary_xor_spec (R:=R) x y Hx Hy) as [Hxo Exo], (binary_nand_spec (R:=R) x y Hx Hy) as [Hd Ed], (binary_nor_spec (R:=R) x y Hx Hy) as [Hn En].
  rewrite !bm_size_spec, Ea, Eo, Exo, Ed, En by done. unfold lenN. rewrite !length_pad_eval, length_eval_list.
  repeat split; try done; try lia; intros i; [by rewrite bit_at_pad_eval..|]. rewrite bit_at_eval_filled. case_decide; [by rewrite (proj2 (N.ltb_lt _ _)) by lia|].
  rewrite (proj2 (N.ltb_ge _ _)) by lia. done.
Qed.

Lemma binary_operators_witness :
  bit_at (bm_list (bitmap_algorithms.binary_or (R:=ewah_bitmap.ewah_bitmap) sample_small sample)) 77 = true ∧
  bm_size (bitmap_algorithms.binary_nor (R:=ewah_bitmap.ewah_bitmap) sample_small sample) = bm_size sample.
Proof.
  destruct (binary_operators (R:=ewah_bitmap.ewah_bitmap) sample_small sample
    sample_small_wf sample_wf) as (_ & (_ & _ & E) & _ & _ & (_ & En & _)). split; [rewrite E; by vm_compute|]. rewrite En. by vm_compute.
Defined.

(** The disjunction of any number of bitmaps, in whatever order the priority queue hands them
    out, has a 1-bit where one of them has. *)
Theorem nary_disjunction {B} `{Bitmap B} (top : list B → option (B * list B)) (q : list B) i :
  queue_top top → q ≠ [] → Forall bm_wf q →
  let r := bitmap_algorithms.nary_or top q in
  bm_wf r ∧ bit_at (bm_list r) i = existsb (λ b, bit_at (bm_list b) i) q.
Proof.
  intros Htop Hne Hq. destruct (nary_eval_spec top Htop _ orb false (λ x y, binary_or_spec (R:=B) x y)
    eq_refl ltac:(intros ???; apply orb_assoc) ltac:(intros ??; apply orb_comm)
    ltac:(intros ?; apply orb_false_r) q Hne Hq) as (Hw & _ & Hb).
  split; [done|]. rewrite Hb. unfold nary_bit. clear. induction q; cbn; congruence.
Qed.

(** A queue that hands out the bitmaps in the order they were put in. *)
Definition fifo {B} (q : list B) : option (B * list B) :=
  match q with [] => None | x :: q => Some (x, q) end.
Lemma fifo_top {B} : queue_top (fifo (B:=B)).
Proof. intros [|x q]; cbn; done. Defined.

Lemma nary_disjunction_witness :
  bit_at (bm_list (bitmap_algorithms.nary_or fifo [sample_small; sample; sample_small])) 77 = true.
Proof.
  destruct (nary_disjunction fifo [sample_small; sample; sample_small] 77 fifo_top) as [_ ->]; [done| |by vm_compute].
  apply Forall_cons; [exact sample_small_wf|]. apply Forall_cons; [exact sample_wf|].
  apply Forall_cons; [exact sample_small_wf|]. apply Forall_nil.
Defined.

(** [rank] counts the bits of a value up to a position, or all of them. *)
Theorem rank_counts {B} `{Bitmap B} bit (bm : B) i :
  bm_wf bm → i < bm_size bm →
  bitmap_algorithms.rank_upto bit bm i = count_bit bit (take (N.to_nat (i + 1)) (bm_list bm)) ∧
  bitmap_algorithms.rank bit bm = count_bit bit (bm_list bm).
Proof. intros. split; [by apply rank_upto_spec|by apply rank_spec]. Qed.

Lemma rank_counts_witness : bitmap_algorithms.rank_upto true sample 72 = 70.
Proof. destruct (rank_counts true sample 72 sample_wf) as [-> _]; by vm_compute. Defined.

(** [select] finds the position of the [i]-th bit of a value and returns [npos] when there
    are fewer. *)
Theorem select_finds {B} `{Bitmap B} bit (bm : B) i :
  bm_wf bm → 0 < i → i ≠ word.npos →
  bitmap_algorithms.select bit bm i = or_npos (nth_bit bit i (bm_list bm)).
Proof. apply bm_select_spec. Qed.

Lemma select_finds_witness : bitmap_algorithms.select false sample 2 = 71.
Proof. by rewrite (select_finds false sample 2 sample_wf). Defined.

(** [select] with [npos] returns the last 1-bit also when the last 0-bit is asked for. *)
Theorem select_last_ignores_bit {B} `{Bitmap B} bit (bm : B) :
  bm_wf bm → bitmap_algorithms.select bit bm word.npos = or_npos (last_bit true (bm_list bm)).
Proof. apply select_last_spec. Qed.

Lemma select_last_ignores_bit_witness :
  bitmap_algorithms.select false sample_small word.npos = 4 ∧
  or_npos (last_bit false (bm_list sample_small)) = 3.
Proof. by rewrite (select_last_ignores_bit false sample_small sample_small_wf). Defined.

(** [frame] returns the first and the last position of a value, [any] and [all] decide whether
    a value occurs and whether it is the only one, and [is_subset] decides whether all 1-bits of one
    bitmap are 1-bits of another. *)
Theorem frame_any_all_subset {R B H} `{Bitmap R, Bitmap B, Bitmap H} bit (bm : B) (bm' : H) :
  bm_wf bm → bm_wf bm' →
  bitmap_algorithms.frame bit bm =
    (or_npos (first_bit bit (bm_list bm)), or_npos (last_bit bit (bm_list bm))) ∧
  bitmap_algorithms.any bit bm = bool_decide (bit ∈ bm_list bm) ∧
  bitmap_algorithms.all bit bm = bool_decide (Forall (eq bit) (bm_list bm)) ∧
  (bitmap_algorithms.is_subset (R:=R) bm bm' = true ↔
   ∀ i, bm_list bm !! i = Some true → bm_list bm' !! i = Some true).
Proof.
  intros. split; [by apply frame_spec|]. split; [by apply any_spec|]. split; [by apply all_spec|].
  by apply is_subset_spec.
Qed.

Lemma frame_any_all_subset_witness : bitmap_algorithms.frame false sample = (70, 76).
Proof.
  by destruct (frame_any_all_subset (R:=ewah_bitmap.ewah_bitmap) false sample sample sample_wf sample_wf)
    as [-> _].
Defined.

(** ** Ranges over positions *)

(** The range of [select] visits exactly the positions of a value, in ascending order. *)
Theorem select_visits_positions {B} `{StrictRange B} bit (bm : B) :
  bm_wf bm → select_range.select_ids bit bm = positions bit (bm_list bm).
Proof. apply select_ids_spec. Qed.

Lemma select_visits_positions_witness : select_range.select_ids false sample = [70; 71; 72; 74; 76].
Proof. by rewrite (select_visits_positions false sample sample_wf). Defined.

(** [select_runs] yields the maximal runs of a value as half-open intervals, in order. *)
Theorem select_runs_yields_runs {B} `{StrictRange B} bit (bm : B) :
  bm_wf bm → bm_list bm ≠ [] → select_runs.select_runs bit bm = runs bit (bm_list bm).
Proof. apply select_runs_spec. Qed.

Lemma select_runs_yields_runs_witness :
  select_runs.select_runs true sample = [(0, 70); (73, 74); (75, 76); (77, 79)].
Proof. rewrite (select_runs_yields_runs true sample sample_wf); by vm_compute. Defined.

(** [select_with] applies the function to exactly the elements whose interval contains a
    1-bit, in order, and stops at the first error. *)
Theorem select_with_hits {B} `{StrictRange B} {A S E} (f : A → N * N) (g : S → A → S * option E)
    s (bm : B) xs :
  bm_wf bm → intervals_from f 0 xs →
  select_with.select_with f g s bm xs = run_until_error g s (filter (hit f (bm_list bm)) xs).
Proof. apply select_with_spec. Qed.

Lemma select_with_hits_witness :
  select_with.select_with (λ x : N * N, x) (λ (s : list N) x, (x.1 :: s, @None unit)) [] sample
    [(2, 5); (70, 73); (74, 75); (77, 90)] = ([77; 2], None).
Proof.
  rewrite (select_with_hits (λ x : N * N, x) (λ (s : list N) x, (x.1 :: s, @None unit)) [] sample
    [(2, 5); (70, 73); (74, 75); (77, 90)] sample_wf); [by vm_compute|]. by vm_compute.
Defined.

(** From any position, [select_from] moves a range to the first position of a value that is
    not before a given one, or to the end. *)
Theorem select_from_moves l bit p r x :
  lenN l <= max_size → at_pos l p r → p <= x →
  at_opt l (next_pos bit l x) (bitwise_range.select_from bit r x).
Proof. intros. by apply (select_from_spec l) with p. Qed.

Lemma select_from_moves_witness :
  at_opt (bm_list sample) (Some 72) (bitwise_range.select_from false (each sample) 72).
Proof.
  assert (next_pos false (bm_list sample) 72 = Some 72) as <- by (by vm_compute).
  apply (select_from_moves (bm_list sample) false 0 (each sample) 72); [by vm_compute| |by vm_compute].
  exact (each_spec sample sample_wf).
Defined.

(** [make_ids] builds the IDs of its ranges, overlapping or not and in any order, and fills
    up to the minimum size with the default bit. *)
Theorem make_ids_covers ranges min_size d i :
  ranges_ok ranges → min_size <= max_size →
  let b : bitmap.bitmap := ids.make_ids ranges min_size d in
  bitmap.size b = N.max (hull ranges) min_size ∧
  bit_at (bm_list b) (N.to_nat i) =
  covered ranges i || (d && id_in i (hull ranges, min_size)).
Proof.
  intros Hr Hm. destruct (make_ids_bits (B:=bitmap.bitmap) ranges min_size d Hr Hm) as (_ & ? & ?). auto.
Qed.

Lemma make_ids_covers_witness :
  bitmap.size (ids.make_ids [(5, 9); (2, 7)] 12 true) = 12 ∧
  bit_at (bm_list (ids.make_ids (B:=bitmap.bitmap) [(5, 9); (2, 7)] 12 true)) 3 = true.
Proof.
  destruct (make_ids_covers [(5, 9); (2, 7)] 12 true 3) as [E E']; [by repeat constructor|by vm_compute|].
  split; [exact E|exact E'].
Defined.
