(* ===== verification/IndexTheorems.v ===== *)
(** The properties of the coders, bitmap indexes and value indexes, each with a witness where it
    has hypotheses. *)

From S2P Require Import Prelude Word Bits BitmapConcept EwahBitmap EwahRange BitmapAlgorithms.
From S2P Require Import Bitmap Operator Base Coder MultiLevelCoder BitsliceCoder Order.
From S2P Require Import BitmapIndex Data ValueIndex ValueIndexSpec ArithmeticIndex.
From S2P Require Import EnumerationIndex StringIndex.

Import arithmetic_index.
#[local] Existing Instances string_index.ops enumeration_index.ops.

(** ** Appending a sequence of values *)

(** [append] for each value in turn. *)
Definition append_all {I} `{ValueIndexOps I} (vi : value_index.value_index I) (ds : list data) :=
  foldl (λ vi d, (value_index.append vi d).1) vi ds.

Lemma append_all_spec {I} `{ValueIndexImpl I} (vi : value_index.value_index I) es ds :
  vi_rep vi es → Forall (λ d, is_none d = true ∨ impl_accepts d) ds → lenN es + lenN ds <= max_size →
  vi_rep (append_all vi ds) (es ++ (Some <$> ds)).
Proof.
  revert vi es. induction ds as [|d ds IH]; intros vi es Hrep Hds Hle.
  { cbn. by rewrite app_nil_r. }
  apply Forall_cons_iff in Hds as [Hd Hds]. rewrite lenN_cons in Hle.
  assert (vi_rep (value_index.append vi d).1 (es ++ [Some d])) as Hrep'.
  { pose proof Hrep as (_ & _ & Ho & _). unfold value_index.append. rewrite Ho.
    assert (extend es (lenN es) d = es ++ [Some d]) as <- by (unfold extend; by rewrite N.sub_diag).
    destruct (is_none d) eqn:E; [|destruct Hd as [?|Hd]; [done|]].
    - destruct d; try done. destruct (vi_append_none vi es (lenN es) Hrep) as (vi' & -> & ?); [lia..|done].
    - destruct (vi_append_value vi es d (lenN es) Hrep E Hd) as (vi' & -> & ?); [lia..|done]. }
  unfold append_all. cbn [foldl fmap list_fmap]. fold (append_all (value_index.append vi d).1 ds).
  change (Some d :: (Some <$> ds)) with ([Some d] ++ (Some <$> ds)). rewrite app_assoc.
  apply IH; [done..|]. autorewrite with lendb. lia.
Qed.

(** What a lookup on a freshly built index returns. *)
Lemma built_lookup {I} `{ValueIndexImpl I} (i : I) ds op x :
  impl_rep i [] → Forall (λ d, is_none d = true ∨ impl_accepts d) ds → lenN ds <= max_size →
  is_none x = false → impl_supports op x →
  ∃ vi' r, value_index.lookup (append_all (value_index.make i) ds) op x = (vi', value r) ∧
    bm_list r = (λ d, if is_none d then op ==o not_equal else impl_matches op d x) <$> ds.
Proof.
  intros Hi Hds Hle Hx Hs. pose proof (vi_make_rep i Hi) as Hrep.
  pose proof (append_all_spec _ [] ds Hrep Hds ltac:(rewrite lenN_nil; lia)) as Hrep'.
  destruct (vi_lookup_value _ _ op x Hrep' Hx Hs) as (vi' & r & E & _ & _ & El).
  eexists _, _. split; [done|]. by rewrite El, app_nil_l, <- list_fmap_compose.
Qed.

(** A column of an arithmetic type: values or nil. *)
Definition is_int64 (d : data) : Prop := d = d_none ∨ ∃ x, d = d_int64 x ∧ is_i64 x.
Definition is_uint64 (d : data) : Prop := d = d_none ∨ ∃ x, d = d_uint64 x ∧ x < 2 ^ 64.
Definition is_bool (d : data) : Prop := d = d_none ∨ ∃ x, d = d_bool x.
(** Times at or after the epoch. *)
Definition is_time (d : data) : Prop := d = d_none ∨ ∃ x, d = d_time x ∧ (0 <= x < 2 ^ 63)%Z.

Lemma column_accepts {I} `{ValueIndexImpl I} (P : data → Prop) ds :
  (∀ d, P d → is_none d = true ∨ impl_accepts d) → Forall P ds →
  Forall (λ d, is_none d = true ∨ impl_accepts d) ds.
Proof. intros HP. by apply Forall_impl. Qed.

(** ** Arithmetic indexes *)

(** C4: An [int64_t] index answers exactly: after appending any column of integers and nils, a
    lookup with any comparison returns the rows for which it holds, and for [!=] the nils too. *)
Theorem int64_index_exact ds op x :
  Forall is_int64 ds → lenN ds <= max_size → is_i64 x → is_comparison op = true →
  ∃ vi' r,
    value_index.lookup (append_all (value_index.make (make_mlc None : int64_index)) ds) op (d_int64 x)
      = (vi', value r) ∧
    bm_list r = (λ d, match d with d_int64 v => zcmp op v x | _ => op ==o not_equal end) <$> ds.
Proof.
  intros Hds Hle Hx Hop.
  destruct (built_lookup (make_mlc None : int64_index) ds op (d_int64 x)) as (vi' & r & E & El);
    [by apply (make_mlc_rep None), default_base_wide| |done..|by split; [|by exists x]|].
  { eapply column_accepts; [|done]. intros d [->|(y & -> & Hy)]; [by left|right]. by exists y. }
  eexists _, _. split; [done|]. rewrite El. apply list_fmap_ext. intros j d Hj.
  rewrite Forall_lookup in Hds. destruct (Hds j d Hj) as [->|(y & -> & Hy)]; [done|].
  cbn -[order.order_i64 cmp zcmp]. by apply cmp_order_i64.
Qed.

Definition int64_column : list data := [d_int64 (-3); d_none; d_int64 7; d_int64 4; d_none].

Lemma int64_column_ok : Forall is_int64 int64_column.
Proof.
  repeat first [apply Forall_cons; [first [by left|right; eexists; split; [done|by vm_compute]]|]
               |apply Forall_nil].
Defined.

Lemma int64_index_exact_witness :
  ∃ vi' r, value_index.lookup
    (append_all (value_index.make (make_mlc None : int64_index)) int64_column) less (d_int64 5)
      = (vi', value r) ∧ bm_list r = [true; false; false; true; false].
Proof.
  exact (int64_index_exact int64_column less 5 int64_column_ok ltac:(by vm_compute)
    ltac:(by vm_compute) eq_refl).
Defined.

(** A [uint64_t] index answers exactly. *)
Theorem uint64_index_exact ds op x :
  Forall is_uint64 ds → lenN ds <= max_size → x < 2 ^ 64 → is_comparison op = true →
  ∃ vi' r,
    value_index.lookup (append_all (value_index.make (make_mlc None : uint64_index)) ds) op (d_uint64 x)
      = (vi', value r) ∧
    bm_list r = (λ d, match d with d_uint64 v => cmp op v x | _ => op ==o not_equal end) <$> ds.
Proof.
  intros Hds Hle Hx Hop.
  destruct (built_lookup (make_mlc None : uint64_index) ds op (d_uint64 x)) as (vi' & r & E & El);
    [by apply (make_mlc_rep None), default_base_wide| |done..|by split; [|by exists x]|].
  { eapply column_accepts; [|done]. intros d [->|(y & -> & Hy)]; [by left|right]. by exists y. }
  eexists _, _. split; [done|]. rewrite El. apply list_fmap_ext. intros j d Hj.
  rewrite Forall_lookup in Hds. by destruct (Hds j d Hj) as [->|(y & -> & Hy)].
Qed.

Lemma uint64_index_exact_witness :
  ∃ vi' r, value_index.lookup
    (append_all (value_index.make (make_mlc None : uint64_index)) [d_uint64 9; d_none])
    not_equal (d_uint64 5) = (vi', value r) ∧ bm_list r = [true; true].
Proof.
  apply (uint64_index_exact [d_uint64 9; d_none] not_equal 5); [|by vm_compute..|done].
  apply Forall_cons; [right; by exists 9|]. apply Forall_cons; [by left|apply Forall_nil].
Defined.

(** A [bool] index answers [==] and [!=] exactly. *)
Theorem bool_index_exact ds op x :
  Forall is_bool ds → lenN ds <= max_size → op = equal ∨ op = not_equal →
  ∃ vi' r,
    value_index.lookup (append_all (value_index.make make_bool) ds) op (d_bool x) = (vi', value r) ∧
    bm_list r = (λ d, match d with
                      | d_bool v => if op ==o equal then eqb v x else negb (eqb v x)
                      | _ => op ==o not_equal
                      end) <$> ds.
Proof.
  intros Hds Hle Hop.
  destruct (built_lookup make_bool ds op (d_bool x)) as (vi' & r & E & El);
    [apply make_bool_rep| |done..| |].
  { eapply column_accepts; [|done]. intros d [->|(y & ->)]; [by left|right]. by exists y. }
  { split; [by destruct Hop as [-> | ->]|by exists x]. }
  eexists _, _. split; [done|]. rewrite El. apply list_fmap_ext. intros j d Hj.
  rewrite Forall_lookup in Hds. destruct (Hds j d Hj) as [->|([] & ->)]; [done|..];
    destruct Hop as [-> | ->], x; done.
Qed.

Lemma bool_index_exact_witness :
  ∃ vi' r, value_index.lookup
    (append_all (value_index.make make_bool) [d_bool true; d_none; d_bool false]) equal (d_bool false)
      = (vi', value r) ∧ bm_list r = [false; false; true].
Proof.
  apply (bool_index_exact [d_bool true; d_none; d_bool false] equal false); [|by vm_compute|by left].
  apply Forall_cons; [right; by exists true|]. apply Forall_cons; [by left|].
  apply Forall_cons; [right; by exists false|apply Forall_nil].
Defined.

(** An index of times, which are binned by seconds, misses no row: for times at or after the
    epoch and every comparison but [!=], each row for which it holds is in the result. *)
Theorem time_index_complete ds op x :
  Forall is_time ds → lenN ds <= max_size → (0 <= x < 2 ^ 63)%Z →
  is_comparison op = true → op ≠ not_equal →
  ∃ vi' r,
    value_index.lookup (append_all (value_index.make (make_mlc None : nanoseconds_index)) ds) op (d_time x)
      = (vi', value r) ∧ lenN (bm_list r) = lenN ds ∧
    ∀ j v, ds !! j = Some (d_time v) → zcmp op v x = true → bm_list r !! j = Some true.
Proof.
  intros Hds Hle Hx Hop Hne.
  destruct (built_lookup (make_mlc None : nanoseconds_index) ds op (d_time x)) as (vi' & r & E & El);
    [by apply (make_mlc_rep None), default_base_wide| |done..|by split; [|by exists x]|].
  { eapply column_accepts; [|done]. intros d [->|(y & -> & Hy)]; [by left|right]. by exists y. }
  eexists _, _. split; [done|]. rewrite El. split; [apply lenN_fmap|].
  intros j v Hj Hc. rewrite list_lookup_fmap, Hj. cbn [fmap option_fmap option_map is_none]. f_equal.
  rewrite Forall_lookup in Hds. destruct (Hds j _ Hj) as [?|(y & [= <-] & Hy)]; [done|].
  by apply nanoseconds_complete.
Qed.

Definition time_column : list data := [d_time 1500000000; d_time 1200000000; d_time 3000000000].

Lemma time_column_ok : Forall is_time time_column.
Proof.
  repeat first [apply Forall_cons; [right; eexists; split; [done|by vm_compute]|]|apply Forall_nil].
Defined.

Lemma time_index_complete_witness :
  ∃ vi' r, value_index.lookup
    (append_all (value_index.make (make_mlc None : nanoseconds_index)) time_column)
    greater (d_time 1300000000) = (vi', value r) ∧ bm_list r !! 0%nat = Some true.
Proof.
  destruct (time_index_complete time_column greater 1300000000 time_column_ok ltac:(by vm_compute)
    ltac:(by vm_compute) eq_refl ltac:(done)) as (vi' & r & E & _ & H).
  exists vi', r. split; [exact E|]. apply (H 0%nat 1500000000%Z); by vm_compute.
Defined.

(** The bits a lookup on a column of times or durations returns. *)
Definition nanoseconds_lookup (ds : list data) (op : relational_operator) (x : data) : option (list bool) :=
  match (value_index.lookup (append_all (value_index.make (make_mlc None : nanoseconds_index)) ds) op x).2 with
  | value r => Some (bm_list r)
  | error _ => None
  end.

(** Two ways a binned index misses rows: a lookup with [!=] drops 1.5s for 1.2s, which falls
    into the same bin; and a lookup for durations below zero drops -5s, because the bins are computed
    with an unsigned division. *)
Theorem nanoseconds_index_misses :
  (zcmp not_equal 1500000000 1200000000 = true ∧
   nanoseconds_lookup [d_time 1500000000] not_equal (d_time 1200000000) = Some [false]) ∧
  (zcmp less (-5000000000) 0 = true ∧
   nanoseconds_lookup [d_duration (-5000000000)] less (d_duration 0) = Some [false]).
Proof. repeat split; by vm_compute. Qed.

(** ** String and enumeration indexes *)

(** A column of strings no longer than the index can hold. *)
Definition is_short_string (max : N) (d : data) : Prop :=
  d = d_none ∨ ∃ s, d = d_string s ∧ Forall (λ x, x < 256) s ∧ lenN s <= max.

(** What an operator says of two strings; [ni] is containment. *)
Definition string_cmp (op : relational_operator) (v s : list N) : bool :=
  match op with
  | equal => bool_decide (v = s)
  | not_equal => negb (bool_decide (v = s))
  | ni => contains s v
  | not_ni => negb (contains s v)
  | _ => false
  end.

Lemma string_of_short (max : N) s : lenN s <= max → string_of (max_length_:=max) (d_string s) = s.
Proof. intros Hs. cbn. unfold truncate. apply take_ge. unfold lenN in Hs. lia. Qed.

(** C24: After appending strings of bytes, none longer than the maximum of the index, which is below
    2^32, and nils, a string index answers ==, != and the containment of a substring (ni, !ni) exactly,
    for strings to look up that are no longer than the maximum and have no byte 0xff, if the digits of
    its base can express all lengths. Nil is found by != only. [string_index_misses] shows the other
    cases. *)
Theorem string_index_exact max ds op s :
  0 < string_index.num_digits max → max < 10 ^ string_index.num_digits max → max < 2 ^ 32 →
  Forall (is_short_string max) ds → lenN ds <= max_size →
  Forall (λ x, x < 255) s → lenN s <= max → string_op op = true →
  ∃ vi' r,
    value_index.lookup (append_all (value_index.make (string_index.make (max_length_:=max))) ds)
      op (d_string s) = (vi', value r) ∧
    bm_list r = (λ d, match d with d_string v => string_cmp op v s | _ => op ==o not_equal end) <$> ds.
Proof.
  intros Hpos Hmax H32 Hds Hle Hs Hsl Hop.
  destruct (built_lookup (string_index.make (max_length_:=max)) ds op (d_string s)) as (vi' & r & E & El);
    [by apply string_make_rep| |done..|by split; [|by exists s]|].
  { eapply column_accepts; [|done]. intros d [->|(v & -> & Hv & _)]; [by left|right]. by exists v. }
  eexists _, _. split; [done|]. rewrite El. apply list_fmap_ext. intros j d Hj.
  rewrite Forall_lookup in Hds. destruct (Hds j d Hj) as [->|(v & -> & _ & Hv)]; [done|].
  cbn [is_none impl_matches string_impl]. unfold string_matches. by rewrite !string_of_short.
Qed.

(** "foo", nil and "barfoo"; the maximum is the default of the configuration. *)
Definition string_column : list data :=
  [d_string [102; 111; 111]; d_none; d_string [98; 97; 114; 102; 111; 111]].

Lemma string_column_ok : Forall (is_short_string 1024) string_column.
Proof.
  apply Forall_cons; [right; eexists; split; [done|]; split; [by repeat constructor|by vm_compute]|].
  apply Forall_cons; [by left|].
  apply Forall_cons; [right; eexists; split; [done|]; split; [by repeat constructor|by vm_compute]|].
  apply Forall_nil.
Defined.

Lemma string_index_exact_witness :
  ∃ vi' r, value_index.lookup
    (append_all (value_index.make (string_index.make (max_length_:=1024))) string_column)
    not_equal (d_string [102; 111; 111]) = (vi', value r) ∧ bm_list r = [false; true; true].
Proof.
  exact (string_index_exact 1024 string_column not_equal [102; 111; 111] eq_refl eq_refl eq_refl string_column_ok
    ltac:(by vm_compute) ltac:(by repeat constructor) ltac:(by vm_compute) eq_refl).
Defined.

(** The bits a lookup on a column of strings returns. *)
Definition string_lookup (max : N) (ds : list data) (op : relational_operator) (x : data) : option (list bool) :=
  match (value_index.lookup (append_all (value_index.make (string_index.make (max_length_:=max))) ds) op x).2 with
  | value r => Some (bm_list r)
  | error _ => None
  end.

(** Three ways a string index misses a row for [!=]: the strings differ only behind the maximum
    length; the maximum is a multiple of ten, so the base has a digit too few and a length of 15 is
    kept as 5; or the byte 0xff is looked up where a shorter string ends. A substring behind the
    maximum length is missed as well. *)
Theorem string_index_misses :
  string_lookup 3 [d_string [97; 98; 99; 100]] not_equal (d_string [97; 98; 99; 101]) = Some [false] ∧
  string_lookup 20 [d_string (reps 15 97)] not_equal (d_string (reps 5 97)) = Some [false] ∧
  string_lookup 1024 [d_string [97]; d_string [97; 98]] not_equal (d_string [97; 255]) = Some [false; true] ∧
  string_lookup 3 [d_string [97; 98; 99; 100]] ni (d_string [100]) = Some [false].
Proof. repeat split; by vm_compute. Qed.

(** A column of enumeration values. *)
Definition is_enumeration (d : data) : Prop := d = d_none ∨ ∃ x, d = d_enumeration x ∧ x < 256.

(** An enumeration index answers every comparison exactly, whatever order the queue of its
    equality coder hands out bitmaps in. *)
Theorem enumeration_index_exact top ds op x :
  queue_top top → Forall is_enumeration ds → lenN ds <= max_size → x < 256 → is_comparison op = true →
  ∃ vi' r,
    value_index.lookup (append_all (value_index.make (enumeration_index.make top)) ds) op (d_enumeration x)
      = (vi', value r) ∧
    bm_list r = (λ d, match d with d_enumeration v => cmp op v x | _ => op ==o not_equal end) <$> ds.
Proof.
  intros Htop Hds Hle Hx Hop. assert (Queue top) as HQ by exact Htop.
  destruct (built_lookup (enumeration_index.make top) ds op (d_enumeration x)) as (vi' & r & E & El);
    [apply enum_make_rep| |done..|by split; [|by exists x]|].
  { eapply column_accepts; [|done]. intros d [->|(y & -> & Hy)]; [by left|right]. by exists y. }
  eexists _, _. split; [done|]. rewrite El. apply list_fmap_ext. intros j d Hj.
  rewrite Forall_lookup in Hds. by destruct (Hds j d Hj) as [->|(y & -> & Hy)].
Qed.

(** The bitmaps in the order they were put in. *)
Definition in_order {B} (q : list B) : option (B * list B) :=
  match q with [] => None | x :: q => Some (x, q) end.
Lemma in_order_top {B} : queue_top (in_order (B:=B)).
Proof. intros [|x q]; cbn; done. Defined.

Lemma enumeration_index_exact_witness :
  ∃ vi' r, value_index.lookup
    (append_all (value_index.make (enumeration_index.make in_order)) [d_enumeration 2; d_enumeration 5])
    less (d_enumeration 4) = (vi', value r) ∧ bm_list r = [true; false].
Proof.
  apply (enumeration_index_exact in_order [d_enumeration 2; d_enumeration 5] less 4 in_order_top);
    [|by vm_compute..|done].
  apply Forall_cons; [right; by exists 2|]. apply Forall_cons; [right; by exists 5|apply Forall_nil].
Defined.

(** ** Value indexes *)

(** C36: Appending to a value index: an ID below the offset is refused and nothing changes; at any
    other ID the entry is stored behind a gap, for nil and for the values the index accepts. *)
Theorem value_index_append {I} `{ValueIndexImpl I} (vi : value_index.value_index I) es d pos :
  vi_rep vi es →
  (pos < lenN es → value_index.append_at vi d pos = (vi, error unspecified)) ∧
  (lenN es <= pos → pos + 1 <= max_size → is_none d = true ∨ impl_accepts d →
   ∃ vi', value_index.append_at vi d pos = (vi', value tt) ∧ vi_rep vi' (extend es pos d)).
Proof.
  intros Hrep. split; [intros; by eapply vi_append_below|]. intros Hle Hmax Hd.
  destruct (is_none d) eqn:E; [destruct d; try done; by apply vi_append_none|].
  destruct Hd as [?|?]; [done|by apply vi_append_value].
Qed.

Definition int64_empty : value_index.value_index int64_index := value_index.make (make_mlc None).
Lemma int64_empty_rep : vi_rep int64_empty [].
Proof. apply vi_make_rep, (make_mlc_rep None); [done|apply default_base_wide]. Defined.

Lemma value_index_append_witness :
  ∃ vi', value_index.append_at int64_empty (d_int64 7) 3 = (vi', value tt) ∧
         vi_rep vi' [None; None; None; Some (d_int64 7)].
Proof.
  apply (value_index_append int64_empty [] (d_int64 7) 3 int64_empty_rep);
    [by vm_compute..|right; exists 7%Z; split; [done|by vm_compute]].
Defined.

(** A value index with a gap, a value and a nil. *)
Definition gap_index : value_index.value_index int64_index :=
  (value_index.append_at (value_index.append_at int64_empty (d_int64 7) 1).1 d_none 2).1.
Definition gap_entries : entries := [None; Some (d_int64 7); Some d_none].
Lemma gap_index_rep : vi_rep gap_index gap_entries.
Proof.
  destruct (vi_append_value int64_empty [] (d_int64 7) 1 int64_empty_rep eq_refl) as (v1 & E1 & H1);
    [exists 7%Z; split; [done|by vm_compute]|by vm_compute..|].
  destruct (vi_append_none v1 [None; Some (d_int64 7)] 2 H1) as (v2 & E2 & H2); [by vm_compute..|].
  unfold gap_index. rewrite E1. cbn [fst]. by rewrite E2.
Defined.

(** C16: A lookup of a value other than nil that the index supports succeeds; its result has one
    bit per ID: the implementation's answer at a value, 1 at a nil only for [!=], 0 in a gap. *)
Theorem value_index_lookup {I} `{ValueIndexImpl I} (vi : value_index.value_index I) es op x :
  vi_rep vi es → is_none x = false → impl_supports op x →
  ∃ vi' r, value_index.lookup vi op x = (vi', value r) ∧ vi_rep vi' es ∧
    bm_list r = entry_bit (λ v, impl_matches op v x) (op ==o not_equal) <$> es.
Proof.
  intros Hrep Hx Hs. destruct (vi_lookup_value vi es op x Hrep Hx Hs) as (vi' & r & ? & ? & _ & ?).
  by eexists _, _.
Qed.

Lemma value_index_lookup_witness :
  ∃ vi' r, value_index.lookup gap_index not_equal (d_int64 7) = (vi', value r) ∧
           bm_list r = [false; false; true].
Proof.
  destruct (value_index_lookup gap_index gap_entries not_equal (d_int64 7) gap_index_rep eq_refl)
    as (vi' & r & E & _ & El); [split; [done|exists 7%Z; split; [done|by vm_compute]]|].
  exists vi', r. split; [exact E|]. rewrite El. by vm_compute.
Defined.

(** A lookup of nil returns the nils for [==] and everything else for [!=], the IDs in gaps
    included although they hold no value; any other operator is an error. *)
Theorem value_index_lookup_nil {I} `{ValueIndexImpl I} (vi : value_index.value_index I) es op :
  vi_rep vi es →
  if (op ==o equal) || (op ==o not_equal) then
    ∃ r, value_index.lookup vi op d_none = (vi, value r) ∧
         bm_list r = (λ o, if op ==o equal then is_nil o else negb (is_nil o)) <$> es
  else value_index.lookup vi op d_none = (vi, error unsupported_operator).
Proof.
  intros Hrep. destruct (op_eqb_spec op equal) as [->|He]; [|destruct (op_eqb_spec op not_equal) as [->|Hn]].
  - destruct (vi_lookup_none vi es equal Hrep) as (r & ? & _ & ?); [by left|]. by exists r.
  - destruct (vi_lookup_none vi es not_equal Hrep) as (r & ? & _ & ?); [by right|]. by exists r.
  - by apply vi_lookup_none_error.
Qed.

Lemma value_index_lookup_nil_witness :
  ∃ r, value_index.lookup gap_index not_equal d_none = (gap_index, value r) ∧
       bm_list r = [true; true; false].
Proof. exact (value_index_lookup_nil gap_index gap_entries not_equal gap_index_rep). Defined.

(** A lookup in a list: a value is in the result of [in] when it equals an element and in the
    result of [not_in] when it equals none; nils and gaps are in neither. With any other operator
    a list is refused. *)
Theorem value_index_lookup_list {I} `{ValueIndexImpl I} (vi : value_index.value_index I) es op xs :
  vi_rep vi es → Forall element xs →
  if (op ==o in_) || (op ==o not_in) then
    ∃ vi' r, value_index.lookup vi op (d_list xs) = (vi', value r) ∧ vi_rep vi' es ∧
      bm_list r = entry_bit (λ v, xorb (op ==o not_in) (existsb (elem_matches v) xs)) false <$> es
  else value_index.lookup vi op (d_list xs) = (vi, error unsupported_operator).
Proof.
  intros Hrep Hxs. destruct (op_eqb_spec op in_) as [->|Hi]; [|destruct (op_eqb_spec op not_in) as [->|Hn]].
  - destruct (vi_lookup_list vi es false xs Hrep Hxs) as (vi' & r & ? & ? & _ & ?). by exists vi', r.
  - destruct (vi_lookup_list vi es true xs Hrep Hxs) as (vi' & r & ? & ? & _ & ?). by exists vi', r.
  - by apply vi_lookup_list_error.
Qed.

Lemma value_index_lookup_list_witness :
  ∃ vi' r, value_index.lookup gap_index in_ (d_list [d_int64 3; d_none; d_int64 7]) = (vi', value r) ∧
           bm_list r = [false; true; false].
Proof.
  destruct (value_index_lookup_list gap_index gap_entries in_ [d_int64 3; d_none; d_int64 7] gap_index_rep)
    as (vi' & r & E & _ & El).
  - apply Forall_cons; [right; repeat split; exists 3%Z; split; [done|by vm_compute]|].
    apply Forall_cons; [by left|].
    apply Forall_cons; [right; repeat split; exists 7%Z; split; [done|by vm_compute]|apply Forall_nil].
  - exists vi', r. split; [exact E|]. rewrite El. by vm_compute.
Defined.

(** The recursion of [lookup] through nested lists ends: more fuel than the depth of the
    value never changes the result. *)
Theorem lookup_terminates {I} `{ValueIndexImpl I} n mask none (i : I) op x :
  (data_depth x < n)%nat →
  value_index.lookup_fuel n mask none i op x =
  value_index.lookup_fuel (S (data_depth x)) mask none i op x.
Proof. apply lookup_fuel_enough. Qed.

Lemma lookup_terminates_witness :
  let x := d_list [d_list [d_int64 1]; d_none] in
  value_index.lookup_fuel 9 ewah_bitmap.nil ewah_bitmap.nil (make_mlc None : int64_index) in_ x =
  value_index.lookup_fuel 3 ewah_bitmap.nil ewah_bitmap.nil (make_mlc None : int64_index) in_ x.
Proof.
  apply (lookup_terminates 9 ewah_bitmap.nil ewah_bitmap.nil (make_mlc None : int64_index) in_
    (d_list [d_list [d_int64 1]; d_none])). cbn. lia.
Defined.

(** ** Coders *)

(** C10: A multi-level range coder holds what was appended to it: encoding and skipping extend the
    rows, and decoding answers every comparison with a value the base can express. *)
Theorem multi_level_range_coder {B} `{Bitmap B}
    (c : multi_level_coder.multi_level_coder (vector_coder.vector_coder B)) rs x n op y :
  mlc_rep c rs → let bound := base_product (base.values_ (multi_level_coder.base_ c)) in
  x < bound → y < bound → lenN rs + n <= max_size → is_comparison op = true →
  mlc_rep (multi_level_coder.encode range_ops c x n) (rs ++ reps n (Some x)) ∧
  mlc_rep (multi_level_coder.skip range_ops c n) (rs ++ reps n None) ∧
  let '(c', r) := multi_level_coder.range_decode c op y in
  mlc_rep c' rs ∧ bm_wf r ∧ decoded op y rs (bm_list r).
Proof.
  intros Hrep bound Hx Hy Hn Hop. split; [by apply mlc_encode_spec|]. split; [by apply mlc_skip_spec|].
  pose proof (mlc_decode_spec c rs op y Hrep Hy Hop) as Hd.
  destruct (multi_level_coder.range_decode c op y). destruct Hd as (? & _ & ? & ?). auto.
Qed.

Notation range_mlc := (multi_level_coder.multi_level_coder (vector_coder.vector_coder ids)).
Definition sample_mlc : range_mlc :=
  multi_level_coder.encode range_ops (multi_level_coder.make range_ops (base.uniform 10 3)) 421 2.
Lemma sample_mlc_rep : mlc_rep sample_mlc [Some 421; Some 421].
Proof.
  apply (mlc_encode_spec (multi_level_coder.make range_ops (base.uniform 10 3)) [] 421 2);
    [by apply mlc_make_rep|by vm_compute..].
Defined.

Lemma multi_level_range_coder_witness :
  let '(_, r) := multi_level_coder.range_decode sample_mlc less 500 in
  decoded less 500 [Some 421; Some 421] (bm_list r).
Proof.
  pose proof (multi_level_range_coder sample_mlc [Some 421; Some 421] 7 1 less 500 sample_mlc_rep
    ltac:(by vm_compute) ltac:(by vm_compute) ltac:(by vm_compute) eq_refl) as (_ & _ & H).
  destruct (multi_level_coder.range_decode sample_mlc less 500). exact (proj2 (proj2 H)).
Defined.

(** An equality coder answers every comparison, whatever order its queue merges bitmaps in. *)
Theorem equality_coder_decodes {B} `{Bitmap B} (top : list B → option (B * list B))
    (c : vector_coder.vector_coder B) rs op x :
  queue_top top → equality_rep c rs → x < vector_coder.bitmap_count c → is_comparison op = true →
  let '(c', r) := equality_coder.decode top c op x in
  equality_rep c' rs ∧ bm_wf r ∧ decoded op x rs (bm_list r).
Proof.
  intros Htop Hrep Hx Hop. pose proof (equality_decode_spec top Htop c rs op x Hrep Hx Hop) as Hd.
  destruct (equality_coder.decode top c op x). destruct Hd as (? & _ & ? & ?). auto.
Qed.

Definition sample_equality : vector_coder.vector_coder ids :=
  equality_coder.encode (vector_coder.make 8) 3 2.
Lemma sample_equality_rep : equality_rep sample_equality [Some 3; Some 3].
Proof.
  apply (equality_encode_spec (vector_coder.make 8) [] 3 2); [|by vm_compute..].
  split; [by apply vec_rep_make|]. intros v Hv. by apply not_elem_of_nil in Hv.
Defined.
Lemma equality_coder_decodes_witness :
  let '(_, r) := equality_coder.decode in_order sample_equality greater_equal 2 in
  decoded greater_equal 2 [Some 3; Some 3] (bm_list r).
Proof.
  pose proof (equality_coder_decodes in_order sample_equality [Some 3; Some 3] greater_equal 2
    in_order_top sample_equality_rep ltac:(by vm_compute) eq_refl) as H.
  destruct (equality_coder.decode in_order sample_equality greater_equal 2). exact (proj2 (proj2 H)).
Defined.

(** A bitslice coder of [w] bits answers every comparison, and [in] and [not_in] with a
    non-zero value as the bits that are all set. *)
Theorem bitslice_coder_decodes {B} `{Bitmap B} w (c : vector_coder.vector_coder B) rs op x :
  bitslice_rep w c rs → x < 2 ^ w →
  (is_comparison op = true →
   bm_wf (bitslice_coder.decode c op x) ∧ decoded op x rs (bm_list (bitslice_coder.decode c op x))) ∧
  (x ≠ 0 →
   answers (λ v, (v &u x) =? x) rs (bm_list (bitslice_coder.decode c in_ x)) ∧
   answers (λ v, negb ((v &u x) =? x)) rs (bm_list (bitslice_coder.decode c not_in x))).
Proof.
  intros Hrep Hx. split; [intros Hop; by apply (bitslice_decode_spec w)|].
  intros Hne. destruct (bitslice_decode_in_spec w c rs x Hrep Hx Hne) as [[_ ?] [_ ?]]. auto.
Qed.

Definition sample_bitslice : vector_coder.vector_coder ids :=
  bitslice_coder.encode (vector_coder.make 8) 77 1.
Lemma sample_bitslice_rep : bitslice_rep 8 sample_bitslice [Some 77].
Proof.
  apply (bitslice_encode_spec 8 (vector_coder.make 8) [] 77 1); [by apply bitslice_make_rep|by vm_compute..].
Defined.

Lemma bitslice_coder_decodes_witness :
  decoded less_equal 80 [Some 77] (bm_list (bitslice_coder.decode sample_bitslice less_equal 80)) ∧
  answers (λ v, (v &u 5) =? 5) [Some 77] (bm_list (bitslice_coder.decode sample_bitslice in_ 5)).
Proof.
  split.
  - exact (proj2 (proj1 (bitslice_coder_decodes 8 sample_bitslice [Some 77] less_equal 80
      sample_bitslice_rep ltac:(by vm_compute)) eq_refl)).
  - exact (proj1 (proj2 (bitslice_coder_decodes 8 sample_bitslice [Some 77] less_equal 5
      sample_bitslice_rep ltac:(by vm_compute)) ltac:(done))).
Defined.

(** Composing the components of a value gives the value back, when the base is well-defined
    and can express it; the components are valid digits. *)
Theorem base_roundtrip b x rng :
  base.well_defined b = true → x < base_product (base.values_ b) → is_u64 x →
  length rng = length (base.values_ b) →
  digits_ok (base.values_ b) (base.decompose b x rng) ∧ base.compose b (base.decompose b x rng) = x.
Proof.
  intros [Hb _]%well_defined_Forall Hx Hu Hlen. rewrite decompose_exact by done.
  split; [by apply decompose_digits|].
  rewrite compose_spec, decompose_value, N.mod_small by done. by apply wrap_small.
Qed.

Lemma base_roundtrip_witness : base.compose (base.uniform 10 3) (base.decompose (base.uniform 10 3) 421 [0; 0; 0]) = 421.
Proof. by apply (base_roundtrip (base.uniform 10 3) 421 [0; 0; 0]). Defined.

(** ** Orders and operators *)

(** The encoding of doubles is monotone: a smaller number gets a smaller code, except that
    all subnormal numbers of one sign share one code; only NaN has none. *)
Theorem order_double_monotone x y ox oy :
  order.order_double x = Some ox → order.order_double y = Some oy → (fp_value x < fp_value y)%Z →
  ox < oy ∨
  (ox = oy ∧ order.fpclassify x = order.FP_SUBNORMAL ∧ order.fpclassify y = order.FP_SUBNORMAL).
Proof. apply order_double_lt. Qed.

(** -2.5 and 1.5 *)
Lemma order_double_monotone_witness :
  ∃ ox oy, order.order_double 0xc004000000000000 = Some ox ∧
           order.order_double 0x3ff8000000000000 = Some oy ∧ ox < oy.
Proof.
  destruct (order.order_double 0xc004000000000000) as [ox|] eqn:Ex; [|by vm_compute in Ex].
  destruct (order.order_double 0x3ff8000000000000) as [oy|] eqn:Ey; [|by vm_compute in Ey].
  exists ox, oy. split; [done|]. split; [done|].
  destruct (order_double_monotone _ _ ox oy Ex Ey) as [H|(_ & H & _)]; [by vm_compute|done|by vm_compute in H].
Defined.
