(* ===== verification/NetworkIndexTheorems.v ===== *)
(** The properties of the indexes of addresses and subnets, each with a witness where it has
    hypotheses. *)

From S2P Require Import Prelude Word Bits BitmapConcept EwahBitmap EwahRange BitmapAlgorithms.
From S2P Require Import Bitmap Operator Coder BitmapIndex Data ValueIndex ValueIndexSpec Types Ip DataOps.
From S2P Require Import IpIndex SubnetIndex IndexTheorems.

#[local] Existing Instances ip_index.ops subnet_index.ops.

(** A column of addresses, or of subnets of one family that are not empty prefixes. *)
Definition is_address (d : data) : Prop := d = d_none ∨ is_ip d.
Definition is_network (v4 : bool) (d : data) : Prop := d = d_none ∨ is_subnet v4 d.

(** The row of a value, compared as the evaluation of expressions does it, or of nil. *)
Definition network_bit (op : relational_operator) (x d : data) : bool :=
  if is_none d then op ==o not_equal else evaluate (λ _ _, false) (λ _ _, false) d op x.

(** C26: After appending addresses of either family and nils, an index of addresses answers == and !=
    with an address, and in and !in with a subnet of a length other than 0, exactly as evaluating the
    predicate on every row does; nil is found by != only. [network_index_misses] shows that a length of
    0 is an error. *)
Theorem ip_index_exact ds op x :
  Forall is_address ds → lenN ds <= max_size → ip_supports op x →
  ∃ vi' r, value_index.lookup (append_all (value_index.make ip_index.make) ds) op x = (vi', value r) ∧
    bm_list r = network_bit op x <$> ds.
Proof.
  intros Hds Hle Hs. destruct (built_lookup ip_index.make ds op x) as (vi' & r & E & El);
    [apply ip_make_rep| |done|by destruct x|done|by exists vi', r].
  eapply column_accepts; [|done]. intros d [-> |Hd]; [by left|by right].
Qed.

(** 10.1.2.3, nil, ::1 and 10.200.0.1. *)
Definition address_column : list data :=
  [d_ip (ip.v4 [10; 1; 2; 3]); d_none; d_ip (reps 15 0 ++ [1]); d_ip (ip.v4 [10; 200; 0; 1])].

Lemma address_ok x : bool_decide (length x = 16%nat ∧ Forall (λ b, b < 256) x) = true → is_address (d_ip x).
Proof. intros H%bool_decide_eq_true. right. exists x. split; [done|exact H]. Defined.

Lemma address_column_ok : Forall is_address address_column.
Proof.
  apply Forall_cons; [by apply address_ok|]. apply Forall_cons; [by left|].
  apply Forall_cons; [by apply address_ok|]. apply Forall_cons; [by apply address_ok|apply Forall_nil].
Defined.

(** 10.0.0.0/9 and 10.0.0.0/8. *)
Definition net9 : subnet.t := subnet.make (ip.v4 [10; 0; 0; 0]) 9.
Definition net8 : subnet.t := subnet.make (ip.v4 [10; 0; 0; 0]) 8.
Lemma v4_net_wf : ip.wf (ip.v4 [10; 0; 0; 0]).
Proof. split; [done|by repeat constructor]. Defined.

Lemma ip_index_exact_witness :
  ∃ vi' r, value_index.lookup (append_all (value_index.make ip_index.make) address_column) not_in
    (d_subnet (subnet.network_ net9) (subnet.length_ net9)) = (vi', value r) ∧ bm_list r = [false; false; true; true].
Proof.
  apply (ip_index_exact address_column not_in); [exact address_column_ok|by vm_compute|].
  split; [by right|]. split; [exact (subnet_make_wf (ip.v4 [10; 0; 0; 0]) 9 v4_net_wf)|by vm_compute].
Defined.

(** C25: After appending subnets of one family (v4 or v6) and of a length other than 0, and nils, a
    subnet index answers lookups of the same family exactly as evaluating the predicate on every row
    does: == and != with a subnet of any length, containment in either direction (in, !in, ni, !ni) with
    a subnet of a length other than 0, and containment of an address (ni, !ni), whatever order the queue
    of its coder has. Nil is found by != only. [network_index_misses] shows the other cases. *)
Theorem subnet_index_exact top v4 ds op x :
  queue_top top → Forall (is_network v4) ds → lenN ds <= max_size → subnet_supports v4 op x →
  ∃ vi' r, value_index.lookup (append_all (value_index.make (subnet_index.make top)) ds) op x = (vi', value r) ∧
    bm_list r = network_bit op x <$> ds.
Proof.
  intros Htop Hds Hle Hs. assert (Queue top) as HQ by exact Htop.
  destruct (built_lookup (H0:=subnet_impl top v4) (subnet_index.make top) ds op x) as (vi' & r & E & El);
    [apply (subnet_make_rep top v4)| |done|by destruct x|done|by exists vi', r].
  eapply (column_accepts (H0:=subnet_impl top v4)); [|done]. intros d [-> |Hd]; [by left|by right].
Qed.

(** 10.0.0.0/9, nil and 10.0.0.0/8. *)
Definition subnet_data (s : subnet.t) : data := d_subnet (subnet.network_ s) (subnet.length_ s).
Definition subnet_column : list data := [subnet_data net9; d_none; subnet_data net8].

Lemma made_network addr k v4 : ip.wf addr → ip.is_v4 (subnet.network_ (subnet.make addr k)) = v4 → 0 < subnet.length (subnet.make addr k) →
  is_network v4 (subnet_data (subnet.make addr k)).
Proof.
  intros Hw Hf Hl. right. pose proof (subnet_make_wf addr k Hw) as Hs. destruct (subnet.make addr k) as [n l]. by exists n, l.
Defined.

Lemma subnet_column_ok : Forall (is_network true) subnet_column.
Proof.
  apply Forall_cons; [by apply (made_network _ 9 true v4_net_wf)|]. apply Forall_cons; [by left|].
  apply Forall_cons; [by apply (made_network _ 8 true v4_net_wf)|apply Forall_nil].
Defined.

Lemma subnet_index_exact_witness :
  ∃ vi' r, value_index.lookup (append_all (value_index.make (subnet_index.make in_order)) subnet_column) ni
    (subnet_data net8) = (vi', value r) ∧ bm_list r = [false; false; true].
Proof.
  apply (subnet_index_exact in_order true subnet_column ni (subnet_data net8) in_order_top);
    [exact subnet_column_ok|by vm_compute|].
  split; [exact (subnet_make_wf (ip.v4 [10; 0; 0; 0]) 8 v4_net_wf)|]. split; [by vm_compute|].
  right. right. split; [by right; right; left|by vm_compute].
Defined.

(** The bits a lookup on a column returns. *)
Definition ip_lookup (ds : list data) (op : relational_operator) (x : data) : option (list bool) :=
  match (value_index.lookup (append_all (value_index.make ip_index.make) ds) op x).2 with
  | value r => Some (bm_list r)
  | error _ => None
  end.
Definition subnet_lookup (ds : list data) (op : relational_operator) (x : data) : option (list bool) :=
  match (value_index.lookup (append_all (value_index.make (subnet_index.make in_order)) ds) op x).2 with
  | value r => Some (bm_list r)
  | error _ => None
  end.

(** 0.0.0.0/0, 10.0.0.0/4, ::/8, ::/16 and 10.0.0.1. *)
Definition net0 : data := subnet_data (subnet.make (ip.v4 [0; 0; 0; 0]) 0).
Definition net4 : data := subnet_data (subnet.make (ip.v4 [10; 0; 0; 0]) 4).
Definition zero8 : data := subnet_data (subnet.make (reps 16 0) 8).
Definition zero16 : data := subnet_data (subnet.make (reps 16 0) 16).
Definition host : data := d_ip (ip.v4 [10; 0; 0; 1]).

(** What the hypotheses of the two theorems above leave out: a subnet of length 0 is an error for an
    index of addresses; the loop of [ni] starts at length 1, so a stored subnet of length 0 is missed
    and [not_ni] with one returns no bits, which the mask of the index turns into no rows; and
    comparing the lengths of subnets of different families misses one that is contained, one that
    contains an address, and finds one that does not contain the subnet. *)
Theorem network_index_misses :
  ip_lookup [host] in_ net0 = None ∧
  (evaluate (λ _ _, false) (λ _ _, false) net0 ni (subnet_data net8) = true ∧
    subnet_lookup [net0] ni (subnet_data net8) = Some [false]) ∧
  (evaluate (λ _ _, false) (λ _ _, false) (subnet_data net8) not_ni net0 = true ∧
    subnet_lookup [subnet_data net8] not_ni net0 = Some [false]) ∧
  (evaluate (λ _ _, false) (λ _ _, false) net4 in_ zero8 = true ∧ subnet_lookup [net4] in_ zero8 = Some [false]) ∧
  (evaluate (λ _ _, false) (λ _ _, false) zero8 ni host = true ∧ subnet_lookup [zero8] ni host = Some [false]) ∧
  (evaluate (λ _ _, false) (λ _ _, false) (subnet_data net8) ni zero16 = false ∧
    subnet_lookup [subnet_data net8] ni zero16 = Some [true]).
Proof. split_and!; vm_compute; reflexivity. Qed.
