(* ===== verification/HashListTheorems.v ===== *)
(** Theorems on the indexes of [HashIndex] and [ListIndex]: what a lookup on a column returns, and
    the rows that it gets wrong. *)

From Stdlib Require Import Ascii String.
From stdpp Require Import gmap.
From S2P Require Import Prelude Word Bits BitmapConcept EwahBitmap Bitmap Operator.
From S2P Require Import EwahRange BitmapAlgorithms Coder MultiLevelCoder BitmapIndex Coding Data ValueIndex ValueIndexSpec ArithmeticIndex StringIndex Ip DataOps HashIndex ListIndex.

Import arithmetic_index.

(** [append] for each value in turn, as long as it succeeds. *)
Fixpoint append_values {I} `{ValueIndexOps I} (vi : value_index.value_index I) (ds : list data) : value_index.value_index I * option data :=
  match ds with
  | [] => (vi, None)
  | d :: ds => match value_index.append vi d with
               | (vi, value _) => append_values vi ds
               | (vi, error _) => (vi, Some d)
               end
  end.

Lemma extend_end (es : entries) d : extend es (lenN es) d = es ++ [Some d].
Proof. unfold extend. by rewrite N.sub_diag. Qed.

(** ** The hash index *)

Section hash.
Context (seeded_hash : N → data → N) (Bytes : N).
Context (Hhash : ∀ seed x y, data_eqb x y = true → seeded_hash seed x = seeded_hash seed y).
#[local] Instance hash_ops' : ValueIndexOps hash_index.hash_index := hash_index_ops seeded_hash Bytes.
#[local] Abbreviation hash_rep := (hash_rep seeded_hash Bytes).
Implicit Types (vi : value_index.value_index hash_index.hash_index) (x v : data) (ds : list data).

(** The values that an operator compares with, whether it excludes them, and its meaning. *)
Definition operands (op : relational_operator) x : list data :=
  match op, x with (in_ | not_in), d_list xs => xs | _, _ => [x] end.
Definition negates (op : relational_operator) : bool := (op ==o not_equal) || (op ==o not_in).
Definition holds (op : relational_operator) x v : bool := xorb (negates op) (existsb (data_eqb v) (operands op x)).

Lemma hash_matches_operands i op x v : scans op x →
  hash_matches seeded_hash Bytes i op x v =
  xorb (negates op) (existsb (λ y, hash_index.find_digest seeded_hash Bytes i y =? hash_index.find_digest seeded_hash Bytes i v) (operands op x)).
Proof.
  intros [_ [[[-> | ->] _]|[[-> | ->] [xs ->]]]]; cbn; rewrite ?orb_false_r; try done; by rewrite xorb_true_l.
Qed.

(** All rounds hit digests of other values. *)
Definition exhausted vi x : Prop :=
  let i := value_index.impl vi in
  hash_index.find_seed i x = None ∧ ∀ s, s < 32 → hash_index.hash seeded_hash Bytes x s ∈ hash_index.unique_digests_ i.

Lemma hash_append_values vi es ds : hash_rep vi es → Forall (λ d, no_nan d = true) ds → lenN es + lenN ds <= max_size →
  match append_values vi ds with
  | (vi', None) => hash_rep vi' (es ++ (Some <$> ds))
  | (vi', Some d) => exhausted vi' d
  end.
Proof.
  revert vi es. induction ds as [|d ds IH]; intros vi es Hrep Hds Hle; cbn [append_values]; [by rewrite app_nil_r|].
  apply list.Forall_cons in Hds as [Hd Hds]. rewrite lenN_cons in Hle. pose proof Hrep as ((_ & _ & Ho & _) & Hh & _).
  pose proof (hash_append_at seeded_hash Bytes Hhash vi es d (lenN es) Hrep Hd ltac:(lia) ltac:(lia)) as Ha.
  unfold value_index.append. rewrite Ho. destruct (value_index.append_at vi d (lenN es)) as [vi' [u|e]].
  - specialize (IH vi' _ Ha Hds). rewrite extend_end, <- app_assoc in IH. apply IH. autorewrite with lendb. lia.
  - destruct Ha as (-> & Hs & Ha). split; [|done]. destruct (hash_index.find_seed (value_index.impl vi) d) eqn:E; [|done].
    destruct Hs. apply (hashed_seeds _ _ _ _ Hh). eauto.
Qed.

Lemma existsb_imp {A} (p q : A → bool) l : (∀ y, p y = true → q y = true) → existsb p l = true → existsb q l = true.
Proof. intros H. rewrite !existsb_exists. intros (y & ? & ?). eauto. Qed.
Lemma existsb_ext_elem {A} (p q : A → bool) l : Forall (λ y, p y = q y) l → existsb p l = existsb q l.
Proof. induction 1 as [|y l E _ IH]; cbn; [done|]. by rewrite E, IH. Qed.
End hash.

(** C19: After appending a column, a hash index answers [==], [!=], [in] and [not_in]: equality with
    a value of the query finds every row with that value, and its negation excludes every such
    row; the result is exact for values of the query that are stored or whose first digest is not
    taken. Appending fails only for a new value that hits digests of others in all 32 rounds. *)
Theorem hash_index_finds seeded_hash Bytes ds :
  (∀ seed x y, data_eqb x y = true → seeded_hash seed x = seeded_hash seed y) →
  Forall (λ d, no_nan d = true) ds → lenN ds <= max_size →
  let ops := hash_index_ops seeded_hash Bytes in
  match append_values (value_index.make hash_index.make) ds with
  | (vi, Some d) => exhausted seeded_hash Bytes vi d
  | (vi, None) => ∀ op x, scans op x → ∃ r, value_index.lookup vi op x = (vi, value r) ∧ lenN (bm_list r) = lenN ds ∧
      (∀ j d, ds !! j = Some d → is_none d = false → holds op x d = negb (negates op) → bm_list r !! j = Some (negb (negates op))) ∧
      (Forall (distinct seeded_hash Bytes (value_index.impl vi) (Some <$> ds)) (operands op x) →
       bm_list r = (λ d, if is_none d then op ==o not_equal else holds op x d) <$> ds)
  end.
Proof.
  intros Hhash Hds Hle ops. pose proof (hash_append_values seeded_hash Bytes Hhash _ [] ds (hash_make _ _ Hhash) Hds Hle) as Ha.
  destruct (append_values _ ds) as [vi [d|]]; [exact Ha|]. intros op x Hs. rewrite app_nil_l in Ha.
  destruct (hash_lookup seeded_hash Bytes vi _ op x Ha Hs) as (r & Hl & _ & Er). exists r. split; [exact Hl|].
  destruct Ha as (_ & Hh & _).
  assert (∀ j d, ds !! j = Some d → is_none d = false → d ∈ values (Some <$> ds)) as Hval.
  { intros j d Hj Hd. unfold values. apply list_elem_of_omap. exists (Some d). split; [|cbn; by rewrite Hd]. apply list_elem_of_fmap_2. by eapply list_elem_of_lookup_2. }
  split; [by rewrite Er, !lenN_fmap|]. split.
  - intros j d Hj Hd E. rewrite Er, !list_lookup_fmap, Hj. cbn. rewrite Hd. f_equal. rewrite hash_matches_operands by done.
    unfold holds in E. assert (existsb (data_eqb d) (operands op x) = true) as E' by (destruct (negates op); by destruct (existsb _ _)).
    erewrite existsb_imp; [|intros y Hy; by apply (hash_equal seeded_hash Bytes Hhash _ _ y d Hh (Hval j d Hj Hd))|exact E']. by destruct (negates op).
  - intros Hdist. rewrite Er, <- list_fmap_compose. apply list_fmap_ext. intros j d Hj. cbn. destruct (is_none d) eqn:Hd; [done|].
    rewrite hash_matches_operands by done. unfold holds. f_equal. apply existsb_ext_elem. eapply list.Forall_impl; [exact Hdist|].
    intros y Hy. by apply (hash_equal seeded_hash Bytes Hhash _ _ y d Hh (Hval j d Hj Hd)).
Qed.

(** A hash by the length of a string, which makes values collide. *)
Definition length_hash (seed : N) (x : data) : N := match x with d_string s => lenN s + seed | _ => seed end.
Definition str (s : string) : data := d_string (codes s).
Definition words : list data := [str "foo"; d_none; str "bar"; str "foo"; str "quux"].
#[local] Instance word_index : ValueIndexOps hash_index.hash_index := hash_index_ops length_hash 1.

Lemma length_hash_cong seed x y : data_eqb x y = true → length_hash seed x = length_hash seed y.
Proof. destruct x, y; try done. cbn. by intros ->%bool_decide_eq_true. Qed.

Definition word_column : value_index.value_index hash_index.hash_index := (append_values (value_index.make hash_index.make) words).1.

Lemma hash_index_finds_witness :
  ∃ r, value_index.lookup word_column in_ (d_list [str "bar"; str "quuuux"]) = (word_column, value r) ∧
    bm_list r = [false; false; true; false; false].
Proof.
  assert (append_values (value_index.make hash_index.make) words = (word_column, None)) as E by (by vm_compute).
  pose proof (hash_index_finds length_hash 1 words length_hash_cong) as H. cbv zeta in H.
  change (hash_index_ops length_hash 1) with word_index in H. rewrite E in H.
  specialize (H ltac:(repeat (apply list.Forall_cons_2; [done|]); apply list.Forall_nil_2) ltac:(by vm_compute)).
  destruct (H in_ (d_list [str "bar"; str "quuuux"])) as (r & Hl & _ & _ & Hx).
  { split; [done|right]. split; [by left|by eexists]. }
  exists r. split; [exact Hl|]. rewrite Hx; [by vm_compute|]. apply list.Forall_cons_2; [|apply list.Forall_cons_2; [|apply list.Forall_nil_2]].
  - left. exists (str "bar"). split; [|done]. apply (list_elem_of_lookup_2 _ 1%nat). by vm_compute.
  - right. apply (bool_decide_unpack _). by vm_compute.
Defined.

(** ** The list index *)

Section lists.
Context {E : Type} `{ValueIndexImpl E} (max_size_ : N) (e0 : value_index.value_index E) (He0 : vi_rep e0 []).
#[local] Instance list_ops' : ValueIndexOps (list_index.list_index E) := list_index_ops max_size_ (Some e0).

Lemma list_append_values vi es ds : list_rep max_size_ vi es → Forall (list_ok max_size_) ds → lenN es + lenN ds <= max_size →
  ∃ vi', append_values vi ds = (vi', None) ∧ list_rep max_size_ vi' (es ++ (Some <$> ds)).
Proof.
  revert vi es. induction ds as [|d ds IH]; intros vi es Hrep Hds Hle; cbn [append_values]; [exists vi; by rewrite app_nil_r|].
  apply list.Forall_cons in Hds as [Hd Hds]. rewrite lenN_cons in Hle. pose proof Hrep as ((_ & _ & Ho & _) & _).
  destruct (list_append_at max_size_ e0 He0 vi es d (lenN es) Hrep Hd ltac:(lia) ltac:(lia)) as (vi1 & Ha & Hrep').
  unfold value_index.append. rewrite Ho. assert (value_index.append_at vi d (lenN es) = (vi1, value tt)) as -> by exact Ha. rewrite extend_end in Hrep'. destruct (IH vi1 _ Hrep' Hds) as (vi' & Hvi & Hrep''); [autorewrite with lendb; lia|].
  exists vi'. split; [exact Hvi|]. by rewrite <- app_assoc in Hrep''.
Qed.
End lists.

(** C33: Appending a column of lists to a list index never fails, and [ni] finds exactly the lists
    with an equal element among the first [max_size] ones, given an index of the elements that
    answers [==]; [not_ni] finds exactly the other lists if the last row is a list that is not
    empty. Nils are in no result. *)
Theorem list_index_exact {E} `{ValueIndexImpl E} max_size_ (e0 : value_index.value_index E) ds op x :
  vi_rep e0 [] → Forall (list_ok max_size_) ds → lenN ds <= max_size → is_none x = false → impl_supports equal x →
  op = ni ∨ (op = not_ni ∧ ends_with_element max_size_ (Some <$> ds)) →
  let ops := list_index_ops max_size_ (Some e0) in
  ∃ vi vi' r, append_values (value_index.make (list_index.make max_size_)) ds = (vi, None) ∧
    value_index.lookup vi op x = (vi', value r) ∧
    bm_list r = (λ d, negb (is_none d) && xorb (op ==o not_ni) (list_matches max_size_ x d)) <$> ds.
Proof.
  intros He0 Hds Hle Hx Hs Hop ops. destruct (list_append_values max_size_ e0 He0 _ [] ds (list_make max_size_) Hds Hle) as (vi & Ha & Hrep).
  destruct (list_lookup max_size_ e0 vi _ op x Hrep Hx Hs Hop) as (vi' & r & Hl & _ & _ & Er). exists vi, vi', r. split; [exact Ha|]. split; [exact Hl|].
  rewrite Er, app_nil_l, <- list_fmap_compose. apply list_fmap_ext. intros j d _. cbn. destruct (is_none d); [done|].
  destruct (op ==o not_ni); by rewrite ?xorb_true_l, ?xorb_false_l.
Qed.

Definition int64_element : value_index.value_index int64_index := value_index.make (make_mlc None).
Definition int64_lists : list data := [d_list [d_int64 1; d_int64 7]; d_none; d_list []; d_list [d_int64 7; d_none; d_int64 4]; d_list [d_int64 3]].
#[local] Instance int64_list_index : ValueIndexOps (list_index.list_index int64_index) := list_index_ops 8 (Some int64_element).

Lemma list_index_exact_witness :
  ∃ vi vi' r, append_values (value_index.make (list_index.make 8)) int64_lists = (vi, None) ∧
    value_index.lookup vi not_ni (d_int64 7) = (vi', value r) ∧ bm_list r = [false; false; true; false; true].
Proof.
  destruct (list_index_exact 8 int64_element int64_lists not_ni (d_int64 7)) as (vi & vi' & r & Ha & Hl & Er);
    [| | | | | |exists vi, vi', r; split; [exact Ha|split; [exact Hl|rewrite Er; by vm_compute]]].
  - apply vi_make_rep, (make_mlc_rep None); [done|apply default_base_wide].
  - repeat first [apply list.Forall_nil_2|apply list.Forall_cons_2; [first [by left|right; eexists; split; [reflexivity|]]|]];
      repeat first [apply list.Forall_nil_2|apply list.Forall_cons_2; [first [by left|right; split; [done|eexists; split; [done|by vm_compute]]]|]].
  - by vm_compute.
  - done.
  - split; [done|]. by exists 7%Z.
  - right. split; [done|]. exists (take 4 (Some <$> int64_lists)), [d_int64 3], (d_int64 3). by vm_compute.
Defined.

(** ** Rows that are missed *)

Definition found {I} `{ValueIndexOps I} (vi : value_index.value_index I) op x : option (list bool) :=
  match (value_index.lookup vi op x).2 with value r => Some (bm_list r) | error _ => None end.

(** Looking up a pattern or a substring in a hash index returns as many IDs as there are values,
    so that values behind a nil are missed; a value that is not stored takes the rows of a value
    with its digest; [not_ni] misses empty lists at the end. *)
Lemma hash_list_misses :
  found word_column equal (d_pattern (codes "q.*")) = Some [true; false; true; true; false] ∧
  found word_column ni (str "uu") = Some [true; false; true; true; false] ∧
  found word_column equal (str "xyz") = Some [true; false; false; true; false] ∧
  found (append_values (value_index.make (list_index.make 8)) [d_list [d_int64 1]; d_list []]).1 not_ni (d_int64 7) = Some [true; false].
Proof. split_and!; by vm_compute. Qed.
