(* ===== verification/PartitionTheorems.v ===== *)
(** The properties of evaluators, indexers and the queries of a partition, each with a witness where
    it has hypotheses. *)

From stdpp Require Import gmap.
From S2P Require Import Prelude Word Bits BitmapConcept EwahBitmap EwahRange BitmapAlgorithms Bitmap Operator Order Coder MultiLevelCoder BitmapIndex.
From S2P Require Import Data ValueIndex ValueIndexSpec ArithmeticIndex IndexTheorems.
From S2P Require Import Types RecordType Ip DataOps Expression ExpressionSpec ExpressionResolve Synopsis Evaluator Indexer PartitionQuery.

Import arithmetic_index.

(** C7: For an expression without negations and empty parts and between one and 2^64 - 1 requests whose
    results are bitmaps, the evaluator fulfills its promise exactly when the last request is answered,
    in whatever order the answers arrive and whether they are results or errors, and the result has the
    bits of the expression, where a predicate has the bits of all answers for its position. Normalized
    expressions have no negations. *)
Theorem evaluator_delivers {ids} `{Bitmap ids} (no_indexer : ids) e ts :
  proper (λ _, True) e → no_negation e → ts ≠ [] → answered_wf no_indexer ts → lenN ts < 2 ^ 64 →
  ∃ st sent, run (initial e no_indexer) ts = Some (st, sent) ∧
    ∀ cfg, rtc (step no_indexer) (st, sent) cfg →
      (cfg.2 ≠ [] → promise cfg.1 = None ∧ ∃ cfg', step no_indexer cfg cfg') ∧
      (cfg.2 = [] → ∃ h, promise cfg.1 = Some h ∧ bm_wf h ∧
        ∀ j, bit_at (bm_list h) j = eval_at (position_bit no_indexer ts j) [0%nat] e).
Proof.
  intros. by apply evaluator_runs.
Qed.

(** A predicate that resolved to two columns; the indexer of the second fails. *)
Definition sample_predicate : expression := e_predicate (mk_predicate (field_extractor [120]) greater (o_data (d_int64 5))).
Definition sample_triples : list (evaluation_triple ids) :=
  [mk_triple [0%nat] (mk_curried greater (d_int64 5)) (Some (λ _, value (bitmap_base.make 3 true)));
   mk_triple [0%nat] (mk_curried greater (d_int64 5)) (Some (λ _, error unspecified))].

Lemma evaluator_delivers_witness :
  ∃ st sent, run (initial sample_predicate (bm_nil : ids)) sample_triples = Some (st, sent) ∧
    ∀ cfg, rtc (step (bm_nil : ids)) (st, sent) cfg →
      (cfg.2 ≠ [] → promise cfg.1 = None ∧ ∃ cfg', step (bm_nil : ids) cfg cfg') ∧
      (cfg.2 = [] → ∃ h, promise cfg.1 = Some h ∧ bm_wf h ∧
        ∀ j, bit_at (bm_list h) j = eval_at (position_bit (bm_nil : ids) sample_triples j) [0%nat] sample_predicate).
Proof.
  apply (evaluator_delivers (bm_nil : ids) sample_predicate sample_triples); [done..| |by vm_compute].
  intros t r [->|[->|Ht%not_elem_of_nil]%elem_of_cons]%elem_of_cons Hr; [|done|done]. unfold answer in Hr. cbn [handle] in Hr.
  assert (bitmap_base.make 3 true = r) as <- by congruence. apply (bitmap_make_spec (B:=ids) 3 true). by vm_compute.
Defined.

(** C32: An indexer that was fed a column slice by slice answers a lookup with exactly the rows whose
    cell has a value that matches; cells without a value are never found, not even by [== nil]. *)
Theorem indexer_answers {I} `{ValueIndexImpl I} (i : I) slices :
  impl_rep i [] → Forall (λ s, Forall cell_ok s.2) slices → consecutive 0 slices → lenN (concat slices.*2) <= max_size →
  let vi := append_slices (value_index.make i) slices in
  (∀ t op x, is_none (to_internal t x) = false → impl_supports op (to_internal t x) →
    ∃ r, make_indexer t vi (mk_curried op x) = value r ∧ bm_wf r ∧
      ∀ j, bit_at (bm_list r) j =
        match concat slices.*2 !! j with Some v => negb (is_none v) && impl_matches op v (to_internal t x) | None => false end) ∧
  ∃ r, make_indexer t_none vi (mk_curried equal d_none) = value r ∧ ∀ j, bit_at (bm_list r) j = false.
Proof.
  intros Hi Hs Hc Hmax. cbn zeta.
  pose proof (append_slices_rep slices _ [] (column_make_rep i Hi) Hs Hc) as Hrep. rewrite lenN_nil in Hrep. specialize (Hrep Hmax).
  split.
  - intros t op x Hx Hsup. destruct (column_lookup _ _ op (to_internal t x) Hrep Hx Hsup) as (vi' & r & E & _ & Hw & Hb).
    exists r. unfold make_indexer, Indexer.evaluate. cbn [curried_op curried_rhs]. by rewrite E.
  - destruct (column_lookup_none _ _ Hrep) as (r & E & _ & Hb). exists r. unfold make_indexer, Indexer.evaluate. cbn [curried_op curried_rhs].
    unfold to_internal. by rewrite E.
Qed.

(** Two slices with integers, one cell without a value. *)
Definition sample_slices : list (N * list data) := [(0, [d_int64 5; d_none]); (2, [d_int64 7])].
Definition sample_index : value_index.value_index int64_index := append_slices (value_index.make (make_mlc None : int64_index)) sample_slices.

Lemma sample_slices_ok : Forall (λ s : N * list data, Forall (cell_ok (I:=int64_index)) s.2) sample_slices.
Proof.
  repeat apply list.Forall_cons_2; try apply list.Forall_nil_2; (try by left);
    right; eexists; (split; [reflexivity|]); by vm_compute.
Defined.

Lemma indexer_answers_witness :
  ∃ r, make_indexer t_int64 sample_index (mk_curried greater (d_int64 5)) = value r ∧ bm_wf r ∧
    ∀ j, bit_at (bm_list r) j =
      match concat sample_slices.*2 !! j with
      | Some v => negb (is_none v) && impl_matches (I:=int64_index) greater v (d_int64 5)
      | None => false
      end.
Proof.
  destruct (indexer_answers (make_mlc None : int64_index) sample_slices) as [Hl _];
    [by apply (make_mlc_rep None), default_base_wide|exact sample_slices_ok|repeat split|vm_compute; discriminate|].
  apply (Hl t_int64 greater (d_int64 5)); [done|]. split; [done|]. by exists 5%Z.
Defined.

(** C2: For an expression without negations and empty parts whose predicates compare metadata, a field
    or a type with a value, a query to a partition with a schema and indexers spawns an evaluator that
    delivers, in whatever order the answers arrive, IDs that contain a given row that satisfies the
    expression, provided that the partition does not lose the row: the IDs of some schema contain it,
    schema names and import times are compared as the row's are, the indexers of the columns answer with
    bitmaps and with the row's bit set for the predicates that hold for it, and equal predicates hold
    alike. The expression resolves to fewer than 2^64 predicates. *)
Theorem partition_finds_rows {ids} `{Bitmap ids} regex_match regex_search predicate_ltb (st : partition_state ids) fields v j e l :
  combined_schema st = Some fields → indexers st ≠ [] → row_indexed regex_match regex_search st v j →
  answers_wf st (resolve predicate_ltb fields [] e).*2 →
  (∀ p q, predicate_eqb p q = true → v p = v q) → proper extracts e → no_negation e →
  resolve_impl predicate_ltb fields [] [0%nat] e = Some l → lenN l < 2 ^ 64 → eval (meaning fields [] v) e = true →
  ∃ ts no_indexer st0 sent,
    (handle_query regex_match regex_search predicate_ltb (mk_passive (Some st) [] 0) (mk_query bm_nil e false)).2 =
      Some (spawn_evaluator ts no_indexer) ∧
    run (initial e no_indexer) ts = Some (st0, sent) ∧
    ∀ cfg, rtc (step no_indexer) (st0, sent) cfg → cfg.2 = [] → ∃ h, promise cfg.1 = Some h ∧ bit_at (bm_list h) j = true.
Proof.
  intros Hschema Hix Hrow Hps Hv Hp Hn Hl Hlen Hev.
  destruct (evaluate_total regex_match regex_search predicate_ltb st fields Hschema e l Hp Hl) as (ts & Hts & Htl).
  pose proof (evaluate_positions _ _ _ _ _ Hschema v j e l ts Hrow Hv Hp Hn Hl Hts Hev) as Hpos.
  pose proof (evaluate_wf _ _ _ _ _ Hschema v j e ts Hrow Hps Hts) as Hwf.
  assert (proper (λ _, True) e) as Hp' by (by eapply proper_weaken; [|exact Hp]).
  set (no := get_ids_for_evaluation (type_ids st) ts) in *.
  assert (ts ≠ []) as Hne.
  { intros ->. change (position_bit no [] j) with (λ _ : list nat, false) in Hpos. by rewrite eval_at_false in Hpos. }
  destruct (evaluator_runs no e Hp' Hn ts Hne Hwf) as (st0 & sent & Hrun & Hcfg); [unfold lenN in *; by rewrite Htl|].
  exists ts, no, st0, sent. split_and!; [|done|].
  - cbn [handle_query loaded snd]. destruct (indexers st) as [|ix ixs]; [done|]. unfold no_ids, bitmap_base.empty. cbn [query_ids query_expr].
    destruct (bm_nil_spec (B:=ids)) as [Hw Hnil]. rewrite (bm_size_spec _ Hw), Hnil. cbn. rewrite Hts. cbn. by destruct ts.
  - intros cfg Hs Hout. destruct (Hcfg cfg Hs) as [_ Hd]. destruct (Hd Hout) as (h & Hh & _ & Hb). exists h. by rewrite Hb.
Qed.

(** A partition with an indexed column of integers and a column of strings without an index. *)
Definition sample_fields : list field := [([120], t_int64); ([121], t_string)].
Definition sample_partition : partition_state ids :=
  mk_partition [Some (make_indexer t_int64 sample_index); None] (Some sample_fields) [([115], bitmap_base.make 3 true)] None.
(** The last row has the values 7 and "a". *)
Definition sample_value (p : predicate) : bool :=
  match lhs p, op p, rhs p with
  | data_extractor _ 0, greater, o_data (d_int64 y) => (- 2 ^ 63 <=? y)%Z && (y <? 7)%Z
  | data_extractor _ 1, equal, o_data (d_string s) => bytes_eqb s [97]
  | _, _, _ => false
  end.
Definition sample_query : expression :=
  conjunction [sample_predicate; e_predicate (mk_predicate (field_extractor [121]) equal (o_data (d_string [97])))].

Lemma sample_value_eqb p q : predicate_eqb p q = true → sample_value p = sample_value q.
Proof.
  destruct p as [l o r], q as [l' o' r']. unfold predicate_eqb. cbn. intros [[Hl Ho]%andb_true_iff Hr]%andb_true_iff.
  destruct (op_eqb_spec o o') as [<-|]; [|done].
  unfold sample_value. cbn. destruct l as [| | |t c|], l' as [| | |t' c'|]; try done. cbn in Hl. apply andb_true_iff in Hl as [_ Hc%N.eqb_eq]. subst c'.
  destruct r as [| | | |d], r' as [| | | |d']; try done; cbn in Hr.
  destruct d, d'; try done; cbn in Hr; (apply Z.eqb_eq in Hr as -> || apply bool_decide_eq_true in Hr as -> || idtac); done.
Qed.

Lemma sample_rep : column_rep sample_index (concat sample_slices.*2).
Proof.
  apply (append_slices_rep sample_slices _ []); [|exact sample_slices_ok|repeat split|vm_compute; discriminate].
  apply column_make_rep, (make_mlc_rep None); [done|exact default_base_wide].
Qed.

Lemma sample_lookup op y : is_comparison op = true → is_i64 y →
  ∃ r, make_indexer t_int64 sample_index (mk_curried op (d_int64 y)) = value r ∧ bm_wf r ∧ bit_at (bm_list r) 2 = zcmp op 7 y.
Proof.
  intros Hop Hy. destruct (column_lookup _ _ op (d_int64 y) sample_rep) as (vi & r & E & _ & Hw & Hb); [done|by split; [|by exists y]|].
  exists r. unfold make_indexer, Indexer.evaluate. cbn [curried_op curried_rhs to_internal type.resolve_transparent]. rewrite E.
  split; [done|]. split; [done|]. rewrite Hb. cbn -[order.order_i64 cmp zcmp]. by apply cmp_order_i64.
Qed.

Lemma sample_indexers c ix : indexers sample_partition !! N.to_nat c = Some (Some ix) → c = 0 ∧ ix = make_indexer t_int64 sample_index.
Proof.
  unfold sample_partition. cbn [indexers]. generalize (make_indexer t_int64 sample_index) as mi. intros mi Hix.
  destruct (N.to_nat c) as [|[|n]] eqn:Hc; [|done|done]. injection Hix as ->. split; [lia|done].
Qed.

Lemma sample_row_indexed : row_indexed (λ _ _, false) (λ _ _, false) sample_partition sample_value 2.
Proof.
  destruct (bitmap_make_spec (B:=ids) 3 true) as [Hw Hl]; [by vm_compute|]. split; [|split; [|split]].
  - intros name r Hin. apply list_elem_of_singleton in Hin. by injection Hin as -> ->.
  - exists [115]. split; [|done]. exists (bitmap_base.make 3 true). split; [by left|]. by rewrite Hl.
  - done.
  - intros c ix ty op d Hix Hv. apply sample_indexers in Hix as [-> ->]. unfold sample_value in Hv. cbn [lhs Expression.op rhs] in Hv. destruct op; try done. destruct d as [| |y| | | | | | | | | | | |]; try done.
    apply andb_true_iff in Hv as [Hlo%Z.leb_le Hhi%Z.ltb_lt].
    destruct (sample_lookup greater y) as (r & -> & _ & Hb); [done|unfold is_i64; lia|]. exists r. split; [done|]. rewrite Hb.
    cbn. by apply Z.ltb_lt in Hhi as ->.
Qed.

Lemma sample_answer_wf r : make_indexer t_int64 sample_index (mk_curried greater (d_int64 5)) = value r → bm_wf r.
Proof.
  assert (is_i64 5) as H5 by (unfold is_i64; lia). destruct (sample_lookup greater 5 eq_refl H5) as (r' & Hr' & Hw & _).
  rewrite Hr'. intros Hr. by injection Hr as <-.
Qed.

Lemma partition_finds_rows_witness :
  ∃ ts no_indexer st0 sent,
    (handle_query (λ _ _, false) (λ _ _, false) (λ _ _, false) (mk_passive (Some sample_partition) [] 0) (mk_query bm_nil sample_query false)).2 =
      Some (spawn_evaluator ts no_indexer) ∧
    run (initial sample_query no_indexer) ts = Some (st0, sent) ∧
    ∀ cfg, rtc (step no_indexer) (st0, sent) cfg → cfg.2 = [] → ∃ h, promise cfg.1 = Some h ∧ bit_at (bm_list h) 2 = true.
Proof.
  apply (partition_finds_rows (λ _ _, false) (λ _ _, false) (λ _ _, false) sample_partition sample_fields sample_value 2 sample_query
    [([0; 0]%nat, mk_predicate (data_extractor t_int64 0) greater (o_data (d_int64 5)));
     ([0; 1]%nat, mk_predicate (data_extractor t_string 1) equal (o_data (d_string [97])))]);
    [done|done|exact sample_row_indexed| |exact sample_value_eqb|by repeat split|by repeat split|by vm_compute|by vm_compute|by vm_compute].
  intros ty c op d ix r Hin Hix Hr. change (resolve (λ _ _, false) sample_fields [] sample_query).*2 with
    [mk_predicate (data_extractor t_int64 0) greater (o_data (d_int64 5)); mk_predicate (data_extractor t_string 1) equal (o_data (d_string [97]))] in Hin.
  apply elem_of_cons in Hin as [[= -> -> -> ->]|[[= -> -> -> ->]|Hin%not_elem_of_nil]%elem_of_cons]; [|done|done].
  apply sample_indexers in Hix as [_ ->].
  exact (sample_answer_wf r Hr).
Defined.
