(* ===== verification/QueryQueue.v ===== *)
(** The scheduling of queries over partitions: [libvast/include/vast/query_queue.hpp] and
    [libvast/src/query_queue.cpp].

    A query asks for a number of its candidate partitions at a time. The queue hands out the
    partition with the highest priority together with the queries that have requested more
    partitions than were scheduled for them. *)

From stdpp Require Import gmap sorting.
From S2P Require Import Prelude Data.

(** [std::find] on the partition IDs, [std::vector::erase] of the first match. *)
Fixpoint erase_first (x : N) (xs : list N) : list N :=
  match xs with
  | [] => []
  | y :: xs => if y =? x then xs else y :: erase_first x xs
  end.

(** [++] and [+=] on the [uint32_t] counters. *)
Definition add32 (x y : N) : N := (x + y) mod 2 ^ 32.

Module query_queue.

(** Of a query context, what the queue reads. *)
Record query_context := mk_context { id : N; context_priority : N }.

Section query_queue.
(** Schemas are copied and clients are returned; the queue looks into neither. *)
Context {type client_type : Type}.

(** The contexts are listed in the iteration order of the map, which is not empty. *)
Record query_state := mk_state {
  query_contexts_per_type : (type * query_context) * list (type * query_context);
  client : client_type;
  candidate_partitions : N;
  requested_partitions : N;
  scheduled_partitions : N;
  completed_partitions : N
}.

Record entry := mk_entry {
  partition : N;
  schema : type;
  priority : N;
  queries : list N;
  erased : bool
}.

Record query_queue := mk {
  queries_ : gmap N query_state;
  partitions : list entry;
  inactive_partitions : list entry
}.

(** [candidate_infos] of a [catalog_lookup_result] in its iteration order, with the IDs of the
    partitions. *)
Definition candidate_infos : Type := list (type * list N).

Implicit Types (st : query_queue) (q : query_state) (e : entry) (es : list entry) (qid pid : N).

Definition empty_queue : query_queue := mk ∅ [] [].

Definition entry_le e e' : Prop := priority e <= priority e'.

(** [std::sort], which leaves the order of equal elements open. *)
Context (sort : list entry → list entry).

(** [query_contexts_per_type.begin()->second] *)
Definition first_context q : query_context := (query_contexts_per_type q).1.2.

Definition with_queries e (prio : N) (qs : list N) : entry :=
  mk_entry (partition e) (schema e) prio qs (erased e).
Definition with_requested q (n : N) : query_state :=
  mk_state (query_contexts_per_type q) (client q) (candidate_partitions q) n
    (scheduled_partitions q) (completed_partitions q).
Definition with_scheduled q (n : N) : query_state :=
  mk_state (query_contexts_per_type q) (client q) (candidate_partitions q) (requested_partitions q)
    n (completed_partitions q).
Definition with_completed q (n : N) : query_state :=
  mk_state (query_contexts_per_type q) (client q) (candidate_partitions q) (requested_partitions q)
    (scheduled_partitions q) n.

(** ** Observers *)

Definition num_partitions st : N := lenN (partitions st) + lenN (inactive_partitions st).
Definition num_queries st : N := N.of_nat (size (queries_ st)).
Definition has_work st : bool := match partitions st with [] => false | _ => true end.

Definition reachable st qid : bool :=
  let run := existsb (λ e, existsb (N.eqb qid) (queries e)) in
  run (partitions st) || run (inactive_partitions st).

(** The loop over the IDs that [uuid::random] returns. *)
Fixpoint create_query_id st (random : list N) : option N :=
  match random with
  | [] => None
  | x :: random => match queries_ st !! x with Some _ => create_query_id st random | None => Some x end
  end.

(** ** Modifiers *)

Definition infos_empty (c : candidate_infos) : bool := match c with [] => true | _ => false end.
Definition infos_size (c : candidate_infos) : N := foldl (λ n x, n + lenN x.2) 0 c.

Definition find_partition pid es : option (nat * entry) := list_find (λ e, partition e = pid) es.

(** The body of the loop of [insert]. *)
Definition insert_candidate qid (prio : N) (acc : list entry * list entry) (cand : type * N)
    : list entry * list entry :=
  let '(active, inactive) := acc in
  match find_partition cand.2 active with
  | Some (i, e) => (<[i := with_queries e (priority e +u prio) (queries e ++ [qid])]> active, inactive)
  | None =>
      match find_partition cand.2 inactive with
      | Some (i, e) =>
          (active ++ [with_queries e (priority e +u prio) (queries e ++ [qid])], delete i inactive)
      | None => (active ++ [mk_entry cand.2 cand.1 prio [qid] false], inactive)
      end
  end.

(** The candidates in the order of the two loops. *)
Definition candidates (c : candidate_infos) : list (type * N) := c ≫= λ x, (λ pid, (x.1, pid)) <$> x.2.

Definition insert st q (c : candidate_infos) : query_queue * option ec :=
  if infos_empty c then (st, Some unspecified)
  else if negb (candidate_partitions q =? infos_size c) then (st, Some unspecified)
  else
    let qid := id (first_context q) in
    match queries_ st !! qid with
    | Some _ => (st, Some unspecified)
    | None =>
        let '(active, inactive) :=
          foldl (insert_candidate qid (context_priority (first_context q)))
            (partitions st, inactive_partitions st) (candidates c) in
        (mk (<[qid := q]> (queries_ st)) (sort active) inactive, None)
    end.

Definition activate st qid (num_partitions : N) : query_queue * option ec :=
  match queries_ st !! qid with
  | None => (st, Some unspecified)
  | Some q =>
      (mk (<[qid := with_requested q (add32 (requested_partitions q) num_partitions)]> (queries_ st))
         (sort (partitions st ++ filter (λ e, qid ∈ queries e) (inactive_partitions st)))
         (filter (λ e, ¬ qid ∈ queries e) (inactive_partitions st)), None)
  end.

(** The loop [run] of [remove_query]. *)
Fixpoint remove_loop qid es : list entry :=
  match es with
  | [] => []
  | e :: es =>
      if decide (qid ∈ queries e) then
        match erase_first qid (queries e) with
        | [] => remove_loop qid es
        | qs => with_queries e (priority e) qs :: remove_loop qid es
        end
      else e :: remove_loop qid es
  end.

Definition remove_query st qid : query_queue * option ec :=
  match queries_ st !! qid with
  | None => (st, Some unspecified)
  | Some _ =>
      (mk (delete qid (queries_ st)) (remove_loop qid (partitions st))
         (remove_loop qid (inactive_partitions st)), None)
  end.

Definition set_erased e : entry := mk_entry (partition e) (schema e) (priority e) (queries e) true.

Definition mark_partition_erased st pid : query_queue * bool :=
  match find_partition pid (partitions st) with
  | Some (i, e) => (mk (queries_ st) (<[i := set_erased e]> (partitions st)) (inactive_partitions st), true)
  | None =>
      match find_partition pid (inactive_partitions st) with
      | Some (i, e) => (mk (queries_ st) (partitions st) (<[i := set_erased e]> (inactive_partitions st)), true)
      | None => (st, false)
      end
  end.

(** The predicate of [next]: the query has requested more than was scheduled. *)
Definition is_active (qs : gmap N query_state) qid : bool :=
  match qs !! qid with
  | None => false
  | Some q => scheduled_partitions q <? requested_partitions q
  end.

(** The queries that are left inactive: their priorities are added up, unknown ones dropped. *)
Definition inactive_entry (qs : gmap N query_state) e : entry :=
  foldl (λ acc qid,
    match qs !! qid with
    | None => acc
    | Some q => with_queries acc (priority acc +u context_priority (first_context q)) (queries acc ++ [qid])
    end) (with_queries e 0 []) (filter (λ qid, is_active qs qid = false) (queries e)).

(** [scheduled_partitions++] for each query. *)
Definition schedule (qs : gmap N query_state) (active : list N) : gmap N query_state :=
  foldl (λ qs qid, alter (λ q, with_scheduled q (add32 (scheduled_partitions q) 1)) qid qs) qs active.

(** The loop of [next], over the partitions from the back. *)
Fixpoint next_loop (qs : gmap N query_state) (back inactive : list entry) : query_queue * option entry :=
  match back with
  | [] => (mk qs [] inactive, None)
  | e :: back =>
      let active := filter (λ qid, is_active qs qid = true) (queries e) in
      let inactive :=
        match filter (λ qid, is_active qs qid = false) (queries e) with
        | [] => inactive
        | _ => inactive ++ [inactive_entry qs e]
        end in
      match active with
      | [] => next_loop qs back inactive
      | _ => (mk (schedule qs active) (reverse back) inactive, Some (with_queries e 0 active))
      end
  end.

Definition next st : query_queue * option entry :=
  next_loop (queries_ st) (reverse (partitions st)) (inactive_partitions st).

Definition handle_completion st qid : query_queue * option client_type :=
  match queries_ st !! qid with
  | None => (st, None)
  | Some q =>
      let q := with_completed q (add32 (completed_partitions q) 1) in
      let result := if completed_partitions q =? requested_partitions q then Some (client q) else None in
      let qs := if completed_partitions q =? candidate_partitions q
                then delete qid (queries_ st) else <[qid := q]> (queries_ st) in
      (mk qs (partitions st) (inactive_partitions st), result)
  end.

(** [immediate_completion] of [index_state::schedule_lookups]: every query of a partition that is
    not looked at is completed; returns the clients that are told. *)
Definition complete_one (acc : query_queue * list client_type) qid : query_queue * list client_type :=
  let '(st, told) := acc in
  match handle_completion st qid with
  | (st, Some client) => (st, told ++ [client])
  | (st, None) => (st, told)
  end.

Definition immediate_completion st (x : entry) : query_queue * list client_type :=
  foldl complete_one (st, []) (queries x).

(** The loop of [schedule_lookups] over partitions that were erased or cannot be loaded. *)
Fixpoint skip_lookups (fuel : nat) st : query_queue * list client_type :=
  match fuel with
  | O => (st, [])
  | S fuel =>
      match next st with
      | (st, None) => (st, [])
      | (st, Some e) =>
          let '(st, told) := immediate_completion st e in
          let '(st, told') := skip_lookups fuel st in
          (st, told ++ told')
      end
  end.
End query_queue.

Arguments query_state : clear implicits.
Arguments entry : clear implicits.
Arguments query_queue : clear implicits.
Arguments candidate_infos : clear implicits.
End query_queue.
