(* ===== verification/QueryQueueSpec.v ===== *)
(** The invariant of the query queue and its preservation: [libvast/src/query_queue.cpp].

    The invariant accounts for every candidate partition of every query: it is in the queue, was
    scheduled, or was completed. It speaks of the IDs of the partitions and of their queries only,
    up to the order of the partitions. *)

From stdpp Require Import gmap sorting.
From S2P Require Import Prelude Data QueryQueue.

Import query_queue.

(** [std::sort] returns its elements in ascending order. *)
Class Sort {A} (le : A → A → Prop) (sort : list A → list A) : Prop := {
  sort_perm l : sort l ≡ₚ l;
  sort_sorted l : StronglySorted le (sort l)
}.

Section load.
Context {type client_type : Type}.
Implicit Types (e : entry type) (es : list (entry type)) (q : query_state type client_type).
Implicit Types (qs : gmap N (query_state type client_type)) (x qid : N).

(** A partition and the queries that wait for it. *)
Notation load := (list (N * list N)).
Definition key e : N * list N := (partition e, queries e).
Implicit Types l : load.

(** The number of partitions a query waits for. *)
Definition occ x l : N := lenN (filter (λ k, x ∈ k.2) l).

(** The candidates of a query are waiting or scheduled; the scheduled ones were requested. *)
Definition counts q (waiting : N) : Prop :=
  scheduled_partitions q + waiting = candidate_partitions q ∧
  completed_partitions q <= scheduled_partitions q <= requested_partitions q ∧
  requested_partitions q < 2 ^ 32 ∧ candidate_partitions q < 2 ^ 32.

Record load_ok qs l : Prop := {
  load_distinct : NoDup l.*1;
  load_queries k : k ∈ l → k.2 ≠ [] ∧ NoDup k.2 ∧ ∀ x, x ∈ k.2 → is_Some (qs !! x);
  load_counts x q : qs !! x = Some q → counts q (occ x l)
}.

(** No query of these partitions has requested more than was scheduled. *)
Definition idle qs l : Prop := ∀ k x q, k ∈ l → x ∈ k.2 → qs !! x = Some q →
  requested_partitions q <= scheduled_partitions q.

Global Instance occ_proper : Proper ((=) ==> (≡ₚ) ==> (=)) occ.
Proof. intros x ? <- l l' Hl. unfold occ, lenN. by rewrite Hl. Qed.

Global Instance load_ok_proper : Proper ((=) ==> (≡ₚ) ==> iff) load_ok.
Proof.
  assert (∀ qs l l', l ≡ₚ l' → load_ok qs l → load_ok qs l') as H.
  { intros qs l l' Hl [H1 H2 H3]. split.
    - by rewrite <- Hl.
    - intros k. rewrite <- Hl. apply H2.
    - intros x q Hx. rewrite <- Hl. by apply H3. }
  intros qs ? <- l l' Hl. split; by apply H.
Qed.

Lemma occ_nil x : occ x [] = 0.
Proof. done. Qed.

Lemma occ_cons x k l : occ x (k :: l) = (if bool_decide (x ∈ k.2) then 1 else 0) + occ x l.
Proof. unfold occ. rewrite filter_cons. case_decide; case_bool_decide; try done. rewrite lenN_cons. lia. Qed.

Lemma occ_app x l l' : occ x (l ++ l') = occ x l + occ x l'.
Proof. unfold occ. by rewrite list.filter_app, lenN_app. Qed.

Lemma occ_zero x l k : occ x l = 0 → k ∈ l → x ∉ k.2.
Proof.
  intros H Hk. induction l as [|k' l IH]; [by apply not_elem_of_nil in Hk|].
  rewrite occ_cons in H. case_bool_decide; [lia|].
  apply elem_of_cons in Hk as [->|Hk]; [done|]. by apply IH.
Qed.

Lemma occ_pos x l k : k ∈ l → x ∈ k.2 → 0 < occ x l.
Proof.
  intros Hk Hx. destruct (N.lt_ge_cases 0 (occ x l)) as [|H]; [done|].
  exfalso. eapply (occ_zero x l k); try done. lia.
Qed.

Lemma occ_pos_inv x l : 0 < occ x l → ∃ k, k ∈ l ∧ x ∈ k.2.
Proof.
  induction l as [|k l IH]; [rewrite occ_nil; lia|]. rewrite occ_cons.
  case_bool_decide as Hx; intros H; [exists k; split; [by left|done]|].
  destruct IH as (k' & ? & ?); [lia|]. exists k'. split; [by right|done].
Qed.

(** The state of one query changes. *)
Lemma load_ok_insert qs l x q :
  load_ok qs l → counts q (occ x l) → load_ok (<[x := q]> qs) l.
Proof.
  intros [H1 H2 H3] Hq. split; [done|..].
  - intros k Hk. destruct (H2 k Hk) as (? & ? & H). split_and!; [done..|].
    intros y Hy. destruct (decide (x = y)) as [->|]; [rewrite lookup_insert_eq|rewrite lookup_insert_ne by done]; [by eexists|auto].
  - intros y q'. destruct (decide (x = y)) as [->|].
    + rewrite lookup_insert_eq. by intros [= <-].
    + rewrite lookup_insert_ne by done. apply H3.
Qed.

(** A query that waits for nothing goes. *)
Lemma load_ok_delete qs l x : load_ok qs l → occ x l = 0 → load_ok (delete x qs) l.
Proof.
  intros [H1 H2 H3] Hx. split; [done|..].
  - intros k Hk. destruct (H2 k Hk) as (? & ? & H). split_and!; [done..|].
    intros y Hy. rewrite lookup_delete_ne; [auto|]. intros ->. by eapply occ_zero.
  - intros y q' Hy. apply lookup_delete_Some in Hy as [_ Hy]. by apply H3.
Qed.

Lemma idle_subset qs l l' : l' ⊆ l → idle qs l → idle qs l'.
Proof. intros Hl H k x q Hk. apply H. by apply Hl. Qed.

Lemma idle_app qs l l' : idle qs (l ++ l') ↔ idle qs l ∧ idle qs l'.
Proof. unfold idle. setoid_rewrite elem_of_app. firstorder. Qed.

(** The state of one query changes and no listed partition waits for it, or it stays idle. *)
Lemma idle_insert qs l x q :
  idle qs l → (requested_partitions q <= scheduled_partitions q ∨ ∀ k, k ∈ l → x ∉ k.2) →
  idle (<[x := q]> qs) l.
Proof.
  intros H Hq k y q' Hk Hy Hl. destruct (decide (x = y)) as [->|].
  - rewrite lookup_insert_eq in Hl. injection Hl as <-. destruct Hq as [|Hq]; [done|]. by destruct (Hq k Hk).
  - rewrite lookup_insert_ne in Hl by done. by eapply H.
Qed.

Lemma idle_delete qs l x : idle qs l → idle (delete x qs) l.
Proof. intros H k y q Hk Hy Hl. apply lookup_delete_Some in Hl as [_ Hl]. by eapply H. Qed.
End load.

(** ** The queue *)

Section queue.
Context {type client_type : Type}.
Context (sort : list (entry type) → list (entry type)) `{!Sort entry_le sort}.
Implicit Types (st : query_queue type client_type) (e : entry type) (es : list (entry type)).
Implicit Types (q : query_state type client_type) (qs : gmap N (query_state type client_type)).
Implicit Types (x qid pid : N) (l : list (N * list N)).

Definition all_entries st : list (entry type) := partitions st ++ inactive_partitions st.

Record queue_ok st : Prop := {
  queue_load : load_ok (queries_ st) (key <$> all_entries st);
  queue_idle : idle (queries_ st) (key <$> inactive_partitions st);
  queue_sorted : StronglySorted N.le (priority <$> partitions st)
}.

Lemma sorted_priorities es : StronglySorted N.le (priority <$> sort es).
Proof. eapply StronglySorted_fmap; [|apply sort_sorted]. done. Qed.

Lemma empty_queue_ok : queue_ok empty_queue.
Proof.
  split; [split|..].
  - apply NoDup_nil_2.
  - intros k Hk. by apply not_elem_of_nil in Hk.
  - done.
  - intros k x q Hk. by apply not_elem_of_nil in Hk.
  - constructor.
Qed.

(** *** Activation *)

Lemma activate_ok st qid n :
  queue_ok st → (∀ q, queries_ st !! qid = Some q → requested_partitions q + n < 2 ^ 32) →
  queue_ok (activate sort st qid n).1.
Proof.
  intros [Hl Hi Hs] Hn. unfold activate. destruct (queries_ st !! qid) as [q|] eqn:E; [|by split].
  specialize (Hn q eq_refl). pose proof (load_counts _ _ Hl qid q E) as (H1 & H2 & H3 & H4).
  assert (add32 (requested_partitions q) n = requested_partitions q + n) as -> by (by apply N.mod_small).
  split; cbn [fst queries_ partitions inactive_partitions]; [|..|by apply sorted_priorities].
  - apply load_ok_insert.
    + unfold all_entries; cbn. rewrite sort_perm, <- app_assoc, filter_app_complement. exact Hl.
    + unfold all_entries; cbn. rewrite sort_perm, <- app_assoc, filter_app_complement.
      repeat split; cbn; try lia. exact H1.
  - apply idle_insert.
    + eapply idle_subset; [|exact Hi]. intros k (e & -> & He)%list_elem_of_fmap.
      apply list_elem_of_filter in He as [_ ?]. by apply list_elem_of_fmap_2.
    + right. intros k (e & -> & He)%list_elem_of_fmap. by apply list_elem_of_filter in He as [? _].
Qed.

(** *** Erased partitions *)

Lemma find_partition_spec pid es i e :
  find_partition pid es = Some (i, e) → es !! i = Some e ∧ partition e = pid.
Proof. unfold find_partition. intros (? & ? & _)%list_find_Some. done. Qed.

Lemma fmap_set_erased {B} (f : entry type → B) es i e :
  (∀ e, f (set_erased e) = f e) → es !! i = Some e → f <$> <[i := set_erased e]> es = f <$> es.
Proof.
  intros Hf Hi. rewrite list_fmap_insert, Hf. apply list_insert_id. by rewrite list_lookup_fmap, Hi.
Qed.

Lemma mark_partition_erased_ok st pid : queue_ok st → queue_ok (mark_partition_erased st pid).1.
Proof.
  intros [Hl Hi Hs]. unfold mark_partition_erased.
  destruct (find_partition pid (partitions st)) as [[i e]|] eqn:E.
  { apply find_partition_spec in E as [E _]. split; cbn [fst queries_ partitions inactive_partitions]; [|done|].
    - unfold all_entries in *; cbn. by rewrite fmap_app, (fmap_set_erased key), <- fmap_app.
    - by rewrite fmap_set_erased. }
  destruct (find_partition pid (inactive_partitions st)) as [[i e]|] eqn:E'; [|by split].
  apply find_partition_spec in E' as [E' _]. split; cbn [fst queries_ partitions inactive_partitions]; [..|done].
  - unfold all_entries in *; cbn. by rewrite fmap_app, (fmap_set_erased key), <- fmap_app.
  - by rewrite fmap_set_erased.
Qed.

(** *** Completion *)

Lemma handle_completion_ok st qid :
  queue_ok st →
  (∀ q, queries_ st !! qid = Some q → completed_partitions q < scheduled_partitions q) →
  queue_ok (handle_completion st qid).1.
Proof.
  intros [Hl Hi Hs] Hn. unfold handle_completion. destruct (queries_ st !! qid) as [q|] eqn:E; [|by split].
  specialize (Hn q eq_refl). pose proof (load_counts _ _ Hl qid q E) as (H1 & H2 & H3 & H4).
  assert (add32 (completed_partitions q) 1 = completed_partitions q + 1) as -> by (apply N.mod_small; lia).
  cbn [with_completed completed_partitions candidate_partitions requested_partitions fst].
  split; cbn [queries_ partitions inactive_partitions]; [..|done].
  - destruct (N.eqb_spec (completed_partitions q + 1) (candidate_partitions q)) as [Eq|Ne].
    + apply load_ok_delete; [done|]. unfold all_entries in *. cbn. lia.
    + apply load_ok_insert; [done|]. split; [done|]. cbn. lia.
  - destruct (_ =? _); [by apply idle_delete|]. apply idle_insert; [done|].
    destruct (decide (0 < occ qid (key <$> inactive_partitions st))) as [Hpos|Hz].
    + left. apply occ_pos_inv in Hpos as (k & Hk & Hq). exact (Hi k qid q Hk Hq E).
    + right. intros k Hk. eapply occ_zero; [|done]. lia.
Qed.

(** *** Removal *)

Lemma erase_first_spec x y (xs : list N) : NoDup xs → y ∈ erase_first x xs ↔ y ∈ xs ∧ y ≠ x.
Proof.
  induction xs as [|z xs IH]; intros Hd; cbn.
  { split; [by intros ?%not_elem_of_nil|by intros [?%not_elem_of_nil _]]. }
  apply list.NoDup_cons in Hd as [Hz Hd]. destruct (N.eqb_spec z x) as [->|Hne].
  - rewrite elem_of_cons. split; [intros H; split; [by right|by intros ->]|intros [[->|] ?]; done].
  - rewrite !elem_of_cons, IH by done. split; [intros [->|[]]; tauto|intros [[->|] ?]; tauto].
Qed.

Lemma erase_first_NoDup x (xs : list N) : NoDup xs → NoDup (erase_first x xs).
Proof.
  induction xs as [|z xs IH]; intros Hd; cbn; [done|]. apply list.NoDup_cons in Hd as [Hz Hd].
  destruct (N.eqb_spec z x); [done|]. apply list.NoDup_cons. split; [|auto]. by rewrite erase_first_spec; [intros []|].
Qed.

Lemma erase_first_id x (xs : list N) : x ∉ xs → erase_first x xs = xs.
Proof.
  induction xs as [|z xs IH]; intros Hx; cbn; [done|]. rewrite not_elem_of_cons in Hx.
  destruct (N.eqb_spec z x) as [->|]; [tauto|]. by rewrite IH by tauto.
Qed.

(** What is left of the partitions: those for which a query still waits. *)
Definition remove_keys qid l : list (N * list N) :=
  filter (λ k, k.2 ≠ []) ((λ k, (k.1, erase_first qid k.2)) <$> l).

Lemma key_remove_loop qid es :
  (∀ e, e ∈ es → queries e ≠ []) → key <$> remove_loop qid es = remove_keys qid (key <$> es).
Proof.
  intros Hes. unfold remove_keys. induction es as [|e es IH]; [done|].
  specialize (IH (λ e' He', Hes e' (list_elem_of_further _ _ _ He'))). specialize (Hes e (list_elem_of_here _ _)).
  cbn [remove_loop fmap list_fmap]. rewrite filter_cons. cbn [key fst snd].
  case_decide as Hq.
  - destruct (erase_first qid (queries e)) as [|y ys]; [rewrite decide_False by tauto|rewrite decide_True by done];
      [done|]. cbn [fmap list_fmap]. by rewrite <- IH.
  - rewrite erase_first_id, decide_True by done. cbn [fmap list_fmap]. by rewrite <- IH.
Qed.

Lemma occ_remove_keys x qid l :
  x ≠ qid → (∀ k, k ∈ l → NoDup k.2) → occ x (remove_keys qid l) = occ x l.
Proof.
  intros Hx Hd. unfold remove_keys. induction l as [|k l IH]; [done|].
  specialize (IH (λ k' Hk', Hd k' (list_elem_of_further _ _ _ Hk'))). specialize (Hd k (list_elem_of_here _ _)).
  cbn [fmap list_fmap]. rewrite filter_cons, occ_cons. cbn [fst snd].
  assert (bool_decide (x ∈ k.2) = bool_decide (x ∈ erase_first qid k.2)) as ->.
  { apply bool_decide_ext. rewrite erase_first_spec by done. tauto. }
  case_decide as He.
  - by rewrite occ_cons, IH.
  - rewrite IH. by rewrite He.
Qed.

Lemma load_ok_remove qs l qid : load_ok qs l → load_ok (delete qid qs) (remove_keys qid l).
Proof.
  intros [H1 H2 H3]. split.
  - eapply sublist_NoDup; [exact H1|]. unfold remove_keys.
    assert (l.*1 = ((λ k, (k.1, erase_first qid k.2)) <$> l).*1) as ->
      by (rewrite <- list_fmap_compose; by apply list_fmap_ext).
    apply fmap_sublist, sublist_filter.
  - intros k' (Hne & (k & -> & Hk)%list_elem_of_fmap)%list_elem_of_filter. cbn in *.
    destruct (H2 k Hk) as (_ & Hd & Hs). split_and!; [done|by apply erase_first_NoDup|].
    intros x [Hx Hxq]%erase_first_spec; [|done]. rewrite lookup_delete_ne by done. auto.
  - intros x q [Hx Hl]%lookup_delete_Some. rewrite occ_remove_keys; [by apply H3|done|].
    intros k Hk. by apply H2.
Qed.

Lemma remove_loop_app qid es es' : remove_loop qid (es ++ es') = remove_loop qid es ++ remove_loop qid es'.
Proof.
  induction es as [|e es IH]; [done|]. cbn. case_decide; [|by rewrite IH].
  destruct (erase_first _ _); by rewrite IH.
Qed.

Lemma remove_loop_priorities qid es : (priority <$> remove_loop qid es) `sublist_of` (priority <$> es).
Proof.
  induction es as [|e es IH]; [done|]. cbn. case_decide; [|by apply sublist_skip].
  destruct (erase_first _ _); [by apply sublist_cons|by apply sublist_skip].
Qed.

Lemma delete_insert_list {A} (xs : list A) i (z : A) : delete i (<[i := z]> xs) = delete i xs.
Proof. revert i. induction xs as [|y xs IH]; intros [|i]; cbn; [done..|]. by f_equal. Qed.

Lemma insert_Permutation_list {A} (xs : list A) i (z y : A) :
  xs !! i = Some y → <[i := z]> xs ≡ₚ z :: delete i xs.
Proof.
  intros Hi. rewrite <- (delete_insert_list xs i z). apply delete_Permutation, list_lookup_insert_eq.
  by eapply lookup_lt_Some.
Qed.

Lemma StronglySorted_sublist {A} (R : A → A → Prop) (xs ys : list A) :
  xs `sublist_of` ys → StronglySorted R ys → StronglySorted R xs.
Proof.
  induction 1 as [|x xs ys Hsub IH|x xs ys Hsub IH]; intros Hs; [done|..]; inversion_clear Hs; [|auto].
  constructor; [auto|]. apply list.Forall_forall. intros y Hy.
  eapply list.Forall_forall; [done|]. by eapply sublist_subseteq.
Qed.

Lemma remove_query_ok st qid : queue_ok st → queue_ok (remove_query st qid).1.
Proof.
  intros [Hl Hi Hs]. unfold remove_query. destruct (queries_ st !! qid) as [q|] eqn:E; [|by split].
  assert (∀ e, e ∈ all_entries st → queries e ≠ [] ∧ NoDup (queries e)) as Hne.
  { intros e He. destruct (load_queries _ _ Hl (key e)) as (? & ? & _); [by apply list_elem_of_fmap_2|done]. }
  split; cbn [fst queries_ partitions inactive_partitions].
  - unfold all_entries; cbn. rewrite <- remove_loop_app, key_remove_loop by (intros; by apply Hne).
    by apply load_ok_remove.
  - apply idle_delete. rewrite key_remove_loop by (intros e He; apply Hne, elem_of_app; by right).
    intros k' x q' (_ & (k & -> & Hk)%list_elem_of_fmap)%list_elem_of_filter Hx Hq. cbn in Hx.
    apply erase_first_spec in Hx as [Hx _]; [by eapply Hi|].
    apply list_elem_of_fmap in Hk as (e & -> & He). apply Hne, elem_of_app. by right.
  - eapply StronglySorted_sublist; [apply remove_loop_priorities|done].
Qed.
(** *** Insertion *)

(** The entries while a query is inserted: the partitions in [seen] have it already. *)
Record loading qs qid l0 l (seen : list N) : Prop := {
  loading_distinct : NoDup l.*1;
  loading_queries k : k ∈ l → k.2 ≠ [] ∧ NoDup k.2 ∧ ∀ x, x ∈ k.2 → x = qid ∨ is_Some (qs !! x);
  loading_done k : k ∈ l → qid ∈ k.2 → k.1 ∈ seen;
  loading_occ : occ qid l = lenN seen;
  loading_others x : x ≠ qid → occ x l = occ x l0
}.

Lemma loading_perm qs qid l0 l l' seen :
  l ≡ₚ l' → loading qs qid l0 l seen → loading qs qid l0 l' seen.
Proof.
  intros Hl [H1 H2 H3 H4 H5]. split.
  - by rewrite <- Hl.
  - intros k. rewrite <- Hl. apply H2.
  - intros k. rewrite <- Hl. apply H3.
  - by rewrite <- Hl.
  - intros x Hx. rewrite <- Hl. by apply H5.
Qed.

Local Instance loading_proper qs qid l0 : Proper ((≡ₚ) ==> (=) ==> iff) (loading qs qid l0).
Proof. intros l l' Hl ? seen ->. split; by apply loading_perm. Qed.

(** A partition that is in the queue gets the query. *)
Lemma loading_update qs qid l0 k l seen :
  loading qs qid l0 (k :: l) seen → k.1 ∉ seen →
  loading qs qid l0 ((k.1, k.2 ++ [qid]) :: l) (k.1 :: seen).
Proof.
  intros [H1 H2 H3 H4 H5] Hk. assert (qid ∉ k.2) as Hq by (intros H; apply Hk, (H3 k); [by left|done]).
  split.
  - exact H1.
  - intros k' [->|Hk']%elem_of_cons; [|apply H2; by right]. cbn.
    destruct (H2 k) as (_ & Hd & Hx); [by left|]. split_and!.
    + by destruct (k.2).
    + apply list.NoDup_app. split_and!; [done| |apply NoDup_singleton]. intros x Hin ->%list_elem_of_singleton. done.
    + intros x [Hin| ->%list_elem_of_singleton]%elem_of_app; [auto|by left].
  - intros k' [->|Hk']%elem_of_cons Hin; [by left|]. right. apply H3; [by right|done].
  - rewrite occ_cons, bool_decide_eq_false_2 in H4 by done.
    rewrite occ_cons, bool_decide_eq_true_2, lenN_cons by (apply elem_of_app; right; by left). lia.
  - intros x Hx. rewrite <- (H5 x Hx), !occ_cons. cbn [snd]. f_equal.
    erewrite bool_decide_ext; [done|]. rewrite elem_of_app, list_elem_of_singleton. tauto.
Qed.

(** A partition that is not in the queue yet. *)
Lemma loading_new qs qid l0 l seen pid :
  loading qs qid l0 l seen → pid ∉ l.*1 → loading qs qid l0 ((pid, [qid]) :: l) (pid :: seen).
Proof.
  intros [H1 H2 H3 H4 H5] Hp. split.
  - by apply list.NoDup_cons.
  - intros k' [->|Hk']%elem_of_cons; [|by apply H2]. cbn. split_and!; [done|apply NoDup_singleton|].
    intros x ->%list_elem_of_singleton. by left.
  - intros k' [->|Hk']%elem_of_cons Hin; [by left|]. right. by apply H3.
  - rewrite occ_cons, bool_decide_eq_true_2, lenN_cons by (by left). lia.
  - intros x Hx. rewrite <- (H5 x Hx), occ_cons, bool_decide_eq_false_2; [lia|]. cbn.
    by rewrite list_elem_of_singleton.
Qed.

Lemma loading_init qs qid l : load_ok qs l → qs !! qid = None → loading qs qid l l [].
Proof.
  intros [H1 H2 H3] Hq. assert (∀ k, k ∈ l → qid ∉ k.2) as Hn.
  { intros k Hk Hin. destruct (H2 k Hk) as (_ & _ & H). destruct (H qid Hin). congruence. }
  split; [done| | |..|done].
  - intros k Hk. destruct (H2 k Hk) as (? & ? & H). split_and!; [done..|]. intros x Hx. right. auto.
  - intros k Hk Hin. by destruct (Hn k Hk).
  - destruct (N.lt_ge_cases 0 (occ qid l)) as [(k & Hk & Hin)%occ_pos_inv|]; [by destruct (Hn k Hk)|].
    rewrite lenN_nil. lia.
Qed.

Lemma loading_finish qs qid l0 l seen q :
  load_ok qs l0 → qs !! qid = None → loading qs qid l0 l seen → counts q (lenN seen) →
  load_ok (<[qid := q]> qs) l.
Proof.
  intros [_ _ H3] Hq [H1 H2 _ H4 H5] Hc. split; [done|..].
  - intros k Hk. destruct (H2 k Hk) as (? & ? & H). split_and!; [done..|]. intros x Hx.
    destruct (H x Hx) as [->|Hs]; [rewrite lookup_insert_eq; by eexists|].
    rewrite lookup_insert_ne; [done|]. intros ->. rewrite Hq in Hs. by destruct Hs.
  - intros x q' [[<- <-]|[Hne Hx]]%lookup_insert_Some; [by rewrite H4|].
    rewrite H5 by done. by apply H3.
Qed.

Notation keys acc := (key <$> (acc.1 ++ acc.2)).

Lemma insert_candidate_loading qs qid prio l0 (acc : list (entry type) * list (entry type)) (cand : type * N) seen :
  loading qs qid l0 (keys acc) seen → cand.2 ∉ seen →
  loading qs qid l0 (keys (insert_candidate qid prio acc cand)) (cand.2 :: seen) ∧
  (insert_candidate qid prio acc cand).2 ⊆ acc.2.
Proof.
  intros Hl Hc. destruct acc as [active inactive]. unfold insert_candidate.
  assert (∀ e prio' r, partition e = cand.2 → key <$> (active ++ inactive) ≡ₚ key e :: r →
    loading qs qid l0 (key (with_queries e prio' (queries e ++ [qid])) :: r) (cand.2 :: seen)) as Hupd.
  { intros e prio' r He Hr. rewrite <- He. apply (loading_update qs qid l0 (key e)); [by eapply loading_perm|].
    cbn. by rewrite He. }
  destruct (find_partition cand.2 active) as [[i e]|] eqn:E; cbn [fst snd].
  { apply find_partition_spec in E as [Hi He]. split; [|done].
    rewrite (insert_Permutation_list _ _ _ _ Hi). apply Hupd; [done|].
    by rewrite (delete_Permutation _ _ _ Hi) at 1. }
  destruct (find_partition cand.2 inactive) as [[i e]|] eqn:E'; cbn [fst snd].
  { apply find_partition_spec in E' as [Hi He]. split.
    - rewrite <- app_assoc, (Permutation_app_comm active). cbn. apply Hupd; [done|].
      rewrite (delete_Permutation _ _ _ Hi) at 1. rewrite Permutation_app_comm. done.
    - intros e' He'. apply sublist_subseteq with (delete i inactive); [apply sublist_delete|done]. }
  split; [|done]. rewrite <- app_assoc, (Permutation_app_comm active). cbn.
  change (key (mk_entry cand.2 cand.1 prio [qid] false)) with (cand.2, [qid]).
  eapply loading_perm; [apply Permutation_skip; rewrite Permutation_app_comm; done|]. apply loading_new; [done|].
  rewrite <- list_fmap_compose. intros (e & He & Hin)%list_elem_of_fmap.
  unfold find_partition in *. rewrite list_find_None, list.Forall_forall in E, E'.
  apply elem_of_app in Hin as [Hin|Hin]; [by apply (E e)|by apply (E' e)].
Qed.
Lemma insert_loop_loading qs qid prio l0 (cs : list (type * N)) (acc : list (entry type) * list (entry type)) seen :
  loading qs qid l0 (keys acc) seen → NoDup cs.*2 → (∀ c, c ∈ cs → c.2 ∉ seen) →
  loading qs qid l0 (keys (foldl (insert_candidate qid prio) acc cs)) (reverse cs.*2 ++ seen) ∧
  (foldl (insert_candidate qid prio) acc cs).2 ⊆ acc.2.
Proof.
  revert acc seen. induction cs as [|c cs IH]; intros acc seen Hl Hd Hs; [done|].
  cbn [fmap list_fmap] in *. apply list.NoDup_cons in Hd as [Hc Hd]. cbn [foldl].
  destruct (insert_candidate_loading qs qid prio l0 acc c seen) as [Hl' Hi]; [done|apply Hs; by left|].
  destruct (IH _ _ Hl' Hd) as [Hl2 Hi2].
  { intros c' Hc'. rewrite not_elem_of_cons. split; [|apply Hs; by right].
    intros Heq. apply Hc. rewrite <- Heq. by apply list_elem_of_fmap_2. }
  split; [|by etrans]. rewrite reverse_cons, <- app_assoc. exact Hl2.
Qed.

Lemma infos_size_candidates (c : candidate_infos type) : infos_size c = lenN (candidates c).
Proof.
  unfold infos_size. assert (∀ n : N, foldl (λ n (i : type * list N), n + lenN i.2) n c = n + lenN (candidates c)) as H; [|by rewrite H].
  induction c as [|x c IH]; intros n; cbn [foldl]; [unfold lenN; cbn; lia|]. rewrite IH.
  unfold candidates. cbn [mbind list_bind]. rewrite lenN_app. unfold lenN. rewrite length_fmap. lia.
Qed.

Lemma insert_ok st q (c : candidate_infos type) :
  queue_ok st → NoDup (candidates c).*2 →
  scheduled_partitions q = 0 → completed_partitions q = 0 →
  requested_partitions q < 2 ^ 32 → candidate_partitions q < 2 ^ 32 →
  queue_ok (insert sort st q c).1.
Proof.
  intros [Hl Hi Hs] Hd Hsch Hcomp Hreq Hcand. unfold insert.
  destruct (infos_empty c); [by split|]. destruct (N.eqb_spec (candidate_partitions q) (infos_size c)) as [Hsz|]; [|by split].
  cbn [negb]. set (qid := id (first_context q)). destruct (queries_ st !! qid) as [q'|] eqn:E; [by split|].
  destruct (insert_loop_loading (queries_ st) qid (context_priority (first_context q)) (key <$> all_entries st)
    (candidates c) (partitions st, inactive_partitions st) []) as [Hl' Hi'];
    [by apply loading_init|done|by intros ? _ ?%not_elem_of_nil|].
  destruct (foldl _ _ _) as [active inactive]. cbn [fst snd] in *.
  split; cbn [fst queries_ partitions inactive_partitions]; [|..|by apply sorted_priorities].
  - unfold all_entries; cbn. rewrite sort_perm. eapply loading_finish; [done..|].
    rewrite app_nil_r. unfold lenN. rewrite length_reverse, length_fmap.
    rewrite infos_size_candidates in Hsz. unfold lenN in Hsz. repeat split; lia.
  - assert (key <$> inactive ⊆ key <$> inactive_partitions st) as Hsub.
    { intros k (e & -> & He)%list_elem_of_fmap. apply list_elem_of_fmap_2. by apply Hi'. }
    apply idle_insert; [by eapply idle_subset|]. right. intros k Hk Hin.
    destruct (load_queries _ _ Hl k) as (_ & _ & H).
    + unfold all_entries. rewrite fmap_app, elem_of_app. right. by apply Hsub.
    + destruct (H qid Hin). congruence.
Qed.

(** *** Scheduling *)

Lemma is_active_Some qs x :
  is_active qs x = true ↔ ∃ q, qs !! x = Some q ∧ scheduled_partitions q < requested_partitions q.
Proof.
  unfold is_active. destruct (qs !! x) as [q|]; [|by split; [|intros (? & ? & _)]].
  rewrite N.ltb_lt. split; [by exists q|by intros (? & [= ->] & ?)].
Qed.

Lemma inactive_entry_spec qs e :
  (∀ x, x ∈ queries e → is_Some (qs !! x)) →
  key (inactive_entry qs e) = (partition e, filter (λ x, is_active qs x = false) (queries e)).
Proof.
  intros Hq. unfold inactive_entry. set (xs := filter _ _).
  assert (∀ x, x ∈ xs → is_Some (qs !! x)) as Hx by (intros x [_ ?]%list_elem_of_filter; auto).
  assert (∀ acc : entry type, key (foldl (λ acc qid, match qs !! qid with None => acc
    | Some q => with_queries acc (priority acc +u context_priority (first_context q)) (queries acc ++ [qid]) end) acc xs)
    = (partition acc, queries acc ++ xs)) as H; [|by rewrite H].
  clearbody xs. induction xs as [|x xs IH]; intros acc; cbn [foldl]; [unfold key; by rewrite app_nil_r|].
  destruct (Hx x (list_elem_of_here _ _)) as [q ->]. rewrite IH by (intros; apply Hx; by right).
  cbn. by rewrite <- app_assoc.
Qed.

Lemma schedule_lookup qs active x :
  NoDup active → schedule qs active !! x =
  if decide (x ∈ active) then (λ q, with_scheduled q (add32 (scheduled_partitions q) 1)) <$> qs !! x else qs !! x.
Proof.
  unfold schedule. revert qs. induction active as [|y ys IH]; intros qs Hd; [done|].
  apply list.NoDup_cons in Hd as [Hy Hd]. cbn [foldl]. rewrite IH by done.
  destruct (decide (x = y)) as [->|Hne].
  - rewrite decide_False, lookup_alter_eq, decide_True by (done || by left). done.
  - rewrite lookup_alter_ne by done. repeat case_decide; try done; rewrite elem_of_cons in *; tauto.
Qed.

Lemma filter_bool_nil (f : N → bool) (xs : list N) :
  filter (λ x, f x = true) xs = [] → filter (λ x, f x = false) xs = xs.
Proof.
  induction xs as [|x xs IH]; [done|]. rewrite !filter_cons.
  destruct (f x); repeat case_decide; try done. intros Hf. by rewrite IH.
Qed.

Lemma filter_bool_all (f : N → bool) (xs : list N) :
  (∀ x, x ∈ xs → f x = true) →
  filter (λ x, f x = true) xs = xs ∧ filter (λ x, f x = false) xs = [].
Proof.
  induction xs as [|x xs IH]; intros Hf; [done|]. rewrite !filter_cons, (Hf x) by (by left).
  destruct IH as [-> ->]; [intros; apply Hf; by right|done].
Qed.

(** The rest of a partition that is handed out. *)
Definition rest pid (inactive : list N) : list (N * list N) :=
  match inactive with [] => [] | _ => [(pid, inactive)] end.

Lemma occ_rest x pid xs : occ x (rest pid xs) = if bool_decide (x ∈ xs) then 1 else 0.
Proof.
  destruct xs as [|y ys]; [by rewrite bool_decide_eq_false_2 by apply not_elem_of_nil|].
  unfold rest. rewrite occ_cons, occ_nil. cbn [snd]. lia.
Qed.

Lemma elem_of_rest k pid xs : k ∈ rest pid xs → k = (pid, xs) ∧ xs ≠ [].
Proof. destruct xs; [by intros ?%not_elem_of_nil|by intros ->%list_elem_of_singleton]. Qed.

Lemma load_ok_schedule qs l pid ks :
  load_ok qs ((pid, ks) :: l) →
  load_ok (schedule qs (filter (λ x, is_active qs x = true) ks))
    (rest pid (filter (λ x, is_active qs x = false) ks) ++ l).
Proof.
  intros [H1 H2 H3]. cbn [fmap list_fmap fst] in H1. apply list.NoDup_cons in H1 as [Hp H1].
  destruct (H2 (pid, ks)) as (_ & Hd & Hk); [by left|]. cbn [snd] in *.
  set (act := filter (λ x, is_active qs x = true) ks). set (inact := filter _ ks).
  assert (NoDup act) as Hda by (by apply list.NoDup_filter).
  assert (∀ x, is_Some (qs !! x) → is_Some (schedule qs act !! x)) as Hsome.
  { intros x Hx. rewrite schedule_lookup by done. case_decide; [|done]. by apply fmap_is_Some. }
  split.
  - rewrite fmap_app. apply list.NoDup_app. unfold rest. destruct inact; cbn.
    + split_and!; [apply NoDup_nil_2|by intros ? ?%not_elem_of_nil|done].
    + split_and!; [apply NoDup_singleton|by intros ? ->%list_elem_of_singleton|done].
  - intros k [[-> Hne]%elem_of_rest|Hk']%elem_of_app.
    + split_and!; [done|by apply list.NoDup_filter|]. intros x [_ Hx]%list_elem_of_filter. auto.
    + destruct (H2 k) as (? & ? & H); [by right|]. split_and!; [done..|]. auto.
  - intros x q'. rewrite schedule_lookup, occ_app, occ_rest by done.
    assert (bool_decide (x ∈ inact) = bool_decide (x ∈ ks) && negb (bool_decide (x ∈ act))) as ->.
    { unfold inact, act. apply eq_true_iff_eq.
      rewrite andb_true_iff, negb_true_iff, !bool_decide_eq_true, bool_decide_eq_false, !list_elem_of_filter.
      destruct (is_active qs x); intuition congruence. }
    case_decide as Ha.
    + intros (q & Hq & ->)%fmap_Some. pose proof Ha as [Hact Hin]%list_elem_of_filter.
      apply is_active_Some in Hact as (q2 & Hq2 & Hlt). rewrite Hq in Hq2. injection Hq2 as <-.
      specialize (H3 x q Hq). rewrite occ_cons, bool_decide_eq_true_2 in H3 by done.
      rewrite !bool_decide_eq_true_2 by done. cbn. destruct H3 as (H3 & H4 & H5 & H6).
      assert (add32 (scheduled_partitions q) 1 = scheduled_partitions q + 1) as -> by (apply N.mod_small; lia).
      repeat split; cbn; lia.
    + intros Hq. specialize (H3 x q' Hq). rewrite occ_cons in H3. cbn [snd] in H3.
      rewrite (bool_decide_eq_false_2 (x ∈ act)), andb_true_r by done. exact H3.
Qed.

Lemma idle_schedule qs l ks :
  NoDup ks → idle qs l → idle (schedule qs (filter (λ x, is_active qs x = true) ks)) l.
Proof.
  intros Hd H k x q' Hk Hx. rewrite schedule_lookup by (by apply list.NoDup_filter).
  case_decide as Ha; [|by eapply H]. apply list_elem_of_filter in Ha as [(q & Hq & Hlt)%is_active_Some _].
  specialize (H k x q Hk Hx Hq). lia.
Qed.

Lemma idle_rest qs pid ks :
  (∀ x, x ∈ ks → is_Some (qs !! x)) → idle qs (rest pid (filter (λ x, is_active qs x = false) ks)).
Proof.
  intros Hs k x q [-> _]%elem_of_rest Hx Hq. apply list_elem_of_filter in Hx as [Ha _].
  unfold is_active in Ha. rewrite Hq in Ha. by apply N.ltb_ge in Ha.
Qed.

(** The partition goes to the inactive ones when no query is active, and so does the rest. *)
Lemma next_inactive_keys qs e (inactive : list (entry type)) :
  (∀ x, x ∈ queries e → is_Some (qs !! x)) →
  key <$> (match filter (λ x, is_active qs x = false) (queries e) with
           | [] => inactive | _ => inactive ++ [inactive_entry qs e] end)
  ≡ₚ rest (partition e) (filter (λ x, is_active qs x = false) (queries e)) ++ (key <$> inactive).
Proof.
  intros Hs. pose proof (inactive_entry_spec qs e Hs) as Hk. destruct (filter _ _); [done|].
  rewrite fmap_app, Permutation_app_comm. cbn [fmap list_fmap app rest]. by rewrite Hk.
Qed.

Lemma next_loop_ok qs (back inactive : list (entry type)) :
  load_ok qs (key <$> (back ++ inactive)) → idle qs (key <$> inactive) →
  StronglySorted N.le (priority <$> reverse back) →
  queue_ok (next_loop qs back inactive).1.
Proof.
  revert inactive. induction back as [|e back IH]; intros inactive Hl Hi Hs; cbn [next_loop]; [by split|].
  cbn [app fmap list_fmap] in Hl. pose proof (load_queries _ _ Hl (key e) (list_elem_of_here _ _)) as (Hne & Hd & Hq).
  rewrite reverse_cons, fmap_app in Hs. apply StronglySorted_app_1_l in Hs.
  pose proof (next_inactive_keys qs e inactive Hq) as Hkeys.
  set (inactive' := match filter _ _ with [] => inactive | _ => _ end) in *.
  assert (idle qs (key <$> inactive')) as Hi'.
  { eapply idle_subset; [intros k; rewrite Hkeys; done|]. apply idle_app. split; [by apply idle_rest|done]. }
  destruct (filter (λ x, is_active qs x = true) (queries e)) as [|a act] eqn:Eact.
  - apply IH; [|done..]. rewrite fmap_app, Hkeys, filter_bool_nil by done.
    rewrite Permutation_app_comm, <- app_assoc. unfold rest. cbn [key snd] in Hne.
    destruct (queries e) eqn:Eq; [done|]. rewrite <- Eq. cbn [app]. fold (key e).
    by rewrite Permutation_app_comm, <- fmap_app.
  - rewrite <- Eact. split; cbn [fst queries_ partitions inactive_partitions]; [|..|done].
    + unfold all_entries; cbn. rewrite fmap_app, fmap_reverse, reverse_Permutation, Hkeys.
      rewrite app_assoc, (Permutation_app_comm (key <$> back)), <- app_assoc, <- fmap_app.
      by apply load_ok_schedule.
    + by apply idle_schedule.
Qed.

Lemma next_ok st : queue_ok st → queue_ok (next st).1.
Proof.
  intros [Hl Hi Hs]. apply next_loop_ok; [|done|by rewrite reverse_involutive].
  unfold all_entries in Hl. by rewrite reverse_Permutation.
Qed.

(** What [next] hands out and what it leaves: everything but the queries it hands out. *)
Lemma queue_next_loop qs (back inactive : list (entry type)) :
  load_ok qs (key <$> (back ++ inactive)) →
  match next_loop qs back inactive with
  | (st', None) => queries_ st' = qs ∧ partitions st' = [] ∧
      key <$> all_entries st' ≡ₚ key <$> (back ++ inactive) ∧
      ∀ e x, e ∈ back → x ∈ queries e → is_active qs x = false
  | (st', Some r) => ∃ front e back' l,
      back = front ++ e :: back' ∧ (∀ e' x, e' ∈ front → x ∈ queries e' → is_active qs x = false) ∧
      r = with_queries e 0 (filter (λ x, is_active qs x = true) (queries e)) ∧ queries r ≠ [] ∧
      queries_ st' = schedule qs (queries r) ∧
      key <$> (back ++ inactive) ≡ₚ key e :: l ∧
      key <$> all_entries st' ≡ₚ rest (partition e) (filter (λ x, is_active qs x = false) (queries e)) ++ l
  end.
Proof.
  revert inactive. induction back as [|e back IH]; intros inactive Hl; cbn [next_loop].
  { split_and!; [done..|]. by intros e x ?%not_elem_of_nil. }
  cbn [app fmap list_fmap] in *. pose proof (load_queries _ _ Hl (key e) (list_elem_of_here _ _)) as (Hne & Hd & Hq).
  pose proof (next_inactive_keys qs e inactive Hq) as Hkeys. cbn [key snd] in Hne.
  set (inactive' := match filter _ _ with [] => inactive | _ => _ end) in *.
  destruct (filter (λ x, is_active qs x = true) (queries e)) as [|a act] eqn:Eact.
  - assert (∀ x, x ∈ queries e → is_active qs x = false) as He.
    { intros x Hx. apply not_true_iff_false. intros Ha.
      exact (filter_nil_not_elem_of (λ x, is_active qs x = true) _ x Eact Ha Hx). }
    assert (key <$> (back ++ inactive') ≡ₚ key e :: (key <$> (back ++ inactive))) as Hperm.
    { rewrite fmap_app, Hkeys, filter_bool_nil by done. rewrite (fmap_app _ back inactive). unfold rest.
      destruct (queries e) eqn:Eq; [done|]. rewrite <- Eq. cbn [app]. fold (key e).
      by rewrite <- Permutation_middle. }
    specialize (IH inactive'). destruct (next_loop qs back inactive') as [st' [r|]].
    + destruct IH as (front & e' & back' & l & -> & Hf & Hr & Hrn & Hqs & Hb & Hst); [by rewrite Hperm|].
      exists (e :: front), e', back', l. split_and!; try done; [|by rewrite <- Hperm].
      intros e0 x [->|]%elem_of_cons; eauto.
    + destruct IH as (? & ? & Hst & IH); [by rewrite Hperm|]. split_and!; try done; [by rewrite Hst|].
      intros e0 x [->|]%elem_of_cons; eauto.
  - exists [], e, back, (key <$> (back ++ inactive)). rewrite Eact. split_and!; try done.
    + by intros e' x ?%not_elem_of_nil.
    + unfold all_entries; cbn. rewrite !fmap_app, fmap_reverse, reverse_Permutation, Hkeys.
      by rewrite !app_assoc, (Permutation_app_comm (key <$> back)).
Qed.

Lemma not_reachable st x : occ x (key <$> all_entries st) = 0 → reachable st x = false.
Proof.
  intros Hz. apply not_true_iff_false. unfold reachable. rewrite <- existsb_app.
  intros (e & He & Hx)%existsb_exists. apply existsb_exists in Hx as (y & Hy & <-%N.eqb_eq).
  rewrite <- list_elem_of_In in He. rewrite <- list_elem_of_In in Hy. fold (all_entries st) in He.
  eapply (occ_zero x _ (key e)); [exact Hz|by apply list_elem_of_fmap_2|done].
Qed.

Lemma queue_remove st qid :
  queue_ok st →
  queries_ (remove_query st qid).1 = delete qid (queries_ st) ∧ reachable (remove_query st qid).1 qid = false ∧
  ∀ x, x ≠ qid → occ x (key <$> all_entries (remove_query st qid).1) = occ x (key <$> all_entries st).
Proof.
  intros Hok. pose proof (queue_load _ Hok) as Hl. unfold remove_query.
  destruct (queries_ st !! qid) as [q|] eqn:E; cbn [fst queries_].
  - assert (∀ e, e ∈ all_entries st → queries e ≠ [] ∧ NoDup (queries e)) as Hne.
    { intros e He. destruct (load_queries _ _ Hl (key e)) as (? & ? & _); [by apply list_elem_of_fmap_2|done]. }
    unfold all_entries at 1; cbn [partitions inactive_partitions]. rewrite <- remove_loop_app.
    rewrite key_remove_loop by (intros; by apply Hne). split_and!; [done|..].
    + apply not_reachable. unfold all_entries; cbn [partitions inactive_partitions].
      rewrite <- remove_loop_app, key_remove_loop by (intros; by apply Hne).
      destruct (N.lt_ge_cases 0 (occ qid (remove_keys qid (key <$> all_entries st)))) as [Hpos|]; [|unfold all_entries in *; lia].
      apply occ_pos_inv in Hpos as (k' & (_ & (k & -> & Hk)%list_elem_of_fmap)%list_elem_of_filter & Hx).
      apply list_elem_of_fmap in Hk as (e & -> & He). cbn in Hx.
      by apply erase_first_spec in Hx as [_ ?]; [|by apply Hne].
    + intros x Hx. apply occ_remove_keys; [done|]. intros k (e & -> & He)%list_elem_of_fmap. by apply Hne.
  - split_and!; [by rewrite delete_id|..|done]. apply not_reachable.
    destruct (N.lt_ge_cases 0 (occ qid (key <$> all_entries st))) as [Hpos|]; [|lia].
    apply occ_pos_inv in Hpos as (k & Hk & Hx). destruct (load_queries _ _ Hl k Hk) as (_ & _ & H).
    destruct (H qid Hx). congruence.
Qed.

(** Partitions behind another one have a priority that is not smaller. *)
Lemma queue_priorities st low e high e' :
  queue_ok st → partitions st = low ++ e :: high → e' ∈ low → priority e' <= priority e.
Proof.
  intros [_ _ Hs] Hps He'. rewrite Hps, fmap_app in Hs.
  eapply (StronglySorted_app_1_elem_of N.le); [exact Hs|by apply list_elem_of_fmap_2|by left].
Qed.

Lemma queue_idle_inactive st e x :
  queue_ok st → e ∈ inactive_partitions st → x ∈ queries e → is_active (queries_ st) x = false.
Proof.
  intros [_ Hi _] He Hx. apply not_true_iff_false. intros (q & Hq & Hlt)%is_active_Some.
  pose proof (Hi (key e) x q (list_elem_of_fmap_2 _ _ _ He) Hx Hq). lia.
Qed.

Lemma queue_no_work st :
  queue_ok st → (∀ e x, e ∈ partitions st → x ∈ queries e → is_active (queries_ st) x = false) →
  ∀ x q, queries_ st !! x = Some q →
    scheduled_partitions q = requested_partitions q ∨ scheduled_partitions q = candidate_partitions q.
Proof.
  intros Hok Hn x q Hq. pose proof (load_counts _ _ (queue_load _ Hok) x q Hq) as (H1 & H2 & _).
  destruct (N.lt_ge_cases 0 (occ x (key <$> all_entries st))) as [Hpos|]; [left|right; lia].
  apply occ_pos_inv in Hpos as (k & (e & -> & He)%list_elem_of_fmap & Hx).
  assert (is_active (queries_ st) x = false) as Ha.
  { apply elem_of_app in He as [He|He]; [by apply (Hn e)|by apply (queue_idle_inactive st e)]. }
  unfold is_active in Ha. rewrite Hq in Ha. apply N.ltb_ge in Ha. lia.
Qed.

Lemma queue_next st :
  queue_ok st →
  match next st with
  | (st', None) => partitions st' = [] ∧ queries_ st' = queries_ st ∧
      key <$> all_entries st' ≡ₚ key <$> all_entries st ∧
      ∀ e x, e ∈ partitions st → x ∈ queries e → is_active (queries_ st) x = false
  | (st', Some r) => ∃ low e high l,
      partitions st = low ++ e :: high ∧
      (∀ e' x, e' ∈ high → x ∈ queries e' → is_active (queries_ st) x = false) ∧
      r = with_queries e 0 (filter (λ x, is_active (queries_ st) x = true) (queries e)) ∧ queries r ≠ [] ∧
      queries_ st' = schedule (queries_ st) (queries r) ∧
      key <$> all_entries st ≡ₚ key e :: l ∧
      key <$> all_entries st' ≡ₚ
        rest (partition e) (filter (λ x, is_active (queries_ st) x = false) (queries e)) ++ l
  end.
Proof.
  intros [Hl _ _]. unfold next. assert (key <$> (reverse (partitions st) ++ inactive_partitions st)
    ≡ₚ key <$> all_entries st) as Hperm by (unfold all_entries; by rewrite reverse_Permutation).
  pose proof (queue_next_loop (queries_ st) (reverse (partitions st)) (inactive_partitions st)) as Hn.
  rewrite Hperm in Hn. specialize (Hn Hl). destruct (next_loop _ _ _) as [st' [r|]].
  - destruct Hn as (front & e & back' & l & Hb & Hf & Hn). exists (reverse back'), e, (reverse front), l.
    rewrite Hperm in Hn. split_and!; try apply Hn.
    + by rewrite <- (reverse_involutive (partitions st)), Hb, reverse_app, reverse_cons, <- app_assoc.
    + intros e' x He' Hx. rewrite elem_of_reverse in He'. by apply (Hf e' x).
  - destruct Hn as (? & ? & Hst & Hn). rewrite Hperm in Hst. split_and!; try done.
    intros e x He Hx. apply (Hn e x); [by apply elem_of_reverse|done].
Qed.

(** ** Histories *)

Inductive event :=
  | ev_insert (q : query_state type client_type) (c : candidate_infos type)
  | ev_activate (qid num_partitions : N)
  | ev_remove (qid : N)
  | ev_erase (pid : N)
  | ev_next
  | ev_complete (qid : N).

Definition run st (ev : event) : query_queue type client_type :=
  match ev with
  | ev_insert q c => (insert sort st q c).1
  | ev_activate qid n => (activate sort st qid n).1
  | ev_remove qid => (remove_query st qid).1
  | ev_erase pid => (mark_partition_erased st pid).1
  | ev_next => (next st).1
  | ev_complete qid => (handle_completion st qid).1
  end.

(** What the index and its clients keep to: new queries start at zero with distinct candidates, the
    counters fit [uint32_t], and a completion follows a scheduled partition. *)
Definition admissible st (ev : event) : Prop :=
  match ev with
  | ev_insert q c =>
      NoDup (candidates c).*2 ∧ scheduled_partitions q = 0 ∧ completed_partitions q = 0 ∧
      requested_partitions q < 2 ^ 32 ∧ candidate_partitions q < 2 ^ 32
  | ev_activate qid n => ∀ q, queries_ st !! qid = Some q → requested_partitions q + n < 2 ^ 32
  | ev_complete qid => ∀ q, queries_ st !! qid = Some q → completed_partitions q < scheduled_partitions q
  | _ => True
  end.

Inductive reached : query_queue type client_type → Prop :=
  | reached_empty : reached empty_queue
  | reached_step st ev : reached st → admissible st ev → reached (run st ev).

Lemma reached_ok st : reached st → queue_ok st.
Proof.
  induction 1 as [|st ev _ IH Ha]; [apply empty_queue_ok|]. destruct ev; cbn in *.
  - destruct Ha as (? & ? & ? & ? & ?). by apply insert_ok.
  - by apply activate_ok.
  - by apply remove_query_ok.
  - by apply mark_partition_erased_ok.
  - by apply next_ok.
  - by apply handle_completion_ok.
Qed.

(** ** Running to completion *)

Definition clients (qs : gmap N (query_state type client_type)) : list client_type :=
  (λ kv, client kv.2) <$> map_to_list qs.

Lemma clients_delete qs x q : qs !! x = Some q → clients qs ≡ₚ client q :: clients (delete x qs).
Proof.
  intros Hx. unfold clients. rewrite <- (map_to_list_delete qs x q Hx) at 1. done.
Qed.

Lemma clients_update qs x q q' :
  qs !! x = Some q → client q' = client q → clients (<[x := q']> qs) ≡ₚ clients qs.
Proof.
  intros Hx Hc. rewrite (clients_delete (<[x := q']> qs) x q') by apply lookup_insert_eq.
  by rewrite delete_insert_eq, (clients_delete qs x q Hx), Hc.
Qed.

(** All partitions of every query are requested, and those of [pending] are scheduled but not
    completed. *)
Record settling st (pending : list N) : Prop := {
  settling_ok : queue_ok st;
  settling_inactive : inactive_partitions st = [];
  settling_pending x : x ∈ pending → is_Some (queries_ st !! x);
  settling_counts x q : queries_ st !! x = Some q →
    requested_partitions q = candidate_partitions q ∧ completed_partitions q < candidate_partitions q ∧
    completed_partitions q + (if bool_decide (x ∈ pending) then 1 else 0) = scheduled_partitions q
}.

Lemma complete_settling st x pending :
  settling st (x :: pending) → x ∉ pending →
  settling (handle_completion st x).1 pending ∧
  partitions (handle_completion st x).1 = partitions st ∧
  clients (queries_ st) ≡ₚ
    option_list (handle_completion st x).2 ++ clients (queries_ (handle_completion st x).1).
Proof.
  intros [Hok Hin Hp Hc] Hx. destruct (Hp x (list_elem_of_here _ _)) as [q Hq].
  destruct (Hc x q Hq) as (H1 & H2 & H3). rewrite bool_decide_eq_true_2 in H3 by (by left).
  pose proof (load_counts _ _ (queue_load _ Hok) x q Hq) as (H4 & H5 & H6 & H7).
  assert (queue_ok (handle_completion st x).1) as Hok'.
  { apply handle_completion_ok; [done|]. intros q' Hq'. rewrite Hq in Hq'. injection Hq' as <-. lia. }
  revert Hok'. unfold handle_completion. rewrite Hq.
  assert (add32 (completed_partitions q) 1 = completed_partitions q + 1) as -> by (apply N.mod_small; lia).
  cbn [with_completed completed_partitions candidate_partitions requested_partitions client fst snd].
  rewrite H1. destruct (N.eqb_spec (completed_partitions q + 1) (candidate_partitions q)) as [Heq|Hne];
    cbn [queries_ partitions option_list]; intros Hok'; (split; [split|split]); try done; cbn [queries_].
  - intros y Hy. rewrite lookup_delete_ne by (by intros ->). apply Hp. by right.
  - intros y q' [Hyx Hy]%lookup_delete_Some. destruct (Hc y q' Hy) as (? & ? & H). split_and!; [done..|].
    rewrite <- H. erewrite bool_decide_ext; [done|]. rewrite elem_of_cons. intuition congruence.
  - by rewrite (clients_delete _ _ _ Hq).
  - intros y Hy. rewrite lookup_insert_ne by (by intros ->). apply Hp. by right.
  - intros y q' [[<- <-]|[Hyx Hy]]%lookup_insert_Some.
    + rewrite bool_decide_eq_false_2 by done. cbn. lia.
    + destruct (Hc y q' Hy) as (? & ? & H). split_and!; [done..|].
      rewrite <- H. erewrite bool_decide_ext; [done|]. rewrite elem_of_cons. intuition congruence.
  - cbn [app]. symmetry. by apply (clients_update _ _ q).
Qed.

Lemma complete_all_settling (xs : list N) st told :
  settling st xs → NoDup xs → ∃ st' told',
  foldl complete_one (st, told) xs = (st', told ++ told') ∧ settling st' [] ∧
  partitions st' = partitions st ∧ clients (queries_ st) ≡ₚ told' ++ clients (queries_ st').
Proof.
  revert st told. induction xs as [|x xs IH]; intros st told Hs Hd; cbn [foldl].
  { exists st, []. by rewrite app_nil_r. }
  apply list.NoDup_cons in Hd as [Hx Hd]. destruct (complete_settling st x xs Hs Hx) as (Hs' & Hp & Hcl).
  unfold complete_one at 2. destruct (handle_completion st x) as [st1 [c|]]; cbn [fst snd option_list] in *.
  - destruct (IH st1 (told ++ [c]) Hs' Hd) as (st' & told' & -> & ? & Hp' & Hcl').
    exists st', (c :: told'). rewrite <- app_assoc, Hp', Hcl, Hcl'. done.
  - destruct (IH st1 told Hs' Hd) as (st' & told' & -> & ? & Hp' & Hcl').
    exists st', told'. by rewrite Hp', Hcl, Hcl'.
Qed.

Lemma clients_schedule qs ks : clients (schedule qs ks) ≡ₚ clients qs.
Proof.
  unfold schedule. revert qs. induction ks as [|x ks IH]; intros qs; [done|]. cbn [foldl]. rewrite IH.
  destruct (qs !! x) as [q|] eqn:Hq; [|by rewrite alter_id by (intros ? ?; congruence)].
  rewrite <- (insert_id qs x q Hq) at 1. rewrite alter_insert_eq. by apply (clients_update _ _ q).
Qed.

Lemma next_settling st ps e :
  settling st [] → partitions st = ps ++ [e] →
  next st = (mk (schedule (queries_ st) (queries e)) ps [], Some (with_queries e 0 (queries e))) ∧
  NoDup (queries e) ∧ settling (mk (schedule (queries_ st) (queries e)) ps []) (queries e).
Proof.
  intros [Hok Hin Hp Hc] Hps. pose proof (next_ok st Hok) as Hok'. pose proof (queue_load _ Hok) as Hl.
  assert (key e ∈ key <$> all_entries st) as He.
  { apply list_elem_of_fmap_2. unfold all_entries. rewrite Hps, !elem_of_app. left. right. by left. }
  destruct (load_queries _ _ Hl _ He) as (Hne & Hd & Hs). cbn [key snd] in *.
  assert (∀ x, x ∈ queries e → is_active (queries_ st) x = true) as Hact.
  { intros x Hx. destruct (Hs x Hx) as [q Hq]. apply is_active_Some. exists q. split; [done|].
    destruct (Hc x q Hq) as (? & ? & H). rewrite bool_decide_eq_false_2 in H by apply not_elem_of_nil. lia. }
  assert (next st = (mk (schedule (queries_ st) (queries e)) ps [], Some (with_queries e 0 (queries e)))) as En.
  { unfold next. rewrite Hps, reverse_snoc, Hin. cbn [next_loop].
    destruct (filter_bool_all (is_active (queries_ st)) (queries e) Hact) as [-> ->].
    rewrite reverse_involutive. by destruct (queries e). }
  split; [done|]. split; [done|]. rewrite En in Hok'. split; [done..| |].
  - intros x Hx. cbn. rewrite schedule_lookup, decide_True by done. apply fmap_is_Some. auto.
  - intros x q. cbn. rewrite schedule_lookup by done. case_decide as Hx.
    + intros (q0 & Hq & ->)%fmap_Some. rewrite bool_decide_eq_true_2 by done.
      destruct (Hc x q0 Hq) as (H1 & H2 & H3). rewrite bool_decide_eq_false_2 in H3 by apply not_elem_of_nil.
      pose proof (load_counts _ _ Hl x q0 Hq) as (? & ? & ? & ?). cbn.
      assert (add32 (scheduled_partitions q0) 1 = scheduled_partitions q0 + 1) as -> by (apply N.mod_small; lia). lia.
    + rewrite bool_decide_eq_false_2 by done. intros Hq. specialize (Hc x q Hq).
      by rewrite bool_decide_eq_false_2 in Hc by apply not_elem_of_nil.
Qed.

Lemma settling_empty st : settling st [] → partitions st = [] → queries_ st = ∅.
Proof.
  intros [Hok Hin _ Hc] Hps. apply map_empty. intros x. apply eq_None_not_Some. intros [q Hq].
  destruct (Hc x q Hq) as (? & ? & H). rewrite bool_decide_eq_false_2 in H by apply not_elem_of_nil.
  pose proof (load_counts _ _ (queue_load _ Hok) x q Hq) as (H4 & _). unfold all_entries in H4.
  rewrite Hps, Hin in H4. cbn in H4. rewrite occ_nil in H4. lia.
Qed.

Lemma skip_lookups_drains fuel st :
  settling st [] → (length (partitions st) <= fuel)%nat →
  (skip_lookups fuel st).1 = empty_queue ∧ (skip_lookups fuel st).2 ≡ₚ clients (queries_ st).
Proof.
  revert st. induction fuel as [|fuel IH]; intros st Hs Hf.
  - assert (partitions st = []) as Hps by (by destruct (partitions st); [|cbn in Hf; lia]).
    pose proof (settling_empty st Hs Hps) as Hq. pose proof (settling_inactive _ _ Hs). cbn.
    destruct st; cbn in *; subst. done.
  - cbn [skip_lookups]. destruct (decide (partitions st = [])) as [Hps|Hps].
    + pose proof (settling_empty st Hs Hps) as Hq. pose proof (settling_inactive _ _ Hs). 
      destruct st; cbn in *; subst. done.
    + destruct (exists_last Hps) as (ps & e & Hpe).
      destruct (next_settling st ps e Hs Hpe) as (-> & Hd & Hs'). unfold immediate_completion.
      destruct (complete_all_settling (queries e) _ [] Hs' Hd) as (st2 & told & Ec & Hs2 & Hp2 & Hc2).
      cbn [with_queries queries]. rewrite Ec. cbn [app]. destruct (IH st2 Hs2) as [He2 Ht2].
      { rewrite Hpe, length_app in Hf. cbn in Hf. rewrite Hp2. cbn. lia. }
      destruct (skip_lookups fuel st2) as [st3 told']. cbn [fst snd] in *. split; [done|].
      rewrite Ht2, <- Hc2. cbn [queries_]. apply clients_schedule.
Qed.
End queue.
