(* ===== verification/QueryTheorems.v ===== *)
(** The properties of the query queue, each with a witness where it has hypotheses. *)

From stdpp Require Import gmap sorting.
From S2P Require Import Prelude Data QueryQueue QueryQueueSpec.

Import query_queue.

(** ** A queue to test with *)

Section sorting.
Context {type : Type}.

Global Instance entry_le_dec : RelDecision (entry_le (type:=type)).
Proof. intros e e'. unfold entry_le. apply _. Defined.
Global Instance entry_le_total : Total (entry_le (type:=type)).
Proof. intros e e'. unfold entry_le. destruct (N.le_ge_cases (priority e) (priority e')); auto. Qed.
Global Instance entry_le_trans : Transitive (entry_le (type:=type)).
Proof. intros e e' e'' ? ?. unfold entry_le in *. by etrans. Qed.

Definition sort_entries : list (entry type) → list (entry type) := merge_sort entry_le.

Global Instance sort_entries_Sort : Sort entry_le sort_entries.
Proof. split; intros l; [apply merge_sort_Permutation|by apply (StronglySorted_merge_sort _)]. Defined.
End sorting.

(** A query with an ID, a priority and a client; one partition is requested at first. *)
Definition test_query (qid prio client candidates requested : N) : query_state unit N :=
  mk_state ((tt, mk_context qid prio), []) client candidates requested 0 0.

Definition events : list (event (type:=unit) (client_type:=N)) := [
  ev_insert (test_query 1 10 100 2 1) [(tt, [7; 8])];
  ev_insert (test_query 2 50 200 1 1) [(tt, [8])];
  ev_next].

Definition run_all (evs : list event) : query_queue unit N := foldl (run sort_entries) empty_queue evs.

(** After the events partition 8 was handed out for both queries, and 7 waits for the first. *)
Lemma events_reached : reached sort_entries (run_all events).
Proof.
  unfold run_all, events. cbn [foldl].
  assert (∀ pids : list N, bool_decide (NoDup pids) = true → NoDup pids) as Hd
    by (intros pids; apply bool_decide_eq_true_1).
  repeat (apply reached_step; [|first [exact I|split; [by apply Hd|done]]]). apply reached_empty.
Defined.

(** ** The properties *)

Section properties.
Context {type client_type : Type}.
Context (sort : list (entry type) → list (entry type)) `{!Sort entry_le sort}.
Implicit Types (st : query_queue type client_type) (q : query_state type client_type).

(** C17: Every state of the queue that operations lead to is consistent: a partition is active or
    inactive but never both or twice; the queries of a partition are known and listed once; the
    active partitions are sorted by priority; for each query the candidates that wait and those
    scheduled add up to all of them, no more are completed than scheduled and no more scheduled than
    requested; and no query of an inactive partition has an open request. *)
Theorem queue_invariant st : reached sort st → queue_ok st.
Proof. by apply reached_ok. Qed.

(** C22: [next] hands out the partition of highest priority for which a query has an open request,
    with exactly these queries, and counts it as scheduled for them; the queue keeps the partition
    for its other queries and all other partitions as they were. When it hands out nothing, no query
    has an open request and a candidate left. *)
Theorem next_hands_out st :
  reached sort st →
  match next st with
  | (st', Some r) =>
      queries r ≠ [] ∧ queries_ st' = schedule (queries_ st) (queries r) ∧
      ∃ e others, e ∈ partitions st ∧ partition r = partition e ∧ schema r = schema e ∧ erased r = erased e ∧
        queries r = filter (λ x, is_active (queries_ st) x = true) (queries e) ∧
        (∀ e' x, e' ∈ all_entries st → x ∈ queries e' → is_active (queries_ st) x = true →
          priority e' <= priority e) ∧
        key <$> all_entries st ≡ₚ key e :: others ∧
        key <$> all_entries st' ≡ₚ
          rest (partition e) (filter (λ x, is_active (queries_ st) x = false) (queries e)) ++ others
  | (st', None) =>
      partitions st' = [] ∧ queries_ st' = queries_ st ∧ key <$> all_entries st' ≡ₚ key <$> all_entries st ∧
      ∀ x q, queries_ st !! x = Some q →
        scheduled_partitions q = requested_partitions q ∨ scheduled_partitions q = candidate_partitions q
  end.
Proof.
  intros Hok%reached_ok; [|done]. pose proof (queue_next st Hok) as Hn.
  destruct (next st) as [st' [r|]]; [|by destruct Hn as (? & ? & ? & ?); split_and!; try apply queue_no_work].
  destruct Hn as (low & e & high & l & Hps & Hf & -> & Hne & Hqs & Hb & Hst).
  split_and!; [done..|]. exists e, l. split_and!; try done.
  - rewrite Hps. apply elem_of_app. right. by left.
  - intros e' x [He'|He']%elem_of_app Hx Ha; [|by rewrite (queue_idle_inactive st e' x) in Ha].
    rewrite Hps in He'. apply elem_of_app in He' as [He'|[->|He']%elem_of_cons]; [|done|].
    + by apply (queue_priorities st low e high e').
    + by rewrite (Hf e' x He' Hx) in Ha.
Qed.

(** Completing a scheduled partition of a query tells the client exactly when all requested ones
    are completed, and forgets the query exactly when all candidates are; no partition waits for the
    query then. *)
Theorem completion_tells_client st qid q :
  reached sort st → queries_ st !! qid = Some q → completed_partitions q < scheduled_partitions q →
  let '(st', told) := handle_completion st qid in
  told = (if completed_partitions q + 1 =? requested_partitions q then Some (client q) else None) ∧
  queries_ st' = (if completed_partitions q + 1 =? candidate_partitions q then delete qid (queries_ st)
                  else <[qid := with_completed q (completed_partitions q + 1)]> (queries_ st)) ∧
  all_entries st' = all_entries st ∧
  (completed_partitions q + 1 = candidate_partitions q → reachable st' qid = false).
Proof.
  intros Hok%reached_ok Hq Hlt; [|done].
  destruct (load_counts _ _ (queue_load _ Hok) qid q Hq) as (H1 & H2 & H3 & H4).
  unfold handle_completion. rewrite Hq.
  assert (add32 (completed_partitions q) 1 = completed_partitions q + 1) as -> by (apply N.mod_small; lia).
  split_and!; [done..|]. intros Heq. apply not_reachable. unfold all_entries in *. cbn. lia.
Qed.

(** After [remove_query] the query is unknown, no partition waits for it, and every other query
    waits for as many partitions as before. *)
Theorem removed_query_gone st qid :
  reached sort st →
  let st' := (remove_query st qid).1 in
  queries_ st' = delete qid (queries_ st) ∧ reachable st' qid = false ∧
  ∀ x, x ≠ qid → occ x (key <$> all_entries st') = occ x (key <$> all_entries st).
Proof.
  intros Hok%reached_ok; [|done]. by apply queue_remove.
Qed.

(** C29: Queries run to completion: when every query has requested all its candidates and nothing is
    in flight, handing out partitions and completing them empties the queue, one step per partition
    at most, and tells the client of each query exactly once. *)
Theorem queries_complete st :
  reached sort st → inactive_partitions st = [] →
  (∀ x q, queries_ st !! x = Some q →
    requested_partitions q = candidate_partitions q ∧ completed_partitions q < candidate_partitions q ∧
    completed_partitions q = scheduled_partitions q) →
  (skip_lookups (length (partitions st)) st).1 = empty_queue ∧
  (skip_lookups (length (partitions st)) st).2 ≡ₚ clients (queries_ st).
Proof.
  intros Hok%reached_ok Hin Hc; [|done]. apply (skip_lookups_drains _ st); [|done]. split; try done.
  - intros x Hx. by apply not_elem_of_nil in Hx.
  - intros x q Hq. destruct (Hc x q Hq) as (? & ? & ?). by rewrite bool_decide_eq_false_2, N.add_0_r
      by apply not_elem_of_nil.
Qed.

End properties.

(** ** Witnesses *)

Lemma queue_invariant_witness : queue_ok (run_all events).
Proof. exact (queue_invariant sort_entries (run_all events) events_reached). Defined.

(** Partition 7 waits for the first query only, which has no open request left. *)
Lemma next_hands_out_witness :
  ∃ st', next (run_all events) = (st', None) ∧
    key <$> all_entries st' ≡ₚ key <$> all_entries (run_all events).
Proof.
  pose proof (next_hands_out sort_entries (run_all events) events_reached) as H.
  destruct (next (run_all events)) as [st' [r|]] eqn:E; [by vm_compute in E|].
  exists st'. split; [done|]. apply H.
Defined.

Lemma completion_tells_client_witness : (handle_completion (run_all events) 1).2 = Some 100.
Proof.
  assert (queries_ (run_all events) !! 1 = Some (with_scheduled (test_query 1 10 100 2 1) 1)) as Hq by by vm_compute.
  pose proof (completion_tells_client sort_entries (run_all events) 1 _ events_reached Hq eq_refl) as H.
  destruct (handle_completion (run_all events) 1) as [st' told]. cbn. by destruct H as [-> _].
Defined.

Lemma removed_query_gone_witness : reachable (remove_query (run_all events) 1).1 1 = false.
Proof. apply (removed_query_gone sort_entries (run_all events) 1 events_reached). Defined.

(** Two queries that share partition 8 and request everything. *)
Definition full_events : list (event (type:=unit) (client_type:=N)) := [
  ev_insert (test_query 1 10 100 2 2) [(tt, [7; 8])];
  ev_insert (test_query 2 50 200 1 1) [(tt, [8])]].

Lemma full_events_reached : reached sort_entries (run_all full_events).
Proof.
  unfold run_all, full_events. cbn [foldl].
  assert (∀ pids : list N, bool_decide (NoDup pids) = true → NoDup pids) as Hd
    by (intros pids; apply bool_decide_eq_true_1).
  repeat (apply reached_step; [|split; [by apply Hd|done]]). apply reached_empty.
Defined.

Lemma queries_complete_witness : (skip_lookups 2 (run_all full_events)).1 = empty_queue.
Proof.
  apply (queries_complete sort_entries (run_all full_events) full_events_reached); [by vm_compute|].
  refine (bool_decide_eq_true_1 (map_Forall (λ _ q, requested_partitions q = candidate_partitions q ∧
    completed_partitions q < candidate_partitions q ∧ completed_partitions q = scheduled_partitions q)
    (queries_ (run_all full_events))) _). by vm_compute.
Defined.
