(* ===== verification/QueryLanguageTheorems.v ===== *)
(** Properties of expressions, taxonomies, record types, values and addresses, with witnesses. *)

From S2P Require Import Prelude SetOperations Operator Data Types RecordType KeySuffix Ip DataOps DataRecord Expression ExpressionSpec ExpressionResolve ExpressionPrune Taxonomies.

(** ** Sample data *)

Definition on_field (key : list N) (o : relational_operator) (d : data) : expression :=
  e_predicate (mk_predicate (field_extractor key) o (o_data d)).
(** [!(a == 1 || !(2 < a))], with the value on the left of the second predicate. *)
Definition nested_query : expression :=
  negation (disjunction [on_field [97] equal (d_int64 1);
    negation (e_predicate (mk_predicate (o_data (d_int64 2)) less (field_extractor [97])))]).
Definition never (_ _ : list N) : bool := false.
(** A quiet NaN. *)
Definition nan : data := d_double 9221120237041090560.

(** ** Expressions *)

(** [normalize] establishes the normal form: an expression without negations, without empty nodes,
    whose connectives have at least two operands and whose predicates have the extractor on the left;
    and [normalize_and_validate] fails or returns that form. *)
Theorem normalize_normal_form regex_valid e : proper (λ _, True) e →
  normal (normalize e) ∧ no_negation (normalize e) ∧
  ∀ r, normalize_and_validate regex_valid e = value r → r = normalize e ∧ validator regex_valid r = value tt.
Proof.
  intros H. pose proof (normalize_normal e H) as Hn. split_and!; [done|by apply normal_no_negation|].
  unfold normalize_and_validate. intros r. destruct (validator _ _) as [[]|] eqn:E; [|done]. by intros [= <-].
Qed.

Lemma normalize_normal_form_witness :
  normal (normalize nested_query) ∧
  normalize nested_query = conjunction [on_field [97] not_equal (d_int64 1); on_field [97] greater (d_int64 2)].
Proof. split; [apply (normalize_normal_form (λ _, true)); by repeat split|by vm_compute]. Defined.

(** C11: [normalize] is equivalent to the identity: whatever values the extractors have for an event,
    the normalized expression holds exactly if the expression holds. Hoisting, aligning, removing
    negations and duplicates change no result. *)
Theorem normalize_equivalent regex_match regex_search x e : proper (λ _, True) e →
  eval (holds regex_match regex_search x) (normalize e) = eval (holds regex_match regex_search x) e.
Proof. apply normalize_holds. Qed.

Lemma normalize_equivalent_witness :
  let three (_ : operand) := d_int64 3 in
  eval (holds never never three) (normalize nested_query) = eval (holds never never three) nested_query ∧
  eval (holds never never three) nested_query = true.
Proof. split; [apply normalize_equivalent; by repeat split|by vm_compute]. Defined.

(** C12: What [normalize_and_validate] accepts and [tailor] binds to a schema has columns of the schema
    only, each with its type, and holds for an event exactly if, for every extractor of the expression,
    the matching columns do: one of them, or all of them for a negated operator. *)
Theorem tailor_binds schema schema_name regex_valid e e' r :
  proper (λ _, True) e → normalize_and_validate regex_valid e = value e' → tailor e' schema schema_name = value r →
  all_resolved schema r ∧ ∀ v, eval v r = eval (meaning schema schema_name v) e'.
Proof. apply tailor_spec. Qed.

(** A schema with the columns [a: string], [b.a: int64] and [b.c: int64]. *)
Definition nested_schema : list field :=
  [([97], t_string); ([98], t_record [([97], t_int64); ([99], t_int64)])].
(** [:int64 > 3 && a != "x"] *)
Definition typed_query : expression :=
  conjunction [e_predicate (mk_predicate (type_extractor t_int64) greater (o_data (d_int64 3)));
               on_field [97] not_equal (d_string [120])].

Lemma tailor_binds_witness :
  ∃ r, tailor typed_query nested_schema [116] = value r ∧ all_resolved nested_schema r ∧
  r = conjunction [disjunction [e_predicate (mk_predicate (data_extractor t_int64 1) greater (o_data (d_int64 3)));
                                e_predicate (mk_predicate (data_extractor t_int64 2) greater (o_data (d_int64 3)))];
                   e_predicate (mk_predicate (data_extractor t_string 0) not_equal (o_data (d_string [120])))].
Proof.
  eexists. split; [reflexivity|]. split; [|reflexivity].
  eapply (tailor_binds nested_schema [116] (λ _, true) typed_query typed_query); [by repeat split|by vm_compute|reflexivity].
Defined.

(** C21: For every expression without negations, NaN and empty parts, prune ends with an expression
    without negations and with no more nodes. If a lookup in all string fields finds what a lookup of
    the same value in a field that is not protected from pruning finds, the pruned expression finds what
    the expression finds; [catalog_misses] shows that enumerations break this condition. *)
Theorem prune_terminates unprunable v e :
  (∀ p, prunable unprunable p = true → v p = true → v (generalize p) = true) →
  proper (λ _, True) e → no_negation e → expression_no_nan e = true →
  ∃ r, prune unprunable e = Some r ∧ no_negation r ∧ (nodes r <= nodes e)%nat ∧ (eval v e = true → eval v r = true).
Proof.
  intros Hg Hp Hn He. destruct (prune_ends unprunable e Hp He) as [r Hr]. exists r. split_and!; [done|by eapply prune_no_negation| |].
  - by eapply prune_nodes.
  - by apply prune_over with unprunable.
Qed.

(** [a == "x" || b == "x" || c == 1] *)
Definition string_query : expression :=
  disjunction [on_field [97] equal (d_string [120]); on_field [98] equal (d_string [120]); on_field [99] equal (d_int64 1)].

(** [:string == "x" || c == 1] *)
Definition pruned_query : expression :=
  disjunction [e_predicate (mk_predicate (type_extractor t_string) equal (o_data (d_string [120]))); on_field [99] equal (d_int64 1)].

Lemma prune_terminates_witness :
  prune (λ _, false) string_query = Some pruned_query ∧ (nodes pruned_query <= nodes string_query)%nat.
Proof.
  destruct (prune_terminates (λ _, false) (λ _, true) string_query) as (r & Hr & _ & Hn & _); [done|by repeat split|by repeat split|done|].
  vm_compute in Hr. injection Hr as <-. split; [reflexivity|exact Hn].
Defined.

(** [prune] does not end for an expression with a NaN: the loop runs until the expression equals
    the one before, and an expression with a NaN does not equal itself. *)
Theorem prune_diverges_on_nan unprunable key fuel :
  let e := on_field key equal nan in
  prune_loop unprunable fuel (pruner unprunable e) e = None ∧ evaluate never never nan equal nan = false.
Proof.
  intros e. split; [|by vm_compute]. assert (expression_eqb e e = false) as He.
  { unfold e, on_field. cbn [expression_eqb]. unfold predicate_eqb. cbn [lhs op rhs]. by rewrite andb_false_r. }
  change (pruner unprunable e) with e. induction fuel as [|fuel IH]; cbn [prune_loop]; rewrite He; [done|]. exact IH.
Qed.

(** ** Record types and keys *)

(** The walks over a record type agree: flat indices and offsets of leaves are inverse to each
    other, there are as many leaves as [num_leaves] says, and the key of an offset resolves to that
    offset, whether the field is a leaf or a record. *)
Theorem record_index_roundtrip fs : well_named (t_record fs) →
  (∀ n o, record_type.resolve_flat_index fs n = Some o ↔ record_type.flat_index fs o = Some n) ∧
  (∀ n, is_Some (record_type.resolve_flat_index fs n) ↔ n < record_type.num_leaves fs) ∧
  (∀ n o, record_type.resolve_flat_index fs n = Some o → ∃ k, record_type.key fs o = Some k) ∧
  (∀ o k, record_type.key fs o = Some k → record_type.resolve_key fs k = Some o).
Proof.
  intros Hw. split_and!.
  - apply flat_index_resolve.
  - intros n. rewrite resolve_flat_index_spec, fmap_is_Some, lookup_lt_is_Some, num_leaves_spec. unfold lenN. lia.
  - intros n o. rewrite resolve_flat_index_spec. intros (l & Hl & ->)%fmap_Some.
    apply list_elem_of_lookup_2 in Hl. destruct (leaves_field fs l Hl) as (_ & _ & [k Hk]). by exists k.
  - intros o k. by apply resolve_key_key.
Qed.

Lemma nested_schema_named : well_named (t_record nested_schema).
Proof.
  repeat split; try (by intros ?); cbn; rewrite ?not_elem_of_cons; try (by repeat split; [..|apply not_elem_of_nil]);
    by repeat constructor; rewrite ?list_elem_of_singleton; try apply not_elem_of_nil.
Defined.

Lemma record_index_roundtrip_witness :
  record_type.num_leaves nested_schema = 3 ∧ record_type.resolve_flat_index nested_schema 2 = Some [1; 1]%nat ∧
  record_type.flat_index nested_schema [1; 1]%nat = Some 2 ∧
  record_type.key nested_schema [1; 1]%nat = Some [98; 46; 99] ∧
  record_type.resolve_key nested_schema [98; 46; 99] = Some [1; 1]%nat.
Proof.
  destruct (record_index_roundtrip nested_schema nested_schema_named) as (H1 & _ & _ & H4).
  split_and!; [done|done|by apply H1|done|by apply H4].
Defined.

(** C23: A key finds exactly the leaves whose path ends with the key, name by name, or with what is left
    of the key behind the name of the schema or behind the part of that name that follows a dot. *)
Theorem key_suffix_found fs key prefix o ns f :
  well_named (t_record fs) → key ≠ [] → (o, f) ∈ record_type.leaves fs → path fs o = Some ns →
  o ∈ key_suffix.resolve_key_suffix fs key prefix ↔
  suffix_of key ns ∨
  ∃ a b rest, prefix = a ++ b ∧ b ≠ [] ∧ (a = [] ∨ ∃ a', a = a' ++ [record_type.dot]) ∧ key = b ++ record_type.dot :: rest ∧ suffix_of rest ns.
Proof. apply resolve_key_suffix_spec. Qed.

(** ["t.c"] finds [b.c] in the schema ["s.t"]. *)
Lemma key_suffix_found_witness :
  [1; 1]%nat ∈ key_suffix.resolve_key_suffix nested_schema [116; 46; 99] [115; 46; 116].
Proof.
  apply (key_suffix_found nested_schema [116; 46; 99] [115; 46; 116] [1; 1]%nat [[98]; [99]] ([99], t_int64));
    [exact nested_schema_named|done|by apply list_elem_of_lookup_2 with 2%nat|done|].
  right. exists [115; 46], [116], [99]. split_and!; [done|done|right; by exists [115]|done|]. by exists [[98]], [[99]].
Defined.

(** ** Values *)

(** A value that is packed into a FlatBuffers table and unpacked is the same value, for every value
    that keeps the invariants of subnets and enumerations. *)
Theorem data_roundtrip d : data_wf d → unpack (pack d) = d.
Proof. apply unpack_pack. Qed.

Definition sample_data : data :=
  d_record [([97], d_list [d_int64 (-1); d_none]); ([98], d_map [(d_string [120], d_subnet (ip.v4 [10; 0; 0; 0]) 104)])].
Lemma v4_wf a b c d : Forall (λ x, x < 256) [a; b; c; d] → ip.wf (ip.v4 [a; b; c; d]).
Proof. intros H. split; [done|]. unfold ip.v4. apply list.Forall_app. split; [by repeat constructor|done]. Qed.
Lemma sample_subnet_wf : subnet_wf (subnet.mk (ip.v4 [10; 0; 0; 0]) 104).
Proof.
  assert (subnet.mk (ip.v4 [10; 0; 0; 0]) 104 = subnet.make (ip.v4 [10; 0; 0; 0]) 8) as -> by (by vm_compute).
  apply subnet_make_wf, v4_wf. by repeat constructor.
Qed.
Lemma data_roundtrip_witness : unpack (pack sample_data) = sample_data.
Proof. apply data_roundtrip. cbn -[subnet_wf]. split_and!; try done. exact sample_subnet_wf. Defined.

(** [flatten] keeps every leaf of a record, under the dotted key of its path and in a record with
    distinct keys, as long as the limit on the recursion is enough; the limit is also taken down for
    every sibling, so that of a hundred and one records in a row, each with one field, one is lost. *)
Theorem flatten_limit r : need (d_record r) <= record.max_recursion →
  NoDup (record.flatten r).*1 ∧
  (∀ k, stable_map.lookup k (record.flatten r) = stable_map.lookup k (leaves (d_record r))) ∧
  let row := (λ i, ([N.of_nat i], d_record [([120], d_int64 1)])) <$> seq 0 101 in
  length (leaves (d_record row)) = 101%nat ∧ length (record.flatten row) = 100%nat ∧
  record.depth row = 2.
Proof.
  intros Hn. destruct (flatten_rec_spec (d_record r) record.max_recursion Hn) as [H1 H2]; [done|].
  split_and!; [done|done|]. intros row. by vm_compute.
Qed.

Definition two_records : list (list N * data) :=
  [([97], d_record [([120], d_int64 1)]); ([98], d_record [([120], d_int64 2); ([121], d_record [([122], d_bool true)])])].
Lemma flatten_limit_witness :
  stable_map.lookup [98; 46; 121; 46; 122] (record.flatten two_records) = Some (d_bool true).
Proof. destruct (flatten_limit two_records) as (_ & H & _); [by vm_compute|]. rewrite H. by vm_compute. Defined.

(** [merge] gives every key of the source its value, that of a record merged with the record of the
    destination, keeps the other keys of the destination, and merging the same record again, without
    concatenating lists, changes nothing. *)
Theorem merge_overrides src dst k : keys_unique (d_record src) →
  stable_map.lookup k (record.merge src dst false) =
    match stable_map.lookup k src with
    | Some (d_record r) =>
        Some (d_record (record.merge_rec false (record.max_recursion - 1) (d_record r)
                          (record.fields_of (default d_none (stable_map.lookup k dst)))))
    | Some v => Some v
    | None => stable_map.lookup k dst
    end ∧
  record.merge src (record.merge src dst false) false = record.merge src dst false.
Proof.
  intros Hu. split; [|by apply merge_rec_idemp]. unfold record.merge. cbn [record.merge_rec].
  change (record.max_recursion =? 0) with false. cbn iota.
  rewrite lookup_merge_loop by apply Hu. destruct (stable_map.lookup k src) as [[]|]; done.
Qed.

(** [{a: {y: 1, x: 3}, b: true}] merged into [two_records]. *)
Definition update : list (list N * data) := [([97], d_record [([121], d_int64 1); ([120], d_int64 3)]); ([98], d_bool true)].
Lemma merge_overrides_witness :
  stable_map.lookup [98] (record.merge update two_records false) = Some (d_bool true) ∧
  stable_map.lookup [97] (record.merge update two_records false) = Some (d_record [([120], d_int64 3); ([121], d_int64 1)]).
Proof.
  assert (keys_unique (d_record update)) as Hu.
  { cbn. split_and!; try done; repeat constructor; rewrite ?list_elem_of_singleton; try done; apply not_elem_of_nil. }
  destruct (merge_overrides update two_records [98] Hu) as [-> _]. destruct (merge_overrides update two_records [97] Hu) as [-> _].
  by vm_compute.
Defined.

(** ** Addresses *)

(** Every subnet that is constructed keeps the invariant of the class: no bits behind its length,
    which is at most 128 and, for a v4 network, at least 96; it is constructed again from its network
    and length; and it contains another subnet exactly if it contains all its addresses. *)
Theorem subnet_invariant addr length s t :
  ip.wf addr → subnet_wf s → subnet_wf t →
  subnet_wf (subnet.make addr length) ∧ subnet.make (subnet.network s) (subnet.length s) = s ∧
  (subnet.contains s t = true ↔
   ∀ addr, ip.wf addr → subnet.contains_ip t addr = true → subnet.contains_ip s addr = true).
Proof.
  intros Ha Hs Ht. split_and!; [by apply subnet_make_wf|by apply subnet_make_length|by apply subnet_contains_spec].
Qed.

Definition ten : subnet.t := subnet.mk (ip.v4 [10; 0; 0; 0]) 104.
Lemma subnet_invariant_witness :
  subnet_wf (subnet.make (ip.v4 [10; 1; 2; 3]) 16) ∧
  subnet.make (ip.v4 [10; 1; 2; 3]) 16 = subnet.mk (ip.v4 [10; 1; 0; 0]) 112 ∧
  subnet.contains ten (subnet.make (ip.v4 [10; 1; 2; 3]) 16) = true.
Proof.
  assert (ip.wf (ip.v4 [10; 1; 2; 3])) as Ha by (apply v4_wf; by repeat constructor).
  destruct (subnet_invariant (ip.v4 [10; 1; 2; 3]) 16 ten ten Ha sample_subnet_wf sample_subnet_wf) as [Hw _].
  split_and!; [exact Hw|by vm_compute|by vm_compute].
Defined.

(** Masking keeps the top bits of an address and clears the others, for every width up to 128, and
    comparing the top bits of two addresses is comparing these bits; a width above 128 is refused. *)
Theorem address_prefix_bounds x y k :
  ip.wf x → ip.wf y →
  (k <= 128 → (ip.mask k x).1 = true ∧ ip.wf (ip.mask k x).2 ∧
     (∀ i, i < 128 → bit (ip.mask k x).2 i = (i <? k) && bit x i) ∧
     (ip.compare x y k = true ↔ same_prefix k x y) ∧
     (ip.compare x y k = true ↔ (ip.mask k x).2 = (ip.mask k y).2)) ∧
  (128 < k → ip.mask k x = (false, x)).
Proof.
  intros Hx Hy. split.
  - intros Hk. destruct (mask_spec k x Hx Hk) as (H1 & H2 & H3). split_and!; try done; [by apply compare_spec|].
    rewrite compare_spec by done. by apply same_prefix_mask.
  - intros Hk. unfold ip.mask. by rewrite (proj2 (N.ltb_lt _ _) Hk).
Qed.

Lemma address_prefix_bounds_witness :
  (ip.mask 104 (ip.v4 [10; 1; 2; 3])).2 = ip.v4 [10; 0; 0; 0] ∧
  ip.compare (ip.v4 [10; 1; 2; 3]) (ip.v4 [10; 9; 9; 9]) 104 = true ∧
  ip.mask 129 (ip.v4 [10; 1; 2; 3]) = (false, ip.v4 [10; 1; 2; 3]).
Proof.
  destruct (address_prefix_bounds (ip.v4 [10; 1; 2; 3]) (ip.v4 [10; 9; 9; 9]) 104) as [H _];
    [apply v4_wf; by repeat constructor..|]. destruct H as (_ & _ & _ & _ & H); [by vm_compute|].
  destruct (address_prefix_bounds (ip.v4 [10; 1; 2; 3]) (ip.v4 [10; 9; 9; 9]) 129) as [_ H'];
    [apply v4_wf; by repeat constructor..|].
  split_and!; [by vm_compute|apply H; by vm_compute|by apply H'].
Defined.

(** C40: Pseudonyms keep prefixes: two addresses of one family (both v4 or both v6) share a prefix of up
    to 128 bits exactly if their pseudonyms under one seed do, so that distinct addresses have distinct
    pseudonyms, and the pseudonym of a v4 address is a v4 address. Of the cipher only the size of its
    blocks is assumed. *)
Theorem pseudonyms_keep_prefixes aes seed x y k :
  (∀ key block, length (aes key block) = 16%nat ∧ Forall (λ b, b < 256) (aes key block)) →
  ip.wf x → ip.wf y → ip.is_v4 x = ip.is_v4 y → k <= 128 →
  (same_prefix k (ip.pseudonymize aes x seed) (ip.pseudonymize aes y seed) ↔ same_prefix k x y) ∧
  (ip.pseudonymize aes x seed = ip.pseudonymize aes y seed → x = y) ∧
  (ip.is_v4 x = true → ip.is_v4 (ip.pseudonymize aes x seed) = true).
Proof.
  intros Ha Hx Hy Hv Hk. split_and!.
  - by apply pseudonymize_prefix_spec.
  - intros Heq. destruct Hx as [Hlx Hx], Hy as [Hly Hy]. apply bytes_ext; [congruence|done..|]. unfold lenN. rewrite Hlx.
    apply (pseudonymize_prefix_spec aes seed x y 128); try done. by rewrite Heq.
  - by apply pseudonymize_v4.
Qed.

(** A cipher that xors a block with the key. *)
Definition xor_cipher (key block : list N) : list N :=
  take 16 ((λ b, b mod 256) <$> zip_with N.lxor key block ++ replicate 16 0).
Lemma pseudonyms_keep_prefixes_witness :
  let p := ip.pseudonymize xor_cipher (ip.v4 [10; 1; 2; 3]) (replicate 32 90) in
  ip.is_v4 p = true ∧ same_prefix 104 p (ip.pseudonymize xor_cipher (ip.v4 [10; 9; 9; 9]) (replicate 32 90)).
Proof.
  destruct (pseudonyms_keep_prefixes xor_cipher (replicate 32 90) (ip.v4 [10; 1; 2; 3]) (ip.v4 [10; 9; 9; 9]) 104)
    as (H1 & _ & H3); [|apply v4_wf; by repeat constructor..|done|done|].
  - intros key block. unfold xor_cipher. split.
    + rewrite length_take, length_fmap, length_app, length_replicate. lia.
    + apply Forall_take, Forall_fmap, Forall_true. intros b. by apply N.mod_lt.
  - split; [by apply H3|]. apply H1. apply compare_spec; [apply v4_wf; by repeat constructor..|done|by vm_compute].
Defined.

(** ** Taxonomies *)

(** [resolve_concepts] returns exactly what the names stand for: fields and unknown names as they
    are, concepts with the fields of all concepts they refer to, however deep, cycles included, as long
    as there are fewer concepts than the limit on the recursion. *)
Theorem concepts_resolved cs xs y : (length cs < max_recursion)%nat →
  y ∈ resolve_concepts cs xs ↔ ∃ x, x ∈ xs ∧ stands_for cs x y.
Proof. apply resolve_concepts_spec. Qed.

(** The concepts [p = {fields: x, concepts: q}], [q = {concepts: r, p}] and [r = {fields: z}]. *)
Definition sample_concepts : list (list N * concept_) :=
  [([112], mk_concept [] [[120]] [[113]]); ([113], mk_concept [] [] [[114]; [112]]); ([114], mk_concept [] [[122]] [])].
Lemma concepts_resolved_witness : [122] ∈ resolve_concepts sample_concepts [[112]] ∧ stands_for sample_concepts [112] [122].
Proof.
  assert (stands_for sample_concepts [112] [122]) as H.
  { eapply stands_for_nested with (n:=[113]); [reflexivity|by left|].
    eapply stands_for_nested with (n:=[114]); [reflexivity|by left|].
    eapply stands_for_field; [reflexivity|by left]. }
  split; [|done]. apply (concepts_resolved sample_concepts [[112]] [122]); [cbn; unfold max_recursion; lia|].
  exists [112]. split; [by left|done].
Defined.

(** Resolving a query does less than [resolve_concepts]: a concept that is three levels below the
    one of the query is not found, since the loop over the concepts that were found stops at those that
    were known before its first round. *)
Theorem concepts_lost :
  let ts := mk_taxonomies sample_concepts [] in
  resolve_concepts sample_concepts [[112]] = [[120]; [122]] ∧
  resolve_all ts 0 (on_field [112] equal (d_int64 1)) = Some (value (on_field [120] equal (d_int64 1))) ∧
  resolve_all ts 0 (on_field [113] equal (d_int64 1)) =
    Some (value (disjunction [on_field [122] equal (d_int64 1); on_field [120] equal (d_int64 1)])).
Proof. by vm_compute. Qed.

(** The cursor of a model visits the leaves of the model from left to right, models within models
    included, and ends, for every model whose tree is finite and has no empty model. *)
Theorem model_cursor ts d out : d ≠ [] → flattens_all ts d out →
  ∃ n, ∀ fuel, (n <= fuel)%nat → (levels ← descend ts fuel [d]; model_leaves ts fuel levels) = Some out.
Proof. apply model_leaves_spec. Qed.

(** The models [m = n, x] and [n = y, z]. *)
Definition sample_taxonomies : taxonomies :=
  mk_taxonomies [] [([109], [[110]; [120]]); ([110], [[121]; [122]])].
Lemma model_cursor_witness :
  ∃ fuel, (levels ← descend sample_taxonomies fuel [[[110]; [120]]]; model_leaves sample_taxonomies fuel levels) = Some [[121]; [122]; [120]].
Proof.
  destruct (model_cursor sample_taxonomies [[110]; [120]] [[121]; [122]; [120]]) as [n Hn]; [done| |by exists n; apply Hn].
  apply (flattens_cons _ _ _ [[121]; [122]] [[120]]).
  - eapply flattens_model; [reflexivity|done|]. apply (flattens_cons _ _ _ [[121]] [[122]]); [by constructor|].
    apply (flattens_cons _ _ _ [[122]] []); by constructor.
  - apply (flattens_cons _ _ _ [[120]] []); by constructor.
Defined.

(** ** Types *)

(** [type_check] of a record is inverted: it accepts a record exactly if the names agree and every
    value fails the check of its field, so that it rejects correct records and accepts wrong ones. *)
Theorem type_check_inverted fields u :
  type.type_check (t_record fields) (d_record u) =
    (lenN u =? lenN fields) &&
    forallb (λ p, bool_decide (p.1.1 = p.2.1) && negb (type.type_check p.1.2 p.2.2)) (zip fields u) ∧
  type.type_check (t_record [([97], t_int64)]) (d_record [([97], d_int64 1)]) = false ∧
  type.type_check (t_record [([97], t_int64)]) (d_record [([97], d_string [120])]) = true.
Proof. split; [apply type_check_record|by vm_compute]. Qed.
