(* ===== verification/CatalogTheorems.v ===== *)
(** Properties of table slices, synopses and the catalog, with witnesses. *)

From S2P Require Import Prelude SetOperations Word Bits BitmapConcept EwahBitmap EwahRange BitmapAlgorithms BitwiseRange Bitmap Operator Data Types RecordType KeySuffix Ip DataOps DataRecord Expression ExpressionSpec ExpressionResolve ExpressionPrune Taxonomies Evaluate TableSlice Synopsis PartitionSynopsis ActivePartition Catalog CatalogSpec CatalogComplete.

(** ** Sample data *)

(** Record batches as lists of columns, all of the size of the batch. *)
Record list_batch := mk_batch { lb_rows : N; lb_columns : list (list data) }.
Definition fit (n : N) (c : list data) : list data := take (N.to_nat n) (c ++ reps n d_none).

Lemma length_fit n c : lenN (fit n c) = n.
Proof. unfold fit, lenN, reps. rewrite length_take, length_app, length_replicate. lia. Qed.

Lemma fit_id n c : lenN c = n → fit n c = c.
Proof. unfold fit, lenN. intros <-. by rewrite Nat2N.id, take_app_length. Qed.

#[export] Instance list_batch_ops : RecordBatchOps list_batch := {
  num_rows := lb_rows;
  batch_columns b := fit (lb_rows b) <$> lb_columns b;
  Slice b first n :=
    mk_batch n ((λ c, take (N.to_nat n) (drop (N.to_nat first) (fit (lb_rows b) c))) <$> lb_columns b);
  Make := mk_batch
}.
#[export] Instance list_batch_laws : RecordBatch list_batch.
Proof.
  split.
  - intros b. apply Forall_fmap, Forall_true. intros c. apply length_fit.
  - intros b first n Hn. split; [done|]. cbn. rewrite <- !list_fmap_compose. apply list_fmap_ext. intros i c _. cbn.
    apply fit_id. unfold lenN. rewrite length_take, length_drop. pose proof (length_fit (lb_rows b) c) as Hl. unfold lenN in Hl.
    cbn in Hn. lia.
  - intros n columns Hc. split; [done|]. cbn. rewrite <- (list_fmap_id columns) at 2. apply list_fmap_ext. intros i c Hi. cbn.
    apply fit_id. exact (Forall_lookup_1 _ _ _ _ Hc Hi).
Defined.

#[local] Abbreviation ids := ewah_bitmap.ewah_bitmap.

(** Schema [t] with the columns [a: string] and [b: time]. *)
Definition sample_fields : list field := [([97], t_string); ([98], t_time)].
Definition sample_type : type := t_enriched (Some [116]) [] (t_record sample_fields).
Definition str (s : list N) : data := d_string s.
Definition sample_batch : list_batch :=
  mk_batch 4 [[str [120]; d_none; str [121]; str [120; 121]]; [d_time 5; d_time 7; d_none; d_time 9]].
Definition sample_slice : table_slice list_batch := mk_table_slice true sample_type sample_batch invalid_id 42.
(** The same rows with IDs from 10. *)
Definition sample_slice_10 : table_slice list_batch := mk_table_slice true sample_type sample_batch 10 42.

Definition field_pred (key : list N) (o : relational_operator) (d : data) : expression :=
  e_predicate (mk_predicate (field_extractor key) o (o_data d)).
(** [a == "x" || b > 8ns] *)
Definition sample_query : expression := disjunction [field_pred [97] equal (str [120]); field_pred [98] greater (d_time 8)].

Definition no_regex (_ _ : list N) : bool := false.
Definition sample_hash (seed : N) (d : data) : N :=
  match d with d_string s => foldl (λ h c, h * 31 + c) (seed * 7 + 1) s | _ => seed end.

Lemma sample_slice_ok s : slice_schema s = sample_type → to_record_batch s = sample_batch → valid s = true →
  first_id s <= 10 → table_slice_wf s.
Proof.
  intros Hs Hb Hv Hf. unfold table_slice_wf, slice_rows, slice_fields. rewrite Hs, Hb, Hv. split_and!; [done|by vm_compute| |done].
  split; [unfold max_size; cbn; lia|]. intros [|[|c]] l Hl; [..|done]; injection Hl as <-; eexists;
    (split; [reflexivity|]); (split; [reflexivity|]); repeat constructor; try done; intros; by eexists.
Defined.

(** ** Rows *)

(** C5: [evaluate] returns a bitmap of one bit per ID up to the end of the slice, and sets exactly the
    bits of the rows that the hints allow and that satisfy the expression; it does not fail for an
    expression that was tailored. *)
Theorem evaluate_selects_rows {B} `{StrictRange B} regex_match regex_search schema schema_name columns import_time offset num_rows
    e (hints : B) :
  slice_wf schema columns offset num_rows → all_resolved schema e → bm_wf hints →
  ∃ r : B, Evaluate.evaluate regex_match regex_search schema schema_name columns import_time offset num_rows e hints = Some r ∧
  bm_wf r ∧ lenN (bm_list r) = offset + num_rows ∧
  ∀ id, bit_at (bm_list r) (N.to_nat id) =
    (id <? offset + num_rows) && ((offset <=? id) && (bool_decide (bm_list hints = []) || bit_at (bm_list hints) (N.to_nat id)) &&
     eval (row_holds regex_match regex_search schema_name columns import_time offset id) e).
Proof.
  intros Hs He Hw. destruct (evaluate_spec regex_match regex_search schema schema_name columns import_time offset num_rows Hs e hints He Hw) as (r & Hr & Hrep).
  by exists r.
Qed.

Definition sample_hints : ids := ids.make_ids [(10, 12); (13, 20)] 0 false.
Lemma sample_hints_wf : bm_wf sample_hints.
Proof.
  apply (make_ids_bits (B:=ids) [(10, 12); (13, 20)] 0 false); [|by vm_compute].
  by repeat constructor.
Defined.

(** The query bound to the columns of the schema. *)
Definition sample_bound : expression :=
  disjunction [e_predicate (mk_predicate (data_extractor t_string 0) equal (o_data (str [120])));
               e_predicate (mk_predicate (data_extractor t_time 1) greater (o_data (d_time 8)))].

Lemma evaluate_selects_rows_witness :
  ∃ r : ids, Evaluate.evaluate no_regex no_regex sample_fields [116] (batch_columns sample_batch) 42 10 4 sample_bound sample_hints = Some r ∧
  bit_at (bm_list r) (N.to_nat 10) = true ∧ bit_at (bm_list r) (N.to_nat 11) = false ∧ bit_at (bm_list r) (N.to_nat 13) = true.
Proof.
  destruct (evaluate_selects_rows (B:=ids) no_regex no_regex sample_fields [116] (batch_columns sample_batch) 42 10 4 sample_bound sample_hints)
    as (r & Hr & _ & _ & Hbits).
  - apply (sample_slice_ok sample_slice_10); [done..|by vm_compute].
  - cbn. split_and!; [by eexists (_, _)..|done].
  - exact sample_hints_wf.
  - exists r. split; [exact Hr|]. rewrite (Hbits 10), (Hbits 11), (Hbits 13).
    vm_compute. repeat split.
Defined.

(** C8: [select] cuts a slice into slices that hold exactly the events that the hints allow and that
    match the expression, in order, and [filter] makes one slice of these events; [split] cuts a slice
    in two without losing events. *)
Theorem select_filters {batch} `{RecordBatch batch} {B} `{StrictRange B} regex_match regex_search (s : table_slice batch) e (hints : B) p :
  table_slice_wf s → bm_wf hints → bound s e →
  let events_selected := selected_events s (λ id, allowed hints id && event_holds regex_match regex_search s e id) in
  (∃ slices, TableSlice.select regex_match regex_search s e hints = Some slices ∧ concat (TableSlice.events <$> slices) = events_selected) ∧
  (∃ r, filter_slice regex_match regex_search s e hints = Some r ∧ from_option TableSlice.events [] r = events_selected) ∧
  TableSlice.events (split s p).1 = take (N.to_nat p) (TableSlice.events s) ∧ TableSlice.events (split s p).2 = drop (N.to_nat p) (TableSlice.events s).
Proof.
  intros Hs Hw Hb. cbn zeta. split_and!.
  - destruct (TableSlice.select_slices_spec regex_match regex_search s e hints Hs Hw Hb) as (slices & ? & ? & _). by exists slices.
  - by apply TableSlice.filter_spec.
  - apply split_events, Hs.
  - apply split_events, Hs.
Qed.

Lemma sample_query_bound : bound sample_slice_10 sample_query.
Proof. intros t Ht. vm_compute in Ht. injection Ht as <-. cbn. split_and!; [by eexists (_, _)..|done]. Defined.

Lemma select_filters_witness :
  (∃ r, filter_slice no_regex no_regex sample_slice_10 sample_query sample_hints = Some r ∧
   from_option TableSlice.events [] r = [[str [120]; d_time 5]; [str [120; 121]; d_time 9]]) ∧
  TableSlice.events (split sample_slice_10 1).1 = [[str [120]; d_time 5]].
Proof.
  destruct (select_filters no_regex no_regex sample_slice_10 sample_query sample_hints 1) as (_ & (r & Hr & He) & Hs & _).
  - apply sample_slice_ok; [done..|by vm_compute].
  - exact sample_hints_wf.
  - exact sample_query_bound.
  - split; [exists r; split; [exact Hr|rewrite He; by vm_compute]|rewrite Hs; by vm_compute].
Defined.

(** The slices that [select] yields do not keep the IDs of their events: [select] adds the offset of
    the slice to IDs that contain it already. [split] gives its second slice the offset of the first,
    and [count_matching] ends the program for an expression with a field that [filter] evaluates. *)
Theorem slice_ids_deviate :
  (∃ parts, TableSlice.select no_regex no_regex sample_slice_10 (field_pred [97] equal (str [121])) (bm_nil (B:=ids)) = Some parts ∧
     concat (TableSlice.events <$> parts) = [[str [121]; d_none]] ∧ TableSlice.offset <$> parts = [22]) ∧
  TableSlice.offset (split sample_slice_10 1).2 = 10 ∧
  count_matching no_regex no_regex sample_slice_10 sample_query sample_hints = None ∧
  from_option TableSlice.events [] <$> filter_slice no_regex no_regex sample_slice_10 sample_query sample_hints =
    Some [[str [120]; d_time 5]; [str [120; 121]; d_time 9]].
Proof. split_and!; [eexists; split; [by vm_compute|by vm_compute]|by vm_compute..]. Qed.

(** ** Synopses *)

(** After any number of values were added to a synopsis, and also after it was shrunk to a Bloom
    filter, no comparison that it rules out holds for any of these values. *)
Theorem synopses_sound hash regex_match regex_search evaluate t attributes s xs s' op rhs v :
  make_synopsis attributes t = Some s → Forall (typed_value t) xs → v ∈ xs →
  (s' = foldl (add hash) s xs ∨ shrink hash evaluate (foldl (add hash) s xs) = Some s') →
  supports op rhs → Synopsis.lookup hash s' op rhs = Some (Some false) →
  DataOps.evaluate regex_match regex_search v op rhs = false.
Proof.
  intros Hs Ht Hv Hs' Hop Hl. apply make_synopsis_for in Hs.
  assert (covers hash (foldl (add hash) s xs) v) as Hc.
  { apply foldl_add_covers; [|done]. apply Hs. rewrite list.Forall_forall in Ht. by apply Ht. }
  destruct Hs' as [->|Hsh]; [by eapply lookup_sound|]. eapply lookup_sound; [done| |exact Hl]. by eapply shrink_covers.
Qed.

Definition sample_parameters (_ : N) : option (N * N) := Some (61, 3).

Lemma synopses_sound_witness :
  DataOps.evaluate no_regex no_regex (str [120]) equal (str [122]) = false.
Proof.
  set (s := foldl (add sample_hash) (buffered_synopsis el_string []) [str [120]; str [121]]).
  destruct (shrink sample_hash sample_parameters s) as [s'|] eqn:E; [|by vm_compute in E].
  apply (synopses_sound sample_hash no_regex no_regex sample_parameters t_string (λ _, None) (buffered_synopsis el_string [])
    [str [120]; str [121]] s' equal (str [122]) (str [120])).
  - reflexivity.
  - repeat constructor.
  - apply list_elem_of_here.
  - right. exact E.
  - exact I.
  - vm_compute in E. injection E as <-. by vm_compute.
Defined.

(** ** Partitions *)

(** A partition accepts slices of one schema that have no offset yet, counts their rows, and marks
    exactly the IDs of its events for the schema. *)
Theorem partition_counts {batch} `{RecordBatch batch} {B} `{StrictRange B} hash attributes rules version t fields
    (xs : list (table_slice batch)) :
  record_type.as_record t = Some fields → type.name t ≠ [] → xs ≠ [] →
  Forall (λ x, slice_of_type t fields x ∧ TableSlice.offset x = invalid_id) xs →
  foldr (λ x m, slice_rows x + m) 0 xs <= max_size →
  ∃ st (m : B), ingest_all (ids:=B) hash attributes rules (new_partition version) xs = Some st ∧
  data_events st = foldr (λ x m, slice_rows x + m) 0 xs ∧ stable_map.lookup (type.name t) (type_ids st) = Some m ∧
  bm_list m = reps (data_events st) true.
Proof.
  intros Hrec Hname Hne Hx Hmax.
  destruct (ingest_all_counts (ids:=B) hash attributes rules t fields Hrec xs (new_partition version) 0 Hx) as (st & Hst & Hn & Hids); try done.
  { split; [|by right]. split; done. }
  rewrite N.add_0_l in Hn, Hids. exists st.
  assert (∃ m, stable_map.lookup (type.name t) (type_ids st) = Some m) as [m Hm].
  { destruct (stable_map.lookup (type.name t) (type_ids st)) as [m|] eqn:E; [by exists m|]. exfalso.
    destruct (ingest_all_marks hash attributes rules t xs (new_partition version) st) as [m Hm]; [done| |done|congruence].
    eapply list.Forall_impl; [exact Hx|]. by intros x [[? _] _]. }
  rewrite Hm in Hids. exists m. split_and!; [done..|]. destruct Hids as (_ & Hl & Hb).
  apply bit_list_ext_at; [unfold lenN in Hl; unfold reps; rewrite length_replicate; lia|]. intros i Hi.
  specialize (Hb (N.of_nat i)). rewrite Nat2N.id in Hb. rewrite Hb, bit_at_reps, Hn. by rewrite andb_comm.
Qed.

Lemma sample_slice_type s : slice_schema s = sample_type → to_record_batch s = sample_batch → valid s = true →
  slice_of_type sample_type sample_fields s.
Proof.
  intros Hs Hb Hv. split_and!; [done..|]. rewrite Hb. intros [|[|c]] l col Hl Hc; [..|done]; injection Hl as <-; injection Hc as <-;
    repeat constructor; try done; intros _; eexists; (split; [reflexivity|]); by vm_compute.
Defined.

Lemma partition_counts_witness :
  ∃ st (m : ids), ingest_all (ids:=ids) sample_hash (λ _, None) [] (new_partition 1) [sample_slice; sample_slice] = Some st ∧
  data_events st = 8 ∧ bm_list m = reps 8 true.
Proof.
  destruct (partition_counts (B:=ids) sample_hash (λ _, None) [] 1 sample_type sample_fields [sample_slice; sample_slice])
    as (st & m & Hst & Hn & _ & Hm).
  - reflexivity.
  - discriminate.
  - discriminate.
  - repeat constructor; by apply sample_slice_type.
  - by vm_compute.
  - exists st, m. split; [exact Hst|]. rewrite Hm, Hn. split; reflexivity.
Defined.

(** ** The catalog *)

(** C14: [lookup_impl] with its sorted set operations and early exits computes for every partition, from
    the synopses of this partition alone, whether it passes the test of the expression, and returns the
    partitions that do in the order of their UUIDs. *)
Theorem catalog_lookup_tests hash regex_match regex_search parts e :
  increasing fst parts → Forall (λ q, passive q.2) parts → proper time_rhs e →
  lookup_impl hash regex_match regex_search parts e =
  Some (make_info <$> filter (λ q, selects hash regex_match regex_search e q = true) parts).
Proof. intros Hi Hp He. by rewrite lookup_impl_spec. Qed.

(** The synopsis of the sample slice. *)
Definition sample_state : option (active_partition ids) := ingest_all sample_hash (λ _, None) [] (new_partition 1) [sample_slice].
Definition sample_synopsis : partition_synopsis :=
  shrink_partition sample_hash sample_parameters
    (match sample_state with Some st => data_synopsis st | None => mk_partition_synopsis 0 0 0 0 t_none [] [] end).
(** The synopsis of another partition, with one event at a time of 3ns. *)
Definition other_synopsis : partition_synopsis :=
  shrink_partition sample_hash sample_parameters
    (add_slice sample_hash (λ _, None) [] sample_type [[str [122]]; [d_time 3]] (mk_partition_synopsis 1 1 1 0 t_none [] [])).

Ltac passive_tac := split; repeat constructor; intros ? [= <-]; reflexivity.
Lemma sample_synopsis_passive : passive sample_synopsis.
Proof. vm_compute. passive_tac. Defined.
Lemma other_synopsis_passive : passive other_synopsis.
Proof. vm_compute. passive_tac. Defined.

Lemma catalog_lookup_tests_witness :
  uuid <$> default [] (lookup_impl sample_hash no_regex no_regex [(1, other_synopsis); (2, sample_synopsis)] sample_query) = [2].
Proof.
  rewrite (catalog_lookup_tests sample_hash no_regex no_regex [(1, other_synopsis); (2, sample_synopsis)] sample_query).
  - by vm_compute.
  - by repeat constructor.
  - constructor; [exact other_synopsis_passive|]. constructor; [exact sample_synopsis_passive|constructor].
  - by repeat constructor.
Defined.

(** C18: In a catalog whose types have partitions, sorted by UUID and of this schema, merge, erase and
    [create_from] keep this invariant. merge adds or replaces one partition of its schema. If the UUIDs
    of the catalog are distinct, erase removes one partition and no other. [create_from] gives every
    schema among new partitions with distinct UUIDs exactly these partitions, in place of those it had,
    and keeps the partitions of the other schemas. *)
Theorem catalog_invariant s id ps new :
  catalog_wf s → NoDup (concat (snd <$> catalog_state.synopses_per_type s)).*1 → NoDup new.*1 →
  (catalog_wf (catalog_state.merge id ps s) ∧
   ∀ ty q, q ∈ partitions_of (catalog_state.merge id ps s) ty ↔
     (ty = schema ps ∧ q = (id, ps)) ∨ (q ∈ partitions_of s ty ∧ (ty = schema ps → q.1 ≠ id))) ∧
  (catalog_wf (catalog_state.erase id s) ∧
   ∀ ty q, q ∈ partitions_of (catalog_state.erase id s) ty ↔ q ∈ partitions_of s ty ∧ q.1 ≠ id) ∧
  (catalog_wf (catalog_state.create_from new s) ∧
   ∀ ty q, q ∈ partitions_of (catalog_state.create_from new s) ty ↔
     (q ∈ new ∧ schema q.2 = ty) ∨ (q ∈ partitions_of s ty ∧ ty ∉ (λ p, schema p.2) <$> new)).
Proof. intros Hs Hu Hn. split_and!; [by apply catalog_merge_spec|by apply catalog_merge_spec|by apply erase_spec|by apply erase_spec|by apply create_from_spec|by apply create_from_spec]. Qed.

Definition sample_catalog : catalog_state.t := catalog_state.merge 1 other_synopsis catalog_state.empty.
Lemma sample_catalog_wf : catalog_wf sample_catalog.
Proof.
  split; [apply NoDup_singleton|]. constructor; [|constructor]. split_and!; [discriminate|by repeat constructor|by repeat constructor].
Defined.

Lemma catalog_invariant_witness :
  catalog_wf (catalog_state.merge 2 sample_synopsis sample_catalog) ∧
  (2, sample_synopsis) ∈ partitions_of (catalog_state.merge 2 sample_synopsis sample_catalog) sample_type ∧
  (3, sample_synopsis) ∈ partitions_of (catalog_state.create_from [(3, sample_synopsis)] sample_catalog) sample_type.
Proof.
  destruct (catalog_invariant sample_catalog 2 sample_synopsis [(3, sample_synopsis)] sample_catalog_wf) as ([Hwf Hin] & _ & _ & Hnew); [apply NoDup_singleton..|].
  split; [exact Hwf|]. split; [apply Hin; left; split; reflexivity|]. apply Hnew. left. split; [by left|reflexivity].
Defined.

(** C1: lookup misses no partition with a matching event, for expressions of the kind that the catalog
    decides as rows do: a partition that was filled from slices of one record type with named fields,
    shrunk so that no synopsis is left in its buffered form, and merged into a catalog of such
    partitions is among the candidates of an expression that one of its events satisfies, pruning
    included. The expression has neither negations nor NaN nor empty parts, and each predicate compares
    metadata, a field or a type with a value: import times with a time; nothing by != with a time, by
    !in with a list, or with a list that has patterns; a field by a key of which no part behind the
    schema name is the end of a path without being the whole path; no concept or model and no empty
    record; and with a string only fields of type string. [catalog_misses] shows that other comparisons
    can miss partitions. *)
Theorem catalog_no_false_negatives {batch} `{RecordBatch batch} {B} `{StrictRange B} hash attributes rules regex_match regex_search
    parameters sort ts fuel version t fields (xs : list (table_slice batch)) (st : active_partition B) x id s u e :
  let ps := shrink_partition hash parameters (data_synopsis st) in
  record_type.as_record t = Some fields → well_named (t_record fields) → record_type.leaves fields ≠ [] →
  Forall (slice_of_type t fields) xs → Forall table_slice_wf xs → ingest_all hash attributes rules (new_partition version) xs = Some st →
  passive ps → catalog_wf s → all_passive s → (∀ l, sort l ≡ₚ l) →
  x ∈ xs → first_id x <= id < first_id x + slice_rows x →
  proper (answerable t fields) e → proper (plain ts) e → proper (λ p, on_strings ps p = true) e →
  no_negation e → expression_no_nan e = true →
  event_holds regex_match regex_search x e id = true →
  ∃ result infos, catalog_state.lookup hash regex_match regex_search sort ts fuel (catalog_state.merge u ps s) e = Some (value result) ∧
  stable_map.lookup t result = Some infos ∧ make_info (u, ps) ∈ infos.
Proof.
  intros ps Hrec Hnamed Hleaves Ht Hw Hst Hpas Hs Hsp Hsort Hx Hid Ha Hpl Hstr Hn Hnan He.
  assert (schema ps = t) as Hsch.
  { destruct (ingest_all_spec hash attributes rules t fields Hrec xs (new_partition version) st Ht) as (_ & Hsch & _); [|done|].
    - split; [|by right]. split; done.
    - apply Hsch. intros ->. by apply not_elem_of_nil in Hx. }
  destruct (catalog_merge_spec u ps s Hs) as [Hwf Hin].
  apply (catalog_lookup_complete hash rules regex_match regex_search sort Hsort ts fuel _ t fields u ps x id e); try done.
  - by apply merge_passive.
  - apply Hin. by left.
  - exact (filled_holds hash attributes rules t fields Hrec version parameters xs st x Ht Hw Hst Hx Hpas).
Qed.

Lemma sample_well_named : well_named (t_record sample_fields).
Proof.
  split; [constructor; [by intros ?%list_elem_of_singleton|apply NoDup_singleton]|].
  repeat split; try discriminate; by intros ?%list_elem_of_singleton.
Defined.
Lemma sample_answerable : proper (answerable sample_type sample_fields) sample_query.
Proof.
  assert (∀ key, key_suffix.prefix_keys true [116] key = [] → unambiguous [116] sample_fields key) as Hu.
  { intros key Hk rest l ns Hr. rewrite Hk in Hr. by apply not_elem_of_nil in Hr. }
  cbn. repeat split; try discriminate; by apply Hu.
Defined.

Lemma catalog_no_false_negatives_witness :
  ∃ result infos, catalog_state.lookup sample_hash no_regex no_regex (λ l, l) (mk_taxonomies [] []) 0
    (catalog_state.merge 2 sample_synopsis sample_catalog) sample_query = Some (value result) ∧
  stable_map.lookup sample_type result = Some infos ∧ make_info (2, sample_synopsis) ∈ infos.
Proof.
  destruct sample_state as [st|] eqn:E; [|by vm_compute in E].
  assert (sample_synopsis = shrink_partition sample_hash sample_parameters (data_synopsis st)) as Eq by (unfold sample_synopsis; by rewrite E).
  rewrite Eq.
  apply (catalog_no_false_negatives (B:=ids) sample_hash (λ _, None) [] no_regex no_regex sample_parameters (λ l, l) (mk_taxonomies [] []) 0 1
    sample_type sample_fields [sample_slice] st sample_slice 0 sample_catalog 2 sample_query).
  - reflexivity.
  - exact sample_well_named.
  - discriminate.
  - constructor; [by apply sample_slice_type|constructor].
  - constructor; [|constructor]. apply sample_slice_ok; [done..|by vm_compute].
  - exact E.
  - rewrite <- Eq. exact sample_synopsis_passive.
  - exact sample_catalog_wf.
  - constructor; [|constructor]. constructor; [exact other_synopsis_passive|constructor].
  - reflexivity.
  - apply list_elem_of_here.
  - by vm_compute.
  - exact sample_answerable.
  - cbn. repeat split; discriminate.
  - rewrite <- Eq. cbn. repeat split; by vm_compute.
  - by repeat constructor.
  - reflexivity.
  - by vm_compute.
Defined.

(** A schema with an enumeration, and a partition with one event of it. *)
Definition enum_type : type := t_enriched (Some [101]) [] (t_record [([99], t_enumeration [([102], 0)])]).
Definition enum_slice : table_slice list_batch := mk_table_slice true enum_type (mk_batch 1 [[d_enumeration 0]]) invalid_id 42.
Definition enum_synopsis : partition_synopsis :=
  match ingest_all (ids:=ids) sample_hash (λ _, None) [] (new_partition 1) [enum_slice] with
  | Some st => shrink_partition sample_hash sample_parameters (data_synopsis st)
  | None => sample_synopsis
  end.
(** Patterns that match themselves only. *)
Definition exact_regex (p s : list N) : bool := bool_decide (p = s).
Definition candidates (s : catalog_state.t) (e : expression) : option (list N) :=
  match catalog_state.lookup sample_hash exact_regex exact_regex (λ l, l) (mk_taxonomies [] []) 0 s e with
  | Some (value result) => Some (concat ((λ c : type * list partition_info, uuid <$> c.2) <$> result))
  | _ => None
  end.

(** Where the catalog misses partitions. An event that satisfies [b != 6ns] is not found in a
    partition with earlier and later times; [a in [/x/]] is true for an event and false for the filter
    of its partition; and two comparisons of fields with one string become a comparison of all strings,
    which leaves out enumerations. *)
Theorem catalog_misses :
  (event_holds exact_regex exact_regex sample_slice (field_pred [98] not_equal (d_time 6)) 0 = true ∧
   candidates (catalog_state.merge 2 sample_synopsis catalog_state.empty) (field_pred [98] not_equal (d_time 6)) = Some []) ∧
  (event_holds exact_regex exact_regex sample_slice (field_pred [97] in_ (d_list [d_pattern [120]])) 0 = true ∧
   candidates (catalog_state.merge 2 sample_synopsis catalog_state.empty) (field_pred [97] in_ (d_list [d_pattern [120]])) = Some []) ∧
  let query := disjunction [field_pred [99] equal (str [102]); field_pred [97] equal (str [102])] in
  event_holds exact_regex exact_regex enum_slice query 0 = true ∧
  candidates (catalog_state.merge 3 enum_synopsis catalog_state.empty) query = Some [] ∧
  candidates (catalog_state.merge 3 enum_synopsis catalog_state.empty) (field_pred [99] equal (str [102])) = Some [3].
Proof. by vm_compute. Qed.

(** The order of views of lists, which rows are compared by, is not an order: two lists of the same
    size can each be smaller than the other, and a list that is smaller need not be smaller or equal. *)
Theorem list_order_deviates :
  let xs := d_list [d_int64 1; d_int64 2] in
  let ys := d_list [d_int64 2; d_int64 1] in
  cell_evaluator.less xs ys = true ∧ cell_evaluator.less ys xs = true ∧ cell_evaluator.less_equal xs ys = false ∧
  data_ltb xs ys = true ∧ data_ltb ys xs = false.
Proof. by vm_compute. Qed.
