(* ===== verification/ContainerTheorems.v ===== *)
(** Theorems on the containers of [libvast/include/vast/detail]: the cache refines a bounded list
    of entries by recency, and the range map a function on points. *)

From stdpp Require Import gmap sorting.
From S2P Require Import Prelude LruCache RangeMap.

(** ** The cache *)

Module lru_spec.
Section lru_spec.
Context {Key Value : Type} `{Countable Key} (factory : Key → Value).

(** The abstract cache: the bound, and the entries from the most to the least recently used. *)
Record cache := mk { bound : N; recent : list (Key * Value) }.

(** The operations of the cache with their results. *)
Inductive operation :=
| op_put (key : Key) (v : Value)
| op_get_or_load (key : Key)
| op_drop (key : Key)
| op_eject (key : Key)
| op_resize (max_size : N)
| op_clear.
Inductive result :=
| r_unit
| r_value (v : option Value).

Definition touch (c : cache) key (v : Value) : cache * result :=
  (mk (bound c) (take (N.to_nat (bound c)) ((key, v) :: lru_cache.without key (recent c))),
   r_value (if bound c =? 0 then None else Some v)).
Definition load (c : cache) key : Value := default (factory key) (lru_cache.assoc key (recent c)).

Definition run (c : cache) (o : operation) : cache * result :=
  match o with
  | op_put key v => touch c key v
  | op_get_or_load key => touch c key (load c key)
  | op_drop key => (mk (bound c) (lru_cache.without key (recent c)), r_unit)
  | op_eject key => (mk (bound c) (lru_cache.without key (recent c)), r_value (Some (load c key)))
  | op_resize n => (mk n (take (N.to_nat n) (recent c)), r_unit)
  | op_clear => (mk (bound c) [], r_unit)
  end.

Definition run_cache (moved : Key → Key) (c : lru_cache.lru_cache Key Value) (o : operation) : lru_cache.lru_cache Key Value * result :=
  match o with
  | op_put key v => let r := lru_cache.put moved c key v in (r.1, r_value (lru_cache.read r.1 r.2))
  | op_get_or_load key => let r := lru_cache.get_or_load moved factory c key in (r.1, r_value (lru_cache.read r.1 r.2))
  | op_drop key => (lru_cache.drop c key, r_unit)
  | op_eject key => let r := lru_cache.eject factory c key in (r.1, r_value r.2)
  | op_resize n => (lru_cache.resize c n, r_unit)
  | op_clear => (lru_cache.clear c, r_unit)
  end.

(** A sequence of operations, with the results in order. *)
Fixpoint run_all {C} (run : C → operation → C * result) (c : C) (os : list operation) : C * list result :=
  match os with
  | [] => (c, [])
  | o :: os => let r := run c o in let rs := run_all run r.1 os in (rs.1, r.2 :: rs.2)
  end.

Definition abstraction (c : lru_cache.lru_cache Key Value) : cache := mk (lru_cache.max_size_ c) (lru_cache.entries c).

Lemma run_simulates moved c o : (∀ key, moved key = key) → lru_cache.wf c →
  lru_cache.wf (run_cache moved c o).1 ∧ run (abstraction c) o = (abstraction (run_cache moved c o).1, (run_cache moved c o).2).
Proof.
  intros Hm Hw. destruct o as [key v|key|key|key|n|]; cbn [run_cache run fst snd abstraction].
  - destruct (lru_cache.put_spec moved c key v Hw (Hm key)) as (Hw' & He & Hs & Hr). split; [done|]. unfold touch, abstraction. cbn. by rewrite He, Hs, Hr.
  - destruct (lru_cache.get_or_load_spec moved factory c key Hw (Hm key)) as (Hw' & He & Hs & Hr). split; [done|]. unfold touch, abstraction. cbn. by rewrite He, Hs, Hr.
  - destruct (lru_cache.drop_spec c key Hw) as (Hw' & He & Hs). split; [done|]. unfold abstraction. cbn. by rewrite He, Hs.
  - destruct (lru_cache.eject_spec factory c key Hw) as (Hw' & He & Hs & Hr). split; [done|]. unfold abstraction. cbn. by rewrite He, Hs, Hr.
  - destruct (lru_cache.resize_spec c n Hw) as (Hw' & He & Hs). split; [done|]. unfold abstraction. by rewrite He, Hs.
  - split; [|done]. split; [|apply N.le_0_l]. split; cbn; [constructor..|]. intros key i. rewrite lookup_empty. set_solver.
Qed.
End lru_spec.
End lru_spec.

Lemma make_wf {Key Value} `{Countable Key} max_size : lru_cache.wf (lru_cache.make (Key:=Key) (Value:=Value) max_size).
Proof. split; [|apply N.le_0_l]. split; cbn; [constructor..|]. intros key i. rewrite lookup_empty. set_solver. Qed.

(** C31: Whatever operations a cache goes through, their results and the entries are those of a list
    of entries by recency that is cut off at the bound: the list and the map of iterators stay
    consistent, no iterator dangles, and the number of entries stays within the bound. *)
Theorem lru_cache_refines {Key Value} `{Countable Key} (moved : Key → Key) (factory : Key → Value) max_size os :
  (∀ key, moved key = key) →
  let r := lru_spec.run_all (lru_spec.run_cache factory moved) (lru_cache.make max_size) os in
  lru_spec.run_all (lru_spec.run factory) (lru_spec.mk max_size []) os = (lru_spec.abstraction r.1, r.2) ∧
  lru_cache.size r.1 <= lru_cache.max_size_ r.1 ∧
  ∀ key, lru_cache.contains r.1 key = bool_decide (key ∈ (lru_cache.entries r.1).*1).
Proof.
  intros Hm. cbv zeta. change (lru_spec.mk max_size []) with (lru_spec.abstraction (lru_cache.make (Key:=Key) (Value:=Value) max_size)).
  pose proof (make_wf (Key:=Key) (Value:=Value) max_size) as Hw. revert Hw. generalize (lru_cache.make (Key:=Key) (Value:=Value) max_size) as c.
  induction os as [|o os IH]; intros c Hw; cbn [lru_spec.run_all fst snd].
  - split_and!; [done|by apply lru_cache.size_bound|intros key; by apply lru_cache.contains_keys].
  - destruct (lru_spec.run_simulates factory moved c o Hm Hw) as [Hw' ->]. cbn [fst snd]. destruct (IH _ Hw') as (-> & ? & ?). done.
Qed.

(** A cache with room for two entries: the third evicts the one that was not used again. *)
Lemma lru_cache_refines_witness :
  let os := [lru_spec.op_put 1 10; lru_spec.op_get_or_load 2; lru_spec.op_get_or_load 1; lru_spec.op_put 3 30; lru_spec.op_eject 2;
             lru_spec.op_resize 1] in
  let r := lru_spec.run_all (lru_spec.run_cache (λ k, k + 100) (λ k : N, k)) (lru_cache.make 2) os in
  lru_spec.run_all (lru_spec.run (λ k, k + 100)) (lru_spec.mk 2 []) os = (lru_spec.abstraction r.1, r.2) ∧
  lru_cache.size r.1 <= lru_cache.max_size_ r.1 ∧
  (∀ key, lru_cache.contains r.1 key = bool_decide (key ∈ (lru_cache.entries r.1).*1)) ∧
  lru_cache.entries r.1 = [(3, 30)] ∧ r.2 !! 4%nat = Some (lru_spec.r_value (Some 102)).
Proof.
  intros os r. destruct (lru_cache_refines (λ k : N, k) (λ k, k + 100) 2 os) as (H1 & H2 & H3); [done|].
  split; [exact H1|]. split; [exact H2|]. split; [exact H3|]. split; by vm_compute.
Defined.

(** ** The range map *)

(** C30: A range map with disjoint intervals is a function on points: lookup and find return the value
    at a point; insert and inject of an interval that is not empty succeed exactly if none of its points
    has a value, and then give all of them the value; erasing a point or a value removes the values of
    the entry of the point, or of the entries with the value; and erasing an interval that is not empty
    removes the values of its points, if every entry that contains the interval shares both ends with it
    or none. All of these keep the intervals disjoint. [range_map_erase_deviates] shows the interval
    that shares one end. *)
Theorem range_map_refines {Value} `{EqDecision Value} (m : range_map.range_map Value) : range_map.disjoint m →
  (∀ p, range_map.lookup m p = range_map.at_point m p ∧ (range_map.find m p).2 = range_map.at_point m p) ∧
  (∀ l r v, (l < r)%Z → let b := range_map.free m l r in
    (∃ m', range_map.insert m l r v = Some (m', b) ∧ range_map.updated m m' l r v b) ∧
    (∃ m', range_map.inject m l r v = Some (m', b) ∧ range_map.updated m m' l r v b)) ∧
  (∀ p, let r := range_map.erase_point m p in range_map.disjoint r.1 ∧ r.2 = match range_map.at_point m p with Some _ => true | None => false end ∧
    ∀ q, range_map.at_point r.1 q =
      let '(from, to, _) := range_map.find m p in if r.2 && (from <=? q)%Z && (q <? to)%Z then None else range_map.at_point m q) ∧
  (∀ l r, (l < r)%Z → Forall (range_map.cuts_well l r) m → ∃ m', range_map.erase m l r = Some m' ∧ range_map.erased m m' l r) ∧
  (∀ v, range_map.disjoint (range_map.erase_value m v) ∧
    ∀ q, range_map.at_point (range_map.erase_value m v) q =
      match range_map.at_point m q with Some w => if decide (w = v) then None else Some w | None => None end).
Proof.
  intros Hd. split_and!.
  - intros p. rewrite range_map.lookup_spec, range_map.find_spec by done. split; [done|]. unfold range_map.at_point.
    by destruct (List.find _ m).
  - intros l r v Hlr. split; [by apply range_map.insert_spec|by apply range_map.inject_spec].
  - intros p. pose proof (range_map.erase_point_spec m p Hd) as He. cbv zeta. rewrite range_map.find_spec by done. unfold range_map.at_point at 1.
    destruct (List.find _ m) as [e|]; [|by rewrite He]. destruct He as (m' & -> & Hd' & Hat). split_and!; [done|done|]. cbn [fst snd]. intros q. rewrite Hat.
    done.
  - intros l r Hlr Hc. by apply range_map.range_erase_spec.
  - intros v. by apply range_map.erase_value_spec.
Qed.

Definition sample_ranges : range_map.range_map N := [range_map.mk_entry 10 20 1; range_map.mk_entry 30 40 1].

(** Injecting 20 to 30 merges both entries, after which 15 to 35 is erased again. *)
Lemma range_map_refines_witness :
  range_map.inject sample_ranges 20 30 1 = Some ([range_map.mk_entry 10 40 1], true) ∧
  range_map.updated sample_ranges [range_map.mk_entry 10 40 1] 20 30 1 true ∧
  ∃ m', range_map.erase [range_map.mk_entry 10 40 1] 15 35 = Some m' ∧ range_map.erased [range_map.mk_entry 10 40 1] m' 15 35.
Proof.
  assert (range_map.disjoint sample_ranges) as Hd.
  { split; [|by repeat constructor]. by repeat constructor. }
  destruct (range_map_refines sample_ranges Hd) as (_ & Hi & _).
  destruct (Hi 20%Z 30%Z 1) as [_ (m' & E & Hu)]; [done|]. vm_compute in E. injection E as <-. split; [by vm_compute|].
  split; [exact Hu|]. destruct (range_map_refines [range_map.mk_entry 10 40 1] (proj1 Hu)) as (_ & _ & _ & He & _).
  apply He; [done|]. constructor; [|constructor]. intros _ _. by left.
Defined.

(** Erasing the first points of an entry leaves an empty entry behind, which still maps its
    point to the value; erasing its last points fails the assertion of [inject]. *)
Theorem range_map_erase_deviates :
  range_map.erase [range_map.mk_entry 10 20 1] 10 15 = Some [range_map.mk_entry 10 10 1; range_map.mk_entry 15 20 1] ∧
  range_map.lookup [range_map.mk_entry 10 10 1; range_map.mk_entry 15 20 1] 10 = Some 1 ∧
  ¬ range_map.disjoint [range_map.mk_entry 10 10 1; range_map.mk_entry 15 20 1] ∧
  range_map.erase [range_map.mk_entry 10 20 1] 15 20 = None.
Proof.
  split_and!; [by vm_compute..| |by vm_compute]. intros (He & _)%range_map.disjoint_cons. cbn in He. lia.
Qed.
