(* ===== verification/CodingTheorems.v ===== *)
(** Theorems on the encodings of [Coding] and the functions on strings of [Strings]: what is encoded
    or escaped is read back, and splitting, joining and replacing agree with each other. *)

From Stdlib Require Import Ascii String.
From S2P Require Import Prelude Coding Strings.

(** Decoding inverts encoding in Base64 for all bytes, whatever the uninitialised array of the
    decoder holds, and in hexadecimal; the encoder fills exactly [encoded_size] characters. The
    decoder stays within [decoded_size] bytes for all inputs whose length is a multiple of four;
    for others it writes beyond the buffer, as for two characters without padding. *)
Theorem base64_roundtrip c s : Forall is_byte s →
  base64.decode c (base64.encode s) = Some s ∧ lenN (base64.encode s) = base64.encoded_size (lenN s) ∧
  (∀ p, hex.unhexify (hex.hexify p s) = s) ∧
  (∀ t, lenN t mod 4 = 0 → base64.decode c t = Some (base64.decode_bytes c t).1) ∧
  base64.decode c (codes "Zg"%string) = None.
Proof.
  intros Hs. split_and!; [by apply base64.decode_string|by apply (base64.lenN_encode (List.length s))|intros p; by apply hex.unhexify_hexify| |].
  - intros t Ht. by apply base64.decode_fits.
  - by destruct c as [[[a0 a1] a2] a3].
Qed.

Lemma base64_roundtrip_witness :
  base64.decode (7, 7, 7, 7) (base64.encode (codes "foob"%string)) = Some (codes "foob"%string) ∧
  base64.encode (codes "foob"%string) = codes "Zm9vYg=="%string.
Proof.
  split; [|by vm_compute]. destruct (base64_roundtrip (7, 7, 7, 7) (codes "foob"%string)) as [Hd _]; [|exact Hd].
  repeat (apply list.Forall_cons_2; [done|]). apply list.Forall_nil_2.
Defined.

(** A value of 8, 16, 32 or 64 bits is encoded as variable bytes in [size] bytes, at most
    [max_size], and decoding reads back the value and the number of bytes, whatever follows. *)
Theorem varbyte_roundtrip w x rest : w ∈ [8; 16; 32; 64] → x < 2 ^ w →
  varbyte.decode w (varbyte.encode w x ++ rest) = Some (x, varbyte.size w x) ∧
  lenN (varbyte.encode w x) = varbyte.size w x ∧ varbyte.size w x <= varbyte.max_size w.
Proof.
  intros Hw Hx. destruct (varbyte.encode_length w x Hw Hx) as [Hl Hm]. split; [|done].
  rewrite varbyte.varbyte_decode_encode, Hl; [done| |done]. rewrite !elem_of_cons, elem_of_nil in Hw. lia.
Qed.

Lemma varbyte_roundtrip_witness :
  varbyte.decode 64 (varbyte.encode 64 (2 ^ 63) ++ [1; 2]) = Some (2 ^ 63, varbyte.size 64 (2 ^ 63)) ∧ varbyte.size 64 (2 ^ 63) = 10.
Proof. split; [|by vm_compute]. apply (varbyte_roundtrip 64 (2 ^ 63) [1; 2]); [right; right; right; left|done]. Defined.

(** What is escaped is read back: strings of all bytes for JSON, percent encoding and
    [byte_escape_all], and strings without backslashes for [byte_escape]. No control character is
    left in a JSON string. *)
Theorem escapes_roundtrip s : Forall is_byte s →
  json_unescape (json_escape s) = Some s ∧ Forall (λ c, iscntrl c = false) (json_escape s) ∧
  percent_unescape (percent_escape s) = Some s ∧ byte_unescape (byte_escape_all s) = Some s ∧
  (backslash ∉ s → byte_unescape (byte_escape s) = Some s).
Proof.
  intros Hs. split_and!; [by apply json_roundtrip|by apply json_no_control|..].
  - apply unescape_escape. eapply list.Forall_impl; [exact Hs|]. apply percent_inverts.
  - apply unescape_escape. eapply list.Forall_impl; [exact Hs|]. apply hex_inverts.
  - intros Hb. apply unescape_escape. rewrite list.Forall_forall in *. intros c Hc. apply print_inverts; [by apply Hs|]. by intros ->.
Qed.

Lemma escapes_roundtrip_witness :
  json_unescape (json_escape [34; 7; 200]) = Some [34; 7; 200] ∧ json_escape [34; 7; 200] = [34; 92; 34] ++ codes "\u0007"%string ++ [200; 34].
Proof. split; [|by vm_compute]. destruct (escapes_roundtrip [34; 7; 200]) as [Hd _]; [|exact Hd]. repeat (apply list.Forall_cons_2; [done|]). apply list.Forall_nil_2. Defined.

(** Splitting is inverted by joining: the pieces joined with the separator are the string, but
    for a separator at its end; with the separators included they are the string itself. There are
    at most [max_splits + 1] pieces, none of which has the separator in it if nothing is escaped and
    the number of splits is not limited. [replace_all] joins such pieces with the replacement,
    and ends unless the search string is empty, for which it never does. *)
Theorem split_joins str sep esc max_splits : sep ≠ [] →
  (∃ pieces, split str sep esc max_splits false = Some pieces ∧
    (str = join pieces sep ∨ str = join pieces sep ++ sep) ∧ lenN pieces <= max_splits + 1 ∧
    (esc = [] → lenN str <= max_splits → Forall (sep_free sep) pieces)) ∧
  (∃ pieces, split str sep esc max_splits true = Some pieces ∧ str = concat pieces) ∧
  (∀ replace, ∃ pieces, str = join pieces sep ∧ Forall (sep_free sep) pieces ∧
    replace_all (S (List.length str)) str sep replace = Some (join pieces replace)) ∧
  (∀ fuel replace, replace_all fuel str [] replace = None).
Proof.
  intros Hsep. destruct (split_spec str sep esc max_splits Hsep) as [(ps & E & Hj & Hn) Hi]. split_and!; [|done|..].
  - exists ps. split_and!; try done. intros -> Hm. by eapply split_free.
  - intros replace. destruct (replace_loop_spec (S (List.length str)) [] str sep replace Hsep) as (pieces & _ & Hp & Hf & Hr); [lia|]. eauto.
  - intros fuel replace. apply replace_diverges. lia.
Qed.

Lemma split_joins_witness :
  split (codes "a-b--c-"%string) (codes "-"%string) [] 100 false = Some [codes "a"%string; codes "b"%string; []; codes "c"%string] ∧
  ∃ pieces, split (codes "a-b--c-"%string) (codes "-"%string) [] 100 false = Some pieces ∧
    (codes "a-b--c-"%string = join pieces (codes "-"%string) ∨ codes "a-b--c-"%string = join pieces (codes "-"%string) ++ codes "-"%string) ∧
    Forall (sep_free (codes "-"%string)) pieces.
Proof.
  split; [by vm_compute|]. destruct (split_joins (codes "a-b--c-"%string) (codes "-"%string) [] 100) as [(ps & E & Hj & _ & Hf) _]; [done|].
  exists ps. split; [exact E|]. split; [exact Hj|]. by apply Hf.
Defined.

(** Escapes that do not come back: a backslash that [byte_escape] leaves alone; an extra character
    near the end, for which [byte_unescape] expects four characters; a character that differs from
    the one before it, which [double_unescape] drops. [json_unescape] leaves its input behind for a
    sequence that lacks a digit, and [split] does not see an escape at the beginning. *)
Theorem escapes_deviate :
  byte_unescape (byte_escape (codes "a\b"%string)) = Some [] ∧
  byte_unescape (byte_escape_extra (codes "a|"%string) (codes "|"%string)) = Some [] ∧
  double_unescape (double_escape (codes "ab"%string) (codes "|"%string)) (codes "|"%string) = Some (codes "a"%string) ∧
  json_unescape ([quote] ++ codes "\u123"%string ++ [quote]) = None ∧
  split (codes "\-a"%string) (codes "-"%string) (codes "\"%string) 100 false = Some [codes "\"%string; codes "a"%string] ∧
  split (codes "b\-a"%string) (codes "-"%string) (codes "\"%string) 100 false = Some [codes "b\-a"%string].
Proof. by vm_compute. Qed.
