(* ===== verification/Parser.v ===== *)
(** Parser combinators: [libvast/include/vast/concept/parseable/core], and the parsers of
    characters and literals in [libvast/include/vast/concept/parseable/string].

    A parser moves an iterator through the input and returns whether it succeeded. Here it takes
    the rest of the input and returns an attribute, with the rest behind what it consumed; also a
    parser that fails can leave the iterator behind its start. A loop that never ends is
    [loops]. *)

From Stdlib Require Import Ascii String.
From S2P Require Import Prelude Coding Strings.

Inductive outcome (A : Type) :=
| parsed (a : A) (f : list N)
| failed (f : list N)
| loops.
Arguments parsed {A}.
Arguments failed {A}.
Arguments loops {A}.

Definition parser (A : Type) : Type := list N → outcome A.

(** [operator()] for a range: the parser succeeds at the end of the input. *)
Definition parse_all {A} (p : parser A) (s : list N) : option A :=
  match p s with parsed a [] => Some a | _ => None end.

(** ** Combinators *)

Section core.
Context {A B : Type}.
Implicit Types (p : parser A) (q : parser B) (f : list N).

Definition sequence_parser p q : parser (A * B) := λ f,
  match p f with
  | parsed a f1 => match q f1 with parsed b f2 => parsed (a, b) f2 | failed _ => failed f | loops => loops end
  | failed _ => failed f
  | loops => loops
  end.

Definition choice_parser (p p' : parser A) : parser A := λ f,
  match p f with
  | parsed a f1 => parsed a f1
  | failed _ => match p' f with parsed a f2 => parsed a f2 | failed _ => failed f | loops => loops end
  | loops => loops
  end.

(** [operator->*] with a function of the attribute. *)
Definition action_parser p (fun_ : A → B) : parser B := λ f,
  match p f with parsed a f1 => parsed (fun_ a) f1 | failed f1 => failed f1 | loops => loops end.

(** [with]: a guard that returns an optional; a predicate returns its argument. *)
Definition guard_parser p (guard : A → option B) : parser B := λ f,
  match p f with
  | parsed a f1 => match guard a with Some b => parsed b f1 | None => failed f1 end
  | failed f1 => failed f1
  | loops => loops
  end.

Definition when_parser p (condition : bool) : parser A := λ f, if condition then p f else failed f.

(** The loops of [kleene_parser] and [plus_parser]; the attributes are pushed to a container. Every
    round but the last must consume input, or there is no end. *)
Fixpoint kleene_loop (fuel : nat) p f (xs : list A) : outcome (list A) :=
  match fuel with
  | O => loops
  | S fuel => match p f with parsed a f1 => kleene_loop fuel p f1 (xs ++ [a]) | failed f1 => parsed xs f1 | loops => loops end
  end.
Definition kleene_parser p : parser (list A) := λ f, kleene_loop (S (List.length f)) p f [].
Definition plus_parser p : parser (list A) := λ f,
  match p f with
  | parsed a f1 => kleene_loop (S (List.length f1)) p f1 [a]
  | failed f1 => failed f1
  | loops => loops
  end.

(** The loop of [list_parser] from the position [save] behind an element. *)
Fixpoint list_loop (fuel : nat) p q (save : list N) (xs : list A) : outcome (list A) :=
  match fuel with
  | O => loops
  | S fuel =>
      match q save with
      | parsed _ f1 => match p f1 with parsed a f2 => list_loop fuel p q f2 (xs ++ [a]) | failed _ => parsed xs save | loops => loops end
      | failed _ => parsed xs save
      | loops => loops
      end
  end.
Definition list_parser p q : parser (list A) := λ f,
  match p f with
  | parsed a f1 => list_loop (S (List.length f1)) p q f1 [a]
  | failed f1 => failed f1
  | loops => loops
  end.

(** The loop of [parse_repeat] for [n] more rounds; it returns the position and the attributes. *)
Fixpoint repeat_loop (n : nat) p f (xs : list A) : option (list N * list A) :=
  match n with
  | O => Some (f, xs)
  | S n => match p f with parsed a f1 => repeat_loop n p f1 (xs ++ [a]) | failed f1 => Some (f1, xs) | loops => None end
  end.
Definition repeat_parser (min max : nat) p : parser (list A) := λ f,
  if bool_decide (max = 0)%nat then parsed [] f
  else
    match repeat_loop max p f [] with
    | Some (f1, xs) => if bool_decide (min <= List.length xs)%nat then parsed xs f1 else failed f
    | None => loops
    end.

(** [operator-] and [operator~], which leaves a default value. *)
Definition optional_parser p : parser (option A) := λ f,
  match p f with parsed a f1 => parsed (Some a) f1 | failed f1 => parsed None f1 | loops => loops end.
Definition maybe_parser p (default : A) : parser A := λ f,
  match p f with parsed a f1 => parsed a f1 | failed f1 => parsed default f1 | loops => loops end.

Definition not_parser p : parser unit := λ f,
  match p f with parsed _ _ => failed f | failed _ => parsed tt f | loops => loops end.
Definition and_parser p : parser unit := λ f,
  match p f with parsed _ _ => parsed tt f | failed _ => failed f | loops => loops end.

(** The left parser goes on where the right one failed. *)
Definition difference_parser p q : parser A := λ f,
  match q f with parsed _ _ => failed f | failed f1 => p f1 | loops => loops end.

Definition ignore_parser p : parser unit := λ f,
  match p f with parsed _ f1 => parsed tt f1 | failed f1 => failed f1 | loops => loops end.
End core.

Definition skip_parser (n : N) : parser unit := λ f,
  if lenN f <=? n then failed f else parsed tt (drop (N.to_nat n) f).
Definition end_of_input_parser : parser unit := λ f, match f with [] => parsed tt f | _ => failed f end.

(** [>>] where one of the attributes is unused. *)
Definition sequence_left {A} (p : parser A) (q : parser unit) : parser A := action_parser (sequence_parser p q) fst.
Definition sequence_right {A} (p : parser unit) (q : parser A) : parser A := action_parser (sequence_parser p q) snd.

Declare Scope parser_scope.
Delimit Scope parser_scope with parser.
Notation "p >> q" := (sequence_parser p q) (at level 56, left associativity) : parser_scope.
Notation "p >>- q" := (sequence_left p q) (at level 56, left associativity) : parser_scope.
Notation "p ->> q" := (sequence_right p q) (at level 56, left associativity) : parser_scope.
Notation "p ->* g" := (action_parser p g) (at level 54, left associativity) : parser_scope.
Notation "p <|> q" := (choice_parser p q) (at level 58, left associativity) : parser_scope.

(** ** Characters and literals *)

Definition any_parser : parser N := λ f, match f with c :: f => parsed c f | [] => failed [] end.
(** A character that passes a test: [dynamic_char_parser], [char_class_parser] and
    [char_range_parser]. *)
Definition char_class_parser (test : N → bool) : parser N := λ f,
  match f with c :: f' => if test c then parsed c f' else failed f | [] => failed [] end.
Definition char_parser (c : N) : parser N := char_class_parser (N.eqb c).
Definition char_range_parser (from to : N) : parser N := char_class_parser (λ c, (from <=? c) && (c <=? to)).

(** The loop over the characters of a literal at the position [i]. *)
Fixpoint literal_loop (str i : list N) : option (list N) :=
  match str with
  | [] => Some i
  | x :: str => match i with [] => None | y :: i => if y =? x then literal_loop str i else None end
  end.
Definition literal_parser (str : list N) : parser unit := λ f,
  match literal_loop str f with Some i => parsed tt i | None => failed f end.

(** [operator""_p], and the conversion of characters and strings to parsers. *)
Definition chr (c : ascii) : parser unit := ignore_parser (char_parser (code c)).
Definition lit (s : string) : parser unit := literal_parser (codes s).

Definition isdigit (c : N) : bool := (48 <=? c) && (c <=? 57).
Definition isalpha (c : N) : bool := ((65 <=? c) && (c <=? 90)) || ((97 <=? c) && (c <=? 122)).
Definition isspace (c : N) : bool := (c =? 32) || ((9 <=? c) && (c <=? 13)).

Definition alnum : parser N := char_class_parser isalnum.
Definition alpha : parser N := char_class_parser isalpha.
Definition digit : parser N := char_class_parser isdigit.
Definition xdigit : parser N := char_class_parser hex.isxdigit.
Definition space : parser N := char_class_parser isspace.
Definition cntrl : parser N := char_class_parser iscntrl.
Definition printable : parser N := difference_parser any_parser cntrl.

Definition ws : parser unit := ignore_parser (kleene_parser space).
Definition identifier_char : parser N := choice_parser (choice_parser alnum (char_parser (code "_"))) (char_parser (code ".")).
Definition identifier : parser (list N) := plus_parser identifier_char.

(** The longest symbol that the input begins with; of equal ones the first. *)
Fixpoint symbol_loop {T} (symbols : list (list N * T)) (f : list N) (best : option (list N * T)) : option (list N * T) :=
  match symbols with
  | [] => best
  | (k, v) :: symbols =>
      let max_len := match best with Some (k', _) => List.length k' | None => O end in
      symbol_loop symbols f
        (if starts_with f k && bool_decide (max_len < List.length k)%nat then Some (k, v) else best)
  end.
Definition symbol_table {T} (symbols : list (list N * T)) : parser T := λ f,
  match symbol_loop symbols f None with
  | Some (k, v) => parsed v (drop (List.length k) f)
  | None => failed f
  end.

(** A choice between literals, in the order of the list. *)
Definition names_parser {A} (names : list (string * A)) : parser A :=
  match names with
  | [] => λ f, failed f
  | (s, a) :: names => foldl (λ p x, choice_parser p (action_parser (lit x.1) (λ _, x.2))) (action_parser (lit s) (λ _, a)) names
  end.

(** Strings in quotes: an escaped quote is a quote, and a doubled escape stays doubled. *)
Section quoted.
Context (quote esc : N).
Definition ignore_esc : parser unit := ignore_parser (char_parser esc).
Definition ignore_quote : parser unit := ignore_parser (char_parser quote).
(** The characters that a round of the loop appends to the string. *)
Definition str_chr : parser (list N) :=
  choice_parser
    (choice_parser
       (action_parser (sequence_right ignore_esc (char_parser quote)) (λ c, [c]))
       (action_parser (sequence_parser ignore_esc ignore_esc) (λ _, [esc; esc])))
    (action_parser (difference_parser printable (char_parser quote)) (λ c, [c])).
Definition quoted_string_parser : parser (list N) :=
  action_parser (sequence_left (sequence_right ignore_quote (kleene_parser str_chr)) ignore_quote) (@concat N).
End quoted.
Definition qqstr : parser (list N) := quoted_string_parser quote backslash.
Definition pattern_parser : parser (list N) := quoted_string_parser (code "/") backslash.

(** ** Laws *)

(** A parser stays within the input; it restores the iterator when it fails; it consumes input
    when it succeeds; it ends. *)
Class Local {A} (p : parser A) : Prop :=
  local_parser f : match p f with parsed _ f' | failed f' => ∃ k, f = k ++ f' | loops => True end.
Class Restoring {A} (p : parser A) : Prop := restoring_parser f f' : p f = failed f' → f' = f.
Class Consuming {A} (p : parser A) : Prop := consuming_parser f a f' : p f = parsed a f' → (List.length f' < List.length f)%nat.
Class Total {A} (p : parser A) : Prop := total_parser f : p f ≠ loops.

Lemma local_parsed {A} (p : parser A) `{!Local p} f a f' : p f = parsed a f' → ∃ k, f = k ++ f'.
Proof. intros E. pose proof (local_parser (p:=p) f) as H. by rewrite E in H. Qed.
Lemma local_failed {A} (p : parser A) `{!Local p} f f' : p f = failed f' → ∃ k, f = k ++ f'.
Proof. intros E. pose proof (local_parser (p:=p) f) as H. by rewrite E in H. Qed.
Lemma local_le {A} (p : parser A) `{!Local p} f a f' : p f = parsed a f' → (List.length f' <= List.length f)%nat.
Proof. intros E. destruct (local_parsed p f a f' E) as [k ->]. rewrite length_app. lia. Qed.

Lemma suffix_trans {C} (f g h : list C) : (∃ k, f = k ++ g) → (∃ k, g = k ++ h) → ∃ k, f = k ++ h.
Proof. intros [k ->] [k' ->]. exists (k ++ k'). by rewrite app_assoc. Qed.
Lemma suffix_refl {C} (f : list C) : ∃ k, f = k ++ f.
Proof. by exists []. Qed.
#[export] Hint Resolve suffix_refl suffix_trans : core.

(** Splits on the result of each parser in the goal or a hypothesis. *)
Ltac parser_cases :=
  repeat match goal with
  | |- context [match ?p ?f with parsed _ _ => _ | failed _ => _ | loops => _ end] => destruct (p f) eqn:?
  | H : context [match ?p ?f with parsed _ _ => _ | failed _ => _ | loops => _ end] |- _ => destruct (p f) eqn:?
  end; try done; simplify_eq; try done.
(** Ends a case in which a parser that ends does not. *)
Ltac parser_ends := match goal with H : ?p ?f = loops |- _ => by destruct (total_parser (p:=p) f H) end.

(** The length of what a parser leaves. *)
Ltac parser_consumes := match goal with H : ?p ?f = parsed ?a ?f' |- _ => exact (consuming_parser (p:=p) f a f' H) end.
(** Where parsers that stay within the input leave the iterator. *)
Ltac parser_local :=
  repeat match goal with
  | H : ?p ?f = parsed ?a ?f' |- _ => apply (local_parsed p) in H
  | H : ?p ?f = failed ?f' |- _ => apply (local_failed p) in H
  end; eauto.

Section instances.
Context {A B : Type} (p p' : parser A) (q : parser B).

#[export] Instance sequence_local `{!Local p, !Local q} : Local (sequence_parser p q).
Proof. intros f. unfold sequence_parser. parser_cases; parser_local. Qed.
#[export] Instance sequence_restoring : Restoring (sequence_parser p q).
Proof. intros f f'. unfold sequence_parser. intros E. by parser_cases. Qed.
#[export] Instance sequence_consuming_left `{!Consuming p, !Local q} : Consuming (sequence_parser p q).
Proof.
  intros f a f' E. unfold sequence_parser in E. parser_cases.
  match goal with H : p _ = _, H' : q _ = _ |- _ => apply consuming_parser in H; apply (local_le q) in H' end. lia.
Qed.
#[export] Instance sequence_consuming_right `{!Local p, !Consuming q} : Consuming (sequence_parser p q).
Proof.
  intros f a f' E. unfold sequence_parser in E. parser_cases.
  match goal with H : p _ = _, H' : q _ = _ |- _ => apply (local_le p) in H; apply consuming_parser in H' end. lia.
Qed.
#[export] Instance sequence_total `{!Total p, !Total q} : Total (sequence_parser p q).
Proof. intros f. unfold sequence_parser. parser_cases; parser_ends. Qed.

#[export] Instance choice_local `{!Local p, !Local p'} : Local (choice_parser p p').
Proof. intros f. unfold choice_parser. parser_cases; parser_local. Qed.
#[export] Instance choice_restoring : Restoring (choice_parser p p').
Proof. intros f f' E. unfold choice_parser in E. by parser_cases. Qed.
#[export] Instance choice_consuming `{!Consuming p, !Consuming p'} : Consuming (choice_parser p p').
Proof. intros f a f' E. unfold choice_parser in E. parser_cases; parser_consumes. Qed.
#[export] Instance choice_total `{!Total p, !Total p'} : Total (choice_parser p p').
Proof. intros f. unfold choice_parser. parser_cases; parser_ends. Qed.

#[export] Instance action_local `{!Local p} (g : A → B) : Local (action_parser p g).
Proof. intros f. unfold action_parser. parser_cases; parser_local. Qed.
#[export] Instance action_restoring `{!Restoring p} (g : A → B) : Restoring (action_parser p g).
Proof. intros f f' E. unfold action_parser in E. parser_cases. by apply restoring_parser. Qed.
#[export] Instance action_consuming `{!Consuming p} (g : A → B) : Consuming (action_parser p g).
Proof. intros f a f' E. unfold action_parser in E. parser_cases. parser_consumes. Qed.
#[export] Instance action_total `{!Total p} (g : A → B) : Total (action_parser p g).
Proof. intros f. unfold action_parser. parser_cases; parser_ends. Qed.

#[export] Instance guard_local `{!Local p} (g : A → option B) : Local (guard_parser p g).
Proof. intros f. unfold guard_parser. destruct (p f) as [a f1|f1|] eqn:E; [destruct (g a)|..]; parser_local. Qed.
#[export] Instance guard_consuming `{!Consuming p} (g : A → option B) : Consuming (guard_parser p g).
Proof. intros f b f' E. unfold guard_parser in E. destruct (p f) as [a f1|f1|] eqn:E'; [destruct (g a)|..]; simplify_eq. parser_consumes. Qed.
#[export] Instance guard_total `{!Total p} (g : A → option B) : Total (guard_parser p g).
Proof. intros f. unfold guard_parser. destruct (p f) as [a f1|f1|] eqn:E; [by destruct (g a)|done|parser_ends]. Qed.

#[export] Instance ignore_local `{!Local p} : Local (ignore_parser p).
Proof. intros f. unfold ignore_parser. parser_cases; parser_local. Qed.
#[export] Instance ignore_restoring `{!Restoring p} : Restoring (ignore_parser p).
Proof. intros f f' E. unfold ignore_parser in E. parser_cases. by apply restoring_parser. Qed.
#[export] Instance ignore_consuming `{!Consuming p} : Consuming (ignore_parser p).
Proof. intros f a f' E. unfold ignore_parser in E. parser_cases. parser_consumes. Qed.
#[export] Instance ignore_total `{!Total p} : Total (ignore_parser p).
Proof. intros f. unfold ignore_parser. parser_cases; parser_ends. Qed.

#[export] Instance optional_local `{!Local p} : Local (optional_parser p).
Proof. intros f. unfold optional_parser. parser_cases; parser_local. Qed.
#[export] Instance optional_restoring : Restoring (optional_parser p).
Proof. intros f f' E. unfold optional_parser in E. by parser_cases. Qed.
#[export] Instance optional_total `{!Total p} : Total (optional_parser p).
Proof. intros f. unfold optional_parser. parser_cases; parser_ends. Qed.
#[export] Instance maybe_local `{!Local p} a : Local (maybe_parser p a).
Proof. intros f. unfold maybe_parser. parser_cases; parser_local. Qed.
#[export] Instance maybe_restoring a : Restoring (maybe_parser p a).
Proof. intros f f' E. unfold maybe_parser in E. by parser_cases. Qed.
#[export] Instance maybe_total `{!Total p} a : Total (maybe_parser p a).
Proof. intros f. unfold maybe_parser. parser_cases; parser_ends. Qed.

#[export] Instance not_local : Local (not_parser p).
Proof. intros f. unfold not_parser. parser_cases; eauto. Qed.
#[export] Instance not_restoring : Restoring (not_parser p).
Proof. intros f f' E. unfold not_parser in E. by parser_cases. Qed.
#[export] Instance not_total `{!Total p} : Total (not_parser p).
Proof. intros f. unfold not_parser. parser_cases; parser_ends. Qed.
#[export] Instance and_local : Local (and_parser p).
Proof. intros f. unfold and_parser. parser_cases; eauto. Qed.
#[export] Instance and_restoring : Restoring (and_parser p).
Proof. intros f f' E. unfold and_parser in E. by parser_cases. Qed.
#[export] Instance and_total `{!Total p} : Total (and_parser p).
Proof. intros f. unfold and_parser. parser_cases; parser_ends. Qed.

#[export] Instance difference_local `{!Local p, !Local q} : Local (difference_parser p q).
Proof. intros f. unfold difference_parser. parser_cases; parser_local. Qed.
#[export] Instance difference_restoring `{!Restoring p, !Restoring q} : Restoring (difference_parser p q).
Proof.
  intros f f' E. unfold difference_parser in E. parser_cases.
  match goal with H : p _ = _, H' : q _ = _ |- _ => apply restoring_parser in H; apply restoring_parser in H' end. congruence.
Qed.
#[export] Instance difference_consuming `{!Consuming p, !Local q} : Consuming (difference_parser p q).
Proof.
  intros f a f' E. unfold difference_parser in E. parser_cases.
  match goal with H : p _ = _, H' : q _ = _ |- _ => apply consuming_parser in H; apply (local_failed q) in H' as [k ->] end.
  rewrite length_app. lia.
Qed.
#[export] Instance difference_total `{!Total p, !Total q} : Total (difference_parser p q).
Proof. intros f. unfold difference_parser. parser_cases; parser_ends. Qed.
End instances.

Section loops.
Context {A B : Type} (p : parser A) (q : parser B).

Lemma kleene_loop_local `{!Local p} fuel f xs :
  match kleene_loop fuel p f xs with parsed _ f' | failed f' => ∃ k, f = k ++ f' | loops => True end.
Proof. revert f xs. induction fuel as [|fuel IH]; intros f xs; cbn; [done|]. destruct (p f) as [a f1|f1|] eqn:E; [|parser_local|done]. specialize (IH f1 (xs ++ [a])). destruct (kleene_loop fuel p f1 _); parser_local. Qed.
Lemma kleene_loop_succeeds fuel f xs f' : kleene_loop fuel p f xs ≠ failed f'.
Proof. revert f xs. induction fuel as [|fuel IH]; intros f xs; cbn; [done|]. by destruct (p f). Qed.
Lemma kleene_loop_total `{!Total p, !Consuming p} fuel f xs : (List.length f < fuel)%nat → kleene_loop fuel p f xs ≠ loops.
Proof.
  revert f xs. induction fuel as [|fuel IH]; intros f xs Hf; cbn; [lia|]. destruct (p f) as [a f1|f1|] eqn:E; [|done|parser_ends].
  apply consuming_parser in E. apply IH. lia.
Qed.

#[export] Instance kleene_local `{!Local p} : Local (kleene_parser p).
Proof. intros f. apply kleene_loop_local. Qed.
#[export] Instance kleene_restoring : Restoring (kleene_parser p).
Proof. intros f f' E. by apply kleene_loop_succeeds in E. Qed.
#[export] Instance kleene_total `{!Total p, !Consuming p} : Total (kleene_parser p).
Proof. intros f. apply kleene_loop_total. lia. Qed.

#[export] Instance plus_local `{!Local p} : Local (plus_parser p).
Proof.
  intros f. unfold plus_parser. destruct (p f) as [a f1|f1|] eqn:E; [|parser_local|done].
  pose proof (kleene_loop_local (S (List.length f1)) f1 [a]) as H. destruct (kleene_loop _ p f1 [a]); parser_local.
Qed.
#[export] Instance plus_restoring `{!Restoring p} : Restoring (plus_parser p).
Proof. intros f f' E. unfold plus_parser in E. parser_cases; [by apply kleene_loop_succeeds in E|by apply restoring_parser]. Qed.
#[export] Instance plus_consuming `{!Local p, !Consuming p} : Consuming (plus_parser p).
Proof.
  intros f xs f' E. unfold plus_parser in E. destruct (p f) as [a f1|f1|] eqn:E'; [|done..]. apply consuming_parser in E'.
  pose proof (kleene_loop_local (S (List.length f1)) f1 [a]) as H. rewrite E in H. destruct H as [k ->]. rewrite length_app in E'. lia.
Qed.
#[export] Instance plus_total `{!Total p, !Consuming p} : Total (plus_parser p).
Proof. intros f. unfold plus_parser. destruct (p f) eqn:?; [|done|parser_ends]. apply kleene_loop_total. lia. Qed.

Lemma list_loop_local `{!Local p, !Local q} fuel f xs :
  match list_loop fuel p q f xs with parsed _ f' | failed f' => ∃ k, f = k ++ f' | loops => True end.
Proof.
  revert f xs. induction fuel as [|fuel IH]; intros f xs; cbn; [done|]. destruct (q f) as [b f1|f1|] eqn:Eq; [|eauto|done].
  destruct (p f1) as [a f2|f2|] eqn:Ep; [|eauto|done]. specialize (IH f2 (xs ++ [a])). destruct (list_loop fuel p q f2 _); parser_local.
Qed.
Lemma list_loop_succeeds fuel f xs f' : list_loop fuel p q f xs ≠ failed f'.
Proof. revert f xs. induction fuel as [|fuel IH]; intros f xs; cbn; [done|]. destruct (q f); [|done..]. by destruct (p _). Qed.
Lemma list_loop_total `{!Total p, !Consuming p, !Total q, !Local q} fuel f xs :
  (List.length f < fuel)%nat → list_loop fuel p q f xs ≠ loops.
Proof.
  revert f xs. induction fuel as [|fuel IH]; intros f xs Hf; cbn; [lia|]. destruct (q f) as [b f1|f1|] eqn:Eq; [|done|parser_ends].
  destruct (p f1) as [a f2|f2|] eqn:Ep; [|done|parser_ends]. apply consuming_parser in Ep. apply (local_le q) in Eq. apply IH. lia.
Qed.

#[export] Instance list_local `{!Local p, !Local q} : Local (list_parser p q).
Proof.
  intros f. unfold list_parser. destruct (p f) as [a f1|f1|] eqn:E; [|parser_local|done].
  pose proof (list_loop_local (S (List.length f1)) f1 [a]) as H. destruct (list_loop _ p q f1 [a]); parser_local.
Qed.
#[export] Instance list_restoring `{!Restoring p} : Restoring (list_parser p q).
Proof. intros f f' E. unfold list_parser in E. parser_cases; [by apply list_loop_succeeds in E|by apply restoring_parser]. Qed.
#[export] Instance list_consuming `{!Local p, !Consuming p, !Local q} : Consuming (list_parser p q).
Proof.
  intros f xs f' E. unfold list_parser in E. destruct (p f) as [a f1|f1|] eqn:E'; [|done..]. apply consuming_parser in E'.
  pose proof (list_loop_local (S (List.length f1)) f1 [a]) as H. rewrite E in H. destruct H as [k ->]. rewrite length_app in E'. lia.
Qed.
#[export] Instance list_total `{!Total p, !Consuming p, !Total q, !Local q} : Total (list_parser p q).
Proof. intros f. unfold list_parser. destruct (p f) eqn:?; [|done|parser_ends]. apply list_loop_total. lia. Qed.

Lemma repeat_loop_local `{!Local p} n f xs f' ys : repeat_loop n p f xs = Some (f', ys) → ∃ k, f = k ++ f'.
Proof.
  revert f xs. induction n as [|n IH]; intros f xs; cbn; [intros [= -> ->]; eauto|]. destruct (p f) as [a f1|f1|] eqn:E; [|intros [= <- _]; parser_local|done].
  intros H%IH. parser_local.
Qed.
Lemma repeat_loop_total `{!Total p} n f xs : repeat_loop n p f xs ≠ None.
Proof. revert f xs. induction n as [|n IH]; intros f xs; cbn; [done|]. destruct (p f) eqn:?; [apply IH|done|parser_ends]. Qed.
Lemma repeat_loop_consuming `{!Local p, !Consuming p} n f xs f' ys : repeat_loop n p f xs = Some (f', ys) →
  (List.length xs < List.length ys)%nat → (List.length f' < List.length f)%nat.
Proof.
  destruct n as [|n]; cbn; [intros [= -> ->]; lia|]. destruct (p f) as [a f1|f1|] eqn:E; [|intros [= _ <-]; lia|done].
  intros [k ->]%repeat_loop_local _. apply consuming_parser in E. rewrite length_app in E. lia.
Qed.

#[export] Instance repeat_local `{!Local p} min max : Local (repeat_parser min max p).
Proof.
  intros f. unfold repeat_parser. case_bool_decide; [eauto|]. destruct (repeat_loop max p f []) as [[f1 xs]|] eqn:E; [|done].
  apply repeat_loop_local in E. case_bool_decide; eauto.
Qed.
#[export] Instance repeat_restoring min max : Restoring (repeat_parser min max p).
Proof. intros f f' E. unfold repeat_parser in E. case_bool_decide; [done|]. destruct (repeat_loop max p f []) as [[f1 xs]|]; [|done]. case_bool_decide; by simplify_eq. Qed.
#[export] Instance repeat_total `{!Total p} min max : Total (repeat_parser min max p).
Proof.
  intros f. unfold repeat_parser. case_bool_decide; [done|]. pose proof (repeat_loop_total max f []). destruct (repeat_loop max p f []) as [[f1 xs]|]; [|done].
  by case_bool_decide.
Qed.
#[export] Instance repeat_consuming `{!Local p, !Consuming p} min max : Consuming (repeat_parser (S min) (S max) p).
Proof.
  intros f ys f' E. unfold repeat_parser in E. rewrite bool_decide_eq_false_2 in E by done.
  destruct (repeat_loop (S max) p f []) as [[f1 xs]|] eqn:El; [|done]. case_bool_decide; [|done]. simplify_eq.
  apply repeat_loop_consuming in El; [done|cbn; lia].
Qed.
End loops.

(** ** Characters *)

#[export] Instance any_local : Local any_parser.
Proof. intros [|c f]; cbn; [eauto|]. by exists [c]. Qed.
#[export] Instance any_restoring : Restoring any_parser.
Proof. intros [|c f] f'; cbn; congruence. Qed.
#[export] Instance any_consuming : Consuming any_parser.
Proof. intros [|c f] a f' E; simplify_eq/=. lia. Qed.
#[export] Instance any_total : Total any_parser.
Proof. by intros [|c f]. Qed.

#[export] Instance char_class_local test : Local (char_class_parser test).
Proof. intros [|c f]; cbn; [eauto|]. destruct (test c); eauto. by exists [c]. Qed.
#[export] Instance char_class_restoring test : Restoring (char_class_parser test).
Proof. intros [|c f] f'; cbn; [congruence|]. destruct (test c); congruence. Qed.
#[export] Instance char_class_consuming test : Consuming (char_class_parser test).
Proof. intros [|c f] a f' E; cbn in E; [done|]. destruct (test c); simplify_eq/=. lia. Qed.
#[export] Instance char_class_total test : Total (char_class_parser test).
Proof. intros [|c f]; cbn; [done|]. by destruct (test c). Qed.

Lemma literal_loop_spec str f : literal_loop str f = if starts_with f str then Some (drop (List.length str) f) else None.
Proof. revert f. induction str as [|x str IH]; intros [|y f]; try done. cbn. destruct (y =? x); [|done]. apply IH. Qed.
Lemma literal_loop_Some str f f' : literal_loop str f = Some f' ↔ f = str ++ f'.
Proof.
  rewrite literal_loop_spec. pose proof (starts_with_spec f str) as Hs. destruct (starts_with f str).
  - destruct (proj1 Hs eq_refl) as [r ->]. rewrite drop_app_length. split; [by intros [= ->]|]. by intros ->%app_inv_head.
  - split; [done|]. intros ->. discriminate (proj2 Hs (ex_intro _ f' eq_refl)).
Qed.

#[export] Instance literal_local str : Local (literal_parser str).
Proof. intros f. unfold literal_parser. destruct (literal_loop str f) eqn:E; [|eauto]. apply literal_loop_Some in E. by exists str. Qed.
#[export] Instance literal_restoring str : Restoring (literal_parser str).
Proof. intros f f'. unfold literal_parser. destruct (literal_loop str f); congruence. Qed.
#[export] Instance literal_total str : Total (literal_parser str).
Proof. intros f. unfold literal_parser. by destruct (literal_loop str f). Qed.
#[export] Instance literal_consuming x str : Consuming (literal_parser (x :: str)).
Proof.
  intros f [] f'. unfold literal_parser. destruct (literal_loop (x :: str) f) eqn:E; [|done]. intros [= <-].
  apply literal_loop_Some in E as ->. cbn. rewrite length_app. lia.
Qed.

(** ** Evaluation *)

Section evaluation.
Context {A B : Type}.
Implicit Types (p : parser A) (q : parser B) (f : list N).

Lemma sequence_parsed p q f a f1 b f2 : p f = parsed a f1 → q f1 = parsed b f2 → sequence_parser p q f = parsed (a, b) f2.
Proof. unfold sequence_parser. by intros -> ->. Qed.
Lemma sequence_failed_left p q f f1 : p f = failed f1 → sequence_parser p q f = failed f.
Proof. unfold sequence_parser. by intros ->. Qed.
Lemma sequence_failed_right p q f a f1 f2 : p f = parsed a f1 → q f1 = failed f2 → sequence_parser p q f = failed f.
Proof. unfold sequence_parser. by intros -> ->. Qed.
Lemma choice_left p p' f a f1 : p f = parsed a f1 → choice_parser p p' f = parsed a f1.
Proof. unfold choice_parser. by intros ->. Qed.
Lemma choice_right p p' f f1 a f2 : p f = failed f1 → p' f = parsed a f2 → choice_parser p p' f = parsed a f2.
Proof. unfold choice_parser. by intros -> ->. Qed.
Lemma choice_failed p p' f f1 f2 : p f = failed f1 → p' f = failed f2 → choice_parser p p' f = failed f.
Proof. unfold choice_parser. by intros -> ->. Qed.
Lemma ignore_parsed p f a f1 : p f = parsed a f1 → ignore_parser p f = parsed tt f1.
Proof. unfold ignore_parser. by intros ->. Qed.
Lemma ignore_failed p f f1 : p f = failed f1 → ignore_parser p f = failed f1.
Proof. unfold ignore_parser. by intros ->. Qed.
Lemma action_parsed p (g : A → B) f a f1 : p f = parsed a f1 → action_parser p g f = parsed (g a) f1.
Proof. unfold action_parser. by intros ->. Qed.
Lemma action_failed p (g : A → B) f f1 : p f = failed f1 → action_parser p g f = failed f1.
Proof. unfold action_parser. by intros ->. Qed.
End evaluation.

Lemma chr_parsed c f : chr c (code c :: f) = parsed tt f.
Proof. unfold chr, ignore_parser, char_parser, char_class_parser. by rewrite N.eqb_refl. Qed.
Definition starts_not (test : N → bool) (f : list N) : Prop := match f with c :: _ => test c = false | [] => True end.
Lemma char_class_failed test f : starts_not test f → char_class_parser test f = failed f.
Proof. destruct f as [|c f]; [done|]. cbn. by intros ->. Qed.
Lemma chr_failed c f : starts_not (N.eqb (code c)) f → chr c f = failed f.
Proof. intros H. unfold chr, ignore_parser, char_parser. by rewrite char_class_failed. Qed.
Lemma lit_parsed s f : lit s (codes s ++ f) = parsed tt f.
Proof. unfold lit, literal_parser. by rewrite (proj2 (literal_loop_Some (codes s) (codes s ++ f) f) eq_refl). Qed.

(** Loops over characters of a class. *)
Lemma repeat_loop_class test n cs f xs : Forall (λ c, test c = true) cs → (List.length cs <= n)%nat →
  n = List.length cs ∨ starts_not test f → repeat_loop n (char_class_parser test) (cs ++ f) xs = Some (f, xs ++ cs).
Proof.
  intros Hcs. revert n xs. induction Hcs as [|c cs Hc _ IH]; intros n xs Hn Hf.
  - rewrite app_nil_r. destruct n as [|n]; [done|]. destruct Hf as [?|Hf]; [done|]. cbn [repeat_loop app]. by rewrite char_class_failed.
  - destruct n as [|n]; [cbn in Hn; lia|]. cbn in *. rewrite Hc, IH by (lia || (destruct Hf as [[= ->]|?]; [by left|by right])). by rewrite <- app_assoc.
Qed.
Lemma kleene_loop_class test fuel cs f xs : Forall (λ c, test c = true) cs → starts_not test f → (List.length cs < fuel)%nat →
  kleene_loop fuel (char_class_parser test) (cs ++ f) xs = parsed (xs ++ cs) f.
Proof.
  intros Hcs Hf. revert fuel xs. induction Hcs as [|c cs Hc _ IH]; intros fuel xs Hl; destruct fuel as [|fuel]; try (cbn in Hl; lia); cbn in *.
  - rewrite char_class_failed by done. by rewrite app_nil_r.
  - rewrite Hc, IH by lia. by rewrite <- app_assoc.
Qed.
Lemma sequence_left_parsed {A} (p : parser A) q f a f1 b f2 : p f = parsed a f1 → q f1 = parsed b f2 → sequence_left p q f = parsed a f2.
Proof. intros H H'. unfold sequence_left. by rewrite (action_parsed _ _ _ _ _ (sequence_parsed _ _ _ _ _ _ _ H H')). Qed.
Lemma sequence_right_parsed {A} p (q : parser A) f a f1 b f2 : p f = parsed a f1 → q f1 = parsed b f2 → sequence_right p q f = parsed b f2.
Proof. intros H H'. unfold sequence_right. by rewrite (action_parsed _ _ _ _ _ (sequence_parsed _ _ _ _ _ _ _ H H')). Qed.
Lemma sequence_left_failed {A} (p : parser A) q f : (∃ f1, p f = failed f1) ∨ (∃ a f1 f2, p f = parsed a f1 ∧ q f1 = failed f2) → sequence_left p q f = failed f.
Proof.
  unfold sequence_left. intros [[f1 H]|(a & f1 & f2 & H & H')].
  - by rewrite (action_failed _ _ _ _ (sequence_failed_left _ _ _ _ H)).
  - by rewrite (action_failed _ _ _ _ (sequence_failed_right _ _ _ _ _ _ H H')).
Qed.
