(* ===== verification/ParserPeg.v ===== *)
(** The combinators of [Parser] as an implementation of parsing expression grammars.

    A grammar has a constructor for each combinator; its meaning is an expression of six
    constructors, with the usual semantics as a relation. *)

From S2P Require Import Prelude Coding Strings Parser.

(** ** Parsing expressions *)

Inductive peg :=
| g_empty
| g_char (test : N → bool)
| g_seq (g h : peg)
| g_choice (g h : peg)
| g_star (g : peg)
| g_not (g : peg).

(** [derives g f r]: [g] succeeds on [f] and leaves a rest, or fails. *)
Inductive derives : peg → list N → option (list N) → Prop :=
| d_empty f : derives g_empty f (Some f)
| d_char test c f : test c = true → derives (g_char test) (c :: f) (Some f)
| d_char_other test c f : test c = false → derives (g_char test) (c :: f) None
| d_char_end test : derives (g_char test) [] None
| d_seq g h f f' r : derives g f (Some f') → derives h f' r → derives (g_seq g h) f r
| d_seq_fails g h f : derives g f None → derives (g_seq g h) f None
| d_choice_left g h f f' : derives g f (Some f') → derives (g_choice g h) f (Some f')
| d_choice_right g h f r : derives g f None → derives h f r → derives (g_choice g h) f r
| d_star g f f' r : derives g f (Some f') → derives (g_star g) f' r → derives (g_star g) f r
| d_star_end g f : derives g f None → derives (g_star g) f (Some f)
| d_not g f f' : derives g f (Some f') → derives (g_not g) f None
| d_not_fails g f : derives g f None → derives (g_not g) f (Some f).
Create HintDb pegdb.
#[export] Hint Constructors derives : pegdb.

Lemma derives_unique g f r r' : derives g f r → derives g f r' → r = r'.
Proof.
  intros H. revert r'. induction H; intros r' H'; inversion H'; subst; try congruence;
    repeat match goal with
    | IH : ∀ r', derives ?g ?f r' → ?x = r', H : derives ?g ?f ?y |- _ => lazymatch x with y => fail | _ => pose proof (IH _ H); simplify_eq end
    end; try done; by eauto.
Qed.

(** ** Grammars *)

Inductive grammar :=
| e_any
| e_class (test : N → bool)
| e_literal (str : list N)
| e_sequence (x y : grammar)
| e_choice (x y : grammar)
| e_kleene (x : grammar)
| e_plus (x : grammar)
| e_list (x y : grammar)
| e_repeat (min max : nat) (x : grammar)
| e_optional (x : grammar)
| e_not (x : grammar)
| e_and (x : grammar)
| e_difference (x y : grammar)
| e_end.

(** The parser that the operators build. *)
Fixpoint recognizer (e : grammar) : parser unit :=
  match e with
  | e_any => ignore_parser any_parser
  | e_class test => ignore_parser (char_class_parser test)
  | e_literal str => literal_parser str
  | e_sequence x y => ignore_parser (sequence_parser (recognizer x) (recognizer y))
  | e_choice x y => choice_parser (recognizer x) (recognizer y)
  | e_kleene x => ignore_parser (kleene_parser (recognizer x))
  | e_plus x => ignore_parser (plus_parser (recognizer x))
  | e_list x y => ignore_parser (list_parser (recognizer x) (recognizer y))
  | e_repeat min max x => ignore_parser (repeat_parser min max (recognizer x))
  | e_optional x => ignore_parser (optional_parser (recognizer x))
  | e_not x => not_parser (recognizer x)
  | e_and x => and_parser (recognizer x)
  | e_difference x y => difference_parser (recognizer x) (recognizer y)
  | e_end => end_of_input_parser
  end.

Fixpoint g_literal (str : list N) : peg :=
  match str with [] => g_empty | c :: str => g_seq (g_char (N.eqb c)) (g_literal str) end.
Fixpoint g_exactly (n : nat) (g : peg) : peg := match n with O => g_empty | S n => g_seq g (g_exactly n g) end.
Fixpoint g_up_to (n : nat) (g : peg) : peg := match n with O => g_empty | S n => g_choice (g_seq g (g_up_to n g)) g_empty end.

(** What a grammar means. *)
Fixpoint meaning (e : grammar) : peg :=
  match e with
  | e_any => g_char (λ _, true)
  | e_class test => g_char test
  | e_literal str => g_literal str
  | e_sequence x y => g_seq (meaning x) (meaning y)
  | e_choice x y => g_choice (meaning x) (meaning y)
  | e_kleene x => g_star (meaning x)
  | e_plus x => g_seq (meaning x) (g_star (meaning x))
  | e_list x y => g_seq (meaning x) (g_star (g_seq (meaning y) (meaning x)))
  | e_repeat min max x => g_seq (g_exactly min (meaning x)) (g_up_to (max - min) (meaning x))
  | e_optional x => g_choice (meaning x) g_empty
  | e_not x => g_not (meaning x)
  | e_and x => g_not (g_not (meaning x))
  | e_difference x y => g_seq (g_not (meaning y)) (meaning x)
  | e_end => g_not (g_char (λ _, true))
  end.

(** A grammar that consumes input when it succeeds, and one whose loops do. *)
Fixpoint consumes (e : grammar) : bool :=
  match e with
  | e_any | e_class _ => true
  | e_literal str => negb (bool_decide (str = []))
  | e_sequence x y => consumes x || consumes y
  | e_choice x y => consumes x && consumes y
  | e_plus x | e_list x _ | e_difference x _ => consumes x
  | e_repeat min max x => bool_decide (0 < min <= max)%nat && consumes x
  | e_kleene _ | e_optional _ | e_not _ | e_and _ | e_end => false
  end.
Fixpoint well_formed (e : grammar) : bool :=
  match e with
  | e_sequence x y | e_choice x y | e_difference x y => well_formed x && well_formed y
  | e_kleene x | e_plus x => well_formed x && consumes x
  | e_list x y => well_formed x && well_formed y && consumes x
  | e_repeat min max x => bool_decide (min <= max)%nat && well_formed x
  | e_optional x | e_not x | e_and x => well_formed x
  | e_any | e_class _ | e_literal _ | e_end => true
  end.

#[export] Instance recognizer_local e : Local (recognizer e).
Proof. induction e; cbn [recognizer]; try apply _. intros [|c f]; cbn; eauto. Qed.
Lemma recognizer_consuming e : consumes e = true → Consuming (recognizer e).
Proof.
  induction e as [| |str|x IHx y IHy|x IHx y IHy|x IHx|x IHx|x IHx y IHy|min max x IHx|x IHx|x IHx|x IHx|x IHx y IHy|]; cbn [consumes recognizer]; try done.
  - intros _. apply _.
  - intros _. apply _.
  - destruct str; [done|]. intros _. apply _.
  - intros [H|H]%orb_true_iff; [specialize (IHx H)|specialize (IHy H)]; apply _.
  - intros [H1 H2]%andb_true_iff. specialize (IHx H1). specialize (IHy H2). apply _.
  - intros H. specialize (IHx H). apply _.
  - intros H. specialize (IHx H). apply _.
  - intros [Hm%bool_decide_eq_true H]%andb_true_iff. specialize (IHx H). destruct min as [|min], max as [|max]; [lia..|]. apply _.
  - intros H. specialize (IHx H). apply _.
Qed.

(** ** The parser of a grammar *)

Section implements.

(** A parser that implements an expression on all inputs. *)
Definition implements {A} (p : parser A) (g : peg) : Prop :=
  ∀ f, (∃ a f', p f = parsed a f' ∧ derives g f (Some f')) ∨ (p f = failed f ∧ derives g f None).

Lemma implements_ignore {A} (p : parser A) g : implements p g → implements (ignore_parser p) g.
Proof. intros H f. unfold ignore_parser. destruct (H f) as [(a & f' & -> & ?)|[-> ?]]; eauto. Qed.

Context {A B : Type} (p : parser A) (q : parser B) (g h : peg) (Hp : implements p g) (Hq : implements q h).

Lemma implements_sequence : implements (sequence_parser p q) (g_seq g h).
Proof.
  intros f. unfold sequence_parser. destruct (Hp f) as [(a & f1 & -> & H1)|[-> H1]]; [|right; eauto with pegdb].
  destruct (Hq f1) as [(b & f2 & -> & H2)|[-> H2]]; [left|right]; eauto 6 with pegdb.
Qed.
Lemma implements_difference : implements (difference_parser p q) (g_seq (g_not h) g).
Proof.
  intros f. unfold difference_parser. destruct (Hq f) as [(b & f1 & -> & H1)|[-> H1]]; [right; eauto with pegdb|].
  destruct (Hp f) as [(a & f2 & -> & H2)|[-> H2]]; [left|right]; eauto 6 with pegdb.
Qed.

Lemma implements_kleene_loop `{!Consuming p} fuel f xs : (List.length f < fuel)%nat →
  ∃ ys f', kleene_loop fuel p f xs = parsed ys f' ∧ derives (g_star g) f (Some f').
Proof.
  revert f xs. induction fuel as [|fuel IH]; intros f xs Hf; [lia|]. cbn. destruct (Hp f) as [(a & f1 & E & H1)|[-> H1]]; [|eauto with pegdb].
  rewrite E. apply consuming_parser in E. destruct (IH f1 (xs ++ [a]) ltac:(lia)) as (ys & f' & -> & ?). eauto with pegdb.
Qed.
Lemma implements_kleene `{!Consuming p} : implements (kleene_parser p) (g_star g).
Proof. intros f. left. destruct (implements_kleene_loop (S (List.length f)) f [] ltac:(lia)) as (ys & f' & E & ?). eauto. Qed.
Lemma implements_plus `{!Consuming p} : implements (plus_parser p) (g_seq g (g_star g)).
Proof.
  intros f. unfold plus_parser. destruct (Hp f) as [(a & f1 & -> & H1)|[-> H1]]; [left|right; eauto with pegdb].
  destruct (implements_kleene_loop (S (List.length f1)) f1 [a] ltac:(lia)) as (ys & f' & -> & ?). eauto 6 with pegdb.
Qed.

Lemma implements_list_loop `{!Consuming p, !Local q} fuel f xs : (List.length f < fuel)%nat →
  ∃ ys f', list_loop fuel p q f xs = parsed ys f' ∧ derives (g_star (g_seq h g)) f (Some f').
Proof.
  revert f xs. induction fuel as [|fuel IH]; intros f xs Hf; [lia|]. cbn. destruct (Hq f) as [(b & f1 & Eq & H1)|[-> H1]]; [|eauto 6 with pegdb].
  rewrite Eq. destruct (Hp f1) as [(a & f2 & Ep & H2)|[-> H2]]; [|eauto 6 with pegdb]. rewrite Ep. apply consuming_parser in Ep. apply (local_le q) in Eq.
  destruct (IH f2 (xs ++ [a]) ltac:(lia)) as (ys & f' & -> & ?). eauto 6 with pegdb.
Qed.
Lemma implements_list `{!Consuming p, !Local q} : implements (list_parser p q) (g_seq g (g_star (g_seq h g))).
Proof.
  intros f. unfold list_parser. destruct (Hp f) as [(a & f1 & -> & H1)|[-> H1]]; [left|right; eauto with pegdb].
  destruct (implements_list_loop (S (List.length f1)) f1 [a] ltac:(lia)) as (ys & f' & -> & ?). eauto 6 with pegdb.
Qed.

Lemma implements_up_to n f xs : ∃ f' ys, repeat_loop n p f xs = Some (f', xs ++ ys) ∧ derives (g_up_to n g) f (Some f').
Proof.
  revert f xs. induction n as [|n IH]; intros f xs; cbn; [exists f, []; rewrite app_nil_r; eauto with pegdb|].
  destruct (Hp f) as [(a & f1 & -> & H1)|[-> H1]].
  - destruct (IH f1 (xs ++ [a])) as (f' & ys & -> & ?). exists f', ([a] ++ ys). rewrite app_assoc. eauto with pegdb.
  - exists f, []. rewrite app_nil_r. eauto 6 with pegdb.
Qed.
Lemma implements_exactly m n f xs : ∃ f' ys, repeat_loop (m + n) p f xs = Some (f', xs ++ ys) ∧
  ((m <= List.length ys)%nat ∧ derives (g_seq (g_exactly m g) (g_up_to n g)) f (Some f') ∨
   (List.length ys < m)%nat ∧ derives (g_exactly m g) f None).
Proof.
  revert f xs. induction m as [|m IH]; intros f xs.
  { destruct (implements_up_to n f xs) as (f' & ys & E & H). exists f', ys. split; [done|]. left. split; [lia|]. eauto with pegdb. }
  cbn. destruct (Hp f) as [(a & f1 & -> & H1)|[-> H1]].
  - destruct (IH f1 (xs ++ [a])) as (f' & ys & -> & H). exists f', ([a] ++ ys). rewrite app_assoc. split; [done|]. rewrite length_app. cbn.
    destruct H as [[Hl H]|[Hl H]]; [left|right]; (split; [lia|]); [|eauto with pegdb]. inversion H; subst. eauto with pegdb.
  - exists f, []. rewrite app_nil_r. split; [done|]. right. split; [cbn; lia|]. eauto with pegdb.
Qed.
Lemma implements_repeat min max : (min <= max)%nat → implements (repeat_parser min max p) (g_seq (g_exactly min g) (g_up_to (max - min) g)).
Proof.
  intros Hm f. unfold repeat_parser. case_bool_decide as Hz.
  { assert (min = 0 ∧ max = 0)%nat as [-> ->] by lia. left. cbn. eauto 6 with pegdb. }
  destruct (implements_exactly min (max - min) f []) as (f' & ys & E & H). replace (min + (max - min))%nat with max in E by lia. rewrite E. cbn [app].
  destruct H as [[Hl H]|[Hl H]].
  - rewrite bool_decide_eq_true_2 by done. eauto.
  - rewrite bool_decide_eq_false_2 by lia. right. eauto with pegdb.
Qed.
End implements.

Lemma implements_literal str : implements (literal_parser str) (g_literal str).
Proof.
  intros f. unfold literal_parser. assert (match literal_loop str f with Some i => derives (g_literal str) f (Some i) | None => derives (g_literal str) f None end) as H.
  { revert f. induction str as [|x str IH]; intros f; cbn; [eauto with pegdb|]. destruct f as [|y f]; [eauto with pegdb|].
    rewrite N.eqb_sym. destruct (x =? y) eqn:E; [|eauto with pegdb]. specialize (IH f). destruct (literal_loop str f); eauto with pegdb. }
  destruct (literal_loop str f); eauto.
Qed.

Lemma implements_class test : implements (char_class_parser test) (g_char test).
Proof. intros [|c f]; cbn; [eauto with pegdb|]. destruct (test c) eqn:?; eauto 6 with pegdb. Qed.

Lemma recognizer_implements e : well_formed e = true → implements (recognizer e) (meaning e).
Proof.
  induction e as [|test|str|x IHx y IHy|x IHx y IHy|x IHx|x IHx|x IHx y IHy|min max x IHx|x IHx|x IHx|x IHx|x IHx y IHy|]; cbn [well_formed recognizer meaning]; intros Hw;
    repeat match goal with H : _ && _ = true |- _ => apply andb_true_iff in H as [? ?] end;
    repeat match goal with H : consumes _ = true |- _ => apply recognizer_consuming in H end.
  - apply implements_ignore. exact (implements_class (λ _, true)).
  - apply implements_ignore, implements_class.
  - apply implements_literal.
  - apply implements_ignore, implements_sequence; auto.
  - intros f. unfold choice_parser. destruct (IHx ltac:(done) f) as [(a & f1 & -> & ?)|[-> ?]]; [eauto 6 with pegdb|].
    destruct (IHy ltac:(done) f) as [(b & f2 & -> & ?)|[-> ?]]; [left|right]; eauto 6 with pegdb.
  - apply implements_ignore, implements_kleene; auto.
  - apply implements_ignore, implements_plus; auto.
  - apply implements_ignore, implements_list; auto. apply _.
  - apply implements_ignore, implements_repeat; [auto|]. by apply (bool_decide_eq_true_1 _).
  - apply implements_ignore. intros f. unfold optional_parser. destruct (IHx ltac:(done) f) as [(a & f1 & -> & ?)|[-> ?]]; eauto 7 with pegdb.
  - intros f. unfold not_parser. destruct (IHx ltac:(done) f) as [(a & f1 & -> & ?)|[-> ?]]; eauto 7 with pegdb.
  - intros f. unfold and_parser. destruct (IHx ltac:(done) f) as [(a & f1 & -> & ?)|[-> ?]]; eauto 7 with pegdb.
  - apply implements_difference; auto.
  - intros [|c f]; cbn; eauto 7 with pegdb.
Qed.
