(* ===== verification/ParserNumeric.v ===== *)
(** Parsers and printers of numbers: [libvast/include/vast/concept/parseable/numeric] and
    [libvast/include/vast/concept/printable/numeric], with [printable/detail/print_numeric.hpp].

    An integral type is its width and signedness; arithmetic is reduced to the type, where the
    language leaves the overflow of wide signed types undefined. *)

From Stdlib Require Import Ascii String.
From S2P Require Import Prelude Coding Strings Parser.
#[local] Open Scope Z_scope.

Record int_type := mk_int { is_signed : bool; width : Z }.

(** The conversion to a type. *)
Definition convert (t : int_type) (z : Z) : Z :=
  let r := z mod 2 ^ width t in if is_signed t && (2 ^ (width t - 1) <=? r) then r - 2 ^ width t else r.
(** [std::numeric_limits] *)
Definition min_value (t : int_type) : Z := if is_signed t then - 2 ^ (width t - 1) else 0.
Definition max_value (t : int_type) : Z := if is_signed t then 2 ^ (width t - 1) - 1 else 2 ^ width t - 1.
Definition digits10 (t : int_type) : nat :=
  if width t =? 8 then 2 else if width t =? 16 then 4 else if width t =? 32 then 9 else if is_signed t then 18 else 19.

Definition int8 := mk_int true 8.
Definition int16 := mk_int true 16.
Definition int32 := mk_int true 32.
Definition int64 := mk_int true 64.
Definition uint8 := mk_int false 8.
Definition uint16 := mk_int false 16.
Definition uint32 := mk_int false 32.
Definition uint64 := mk_int false 64.
Definition int_types : list int_type := [int8; int16; int32; int64; uint8; uint16; uint32; uint64].

(** ** Parsing *)

Inductive radix := decimal | hexadecimal.
Definition radix_value (r : radix) : Z := match r with decimal => 10 | hexadecimal => 16 end.

Module integral_parser.
Section integral_parser.
Context (T : int_type) (MaxDigits MinDigits : nat) (Radix : radix).

Definition is_digit (c : N) : bool := match Radix with decimal => isdigit c | hexadecimal => hex.isxdigit c end.
Definition digit_value (c : N) : Z :=
  match Radix with decimal => Z.of_N c - 48 | hexadecimal => Z.of_N (hex.nibble c) end.

(** The loop of [accumulate] for at most [n] more digits; it returns the position, the value and
    the number of digits. *)
Fixpoint accumulate_loop (acc : Z → Z → Z) (n : nat) (f : list N) (a : Z) (digits : nat) : list N * Z * nat :=
  match n, f with
  | S n, c :: f' => if is_digit c then accumulate_loop acc n f' (acc a (digit_value c)) (S digits) else (f, a, digits)
  | _, _ => (f, a, digits)
  end.
Definition accumulate (acc : Z → Z → Z) : parser Z := λ f,
  match f with
  | [] => failed f
  | _ => let '(f', a, digits) := accumulate_loop acc MaxDigits f 0 0 in
         if bool_decide (MinDigits <= digits)%nat then parsed a f' else failed f'
  end.
Definition parse_pos : parser Z := accumulate (λ n x, convert T (convert T (n * radix_value Radix) + x)).
Definition parse_neg : parser Z := accumulate (λ n x, convert T (convert T (n * radix_value Radix) - x)).

(** Whether there is a minus sign, and the position behind the sign. *)
Definition parse_sign (f : list N) : bool * list N :=
  match f with c :: f' => if c =? code "-" then (true, f') else if c =? code "+" then (false, f') else (false, f) | [] => (false, f) end%N.
Definition dispatch : parser Z := λ f,
  if is_signed T then let '(minus, f') := parse_sign f in if minus then parse_neg f' else parse_pos f' else parse_pos f.
Definition parse : parser Z := λ f,
  match f with
  | [] => failed f
  | _ => match dispatch f with parsed a f' => parsed a f' | failed _ => failed f | loops => loops end
  end.
End integral_parser.
End integral_parser.

(** [parsers::integral], and the parsers of hexadecimal numbers. *)
Definition integral (T : int_type) : parser Z := integral_parser.parse T (S (digits10 T)) 1 decimal.
Definition hex_integral (T : int_type) : parser Z := integral_parser.parse T (Z.to_nat (width T / 4)) 1 hexadecimal.

(** The policies of [bool_parser], by their strings for true and false. *)
Definition bool_parser (yes no : string) : parser bool := λ f,
  match f with
  | [] => failed f
  | _ => match lit yes f with
         | parsed _ f1 => parsed true f1
         | failed f1 => match lit no f1 with parsed _ f2 => parsed false f2 | failed f2 => failed f2 | loops => loops end
         | loops => loops
         end
  end.
Definition tf : parser bool := bool_parser "T" "F".
Definition zero_one : parser bool := bool_parser "1" "0".
Definition boolean : parser bool := bool_parser "true" "false".

(** [extract] in network byte order, [byte_swap] and [byte_parser] for [2 ^ k] bytes. *)
Fixpoint extract (k : nat) (f : list N) (a : N) : option (list N * N) :=
  match k with
  | O => match f with c :: f' => Some (f', N.lor a (N.land c 255)) | [] => None end
  | S k => r ← extract k f a; extract k r.1 (N.shiftl r.2 8)
  end.
Fixpoint byte_swap (k : nat) (x : N) : N :=
  match k with
  | O => x
  | S k => let m := (2 ^ (8 * 2 ^ N.of_nat k))%N in (byte_swap k (x mod m) * m + byte_swap k (x / m))%N
  end.
Definition byte_parser (k : nat) (little_endian : bool) : parser N := λ f,
  match extract k f 0 with
  | Some (f', x) => parsed (if little_endian then byte_swap k x else x) f'
  | None => failed f
  end.

(** ** Printing *)

(** The loop of [print_numeric] writes the digits from the last one on, at most [digits10 + 1]. *)
Fixpoint digits_loop (fuel : nat) (x : Z) : list N :=
  match fuel with
  | O => []
  | S fuel => if 0 <? x then hex.byte_to_char (Z.to_N (x mod 10)) :: digits_loop fuel (x / 10) else []
  end.
Definition print_numeric (T : int_type) (x : Z) : list N :=
  if x =? 0 then [code "0"] else rev (digits_loop (S (digits10 T)) x).

Inductive sign_policy := plain | force_sign.
(** [std::log10] of a positive number, rounded down. *)
Fixpoint magnitude (fuel : nat) (x : Z) : nat :=
  match fuel with O => O | S fuel => if x <? 10 then O else S (magnitude fuel (x / 10)) end.
Definition pad (MinDigits : nat) (x : Z) : list N := replicate (MinDigits - magnitude 20 (Z.abs x) - 1) (code "0").
Definition integral_printer (T : int_type) (policy : sign_policy) (MinDigits : nat) (x : Z) : list N :=
  let '(sign, x) :=
    if is_signed T then
      if x <? 0 then ([code "-"], convert T (- x))
      else match policy with plain => ([], x) | force_sign => ([code "+"], x) end
    else ([], x) in
  sign ++ pad MinDigits x ++ print_numeric T x.
Definition print_int (T : int_type) : Z → list N := integral_printer T plain 0.

Definition bool_printer (x : bool) : list N := codes (if x then "true" else "false")%string.

(** ** Laws *)

Section laws.
Import integral_parser.
Context (T : int_type) (MaxDigits MinDigits : nat) (Radix : radix).

Lemma accumulate_loop_spec acc n f a d : ∃ ds f', f = ds ++ f' ∧
  accumulate_loop Radix acc n f a d = (f', foldl (λ a c, acc a (digit_value Radix c)) a ds, (d + List.length ds)%nat).
Proof.
  revert f a d. induction n as [|n IH]; intros f a d; [exists [], f; split; [done|]; by destruct f; cbn; rewrite Nat.add_0_r|].
  destruct f as [|c f]; cbn; [exists [], []; by cbn; rewrite Nat.add_0_r|]. destruct (is_digit Radix c); [|exists [], (c :: f); by cbn; rewrite Nat.add_0_r].
  destruct (IH f (acc a (digit_value Radix c)) (S d)) as (ds & f' & -> & E). exists (c :: ds), f'. split; [done|]. rewrite E. cbn. f_equal. lia.
Qed.

(** Digits are read up to the maximum, or to a character that is none. *)
Lemma accumulate_loop_digits acc n ds f a d : Forall (λ c, is_digit Radix c = true) ds → (List.length ds <= n)%nat →
  n = List.length ds ∨ match f with c :: _ => is_digit Radix c = false | [] => True end →
  accumulate_loop Radix acc n (ds ++ f) a d = (f, foldl (λ a c, acc a (digit_value Radix c)) a ds, (d + List.length ds)%nat).
Proof.
  intros Hds. revert n a d. induction Hds as [|c ds Hc _ IH]; intros n a d Hn Hf; cbn [app].
  - rewrite Nat.add_0_r. destruct n as [|n]; [by destruct f|]. destruct Hf as [?|Hf]; [done|]. destruct f as [|c f]; [done|]. cbn. by rewrite Hf.
  - destruct n as [|n]; [cbn in Hn; lia|]. cbn in Hn |- *. rewrite Hc, IH by (lia || (destruct Hf as [[= ->]|?]; [by left|by right])). cbn. f_equal. lia.
Qed.

#[export] Instance accumulate_local acc : Local (accumulate MaxDigits MinDigits Radix acc).
Proof.
  intros [|c f]; [cbn; eauto|]. unfold accumulate. destruct (accumulate_loop_spec acc MaxDigits (c :: f) 0 0) as (ds & f' & E & ->).
  case_bool_decide; by exists ds.
Qed.
#[export] Instance accumulate_total acc : Total (accumulate MaxDigits MinDigits Radix acc).
Proof. intros [|c f]; [done|]. unfold accumulate. destruct (accumulate_loop _ _ _ _ _ _) as [[f' a] d]. by case_bool_decide. Qed.
Lemma accumulate_consuming acc : (0 < MinDigits)%nat → Consuming (accumulate MaxDigits MinDigits Radix acc).
Proof.
  intros Hm [|c f] a f'; [done|]. unfold accumulate. destruct (accumulate_loop_spec acc MaxDigits (c :: f) 0 0) as (ds & f1 & E & ->).
  case_bool_decide as Hd; [|done]. intros [= <- <-]. rewrite E, length_app. cbn in Hd. lia.
Qed.

Lemma parse_sign_spec f : ∃ k, f = k ++ (parse_sign f).2.
Proof. unfold parse_sign. destruct f as [|c f]; [eauto|]. destruct (c =? _)%N; [by exists [c]|]. destruct (c =? _)%N; [by exists [c]|eauto]. Qed.

#[export] Instance integral_restoring : Restoring (parse T MaxDigits MinDigits Radix).
Proof. intros [|c f] f'; unfold parse; [by intros [= <-]|]. destruct (dispatch _ _ _ _ _); congruence. Qed.
#[export] Instance integral_local : Local (parse T MaxDigits MinDigits Radix).
Proof.
  intros [|c f]; unfold parse; [eauto|]. unfold dispatch. destruct (is_signed T).
  - destruct (parse_sign_spec (c :: f)) as [k Hk]. destruct (parse_sign (c :: f)) as [[] f1]; cbn [snd] in Hk; unfold parse_neg, parse_pos;
      match goal with |- context [accumulate ?a ?b ?c ?d ?e] => destruct (accumulate a b c d e) eqn:E end; eauto;
      apply local_parsed in E; [eauto|apply _|eauto|apply _].
  - unfold parse_pos. match goal with |- context [accumulate ?a ?b ?c ?d ?e] => destruct (accumulate a b c d e) eqn:E end; eauto. apply local_parsed in E; [eauto|apply _].
Qed.
#[export] Instance integral_total : Total (parse T MaxDigits MinDigits Radix).
Proof.
  intros [|c f]; unfold parse; [done|]. unfold dispatch, parse_neg, parse_pos. destruct (is_signed T); [destruct (parse_sign (c :: f)) as [[] f1]|];
    match goal with |- context [accumulate ?a ?b ?c ?d ?e] => destruct (accumulate a b c d e) eqn:E end; try done; by apply total_parser in E.
Qed.
Lemma integral_consuming : (0 < MinDigits)%nat → Consuming (parse T MaxDigits MinDigits Radix).
Proof.
  intros Hm [|c f] a f'; unfold parse; [done|]. unfold dispatch, parse_neg, parse_pos. destruct (is_signed T).
  - destruct (parse_sign_spec (c :: f)) as [k Hk]. destruct (parse_sign (c :: f)) as [[] f1]; cbn [snd] in Hk;
      match goal with |- context [accumulate ?a ?b ?c ?d ?e] => destruct (accumulate a b c d e) eqn:E end; try done; intros [= <- <-];
      apply accumulate_consuming in E; try done; apply (f_equal (@List.length N)) in Hk; rewrite length_app in Hk; lia.
  - match goal with |- context [accumulate ?a ?b ?c ?d ?e] => destruct (accumulate a b c d e) eqn:E end; try done. intros [= <- <-]. by apply accumulate_consuming in E.
Qed.
End laws.
#[export] Instance integral_consuming' T : Consuming (integral T).
Proof. apply integral_consuming. lia. Qed.

(** ** Round trips *)

Definition int_range (T : int_type) (z : Z) : Prop := min_value T <= z <= max_value T.

Lemma convert_id T z : 0 < width T → int_range T z → convert T z = z.
Proof.
  unfold int_range, min_value, max_value, convert. intros Hw Hz. assert (2 ^ width T = 2 * 2 ^ (width T - 1)) as E.
  { rewrite <- Z.pow_succ_r by lia. f_equal. lia. }
  assert (0 < 2 ^ (width T - 1)) as Hpos by (apply Z.pow_pos_nonneg; lia). destruct (is_signed T); cbn [andb].
  - destruct (Z.leb_spec 0 z).
    + rewrite Z.mod_small by lia. destruct (Z.leb_spec (2 ^ (width T - 1)) z); lia.
    + rewrite <- (Z.mod_add z 1), Z.mod_small by lia. destruct (Z.leb_spec (2 ^ (width T - 1)) (z + 1 * 2 ^ width T)); lia.
  - rewrite Z.mod_small; lia.
Qed.

(** The value of digits. *)
Definition decimal_value (a : Z) (ds : list N) : Z := foldl (λ a c, a * 10 + (Z.of_N c - 48)) a ds.
Definition is_decimal (c : N) : Prop := isdigit c = true.

Lemma is_decimal_value c : is_decimal c → 0 <= Z.of_N c - 48 <= 9.
Proof. unfold is_decimal, isdigit. intros [H1%N.leb_le H2%N.leb_le]%andb_true_iff. lia. Qed.
Lemma decimal_value_mono a ds : Forall is_decimal ds → 0 <= a → a <= decimal_value a ds.
Proof.
  intros Hds. revert a. induction Hds as [|c ds Hc _ IH]; intros a Ha; cbn; [lia|]. apply is_decimal_value in Hc.
  specialize (IH (a * 10 + (Z.of_N c - 48))). unfold decimal_value in *. lia.
Qed.

Lemma accumulate_pos T ds a : 0 < width T → Forall is_decimal ds → 0 <= a → decimal_value a ds <= max_value T →
  foldl (λ a c, convert T (convert T (a * 10) + (Z.of_N c - 48))) a ds = decimal_value a ds.
Proof.
  intros Hw Hds. revert a. induction Hds as [|c ds Hc Hds IH]; intros a Ha Hm; [done|]. cbn in *.
  pose proof (is_decimal_value c Hc) as Hv. pose proof (decimal_value_mono (a * 10 + (Z.of_N c - 48)) ds Hds ltac:(lia)) as Hmono. unfold decimal_value in Hmono.
  assert (min_value T <= 0) as Hmin. { unfold min_value. destruct (is_signed T); [|lia]. pose proof (Z.pow_nonneg 2 (width T - 1) ltac:(lia)). lia. }
  rewrite (convert_id T (a * 10)), convert_id by (done || (unfold int_range; lia)). apply IH; [lia|]. exact Hm.
Qed.
Lemma accumulate_neg T ds a : 0 < width T → Forall is_decimal ds → 0 <= a → min_value T <= - decimal_value a ds →
  foldl (λ a c, convert T (convert T (a * 10) - (Z.of_N c - 48))) (- a) ds = - decimal_value a ds.
Proof.
  intros Hw Hds. revert a. induction Hds as [|c ds Hc Hds IH]; intros a Ha Hm; [done|]. cbn in *.
  pose proof (is_decimal_value c Hc) as Hv. pose proof (decimal_value_mono (a * 10 + (Z.of_N c - 48)) ds Hds ltac:(lia)) as Hmono. unfold decimal_value in Hmono.
  assert (0 <= max_value T) as Hmax. { unfold max_value. destruct (is_signed T); [pose proof (Z.pow_pos_nonneg 2 (width T - 1) ltac:(lia) ltac:(lia))|pose proof (Z.pow_pos_nonneg 2 (width T) ltac:(lia) ltac:(lia))]; lia. }
  rewrite (convert_id T (- a * 10)), convert_id by (done || (unfold int_range; lia)).
  replace (- a * 10 - (Z.of_N c - 48)) with (- (a * 10 + (Z.of_N c - 48))) by lia. apply IH; [lia|]. exact Hm.
Qed.

(** The digits that are printed. *)
Lemma digit_char x : 0 <= x → is_decimal (hex.byte_to_char (Z.to_N (x mod 10))) ∧ Z.of_N (hex.byte_to_char (Z.to_N (x mod 10))) - 48 = x mod 10.
Proof.
  intros Hx. pose proof (Z.mod_pos_bound x 10 ltac:(lia)) as Hm. unfold hex.byte_to_char. destruct (N.ltb_spec (Z.to_N (x mod 10)) 10); [|lia].
  cbn [orb]. unfold byte_of. rewrite N.mod_small by lia. unfold is_decimal, isdigit. split; [apply andb_true_iff; split; apply N.leb_le; lia|lia].
Qed.
Lemma digits_loop_spec fuel x : 0 <= x < 10 ^ Z.of_nat fuel →
  Forall is_decimal (digits_loop fuel x) ∧ decimal_value 0 (rev (digits_loop fuel x)) = x.
Proof.
  revert x. induction fuel as [|fuel IH]; intros x Hx; cbn [digits_loop].
  - cbn in Hx. split; [constructor|cbn; lia].
  - destruct (Z.ltb_spec 0 x); [|split; [constructor|cbn; lia]].
    assert (0 <= x / 10 < 10 ^ Z.of_nat fuel) as Hx'.
    { split; [by apply Z.div_pos; lia|]. apply Z.div_lt_upper_bound; [lia|]. rewrite Nat2Z.inj_succ, Z.pow_succ_r in Hx by lia. lia. }
    destruct (IH _ Hx') as [Hf Hv]. destruct (digit_char x ltac:(lia)) as [Hd Hc]. split; [by constructor|]. cbn [rev]. unfold decimal_value in *.
    rewrite foldl_app. cbn. rewrite Hv, Hc. pose proof (Z.div_mod x 10). lia.
Qed.
Lemma length_digits_loop fuel x : (List.length (digits_loop fuel x) <= fuel)%nat.
Proof. revert x. induction fuel as [|fuel IH]; intros x; cbn; [lia|]. destruct (0 <? x); cbn; [specialize (IH (x / 10))|]; lia. Qed.

(** The types of the parsers have enough digits. *)
Definition enough_digits (T : int_type) : bool :=
  let p := 10 ^ Z.of_nat (S (digits10 T)) in (0 <? width T) && (- min_value T <? p) && (max_value T <? p).
Lemma digits10_enough T : T ∈ int_types → 0 < width T ∧ - min_value T < 10 ^ Z.of_nat (S (digits10 T)) ∧ max_value T < 10 ^ Z.of_nat (S (digits10 T)).
Proof.
  assert (forallb enough_digits int_types = true) as H by (by vm_compute). rewrite forallb_forall in H. intros HT%list_elem_of_In%H.
  apply andb_true_iff in HT as [[H1%Z.ltb_lt H2%Z.ltb_lt]%andb_true_iff H3%Z.ltb_lt]. done.
Qed.

Lemma print_numeric_spec T x : T ∈ int_types → 0 <= x <= max_value T →
  Forall is_decimal (print_numeric T x) ∧ decimal_value 0 (print_numeric T x) = x ∧ (0 < List.length (print_numeric T x) <= S (digits10 T))%nat.
Proof.
  intros HT Hx. destruct (digits10_enough T HT) as (_ & _ & Hm). unfold print_numeric. destruct (Z.eqb_spec x 0) as [->|Hn].
  { split_and!; [by constructor|done|cbn; lia..]. }
  destruct (digits_loop_spec (S (digits10 T)) x ltac:(lia)) as [Hf Hv]. split_and!.
  - by apply List.Forall_rev.
  - done.
  - rewrite length_rev. destruct (digits_loop (S (digits10 T)) x); [cbn in Hv; lia|cbn; lia].
  - rewrite length_rev. apply length_digits_loop.
Qed.

(** What is printed is parsed, up to a character that is no digit. *)
Definition no_digit (f : list N) : Prop := match f with c :: _ => isdigit c = false | [] => True end.

Lemma integral_pos T n m ds f : 0 < width T → Forall is_decimal ds → (m <= List.length ds <= n)%nat → (0 < List.length ds)%nat →
  n = List.length ds ∨ no_digit f → decimal_value 0 ds <= max_value T →
  integral_parser.parse_pos T n m decimal (ds ++ f) = parsed (decimal_value 0 ds) f.
Proof.
  intros Hw Hds Hl Hne Hf Hm. unfold integral_parser.parse_pos, integral_parser.accumulate. destruct ds as [|c ds]; [cbn in Hne; lia|].
  change ((c :: ds) ++ f) with (c :: (ds ++ f)). cbv iota. change (c :: (ds ++ f)) with ((c :: ds) ++ f).
  rewrite (accumulate_loop_digits decimal) by (done || lia). cbn [radix_value integral_parser.digit_value]. rewrite bool_decide_eq_true_2 by lia.
  rewrite accumulate_pos; done.
Qed.
Lemma integral_neg T n m ds f : 0 < width T → Forall is_decimal ds → (m <= List.length ds <= n)%nat → (0 < List.length ds)%nat →
  n = List.length ds ∨ no_digit f → min_value T <= - decimal_value 0 ds →
  integral_parser.parse_neg T n m decimal (ds ++ f) = parsed (- decimal_value 0 ds) f.
Proof.
  intros Hw Hds Hl Hne Hf Hm. unfold integral_parser.parse_neg, integral_parser.accumulate. destruct ds as [|c ds]; [cbn in Hne; lia|].
  change ((c :: ds) ++ f) with (c :: (ds ++ f)). cbv iota. change (c :: (ds ++ f)) with ((c :: ds) ++ f).
  rewrite (accumulate_loop_digits decimal) by (done || lia). cbn [radix_value integral_parser.digit_value]. rewrite bool_decide_eq_true_2 by lia.
  change 0 with (- 0) at 1. rewrite accumulate_neg; done.
Qed.

(** A sign is no digit. *)
Lemma parse_sign_digits ds f : Forall is_decimal ds → (0 < List.length ds)%nat → integral_parser.parse_sign (ds ++ f) = (false, ds ++ f).
Proof.
  intros Hds Hl. destruct Hds as [|c ds Hc _]; [cbn in Hl; lia|]. apply is_decimal_value in Hc. cbn [integral_parser.parse_sign app]. change (code "-"%char) with 45%N. change (code "+"%char) with 43%N. destruct (N.eqb_spec c 45) as [->|_]; [lia|]. destruct (N.eqb_spec c 43) as [->|_]; [lia|done].
Qed.

Lemma integral_digits T n m ds f : 0 < width T → Forall is_decimal ds → (m <= List.length ds <= n)%nat → (0 < List.length ds)%nat →
  n = List.length ds ∨ no_digit f → decimal_value 0 ds <= max_value T →
  integral_parser.parse T n m decimal (ds ++ f) = parsed (decimal_value 0 ds) f.
Proof.
  intros Hw Hds Hl Hne Hf Hm. unfold integral_parser.parse. destruct (ds ++ f) eqn:E; [destruct ds; [cbn in Hne; lia|done]|]. rewrite <- E. clear E.
  unfold integral_parser.dispatch. destruct (is_signed T); [rewrite parse_sign_digits by done|]; by rewrite integral_pos.
Qed.

Lemma integral_print T x f : T ∈ int_types → int_range T x → x ≠ min_value T ∨ is_signed T = false → no_digit f →
  integral T (print_int T x ++ f) = parsed x f.
Proof.
  intros HT Hx Hmin Hf. destruct (digits10_enough T HT) as (Hw & _ & _). unfold integral, print_int, integral_printer.
  assert (∀ y, 0 <= y <= max_value T → let ds := print_numeric T y in
    integral_parser.parse T (S (digits10 T)) 1 decimal (ds ++ f) = parsed y f ∧ (- y = x → is_signed T = true → integral_parser.parse T (S (digits10 T)) 1 decimal (code "-"%char :: ds ++ f) = parsed x f)) as H.
  { intros y Hy. destruct (print_numeric_spec T y HT Hy) as (Hd & Hv & Hl1 & Hl2). cbv zeta. split.
    - rewrite <- Hv at 2. apply integral_digits; try done; [by right|lia].
    - intros <- Hsg. unfold integral_parser.parse, integral_parser.dispatch. rewrite Hsg. cbn [integral_parser.parse_sign]. rewrite N.eqb_refl.
      rewrite <- Hv at 2. rewrite integral_neg; try done; [by right|]. rewrite Hv. apply Hx. }
  unfold pad. cbn [Nat.sub replicate app]. destruct (is_signed T) eqn:Es.
  - unfold int_range in Hx. destruct (Z.ltb_spec x 0); cbn [app].
    + destruct Hmin as [Hmin|?]; [|congruence]. assert (0 <= - x <= max_value T) as Hr. { unfold min_value, max_value in *. rewrite Es in *. lia. }
      rewrite convert_id; [|done|unfold int_range; unfold min_value in *; rewrite Es in *; lia]. apply (H (- x) Hr); [lia|done].
    + apply (H x). lia.
  - unfold int_range, min_value in Hx. rewrite Es in Hx. apply (H x). lia.
Qed.

(** A number beyond the maximum of an unsigned type is reduced to the type. *)
Lemma accumulate_convert T ds a b : is_signed T = false → a mod 2 ^ width T = b mod 2 ^ width T →
  foldl (λ a c, convert T (convert T (a * 10) + (Z.of_N c - 48))) a ds mod 2 ^ width T = decimal_value b ds mod 2 ^ width T.
Proof.
  intros Hs. unfold convert. rewrite Hs. cbn [andb]. revert a b. induction ds as [|c ds IH]; intros a b Hab; [done|]. cbn. apply IH.
  rewrite Zmod_mod, Zplus_mod_idemp_l, <- (Zplus_mod_idemp_l (a * 10)), <- (Zplus_mod_idemp_l (b * 10)), <- (Zmult_mod_idemp_l a), Hab, Zmult_mod_idemp_l. done.
Qed.
Lemma foldl_last_convert T ds a : is_signed T = false → 0 <= a < 2 ^ width T → 
  0 <= foldl (λ a c, convert T (convert T (a * 10) + (Z.of_N c - 48))) a ds < 2 ^ width T.
Proof.
  intros Hs. revert a. induction ds as [|c ds IH]; intros a Ha; [done|]. cbn [foldl]. apply IH. unfold convert. rewrite Hs. cbn [andb]. apply Z.mod_pos_bound. lia.
Qed.
Lemma integral_unsigned T ds f : T ∈ int_types → is_signed T = false → Forall is_decimal ds → (1 <= List.length ds <= S (digits10 T))%nat → no_digit f →
  integral T (ds ++ f) = parsed (convert T (decimal_value 0 ds)) f.
Proof.
  intros HT Hs Hds Hl Hf. destruct (digits10_enough T HT) as (Hw & _ & _). unfold integral, integral_parser.parse, integral_parser.dispatch. rewrite Hs.
  destruct ds as [|c ds]; [cbn in Hl; lia|]. unfold integral_parser.parse_pos, integral_parser.accumulate. cbn [app]. change (c :: (ds ++ f)) with ((c :: ds) ++ f).
  rewrite (accumulate_loop_digits decimal) by (done || lia || by right). cbn [radix_value integral_parser.digit_value]. rewrite bool_decide_eq_true_2 by lia.
  pose proof (Z.pow_pos_nonneg 2 (width T) ltac:(lia) ltac:(lia)) as Hp.
  pose proof (foldl_last_convert T (c :: ds) 0 Hs ltac:(lia)) as Hb. pose proof (accumulate_convert T (c :: ds) 0 0 Hs eq_refl) as Hm.
  rewrite (Z.mod_small _ _ Hb) in Hm. rewrite Hm. unfold convert. by rewrite Hs.
Qed.
