(* ===== verification/ParserVast.v ===== *)
(** Parsers and printers of VAST's types: addresses, subnets, ports, offsets, numbers with SI
    suffixes and UUIDs, in [libvast/include/vast/concept/parseable/vast] and
    [libvast/include/vast/concept/printable/vast].

    [inet_pton] and [inet_ntop] of the C library are parameters. *)

From Stdlib Require Import Ascii String.
From S2P Require Import Prelude Coding Strings Ip Parser ParserNumeric.
#[local] Open Scope parser_scope.

(** [>>] where both attributes are unused. *)
Notation "p >>> q" := (ignore_parser (sequence_parser p q)) (at level 56, left associativity) : parser_scope.

(** ** Addresses *)

Module ip_address_parser.
Definition dec : parser Z := guard_parser (integral_parser.parse uint16 3 1 decimal) (λ i, if (i <? 256)%Z then Some i else None).
Definition v4 : parser (Z * Z * Z * Z) := dec >>- chr "." >> dec >>- chr "." >> dec >>- chr "." >> dec.

Definition h16 : parser (list N) := repeat_parser 1 4 xdigit.
(** Hex digits and a single colon. *)
Definition h16_colon : parser unit := h16 >>> chr ":" >>> not_parser (chr ":").
Definition h16s (n : nat) : parser (list unit) := repeat_parser n n (h16 >>> chr ":").
Definition ls32 : parser unit := (h16 >>> chr ":" >>> h16) <|> ignore_parser v4.
(** The optional groups in front of the double colon. *)
Definition prefix (n : nat) : parser unit := ignore_parser (optional_parser (repeat_parser 0 n h16_colon >>> h16)).
Definition v6 : parser unit :=
  (h16s 6 >>> ls32)
  <|> (lit "::" >>> h16s 5 >>> ls32)
  <|> (ignore_parser (optional_parser h16) >>> lit "::" >>> h16s 4 >>> ls32)
  <|> (prefix 1 >>> lit "::" >>> h16s 3 >>> ls32)
  <|> (prefix 2 >>> lit "::" >>> h16s 2 >>> ls32)
  <|> (prefix 3 >>> lit "::" >>> h16 >>> chr ":" >>> ls32)
  <|> (prefix 4 >>> lit "::" >>> ls32)
  <|> (prefix 5 >>> lit "::" >>> h16)
  <|> (prefix 6 >>> lit "::").
End ip_address_parser.

Section network.
Context (inet_pton : list N → option (list N)) (inet_ntop4 inet_ntop6 : list N → option (list N)).

Definition ip_parser : parser (list N) := λ f,
  match ip_address_parser.v4 f with
  | parsed (a, b, c, d) f' => parsed (ip.v4 (Z.to_N <$> [a; b; c; d])) f'
  | failed f1 =>
      match ip_address_parser.v6 f1 with
      | parsed _ f' =>
          match inet_pton (take (List.length f - List.length f') f) with
          | Some bytes => parsed bytes f'
          | None => failed f'
          end
      | failed f' => failed f'
      | loops => loops
      end
  | loops => loops
  end.
Definition ip_printer (a : list N) : option (list N) := if ip.is_v4 a then inet_ntop4 (drop 12 a) else inet_ntop6 a.

Definition subnet_prefix : parser Z := guard_parser (integral uint8) (λ x, if (x <=? 128)%Z then Some x else None).
Definition subnet_parser : parser subnet.t :=
  (ip_parser >>- chr "/" >> subnet_prefix) ->* (λ x, subnet.make x.1 (Z.to_N x.2)).
Definition subnet_printer (s : subnet.t) : option (list N) :=
  a ← ip_printer (subnet.network s); Some (a ++ [code "/"] ++ print_int uint8 (Z.of_N (subnet.length s))).
End network.

(** ** Ports and offsets *)

Inductive port_type := icmp | tcp | udp | icmp6 | sctp | unknown.
Record port := mk_port { number : Z; port_type_of : port_type }.

Definition port_type_parser : parser port_type :=
  (lit "?" ->* λ _, unknown) <|> (lit "icmp6" ->* λ _, icmp6) <|> (lit "icmp" ->* λ _, icmp)
  <|> (lit "tcp" ->* λ _, tcp) <|> (lit "udp" ->* λ _, udp) <|> (lit "sctp" ->* λ _, sctp).
Definition port_parser : parser port := (integral uint16 >>- chr "/" >> port_type_parser) ->* (λ x, mk_port x.1 x.2).
Definition port_printer (p : port) : list N :=
  print_int uint16 (number p) ++ [code "/"] ++
  codes match port_type_of p with unknown => "?" | icmp => "icmp" | tcp => "tcp" | udp => "udp" | icmp6 => "icmp6" | sctp => "sctp" end%string.

Definition offset_parser : parser (list Z) := list_parser (integral uint32) (chr ",").
(** [print_delimited] *)
Definition print_delimited {A} (print : A → list N) (delim : list N) (xs : list A) : list N :=
  match xs with [] => [] | x :: xs => foldl (λ out y, out ++ delim ++ print y) (print x) xs end.
Definition offset_printer (o : list Z) : list N := print_delimited (print_int uint64) [code ","] o.

(** ** Numbers with SI suffixes *)

Definition si_unit (T : int_type) (suffix : string) (factor : Z) : parser Z :=
  (integral T >>- ws >>- lit suffix) ->* (λ x, convert T (x * factor)).
Definition si_parser (T : int_type) : parser Z :=
  (si_unit T "Ki" (2 ^ 10) <|> si_unit T "Mi" (2 ^ 20) <|> si_unit T "Gi" (2 ^ 30)
  <|> si_unit T "Ti" (2 ^ 40) <|> si_unit T "Pi" (2 ^ 50) <|> si_unit T "Ei" (2 ^ 60)
  <|> si_unit T "k" (10 ^ 3) <|> si_unit T "M" (10 ^ 6) <|> si_unit T "G" (10 ^ 9)
  <|> si_unit T "T" (10 ^ 12) <|> si_unit T "P" (10 ^ 15) <|> si_unit T "E" (10 ^ 18)
  <|> integral T)%Z.
Definition count : parser Z := si_parser uint64.
Definition integer : parser Z := si_parser int64.

(** ** UUIDs *)

Module uuid_parser.
Definition lookup (c : N) : N :=
  if (code "0" <=? c) && (c <=? code "9") then c - code "0"
  else if (code "a" <=? c) && (c <=? code "f") then c - code "a" + 10
  else if (code "A" <=? c) && (c <=? code "F") then c - code "A" + 10 else 255.

(** [*f++] unless the input is at its end, where the parser fails. *)
Definition next (f : list N) : option (N * list N) := match f with [] => None | c :: f => Some (c, f) end.

(** The dash in front of byte [i]; [c] is the character that was read. *)
Definition dash (i : nat) (c : N) (f : list N) (with_dashes : bool) : option (N * list N * bool) :=
  '(c, f, with_dashes) ←
    (if bool_decide (i = 4)%nat && (c =? code "-") then '(c, f) ← next f; Some (c, f, true) else Some (c, f, with_dashes));
  if with_dashes && (bool_decide (i = 6)%nat || bool_decide (i = 8)%nat || bool_decide (i = 10)%nat)
  then if negb (c =? code "-") then None else '(c, f) ← next f; Some (c, f, with_dashes)
  else Some (c, f, with_dashes).

(** The loop over the bytes from [i] on; [c] is the character that was read before it. *)
Fixpoint bytes_loop (n i : nat) (c : N) (f : list N) (with_dashes : bool) (x : list N) : option (list N * list N) :=
  match n with
  | O => Some (f, x)
  | S n =>
      '(c, f) ← (if bool_decide (i = 0)%nat then Some (c, f) else next f);
      '(c, f, with_dashes) ← dash i c f with_dashes;
      let hi := lookup c in
      '(c, f) ← next f;
      bytes_loop n (S i) c f with_dashes (x ++ [N.lor (N.shiftl hi 4 mod 256) (lookup c)])
  end.
(** The failure leaves the iterator behind what it read; the position is not kept here. *)
Definition parse (f : list N) : option (list N * list N) :=
  '(c, f) ← next f;
  let braced := c =? code "{" in
  '(c, f) ← (if braced then next f else Some (c, f));
  '(f, x) ← bytes_loop 16 0 c f false [];
  if braced then '(c, f) ← next f; if c =? code "}" then None else Some (f, x) else Some (f, x).
End uuid_parser.

Fixpoint uuid_loop (i : nat) (x : list N) : list N :=
  match x with
  | [] => []
  | b :: x =>
      [hex.byte_to_char (N.land (N.shiftr b 4) 15); hex.byte_to_char (N.land b 15)] ++
      (if bool_decide (i ∈ [3; 5; 7; 9]%nat) then [code "-"] else []) ++ uuid_loop (S i) x
  end.
Definition uuid_printer (x : list N) : list N := uuid_loop 0 x.
