(* ===== verification/ParserVastSpec.v ===== *)
(** What the parsers of [ParserVast] accept: the texts of addresses as RFC 4291 describes them; and
    the round trips of addresses, subnets, ports, offsets and UUIDs through their texts, over what
    the C library promises of [inet_ntop] and [inet_pton]. *)

From Stdlib Require Import Ascii String.
From S2P Require Import Prelude Coding Strings Ip Parser ParserNumeric ParserVast.
Import ip_address_parser.
#[local] Open Scope parser_scope.

(** ** Success and failure, whatever the attribute *)

Definition succeeds {A} (p : parser A) (f f' : list N) : Prop := ∃ a, p f = parsed a f'.
Definition fails {A} (p : parser A) (f : list N) : Prop := ∃ f', p f = failed f'.

Section outcomes.
Context {A B : Type} (p : parser A) (q : parser B).
Lemma succeeds_seq f f1 f2 : succeeds p f f1 → succeeds q f1 f2 → succeeds (p >>> q) f f2.
Proof. intros [a Ha] [b Hb]. exists tt. eapply ignore_parsed, sequence_parsed; eauto. Qed.
Lemma fails_seq_left f : fails p f → fails (p >>> q) f.
Proof. intros [f' H]. eexists. eapply ignore_failed, sequence_failed_left; eauto. Qed.
Lemma fails_seq_right f f1 : succeeds p f f1 → fails q f1 → fails (p >>> q) f.
Proof. intros [a H] [f' H']. eexists. eapply ignore_failed, sequence_failed_right; eauto. Qed.
Lemma fails_restoring `{!Restoring p} f : fails p f → p f = failed f.
Proof. intros [f' H]. by rewrite H, (restoring_parser _ _ H). Qed.
Lemma succeeds_ignore f f' : succeeds p f f' → succeeds (ignore_parser p) f f'.
Proof. intros [a H]. exists tt. by eapply ignore_parsed. Qed.
Lemma fails_ignore f : fails p f → fails (ignore_parser p) f.
Proof. intros [f' H]. eexists. by eapply ignore_failed. Qed.
Lemma succeeds_optional f f' : succeeds p f f' → succeeds (optional_parser p) f f'.
Proof. intros [a H]. exists (Some a). unfold optional_parser. by rewrite H. Qed.
Lemma fails_optional `{!Restoring p} f : fails p f → succeeds (optional_parser p) f f.
Proof. intros H%fails_restoring. exists None. unfold optional_parser. by rewrite H. Qed.
End outcomes.
Lemma succeeds_choice_left {A} (p p' : parser A) f f' : succeeds p f f' → succeeds (p <|> p') f f'.
Proof. intros [a H]. exists a. by apply choice_left. Qed.
Lemma succeeds_choice_right {A} (p p' : parser A) f f' : fails p f → succeeds p' f f' → succeeds (p <|> p') f f'.
Proof. intros [f1 H] [a H']. exists a. by eapply choice_right. Qed.
Lemma fails_choice {A} (p p' : parser A) f : fails p f → fails p' f → fails (p <|> p') f.
Proof. intros [f1 H] [f2 H']. eexists. by eapply choice_failed. Qed.
Create HintDb outcomedb.
#[export] Hint Resolve succeeds_seq fails_seq_left fails_seq_right succeeds_choice_left succeeds_choice_right fails_choice : outcomedb.

(** A repetition of a parser that restores the iterator. *)
Fixpoint succeeds_times {A} (p : parser A) (n : nat) (f f' : list N) : Prop :=
  match n with O => f = f' | S n => ∃ f1, succeeds p f f1 ∧ succeeds_times p n f1 f' end.

Lemma repeat_loop_times {A} (p : parser A) n m f f' xs : succeeds_times p n f f' → (m = 0)%nat ∨ p f' = failed f' →
  ∃ ys, repeat_loop (n + m) p f xs = Some (f', ys) ∧ List.length ys = (List.length xs + n)%nat.
Proof.
  revert f xs. induction n as [|n IH]; intros f xs Hn Hm; cbn in Hn |- *.
  - subst f. exists xs. rewrite Nat.add_0_r. split; [|done]. destruct Hm as [->|Hm]; [done|]. destruct m; cbn; [done|by rewrite Hm].
  - destruct Hn as (f1 & [a ->] & Hn). destruct (IH f1 (xs ++ [a]) Hn Hm) as (ys & -> & Hl). exists ys. split; [done|]. rewrite Hl, length_app. cbn. lia.
Qed.
Lemma succeeds_repeat {A} (p : parser A) min max n f f' : succeeds_times p n f f' → (min <= n <= max)%nat → n = max ∨ p f' = failed f' →
  succeeds (repeat_parser min max p) f f'.
Proof.
  intros Hn Hm Hf. unfold succeeds, repeat_parser. case_bool_decide; [assert (n = 0)%nat as -> by lia; cbn in Hn; subst; eauto|].
  destruct (repeat_loop_times p n (max - n) f f' [] Hn) as (ys & E & Hl); [destruct Hf; [left; lia|by right]|].
  replace (n + (max - n))%nat with max in E by lia. rewrite E. rewrite bool_decide_eq_true_2 by (cbn in Hl; lia). eauto.
Qed.
Lemma fails_repeat {A} (p : parser A) min max n f f' : succeeds_times p n f f' → (n < min <= max)%nat → p f' = failed f' →
  fails (repeat_parser min max p) f.
Proof.
  intros Hn Hm Hf. unfold fails, repeat_parser. rewrite bool_decide_eq_false_2 by lia.
  destruct (repeat_loop_times p n (max - n) f f' [] Hn) as (ys & E & Hl); [by right|].
  replace (n + (max - n))%nat with max in E by lia. rewrite E. rewrite bool_decide_eq_false_2 by (cbn in Hl; lia). eauto.
Qed.

(** ** Groups of hex digits *)

Definition group (g : list N) : Prop := (1 <= List.length g <= 4)%nat ∧ Forall (λ c, hex.isxdigit c = true) g.
Definition no_xdigit (t : list N) : Prop := starts_not hex.isxdigit t.
Definition colon : N := code ":".
(** Groups that are followed by a colon each. *)
Fixpoint colons (gs : list (list N)) (t : list N) : list N := match gs with [] => t | g :: gs => g ++ colon :: colons gs t end.

Lemma h16_group g t : group g → no_xdigit t → succeeds h16 (g ++ t) t.
Proof.
  intros [Hl Hg] Ht. unfold succeeds, h16, repeat_parser, xdigit. rewrite bool_decide_eq_false_2 by done.
  rewrite (repeat_loop_class hex.isxdigit 4 g t [] Hg) by (lia || by right). cbn [app]. rewrite bool_decide_eq_true_2 by lia. eauto.
Qed.
Lemma h16_none t : no_xdigit t → fails h16 t.
Proof. intros Ht. apply (fails_repeat xdigit 1 4 0 t t); [done|lia|]. by apply char_class_failed. Qed.
Lemma no_xdigit_colon t : no_xdigit (colon :: t).
Proof. done. Qed.
#[export] Hint Resolve h16_group h16_none no_xdigit_colon : outcomedb.

Definition h16c : parser unit := h16 >>> chr ":".
Lemma chr_colon t : succeeds (chr ":") (colon :: t) t.
Proof. exists tt. apply (chr_parsed ":"). Qed.
Lemma chr_no_colon t : starts_not (N.eqb colon) t → fails (chr ":") t.
Proof. intros Ht. eexists. by apply chr_failed. Qed.
#[export] Hint Resolve chr_colon chr_no_colon : outcomedb.

Lemma h16c_group g t : group g → succeeds h16c (g ++ colon :: t) t.
Proof. intros Hg. unfold h16c. eauto with outcomedb. Qed.
Lemma h16c_stuck_group g t : group g → no_xdigit t → starts_not (N.eqb colon) t → fails h16c (g ++ t).
Proof. intros Hg Ht Hc. unfold h16c. eauto with outcomedb. Qed.
Lemma h16c_stuck t : no_xdigit t → fails h16c t.
Proof. intros Ht. unfold h16c. eauto with outcomedb. Qed.

Lemma h16c_times gs t : Forall group gs → succeeds_times h16c (List.length gs) (colons gs t) t.
Proof. induction 1 as [|g gs Hg _ IH]; cbn; [done|]. eexists. split; [by apply h16c_group|done]. Qed.
Lemma h16s_groups gs t n : Forall group gs → n = List.length gs → succeeds (h16s n) (colons gs t) t.
Proof. intros Hg ->. apply (succeeds_repeat h16c _ _ (List.length gs)); [by apply h16c_times|lia|by left]. Qed.
Lemma h16s_stuck gs t n : Forall group gs → (List.length gs < n)%nat → fails h16c t → fails (h16s n) (colons gs t).
Proof. intros Hg Hn Ht. apply (fails_repeat h16c n n (List.length gs) _ t); [by apply h16c_times|lia|]. by apply fails_restoring; [apply _|]. Qed.

(** ** Dotted quads *)

Definition dotted (a b c d : Z) : list N :=
  print_int uint8 a ++ code "." :: print_int uint8 b ++ code "." :: print_int uint8 c ++ code "." :: print_int uint8 d.
Definition octet (a : Z) : Prop := (0 <= a < 256)%Z.

Lemma print_octet a : octet a → Forall is_decimal (print_int uint8 a) ∧ decimal_value 0 (print_int uint8 a) = a ∧ (1 <= List.length (print_int uint8 a) <= 3)%nat.
Proof.
  intros Ha. unfold octet in Ha. unfold print_int, integral_printer. cbn [is_signed uint8]. unfold pad. cbn [Nat.sub replicate app].
  destruct (print_numeric_spec uint8 a) as (H1 & H2 & H3); [by right; right; right; right; left|cbn; lia|]. done.
Qed.
Lemma octet_group a : octet a → group (print_int uint8 a).
Proof.
  intros Ha. destruct (print_octet a Ha) as (Hd & _ & Hl). split; [lia|]. eapply list.Forall_impl; [exact Hd|]. intros c Hc. unfold is_decimal, isdigit in Hc.
  unfold hex.isxdigit. apply orb_true_iff. left. apply orb_true_iff. by left.
Qed.

Lemma dec_octet a t : octet a → no_digit t → dec (print_int uint8 a ++ t) = parsed a t.
Proof.
  intros Ha Ht. destruct (print_octet a Ha) as (Hd & Hv & Hl). unfold dec, guard_parser.
  rewrite (integral_digits uint16 3 1 _ t) by (done || lia || (by right) || (rewrite Hv; unfold octet in Ha; cbn; lia)). rewrite Hv.
  unfold octet in Ha. by rewrite (proj2 (Z.ltb_lt a 256)) by lia.
Qed.
Lemma v4_dotted a b c d t : octet a → octet b → octet c → octet d → no_digit t → v4 (dotted a b c d ++ t) = parsed (a, b, c, d) t.
Proof.
  intros Ha Hb Hc Hd Ht. unfold dotted. rewrite <- !app_assoc, <- !app_comm_cons, <- !app_assoc, <- !app_comm_cons, <- !app_assoc, <- !app_comm_cons.
  unfold v4. assert (∀ t', no_digit (code "." :: t')) as Hdot by done.
  do 3 (eapply sequence_parsed; [eapply sequence_left_parsed; [|apply chr_parsed]|by apply dec_octet]). by apply dec_octet.
Qed.

Lemma no_xdigit_digit c : hex.isxdigit c = false → isdigit c = false.
Proof. unfold hex.isxdigit. by intros [[H _]%orb_false_iff _]%orb_false_iff. Qed.

(** A quad needs a dot behind its first number. *)
Lemma accumulate_loop_within (acc : Z → Z → Z) n g t a d : Forall (λ c, hex.isxdigit c = true) g → no_xdigit t →
  ∃ g', (integral_parser.accumulate_loop decimal acc n (g ++ t) a d).1.1 = g' ++ t ∧ Forall (λ c, hex.isxdigit c = true) g'.
Proof.
  intros Hg Ht. revert n a d. induction Hg as [|c g Hc Hg IH]; intros n a d.
  - exists []. split; [|done]. destruct n as [|n], t as [|c t]; try done. cbn [app integral_parser.accumulate_loop].
    change (integral_parser.is_digit decimal c) with (isdigit c). by rewrite (no_xdigit_digit c Ht).
  - destruct n as [|n]; [exists (c :: g); split; [done|by constructor]|]. cbn [app integral_parser.accumulate_loop]. destruct (integral_parser.is_digit decimal c); [apply IH|]. exists (c :: g). split; [done|by constructor].
Qed.
Lemma dec_within g t f' a : Forall (λ c, hex.isxdigit c = true) g → no_xdigit t → dec (g ++ t) = parsed a f' → ∃ g', f' = g' ++ t ∧ Forall (λ c, hex.isxdigit c = true) g'.
Proof.
  intros Hg Ht. unfold dec, guard_parser, integral_parser.parse, integral_parser.dispatch, integral_parser.parse_pos, integral_parser.accumulate. cbn [is_signed uint16].
  destruct (g ++ t) as [|c f] eqn:E; [done|]. rewrite <- E. destruct (accumulate_loop_within (λ n x, convert uint16 (convert uint16 (n * radix_value decimal) + x)) 3 g t 0 0 Hg Ht) as (g' & Hg' & Hf).
  destruct (integral_parser.accumulate_loop _ _ _ _ _ _) as [[f1 v] n]. cbn in Hg'. case_bool_decide; [|done]. case_match; [|done]. intros [= _ <-]. eauto.
Qed.
Lemma dec_total : Total dec.
Proof. apply _. Qed.
Lemma v4_none g t : Forall (λ c, hex.isxdigit c = true) g → no_xdigit t → starts_not (N.eqb (code ".")) t → fails v4 (g ++ t).
Proof.
  intros Hg Ht Hd. eexists. unfold v4. do 2 (eapply sequence_failed_left, sequence_left_failed; left; eexists). eapply sequence_failed_left, sequence_left_failed.
  destruct (dec (g ++ t)) as [a f'|f'|] eqn:E; [right|left; eauto|by apply total_parser in E].
  destruct (dec_within g t f' a Hg Ht E) as (g' & -> & Hg'). exists a, (g' ++ t), (g' ++ t). split; [done|]. apply chr_failed.
  destruct Hg' as [|c g' Hc _]; [done|]. cbn [app starts_not]. destruct (N.eqb_spec (code ".") c) as [<-|]; [by vm_compute in Hc|done].
Qed.

(** The last 32 bits. *)
Lemma ls32_groups g g' t : group g → group g' → no_xdigit t → succeeds ls32 (g ++ colon :: g' ++ t) t.
Proof. intros Hg Hg' Ht. unfold ls32. eauto 8 with outcomedb. Qed.
Lemma dotted_cons a b c d t : octet a → ∃ g t', dotted a b c d ++ t = g ++ code "." :: t' ∧ group g.
Proof. intros Ha. eexists _, _. split; [|by apply octet_group]. unfold dotted. by rewrite <- app_assoc. Qed.
Lemma h16c_stuck_dotted a b c d t : octet a → fails h16c (dotted a b c d ++ t).
Proof. intros Ha. destruct (dotted_cons a b c d t Ha) as (g & t' & -> & Hg). by apply h16c_stuck_group. Qed.
Lemma ls32_dotted a b c d t : octet a → octet b → octet c → octet d → no_digit t → succeeds ls32 (dotted a b c d ++ t) t.
Proof.
  intros Ha Hb Hc Hd Ht. unfold ls32. apply succeeds_choice_right; [|apply succeeds_ignore; eexists; by apply v4_dotted].
  by apply fails_seq_left, h16c_stuck_dotted.
Qed.
(** The end of an address: no hex digit, colon or dot follows. *)
Definition ends (t : list N) : Prop := no_xdigit t ∧ starts_not (N.eqb colon) t ∧ starts_not (N.eqb (code ".")) t.
Lemma ls32_end t : no_xdigit t → starts_not (N.eqb (code ".")) t → fails ls32 t.
Proof. intros Ht Hd. unfold ls32. apply fails_choice; [by apply fails_seq_left, h16c_stuck|]. by apply fails_ignore, (v4_none []). Qed.
Lemma ls32_group g t : group g → ends t → fails ls32 (g ++ t).
Proof. intros Hg (H1 & H2 & H3). unfold ls32. apply fails_choice; [by apply fails_seq_left, h16c_stuck_group|]. apply fails_ignore, v4_none; try done. apply Hg. Qed.
Lemma ls32_group_colon g t : group g → no_xdigit t → fails ls32 (g ++ colon :: t).
Proof.
  intros Hg Ht. unfold ls32. apply fails_choice; [eapply fails_seq_right; [by apply h16c_group|by apply h16_none]|].
  apply fails_ignore, v4_none; [apply Hg|done|done].
Qed.

(** ** Texts of v6 addresses *)

Definition double_colon : list N := [colon; colon].
(** The groups in front of a double colon, and what follows it, with the number of 16-bit groups. *)
Inductive left_text : nat → list N → Prop :=
| left_none : left_text 0 []
| left_groups gs g : Forall group gs → group g → left_text (S (List.length gs)) (colons gs g).
Inductive right_text : nat → list N → Prop :=
| right_none : right_text 0 []
| right_groups gs g : Forall group gs → group g → right_text (S (List.length gs)) (colons gs g)
| right_dotted gs a b c d : Forall group gs → octet a → octet b → octet c → octet d → right_text (2 + List.length gs) (colons gs (dotted a b c d)).
Inductive v6_text : list N → Prop :=
| v6_full s : right_text 8 s → v6_text s
| v6_short n m s s' : left_text n s → right_text m s' → (n + m <= 7)%nat → v6_text (s ++ double_colon ++ s').

Lemma colons_app gs g t : colons gs g ++ t = colons gs (g ++ t).
Proof. induction gs as [|g' gs IH]; cbn; [done|]. by rewrite <- app_assoc, <- app_comm_cons, IH. Qed.
Lemma colons_snoc gs g t : colons (gs ++ [g]) t = colons gs (g ++ colon :: t).
Proof. induction gs as [|g' gs IH]; cbn; [done|]. by rewrite IH. Qed.

(** *** The double colon and what is in front of it *)

Lemma lit_double t : succeeds (lit "::") (double_colon ++ t) t.
Proof. exists tt. apply (lit_parsed "::"). Qed.
Lemma group_cons g t : group g → ∃ c t', g ++ t = c :: t' ∧ hex.isxdigit c = true.
Proof. intros [Hl Hg]. destruct Hg as [|c g Hc _]; [cbn in Hl; lia|]. by exists c, (g ++ t). Qed.
Lemma xdigit_no_colon c : hex.isxdigit c = true → (c =? colon) = false.
Proof. intros Hc. destruct (N.eqb_spec c colon) as [->|]; [by vm_compute in Hc|done]. Qed.
Lemma group_no_colon g t : group g → starts_not (N.eqb colon) (g ++ t).
Proof. intros Hg. destruct (group_cons g t Hg) as (c & t' & -> & Hc). cbn [starts_not]. rewrite N.eqb_sym. by apply xdigit_no_colon. Qed.
Lemma lit_double_fails f : starts_not (N.eqb colon) f ∨ (∃ f', f = colon :: f' ∧ starts_not (N.eqb colon) f') → fails (lit "::") f.
Proof.
  intros H. unfold fails, lit, literal_parser. destruct (literal_loop (codes "::") f) as [f'|] eqn:E; [|eauto]. apply literal_loop_Some in E as ->.
  destruct H as [H|(f'' & [= <-] & H)]; by vm_compute in H.
Qed.

Lemma h16_colon_group g t : group g → starts_not (N.eqb colon) t → succeeds h16_colon (g ++ colon :: t) t.
Proof.
  intros Hg Ht. unfold h16_colon. eapply succeeds_seq; [by apply h16c_group|]. exists tt. unfold not_parser. by rewrite chr_failed.
Qed.
Lemma h16_colon_double g t : group g → fails h16_colon (g ++ double_colon ++ t).
Proof.
  intros Hg. unfold h16_colon. eapply fails_seq_right; [by apply h16c_group|]. eexists. unfold not_parser.
  change (colon :: t) with (code ":" :: t). by rewrite chr_parsed.
Qed.
Lemma h16_colon_times gs g t : Forall group gs → group g → succeeds_times h16_colon (List.length gs) (colons gs (g ++ t)) (g ++ t).
Proof.
  intros Hgs Hg. induction Hgs as [|g' gs Hg' Hgs IH]; cbn [succeeds_times colons List.length]; [done|]. eexists. split; [|exact IH].
  apply h16_colon_group; [done|]. destruct Hgs as [|g'' gs Hg'' _]; cbn [colons]; by apply group_no_colon.
Qed.

Lemma prefix_none n t : succeeds (prefix n) (double_colon ++ t) (double_colon ++ t).
Proof.
  apply succeeds_ignore, fails_optional; [apply _|]. apply (fails_seq_right _ _ _ (double_colon ++ t)); [|by apply h16_none].
  apply (succeeds_repeat _ 0 n 0); [done|lia|right]. apply fails_restoring; [apply _|]. unfold h16_colon. by apply fails_seq_left, fails_seq_left, h16_none.
Qed.
Lemma prefix_groups n gs g t : Forall group gs → group g → (List.length gs <= n)%nat → succeeds (prefix n) (colons gs (g ++ double_colon ++ t)) (double_colon ++ t).
Proof.
  intros Hgs Hg Hn. apply succeeds_ignore, succeeds_optional. eapply succeeds_seq; [|by apply h16_group].
  apply (succeeds_repeat _ 0 n (List.length gs)); [by apply h16_colon_times|lia|right]. apply fails_restoring; [apply _|]. by apply h16_colon_double.
Qed.
Lemma prefix_long n gs g g' gs' t : Forall group gs → group g → Forall group gs' → group g' → List.length gs = n →
  ∃ f', succeeds (prefix n) (colons gs (g ++ colon :: colons gs' (g' ++ t))) f' ∧ fails (lit "::") f'.
Proof.
  intros Hgs Hg Hgs' Hg' Hn. exists (colon :: colons gs' (g' ++ t)). split.
  - apply succeeds_ignore, succeeds_optional. eapply (succeeds_seq _ _ _ (g ++ colon :: colons gs' (g' ++ t))); [|by apply h16_group]. apply (succeeds_repeat _ 0 n (List.length gs)); [by apply h16_colon_times|lia|by left].
  - apply lit_double_fails. right. eexists. split; [done|]. destruct Hgs' as [|g'' gs' Hg'' _]; cbn [colons]; by apply group_no_colon.
Qed.

(** A parser of at most [n] groups and a double colon. *)
Definition head_ok (p : parser unit) (n : nat) : Prop := ∀ k s t, left_text k s →
  ((k <= n)%nat → succeeds p (s ++ double_colon ++ t) t) ∧ ((n < k)%nat → fails p (s ++ double_colon ++ t)).

Lemma colons_split gs n g t : Forall group gs → (n < List.length gs)%nat → ∃ gs1 g1 gs2, List.length gs1 = n ∧ Forall group gs1 ∧ group g1 ∧ Forall group gs2 ∧
  colons gs (g ++ t) = colons gs1 (g1 ++ colon :: colons gs2 (g ++ t)).
Proof.
  intros Hgs Hn. destruct (lookup_lt_is_Some_2 gs n Hn) as [g1 Hg1]. exists (take n gs), g1, (drop (S n) gs).
  rewrite length_take. split; [lia|]. split; [by apply Forall_take|]. split; [rewrite list.Forall_lookup in Hgs; by eapply Hgs|]. split; [by apply Forall_drop|].
  rewrite <- (take_drop_middle gs n g1 Hg1) at 1. clear. induction (take n gs) as [|g' gs1 IH]; cbn [app colons]; [done|]. by rewrite IH.
Qed.
Lemma head_prefix n : head_ok (prefix n >>> lit "::") (S n).
Proof.
  intros k s t [|gs g Hgs Hg].
  - split; [|lia]. intros _. eapply succeeds_seq; [apply (prefix_none n t)|apply lit_double].
  - rewrite colons_app. split; intros Hk.
    + eapply succeeds_seq; [apply prefix_groups; (done || lia)|apply lit_double].
    + destruct (colons_split gs n g (double_colon ++ t) Hgs ltac:(lia)) as (gs1 & g1 & gs2 & Hl & H1 & H2 & H3 & ->).
      destruct (prefix_long n gs1 g1 g gs2 (double_colon ++ t) H1 H2 H3 Hg Hl) as (f' & Hs & Hf). by eapply fails_seq_right.
Qed.
Lemma head_optional : head_ok (ignore_parser (optional_parser h16) >>> lit "::") 1.
Proof.
  intros k s t [|gs g Hgs Hg].
  - split; [|lia]. intros _. eapply succeeds_seq; [|apply lit_double]. apply succeeds_ignore, fails_optional; [apply _|]. by apply h16_none.
  - rewrite colons_app. split; intros Hk.
    + destruct gs; [|cbn in Hk; lia]. eapply succeeds_seq; [|apply lit_double]. apply succeeds_ignore, succeeds_optional. by apply h16_group.
    + destruct Hgs as [|g' gs Hg' Hgs]; [cbn in Hk; lia|]. eapply fails_seq_right; [apply succeeds_ignore, succeeds_optional; by apply h16_group|].
      apply lit_double_fails. right. eexists. split; [done|]. destruct Hgs as [|g'' gs Hg'' _]; cbn [colons]; by apply group_no_colon.
Qed.
Lemma head_lit : head_ok (lit "::") 0.
Proof.
  intros k s t [|gs g Hgs Hg]; [split; [intros _; apply lit_double|lia]|]. split; [lia|]. intros _. rewrite colons_app. apply lit_double_fails. left.
  destruct Hgs as [|g' gs Hg' _]; cbn [colons]; by apply group_no_colon.
Qed.

(** *** What follows the double colon *)

(** Two parsers that give the same results; sequences associate. *)
Definition parser_eq {A} (p q : parser A) : Prop := ∀ f, p f = q f.
#[export] Instance parser_eq_equivalence {A} : Equivalence (@parser_eq A).
Proof. split; [by intros p f|by intros p q H f|intros p q r H H' f; by rewrite H, H']. Qed.
#[export] Instance seq_proper {A B} : Proper (parser_eq ==> parser_eq ==> parser_eq) (λ (p : parser A) (q : parser B), p >>> q).
Proof. intros p p' Hp q q' Hq f. unfold ignore_parser, sequence_parser. rewrite Hp. destruct (p' f); [by rewrite Hq|done|done]. Qed.
#[export] Instance succeeds_proper {A} : Proper (parser_eq ==> eq ==> eq ==> iff) (@succeeds A).
Proof. intros p p' Hp f f' <- g g' <-. unfold succeeds. by rewrite (Hp f). Qed.
#[export] Instance fails_proper {A} : Proper (parser_eq ==> eq ==> iff) (@fails A).
Proof. intros p p' Hp f f' <-. unfold fails. by rewrite (Hp f). Qed.
Lemma seq_assoc {A B C} (p : parser A) (q : parser B) (r : parser C) : parser_eq (p >>> q >>> r) (p >>> (q >>> r)).
Proof. intros f. unfold ignore_parser, sequence_parser. destruct (p f) as [a f1| |]; [|done|done]. destruct (q f1) as [b f2| |]; [|done|done]. by destruct (r f2). Qed.

(** A parser of exactly [n] groups up to the end of the address, for texts that are not longer. *)
Definition tail_ok {A} (p : parser A) (n : nat) : Prop := ∀ m s t, right_text m s → ends t →
  (m = n → succeeds p (s ++ t) t) ∧ ((m < n)%nat → fails p (s ++ t)).

Lemma tail_h16 : tail_ok h16 1.
Proof.
  intros m s t Hs (Ht & Hc & Hd). split; intros Hm.
  - destruct Hs as [|gs g Hgs Hg|gs a b c d]; [done| |lia]. destruct gs; [|done]. by apply h16_group.
  - destruct Hs; [by apply h16_none|lia|lia].
Qed.
Lemma ends_no_digit t : ends t → no_digit t.
Proof. intros (Ht & _ & _). destruct t as [|c t]; [done|]. by apply no_xdigit_digit. Qed.

(** Groups, each with its colon, and the last 32 bits. *)
Lemma tail_groups {A} (p : parser A) k :
  (∀ gs t, Forall group gs → List.length gs = k → succeeds p (colons gs t) t) →
  (∀ gs t, Forall group gs → (List.length gs < k)%nat → fails h16c t → fails p (colons gs t)) → tail_ok (p >>> ls32) (2 + k).
Proof.
  intros Hp Hf m s t Hs Hends. pose proof (ends_no_digit t Hends) as Hnd. pose proof Hends as (Ht & Hc & Hd).
  destruct Hs as [|gs g Hgs Hg|gs a b c d Hgs Ha Hb Hcc Hdd]; rewrite ?colons_app; split; intros Hm; try lia.
  - destruct k as [|k]; [eapply fails_seq_right; [by apply (Hp [] t)|by apply ls32_end]|]. apply fails_seq_left, (Hf [] t); [done|cbn; lia|by apply h16c_stuck].
  - destruct (exists_last (l := gs)) as (gs0 & g0 & ->); [intros ->; cbn in Hm; lia|]. apply Forall_app in Hgs as [Hgs0 Hg0]. rewrite list.Forall_singleton in Hg0.
    rewrite length_app in Hm. cbn in Hm. rewrite colons_snoc. eapply succeeds_seq; [apply Hp; [done|lia]|by apply ls32_groups].
  - destruct (decide (List.length gs = k)); [eapply fails_seq_right; [by apply Hp|by apply ls32_group]|].
    apply fails_seq_left, Hf; [done|lia|by apply h16c_stuck_group].
  - eapply succeeds_seq; [apply Hp; [done|lia]|by apply ls32_dotted].
  - apply fails_seq_left, Hf; [done|lia|by apply h16c_stuck_dotted].
Qed.
Lemma tail_h16s k : tail_ok (h16s k >>> ls32) (2 + k).
Proof. apply tail_groups; [intros gs t Hgs Hk; by apply h16s_groups|intros gs t Hgs Hk Ht; by apply h16s_stuck]. Qed.
Lemma tail_h16c : tail_ok (h16c >>> ls32) 3.
Proof.
  apply tail_groups.
  - intros gs t Hgs Hk. destruct Hgs as [|g gs Hg Hgs]; [done|]. destruct gs; [|done]. by apply h16c_group.
  - intros gs t _ Hk Ht. by destruct gs; [|cbn in Hk; lia].
Qed.
Lemma tail_ls32 : tail_ok ls32 2.
Proof.
  intros m s t Hs Ht. destruct (tail_groups (λ f, parsed tt f) 0) with (m := m) (s := s) (t := t) as [H1 H2].
  - intros gs t' _ Hgs. destruct gs; [|done]. by exists tt.
  - intros gs t' _ Hgs. lia.
  - done.
  - done.
  - assert (parser_eq ((λ f, parsed tt f) >>> ls32) (ignore_parser ls32)) as E by (intros f; unfold ignore_parser, sequence_parser; destruct (ls32 f) eqn:El; try done; by rewrite (restoring_parser _ _ El)).
    split; intros Hm; [destruct (H1 Hm) as [a Ha]|destruct (H2 Hm) as [f' Ha]]; rewrite (E _) in Ha; unfold ignore_parser in Ha; destruct (ls32 (s ++ t)) eqn:El; inversion Ha; subst; eexists; eauto.
Qed.

(** An alternative of [v6] with a head of at most [7 - M] groups and a tail of [M] groups. *)
Definition alternative_ok (p : parser unit) (M : nat) : Prop := ∀ n m s s' t, left_text n s → right_text m s' → ends t → (n + m <= 7)%nat →
  (m = M → succeeds p (s ++ double_colon ++ s' ++ t) t) ∧ ((m < M)%nat → fails p (s ++ double_colon ++ s' ++ t)).
Lemma alternative {A} head (tail : parser A) N M : head_ok head N → tail_ok tail M → (N + M = 7)%nat → alternative_ok (head >>> tail) M.
Proof.
  intros Hh Ht HNM n m s s' t Hl Hr He Hnm. destruct (Hh n s (s' ++ t) Hl) as [Hh1 Hh2]. destruct (Ht m s' t Hr He) as [Ht1 Ht2]. split; intros Hm.
  - eapply succeeds_seq; [apply Hh1; lia|by apply Ht1].
  - destruct (decide (n <= N)%nat); [eapply fails_seq_right; [by apply Hh1|by apply Ht2]|apply fails_seq_left, Hh2; lia].
Qed.
Lemma alternative_assoc {A B} head (p : parser A) (q : parser B) N M : head_ok head N → tail_ok (p >>> q) M → (N + M = 7)%nat → alternative_ok (head >>> p >>> q) M.
Proof. intros Hh Ht HNM n m s s' t. rewrite !(seq_assoc head p q). by apply alternative with N. Qed.

(** *** The grammar of [v6] *)

Lemma full_text s t : right_text 8 s → ends t → succeeds (h16s 6 >>> ls32) (s ++ t) t.
Proof. intros Hs Ht. by apply (tail_h16s 6 8%nat s t). Qed.
Lemma full_fails n s t : left_text n s → (n <= 7)%nat → fails (h16s 6 >>> ls32) (s ++ double_colon ++ t).
Proof.
  intros [|gs g Hgs Hg] Hn; [by apply fails_seq_left, (h16s_stuck []); [done|cbn; lia|apply h16c_stuck]|]. rewrite colons_app. unfold double_colon. cbn [app].
  destruct (decide (List.length gs = 6)%nat) as [E|]; [eapply fails_seq_right; [by apply h16s_groups|by apply ls32_group_colon]|].
  rewrite <- (colons_snoc gs g (colon :: t)). destruct (decide (List.length gs = 5)%nat).
  - eapply fails_seq_right; [apply h16s_groups; [apply Forall_app; auto|rewrite length_app; cbn; lia]|by apply ls32_end].
  - apply fails_seq_left, h16s_stuck; [apply Forall_app; auto|rewrite length_app; cbn; lia|by apply h16c_stuck].
Qed.
Lemma alternative_last : alternative_ok (prefix 6 >>> lit "::") 0.
Proof.
  intros n m s s' t Hl Hr He Hnm. split; [|lia]. intros ->. inversion Hr; subst. apply (head_prefix 6 n s t Hl). lia.
Qed.

(** Each alternative takes the texts with its number of groups behind the double colon. *)
Lemma v6_short_text n m s s' t : left_text n s → right_text m s' → ends t → (n + m <= 7)%nat → succeeds v6 (s ++ double_colon ++ s' ++ t) t.
Proof.
  intros Hl Hr He Hnm. unfold v6.
  pose proof (full_fails n s (s' ++ t) Hl ltac:(lia)) as A1.
  destruct (alternative_assoc _ _ _ 0 7 head_lit (tail_h16s 5) eq_refl n m s s' t Hl Hr He Hnm) as [S7 F7].
  destruct (alternative_assoc _ _ _ 1 6 head_optional (tail_h16s 4) eq_refl n m s s' t Hl Hr He Hnm) as [S6 F6].
  destruct (alternative_assoc _ _ _ 2 5 (head_prefix 1) (tail_h16s 3) eq_refl n m s s' t Hl Hr He Hnm) as [S5 F5].
  destruct (alternative_assoc _ _ _ 3 4 (head_prefix 2) (tail_h16s 2) eq_refl n m s s' t Hl Hr He Hnm) as [S4 F4].
  destruct (alternative_assoc _ _ _ 4 3 (head_prefix 3) tail_h16c eq_refl n m s s' t Hl Hr He Hnm) as [S3 F3].
  destruct (alternative _ _ 5 2 (head_prefix 4) tail_ls32 eq_refl n m s s' t Hl Hr He Hnm) as [S2 F2].
  destruct (alternative _ _ 6 1 (head_prefix 5) tail_h16 eq_refl n m s s' t Hl Hr He Hnm) as [S1 F1].
  destruct (alternative_last n m s s' t Hl Hr He Hnm) as [S0 _].
  assert (parser_eq (prefix 3 >>> lit "::" >>> h16 >>> chr ":" >>> ls32) (prefix 3 >>> lit "::" >>> h16c >>> ls32)) as E3.
  { intros f. apply (seq_proper (prefix 3 >>> lit "::" >>> h16 >>> chr ":") _ (seq_assoc _ _ _) ls32 ls32). reflexivity. }
  rewrite <- E3 in S3, F3.
  assert (m = 0 ∨ m = 1 ∨ m = 2 ∨ m = 3 ∨ m = 4 ∨ m = 5 ∨ m = 6 ∨ m = 7)%nat as Hm by lia.
  destruct_or! Hm; repeat first
    [apply succeeds_choice_right; [repeat apply fails_choice; solve [exact A1|auto with lia]|solve [auto]]|apply succeeds_choice_left].
Qed.

(** ** Round trips *)

(** [inet_ntop] writes a dotted quad for four bytes, and one of the texts of RFC 4291 for sixteen
    bytes, which [inet_pton] reads. *)
Class Inet (inet_pton inet_ntop4 inet_ntop6 : list N → option (list N)) : Prop := {
  ntop4_dotted a b c d : a < 256 → b < 256 → c < 256 → d < 256 →
    inet_ntop4 [a; b; c; d] = Some (dotted (Z.of_N a) (Z.of_N b) (Z.of_N c) (Z.of_N d));
  ntop6_text x : ip.wf x → ∃ s, inet_ntop6 x = Some s ∧ v6_text s ∧ inet_pton s = Some x
}.

(** A text of a v6 address begins with a group or a double colon, which is no quad. *)
Lemma v6_text_start s : v6_text s → ∃ g s', s = g ++ colon :: s' ∧ Forall (λ c, hex.isxdigit c = true) g.
Proof.
  assert (∀ g gs s', Forall group gs → gs ≠ [] → ∃ g' t', colons gs g ++ s' = g' ++ colon :: t' ∧ Forall (λ c, hex.isxdigit c = true) g') as Hc.
  { intros g gs s' Hgs Hne. destruct Hgs as [|g' gs [_ Hg'] _]; [done|]. exists g', (colons gs g ++ s'). cbn [colons]. by rewrite <- app_assoc. }
  intros [s1 Hs|n m s1 s2 Hl _ _].
  - rewrite <- (app_nil_r s1). inversion Hs; subst; apply Hc; try done; by intros ->.
  - destruct Hl as [|gs g Hgs [Hl Hg]]; [by exists [], (colon :: s2)|]. destruct (decide (gs = [])) as [->|]; [|by apply Hc].
    by exists g, (colon :: s2).
Qed.
Lemma v6_text_no_v4 s t : v6_text s → v4 (s ++ t) = failed (s ++ t).
Proof.
  intros (g & s' & -> & Hg)%v6_text_start. rewrite <- app_assoc. apply fails_restoring; [apply _|]. by apply v4_none.
Qed.
Lemma v6_accepts s t : v6_text s → ends t → v6 (s ++ t) = parsed tt t.
Proof.
  intros Hs Ht. assert (succeeds v6 (s ++ t) t) as [[] H]; [|done]. destruct Hs as [s Hs|n m s s' Hl Hr Hnm].
  - unfold v6. do 8 apply succeeds_choice_left. by apply full_text.
  - rewrite <- !app_assoc. by apply (v6_short_text n m).
Qed.

Section network.
Context {pton ntop4 ntop6 : list N → option (list N)} `{!Inet pton ntop4 ntop6}.

Lemma ip_roundtrip x t : ip.wf x → ends t → ∃ s, ip_printer ntop4 ntop6 x = Some s ∧ ip_parser pton (s ++ t) = parsed x t.
Proof.
  intros Hx Ht. unfold ip_printer, ip_parser. destruct (ip.is_v4 x) eqn:E.
  - apply bool_decide_eq_true in E. destruct Hx as [Hl Hb]. rewrite <- (take_drop 12 x) in Hb. apply Forall_app in Hb as [_ Hb].
    pose proof (length_drop x 12) as Hd. rewrite Hl in Hd. assert (ip.v4 (drop 12 x) = x) as Hv by (unfold ip.v4; by rewrite <- E, take_drop).
    destruct (drop 12 x) as [|a [|b [|c [|d [|]]]]]; try done. repeat (apply list.Forall_cons in Hb as [? Hb]).
    eexists. split; [by apply ntop4_dotted|]. rewrite v4_dotted by (unfold octet; lia || by apply ends_no_digit).
    cbn [fmap list_fmap]. by rewrite !N2Z.id, Hv.
  - destruct (ntop6_text x Hx) as (s & -> & Hs & Hp). exists s. split; [done|]. rewrite v6_text_no_v4, v6_accepts by done.
    rewrite length_app, Nat.add_sub, take_app_length, Hp. done.
Qed.

Lemma subnet_length_bound s : subnet_wf s → subnet.length s <= 128.
Proof. intros (_ & Hl & _). unfold subnet.length. case_match; lia. Qed.
Lemma subnet_prefix_length n t : n <= 128 → no_digit t → subnet_prefix (print_int uint8 (Z.of_N n) ++ t) = parsed (Z.of_N n) t.
Proof.
  intros Hn Ht. unfold subnet_prefix, guard_parser. rewrite integral_print; [|by right; right; right; right; left|unfold int_range; cbn; lia|by right|done].
  by rewrite (proj2 (Z.leb_le _ 128)) by lia.
Qed.
Lemma subnet_roundtrip x t : subnet_wf x → no_digit t → ∃ s, subnet_printer ntop4 ntop6 x = Some s ∧ subnet_parser pton (s ++ t) = parsed x t.
Proof.
  intros Hx Ht. set (n := print_int uint8 (Z.of_N (subnet.length x))).
  destruct (ip_roundtrip (subnet.network x) (code "/" :: n ++ t)) as (s & Hs & Hp); [apply Hx|done|].
  unfold subnet_printer. rewrite Hs. eexists. split; [done|]. rewrite <- !app_assoc. fold n. cbn [app].
  unfold subnet_parser. rewrite (action_parsed _ _ _ (subnet.network x, Z.of_N (subnet.length x)) t); [cbn [fst snd]; by rewrite N2Z.id, subnet_make_length|].
  eapply sequence_parsed; [eapply sequence_left_parsed; [exact Hp|apply chr_parsed]|]. by apply subnet_prefix_length; [apply subnet_length_bound|].
Qed.
End network.

(** ** Ports and offsets *)

Lemma port_type_roundtrip p t : no_digit t →
  port_type_parser (codes match p with unknown => "?" | icmp => "icmp" | tcp => "tcp" | udp => "udp" | icmp6 => "icmp6" | sctp => "sctp" end%string ++ t) = parsed p t.
Proof.
  intros Ht. destruct p; try done. unfold port_type_parser. do 3 apply choice_left. eapply choice_right; [|exact (action_parsed _ (λ _, icmp) _ _ _ (lit_parsed "icmp" t))].
  eapply choice_failed; [done|]. apply action_failed. unfold lit, literal_parser. destruct (literal_loop _ _) as [f'|] eqn:E; [|done].
  apply literal_loop_Some in E. change (codes "icmp6") with (codes "icmp" ++ [code "6"]) in E. rewrite <- app_assoc in E. apply app_inv_head in E as ->. by vm_compute in Ht.
Qed.
Lemma port_roundtrip p t : (0 <= number p < 65536)%Z → no_digit t → port_parser (port_printer p ++ t) = parsed p t.
Proof.
  intros Hp Ht. unfold port_printer, port_parser. rewrite <- !app_assoc. rewrite (action_parsed _ _ _ (number p, port_type_of p) t); [by destruct p|].
  eapply sequence_parsed; [eapply sequence_left_parsed; [|apply chr_parsed]|by apply port_type_roundtrip].
  apply integral_print; [by do 5 right; left|unfold int_range; cbn; lia|by right|done].
Qed.

(** A number is printed alike for every type it fits. *)
Lemma digits_loop_enough n m x : (0 <= x < 10 ^ Z.of_nat n)%Z → (n <= m)%nat → digits_loop m x = digits_loop n x.
Proof.
  revert m x. induction n as [|n IH]; intros m x Hx Hm.
  - cbn in Hx. assert (x = 0)%Z as -> by lia. by destruct m.
  - destruct m as [|m]; [lia|]. cbn [digits_loop]. destruct (0 <? x)%Z; [|done]. f_equal. apply IH; [|lia].
    rewrite Nat2Z.inj_succ, Z.pow_succ_r in Hx by lia. split; [apply Z.div_pos; lia|apply Z.div_lt_upper_bound; lia].
Qed.
Lemma print_offset x : (0 <= x < 2 ^ 32)%Z → print_int uint64 x = print_int uint32 x.
Proof.
  intros Hx. unfold print_int, integral_printer, print_numeric. cbn [is_signed uint64 uint32]. case_match; [done|]. do 3 f_equal. by apply digits_loop_enough; [cbn; lia|cbn; lia].
Qed.
Lemma integral_uint32 x t : (0 <= x < 2 ^ 32)%Z → no_digit t → integral uint32 (print_int uint64 x ++ t) = parsed x t.
Proof. intros Hx Ht. rewrite print_offset by done. apply integral_print; [by do 6 right; left|unfold int_range; cbn; lia|by right|done]. Qed.

Lemma print_delimited_cons {A} (print : A → list N) d x xs : print_delimited print d (x :: xs) = print x ++ concat ((λ y, d ++ print y) <$> xs).
Proof.
  cbn. generalize (print x) as out. induction xs as [|y xs IH]; intros out; cbn; [by rewrite app_nil_r|]. by rewrite IH, <- !app_assoc.
Qed.
(** The end of an offset: no digit and no comma follows. *)
Definition offset_ends (t : list N) : Prop := no_digit t ∧ starts_not (N.eqb (code ",")) t.
Lemma offset_loop fuel xs t ys : Forall (λ x, 0 <= x < 2 ^ 32)%Z xs → offset_ends t → (List.length xs < fuel)%nat →
  list_loop fuel (integral uint32) (chr ",") (concat ((λ y, [code ","] ++ print_int uint64 y) <$> xs) ++ t) ys = parsed (ys ++ xs) t.
Proof.
  intros Hxs [Ht Hc]. revert fuel ys. induction Hxs as [|x xs Hx Hxs IH]; intros [|fuel] ys Hf; try (cbn in Hf; lia).
  - cbn [fmap list_fmap concat app list_loop]. by rewrite chr_failed, app_nil_r by done.
  - cbn [fmap list_fmap concat app list_loop]. rewrite chr_parsed, <- app_assoc, integral_uint32, IH, <- app_assoc; [done|cbn in Hf; lia|done|].
    destruct xs; [done|by vm_compute].
Qed.
Lemma length_offset_text xs : (List.length xs <= List.length (concat ((λ y, [code ","] ++ print_int uint64 y) <$> xs)))%nat.
Proof. induction xs as [|x xs IH]; [cbn; lia|]. cbn [fmap list_fmap concat]. rewrite !length_app. cbn [List.length]. lia. Qed.
Lemma offset_roundtrip xs t : xs ≠ [] → Forall (λ x, 0 <= x < 2 ^ 32)%Z xs → offset_ends t → offset_parser (offset_printer xs ++ t) = parsed xs t.
Proof.
  intros Hne Hxs Ht. destruct Hxs as [|x xs Hx Hxs]; [done|]. unfold offset_printer, offset_parser, list_parser. rewrite print_delimited_cons, <- app_assoc.
  rewrite integral_uint32; [|done|destruct xs; [apply Ht|by vm_compute]].
  apply offset_loop; [done..|]. pose proof (length_offset_text xs) as Hl. rewrite length_app. lia.
Qed.

(** ** UUIDs *)

Definition upper (b : N) : N := hex.byte_to_char (N.land (N.shiftr b 4) 15).
Definition lower (b : N) : N := hex.byte_to_char (N.land b 15).
Lemma lookup_nibbles b : is_byte b →
  N.lor (N.shiftl (uuid_parser.lookup (upper b)) 4 mod 256) (uuid_parser.lookup (lower b)) = b ∧ (upper b =? code "-") = false ∧ (upper b =? code "{") = false.
Proof.
  intros Hb. pose proof (all_bytes_spec (λ b, (N.lor (N.shiftl (uuid_parser.lookup (upper b)) 4 mod 256) (uuid_parser.lookup (lower b)) =? b)
    && negb (upper b =? code "-") && negb (upper b =? code "{")) b ltac:(by vm_compute) Hb) as H. cbv beta in H.
  apply andb_true_iff in H as [[H1%N.eqb_eq H2%negb_true_iff]%andb_true_iff H3%negb_true_iff]. done.
Qed.
(** A byte of the loop, with the dash in front of it. *)
Lemma dash_none i c f with_dashes : i ∉ [4; 6; 8; 10]%nat → uuid_parser.dash i c f with_dashes = Some (c, f, with_dashes).
Proof.
  rewrite !not_elem_of_cons. intros (H4 & H6 & H8 & H10 & _). unfold uuid_parser.dash. rewrite !bool_decide_eq_false_2 by done.
  cbn [andb orb mbind option_bind]. by rewrite andb_false_r.
Qed.
Lemma dash_some i c f with_dashes : i = 4%nat ∨ (i ∈ [6; 8; 10]%nat ∧ with_dashes = true) →
  uuid_parser.dash i (code "-") (c :: f) with_dashes = Some (c, f, true).
Proof. rewrite !elem_of_cons, elem_of_nil. by intros [->|[[->|[->|[->|[]]]] ->]]. Qed.
Lemma bytes_loop_byte n i c b f with_dashes x : is_byte b → i ∉ [0; 4; 6; 8; 10]%nat →
  uuid_parser.bytes_loop (S n) i c (upper b :: lower b :: f) with_dashes x = uuid_parser.bytes_loop n (S i) (lower b) f with_dashes (x ++ [b]).
Proof.
  intros Hb [H0 Hi]%not_elem_of_cons. destruct (lookup_nibbles b Hb) as (E & _ & _). cbn [uuid_parser.bytes_loop].
  rewrite bool_decide_eq_false_2 by done. cbn [uuid_parser.next mbind option_bind]. rewrite dash_none by done. cbn [uuid_parser.next mbind option_bind]. by rewrite E.
Qed.
Lemma bytes_loop_dash n i c b f with_dashes x : is_byte b → i = 4%nat ∨ (i ∈ [6; 8; 10]%nat ∧ with_dashes = true) →
  uuid_parser.bytes_loop (S n) i c (code "-" :: upper b :: lower b :: f) with_dashes x = uuid_parser.bytes_loop n (S i) (lower b) f true (x ++ [b]).
Proof.
  intros Hb Hi. destruct (lookup_nibbles b Hb) as (E & _ & _). cbn [uuid_parser.bytes_loop]. rewrite bool_decide_eq_false_2 by (intros ->; destruct Hi as [?|[H%list_elem_of_In _]]; [done|by cbn in H; lia]).
  cbn [uuid_parser.next mbind option_bind]. rewrite dash_some by done. cbn [uuid_parser.next mbind option_bind]. by rewrite E.
Qed.
Lemma bytes_loop_first n b f x : is_byte b →
  uuid_parser.bytes_loop (S n) 0 (upper b) (lower b :: f) false x = uuid_parser.bytes_loop n 1 (lower b) f false (x ++ [b]).
Proof.
  intros Hb. destruct (lookup_nibbles b Hb) as (E & _ & _). cbn [uuid_parser.bytes_loop]. rewrite bool_decide_eq_true_2 by done.
  cbn [mbind option_bind]. rewrite dash_none by (by rewrite !not_elem_of_cons; auto using not_elem_of_nil). cbn [uuid_parser.next mbind option_bind]. by rewrite E.
Qed.

(** The text of a UUID, by its bytes. *)
Lemma uuid_loop_cons i b x : uuid_loop i (b :: x) = upper b :: lower b :: (if bool_decide (i ∈ [3; 5; 7; 9]%nat) then [code "-"] else []) ++ uuid_loop (S i) x.
Proof. done. Qed.
Lemma uuid_roundtrip x t : ip.wf x → uuid_parser.parse (uuid_printer x ++ t) = Some (t, x).
Proof.
  intros [Hl Hb]. do 16 (destruct x as [|? x]; [done|]). destruct x; [|done]. repeat (apply list.Forall_cons in Hb as [? Hb]).
  unfold uuid_printer. rewrite !uuid_loop_cons. repeat match goal with |- context [bool_decide (?i ∈ ?l)] => let b := eval vm_compute in (bool_decide (i ∈ l)) in change (bool_decide (i ∈ l)) with b end.
  cbn [app uuid_loop]. unfold uuid_parser.parse. cbn [uuid_parser.next mbind option_bind].
  match goal with |- context [upper ?b =? code "{"] => destruct (lookup_nibbles b) as (_ & _ & ->); [done|] end. cbn [mbind option_bind].
  rewrite bytes_loop_first by done.
  repeat first [rewrite bytes_loop_byte; [|done|rewrite !not_elem_of_cons; auto 10 using not_elem_of_nil]|rewrite bytes_loop_dash; [|done|first [by left|right; split; [apply list_elem_of_In; cbn; lia|done]]]].
  cbn [uuid_parser.bytes_loop app]. done.
Qed.

(** ** A reference for the C library *)

Module reference_inet.
Definition ntop4 (x : list N) : option (list N) :=
  match x with [a; b; c; d] => Some (dotted (Z.of_N a) (Z.of_N b) (Z.of_N c) (Z.of_N d)) | _ => None end.
(** All eight groups with four digits each. *)
Fixpoint groups (x : list N) : list (list N) :=
  match x with a :: b :: x => [upper a; lower a; upper b; lower b] :: groups x | _ => [] end.
Definition ntop6 (x : list N) : option (list N) := g ← list.last (groups x); Some (colons (removelast (groups x)) g).
Definition pton (s : list N) : option (list N) := Some (hex.unhexify (base.filter (λ c, c ≠ colon) s)).
End reference_inet.

Lemma nibbles_xdigit b : is_byte b → hex.isxdigit (upper b) = true ∧ hex.isxdigit (lower b) = true ∧ hex.hex_to_byte (upper b) (lower b) = b.
Proof.
  intros Hb. pose proof (all_bytes_spec (λ b, hex.isxdigit (upper b) && hex.isxdigit (lower b) && (hex.hex_to_byte (upper b) (lower b) =? b)) b ltac:(by vm_compute) Hb) as H.
  cbv beta in H. by apply andb_true_iff in H as [[H1 H2]%andb_true_iff H3%N.eqb_eq].
Qed.
Lemma filter_xdigits g t : Forall (λ c, hex.isxdigit c = true) g → base.filter (λ c, c ≠ colon) (g ++ t) = g ++ base.filter (λ c, c ≠ colon) t.
Proof.
  induction 1 as [|c g Hc _ IH]; [done|]. cbn [app]. rewrite filter_cons_True; [by rewrite IH|]. intros ->. by vm_compute in Hc.
Qed.
Lemma filter_xdigits_all g : Forall (λ c, hex.isxdigit c = true) g → base.filter (λ c, c ≠ colon) g = g.
Proof. intros Hg. pose proof (filter_xdigits g [] Hg) as H. by rewrite !app_nil_r in H. Qed.
Lemma filter_colons gs t : Forall group gs → base.filter (λ c, c ≠ colon) (colons gs t) = concat gs ++ base.filter (λ c, c ≠ colon) t.
Proof.
  induction 1 as [|g gs [_ Hg] _ IH]; [done|]. cbn [colons concat]. rewrite filter_xdigits by done. rewrite filter_cons_False by auto. by rewrite IH, app_assoc.
Qed.
Lemma byte_group a b : is_byte a → is_byte b → group [upper a; lower a; upper b; lower b].
Proof. intros Ha Hb. destruct (nibbles_xdigit a Ha) as (? & ? & _), (nibbles_xdigit b Hb) as (? & ? & _). split; [cbn; lia|by repeat constructor]. Qed.
#[export] Instance reference_inet_laws : Inet reference_inet.pton reference_inet.ntop4 reference_inet.ntop6.
Proof.
  split; [done|]. intros x [Hl Hb]. do 16 (destruct x as [|? x]; [done|]). destruct x; [|done]. repeat (apply list.Forall_cons in Hb as [? Hb]).
  eexists. split; [reflexivity|]. cbn [reference_inet.groups removelast]. match goal with |- context [colons ?gs ?g] => assert (Forall group gs ∧ group g) as [Hgs Hg] end.
  { split; [repeat (constructor; [by apply byte_group|]); constructor|by apply byte_group]. }
  split; [apply v6_full; by apply (right_groups [_; _; _; _; _; _; _])|]. unfold reference_inet.pton. f_equal. rewrite filter_colons by done.
  rewrite (filter_xdigits_all _ (proj2 Hg)). cbn [concat app hex.unhexify]. repeat f_equal; by apply nibbles_xdigit.
Qed.
