(* ===== verification/Calendar.v ===== *)
(** Dates: the conversion between days and dates of the Gregorian calendar, in [to_days] of
    [libvast/include/vast/concept/parseable/vast/time.hpp] and [from_days] of
    [libvast/include/vast/concept/printable/std/chrono.hpp].

    The intermediate results fit the types of the code; the year is reduced to 16 bits. *)

From S2P Require Import Prelude.
#[local] Set Warnings "-register-all".
#[local] Open Scope Z_scope.

Record year_month_day := mk_ymd { year : Z; month : Z; day : Z }.

(** The day of the year and the year of the era; years begin in March. *)
Definition day_of_year (m d : Z) : Z := Z.quot (153 * (if 2 <? m then m - 3 else m + 9) + 2) 5 + d - 1.
Definition day_of_era (yoe doy : Z) : Z := yoe * 365 + Z.quot yoe 4 - Z.quot yoe 100 + doy.
Definition year_of_era (doe : Z) : Z := Z.quot (doe - Z.quot doe 1460 + Z.quot doe 36524 - Z.quot doe 146096) 365.

(** Days since 1970-01-01. *)
Definition to_days (year month day : Z) : Z :=
  let y := year - (if month <=? 2 then 1 else 0) in
  let era := Z.quot (if 0 <=? y then y else y - 399) 400 in
  let yoe := y - era * 400 in
  era * 146097 + day_of_era yoe (day_of_year month day) - 719468.

(** The month and the day of a day of the year. *)
Definition month_day (doy : Z) : Z * Z :=
  let mp := Z.quot (5 * doy + 2) 153 in
  (if mp <? 10 then mp + 3 else mp - 9, doy - Z.quot (153 * mp + 2) 5 + 1).

Definition from_days (dp : Z) : year_month_day :=
  let z := dp + 719468 in
  let era := Z.quot (if 0 <=? z then z else z - 146096) 146097 in
  let doe := z - era * 146097 in
  let yoe := year_of_era doe in
  let y := yoe + era * 400 in
  let doy := doe - day_of_era yoe 0 in
  let '(m, d) := month_day doy in
  mk_ymd ((y + (if m <=? 2 then 1 else 0)) mod 65536) m d.

(** ** The calendar *)

Definition is_leap (y : Z) : bool := (y mod 4 =? 0) && (negb (y mod 100 =? 0) || (y mod 400 =? 0)).
Definition days_in_month (y m : Z) : Z :=
  if m =? 2 then if is_leap y then 29 else 28
  else if (m =? 4) || (m =? 6) || (m =? 9) || (m =? 11) then 30 else 31.
Definition valid (x : year_month_day) : Prop :=
  0 <= year x < 65536 ∧ 1 <= month x <= 12 ∧ 1 <= day x <= days_in_month (year x) (month x).
Definition next_day (x : year_month_day) : year_month_day :=
  let '(mk_ymd y m d) := x in
  if d <? days_in_month y m then mk_ymd y m (d + 1) else if m <? 12 then mk_ymd y (m + 1) 1 else mk_ymd (y + 1) 1 1.

(** The first day of a year of the era. *)
Definition year_start (yoe : Z) : Z := day_of_era yoe 0.

(** A finite check for the numbers up to a bound. *)
Definition all_below (n : nat) (P : Z → bool) : bool := forallb (λ i, P (Z.of_nat i)) (seq 0 n).
Lemma all_below_spec n P z : all_below n P = true → 0 <= z < Z.of_nat n → P z = true.
Proof.
  unfold all_below. rewrite forallb_forall. intros H Hz. specialize (H (Z.to_nat z)). rewrite Z2Nat.id in H by lia. apply H, in_seq. lia.
Qed.

Lemma year_of_era_mono a b : 0 <= a <= b → b <= 146096 → year_of_era a <= year_of_era b.
Proof.
  intros Hab Hb. unfold year_of_era. rewrite (Z.quot_div_nonneg a 1460), (Z.quot_div_nonneg a 36524), (Z.quot_div_nonneg a 146096), (Z.quot_div_nonneg b 1460), (Z.quot_div_nonneg b 36524), (Z.quot_div_nonneg b 146096) by lia.
  assert (a - a / 1460 + a / 36524 - a / 146096 <= b - b / 1460 + b / 36524 - b / 146096) as H; [|].
  { destruct (decide (a = b)) as [->|]; [lia|]. destruct (decide (b = 146096)) as [->|]; [|rewrite (Z.div_small b 146096), (Z.div_small a 146096) by lia]; Z.to_euclidean_division_equations; lia. }
  pose proof (Z.div_le_mono _ _ 365 ltac:(lia) H). rewrite !Z.quot_div_nonneg; [done|..]; Z.to_euclidean_division_equations; lia.
Qed.

(** The years of an era: where a year begins and ends, and how the formula finds it. *)
Definition year_length (yoe : Z) : Z := if is_leap (yoe + 1) then 366 else 365.
Definition year_check (yoe : Z) : bool :=
  (year_of_era (year_start yoe) =? yoe) && (year_of_era (year_start yoe + year_length yoe - 1) =? yoe)
  && (if yoe =? 399 then year_start yoe + year_length yoe =? 146097 else year_start yoe + year_length yoe =? year_start (yoe + 1))
  && (0 <=? year_start yoe) && (year_start yoe + year_length yoe <=? 146097).
Lemma year_check_spec yoe : 0 <= yoe < 400 →
  year_of_era (year_start yoe) = yoe ∧ year_of_era (year_start yoe + year_length yoe - 1) = yoe ∧
  year_start yoe + year_length yoe = (if yoe =? 399 then 146097 else year_start (yoe + 1)) ∧ 0 <= year_start yoe ∧ year_start yoe + year_length yoe <= 146097.
Proof.
  intros Hy. pose proof (all_below_spec 400 year_check yoe ltac:(by vm_compute) ltac:(lia)) as H. unfold year_check in H.
  repeat (apply andb_true_iff in H as [H ?]). destruct (yoe =? 399); lia.
Qed.

(** A day of a year is found. *)
Lemma year_of_era_day yoe doy : 0 <= yoe < 400 → 0 <= doy < year_length yoe → year_of_era (year_start yoe + doy) = yoe.
Proof.
  intros Hy Hd. destruct (year_check_spec yoe Hy) as (H1 & H2 & _ & H4 & H5).
  pose proof (year_of_era_mono (year_start yoe) (year_start yoe + doy) ltac:(lia) ltac:(lia)).
  pose proof (year_of_era_mono (year_start yoe + doy) (year_start yoe + year_length yoe - 1) ltac:(lia) ltac:(lia)). lia.
Qed.
(** Every day of an era is a day of a year. *)
Lemma day_of_era_split doe : 0 <= doe < 146097 → ∃ yoe doy, 0 <= yoe < 400 ∧ 0 <= doy < year_length yoe ∧ doe = year_start yoe + doy.
Proof.
  intros Hd. assert (∀ n, (n <= 400)%nat → doe < (if (n =? 400)%nat then 146097 else year_start (Z.of_nat n)) →
    ∃ yoe doy, 0 <= yoe < 400 ∧ 0 <= doy < year_length yoe ∧ doe = year_start yoe + doy) as H; [|apply (H 400%nat); [lia|cbn; lia]].
  induction n as [|n IH]; intros Hn Hlt; [change (doe < 0) in Hlt; lia|]. destruct (year_check_spec (Z.of_nat n) ltac:(lia)) as (_ & _ & E & _ & _).
  destruct (decide (doe < year_start (Z.of_nat n))) as [Hlt'|Hge].
  - apply IH; [lia|]. by rewrite (proj2 (Nat.eqb_neq n 400)) by lia.
  - exists (Z.of_nat n), (doe - year_start (Z.of_nat n)). split; [lia|]. split; [|lia]. split; [lia|].
    destruct (Nat.eqb_spec (S n) 400) as [E'|E']; [rewrite (proj2 (Z.eqb_eq (Z.of_nat n) 399)) in E by lia; lia|].
    rewrite (proj2 (Z.eqb_neq (Z.of_nat n) 399)) in E by lia. rewrite Nat2Z.inj_succ, <- Z.add_1_r in Hlt. lia.
Qed.

(** The months of a year that begins in March. *)
Definition month_check (doy : Z) : bool :=
  let '(m, d) := month_day doy in
  let '(m', d') := month_day (doy + 1) in
  (day_of_year m d =? doy) && (1 <=? m) && (m <=? 12) && (1 <=? d) && (d <=? (if m =? 2 then 29 else days_in_month 0 m))
  && ((365 <=? doy) || (if m =? 2 then (m' =? 2) && (d' =? d + 1) else if d <? days_in_month 0 m then (m' =? m) && (d' =? d + 1)
      else if m =? 12 then (m' =? 1) && (d' =? 1) else (m' =? m + 1) && (d' =? 1)))
  && ((if m <=? 2 then 306 <=? doy else doy <=? 305)) && (if m =? 2 then d =? doy - 336 else true)
  && (if 337 <=? doy then m =? 2 else true).
Lemma month_check_spec doy : 0 <= doy < 366 → month_check doy = true.
Proof. intros Hd. apply (all_below_spec 366); [by vm_compute|lia]. Qed.
Definition date_check (m d : Z) : bool :=
  (d =? 0) || (m =? 0) || negb (d <=? (if m =? 2 then 29 else days_in_month 0 m)) || bool_decide (month_day (day_of_year m d) = (m, d))
  && (0 <=? day_of_year m d) && (day_of_year m d <? (if (m =? 2) && (d =? 29) then 366 else 365)).
Lemma date_check_spec m d : 0 <= m < 13 → 0 <= d < 32 → date_check m d = true.
Proof.
  intros Hm Hd. pose proof (all_below_spec 13 (λ m, all_below 32 (date_check m)) m ltac:(by vm_compute) ltac:(lia)) as H. by apply (all_below_spec 32); [|lia].
Qed.

Definition carry (m : Z) : Z := if m <=? 2 then 1 else 0.
Lemma quot_era a b n : 0 < n → 0 <= a → 0 <= b < n → Z.quot (a * n + b) n = a.
Proof. intros Hn Ha Hb. rewrite Z.quot_div_nonneg by nia. rewrite Z.add_comm, Z.div_add, Z.div_small by lia. lia. Qed.
Lemma year_start_day yoe doy : day_of_era yoe doy = year_start yoe + doy.
Proof. unfold year_start, day_of_era. lia. Qed.

Lemma to_days_era era yoe m d : 0 <= era → 0 <= yoe < 400 →
  to_days (yoe + era * 400 + carry m) m d = era * 146097 + (year_start yoe + day_of_year m d) - 719468.
Proof.
  intros He Hy. unfold to_days, carry. replace (yoe + era * 400 + _ - _) with (era * 400 + yoe) by (destruct (m <=? 2); lia).
  rewrite (proj2 (Z.leb_le 0 _)), quot_era, year_start_day by lia. do 3 f_equal. f_equal. lia.
Qed.
Lemma from_days_era era yoe doy : 0 <= era → 0 <= yoe < 400 → 0 <= doy < year_length yoe →
  from_days (era * 146097 + (year_start yoe + doy) - 719468) =
  let '(m, d) := month_day doy in mk_ymd ((yoe + era * 400 + carry m) mod 65536) m d.
Proof.
  intros He Hy Hd. destruct (year_check_spec yoe Hy) as (_ & _ & _ & H4 & H5). unfold from_days. rewrite Z.sub_add.
  rewrite (proj2 (Z.leb_le 0 _)), quot_era by lia. replace (era * 146097 + (year_start yoe + doy) - era * 146097) with (year_start yoe + doy) by lia.
  rewrite year_of_era_day by done. fold (year_start yoe). replace (year_start yoe + doy - year_start yoe) with doy by lia. done.
Qed.
(** Every day from the first of March of year 0 on is a day of an era. *)
Lemma days_split z : - 719468 <= z → ∃ era yoe doy, 0 <= era ∧ 0 <= yoe < 400 ∧ 0 <= doy < year_length yoe ∧ z = era * 146097 + (year_start yoe + doy) - 719468.
Proof.
  intros Hz. destruct (day_of_era_split ((z + 719468) mod 146097)) as (yoe & doy & Hy & Hd & E); [apply Z.mod_pos_bound; lia|].
  exists ((z + 719468) / 146097), yoe, doy. pose proof (Z.div_mod (z + 719468) 146097 ltac:(lia)). split_and!; try lia. apply Z.div_pos; lia.
Qed.

Lemma is_leap_era y era : is_leap (y + era * 400) = is_leap y.
Proof.
  unfold is_leap. rewrite (Z.mod_add y era 400) by lia. replace (era * 400) with (era * 4 * 100) by lia. rewrite Z.mod_add by lia.
  replace (era * 4 * 100) with (era * 100 * 4) by lia. by rewrite Z.mod_add by lia.
Qed.
Lemma year_length_bound yoe : 365 <= year_length yoe <= 366.
Proof. unfold year_length. destruct (is_leap _); lia. Qed.
Lemma days_in_month_other y y' m : m ≠ 2 → days_in_month y m = days_in_month y' m.
Proof. intros Hm. unfold days_in_month. by rewrite (proj2 (Z.eqb_neq m 2)) by done. Qed.

(** The last day of the 16-bit years. *)
Definition end_of_years : Z := to_days 65536 1 1.
Lemma year_bound era yoe doy : 0 <= era → 0 <= yoe < 400 → 0 <= doy < year_length yoe → era * 146097 + (year_start yoe + doy) - 719468 < end_of_years →
  0 <= yoe + era * 400 + carry (month_day doy).1 < 65536.
Proof.
  intros He Hy Hd Hz. change end_of_years with (163 * 146097 + (year_start 335 + 306) - 719468) in Hz.
  destruct (year_check_spec yoe Hy) as (_ & _ & _ & H4 & H5). destruct (year_check_spec 335 ltac:(lia)) as (E & _ & _ & H4' & H5').
  assert (carry (month_day doy).1 = 0 ∨ (carry (month_day doy).1 = 1 ∧ 306 <= doy)) as Hc.
  { pose proof (year_length_bound yoe). pose proof (month_check_spec doy ltac:(lia)) as Hc. unfold month_check in Hc. destruct (month_day doy) as [m d], (month_day (doy + 1)) as [m' d'].
    repeat (apply andb_true_iff in Hc as [Hc ?]). unfold carry. cbn [fst]. destruct (m <=? 2); lia. }
  assert (era < 163 ∨ (era = 163 ∧ year_start yoe + doy < year_start 335 + 306)) as [|[-> Hlt]]; [destruct (decide (era < 163)); [by left|right; change (year_length 335) with 366 in *; nia]|lia|].
  assert (336 <= yoe → year_start 335 + 366 <= year_start yoe + doy) as H336.
  { intros H. destruct (decide (year_start yoe + doy < year_start 335 + 366)); [|lia].
    pose proof (year_of_era_mono (year_start yoe + doy) (year_start 335 + 365) ltac:(lia) ltac:(change (year_length 335) with 366 in *; lia)) as Hm.
    rewrite (year_of_era_day yoe doy), (year_of_era_day 335 365) in Hm by (done || (change (year_length 335) with 366; lia)). lia. }
  destruct (decide (yoe = 335)) as [->|]; lia.
Qed.

(** The last month of a year is as long as the year demands. *)
Lemma february era yoe : days_in_month (yoe + era * 400 + 1) 2 = year_length yoe - 337.
Proof.
  unfold days_in_month, year_length. change (2 =? 2) with true. cbv iota. replace (yoe + era * 400 + 1) with (yoe + 1 + era * 400) by lia.
  rewrite is_leap_era. by destruct (is_leap (yoe + 1)).
Qed.

(** ** Round trips *)

Lemma to_from_days z : - 719468 <= z < end_of_years → let x := from_days z in to_days (year x) (month x) (day x) = z ∧ valid x.
Proof.
  intros [Hz Hz']. destruct (days_split z Hz) as (era & yoe & doy & He & Hy & Hd & ->). pose proof (year_bound era yoe doy He Hy Hd Hz') as Hb.
  pose proof (year_length_bound yoe) as Hl. pose proof (month_check_spec doy ltac:(lia)) as Hc. rewrite from_days_era by done. unfold month_check in Hc.
  destruct (month_day doy) as [m d], (month_day (doy + 1)) as [m' d']. cbn [fst] in Hb. repeat (apply andb_true_iff in Hc as [Hc ?]).
  cbn [year month day]. rewrite Z.mod_small by lia. split; [rewrite to_days_era by done; lia|]. split_and!; cbn; try lia.
  destruct (Z.eqb_spec m 2) as [->|Hm]; [|rewrite (days_in_month_other _ 0) by done; lia].
  change (carry 2) with 1. rewrite february. lia.
Qed.

Lemma from_to_days x : valid x → 3 <= month x ∨ 1 <= year x → from_days (to_days (year x) (month x) (day x)) = x.
Proof.
  destruct x as [y m d]. intros (Hy & Hm & Hd) H1. cbn [year month day] in *. assert (0 <= y - carry m) as Hy' by (unfold carry; destruct (Z.leb_spec m 2); lia).
  assert (∃ era yoe, 0 <= era ∧ 0 <= yoe < 400 ∧ y = yoe + era * 400 + carry m) as (era & yoe & He & Hyoe & ->).
  { exists ((y - carry m) / 400), ((y - carry m) mod 400). pose proof (Z.mod_pos_bound (y - carry m) 400). pose proof (Z.div_mod (y - carry m) 400). pose proof (Z.div_pos (y - carry m) 400). lia. }
  assert (days_in_month (yoe + era * 400 + carry m) m <= 31) as H31 by (unfold days_in_month; repeat case_match; lia).
  pose proof (date_check_spec m d ltac:(lia) ltac:(lia)) as Hc. unfold date_check in Hc.
  assert (d <= (if m =? 2 then 29 else days_in_month 0 m)) as Hd'.
  { destruct (Z.eqb_spec m 2) as [->|]; [|rewrite (days_in_month_other 0 (yoe + era * 400 + carry m)) by done; lia]. change (carry 2) with 1 in Hd. rewrite february in Hd. pose proof (year_length_bound yoe). lia. }
  rewrite (proj2 (Z.leb_le d _) Hd') in Hc. rewrite (proj2 (Z.eqb_neq d 0)), (proj2 (Z.eqb_neq m 0)) in Hc by lia. cbn [negb orb] in Hc.
  apply andb_true_iff in Hc as [[Hmd%bool_decide_eq_true_1 H2]%andb_true_iff H3]. rewrite to_days_era by done. rewrite from_days_era, Hmd; try done.
  - by rewrite Z.mod_small.
  - split; [lia|]. apply Z.ltb_lt in H3. destruct (Z.eqb_spec m 2) as [->|]; cbn in H3; [|pose proof (year_length_bound yoe); lia].
    change (carry 2) with 1 in Hd. rewrite february in Hd. destruct (Z.eqb_spec d 29); [lia|pose proof (year_length_bound yoe); lia].
Qed.

(** The dates of consecutive days. *)
Lemma from_days_succ z : - 719468 <= z → z + 1 < end_of_years → from_days (z + 1) = next_day (from_days z).
Proof.
  intros Hz Hz'. destruct (days_split z Hz) as (era & yoe & doy & He & Hy & Hd & ->). pose proof (year_bound era yoe doy He Hy Hd ltac:(lia)) as Hb.
  pose proof (year_length_bound yoe) as Hl. pose proof (month_check_spec doy ltac:(lia)) as Hc.
  pose proof (february era yoe) as Hfeb.
  rewrite (from_days_era era yoe doy) by done. destruct (decide (doy + 1 < year_length yoe)) as [Hn|Hn].
  - replace (era * 146097 + (year_start yoe + doy) - 719468 + 1) with (era * 146097 + (year_start yoe + (doy + 1)) - 719468) in Hz' |- * by lia.
    pose proof (year_bound era yoe (doy + 1) He Hy ltac:(lia) ltac:(lia)) as Hb'. rewrite from_days_era by lia. unfold month_check in Hc.
    destruct (month_day doy) as [m d], (month_day (doy + 1)) as [m' d']. cbn [fst] in *. rewrite !Z.mod_small by lia. cbn [next_day].
    repeat (apply andb_true_iff in Hc as [Hc ?]). rewrite (proj2 (Z.leb_gt 365 doy)) in * by lia. cbn [orb] in *.
    destruct (Z.eqb_spec m 2) as [->|Hm]; [change (carry 2) with 1; rewrite Hfeb, (proj2 (Z.ltb_lt d _)) by lia; assert (m' = 2 ∧ d' = d + 1) as [-> ->] by lia; done|].
    rewrite (days_in_month_other _ 0) by done. destruct (d <? days_in_month 0 m); [by assert (m' = m ∧ d' = d + 1) as [-> ->] by lia|].
    destruct (Z.eqb_spec m 12) as [->|Hm']; [assert (m' = 1 ∧ d' = 1) as [-> ->] by lia; cbn; f_equal; lia|].
    assert (m' = m + 1 ∧ d' = 1) as [-> ->] by lia. rewrite (proj2 (Z.ltb_lt m 12)) by lia. f_equal. unfold carry. destruct (Z.leb_spec (m + 1) 2), (Z.leb_spec m 2); lia.
  - assert (doy = year_length yoe - 1) as -> by lia. destruct (year_check_spec yoe Hy) as (_ & _ & E & _ & _). unfold month_check in Hc.
    destruct (month_day (year_length yoe - 1)) as [m d], (month_day _) as [m' d']. cbn [fst] in *. repeat (apply andb_true_iff in Hc as [Hc ?]).
    rewrite (proj2 (Z.leb_le 337 _)) in * by lia. assert (m = 2) as -> by lia. change (carry 2) with 1 in *. cbn [Z.eqb Pos.eqb] in *.
    rewrite Z.mod_small by lia. cbn [next_day]. rewrite Hfeb, (proj2 (Z.ltb_ge d _)) by lia. change (2 <? 12) with true. cbv iota. change (2 + 1) with 3.
    destruct (Z.eqb_spec yoe 399) as [->|Hne].
    + replace (_ + 1) with ((era + 1) * 146097 + (year_start 0 + 0) - 719468) by (change (year_start 0) with 0; lia).
      rewrite from_days_era by (done || lia). change (month_day 0) with (3, 1). cbv iota. change (carry 3) with 0. rewrite Z.mod_small by lia. f_equal. lia.
    + replace (era * 146097 + (year_start yoe + (year_length yoe - 1)) - 719468 + 1) with (era * 146097 + (year_start (yoe + 1) + 0) - 719468) by lia.
      rewrite from_days_era by (try lia; pose proof (year_length_bound (yoe + 1)); lia). change (month_day 0) with (3, 1). cbv iota. change (carry 3) with 0. rewrite Z.mod_small by lia. f_equal. lia.
Qed.
