(* ===== verification/ParserTime.v ===== *)
(** Parsers and printers of durations and times: [libvast/include/vast/concept/parseable/vast/time.hpp]
    and [libvast/include/vast/concept/printable/std/chrono.hpp].

    A duration is a number of nanoseconds, a time the duration since the epoch. The parser of
    doubles, the arithmetic of doubles, their printer and the clock are parameters. *)

From Stdlib Require Import Ascii String.
From S2P Require Import Prelude Coding Strings Parser ParserNumeric ParserVast Calendar.
#[local] Open Scope parser_scope.
#[local] Open Scope Z_scope.

(** Nanoseconds in the units of [std::chrono]. *)
Definition microseconds : Z := 1000.
Definition milliseconds : Z := 1000 * microseconds.
Definition seconds : Z := 1000 * milliseconds.
Definition minutes : Z := 60 * seconds.
Definition hours : Z := 60 * minutes.
Definition days : Z := 24 * hours.

Definition unit_names : list (string * Z) :=
  [("nanoseconds", 1); ("nanosecond", 1); ("nsecs", 1); ("nsec", 1); ("ns", 1);
   ("microseconds", microseconds); ("microsecond", microseconds); ("usecs", microseconds); ("usec", microseconds); ("us", microseconds);
   ("milliseconds", milliseconds); ("millisecond", milliseconds); ("msecs", milliseconds); ("msec", milliseconds); ("ms", milliseconds);
   ("seconds", seconds); ("second", seconds); ("secs", seconds); ("sec", seconds); ("s", seconds);
   ("minutes", minutes); ("minute", minutes); ("mins", minutes); ("min", minutes); ("m", minutes);
   ("hours", hours); ("hour", hours); ("hrs", hours); ("h", hours);
   ("days", 24 * hours); ("day", 24 * hours); ("d", 24 * hours);
   ("weeks", 24 * 7 * hours); ("week", 24 * 7 * hours); ("w", 24 * 7 * hours);
   ("years", 24 * 365 * hours); ("year", 24 * 365 * hours); ("y", 24 * 365 * hours)]%string.
Definition unit_ : parser Z := names_parser unit_names.

Section time.
(** [parsers::real], with a double as its bits. *)
Context (real : parser N).
(** [duration_cast] of a number of units, of minutes and seconds, and of seconds, as doubles. *)
Context (scale_duration : Z → N → Z) (minutes_seconds : Z → N → Z) (double_seconds : N → Z).
(** Whether a double is at least 0 and at most 60. *)
Context (is_second : N → bool).
(** [time::clock::now()] *)
Context (now : Z).

Definition duration_parser : parser Z :=
  (real >>- ignore_parser (kleene_parser space) >> unit_) ->* (λ x, scale_duration x.2 x.1).
(** The components behind the first one are added while they are positive. *)
Definition compound_duration_parser : parser Z :=
  (duration_parser >> kleene_parser (guard_parser duration_parser (λ dur, if 0 <? dur then Some dur else None)))
    ->* (λ x, foldl Z.add x.1 x.2).
Definition duration : parser Z := compound_duration_parser.

Definition guarded (digits : nat) (guard : Z → bool) : parser Z :=
  guard_parser (integral_parser.parse int32 digits digits decimal) (λ x, if guard x then Some x else None).
Definition year_parser : parser Z := guarded 4 (λ x, 1900 <=? x).
Definition mon_parser : parser Z := guarded 2 (λ x, (1 <=? x) && (x <=? 12)).
Definition day_parser : parser Z := guarded 2 (λ x, (1 <=? x) && (x <=? 31)).
Definition hour_parser : parser Z := guarded 2 (λ x, (0 <=? x) && (x <=? 23)).
Definition min_parser : parser Z := guarded 2 (λ x, (0 <=? x) && (x <=? 59)).
Definition sec_parser : parser N := guard_parser real (λ x, if is_second x then Some x else None).
Definition time_divider : parser () := chr "+" <|> chr "T" <|> chr " ".
Definition sign : parser Z := (chr "+" ->* λ _, 1) <|> (chr "-" ->* λ _, -1).
(** The sign, the hours and the minutes of a time zone. *)
Definition zone : parser (Z * Z * Z) :=
  (chr "Z" ->* λ _, (1, 0, 0)) <|> (sign >> hour_parser >> maybe_parser (maybe_parser (chr ":") tt ->> min_parser) 0).

(** The values that stay when an optional part is missing. *)
Definition no_zone : Z * Z * Z := (1, 0, 0).
Definition ms_default : Z * N * (Z * Z * Z) := (0, 0%N, no_zone).
Definition hms_default : Z * (Z * N * (Z * Z * Z)) := (0, ms_default).
Definition dhms_default : Z * (Z * (Z * N * (Z * Z * Z))) := (1, hms_default).
Definition ms : parser (Z * N * (Z * Z * Z)) :=
  (chr ":" ->> min_parser) >> maybe_parser (chr ":" ->> sec_parser) 0%N >> maybe_parser zone no_zone.
Definition hms : parser (Z * (Z * N * (Z * Z * Z))) := (time_divider ->> hour_parser) >> maybe_parser ms ms_default.
Definition dhms : parser (Z * (Z * (Z * N * (Z * Z * Z)))) := (chr "-" ->> day_parser) >> maybe_parser hms hms_default.

(** Time from what was parsed. *)
Definition compose (x : Z * Z * (Z * (Z * (Z * N * (Z * Z * Z))))) : Z :=
  let '(yrs, mons, (dys, (hrs, (mins, secs, (zsign, zhrs, zmins))))) := x in
  let zone_offset := (zhrs * 60 + zmins) * zsign in
  to_days yrs mons dys * days + minutes_seconds (hrs * 60 + mins - zone_offset) secs.
Definition ymdhms_parser : parser Z := ((year_parser >>- chr "-") >> mon_parser >> maybe_parser dhms dhms_default) ->* compose.

Definition unix_ts : parser Z := real ->* double_seconds.
Definition plus (t : Z) : Z := now + t.
Definition minus (t : Z) : Z := now - t.
Definition time_parser : parser Z :=
  ymdhms_parser
  <|> (chr "@" ->> unix_ts)
  <|> ((lit "now" >>> ws) ->> (((chr "+" >>> ws) ->> (duration ->* plus)) <|> ((chr "-" >>> ws) ->> (duration ->* minus))))
  <|> (lit "now" ->* λ _, now)
  <|> ((lit "in" >>> ws) ->> (duration ->* plus))
  <|> ((duration ->* minus) >>- ws >>- lit "ago").

(** ** Printers *)

(** [printers::real2] of the quotient of two durations. *)
Context (real2 : Z → Z → list N).

Definition is_at_least (unit d : Z) : bool := 1 <=? Z.quot (Z.abs d) unit.
Definition duration_printer (d : Z) : list N :=
  if is_at_least days d then real2 d days ++ codes "d"
  else if is_at_least hours d then real2 d hours ++ codes "h"
  else if is_at_least minutes d then real2 d minutes ++ codes "m"
  else if is_at_least seconds d then real2 d seconds ++ codes "s"
  else if is_at_least milliseconds d then real2 d milliseconds ++ codes "ms"
  else if is_at_least microseconds d then real2 d microseconds ++ codes "us"
  else real2 d 1 ++ codes "ns".
End time.

Definition num2 : Z → list N := integral_printer int32 plain 2.
Definition unum2 : Z → list N := integral_printer uint32 plain 2.
Definition num6 : Z → list N := integral_printer int32 plain 6.
Definition date_text (x : year_month_day) : list N :=
  print_int int32 (year x) ++ [code "-"] ++ unum2 (month x) ++ [code "-"] ++ unum2 (day x).
Definition time_point_printer (tp : Z) : list N :=
  let sd := tp / days in
  let x := from_days sd in
  let t := tp - sd * days in
  let h := Z.quot t hours in
  let m := Z.quot (t - h * hours) minutes in
  let s := Z.quot (t - h * hours - m * minutes) seconds in
  let sub_secs := t - h * hours - m * minutes - s * seconds in
  date_text x ++ [code "T"] ++ num2 h ++ [code ":"] ++ num2 m ++ [code ":"] ++ num2 s ++ [code "."] ++ num6 (Z.quot sub_secs 1000).

(** ** Digits with leading zeros *)

Lemma magnitude_digits k fuel x : 10 ^ Z.of_nat k <= x < 10 ^ Z.of_nat (S k) → (k < fuel)%nat →
  magnitude fuel x = k ∧ List.length (digits_loop fuel x) = S k.
Proof.
  revert fuel x. induction k as [|k IH]; intros [|fuel] x Hx Hf; try lia; cbn [magnitude digits_loop].
  - cbn in Hx. rewrite (proj2 (Z.ltb_lt x 10)), (proj2 (Z.ltb_lt 0 x)) by lia. split; [done|]. cbn. rewrite Z.div_small by lia. by destruct fuel.
  - rewrite !Nat2Z.inj_succ, Z.pow_succ_r, (Z.pow_succ_r 10 (Z.succ _)) in Hx by lia. pose proof (Z.pow_pos_nonneg 10 (Z.of_nat k) ltac:(lia) ltac:(lia)).
    rewrite Z.pow_succ_r in Hx by lia. rewrite (proj2 (Z.ltb_ge x 10)), (proj2 (Z.ltb_lt 0 x)) by lia. destruct (IH fuel (x / 10)) as [-> E]; [|lia|by cbn; rewrite E].
    rewrite Nat2Z.inj_succ, Z.pow_succ_r by lia. split; [apply Z.div_le_lower_bound; lia|apply Z.div_lt_upper_bound; lia].
Qed.
Lemma magnitude_exists n x : 0 < x < 10 ^ Z.of_nat n → ∃ k, (k < n)%nat ∧ 10 ^ Z.of_nat k <= x < 10 ^ Z.of_nat (S k).
Proof.
  induction n as [|n IH]; intros Hx; [cbn in Hx; lia|]. destruct (decide (x < 10 ^ Z.of_nat n)) as [Hl|Hl]; [destruct (IH ltac:(lia)) as (k & ? & ?); exists k; split; [lia|done]|].
  exists n. split; [lia|]. lia.
Qed.
Lemma decimal_value_zeros n ds a : decimal_value 0 (replicate n (code "0") ++ ds) = decimal_value 0 ds ∧ (a = 0 → decimal_value a (replicate n (code "0")) = 0).
Proof.
  assert (∀ n, decimal_value 0 (replicate n (code "0")) = 0) as H by (intros m; induction m as [|m IH]; [done|exact IH]).
  split; [|by intros ->]. unfold decimal_value in *. by rewrite foldl_app, H.
Qed.
Lemma padded_spec T n x : T ∈ int_types → (0 < n <= S (digits10 T))%nat → (n <= 20)%nat → 0 <= x < 10 ^ Z.of_nat n → x <= max_value T →
  let ds := integral_printer T plain n x in Forall is_decimal ds ∧ decimal_value 0 ds = x ∧ List.length ds = n.
Proof.
  intros HT Hn H20 Hx Hm. cbv zeta. unfold integral_printer. rewrite (proj2 (Z.ltb_ge x 0)) by lia. destruct (print_numeric_spec T x HT ltac:(lia)) as (Hd & Hv & _).
  replace (if is_signed T then ([], x) else ([], x)) with (@nil N, x) by (by destruct (is_signed T)). cbn [app]. split_and!.
  - apply Forall_app. split; [|done]. unfold pad. by apply Forall_replicate.
  - unfold pad. rewrite (proj1 (decimal_value_zeros _ _ 0)). done.
  - rewrite length_app. unfold pad. rewrite length_replicate, Z.abs_eq by lia. unfold print_numeric. destruct (Z.eqb_spec x 0) as [->|Hne]; [cbn; lia|].
    destruct (magnitude_exists n x ltac:(lia)) as (k & Hk & Hk'). destruct (magnitude_digits k 20 x Hk' ltac:(lia)) as [-> _].
    rewrite length_rev. destruct (magnitude_digits k (S (digits10 T)) x Hk' ltac:(lia)) as [_ ->]. lia.
Qed.

(** ** What is printed is parsed *)

Lemma guarded_digits n guard ds f : (0 < n)%nat → Forall is_decimal ds → List.length ds = n → decimal_value 0 ds <= max_value int32 → guard (decimal_value 0 ds) = true →
  guarded n guard (ds ++ f) = parsed (decimal_value 0 ds) f.
Proof.
  intros Hn Hd Hl Hm Hg. unfold guarded, guard_parser. rewrite (integral_digits int32 n n) by (done || lia || (by left)). by rewrite Hg.
Qed.
Lemma guarded_padded T guard x f : T = int32 ∨ T = uint32 → 0 <= x < 100 → guard x = true → guarded 2 guard (integral_printer T plain 2 x ++ f) = parsed x f.
Proof.
  intros HT Hx Hg. destruct (padded_spec T 2 x) as (Hd & Hv & Hl); [destruct HT as [->| ->]; [by do 2 right; left|by do 6 right; left]|destruct HT as [->| ->]; cbn; lia|lia|cbn; lia|destruct HT as [->| ->]; cbn; lia|].
  rewrite <- Hv at 2. apply guarded_digits; [lia|done..|rewrite Hv; cbn; lia|by rewrite Hv].
Qed.
Lemma year_text y f : 1900 <= y <= 9999 → year_parser (print_int int32 y ++ f) = parsed y f.
Proof.
  intros Hy. unfold year_parser, print_int, integral_printer. cbn [is_signed int32]. rewrite (proj2 (Z.ltb_ge y 0)) by lia. change (pad 0 y) with (@nil N). cbn [app].
  destruct (print_numeric_spec int32 y) as (Hd & Hv & _); [by do 2 right; left|cbn; lia|]. rewrite <- Hv at 2. apply guarded_digits; [lia|done| |rewrite Hv; cbn; lia|rewrite Hv; apply Z.leb_le; lia].
  unfold print_numeric. rewrite (proj2 (Z.eqb_neq y 0)), length_rev by lia. by apply (magnitude_digits 3); [cbn; lia|cbn; lia].
Qed.

(** A date whose year the parser accepts. *)
Definition parseable (x : year_month_day) : Prop := valid x ∧ 1900 <= year x <= 9999.
Lemma valid_bounds x : valid x → 1 <= month x <= 12 ∧ 1 <= day x <= 31.
Proof. intros (_ & Hm & Hd). split; [done|]. unfold days_in_month in Hd. repeat case_match; lia. Qed.

Section text.
Context (real : parser N) (minutes_seconds : Z → N → Z) (is_second : N → bool).

(** The end of a time: nothing that continues a number, a time of day or a zone follows. *)
Definition time_ends (f : list N) : Prop :=
  match f with c :: _ => c ∉ codes "0123456789.eE:Z+-T " | [] => True end.
Lemma time_ends_chr c f : In (code c) (codes "0123456789.eE:Z+-T ") → time_ends f → chr c f = failed f.
Proof.
  intros Hc Hf. apply chr_failed. destruct f as [|x f]; [done|]. cbn [starts_not]. apply N.eqb_neq. intros <-. by apply Hf, list_elem_of_In.
Qed.

(** What the parser of doubles does with the seconds that are printed, up to rounding. *)
Class SecondsText : Prop := seconds_text s us f : 0 <= s < 60 → 0 <= us < 1000000 → time_ends f →
  ∃ v, real (num2 s ++ [code "."] ++ num6 us ++ f) = parsed v f ∧ is_second v = true ∧
    ∀ m, Z.abs (minutes_seconds m v - (m * minutes + s * seconds + us * 1000)) < 1000.

Lemma zone_none f : time_ends f → zone f = failed f.
Proof.
  intros Hf. unfold zone. eapply choice_failed; [apply action_failed, time_ends_chr; [cbn; auto 20|done]|].
  eapply sequence_failed_left, sequence_failed_left. unfold sign. eapply choice_failed; apply action_failed, time_ends_chr; try done; cbn; auto 20.
Qed.
Context `{!SecondsText}.

Lemma ymdhms_text x h m s us f : parseable x → 0 <= h < 24 → 0 <= m < 60 → 0 <= s < 60 → 0 <= us < 1000000 → time_ends f →
  ∃ t, ymdhms_parser real minutes_seconds is_second
      (date_text x ++ [code "T"] ++ num2 h ++ [code ":"] ++ num2 m ++ [code ":"] ++ num2 s ++ [code "."] ++ num6 us ++ f) = parsed t f ∧
    Z.abs (t - (to_days (year x) (month x) (day x) * days + h * hours + m * minutes + s * seconds + us * 1000)) < 1000.
Proof.
  intros [Hx Hy] Hh Hm Hs Hus Hf. destruct (valid_bounds x Hx) as [Hmon Hday]. destruct (seconds_text s us f Hs Hus Hf) as (v & Hv & Hsec & Hr).
  assert (ms real is_second ([code ":"] ++ num2 m ++ [code ":"] ++ num2 s ++ [code "."] ++ num6 us ++ f) = parsed (m, v, no_zone) f) as Hms.
  { unfold ms. eapply sequence_parsed; [eapply sequence_parsed; [eapply sequence_right_parsed; [apply chr_parsed|apply guarded_padded; [by left|lia|lia]]|]|].
    - unfold maybe_parser. erewrite sequence_right_parsed; [done|apply chr_parsed|]. unfold sec_parser, guard_parser. by rewrite Hv, Hsec.
    - unfold maybe_parser. by rewrite zone_none. }
  assert (dhms real is_second ([code "-"] ++ unum2 (day x) ++ [code "T"] ++ num2 h ++ [code ":"] ++ num2 m ++ [code ":"] ++ num2 s ++ [code "."] ++ num6 us ++ f) = parsed (day x, (h, (m, v, no_zone))) f) as Hd.
  { unfold dhms. eapply sequence_parsed; [eapply sequence_right_parsed; [apply chr_parsed|apply guarded_padded; [by right|lia|lia]]|].
    unfold maybe_parser, hms. erewrite sequence_parsed; [done|eapply sequence_right_parsed; [by eapply choice_left, choice_right; [|apply (chr_parsed "T")]|apply guarded_padded; [by left|lia|lia]]|].
    unfold maybe_parser. by rewrite Hms. }
  exists (compose minutes_seconds (year x, month x, (day x, (h, (m, v, no_zone))))). split.
  - unfold ymdhms_parser, date_text. rewrite <- !app_assoc. apply action_parsed.
    eapply sequence_parsed; [eapply sequence_parsed; [eapply sequence_left_parsed; [by apply year_text|apply chr_parsed]|apply guarded_padded; [by right|lia|lia]]|].
    unfold maybe_parser. by rewrite Hd.
  - unfold compose, no_zone. specialize (Hr (h * 60 + m - (0 * 60 + 0) * 1)). unfold hours in *. lia.
Qed.

Lemma time_point_text tp f : - 719468 <= tp / days < end_of_years → 1900 <= year (from_days (tp / days)) <= 9999 → time_ends f →
  ∃ t, ymdhms_parser real minutes_seconds is_second (time_point_printer tp ++ f) = parsed t f ∧ Z.abs (t - tp) < 2000.
Proof.
  intros Hr Hy Hf. destruct (to_from_days (tp / days) Hr) as [Hd Hv]. unfold time_point_printer. rewrite <- !app_assoc.
  pose proof (Z.div_mod tp days ltac:(done)) as Ht. pose proof (Z.mod_pos_bound tp days ltac:(done)) as Hb. set (t := tp - tp / days * days).
  assert (0 <= t < days) as Ht' by (unfold t; lia). unfold days, hours, minutes, seconds, milliseconds, microseconds in Ht'.
  set (h := Z.quot t hours). set (m := Z.quot (t - h * hours) minutes). set (s := Z.quot (t - h * hours - m * minutes) seconds).
  set (us := Z.quot (t - h * hours - m * minutes - s * seconds) 1000).
  assert (0 <= h < 24 ∧ 0 <= t - h * hours < hours) as [Hh Hh'] by (unfold h, hours, minutes, seconds, milliseconds, microseconds; Z.to_euclidean_division_equations; lia).
  assert (0 <= m < 60 ∧ 0 <= t - h * hours - m * minutes < minutes) as [Hm Hm'] by (unfold m, hours in *; clearbody h; unfold minutes, seconds, milliseconds, microseconds in *; Z.to_euclidean_division_equations; lia).
  assert (0 <= s < 60 ∧ 0 <= t - h * hours - m * minutes - s * seconds < seconds) as [Hs Hs'] by (unfold s in *; clearbody h m; unfold hours, minutes, seconds, milliseconds, microseconds in *; Z.to_euclidean_division_equations; lia).
  assert (0 <= us < 1000000 ∧ 0 <= t - h * hours - m * minutes - s * seconds - us * 1000 < 1000) as [Hus Hus'] by (unfold us in *; clearbody h m s; unfold hours, minutes, seconds, milliseconds, microseconds in *; Z.to_euclidean_division_equations; lia).
  destruct (ymdhms_text (from_days (tp / days)) h m s us f) as (r & Hp & Hr'); [by split|done..|]. exists r. split; [exact Hp|]. rewrite Hd in Hr'. unfold t in *. lia.
Qed.
End text.

(** A reference for the parser of doubles: microseconds in two and six digits. *)
Module reference_real.
Definition real : parser N :=
  (integral_parser.parse int32 2 2 decimal >>- chr "." >> integral_parser.parse int32 6 6 decimal) ->* (λ x, Z.to_N (x.1 * 1000000 + x.2)).
Definition minutes_seconds (m : Z) (v : N) : Z := m * minutes + Z.of_N v * 1000.
Definition is_second (v : N) : bool := (v <=? 60000000)%N.
End reference_real.
#[export] Instance reference_real_seconds : SecondsText reference_real.real reference_real.minutes_seconds reference_real.is_second.
Proof.
  intros s us f Hs Hus _. destruct (padded_spec int32 2 s) as (Hd & Hv & Hl); [by do 2 right; left|cbn; lia|lia|cbn; lia|cbn; lia|].
  destruct (padded_spec int32 6 us) as (Hd' & Hv' & Hl'); [by do 2 right; left|cbn; lia|lia|cbn; lia|cbn; lia|].
  exists (Z.to_N (s * 1000000 + us)). split_and!.
  - unfold reference_real.real. rewrite (action_parsed _ _ _ (s, us) f); [done|]. eapply sequence_parsed; [eapply sequence_left_parsed; [|apply chr_parsed]|].
    + unfold num2. rewrite (integral_digits int32 2 2), Hv; [done|done|done|lia|lia|by left|rewrite Hv; cbn; lia].
    + unfold num6. rewrite (integral_digits int32 6 6), Hv'; [done|done|done|lia|lia|by left|rewrite Hv'; cbn; lia].
  - apply N.leb_le. lia.
  - intros m. unfold reference_real.minutes_seconds, seconds, milliseconds, microseconds. lia.
Qed.
