(* ===== verification/ParserData.v ===== *)
(** The parser and the printer of data: [libvast/include/vast/concept/parseable/vast/data.hpp] and
    [libvast/include/vast/concept/printable/vast/data.hpp].

    What these call outside of the repository is a record of functions. *)

From Stdlib Require Import Ascii String.
From S2P Require Import Prelude Coding Strings Data Ip DataOps DataRecord Parser ParserNumeric ParserVast ParserTime.
#[local] Open Scope parser_scope.

(** The parser and the arithmetic of doubles, the clock and the network functions of the C library. *)
Record externals := mk_externals {
  real : parser N;
  scale_duration : Z → N → Z;
  minutes_seconds : Z → N → Z;
  double_seconds : N → Z;
  is_second : N → bool;
  now : Z;
  inet_pton : list N → option (list N)
}.

Section data.
Context (E : externals).

Definition time : parser Z := time_parser (real E) (scale_duration E) (minutes_seconds E) (double_seconds E) (is_second E) (now E).
Definition duration : parser Z := compound_duration_parser (real E) (scale_duration E).
Definition ip_ : parser (list N) := ip_parser (inet_pton E).
Definition net : parser subnet.t := subnet_parser (inet_pton E).
Definition no_dot : parser unit := and_parser (not_parser (chr ".")).
Definition number : parser data :=
  ((count >>- no_dot) ->* λ x, d_uint64 (Z.to_N x)) <|> ((integer >>- no_dot) ->* d_int64) <|> (real E ->* d_double).

(** [push_back] to a map and to a record keeps the first value of a key. *)
Definition map_emplace (xs : list (data * data)) (p : data * data) : list (data * data) :=
  if existsb (λ q, data_eqb q.1 p.1) xs then xs else xs ++ [p].
Definition record_emplace (xs : list (list N * data)) (p : list N * data) : list (list N * data) := stable_map.emplace p.1 p.2 xs.

Definition trailing_comma : parser unit := maybe_parser (chr "," >>> ws) tt.

(** The alternatives of the rule [p], by the parser that the references in it denote. *)
Section rule.
Context (p : parser data).
Definition x : parser data := ws ->> p >>- ws.
Definition kvp : parser (data * data) := x >>- lit "->" >> x.
Definition named_field : parser (list N * data) := (ws ->> identifier >>- lit ":") >> x.
Definition unnamed_field : parser (list N * data) := x ->* (λ value, ([], value)).
Definition list_data_parser : parser data :=
  (chr "[" ->> maybe_parser (list_parser x (chr ",")) [] >>- trailing_comma >>- chr "]") ->* d_list.
Definition map_data_parser : parser data :=
  (chr "{" ->> maybe_parser (list_parser kvp (chr ",") ->* foldl map_emplace []) [] >>- trailing_comma >>- chr "}") ->* d_map.
Definition record_parser : parser data :=
  ((chr "<" ->> maybe_parser (list_parser named_field (chr ",") ->* foldl record_emplace []) [] >>- trailing_comma >>- chr ">") ->* d_record)
  <|> ((chr "<" ->> list_parser unnamed_field (chr ",") >>- trailing_comma >>- chr ">") ->* d_record).
Definition data_alternatives : parser data :=
  (time ->* d_time)
  <|> (duration ->* d_duration)
  <|> (net ->* λ s, d_subnet (subnet.network_ s) (subnet.length_ s))
  <|> (ip_ ->* d_ip)
  <|> number
  <|> (boolean ->* d_bool)
  <|> (qqstr ->* d_string)
  <|> (pattern_parser ->* d_pattern)
  <|> list_data_parser
  <|> map_data_parser
  <|> record_parser
  <|> (lit "nil" ->* λ _, d_none)
  <|> (chr "_" ->* λ _, d_none).
End rule.

(** The rule, for inputs that are shorter than the fuel. *)
Fixpoint data_rule (fuel : nat) : parser data :=
  match fuel with O => λ _, loops | S fuel => data_alternatives (data_rule fuel) end.
Definition data_parser : parser data := λ f, data_rule (S (List.length f)) f.
End data.

(** ** Printing *)

(** The printers of doubles and the network functions of the C library. *)
Record print_externals := mk_print_externals {
  real_printer : N → list N;
  real2 : Z → Z → list N;
  inet_ntop4 : list N → option (list N);
  inet_ntop6 : list N → option (list N)
}.

Section print.
Context (P : print_externals).

(** [fmt::format_to(out, "{:+}", x)] *)
Definition signed_printer (x : Z) : list N :=
  (if (x <? 0)%Z then code "-" else code "+") :: print_numeric uint64 (Z.abs x).
Definition string_printer (x : list N) : list N := [quote] ++ escape x (make_extra_print_escaper [quote]) ++ [quote].
Definition pattern_printer (x : list N) : list N := [code "/"] ++ x ++ [code "/"].

(** [list_printer]: elements with a delimiter between them. *)
Definition join_printed (delim : list N) (xs : list (list N)) : list N :=
  match xs with [] => [] | x :: xs => x ++ concat ((λ y, delim ++ y) <$> xs) end.

Fixpoint data_printer (d : data) : option (list N) :=
  match d with
  | d_none => Some (codes "nil")
  | d_bool x => Some (bool_printer x)
  | d_int64 x => Some (signed_printer x)
  | d_uint64 x => Some (print_int uint64 (Z.of_N x))
  | d_double x => Some (real_printer P x)
  | d_duration x => Some (duration_printer (real2 P) x)
  | d_time x => Some (time_point_printer x)
  | d_string x => Some (string_printer x)
  | d_pattern x => Some (pattern_printer x)
  | d_ip x => ip_printer (inet_ntop4 P) (inet_ntop6 P) x
  | d_subnet x n => subnet_printer (inet_ntop4 P) (inet_ntop6 P) (subnet.mk x n)
  | d_enumeration x => Some (print_int uint8 (Z.of_N x))
  | d_list xs => texts ← mapM data_printer xs; Some (codes "[" ++ join_printed (codes ", ") texts ++ codes "]")
  | d_map xs =>
      texts ← mapM (λ kv, k ← data_printer kv.1; v ← data_printer kv.2; Some (k ++ codes " -> " ++ v)) xs;
      Some (codes "{" ++ join_printed (codes ", ") texts ++ codes "}")
  | d_record xs =>
      texts ← mapM (λ kv, v ← data_printer kv.2; Some (kv.1 ++ codes ": " ++ v)) xs;
      Some (codes "<" ++ join_printed (codes ", ") texts ++ codes ">")
  end.
End print.

(** ** The rule ends *)

(** A parser that ends on inputs that are shorter than a bound. *)
Class EndsBelow {A} (n : nat) (p : parser A) : Prop := ends_below f : (List.length f < n)%nat → p f ≠ loops.
#[export] Hint Mode EndsBelow - - ! : typeclass_instances.

Ltac below := match goal with H : ?p ?f = loops |- _ => exfalso; revert H; apply ends_below end.
Section below.
Context {A B : Type} (p p' : parser A) (q : parser B) (n : nat).
#[export] Instance total_below `{!Total p} : EndsBelow n p | 10.
Proof. intros f _. apply total_parser. Qed.
#[export] Instance sequence_below `{!EndsBelow n p, !Local p, !EndsBelow n q} : EndsBelow n (sequence_parser p q) | 3.
Proof.
  intros f Hf. unfold sequence_parser. destruct (p f) as [a f1|f1|] eqn:E; [|done|by below].
  apply (local_le p) in E. destruct (q f1) eqn:E'; [done|done|]. below. lia.
Qed.
#[export] Instance sequence_below_consuming `{!EndsBelow (S n) p, !Consuming p, !EndsBelow n q} : EndsBelow (S n) (sequence_parser p q) | 2.
Proof.
  intros f Hf. unfold sequence_parser. destruct (p f) as [a f1|f1|] eqn:E; [|done|by below].
  apply consuming_parser in E. destruct (q f1) eqn:E'; [done|done|]. below. lia.
Qed.
#[export] Instance choice_below `{!EndsBelow n p, !EndsBelow n p'} : EndsBelow n (choice_parser p p').
Proof. intros f Hf. unfold choice_parser. destruct (p f) eqn:E; [done| |by below]. destruct (p' f) eqn:E'; [done..|by below]. Qed.
#[export] Instance action_below `{!EndsBelow n p} (g : A → B) : EndsBelow n (action_parser p g).
Proof. intros f Hf. unfold action_parser. destruct (p f) eqn:E; [done|done|by below]. Qed.
#[export] Instance maybe_below `{!EndsBelow n p} a : EndsBelow n (maybe_parser p a).
Proof. intros f Hf. unfold maybe_parser. destruct (p f) eqn:E; [done|done|by below]. Qed.
Lemma kleene_loop_below `{!EndsBelow n p, !Consuming p} fuel f xs : (List.length f < n)%nat → (List.length f < fuel)%nat → kleene_loop fuel p f xs ≠ loops.
Proof.
  revert f xs. induction fuel as [|fuel IH]; intros f xs Hn Hf; cbn; [lia|]. destruct (p f) as [a f1|f1|] eqn:E; [|done|by below].
  apply consuming_parser in E. apply IH; lia.
Qed.
#[export] Instance kleene_below `{!EndsBelow n p, !Consuming p} : EndsBelow n (kleene_parser p).
Proof. intros f Hf. apply kleene_loop_below; lia. Qed.
Lemma list_loop_below `{!EndsBelow n p, !Consuming p, !Total q, !Local q} fuel f xs :
  (List.length f < n)%nat → (List.length f < fuel)%nat → list_loop fuel p q f xs ≠ loops.
Proof.
  revert f xs. induction fuel as [|fuel IH]; intros f xs Hn Hf; cbn; [lia|]. destruct (q f) as [b f1|f1|] eqn:Eq; [|done|parser_ends].
  apply (local_le q) in Eq. destruct (p f1) as [a f2|f2|] eqn:Ep; [|done|below; lia]. apply consuming_parser in Ep. apply IH; lia.
Qed.
#[export] Instance list_below `{!EndsBelow n p, !Consuming p, !Total q, !Local q} : EndsBelow n (list_parser p q).
Proof.
  intros f Hf. unfold list_parser. destruct (p f) as [a f1|f1|] eqn:E; [|done|by below]. apply consuming_parser in E. apply list_loop_below; lia.
Qed.
End below.

(** What the parsers rely on of the parser of doubles: it stays within the input, it consumes
    what it accepts, and it ends. *)
Class RealLaws (E : externals) : Prop := {
  real_local :: Local (real E);
  real_consuming :: Consuming (real E);
  real_total :: Total (real E)
}.

Section laws.
Context (E : externals) `{!RealLaws E}.
#[export] Instance foldl_choice_local {A B} (g : B → parser A) p xs : Local p → (∀ x, Local (g x)) → Local (foldl (λ p x, p <|> g x) p xs).
Proof. intros Hp Hg. revert p Hp. induction xs as [|x xs IH]; intros p Hp; cbn; [done|]. apply IH. apply _. Qed.
#[export] Instance foldl_choice_total {A B} (g : B → parser A) p xs : Total p → (∀ x, Total (g x)) → Total (foldl (λ p x, p <|> g x) p xs).
Proof. intros Hp Hg. revert p Hp. induction xs as [|x xs IH]; intros p Hp; cbn; [done|]. apply IH. apply _. Qed.
#[export] Instance unit_local : Local unit_.
Proof. apply (foldl_choice_local (λ x : string * Z, lit x.1 ->* λ _, x.2)); intros; unfold lit; apply _. Qed.
#[export] Instance unit_total : Total unit_.
Proof. apply (foldl_choice_total (λ x : string * Z, lit x.1 ->* λ _, x.2)); intros; unfold lit; apply _. Qed.

Ltac laws := repeat (unfold sequence_left, sequence_right, lit, chr, ws, char_parser, space, alnum); apply _.
#[export] Instance ws_local : Local ws.
Proof. laws. Qed.
#[export] Instance ws_total : Total ws.
Proof. laws. Qed.
#[export] Instance duration_local : Local (duration E).
Proof. unfold duration, compound_duration_parser, duration_parser. laws. Qed.
#[export] Instance duration_consuming : Consuming (duration E).
Proof. unfold duration, compound_duration_parser, duration_parser. laws. Qed.
#[export] Instance duration_total : Total (duration E).
Proof. unfold duration, compound_duration_parser, duration_parser. laws. Qed.

Lemma guarded_laws n guard : (0 < n)%nat → Local (guarded n guard) ∧ Consuming (guarded n guard) ∧ Total (guarded n guard).
Proof. intros Hn. pose proof (integral_consuming int32 n n decimal Hn). split_and!; apply _. Qed.
#[export] Instance guarded_local n guard : Local (guarded (S n) guard).
Proof. apply guarded_laws. lia. Qed.
#[export] Instance guarded_consuming n guard : Consuming (guarded (S n) guard).
Proof. apply guarded_laws. lia. Qed.
#[export] Instance guarded_total n guard : Total (guarded (S n) guard).
Proof. apply guarded_laws. lia. Qed.
#[export] Instance ymdhms_local : Local (ymdhms_parser (real E) (minutes_seconds E) (is_second E)).
Proof. unfold ymdhms_parser, year_parser, mon_parser, dhms, hms, ms, zone, sec_parser, time_divider. laws. Qed.
#[export] Instance ymdhms_consuming : Consuming (ymdhms_parser (real E) (minutes_seconds E) (is_second E)).
Proof. unfold ymdhms_parser, year_parser, mon_parser, dhms, hms, ms, zone, sec_parser, time_divider. laws. Qed.
#[export] Instance ymdhms_total : Total (ymdhms_parser (real E) (minutes_seconds E) (is_second E)).
Proof. unfold ymdhms_parser, year_parser, mon_parser, dhms, hms, ms, zone, sec_parser, time_divider. laws. Qed.
#[export] Instance time_local : Local (time E).
Proof. unfold time, time_parser, unix_ts, ParserTime.duration. laws. Qed.
#[export] Instance time_consuming : Consuming (time E).
Proof. unfold time, time_parser, unix_ts, ParserTime.duration. laws. Qed.
#[export] Instance time_total : Total (time E).
Proof. unfold time, time_parser, unix_ts, ParserTime.duration. laws. Qed.

#[export] Instance v4_consuming : Consuming ip_address_parser.v4.
Proof. unfold ip_address_parser.v4, ip_address_parser.dec. pose proof (integral_consuming uint16 3 1 decimal ltac:(lia)). laws. Qed.
#[export] Instance v6_consuming : Consuming ip_address_parser.v6.
Proof.
  unfold ip_address_parser.v6, ip_address_parser.ls32, ip_address_parser.h16s, ip_address_parser.h16, ip_address_parser.prefix, xdigit. laws.
Qed.
#[export] Instance ip_local : Local (ip_ E).
Proof.
  intros f. unfold ip_, ip_parser. destruct (ip_address_parser.v4 f) as [[[[a b] c] d] f1|f1|] eqn:E4; [parser_local| |done].
  destruct (ip_address_parser.v6 f1) as [u f2|f2|] eqn:E6; [|parser_local|done]. destruct (inet_pton E _); parser_local.
Qed.
#[export] Instance ip_consuming : Consuming (ip_ E).
Proof.
  intros f a f'. unfold ip_, ip_parser. destruct (ip_address_parser.v4 f) as [[[[b c] d] e] f1|f1|] eqn:E4; [intros [= _ <-]; parser_consumes| |done].
  pose proof (restoring_parser (p:=ip_address_parser.v4) _ _ E4) as ->. destruct (ip_address_parser.v6 f) as [u f2|f2|] eqn:E6; [|done..].
  destruct (inet_pton E _); [|done]. intros [= _ <-]. parser_consumes.
Qed.
#[export] Instance ip_total : Total (ip_ E).
Proof.
  intros f. unfold ip_, ip_parser. destruct (ip_address_parser.v4 f) as [[[[b c] d] e] f1|f1|] eqn:E4; [done| |parser_ends].
  destruct (ip_address_parser.v6 f1) as [u f2|f2|] eqn:E6; [by destruct (inet_pton E _)|done|parser_ends].
Qed.
#[export] Instance number_local : Local (number E).
Proof. unfold number, count, integer, si_parser, si_unit, no_dot. laws. Qed.
#[export] Instance number_consuming : Consuming (number E).
Proof. unfold number, count, integer, si_parser, si_unit, no_dot. laws. Qed.
#[export] Instance number_total : Total (number E).
Proof. unfold number, count, integer, si_parser, si_unit, no_dot. laws. Qed.
#[export] Instance boolean_local : Local boolean.
Proof.
  intros [|c f]; unfold boolean, bool_parser; [eauto|]. destruct (lit "true" (c :: f)) as [[] f1|f1|] eqn:E1; [parser_local| |done].
  destruct (lit "false" f1) as [[] f2|f2|] eqn:E2; parser_local.
Qed.
#[export] Instance boolean_consuming : Consuming boolean.
Proof.
  intros [|c f] b f'; unfold boolean, bool_parser; [done|]. destruct (lit "true" (c :: f)) as [[] f1|f1|] eqn:E1; [intros [= _ <-]; exact (consuming_parser (p:=lit "true") _ _ _ E1)| |done].
  pose proof (restoring_parser (p:=lit "true") _ _ E1) as ->. destruct (lit "false" _) as [[] f2|f2|] eqn:E2; [|done..]. intros [= _ <-]. exact (consuming_parser (p:=lit "false") _ _ _ E2).
Qed.
#[export] Instance boolean_total : Total boolean.
Proof.
  intros [|c f]; unfold boolean, bool_parser; [done|]. destruct (lit "true" (c :: f)) as [[] f1|f1|] eqn:E1; [done| |parser_ends].
  destruct (lit "false" f1) as [[] f2|f2|] eqn:E2; [done..|parser_ends].
Qed.
Lemma str_chr_laws quote esc : Local (str_chr quote esc) ∧ Consuming (str_chr quote esc) ∧ Total (str_chr quote esc).
Proof. unfold str_chr, ignore_esc, printable, cntrl. split_and!; laws. Qed.
#[export] Instance quoted_local quote esc : Local (quoted_string_parser quote esc).
Proof. destruct (str_chr_laws quote esc) as (? & ? & ?). unfold quoted_string_parser, ignore_quote. laws. Qed.
#[export] Instance quoted_consuming quote esc : Consuming (quoted_string_parser quote esc).
Proof. destruct (str_chr_laws quote esc) as (? & ? & ?). unfold quoted_string_parser, ignore_quote. laws. Qed.
#[export] Instance quoted_total quote esc : Total (quoted_string_parser quote esc).
Proof. destruct (str_chr_laws quote esc) as (? & ? & ?). unfold quoted_string_parser, ignore_quote. laws. Qed.

(** The scalar alternatives of the rule. *)
Definition scalar_alternatives : parser data :=
  (time E ->* d_time)
  <|> (duration E ->* d_duration)
  <|> (net E ->* λ s, d_subnet (subnet.network_ s) (subnet.length_ s))
  <|> (ip_ E ->* d_ip)
  <|> number E
  <|> (boolean ->* d_bool)
  <|> (qqstr ->* d_string)
  <|> (pattern_parser ->* d_pattern).
Lemma scalar_laws : Local scalar_alternatives ∧ Consuming scalar_alternatives ∧ Total scalar_alternatives.
Proof. unfold scalar_alternatives, net, subnet_parser, subnet_prefix, qqstr, pattern_parser. fold (ip_ E). split_and!; laws. Qed.

Section rule_laws.
Context (p : parser data) `{!Local p, !Consuming p}.
Lemma identifier_laws : Local identifier ∧ Consuming identifier ∧ Total identifier.
Proof. unfold identifier, identifier_char. split_and!; laws. Qed.
Lemma data_alternatives_laws : Local (data_alternatives E p) ∧ Consuming (data_alternatives E p) ∧ ∀ n, EndsBelow n p → EndsBelow (S n) (data_alternatives E p).
Proof.
  destruct scalar_laws as (? & ? & ?), identifier_laws as (? & ? & ?).
  change (data_alternatives E p) with (scalar_alternatives <|> list_data_parser p <|> map_data_parser p <|> record_parser p <|> (lit "nil" ->* λ _, d_none) <|> (chr "_" ->* λ _, d_none)).
  unfold list_data_parser, map_data_parser, record_parser, named_field, unnamed_field, kvp, x, trailing_comma. split_and!; [laws..|].
  intros n Hn. laws.
Qed.
End rule_laws.

Lemma data_rule_laws n : Local (data_rule E n) ∧ Consuming (data_rule E n) ∧ EndsBelow n (data_rule E n).
Proof.
  induction n as [|n (IH1 & IH2 & IH3)]; [split_and!; [done..|intros f Hf; lia]|]. cbn [data_rule].
  destruct (data_alternatives_laws (data_rule E n)) as (? & ? & H); auto.
Qed.
#[export] Instance data_local : Local (data_parser E).
Proof. intros f. unfold data_parser. destruct (data_rule_laws (S (List.length f))) as (H & _ & _). apply H. Qed.
#[export] Instance data_consuming : Consuming (data_parser E).
Proof. intros f a f'. unfold data_parser. destruct (data_rule_laws (S (List.length f))) as (_ & H & _). apply H. Qed.
#[export] Instance data_total : Total (data_parser E).
Proof. intros f. unfold data_parser. destruct (data_rule_laws (S (List.length f))) as (_ & _ & H). apply H. lia. Qed.
End laws.
