(* ===== verification/ParserDataSpec.v ===== *)
(** The texts of data: what is printed is parsed again, for values without doubles, durations,
    times and addresses, whose texts depend on functions outside of the repository. *)

From Stdlib Require Import Ascii String.
From S2P Require Import Prelude Coding Strings Data Ip DataOps DataRecord Parser ParserNumeric ParserVast ParserVastSpec ParserTime ParserData.
#[local] Open Scope parser_scope.

(** ** Failure, for parsers with attributes *)

Section failure.
Context {A B : Type} (p p' : parser A) (q : parser B).
Lemma fails_eq f f' : p f = failed f' → fails p f.
Proof. by exists f'. Qed.
Lemma fails_sequence_left f : fails p f → fails (p >> q) f.
Proof. intros [f' H]. eexists. eapply sequence_failed_left; eauto. Qed.
Lemma fails_sequence_right f a f1 : p f = parsed a f1 → fails q f1 → fails (p >> q) f.
Proof. intros H [f' H']. eexists. eapply sequence_failed_right; eauto. Qed.
Lemma fails_action (g : A → B) f : fails p f → fails (p ->* g) f.
Proof. intros [f' H]. eexists. by eapply action_failed. Qed.
Lemma fails_guard (g : A → option B) f : fails p f → fails (guard_parser p g) f.
Proof. intros [f' H]. unfold guard_parser. exists f'. by rewrite H. Qed.
Lemma fails_plus f : fails p f → fails (plus_parser p) f.
Proof. intros [f' H]. unfold plus_parser. exists f'. by rewrite H. Qed.
Lemma fails_list f : fails p f → fails (list_parser p q) f.
Proof. intros [f' H]. unfold list_parser. exists f'. by rewrite H. Qed.
Lemma choice_right_fails f a f' : fails p f → p' f = parsed a f' → (p <|> p') f = parsed a f'.
Proof. intros [f1 H] H'. by eapply choice_right. Qed.
Lemma maybe_fails `{!Restoring p} a f : fails p f → maybe_parser p a f = parsed a f.
Proof. intros H%fails_restoring; [|done]. unfold maybe_parser. by rewrite H. Qed.
End failure.
Lemma fails_seqleft {A} (p : parser A) (q : parser unit) f : fails p f → fails (p >>- q) f.
Proof. intros H. apply fails_action. by apply fails_sequence_left. Qed.
Lemma fails_seqleft_right {A} (p : parser A) (q : parser unit) f a f1 : p f = parsed a f1 → fails q f1 → fails (p >>- q) f.
Proof. intros H H'. apply fails_action. by eapply fails_sequence_right. Qed.
Lemma fails_seqright {A} (p : parser unit) (q : parser A) f : fails p f → fails (p ->> q) f.
Proof. intros H. apply fails_action. by apply fails_sequence_left. Qed.
Lemma fails_seqright_right {A} (p : parser unit) (q : parser A) f f1 : p f = parsed tt f1 → fails q f1 → fails (p ->> q) f.
Proof. intros H H'. apply fails_action. by eapply fails_sequence_right. Qed.
#[export] Hint Resolve fails_sequence_left fails_action fails_guard fails_plus fails_list fails_seqleft fails_seqright fails_ignore : outcomedb.

(** *** Characters and literals *)

Lemma fails_chr c f : starts_not (N.eqb (code c)) f → fails (chr c) f.
Proof. intros H. eexists. by apply chr_failed. Qed.
Lemma fails_class test f : starts_not test f → fails (char_class_parser test) f.
Proof. intros H. eexists. by apply char_class_failed. Qed.
Lemma fails_lit s f : starts_with f (codes s) = false → fails (lit s) f.
Proof. intros H. exists f. unfold lit, literal_parser. by rewrite literal_loop_spec, H. Qed.

(** A loop over a parser that reads the characters of a class. *)
Lemma plus_class (p : parser N) test cs f : (∀ f, p f = char_class_parser test f) → cs ≠ [] → Forall (λ c, test c = true) cs → starts_not test f →
  plus_parser p (cs ++ f) = parsed cs f.
Proof.
  intros Hp Hne Hcs Hf. assert (∀ fuel f xs, kleene_loop fuel p f xs = kleene_loop fuel (char_class_parser test) f xs) as Hl.
  { intros fuel. induction fuel as [|fuel IH]; intros f' xs; cbn [kleene_loop]; [done|]. rewrite Hp. destruct (char_class_parser test f'); [apply IH|done|done]. }
  unfold plus_parser. destruct Hcs as [|c cs Hc Hcs]; [done|]. rewrite Hp. cbn [app char_class_parser]. rewrite Hc, Hl.
  rewrite (kleene_loop_class _ _ cs f [c]) by (done || rewrite length_app; lia). done.
Qed.

(** No name is in front. *)
Definition no_prefix {A} (names : list (string * A)) (f : list N) : bool := forallb (λ x, negb (starts_with f (codes x.1))) names.
Lemma fails_names {A} (names : list (string * A)) f : no_prefix names f = true → fails (names_parser names) f.
Proof.
  destruct names as [|[s a] names]; [by exists f|]. unfold no_prefix. cbn [forallb]. intros [Hs Hn]%andb_true_iff. apply negb_true_iff in Hs.
  unfold names_parser. assert (fails (lit s ->* λ _, a) f) as H by (by apply fails_action, fails_lit). revert H. generalize (lit s ->* λ _, a) as p.
  induction names as [|[s' a'] names IH]; intros p Hp; [done|]. cbn [forallb] in Hn. apply andb_true_iff in Hn as [Hs' Hn]. cbn [foldl]. apply (IH Hn).
  apply fails_choice; [done|]. apply fails_action, fails_lit. by apply negb_true_iff.
Qed.

(** *** White space *)

Fixpoint skip_spaces (f : list N) : list N := match f with c :: f' => if isspace c then skip_spaces f' else f | [] => [] end.
Lemma skip_spaces_split f : ∃ k, f = k ++ skip_spaces f ∧ Forall (λ c, isspace c = true) k ∧ starts_not isspace (skip_spaces f).
Proof.
  induction f as [|c f (k & Hk & Hs & Hn)]; [by exists []|]. cbn. destruct (isspace c) eqn:E; [|by exists []].
  exists (c :: k). split; [by rewrite Hk at 1|]. split; [by constructor|done].
Qed.
Lemma ws_spec f : ws f = parsed tt (skip_spaces f).
Proof.
  destruct (skip_spaces_split f) as (k & Hk & Hs & Hn). unfold ws, kleene_parser, space. apply (ignore_parsed _ _ k). rewrite Hk at 2.
  apply kleene_loop_class; [done|done|]. apply (f_equal (@List.length N)) in Hk. rewrite length_app in Hk. lia.
Qed.
Lemma skip_spaces_none f : starts_not isspace f → skip_spaces f = f.
Proof. destruct f as [|c f]; [done|]. cbn. by intros ->. Qed.

(** *** Numbers *)

Definition no_sign_digit (f : list N) : Prop := starts_not (λ c, isdigit c || (c =? code "+") || (c =? code "-")) f.
Lemma fails_integral T n m f : (0 < m)%nat → no_sign_digit f → fails (integral_parser.parse T n m decimal) f.
Proof.
  intros Hm Hf. unfold fails, integral_parser.parse. destruct f as [|c f]; [by eexists|]. unfold no_sign_digit, starts_not in Hf.
  apply orb_false_iff in Hf as [[Hd Hp]%orb_false_iff Hn]. unfold integral_parser.dispatch, integral_parser.parse_pos, integral_parser.accumulate.
  assert (integral_parser.parse_sign (c :: f) = (false, c :: f)) as -> by (cbv beta iota delta [integral_parser.parse_sign]; by rewrite Hn, Hp).
  assert (∀ g, integral_parser.accumulate_loop decimal g n (c :: f) 0 0 = (c :: f, 0%Z, 0%nat)) as E.
  { intros g. destruct n; [done|]. cbn [integral_parser.accumulate_loop]. change (integral_parser.is_digit decimal c) with (isdigit c). by rewrite Hd. }
  rewrite E. rewrite bool_decide_eq_false_2 by lia. destruct (is_signed T); by eexists.
Qed.
#[export] Hint Resolve fails_class fails_chr : outcomedb.

(** Hex digits without a colon behind them are no address. *)
Section no_address.
Import ip_address_parser.
Context (g t : list N) (Hg : Forall (λ c, hex.isxdigit c = true) g) (Ht : no_xdigit t).

Lemma h16_within : fails h16 (g ++ t) ∨ ∃ g', succeeds h16 (g ++ t) (g' ++ t) ∧ Forall (λ c, hex.isxdigit c = true) g'.
Proof.
  destruct (decide (g = [])) as [->|Hne]; [left; by apply h16_none|right]. exists (drop 4 g). split; [|by apply Forall_drop].
  rewrite <- (take_drop 4 g) at 1. rewrite <- app_assoc. exists (take 4 g). unfold h16, repeat_parser, xdigit. rewrite bool_decide_eq_false_2 by done.
  rewrite (repeat_loop_class hex.isxdigit 4 (take 4 g)).
  - cbn [app]. rewrite bool_decide_eq_true_2; [done|]. rewrite length_take. destruct g; [done|cbn; lia].
  - by apply Forall_take.
  - rewrite length_take. lia.
  - destruct (decide (4 <= List.length g)%nat); [left; rewrite length_take; lia|right]. by rewrite drop_ge by lia.
Qed.
Context (Hl : ∀ g', Forall (λ c, hex.isxdigit c = true) g' → fails (lit "::") (g' ++ t)) (Hh : fails (h16 >>> chr ":") (g ++ t)).
Lemma h16_double : fails (h16 >>> chr ":") (g ++ t) ∧ fails (lit "::") (g ++ t) ∧ fails (ignore_parser (optional_parser h16) >>> lit "::") (g ++ t) ∧
  ∀ n, fails (prefix n >>> lit "::") (g ++ t).
Proof.
  split_and!; [done|by apply Hl|..].
  - destruct h16_within as [H|(g' & H & Hg')].
    + eapply fails_seq_right; [by apply succeeds_ignore, fails_optional; [apply _|]|by apply Hl].
    + eapply fails_seq_right; [by apply succeeds_ignore, succeeds_optional|by apply Hl].
  - intros n. assert (succeeds (repeat_parser 0 n h16_colon) (g ++ t) (g ++ t)) as Hr.
    { apply (succeeds_repeat _ 0 n 0); [done|lia|right]. apply fails_restoring; [apply _|]. unfold h16_colon. by apply fails_seq_left. }
    destruct h16_within as [H|(g' & H & Hg')].
    + eapply fails_seq_right; [apply succeeds_ignore, fails_optional; [apply _|]; by eapply fails_seq_right|by apply Hl].
    + eapply fails_seq_right; [apply succeeds_ignore, succeeds_optional; by eapply succeeds_seq|by apply Hl].
Qed.
Lemma v6_stuck : fails v6 (g ++ t).
Proof.
  destruct h16_double as (H1 & H2 & H3 & H4). unfold v6. repeat apply fails_choice; eauto 6 using fails_seq_left.
  apply fails_seq_left. apply (fails_repeat _ 6 6 0 _ (g ++ t)); [done|lia|]. by apply fails_restoring; [apply _|].
Qed.
End no_address.
Lemma v6_none g t : Forall (λ c, hex.isxdigit c = true) g → no_xdigit t → starts_not (N.eqb colon) t → fails ip_address_parser.v6 (g ++ t).
Proof.
  intros Hg Ht Hc. assert (∀ g', Forall (λ c, hex.isxdigit c = true) g' → starts_not (N.eqb colon) (g' ++ t)) as Hx.
  { intros g' [|c g'' Hxc _]; [done|]. cbn [app starts_not]. rewrite N.eqb_sym. by apply xdigit_no_colon. }
  apply v6_stuck; [done..|intros g' Hg'; apply lit_double_fails; left; by apply Hx|].
  destruct (h16_within g t Hg Ht) as [H|(g' & H & Hg')]; [by apply fails_seq_left|]. eapply fails_seq_right; [exact H|]. apply fails_chr. by apply Hx.
Qed.
(** Nor is a single colon. *)
Lemma v6_colon f : starts_not (N.eqb colon) f → fails ip_address_parser.v6 (colon :: f).
Proof.
  intros Hf. apply (v6_stuck [] (colon :: f)); [done|done| |apply fails_seq_left; by apply h16_none].
  intros g' [|c g'' Hxc _]; apply lit_double_fails; [right; by exists f|]. left. cbn [app starts_not]. rewrite N.eqb_sym. by apply xdigit_no_colon.
Qed.

(** ** The parser of doubles *)

(** What a text of a double begins with: a sign, a digit, a dot, or a name of infinity or NaN. *)
Definition real_start (f : list N) : bool :=
  match f with
  | c :: f =>
      isdigit c || (c =? code "+") || (c =? code "-") || (c =? code ".")
      || (((c =? code "i") || (c =? code "I")) && (match f with c :: _ => (c =? code "n") || (c =? code "N") | [] => false end))
      || (((c =? code "n") || (c =? code "N")) && (match f with c :: _ => (c =? code "a") || (c =? code "A") | [] => false end))
  | [] => false
  end.
(** What continues a number. *)
Definition number_ends (f : list N) : bool :=
  match f with c :: _ => negb (isdigit c || (c =? code ".") || (c =? code "e") || (c =? code "E")) | [] => true end.
Class RealText (E : externals) : Prop := {
  real_laws :: RealLaws E;
  real_begins f a f' : real E f = parsed a f' → real_start f = true;
  (** An integer is read to its end, or not at all. *)
  real_integer sign ds f : sign = [] ∨ sign = [code "+"] ∨ sign = [code "-"] → ds ≠ [] → Forall is_decimal ds → number_ends f = true →
    (∃ v, real E (sign ++ ds ++ f) = parsed v f) ∨ fails (real E) (sign ++ ds ++ f)
}.

(** What may follow data: no continuation of a number, and no unit behind white space. *)
Definition si_names : list (string * unit) :=
  [("Ki", tt); ("Mi", tt); ("Gi", tt); ("Ti", tt); ("Pi", tt); ("Ei", tt); ("k", tt); ("M", tt); ("G", tt); ("T", tt); ("P", tt); ("E", tt)]%string.
Definition data_ends (f : list N) : bool :=
  number_ends f && (match f with c :: _ => negb (hex.isxdigit c || (c =? colon) || (c =? code "-") || (c =? code "/")) | [] => true end)
  && no_prefix unit_names (skip_spaces f) && no_prefix si_names (skip_spaces f).

Section scalars.
Context (E : externals) `{!RealText E}.

Lemma fails_real f : real_start f = false → fails (real E) f.
Proof.
  intros Hf. destruct (real E f) as [a f'|f'|] eqn:H; [apply real_begins in H; congruence|by exists f'|by apply total_parser in H].
Qed.
(** The scalars that are tried first, on a text that begins otherwise. *)
Definition early_scalars : parser data :=
  (time E ->* d_time) <|> (duration E ->* d_duration) <|> (net E ->* λ s, d_subnet (subnet.network_ s) (subnet.length_ s)) <|> (ip_ E ->* d_ip).

Lemma fails_duration f : fails (real E) f → fails (duration E) f.
Proof. intros H. unfold duration, compound_duration_parser, duration_parser. eauto 8 with outcomedb. Qed.
Lemma fails_ip f : fails ip_address_parser.v4 f → fails ip_address_parser.v6 f → fails (ip_ E) f.
Proof.
  intros H4 [f' H6]. unfold fails, ip_, ip_parser. rewrite (fails_restoring ip_address_parser.v4 f H4), H6. by eexists.
Qed.
Lemma fails_net f : fails (ip_ E) f → fails (net E) f.
Proof. intros H. unfold net, subnet_parser. eauto 6 with outcomedb. Qed.
Lemma fails_time f : fails year_parser f → fails (duration E) f → starts_not (N.eqb (code "@")) f → fails (lit "now") f → fails (lit "in") f → fails (time E) f.
Proof.
  intros Hy Hd Ha Hn Hi. unfold time, time_parser, ymdhms_parser. fold (duration E). repeat apply fails_choice; eauto 8 with outcomedb.
Qed.

(** A text that is no number and no address. *)
Definition no_scalar (f : list N) : Prop :=
  no_sign_digit f ∧ starts_not (N.eqb (code "@")) f ∧ real_start f = false ∧ starts_with f (codes "now") = false ∧ starts_with f (codes "in") = false ∧
  fails ip_address_parser.v4 f ∧ fails ip_address_parser.v6 f.
Lemma fails_early f : no_scalar f → fails early_scalars f ∧ fails (number E) f.
Proof.
  intros (Hs & Ha & Hr & Hn & Hi & H4 & H6). apply fails_real in Hr. pose proof (fails_duration f Hr) as Hd. pose proof (fails_ip f H4 H6) as Hip.
  split.
  - unfold early_scalars. repeat apply fails_choice; eauto using fails_net with outcomedb.
    apply fails_action, fails_time; auto using fails_lit. by apply fails_guard, fails_integral; [lia|].
  - unfold number, count, integer, si_parser, si_unit. assert (∀ T, fails (integral T) f) as Hf by (intros T; apply fails_integral; [lia|done]).
    repeat apply fails_choice; eauto 8 with outcomedb; apply fails_action, fails_seqleft; repeat apply fails_choice; eauto 8 with outcomedb.
Qed.
Lemma no_scalar_word g t : Forall (λ c, hex.isxdigit c = true) g → no_xdigit t → starts_not (N.eqb colon) t → starts_not (N.eqb (code ".")) t →
  no_sign_digit (g ++ t) → starts_not (N.eqb (code "@")) (g ++ t) → real_start (g ++ t) = false → starts_with (g ++ t) (codes "now") = false → starts_with (g ++ t) (codes "in") = false →
  no_scalar (g ++ t).
Proof. intros Hg Ht Hc Hd H1 H2 H3 H4 H5. repeat (split; [done|]). split; [by apply v4_none|by apply v6_none]. Qed.
End scalars.

(** ** Numbers *)

Lemma decimal_xdigit ds : Forall is_decimal ds → Forall (λ c, hex.isxdigit c = true) ds.
Proof. intros H. eapply list.Forall_impl; [exact H|]. intros c Hc. unfold hex.isxdigit. apply orb_true_iff. left. apply orb_true_iff. by left. Qed.
Definition is_sign (s : list N) : Prop := s = [] ∨ s = [code "+"] ∨ s = [code "-"].

Lemma integral_within n m sign ds f a f' : is_sign sign → ds ≠ [] → Forall is_decimal ds → no_xdigit f →
  integral_parser.parse int32 n m decimal (sign ++ ds ++ f) = parsed a f' → ∃ g, f' = g ++ f ∧ Forall (λ c, hex.isxdigit c = true) g.
Proof.
  intros Hs Hne Hds Hf. unfold integral_parser.parse, integral_parser.dispatch. cbn [is_signed int32].
  assert (∃ b, integral_parser.parse_sign (sign ++ ds ++ f) = (b, ds ++ f)) as [b ->].
  { destruct Hs as [->|[->| ->]]; [|by eexists..]. exists false. rewrite app_nil_l. apply parse_sign_digits; [done|]. destruct ds; [done|cbn; lia]. }
  destruct (sign ++ ds ++ f) as [|c0 f0]; [done|]. unfold integral_parser.parse_pos, integral_parser.parse_neg, integral_parser.accumulate.
  destruct (ds ++ f) as [|c1 f1] eqn:Ed; [by destruct b|]. rewrite <- Ed. clear Ed.
  destruct b; match goal with |- context [integral_parser.accumulate_loop decimal ?acc n _ 0 0] =>
    destruct (accumulate_loop_within acc n ds f 0 0 (decimal_xdigit ds Hds) Hf) as (g & Hg & Hx); destruct (integral_parser.accumulate_loop decimal acc n (ds ++ f) 0 0) as [[f2 v] k] end;
    cbn in Hg; case_bool_decide; try done; intros [= _ <-]; eauto.
Qed.

Lemma data_ends_spec f : data_ends f = true → number_ends f = true ∧ no_xdigit f ∧ starts_not (N.eqb colon) f ∧ starts_not (N.eqb (code "-")) f ∧
  starts_not (N.eqb (code ".")) f ∧ no_digit f ∧ no_prefix unit_names (skip_spaces f) = true ∧ no_prefix si_names (skip_spaces f) = true.
Proof.
  unfold data_ends. intros [[[Hn Hx]%andb_true_iff Hu]%andb_true_iff Hsi]%andb_true_iff. split_and!; try done; destruct f as [|c f]; try done; cbn [starts_not no_digit number_ends] in *;
    apply negb_true_iff in Hn, Hx; repeat match goal with H : _ || _ = false |- _ => apply orb_false_iff in H as [? ?] end; unfold no_xdigit, starts_not; try done; by rewrite N.eqb_sym.
Qed.
Lemma starts_with_sign_digit sign ds f (c : ascii) (s : string) : is_sign sign → ds ≠ [] → Forall is_decimal ds → isdigit (code c) = false → (code c =? code "+") = false → (code c =? code "-") = false →
  starts_with (sign ++ ds ++ f) (codes (String c s)) = false.
Proof.
  intros Hs Hne Hds Hc Hp Hm. destruct Hds as [|d ds Hd _]; [done|]. change (codes (String c s)) with (code c :: codes s).
  destruct Hs as [->|[->| ->]]; cbn [app starts_with]; [destruct (N.eqb_spec d (code c)) as [->|]; [unfold is_decimal in Hd; congruence|done]|by rewrite N.eqb_sym, Hp|by rewrite N.eqb_sym, Hm].
Qed.
Lemma fails_integral_unsigned T n m f : is_signed T = false → (0 < m)%nat → no_digit f → fails (integral_parser.parse T n m decimal) f.
Proof.
  intros HT Hm Hf. unfold fails, integral_parser.parse. destruct f as [|c f]; [by eexists|]. unfold integral_parser.dispatch, integral_parser.parse_pos, integral_parser.accumulate. rewrite HT.
  match goal with |- context [integral_parser.accumulate_loop decimal ?g n (c :: f) 0 0] => assert (integral_parser.accumulate_loop decimal g n (c :: f) 0 0 = (c :: f, 0%Z, 0%nat)) as -> end.
  { destruct n; [done|]. cbn [integral_parser.accumulate_loop]. change (integral_parser.is_digit decimal c) with (isdigit c). by rewrite Hf. }
  rewrite bool_decide_eq_false_2 by lia. by eexists.
Qed.

Section numbers.
Context (E : externals) `{!RealText E}.

Lemma number_no_duration sign ds f : is_sign sign → ds ≠ [] → Forall is_decimal ds → data_ends f = true → fails (duration E) (sign ++ ds ++ f).
Proof.
  intros Hs Hne Hds (Hn & _ & _ & _ & _ & _ & Hu & _)%data_ends_spec. destruct (real_integer sign ds f Hs Hne Hds Hn) as [[v Hv]|H]; [|by apply fails_duration].
  unfold duration, compound_duration_parser, duration_parser. apply fails_action, fails_sequence_left, fails_action.
  eapply fails_sequence_right; [eapply sequence_left_parsed; [exact Hv|apply ws_spec]|]. by apply fails_names.
Qed.
Lemma number_early sign ds f : is_sign sign → ds ≠ [] → Forall is_decimal ds → data_ends f = true → fails (early_scalars E) (sign ++ ds ++ f).
Proof.
  intros Hs Hne Hds Hf. pose proof (number_no_duration sign ds f Hs Hne Hds Hf) as Hd. pose proof (data_ends_spec f Hf) as (Hn & Hx & Hc & Hm & Hdot & Hdg & _ & _).
  assert (fails ip_address_parser.v4 (sign ++ ds ++ f) ∧ fails ip_address_parser.v6 (sign ++ ds ++ f)) as [H4 H6].
  { destruct Hs as [->|[->| ->]]; [rewrite app_nil_l; pose proof (decimal_xdigit ds Hds); split; [by apply v4_none|by apply v6_none]|..].
    - split; [exact (v4_none [] (code "+" :: ds ++ f) (Forall_nil_2 _) eq_refl eq_refl)|exact (v6_none [] (code "+" :: ds ++ f) (Forall_nil_2 _) eq_refl eq_refl)].
    - split; [exact (v4_none [] (code "-" :: ds ++ f) (Forall_nil_2 _) eq_refl eq_refl)|exact (v6_none [] (code "-" :: ds ++ f) (Forall_nil_2 _) eq_refl eq_refl)]. }
  pose proof (fails_ip E _ H4 H6) as Hip. unfold early_scalars. repeat apply fails_choice; eauto using fails_net with outcomedb. apply fails_action.
  unfold time, time_parser. fold (duration E). repeat apply fails_choice; eauto 8 with outcomedb.
  - unfold ymdhms_parser. apply fails_action, fails_sequence_left, fails_sequence_left. unfold year_parser, guarded, guard_parser.
    destruct (integral_parser.parse int32 4 4 decimal (sign ++ ds ++ f)) as [a f'|f'|] eqn:Ei; [|apply fails_seqleft; exists f'; by rewrite Ei|by apply total_parser in Ei].
    destruct (1900 <=? a)%Z eqn:Ea; [|apply fails_seqleft; exists f'; by rewrite Ei, Ea]. eapply fails_seqleft_right; [by rewrite Ei, Ea|].
    destruct (integral_within 4 4 sign ds f a f' Hs Hne Hds Hx Ei) as (g & -> & Hg). apply fails_chr. destruct Hg as [|c g Hcx _]; [done|]. cbn [app starts_not].
    destruct (N.eqb_spec (code "-") c) as [<-|]; [by vm_compute in Hcx|done].
  - apply fails_seqright, fails_chr. destruct Hds as [|d ds Hdd _]; [done|]. destruct Hs as [->|[->| ->]]; [|done..]. cbn [app starts_not].
    destruct (N.eqb_spec (code "@") d) as [<-|]; [by vm_compute in Hdd|done].
  - apply fails_seqright, fails_seq_left, fails_lit, starts_with_sign_digit; done.
  - apply fails_action, fails_lit, starts_with_sign_digit; done.
  - apply fails_seqright, fails_seq_left, fails_lit, starts_with_sign_digit; done.
Qed.

(** A number without a suffix. *)
Lemma si_plain T x s f : integral T (s ++ f) = parsed x f → data_ends f = true → si_parser T (s ++ f) = parsed x f.
Proof.
  intros Hi (_ & _ & _ & _ & _ & _ & _ & Hsi)%data_ends_spec. unfold no_prefix, si_names in Hsi. cbn [forallb fst] in Hsi.
  repeat match goal with H : _ && _ = true |- _ => apply andb_true_iff in H as [?%negb_true_iff ?] end.
  assert (∀ suffix factor, starts_with (skip_spaces f) (codes suffix) = false → fails (si_unit T suffix factor) (s ++ f)) as Hu.
  { intros suffix factor Hp. unfold si_unit. apply fails_action. eapply fails_seqleft_right; [|by apply fails_lit]. eapply sequence_left_parsed; [exact Hi|apply ws_spec]. }
  unfold si_parser. apply choice_right_fails; [|done]. repeat apply fails_choice; by apply Hu.
Qed.
Lemma no_dot_ends f : starts_not (N.eqb (code ".")) f → no_dot f = parsed tt f.
Proof. intros Hf. unfold no_dot, and_parser, not_parser. by rewrite chr_failed. Qed.
Lemma uint64_text x f : x < 2 ^ 64 → data_ends f = true → number E (print_int uint64 (Z.of_N x) ++ f) = parsed (d_uint64 x) f.
Proof.
  intros Hx Hf. pose proof (data_ends_spec f Hf) as (_ & _ & _ & _ & Hdot & Hdg & _ & _).
  unfold number. do 2 apply choice_left. rewrite (action_parsed _ _ _ (Z.of_N x) f); [by rewrite N2Z.id|].
  eapply sequence_left_parsed; [|by apply no_dot_ends]. apply si_plain; [|done]. apply integral_print; [by do 7 right; left|unfold int_range; cbn; lia|by right|done].
Qed.
Lemma signed_digits x : (Z.abs x <= 2 ^ 63)%Z → let ds := print_numeric uint64 (Z.abs x) in
  Forall is_decimal ds ∧ decimal_value 0 ds = Z.abs x ∧ (1 <= List.length ds <= 19)%nat.
Proof.
  intros Hx. destruct (print_numeric_spec uint64 (Z.abs x)) as (Hd & Hv & Hl & _); [by do 7 right; left|cbn; lia|]. cbv zeta. split_and!; try done.
  unfold print_numeric. destruct (Z.abs x =? 0)%Z; [cbn; lia|]. rewrite length_rev. change (S (digits10 uint64)) with 20%nat.
  rewrite (digits_loop_enough 19 20) by (cbn; lia). apply length_digits_loop.
Qed.
Lemma int64_text x f : (- 2 ^ 63 <= x < 2 ^ 63)%Z → data_ends f = true → number E (signed_printer x ++ f) = parsed (d_int64 x) f.
Proof.
  intros Hx Hf. pose proof (data_ends_spec f Hf) as (_ & _ & _ & _ & Hdot & Hdg & _ & _). destruct (signed_digits x ltac:(lia)) as (Hd & Hv & Hl).
  unfold number. apply choice_left, choice_right_fails.
  - apply fails_action, fails_seqleft. unfold count, si_parser, si_unit. assert (fails (integral uint64) (signed_printer x ++ f)) as Hi.
    { apply fails_integral_unsigned; [done|lia|]. unfold signed_printer. cbn [app no_digit]. by destruct (x <? 0)%Z. }
    repeat apply fails_choice; eauto 8 with outcomedb.
  - apply action_parsed. eapply sequence_left_parsed; [|by apply no_dot_ends]. apply si_plain; [|done]. unfold signed_printer, integral, integral_parser.parse, integral_parser.dispatch.
    cbn [is_signed int64 app]. change (S (digits10 int64)) with 19%nat. destruct (Z.ltb_spec x 0).
    + cbn [integral_parser.parse_sign]. rewrite N.eqb_refl. cbv beta iota. rewrite integral_neg; [rewrite Hv; f_equal; lia|done|done|lia|lia|by right|rewrite Hv; cbn; lia].
    + cbn [integral_parser.parse_sign]. change (code "+" =? code "-") with false. rewrite N.eqb_refl. cbv beta iota. rewrite integral_pos; [rewrite Hv; f_equal; lia|done|done|lia|lia|by right|rewrite Hv; cbn; lia].
Qed.
End numbers.

(** ** Strings in quotes *)

Section quoted.
Context (q esc : N) (Hq : q ≠ esc).

(** A character that stands for itself. *)
Definition plain_char (c : N) : Prop := c ≠ q ∧ c ≠ esc ∧ iscntrl c = false.
Lemma str_chr_plain c f : plain_char c → str_chr q esc (c :: f) = parsed [c] f.
Proof.
  intros (Hcq & Hce & Hc). unfold str_chr. assert (fails (ignore_esc esc) (c :: f)) as He by (apply fails_ignore, fails_class; cbn; by apply N.eqb_neq).
  apply choice_right_fails; [apply fails_choice; eauto 6 with outcomedb|]. apply (action_parsed _ (λ c, [c]) _ c f). unfold difference_parser, printable, char_parser.
  rewrite char_class_failed by (cbn; by apply N.eqb_neq). unfold difference_parser, cntrl. rewrite char_class_failed by done. done.
Qed.
Lemma str_chr_escaped f : str_chr q esc (esc :: q :: f) = parsed [q] f.
Proof.
  unfold str_chr. do 2 apply choice_left. apply (action_parsed _ (λ c, [c]) _ q f). eapply sequence_right_parsed.
  - apply (ignore_parsed _ _ esc). unfold char_parser, char_class_parser. by rewrite N.eqb_refl.
  - unfold char_parser, char_class_parser. by rewrite N.eqb_refl.
Qed.
Lemma str_chr_quote f : fails (str_chr q esc) (q :: f).
Proof.
  unfold str_chr. assert (fails (ignore_esc esc) (q :: f)) as He by (apply fails_ignore, fails_class; cbn; by apply N.eqb_neq).
  apply fails_choice; [apply fails_choice; eauto 6 with outcomedb|]. apply fails_action. unfold difference_parser, char_parser, char_class_parser. exists (q :: f). by rewrite N.eqb_refl.
Qed.

(** The pieces of the text, one per character. *)
Lemma quoted_loop fuel x pieces f acc : Forall2 (λ c s, ∀ f, str_chr q esc (s ++ f) = parsed [c] f) x pieces → (List.length x < fuel)%nat →
  kleene_loop fuel (str_chr q esc) (concat pieces ++ q :: f) acc = parsed (acc ++ ((λ c, [c]) <$> x)) (q :: f).
Proof.
  intros Hx. revert fuel acc. induction Hx as [|c s x pieces Hc _ IH]; intros [|fuel] acc Hl; try (cbn in Hl; lia); cbn [kleene_loop concat app].
  - destruct (str_chr_quote f) as [f' Hf]. pose proof (restoring_parser (p:=str_chr q esc) _ _ Hf) as ->. by rewrite Hf, app_nil_r.
  - rewrite <- app_assoc, Hc, IH by (cbn in Hl; lia). by rewrite <- app_assoc.
Qed.
Lemma concat_singletons (x : list N) : concat ((λ c, [c]) <$> x) = x.
Proof. induction x as [|c x IH]; [done|]. cbn. by f_equal. Qed.
Lemma quoted_text x pieces f : Forall2 (λ c s, ∀ f, str_chr q esc (s ++ f) = parsed [c] f) x pieces → (List.length x <= List.length (concat pieces))%nat →
  quoted_string_parser q esc (q :: concat pieces ++ q :: f) = parsed x f.
Proof.
  intros Hx Hl. unfold quoted_string_parser. rewrite (action_parsed _ _ _ ((λ c, [c]) <$> x) f); [by rewrite concat_singletons|].
  assert (∀ f, ignore_quote q (q :: f) = parsed tt f) as Hi. { intros f'. apply (ignore_parsed _ _ q). unfold char_parser, char_class_parser. by rewrite N.eqb_refl. }
  eapply sequence_left_parsed; [eapply sequence_right_parsed; [apply Hi|]|apply Hi]. unfold kleene_parser. apply (quoted_loop _ x pieces f []); [done|]. rewrite length_app. cbn. lia.
Qed.
Lemma quoted_fails f : starts_not (N.eqb q) f → fails (quoted_string_parser q esc) f.
Proof. intros Hf. unfold quoted_string_parser, ignore_quote, char_parser. eauto 8 with outcomedb. Qed.
End quoted.

(** Strings without backslashes, and patterns without slashes. *)
Definition string_ok (x : list N) : Prop := Forall (λ c, c < 256 ∧ isprint c = true ∧ c ≠ backslash) x.
Definition pattern_ok (x : list N) : Prop := Forall (plain_char (code "/") backslash) x.
Lemma isprint_cntrl c : isprint c = true → iscntrl c = false.
Proof. unfold isprint, iscntrl. intros [H1%N.leb_le H2%N.leb_le]%andb_true_iff. apply orb_false_iff. split; [apply N.ltb_ge; lia|apply N.eqb_neq; lia]. Qed.
Lemma string_text x f : string_ok x → qqstr (string_printer x ++ f) = parsed x f.
Proof.
  intros Hx. unfold string_printer. rewrite <- !app_assoc, escape_concat. unfold string_ok in Hx. rewrite list.Forall_forall in Hx. apply quoted_text; [done|..].
  - apply Forall2_fmap_r. apply Forall_Forall2_diag, list.Forall_forall. intros c (Hb & Hp & Hn)%Hx f'. unfold make_extra_print_escaper, contains. cbn [existsb]. rewrite orb_false_r.
    destruct (N.eqb_spec c quote) as [->|Hq]; [apply str_chr_escaped|]. unfold print_escaper. rewrite Hp. by apply str_chr_plain; [split_and!; [..|apply isprint_cntrl]].
  - apply length_escape, list.Forall_forall. intros c Hc. unfold make_extra_print_escaper, print_escaper, hex_escaper. destruct (contains _ _); [done|]. destruct (isprint c); [done|]. by destruct (hex.byte_to_hex _ _).
Qed.
Lemma pattern_text x f : pattern_ok x → pattern_parser (pattern_printer x ++ f) = parsed x f.
Proof.
  intros Hx. unfold pattern_printer. rewrite <- !app_assoc, <- (concat_singletons x) at 1. apply (quoted_text (code "/") backslash ltac:(done)).
  - apply Forall2_fmap_r, Forall_Forall2_diag. eapply list.Forall_impl; [exact Hx|]. intros c Hc f'. by apply str_chr_plain.
  - by rewrite concat_singletons.
Qed.

(** ** Containers *)

Lemma seqleft_text {A} (p : parser A) (q : parser unit) f a f1 f2 : p f = parsed a f1 → q f1 = parsed tt f2 → (p >>- q) f = parsed a f2.
Proof. apply sequence_left_parsed. Qed.
Definition is_lead (lead : list N) : Prop := lead = [] ∨ lead = [code " "].
Definition closers : list N := codes "]}>".

(** The text of an element, with white space in front and behind. *)
Definition element {A} (q : parser A) (n : nat) (a : A) (s : list N) : Prop := s ≠ [] ∧
  ∀ lead f, is_lead lead → data_ends f = true → (List.length (lead ++ s ++ f) < n)%nat → q (lead ++ s ++ f) = parsed a (skip_spaces f).

Lemma closer_ends c f : c ∈ closers → data_ends (c :: f) = true ∧ skip_spaces (c :: f) = c :: f ∧ starts_not (N.eqb (code ",")) (c :: f).
Proof. unfold closers. intros Hc. apply list_elem_of_In in Hc. cbn in Hc. destruct Hc as [<-|[<-|[<-|[]]]]; by vm_compute. Qed.
Definition tail_text (texts : list (list N)) : list N := concat ((λ y, codes ", " ++ y) <$> texts).
Lemma tail_ends texts c f : c ∈ closers → data_ends (tail_text texts ++ c :: f) = true ∧ skip_spaces (tail_text texts ++ c :: f) = tail_text texts ++ c :: f.
Proof. intros Hc. destruct texts as [|y texts]; [cbn [tail_text fmap list_fmap concat app]; split; by apply closer_ends|]. split; by vm_compute. Qed.

Section elements.
Context {A : Type} (q : parser A) (n : nat) (c : N) (Hc : c ∈ closers).
Lemma elements_loop fuel xs texts f acc : Forall2 (element q n) xs texts → (List.length (tail_text texts ++ c :: f) < n)%nat → (List.length texts < fuel)%nat →
  list_loop fuel q (chr ",") (tail_text texts ++ c :: f) acc = parsed (acc ++ xs) (c :: f).
Proof.
  intros Hx. revert fuel acc. induction Hx as [|a s xs texts [_ Ha] _ IH]; intros [|fuel] acc Hl Hf; try (cbn in Hf; lia); cbn [list_loop].
  - cbn [tail_text fmap list_fmap concat app]. rewrite chr_failed by (by apply closer_ends). by rewrite app_nil_r.
  - change (tail_text (s :: texts)) with ((codes ", " ++ s) ++ tail_text texts) in *. rewrite <- !app_assoc in *. change (codes ", ") with [code ","; code " "] in *. cbn [app] in *.
    rewrite chr_parsed. destruct (tail_ends texts c f Hc) as [He Hs]. change (code " " :: s ++ tail_text texts ++ c :: f) with ([code " "] ++ s ++ tail_text texts ++ c :: f).
    rewrite Ha; [|by right|done|cbn in *; lia]. rewrite Hs, IH; [by rewrite <- app_assoc|cbn in Hl; rewrite length_app in Hl; lia|cbn in Hf; lia].
Qed.
Lemma length_tail_text texts : (List.length texts <= List.length (tail_text texts))%nat.
Proof. unfold tail_text. induction texts as [|s texts IH]; [done|]. cbn [fmap list_fmap concat]. rewrite !length_app. cbn [List.length]. change (List.length (codes ", ")) with 2%nat. lia. Qed.
Lemma elements_text xs texts f : xs ≠ [] → Forall2 (element q n) xs texts → (List.length (join_printed (codes ", ") texts ++ c :: f) < n)%nat →
  list_parser q (chr ",") (join_printed (codes ", ") texts ++ c :: f) = parsed xs (c :: f).
Proof.
  intros Hne Hx Hl. destruct Hx as [|a s xs texts [Hs0 Ha] Hx]; [done|]. unfold join_printed in *. fold (tail_text texts) in *. rewrite <- app_assoc in *.
  destruct (tail_ends texts c f Hc) as [He Hs]. unfold list_parser. pose proof (Ha [] _ ltac:(by left) He Hl) as H0. rewrite app_nil_l in H0. rewrite H0, Hs. apply (elements_loop _ xs texts f [a]); [done|..].
  - rewrite length_app in Hl. lia.
  - pose proof (length_tail_text texts). rewrite length_app. lia.
Qed.
End elements.

(** A container between its delimiters, by the parser of its elements. *)
Lemma container_text {B} (lp : parser (list B)) `{!Restoring lp} (open close : ascii) ys body f : code close ∈ closers →
  lp (body ++ code close :: f) = parsed ys (code close :: f) ∨ (body = [] ∧ ys = [] ∧ fails lp (code close :: f)) →
  (chr open ->> maybe_parser lp [] >>- trailing_comma >>- chr close) (code open :: body ++ code close :: f) = parsed ys f.
Proof.
  intros Hc Hl. assert (maybe_parser lp [] (body ++ code close :: f) = parsed ys (code close :: f)) as Hm.
  { destruct Hl as [Hl|(-> & -> & Hl)]; [unfold maybe_parser; by rewrite Hl|by apply maybe_fails]. }
  eapply seqleft_text; [eapply seqleft_text; [eapply sequence_right_parsed; [apply chr_parsed|exact Hm]|]|apply chr_parsed].
  unfold trailing_comma. apply maybe_fails; [apply _|]. apply fails_seq_left, fails_chr. by apply closer_ends.
Qed.

(** ** The domain *)

Definition key_ok (k : list N) : Prop := k ≠ [] ∧ Forall (λ c, isalnum c || (c =? code "_") || (c =? code ".") = true) k.
(** The keys of a map differ. *)
Fixpoint distinct (xs : list (data * data)) : Prop :=
  match xs with [] => True | x :: xs => Forall (λ y, data_eqb x.1 y.1 = false) xs ∧ distinct xs end.
Fixpoint data_ok (d : data) : Prop :=
  match d with
  | d_none | d_bool _ => True
  | d_int64 x => (- 2 ^ 63 <= x < 2 ^ 63)%Z
  | d_uint64 x => x < 2 ^ 64
  | d_string x => string_ok x
  | d_pattern x => pattern_ok x
  | d_list xs => foldr (λ d P, data_ok d ∧ P) True xs
  | d_map xs => foldr (λ kv P, (data_ok kv.1 ∧ data_ok kv.2) ∧ P) True xs ∧ distinct xs
  | d_record xs => foldr (λ kv P, (key_ok kv.1 ∧ data_ok kv.2) ∧ P) True xs ∧ NoDup (xs.*1)
  | _ => False
  end.

Lemma distinct_emplace xs ys : distinct xs → Forall (λ x, Forall (λ y, data_eqb y.1 x.1 = false) ys) xs → foldl map_emplace ys xs = ys ++ xs.
Proof.
  revert ys. induction xs as [|x xs IH]; intros ys Hd Hy; cbn [foldl]; [by rewrite app_nil_r|]. destruct Hd as [Hx Hd]. apply list.Forall_cons in Hy as [Hyx Hy].
  unfold map_emplace at 2. replace (existsb (λ q, data_eqb q.1 x.1) ys) with false.
  - rewrite IH; [by rewrite <- app_assoc|done|]. rewrite list.Forall_forall in Hx, Hy |- *. intros z Hz. apply Forall_app. split; [by apply Hy|]. constructor; [by apply Hx|done].
  - symmetry. apply not_true_iff_false. rewrite existsb_exists. intros (z & Hz%list_elem_of_In & Ez). rewrite list.Forall_forall in Hyx. rewrite Hyx in Ez; done.
Qed.
Lemma nodup_emplace xs ys : NoDup (xs.*1) → (∀ k, k ∈ xs.*1 → k ∉ ys.*1) → foldl record_emplace ys xs = ys ++ xs.
Proof.
  revert ys. induction xs as [|[k v] xs IH]; intros ys Hd Hy; cbn [foldl]; [by rewrite app_nil_r|]. cbn in Hd. apply list.NoDup_cons in Hd as [Hk Hd].
  assert (record_emplace ys (k, v) = ys ++ [(k, v)]) as ->.
  { unfold record_emplace, stable_map.emplace, stable_map.contains, stable_map.lookup. cbn [fst snd]. rewrite bool_decide_eq_false_2; [done|].
    rewrite !fmap_is_Some. intros [[i [k' v']] Hf]. apply list_find_Some in Hf as (Hl & E & _). cbn in E. subst k'. apply (Hy k ltac:(by left)).
    apply list_elem_of_fmap. exists (k, v'). split; [done|]. by eapply list_elem_of_lookup_2. }
  rewrite IH; [by rewrite <- app_assoc|done|]. intros k' Hk'. rewrite fmap_app, elem_of_app. intros [H|H]; [by apply (Hy k'); [right|]|]. cbn in H. apply list_elem_of_singleton in H as ->. done.
Qed.

(** ** The rule *)

Section rule.
Context (E : externals) `{!RealText E} (P : print_externals).

Definition reads (d : data) (s : list N) (n : nat) : Prop := s ≠ [] ∧ starts_not isspace s ∧
  ∀ f, data_ends f = true → (List.length (s ++ f) < n)%nat → data_rule E n (s ++ f) = parsed d f.

Lemma x_element d s n : reads d s n → element (x (data_rule E n)) n d s.
Proof.
  intros (Hne & Hsp & Hr). split; [done|]. intros lead f Hlead Hf Hl. unfold x. eapply seqleft_text; [|apply ws_spec].
  eapply sequence_right_parsed; [apply ws_spec|]. assert (skip_spaces (lead ++ s ++ f) = s ++ f) as ->.
  { assert (skip_spaces (s ++ f) = s ++ f) as Hs by (apply skip_spaces_none; destruct s; [done|exact Hsp]). destruct Hlead as [->| ->]; [done|]. exact Hs. }
  apply Hr; [done|]. rewrite length_app in Hl. lia.
Qed.

(** Characters that no data begins with. *)
Definition never_first : list N := codes "]}>#(!)" ++ [32; 9; 10; 11; 12; 13].
Lemma closers_never c : c ∈ closers → c ∈ never_first.
Proof. unfold closers, never_first. rewrite !list_elem_of_In. cbn. tauto. Qed.
(** The alternatives behind the numbers, in their order. *)
Lemma rule_string p x f : string_ok x → data_alternatives E p (string_printer x ++ f) = parsed (d_string x) f.
Proof.
  intros Hx. destruct (fails_early E (string_printer x ++ f)) as [He Hn]; [by apply (no_scalar_word [])|]. unfold data_alternatives. fold (early_scalars E). do 6 apply choice_left.
  apply choice_right_fails; [|apply action_parsed; by apply string_text]. repeat first [exact He|exact Hn|apply fails_choice]. by eexists.
Qed.
Lemma rule_pattern p x f : pattern_ok x → data_alternatives E p (pattern_printer x ++ f) = parsed (d_pattern x) f.
Proof.
  intros Hx. destruct (fails_early E (pattern_printer x ++ f)) as [He Hn]; [by apply (no_scalar_word [])|]. unfold data_alternatives. fold (early_scalars E). do 5 apply choice_left.
  apply choice_right_fails; [|apply action_parsed; by apply pattern_text]. repeat first [exact He|exact Hn|apply fails_choice]; [by eexists|]. by apply fails_action, quoted_fails.
Qed.
Lemma rule_bool p b f : data_alternatives E p (bool_printer b ++ f) = parsed (d_bool b) f.
Proof.
  destruct (fails_early E (bool_printer b ++ f)) as [He Hn].
  { destruct b; [by apply (no_scalar_word [])|]. by apply (no_scalar_word (codes "fa") (codes "lse" ++ f)); [by repeat constructor|..]. }
  unfold data_alternatives. fold (early_scalars E). do 7 apply choice_left. apply choice_right_fails; [by apply fails_choice|]. apply action_parsed. by destruct b.
Qed.
Lemma rule_none p f : data_alternatives E p (codes "nil" ++ f) = parsed d_none f.
Proof.
  destruct (fails_early E (codes "nil" ++ f)) as [He Hn]; [by apply (no_scalar_word [])|]. unfold data_alternatives. fold (early_scalars E). apply choice_left.
  apply choice_right_fails; [|by apply (action_parsed _ (λ _, d_none) _ tt), (lit_parsed "nil")]. repeat first [exact He|exact Hn|apply fails_choice]; by eexists.
Qed.
Lemma rule_number p sign ds d f : is_sign sign → ds ≠ [] → Forall is_decimal ds → data_ends f = true → number E (sign ++ ds ++ f) = parsed d f →
  data_alternatives E p (sign ++ ds ++ f) = parsed d f.
Proof.
  intros Hs Hne Hd Hf Hn. unfold data_alternatives. fold (early_scalars E). do 8 apply choice_left. apply choice_right_fails; [by apply number_early|done].
Qed.
Lemma rule_fails p c f : c ∈ never_first → fails (data_alternatives E p) (c :: f).
Proof.
  intros Hc. unfold never_first in Hc. apply list_elem_of_In in Hc. cbn [In codes app] in Hc.
  destruct (fails_early E (c :: f)) as [He Hn]; [repeat destruct Hc as [<-|Hc]; try done; by apply (no_scalar_word [])|].
  unfold data_alternatives. fold (early_scalars E). repeat first [exact He|exact Hn|apply fails_choice]; repeat destruct Hc as [<-|Hc]; try done; by eexists.
Qed.

(** What comes before the containers fails on their delimiters. *)
Lemma before_containers c f : c ∈ codes "[{<" → fails (scalar_alternatives E) (c :: f).
Proof.
  intros Hc. apply list_elem_of_In in Hc. cbn in Hc.
  destruct (fails_early E (c :: f)) as [He Hn]; [destruct Hc as [<-|[<-|[<-|[]]]]; by apply (no_scalar_word [])|].
  change (scalar_alternatives E) with (early_scalars E <|> number E <|> (boolean ->* d_bool) <|> (qqstr ->* d_string) <|> (pattern_parser ->* d_pattern)).
  repeat first [exact He|exact Hn|apply fails_choice]; destruct Hc as [<-|[<-|[<-|[]]]]; by eexists.
Qed.
Lemma closer_close (c : ascii) : c ∈ ["]"; "}"; ">"]%char → code c ∈ closers.
Proof. rewrite !elem_of_cons, elem_of_nil. intros [->|[->|[->|[]]]]; apply list_elem_of_In; vm_compute; auto. Qed.

(** The elements of a container, or an end that is no element. *)
Lemma elements_or_end {A} (q : parser A) n c xs texts f : c ∈ closers → Forall2 (element q n) xs texts →
  (∀ f, fails q (c :: f)) → (List.length (join_printed (codes ", ") texts ++ c :: f) < n)%nat →
  list_parser q (chr ",") (join_printed (codes ", ") texts ++ c :: f) = parsed xs (c :: f) ∨
  (join_printed (codes ", ") texts = [] ∧ xs = [] ∧ fails (list_parser q (chr ",")) (c :: f)).
Proof.
  intros Hc Hx Hq Hl. destruct (decide (xs = [])) as [->|Hne]; [right|left; by eapply elements_text].
  apply Forall2_nil_inv_l in Hx as ->. split_and!; [done..|]. by apply fails_list.
Qed.

Lemma x_fails n c f : c ∈ closers → fails (x (data_rule E (S n))) (c :: f).
Proof.
  intros Hc. unfold x. apply fails_seqleft. eapply fails_seqright_right; [apply ws_spec|]. rewrite (proj1 (proj2 (closer_ends c f Hc))). cbn [data_rule]. by apply rule_fails, closers_never.
Qed.

Lemma data_alternatives_eq p : data_alternatives E p =
  (scalar_alternatives E <|> list_data_parser p <|> map_data_parser p <|> record_parser p <|> (lit "nil" ->* λ _, d_none) <|> (chr "_" ->* λ _, d_none)).
Proof. done. Qed.
Lemma opener_in c : c = code "[" ∨ c = code "{" ∨ c = code "<" → c ∈ codes "[{<".
Proof. intros [->|[->| ->]]; apply list_elem_of_In; vm_compute; auto. Qed.

Lemma rule_list n xs texts f : Forall2 (λ d s, reads d s n) xs texts → (List.length (join_printed (codes ", ") texts ++ codes "]" ++ f) < n)%nat →
  data_alternatives E (data_rule E n) ((codes "[" ++ join_printed (codes ", ") texts ++ codes "]") ++ f) = parsed (d_list xs) f.
Proof.
  intros Hx Hl. destruct n as [|n]; [lia|]. rewrite <- !app_assoc, data_alternatives_eq. do 4 apply choice_left.
  apply choice_right_fails; [by apply before_containers, opener_in; left|]. apply action_parsed. assert (code "]" ∈ closers) as Hc by (apply closer_close; by left).
  apply (container_text (list_parser (x (data_rule E (S n))) (chr ",")) "[" "]"); [done|]. apply (elements_or_end _ (S n)); [done| |intros f'; by apply x_fails|done].
  eapply list.Forall2_impl; [exact Hx|]. intros d s. apply x_element.
Qed.

(** Pairs of a map. *)
Lemma kvp_element k v s t n : reads k s n → reads v t n → element (kvp (data_rule E n)) n (k, v) (s ++ codes " -> " ++ t).
Proof.
  intros Hk Hv. destruct (x_element k s n Hk) as [Hne Hxk], (x_element v t n Hv) as [_ Hxv]. split; [by destruct s|]. intros lead f Hlead Hf Hl. unfold kvp.
  rewrite <- !app_assoc in Hl |- *. eapply sequence_parsed; [eapply seqleft_text; [apply Hxk; [done|by vm_compute|done]|]|].
  - change (skip_spaces (codes " -> " ++ t ++ f)) with (codes "->" ++ codes " " ++ t ++ f). apply lit_parsed.
  - apply (Hxv (codes " ")); [by right|done|]. rewrite !length_app in Hl |- *. pose proof (length_app (codes " -> ") (t ++ f)) as Hc. rewrite (length_app t f) in Hc. change (List.length (codes " -> ")) with 4%nat in Hc. change (List.length (codes " ")) with 1%nat. lia.
Qed.
Lemma kvp_fails n c f : c ∈ closers → fails (kvp (data_rule E (S n))) (c :: f).
Proof. intros Hc. unfold kvp. apply fails_sequence_left, fails_seqleft. by apply x_fails. Qed.
Lemma rule_map n xs texts f : distinct xs → Forall2 (λ kv s, ∃ sk sv, s = sk ++ codes " -> " ++ sv ∧ reads kv.1 sk n ∧ reads kv.2 sv n) xs texts →
  (List.length (join_printed (codes ", ") texts ++ codes "}" ++ f) < n)%nat →
  data_alternatives E (data_rule E n) ((codes "{" ++ join_printed (codes ", ") texts ++ codes "}") ++ f) = parsed (d_map xs) f.
Proof.
  intros Hd Hx Hl. destruct n as [|n]; [lia|]. rewrite <- !app_assoc, data_alternatives_eq. do 3 apply choice_left.
  apply choice_right_fails; [apply fails_choice; [by apply before_containers, opener_in; right; left|by eexists]|]. apply action_parsed.
  assert (code "}" ∈ closers) as Hc by (apply closer_close; by right; left).
  apply (container_text (list_parser (kvp (data_rule E (S n))) (chr ",") ->* foldl map_emplace []) "{" "}"); [done|].
  destruct (elements_or_end (kvp (data_rule E (S n))) (S n) (code "}") xs texts f Hc) as [H|(H1 & -> & H3)]; [|intros f'; by apply kvp_fails|done|left|right].
  - eapply list.Forall2_impl; [exact Hx|]. intros [k v] s (sk & sv & -> & Hk & Hv). by apply kvp_element.
  - pose proof (action_parsed _ (foldl map_emplace []) _ _ _ H) as Ha. rewrite (distinct_emplace xs [] Hd) in Ha; [done|]. apply list.Forall_forall. constructor.
  - split_and!; [done..|]. by apply fails_action.
Qed.

(** Fields of a record. *)
Lemma identifier_text k f : key_ok k → starts_not (λ c, isalnum c || (c =? code "_") || (c =? code ".")) f → identifier (k ++ f) = parsed k f.
Proof.
  intros [Hne Hk] Hf. apply (plus_class _ (λ c, isalnum c || (c =? code "_") || (c =? code "."))); [|done..]. intros [|c f']; [done|].
  unfold identifier_char, choice_parser, alnum, char_parser, char_class_parser. rewrite (N.eqb_sym (code "_")), (N.eqb_sym (code ".")). destruct (isalnum c), (c =? code "_"), (c =? code "."); done.
Qed.
Lemma field_element k v t n : key_ok k → reads v t n → element (named_field (data_rule E n)) n (k, v) (k ++ codes ": " ++ t).
Proof.
  intros Hk Hv. destruct (x_element v t n Hv) as [_ Hxv]. pose proof Hk as [Hne Hkc]. split; [by destruct k|]. intros lead f Hlead Hf Hl. unfold named_field.
  rewrite <- !app_assoc in Hl |- *. assert (skip_spaces (lead ++ k ++ codes ": " ++ t ++ f) = k ++ codes ":" ++ codes " " ++ t ++ f) as Hs.
  { change (codes ": ") with (codes ":" ++ codes " "). rewrite <- app_assoc. assert (skip_spaces (k ++ codes ":" ++ codes " " ++ t ++ f) = k ++ codes ":" ++ codes " " ++ t ++ f) as H.
    - apply skip_spaces_none. destruct Hkc as [|c k Hc _]; [done|]. cbn [app starts_not]. unfold isspace. apply not_true_iff_false. intros Hsp.
      destruct (N.eqb_spec c 32) as [->|]; [by vm_compute in Hc|]. cbn [orb] in Hsp. apply andb_true_iff in Hsp as [H1%N.leb_le H2%N.leb_le].
      assert (c = 9 ∨ c = 10 ∨ c = 11 ∨ c = 12 ∨ c = 13) as [->|[->|[->|[->| ->]]]] by lia; by vm_compute in Hc.
    - destruct Hlead as [->| ->]; exact H. }
  eapply sequence_parsed; [eapply seqleft_text; [eapply sequence_right_parsed; [apply ws_spec|rewrite Hs; by apply identifier_text]|apply lit_parsed]|].
  apply (Hxv (codes " ")); [by right|done|]. rewrite !length_app in Hl |- *. pose proof (length_app (codes ": ") (t ++ f)) as Hc. rewrite (length_app t f) in Hc. change (List.length (codes ": ")) with 2%nat in Hc. change (List.length (codes " ")) with 1%nat. lia.
Qed.
Lemma field_fails p c f : c ∈ closers → fails (named_field p) (c :: f).
Proof.
  intros Hc. unfold named_field. apply fails_sequence_left, fails_seqleft. eapply fails_seqright_right; [apply ws_spec|]. rewrite (proj1 (proj2 (closer_ends c f Hc))).
  apply list_elem_of_In in Hc. cbn in Hc. destruct Hc as [<-|[<-|[<-|[]]]]; by eexists.
Qed.
Lemma rule_record n xs texts f : NoDup (xs.*1) → Forall2 (λ kv s, ∃ sv, s = kv.1 ++ codes ": " ++ sv ∧ key_ok kv.1 ∧ reads kv.2 sv n) xs texts →
  (List.length (join_printed (codes ", ") texts ++ codes ">" ++ f) < n)%nat →
  data_alternatives E (data_rule E n) ((codes "<" ++ join_printed (codes ", ") texts ++ codes ">") ++ f) = parsed (d_record xs) f.
Proof.
  intros Hd Hx Hl. rewrite <- !app_assoc, data_alternatives_eq. do 2 apply choice_left.
  apply choice_right_fails; [apply fails_choice; [apply fails_choice; [by apply before_containers, opener_in; right; right|by eexists]|by eexists]|].
  unfold record_parser. apply choice_left, action_parsed. assert (code ">" ∈ closers) as Hc by (apply closer_close; by right; right; left).
  apply (container_text (list_parser (named_field (data_rule E n)) (chr ",") ->* foldl record_emplace []) "<" ">"); [done|].
  destruct (elements_or_end (named_field (data_rule E n)) n (code ">") xs texts f Hc) as [H|(H1 & -> & H3)]; [|intros f'; by apply field_fails|done|left|right].
  - eapply list.Forall2_impl; [exact Hx|]. intros [k v] s (sv & -> & Hk & Hv). by apply field_element.
  - pose proof (action_parsed _ (foldl record_emplace []) _ _ _ H) as Ha. rewrite (nodup_emplace xs [] Hd) in Ha; [done|]. intros k _. apply not_elem_of_nil.
  - split_and!; [done..|]. by apply fails_action.
Qed.

(** ** Every value of the domain *)

(** Texts of elements, from the induction hypothesis. *)
Lemma mapM_texts {A} (g : A → option (list N)) (R : A → list N → Prop) xs : Forall (λ a, ∃ s, g a = Some s ∧ R a s) xs → ∃ texts, mapM g xs = Some texts ∧ Forall2 R xs texts.
Proof.
  induction 1 as [|a xs (s & Hs & Hr) _ (texts & Ht & Hx)]; [by exists []|]. exists (s :: texts). split; [|by constructor]. cbn. by rewrite Hs; cbn; rewrite Ht.
Qed.
Lemma reads_intro d s : s ≠ [] → starts_not isspace s →
  (∀ n f, data_ends f = true → (List.length (s ++ f) <= n)%nat → data_alternatives E (data_rule E n) (s ++ f) = parsed d f) → ∀ n, reads d s n.
Proof. intros Hne Hs H n. split_and!; [done..|]. intros f Hf Hl. destruct n as [|n]; [lia|]. apply H; [done|lia]. Qed.
Lemma decimal_start sign ds : is_sign sign → ds ≠ [] → Forall is_decimal ds → sign ++ ds ≠ [] ∧ starts_not isspace (sign ++ ds).
Proof.
  intros Hs Hne Hd. destruct Hd as [|c ds Hc _]; [done|]. destruct Hs as [->|[->| ->]]; try done. split; [done|]. cbn [app starts_not]. apply is_decimal_value in Hc.
  unfold isspace. apply orb_false_iff. split; [apply N.eqb_neq; lia|]. apply andb_false_iff. right. apply N.leb_gt. lia.
Qed.
Lemma uint64_digits x : x < 2 ^ 64 → let ds := print_int uint64 (Z.of_N x) in ds ≠ [] ∧ Forall is_decimal ds.
Proof.
  intros Hx. cbv zeta. destruct (print_numeric_spec uint64 (Z.of_N x)) as (Hd & _ & Hl & _); [by do 7 right; left|cbn; lia|].
  change (print_int uint64 (Z.of_N x)) with (print_numeric uint64 (Z.of_N x)). split; [intros H; rewrite H in Hl; cbn in Hl; lia|done].
Qed.
Lemma length_delimited (o c : N) body f n : (List.length (([o] ++ body ++ [c]) ++ f) <= n)%nat → (List.length (body ++ [c] ++ f) < n)%nat.
Proof. rewrite !length_app. cbn. lia. Qed.

Lemma data_text_reads d : data_ok d → ∃ s, data_printer P d = Some s ∧ ∀ n, reads d s n.
Proof.
  induction d as [|b|x|x|x|x|x|x|x|x|x k|x|xs IH|xs IH|xs IH] using data_ind'; intros Hd; try done.
  - exists (codes "nil"). split; [done|]. apply reads_intro; [done..|]. intros n f _ _. apply rule_none.
  - exists (bool_printer b). split; [done|]. apply reads_intro; [by destruct b..|]. intros n f _ _. apply rule_bool.
  - exists (signed_printer x). split; [done|]. destruct (signed_digits x ltac:(cbn in Hd; lia)) as (Hdd & _ & Hl).
    apply reads_intro; [done|unfold signed_printer; cbn [starts_not]; by destruct (x <? 0)%Z|]. intros n f Hf _. unfold signed_printer.
    change ((?c :: ?a) ++ f) with ([c] ++ a ++ f). apply rule_number; [|by destruct (print_numeric _ _); [cbn in Hl; lia|]|done|done|by apply int64_text].
    destruct (x <? 0)%Z; [by right; right|by right; left].
  - exists (print_int uint64 (Z.of_N x)). split; [done|]. destruct (uint64_digits x Hd) as [Hne Hdd]. destruct (decimal_start [] _ ltac:(by left) Hne Hdd) as [H1 H2].
    apply reads_intro; [done..|]. intros n f Hf _. apply (rule_number _ []); [by left|done..|]. by apply uint64_text.
  - exists (string_printer x). split; [done|]. apply reads_intro; [done..|]. intros n f _ _. by apply rule_string.
  - exists (pattern_printer x). split; [done|]. apply reads_intro; [done..|]. intros n f _ _. by apply rule_pattern.
  - cbn [data_ok] in Hd. rewrite foldr_Forall in Hd. destruct (mapM_texts (data_printer P) (λ d s, ∀ n, reads d s n) xs) as (texts & Ht & Hx).
    { rewrite list.Forall_forall in *. intros d Hin. by apply IH, Hd. }
    eexists. split; [cbn [data_printer]; by rewrite Ht|]. apply reads_intro; [done..|]. intros n f Hf Hl. apply rule_list; [|by apply (length_delimited (code "[") (code "]"))].
    eapply list.Forall2_impl; [exact Hx|]. by intros d s H.
  - cbn [data_ok] in Hd. destruct Hd as [Hd Hdis]. rewrite (foldr_Forall (λ kv, data_ok kv.1 ∧ data_ok kv.2)) in Hd.
    destruct (mapM_texts (λ kv, k ← data_printer P kv.1; v ← data_printer P kv.2; Some (k ++ codes " -> " ++ v))
      (λ kv s, ∀ n, ∃ sk sv, s = sk ++ codes " -> " ++ sv ∧ reads kv.1 sk n ∧ reads kv.2 sv n) xs) as (texts & Ht & Hx).
    { rewrite list.Forall_forall in *. intros [k v] Hin. destruct (Hd _ Hin) as [Hk Hv], (IH _ Hin) as [IHk IHv]. destruct (IHk Hk) as (sk & Esk & Rk), (IHv Hv) as (sv & Esv & Rv).
      exists (sk ++ codes " -> " ++ sv). cbn [fst snd] in *. rewrite Esk, Esv. split; [done|]. intros n. by exists sk, sv. }
    eexists. split; [cbn [data_printer]; by rewrite Ht|]. apply reads_intro; [done..|]. intros n f Hf Hl. apply rule_map; [done| |by apply (length_delimited (code "{") (code "}"))].
    eapply list.Forall2_impl; [exact Hx|]. by intros d s H.
  - cbn [data_ok] in Hd. destruct Hd as [Hd Hnd]. rewrite (foldr_Forall (λ kv, key_ok kv.1 ∧ data_ok kv.2)) in Hd.
    destruct (mapM_texts (λ kv, v ← data_printer P kv.2; Some (kv.1 ++ codes ": " ++ v)) (λ kv s, ∀ n, ∃ sv, s = kv.1 ++ codes ": " ++ sv ∧ key_ok kv.1 ∧ reads kv.2 sv n) xs) as (texts & Ht & Hx).
    { rewrite list.Forall_forall in *. intros [k v] Hin. destruct (Hd _ Hin) as [Hk Hv]. destruct (IH _ Hin Hv) as (sv & Esv & Rv).
      exists (k ++ codes ": " ++ sv). cbn [fst snd] in *. rewrite Esv. split; [done|]. intros n. by exists sv. }
    eexists. split; [cbn [data_printer]; by rewrite Ht|]. apply reads_intro; [done..|]. intros n f Hf Hl. apply rule_record; [done| |by apply (length_delimited (code "<") (code ">"))].
    eapply list.Forall2_impl; [exact Hx|]. by intros d s H.
Qed.
End rule.

Lemma data_text_parsed (E : externals) `{!RealText E} (P : print_externals) d : data_ok d →
  ∃ s, data_printer P d = Some s ∧ s ≠ [] ∧ starts_not isspace s ∧ ∀ f, data_ends f = true → data_parser E (s ++ f) = parsed d f.
Proof.
  intros Hd. destruct (data_text_reads E P d Hd) as (s & Hs & Hr). exists s. destruct (Hr 0%nat) as (Hne & Hsp & _). split_and!; [done..|].
  intros f Hf. apply (Hr (S (List.length (s ++ f)))); [done|lia].
Qed.

(** ** A reference for the parser of doubles *)

(** It reads integers without a sign. *)
Definition reference_externals : externals :=
  mk_externals (plus_parser digit ->* λ ds, Z.to_N (decimal_value 0 ds)) (λ unit x, unit * Z.of_N x)%Z (λ m x, m * minutes + Z.of_N x * seconds)%Z
    (λ x, Z.of_N x * seconds)%Z (λ x, x <=? 60) 0%Z reference_inet.pton.
#[export] Instance reference_real_text : RealText reference_externals.
Proof.
  split.
  - split; cbn; apply _.
  - intros [|c f] a f' H; [done|]. cbn [real reference_externals] in H. destruct (isdigit c) eqn:Ec; [by unfold real_start; rewrite Ec|].
    unfold action_parser, plus_parser, digit in H. rewrite char_class_failed in H by done. done.
  - intros sign ds f Hs Hne Hd Hf. cbn [real reference_externals]. destruct Hd as [|c ds Hc Hd]; [done|].
    destruct Hs as [->|[->| ->]]; [left|right; by eexists..]. exists (Z.to_N (decimal_value 0 (c :: ds))). rewrite app_nil_l. apply (action_parsed _ (λ ds, Z.to_N (decimal_value 0 ds))).
    unfold plus_parser, digit. cbn [app char_class_parser]. unfold is_decimal in Hc. rewrite Hc. apply (kleene_loop_class isdigit _ ds f [c]); [done| |rewrite length_app; lia].
    destruct f as [|x f]; [done|]. unfold number_ends in Hf. apply negb_true_iff in Hf. apply orb_false_iff in Hf as [[[Hx _]%orb_false_iff _]%orb_false_iff _]. done.
Qed.
