(* ===== verification/ParserType.v ===== *)
(** The parser of types: [libvast/src/concept/parseable/vast/legacy_type.cpp],
    [libvast/include/vast/concept/parseable/vast/legacy_type.hpp], the legacy types of
    [libvast/include/vast/legacy_type.hpp] and their conversion in [libvast/src/type.cpp]. *)

From Stdlib Require Import Ascii String.
From S2P Require Import Prelude Coding Strings Data Types Parser ParserNumeric ParserVast.
#[local] Open Scope parser_scope.
#[local] Set Warnings "-register-all".

(** ** Legacy types *)

(** The concrete types, over the type of the types in them. *)
Inductive concrete (T : Type) : Type :=
| l_none | l_bool | l_integer | l_count | l_real | l_duration | l_time | l_string | l_address | l_subnet
| l_enumeration (fields : list (list N))
| l_list (value_type : T)
| l_map (key_type value_type : T)
| l_record (fields : list (list N * T)).
Arguments l_none {T}.
Arguments l_bool {T}.
Arguments l_integer {T}.
Arguments l_count {T}.
Arguments l_real {T}.
Arguments l_duration {T}.
Arguments l_time {T}.
Arguments l_string {T}.
Arguments l_address {T}.
Arguments l_subnet {T}.
Arguments l_enumeration {T} fields.
Arguments l_list {T} value_type.
Arguments l_map {T} key_type value_type.
Arguments l_record {T} fields.
(** A concrete type with a name and attributes. *)
Inductive legacy_type : Type :=
| mk_legacy (name : list N) (attributes : list (list N * option (list N))) (x : concrete legacy_type).

Definition plain_legacy (x : concrete legacy_type) : legacy_type := mk_legacy [] [] x.

(** An attribute with a known key takes the new value. *)
Fixpoint update_attribute (attrs : list (list N * option (list N))) (x : list N * option (list N)) : list (list N * option (list N)) :=
  match attrs with
  | [] => [x]
  | a :: attrs => if bool_decide (a.1 = x.1) then (a.1, x.2) :: attrs else a :: update_attribute attrs x
  end.
Definition update_attributes (xs : list (list N * option (list N))) (t : legacy_type) : legacy_type :=
  let '(mk_legacy n attrs x) := t in mk_legacy n (foldl update_attribute attrs xs) x.

(** The keys of an enumeration without keys are counted. *)
Definition enumeration_fields (fields : list (list N)) : list (list N * N) := zip fields (N.of_nat <$> seq 0 (List.length fields)).

Section convert.
Context (sort : list (list N * list N) → list (list N * list N)).
Fixpoint from_legacy_type (other : legacy_type) : type :=
  let '(mk_legacy n attrs x) := other in
  type.make sort n
    (match x with
     | l_none => t_none
     | l_bool => t_bool
     | l_integer => t_int64
     | l_count => t_uint64
     | l_real => t_double
     | l_duration => t_duration
     | l_time => t_time
     | l_string => t_string
     | l_address => t_ip
     | l_subnet => t_subnet
     | l_enumeration fields => t_enumeration (enumeration_fields fields)
     | l_list t => t_list (from_legacy_type t)
     | l_map k v => t_map (from_legacy_type k) (from_legacy_type v)
     | l_record fields => t_record ((λ f, (f.1, from_legacy_type f.2)) <$> fields)
     end)
    ((λ a, (a.1, default [] a.2)) <$> attrs).
End convert.

(** ** The parser *)

Definition comment : parser unit := lit "//" >>> kleene_parser (difference_parser any_parser (char_parser 10)).
Definition skp : parser unit := ignore_parser (kleene_parser (ignore_parser space <|> comment)).

Definition attr_value : parser (list N) :=
  qqstr <|> plus_parser (difference_parser printable (space <|> char_parser (code ",") <|> char_parser (code ">") <|> char_parser (code "}"))).
Definition attr : parser (list N * option (list N)) :=
  (chr "#" ->> identifier) >> optional_parser (chr "=" ->> attr_value).
Definition attr_list : parser (list (list N * option (list N))) := kleene_parser (skp ->> attr).

Definition basic_names : list (string * concrete legacy_type) :=
  [("bool", l_bool); ("int64", l_integer); ("int", l_integer); ("uint64", l_count); ("count", l_count); ("double", l_real);
   ("real", l_real); ("duration", l_duration); ("time", l_time); ("string", l_string); ("ip", l_address); ("addr", l_address);
   ("subnet", l_subnet)]%string.
Definition legacy_basic_type_parser : parser legacy_type :=
  (names_parser basic_names >>- and_parser (not_parser identifier_char)) ->* plain_legacy.
(** [~(',' >> skp)] *)
Definition comma_skp : parser unit := maybe_parser (chr "," >>> skp) tt.
Definition legacy_enum_type_parser : parser legacy_type :=
  ((lit "enum" >>> skp >>> chr "{") ->> list_parser (skp ->> identifier >>- skp) (chr ",") >>- comma_skp >>- chr "}")
    ->* (λ fields, plain_legacy (l_enumeration fields)).
Definition placeholder_parser : parser legacy_type := identifier ->* (λ name, mk_legacy name [] l_none).

(** The rules, by the parsers that the references to the type and to the type expression denote. *)
Section rules.
Context (type_type legacy_type_expr : parser legacy_type).
Definition legacy_list_type_parser : parser legacy_type :=
  ((lit "list" >>> skp >>> chr "<" >>> skp) ->> type_type >>- skp >>- chr ">") ->* (λ t, plain_legacy (l_list t)).
Definition legacy_map_type_parser : parser legacy_type :=
  (((lit "map" >>> skp >>> chr "<" >>> skp) ->> type_type >>- skp >>- chr "," >>- skp) >> type_type >>- skp >>- chr ">")
    ->* (λ kv, plain_legacy (l_map kv.1 kv.2)).
Definition field_name : parser (list N) := identifier <|> qqstr.
Definition field : parser (list N * legacy_type) := (field_name >>- skp >>- chr ":" >>- skp) >> type_type.
Definition legacy_record_type_parser : parser legacy_type :=
  ((lit "record" >>> skp >>> chr "{") ->> list_parser (skp ->> field >>- skp) (chr ",") >>- comma_skp >>- chr "}")
    ->* (λ fields, plain_legacy (l_record fields)).

(** Operations on records; the operator is the name of a field. *)
Definition algebra_leaf_parser : parser legacy_type := legacy_record_type_parser <|> placeholder_parser.
Definition algebra_operand_parser : parser legacy_type := algebra_leaf_parser <|> legacy_type_expr.
Definition operator_parser (op : string) : parser (list N * legacy_type) :=
  (lit op >>> skp) ->> (algebra_operand_parser ->* λ t, (codes op, t)).
Definition qualified_field_name : parser (list (list N)) :=
  list_parser (plus_parser (alnum <|> char_parser (code "_")) <|> qqstr) (chr ".").
Definition to_minus_record (path : list (list N)) : list N * legacy_type :=
  (codes "-", plain_legacy (l_record ((λ key, (key, plain_legacy l_bool)) <$> path))).
Definition minus_parser : parser (list N * legacy_type) := (chr "-" >>> skp) ->> (qualified_field_name ->* to_minus_record).
Definition algebra_parser : parser (list N * legacy_type) :=
  operator_parser "+>" <|> operator_parser "+" <|> operator_parser "<+" <|> minus_parser.
Definition legacy_type_expr_parser : parser legacy_type :=
  ((algebra_operand_parser >>- skp) >> plus_parser (skp ->> algebra_parser))
    ->* (λ x, mk_legacy [] [(codes "$algebra", None)] (l_record (([], x.1) :: x.2))).
End rules.

(** The complete type, by the reference to the type and the rule of the type expression. *)
Definition type_parser (type_type expr : parser legacy_type) : parser legacy_type :=
  ((expr <|> legacy_basic_type_parser <|> legacy_enum_type_parser <|> legacy_list_type_parser type_type
    <|> legacy_map_type_parser type_type <|> legacy_record_type_parser type_type <|> placeholder_parser) >> attr_list)
    ->* (λ x, update_attributes x.2 x.1).

(** The two rules refer to each other; the fuel bounds the depth of the references. *)
Fixpoint rules (fuel : nat) : parser legacy_type * parser legacy_type :=
  match fuel with
  | O => (λ _, loops, λ _, loops)
  | S fuel =>
      let '(type_type, legacy_type_expr) := rules fuel in
      let expr := legacy_type_expr_parser type_type legacy_type_expr in
      (type_parser type_type expr, expr)
  end.
(** References to the type are behind consumed input. A reference to the type expression is at the
    start of one: there is no end to that recursion, whatever the fuel. *)
Definition legacy_type_parser : parser legacy_type := λ f, (rules (S (List.length f))).1 f.

(** ** Left recursion *)

Definition is_identifier_char (c : N) : bool := isalnum c || (c =? code "_") || (c =? code ".").
Lemma identifier_char_fails f : starts_not is_identifier_char f → identifier_char f = failed f.
Proof.
  intros Hf. unfold identifier_char, choice_parser, alnum, char_parser, char_class_parser. destruct f as [|c f]; [done|]. cbn [starts_not] in Hf.
  unfold is_identifier_char in Hf. apply orb_false_iff in Hf as [[-> H1]%orb_false_iff H2]. by rewrite (N.eqb_sym (code "_")), H1, (N.eqb_sym (code ".")), H2.
Qed.
Lemma identifier_fails f : starts_not is_identifier_char f → identifier f = failed f.
Proof. intros Hf. unfold identifier, plus_parser. by rewrite identifier_char_fails. Qed.
Lemma lit_fails c s f : is_identifier_char (code c) = true → starts_not is_identifier_char f → lit (String c s) f = failed f.
Proof.
  intros Hc Hf. unfold lit, literal_parser. destruct (literal_loop _ f) as [f'|] eqn:E; [|done]. apply literal_loop_Some in E as ->. cbn in Hf. congruence.
Qed.

Lemma expr_rule_loops fuel f : starts_not is_identifier_char f → (rules fuel).2 f = loops.
Proof.
  intros Hf. induction fuel as [|fuel IH]; [done|]. cbn [rules]. destruct (rules fuel) as [t e]. cbn [snd] in *.
  unfold legacy_type_expr_parser, action_parser, sequence_parser at 1, sequence_left at 1, action_parser at 1, sequence_parser at 1.
  replace (algebra_operand_parser t e f) with (@loops legacy_type); [done|]. unfold algebra_operand_parser, choice_parser at 1.
  replace (algebra_leaf_parser t f) with (@failed legacy_type f); [by rewrite IH|]. symmetry. unfold algebra_leaf_parser. eapply choice_failed.
  - unfold legacy_record_type_parser. apply action_failed, sequence_left_failed. left. eexists. apply sequence_left_failed. left. eexists. unfold sequence_right.
    apply action_failed. eapply sequence_failed_left. do 2 (eapply ignore_failed, sequence_failed_left). by apply lit_fails.
  - apply action_failed. by apply identifier_fails.
Qed.
Lemma type_rule_loops fuel f : starts_not is_identifier_char f → (rules fuel).1 f = loops.
Proof.
  intros Hf. destruct fuel as [|fuel]; [done|]. pose proof (expr_rule_loops (S fuel) f Hf) as H. cbn [rules] in *. destruct (rules fuel) as [t e]. cbn [fst snd] in *.
  unfold type_parser, action_parser, sequence_parser, choice_parser. by rewrite H.
Qed.
