(* ===== verification/ParserExpression.v ===== *)
(** The parser and the printer of the query language:
    [libvast/src/concept/parseable/vast/expression.cpp],
    [libvast/include/vast/concept/printable/vast/expression.hpp],
    [libvast/include/vast/concept/printable/vast/operator.hpp] and the formatters of types in
    [libvast/include/vast/type.hpp]. *)

From Stdlib Require Import Ascii String.
From S2P Require Import Prelude Coding Strings Operator Data Types Ip DataOps Expression Parser ParserNumeric ParserVast ParserTime ParserData ParserType.
#[local] Open Scope parser_scope.

(** [enum class bool_operator] *)
Inductive bool_operator := logical_not | logical_and | logical_or.

(** ** Predicates *)

Definition to_field_extractor (xs : list (list N)) : operand := field_extractor (join xs [code "."]).
Definition to_predicate (x : operand * relational_operator * operand) : predicate :=
  let '(lhs, op, rhs) := x in mk_predicate lhs op rhs.

(** A subnet is also looked up in addresses. *)
Definition build_addr_pred (lhs : operand) (op : relational_operator) (rhs : operand) : option expression :=
  match lhs, rhs with
  | type_extractor t, o_data (d_subnet x n) =>
      if (op ==o equal) && (match type.resolve_transparent t with t_subnet => true | _ => false end)
      then Some (e_predicate (mk_predicate (type_extractor t_ip) in_ (o_data (d_subnet x n)))) else None
  | _, _ => None
  end.
Definition expand_predicate (p : predicate) : expression :=
  match build_addr_pred (lhs p) (op p) (rhs p) with
  | Some e => disjunction [e_predicate p; e]
  | None =>
      match build_addr_pred (rhs p) (op p) (lhs p) with
      | Some e => disjunction [e_predicate p; e]
      | None => e_predicate p
      end
  end.
Fixpoint expander (e : expression) : expression :=
  match e with
  | e_none => e_none
  | conjunction xs => conjunction (expander <$> xs)
  | disjunction xs => disjunction (expander <$> xs)
  | negation x => negation (expander x)
  | e_predicate p => expand_predicate p
  end.
Definition expand (x : data) : expression :=
  expander (e_predicate (mk_predicate (type_extractor (type.infer x)) equal (o_data x))).

Definition field_char : parser N := alnum <|> char_parser (code "_") <|> char_parser (code "-") <|> char_parser (code ":").
Definition field_parser : parser (list (list N)) :=
  not_parser (chr ":" <|> chr "-") ->> list_parser (plus_parser field_char) (chr ".").
Definition operation_names : list (string * relational_operator) :=
  [("==", equal); ("!=", not_equal); ("<=", less_equal); ("<", less); (">=", greater_equal); (">", greater);
   ("in", in_); ("!in", not_in); ("ni", ni); ("!ni", not_ni); ("[+", in_); ("[-", not_in); ("+]", ni); ("-]", not_ni)]%string.
Definition operation : parser relational_operator := names_parser operation_names.

Section predicate.
Context (data_ : parser data) (type_ : parser type).
Definition operand_parser : parser operand :=
  ((data_ >>- not_parser (ignore_parser field_char <|> chr ".")) ->* o_data)
  <|> (lit "#type" ->* λ _, meta_extractor meta_type)
  <|> (lit "#import_time" ->* λ _, meta_extractor meta_import_time)
  <|> (chr ":" ->> (type_ ->* type_extractor))
  <|> (field_parser ->* to_field_extractor).
Definition make_predicate_parser : parser predicate :=
  ((operand_parser >>- ws) >> (operation >>- ws) >> operand_parser) ->* to_predicate.
End predicate.

(** ** Expressions *)

(** The loop over the chain: the disjuncts so far and the conjunction that is open. *)
Definition close_conjunction (con : list expression) : expression := match con with [x] => x | _ => conjunction con end.
Definition to_expr_step (s : list expression * list expression) (y : bool_operator * expression) : list expression * list expression :=
  let '(dis, con) := s in
  match y with
  | (logical_and, e) => (dis, con ++ [e])
  | (logical_or, e) => (dis ++ [close_conjunction con], [e])
  | (logical_not, e) => (dis, con)
  end.
Definition to_expr (raw : expression * list (bool_operator * expression)) : expression :=
  let '(x, xs) := raw in
  match xs with
  | [] => x
  | _ =>
      let '(dis, con) := foldl to_expr_step ([], [x]) xs in
      match dis ++ [close_conjunction con] with [x] => x | dis => disjunction dis end
  end.

Definition and_or : parser bool_operator := (lit "||" ->* λ _, logical_or) <|> (lit "&&" ->* λ _, logical_and).

Section expression.
Context (predicate_ : parser predicate) (data_ : parser data).
Definition pred_expr : parser expression := (predicate_ ->* e_predicate) <|> (data_ ->* expand).
(** The rules, by the parser that the reference to the expression denotes. *)
Definition group (expr : parser expression) : parser expression :=
  ((chr "(" >>> ws) ->> expr >>- ws >>- chr ")")
  <|> ((chr "!" >>> ws) ->> (pred_expr ->* negation))
  <|> ((chr "!" >>> ws >>> chr "(" >>> ws) ->> (expr ->* negation) >>- ws >>- chr ")")
  <|> pred_expr.
Definition chain_link (expr : parser expression) : parser (bool_operator * expression) := ((ws ->> and_or) >>- ws) >> group expr.
Definition expr_alternatives (expr : parser expression) : parser expression :=
  ((group expr >> kleene_parser (chain_link expr)) >>- ws) ->* to_expr.
Fixpoint expr_rule (fuel : nat) : parser expression :=
  match fuel with O => λ _, loops | S fuel => expr_alternatives (expr_rule fuel) end.
Definition make_expression_parser : parser expression := λ f, expr_rule (S (List.length f)) f.
End expression.

(** The parser of the query language. *)
Definition predicate_parser (E : externals) (sort : list (list N * list N) → list (list N * list N)) : parser predicate :=
  make_predicate_parser (data_parser E) (legacy_type_parser ->* from_legacy_type sort).
Definition expression_parser (E : externals) (sort : list (list N * list N) → list (list N * list N)) : parser expression :=
  make_expression_parser (predicate_parser E sort) (data_parser E).

(** ** Printers *)

Definition operator_name (op : relational_operator) : list N :=
  codes match op with
  | in_ => "in" | not_in => "!in" | ni => "ni" | not_ni => "!ni" | equal => "==" | not_equal => "!="
  | less => "<" | less_equal => "<=" | greater => ">" | greater_equal => ">="
  end%string.

(** [fmt::formatter<type>]; attributes of the outermost layer are printed with a space in front. *)
Definition attribute_text (a : list N * list N) : list N :=
  [code "#"] ++ a.1 ++ (match a.2 with [] => [] | v => [code "="] ++ v end).
(** The attributes of [type::attributes(recurse::no)]. *)
Definition own_attributes (t : type) : list (list N * list N) := match t with t_enriched _ attributes _ => attributes | _ => [] end.
(** A name stands for the type. *)
Definition full_text (t : type) (text : list N) : list N :=
  (match type.name t with [] => text | n => n end) ++ concat ((λ a, [code " "] ++ attribute_text a) <$> own_attributes t).
(** The type below names and attributes. *)
Fixpoint concrete_text (t : type) : list N :=
  match t with
  | t_none => codes "none"
  | t_bool => codes "bool" | t_int64 => codes "int64" | t_uint64 => codes "uint64" | t_double => codes "double"
  | t_duration => codes "duration" | t_time => codes "time" | t_string => codes "string" | t_ip => codes "ip"
  | t_subnet => codes "subnet"
  | t_enumeration fields =>
      codes "enum {" ++ join_printed (codes ", ") ((λ f, f.1 ++ codes ": " ++ print_int uint32 (Z.of_N f.2)) <$> fields) ++ codes "}"
  | t_list t => codes "list<" ++ full_text t (concrete_text t) ++ codes ">"
  | t_map k v => codes "map<" ++ full_text k (concrete_text k) ++ codes ", " ++ full_text v (concrete_text v) ++ codes ">"
  | t_record fields =>
      codes "record {" ++ join_printed (codes ", ") ((λ f, f.1 ++ codes ": " ++ full_text f.2 (concrete_text f.2)) <$> fields) ++ codes "}"
  | t_enriched _ _ t => concrete_text t
  end.
Definition type_text (t : type) : list N := full_text t (concrete_text t).

Section print.
Context (print_data : data → option (list N)).
Definition operand_printer (x : operand) : option (list N) :=
  match x with
  | meta_extractor meta_type => Some (codes "#type")
  | meta_extractor meta_import_time => Some (codes "#import_time")
  | type_extractor t => Some ([code ":"] ++ type_text t)
  | field_extractor field => Some field
  | data_extractor t column => Some (type_text t ++ [code "@"] ++ print_int uint64 (Z.of_N column))
  | o_data d => print_data d
  end.
Definition predicate_printer (p : predicate) : option (list N) :=
  l ← operand_printer (lhs p); r ← operand_printer (rhs p);
  Some (l ++ [code " "] ++ operator_name (op p) ++ [code " "] ++ r).
Fixpoint expression_printer (e : expression) : option (list N) :=
  match e with
  | e_none => Some (codes "nil")
  | conjunction xs => texts ← mapM expression_printer xs; Some ([code "("] ++ join_printed (codes " && ") texts ++ [code ")"])
  | disjunction xs => texts ← mapM expression_printer xs; Some ([code "("] ++ join_printed (codes " || ") texts ++ [code ")"])
  | negation x => text ← expression_printer x; Some (codes "! " ++ text)
  | e_predicate p => predicate_printer p
  end.
End print.
