(* ===== verification/ParserExpressionSpec.v ===== *)
(** The texts of expressions: the precedence of the connectives, the queries on which parsing ends,
    and that what is printed is parsed again, over an interface of the parser of predicates, and the instance of this interface. *)

From Stdlib Require Import Ascii String.
From S2P Require Import Prelude Coding Strings Operator Data Types Ip DataOps Expression ExpressionSpec Parser ParserNumeric ParserVast ParserVastSpec ParserTime ParserData ParserDataSpec ParserType ParserExpression.
#[local] Open Scope parser_scope.

(** ** Precedence *)

Section precedence.
Context (v : predicate → bool).

(** The value of a chain where [&&] binds stronger; the accumulator is the open conjunction. *)
Fixpoint chain_value (acc : bool) (xs : list (bool_operator * expression)) : bool :=
  match xs with
  | [] => acc
  | (logical_and, e) :: xs => chain_value (acc && eval v e) xs
  | (logical_or, e) :: xs => acc || chain_value (eval v e) xs
  | (logical_not, e) :: xs => chain_value acc xs
  end.
Lemma eval_close con : eval v (close_conjunction con) = forallb (eval v) con.
Proof. destruct con as [|x [|y con]]; [done| |done]. cbn. by rewrite andb_true_r. Qed.
Lemma to_expr_loop xs dis con : let '(dis', con') := foldl to_expr_step (dis, con) xs in
  existsb (eval v) dis' || forallb (eval v) con' = existsb (eval v) dis || chain_value (forallb (eval v) con) xs.
Proof.
  revert dis con. induction xs as [|[[] e] xs IH]; intros dis con; cbn [foldl to_expr_step chain_value]; [done|apply IH|..].
  - specialize (IH dis (con ++ [e])). destruct (foldl to_expr_step _ xs) as [dis' con']. rewrite IH, forallb_app. cbn. by rewrite andb_true_r.
  - specialize (IH (dis ++ [close_conjunction con]) [e]). destruct (foldl to_expr_step _ xs) as [dis' con']. rewrite IH, existsb_app. cbn [existsb forallb].
    by rewrite eval_close, orb_false_r, andb_true_r, orb_assoc.
Qed.
Lemma to_expr_value x xs : eval v (to_expr (x, xs)) = chain_value (eval v x) xs.
Proof.
  unfold to_expr. destruct xs as [|y xs]; [done|]. pose proof (to_expr_loop (y :: xs) [] [x]) as H. destruct (foldl to_expr_step ([], [x]) (y :: xs)) as [dis con].
  cbn [existsb forallb orb] in H. rewrite andb_true_r in H. rewrite <- H. destruct dis as [|d dis]; cbn [app]; [by rewrite eval_close|].
  assert (eval v (disjunction (d :: dis ++ [close_conjunction con])) = existsb (eval v) (d :: dis) || forallb (eval v) con) as E.
  { cbn [eval]. rewrite app_comm_cons, existsb_app. cbn [existsb]. by rewrite eval_close, orb_false_r. }
  rewrite <- E. by destruct dis.
Qed.

(** The operands between the [||], as they are written. *)
Fixpoint conjunctions (x : expression) (xs : list (bool_operator * expression)) : list (list expression) :=
  match xs with
  | [] => [[x]]
  | (logical_and, e) :: xs => match conjunctions e xs with g :: gs => (x :: g) :: gs | [] => [[x]] end
  | (logical_or, e) :: xs => [x] :: conjunctions e xs
  | (logical_not, _) :: xs => conjunctions x xs
  end.
Lemma chain_value_conjunctions acc x xs : chain_value (acc && eval v x) xs =
  match conjunctions x xs with g :: gs => (acc && forallb (eval v) g) || existsb (forallb (eval v)) gs | [] => false end.
Proof.
  revert acc x. induction xs as [|[[] e] xs IH]; intros acc x; cbn [chain_value conjunctions forallb existsb]; [by rewrite andb_true_r, orb_false_r|apply IH|..].
  - rewrite IH. destruct (conjunctions e xs) as [|g gs] eqn:E; [exfalso|by cbn [forallb]; rewrite andb_assoc].
    revert E. clear. revert e. induction xs as [|[[] y] xs IH]; intros e E; cbn [conjunctions] in E; [done|by eapply IH| |done]. destruct (conjunctions y xs); done.
  - rewrite andb_true_r. f_equal. specialize (IH true e). cbn [andb] in IH. rewrite IH. by destruct (conjunctions e xs).
Qed.
Lemma to_expr_conjunctions x xs : eval v (to_expr (x, xs)) = existsb (forallb (eval v)) (conjunctions x xs).
Proof. rewrite to_expr_value. pose proof (chain_value_conjunctions true x xs) as H. cbn [andb] in H. rewrite H. by destruct (conjunctions x xs). Qed.

(** Chains of one connective. *)
Lemma to_expr_and x y xs : to_expr (x, (λ e, (logical_and, e)) <$> y :: xs) = conjunction (x :: y :: xs).
Proof.
  unfold to_expr. assert (∀ con, foldl to_expr_step ([], con) ((λ e, (logical_and, e)) <$> y :: xs) = ([], con ++ y :: xs)) as ->; [|done].
  generalize (y :: xs) as zs. induction zs as [|z zs IH]; intros con; cbn; [by rewrite app_nil_r|]. unfold fmap in IH. by rewrite IH, <- app_assoc.
Qed.
Lemma to_expr_or x y xs : to_expr (x, (λ e, (logical_or, e)) <$> y :: xs) = disjunction (x :: y :: xs).
Proof.
  unfold to_expr. assert (∀ zs dis z, ∃ dis' z', foldl to_expr_step (dis, [z]) ((λ e, (logical_or, e)) <$> zs) = (dis', [z']) ∧ dis' ++ [z'] = dis ++ z :: zs) as H.
  { induction zs as [|e zs IH]; intros dis z; [by exists dis, z|]. cbn. destruct (IH (dis ++ [z]) e) as (dis' & z' & E & Ez). exists dis', z'. split; [exact E|]. by rewrite Ez, <- app_assoc. }
  destruct (H (y :: xs) [] x) as (dis' & z' & -> & E). cbn [fmap list_fmap close_conjunction]. by rewrite E.
Qed.
End precedence.

(** ** Every parse of an expression ends *)

Section ends.
Context (p : parser predicate) (d : parser data) `{!Local p, !Total p, !Local d, !Total d}.
Ltac laws := repeat (unfold sequence_left, sequence_right, lit, chr, and_or); apply _.
Lemma expr_alternatives_laws q n : Local q → EndsBelow n q → Local (expr_alternatives p d q) ∧ EndsBelow (S n) (expr_alternatives p d q).
Proof.
  intros Hl He. assert (Local (group p d q) ∧ EndsBelow (S n) (group p d q)) as [? ?] by (unfold group, pred_expr; split; laws).
  assert (Local (chain_link p d q) ∧ Consuming (chain_link p d q) ∧ EndsBelow (S n) (chain_link p d q)) as (? & ? & ?) by (unfold chain_link; split_and!; laws).
  unfold expr_alternatives. split; laws.
Qed.
Lemma expr_rule_laws n : Local (expr_rule p d n) ∧ EndsBelow n (expr_rule p d n).
Proof.
  induction n as [|n [IH1 IH2]]; [split; [done|intros f Hf; lia]|]. cbn [expr_rule]. by apply expr_alternatives_laws.
Qed.
#[export] Instance expression_total : Total (make_expression_parser p d).
Proof. intros f. destruct (expr_rule_laws (S (List.length f))) as [_ H]. apply H. lia. Qed.
End ends.

(** ** Types in expressions *)

(** Whether a parser ends, and whether it succeeds, on an input. *)
Definition ends_on {A} (p : parser A) (f : list N) : bool := match p f with loops => false | _ => true end.
Definition succeeds_on {A} (p : parser A) (f : list N) : bool := match p f with parsed _ _ => true | _ => false end.
(** The parser that fails where another one does not end. *)
Definition or_fails {A} (p : parser A) : parser A := λ f, match p f with loops => failed f | r => r end.
#[export] Instance or_fails_total {A} (p : parser A) : Total (or_fails p).
Proof. intros f. unfold or_fails. by destruct (p f). Qed.
#[export] Instance or_fails_local {A} (p : parser A) `{!Local p} : Local (or_fails p).
Proof. intros f. unfold or_fails. pose proof (local_parser (p:=p) f) as H. destruct (p f); [done|done|eauto]. Qed.
Lemma or_fails_eq {A} (p : parser A) f : ends_on p f = true → or_fails p f = p f.
Proof. unfold ends_on, or_fails. by destruct (p f). Qed.

(** Parsers that agree on a set of inputs that is closed under suffixes. *)
Section agree.
Context (T : list N → Prop) (Tsuffix : ∀ k f, T (k ++ f) → T f).
Definition agree {A} (p p' : parser A) : Prop := ∀ f, T f → p f = p' f.
Lemma agree_refl {A} (p : parser A) : agree p p.
Proof. done. Qed.
Lemma agree_action {A B} (p p' : parser A) (g : A → B) : agree p p' → agree (p ->* g) (p' ->* g).
Proof. intros H f Hf. unfold action_parser. by rewrite H. Qed.
Lemma agree_choice {A} (p p' q q' : parser A) : agree p p' → agree q q' → agree (p <|> q) (p' <|> q').
Proof. intros Hp Hq f Hf. unfold choice_parser. by rewrite Hp, Hq. Qed.
Lemma agree_sequence {A B} (p p' : parser A) (q q' : parser B) `{!Local p'} : agree p p' → agree q q' → agree (p >> q) (p' >> q').
Proof.
  intros Hp Hq f Hf. unfold sequence_parser. rewrite Hp by done. destruct (p' f) as [a f1|f1|] eqn:E; [|done..].
  apply (local_parsed p') in E as [k ->]. by rewrite Hq by eauto.
Qed.
Lemma agree_left {A} (p p' : parser A) (q q' : parser unit) `{!Local p'} : agree p p' → agree q q' → agree (p >>- q) (p' >>- q').
Proof. intros Hp Hq. by apply agree_action, agree_sequence. Qed.
Lemma agree_right {A} (p p' : parser unit) (q q' : parser A) `{!Local p'} : agree p p' → agree q q' → agree (p ->> q) (p' ->> q').
Proof. intros Hp Hq. by apply agree_action, agree_sequence. Qed.
Lemma agree_kleene {A} (p p' : parser A) `{!Local p'} : agree p p' → agree (kleene_parser p) (kleene_parser p').
Proof.
  intros Hp f Hf. unfold kleene_parser. generalize (S (List.length f)) as n, (@nil A) as xs. intros n. revert f Hf.
  induction n as [|n IH]; intros f Hf xs; cbn [kleene_loop]; [done|]. rewrite Hp by done. destruct (p' f) as [a f1|f1|] eqn:E; [|done..].
  apply (local_parsed p') in E as [k ->]. apply IH. eauto.
Qed.
End agree.
Create HintDb agree.
#[export] Hint Resolve agree_refl agree_action agree_choice agree_sequence agree_left agree_right agree_kleene : agree.

Section types.
Context (d : parser data) (l : parser legacy_type) (convert : legacy_type → type) `{!Local d, !Total d, !Local l}.
Definition data_operand : parser operand := (d >>- not_parser (ignore_parser field_char <|> chr ".")) ->* o_data.

(** Behind every colon that does not begin data, the parser of types ends. *)
Fixpoint colons_end (f : list N) : bool :=
  match f with
  | [] => true
  | c :: g => (negb (c =? code ":") || succeeds_on data_operand f || ends_on l g) && colons_end g
  end.
Lemma colons_end_suffix k f : colons_end (k ++ f) = true → colons_end f = true.
Proof. induction k as [|c k IH]; [done|]. cbn [app colons_end]. intros [_ H]%andb_true_iff. by apply IH. Qed.
Lemma colons_end_no_colon f : code ":" ∉ f → colons_end f = true.
Proof.
  induction f as [|c f IH]; [done|]. intros [Hc Hf]%not_elem_of_cons. cbn [colons_end]. rewrite IH by done. by rewrite (proj2 (N.eqb_neq c (code ":"))) by done.
Qed.
Abbreviation Ends := (λ f, colons_end f = true).

Lemma choice_agree_at {A} (p q q' : parser A) f : ((∃ f', p f = failed f') → q f = q' f) → (p <|> q) f = (p <|> q') f.
Proof. intros H. unfold choice_parser. destruct (p f) eqn:E; [done| |done]. by rewrite H by eauto. Qed.
Lemma choice_left_at {A} (p p' q : parser A) f : p f = p' f → (p <|> q) f = (p' <|> q) f.
Proof. intros H. unfold choice_parser. by rewrite H. Qed.
Lemma choice_failed_left {A} (p q : parser A) f f' : (p <|> q) f = failed f' → ∃ f', p f = failed f'.
Proof. unfold choice_parser. destruct (p f); [done|eauto|done]. Qed.
Lemma operand_agree : agree Ends (operand_parser d (l ->* convert)) (operand_parser d (or_fails l ->* convert)).
Proof.
  intros f Hf. unfold operand_parser. change ((d >>- not_parser _) ->* o_data) with data_operand. set (X := data_operand <|> _ <|> _).
  assert ((X <|> (chr ":" ->> ((l ->* convert) ->* type_extractor))) f = (X <|> (chr ":" ->> ((or_fails l ->* convert) ->* type_extractor))) f) as H; [|by apply choice_left_at].
  apply choice_agree_at. intros [f' [f1 [f2 E]%choice_failed_left]%choice_failed_left].
  unfold sequence_right, action_parser at 1 4, sequence_parser, chr, ignore_parser, char_parser, char_class_parser. destruct f as [|c g]; [done|].
  destruct (code ":" =? c) eqn:Ec; [|done]. cbn [colons_end] in Hf. unfold succeeds_on in Hf. rewrite E, N.eqb_sym, Ec in Hf. cbn [negb orb] in Hf.
  apply andb_true_iff in Hf as [Hg _]. unfold action_parser. by rewrite or_fails_eq.
Qed.

End types.

Section predicate_laws.
Context (d : parser data) (t : parser type) `{!Local d, !Total d, !Local t}.
Ltac laws := repeat (unfold sequence_left, sequence_right, lit, chr, char_parser, ws, space, alnum); apply _.
#[export] Instance operation_local : Local operation.
Proof. apply (foldl_choice_local (λ x : string * relational_operator, lit x.1 ->* λ _, x.2)); intros; unfold lit; apply _. Qed.
#[export] Instance operation_total : Total operation.
Proof. apply (foldl_choice_total (λ x : string * relational_operator, lit x.1 ->* λ _, x.2)); intros; unfold lit; apply _. Qed.
#[export] Instance operand_local : Local (operand_parser d t).
Proof. unfold operand_parser, field_parser, field_char. laws. Qed.
#[export] Instance operand_total `{!Total t} : Total (operand_parser d t).
Proof. unfold operand_parser, field_parser, field_char. laws. Qed.
#[export] Instance predicate_local : Local (make_predicate_parser d t).
Proof. unfold make_predicate_parser. laws. Qed.
#[export] Instance predicate_total `{!Total t} : Total (make_predicate_parser d t).
Proof. unfold make_predicate_parser. laws. Qed.
End predicate_laws.

(** Parsers of expressions over parsers of predicates that agree do agree. *)
Section expression_agree.
Context (T : list N → Prop) (Tsuffix : ∀ k f, T (k ++ f) → T f) (d : parser data) (p p' : parser predicate).
Context `{!Local d, !Total d, !Local p'} (Hp : agree T p p').
Ltac laws := repeat (unfold sequence_left, sequence_right, lit, chr, and_or); apply _.
Lemma pred_expr_agree : agree T (pred_expr p d) (pred_expr p' d).
Proof. unfold pred_expr. auto with agree. Qed.
Lemma expr_alternatives_agree q q' : Local q' → agree T q q' → agree T (expr_alternatives p d q) (expr_alternatives p' d q').
Proof.
  intros Hl Hq. pose proof pred_expr_agree as He. assert (Local (pred_expr p' d)) by (unfold pred_expr; laws).
  assert (Local (group p' d q')) by (unfold group; laws). assert (Local (chain_link p' d q')) by (unfold chain_link; laws).
  assert (agree T (group p d q) (group p' d q')) as Hg.
  { unfold group. apply agree_choice; [|done]. repeat apply agree_choice.
    - apply (agree_left _ Tsuffix); [laws| |done]. apply (agree_left _ Tsuffix); [laws| |done]. by apply (agree_right _ Tsuffix); [laws|..].
    - apply (agree_right _ Tsuffix); [laws|done|]. by apply agree_action.
    - apply (agree_left _ Tsuffix); [laws| |done]. apply (agree_left _ Tsuffix); [laws| |done]. apply (agree_right _ Tsuffix); [laws|done|]. by apply agree_action. }
  assert (agree T (chain_link p d q) (chain_link p' d q')) as Hc by (unfold chain_link; by apply (agree_sequence _ Tsuffix); [laws|..]).
  unfold expr_alternatives. apply agree_action, (agree_left _ Tsuffix); [laws| |done]. apply (agree_sequence _ Tsuffix); [done..|]. by apply (agree_kleene _ Tsuffix).
Qed.
Lemma expr_rule_agree n : agree T (expr_rule p d n) (expr_rule p' d n).
Proof.
  induction n as [|n IH]; [done|]. cbn [expr_rule]. apply expr_alternatives_agree; [|done].
  clear IH. induction n as [|n IH]; [done|]. cbn [expr_rule]. unfold expr_alternatives, chain_link, group, pred_expr. laws.
Qed.
End expression_agree.

(** The parser of expressions ends where the parser of types ends behind the colons. *)
Lemma predicates_agree d (l : parser legacy_type) convert `{!Local d, !Total d, !Local l} :
  agree (λ f, colons_end d l f = true) (make_predicate_parser d (l ->* convert)) (make_predicate_parser d (or_fails l ->* convert)).
Proof.
  pose proof (colons_end_suffix d l) as HT. pose proof (operand_agree d l convert) as Ho. unfold make_predicate_parser.
  apply agree_action, (agree_sequence _ HT); [unfold sequence_left; apply _| |done]. apply (agree_sequence _ HT); [unfold sequence_left; apply _| |done].
  by apply (agree_left _ HT); [apply _|..].
Qed.
Lemma make_expression_ends d (l : parser legacy_type) convert f `{!Local d, !Total d, !Local l} : colons_end d l f = true →
  make_expression_parser (make_predicate_parser d (l ->* convert)) d f ≠ loops.
Proof.
  intros Hf. unfold make_expression_parser. rewrite (expr_rule_agree _ (colons_end_suffix d l) d _ _ (predicates_agree d l convert)) by done.
  exact (total_parser (p := make_expression_parser (make_predicate_parser d (or_fails l ->* convert)) d) f).
Qed.
(** Where a part does not end. *)
Section parts.
Context {A B : Type} (p p' : parser A) (q : parser B) (f : list N).
Lemma choice_loops : fails p f → p' f = loops → (p <|> p') f = loops.
Proof. intros [f' E] H. unfold choice_parser. by rewrite E, H. Qed.
Lemma choice_loops_left : p f = loops → (p <|> p') f = loops.
Proof. intros H. unfold choice_parser. by rewrite H. Qed.
Lemma action_loops (g : A → B) : p f = loops → (p ->* g) f = loops.
Proof. intros H. unfold action_parser. by rewrite H. Qed.
Lemma sequence_loops_left : p f = loops → (p >> q) f = loops.
Proof. intros H. unfold sequence_parser. by rewrite H. Qed.
Lemma sequence_left_loops (r : parser unit) : p f = loops → (p >>- r) f = loops.
Proof. intros H. unfold sequence_left, action_parser, sequence_parser. by rewrite H. Qed.
Lemma sequence_right_loops (r : parser unit) x f' : r f = parsed x f' → p f' = loops → (r ->> p) f = loops.
Proof. intros E H. unfold sequence_right, action_parser, sequence_parser. by rewrite E, H. Qed.
End parts.
(** Where the parser of types goes on without end behind such a colon, so does the parser of expressions. *)
Lemma make_expression_loops d (l : parser legacy_type) convert g `{!Total d} : succeeds_on (data_operand d) (code ":" :: g) = false → l g = loops →
  make_expression_parser (make_predicate_parser d (l ->* convert)) d (code ":" :: g) = loops.
Proof.
  intros Hd Hl. assert (∃ f', data_operand d (code ":" :: g) = failed f') as [f' E].
  { unfold succeeds_on in Hd. destruct (data_operand d (code ":" :: g)) eqn:E; [done|eauto|]. exfalso. revert E. unfold data_operand, chr, field_char, alnum, char_parser, sequence_left.
    apply total_parser. }
  assert (fails (data_operand d) (code ":" :: g)) as Hf by (by eexists).
  assert (operand_parser d (l ->* convert) (code ":" :: g) = loops) as Ho.
  { unfold operand_parser. change ((d >>- not_parser _) ->* o_data) with (data_operand d). apply choice_loops_left, choice_loops.
    - repeat apply fails_choice; [done|by eexists..].
    - eapply sequence_right_loops; [apply chr_parsed|]. by apply action_loops, action_loops. }
  unfold make_expression_parser, make_predicate_parser. cbn [expr_rule]. apply action_loops, sequence_left_loops, sequence_loops_left. unfold group, pred_expr.
  apply choice_loops; [repeat apply fails_choice; by eexists|]. by apply choice_loops_left, action_loops, action_loops, sequence_loops_left, sequence_loops_left, sequence_left_loops.
Qed.

(** The parser of types stays within the input. *)
Section type_laws.
Ltac laws := repeat (unfold sequence_left, sequence_right, lit, chr, char_parser, space, alnum, identifier, identifier_char, printable, any_parser, skp, comment, qqstr, quoted_string_parser, comma_skp); apply _.
#[export] Instance any_local : Local any_parser.
Proof. intros [|c f]; cbn; [eauto|by exists [c]]. Qed.
#[export] Instance basic_names_local : Local (names_parser basic_names).
Proof. apply (foldl_choice_local (λ x : string * concrete legacy_type, lit x.1 ->* λ _, x.2)); intros; unfold lit; apply _. Qed.
#[export] Instance skp_local : Local skp.
Proof. laws. Qed.
#[export] Instance identifier_local : Local identifier.
Proof. laws. Qed.
#[export] Instance qqstr_local : Local qqstr.
Proof. laws. Qed.
Lemma record_type_local t : Local t → Local (legacy_record_type_parser t).
Proof. intros Ht. unfold legacy_record_type_parser, field, field_name. laws. Qed.
Lemma type_expr_local t e : Local t → Local e → Local (legacy_type_expr_parser t e).
Proof.
  intros Ht He. pose proof (record_type_local t Ht). assert (Local (algebra_operand_parser t e)) by (unfold algebra_operand_parser, algebra_leaf_parser, placeholder_parser; laws).
  assert (Local minus_parser) by (unfold minus_parser, qualified_field_name; laws). assert (∀ op, Local (operator_parser t e op)) by (intros op; unfold operator_parser; laws).
  unfold legacy_type_expr_parser, algebra_parser. laws.
Qed.
Lemma type_rule_local t e : Local t → Local e → Local (type_parser t e).
Proof.
  intros Ht He. pose proof (record_type_local t Ht). assert (Local attr_list) by (unfold attr_list, attr, attr_value; laws).
  unfold type_parser, legacy_basic_type_parser, legacy_enum_type_parser, legacy_list_type_parser, legacy_map_type_parser, placeholder_parser. laws.
Qed.
Lemma rules_local n : Local (rules n).1 ∧ Local (rules n).2.
Proof.
  induction n as [|n [IH1 IH2]]; [split; intros f; done|]. cbn [rules]. destruct (rules n) as [t e]. cbn [fst snd] in *. pose proof (type_expr_local t e IH1 IH2).
  split; [by apply type_rule_local|done].
Qed.
#[export] Instance legacy_type_local : Local legacy_type_parser.
Proof. intros f. exact (proj1 (rules_local (S (List.length f))) f). Qed.
End type_laws.

(** Whether the parser of types ends behind every colon of a query that does not begin data. *)
Definition types_end (E : externals) : list N → bool := colons_end (data_parser E) legacy_type_parser.

(** ** The interface *)

(** What follows an expression. *)
Definition expr_follow (f : list N) : Prop := f = [] ∨ (∃ r, f = codes ")" ++ r) ∨ (∃ r, f = codes " && " ++ r) ∨ (∃ r, f = codes " || " ++ r).
(** The characters that neither a predicate nor data begins with. *)
Definition group_start : list N := codes "(!" ++ [32; 9; 10; 11; 12; 13].

(** A parser that fails on those characters did not read one of them. *)
Lemma not_group_start {A} (q : parser A) s (a : A) f : (∀ c f, c ∈ group_start → fails q (c :: f)) → q (s ++ f) = parsed a f → s ≠ [] →
  ∀ f, starts_not (λ c, bool_decide (c ∈ group_start)) (s ++ f).
Proof.
  intros Hq Hp Hne f'. destruct s as [|x s]; [done|]. cbn [app starts_not]. apply bool_decide_eq_false. intros Hx. destruct (Hq x (s ++ f) Hx) as [f1 H].
  cbn [app] in Hp. congruence.
Qed.

Class PredicateText (p : parser predicate) (d : parser data) (print : predicate → option (list N)) (ok : predicate → Prop) : Prop := {
  predicate_reads x : ok x → ∃ s, print x = Some s ∧ s ≠ [] ∧ ∀ f, expr_follow f → p (s ++ f) = parsed x f;
  predicate_start c f : c ∈ group_start → fails p (c :: f);
  data_start c f : c ∈ group_start → fails d (c :: f)
}.

Section expression.
Context (p : parser predicate) (d : parser data) (print_data : data → option (list N)) (ok : predicate → Prop).
Context `{!PredicateText p d (predicate_printer print_data) ok}.

(** The expressions whose text is an expression: junctions have at least two operands, and a
    negation is in front of a predicate or a junction. *)
Fixpoint expr_ok (e : expression) : Prop :=
  match e with
  | e_none => False
  | conjunction xs | disjunction xs => (2 <= List.length xs)%nat ∧ foldr (λ x Q, expr_ok x ∧ Q) True xs
  | negation x => (match x with negation _ => False | _ => True end) ∧ expr_ok x
  | e_predicate x => ok x
  end.

Definition group_reads (e : expression) (s : list N) : Prop := s ≠ [] ∧ (∀ f, starts_not isspace (s ++ f)) ∧
  ∀ n f, expr_follow f → (List.length (s ++ f) <= n)%nat → group p d (expr_rule p d n) (s ++ f) = parsed e f.

Lemma pred_expr_start c f : c ∈ group_start → fails (pred_expr p d) (c :: f).
Proof. intros Hc. unfold pred_expr. apply fails_choice; apply fails_action; [by apply predicate_start|by apply data_start]. Qed.
Lemma not_group_start_split f : starts_not (λ c, bool_decide (c ∈ group_start)) f →
  fails (chr "(") f ∧ fails (chr "!") f ∧ starts_not isspace f.
Proof.
  destruct f as [|c f]; [split; [by eexists|split; [by eexists|done]]|]. cbn [starts_not]. intros Hc%bool_decide_eq_false.
  assert (∀ x, x ∈ group_start → (x =? c) = false) as H by (intros x Hx; apply N.eqb_neq; by intros ->).
  split_and!; [apply fails_chr, (H (code "(")), list_elem_of_In; vm_compute; tauto|apply fails_chr, (H (code "!")), list_elem_of_In; vm_compute; tauto|].
  destruct (isspace c) eqn:E; [|done]. exfalso. apply Hc, list_elem_of_In. unfold isspace in E. apply orb_true_iff in E as [E%N.eqb_eq|[H9%N.leb_le H13%N.leb_le]%andb_true_iff].
  - subst c. vm_compute. tauto.
  - assert (c = 9 ∨ c = 10 ∨ c = 11 ∨ c = 12 ∨ c = 13) as Hx by lia. destruct Hx as [->|[->|[->|[->| ->]]]]; vm_compute; tauto.
Qed.

Lemma group_predicate x : ok x → ∃ s, predicate_printer print_data x = Some s ∧ group_reads (e_predicate x) s ∧
  ∀ f, expr_follow f → pred_expr p d (s ++ f) = parsed (e_predicate x) f ∧ starts_not isspace (s ++ f).
Proof.
  intros Hx. destruct (predicate_reads x Hx) as (s & Hs & Hne & Hr). exists s. split; [done|].
  assert (∀ f, starts_not (λ c, bool_decide (c ∈ group_start)) (s ++ f)) as Hst.
  { apply (not_group_start p s x []); [apply predicate_start|apply Hr; by left|done]. }
  split; [split; [done|]; split|]; [by intros f; apply not_group_start_split| |].
  - intros n f Hf _. destruct (not_group_start_split _ (Hst f)) as (H1 & H2 & _). unfold group. apply choice_right_fails.
    + repeat apply fails_choice; eauto 10 using fails_seq_left with outcomedb.
    + by apply choice_left, action_parsed, Hr.
  - intros f Hf. split; [by apply choice_left, action_parsed, Hr|]. by apply not_group_start_split.
Qed.

(** The text of a chain behind the first operand, and what ends a chain. *)
Definition separator (op : bool_operator) : list N := codes match op with logical_or => " || " | _ => " && " end.
Definition chain_text (ys : list (bool_operator * expression)) (texts : list (list N)) : list N :=
  concat (zip_with (λ y s, separator y.1 ++ s) ys texts).
Definition chain_end (f : list N) : Prop := f = [] ∨ ∃ r, f = codes ")" ++ r.
Lemma chain_end_follow f : chain_end f → expr_follow f.
Proof. intros [->|[r ->]]; [by left|right; left; by eexists]. Qed.
Lemma chain_end_spaces f : chain_end f → starts_not isspace f.
Proof. by intros [->|[r ->]]. Qed.
Lemma chain_follow ys texts f : Forall (λ y, y.1 ≠ logical_not) ys → chain_end f → expr_follow (chain_text ys texts ++ f).
Proof.
  intros Hys Hf%chain_end_follow. destruct Hys as [|[op e] ys Hop _]; [done|]. destruct texts as [|s texts]; [done|]. unfold chain_text. cbn [zip_with concat fst]. rewrite <- !app_assoc.
  destruct op; [done|right; right; left; by eexists|right; right; right; by eexists].
Qed.
Lemma ws_none f : starts_not isspace f → ws f = parsed tt f.
Proof. intros Hf. by rewrite ws_spec, skip_spaces_none. Qed.
Lemma separator_link op f : op ≠ logical_not → starts_not isspace f → ((ws ->> and_or) >>- ws) (separator op ++ f) = parsed op f.
Proof.
  intros Hop Hf. assert (separator op ++ f = codes " " ++ codes match op with logical_or => "||" | _ => "&&" end ++ codes " " ++ f) as -> by (by destruct op).
  eapply sequence_left_parsed with (f1 := codes " " ++ f); [|rewrite ws_spec; cbn [app]; by rewrite <- (skip_spaces_none f) at 2].
  eapply sequence_right_parsed; [apply ws_spec|]. unfold and_or. destruct op; [done|..].
  - apply choice_right_fails; [by apply fails_action, fails_lit|]. apply (action_parsed _ (λ _, logical_and) _ tt). exact (lit_parsed "&&" _).
  - apply choice_left, (action_parsed _ (λ _, logical_or) _ tt). exact (lit_parsed "||" _).
Qed.
Lemma chain_link_text op e s m f : op ≠ logical_not → group_reads e s → expr_follow f → (List.length (s ++ f) <= m)%nat →
  chain_link p d (expr_rule p d m) (separator op ++ s ++ f) = parsed (op, e) f.
Proof.
  intros Hop (_ & Hsp & Hr) Hf Hl. unfold chain_link. eapply sequence_parsed; [by apply separator_link|]. by apply Hr.
Qed.
Lemma chain_link_close q f : chain_end f → chain_link p d q f = failed f.
Proof.
  intros Hf. assert (skip_spaces f = f ∧ fails and_or f) as [Hs Ha].
  { destruct Hf as [->|[r ->]]; (split; [done|]); unfold and_or; apply fails_choice; by apply fails_action, fails_lit. }
  unfold chain_link. assert (fails ((ws ->> and_or) >>- ws) f) as [f1 H]; [|by eapply sequence_failed_left].
  apply fails_seqleft. eapply fails_seqright_right; [apply ws_spec|]. by rewrite Hs.
Qed.

(** A chain of texts is read to the chain of their expressions. *)
Definition link_reads (y : bool_operator * expression) (s : list N) : Prop := y.1 ≠ logical_not ∧ group_reads y.2 s.
Lemma links_connect ys texts : Forall2 link_reads ys texts → Forall (λ y, y.1 ≠ logical_not) ys.
Proof. induction 1 as [|y s ys texts [Hy _] _ IH]; by constructor. Qed.
Lemma links_loop m ys texts : Forall2 link_reads ys texts → ∀ fuel f acc, chain_end f →
  (List.length (chain_text ys texts ++ f) <= m)%nat → (List.length texts < fuel)%nat →
  kleene_loop fuel (chain_link p d (expr_rule p d m)) (chain_text ys texts ++ f) acc = parsed (acc ++ ys) f.
Proof.
  induction 1 as [|[op e] s ys texts [Hop He] Hys IH]; intros [|fuel] f acc Hf Hl Hn; try (cbn in Hn; lia); cbn [kleene_loop].
  - unfold chain_text. cbn [zip_with concat app]. rewrite chain_link_close by done. by rewrite app_nil_r.
  - unfold chain_text in *. cbn [zip_with concat fst] in *. rewrite <- !app_assoc in *. cbn [fst snd] in Hop, He.
    rewrite (chain_link_text op e s m); [|done|done|apply chain_follow; [by eapply links_connect|done]|rewrite !length_app in *; lia].
    cbn [List.length] in Hn. rewrite !length_app in Hl. rewrite IH; [by rewrite <- app_assoc|done|rewrite !length_app; lia|lia].
Qed.
Lemma chain_text_length ys texts : Forall2 link_reads ys texts → (List.length texts <= List.length (chain_text ys texts))%nat.
Proof.
  unfold chain_text. induction 1 as [|y s ys texts _ _ IH]; [done|]. cbn [zip_with concat]. rewrite !length_app. cbn [List.length].
  assert (1 <= List.length (separator y.1))%nat by (destruct y.1; cbn; lia). lia.
Qed.
Lemma chain_reads e s ys texts n f : group_reads e s → Forall2 link_reads ys texts → chain_end f → (List.length (s ++ chain_text ys texts ++ f) < n)%nat →
  expr_rule p d n (s ++ chain_text ys texts ++ f) = parsed (to_expr (e, ys)) f.
Proof.
  intros (_ & _ & Hr) Hys Hf Hl. destruct n as [|n]; [lia|]. cbn [expr_rule]. unfold expr_alternatives. apply (action_parsed _ to_expr _ (e, ys)).
  eapply sequence_left_parsed; [|by apply ws_none, chain_end_spaces].
  eapply sequence_parsed; [apply Hr; [apply chain_follow; [by eapply links_connect|done]|lia]|]. unfold kleene_parser. apply (links_loop n ys texts Hys _ f []); [done|..].
  - rewrite length_app in Hl. lia.
  - pose proof (chain_text_length ys texts Hys). rewrite !length_app. lia.
Qed.

(** The body of a junction. *)
Definition body_reads (e : expression) (b : list N) : Prop := (∀ f, starts_not isspace (b ++ f)) ∧
  ∀ n f, (List.length (b ++ codes ")" ++ f) < n)%nat → expr_rule p d n (b ++ codes ")" ++ f) = parsed e (codes ")" ++ f).
Lemma join_chain op es texts : List.length es = List.length texts → concat ((λ y, separator op ++ y) <$> texts) = chain_text ((λ e, (op, e)) <$> es) texts.
Proof. revert texts. induction es as [|e es IH]; intros [|s texts] Hl; try done. unfold chain_text in *. cbn. injection Hl as Hl. by rewrite <- IH. Qed.
Lemma body_text op e es s texts : op ≠ logical_not → Forall2 group_reads (e :: es) (s :: texts) →
  body_reads (to_expr (e, (λ e, (op, e)) <$> es)) (join_printed (separator op) (s :: texts)).
Proof.
  intros Hop Hx. apply list.Forall2_cons in Hx as [He Hx]. unfold join_printed. rewrite (join_chain op es) by (by eapply Forall2_length).
  split; [intros f; rewrite <- app_assoc; apply He|]. intros n f. rewrite <- app_assoc. apply chain_reads; [done| |right; by eexists].
  apply Forall2_fmap_l. by eapply list.Forall2_impl; [exact Hx|].
Qed.

Definition parenthesized (b : list N) : list N := [code "("] ++ b ++ [code ")"].
Lemma paren_follow (b f : list N) : parenthesized b ++ f = code "(" :: (b ++ codes ")" ++ f).
Proof. unfold parenthesized. by rewrite <- !app_assoc. Qed.
Lemma open_paren b f : (∀ f, starts_not isspace (b ++ f)) → (chr "(" >>> ws) (code "(" :: b ++ f) = parsed tt (b ++ f).
Proof. intros Hb. eapply ignore_parsed, sequence_parsed; [apply chr_parsed|]. by apply ws_none. Qed.
Lemma group_parenthesized e b : body_reads e b → group_reads e (parenthesized b).
Proof.
  intros [Hsp Hr]. split; [done|]. split; [done|]. intros n f _ Hl. rewrite paren_follow in *. cbn [List.length] in Hl. unfold group. do 3 apply choice_left.
  eapply sequence_left_parsed; [|apply (chr_parsed ")")]. eapply sequence_left_parsed; [|exact (ws_none (codes ")" ++ f) ltac:(done))].
  eapply sequence_right_parsed; [by apply open_paren|]. apply Hr. lia.
Qed.
Lemma bang_space f : starts_not isspace f → (chr "!" >>> ws) (codes "! " ++ f) = parsed tt f.
Proof.
  intros Hf. eapply ignore_parsed, sequence_parsed; [exact (chr_parsed "!" (codes " " ++ f))|]. rewrite ws_spec. cbn [app]. by rewrite <- (skip_spaces_none f) at 2.
Qed.
Lemma fails_bang_paren (q : parser expression) f : fails ((chr "(" >>> ws) ->> q >>- ws >>- chr ")") (codes "! " ++ f).
Proof. do 2 apply fails_seqleft. apply fails_seqright, fails_seq_left. by apply fails_chr. Qed.
Lemma group_negated_junction e b : body_reads e b → group_reads (negation e) (codes "! " ++ parenthesized b).
Proof.
  intros [Hsp Hr]. split; [done|]. split; [done|]. intros n f _ Hl. rewrite <- app_assoc, paren_follow in *. unfold group. apply choice_left, choice_right_fails; [apply fails_choice|].
  - apply fails_bang_paren.
  - eapply fails_seqright_right; [by apply bang_space|]. apply fails_action, pred_expr_start, list_elem_of_In. vm_compute. tauto.
  - eapply sequence_left_parsed; [|apply (chr_parsed ")")]. eapply sequence_left_parsed; [|exact (ws_none (codes ")" ++ f) ltac:(done))].
    assert ((chr "!" >>> ws >>> chr "(" >>> ws) (codes "! " ++ code "(" :: b ++ codes ")" ++ f) = parsed tt (b ++ codes ")" ++ f)) as Ho.
    { eapply ignore_parsed, sequence_parsed; [|by apply ws_none]. eapply ignore_parsed, sequence_parsed; [by apply bang_space|]. apply chr_parsed. }
    eapply sequence_right_parsed; [exact Ho|]. apply action_parsed, Hr. rewrite length_app in Hl. cbn [List.length] in Hl. lia.
Qed.
Lemma group_negated_predicate x s : s ≠ [] → (∀ f, expr_follow f → pred_expr p d (s ++ f) = parsed x f ∧ starts_not isspace (s ++ f)) →
  group_reads (negation x) (codes "! " ++ s).
Proof.
  intros Hne Hx. split; [done|]. split; [done|]. intros n f Hf Hl. rewrite <- app_assoc in *. destruct (Hx f Hf) as [Hp Hsp]. unfold group. do 2 apply choice_left.
  apply choice_right_fails; [apply fails_bang_paren|]. eapply sequence_right_parsed; [by apply bang_space|]. by apply action_parsed.
Qed.

Lemma junction_text op (mk : list expression → expression) xs : op ≠ logical_not → (∀ x y xs, to_expr (x, (λ e, (op, e)) <$> y :: xs) = mk (x :: y :: xs)) →
  (2 <= List.length xs)%nat → Forall (λ x, ∃ s, expression_printer print_data x = Some s ∧ group_reads x s) xs →
  ∃ texts, mapM (expression_printer print_data) xs = Some texts ∧ body_reads (mk xs) (join_printed (separator op) texts).
Proof.
  intros Hop Hmk Hl Hx. destruct (mapM_texts (expression_printer print_data) group_reads xs) as (texts & Ht & Hr); [by eapply list.Forall_impl; [exact Hx|]|].
  exists texts. split; [exact Ht|]. destruct Hr as [|x s xs texts Hx0 Hr]; [cbn in Hl; lia|]. destruct xs as [|y xs]; [cbn in Hl; lia|].
  rewrite <- Hmk. apply body_text; [done|]. by constructor.
Qed.
(** The text of an expression below a negation. *)
Definition operand_reads (e : expression) (s : list N) : Prop :=
  match e with
  | conjunction _ | disjunction _ => ∃ b, s = parenthesized b ∧ body_reads e b
  | _ => ∀ f, expr_follow f → pred_expr p d (s ++ f) = parsed e f ∧ starts_not isspace (s ++ f)
  end.
Lemma group_negation e s : group_reads e s → operand_reads e s → group_reads (negation e) (codes "! " ++ s).
Proof. intros (Hne & _) H. destruct e; try by apply group_negated_predicate. all: destruct H as (b & -> & Hb); by apply group_negated_junction. Qed.

(** What is printed is parsed. *)
Lemma expression_operand e : expr_ok e → ∃ s, expression_printer print_data e = Some s ∧ group_reads e s ∧ (match e with negation _ => True | _ => operand_reads e s end).
Proof.
  assert (∀ op mk xs, op ≠ logical_not → (∀ x y xs, to_expr (x, (λ e, (op, e)) <$> y :: xs) = mk (x :: y :: xs)) →
    Forall (λ x, expr_ok x → ∃ s, expression_printer print_data x = Some s ∧ group_reads x s ∧ (match x with negation _ => True | _ => operand_reads x s end)) xs →
    (2 <= List.length xs)%nat ∧ foldr (λ x Q, expr_ok x ∧ Q) True xs →
    ∃ texts, mapM (expression_printer print_data) xs = Some texts ∧ body_reads (mk xs) (join_printed (separator op) texts)) as Hj.
  { intros op mk xs Hop Hmk IH [Hl Hx]. rewrite foldr_Forall in Hx. apply junction_text; [done..|]. rewrite list.Forall_forall in *. intros x Hin.
    destruct (IH x Hin (Hx x Hin)) as (s & Hs & Hg & _). by exists s. }
  induction e as [|xs IH|xs IH|x IH|x] using expression_ind'; intros He; cbn [expr_ok] in He; [done|..].
  - destruct (Hj logical_and conjunction xs ltac:(done) to_expr_and IH He) as (texts & Ht & Hb).
    eexists. split; [cbn [expression_printer]; by rewrite Ht|]. split; [by apply group_parenthesized|by eexists].
  - destruct (Hj logical_or disjunction xs ltac:(done) to_expr_or IH He) as (texts & Ht & Hb).
    eexists. split; [cbn [expression_printer]; by rewrite Ht|]. split; [by apply group_parenthesized|by eexists].
  - destruct He as [Hx He]. destruct (IH He) as (s & Hs & Hg & Ho). eexists. split; [cbn [expression_printer]; by rewrite Hs|]. split; [|done].
    apply group_negation; [done|]. by destruct x.
  - destruct (group_predicate x He) as (s & Hs & Hg & Hp). by exists s.
Qed.
Lemma expression_operands es : Forall expr_ok es → ∃ texts, mapM (expression_printer print_data) es = Some texts ∧ Forall2 group_reads es texts.
Proof.
  intros He. apply mapM_texts. eapply list.Forall_impl; [exact He|]. intros e (s & Hs & Hg & _)%expression_operand. by exists s.
Qed.
Lemma chain_parsed e ys : expr_ok e → Forall (λ y, y.1 ≠ logical_not ∧ expr_ok y.2) ys →
  ∃ s texts, expression_printer print_data e = Some s ∧ mapM (expression_printer print_data) ys.*2 = Some texts ∧
    parse_all (make_expression_parser p d) (s ++ chain_text ys texts) = Some (to_expr (e, ys)).
Proof.
  intros He Hys. destruct (expression_operand e He) as (s & Hs & Hg & _). destruct (expression_operands ys.*2) as (texts & Ht & Hr); [by apply list.Forall_fmap; eapply list.Forall_impl; [exact Hys|intros y [_ H]]|].
  exists s, texts. split; [done|]. split; [done|]. unfold parse_all, make_expression_parser.
  pose proof (chain_reads e s ys texts (S (List.length (s ++ chain_text ys texts))) [] Hg) as H. rewrite !app_nil_r in H. rewrite H; [done| |by left|lia].
  assert (Forall2 (λ y t, group_reads y.2 t) ys texts) as Hr' by (exact (proj1 (Forall2_fmap_l _ _ _ _) Hr)). clear -Hr' Hys. induction Hr' as [|y t zs ts Hy _ IH]; [constructor|]. apply list.Forall_cons in Hys as [[Hop _] Hys]. constructor; [by split|auto].
Qed.
Lemma expression_text e : expr_ok e → ∃ s, expression_printer print_data e = Some s ∧ parse_all (make_expression_parser p d) s = Some e.
Proof.
  intros He. destruct (chain_parsed e [] He ltac:(constructor)) as (s & texts & Hs & [= <-] & Hp). exists s. split; [done|]. unfold chain_text in Hp. cbn [zip_with concat] in Hp.
  by rewrite app_nil_r in Hp.
Qed.
End expression.

(** ** Predicates: metadata, fields, basic types and data are read back as operands *)

(** What follows an operand: an operation, or what follows the predicate. *)
Definition operation_text (op : relational_operator) (r : list N) : list N := codes " " ++ operator_name op ++ codes " " ++ r.
Definition operand_follow (f : list N) : Prop := (∃ op r, f = operation_text op r) ∨ expr_follow f.
Definition is_field_char (c : N) : bool := isalnum c || (c =? code "_") || (c =? code "-") || (c =? code ":").
Lemma follow_cases (P : list N → Prop) f : operand_follow f → (∀ op r, P (operation_text op r)) → P [] →
  (∀ r, P (codes ")" ++ r)) → (∀ r, P (codes " && " ++ r)) → (∀ r, P (codes " || " ++ r)) → P f.
Proof. intros [(op & r & ->)|[->|[[r ->]|[[r ->]|[r ->]]]]]; auto. Qed.
Lemma follow_data f : operand_follow f → data_ends f = true ∧ starts_not (λ c, is_field_char c || (c =? code ".")) f.
Proof. intros Hf. pattern f. apply (follow_cases _ f Hf); [intros []|..]; intros; by split; vm_compute. Qed.

(** ** Fields *)

Lemma field_char_class f : field_char f = char_class_parser is_field_char f.
Proof.
  destruct f as [|c f]; [done|]. unfold field_char, choice_parser, alnum, char_parser, char_class_parser, is_field_char.
  rewrite (N.eqb_sym (code "_")), (N.eqb_sym (code "-")), (N.eqb_sym (code ":")). destruct (isalnum c), (c =? code "_"), (c =? code "-"), (c =? code ":"); done.
Qed.
Definition piece_ok (k : list N) : Prop := k ≠ [] ∧ Forall (λ c, is_field_char c = true) k.
Definition dotted_pieces (ks : list (list N)) : list N := concat ((λ k, code "." :: k) <$> ks).
Lemma join_pieces k ks : join (k :: ks) [code "."] = k ++ dotted_pieces ks.
Proof.
  unfold join, dotted_pieces. revert k. induction ks as [|x ks IH]; intros k; cbn [foldl fmap list_fmap concat]; [by rewrite app_nil_r|].
  rewrite IH, <- !app_assoc. done.
Qed.
Lemma piece_text k f : piece_ok k → starts_not is_field_char f → plus_parser field_char (k ++ f) = parsed k f.
Proof. intros [Hne Hk] Hf. by apply (plus_class _ is_field_char); [apply field_char_class|..]. Qed.
Lemma pieces_follow ks f : starts_not (λ c, is_field_char c || (c =? code ".")) f → starts_not is_field_char (dotted_pieces ks ++ f).
Proof. destruct ks as [|k ks]; [|done]. destruct f as [|c f]; [done|]. cbn. by intros [H _]%orb_false_iff. Qed.
Lemma pieces_loop fuel ks f acc : Forall piece_ok ks → starts_not (λ c, is_field_char c || (c =? code ".")) f → (List.length ks < fuel)%nat →
  list_loop fuel (plus_parser field_char) (chr ".") (dotted_pieces ks ++ f) acc = parsed (acc ++ ks) f.
Proof.
  intros Hk Hf. revert fuel acc. induction Hk as [|k ks Hk _ IH]; intros [|fuel] acc Hl; try (cbn in Hl; lia); cbn [list_loop].
  - unfold dotted_pieces. cbn [fmap list_fmap concat app]. rewrite chr_failed; [by rewrite app_nil_r|]. destruct f as [|c f]; [done|]. cbn in Hf |- *.
    apply orb_false_iff in Hf as [_ H]. by rewrite N.eqb_sym.
  - change (dotted_pieces (k :: ks)) with (code "." :: (k ++ dotted_pieces ks)). cbn [app]. rewrite chr_parsed, <- app_assoc, piece_text by (done || by apply pieces_follow).
    cbn [List.length] in Hl. rewrite IH by lia. by rewrite <- app_assoc.
Qed.
Lemma field_text k ks f : piece_ok k → Forall piece_ok ks → starts_not (λ c, (c =? code ":") || (c =? code "-")) k →
  starts_not (λ c, is_field_char c || (c =? code ".")) f → field_parser (join (k :: ks) [code "."] ++ f) = parsed (k :: ks) f.
Proof.
  intros Hk Hks Hs Hf. rewrite join_pieces, <- app_assoc. unfold field_parser. eapply sequence_right_parsed.
  - unfold not_parser. assert (fails (chr ":" <|> chr "-") (k ++ dotted_pieces ks ++ f)) as [f1 ->]; [|done].
    destruct Hk as [Hne _], k as [|c k]; [done|]. cbn [starts_not] in Hs. apply orb_false_iff in Hs as [H1 H2]. apply fails_choice; apply fails_chr; cbn [app starts_not]; by rewrite N.eqb_sym.
  - unfold list_parser. rewrite piece_text by (done || by apply pieces_follow). apply (pieces_loop _ ks f [k]); [done..|].
    rewrite length_app. unfold dotted_pieces. clear. induction ks as [|x ks IH]; cbn [fmap list_fmap concat List.length] in *; [lia|]. rewrite length_app. cbn [List.length]. lia.
Qed.

(** How a field begins that is not read as data: neither like a number, an address or a hex digit,
    nor like a word of the data. *)
Definition word_start (k : list N) : bool :=
  match k with
  | c :: k => existsb (N.eqb c) (codes "ghjklmopqrsuvwxyzGHJKLMOPQRSUVWXYZ")
      || (existsb (N.eqb c) (codes "intINT") && match k with c' :: _ => negb (existsb (N.eqb c') (codes "nNaAiIoOrR")) | [] => false end)
  | [] => false
  end.
Lemma existsb_code c cs : existsb (N.eqb c) cs = true → c ∈ cs.
Proof. intros (x & Hx & ->%N.eqb_eq)%existsb_exists. by apply list_elem_of_In. Qed.
Lemma starts_with_head c f (x : ascii) s : (c =? code x) = false → starts_with (c :: f) (codes (String x s)) = false.
Proof. intros H. change (codes (String x s)) with (code x :: codes s). cbn [starts_with]. by rewrite H. Qed.
Lemma starts_with_second c c' f (x x' : ascii) s : (c' =? code x') = false → starts_with (c :: c' :: f) (codes (String x (String x' s))) = false.
Proof. intros H. change (codes (String x (String x' s))) with (code x :: code x' :: codes s). cbn [starts_with]. rewrite H. by destruct (c =? code x). Qed.

(** ** Basic types *)

Definition basic_types : list type := [t_bool; t_int64; t_uint64; t_double; t_duration; t_time; t_string; t_ip; t_subnet].
(** What follows a type: no part of a name, and behind white space neither an attribute nor an
    operation on records. *)
Definition type_follow (f : list N) : Prop := starts_not is_identifier_char f ∧
  ∃ f', skp f = parsed tt f' ∧ skp f' = parsed tt f' ∧ (∀ t e, fails (algebra_parser t e) f') ∧ starts_not (N.eqb (code "#")) f'.
Ltac follow_types := let t := fresh "t" in let e := fresh "e" in split; [reflexivity|]; eexists; split; [reflexivity|]; split; [reflexivity|]; split; [intros t e; eexists; reflexivity|reflexivity].
Lemma follow_type f : operand_follow f → type_follow f.
Proof. intros Hf. pattern f. apply (follow_cases _ f Hf); [intros []; intros|..]; intros. all: follow_types. Qed.

Lemma attributes_end f f' : skp f = parsed tt f' → starts_not (N.eqb (code "#")) f' → attr_list f = parsed [] f.
Proof.
  intros Hs Hf. unfold attr_list, kleene_parser. cbn [kleene_loop]. assert (fails (skp ->> attr) f) as H.
  { eapply fails_seqright_right; [exact Hs|]. unfold attr. apply fails_sequence_left, fails_seqright. by apply fails_chr. }
  by rewrite (fails_restoring (skp ->> attr) f H).
Qed.
(** A type whose text is a name, where no rule reads more. *)
Lemma basic_type_text t f : t ∈ basic_types → type_follow f → ∃ l, legacy_type_parser (type_text t ++ f) = parsed l f ∧ ∀ sort, from_legacy_type sort l = t.
Proof.
  intros Ht (Hi & f' & Hs & Hs' & Ha & Hh).
  assert (∃ l, key_ok (type_text t) ∧ (∀ f, names_parser basic_names (type_text t ++ f) = parsed l f) ∧ starts_with (type_text t ++ f) (codes "record") = false ∧
    ∀ sort, from_legacy_type sort (plain_legacy l) = t) as (l & Hk & Hn & Hr & Hl).
  { unfold basic_types in Ht. apply list_elem_of_In in Ht. cbn in Ht.
    repeat (destruct Ht as [<-|Ht]; [eexists; split; [by split; [|repeat constructor]|]; split; [intros f0; reflexivity|]; by split|]). done. }
  exists (plain_legacy l). split; [|exact Hl]. unfold legacy_type_parser. cbn [rules]. destruct (rules _) as [q e]. cbn [fst]. unfold type_parser.
  apply (action_parsed _ (λ x, update_attributes x.2 x.1) _ (plain_legacy l, [])). eapply sequence_parsed; [|by eapply attributes_end]. do 5 apply choice_left. apply choice_right_fails.
  - unfold legacy_type_expr_parser. apply fails_action. eapply fails_sequence_right.
    + eapply sequence_left_parsed; [|exact Hs]. unfold algebra_operand_parser, algebra_leaf_parser. apply choice_left. apply choice_right_fails.
      * unfold legacy_record_type_parser. apply fails_action. do 2 apply fails_seqleft. do 1 apply fails_seqright. do 2 apply fails_seq_left. by apply fails_lit.
      * apply action_parsed. by apply identifier_text.
    + apply fails_plus. eapply fails_seqright_right; [exact Hs'|]. apply Ha.
  - apply action_parsed. eapply sequence_left_parsed; [apply Hn|]. unfold and_parser, not_parser. by rewrite identifier_char_fails.
Qed.

Section operands.
Context (E : externals) `{!RealText E} (sort : list (list N * list N) → list (list N * list N)) (P : print_externals).

Lemma no_scalar_second c c' f : c ∈ codes "intINT" → c' ∉ codes "nNaAiIoOrR" → no_scalar (c :: c' :: f) ∧ starts_with (c :: c' :: f) (codes "nil") = false ∧
  starts_with (c :: c' :: f) (codes "true") = false.
Proof.
  intros Hc Hc'. assert (∀ x, x ∈ codes "nNaAiIoOrR" → (c' =? x) = false) as Hn by (intros x Hx; apply N.eqb_neq; by intros ->).
  assert (∀ x : ascii, bool_decide (code x ∈ codes "nNaAiIoOrR") = true → (c' =? code x) = false) as H by (intros x Hx%bool_decide_eq_true; by apply Hn).
  split; [|split; apply starts_with_second; by apply H]. apply (no_scalar_word [] (c :: c' :: f)).
  1: done. all: rewrite ?app_nil_l; try (apply starts_with_second; by apply H).
  all: apply list_elem_of_In in Hc; cbn in Hc. all: try (repeat (destruct Hc as [<-|Hc]; [done|]); done).
  unfold real_start. rewrite !H by done. cbn [orb]. rewrite !andb_false_r. repeat (destruct Hc as [<-|Hc]; [done|]). done.
Qed.
Lemma word_no_data k f : word_start k = true → fails (data_parser E) (k ++ f).
Proof.
  intros Hk. destruct k as [|c k]; [done|]. cbn [app]. unfold fails, data_parser. cbn [data_rule]. apply orb_true_iff in Hk as [Hc%existsb_code|[Hc%existsb_code Hk]%andb_true_iff].
  - assert (no_scalar (c :: k ++ f)) as Hn.
    { apply list_elem_of_In in Hc. cbn in Hc. repeat (destruct Hc as [<-|Hc]; [by apply (no_scalar_word [])|]). done. }
    destruct (fails_early E _ Hn) as [He Hnum]. unfold data_alternatives. fold (early_scalars E). apply list_elem_of_In in Hc. cbn in Hc.
    repeat (destruct Hc as [<-|Hc]; [repeat first [exact He|exact Hnum|apply fails_choice]; by eexists|]). done.
  - destruct k as [|c' k]; [done|]. assert (c' ∉ codes "nNaAiIoOrR") as Hc'.
    { intros Hin. apply negb_true_iff, not_true_iff_false in Hk. apply Hk, existsb_exists. exists c'. split; [by apply list_elem_of_In|by apply N.eqb_refl]. }
    destruct (no_scalar_second c c' (k ++ f) Hc Hc') as (Hn & Hnil & Htrue). destruct (fails_early E _ Hn) as [He Hnum]. cbn [app]. unfold data_alternatives. fold (early_scalars E).
    assert (fails boolean (c :: c' :: k ++ f)) as Hb.
    { unfold fails, boolean, bool_parser. destruct (fails_lit "true" _ Htrue) as [f1 H]. pose proof (fails_restoring (lit "true") _ (fails_eq _ _ _ H)) as ->.
      destruct (fails_lit "false" (c :: c' :: k ++ f)) as [f2 ->]; [|by eexists]. apply list_elem_of_In in Hc. cbn in Hc. repeat (destruct Hc as [<-|Hc]; [done|]). done. }
    apply fails_lit in Hnil. apply list_elem_of_In in Hc. cbn in Hc.
    repeat first [exact He|exact Hnum|apply fails_choice|by apply fails_action]; repeat (destruct Hc as [<-|Hc]; [by eexists|]); done.
Qed.

(** ** Operands and predicates *)

(** The operands whose text is read back. *)
Inductive operand_ok : operand → Prop :=
| meta_ok m : operand_ok (meta_extractor m)
| type_ok t : t ∈ basic_types → operand_ok (type_extractor t)
| field_ok k ks : piece_ok k → Forall piece_ok ks → word_start k = true → operand_ok (field_extractor (join (k :: ks) [code "."]))
| constant_ok d : data_ok d → operand_ok (o_data d).
Definition predicate_ok (p : predicate) : Prop := operand_ok (lhs p) ∧ operand_ok (rhs p).

Abbreviation type_ := (legacy_type_parser ->* from_legacy_type sort).
Abbreviation read_operand := (operand_parser (data_parser E) type_).

Lemma data_fails_start c f : c ∈ group_start → fails (data_parser E) (c :: f).
Proof.
  intros Hc. unfold fails, data_parser. cbn [data_rule]. apply (rule_fails E). apply list_elem_of_In in Hc. apply list_elem_of_In. cbn in Hc |- *. tauto.
Qed.
Lemma operand_fails_start c f : c ∈ group_start → fails read_operand (c :: f).
Proof.
  intros Hc. pose proof (data_fails_start c f Hc) as Hd. unfold operand_parser. apply fails_choice; [repeat apply fails_choice; [by apply fails_action, fails_seqleft|..]|].
  all: apply list_elem_of_In in Hc; cbn in Hc; apply fails_action; repeat (destruct Hc as [<-|Hc]; [by eexists|]); done.
Qed.
Lemma hash_no_data f : fails (data_parser E) (code "#" :: f).
Proof. unfold fails, data_parser. cbn [data_rule]. apply (rule_fails E), list_elem_of_In. vm_compute. tauto. Qed.
Lemma colon_no_data f : starts_not (N.eqb colon) f → fails (data_parser E) (code ":" :: f).
Proof.
  intros Hf. assert (no_scalar (code ":" :: f)) as Hn.
  { repeat (split; [done|]). split; [exact (v4_none [] (code ":" :: f) (Forall_nil_2 _) eq_refl eq_refl)|by apply v6_colon]. }
  destruct (fails_early E _ Hn) as [He Hnum]. unfold fails, data_parser. cbn [data_rule]. unfold data_alternatives. fold (early_scalars E).
  repeat first [exact He|exact Hnum|apply fails_choice]; by eexists.
Qed.
Lemma word_alpha c k : word_start (c :: k) = true → isalpha c = true.
Proof.
  intros [Hc%existsb_code|[Hc%existsb_code _]%andb_true_iff]%orb_true_iff; apply list_elem_of_In in Hc; cbn in Hc; repeat (destruct Hc as [<-|Hc]; [done|]); done.
Qed.
Lemma alpha_code c (x : ascii) : isalpha c = true → isalpha (code x) = false → (c =? code x) = false.
Proof. intros Hc Hx. apply N.eqb_neq. intros ->. congruence. Qed.

Lemma operand_text x : operand_ok x → ∃ s, operand_printer (data_printer P) x = Some s ∧ s ≠ [] ∧ ∀ f, operand_follow f → read_operand (s ++ f) = parsed x f.
Proof.
  intros [m|t Ht|k ks Hk Hks Hw|d Hd].
  - destruct m; eexists; (split; [reflexivity|]); (split; [done|]); intros f _; unfold operand_parser.
    + do 3 apply choice_left. apply choice_right_fails; [apply fails_action, fails_seqleft, hash_no_data|]. apply (action_parsed _ (λ _, meta_extractor meta_type) _ tt). apply lit_parsed.
    + do 2 apply choice_left. apply choice_right_fails; [apply fails_choice; [apply fails_action, fails_seqleft, hash_no_data|apply fails_action, fails_lit; reflexivity]|].
      apply (action_parsed _ (λ _, meta_extractor meta_import_time) _ tt). apply lit_parsed.
  - eexists. split; [reflexivity|]. split; [done|]. intros f Hf%follow_type. destruct (basic_type_text t f Ht Hf) as (l & Hl & Hl').
    rewrite <- app_assoc. unfold operand_parser. apply choice_left, choice_right_fails.
    + repeat apply fails_choice; apply fails_action; [|by eexists..]. apply fails_seqleft, colon_no_data.
      unfold basic_types in Ht. apply list_elem_of_In in Ht. cbn in Ht. repeat (destruct Ht as [<-|Ht]; [reflexivity|]). done.
    + eapply sequence_right_parsed; [apply chr_parsed|]. rewrite <- (Hl' sort) at 2. apply (action_parsed _ type_extractor), (action_parsed _ _ _ _ _ Hl).
  - eexists. split; [reflexivity|]. split.
    { rewrite join_pieces. destruct Hk as [Hne _]. by destruct k. }
    intros f [_ Hf]%follow_data. unfold operand_parser. apply choice_right_fails.
    + rewrite join_pieces, <- app_assoc. pose proof (word_no_data k (dotted_pieces ks ++ f) Hw) as Hd. destruct Hk as [Hne Hk0], k as [|c k]; [done|]. cbn [app] in *.
      repeat apply fails_choice; apply fails_action; [by apply fails_seqleft|..].
      * apply fails_lit, starts_with_head. by apply alpha_code; [eapply word_alpha|].
      * apply fails_lit, starts_with_head. by apply alpha_code; [eapply word_alpha|].
      * apply fails_sequence_left, fails_chr. cbn [starts_not]. rewrite N.eqb_sym. by apply alpha_code; [eapply word_alpha|].
    + apply (action_parsed _ to_field_extractor _ (k :: ks)). apply field_text; [done..| |done]. destruct k as [|c k]; [done|]. cbn [starts_not].
      pose proof (word_alpha c k Hw) as Ha. by rewrite !alpha_code.
  - destruct (data_text_parsed E P d Hd) as (s & Hs & Hne & _ & Hr). exists s. split; [done|]. split; [done|]. intros f [Hf Hf']%follow_data. unfold operand_parser.
    do 4 apply choice_left. apply action_parsed. eapply sequence_left_parsed; [by apply Hr|]. unfold not_parser.
    assert (fails (ignore_parser field_char <|> chr ".") f) as [f1 ->]; [|done]. apply fails_choice.
    + apply fails_ignore. unfold fails. setoid_rewrite field_char_class. apply (fails_class is_field_char). destruct f as [|c f]; [done|]. by apply orb_false_iff in Hf' as [H _].
    + apply fails_chr. destruct f as [|c f]; [done|]. apply orb_false_iff in Hf' as [_ Hc]. cbn [starts_not]. by rewrite N.eqb_sym.
Qed.

Lemma operation_reads op f : operation (operator_name op ++ codes " " ++ f) = parsed op (codes " " ++ f).
Proof. by destruct op. Qed.
Lemma space_ws f : starts_not isspace f → ws (codes " " ++ f) = parsed tt f.
Proof. intros Hf. rewrite ws_spec. cbn [app]. by rewrite <- (skip_spaces_none f) at 2. Qed.
#[export] Instance predicates_text : PredicateText (predicate_parser E sort) (data_parser E) (predicate_printer (data_printer P)) predicate_ok.
Proof.
  assert (∀ x s, s ≠ [] → (∀ f, operand_follow f → read_operand (s ++ f) = parsed x f) → ∀ f, starts_not isspace (s ++ f)) as Hsp.
  { intros x s Hne Hr f. apply not_group_start_split. apply (not_group_start read_operand s x []); [apply operand_fails_start|apply Hr; by right; left|done]. }
  split; [|intros c f Hc; unfold predicate_parser, make_predicate_parser; by apply fails_action, fails_sequence_left, fails_sequence_left, fails_seqleft, operand_fails_start|apply data_fails_start].
  intros [l op r] [Hl Hr]. cbn [lhs rhs] in *. destruct (operand_text l Hl) as (s & Hs & Hne & Hrs), (operand_text r Hr) as (t & Ht & Hnt & Hrt).
  exists (s ++ operation_text op t). split; [unfold predicate_printer, operation_text; cbn [lhs rhs Expression.op]; by rewrite Hs; cbn [mbind option_bind]; rewrite Ht|]. split; [by destruct s|].
  intros f Hf. pose proof (Hsp _ _ Hnt Hrt f) as Htf. unfold operation_text. rewrite <- !app_assoc.
  apply (action_parsed _ to_predicate _ (l, op, r)). eapply sequence_parsed; [eapply sequence_parsed|].
  - eapply sequence_left_parsed; [apply (Hrs (operation_text op (t ++ f))); left; by eexists _, _|]. apply space_ws. by destruct op.
  - eapply sequence_left_parsed; [apply operation_reads|]. by apply space_ws.
  - apply Hrt. by right.
Qed.
End operands.
