(* ===== verification/ParserTheorems.v ===== *)
(** Properties of the parsers and printers: the combinators implement parsing expression
    grammars, numbers wrap at the width of their type, and what is printed is parsed. *)

From Stdlib Require Import Ascii String.
From S2P Require Import Prelude Coding Strings Operator Data Types Ip DataOps Expression ExpressionSpec Parser ParserPeg ParserNumeric ParserVast ParserVastSpec Calendar ParserTime ParserData ParserDataSpec ParserType ParserExpression ParserExpressionSpec.
#[local] Open Scope parser_scope.

(** ** Combinators *)

(** C9: The parsers built with the combinators implement parsing expression grammars. For a
    grammar whose loops consume input, the parser ends on every input, it accepts exactly what
    the semantics of the grammar derives, it fails exactly where the semantics fails, and then it
    leaves the iterator at its start. *)
Theorem combinators_implement_peg e f : well_formed e = true →
  recognizer e f ≠ loops ∧ (∀ r, recognizer e f = parsed tt r ↔ derives (meaning e) f (Some r)) ∧
  (recognizer e f = failed f ↔ derives (meaning e) f None).
Proof.
  intros Hw. destruct (recognizer_implements e Hw f) as [([] & f' & -> & Hd)|[-> Hd]]; (split_and!; [done|intros r|]);
    (split; [intros [=]; by subst|intros H; pose proof (derives_unique _ _ _ _ Hd H); by simplify_eq]).
Qed.

(** An identifier, and a list of numbers that ends in front of a trailing comma. *)
Definition numbers : grammar := e_list (e_plus (e_class isdigit)) (e_class (N.eqb (code ","))).
Lemma combinators_implement_peg_witness : recognizer numbers (codes "1,23,") = parsed tt (codes ",") ∧ derives (meaning numbers) (codes "1,23,") (Some (codes ",")).
Proof.
  split; [vm_compute; reflexivity|]. apply (combinators_implement_peg numbers (codes "1,23,")); vm_compute; reflexivity.
Defined.

(** ** Numbers *)

(** C38: A parser of an unsigned integral type reads up to one digit more than the type can hold
    in every case, and reduces the number to the width of the type: the result is the number
    modulo [2 ^ width], so a number that fits is read as it is, and one that does not is accepted
    with another value. *)
Theorem integral_wraps T ds f : T ∈ int_types → is_signed T = false → Forall is_decimal ds → (1 <= List.length ds <= S (digits10 T))%nat → no_digit f →
  integral T (ds ++ f) = parsed (decimal_value 0 ds mod 2 ^ width T)%Z f.
Proof.
  intros HT Hs Hds Hl Hf. rewrite integral_unsigned by done. unfold convert. by rewrite Hs.
Qed.
Lemma integral_wraps_witness : integral uint8 (codes "300") = parsed 44%Z [].
Proof. exact (integral_wraps uint8 (codes "300") [] ltac:(by do 4 right; left) eq_refl ltac:(by repeat constructor) ltac:(cbn; lia) I). Defined.

(** ** Addresses and subnets *)

Section addresses.
Context {pton ntop4 ntop6 : list N → option (list N)} `{!Inet pton ntop4 ntop6}.

(** C27: Every address that is printed is parsed to the same address, also when other text follows
    that an address cannot go on with: the grammar of the parser covers every text that RFC 4291
    allows, with all eight groups or a double colon at any place, and with a dotted quad at the
    end. Every subnet that was constructed is parsed from its text to the same subnet. *)
Theorem network_text_roundtrip x s f : ip.wf x → subnet_wf s → ends f →
  (∃ text, ip_printer ntop4 ntop6 x = Some text ∧ ip_parser pton (text ++ f) = parsed x f) ∧
  (∃ text, subnet_printer ntop4 ntop6 s = Some text ∧ subnet_parser pton (text ++ f) = parsed s f).
Proof. intros Hx Hs Hf. split; [by apply ip_roundtrip|]. apply subnet_roundtrip; [done|by apply ends_no_digit]. Qed.
End addresses.
Lemma network_text_roundtrip_witness :
  (∃ text, ip_printer reference_inet.ntop4 reference_inet.ntop6 (replicate 15 0 ++ [1]) = Some text ∧ ip_parser reference_inet.pton (text ++ codes ",") = parsed (replicate 15 0 ++ [1]) (codes ",")) ∧
  (∃ text, subnet_printer reference_inet.ntop4 reference_inet.ntop6 (subnet.make (ip.v4 [10; 1; 2; 3]) 8) = Some text ∧
    subnet_parser reference_inet.pton (text ++ codes ",") = parsed (subnet.mk (ip.v4 [10; 0; 0; 0]) 104) (codes ",")).
Proof.
  exact (network_text_roundtrip (replicate 15 0 ++ [1]) (subnet.make (ip.v4 [10; 1; 2; 3]) 8) (codes ",") ltac:(by split; [|repeat constructor])
    ltac:(by apply subnet_make_wf; split; [|repeat constructor]) ltac:(by split_and!)).
Defined.

(** ** Ports, offsets and UUIDs *)

(** C39: What is printed is parsed to the same value, when neither a digit nor a comma follows: integers
    of 8, 16, 32 and 64 bits except for the minimum of a signed type, of which only the sign is printed;
    ports with a number below 65536; offsets of one or more indices below 2^32; and UUIDs. *)
Theorem value_text_roundtrip T x p o u f : T ∈ int_types → int_range T x → x ≠ min_value T ∨ is_signed T = false →
  (0 <= ParserVast.number p < 65536)%Z → o ≠ [] → Forall (λ x, 0 <= x < 2 ^ 32)%Z o → ip.wf u → offset_ends f →
  integral T (print_int T x ++ f) = parsed x f ∧
  port_parser (port_printer p ++ f) = parsed p f ∧ offset_parser (offset_printer o ++ f) = parsed o f ∧
  uuid_parser.parse (uuid_printer u ++ f) = Some (f, u).
Proof.
  intros HT Hx Hm Hp Ho Ho' Hu Hf.
  split_and!; [apply integral_print; [done..|apply Hf]|apply port_roundtrip; [done|apply Hf]|by apply offset_roundtrip|by apply uuid_roundtrip].
Qed.
Lemma value_text_roundtrip_witness : integral int64 (codes "-9223372036854775807 ") = parsed (- 9223372036854775807)%Z (codes " ") ∧
  port_parser (codes "80/icmp ") = parsed (mk_port 80 icmp) (codes " ") ∧ offset_parser (codes "0,3,17 ") = parsed [0; 3; 17]%Z (codes " ") ∧
  uuid_parser.parse (codes "01020304-0506-0708-090a-0b0c0d0e0f10 ") = Some (codes " ", [1; 2; 3; 4; 5; 6; 7; 8; 9; 10; 11; 12; 13; 14; 15; 16]).
Proof.
  exact (value_text_roundtrip int64 (- 9223372036854775807) (mk_port 80 icmp) [0; 3; 17]%Z [1; 2; 3; 4; 5; 6; 7; 8; 9; 10; 11; 12; 13; 14; 15; 16] (codes " ")
    ltac:(by do 3 right; left) ltac:(by split; vm_compute) ltac:(by left)
    ltac:(by split; vm_compute) ltac:(done) ltac:(repeat constructor; by vm_compute) ltac:(by split; [|repeat constructor]) ltac:(by split)).
Defined.

(** ** Times *)

(** C28: The conversions between days and dates are the Gregorian calendar: every day from 1 March of the year 0
    until the year no longer fits 16 bits has a valid date, from which the day is computed back;
    day 0 is 1970-01-01, the next day has the next date, and every valid date is the date of its day. *)
Theorem calendar_exact z : (- 719468 <= z)%Z → (z + 1 < end_of_years)%Z →
  valid (from_days z) ∧ to_days (year (from_days z)) (month (from_days z)) (day (from_days z)) = z ∧
  from_days (z + 1)%Z = next_day (from_days z) ∧ from_days 0 = mk_ymd 1970 1 1 ∧
  ∀ x, valid x → (1 <= year x)%Z → from_days (to_days (year x) (month x) (day x)) = x.
Proof.
  intros Hz Hz'. destruct (to_from_days z ltac:(lia)) as [Ht Hv]. split_and!; [done|done|by apply from_days_succ|done|]. intros x Hx Hy. apply from_to_days; auto.
Qed.
Lemma calendar_exact_witness : from_days 11017 = next_day (from_days 11016) ∧ from_days 11016 = mk_ymd 2000 2 29 ∧ from_days 11017 = mk_ymd 2000 3 1.
Proof. split; [|by vm_compute]. exact (proj1 (proj2 (proj2 (calendar_exact 11016 ltac:(by vm_compute) ltac:(by vm_compute))))). Defined.

(** C34: A time point in the years 1900 to 9999 is printed with microseconds, and what is printed is
    parsed to a time that is less than two microseconds away, when what follows does not continue it,
    for every parser of doubles that reads two digits of seconds with six decimals with an error below a
    microsecond. Earlier years are not covered. *)
Theorem time_text_roundtrip real minutes_seconds is_second tp f `{!SecondsText real minutes_seconds is_second} :
  (-719468 <= tp / days < end_of_years)%Z → (1900 <= year (from_days (tp / days)) <= 9999)%Z → time_ends f →
  ∃ t, ymdhms_parser real minutes_seconds is_second (time_point_printer tp ++ f) = parsed t f ∧ (Z.abs (t - tp) < 2000)%Z.
Proof. apply time_point_text; done. Qed.
Lemma time_text_roundtrip_witness : ∃ t, ymdhms_parser reference_real.real reference_real.minutes_seconds reference_real.is_second
  (codes "2023-02-28T23:59:58.123456]") = parsed t (codes "]") ∧ (Z.abs (t - 1677628798123456789) < 2000)%Z.
Proof.
  exact (time_text_roundtrip reference_real.real reference_real.minutes_seconds reference_real.is_second 1677628798123456789 (codes "]")
    ltac:(by split; vm_compute) ltac:(by split; vm_compute) ltac:(by apply (bool_decide_unpack _))).
Defined.

(** ** Data *)

(** C20: The parser of data ends on every input, however deep the nesting, if the parser of doubles
    stays within the input, consumes what it accepts and ends. The parser of expressions then ends on
    every query where the parser of types ends behind each colon that does not begin data, among them
    all queries without a colon. The parser of types does not end on an input that does not begin with a
    character of a name, such as the empty one or one with a space in front: there the rule of
    operations on records leads to itself, at any depth. Neither does the parser of expressions on a
    colon in front of such an input, unless the colon begins data. *)
Theorem parsers_end E sort f g fuel `{!RealLaws E} : starts_not is_identifier_char g →
  data_parser E f ≠ loops ∧ (types_end E f = true → expression_parser E sort f ≠ loops) ∧ (code ":" ∉ f → expression_parser E sort f ≠ loops) ∧
  (rules fuel).1 g = loops ∧ legacy_type_parser g = loops ∧
  (succeeds_on (data_operand (data_parser E)) (code ":" :: g) = false → expression_parser E sort (code ":" :: g) = loops).
Proof.
  intros Hg. assert (legacy_type_parser g = loops) as Hl by (by apply type_rule_loops). split; [apply total_parser|]. split; [by apply (make_expression_ends _ _ _ _)|].
  split; [intros Hf; by apply (make_expression_ends _ _ _ _), colons_end_no_colon|]. split; [by apply type_rule_loops|]. split; [done|]. intros Hd. by apply (make_expression_loops _ _ _ _).
Qed.
Lemma parsers_end_witness : data_parser reference_externals (codes ":string == (x && ! (#type == [") ≠ loops ∧
  expression_parser reference_externals id (codes ":string == (x && ! (#type == [") ≠ loops ∧
  (rules 7).1 (codes " string == 5") = loops ∧ legacy_type_parser (codes " string == 5") = loops ∧ expression_parser reference_externals id (codes ": string == 5") = loops.
Proof.
  destruct (parsers_end reference_externals id (codes ":string == (x && ! (#type == [") (codes " string == 5") 7 eq_refl) as (Hd & He & _ & Hr & Ht & Hl).
  split; [exact Hd|]. split; [exact (He ltac:(by vm_compute))|]. split; [exact Hr|]. split; [exact Ht|]. exact (Hl ltac:(by vm_compute)).
Defined.

(** C13: Data that is printed is parsed to the same data when what follows does not continue it: none,
    booleans, integers of 64 bits, strings of printable ASCII characters without backslashes, patterns
    of characters that are no control characters, slashes or backslashes, and lists, maps with keys that
    differ, and records with distinct keys of letters, digits, _ and dots, of such data at any depth.
    Doubles, durations, times, addresses, subnets and enumerations are not covered. The parser of
    doubles reads an integer to its end or not at all, and nothing that does not begin like a number. *)
Theorem data_text_roundtrip E P d f `{!RealText E} : data_ok d → data_ends f = true →
  ∃ s, data_printer P d = Some s ∧ data_parser E (s ++ f) = parsed d f.
Proof. intros Hd Hf. destruct (data_text_parsed E P d Hd) as (s & Hs & _ & _ & Hr). exists s. split; [done|by apply Hr]. Qed.
Definition reference_printers : print_externals := mk_print_externals (λ _, codes "0.0") (λ _ _, codes "0.0") reference_inet.ntop4 reference_inet.ntop6.
Definition sample_data : data :=
  d_record [(codes "id", d_list [d_int64 (-42); d_uint64 7; d_none]); (codes "tags", d_map [(d_string (codes "a b"), d_bool true); (d_pattern (codes "x.*"), d_list [])])].
Lemma data_text_roundtrip_witness : ∃ s, data_printer reference_printers sample_data = Some s ∧ data_parser reference_externals (s ++ codes ", ") = parsed sample_data (codes ", ").
Proof.
  refine (data_text_roundtrip reference_externals reference_printers sample_data (codes ", ") _ eq_refl).
  cbn. unfold key_ok, string_ok, pattern_ok. split_and!; try done; try lia; try (by repeat constructor). by apply (bool_decide_unpack _).
Defined.

(** ** The query language *)

(** C35: In the text of a chain of operands without parentheses, [&&] binds stronger than [||]: the
    text is parsed to an expression whose value is that of the disjunction of the conjunctions
    between the [||], for every value of the predicates. *)
Theorem connectives_precedence E P sort e ys `{!RealText E} : expr_ok predicate_ok e → Forall (λ y, y.1 ≠ logical_not ∧ expr_ok predicate_ok y.2) ys →
  ∃ s texts r, expression_printer (data_printer P) e = Some s ∧ mapM (expression_printer (data_printer P)) ys.*2 = Some texts ∧
    parse_all (expression_parser E sort) (s ++ chain_text ys texts) = Some r ∧
    ∀ v, eval v r = existsb (forallb (eval v)) (conjunctions e ys).
Proof.
  intros He Hys. destruct (chain_parsed (predicate_parser E sort) (data_parser E) (data_printer P) predicate_ok e ys He Hys) as (s & texts & Hs & Ht & Hr).
  exists s, texts, (to_expr (e, ys)). split_and!; [done..|]. intros v. apply to_expr_conjunctions.
Qed.

(** C3: An expression that is printed is parsed to the same expression, if no part of it is empty, its
    conjunctions and disjunctions have two or more operands, its negations are not directly below a
    negation, and its predicates have, with any relational operator, operands that are #type,
    #import_time, a basic type without name and attributes, a field, or a value of the domain of the
    round trip of data. The name of a field is of pieces of letters, digits, _, - and :, separated by
    dots, and begins with a letter other than a hexadecimal digit, where i, n and t must have another
    character behind them that is not one of nNaAiIoOrR. Nesting is at any depth. The parser of doubles
    reads an integer to its end or not at all, and nothing that does not begin like a number. *)
Theorem expression_text_roundtrip E P sort e `{!RealText E} : expr_ok predicate_ok e →
  ∃ s, expression_printer (data_printer P) e = Some s ∧ parse_all (expression_parser E sort) s = Some e.
Proof. intros He. by apply (expression_text (predicate_parser E sort) (data_parser E) (data_printer P) predicate_ok). Qed.
Definition sample_predicates : list predicate :=
  [mk_predicate (meta_extractor meta_type) equal (o_data (d_string (codes "zeek.conn")));
   mk_predicate (field_extractor (codes "src.port")) in_ (o_data (d_list [d_uint64 80; d_uint64 443]));
   mk_predicate (type_extractor t_ip) not_equal (field_extractor (codes "orig_h"))].
Definition sample_expression : expression :=
  match e_predicate <$> sample_predicates with
  | [x; y; z] => disjunction [conjunction [x; negation (disjunction [y; z]); z]; negation y]
  | _ => e_none
  end.
Lemma sample_predicates_ok : Forall predicate_ok sample_predicates.
Proof.
  assert (∀ k, bool_decide (k ≠ [] ∧ Forall (λ c, is_field_char c = true) k) = true → piece_ok k) as Hk by (intros k Hk; exact (proj1 (bool_decide_eq_true _) Hk)).
  unfold sample_predicates. constructor; [|constructor; [|constructor; [|constructor]]]; split; unfold lhs, rhs.
  - constructor.
  - apply constant_ok. by repeat constructor.
  - apply (field_ok (codes "src") [codes "port"]); [by apply Hk|constructor; [by apply Hk|done]|done].
  - apply constant_ok. cbn. lia.
  - apply type_ok, list_elem_of_In. cbn. tauto.
  - apply (field_ok (codes "orig_h") []); [by apply Hk|done..].
Qed.
Lemma sample_expression_ok : expr_ok predicate_ok sample_expression.
Proof.
  pose proof sample_predicates_ok as H. inversion_clear H as [|? ? H1 H']; inversion_clear H' as [|? ? H2 H'']; inversion_clear H'' as [|? ? H3 _]. cbn. split_and!; try done; lia.
Qed.
Lemma expression_text_roundtrip_witness : ∃ s, expression_printer (data_printer reference_printers) sample_expression = Some s ∧
  parse_all (expression_parser reference_externals id) s = Some sample_expression.
Proof.
  exact (expression_text_roundtrip reference_externals reference_printers id sample_expression sample_expression_ok).
Defined.
Definition sample_chain : list (bool_operator * expression) :=
  match e_predicate <$> sample_predicates with [x; y; z] => [(logical_and, y); (logical_or, z); (logical_and, negation x)] | _ => [] end.
Lemma connectives_precedence_witness : ∃ s texts r,
  expression_printer (data_printer reference_printers) sample_expression = Some s ∧
  mapM (expression_printer (data_printer reference_printers)) sample_chain.*2 = Some texts ∧
  parse_all (expression_parser reference_externals id) (s ++ chain_text sample_chain texts) = Some r ∧
  ∀ v, eval v r = existsb (forallb (eval v)) (conjunctions sample_expression sample_chain).
Proof.
  refine (connectives_precedence reference_externals reference_printers id sample_expression sample_chain sample_expression_ok _).
  pose proof sample_predicates_ok as H. inversion_clear H as [|? ? H1 H']; inversion_clear H' as [|? ? H2 H'']; inversion_clear H'' as [|? ? H3 _].
  constructor; [split; [done|exact H2]|constructor; [split; [done|exact H3]|constructor; [split; [done|split; [exact I|exact H1]]|constructor]]].
Defined.
